(* ===== verification/_CoqProject ===== *)
-Q . S2P
Prelude.v
Floats.v
Text.v
Crc32c.v
Sha256.v
Key.v
Document.v
DirEntry.v
Directory.v
Geometry.v
Stripe.v
WriteLog.v
RamCache.v
LruCache.v
Clfus.v
RamCaches.v
Volume.v
VolumeSpec.v
VolumeCommit.v
VolumeFile.v
VolumeOpen.v
Alternates.v
AlternateSpec.v
AlternateChain.v
AlternateEdit.v
AlternateWrite.v
AlternateCommit.v
AlternateStore.v
VolumeOps.v
Cache.v
CacheSpec.v
BorrowProtocol.v
Waits.v
TokenLock.v
Seqlock.v
HttpMetadata.v
HttpAlternate.v
HitTracker.v
WorkQueue.v
AdaptivePool.v
ForkGate.v
Rounding.v
LoadMonitor.v
Engine.v
EngineSpec.v
Support.v
