(* ===== verification/Prelude.v ===== *)
(** * Cyclone Cache: a verification development

    Cyclone Cache is an embeddable HTTP object cache in C++.  A volume is one
    or more files split into stripes; each stripe is a circular log of
    documents, written at a frontier that wraps around, with a directory from
    keys to log offsets.  Several processes map the same directory.  Readers
    borrow bytes of the log without copying; a lease and borrow counters keep
    the frontier from overwriting what they hold.  In front of the log sits a
    RAM cache, behind it hit tracking and an optimization engine that makes
    alternates (compressed variants) of cached objects; an HTTP plugin chooses
    among alternates.

    ** Files, and the code each one models

    Shared ground:
    - Prelude: unsigned machine integers ([u8] to [u64], [fits]), bit
      operations, byte strings, the hint database [cyc].
    - Floats: IEEE binary32 and binary64 of the Standard Library's executable
      specification, with what the components need of their order.
    - Text: the string helpers of the HTTP plugin (http_metadata.cpp,
      http_alternate.cpp).

    Format:
    - Crc32c (crc32c.hpp, .cpp): portable, SSE4.2 and ARMv8 paths against one
      bitwise reference; error detection.  The CPU instructions are a class
      with their documented behaviour as laws.
    - Sha256 (sha256.hpp) and Key (key.hpp, key.cpp): the digest and the
      slices of it that place an object.
    - Document (document.hpp, .cpp): the wire header, the checksum's coverage,
      builder, reader, alternate links.  The checksum is a class; Crc32c
      discharges it.

    Directory:
    - DirEntry (directory.hpp): the packed 10-byte entry as a refinement of a
      plain record.
    - Directory (directory.hpp, directory.cpp): buckets, victim choice,
      conditional publish, removal, phases, images.  Which entries are still
      admissible is a class; Stripe discharges it.
    - Waits (directory.hpp): how long a thread spins, sleeps and watches one
      holder before it declares it stuck.
    - TokenLock (mmap_directory.cpp): the cross-process write lock and phase
      lock, one shared access per step, with death, recovery and escalation.
    - Seqlock (mmap_directory.cpp, .hpp): bucket writers, forced recovery and
      lock-free probes, one word per step.

    Volume:
    - Geometry (volume.hpp, volume.cpp): stripe count and layout, the
      multiply-high division.
    - Stripe (volume.hpp, volume.cpp): snapshots, admission of positions and
      documents, exposure thresholds, chain hops.
    - WriteLog (volume.cpp): leases, borrow slots, the gate, frontier
      advances, wraps, reservation and commit of a write, crash repair.
    - BorrowProtocol (volume.cpp): readers and the gate, one seq_cst access per
      step.
    - Volume (volume.cpp, volume.hpp, mapped_file.cpp): the operations that put
      the parts together: read_sync, exists_sync, the lease of a read handle,
      write handles, commit_write, remove_sync, over stripes, directory, log,
      the mapped bytes and the RAM cache interface.
    - VolumeSpec: probes, mapped documents, the writer's election, publishes
      and borrows, as lemmas; VolumeCommit: the invariant of a volume, that a
      successful write is what the next read returns, that a removed key is
      not found and other keys stay, and a document that is lost at the end of
      a file.
    - Alternates (volume.cpp): the chains of alternates: list_alternates_sync,
      read_alternate_sync with its selector, remove_alternate_sync,
      update_hit_count_sync and the in-place stores they share.
    - AlternateSpec: what a chain walk collects, that a listing is a strictly
      descending chain of the key's whole documents, and that a read serves
      the alternate the selector picked.
    - AlternateChain: the list of alternates a chain in the file stands for, and
      the walks over it; AlternateEdit: what a hit-count update and a removal do
      to that list.
    - AlternateWrite (volume.cpp): commit_alternate_write: the resolution of the
      chain, the plan of links and splices, the carry of a retained chain, the
      fill, the publish and the retries; AlternateCommit and AlternateStore: the
      resolution, the plan and the publish as lemmas on that list, and that a
      write replaces the alternate of its id or adds one.
    - VolumeOps: the operations of a volume, plain and on alternates, as one set,
      each of which keeps the volume's invariant.
    - VolumeFile (volume.hpp, volume.cpp): the volume header and its bytes,
      fingerprinted file names and the resolution of unsized ones, the
      collection of superseded files.
    - VolumeOpen (volume.cpp): opening with its header decision and reset gate,
      reset with the order of its writes, closing; an open gives a well-formed
      volume or leaves a closed one, spares a live peer's file, and a reset cut
      short leaves no header.
    - AdaptivePool (adaptive_pool.cpp): workers, the controller and the
      asynchronous stop interleaved access by access; the counts are exact, the
      join leaves nothing running, and a worker that sees the stop drains.
    - Cache (cache.cpp): the carve-out of the small tier, adding volumes, start
      and stop, the gate and the routing, the operations and the closes of
      handles; the default volumes share one RAM cache.
    - CacheSpec: the routing tables and volumes stay in order through every
      operation; a write is what the next read of its tier returns; the tiers
      do not touch each other; a stop refuses the operations on keys and the
      write handles given out before; the
      carve-out gives every process a stripe; a removal that misses a RAM copy.
    - ForkGate (mmap_directory.cpp, fork_gate.hpp): background passes and the
      fork handlers interleaved access by access, through the processes a fork
      makes; a fork copies no pass, and the gate never deadlocks.
    - Rounding: IEEE rounding respects representable bounds and signs;
      LoadMonitor (load_monitor.cpp): sharded counters, rates and loads; they
      are those of one plain counter, and the load stays between 0 and 1.
    - Engine (optimization_engine.cpp): reports, items, stops and the monitoring
      loop over the queue, the pool and the monitor; EngineSpec: one transform
      per item and no token left behind, exact counters (also of the items a
      stopping pool abandons), the queue's contract, the course of load shedding,
      and what the interleavings allow.
    - Support (metadata.hpp, write_buffer.cpp, plugin_manager.cpp,
      c_error_map.hpp): plugin metadata and its round trip, write buffers, the
      plugin registry, the C error codes.
    - HitTracker (hit_tracker.cpp): pending hits and their flushes, critical
      section by critical section.

    RAM caches:
    - RamCache (ram_cache.hpp): the interface and its contract as a class.
    - LruCache (lru.cpp), Clfus (clfus.cpp): the two implementations.
    - RamCaches: the factory, and the contract for either.

    Plugins and optimization:
    - HttpMetadata (http_metadata.cpp): dates, headers, the serialized blob,
      age and freshness.
    - HttpAlternate (http_alternate.cpp, alternate.hpp): negotiation, Vary,
      variant selection.
    - WorkQueue (work_queue.cpp): the bounded priority queue of optimization
      tasks and its blocking side.  The standard heap algorithms are a class.

    ** What the theorems show

    - The volume: a write that reports success is what the next read serves, as
      long as a page of file follows it, a removed key is not found, other keys
      stay, and the operations, plain and on alternates, return with the volume
      well formed ([VolumeCommit.write_then_read],
      [VolumeCommit.remove_then_read], [VolumeOps.volume_invariant]).
    - Crashes: the repair of a wrap that a dead writer left half done completes
      it ([WriteLog.crash_repair_completes]), and a reset cut short leaves no
      new header ([VolumeOpen.reset_header_last]).
    - Safety of zero-copy reads: a borrow that validated is never opened for
      overwriting while it is counted ([BorrowProtocol.validated_borrow_unopened],
      [WriteLog.counted_borrow_protected]); a reservation never overlaps what
      is live ([WriteLog.allocate_reserves]); a position admitted by a snapshot
      is not exposed ([Stripe.admitted_not_exposed]).
    - The shared directory: a superseded holder of the write lock passes no
      further revalidation ([TokenLock.revalidation_exclusive]), whole entries
      for lock-free probes ([Seqlock.probe_reads_whole_entries]), the directory's invariant and its
      publishes.
    - Formats: round trips, agreement of optimised and reference routines,
      detection of damaged bytes.
    - Caches and queues: each is a bounded map or queue that refines its
      contract, under every interleaving of its critical sections.
    - Negotiation: the variant chosen is a best one under the specificity
      rules.

    ** Conventions, bounds and fuel

    Integers are [Z] with explicit wrap-around at their width.  Clocks,
    callbacks, operating system answers and CPU instructions are arguments.
    Recursion is structural; the CLFUS eviction loop, which requeues, runs on a
    fuel proved sufficient ([Clfus.clfus_put_keeps_own_entry] is about the
    total function).  Concurrent components are step relations over the
    sequentially consistent interleavings of their shared accesses: the code
    uses seq_cst, or fences that give the same order, where it matters, and
    weaker orders are not modelled.  Generations and versions are counted
    without wrapping beside the width the code sees, and the theorems that
    need it assume the number of steps in flight below the width.

    ** Not modelled

    Mapping, growing and locking files, file descriptors and the
    process-liveness slots (mapped_file.cpp, most of mmap_directory.cpp) are
    operating system calls: what they answer is an argument where a component
    depends on it.  The stripes of a volume shared between processes are not
    built, so the volume's operations are those of a process-local stripe, each
    running alone; what processes share (the lock words, the bucket seqlocks,
    borrow slots, write log) is modelled on its own, interleaved.  Coroutine
    tasks and executors, the C API's glue and asynchronous reads, the directory
    syncer's timing, logging, statistics snapshots and test seams hold none of
    the cache's logic.  Memory exhaustion inside the standard containers is not
    modelled, except where the engine and the pool catch exceptions.

    Smaller gaps, each said at its file: hit flushes have a callback that is
    set and returns (HitTracker); a forced unwind inside a worker's pause wait
    is in the engine's model only (AdaptivePool, Engine); a turn of the
    monitoring loop is one step (Engine); the operating system's answers about
    one candidate file are independent of each other (VolumeFile).
*)

From Stdlib Require Export ZArith Lia.
From stdpp Require Export prelude list gmap.

#[global] Open Scope Z_scope.

(** ** Notations of the development *)

Declare Scope cyc_scope.
Delimit Scope cyc_scope with cyc.
Infix ".&" := Z.land (at level 40, left associativity) : cyc_scope.
Infix ".|" := Z.lor (at level 50, left associativity) : cyc_scope.
Infix ".^" := Z.lxor (at level 50, left associativity) : cyc_scope.
Infix "<<" := Z.shiftl (at level 38, left associativity) : cyc_scope.
Infix ">>" := Z.shiftr (at level 38, left associativity) : cyc_scope.

(** ** Unsigned machine integers

    A w-bit unsigned integer is a [Z] in [[0, 2^w)]; C++ conversions and
    arithmetic wrap with [u8], [u16], [u32] and [u64]. *)

Definition wrap (w x : Z) : Z := x mod 2 ^ w.
Definition u8 (x : Z) : Z := wrap 8 x.
Definition u16 (x : Z) : Z := wrap 16 x.
Definition u32 (x : Z) : Z := wrap 32 x.
Definition u64 (x : Z) : Z := wrap 64 x.

Definition fits (w x : Z) : Prop := 0 <= x < 2 ^ w.

(** Complement of a 32-bit register. *)
Definition not32 (x : Z) : Z := Z.lxor (u32 x) (2 ^ 32 - 1).

Create HintDb cyc.

Lemma wrap_fits w x : 0 <= w -> fits w (wrap w x).
Proof. intros; unfold fits, wrap. apply Z.mod_pos_bound. lia. Qed.

Lemma wrap_small w x : fits w x -> wrap w x = x.
Proof. apply Z.mod_small. Qed.

Lemma wrap_wrap w x : 0 <= w -> wrap w (wrap w x) = wrap w x.
Proof. intros; apply wrap_small, wrap_fits; lia. Qed.

#[export] Hint Resolve wrap_fits wrap_small : cyc.
#[export] Hint Extern 2 (_ <= _) => lia : cyc.
#[export] Hint Extern 2 (_ <= _)%nat => lia : cyc.
#[export] Hint Extern 2 (_ < _)%nat => lia : cyc.

(** ** Bits *)

Lemma testbit_wrap w x i :
  0 <= w -> 0 <= i -> Z.testbit (wrap w x) i = (i <? w) && Z.testbit x i.
Proof.
  intros Hw Hi. unfold wrap. destruct (Z.ltb_spec i w).
  - now rewrite Z.mod_pow2_bits_low by lia.
  - now rewrite Z.mod_pow2_bits_high by lia.
Qed.

Lemma fits_testbit w x i : fits w x -> w <= i -> 0 <= w -> Z.testbit x i = false.
Proof.
  intros Hx Hi Hw. rewrite <- (wrap_small w x Hx), testbit_wrap by lia.
  destruct (Z.ltb_spec i w); [lia | reflexivity].
Qed.

Lemma testbits_fit w x :
  0 <= w -> 0 <= x -> (forall i, w <= i -> Z.testbit x i = false) -> fits w x.
Proof.
  intros Hw Hx H. split; [done|]. destruct (Z.eq_dec x 0) as [->|]; [lia|].
  apply Z.log2_lt_pow2; [lia|]. destruct (Z.lt_ge_cases (Z.log2 x) w) as [|Hge]; [done|].
  specialize (H _ Hge). rewrite Z.bit_log2 in H by lia. congruence.
Qed.

Lemma fits_le a b x : a <= b -> 0 <= a -> fits a x -> fits b x.
Proof. unfold fits. intros ? ? [? ?]. pose proof (Z.pow_le_mono_r 2 a b). lia. Qed.

Lemma fits_lxor w a b : 0 <= w -> fits w a -> fits w b -> fits w (Z.lxor a b).
Proof.
  intros Hw Ha Hb. apply testbits_fit; [done| |].
  - apply Z.lxor_nonneg. unfold fits in *. lia.
  - intros i Hi. rewrite Z.lxor_spec.
    now rewrite (fits_testbit w a), (fits_testbit w b).
Qed.

Lemma fits_lor w a b : 0 <= w -> fits w a -> fits w b -> fits w (Z.lor a b).
Proof.
  intros Hw Ha Hb. apply testbits_fit; [done| |].
  - apply Z.lor_nonneg. unfold fits in *. lia.
  - intros i Hi. rewrite Z.lor_spec.
    now rewrite (fits_testbit w a), (fits_testbit w b).
Qed.

Lemma fits_land_r w a b : 0 <= w -> fits w b -> fits w (Z.land a b).
Proof.
  intros Hw Hb. apply testbits_fit; [done| |].
  - apply Z.land_nonneg. unfold fits in *. lia.
  - intros i Hi. rewrite Z.land_spec, (fits_testbit w b) by done. apply andb_false_r.
Qed.

Lemma fits_land_l w a b : 0 <= w -> fits w a -> fits w (Z.land a b).
Proof. intros. rewrite Z.land_comm. now apply fits_land_r. Qed.

Lemma fits_shiftr w a n : 0 <= w -> 0 <= n -> fits w a -> fits w (Z.shiftr a n).
Proof.
  intros Hw Hn Ha. apply testbits_fit; [done| |].
  - apply Z.shiftr_nonneg. unfold fits in *; lia.
  - intros i Hi. rewrite Z.shiftr_spec by lia. now apply (fits_testbit w); [|lia|].
Qed.

Lemma fits_shiftr_sub w a n : 0 <= n <= w -> fits w a -> fits (w - n) (Z.shiftr a n).
Proof.
  intros Hn Ha. apply testbits_fit; [lia| |].
  - apply Z.shiftr_nonneg. unfold fits in *; lia.
  - intros i Hi. rewrite Z.shiftr_spec by lia. now apply (fits_testbit w); [|lia|lia].
Qed.

Lemma fits_shiftl w a n : 0 <= w -> 0 <= n -> fits w a -> fits (w + n) (Z.shiftl a n).
Proof.
  intros Hw Hn [? ?]. unfold fits. rewrite Z.shiftl_mul_pow2, Z.pow_add_r by lia. nia.
Qed.

#[export] Hint Resolve fits_lxor fits_lor fits_land_r fits_land_l fits_shiftr : cyc.

(** [bits] turns an equality of integers into one of their bits. *)
Ltac bits_simpl :=
  rewrite ?Z.lxor_spec, ?Z.lor_spec, ?Z.land_spec, ?Z.ldiff_spec;
  repeat (rewrite Z.shiftr_spec by lia);
  repeat (rewrite Z.shiftl_spec by lia);
  repeat (rewrite testbit_wrap by lia);
  rewrite ?Z.lxor_spec, ?Z.lor_spec, ?Z.land_spec, ?Z.ldiff_spec.

Ltac bits := apply Z.bits_inj'; let i := fresh "i" in intros i ?; bits_simpl.

Lemma land_ones_wrap x w : 0 <= w -> Z.land x (2 ^ w - 1) = wrap w x.
Proof. intros. unfold wrap. rewrite <- Z.land_ones by lia. f_equal. rewrite Z.ones_equiv. lia. Qed.

Lemma land_255 x : Z.land x 255 = x mod 256.
Proof. apply (land_ones_wrap x 8). lia. Qed.

Lemma lor_add_disjoint a b : Z.land a b = 0 -> Z.lor a b = a + b.
Proof. intros H. rewrite Z.add_nocarry_lxor, Z.lxor_lor by done. done. Qed.

Lemma lor_shift_add w a b : 0 <= w -> fits w a -> Z.lor a (Z.shiftl b w) = a + b * 2 ^ w.
Proof.
  intros Hw Ha. rewrite lor_add_disjoint, Z.shiftl_mul_pow2 by
    (done || (apply Z.bits_inj'; intros i Hi; rewrite Z.land_spec, Z.shiftl_spec, Z.bits_0 by lia;
      destruct (Z.ltb_spec i w);
      [now rewrite (Z.testbit_neg_r b), andb_false_r by lia
      |now rewrite (fits_testbit w a)])).
  done.
Qed.

Lemma not32_fits x : fits 32 (not32 x).
Proof. apply fits_lxor; [lia | apply wrap_fits; lia | unfold fits; lia]. Qed.

Lemma not32_involutive x : fits 32 x -> not32 (not32 x) = x.
Proof.
  intros Hx. unfold not32 at 1. unfold u32. rewrite (wrap_small 32) by apply not32_fits.
  unfold not32, u32. rewrite (wrap_small 32 x) by done.
  now rewrite Z.lxor_assoc, Z.lxor_nilpotent, Z.lxor_0_r.
Qed.

Lemma not32_inj x y : fits 32 x -> fits 32 y -> not32 x = not32 y -> x = y.
Proof. intros Hx Hy H. rewrite <- (not32_involutive x), <- (not32_involutive y) by done. now f_equal. Qed.

#[export] Hint Resolve not32_fits : cyc.

(** Low part and high part of a number meet again. *)
Lemma split_at n x : 0 <= n -> Z.lxor (wrap n x) (Z.shiftl (Z.shiftr x n) n) = x.
Proof.
  intros. bits. destruct (Z.ltb_spec i n); cbn.
  - rewrite (Z.testbit_neg_r _ (i - n)) by lia. now rewrite xorb_false_r.
  - rewrite Z.shiftr_spec by lia. f_equal; lia.
Qed.

(** ** Little-endian byte strings

    A byte is a [Z] in [[0, 256)]; a C++ [span] or [vector] of bytes is a
    list of them. *)

Definition is_byte (b : Z) : Prop := fits 8 b.
Definition bytes_ok (l : list Z) : Prop := Forall is_byte l.

Fixpoint le_bytes (n : nat) (z : Z) : list Z :=
  match n with
  | O => []
  | S n => z mod 256 :: le_bytes n (z / 256)
  end.

Fixpoint le_val (l : list Z) : Z :=
  match l with
  | [] => 0
  | b :: l => b + 256 * le_val l
  end.

Lemma is_byte_iff b : is_byte b <-> 0 <= b < 256.
Proof. unfold is_byte, fits. change (2 ^ 8) with 256. done. Qed.

Lemma length_le_bytes n z : length (le_bytes n z) = n.
Proof. revert z. induction n; intros; cbn; auto. Qed.

Lemma le_bytes_ok n z : bytes_ok (le_bytes n z).
Proof.
  revert z. induction n; intros z; cbn; constructor; [|apply IHn].
  apply is_byte_iff, Z.mod_pos_bound. lia.
Qed.

Lemma pow256_succ n : 256 ^ Z.of_nat (S n) = 256 * 256 ^ Z.of_nat n.
Proof. rewrite Nat2Z.inj_succ, Z.pow_succ_r by lia. done. Qed.

Lemma le_val_le_bytes n z : le_val (le_bytes n z) = z mod 256 ^ Z.of_nat n.
Proof.
  revert z. induction n as [|n IH]; intros z; cbn [le_bytes le_val].
  - now rewrite Z.mod_1_r.
  - rewrite IH, pow256_succ.
    rewrite Z.rem_mul_r by lia. lia.
Qed.

Lemma le_val_le_bytes_fits n z : fits (8 * Z.of_nat n) z -> le_val (le_bytes n z) = z.
Proof.
  intros Hz. rewrite le_val_le_bytes. apply Z.mod_small. unfold fits in Hz.
  rewrite Z.pow_mul_r in Hz by lia. done.
Qed.

Lemma le_bytes_le_val l : bytes_ok l -> le_bytes (length l) (le_val l) = l.
Proof.
  induction 1 as [|b l Hb Hl IH]; cbn [length le_bytes le_val]; [done|].
  rewrite is_byte_iff in Hb.
  replace (b + 256 * le_val l) with (b + le_val l * 256) by lia.
  rewrite Z.mod_add, Z.div_add by lia.
  rewrite (Z.mod_small b), (Z.div_small b) by lia. rewrite Z.add_0_l. now rewrite IH.
Qed.

Lemma le_val_bound l : bytes_ok l -> 0 <= le_val l < 256 ^ Z.of_nat (length l).
Proof.
  induction 1 as [|b l Hb Hl IH]; cbn [length le_val]; [lia|].
  rewrite is_byte_iff in Hb. rewrite pow256_succ. lia.
Qed.

Lemma bytes_ok_app a b : bytes_ok (a ++ b) <-> bytes_ok a /\ bytes_ok b.
Proof. apply Forall_app. Qed.

Lemma bytes_ok_take n l : bytes_ok l -> bytes_ok (take n l).
Proof. apply Forall_take. Qed.

Lemma bytes_ok_drop n l : bytes_ok l -> bytes_ok (drop n l).
Proof. apply Forall_drop. Qed.

#[export] Hint Resolve le_bytes_ok bytes_ok_take bytes_ok_drop : cyc.

(** A boolean check, to establish [bytes_ok] of concrete strings. *)
Definition bytes_okb (l : list Z) : bool := forallb (fun b => (0 <=? b) && (b <? 256)) l.

Lemma bytes_okb_ok l : bytes_okb l = true -> bytes_ok l.
Proof.
  intros H. apply Forall_forall. intros x Hx. unfold bytes_okb in H. rewrite forallb_forall in H.
  specialize (H x (proj1 (list_elem_of_In _ _) Hx)). apply is_byte_iff. lia.
Qed.

Lemma lookup_map {A B} (f : A -> B) (l : list A) (i : nat) : map f l !! i = f <$> l !! i.
Proof. revert i. induction l as [|x l IH]; intros [|i]; cbn; auto. Qed.

(** [subspan data off n] is C++ [data.subspan(off, n)] inside its bounds. *)
Definition subspan {A} (data : list A) (off n : nat) : list A := take n (drop off data).

(** [write_at buf off src] is [memcpy] / [copy_n] of [src] into [buf] at [off]. *)
Definition write_at {A} (buf : list A) (off : nat) (src : list A) : list A :=
  take off buf ++ src ++ drop (off + length src) buf.

Section write_at.
Context {A : Type}.
Implicit Types (buf src : list A) (off n : nat).

Lemma length_write_at buf off src :
  (off + length src <= length buf)%nat -> length (write_at buf off src) = length buf.
Proof. intros. unfold write_at. rewrite !length_app, length_take, length_drop. lia. Qed.

Lemma take_write_at buf off src :
  (off + length src <= length buf)%nat ->
  take (off + length src) (write_at buf off src) = take off buf ++ src.
Proof.
  intros. unfold write_at. rewrite app_assoc, take_app_length'; [done|].
  rewrite length_app, length_take. lia.
Qed.

Lemma write_at_full buf off src :
  (off + length src = length buf)%nat -> write_at buf off src = take off buf ++ src.
Proof. intros. unfold write_at. rewrite drop_ge by lia. now rewrite app_nil_r. Qed.

Lemma write_at_take buf off src n :
  n = (off + length src)%nat -> (n <= length buf)%nat ->
  take n (write_at buf off src) = take off buf ++ src.
Proof. intros ->. apply take_write_at. Qed.
End write_at.

(** ** A string laid out as consecutive chunks *)

Fixpoint sum_sizes (l : list nat) : nat :=
  match l with [] => 0 | n :: l => n + sum_sizes l end.

(** Chunk [i] of a string of chunks with the given sizes sits at the sum of
    the sizes before it. *)
Lemma subspan_chunk {A} (chunks : list (list A)) sizes rest i c :
  Forall2 (fun c n => length c = n) chunks sizes ->
  chunks !! i = Some c ->
  subspan (concat chunks ++ rest) (sum_sizes (take i sizes)) (length c) = c.
Proof.
  intros HF. revert i. induction HF as [|d n chunks sizes Hd HF IH]; intros i Hi; [done|].
  cbn [concat]. rewrite <- app_assoc. destruct i as [|i].
  - injection Hi as ->. unfold subspan. cbn [take sum_sizes]. now rewrite drop_0, take_app_length.
  - cbn [take sum_sizes]. specialize (IH i Hi). unfold subspan in *.
    rewrite <- Hd, drop_app_add. done.
Qed.

(** Overwriting a whole chunk in place. *)
Lemma write_at_chunk {A} (chunks : list (list A)) sizes rest i src :
  Forall2 (fun c n => length c = n) chunks sizes ->
  (i < length chunks)%nat -> sizes !! i = Some (length src) ->
  write_at (concat chunks ++ rest) (sum_sizes (take i sizes)) src = concat (<[i := src]> chunks) ++ rest.
Proof.
  intros HF. revert i. induction HF as [|d n chunks sizes Hd HF IH]; intros i Hi Hs; [cbn in Hi; lia|].
  unfold write_at in *. cbn [concat]. rewrite <- app_assoc. destruct i as [|i].
  - cbn in Hs. injection Hs as ->. cbn [take sum_sizes]. rewrite take_0. cbn [app Nat.add].
    rewrite <- Hd, drop_app_length. cbn. now rewrite <- app_assoc.
  - cbn [take sum_sizes]. cbn in Hs, Hi. specialize (IH i ltac:(lia) Hs).
    rewrite <- Hd, take_app_add.
    change (<[S i := src]> (d :: chunks)) with (d :: <[i := src]> chunks). cbn [concat].
    rewrite <- !app_assoc. f_equal. rewrite <- Nat.add_assoc, drop_app_add. exact IH.
Qed.

Lemma length_concat_sizes {A} (chunks : list (list A)) sizes :
  Forall2 (fun c n => length c = n) chunks sizes -> length (concat chunks) = sum_sizes sizes.
Proof. induction 1; cbn; [done|]. rewrite length_app. lia. Qed.

(** ** Bytes of a patched buffer *)

Lemma subspan_write_at_same {A} (file src : list A) (abs off n : nat) : (off + length src <= n)%nat -> (abs + n <= length file)%nat ->
  subspan (write_at file (abs + off) src) abs n = write_at (subspan file abs n) off src.
Proof.
  intros Ho Hn. unfold subspan, write_at. rewrite drop_app_le by (rewrite length_take; lia). rewrite skipn_firstn_comm.
  replace (abs + off - abs)%nat with off by lia.
  rewrite take_app_ge by (rewrite length_take, length_drop; lia). rewrite length_take, length_drop, Nat.min_l by lia.
  rewrite take_app_ge by lia. f_equal; [by rewrite take_take, Nat.min_l by lia|]. f_equal.
  rewrite skipn_firstn_comm, drop_drop. f_equal; [lia|]. f_equal. lia.
Qed.

Lemma subspan_write_at_other {A} (file src : list A) (pos abs n : nat) : (pos + length src <= length file)%nat ->
  (abs + n <= pos \/ pos + length src <= abs)%nat -> subspan (write_at file pos src) abs n = subspan file abs n.
Proof.
  intros Hp Hd. apply list_eq. intros i. unfold subspan. destruct (Nat.lt_ge_cases i n) as [Hi|Hi]; [|by rewrite !lookup_take_ge by lia].
  rewrite !lookup_take_lt, !lookup_drop by lia. unfold write_at. destruct Hd as [Hd|Hd].
  - rewrite lookup_app_l, lookup_take_lt by (rewrite ?length_take; lia). done.
  - rewrite lookup_app_r by (rewrite length_take; lia). rewrite length_take, Nat.min_l by lia.
    rewrite lookup_app_r by lia. rewrite lookup_drop. f_equal. lia.
Qed.

(** ** Sums and counts over a list *)

Definition total {A} (f : A -> Z) (l : list A) : Z := foldr (fun x n => f x + n) 0 l.
Definition tally {A} (f : A -> bool) (l : list A) : Z := total (fun x => Z.b2z (f x)) l.
#[global] Arguments total : simpl never.
#[global] Arguments tally : simpl never.

Section total.
Context {A : Type}.
Implicit Types (f g : A -> Z) (p : A -> bool) (l : list A).

Lemma total_concat f l1 l2 : total f (l1 ++ l2) = total f l1 + total f l2.
Proof. unfold total. induction l1 as [|x l1 IH]; cbn [app foldr]; [done|]. rewrite IH. lia. Qed.

Lemma total_insert f l i x y : l !! i = Some x -> total f (<[i := y]> l) = total f l - f x + f y.
Proof.
  revert i. unfold total. induction l as [|z l IH]; intros [|i] H; try done; cbn in H; simplify_eq.
  - cbn. lia.
  - change (<[S i := y]> (z :: l)) with (z :: <[i := y]> l). cbn [foldr]. rewrite (IH i) by done. lia.
Qed.

Lemma total_le f g l : Forall (fun x => f x <= g x) l -> total f l <= total g l.
Proof. unfold total. induction 1; cbn; lia. Qed.

Lemma total_const c l : total (fun _ => c) l = c * Z.of_nat (length l).
Proof. unfold total. induction l as [|x l IH]; cbn [foldr length]; lia. Qed.

Lemma total_add f g l : total (fun x => f x + g x) l = total f l + total g l.
Proof. unfold total. induction l as [|x l IH]; cbn [foldr]; lia. Qed.

Lemma total_at_least_0 f l : Forall (fun x => 0 <= f x) l -> 0 <= total f l.
Proof. unfold total. induction 1; cbn; lia. Qed.

Lemma tally_app p l1 l2 : tally p (l1 ++ l2) = tally p l1 + tally p l2.
Proof. apply total_concat. Qed.

Lemma tally_insert p l i x y : l !! i = Some x -> tally p (<[i := y]> l) = tally p l - Z.b2z (p x) + Z.b2z (p y).
Proof. exact (total_insert (fun x => Z.b2z (p x)) l i x y). Qed.

Lemma tally_map p h l : (forall x, p (h x) = p x) -> tally p (map h l) = tally p l.
Proof. intros H. unfold tally, total. induction l as [|x l IH]; cbn [map foldr]; [done|]. now rewrite H, IH. Qed.

Lemma tally_none p l : Forall (fun x => p x = false) l -> tally p l = 0.
Proof. unfold tally, total. induction 1 as [|x l Hx _ IH]; cbn [foldr]; [done|]. rewrite Hx, IH. done. Qed.

Lemma tally_range p l : 0 <= tally p l <= Z.of_nat (length l).
Proof. unfold tally, total. induction l as [|x l IH]; cbn [foldr length]; [lia|]. destruct (p x); cbn [Z.b2z]; lia. Qed.

Lemma tally_zero p l i x : tally p l = 0 -> l !! i = Some x -> p x = false.
Proof.
  intros E H. destruct (p x) eqn:P; [|done]. apply list_elem_of_split_length in H as (l1 & l2 & -> & _).
  revert E. rewrite tally_app. change (tally p (x :: l2)) with (Z.b2z (p x) + tally p l2). rewrite P.
  pose proof (tally_range p l1). pose proof (tally_range p l2). cbn. lia.
Qed.
End total.
