(* ===== verification/Floats.v ===== *)
(** * IEEE arithmetic

    [float] is binary32 and [double] binary64, in the Standard Library's
    executable specification (round to nearest even); and the order on their
    values, which every comparison of the source goes through. *)

From Stdlib Require Export SpecFloat.
From S2P Require Import Prelude.

Abbreviation double := spec_float.
Abbreviation float := spec_float.

Definition double_of (z : Z) : double := binary_normalize 53 1024 z 0 false.
Definition dmul : double -> double -> double := SFmul 53 1024.
Definition dadd : double -> double -> double := SFadd 53 1024.
Definition dsub : double -> double -> double := SFsub 53 1024.
Definition ddiv : double -> double -> double := SFdiv 53 1024.

Definition float_of (z : Z) : float := binary_normalize 24 128 z 0 false.
Definition fmul : float -> float -> float := SFmul 24 128.
Definition fadd : float -> float -> float := SFadd 24 128.
Definition fdiv : float -> float -> float := SFdiv 24 128.

Definition fgt (a b : float) : bool := SFltb b a.

(** The order, through a key: sign class, exponent and mantissa. *)
Definition order_of (f : spec_float) : option (Z * Z * Z) :=
  match f with
  | S754_nan => None
  | S754_zero _ => Some (0, 0, 0)
  | S754_infinity s => Some ((if s then -2 else 2), 0, 0)
  | S754_finite false m e => Some (1, e, Zpos m)
  | S754_finite true m e => Some (-1, - e, Zneg m)
  end.

Definition below (a b : Z * Z * Z) : Prop :=
  a.1.1 < b.1.1 \/ (a.1.1 = b.1.1 /\ (a.1.2 < b.1.2 \/ (a.1.2 = b.1.2 /\ a.2 < b.2))).

Lemma SFltb_iff f g :
  SFltb f g = true <-> exists a b, order_of f = Some a /\ order_of g = Some b /\ below a b.
Proof.
  unfold SFltb, below. destruct f as [s|s| |s m e], g as [s'|s'| |s' m' e'];
    try destruct s; try destruct s'; cbn [SFcompare order_of];
    try (split; [discriminate|intros (a & b & E1 & E2 & Hb); discriminate]).
  all: try (split; [intros _; do 2 eexists; split; [reflexivity|]; split; [reflexivity|]; cbn; lia|done]).
  all: try (split; [discriminate|intros (a & b & [= <-] & [= <-] & Hb); cbn in Hb; lia]).
  all: change (Pos.compare_cont Eq m m') with (Pos.compare m m').
  all: destruct (Z.compare_spec e e'); try destruct (Pos.compare_spec m m'); cbn [CompOpp];
    (split; [first [discriminate|intros _; do 2 eexists; split; [reflexivity|]; split; [reflexivity|]; cbn; lia]
            |intros (a & b & [= <-] & [= <-] & Hb); cbn in Hb; try reflexivity; lia]).
Qed.

Lemma SFltb_irrefl f : SFltb f f = false.
Proof.
  apply not_true_iff_false. intros (a & b & E1 & E2 & Hb)%SFltb_iff. rewrite E1 in E2. injection E2 as <-.
  unfold below in Hb. lia.
Qed.

Lemma SFltb_trans f g h : SFltb f g = true -> SFltb g h = true -> SFltb f h = true.
Proof.
  rewrite !SFltb_iff. intros (a & b & E1 & E2 & Hab) (b' & c & E2' & E3 & Hbc). rewrite E2 in E2'. injection E2' as <-.
  exists a, c. split; [done|]. split; [done|]. unfold below in *. lia.
Qed.

Lemma SFleb_iff f g :
  SFleb f g = true <-> exists a b, order_of f = Some a /\ order_of g = Some b /\ ~ below b a.
Proof.
  unfold SFleb, below. destruct f as [s|s| |s m e], g as [s'|s'| |s' m' e'];
    try destruct s; try destruct s'; cbn [SFcompare order_of];
    try (split; [discriminate|intros (a & b & E1 & E2 & Hb); discriminate]).
  all: try (split; [intros _; do 2 eexists; split; [reflexivity|]; split; [reflexivity|]; cbn; lia|done]).
  all: try (split; [discriminate|intros (a & b & [= <-] & [= <-] & Hb); cbn in Hb; lia]).
  all: change (Pos.compare_cont Eq m m') with (Pos.compare m m').
  all: destruct (Z.compare_spec e e'); try destruct (Pos.compare_spec m m'); cbn [CompOpp];
    (split; [first [discriminate|intros _; do 2 eexists; split; [reflexivity|]; split; [reflexivity|]; cbn; lia]
            |intros (a & b & [= <-] & [= <-] & Hb); cbn in Hb; try reflexivity; lia]).
Qed.

Lemma SFltb_leb_trans f g h : SFltb f g = true -> SFleb g h = true -> SFltb f h = true.
Proof.
  rewrite !SFltb_iff, SFleb_iff. intros (a & b & E1 & E2 & Hab) (b' & c & E2' & E3 & Hbc). rewrite E2 in E2'. injection E2' as <-.
  exists a, c. split; [done|]. split; [done|]. unfold below in *. lia.
Qed.

Lemma SFltb_leb f g : SFltb f g = true -> SFleb g f = false.
Proof.
  intros H. apply not_true_iff_false. intros Hl. pose proof (SFltb_leb_trans _ _ _ H Hl) as Hc.
  now rewrite SFltb_irrefl in Hc.
Qed.

(** ** Integers convert to finite doubles *)

Lemma digits2_bound p : 2 ^ (Zpos (digits2_pos p) - 1) <= Zpos p < 2 ^ Zpos (digits2_pos p).
Proof.
  induction p as [p IH|p IH|]; simpl digits2_pos; [| |done].
  all: rewrite Pos2Z.inj_succ; unfold Z.succ; rewrite Z.add_simpl_r, Z.pow_add_r by lia.
  all: replace (Zpos (digits2_pos p)) with (Zpos (digits2_pos p) - 1 + 1) at 1 by lia.
  all: rewrite Z.pow_add_r in * by lia; lia.
Qed.

Lemma Zdigits2_le m k : 0 <= m < 2 ^ k -> 0 <= k -> 0 <= Zdigits2 m <= k.
Proof.
  intros Hm Hk. destruct m as [|p|p]; simpl; [lia | | lia]. split; [lia|].
  destruct (Z.le_gt_cases (Zpos (digits2_pos p)) k) as [|Hgt]; [done|]. exfalso.
  pose proof (digits2_bound p) as [Hlo _]. pose proof (Z.pow_le_mono_r 2 k (Zpos (digits2_pos p) - 1)). lia.
Qed.

Lemma shr_1_le r : 0 <= shr_m r -> 0 <= shr_m (shr_1 r) <= shr_m r.
Proof. destruct r as [[|[p|p|]|p] b s]; simpl; lia. Qed.

Lemma iter_shr_1_le n : forall r, 0 <= shr_m r -> 0 <= shr_m (SpecFloat.iter_pos shr_1 n r) <= shr_m r.
Proof.
  induction n as [n IH|n IH|]; intros r Hr; simpl; [| |by apply shr_1_le].
  - pose proof (shr_1_le r Hr) as H1. pose proof (IH _ (proj1 H1)) as H2. pose proof (IH _ (proj1 H2)). lia.
  - pose proof (IH _ Hr) as H1. pose proof (IH _ (proj1 H1)). lia.
Qed.

Lemma shr_fexp_range prec emax m e l : 0 <= m -> 0 <= shr_m (shr_fexp prec emax m e l).1 <= m.
Proof.
  intros Hm. unfold shr_fexp, shr. assert (Hr : shr_m (shr_record_of_loc m l) = m) by (by destruct l as [|[]]).
  destruct (Z.sub _ e) as [|p|p]; simpl; [lia | | lia]. pose proof (iter_shr_1_le p (shr_record_of_loc m l)). lia.
Qed.

(** One rounding shift: the mantissa does not grow, and the exponent is bounded
    by the digits. *)
Lemma shr_fexp_bound m e l k : 0 <= m < 2 ^ k -> 0 <= k -> -1000 <= e + k ->
  let '(r, e') := shr_fexp 53 1024 m e l in 0 <= shr_m r <= m /\ e <= e' <= Z.max e (e + k).
Proof.
  intros Hm Hk He. unfold shr_fexp. pose proof (Zdigits2_le m k Hm Hk) as Hd.
  assert (Hr : shr_m (shr_record_of_loc m l) = m) by (by destruct l as [|[]]).
  unfold shr, fexp, SpecFloat.emin. set (n := Z.sub (Z.max _ _) e).
  assert (Hn : n <= Z.max 0 k) by (unfold n; lia).
  destruct n as [|p|p]; [split; [lia|lia] | | split; [lia|lia]].
  pose proof (iter_shr_1_le p (shr_record_of_loc m l)). split; lia.
Qed.

Lemma round_nearest_even_range m l : 0 <= m -> 0 <= round_nearest_even m l <= m + 1.
Proof. intros H. destruct l as [|[]]; simpl; [lia | destruct (Z.even m); lia | lia | lia]. Qed.

Definition is_finite (f : spec_float) : bool := match f with S754_zero _ | S754_finite _ _ _ => true | _ => false end.

(** Rounding never makes a NaN. *)
Lemma binary_round_aux_ordered sx m e l : 0 <= m -> order_of (binary_round_aux 53 1024 sx m e l) <> None.
Proof.
  intros Hm. unfold binary_round_aux. pose proof (shr_fexp_range 53 1024 m e l Hm) as H1.
  destruct (shr_fexp 53 1024 m e l) as [r1 e1]. simpl in H1.
  set (m1 := round_nearest_even _ _). pose proof (round_nearest_even_range (shr_m r1) (loc_of_shr_record r1) ltac:(lia)) as Hm1.
  pose proof (shr_fexp_range 53 1024 m1 e1 loc_Exact ltac:(lia)) as H2.
  destruct (shr_fexp 53 1024 m1 e1 loc_Exact) as [r2 e2]. simpl in H2.
  destruct (shr_m r2) as [|p|p]; [by destruct sx | | lia]. destruct (_ <=? _); by destruct sx.
Qed.

Lemma binary_normalize_ordered m e s : order_of (binary_normalize 53 1024 m e s) <> None.
Proof.
  destruct m as [|p|p]; simpl; [done | |]; unfold binary_round; destruct (shl_align _ _ _); by apply binary_round_aux_ordered.
Qed.

Lemma binary_round_aux_finite sx m e l k : 0 <= m < 2 ^ k -> 0 <= k -> -900 <= e + k ->
  Z.max e (e + k) + k + 1 <= 971 -> is_finite (binary_round_aux 53 1024 sx m e l) = true.
Proof.
  intros Hm Hk He Hmax. unfold binary_round_aux.
  pose proof (shr_fexp_bound m e l k Hm Hk ltac:(lia)) as H1. destruct (shr_fexp 53 1024 m e l) as [r1 e1].
  set (m1 := round_nearest_even _ _). pose proof (round_nearest_even_range (shr_m r1) (loc_of_shr_record r1) ltac:(lia)) as Hm1.
  fold m1 in Hm1. assert (Hm1' : 0 <= m1 < 2 ^ (k + 1)) by (rewrite Z.pow_add_r by lia; lia).
  pose proof (shr_fexp_bound m1 e1 loc_Exact (k + 1) Hm1' ltac:(lia) ltac:(lia)) as H2.
  destruct (shr_fexp 53 1024 m1 e1 loc_Exact) as [r2 e2].
  destruct (shr_m r2) as [|p|p]; [done | | lia].
  destruct (Z.leb_spec e2 (1024 - 53)); [done | lia].
Qed.

Lemma shift_pos_value p d : Zpos (Pos.iter xO p d) = Zpos p * 2 ^ Zpos d.
Proof.
  revert p. induction d as [|d IH] using Pos.peano_ind; intros p; [simpl; lia|].
  rewrite Pos.iter_succ, Pos2Z.inj_succ, Z.pow_succ_r by lia. change (Zpos (xO (Pos.iter xO p d))) with (2 * Zpos (Pos.iter xO p d)).
  rewrite IH. lia.
Qed.

Lemma double_of_finite z : Z.abs z < 2 ^ 64 -> is_finite (double_of z) = true.
Proof.
  intros Hz. unfold double_of, binary_normalize. destruct z as [|p|p]; [done | |].
  all: unfold binary_round, shl_align, fexp, SpecFloat.emin; pose proof (digits2_bound p) as Hp;
    pose proof (Zdigits2_le (Zpos p) 64 ltac:(simpl in Hz; lia) ltac:(lia)) as Hd; cbn [Zdigits2] in Hd.
  all: set (n := Z.sub (Z.max _ _) 0); assert (Hn : n = Zpos (digits2_pos p) - 53) by (unfold n; lia).
  all: destruct n as [|d|d]; try (apply (binary_round_aux_finite _ _ _ _ 64); simpl in Hz; lia).
  all: apply (binary_round_aux_finite _ _ _ _ 53); rewrite ?shift_pos_value; try lia.
  all: split; [lia|]; replace 53 with (Zpos (digits2_pos p) + Zpos d) by lia; rewrite Z.pow_add_r by lia;
    apply Z.mul_lt_mono_pos_r; lia.
Qed.

Lemma finite_ordered f : is_finite f = true -> order_of f <> None.
Proof. by destruct f as [[]|[]| |[]]. Qed.

Lemma dmul_ordered f g : is_finite f = true -> is_finite g = true -> order_of (dmul f g) <> None.
Proof. destruct f, g; try done. intros _ _. unfold dmul. simpl. by apply binary_round_aux_ordered. Qed.

Lemma dsub_ordered f g : order_of f <> None -> is_finite g = true -> order_of (dsub f g) <> None.
Proof.
  intros Hf Hg. destruct f as [[]|[]| |[]], g as [[]|[]| |[]]; try done; unfold dsub; cbn [SFsub];
    apply binary_normalize_ordered.
Qed.
