(* ===== verification/Text.v ===== *)
(** * Text, as the HTTP components handle it

    A [std::string] or [std::string_view] is a list of bytes.  The helpers of
    http_metadata.cpp and http_alternate.cpp that both use: case folding in
    the C locale, trimming, searching, splitting at a separator, and the
    lexicographic order of [std::string] under which [std::map] and
    [std::sort] work. *)

From Stdlib Require Import Ascii String.
From S2P Require Import Prelude.

Abbreviation text := (list Z).

(** Literals. *)
Definition str (s : string) : text := map (fun c => Z.of_N (N_of_ascii c)) (list_ascii_of_string s).
Definition chr (c : ascii) : Z := Z.of_N (N_of_ascii c).

Definition lower_char (c : Z) : Z := if (65 <=? c) && (c <=? 90) then c + 32 else c.
Definition lower_name (name : text) : text := map lower_char name.

Definition iequals (a b : text) : bool :=
  (length a =? length b)%nat && forallb (fun p => lower_char p.1 =? lower_char p.2) (zip a b).

(** [while (!s.empty() && p(s.front())) s.remove_prefix(1)], and the same from
    the back. *)
Fixpoint drop_front (p : Z -> bool) (s : text) : text :=
  match s with
  | c :: s' => if p c then drop_front p s' else s
  | [] => []
  end.
Definition drop_back (p : Z -> bool) (s : text) : text := rev (drop_front p (rev s)).

Definition is_ows (c : Z) : bool := (c =? 32) || (c =? 9).
Definition trim (s : text) : text := drop_back is_ows (drop_front is_ows s).

(** [s.find(c)]; [None] is [npos]. *)
Fixpoint find (c : Z) (s : text) : option nat :=
  match s with
  | [] => None
  | x :: s' => if x =? c then Some 0%nat else S <$> find c s'
  end.

(** The pieces between separators, and the ones a loop visits that stops when
    its position reaches the end of the text: an empty last piece is not
    visited. *)
Fixpoint split_on (sep : Z) (s : text) : list text :=
  match s with
  | [] => [[]]
  | x :: s' =>
      if x =? sep then [] :: split_on sep s'
      else match split_on sep s' with
           | p :: ps => (x :: p) :: ps
           | [] => [[x]]
           end
  end.

Definition pieces (sep : Z) (s : text) : list text :=
  match last (split_on sep s) with
  | Some [] => removelast (split_on sep s)
  | _ => split_on sep s
  end.

(** ** The order of [std::string] *)

Fixpoint text_ltb (a b : text) : bool :=
  match a, b with
  | [], _ :: _ => true
  | _, [] => false
  | x :: a', y :: b' => (x <? y) || ((x =? y) && text_ltb a' b')
  end.

Lemma text_ltb_irrefl a : text_ltb a a = false.
Proof. induction a as [|x a IH]; [done|]. cbn. now rewrite Z.ltb_irrefl, Z.eqb_refl, IH. Qed.

Lemma text_ltb_cons x a y b : text_ltb (x :: a) (y :: b) = true <-> x < y \/ (x = y /\ text_ltb a b = true).
Proof. cbn. rewrite orb_true_iff, andb_true_iff, Z.ltb_lt, Z.eqb_eq. done. Qed.

Lemma text_ltb_trans a b c : text_ltb a b = true -> text_ltb b c = true -> text_ltb a c = true.
Proof.
  revert b c. induction a as [|x a IH]; intros [|y b] [|z c]; try done.
  rewrite !text_ltb_cons. intros [?|[-> ?]] [?|[-> ?]]; try lia. right. split; [done|]. now apply (IH b).
Qed.

Lemma text_ltb_total a b : text_ltb a b = false -> text_ltb b a = false -> a = b.
Proof.
  revert b. induction a as [|x a IH]; intros [|y b]; try done. rewrite <- !not_true_iff_false, !text_ltb_cons.
  intros H1 H2. assert (x = y) as -> by lia. f_equal. apply IH; apply not_true_iff_false; tauto.
Qed.

(** ** [std::map<std::string, V>] as a sorted association list *)

Section map.
Context {V : Type}.
Implicit Types (l : list (text * V)) (k : text) (v : V).

Fixpoint map_set k v l : list (text * V) :=
  match l with
  | [] => [(k, v)]
  | (k', v') :: l' =>
      if text_ltb k k' then (k, v) :: l
      else if text_ltb k' k then (k', v') :: map_set k v l'
      else (k, v) :: l'
  end.

Fixpoint map_find k l : option V :=
  match l with
  | [] => None
  | (k', v') :: l' => if bool_decide (k = k') then Some v' else map_find k l'
  end.

Definition above k (p : text * V) : Prop := text_ltb k p.1 = true.

Fixpoint sorted_map l : Prop :=
  match l with
  | [] => True
  | p :: l' => Forall (above p.1) l' /\ sorted_map l'
  end.

Lemma map_set_above k0 k v l : text_ltb k0 k = true -> Forall (above k0) l -> Forall (above k0) (map_set k v l).
Proof.
  intros Hk Hl. induction Hl as [|[k' v'] l Hp Hl IH]; cbn [map_set]; [now repeat constructor|].
  destruct (text_ltb k k'); [now repeat constructor|]. destruct (text_ltb k' k); now constructor.
Qed.

Lemma map_set_sorted k v l : sorted_map l -> sorted_map (map_set k v l).
Proof.
  induction l as [|[k' v'] l IH]; cbn [map_set sorted_map fst]; intros Hs; [done|]. destruct Hs as [Ha Hs].
  destruct (text_ltb k k') eqn:E1; [|destruct (text_ltb k' k) eqn:E2]; cbn [sorted_map fst].
  - split; [|done]. constructor; [done|]. eapply Forall_impl; [exact Ha|]. intros p Hp. now apply (text_ltb_trans k k').
  - split; [now apply map_set_above|now apply IH].
  - now rewrite (text_ltb_total k k' E1 E2).
Qed.

Lemma map_find_set k k' v l : map_find k (map_set k' v l) = if bool_decide (k = k') then Some v else map_find k l.
Proof.
  induction l as [|[k0 v0] l IH]; cbn [map_set map_find]; [done|].
  destruct (text_ltb k' k0) eqn:E1; [done|destruct (text_ltb k0 k') eqn:E2]; cbn [map_find].
  - rewrite IH. do 2 case_bool_decide; try done. subst. now rewrite text_ltb_irrefl in E2.
  - rewrite <- (text_ltb_total k' k0 E1 E2). now case_bool_decide.
Qed.

(** Keys in increasing order go to the end. *)
Lemma map_set_last k v l : Forall (fun p => text_ltb p.1 k = true) l -> map_set k v l = l ++ [(k, v)].
Proof.
  induction 1 as [|[k' v'] l Hp Hl IH]; [done|]. cbn [map_set app]. cbn in Hp. rewrite Hp.
  destruct (text_ltb k k') eqn:E; [|now rewrite IH].
  pose proof (text_ltb_trans _ _ _ E Hp) as Hc. now rewrite text_ltb_irrefl in Hc.
Qed.

Lemma sorted_map_app l l' :
  sorted_map (l ++ l') <-> sorted_map l /\ sorted_map l' /\ Forall (fun p => Forall (above p.1) l') l.
Proof.
  induction l as [|p l IH]; cbn [app sorted_map]; [split; [repeat split; [assumption|constructor]|tauto]|]. rewrite Forall_app, Forall_cons, IH. tauto.
Qed.

Lemma map_set_fold l l' :
  sorted_map (l ++ l') -> fold_left (fun m p => map_set p.1 p.2 m) l' l = l ++ l'.
Proof.
  revert l. induction l' as [|[k v] l' IH]; intros l Hs; cbn [fold_left]; [now rewrite app_nil_r|].
  cbn [fst snd]. rewrite map_set_last, IH, <- app_assoc; [done|now rewrite <- app_assoc|].
  apply sorted_map_app in Hs as (_ & _ & Hs). eapply Forall_impl; [exact Hs|]. intros p Hp. now apply Forall_cons in Hp as [? _].
Qed.
End map.

(** ** Case folding and trimming *)

Lemma lower_char_idemp c : lower_char (lower_char c) = lower_char c.
Proof.
  unfold lower_char. destruct (65 <=? c) eqn:E1, (c <=? 90) eqn:E2; cbn [andb]; rewrite ?E1, ?E2; try done.
  destruct (Z.leb_spec 65 (c + 32)), (Z.leb_spec (c + 32) 90); try done; lia.
Qed.

Lemma lower_name_idemp s : lower_name (lower_name s) = lower_name s.
Proof. unfold lower_name. rewrite map_map. apply map_ext. apply lower_char_idemp. Qed.

Lemma iequals_iff a b : iequals a b = true <-> lower_name a = lower_name b.
Proof.
  unfold iequals. rewrite andb_true_iff, Nat.eqb_eq. revert b.
  induction a as [|x a IH]; intros [|y b]; cbn [length zip zip_with forallb lower_name map fst snd]; try (split; [intros [? _]|intros ?]; discriminate); [done|].
  specialize (IH b). rewrite andb_true_iff, Z.eqb_eq. unfold lower_name in IH. split.
  - intros (Hl & Hx & Hf). f_equal; [done|]. apply IH. split; [congruence|done].
  - intros [= Hx Hr]. apply IH in Hr as [? ?]. repeat split; congruence || done.
Qed.
