(* ===== verification/Crc32c.v ===== *)
(** * CRC-32C (src/src/core/crc32c.hpp, src/src/core/crc32c.cpp)

    The checksum of the on-disk format: the portable slice-by-16 path, the
    GF(2) "advance over zero bytes" operators, the SSE4.2 and ARMv8 hardware
    paths with their three-way interleave, and the dispatch between them.
    The hardware instructions are an interface ([CrcInsns]) whose laws are
    the documented behaviour of the instructions; [soft_insns] shows that
    the laws can hold.

    Every path is proved equal to one bitwise reference ([crc_ref]); from it
    follow the chunking law of [crc32c_update] and the detection of every
    burst error of up to 32 bits. *)

From S2P Require Import Prelude.
Local Open Scope cyc_scope.

Definition kPolyReflected : Z := 0x82F63B78.
Definition kSliceRows : nat := 16.

(** Array access; the code only indexes inside the array. *)
Definition tab (t : list Z) (i : Z) : Z := nth (Z.to_nat i) t 0.

(** ** Tables *)

(** One bit of the table generator: [(c & 1) != 0 ? poly ^ (c >> 1) : c >> 1]. *)
Definition crc_bit (c : Z) : Z :=
  if negb (c .& 1 =? 0) then kPolyReflected .^ (c >> 1) else c >> 1.

Definition crc_bits (n : nat) (c : Z) : Z := Nat.iter n crc_bit c.

Definition slice_row0 : list Z := crc_bits 8 <$> seqZ 0 256.

Definition next_row (row0 prev : list Z) : list Z :=
  (fun p => (p >> 8) .^ tab row0 (p .& 0xFF)) <$> prev.

Fixpoint slice_rows (row0 : list Z) (k : nat) (row : list Z) : list (list Z) :=
  match k with
  | O => []
  | S k => row :: slice_rows row0 k (next_row row0 row)
  end.

Definition make_slice_tables : list (list Z) := slice_rows slice_row0 kSliceRows slice_row0.

Definition kSlice (s : nat) (n : Z) : Z := tab (nth s make_slice_tables []) n.

(** ** Unaligned little-endian loads *)

Inductive endian := little | big.

Definition bswap32 (v : Z) : Z :=
  u32 ((v .& 0xFF) << 24) .| u32 ((v .& 0xFF00) << 8)
  .| ((v >> 8) .& 0xFF00) .| ((v >> 24) .& 0xFF).

Definition bswap64 (v : Z) : Z :=
  u64 (bswap32 (u32 v) << 32) .| bswap32 (u32 (v >> 32)).

(** [memcpy] of [n] bytes into an integer of the host. *)
Definition memcpy_int (e : endian) (l : list Z) : Z :=
  match e with little => le_val l | big => le_val (rev l) end.

Definition load_le32 (e : endian) (p : list Z) : Z :=
  let v := memcpy_int e (take 4 p) in
  match e with big => bswap32 v | little => v end.

Definition load_le64 (e : endian) (p : list Z) : Z :=
  let v := memcpy_int e (take 8 p) in
  match e with big => bswap64 v | little => v end.

Definition crc_byte (crc b : Z) : Z := kSlice 0 ((crc .^ b) .& 0xFF) .^ (crc >> 8).

(** ** GF(2) operators *)

(** [for (n = 0; n < 32 && vec != 0; ++n, vec >>= 1)] over the columns. *)
Fixpoint gf2_apply (mat : list Z) (vec : Z) : Z :=
  match mat with
  | [] => 0
  | m :: mat => if vec =? 0 then 0
                else (if negb (vec .& 1 =? 0) then m else 0) .^ gf2_apply mat (vec >> 1)
  end.

Definition gf2_compose (a b : list Z) : list Z := gf2_apply a <$> b.

Definition zero_bit_operator : list Z :=
  kPolyReflected :: ((fun n => u32 (1 << (n - 1))) <$> seqZ 1 31).

Definition gf2_identity : list Z := (fun n => u32 (1 << n)) <$> seqZ 0 32.

(** The squaring loop [for (bits = bytes * 8; bits != 0; bits >>= 1)], on the
    binary digits of [bits]. *)
Fixpoint zero_bits_loop (result base : list Z) (bits : positive) : list Z :=
  match bits with
  | xH => gf2_compose base result
  | xO bits => zero_bits_loop result (gf2_compose base base) bits
  | xI bits => zero_bits_loop (gf2_compose base result) (gf2_compose base base) bits
  end.

Definition zero_bytes_operator (bytes : nat) : list Z :=
  match Z.of_nat bytes * 8 with
  | Zpos bits => zero_bits_loop gf2_identity zero_bit_operator bits
  | _ => gf2_identity
  end.

Definition make_shift_table (bytes : nat) : list (list Z) :=
  let op := zero_bytes_operator bytes in
  [ (fun n => gf2_apply op n) <$> seqZ 0 256;
    (fun n => gf2_apply op (u32 (n << 8))) <$> seqZ 0 256;
    (fun n => gf2_apply op (u32 (n << 16))) <$> seqZ 0 256;
    (fun n => gf2_apply op (u32 (n << 24))) <$> seqZ 0 256 ].

Definition kLong : nat := Z.to_nat 8192.
Definition kShort : nat := Z.to_nat 256.
Definition kShiftLong : list (list Z) := make_shift_table kLong.
Definition kShiftShort : list (list Z) := make_shift_table kShort.

Definition shift_crc (t : list (list Z)) (crc : Z) : Z :=
  tab (nth 0 t []) (crc .& 0xFF) .^ tab (nth 1 t []) ((crc >> 8) .& 0xFF)
  .^ tab (nth 2 t []) ((crc >> 16) .& 0xFF) .^ tab (nth 3 t []) ((crc >> 24) .& 0xFF).

(** ** The portable path *)

(** [while (len != 0 && (addr & 7) != 0)]: bytes up to the 8-byte boundary. *)
Fixpoint unaligned_head (step : Z -> Z -> Z) (addr crc : Z) (p : list Z) : Z * list Z :=
  match p with
  | [] => (crc, [])
  | b :: p' => if addr .& 7 =? 0 then (crc, p)
               else unaligned_head step (addr + 1) (step crc b) p'
  end.

Definition byte_loop (step : Z -> Z -> Z) (crc : Z) (p : list Z) : Z := fold_left step p crc.

(** Four table lookups, one per byte of [w], rows [k+3 .. k]. *)
Definition slice_word (k : nat) (w : Z) : Z :=
  kSlice (k + 3) (w .& 0xFF) .^ kSlice (k + 2) ((w >> 8) .& 0xFF)
  .^ kSlice (k + 1) ((w >> 16) .& 0xFF) .^ kSlice k ((w >> 24) .& 0xFF).

Definition slice_step16 (e : endian) (crc : Z) (p : list Z) : Z :=
  let w0 := load_le32 e p .^ crc in
  let w1 := load_le32 e (drop 4 p) in
  let w2 := load_le32 e (drop 8 p) in
  let w3 := load_le32 e (drop 12 p) in
  slice_word 12 w0 .^ slice_word 8 w1 .^ slice_word 4 w2 .^ slice_word 0 w3.

Definition slice_step8 (e : endian) (crc : Z) (p : list Z) : Z :=
  slice_word 4 (load_le32 e p .^ crc) .^ slice_word 0 (load_le32 e (drop 4 p)).

(** [while (len >= n) { crc = step(crc, p); p += n; }]; every iteration
    consumes [n > 0] bytes, so [length p] iterations are enough. *)
Fixpoint block_loop (n : nat) (step : Z -> list Z -> Z) (fuel : nat) (crc : Z) (p : list Z)
    : Z * list Z :=
  match fuel with
  | O => (crc, p)
  | S fuel => if (n <=? length p)%nat
              then block_loop n step fuel (step crc p) (drop n p)
              else (crc, p)
  end.

Definition slice_by_16_impl (e : endian) (addr crc : Z) (p : list Z) : Z :=
  let '(crc, p) := unaligned_head crc_byte addr crc p in
  let '(crc, p) := block_loop 16 (slice_step16 e) (length p) crc p in
  let '(crc, p) := if (8 <=? length p)%nat then (slice_step8 e crc p, drop 8 p)
                   else (crc, p) in
  byte_loop crc_byte crc p.

(** ** The instruction paths *)

(** The crc32 instruction group: operations on the internal register. *)
Class CrcInsns := {
  crc32_u8 : Z -> Z -> Z;
  crc32_u32 : Z -> Z -> Z;
  crc32_u64 : Z -> Z -> Z;
}.

(** What the instructions are documented to do: advance the reflected
    register over the operand's bits, least significant first. *)
Class CrcInsnsLaws (I : CrcInsns) := {
  crc32_u8_law crc v : fits 32 crc -> fits 8 v -> crc32_u8 crc v = crc_bits 8 (crc .^ v);
  crc32_u32_law crc v : fits 32 crc -> fits 32 v -> crc32_u32 crc v = crc_bits 32 (crc .^ v);
  crc32_u64_law crc v : fits 32 crc -> fits 64 v -> crc32_u64 crc v = crc_bits 64 (crc .^ v);
}.

#[export] Instance soft_insns : CrcInsns := {
  crc32_u8 crc v := crc_bits 8 (crc .^ v);
  crc32_u32 crc v := crc_bits 32 (crc .^ v);
  crc32_u64 crc v := crc_bits 64 (crc .^ v);
}.

#[export] Instance soft_insns_laws : CrcInsnsLaws soft_insns.
Proof. split; reflexivity. Qed.

Section hardware.
Context `{I : CrcInsns}.

Definition step_u64 (e : endian) (crc : Z) (p : list Z) : Z := u32 (crc32_u64 crc (load_le64 e p)).

Definition sse42_tail (e : endian) (crc : Z) (p : list Z) : Z :=
  let '(crc, p) := block_loop 8 (step_u64 e) (length p) crc p in
  byte_loop crc32_u8 crc p.

Definition sse42_1way_impl (e : endian) (addr crc : Z) (p : list Z) : Z :=
  let '(crc, p) := unaligned_head crc32_u8 addr crc p in
  sse42_tail e crc p.

(** The inner loop of the interleave: [n] rounds of one u64 step on each of
    the three registers, whose blocks lie [L] bytes apart. *)
Fixpoint interleave (e : endian) (L n : nat) (c0 c1 c2 : Z) (q : list Z) : Z * Z * Z :=
  match n with
  | O => (c0, c1, c2)
  | S n => interleave e L n (step_u64 e c0 q) (step_u64 e c1 (drop L q))
             (step_u64 e c2 (drop (2 * L) q)) (drop 8 q)
  end.

Definition three_way_step (e : endian) (L : nat) (t : list (list Z)) (crc : Z) (p : list Z) : Z :=
  let '(c0, c1, c2) := interleave e L (L / 8) crc 0 0 p in
  let crc := shift_crc t c0 .^ c1 in
  shift_crc t crc .^ c2.

Definition sse42_3way_impl (e : endian) (addr crc : Z) (p : list Z) : Z :=
  let '(crc, p) := unaligned_head crc32_u8 addr crc p in
  let '(crc, p) := block_loop (3 * kLong) (three_way_step e kLong kShiftLong) (length p) crc p in
  let '(crc, p) := block_loop (3 * kShort) (three_way_step e kShort kShiftShort) (length p) crc p in
  sse42_tail e crc p.

Definition arm_tail (e : endian) (crc : Z) (p : list Z) : Z :=
  let '(crc, p) := block_loop 8 (step_u64 e) (length p) crc p in
  let '(crc, p) := if (4 <=? length p)%nat then (crc32_u32 crc (load_le32 e p), drop 4 p)
                   else (crc, p) in
  byte_loop crc32_u8 crc p.

Definition arm_1way_impl (e : endian) (addr crc : Z) (p : list Z) : Z :=
  let '(crc, p) := unaligned_head crc32_u8 addr crc p in
  arm_tail e crc p.

Definition arm_3way_impl (e : endian) (addr crc : Z) (p : list Z) : Z :=
  let '(crc, p) := unaligned_head crc32_u8 addr crc p in
  let '(crc, p) := block_loop (3 * kLong) (three_way_step e kLong kShiftLong) (length p) crc p in
  let '(crc, p) := block_loop (3 * kShort) (three_way_step e kShort kShiftShort) (length p) crc p in
  arm_tail e crc p.

(** ** Dispatch *)

(** The architecture of the build ([CYCLONE_CRC32C_X86], [.._ARM_HW] or
    neither), the probe's answer ([sse42_usable] / [arm_crc32c_usable]) and
    the host's byte order. *)
Inductive arch := arch_x86 | arch_arm | arch_other.
Record platform := { pl_arch : arch; pl_probe : bool; pl_endian : endian }.

Definition Crc32cImpl : Type := Z -> Z -> list Z -> Z.

Definition hardware_usable (pl : platform) : bool :=
  match pl_arch pl with arch_x86 | arch_arm => pl_probe pl | arch_other => false end.

Definition hardware_impl (pl : platform) : Crc32cImpl :=
  match pl_arch pl with
  | arch_x86 => sse42_3way_impl (pl_endian pl)
  | arch_arm => arm_3way_impl (pl_endian pl)
  | arch_other => slice_by_16_impl (pl_endian pl)
  end.

Definition hardware_impl_1way (pl : platform) : Crc32cImpl :=
  match pl_arch pl with
  | arch_x86 => sse42_1way_impl (pl_endian pl)
  | arch_arm => arm_1way_impl (pl_endian pl)
  | arch_other => slice_by_16_impl (pl_endian pl)
  end.

Definition select_impl (pl : platform) : Crc32cImpl :=
  if hardware_usable pl then hardware_impl pl else slice_by_16_impl (pl_endian pl).

(** [addr] is the address the data span starts at. *)
Definition run (impl : Crc32cImpl) (addr state : Z) (data : list Z) : Z :=
  not32 (impl addr (not32 state) data).

Definition crc32c_update (pl : platform) (addr state : Z) (data : list Z) : Z :=
  run (select_impl pl) addr state data.

Definition crc32c (pl : platform) (addr : Z) (data : list Z) : Z := crc32c_update pl addr 0 data.

Definition crc32c_update_portable (pl : platform) (addr state : Z) (data : list Z) : Z :=
  run (slice_by_16_impl (pl_endian pl)) addr state data.

Definition crc32c_update_hardware (pl : platform) (addr state : Z) (data : list Z) : Z :=
  run (if hardware_usable pl then hardware_impl pl else slice_by_16_impl (pl_endian pl))
    addr state data.

Definition crc32c_update_hardware_1way (pl : platform) (addr state : Z) (data : list Z) : Z :=
  run (if hardware_usable pl then hardware_impl_1way pl else slice_by_16_impl (pl_endian pl))
    addr state data.
End hardware.

(** ** The reference: one bit at a time *)

Definition crc_ref (crc : Z) (l : list Z) : Z :=
  fold_left (fun r b => crc_bits 8 (r .^ b)) l crc.

(** *** Linearity of the register *)

Lemma land_1_odd c : negb (c .& 1 =? 0) = Z.odd c.
Proof.
  change 1 with (2 ^ 1 - 1). rewrite land_ones_wrap by lia. unfold wrap.
  change (2 ^ 1) with 2. rewrite Zmod_odd. now destruct (Z.odd c).
Qed.

Lemma crc_bit_lxor a b : crc_bit (a .^ b) = crc_bit a .^ crc_bit b.
Proof.
  unfold crc_bit. rewrite !land_1_odd, Z.shiftr_lxor.
  assert (Z.odd (a .^ b) = xorb (Z.odd a) (Z.odd b)) as ->.
  { rewrite <- !Z.bit0_odd. apply Z.lxor_spec. }
  destruct (Z.odd a), (Z.odd b); cbn [xorb]; bits;
    destruct (Z.testbit kPolyReflected i), (Z.testbit a (i + 1)), (Z.testbit b (i + 1)); done.
Qed.

Lemma crc_bits_S n c : crc_bits (S n) c = crc_bit (crc_bits n c).
Proof. done. Qed.

Lemma crc_bits_lxor n a b : crc_bits n (a .^ b) = crc_bits n a .^ crc_bits n b.
Proof. induction n as [|n IH]; [done|]. now rewrite !crc_bits_S, IH, crc_bit_lxor. Qed.

Lemma crc_bits_add n m c : crc_bits (n + m) c = crc_bits n (crc_bits m c).
Proof. induction n as [|n IH]; [done|]. cbn [Nat.add]. now rewrite !crc_bits_S, IH. Qed.

Lemma crc_bits_0 n : crc_bits n 0 = 0.
Proof. induction n as [|n IH]; [done|]. now rewrite crc_bits_S, IH. Qed.

Lemma crc_bit_double x : crc_bit (2 * x) = x.
Proof.
  unfold crc_bit. rewrite land_1_odd, Z.odd_mul. cbn [Z.odd andb].
  rewrite Z.shiftr_div_pow2 by lia. change (2 ^ 1) with 2. rewrite Z.mul_comm. apply Z.div_mul. lia.
Qed.

Lemma crc_bits_shiftl n x : crc_bits n (x << Z.of_nat n) = x.
Proof.
  revert x. induction n as [|n IH]; intros x; [apply Z.shiftl_0_r|].
  rewrite <- Nat.add_1_r, crc_bits_add.
  replace (x << Z.of_nat (n + 1)) with (2 * (x << Z.of_nat n)).
  - change (crc_bits 1 ?c) with (crc_bit c). now rewrite crc_bit_double.
  - rewrite !Z.shiftl_mul_pow2 by lia. rewrite Nat2Z.inj_add, Z.pow_add_r by lia. lia.
Qed.

Lemma crc_bits_shiftl_le n k x : (k <= n)%nat -> crc_bits n (x << Z.of_nat k) = crc_bits (n - k) x.
Proof.
  intros. replace n with ((n - k) + k)%nat at 1 by lia. now rewrite crc_bits_add, crc_bits_shiftl.
Qed.

Lemma crc_bit_fits c : fits 32 c -> fits 32 (crc_bit c).
Proof.
  intros H. unfold crc_bit. destruct (negb _); auto with cyc.
  apply fits_lxor; [lia| |auto with cyc]. unfold fits, kPolyReflected; lia.
Qed.

Lemma crc_bits_fits n c : fits 32 c -> fits 32 (crc_bits n c).
Proof. intros H. induction n; [done|]. rewrite crc_bits_S. auto using crc_bit_fits. Qed.

#[export] Hint Resolve crc_bits_fits : cyc.

Lemma byte_fits_32 b : is_byte b -> fits 32 b.
Proof. unfold is_byte. now apply fits_le. Qed.
#[export] Hint Resolve byte_fits_32 : cyc.

(** *** The register over a whole byte string *)

Lemma le_val_cons_lxor b l : is_byte b -> le_val (b :: l) = b .^ (le_val l << 8).
Proof.
  intros Hb. cbn [le_val]. rewrite Z.shiftl_mul_pow2 by lia. change (2 ^ 8) with 256.
  rewrite (Z.mul_comm (le_val l)). apply Z.add_nocarry_lxor.
  change 256 with (2 ^ 8). rewrite Z.mul_comm, <- Z.shiftl_mul_pow2 by lia.
  bits. rewrite Z.bits_0. destruct (Z.lt_ge_cases i 8).
  - rewrite (Z.testbit_neg_r _ (i - 8)) by lia. apply andb_false_r.
  - now rewrite (fits_testbit 8 b).
Qed.

Lemma crc_ref_le_val l r : bytes_ok l -> crc_ref r l = crc_bits (8 * length l) (r .^ le_val l).
Proof.
  intros Hl. revert r. induction Hl as [|b l Hb Hl IH]; intros r.
  - cbn. now rewrite Z.lxor_0_r.
  - unfold crc_ref in *. cbn [fold_left]. rewrite IH, (le_val_cons_lxor b l Hb).
    cbn [length]. replace (8 * S (length l))%nat with (8 * length l + 8)%nat by lia.
    rewrite crc_bits_add, <- Z.lxor_assoc, (crc_bits_lxor 8 (r .^ b)).
    now rewrite (crc_bits_shiftl 8).
Qed.

Lemma crc_ref_fits l r : fits 32 r -> bytes_ok l -> fits 32 (crc_ref r l).
Proof.
  intros Hr Hl. revert r Hr. induction Hl as [|b l Hb Hl IH]; intros r Hr; [done|].
  unfold crc_ref in *. cbn [fold_left]. apply IH. auto with cyc.
Qed.

Lemma crc_ref_app r a b : crc_ref r (a ++ b) = crc_ref (crc_ref r a) b.
Proof. apply fold_left_app. Qed.

Lemma crc_ref_split n r l : crc_ref r l = crc_ref (crc_ref r (take n l)) (drop n l).
Proof. now rewrite <- crc_ref_app, take_drop. Qed.

(** "R(r, D) = Z_|D|(r) ^ R(0, D)": the linearity argument of the interleave. *)
Lemma crc_ref_linear r l : bytes_ok l -> crc_ref r l = crc_bits (8 * length l) r .^ crc_ref 0 l.
Proof.
  intros. rewrite !crc_ref_le_val by done. now rewrite Z.lxor_0_l, crc_bits_lxor.
Qed.

#[export] Hint Resolve crc_ref_fits : cyc.

(** *** Tables hold the register's advance *)

Lemma tab_seqZ (f : Z -> Z) n i : 0 <= i < n -> tab (f <$> seqZ 0 n) i = f i.
Proof.
  intros Hi. unfold tab. apply nth_lookup_Some. rewrite list_lookup_fmap.
  rewrite (lookup_seqZ_lt 0 n) by lia. cbn. do 2 f_equal. lia.
Qed.

Lemma crc_bits_8_table c : tab slice_row0 (c .& 0xFF) .^ (c >> 8) = crc_bits 8 c.
Proof.
  unfold slice_row0. rewrite land_255.
  rewrite tab_seqZ by (apply Z.mod_pos_bound; lia).
  rewrite <- (split_at 8 c) at 3 by lia.
  rewrite crc_bits_lxor, (crc_bits_shiftl 8). done.
Qed.

Lemma crc_byte_ref crc b : is_byte b -> crc_byte crc b = crc_bits 8 (crc .^ b).
Proof.
  intros Hb. unfold crc_byte. change (kSlice 0 ?n) with (tab slice_row0 n).
  rewrite <- crc_bits_8_table. f_equal. rewrite Z.shiftr_lxor.
  replace (b >> 8) with 0; [now rewrite Z.lxor_0_r|].
  rewrite is_byte_iff in Hb. rewrite Z.shiftr_div_pow2, Z.div_small by lia. done.
Qed.

Lemma slice_rows_lookup k j n row m :
  0 <= n < 256 -> (j < k)%nat -> length row = 256%nat ->
  (forall i, 0 <= i < 256 -> tab row i = crc_bits (8 * S m) i) ->
  tab (nth j (slice_rows slice_row0 k row) []) n = crc_bits (8 * S (m + j)) n.
Proof.
  revert j row m. induction k as [|k IH]; intros j row m Hn Hj Hlen Hrow; [lia|].
  cbn [slice_rows]. destruct j as [|j].
  - cbn [nth]. rewrite Hrow by done. do 2 f_equal. lia.
  - cbn [nth]. rewrite (IH j _ (S m)); [do 2 f_equal; lia | done | lia | |].
    + unfold next_row. now rewrite length_fmap.
    + intros i Hi. unfold next_row, tab in *.
      assert (exists p, row !! Z.to_nat i = Some p) as [p Hp].
      { apply lookup_lt_is_Some. lia. }
      rewrite (nth_lookup_Some _ _ _ ((p >> 8) .^ tab slice_row0 (p .& 0xFF)))
        by now rewrite list_lookup_fmap, Hp.
      specialize (Hrow i Hi). rewrite (nth_lookup_Some _ _ _ _ Hp) in Hrow. subst p.
      rewrite Z.lxor_comm, crc_bits_8_table, <- crc_bits_add. f_equal. lia.
Qed.

Lemma kSlice_ref s n :
  (s < 16)%nat -> 0 <= n < 256 -> kSlice s n = crc_bits (8 * S s) n.
Proof.
  intros Hs Hn. unfold kSlice, make_slice_tables.
  rewrite (slice_rows_lookup _ _ _ _ 0); try done.
  intros i Hi. unfold slice_row0. now rewrite tab_seqZ.
Qed.

Lemma wrap8_range x : 0 <= wrap 8 x < 256.
Proof. apply (wrap_fits 8). lia. Qed.

(** A 32-bit word is the exclusive or of its four bytes at their places. *)
Lemma word_bytes w : fits 32 w ->
  w = wrap 8 w .^ (wrap 8 (w >> 8) << 8) .^ (wrap 8 (w >> 16) << 16) .^ (wrap 8 (w >> 24) << 24).
Proof.
  intros Hw. bits. destruct (Z.lt_ge_cases i 32) as [Hi|Hi].
  - assert (i < 8 \/ 8 <= i < 16 \/ 16 <= i < 24 \/ 24 <= i < 32) as Hc by lia.
    destruct Hc as [?|[?|[?|?]]];
      repeat (rewrite (Z.testbit_neg_r _ (i - 8)) by lia);
      repeat (rewrite (Z.testbit_neg_r _ (i - 16)) by lia);
      repeat (rewrite (Z.testbit_neg_r _ (i - 24)) by lia);
      repeat (rewrite testbit_wrap by lia);
      repeat (rewrite Z.shiftr_spec by lia);
      repeat match goal with |- context [?a <? ?b] => destruct (Z.ltb_spec a b); try lia end;
      cbn; rewrite ?xorb_false_r, ?xorb_false_l; f_equal; lia.
  - rewrite (fits_testbit 32) by done.
    repeat (rewrite testbit_wrap by lia).
    repeat match goal with |- context [?a <? ?b] => destruct (Z.ltb_spec a b); try lia end.
    done.
Qed.

Lemma slice_word_ref k w :
  fits 32 w -> (k + 3 < 16)%nat -> slice_word k w = crc_bits (8 * (k + 4)) w.
Proof.
  intros Hw Hk. unfold slice_word. rewrite !land_255.
  change (?x mod 256) with (wrap 8 x).
  rewrite !kSlice_ref by (lia || apply wrap8_range).
  rewrite (word_bytes w Hw) at 5. rewrite !crc_bits_lxor.
  rewrite (crc_bits_shiftl_le _ 8), (crc_bits_shiftl_le _ 16), (crc_bits_shiftl_le _ 24) by lia.
  repeat f_equal; lia.
Qed.

(** *** Loads *)

Lemma testbit_255 i : 0 <= i -> Z.testbit 255 i = (i <? 8).
Proof.
  intros. change 255 with (Z.ones 8). destruct (Z.ltb_spec i 8).
  - apply Z.ones_spec_low. lia.
  - apply Z.ones_spec_high. lia.
Qed.

Lemma land_byte_at v k : 0 <= k -> v .& (255 << k) = ((v >> k) .& 255) << k.
Proof.
  intros. apply Z.bits_inj'; intros i Hi.
  rewrite Z.land_spec, !Z.shiftl_spec, Z.land_spec by lia.
  destruct (Z.lt_ge_cases i k).
  - rewrite !(Z.testbit_neg_r _ (i - k)) by lia. now rewrite andb_false_r.
  - rewrite Z.shiftr_spec by lia. f_equal. f_equal. lia.
Qed.

(** Byte [k/8] of a number below [2^32], as the code extracts it. *)
Ltac nth_byte v :=
  rewrite ?land_255; change 256 with (2 ^ 8);
  rewrite ?Z.shiftr_div_pow2 by lia; subst v; cbn [le_val];
  repeat match goal with |- context [2 ^ ?k] => let r := eval compute in (2 ^ k) in change (2 ^ k) with r end;
  Z.div_mod_to_equations; lia.

Ltac byte_bits :=
  repeat match goal with
  | |- context [Z.testbit ?x ?j] =>
      first [rewrite (Z.testbit_neg_r x j) by lia | rewrite (fits_testbit 8 x j) by (assumption || lia)]
  end.

Lemma bswap32_bytes a b c d :
  is_byte a -> is_byte b -> is_byte c -> is_byte d ->
  bswap32 (le_val [d; c; b; a]) = le_val [a; b; c; d].
Proof.
  intros Ha Hb Hc Hd. pose proof Ha as Ha'. pose proof Hb as Hb'. pose proof Hc as Hc'.
  pose proof Hd as Hd'. rewrite !is_byte_iff in Ha', Hb', Hc', Hd'. unfold bswap32, u32.
  set (v := le_val [d; c; b; a]).
  change 0xFF00 with (255 << 8). rewrite !land_byte_at, Z.shiftr_shiftr by lia.
  change (8 + 8) with 16.
  assert (v .& 255 = d) as -> by nth_byte v.
  assert ((v >> 8) .& 255 = c) as -> by nth_byte v.
  assert ((v >> 16) .& 255 = b) as -> by nth_byte v.
  assert ((v >> 24) .& 255 = a) as -> by nth_byte v.
  clear v. rewrite Z.shiftl_shiftl by lia. change (8 + 8) with 16.
  rewrite (wrap_small 32 (d << 24)), (wrap_small 32 (c << 16))
    by (unfold fits; rewrite Z.shiftl_mul_pow2 by lia; lia).
  rewrite (le_val_cons_lxor a), (le_val_cons_lxor b), (le_val_cons_lxor c), (le_val_cons_lxor d)
    by done.
  cbn [le_val]. rewrite Z.shiftl_0_l, Z.lxor_0_r.
  rewrite !Z.shiftl_lxor, !Z.shiftl_shiftl by lia. change (8 + 8) with 16. change (8 + 16) with 24.
  change (16 + 8) with 24.
  apply Z.bits_inj'; intros i Hi. rewrite !Z.lor_spec, !Z.lxor_spec, !Z.shiftl_spec by lia.
  unfold is_byte in *.
  assert (i < 8 \/ 8 <= i < 16 \/ 16 <= i < 24 \/ 24 <= i) as Hcs by lia.
  destruct Hcs as [?|[?|[?|?]]]; byte_bits;
    rewrite ?orb_false_r, ?orb_false_l, ?xorb_false_r, ?xorb_false_l; done.
Qed.

Lemma load_le32_ref e p :
  bytes_ok p -> (4 <= length p)%nat -> load_le32 e p = le_val (take 4 p).
Proof.
  intros Hp Hl. destruct e; [done|].
  destruct p as [|a [|b [|c [|d p]]]]; cbn in Hl; try lia.
  unfold bytes_ok in *; rewrite !Forall_cons in Hp. destruct Hp as (?&?&?&?&_).
  unfold load_le32. cbn [take memcpy_int rev app]. now apply bswap32_bytes.
Qed.

Lemma le_val_app a b : le_val (a ++ b) = le_val a + 256 ^ Z.of_nat (length a) * le_val b.
Proof.
  induction a as [|x a IH]; cbn [app le_val length]; [lia|].
  rewrite IH, pow256_succ. lia.
Qed.

Lemma bswap64_bytes lo hi :
  bytes_ok lo -> bytes_ok hi -> length lo = 4%nat -> length hi = 4%nat ->
  bswap64 (le_val (rev (lo ++ hi))) = le_val (lo ++ hi).
Proof.
  intros Hlo Hhi Ll Lh. rewrite rev_app_distr, !le_val_app. rewrite length_rev, Lh, Ll.
  change (256 ^ Z.of_nat 4) with (2 ^ 32).
  assert (bytes_ok (rev lo)) as Hlo' by now apply Forall_rev.
  assert (bytes_ok (rev hi)) as Hhi' by now apply Forall_rev.
  pose proof (le_val_bound _ Hlo') as B1. pose proof (le_val_bound _ Hhi') as B2.
  pose proof (le_val_bound _ Hlo) as B3. pose proof (le_val_bound _ Hhi) as B4.
  rewrite length_rev in B1, B2. rewrite Ll in B1, B3. rewrite Lh in B2, B4.
  change (256 ^ Z.of_nat 4) with (2 ^ 32) in *.
  unfold bswap64, u32, u64.
  assert (wrap 32 (le_val (rev hi) + 2 ^ 32 * le_val (rev lo)) = le_val (rev hi)) as ->.
  { unfold wrap. rewrite Z.mul_comm, Z.mod_add by lia. apply Z.mod_small. lia. }
  assert (wrap 32 ((le_val (rev hi) + 2 ^ 32 * le_val (rev lo)) >> 32) = le_val (rev lo)) as ->.
  { rewrite Z.shiftr_div_pow2, Z.mul_comm, Z.div_add, (Z.div_small (le_val (rev hi))) by lia.
    apply wrap_small. unfold fits; lia. }
  assert (forall l, bytes_ok l -> length l = 4%nat -> bswap32 (le_val (rev l)) = le_val l) as Hs.
  { intros l Hl Len. destruct l as [|a [|b [|c [|d [|? ?]]]]]; cbn in Len; try lia.
    unfold bytes_ok in *; rewrite !Forall_cons in Hl. destruct Hl as (?&?&?&?&_). now apply bswap32_bytes. }
  rewrite !Hs by done.
  rewrite wrap_small by (unfold fits; rewrite Z.shiftl_mul_pow2 by lia; lia).
  rewrite Z.lor_comm, lor_add_disjoint; [rewrite Z.shiftl_mul_pow2 by lia; lia|].
  apply Z.bits_inj'; intros i Hi. rewrite Z.land_spec, Z.shiftl_spec, Z.bits_0 by lia.
  destruct (Z.lt_ge_cases i 32).
  - rewrite (Z.testbit_neg_r _ (i - 32)) by lia. apply andb_false_r.
  - now rewrite (fits_testbit 32 (le_val lo)).
Qed.

Lemma load_le64_ref e p :
  bytes_ok p -> (8 <= length p)%nat -> load_le64 e p = le_val (take 8 p).
Proof.
  intros Hp Hl. destruct e; [done|]. unfold load_le64, memcpy_int.
  rewrite <- (take_drop 4 (take 8 p)). rewrite bswap64_bytes; auto with cyc.
  - rewrite !length_take. lia.
  - rewrite length_drop, length_take. lia.
Qed.

(** *** The loops compute the reference *)

(** A step that consumes [n] bytes and agrees with the reference on them. *)
Definition step_ok (n : nat) (step : Z -> list Z -> Z) : Prop :=
  forall crc p, fits 32 crc -> bytes_ok p -> (n <= length p)%nat ->
    step crc p = crc_ref crc (take n p).

Lemma block_loop_ref n step fuel crc p :
  step_ok n step -> (0 < n)%nat -> fits 32 crc -> bytes_ok p ->
  let '(crc', p') := block_loop n step fuel crc p in
  crc_ref crc' p' = crc_ref crc p /\ fits 32 crc' /\ bytes_ok p'.
Proof.
  intros Hstep Hn. revert crc p. induction fuel as [|fuel IH]; intros crc p Hc Hp; cbn; [done|].
  destruct (Nat.leb_spec n (length p)); [|done].
  rewrite (Hstep crc p) by done.
  specialize (IH (crc_ref crc (take n p)) (drop n p)).
  destruct (block_loop _ _ _ _ _) as [crc' p']. rewrite (crc_ref_split n crc p). auto with cyc.
Qed.

Definition byte_step_ok (step : Z -> Z -> Z) : Prop :=
  forall crc b, fits 32 crc -> is_byte b -> step crc b = crc_bits 8 (crc .^ b).

Lemma byte_loop_ref step crc p :
  byte_step_ok step -> fits 32 crc -> bytes_ok p -> byte_loop step crc p = crc_ref crc p.
Proof.
  intros Hs Hc Hp. revert crc Hc. induction Hp as [|b p Hb Hp IH]; intros crc Hc; [done|].
  unfold byte_loop, crc_ref in *. cbn [fold_left]. rewrite Hs by done. apply IH. auto with cyc.
Qed.

Lemma unaligned_head_ref step addr crc p :
  byte_step_ok step -> fits 32 crc -> bytes_ok p ->
  let '(crc', p') := unaligned_head step addr crc p in
  crc_ref crc' p' = crc_ref crc p /\ fits 32 crc' /\ bytes_ok p'.
Proof.
  intros Hs Hc Hp. revert addr crc Hc.
  induction Hp as [|b p Hb Hp IH]; intros addr crc Hc; cbn [unaligned_head]; [repeat split; try apply Hc; constructor|].
  destruct (addr .& 7 =? 0); [split; [done|split; [done|by constructor]]|].
  rewrite Hs by done. specialize (IH (addr + 1) (crc_bits 8 (crc .^ b))).
  destruct (unaligned_head _ _ _ _). apply IH. auto with cyc.
Qed.

Lemma crc_byte_ok : byte_step_ok crc_byte.
Proof. intros crc b _ Hb. now apply crc_byte_ref. Qed.

Lemma le_val_take_fits n p : bytes_ok p -> fits (8 * Z.of_nat n) (le_val (take n p)).
Proof.
  intros Hp. pose proof (le_val_bound (take n p) ltac:(auto with cyc)) as B.
  unfold fits. rewrite Z.pow_mul_r by lia. change (2 ^ 8) with 256.
  rewrite length_take in B. pose proof (Z.pow_le_mono_r 256 (Z.of_nat (n `min` length p)) (Z.of_nat n)).
  lia.
Qed.

Lemma load_le32_fits e p : bytes_ok p -> (4 <= length p)%nat -> fits 32 (load_le32 e p).
Proof. intros. rewrite load_le32_ref by done. now apply (le_val_take_fits 4). Qed.

(** [k] words of four bytes each: the string's value splits at byte four. *)
Lemma le_val_split4 m p : bytes_ok p -> (4 <= length p)%nat -> (4 <= m)%nat ->
  le_val (take m p) = le_val (take 4 p) .^ (le_val (take (m - 4) (drop 4 p)) << 32).
Proof.
  intros Hp Hl Hm. replace m with (4 + (m - 4))%nat at 1 by lia. rewrite <- take_take_drop, le_val_app, length_take, Nat.min_l by done.
  change (256 ^ Z.of_nat 4) with (2 ^ 32).
  rewrite (Z.mul_comm (2 ^ 32)), <- Z.shiftl_mul_pow2 by lia.
  apply Z.add_nocarry_lxor. apply Z.bits_inj'; intros i Hi.
  rewrite Z.land_spec, Z.shiftl_spec, Z.bits_0 by lia.
  destruct (Z.lt_ge_cases i 32).
  - rewrite (Z.testbit_neg_r _ (i - 32)) by lia. apply andb_false_r.
  - rewrite (fits_testbit 32); [done | now apply (le_val_take_fits 4) | done | lia].
Qed.

Lemma crc_bits_peel n w rest :
  (32 <= n)%nat -> crc_bits n (w .^ (rest << 32)) = crc_bits n w .^ crc_bits (n - 32) rest.
Proof. intros. rewrite crc_bits_lxor. now rewrite (crc_bits_shiftl_le n 32). Qed.

Lemma slice_step16_ok e : step_ok 16 (slice_step16 e).
Proof.
  intros crc p Hc Hp Hl. rewrite crc_ref_le_val, length_take, Nat.min_l by auto with cyc.
  unfold slice_step16.
  assert (forall k, (k <= 12)%nat -> bytes_ok (drop k p) /\ (4 <= length (drop k p))%nat) as Hd.
  { intros. rewrite length_drop. split; [auto with cyc | lia]. }
  destruct (Hd 4%nat), (Hd 8%nat), (Hd 12%nat); try lia.
  rewrite !slice_word_ref by (now auto using load_le32_fits with cyc).
  rewrite (le_val_split4 16 p), (le_val_split4 _ (drop 4 p)) by (done || lia).
  rewrite drop_drop, (le_val_split4 _ (drop (4 + 4) p)), drop_drop by (done || cbn; lia).
  cbn [Nat.sub Nat.add].
  rewrite <- !(load_le32_ref e) by (done || lia).
  rewrite <- (Z.lxor_assoc crc), (Z.lxor_comm crc).
  cbn [Nat.mul Nat.add]. rewrite !crc_bits_peel by lia. cbn [Nat.sub].
  now rewrite !Z.lxor_assoc.
Qed.

Lemma slice_step8_ok e : step_ok 8 (slice_step8 e).
Proof.
  intros crc p Hc Hp Hl. rewrite crc_ref_le_val, length_take, Nat.min_l by auto with cyc.
  unfold slice_step8.
  assert (bytes_ok (drop 4 p) /\ (4 <= length (drop 4 p))%nat) as [? ?].
  { rewrite length_drop. split; [auto with cyc | lia]. }
  rewrite !slice_word_ref by (now auto using load_le32_fits with cyc).
  rewrite (le_val_split4 8 p) by (done || lia).
  rewrite <- !(load_le32_ref e) by (done || lia).
  rewrite <- (Z.lxor_assoc crc), (Z.lxor_comm crc).
  cbn [Nat.mul Nat.add]. rewrite !crc_bits_peel by lia. done.
Qed.

Lemma slice_by_16_ref e addr crc p :
  fits 32 crc -> bytes_ok p -> slice_by_16_impl e addr crc p = crc_ref crc p.
Proof.
  intros Hc Hp. unfold slice_by_16_impl.
  pose proof (unaligned_head_ref crc_byte addr crc p crc_byte_ok Hc Hp) as H1.
  destruct (unaligned_head _ _ _ _) as [c1 p1]. destruct H1 as (E1 & Hc1 & Hp1).
  pose proof (block_loop_ref 16 (slice_step16 e) (length p1) c1 p1 (slice_step16_ok e)
    ltac:(lia) Hc1 Hp1) as H2.
  destruct (block_loop _ _ _ _ _) as [c2 p2]. destruct H2 as (E2 & Hc2 & Hp2).
  rewrite <- E1, <- E2. destruct (Nat.leb_spec 8 (length p2)).
  - rewrite (slice_step8_ok e c2 p2) by done. rewrite (crc_ref_split 8 c2 p2).
    apply byte_loop_ref; auto using crc_byte_ok with cyc.
  - apply byte_loop_ref; auto using crc_byte_ok.
Qed.

(** *** The GF(2) operators advance the register over zero bits *)

Definition represents (mat : list Z) (j : nat) : Prop :=
  length mat = 32%nat /\
  forall n, (n < 32)%nat -> nth n mat 0 = crc_bits j (1 << Z.of_nat n).

Lemma odd_split v : v = (if Z.odd v then 1 else 0) .^ ((v >> 1) << 1).
Proof.
  rewrite <- (split_at 1 v) at 1 by lia. f_equal.
  unfold wrap. change (2 ^ 1) with 2. apply Zmod_odd.
Qed.

Lemma gf2_apply_suffix j mat k vec :
  (forall n, (n < length mat)%nat -> nth n mat 0 = crc_bits j (1 << Z.of_nat (k + n))) ->
  fits (Z.of_nat (length mat)) vec ->
  gf2_apply mat vec = crc_bits j (vec << Z.of_nat k).
Proof.
  revert k vec. induction mat as [|m mat IH]; intros k vec Hm Hv; cbn [gf2_apply].
  - unfold fits in Hv. cbn in Hv. replace vec with 0 by lia. now rewrite Z.shiftl_0_l, crc_bits_0.
  - destruct (Z.eqb_spec vec 0) as [->|Hne]; [now rewrite Z.shiftl_0_l, crc_bits_0|].
    rewrite land_1_odd, (IH (S k)).
    + rewrite (odd_split vec) at 3. rewrite Z.shiftl_lxor, crc_bits_lxor, Z.shiftl_shiftl by lia.
      replace (1 + Z.of_nat k) with (Z.of_nat (S k)) by lia. f_equal.
      specialize (Hm 0%nat ltac:(cbn; lia)). cbn [nth] in Hm. rewrite Nat.add_0_r in Hm. subst m.
      destruct (Z.odd vec); [done|]. now rewrite Z.shiftl_0_l, crc_bits_0.
    + intros n Hn. specialize (Hm (S n) ltac:(cbn; lia)). cbn [nth] in Hm. rewrite Hm.
      do 2 f_equal. lia.
    + replace (Z.of_nat (length mat)) with (Z.of_nat (length (m :: mat)) - 1) by (cbn; lia).
      apply fits_shiftr_sub; [cbn; lia | done].
Qed.

Lemma gf2_apply_ref j mat vec : represents mat j -> fits 32 vec -> gf2_apply mat vec = crc_bits j vec.
Proof.
  intros [Hl Hm] Hv. rewrite (gf2_apply_suffix j mat 0).
  - now rewrite Z.shiftl_0_r.
  - intros n Hn. rewrite Hl in Hn. now apply Hm.
  - now rewrite Hl.
Qed.

Lemma unit_fits n : (n < 32)%nat -> fits 32 (1 << Z.of_nat n).
Proof.
  intros. unfold fits. rewrite Z.shiftl_mul_pow2 by lia.
  pose proof (Z.pow_lt_mono_r 2 (Z.of_nat n) 32). lia.
Qed.

Lemma represents_fmap f n0 : (forall n, (n < 32)%nat -> f (Z.of_nat n) = crc_bits n0 (1 << Z.of_nat n)) ->
  represents (f <$> seqZ 0 32) n0.
Proof.
  intros Hf. split; [done|]. intros n Hn. rewrite <- Hf by done.
  rewrite <- (tab_seqZ f 32 (Z.of_nat n)) by lia. unfold tab. now rewrite Nat2Z.id.
Qed.

Lemma gf2_compose_ref a b i j :
  represents a i -> represents b j -> represents (gf2_compose a b) (i + j).
Proof.
  intros Ha [Hbl Hb]. split; [unfold gf2_compose; now rewrite length_fmap|].
  intros n Hn. unfold gf2_compose.
  assert (exists x, b !! n = Some x) as [x Hx] by (apply lookup_lt_is_Some; lia).
  rewrite (nth_lookup_Some _ _ _ (gf2_apply a x)) by now rewrite list_lookup_fmap, Hx.
  specialize (Hb n Hn). rewrite (nth_lookup_Some _ _ _ _ Hx) in Hb. subst x.
  rewrite (gf2_apply_ref i) by auto using crc_bits_fits, unit_fits.
  now rewrite crc_bits_add.
Qed.

Lemma gf2_identity_ref : represents gf2_identity 0.
Proof.
  apply (represents_fmap (fun n => u32 (1 << n))). intros n Hn. cbn.
  apply wrap_small. now apply unit_fits.
Qed.

Lemma zero_bit_operator_ref : represents zero_bit_operator 1.
Proof.
  split; [done|]. intros [|n] Hn; [done|].
  cbn [nth zero_bit_operator]. change (crc_bits 1 ?c) with (crc_bit c).
  rewrite (nth_lookup_Some _ _ _ (u32 (1 << Z.of_nat n))).
  - unfold u32. rewrite wrap_small by (apply unit_fits; lia).
    replace (1 << Z.of_nat (S n)) with (2 * (1 << Z.of_nat n)); [now rewrite crc_bit_double|].
    rewrite !Z.shiftl_mul_pow2 by lia. rewrite Nat2Z.inj_succ, Z.pow_succ_r by lia. lia.
  - rewrite list_lookup_fmap, lookup_seqZ_lt by lia. cbn. do 3 f_equal. lia.
Qed.

Lemma zero_bits_loop_ref result base bits i j :
  represents result i -> represents base j ->
  represents (zero_bits_loop result base bits) (i + j * Pos.to_nat bits).
Proof.
  revert result base i j. induction bits as [bits IH|bits IH|]; intros result base i j Hr Hb; cbn [zero_bits_loop].
  - replace (i + j * Pos.to_nat bits~1)%nat with ((j + i) + (j + j) * Pos.to_nat bits)%nat by lia.
    auto using gf2_compose_ref.
  - replace (i + j * Pos.to_nat bits~0)%nat with (i + (j + j) * Pos.to_nat bits)%nat by lia.
    auto using gf2_compose_ref.
  - replace (i + j * Pos.to_nat 1)%nat with (j + i)%nat by lia. auto using gf2_compose_ref.
Qed.

Lemma zero_bytes_operator_ref bytes : represents (zero_bytes_operator bytes) (8 * bytes).
Proof.
  unfold zero_bytes_operator. destruct (Z.of_nat bytes * 8) as [|bits|bits] eqn:E; [| |lia].
  - replace bytes with 0%nat by lia. apply gf2_identity_ref.
  - replace (8 * bytes)%nat with (0 + 1 * Pos.to_nat bits)%nat by lia.
    apply zero_bits_loop_ref; auto using gf2_identity_ref, zero_bit_operator_ref.
Qed.

Lemma shift_crc_ref L crc : fits 32 crc -> shift_crc (make_shift_table L) crc = crc_bits (8 * L) crc.
Proof.
  intros Hc. unfold shift_crc, make_shift_table. cbn [nth]. rewrite !land_255.
  change (?x mod 256) with (wrap 8 x).
  rewrite !tab_seqZ by apply wrap8_range.
  assert (forall k x, 0 <= k <= 24 -> fits 32 (wrap 8 x << k)) as Hf.
  { intros k x Hk. apply (fits_le (8 + k)); [lia|lia|]. apply fits_shiftl; auto with cyc. }
  unfold u32. rewrite !(wrap_small 32) by (apply Hf; lia).
  pose proof (zero_bytes_operator_ref L) as Hop.
  rewrite !(gf2_apply_ref _ _ _ Hop) by (auto using Hf with cyc || (apply Hf; lia) || (apply (fits_le 8); auto with cyc)).
  rewrite (word_bytes crc Hc) at 5. now rewrite !crc_bits_lxor.
Qed.

(** *** The instruction paths compute the reference *)

Section hardware_ref.
Context `{I : CrcInsns} `{L : !CrcInsnsLaws I}.

Lemma crc32_u8_ok : byte_step_ok crc32_u8.
Proof. intros crc b Hc Hb. now apply crc32_u8_law. Qed.

Lemma step_u64_ok e : step_ok 8 (step_u64 e).
Proof using L.
  intros crc p Hc Hp Hl. unfold step_u64.
  assert (fits 64 (le_val (take 8 p))) by now apply (le_val_take_fits 8).
  rewrite load_le64_ref, crc32_u64_law by done.
  rewrite crc_ref_le_val, length_take, Nat.min_l by auto with cyc.
  change (8 * 8)%nat with 64%nat. apply wrap_small.
  replace 64%nat with (8 * length (take 8 p))%nat by (rewrite length_take; lia).
  rewrite <- crc_ref_le_val; auto with cyc.
Qed.

Lemma sse42_tail_ref e crc p : fits 32 crc -> bytes_ok p -> sse42_tail e crc p = crc_ref crc p.
Proof using L.
  intros Hc Hp. unfold sse42_tail.
  pose proof (block_loop_ref 8 (step_u64 e) (length p) crc p (step_u64_ok e) ltac:(lia) Hc Hp) as H.
  destruct (block_loop _ _ _ _ _) as [c' p']. destruct H as (<- & Hc' & Hp').
  now apply byte_loop_ref; [apply crc32_u8_ok| |].
Qed.

Lemma arm_tail_ref e crc p : fits 32 crc -> bytes_ok p -> arm_tail e crc p = crc_ref crc p.
Proof using L.
  intros Hc Hp. unfold arm_tail.
  pose proof (block_loop_ref 8 (step_u64 e) (length p) crc p (step_u64_ok e) ltac:(lia) Hc Hp) as H.
  destruct (block_loop _ _ _ _ _) as [c' p']. destruct H as (<- & Hc' & Hp').
  destruct (Nat.leb_spec 4 (length p')); [|now apply byte_loop_ref; [apply crc32_u8_ok| |]].
  rewrite crc32_u32_law, load_le32_ref by auto using load_le32_fits.
  rewrite (crc_ref_split 4 c' p').
  replace (crc_bits 32 (c' .^ le_val (take 4 p'))) with (crc_ref c' (take 4 p')).
  - apply byte_loop_ref; auto using crc32_u8_ok with cyc.
  - rewrite crc_ref_le_val, length_take, Nat.min_l by auto with cyc. done.
Qed.

Lemma interleave_ref e len n c0 c1 c2 q :
  fits 32 c0 -> fits 32 c1 -> fits 32 c2 -> bytes_ok q -> (2 * len + 8 * n <= length q)%nat ->
  interleave e len n c0 c1 c2 q =
    (crc_ref c0 (take (8 * n) q), crc_ref c1 (take (8 * n) (drop len q)),
     crc_ref c2 (take (8 * n) (drop (2 * len) q))).
Proof using L.
  revert c0 c1 c2 q. induction n as [|n IH]; intros c0 c1 c2 q H0 H1 H2 Hq Hlen; [done|].
  cbn [interleave].
  assert (forall k, (k <= 2 * len)%nat -> bytes_ok (drop k q) /\ (8 <= length (drop k q))%nat) as Hd.
  { intros. rewrite length_drop. split; [auto with cyc|lia]. }
  destruct (Hd 0%nat), (Hd len), (Hd (2 * len)%nat); try lia. rewrite drop_0 in *.
  rewrite !(step_u64_ok e) by done.
  rewrite IH; auto with cyc; [|rewrite length_drop; lia].
  assert (forall c l, crc_ref c (take (8 * S n) l) = crc_ref (crc_ref c (take 8 l)) (take (8 * n) (drop 8 l))) as Hs.
  { intros c l. replace (8 * S n)%nat with (8 + 8 * n)%nat by lia.
    now rewrite <- take_take_drop, crc_ref_app. }
  now rewrite !Hs, !drop_drop, (Nat.add_comm 8 len), (Nat.add_comm 8 (2 * len)).
Qed.

Lemma three_way_step_ok e len :
  (len mod 8 = 0)%nat -> step_ok (3 * len) (three_way_step e len (make_shift_table len)).
Proof using L.
  intros Hdiv crc p Hc Hp Hl. unfold three_way_step.
  assert (8 * (len / 8) = len)%nat as Hlen.
  { pose proof (Nat.div_mod_eq len 8). lia. }
  rewrite interleave_ref by (auto with cyc || (unfold fits; lia) || (rewrite Hlen; lia)).
  rewrite Hlen.
  assert (forall k, bytes_ok (take len (drop k p))) as Hok by auto with cyc.
  pose proof (Hok 0%nat) as H0. rewrite drop_0 in H0.
  rewrite (shift_crc_ref len (crc_ref crc (take len p))) by auto with cyc.
  rewrite shift_crc_ref by (apply fits_lxor; [lia|auto with cyc|apply crc_ref_fits; [unfold fits; lia|auto with cyc]]).
  assert (forall c k, (k + len <= length p)%nat ->
     crc_bits (8 * len) c .^ crc_ref 0 (take len (drop k p)) = crc_ref c (take len (drop k p))) as Hlin.
  { intros c k Hk. rewrite (crc_ref_linear c) by done.
    rewrite length_take, length_drop, Nat.min_l by lia. done. }
  rewrite !Hlin by lia.
  replace (3 * len)%nat with (len + (len + len))%nat by lia.
  rewrite <- !take_take_drop, !crc_ref_app, drop_drop. do 3 f_equal; lia.
Qed.

Lemma three_way_long e : step_ok (3 * kLong) (three_way_step e kLong kShiftLong).
Proof using L. apply three_way_step_ok. reflexivity. Qed.

Lemma three_way_short e : step_ok (3 * kShort) (three_way_step e kShort kShiftShort).
Proof using L. apply three_way_step_ok. reflexivity. Qed.

(** The interleaved body in front of either tail. *)
Lemma three_way_body_ref e (tail : Z -> list Z -> Z) addr crc p :
  (forall c l, fits 32 c -> bytes_ok l -> tail c l = crc_ref c l) ->
  fits 32 crc -> bytes_ok p ->
  (let '(crc, p) := unaligned_head crc32_u8 addr crc p in
   let '(crc, p) := block_loop (3 * kLong) (three_way_step e kLong kShiftLong) (length p) crc p in
   let '(crc, p) := block_loop (3 * kShort) (three_way_step e kShort kShiftShort) (length p) crc p in
   tail crc p) = crc_ref crc p.
Proof using L.
  intros Ht Hc Hp.
  pose proof (unaligned_head_ref crc32_u8 addr crc p crc32_u8_ok Hc Hp) as H1.
  destruct (unaligned_head _ _ _ _) as [c1 p1]. destruct H1 as (<- & Hc1 & Hp1).
  pose proof (block_loop_ref _ _ (length p1) c1 p1 (three_way_long e)
    ltac:(unfold kLong; lia) Hc1 Hp1) as H2.
  destruct (block_loop _ _ _ _ _) as [c2 p2]. destruct H2 as (<- & Hc2 & Hp2).
  pose proof (block_loop_ref _ _ (length p2) c2 p2 (three_way_short e)
    ltac:(unfold kShort; lia) Hc2 Hp2) as H3.
  destruct (block_loop _ _ _ _ _) as [c3 p3]. destruct H3 as (<- & Hc3 & Hp3).
  now apply Ht.
Qed.

Lemma one_way_ref (tail : Z -> list Z -> Z) addr crc p :
  (forall c l, fits 32 c -> bytes_ok l -> tail c l = crc_ref c l) ->
  fits 32 crc -> bytes_ok p ->
  (let '(crc, p) := unaligned_head crc32_u8 addr crc p in tail crc p) = crc_ref crc p.
Proof using L.
  intros Ht Hc Hp.
  pose proof (unaligned_head_ref crc32_u8 addr crc p crc32_u8_ok Hc Hp) as H1.
  destruct (unaligned_head _ _ _ _) as [c1 p1]. destruct H1 as (<- & Hc1 & Hp1). now apply Ht.
Qed.

(** An implementation that computes the reference from every address. *)
Definition impl_ok (impl : Crc32cImpl) : Prop :=
  forall addr crc p, fits 32 crc -> bytes_ok p -> impl addr crc p = crc_ref crc p.

Lemma hardware_impl_ok pl : impl_ok (hardware_impl pl).
Proof using L.
  intros addr crc p Hc Hp. unfold hardware_impl. destruct (pl_arch pl).
  - apply three_way_body_ref; auto using sse42_tail_ref.
  - apply three_way_body_ref; auto using arm_tail_ref.
  - now apply slice_by_16_ref.
Qed.

Lemma hardware_impl_1way_ok pl : impl_ok (hardware_impl_1way pl).
Proof using L.
  intros addr crc p Hc Hp. unfold hardware_impl_1way. destruct (pl_arch pl).
  - apply one_way_ref; auto using sse42_tail_ref.
  - apply one_way_ref; auto using arm_tail_ref.
  - now apply slice_by_16_ref.
Qed.

Lemma select_impl_ok pl : impl_ok (select_impl pl).
Proof using L.
  intros addr crc p Hc Hp. unfold select_impl. destruct (hardware_usable pl).
  - now apply hardware_impl_ok.
  - now apply slice_by_16_ref.
Qed.
End hardware_ref.

(** ** Properties *)

Section properties.
Context `{I : CrcInsns} `{L : !CrcInsnsLaws I}.

Lemma crc32c_update_ref pl addr state data :
  fits 32 state -> bytes_ok data ->
  crc32c_update pl addr state data = not32 (crc_ref (not32 state) data).
Proof using L.
  intros Hs Hd. unfold crc32c_update, run. f_equal. apply select_impl_ok; auto with cyc.
Qed.

(** C23. Every implementation the dispatch can pick (slice-by-16, SSE4.2 and
    ARMv8, one way or three ways interleaved, on either byte order and from
    any address) returns the bitwise CRC-32C of the data: reflected
    polynomial 0x82F63B78, init and xorout 0xFFFFFFFF. *)
Theorem crc32c_paths_agree pl addr state data :
  fits 32 state -> bytes_ok data ->
  let ref := not32 (crc_ref (not32 state) data) in
  crc32c_update pl addr state data = ref /\
  crc32c_update_portable pl addr state data = ref /\
  crc32c_update_hardware pl addr state data = ref /\
  crc32c_update_hardware_1way pl addr state data = ref.
Proof using L.
  intros Hs Hd ref. subst ref. rewrite crc32c_update_ref by done.
  unfold crc32c_update_portable, crc32c_update_hardware, crc32c_update_hardware_1way, run.
  rewrite slice_by_16_ref by auto with cyc.
  destruct (hardware_usable pl).
  - rewrite hardware_impl_ok, hardware_impl_1way_ok by auto with cyc. done.
  - rewrite slice_by_16_ref by auto with cyc. done.
Qed.

(** Chunking is transparent: continuing a checksum over a second span
    gives the checksum of the concatenation, wherever the spans lie. *)
Theorem crc32c_update_chunks pl addr1 addr2 addr3 state a b :
  fits 32 state -> bytes_ok a -> bytes_ok b ->
  crc32c_update pl addr2 (crc32c_update pl addr1 state a) b =
  crc32c_update pl addr3 state (a ++ b).
Proof using L.
  intros Hs Ha Hb. assert (bytes_ok (a ++ b)) by now apply bytes_ok_app.
  rewrite (crc32c_update_ref pl addr1), (crc32c_update_ref pl addr3),
    (crc32c_update_ref pl addr2) by auto with cyc.
  rewrite not32_involutive by auto with cyc. now rewrite crc_ref_app.
Qed.
End properties.

(** A register with a set bit never advances to zero: the polynomial's top
    bit is set, so the step is injective on 32-bit registers. *)
Lemma crc_bit_nonzero c : fits 32 c -> c <> 0 -> crc_bit c <> 0.
Proof.
  intros Hc Hne. unfold crc_bit. rewrite land_1_odd. destruct (Z.odd c) eqn:E.
  - intros Hx. apply Z.lxor_eq in Hx. unfold fits, kPolyReflected in *.
    rewrite Z.shiftr_div_pow2 in Hx by lia. Z.div_mod_to_equations. lia.
  - intros Hx. rewrite (odd_split c), E, Hx in Hne. now apply Hne.
Qed.

Lemma crc_bits_nonzero n c : fits 32 c -> c <> 0 -> crc_bits n c <> 0.
Proof.
  intros. induction n; [done|]. rewrite crc_bits_S. apply crc_bit_nonzero; auto with cyc.
Qed.

Lemma crc32c_burst `{I : CrcInsns} `{L : !CrcInsnsLaws I} pl addr a b (k : nat) d :
  bytes_ok a -> bytes_ok b -> length a = length b ->
  0 < d < 2 ^ 32 -> le_val a .^ le_val b = d << Z.of_nat k ->
  crc32c_update pl addr 0 a <> crc32c_update pl addr 0 b.
Proof.
  intros Ha Hb Hlen Hd Hdiff.
  rewrite !crc32c_update_ref by (done || (unfold fits; lia)).
  intros Heq. apply not32_inj in Heq; auto with cyc.
  rewrite !crc_ref_le_val, Hlen, !crc_bits_lxor in Heq by done.
  assert (crc_bits (8 * length b) (le_val a .^ le_val b) = 0) as Hz.
  { rewrite crc_bits_lxor. apply Z.lxor_eq_0_iff.
    apply (f_equal (Z.lxor (crc_bits (8 * length b) (not32 0)))) in Heq.
    now rewrite <- !Z.lxor_assoc, Z.lxor_nilpotent, !Z.lxor_0_l in Heq. }
  assert (k < 8 * length b)%nat as Hk.
  { destruct (Nat.lt_ge_cases k (8 * length b)) as [|Hge]; [done|exfalso].
    pose proof (le_val_bound a Ha) as Ba. pose proof (le_val_bound b Hb) as Bb. rewrite Hlen in Ba.
    assert (fits (8 * Z.of_nat (length b)) (le_val a .^ le_val b)) as [_ Hx].
    { apply fits_lxor; [lia| |]; unfold fits; rewrite Z.pow_mul_r by lia; done. }
    rewrite Hdiff, Z.shiftl_mul_pow2 in Hx by lia.
    pose proof (Z.pow_le_mono_r 2 (8 * Z.of_nat (length b)) (Z.of_nat k)). nia. }
  rewrite Hdiff, crc_bits_shiftl_le in Hz by lia.
  now apply crc_bits_nonzero in Hz; [|unfold fits; lia|lia].
Qed.

(** Error detection: two strings of the same length that differ only
    inside a window of 32 bits (a burst [d], placed [k] bits into the
    string) always have different checksums. *)
Theorem crc32c_detects_bursts `{I : CrcInsns} `{L : !CrcInsnsLaws I} pl addr a b (k : nat) d :
  bytes_ok a -> bytes_ok b -> length a = length b ->
  0 < d < 2 ^ 32 -> le_val a .^ le_val b = d << Z.of_nat k ->
  crc32c pl addr a <> crc32c pl addr b.
Proof. apply crc32c_burst. Qed.

(** *** Witnesses *)

(** "123456789" *)
Definition check_input : list Z := [0x31; 0x32; 0x33; 0x34; 0x35; 0x36; 0x37; 0x38; 0x39].
Definition x86_host : platform := {| pl_arch := arch_x86; pl_probe := true; pl_endian := little |}.

Ltac bytes_decide := repeat (constructor; [apply is_byte_iff; lia|]); constructor.

Lemma crc32c_paths_agree_witness :
  crc32c_update x86_host 3 0 check_input = 0xE3069283 /\
  crc32c_update_portable x86_host 3 0 check_input = 0xE3069283.
Proof.
  destruct (crc32c_paths_agree x86_host 3 0 check_input) as (H1 & H2 & _ & _).
  - unfold fits. lia.
  - unfold check_input, bytes_ok. bytes_decide.
  - rewrite H1, H2. split; vm_compute; reflexivity.
Defined.

Lemma crc32c_update_chunks_witness :
  crc32c_update x86_host 5 (crc32c_update x86_host 0 0 (take 4 check_input)) (drop 4 check_input)
  = crc32c_update x86_host 0 0 check_input.
Proof.
  apply (crc32c_update_chunks x86_host 0 5 0 0 (take 4 check_input) (drop 4 check_input)).
  - unfold fits. lia.
  - unfold check_input, bytes_ok. cbn. bytes_decide.
  - unfold check_input, bytes_ok. cbn. bytes_decide.
Defined.

Lemma crc32c_detects_bursts_witness : crc32c x86_host 0 [1; 2; 3] <> crc32c x86_host 0 [1; 6; 3].
Proof.
  apply (crc32c_detects_bursts x86_host 0 [1; 2; 3] [1; 6; 3] 10 1).
  - unfold bytes_ok. bytes_decide.
  - unfold bytes_ok. bytes_decide.
  - reflexivity.
  - lia.
  - reflexivity.
Defined.
