(* ===== verification/Sha256.v ===== *)
(** * The bundled SHA-256 (src/src/core/sha256.hpp)

    The streaming context [SHA256] with its block buffer ([update],
    [finalize], [reset]) and the compression function [transform].  The
    streaming code is proved equal to the one-shot definition of FIPS 180-4:
    pad the whole message, then fold the compression over its blocks. *)

From S2P Require Import Prelude.
Local Open Scope cyc_scope.

Definition BLOCK_SIZE : nat := 64.
Definition DIGEST_SIZE : nat := 32.

(** The round constants, in the rows of the source. *)
Definition K : list Z := concat [
  [ 0x428a2f98; 0x71374491; 0xb5c0fbcf; 0xe9b5dba5; 0x3956c25b; 0x59f111f1 ];
  [ 0x923f82a4; 0xab1c5ed5; 0xd807aa98; 0x12835b01; 0x243185be; 0x550c7dc3 ];
  [ 0x72be5d74; 0x80deb1fe; 0x9bdc06a7; 0xc19bf174; 0xe49b69c1; 0xefbe4786 ];
  [ 0x0fc19dc6; 0x240ca1cc; 0x2de92c6f; 0x4a7484aa; 0x5cb0a9dc; 0x76f988da ];
  [ 0x983e5152; 0xa831c66d; 0xb00327c8; 0xbf597fc7; 0xc6e00bf3; 0xd5a79147 ];
  [ 0x06ca6351; 0x14292967; 0x27b70a85; 0x2e1b2138; 0x4d2c6dfc; 0x53380d13 ];
  [ 0x650a7354; 0x766a0abb; 0x81c2c92e; 0x92722c85; 0xa2bfe8a1; 0xa81a664b ];
  [ 0xc24b8b70; 0xc76c51a3; 0xd192e819; 0xd6990624; 0xf40e3585; 0x106aa070 ];
  [ 0x19a4c116; 0x1e376c08; 0x2748774c; 0x34b0bcb5; 0x391c0cb3; 0x4ed8aa4a ];
  [ 0x5b9cca4f; 0x682e6ff3; 0x748f82ee; 0x78a5636f; 0x84c87814; 0x8cc70208 ];
  [ 0x90befffa; 0xa4506ceb; 0xbef9a3f7; 0xc67178f2 ] ].

Definition rotr (x n : Z) : Z := (x >> n) .| u32 (x << (32 - n)).
Definition ch (x y z : Z) : Z := (x .& y) .^ (not32 x .& z).
Definition maj (x y z : Z) : Z := (x .& y) .^ (x .& z) .^ (y .& z).
Definition sigma0 (x : Z) : Z := rotr x 2 .^ rotr x 13 .^ rotr x 22.
Definition sigma1 (x : Z) : Z := rotr x 6 .^ rotr x 11 .^ rotr x 25.
Definition gamma0 (x : Z) : Z := rotr x 7 .^ rotr x 18 .^ (x >> 3).
Definition gamma1 (x : Z) : Z := rotr x 17 .^ rotr x 19 .^ (x >> 10).

(** ** The compression function *)

Definition at_ (l : list Z) (i : nat) : Z := nth i l 0.

Definition load_word (block : list Z) (i : nat) : Z :=
  u32 (at_ block (i * 4) << 24) .| u32 (at_ block (i * 4 + 1) << 16)
  .| u32 (at_ block (i * 4 + 2) << 8) .| at_ block (i * 4 + 3).

(** [n] more schedule words behind [W]. *)
Fixpoint extend (n : nat) (W : list Z) : list Z :=
  match n with
  | O => W
  | S n =>
      let i := length W in
      extend n (W ++ [u32 (gamma1 (at_ W (i - 2)) + at_ W (i - 7)
                           + gamma0 (at_ W (i - 15)) + at_ W (i - 16))])
  end.

Definition schedule (block : list Z) : list Z := extend 48 (load_word block <$> seq 0 16).

(** The eight working variables a..h. *)
Record vars := { va : Z; vb : Z; vc : Z; vd : Z; ve : Z; vf : Z; vg : Z; vh : Z }.

Definition round (v : vars) (kw : Z * Z) : vars :=
  let t1 := u32 (vh v + sigma1 (ve v) + ch (ve v) (vf v) (vg v) + fst kw + snd kw) in
  let t2 := u32 (sigma0 (va v) + maj (va v) (vb v) (vc v)) in
  {| va := u32 (t1 + t2); vb := va v; vc := vb v; vd := vc v;
     ve := u32 (vd v + t1); vf := ve v; vg := vf v; vh := vg v |}.

Definition transform (state : list Z) (block : list Z) : list Z :=
  let v0 := {| va := at_ state 0; vb := at_ state 1; vc := at_ state 2; vd := at_ state 3;
               ve := at_ state 4; vf := at_ state 5; vg := at_ state 6; vh := at_ state 7 |} in
  let v := fold_left round (zip K (schedule block)) v0 in
  [ u32 (at_ state 0 + va v); u32 (at_ state 1 + vb v); u32 (at_ state 2 + vc v);
    u32 (at_ state 3 + vd v); u32 (at_ state 4 + ve v); u32 (at_ state 5 + vf v);
    u32 (at_ state 6 + vg v); u32 (at_ state 7 + vh v) ].

(** ** The streaming context *)

Record SHA256 := {
  state_ : list Z;       (* 8 words *)
  buffer_ : list Z;      (* BLOCK_SIZE bytes *)
  buffer_len_ : nat;
  count_ : Z;            (* message bytes so far, uint64_t *)
}.

Definition initial_state : list Z :=
  [ 0x6a09e667; 0xbb67ae85; 0x3c6ef372; 0xa54ff53a;
    0x510e527f; 0x9b05688c; 0x1f83d9ab; 0x5be0cd19 ].

(** [reset] leaves the bytes of the block buffer as they are. *)
Definition reset (c : SHA256) : SHA256 :=
  {| state_ := initial_state; buffer_ := buffer_ c; buffer_len_ := 0; count_ := 0 |}.

(** [while (len >= BLOCK_SIZE)]: every round consumes a block, so the length
    of the data bounds the rounds. *)
Fixpoint transform_blocks (fuel : nat) (state : list Z) (ptr : list Z) : list Z * list Z :=
  match fuel with
  | O => (state, ptr)
  | S fuel => if (BLOCK_SIZE <=? length ptr)%nat
              then transform_blocks fuel (transform state (take BLOCK_SIZE ptr)) (drop BLOCK_SIZE ptr)
              else (state, ptr)
  end.

(** The first branch of [update]: top up a partly filled buffer. *)
Definition update_buffered (c : SHA256) (ptr : list Z) : SHA256 * list Z :=
  if (0 <? buffer_len_ c)%nat then
    let to_copy := Nat.min (length ptr) (BLOCK_SIZE - buffer_len_ c) in
    let buf := write_at (buffer_ c) (buffer_len_ c) (take to_copy ptr) in
    let blen := (buffer_len_ c + to_copy)%nat in
    let ptr := drop to_copy ptr in
    if (blen =? BLOCK_SIZE)%nat then
      ({| state_ := transform (state_ c) buf; buffer_ := buf; buffer_len_ := 0;
          count_ := count_ c |}, ptr)
    else
      ({| state_ := state_ c; buffer_ := buf; buffer_len_ := blen; count_ := count_ c |}, ptr)
  else (c, ptr).

Definition update (c : SHA256) (data : list Z) : SHA256 :=
  let c := {| state_ := state_ c; buffer_ := buffer_ c; buffer_len_ := buffer_len_ c;
              count_ := u64 (count_ c + Z.of_nat (length data)) |} in
  let '(c, ptr) := update_buffered c data in
  let '(st, rest) := transform_blocks (length ptr) (state_ c) ptr in
  if (0 <? length rest)%nat then
    {| state_ := st; buffer_ := write_at (buffer_ c) 0 rest; buffer_len_ := length rest;
       count_ := count_ c |}
  else
    {| state_ := st; buffer_ := buffer_ c; buffer_len_ := buffer_len_ c; count_ := count_ c |}.

(** The eight length bytes, [bits >> (i * 8)] for i = 7 .. 0. *)
Definition length_bytes (bits : Z) : list Z :=
  (fun i => u8 (bits >> (i * 8))) <$> [7; 6; 5; 4; 3; 2; 1; 0].

Definition zero_fill (buf : list Z) (from upto : nat) : list Z :=
  write_at buf from (replicate (upto - from) 0).

Definition output_word (w : Z) : list Z :=
  [u8 (w >> 24); u8 (w >> 16); u8 (w >> 8); u8 w].

Definition output (state : list Z) : list Z := concat (output_word <$> state).

Definition finalize (c : SHA256) : list Z * SHA256 :=
  let bits := u64 (count_ c * 8) in
  let buf := write_at (buffer_ c) (buffer_len_ c) [0x80] in
  let blen := (buffer_len_ c + 1)%nat in
  let '(st, buf, blen) :=
    if (56 <? blen)%nat then
      let buf := zero_fill buf blen BLOCK_SIZE in
      (transform (state_ c) buf, buf, 0%nat)
    else (state_ c, buf, blen) in
  let buf := zero_fill buf blen 56 in
  let buf := write_at buf (Nat.max blen 56) (length_bytes bits) in
  let st := transform st buf in
  (output st,
   reset {| state_ := st; buffer_ := buf; buffer_len_ := 64; count_ := count_ c |}).

(** [SHA256 ctx;] on a buffer whose bytes are indeterminate: [garbage]. *)
Definition fresh (garbage : list Z) : SHA256 :=
  reset {| state_ := []; buffer_ := garbage; buffer_len_ := 0; count_ := 0 |}.

Definition hash (garbage data : list Z) : list Z := fst (finalize (update (fresh garbage) data)).

(** ** One-shot definition: pad, then compress block by block *)

Definition padding (len : nat) : list Z :=
  0x80 :: replicate (Z.to_nat ((55 - Z.of_nat len) mod 64)) 0
       ++ length_bytes (u64 (Z.of_nat len * 8)).

Definition compress (state msg : list Z) : list Z * list Z :=
  transform_blocks (length msg) state msg.

Definition sha256_ref (msg : list Z) : list Z :=
  output (fst (compress initial_state (msg ++ padding (length msg)))).

(** ** Lemmas *)

#[local] Opaque transform output.

Record ctx_ok (c : SHA256) : Prop := {
  ctx_buffer : length (buffer_ c) = BLOCK_SIZE;
  ctx_len : (buffer_len_ c < BLOCK_SIZE)%nat;
}.

Definition pending (c : SHA256) : list Z := take (buffer_len_ c) (buffer_ c).

(** More fuel than blocks changes nothing. *)
Lemma transform_blocks_fuel n m st l :
  (length l <= n)%nat -> (n <= m)%nat -> transform_blocks m st l = transform_blocks n st l.
Proof.
  revert m st l. induction n as [|n IH]; intros m st l Hl Hm.
  - destruct l; cbn in Hl; [|lia]. now destruct m.
  - destruct m as [|m]; [lia|]. cbn [transform_blocks].
    destruct (Nat.leb_spec BLOCK_SIZE (length l)); [|done].
    apply IH; [|lia]. rewrite length_drop. unfold BLOCK_SIZE in *. lia.
Qed.

Lemma transform_blocks_compress n st l :
  (length l <= n)%nat -> transform_blocks n st l = compress st l.
Proof. intros. unfold compress. now apply transform_blocks_fuel. Qed.

Lemma compress_short st l : (length l < BLOCK_SIZE)%nat -> compress st l = (st, l).
Proof.
  intros H. unfold compress. destruct l as [|b l]; [done|]. cbn [transform_blocks length].
  destruct (Nat.leb_spec BLOCK_SIZE (S (length l))); [cbn in H; lia|done].
Qed.

Lemma compress_block st b l : length b = BLOCK_SIZE -> compress st (b ++ l) = compress (transform st b) l.
Proof.
  intros Hb. unfold compress at 1.
  destruct (length (b ++ l)) as [|n] eqn:E; rewrite length_app in E; unfold BLOCK_SIZE in *; [lia|].
  cbn [transform_blocks]. rewrite length_app. unfold BLOCK_SIZE.
  destruct (Nat.leb_spec 64 (length b + length l)); [|lia].
  rewrite <- Hb, take_app_length, drop_app_length. apply transform_blocks_compress. lia.
Qed.

Lemma transform_blocks_rest n st l :
  (length l <= n)%nat -> (length (snd (transform_blocks n st l)) < BLOCK_SIZE)%nat.
Proof.
  revert st l. induction n as [|n IH]; intros st l Hl; cbn [transform_blocks].
  - cbn. unfold BLOCK_SIZE. lia.
  - destruct (Nat.leb_spec BLOCK_SIZE (length l)); [|done].
    apply IH. rewrite length_drop. unfold BLOCK_SIZE in *. lia.
Qed.

Lemma compress_rest st l : (length (snd (compress st l)) < BLOCK_SIZE)%nat.
Proof. now apply transform_blocks_rest. Qed.

Lemma transform_blocks_app n st a b :
  (length a <= n)%nat ->
  compress st (a ++ b) = compress (fst (transform_blocks n st a)) (snd (transform_blocks n st a) ++ b).
Proof.
  revert st a. induction n as [|n IH]; intros st a Hl; cbn [transform_blocks]; [done|].
  destruct (Nat.leb_spec BLOCK_SIZE (length a)); [|done].
  rewrite <- IH by (rewrite length_drop; unfold BLOCK_SIZE in *; lia).
  rewrite <- (take_drop BLOCK_SIZE a) at 1. rewrite <- app_assoc. apply compress_block.
  rewrite length_take. lia.
Qed.

(** Absorbing a message in two pieces. *)
Lemma compress_app st a b :
  compress st (a ++ b) = compress (fst (compress st a)) (snd (compress st a) ++ b).
Proof. now apply transform_blocks_app. Qed.

(** [update] absorbs the data behind what is pending. *)
Lemma update_buffered_spec c ptr :
  ctx_ok c ->
  let '(c', ptr') := update_buffered c ptr in
  ctx_ok c' /\ count_ c' = count_ c /\
  compress (state_ c') (pending c' ++ ptr') = compress (state_ c) (pending c ++ ptr) /\
  (ptr' = [] \/ buffer_len_ c' = 0%nat).
Proof.
  intros [Hb Hl]. unfold update_buffered. destruct (Nat.ltb_spec 0 (buffer_len_ c)); [|repeat split; auto; right; lia].
  set (k := Nat.min (length ptr) (BLOCK_SIZE - buffer_len_ c)).
  assert (length (take k ptr) = k) as Hk by (rewrite length_take; lia).
  assert (buffer_len_ c + length (take k ptr) <= length (buffer_ c))%nat as Hfit by lia.
  destruct (Nat.eqb_spec (buffer_len_ c + k) BLOCK_SIZE) as [E|E]; cbn.
  - split; [split; cbn; [rewrite length_write_at by done; done|unfold BLOCK_SIZE; lia]|].
    split; [done|]. split; [|now right].
    unfold pending. cbn.
    replace (take (buffer_len_ c) (buffer_ c) ++ ptr)
      with ((take (buffer_len_ c) (buffer_ c) ++ take k ptr) ++ drop k ptr)
      by (now rewrite <- app_assoc, take_drop).
    rewrite write_at_full by lia. rewrite compress_block; [done|].
    rewrite length_app, length_take. lia.
  - split; [split; cbn; [rewrite length_write_at by done; done|unfold BLOCK_SIZE in *; lia]|].
    split; [done|]. assert (k = length ptr) as Ek by (unfold BLOCK_SIZE in *; lia).
    split; [|left; apply drop_ge; lia]. unfold pending. cbn.
    rewrite (write_at_take _ _ _ (buffer_len_ c + k)) by lia.
    rewrite <- app_assoc, take_drop. done.
Qed.

Lemma update_spec c data :
  ctx_ok c ->
  let c' := update c data in
  ctx_ok c' /\ count_ c' = u64 (count_ c + Z.of_nat (length data)) /\
  (state_ c', pending c') = compress (state_ c) (pending c ++ data).
Proof.
  intros Hc. unfold update.
  set (c1 := {| state_ := state_ c; buffer_ := buffer_ c; buffer_len_ := buffer_len_ c;
                count_ := u64 (count_ c + Z.of_nat (length data)) |}).
  assert (ctx_ok c1) as Hc1 by (destruct Hc; now split).
  pose proof (update_buffered_spec c1 data Hc1) as H.
  destruct (update_buffered c1 data) as [c2 ptr]. destruct H as (Hc2 & Hcnt & Hcomp & Hor).
  change (compress (state_ c) (pending c ++ data)) with (compress (state_ c1) (pending c1 ++ data)).
  rewrite <- Hcomp. fold (compress (state_ c2) ptr).
  pose proof (compress_rest (state_ c2) ptr) as Hrest.
  destruct Hor as [->|H0].
  - cbn. destruct Hc2. repeat split; [done|done|done|]. rewrite app_nil_r, compress_short; [done|].
    unfold pending. rewrite length_take. lia.
  - assert (pending c2 = []) as -> by (unfold pending; now rewrite H0). rewrite app_nil_l.
    destruct (compress (state_ c2) ptr) as [st rest]. cbn [snd] in Hrest.
    destruct Hc2 as [Hb Hl]. unfold pending.
    destruct (Nat.ltb_spec 0 (length rest)); cbn [state_ buffer_ buffer_len_ count_].
    + split; [split; cbn [buffer_ buffer_len_]; [rewrite length_write_at by lia; done|done]|].
      split; [done|]. now rewrite (write_at_take _ 0 rest (length rest)) by lia.
    + split; [now split|]. split; [done|]. rewrite H0. destruct rest; [done|cbn in *; lia].
Qed.

Lemma fresh_ok garbage : length garbage = BLOCK_SIZE -> ctx_ok (fresh garbage).
Proof. intros H. split; cbn; [done|unfold BLOCK_SIZE; lia]. Qed.

Lemma take_zero_fill buf from upto n :
  n = upto -> (from <= upto)%nat -> (upto <= length buf)%nat ->
  take n (zero_fill buf from upto) = take from buf ++ replicate (upto - from) 0.
Proof.
  intros -> ? ?. unfold zero_fill. apply write_at_take; rewrite ?length_replicate; lia.
Qed.

Lemma length_zero_fill buf from upto :
  (from <= upto)%nat -> (upto <= length buf)%nat -> length (zero_fill buf from upto) = length buf.
Proof. intros. unfold zero_fill. apply length_write_at. rewrite length_replicate. lia. Qed.

Lemma length_length_bytes bits : length (length_bytes bits) = 8%nat.
Proof. done. Qed.

(** The padding the code builds inside its block buffer, as one string. *)
Definition pad_tail (blen : nat) (bits : Z) : list Z :=
  0x80 :: replicate (Z.to_nat ((55 - Z.of_nat blen) mod 64)) 0 ++ length_bytes bits.

Lemma finalize_spec c :
  ctx_ok c ->
  fst (finalize c) =
    output (fst (compress (state_ c) (pending c ++ pad_tail (buffer_len_ c) (u64 (count_ c * 8))))).
Proof.
  intros [Hb Hl]. unfold BLOCK_SIZE in *. unfold finalize.
  set (bits := u64 (count_ c * 8)). set (n := buffer_len_ c) in *.
  assert (length (write_at (buffer_ c) n [128]) = 64%nat) as Hw by (rewrite length_write_at; cbn; lia).
  assert (take (n + 1) (write_at (buffer_ c) n [128]) = pending c ++ [128]) as Ht.
  { rewrite (write_at_take _ n [128]) by (cbn; lia). done. }
  set (b1 := write_at (buffer_ c) n [128]) in *.
  assert (forall st buf k, length buf = 64%nat -> (k <= 56)%nat ->
    transform st (write_at (zero_fill buf k 56) (Nat.max k 56) (length_bytes bits)) =
    fst (compress st (take k buf ++ replicate (56 - k) 0 ++ length_bytes bits))) as Hlast.
  { intros st buf k Hbuf Hk. rewrite Nat.max_r by lia.
    rewrite write_at_full by (rewrite length_zero_fill, length_length_bytes; lia).
    rewrite take_zero_fill by lia. rewrite <- app_assoc.
    rewrite <- (app_nil_r (take k buf ++ _ ++ _)) at 2. rewrite compress_block; [done|].
    rewrite !length_app, length_take, length_replicate, length_length_bytes. unfold BLOCK_SIZE. lia. }
  destruct (Nat.ltb_spec 56 (n + 1)); cbn [fst].
  - rewrite Hlast by (rewrite ?length_zero_fill; unfold BLOCK_SIZE; lia).
    f_equal. f_equal. unfold BLOCK_SIZE. cbn [take]. rewrite app_nil_l.
    replace (pending c ++ pad_tail n bits)
      with ((pending c ++ [128] ++ replicate (64 - (n + 1)) 0) ++ replicate 56 0 ++ length_bytes bits).
    + rewrite (compress_block (state_ c)).
      * rewrite (app_assoc (pending c)), <- Ht. rewrite <- take_zero_fill with (n := 64%nat) by lia.
        rewrite take_ge; [done|]. rewrite length_zero_fill; lia.
      * rewrite !length_app, length_replicate. unfold pending. rewrite length_take. cbn.
        unfold BLOCK_SIZE. fold n. lia.
    + unfold pad_tail. rewrite <- !app_assoc. cbn [app]. f_equal. f_equal.
      rewrite app_assoc, <- replicate_add. f_equal. f_equal.
      rewrite <- (Z.mod_add _ 1) by lia. rewrite Z.mod_small by lia. lia.
  - rewrite Hlast by lia. f_equal. f_equal. f_equal. rewrite Ht, <- !app_assoc. cbn [app].
    f_equal. unfold pad_tail. f_equal. f_equal. f_equal.
    rewrite Z.mod_small by lia. lia.
Qed.

Lemma transform_blocks_mod n st l :
  (length l <= n)%nat ->
  Z.of_nat (length (snd (transform_blocks n st l))) mod 64 = Z.of_nat (length l) mod 64.
Proof.
  revert st l. induction n as [|n IH]; intros st l Hl; cbn [transform_blocks]; [done|].
  destruct (Nat.leb_spec BLOCK_SIZE (length l)); [|done]. unfold BLOCK_SIZE in *.
  rewrite IH by (rewrite length_drop; lia). rewrite length_drop, Nat2Z.inj_sub by lia.
  rewrite <- (Z.mod_add _ 1) by lia. f_equal. lia.
Qed.

(** What the context has absorbed so far is exactly [msg]. *)
Record absorbed (c : SHA256) (msg : list Z) : Prop := {
  ab_ok : ctx_ok c;
  ab_count : count_ c = u64 (Z.of_nat (length msg));
  ab_state : (state_ c, pending c) = compress initial_state msg;
}.

Lemma absorbed_fresh garbage : length garbage = BLOCK_SIZE -> absorbed (fresh garbage) [].
Proof. intros H. split; [now apply fresh_ok|done|done]. Qed.

Lemma absorbed_update c msg data : absorbed c msg -> absorbed (update c data) (msg ++ data).
Proof.
  intros [Hok Hc Hs]. destruct (update_spec c data Hok) as (Hok' & Hc' & Hs'). split; [done| |].
  - rewrite Hc', Hc, length_app. unfold u64, wrap. rewrite Zplus_mod_idemp_l. f_equal. lia.
  - rewrite (compress_app initial_state msg), <- Hs. done.
Qed.

Lemma absorbed_chunks c msg chunks :
  absorbed c msg -> absorbed (fold_left update chunks c) (msg ++ concat chunks).
Proof.
  revert c msg. induction chunks as [|d chunks IH]; intros c msg H; cbn; [now rewrite app_nil_r|].
  rewrite app_assoc. now apply IH, absorbed_update.
Qed.

Lemma absorbed_finalize c msg : absorbed c msg -> fst (finalize c) = sha256_ref msg.
Proof.
  intros [Hok Hc Hs]. rewrite finalize_spec by done. unfold sha256_ref.
  rewrite (compress_app initial_state msg), <- Hs. cbn [fst snd].
  assert (pad_tail (buffer_len_ c) (u64 (count_ c * 8)) = padding (length msg)) as ->; [|done].
  unfold pad_tail, padding. f_equal. f_equal.
  - f_equal. f_equal. rewrite Zminus_mod, (Zminus_mod 55 (Z.of_nat (length msg))). f_equal. f_equal.
    assert (length (pending c) = buffer_len_ c) as <-.
    { destruct Hok. unfold pending. rewrite length_take. lia. }
    replace (pending c) with (snd (compress initial_state msg)) by now rewrite <- Hs.
    now apply transform_blocks_mod.
  - f_equal. rewrite Hc. unfold u64, wrap. now rewrite Zmult_mod_idemp_l.
Qed.

(** However a message is cut into [update] calls, the streaming SHA-256
    context returns the FIPS 180-4 digest of the whole message (padding and
    64-bit length included), whatever bytes its block buffer started with. *)
Theorem sha256_streaming garbage chunks :
  length garbage = BLOCK_SIZE ->
  fst (finalize (fold_left update chunks (fresh garbage))) = sha256_ref (concat chunks).
Proof.
  intros H. apply absorbed_finalize. apply (absorbed_chunks _ []). now apply absorbed_fresh.
Qed.

(** After [finalize] the context is a fresh one: it can hash a new message. *)
Lemma finalize_resets c : ctx_ok c -> snd (finalize c) = fresh (buffer_ (snd (finalize c))).
Proof. intros _. unfold finalize. now destruct (56 <? buffer_len_ c + 1)%nat. Qed.

Lemma hash_ref garbage data : length garbage = BLOCK_SIZE -> hash garbage data = sha256_ref data.
Proof.
  intros H. unfold hash. apply absorbed_finalize. apply (absorbed_update _ []). now apply absorbed_fresh.
Qed.

#[local] Transparent transform output.

Lemma length_concat_words l : length (concat (output_word <$> l)) = (4 * length l)%nat.
Proof. induction l; cbn in *; lia. Qed.

Lemma output_bytes l : bytes_ok (output l).
Proof.
  unfold output. induction l as [|w l IH]; cbn; [constructor|].
  repeat (apply Forall_cons; split; [apply wrap_fits; lia|]). apply IH.
Qed.

Lemma length_transform st b : length (transform st b) = 8%nat.
Proof. done. Qed.

Lemma length_transform_blocks n st l :
  length st = 8%nat -> length (fst (transform_blocks n st l)) = 8%nat.
Proof.
  revert st l. induction n as [|n IH]; intros st l H; cbn [transform_blocks]; [done|].
  destruct (BLOCK_SIZE <=? length l)%nat; [|done]. now apply IH.
Qed.

Lemma sha256_ref_digest msg : length (sha256_ref msg) = DIGEST_SIZE /\ bytes_ok (sha256_ref msg).
Proof.
  split; [|apply output_bytes]. unfold sha256_ref, output. rewrite length_concat_words.
  unfold compress. now rewrite length_transform_blocks.
Qed.

(** FIPS 180-4 test vector: SHA-256("abc"), hashed in two pieces. *)
Lemma sha256_streaming_witness :
  fst (finalize (fold_left update [[0x61]; [0x62; 0x63]] (fresh (replicate 64 0xAA)))) =
  [0xba; 0x78; 0x16; 0xbf; 0x8f; 0x01; 0xcf; 0xea; 0x41; 0x41; 0x40; 0xde; 0x5d; 0xae; 0x22; 0x23;
   0xb0; 0x03; 0x61; 0xa3; 0x96; 0x17; 0x7a; 0x9c; 0xb4; 0x10; 0xff; 0x61; 0xf2; 0x00; 0x15; 0xad].
Proof.
  rewrite (sha256_streaming (replicate 64 0xAA) [[0x61]; [0x62; 0x63]]).
  - vm_compute. reflexivity.
  - reflexivity.
Defined.
