(* ===== verification/Key.v ===== *)
(** * Cache keys (src/include/cyclone/key.hpp, src/src/core/key.cpp)

    A key is a SHA-256 digest.  Three disjoint slices of it place an object:
    the stripe ([segment_hash]), the directory bucket ([bucket_hash]) and the
    12-bit collision tag ([tag]). *)

From S2P Require Import Prelude Sha256.
Local Open Scope cyc_scope.

Definition kDigestSize : nat := 32.

Record CacheKey := { _hash : list Z }.

#[export] Instance CacheKey_eq_dec : EqDecision CacheKey.
Proof. solve_decision. Defined.

#[export] Instance CacheKey_countable : Countable CacheKey :=
  inj_countable' _hash Build_CacheKey (fun k => match k with Build_CacheKey _ => eq_refl end).

Definition key_ok (k : CacheKey) : Prop := length (_hash k) = kDigestSize /\ bytes_ok (_hash k).

(** The default-constructed key: all zero bytes. *)
Definition zero_key : CacheKey := {| _hash := replicate kDigestSize 0 |}.

(** [CacheKey(data)]: the digest of the bytes.  [stack] is the indeterminate
    content of the hasher's block buffer. *)
Definition compute_sha256 (stack data : list Z) : CacheKey := {| _hash := hash stack data |}.

(** '/' *)
Definition slash : Z := 0x2F.

Definition from_url (stack url hostname : list Z) : CacheKey :=
  match hostname with
  | [] => compute_sha256 stack url
  | _ => compute_sha256 stack (hostname ++ [slash] ++ url)
  end.

Definition from_digest (digest : list Z) : CacheKey := {| _hash := digest |}.

(** The [memcpy] of a little-endian host. *)
Definition segment_hash (k : CacheKey) : Z := le_val (subspan (_hash k) 0 4).
Definition bucket_hash (k : CacheKey) : Z := le_val (subspan (_hash k) 4 4).
Definition tag (k : CacheKey) : Z := le_val (subspan (_hash k) 8 2) .& 0x0FFF.

Definition is_zero (k : CacheKey) : bool := bool_decide (k = zero_key).

(** [std::hash<CacheKey>]: exclusive or of the four 8-byte chunks. *)
Definition key_hash (k : CacheKey) : Z :=
  le_val (subspan (_hash k) 0 8) .^ le_val (subspan (_hash k) 8 8)
  .^ le_val (subspan (_hash k) 16 8) .^ le_val (subspan (_hash k) 24 8).

(** ** Hexadecimal *)

(** One digit of [std::hex] output. *)
Definition hex_digit (d : Z) : Z := if d <? 10 then 0x30 + d else 0x61 + (d - 10).

(** [setw(2)] with fill ['0'] prints a byte as exactly two digits. *)
Definition to_hex (k : CacheKey) : list Z :=
  concat ((fun b => [hex_digit (b / 16); hex_digit (b mod 16)]) <$> _hash k).

Definition from_hex_char (c : Z) : Z :=
  if (0x30 <=? c) && (c <=? 0x39) then u8 (c - 0x30)
  else if (0x61 <=? c) && (c <=? 0x66) then u8 (10 + c - 0x61)
  else if (0x41 <=? c) && (c <=? 0x46) then u8 (10 + c - 0x41)
  else 0.

Fixpoint hex_pairs (hex : list Z) : list Z :=
  match hex with
  | hi :: lo :: rest => u8 ((from_hex_char hi << 4) .| from_hex_char lo) :: hex_pairs rest
  | _ => []
  end.

Definition from_hex (hex : list Z) : CacheKey :=
  if (length hex =? kDigestSize * 2)%nat then {| _hash := hex_pairs hex |} else zero_key.

(** ** Properties *)

Lemma compute_sha256_ok stack data : length stack = BLOCK_SIZE -> key_ok (compute_sha256 stack data).
Proof. intros H. unfold key_ok, compute_sha256. cbn. rewrite hash_ref by done. apply sha256_ref_digest. Qed.

Lemma le_val_subspan_fits l off n : bytes_ok l -> 0 <= le_val (subspan l off n) < 256 ^ Z.of_nat n.
Proof.
  intros Hl. assert (bytes_ok (subspan l off n)) as Hs by (unfold subspan; auto with cyc).
  pose proof (le_val_bound _ Hs) as B. unfold subspan in *. rewrite length_take in B.
  pose proof (Z.pow_le_mono_r 256 (Z.of_nat (n `min` length (drop off l))) (Z.of_nat n)). lia.
Qed.

Lemma segment_hash_fits k : key_ok k -> fits 32 (segment_hash k).
Proof. intros [_ Hb]. apply (le_val_subspan_fits _ 0 4 Hb). Qed.

Lemma bucket_hash_fits k : key_ok k -> fits 32 (bucket_hash k).
Proof. intros [_ Hb]. apply (le_val_subspan_fits _ 4 4 Hb). Qed.

Lemma key_tag_fits k : 0 <= tag k < 4096.
Proof.
  unfold tag. change 0x0FFF with (2 ^ 12 - 1). rewrite land_ones_wrap by lia.
  apply (wrap_fits 12). lia.
Qed.

(** Placement is free: for every stripe hash, bucket hash and tag there
    is a key with exactly these, so the three slices of the digest are
    independent of each other. *)
Theorem placement_independent s b t :
  fits 32 s -> fits 32 b -> fits 12 t ->
  exists k, key_ok k /\ segment_hash k = s /\ bucket_hash k = b /\ tag k = t.
Proof.
  intros Hs Hb Ht.
  exists {| _hash := le_bytes 4 s ++ le_bytes 4 b ++ le_bytes 2 t ++ replicate 22 0 |}.
  unfold key_ok, segment_hash, bucket_hash, tag, subspan. cbn [_hash].
  rewrite !length_app, !length_le_bytes, length_replicate.
  split; [split; [done|]|].
  { rewrite !bytes_ok_app. repeat split; auto with cyc. apply Forall_replicate, is_byte_iff. lia. }
  assert (forall n z, fits (8 * Z.of_nat n) z -> le_val (le_bytes n z) = z) as Hv.
  { intros n z Hz. rewrite le_val_le_bytes. apply Z.mod_small. unfold fits in Hz.
    rewrite Z.pow_mul_r in Hz by lia. done. }
  rewrite drop_0, take_app_length' by (now rewrite length_le_bytes).
  rewrite (drop_app_length' (le_bytes 4 s)) by (now rewrite length_le_bytes).
  rewrite take_app_length' by (now rewrite length_le_bytes).
  rewrite (app_assoc (le_bytes 4 s)), drop_app_length' by done.
  rewrite take_app_length' by (now rewrite length_le_bytes).
  rewrite !Hv by (done || (unfold fits in *; lia)). repeat split.
  change 0x0FFF with (2 ^ 12 - 1). rewrite land_ones_wrap by lia. now apply wrap_small.
Qed.

Lemma hex_digit_roundtrip d : 0 <= d < 16 -> from_hex_char (hex_digit d) = d.
Proof.
  intros Hd. unfold from_hex_char, hex_digit. destruct (Z.ltb_spec d 10).
  - replace ((0x30 <=? 0x30 + d) && (0x30 + d <=? 0x39)) with true by lia.
    unfold u8. rewrite wrap_small; [lia|unfold fits; lia].
  - replace ((0x30 <=? 0x61 + (d - 10)) && (0x61 + (d - 10) <=? 0x39)) with false by lia.
    replace ((0x61 <=? 0x61 + (d - 10)) && (0x61 + (d - 10) <=? 0x66)) with true by lia.
    unfold u8. rewrite wrap_small; [lia|unfold fits; lia].
Qed.

Lemma nibbles b : is_byte b -> u8 (((b / 16) << 4) .| (b mod 16)) = b.
Proof.
  rewrite is_byte_iff. intros Hb. rewrite lor_add_disjoint.
  - rewrite Z.shiftl_mul_pow2 by lia. change (2 ^ 4) with 16.
    replace (b / 16 * 16 + b mod 16) with b by (Z.div_mod_to_equations; lia).
    apply wrap_small. unfold fits. lia.
  - apply Z.bits_inj'; intros i Hi. rewrite Z.land_spec, Z.shiftl_spec, Z.bits_0 by lia.
    destruct (Z.lt_ge_cases i 4).
    + now rewrite (Z.testbit_neg_r _ (i - 4)) by lia.
    + rewrite (fits_testbit 4 (b mod 16)); [apply andb_false_r| |done|lia].
      apply (wrap_fits 4). lia.
Qed.

Lemma hex_pairs_to_hex l :
  bytes_ok l -> hex_pairs (concat ((fun b => [hex_digit (b / 16); hex_digit (b mod 16)]) <$> l)) = l.
Proof.
  induction 1 as [|b l Hb Hl IH]; [done|]. cbn in *. rewrite IH. f_equal.
  pose proof Hb as Hb'. rewrite is_byte_iff in Hb'.
  rewrite !hex_digit_roundtrip by (Z.div_mod_to_equations; lia). now apply nibbles.
Qed.

Lemma length_to_hex k : length (to_hex k) = (2 * length (_hash k))%nat.
Proof. unfold to_hex. induction (_hash k); cbn in *; lia. Qed.

(** Printing a key in hexadecimal and parsing it back gives the key. *)
Theorem from_hex_to_hex k : key_ok k -> from_hex (to_hex k) = k.
Proof.
  intros [Hl Hb]. unfold from_hex. rewrite length_to_hex, Hl. cbn [Nat.eqb Nat.mul kDigestSize].
  unfold to_hex. rewrite hex_pairs_to_hex by done. now destruct k.
Qed.

(** A key of a URL under a host is the key of the joined string. *)
Lemma from_url_host stack url h host :
  from_url stack url (h :: host) = from_url stack ((h :: host) ++ [slash] ++ url) [].
Proof. done. Qed.

Lemma placement_independent_witness :
  exists k, key_ok k /\ segment_hash k = 0xDEADBEEF /\ bucket_hash k = 7 /\ tag k = 0xABC.
Proof. apply (placement_independent 0xDEADBEEF 7 0xABC); unfold fits; lia. Defined.

Lemma from_hex_to_hex_witness :
  from_hex (to_hex {| _hash := seqZ 200 32 |}) = {| _hash := seqZ 200 32 |}.
Proof.
  apply (from_hex_to_hex {| _hash := seqZ 200 32 |}). split; [reflexivity|].
  apply Forall_forall. intros x Hx. apply elem_of_seqZ in Hx. apply is_byte_iff. lia.
Defined.
