(* ===== verification/Document.v ===== *)
(** * Documents (src/src/core/document.hpp, src/src/core/document.cpp)

    The on-disk record: its 132-byte wire header, the canonical header the
    checksum covers, the links of an alternate chain, [DocumentBuilder] and
    [DocumentReader].  The checksum is used through the interface
    [Checksum], which Crc32c.v discharges ([crc32c_checksum]). *)

From S2P Require Import Prelude Crc32c Key.
Local Open Scope cyc_scope.

(** ** What a document needs of its checksum *)

Class Checksum := { crc_update : Z -> list Z -> Z }.

Class ChecksumLaws (C : Checksum) := {
  crc_update_fits s l : fits 32 s -> bytes_ok l -> fits 32 (crc_update s l);
  crc_update_app s a b : fits 32 s -> bytes_ok a -> bytes_ok b ->
    crc_update (crc_update s a) b = crc_update s (a ++ b);
  crc_update_burst a b (k : nat) d :
    bytes_ok a -> bytes_ok b -> length a = length b -> 0 < d < 2 ^ 32 ->
    le_val a .^ le_val b = d << Z.of_nat k -> crc_update 0 a <> crc_update 0 b;
}.

(** The repository's CRC-32C, on any platform and from any address. *)
#[export] Instance crc32c_checksum `{I : CrcInsns} (pl : platform) (addr : Z) : Checksum :=
  {| crc_update := crc32c_update pl addr |}.

#[export] Instance crc32c_checksum_laws `{I : CrcInsns} `{!CrcInsnsLaws I} pl addr :
  ChecksumLaws (crc32c_checksum pl addr).
Proof.
  split; cbn.
  - intros s l Hs Hl. rewrite crc32c_update_ref by done. auto with cyc.
  - intros s a b Hs Ha Hb. assert (bytes_ok (a ++ b)) by now apply bytes_ok_app.
    rewrite (crc32c_update_ref pl addr s a), (crc32c_update_ref pl addr s (a ++ b)),
      (crc32c_update_ref pl addr _ b) by auto with cyc.
    rewrite not32_involutive by auto with cyc. now rewrite crc_ref_app.
  - intros a b k d Ha Hb Hl Hd Hx. now apply (crc32c_burst pl addr a b k d).
Qed.

(** ** Data *)

Definition kMagic : Z := 0x5F129B14.
Definition kVersionMajor : Z := 9.
Definition kVersionMinor : Z := 0.
Definition kMaxAlternates : Z := 64.
Definition kMaxChainTraversalDepth : Z := kMaxAlternates * 2.
Definition kHeaderSize : nat := 132.

(** [Document::Type] (a byte on the wire, which may hold any value). *)
Definition Type_Empty : Z := 0.
Definition Type_FirstFrag : Z := 1.
Definition Type_MiddleFrag : Z := 2.
Definition Type_LastFrag : Z := 3.
Definition Type_SingleFrag : Z := 4.

Record Document := {
  magic : Z;                  (* uint32_t *)
  len : Z;                    (* uint32_t *)
  total_len : Z;              (* uint64_t *)
  first_key : list Z;         (* 32 bytes *)
  fragment_key : list Z;      (* 32 bytes *)
  header_len : Z;             (* uint32_t *)
  doc_type : Z;               (* uint8_t *)
  version_major : Z;          (* uint8_t *)
  version_minor : Z;          (* uint8_t *)
  flags : Z;                  (* uint8_t *)
  fill_serial : Z;            (* uint32_t *)
  write_serial : Z;           (* uint32_t *)
  pin_until : Z;              (* uint32_t *)
  checksum : Z;               (* uint32_t *)
  frag_offset : Z;            (* uint32_t *)
  hit_count : Z;              (* uint32_t *)
  next_alternate_offset : Z;  (* uint64_t *)
  last_access : Z;            (* int64_t *)
  alternate_id : Z;           (* uint8_t *)
  reserved2 : list Z;         (* 3 bytes *)
}.

#[export] Instance Document_eq_dec : EqDecision Document.
Proof. solve_decision. Defined.

(** A default-constructed [Document]. *)
Definition default_document : Document := {|
  magic := kMagic; len := 0; total_len := 0;
  first_key := replicate 32 0; fragment_key := replicate 32 0;
  header_len := 0; doc_type := Type_Empty;
  version_major := kVersionMajor; version_minor := kVersionMinor; flags := 0;
  fill_serial := 0; write_serial := 0; pin_until := 0; checksum := 0;
  frag_offset := 0; hit_count := 0; next_alternate_offset := 0; last_access := 0;
  alternate_id := 0; reserved2 := [0; 0; 0];
|}.

Definition doc_ok (d : Document) : Prop :=
  (fits 32 (magic d) /\ fits 32 (len d) /\ fits 64 (total_len d) /\
   length (first_key d) = 32%nat /\ bytes_ok (first_key d) /\
   length (fragment_key d) = 32%nat /\ bytes_ok (fragment_key d)) /\
  (fits 32 (header_len d) /\ fits 8 (doc_type d) /\ fits 8 (version_major d) /\
   fits 8 (version_minor d) /\ fits 8 (flags d)) /\
  (fits 32 (fill_serial d) /\ fits 32 (write_serial d) /\ fits 32 (pin_until d) /\
   fits 32 (checksum d) /\ fits 32 (frag_offset d) /\ fits 32 (hit_count d)) /\
  (fits 64 (next_alternate_offset d) /\ - 2 ^ 63 <= last_access d < 2 ^ 63 /\
   fits 8 (alternate_id d) /\ length (reserved2 d) = 3%nat /\ bytes_ok (reserved2 d)).

(** ** The wire header *)

(** [kDocumentFields]: the sizes, in wire order. *)
Definition kDocumentFields : list nat :=
  [4; 4; 8; 32; 32; 4; 1; 1; 1; 1; 4; 4; 4; 4; 4; 4; 8; 8; 1; 3]%nat.

Definition wire_offset_of (field_index : nat) : nat := sum_sizes (take field_index kDocumentFields).

Definition kVersionMajorOffset : nat := 85.
Definition kFillSerialOffset : nat := 88.
Definition kWriteSerialOffset : nat := 92.
Definition kChecksumOffset : nat := 100.
Definition kHitCountOffset : nat := 108.
Definition kNextAlternateOffsetPos : nat := 112.
Definition kLastAccessOffset : nat := 120.
Definition kAlternateIdOffset : nat := 128.

(** The bytes of each field (little-endian host). *)
Definition wire_chunks (d : Document) : list (list Z) :=
  [ le_bytes 4 (magic d); le_bytes 4 (len d); le_bytes 8 (total_len d);
    first_key d; fragment_key d; le_bytes 4 (header_len d);
    le_bytes 1 (doc_type d); le_bytes 1 (version_major d); le_bytes 1 (version_minor d);
    le_bytes 1 (flags d); le_bytes 4 (fill_serial d); le_bytes 4 (write_serial d);
    le_bytes 4 (pin_until d); le_bytes 4 (checksum d); le_bytes 4 (frag_offset d);
    le_bytes 4 (hit_count d); le_bytes 8 (next_alternate_offset d);
    le_bytes 8 (last_access d); le_bytes 1 (alternate_id d); reserved2 d ].

Definition serialize_to (d : Document) : list Z := concat (wire_chunks d).

(** [serialize] appends the header to a buffer. *)
Definition serialize (d : Document) (buffer : list Z) : list Z := buffer ++ serialize_to d.

Definition field (data : list Z) (i : nat) : list Z :=
  subspan data (wire_offset_of i) (nth i kDocumentFields 0%nat).

(** An [int64_t] out of its eight bytes. *)
Definition to_int64 (z : Z) : Z := if z <? 2 ^ 63 then z else z - 2 ^ 64.

Definition deserialize (data : list Z) : Document :=
  if (length data <? kHeaderSize)%nat then
    {| magic := 0; len := 0; total_len := 0;
       first_key := replicate 32 0; fragment_key := replicate 32 0;
       header_len := 0; doc_type := Type_Empty;
       version_major := kVersionMajor; version_minor := kVersionMinor; flags := 0;
       fill_serial := 0; write_serial := 0; pin_until := 0; checksum := 0;
       frag_offset := 0; hit_count := 0; next_alternate_offset := 0; last_access := 0;
       alternate_id := 0; reserved2 := [0; 0; 0] |}
  else
    {| magic := le_val (field data 0); len := le_val (field data 1);
       total_len := le_val (field data 2); first_key := field data 3;
       fragment_key := field data 4; header_len := le_val (field data 5);
       doc_type := le_val (field data 6); version_major := le_val (field data 7);
       version_minor := le_val (field data 8); flags := le_val (field data 9);
       fill_serial := le_val (field data 10); write_serial := le_val (field data 11);
       pin_until := le_val (field data 12); checksum := le_val (field data 13);
       frag_offset := le_val (field data 14); hit_count := le_val (field data 15);
       next_alternate_offset := le_val (field data 16);
       last_access := to_int64 (le_val (field data 17));
       alternate_id := le_val (field data 18); reserved2 := field data 19 |}.

(** ** Chain links *)

Definition kLinkSerialShift : Z := 48.
Definition kLinkOffsetMask : Z := (1 << kLinkSerialShift) - 1.

Definition make_link (rel_offset serial : Z) : Z :=
  if rel_offset =? 0 then 0
  else (rel_offset .& kLinkOffsetMask) .| u64 (serial << kLinkSerialShift).
Definition link_offset (link : Z) : Z := link .& kLinkOffsetMask.
Definition link_serial (link : Z) : Z := u16 (link >> kLinkSerialShift).
Definition bound_by_link (d : Document) (link : Z) : bool := fill_serial d =? link_serial link.
Definition link_to (d : Document) (rel_offset : Z) : Z := make_link rel_offset (u16 (fill_serial d)).

(** ** Predicates *)

Definition is_valid (d : Document) : bool := magic d =? kMagic.
Definition is_version_compatible (d : Document) : bool := version_major d =? kVersionMajor.
Definition is_valid_and_compatible (d : Document) : bool := is_valid d && is_version_compatible d.
Definition is_complete (d : Document) : bool :=
  (doc_type d =? Type_SingleFrag) || (doc_type d =? Type_LastFrag).
Definition is_first (d : Document) : bool :=
  (doc_type d =? Type_FirstFrag) || (doc_type d =? Type_SingleFrag).
Definition header_data_size (d : Document) : Z := header_len d.

Definition content_data_size (d : Document) : Z :=
  if (len d <? Z.of_nat kHeaderSize) || (len d - Z.of_nat kHeaderSize <? header_len d) then 0
  else len d - Z.of_nat kHeaderSize - header_len d.

Definition has_volume_shape (d : Document) : bool :=
  (doc_type d =? Type_SingleFrag) && (frag_offset d =? 0) &&
  (Z.of_nat kHeaderSize <=? len d) && (header_len d <=? len d - Z.of_nat kHeaderSize) &&
  (total_len d =? len d - Z.of_nat kHeaderSize - header_len d).

(** ** Checksum *)

(** The in-place fields the canonical header zeroes: [(offset, size)]. *)
Definition kInPlace : list (nat * nat) :=
  [ (kFillSerialOffset, 4); (kWriteSerialOffset, 4); (kChecksumOffset, 4);
    (kHitCountOffset, 4); (kNextAlternateOffsetPos, 8); (kLastAccessOffset, 8) ]%nat.

Definition memset0 (buf : list Z) (r : nat * nat) : list Z :=
  write_at buf (fst r) (replicate (snd r) 0).

Definition canonical_header (d : Document) : list Z := fold_left memset0 kInPlace (serialize_to d).

Section checksum.
Context `{C : Checksum}.

Definition compute_checksum (data : list Z) : Z := crc_update 0 data.
Definition checksum_header_seed (d : Document) : Z := crc_update 0 (canonical_header d).
Definition verify_checksum (d : Document) (payload : list Z) : bool :=
  checksum d =? crc_update (checksum_header_seed d) payload.

(** ** DocumentBuilder *)

Record DocumentBuilder := {
  b_key : CacheKey;
  b_header : list Z;
  b_content : list Z;
  b_type : Z;
  b_flags : Z;
  b_total_len : Z;
  b_frag_offset : Z;
  b_enable_checksum : bool;
  b_alternate_id : Z;
  b_next_alternate_offset : Z;
  b_hit_count : Z;
  b_last_access : Z;
}.

Definition new_builder : DocumentBuilder := {|
  b_key := zero_key; b_header := []; b_content := []; b_type := Type_SingleFrag;
  b_flags := 0; b_total_len := 0; b_frag_offset := 0; b_enable_checksum := true;
  b_alternate_id := 0; b_next_alternate_offset := 0; b_hit_count := 0; b_last_access := 0 |}.

(** The document whose header [serialize_head] writes. *)
Definition head_document (b : DocumentBuilder) (content : list Z) : Document := {|
  magic := kMagic;
  len := u32 (Z.of_nat kHeaderSize + Z.of_nat (length (b_header b)) + Z.of_nat (length content));
  total_len := if 0 <? b_total_len b then b_total_len b else Z.of_nat (length content);
  first_key := _hash (b_key b); fragment_key := _hash (b_key b);
  header_len := u32 (Z.of_nat (length (b_header b)));
  doc_type := b_type b; version_major := kVersionMajor; version_minor := kVersionMinor;
  flags := b_flags b; fill_serial := 0; write_serial := 0; pin_until := 0; checksum := 0;
  frag_offset := b_frag_offset b; hit_count := b_hit_count b;
  next_alternate_offset := b_next_alternate_offset b; last_access := b_last_access b;
  alternate_id := b_alternate_id b; reserved2 := [0; 0; 0] |}.

(** Empty on overflow; the [reserve]d capacity has no effect on the bytes. *)
Definition serialize_head (b : DocumentBuilder) (content : list Z) : list Z :=
  let total_size := Z.of_nat kHeaderSize + Z.of_nat (length (b_header b)) + Z.of_nat (length content) in
  if 2 ^ 32 - 1 <? total_size then []
  else if 2 ^ 32 - 1 <? Z.of_nat (length (b_header b)) then []
  else
    let doc := head_document b content in
    let result := serialize doc [] ++ b_header b in
    if b_enable_checksum b then
      let crc := crc_update (crc_update (checksum_header_seed doc) (b_header b)) content in
      write_at result kChecksumOffset (le_bytes 4 crc)
    else result.

Definition build (b : DocumentBuilder) : list Z :=
  match serialize_head b (b_content b) with
  | [] => []
  | result => result ++ b_content b
  end.

Definition build_head (b : DocumentBuilder) (content : list Z) : list Z := serialize_head b content.

(** ** DocumentReader *)

Record DocumentReader := { r_doc : Document; r_data : list Z; r_valid : bool }.

Definition new_reader (data : list Z) : DocumentReader :=
  if (kHeaderSize <=? length data)%nat then
    let doc := deserialize data in
    {| r_doc := doc; r_data := data; r_valid := is_valid_and_compatible doc |}
  else {| r_doc := default_document; r_data := data; r_valid := false |}.

(** A reader over bytes of a shared mapping at address [addr]. *)
Definition new_shared_reader (addr : Z) (data : list Z) : DocumentReader :=
  if negb (addr mod 8 =? 0) then {| r_doc := default_document; r_data := data; r_valid := false |}
  else new_reader data.

Definition is_servable (r : DocumentReader) : bool := r_valid r && has_volume_shape (r_doc r).

Definition r_header (r : DocumentReader) : list Z :=
  if negb (r_valid r) || (length (r_data r) <? kHeaderSize)%nat
     || (Z.of_nat (length (r_data r)) - Z.of_nat kHeaderSize <? header_len (r_doc r)) then []
  else subspan (r_data r) kHeaderSize (Z.to_nat (header_len (r_doc r))).

Definition r_content (r : DocumentReader) : list Z :=
  if negb (r_valid r) then []
  else if (len (r_doc r) <? Z.of_nat kHeaderSize)
          || (len (r_doc r) - Z.of_nat kHeaderSize <? header_len (r_doc r)) then []
  else
    let content_start := Z.of_nat kHeaderSize + header_len (r_doc r) in
    let size := Z.of_nat (length (r_data r)) in
    if size <? content_start then []
    else
      let content_len := len (r_doc r) - Z.of_nat kHeaderSize - header_len (r_doc r) in
      let content_len := if size <? content_start + content_len then size - content_start
                         else content_len in
      subspan (r_data r) (Z.to_nat content_start) (Z.to_nat content_len).

Definition r_payload (r : DocumentReader) : list Z :=
  if negb (r_valid r) || (length (r_data r) <=? kHeaderSize)%nat then []
  else
    let payload_len := if Z.of_nat kHeaderSize <? len (r_doc r)
                       then len (r_doc r) - Z.of_nat kHeaderSize else 0 in
    let size := Z.of_nat (length (r_data r)) in
    let payload_len := if size <? Z.of_nat kHeaderSize + payload_len
                       then size - Z.of_nat kHeaderSize else payload_len in
    subspan (r_data r) kHeaderSize (Z.to_nat payload_len).

Definition r_first_key (r : DocumentReader) : CacheKey := from_digest (first_key (r_doc r)).
Definition r_fragment_key (r : DocumentReader) : CacheKey := from_digest (fragment_key (r_doc r)).
End checksum.

(** ** Layout lemmas *)

Lemma wire_sizes d : doc_ok d -> Forall2 (fun c n => length c = n) (wire_chunks d) kDocumentFields.
Proof.
  intros ((_&_&_&H1&_&H2&_)&_&_&(_&_&_&H3&_)).
  unfold wire_chunks, kDocumentFields. repeat (constructor; [done || apply length_le_bytes|]). constructor.
Qed.

Lemma length_serialize_to d : doc_ok d -> length (serialize_to d) = kHeaderSize.
Proof. intros H. unfold serialize_to. now rewrite (length_concat_sizes _ _ (wire_sizes d H)). Qed.

Lemma field_chunk d rest i c :
  doc_ok d -> wire_chunks d !! i = Some c -> field (serialize_to d ++ rest) i = c.
Proof.
  intros Hd Hi. unfold field, wire_offset_of, serialize_to.
  assert (nth i kDocumentFields 0%nat = length c) as ->.
  { pose proof (wire_sizes d Hd) as HF.
    destruct (Forall2_lookup_l _ _ _ _ _ HF Hi) as (n & Hn & Hl). rewrite Hl.
    now apply nth_lookup_Some. }
  apply subspan_chunk; [now apply wire_sizes|done].
Qed.

Lemma to_int64_bytes z : - 2 ^ 63 <= z < 2 ^ 63 -> to_int64 (le_val (le_bytes 8 z)) = z.
Proof.
  intros Hz. rewrite le_val_le_bytes. change (256 ^ Z.of_nat 8) with (2 ^ 64). unfold to_int64.
  destruct (Z.lt_ge_cases z 0).
  - replace (z mod 2 ^ 64) with (z + 2 ^ 64).
    + destruct (Z.ltb_spec (z + 2 ^ 64) (2 ^ 63)); lia.
    + rewrite <- (Z.mod_add z 1) by lia. rewrite Z.mod_small; lia.
  - rewrite Z.mod_small by lia. destruct (Z.ltb_spec z (2 ^ 63)); lia.
Qed.

Lemma deserialize_serialize d rest : doc_ok d -> deserialize (serialize_to d ++ rest) = d.
Proof.
  intros Hd. unfold deserialize.
  destruct (Nat.ltb_spec (length (serialize_to d ++ rest)) kHeaderSize) as [H|_].
  { rewrite length_app, length_serialize_to in H by done. lia. }
  assert (forall i c, wire_chunks d !! i = Some c -> field (serialize_to d ++ rest) i = c) as Hf
    by (intros; now apply field_chunk).
  repeat match goal with
  | |- context [field ?s ?i] => erewrite (Hf i) by reflexivity
  end.
  destruct Hd as ((?&?&?&?&?&?&?)&(?&?&?&?&?)&(?&?&?&?&?&?)&(?&?&?&?&?)).
  rewrite to_int64_bytes, !le_val_le_bytes_fits by done. now destruct d.
Qed.

Lemma bytes_ok_concat chunks : Forall bytes_ok chunks -> bytes_ok (concat chunks).
Proof. induction 1; cbn; [constructor|]. now apply bytes_ok_app. Qed.

Lemma serialize_to_bytes d : doc_ok d -> bytes_ok (serialize_to d).
Proof.
  intros ((_&_&_&_&?&_&?)&_&_&(_&_&_&_&?)). apply bytes_ok_concat.
  unfold wire_chunks. repeat (constructor; [done || apply le_bytes_ok|]). constructor.
Qed.

(** *** The canonical header is the header of the document with the in-place
    fields cleared. *)

Definition canon (d : Document) : Document := {|
  magic := magic d; len := len d; total_len := total_len d;
  first_key := first_key d; fragment_key := fragment_key d;
  header_len := header_len d; doc_type := doc_type d; version_major := version_major d;
  version_minor := version_minor d; flags := flags d; fill_serial := 0; write_serial := 0;
  pin_until := pin_until d; checksum := 0; frag_offset := frag_offset d; hit_count := 0;
  next_alternate_offset := 0; last_access := 0; alternate_id := alternate_id d;
  reserved2 := reserved2 d |}.

Ltac doc_simpl :=
  cbn [magic len total_len first_key fragment_key header_len doc_type version_major version_minor
       flags fill_serial write_serial pin_until checksum frag_offset hit_count
       next_alternate_offset last_access alternate_id reserved2 canon].

Lemma canon_ok d : doc_ok d -> doc_ok (canon d).
Proof.
  intros ((?&?&?&?&?&?&?)&(?&?&?&?&?)&(?&?&?&?&?&?)&(?&?&?&?&?)).
  unfold doc_ok, canon, fits in *; doc_simpl. repeat split; try done; lia.
Qed.

Lemma sizes_insert chunks sizes i (src : list Z) :
  Forall2 (fun c n => length c = n) chunks sizes -> sizes !! i = Some (length src) ->
  Forall2 (fun c n => length c = n) (<[i := src]> chunks) sizes.
Proof.
  intros HF Hi. rewrite <- (list_insert_id sizes i (length src)) by done. now apply Forall2_insert.
Qed.

Lemma canonical_header_canon d : doc_ok d -> canonical_header d = serialize_to (canon d).
Proof.
  intros Hd. unfold canonical_header, kInPlace. cbn [fold_left]. unfold memset0; cbn [fst snd].
  change kFillSerialOffset with (sum_sizes (take 10 kDocumentFields)).
  change kWriteSerialOffset with (sum_sizes (take 11 kDocumentFields)).
  change kChecksumOffset with (sum_sizes (take 13 kDocumentFields)).
  change kHitCountOffset with (sum_sizes (take 15 kDocumentFields)).
  change kNextAlternateOffsetPos with (sum_sizes (take 16 kDocumentFields)).
  change kLastAccessOffset with (sum_sizes (take 17 kDocumentFields)).
  pose proof (wire_sizes d Hd) as HF. unfold serialize_to.
  rewrite <- (app_nil_r (concat (wire_chunks d))).
  repeat (rewrite write_at_chunk; [|repeat (apply sizes_insert; [|done]); exact HF
                                   |rewrite ?length_insert; cbn; lia|done]).
  rewrite app_nil_r. f_equal.
Qed.

(** ** The builder's document *)

Definition with_checksum (d : Document) (c : Z) : Document := {|
  magic := magic d; len := len d; total_len := total_len d;
  first_key := first_key d; fragment_key := fragment_key d;
  header_len := header_len d; doc_type := doc_type d; version_major := version_major d;
  version_minor := version_minor d; flags := flags d; fill_serial := fill_serial d;
  write_serial := write_serial d; pin_until := pin_until d; checksum := c;
  frag_offset := frag_offset d; hit_count := hit_count d;
  next_alternate_offset := next_alternate_offset d; last_access := last_access d;
  alternate_id := alternate_id d; reserved2 := reserved2 d |}.

Record builder_ok (b : DocumentBuilder) (content : list Z) : Prop := {
  bo_key : key_ok (b_key b);
  bo_header : bytes_ok (b_header b);
  bo_content : bytes_ok content;
  bo_fields : fits 8 (b_type b) /\ fits 8 (b_flags b) /\ fits 64 (b_total_len b) /\
    fits 32 (b_frag_offset b) /\ fits 8 (b_alternate_id b) /\ fits 64 (b_next_alternate_offset b) /\
    fits 32 (b_hit_count b) /\ - 2 ^ 63 <= b_last_access b < 2 ^ 63;
  bo_size : Z.of_nat kHeaderSize + Z.of_nat (length (b_header b)) + Z.of_nat (length content) < 2 ^ 32;
}.

Section builder.
Context `{C : Checksum} `{L : !ChecksumLaws C}.

Lemma head_document_ok b content : builder_ok b content -> doc_ok (head_document b content).
Proof.
  intros [[Hk1 Hk2] Hh Hc (?&?&?&?&?&?&?&?) Hs]. unfold doc_ok, head_document; doc_simpl.
  unfold kHeaderSize in *.
  assert (forall x, fits 32 (u32 x)) by (intros; apply wrap_fits; lia).
  assert (forall n, (n <= 255)%Z -> 0 <= n -> fits 8 n) by (unfold fits; lia).
  repeat split; try done; unfold fits, u32, wrap in *; try lia;
    try (apply Z.mod_pos_bound; lia); try (destruct (0 <? b_total_len b); lia).
  all: repeat (constructor; [apply is_byte_iff; lia|]); constructor.
Qed.

Lemma with_checksum_ok d c : doc_ok d -> fits 32 c -> doc_ok (with_checksum d c).
Proof.
  intros ((?&?&?&?&?&?&?)&(?&?&?&?&?)&(?&?&?&?&?&?)&(?&?&?&?&?)) Hc.
  unfold doc_ok, with_checksum; doc_simpl. repeat split; try done; unfold fits in *; lia.
Qed.

Lemma canon_with_checksum d c : canon (with_checksum d c) = canon d.
Proof. done. Qed.

Lemma checksum_header_seed_canon d :
  doc_ok d -> checksum_header_seed d = crc_update 0 (serialize_to (canon d)).
Proof. intros Hd. unfold checksum_header_seed. now rewrite canonical_header_canon. Qed.

Lemma checksum_header_seed_fits d : doc_ok d -> fits 32 (checksum_header_seed d).
Proof using L.
  intros Hd. rewrite checksum_header_seed_canon by done.
  apply crc_update_fits; [unfold fits; lia|]. now apply serialize_to_bytes, canon_ok.
Qed.

Lemma write_checksum d c rest :
  doc_ok d -> write_at (serialize_to d ++ rest) kChecksumOffset (le_bytes 4 c) =
  serialize_to (with_checksum d c) ++ rest.
Proof.
  intros Hd. change kChecksumOffset with (sum_sizes (take 13 kDocumentFields)).
  unfold serialize_to. rewrite write_at_chunk; [done|now apply wire_sizes|cbn; lia|].
  now rewrite length_le_bytes.
Qed.

(** The header the builder writes, as a document. *)
Definition built_document (b : DocumentBuilder) (content : list Z) : Document :=
  let d := head_document b content in
  if b_enable_checksum b then
    with_checksum d (crc_update (checksum_header_seed d) (b_header b ++ content))
  else d.

Lemma built_document_ok b content : builder_ok b content -> doc_ok (built_document b content).
Proof using L.
  intros Hb. unfold built_document. pose proof (head_document_ok b content Hb) as Hd.
  destruct (b_enable_checksum b); [|done]. apply with_checksum_ok; [done|].
  apply crc_update_fits; [now apply checksum_header_seed_fits|].
  destruct Hb. now apply bytes_ok_app.
Qed.

Lemma serialize_head_bytes b content :
  builder_ok b content ->
  serialize_head b content = serialize_to (built_document b content) ++ b_header b.
Proof using L.
  intros Hb. pose proof (head_document_ok b content Hb) as Hd.
  unfold serialize_head, built_document. destruct Hb as [_ Hh Hc _ Hs].
  destruct (Z.ltb_spec (2 ^ 32 - 1)
    (Z.of_nat kHeaderSize + Z.of_nat (length (b_header b)) + Z.of_nat (length content))); [lia|].
  destruct (Z.ltb_spec (2 ^ 32 - 1) (Z.of_nat (length (b_header b)))); [lia|].
  unfold serialize. rewrite app_nil_l. destruct (b_enable_checksum b); [|done].
  rewrite crc_update_app by (auto using checksum_header_seed_fits). now apply write_checksum.
Qed.

Lemma build_bytes b :
  builder_ok b (b_content b) ->
  build b = serialize_to (built_document b (b_content b)) ++ b_header b ++ b_content b.
Proof using L.
  intros Hb. unfold build. rewrite serialize_head_bytes by done.
  pose proof (length_serialize_to _ (built_document_ok _ _ Hb)) as Hl.
  destruct (serialize_to (built_document b (b_content b))) eqn:E; [done|].
  cbn. now rewrite <- app_assoc.
Qed.
End builder.

(** ** Properties *)

Lemma subspan_app_exact {A} (a b c : list A) n m :
  n = length a -> m = length b -> subspan (a ++ b ++ c) n m = b.
Proof. intros -> ->. unfold subspan. now rewrite drop_app_length, take_app_length. Qed.

(** [deserialize] of a long enough buffer is well formed and loses nothing:
    its fields serialize to the bytes they were read from. *)
Lemma field_bytes data i n :
  bytes_ok data -> (kHeaderSize <= length data)%nat -> kDocumentFields !! i = Some n ->
  bytes_ok (field data i) /\ length (field data i) = n.
Proof.
  intros Hb Hl Hi. unfold field, subspan. rewrite (nth_lookup_Some _ _ _ _ Hi).
  split; [auto with cyc|]. rewrite length_take, length_drop. apply Nat.min_l.
  unfold wire_offset_of, kHeaderSize in *.
  do 20 (destruct i as [|i]; [injection Hi as <-; cbn; lia|]). done.
Qed.

Lemma field_word data i n :
  bytes_ok data -> (kHeaderSize <= length data)%nat -> kDocumentFields !! i = Some n ->
  fits (8 * Z.of_nat n) (le_val (field data i)) /\
  le_bytes n (le_val (field data i)) = field data i.
Proof.
  intros Hb Hl Hi. destruct (field_bytes data i n Hb Hl Hi) as [Hf <-].
  split; [|now apply le_bytes_le_val]. pose proof (le_val_bound _ Hf) as B.
  change 256 with (2 ^ 8) in B. rewrite <- Z.pow_mul_r in B by lia. exact B.
Qed.

Lemma take_concat_fields (data : list Z) sizes :
  (sum_sizes sizes <= length data)%nat ->
  concat (imap (fun i n => subspan data (sum_sizes (take i sizes)) n) sizes)
  = take (sum_sizes sizes) data.
Proof.
  revert data. induction sizes as [|n sizes IH]; intros data Hl; [done|].
  cbn [imap concat sum_sizes] in *. rewrite <- (take_take_drop data n).
  f_equal. rewrite <- IH by (rewrite length_drop; lia). f_equal. apply imap_ext.
  intros i m Hi. unfold subspan. cbn [compose take sum_sizes]. now rewrite drop_drop.
Qed.

Lemma to_int64_le_bytes z : fits 64 z -> le_bytes 8 (to_int64 z) = le_bytes 8 z.
Proof.
  intros Hz. unfold to_int64. destruct (Z.ltb_spec z (2 ^ 63)); [done|].
  rewrite <- (le_bytes_le_val (le_bytes 8 (z - 2 ^ 64))), <- (le_bytes_le_val (le_bytes 8 z)) by apply le_bytes_ok.
  rewrite !length_le_bytes, !le_val_le_bytes. f_equal.
  change (256 ^ Z.of_nat 8) with (2 ^ 64). rewrite Zminus_mod, Z_mod_same_full, Z.sub_0_r.
  apply Z.mod_mod. lia.
Qed.

Lemma deserialize_ok data :
  bytes_ok data -> (kHeaderSize <= length data)%nat -> doc_ok (deserialize data).
Proof.
  intros Hb Hl. unfold deserialize. destruct (Nat.ltb_spec (length data) kHeaderSize); [lia|].
  unfold doc_ok; doc_simpl.
  repeat match goal with |- _ /\ _ => split end;
    try (match goal with |- fits _ (le_val (field _ ?i)) =>
      exact (proj1 (field_word data i _ Hb Hl eq_refl)) end);
    try (match goal with |- length (field _ ?i) = _ =>
      exact (proj2 (field_bytes data i _ Hb Hl eq_refl)) end);
    try (match goal with |- bytes_ok (field _ ?i) =>
      exact (proj1 (field_bytes data i _ Hb Hl eq_refl)) end).
  all: pose proof (proj1 (field_word data 17 _ Hb Hl eq_refl)) as F; unfold fits in F;
    change (8 * Z.of_nat 8) with 64 in F;
    unfold to_int64; match goal with |- context [?a <? ?b] => destruct (Z.ltb_spec a b); lia end.
Qed.

Lemma serialize_deserialize data :
  bytes_ok data -> (kHeaderSize <= length data)%nat ->
  serialize_to (deserialize data) = take kHeaderSize data.
Proof.
  intros Hb Hl. change kHeaderSize with (sum_sizes kDocumentFields).
  rewrite <- take_concat_fields by exact Hl. unfold serialize_to, wire_chunks, deserialize.
  destruct (Nat.ltb_spec (length data) kHeaderSize); [lia|]. doc_simpl.
  rewrite to_int64_le_bytes by exact (proj1 (field_word data 17 _ Hb Hl eq_refl)).
  repeat match goal with |- context [le_bytes ?n (le_val (field data ?i))] =>
    rewrite (proj2 (field_word data i n Hb Hl eq_refl)) end.
  reflexivity.
Qed.

(** The wire header and [Document] determine each other: parsing the 132
    bytes a document was serialized to, whatever follows them, gives the
    document back, and serializing what was parsed from a buffer of at least
    132 bytes gives those bytes back. *)
Theorem document_roundtrip d rest :
  doc_ok d -> bytes_ok rest ->
  length (serialize d []) = kHeaderSize /\
  deserialize (serialize d [] ++ rest) = d /\
  ((kHeaderSize <= length rest)%nat -> serialize (deserialize rest) [] = take kHeaderSize rest).
Proof.
  intros Hd Hr. split; [now apply length_serialize_to|].
  split; [now apply deserialize_serialize|]. intros Hl. now apply serialize_deserialize.
Qed.

Section reader.
Context `{C : Checksum} `{L : !ChecksumLaws C}.

(** The fields a built header carries. *)
Lemma built_document_fields b :
  builder_ok b (b_content b) ->
  let d := built_document b (b_content b) in
  let n1 := Z.of_nat (length (b_header b)) in
  let n2 := Z.of_nat (length (b_content b)) in
  magic d = kMagic /\ version_major d = kVersionMajor /\ first_key d = _hash (b_key b) /\
  fragment_key d = _hash (b_key b) /\ len d = 132 + n1 + n2 /\ header_len d = n1 /\
  doc_type d = b_type b /\ frag_offset d = b_frag_offset b /\
  total_len d = (if 0 <? b_total_len b then b_total_len b else n2).
Proof.
  intros [_ _ _ _ Hs]. unfold built_document, kHeaderSize in *.
  destruct (b_enable_checksum b); cbn; unfold kHeaderSize, u32;
    rewrite !wrap_small by (unfold fits; lia); repeat split; try reflexivity; lia.
Qed.

(** The reader of a buffer that starts with a well-formed header. *)
Lemma new_reader_serialized d tl :
  doc_ok d -> magic d = kMagic -> version_major d = kVersionMajor ->
  new_reader (serialize_to d ++ tl) =
  {| r_doc := d; r_data := serialize_to d ++ tl; r_valid := true |}.
Proof.
  intros Hd Em Ev. unfold new_reader. rewrite length_app, length_serialize_to by done.
  destruct (Nat.leb_spec kHeaderSize (kHeaderSize + length tl)); [|lia].
  rewrite deserialize_serialize by done.
  unfold is_valid_and_compatible, is_valid, is_version_compatible.
  now rewrite Em, Ev, !Z.eqb_refl.
Qed.

(** The three sub-spans of a reader whose lengths fit its buffer. *)
Lemma reader_spans d h c rest :
  length (serialize_to d) = kHeaderSize ->
  len d = 132 + Z.of_nat (length h) + Z.of_nat (length c) ->
  header_len d = Z.of_nat (length h) ->
  let r := {| r_doc := d; r_data := serialize_to d ++ h ++ c ++ rest; r_valid := true |} in
  r_header r = h /\ r_content r = c /\ r_payload r = h ++ c.
Proof.
  intros Hl El Eh r. subst r.
  assert (length (serialize_to d ++ h ++ c ++ rest)
          = (132 + length h + length c + length rest)%nat) as Hlen.
  { rewrite !length_app, Hl. unfold kHeaderSize. lia. }
  unfold kHeaderSize in Hl.
  unfold r_header, r_content, r_payload; cbn [r_doc r_data r_valid negb orb].
  rewrite Hlen, El, Eh. unfold kHeaderSize. split; [|split].
  - destruct (Nat.ltb_spec (132 + length h + length c + length rest) 132); [lia|]. cbn [orb].
    match goal with |- context [?a <? ?b] => destruct (Z.ltb_spec a b); [lia|] end.
    apply subspan_app_exact; lia.
  - repeat (match goal with |- context [?a <? ?b] => destruct (Z.ltb_spec a b); [lia|] end;
      cbn [orb]).
    rewrite app_assoc. apply subspan_app_exact; rewrite ?length_app; lia.
  - destruct (Nat.leb_spec (132 + length h + length c + length rest) 132).
    + symmetry; apply length_zero_iff_nil. rewrite length_app. lia.
    + destruct (Z.ltb_spec (Z.of_nat 132) (132 + Z.of_nat (length h) + Z.of_nat (length c)));
      (match goal with |- context [?a <? ?b] => destruct (Z.ltb_spec a b) end; [lia|]);
      rewrite (app_assoc h); apply subspan_app_exact; rewrite ?length_app; lia.
Qed.

Lemma built_document_verifies b :
  builder_ok b (b_content b) -> b_enable_checksum b = true ->
  verify_checksum (built_document b (b_content b)) (b_header b ++ b_content b) = true.
Proof using L.
  intros Hb He. pose proof (built_document_ok b _ Hb) as Hd.
  unfold verify_checksum. apply Z.eqb_eq. unfold built_document in *.
  rewrite He in *. cbn [checksum with_checksum].
  rewrite (checksum_header_seed_canon (with_checksum _ _)) by done.
  rewrite !checksum_header_seed_canon by now apply head_document_ok. reflexivity.
Qed.

(** C21. What the builder writes, the reader serves: over the bytes of
    [build], with anything behind them, the reader is valid and returns the
    key, the header bytes, the content and their concatenation as payload;
    with the checksum enabled it verifies; and a document of one complete
    fragment with the default total length is servable. *)
Theorem build_then_read b rest :
  builder_ok b (b_content b) ->
  let r := new_reader (build b ++ rest) in
  r_valid r = true /\ r_first_key r = b_key b /\ r_fragment_key r = b_key b /\
  r_header r = b_header b /\ r_content r = b_content b /\
  r_payload r = b_header b ++ b_content b /\
  (b_enable_checksum b = true -> verify_checksum (r_doc r) (r_payload r) = true) /\
  (b_type b = Type_SingleFrag -> b_frag_offset b = 0 -> b_total_len b = 0 ->
   is_servable r = true).
Proof using L.
  intros Hb. pose proof (built_document_ok b _ Hb) as Hd.
  destruct (built_document_fields b Hb) as (Em & Ev & Ek & Ef & El & Eh & Et & Eo & Etl).
  pose proof (built_document_verifies b Hb) as Hv.
  rewrite build_bytes, <- !app_assoc, new_reader_serialized by done. cbv zeta.
  set (d := built_document b (b_content b)) in *.
  destruct (reader_spans d (b_header b) (b_content b) rest) as (Eh' & Ec' & Ep'); auto.
  { now apply length_serialize_to. }
  rewrite Eh', Ec', Ep'. unfold r_first_key, r_fragment_key, from_digest. cbn [r_doc r_valid].
  rewrite Ek, Ef. repeat split; auto; try now destruct (b_key b).
  intros E1 E2 E3. unfold is_servable, has_volume_shape. cbn [r_valid r_doc andb].
  rewrite Et, Eo, El, Eh, Etl, E1, E2, E3. unfold kHeaderSize.
  change (Type_SingleFrag =? Type_SingleFrag) with true. change (0 <? 0) with false.
  rewrite !andb_true_iff, !Z.eqb_eq, !Z.leb_le. lia.
Qed.

(** [build_head] is [build] without its content: a caller that writes the
    head and then the content from its own buffer writes the same document. *)
Theorem build_head_then_content b :
  builder_ok b (b_content b) -> build_head b (b_content b) ++ b_content b = build b.
Proof using L.
  intros Hb. unfold build_head. rewrite build_bytes, serialize_head_bytes by done.
  now rewrite <- app_assoc.
Qed.

(** A document too large for its 32-bit length field is refused. *)
Lemma build_overflow b :
  2 ^ 32 <= Z.of_nat kHeaderSize + Z.of_nat (length (b_header b)) + Z.of_nat (length (b_content b)) ->
  build b = [].
Proof.
  intros H. unfold build, serialize_head.
  match goal with |- context [?a <? ?b] => destruct (Z.ltb_spec a b); [done|lia] end.
Qed.
End reader.

(** ** What the checksum covers *)

(** Overwriting field [i] of a buffer that starts with a header. *)
Lemma deserialize_write_field d d' tl i src :
  doc_ok d -> doc_ok d' -> kDocumentFields !! i = Some (length src) ->
  wire_chunks d' = <[i := src]> (wire_chunks d) ->
  deserialize (write_at (serialize_to d ++ tl) (wire_offset_of i) src) = d'.
Proof.
  intros Hd Hd' Hi Hw. unfold wire_offset_of, serialize_to.
  rewrite write_at_chunk; [|now apply wire_sizes| |done].
  - rewrite <- Hw. now apply deserialize_serialize.
  - rewrite (Forall2_length _ _ _ (wire_sizes d Hd)). now apply lookup_lt_Some in Hi.
Qed.

(** The document with its serials and hit statistics replaced. *)
Definition restamp (d : Document) (fs ws hc na la : Z) : Document := {|
  magic := magic d; len := len d; total_len := total_len d;
  first_key := first_key d; fragment_key := fragment_key d;
  header_len := header_len d; doc_type := doc_type d; version_major := version_major d;
  version_minor := version_minor d; flags := flags d; fill_serial := fs;
  write_serial := ws; pin_until := pin_until d; checksum := checksum d;
  frag_offset := frag_offset d; hit_count := hc;
  next_alternate_offset := na; last_access := la;
  alternate_id := alternate_id d; reserved2 := reserved2 d |}.

Lemma restamp_ok d fs ws hc na la :
  doc_ok d -> fits 32 fs -> fits 32 ws -> fits 32 hc -> fits 64 na -> - 2 ^ 63 <= la < 2 ^ 63 ->
  doc_ok (restamp d fs ws hc na la).
Proof.
  intros ((?&?&?&?&?&?&?)&(?&?&?&?&?)&(?&?&?&?&?&?)&(?&?&?&?&?)) ?????.
  unfold doc_ok, restamp; doc_simpl. repeat split; try done; unfold fits in *; lia.
Qed.

Lemma le_val_fits n src : bytes_ok src -> length src = n -> fits (8 * Z.of_nat n) (le_val src).
Proof.
  intros Hb <-. pose proof (le_val_bound _ Hb) as B.
  change 256 with (2 ^ 8) in B. rewrite <- Z.pow_mul_r in B by lia. exact B.
Qed.

Lemma to_int64_range z : fits 64 z -> - 2 ^ 63 <= to_int64 z < 2 ^ 63.
Proof. unfold fits, to_int64. intros. destruct (Z.ltb_spec z (2 ^ 63)); lia. Qed.

(** Every in-place field but the checksum itself is one of the five. *)
Lemma write_in_place d tl off n src :
  doc_ok d -> (off, n) ∈ kInPlace -> off <> kChecksumOffset -> bytes_ok src -> length src = n ->
  exists fs ws hc na la, doc_ok (restamp d fs ws hc na la) /\
    deserialize (write_at (serialize_to d ++ tl) off src) = restamp d fs ws hc na la.
Proof.
  intros Hd Hin Hne Hb Hn. pose proof (le_val_fits n src Hb Hn) as Hf.
  pose proof (le_bytes_le_val src Hb) as Hs.
  pose proof Hd as (_ & _ & (Hfs & Hws & _ & _ & _ & Hhc) & (Hna & Hla & _)).
  unfold kInPlace in Hin. set_unfold in Hin.
  destruct Hin as [[= -> ->]|[[= -> ->]|[[= -> ->]|[[= -> ->]|[[= -> ->]|[[= -> ->]|[]]]]]]];
    try done; change (8 * Z.of_nat 4) with 32 in *; change (8 * Z.of_nat 8) with 64 in *;
    rewrite Hn in Hs.
  - exists (le_val src), (write_serial d), (hit_count d), (next_alternate_offset d), (last_access d).
    split; [now apply restamp_ok|].
    change kFillSerialOffset with (wire_offset_of 10).
    apply deserialize_write_field; [done|now apply restamp_ok|now rewrite Hn|].
    unfold wire_chunks, restamp; doc_simpl. now rewrite Hs.
  - exists (fill_serial d), (le_val src), (hit_count d), (next_alternate_offset d), (last_access d).
    split; [now apply restamp_ok|].
    change kWriteSerialOffset with (wire_offset_of 11).
    apply deserialize_write_field; [done|now apply restamp_ok|now rewrite Hn|].
    unfold wire_chunks, restamp; doc_simpl. now rewrite Hs.
  - exists (fill_serial d), (write_serial d), (le_val src), (next_alternate_offset d), (last_access d).
    split; [now apply restamp_ok|].
    change kHitCountOffset with (wire_offset_of 15).
    apply deserialize_write_field; [done|now apply restamp_ok|now rewrite Hn|].
    unfold wire_chunks, restamp; doc_simpl. now rewrite Hs.
  - exists (fill_serial d), (write_serial d), (hit_count d), (le_val src), (last_access d).
    split; [now apply restamp_ok|].
    change kNextAlternateOffsetPos with (wire_offset_of 16).
    apply deserialize_write_field; [done|now apply restamp_ok|now rewrite Hn|].
    unfold wire_chunks, restamp; doc_simpl. now rewrite Hs.
  - exists (fill_serial d), (write_serial d), (hit_count d), (next_alternate_offset d),
      (to_int64 (le_val src)).
    pose proof (to_int64_range _ Hf). split; [now apply restamp_ok|].
    change kLastAccessOffset with (wire_offset_of 17).
    apply deserialize_write_field; [done|now apply restamp_ok|now rewrite Hn|].
    unfold wire_chunks, restamp; doc_simpl. now rewrite to_int64_le_bytes, Hs.
Qed.

Lemma le_val_app_lxor a b :
  bytes_ok a -> le_val (a ++ b) = le_val a .^ (le_val b << (8 * Z.of_nat (length a))).
Proof.
  induction 1 as [|x a Hx Ha IH]; [now rewrite Z.shiftl_0_r|].
  cbn [app]. rewrite !le_val_cons_lxor, IH, Z.shiftl_lxor, Z.shiftl_shiftl by (done || lia).
  rewrite Z.lxor_assoc. do 3 f_equal. cbn [length]. lia.
Qed.

(** Replacing one chunk of a string shifts the difference to the chunk's place. *)
Lemma le_val_replace a x y c :
  bytes_ok a -> bytes_ok x -> bytes_ok y -> length x = length y ->
  le_val (a ++ x ++ c) .^ le_val (a ++ y ++ c)
  = (le_val x .^ le_val y) << (8 * Z.of_nat (length a)).
Proof.
  intros Ha Hx Hy Hl. rewrite !(le_val_app_lxor a), (le_val_app_lxor x), (le_val_app_lxor y), Hl by done.
  rewrite !Z.shiftl_lxor. apply Z.bits_inj'. intros i Hi. rewrite !Z.lxor_spec.
  destruct (Z.testbit _ i), (Z.testbit _ i), (Z.testbit _ i), (Z.testbit _ i); reflexivity.
Qed.

Section covered.
Context `{C : Checksum} `{L : !ChecksumLaws C}.

Lemma verify_checksum_canon d p :
  doc_ok d -> bytes_ok p ->
  verify_checksum d p = (checksum d =? crc_update 0 (serialize_to (canon d) ++ p)).
Proof using L.
  intros Hd Hp. unfold verify_checksum. rewrite checksum_header_seed_canon by done.
  rewrite crc_update_app; [done|unfold fits; lia| |done]. now apply serialize_to_bytes, canon_ok.
Qed.

(** In-place rewrites keep a document verifiable: overwriting, in a
    buffer that holds a document, any of the fields the code rewrites after
    the fill (fill serial, write serial, hit count, chain link, last access)
    with any bytes leaves the verdict of [verify_checksum] unchanged. *)
Theorem in_place_updates_verify data payload off n src :
  bytes_ok data -> (kHeaderSize <= length data)%nat -> bytes_ok payload ->
  (off, n) ∈ kInPlace -> off <> kChecksumOffset -> bytes_ok src -> length src = n ->
  verify_checksum (deserialize (write_at data off src)) payload
  = verify_checksum (deserialize data) payload.
Proof using L.
  intros Hd Hl Hp Hin Hne Hs Hn. pose proof (deserialize_ok data Hd Hl) as Hok.
  destruct (write_in_place (deserialize data) (drop kHeaderSize data) off n src)
    as (fs & ws & hc & na & la & Hok' & E); try done.
  rewrite serialize_deserialize, take_drop in E by done. rewrite E.
  now rewrite !verify_checksum_canon by done.
Qed.

Lemma covered_burst d1 d2 p1 p2 (k : nat) b :
  doc_ok d1 -> doc_ok d2 -> bytes_ok p1 -> bytes_ok p2 -> length p1 = length p2 ->
  checksum d1 = checksum d2 -> 0 < b < 2 ^ 32 ->
  le_val (canonical_header d1 ++ p1) .^ le_val (canonical_header d2 ++ p2) = b << Z.of_nat k ->
  verify_checksum d1 p1 = true -> verify_checksum d2 p2 = false.
Proof using L.
  intros H1 H2 P1 P2 Hl Hc Hb Hx. rewrite !verify_checksum_canon by done.
  rewrite !canonical_header_canon in Hx by done. rewrite Z.eqb_eq, Z.eqb_neq. intros V1 V2.
  pose proof (canon_ok d1 H1) as O1. pose proof (canon_ok d2 H2) as O2.
  apply (crc_update_burst (serialize_to (canon d1) ++ p1)
    (serialize_to (canon d2) ++ p2) k b); try done.
  - apply bytes_ok_app. split; [now apply serialize_to_bytes|done].
  - apply bytes_ok_app. split; [now apply serialize_to_bytes|done].
  - rewrite !length_app, !length_serialize_to by done. lia.
  - congruence.
Qed.

(** Every other bit is covered: if two documents carry the same checksum
    and their covered bytes (the header with the in-place fields cleared, then
    the payload) differ by a burst within 32 bits, at most one of them
    verifies. *)
Theorem covered_burst_rejected d1 d2 p1 p2 (k : nat) b :
  doc_ok d1 -> doc_ok d2 -> bytes_ok p1 -> bytes_ok p2 -> length p1 = length p2 ->
  checksum d1 = checksum d2 -> 0 < b < 2 ^ 32 ->
  le_val (canonical_header d1 ++ p1) .^ le_val (canonical_header d2 ++ p2) = b << Z.of_nat k ->
  verify_checksum d1 p1 = true -> verify_checksum d2 p2 = false.
Proof using L. apply covered_burst. Qed.

(** A header in which one covered field of at most four bytes was changed. *)
Lemma field_covered d d' p i c c' :
  doc_ok d -> doc_ok d' -> bytes_ok p -> checksum d = checksum d' ->
  wire_chunks (canon d) !! i = Some c -> wire_chunks (canon d') = <[i := c']> (wire_chunks (canon d)) ->
  length c = length c' -> (length c <= 4)%nat -> c <> c' ->
  verify_checksum d p = true -> verify_checksum d' p = false.
Proof using L.
  intros Hd Hd' Hp Hc Hi Hw Hl H4 Hne.
  assert (wire_chunks (canon d') !! i = Some c') as Hi'.
  { rewrite Hw, list_lookup_insert_eq; [done|]. now apply lookup_lt_Some in Hi. }
  pose proof (serialize_to_bytes _ (canon_ok d Hd)) as B. pose proof (serialize_to_bytes _ (canon_ok d' Hd')) as B'.
  unfold serialize_to in B, B'.
  rewrite <- (take_drop_middle _ _ _ Hi), concat_app in B. cbn [concat] in B.
  rewrite !bytes_ok_app in B. destruct B as (Ba & Bc & _).
  rewrite <- (take_drop_middle _ _ _ Hi'), concat_app in B'. cbn [concat] in B'.
  rewrite !bytes_ok_app in B'. destruct B' as (_ & Bc' & _).
  pose proof (le_val_fits _ c Bc eq_refl) as F. pose proof (le_val_fits _ c' Bc' (eq_sym Hl)) as F'.
  apply (fits_le _ 32) in F, F'; try lia.
  apply (covered_burst d d' p p (8 * length (concat (take i (wire_chunks (canon d)))))
    (le_val c .^ le_val c')); try done.
  - assert (le_val c .^ le_val c' <> 0).
    { rewrite Z.lxor_eq_0_iff. intros E. apply Hne.
      rewrite <- (le_bytes_le_val c), <- (le_bytes_le_val c'), Hl, E by done. done. }
    pose proof (fits_lxor 32 _ _ ltac:(lia) F F') as [? ?]. lia.
  - rewrite !canonical_header_canon by done. unfold serialize_to.
    rewrite Hw, insert_take_drop by (now apply lookup_lt_Some in Hi).
    rewrite <- (take_drop_middle _ _ _ Hi) at 1. rewrite !concat_app. cbn [concat].
    rewrite <- !app_assoc, le_val_replace by done. f_equal. lia.
Qed.

(** The document with its length, header length and type replaced. *)
Definition reshape (d : Document) (n h t : Z) : Document := {|
  magic := magic d; len := n; total_len := total_len d;
  first_key := first_key d; fragment_key := fragment_key d;
  header_len := h; doc_type := t; version_major := version_major d;
  version_minor := version_minor d; flags := flags d; fill_serial := fill_serial d;
  write_serial := write_serial d; pin_until := pin_until d; checksum := checksum d;
  frag_offset := frag_offset d; hit_count := hit_count d;
  next_alternate_offset := next_alternate_offset d; last_access := last_access d;
  alternate_id := alternate_id d; reserved2 := reserved2 d |}.

Lemma reshape_ok d n h t :
  doc_ok d -> fits 32 n -> fits 32 h -> fits 8 t -> doc_ok (reshape d n h t).
Proof.
  intros ((?&?&?&?&?&?&?)&(?&?&?&?&?)&(?&?&?&?&?&?)&(?&?&?&?&?)) ???.
  unfold doc_ok, reshape; doc_simpl. repeat split; try done; unfold fits in *; lia.
Qed.

Lemma le_bytes_inj n a b :
  fits (8 * Z.of_nat n) a -> fits (8 * Z.of_nat n) b -> le_bytes n a = le_bytes n b -> a = b.
Proof.
  intros Ha Hb E. apply (f_equal le_val) in E. rewrite !le_val_le_bytes in E.
  change 256 with (2 ^ 8) in E. rewrite <- !Z.pow_mul_r in E by lia.
  now rewrite !Z.mod_small in E by done.
Qed.

(** The shape of a document is covered by its checksum: after changing
    only its length, only its header length or only its type byte, a document
    that verified does not verify any more. *)
Theorem shape_covered d p n h t :
  doc_ok d -> bytes_ok p -> fits 32 n -> fits 32 h -> fits 8 t ->
  verify_checksum d p = true ->
  (n <> len d -> verify_checksum (reshape d n (header_len d) (doc_type d)) p = false) /\
  (h <> header_len d -> verify_checksum (reshape d (len d) h (doc_type d)) p = false) /\
  (t <> doc_type d -> verify_checksum (reshape d (len d) (header_len d) t) p = false).
Proof using L.
  intros Hd Hp Hn Hh Ht Hv. pose proof Hd as ((_&F1&_)&(F2&F3&_)&_).
  split; [|split]; intros Hne; revert Hv.
  - apply (field_covered d _ p 1 (le_bytes 4 (len d)) (le_bytes 4 n)); auto using reshape_ok.
    intros E. apply Hne. symmetry. now apply (le_bytes_inj 4).
  - apply (field_covered d _ p 5 (le_bytes 4 (header_len d)) (le_bytes 4 h)); auto using reshape_ok.
    intros E. apply Hne. symmetry. now apply (le_bytes_inj 4).
  - apply (field_covered d _ p 6 (le_bytes 1 (doc_type d)) (le_bytes 1 t)); auto using reshape_ok.
    intros E. apply Hne. symmetry. now apply (le_bytes_inj 1).
Qed.
End covered.

(** ** Chain links *)

Lemma kLinkOffsetMask_ones : kLinkOffsetMask = Z.ones 48.
Proof. reflexivity. Qed.

(** A chain link packs a 48-bit relative offset and a 16-bit fill serial
    and gives both back; the link is zero (end of chain) exactly for offset
    zero, and a document is bound by the link made for it as long as its
    fill serial fits the 16 bits the link carries. *)
Theorem link_roundtrip rel_offset serial d :
  fits 48 rel_offset -> fits 16 serial -> rel_offset <> 0 ->
  let link := make_link rel_offset serial in
  fits 64 link /\ link <> 0 /\ link_offset link = rel_offset /\ link_serial link = serial /\
  make_link 0 serial = 0 /\
  (fits 16 (fill_serial d) -> bound_by_link d (link_to d rel_offset) = true) /\
  (bound_by_link d link = true <-> fill_serial d = serial).
Proof.
  assert (forall r s, fits 48 r -> fits 16 s -> r <> 0 ->
    make_link r s = r .| (s << 48) /\ fits 64 (r .| (s << 48)) /\
    link_offset (r .| (s << 48)) = r /\ link_serial (r .| (s << 48)) = s) as H.
  { intros r s Hr Hs H0. unfold make_link, link_offset, link_serial.
    destruct (Z.eqb_spec r 0); [done|]. rewrite kLinkOffsetMask_ones, !Z.land_ones by lia.
    unfold kLinkSerialShift. rewrite (Z.mod_small r) by exact Hr.
    assert (fits 64 (s << 48)).
    { unfold fits in *. rewrite Z.shiftl_mul_pow2 by lia. lia. }
    unfold u64. rewrite wrap_small by done. split; [done|].
    assert (fits 64 r) by (unfold fits in *; lia).
    split; [auto with cyc|].
    rewrite lor_shift_add by (lia || done).
    rewrite Z.mod_add, (Z.mod_small r), Z.shiftr_div_pow2, Z.div_add, (Z.div_small r) by (lia || exact Hr).
    split; [done|]. rewrite Z.add_0_l. now apply wrap_small. }
  intros Hr Hs H0. destruct (H rel_offset serial Hr Hs H0) as (E & F & Eo & Es).
  cbv zeta. rewrite E. split; [done|]. split.
  { intros Hz. rewrite Hz in Eo. now apply H0. }
  split; [done|]. split; [done|]. split; [done|]. split.
  - intros Hfs. unfold bound_by_link, link_to. unfold u16. rewrite wrap_small by done.
    destruct (H rel_offset (fill_serial d) Hr Hfs H0) as (-> & _ & _ & ->). apply Z.eqb_refl.
  - unfold bound_by_link. rewrite Es. apply Z.eqb_eq.
Qed.

(** ** Witnesses *)

Definition host_checksum : Checksum := crc32c_checksum x86_host 0.

Definition sample_builder : DocumentBuilder := {|
  b_key := {| _hash := seqZ 200 32 |}; b_header := [72; 73]; b_content := [1; 2; 3; 4; 5];
  b_type := Type_SingleFrag; b_flags := 0; b_total_len := 0; b_frag_offset := 0;
  b_enable_checksum := true; b_alternate_id := 1; b_next_alternate_offset := 0;
  b_hit_count := 0; b_last_access := 1700000000 |}.

Lemma sample_builder_ok : builder_ok sample_builder (b_content sample_builder).
Proof.
  split; cbn.
  - split; [reflexivity|]. apply bytes_okb_ok; reflexivity.
  - bytes_decide.
  - bytes_decide.
  - unfold fits, Type_SingleFrag. repeat split; lia.
  - unfold kHeaderSize; cbn; lia.
Qed.

Definition sample_bytes : list Z := @build host_checksum sample_builder.
Definition sample_document : Document := deserialize sample_bytes.

Lemma sample_bytes_ok : bytes_ok sample_bytes.
Proof. apply bytes_okb_ok. vm_compute; reflexivity. Qed.

Lemma sample_length : length sample_bytes = 139%nat.
Proof. vm_compute; reflexivity. Qed.

Lemma sample_document_ok : doc_ok sample_document.
Proof. apply deserialize_ok; [exact sample_bytes_ok|]. rewrite sample_length. unfold kHeaderSize. lia. Qed.

Lemma document_roundtrip_witness :
  deserialize (serialize sample_document [] ++ sample_bytes) = sample_document /\
  serialize (deserialize sample_bytes) [] = take kHeaderSize sample_bytes.
Proof.
  destruct (document_roundtrip sample_document sample_bytes) as (_ & H1 & H2).
  - exact sample_document_ok.
  - exact sample_bytes_ok.
  - split; [exact H1|]. apply H2. rewrite sample_length. unfold kHeaderSize. lia.
Defined.

Lemma build_then_read_witness :
  let r := new_reader (sample_bytes ++ [9; 9]) in
  r_header r = [72; 73] /\ r_content r = [1; 2; 3; 4; 5] /\
  @verify_checksum host_checksum (r_doc r) (r_payload r) = true /\ is_servable r = true.
Proof.
  destruct (@build_then_read host_checksum _ sample_builder [9; 9])
    as (_ & _ & _ & H1 & H2 & _ & H3 & H4).
  - exact sample_builder_ok.
  - split; [exact H1|]. split; [exact H2|]. split; [now apply H3|now apply H4].
Defined.

Lemma build_head_then_content_witness :
  @build_head host_checksum sample_builder [1; 2; 3; 4; 5] ++ [1; 2; 3; 4; 5] = sample_bytes.
Proof. apply (@build_head_then_content host_checksum _ sample_builder). exact sample_builder_ok. Defined.

Lemma in_place_updates_verify_witness :
  @verify_checksum host_checksum
    (deserialize (write_at sample_bytes kWriteSerialOffset [1; 2; 3; 4])) [72; 73; 1; 2; 3; 4; 5] = true.
Proof.
  rewrite (@in_place_updates_verify host_checksum _ sample_bytes [72; 73; 1; 2; 3; 4; 5]
    kWriteSerialOffset 4 [1; 2; 3; 4]).
  - vm_compute. reflexivity.
  - exact sample_bytes_ok.
  - rewrite sample_length. unfold kHeaderSize. lia.
  - bytes_decide.
  - unfold kInPlace. set_solver.
  - discriminate.
  - bytes_decide.
  - reflexivity.
Defined.

Lemma covered_burst_rejected_witness :
  @verify_checksum host_checksum sample_document [72; 73; 1; 2; 7; 4; 5] = false.
Proof.
  apply (@covered_burst_rejected host_checksum _ sample_document sample_document
    [72; 73; 1; 2; 3; 4; 5] [72; 73; 1; 2; 7; 4; 5] (8 * 136) 4).
  - exact sample_document_ok.
  - exact sample_document_ok.
  - bytes_decide.
  - bytes_decide.
  - reflexivity.
  - reflexivity.
  - lia.
  - vm_compute. reflexivity.
  - vm_compute. reflexivity.
Defined.

Lemma shape_covered_witness :
  @verify_checksum host_checksum (reshape sample_document 138 2 Type_SingleFrag)
    [72; 73; 1; 2; 3; 4; 5] = false.
Proof.
  apply (@shape_covered host_checksum _ sample_document [72; 73; 1; 2; 3; 4; 5] 138 0 0).
  - exact sample_document_ok.
  - bytes_decide.
  - unfold fits. lia.
  - unfold fits. lia.
  - unfold fits. lia.
  - vm_compute. reflexivity.
  - vm_compute. discriminate.
Defined.

Lemma link_roundtrip_witness :
  link_offset (make_link 4096 7) = 4096 /\ link_serial (make_link 4096 7) = 7.
Proof.
  destruct (link_roundtrip 4096 7 sample_document) as (_ & _ & H1 & H2 & _).
  - unfold fits. lia.
  - unfold fits. lia.
  - lia.
  - split; [exact H1|exact H2].
Defined.

(** The offsets of the named fields are their places in the wire order. *)
Example wire_offsets :
  map wire_offset_of [7; 10; 11; 13; 15; 16; 17; 18]%nat =
  [kVersionMajorOffset; kFillSerialOffset; kWriteSerialOffset; kChecksumOffset; kHitCountOffset;
   kNextAlternateOffsetPos; kLastAccessOffset; kAlternateIdOffset] /\
  sum_sizes kDocumentFields = kHeaderSize.
Proof. split; reflexivity. Qed.
