(* ===== verification/DirEntry.v ===== *)
(** * Directory entries (src/src/core/directory.hpp and directory.cpp, [DirEntry])

    The packed 10-byte entry: five 16-bit words, the getters and setters with
    their masks and shifts, and the approximate-size encoding.  The packed
    words refine the abstract record [EntryView]: every setter changes its own
    field of the view and nothing else. *)

From S2P Require Import Prelude.
Local Open Scope cyc_scope.

(** ** The packed words *)

(** [uint16_t _w[5]]. *)
Record DirEntry := { w0 : Z; w1 : Z; w2 : Z; w3 : Z; w4 : Z }.

#[export] Instance DirEntry_eq_dec : EqDecision DirEntry.
Proof. solve_decision. Defined.

Definition kSize : nat := 10.

(** A default-constructed entry, and what [clear] leaves. *)
Definition empty_entry : DirEntry := {| w0 := 0; w1 := 0; w2 := 0; w3 := 0; w4 := 0 |}.

Definition entry_ok (e : DirEntry) : Prop :=
  fits 16 (w0 e) /\ fits 16 (w1 e) /\ fits 16 (w2 e) /\ fits 16 (w3 e) /\ fits 16 (w4 e).

Definition offset (e : DirEntry) : Z :=
  (w0 e .| ((w1 e .& 0xFF) << 16)) .| (w4 e << 24).

Definition set_offset (e : DirEntry) (o : Z) : DirEntry := {|
  w0 := u16 (o .& 0xFFFF);
  w1 := u16 ((w1 e .& 0xFF00) .| ((o >> 16) .& 0xFF));
  w2 := w2 e; w3 := w3 e;
  w4 := u16 ((o >> 24) .& 0xFFFF) |}.

Definition big (e : DirEntry) : Z := u8 ((w1 e >> 8) .& 0x03).

Definition set_w1 (e : DirEntry) (w : Z) : DirEntry :=
  {| w0 := w0 e; w1 := w; w2 := w2 e; w3 := w3 e; w4 := w4 e |}.
Definition set_w2 (e : DirEntry) (w : Z) : DirEntry :=
  {| w0 := w0 e; w1 := w1 e; w2 := w; w3 := w3 e; w4 := w4 e |}.

Definition set_big (e : DirEntry) (b : Z) : DirEntry :=
  set_w1 e (u16 ((w1 e .& Z.lnot 0x0300) .| ((b .& 0x03) << 8))).

Definition size (e : DirEntry) : Z := u8 ((w1 e >> 10) .& 0x3F).

Definition set_size (e : DirEntry) (s : Z) : DirEntry :=
  set_w1 e (u16 ((w1 e .& 0x03FF) .| ((s .& 0x3F) << 10))).

Definition tag (e : DirEntry) : Z := w2 e .& 0x0FFF.

Definition set_tag (e : DirEntry) (t : Z) : DirEntry :=
  set_w2 e (u16 ((w2 e .& 0xF000) .| (t .& 0x0FFF))).

Definition phase (e : DirEntry) : bool := negb ((w2 e >> 12) .& 0x01 =? 0).

Definition set_phase (e : DirEntry) (p : bool) : DirEntry :=
  set_w2 e (u16 ((w2 e .& Z.lnot 0x1000) .| (if p then 0x1000 else 0))).

Definition head (e : DirEntry) : bool := negb ((w2 e >> 13) .& 0x01 =? 0).

Definition set_head (e : DirEntry) (h : bool) : DirEntry :=
  set_w2 e (u16 ((w2 e .& Z.lnot 0x2000) .| (if h then 0x2000 else 0))).

Definition pinned (e : DirEntry) : bool := negb ((w2 e >> 14) .& 0x01 =? 0).

Definition set_pinned (e : DirEntry) (p : bool) : DirEntry :=
  set_w2 e (u16 ((w2 e .& Z.lnot 0x4000) .| (if p then 0x4000 else 0))).

Definition fill_serial (e : DirEntry) : Z := w3 e.

Definition set_fill_serial (e : DirEntry) (s : Z) : DirEntry :=
  {| w0 := w0 e; w1 := w1 e; w2 := w2 e; w3 := s; w4 := w4 e |}.

Definition is_empty (e : DirEntry) : bool := offset e =? 0.

Definition clear (_ : DirEntry) : DirEntry := empty_entry.

Definition kBlockSize : Z := 512.

Definition approx_size (e : DirEntry) : Z :=
  u64 (((size e + 1) * kBlockSize) << big e).

(** [while (bytes > (63 + 1) * kBlockSize * (1ULL << b) && b < 3) ++b;]  The
    guard bounds the loop by three iterations, the fuel it is given. *)
Fixpoint size_class (fuel : nat) (bytes b : Z) : Z :=
  match fuel with
  | O => b
  | S fuel => if ((63 + 1) * kBlockSize * (1 << b) <? bytes) && (b <? 3)
              then size_class fuel bytes (b + 1) else b
  end.

Definition set_approx_size (e : DirEntry) (bytes : Z) : DirEntry :=
  let b := size_class 3 bytes 0 in
  let block_size := kBlockSize << b in
  let blocks := u64 (bytes + block_size - 1) / block_size in
  let blocks := if blocks =? 0 then 1 else blocks in
  let blocks := if 64 <? blocks then 64 else blocks in
  set_size (set_big e b) (u8 (blocks - 1)).

(** ** The abstract entry *)

Record EntryView := {
  v_offset : Z; v_big : Z; v_size : Z; v_tag : Z;
  v_phase : bool; v_head : bool; v_pinned : bool; v_fill_serial : Z }.

Definition view (e : DirEntry) : EntryView := {|
  v_offset := offset e; v_big := big e; v_size := size e; v_tag := tag e;
  v_phase := phase e; v_head := head e; v_pinned := pinned e; v_fill_serial := fill_serial e |}.

Definition with_offset (v : EntryView) (x : Z) : EntryView :=
  {| v_offset := x; v_big := v_big v; v_size := v_size v; v_tag := v_tag v;
     v_phase := v_phase v; v_head := v_head v; v_pinned := v_pinned v; v_fill_serial := v_fill_serial v |}.
Definition with_big (v : EntryView) (x : Z) : EntryView :=
  {| v_offset := v_offset v; v_big := x; v_size := v_size v; v_tag := v_tag v;
     v_phase := v_phase v; v_head := v_head v; v_pinned := v_pinned v; v_fill_serial := v_fill_serial v |}.
Definition with_size (v : EntryView) (x : Z) : EntryView :=
  {| v_offset := v_offset v; v_big := v_big v; v_size := x; v_tag := v_tag v;
     v_phase := v_phase v; v_head := v_head v; v_pinned := v_pinned v; v_fill_serial := v_fill_serial v |}.
Definition with_tag (v : EntryView) (x : Z) : EntryView :=
  {| v_offset := v_offset v; v_big := v_big v; v_size := v_size v; v_tag := x;
     v_phase := v_phase v; v_head := v_head v; v_pinned := v_pinned v; v_fill_serial := v_fill_serial v |}.
Definition with_phase (v : EntryView) (x : bool) : EntryView :=
  {| v_offset := v_offset v; v_big := v_big v; v_size := v_size v; v_tag := v_tag v;
     v_phase := x; v_head := v_head v; v_pinned := v_pinned v; v_fill_serial := v_fill_serial v |}.
Definition with_head (v : EntryView) (x : bool) : EntryView :=
  {| v_offset := v_offset v; v_big := v_big v; v_size := v_size v; v_tag := v_tag v;
     v_phase := v_phase v; v_head := x; v_pinned := v_pinned v; v_fill_serial := v_fill_serial v |}.
Definition with_pinned (v : EntryView) (x : bool) : EntryView :=
  {| v_offset := v_offset v; v_big := v_big v; v_size := v_size v; v_tag := v_tag v;
     v_phase := v_phase v; v_head := v_head v; v_pinned := x; v_fill_serial := v_fill_serial v |}.
Definition with_fill_serial (v : EntryView) (x : Z) : EntryView :=
  {| v_offset := v_offset v; v_big := v_big v; v_size := v_size v; v_tag := v_tag v;
     v_phase := v_phase v; v_head := v_head v; v_pinned := v_pinned v; v_fill_serial := x |}.

(** ** Words bit by bit *)

Lemma word_ext a b :
  fits 16 a -> fits 16 b -> (forall i, 0 <= i < 16 -> Z.testbit a i = Z.testbit b i) -> a = b.
Proof.
  intros Ha Hb H. apply Z.bits_inj'. intros i Hi. destruct (Z.ltb_spec i 16); [now apply H|].
  rewrite (fits_testbit 16 a), (fits_testbit 16 b) by done. done.
Qed.

Lemma below16 i :
  0 <= i < 16 -> i ∈ [0; 1; 2; 3; 4; 5; 6; 7; 8; 9; 10; 11; 12; 13; 14; 15].
Proof. intros. rewrite list_elem_of_In. cbn. lia. Qed.

(** Evaluates the bits of a word expression at a concrete position. *)
Ltac word_bit :=
  unfold u16, u8;
  do 3 (rewrite ?testbit_wrap, ?Z.lor_spec, ?Z.land_spec, ?Z.shiftl_spec, ?Z.shiftr_spec, ?Z.lnot_spec
    by lia);
  repeat match goal with
  | |- context [Z.testbit ?c ?i] =>
      let c' := eval cbv in (Z.testbit c i) in
      match c' with true => idtac | false => idtac end;
      change (Z.testbit c i) with c'
  end;
  repeat match goal with
  | |- context [?a <? ?b] => let c := eval cbv in (a <? b) in change (a <? b) with c
  end;
  cbn [andb orb negb];
  rewrite ?andb_true_r, ?andb_false_r, ?orb_false_r, ?orb_true_r, ?orb_false_l; try reflexivity.

Ltac word_cases :=
  let i := fresh "i" in let Hi := fresh "Hi" in
  intros i Hi; apply below16 in Hi;
  repeat (apply elem_of_cons in Hi; destruct Hi as [->|Hi]; [word_bit|]);
  now apply not_elem_of_nil in Hi.

Ltac word_fits :=
  first [ apply fits_land_r; [lia|unfold fits; lia] | apply wrap_fits; lia | done | unfold fits; lia ].

(** Two word expressions agree. *)
Ltac word_eq := apply word_ext; [word_fits|word_fits|word_cases].

Lemma u8_mask w m : fits 8 m -> u8 (w .& m) = w .& m.
Proof. intros. apply wrap_small, fits_land_r; [lia|done]. Qed.

Lemma big_mask e : big e = (w1 e >> 8) .& 0x03.
Proof. apply u8_mask. unfold fits. lia. Qed.

Lemma size_mask e : size e = (w1 e >> 10) .& 0x3F.
Proof. apply u8_mask. unfold fits. lia. Qed.

Lemma offset_arith e :
  entry_ok e -> offset e = w0 e + (w1 e .& 0xFF) * 2 ^ 16 + w4 e * 2 ^ 24.
Proof.
  intros (H0 & _ & _ & _ & _). unfold offset.
  assert (fits 8 (w1 e .& 0xFF)) by (apply fits_land_r; [lia|unfold fits; lia]).
  rewrite (lor_shift_add 16 (w0 e)) by (lia || done). apply lor_shift_add; [lia|].
  unfold fits in *. lia.
Qed.

(** ** Every setter preserves the words' width *)

Lemma empty_entry_ok : entry_ok empty_entry.
Proof. unfold entry_ok, fits, empty_entry; cbn. lia. Qed.

Ltac entry_ok_tac :=
  intros (?&?&?&?&?); unfold entry_ok; cbn [w0 w1 w2 w3 w4 set_offset set_w1 set_w2
    set_big set_size set_tag set_phase set_head set_pinned set_fill_serial];
  (split; [|split; [|split; [|split]]]); try done; apply wrap_fits; lia.

Lemma set_offset_ok e o : entry_ok e -> entry_ok (set_offset e o).
Proof. entry_ok_tac. Qed.
Lemma set_big_ok e b : entry_ok e -> entry_ok (set_big e b).
Proof. entry_ok_tac. Qed.
Lemma set_size_ok e s : entry_ok e -> entry_ok (set_size e s).
Proof. entry_ok_tac. Qed.
Lemma set_tag_ok e t : entry_ok e -> entry_ok (set_tag e t).
Proof. entry_ok_tac. Qed.
Lemma set_phase_ok e p : entry_ok e -> entry_ok (set_phase e p).
Proof. entry_ok_tac. Qed.
Lemma set_head_ok e h : entry_ok e -> entry_ok (set_head e h).
Proof. entry_ok_tac. Qed.
Lemma set_pinned_ok e p : entry_ok e -> entry_ok (set_pinned e p).
Proof. entry_ok_tac. Qed.
Lemma set_fill_serial_ok e s : fits 16 s -> entry_ok e -> entry_ok (set_fill_serial e s).
Proof. intros ?. entry_ok_tac. Qed.
Lemma set_approx_size_ok e n : entry_ok e -> entry_ok (set_approx_size e n).
Proof. intros. now apply set_size_ok, set_big_ok. Qed.

#[export] Hint Resolve empty_entry_ok set_offset_ok set_big_ok set_size_ok set_tag_ok set_phase_ok
  set_head_ok set_pinned_ok set_fill_serial_ok set_approx_size_ok : cyc.

(** ** Every setter changes its own field of the view *)

(** Splits an equality of views into its fields. *)
Ltac view_split :=
  unfold view, with_offset, with_big, with_size, with_tag, with_phase, with_head, with_pinned,
    with_fill_serial;
  cbn [v_offset v_big v_size v_tag v_phase v_head v_pinned v_fill_serial];
  rewrite ?big_mask, ?size_mask; unfold offset, tag, phase, head, pinned, fill_serial;
  cbn [w0 w1 w2 w3 w4 set_offset set_w1 set_w2 set_big set_size set_tag set_phase set_head
       set_pinned set_fill_serial].

Lemma view_set_offset e o :
  entry_ok e -> 0 <= o -> view (set_offset e o) = with_offset (view e) (o mod 2 ^ 40).
Proof.
  intros He Ho. pose proof (set_offset_ok e o He) as He'.
  assert (offset (set_offset e o) = o mod 2 ^ 40) as Hoff.
  { rewrite offset_arith by done. cbn [w0 w1 w4 set_offset].
    assert (u16 ((w1 e .& 0xFF00) .| ((o >> 16) .& 0xFF)) .& 0xFF = (o >> 16) .& 0xFF) as -> by word_eq.
    change 0xFFFF with (Z.ones 16). change 0xFF with (Z.ones 8).
    unfold u16, wrap. rewrite !Z.land_ones, !Z.shiftr_div_pow2 by lia.
    Z.div_mod_to_equations. lia. }
  unfold view at 1. rewrite Hoff. destruct He as (?&?&?&?&?). view_split.
  f_equal; word_eq.
Qed.

Lemma view_set_big e b : entry_ok e -> view (set_big e b) = with_big (view e) (b .& 0x03).
Proof. intros (?&?&?&?&?). view_split. f_equal; [do 3 f_equal|..]; word_eq. Qed.

Lemma view_set_size e s : entry_ok e -> view (set_size e s) = with_size (view e) (s .& 0x3F).
Proof. intros (?&?&?&?&?). view_split. f_equal; [do 3 f_equal|..]; word_eq. Qed.

Lemma view_set_tag e t : entry_ok e -> view (set_tag e t) = with_tag (view e) (t .& 0x0FFF).
Proof. intros (?&?&?&?&?). view_split. f_equal; [|do 2 f_equal..]; word_eq. Qed.

Lemma view_set_fill_serial e s :
  view (set_fill_serial e s) = with_fill_serial (view e) s.
Proof. done. Qed.

(** The value of a flag just written. *)
Lemma flag_value x (b : bool) : x = (if b then 1 else 0) -> negb (x =? 0) = b.
Proof. intros ->. now destruct b. Qed.

Lemma view_set_phase e p : entry_ok e -> view (set_phase e p) = with_phase (view e) p.
Proof.
  intros (?&?&?&?&?). view_split. destruct p;
  (f_equal; [|apply flag_value|do 2 f_equal..]; word_eq).
Qed.

Lemma view_set_head e h : entry_ok e -> view (set_head e h) = with_head (view e) h.
Proof.
  intros (?&?&?&?&?). view_split. destruct h;
  (f_equal; [|do 2 f_equal|apply flag_value|do 2 f_equal]; word_eq).
Qed.

Lemma view_set_pinned e p : entry_ok e -> view (set_pinned e p) = with_pinned (view e) p.
Proof.
  intros (?&?&?&?&?). view_split. destruct p;
  (f_equal; [|do 2 f_equal|do 2 f_equal|apply flag_value]; word_eq).
Qed.

(** The packed entry refines the abstract one: on entries of 16-bit
    words, each setter changes exactly its own field of the view, to the value
    written truncated to the field's width, and leaves the seven other fields
    as they were; and the setters keep the words 16 bits wide. *)
Theorem setters_refine_view e o b s t (p h n : bool) f :
  entry_ok e -> fits 64 o -> fits 16 f ->
  view (set_offset e o) = with_offset (view e) (o mod 2 ^ 40) /\
  view (set_big e b) = with_big (view e) (b .& 0x03) /\
  view (set_size e s) = with_size (view e) (s .& 0x3F) /\
  view (set_tag e t) = with_tag (view e) (t .& 0x0FFF) /\
  view (set_phase e p) = with_phase (view e) p /\
  view (set_head e h) = with_head (view e) h /\
  view (set_pinned e n) = with_pinned (view e) n /\
  view (set_fill_serial e f) = with_fill_serial (view e) f /\
  Forall entry_ok [set_offset e o; set_big e b; set_size e s; set_tag e t; set_phase e p;
                   set_head e h; set_pinned e n; set_fill_serial e f].
Proof.
  intros He [Ho _] Hf.
  rewrite view_set_offset, view_set_big, view_set_size, view_set_tag, view_set_phase,
    view_set_head, view_set_pinned, view_set_fill_serial by done.
  do 8 (split; [done|]). repeat (constructor; [auto with cyc|]). constructor.
Qed.

Lemma setters_refine_view_witness :
  view (set_offset empty_entry 0x123456789A) = with_offset (view empty_entry) 0x123456789A.
Proof.
  destruct (setters_refine_view empty_entry 0x123456789A 0 0 0 false false false 0) as (H & _).
  - exact empty_entry_ok.
  - unfold fits. lia.
  - unfold fits. lia.
  - exact H.
Defined.

(** ** Views of the entries the directory writes *)

Lemma offset_view e : offset e = v_offset (view e). Proof. done. Qed.
Lemma tag_view e : tag e = v_tag (view e). Proof. done. Qed.
Lemma phase_view e : phase e = v_phase (view e). Proof. done. Qed.
Lemma head_view e : head e = v_head (view e). Proof. done. Qed.
Lemma fill_serial_view e : fill_serial e = v_fill_serial (view e). Proof. done. Qed.

Lemma tag_fits e : fits 12 (tag e).
Proof. unfold tag. apply fits_land_r; [lia|unfold fits; lia]. Qed.

Lemma offset_fits e : entry_ok e -> fits 40 (offset e).
Proof.
  intros He. rewrite offset_arith by done. destruct He as (?&?&?&?&?).
  assert (fits 8 (w1 e .& 0xFF)) by (apply fits_land_r; [lia|unfold fits; lia]).
  unfold fits in *. lia.
Qed.

Lemma view_set_approx_size e n :
  entry_ok e -> exists b s, view (set_approx_size e n) = with_size (with_big (view e) b) s.
Proof.
  intros He. unfold set_approx_size. rewrite view_set_size, view_set_big by auto with cyc. eauto.
Qed.

(** ** The size hint *)

Lemma size_class_range bytes : 0 <= size_class 3 bytes 0 <= 3.
Proof.
  cbn. unfold kBlockSize. repeat (match goal with |- context [if ?c then _ else _] => destruct c end);
    lia.
Qed.

Lemma size_class_spec bytes :
  let b := size_class 3 bytes 0 in
  0 <= b <= 3 /\ (bytes <= 2 ^ 15 * 2 ^ b \/ b = 3) /\ (0 < b -> 2 ^ 15 * 2 ^ (b - 1) < bytes).
Proof.
  cbn [size_class]. unfold kBlockSize. change (0 + 1) with 1. change (1 + 1) with 2.
  change (2 + 1) with 3. rewrite !Z.shiftl_mul_pow2 by lia.
  change (0 <? 3) with true. change (1 <? 3) with true. change (2 <? 3) with true.
  rewrite !andb_true_r.
  repeat match goal with |- context [?x <? bytes] => destruct (Z.ltb_spec x bytes) end;
    cbv zeta; (split; [lia|]; split; [first [right; lia|left; lia]|lia]).
Qed.

Lemma approx_size_pow e b s :
  0 <= b <= 3 -> 0 <= s <= 63 -> big e = b -> size e = s -> approx_size e = (s + 1) * 512 * 2 ^ b.
Proof.
  intros Hb Hs Eb Es. unfold approx_size, kBlockSize. rewrite Eb, Es, Z.shiftl_mul_pow2 by lia.
  apply wrap_small. assert (2 ^ b <= 2 ^ 3) by (apply Z.pow_le_mono_r; lia).
  assert (0 < 2 ^ b) by lia. unfold fits. split; nia.
Qed.

(** The approximate size read back from an entry covers the document:
    up to the largest encodable size (64 blocks of 4 KiB) it is at least the
    size recorded and exceeds it by less than one block, at most 4095 bytes
    (and a recorded size of zero reads as one block); larger sizes saturate. *)
Theorem approx_size_covers e bytes :
  entry_ok e -> 0 <= bytes < 2 ^ 64 - 4096 ->
  let a := approx_size (set_approx_size e bytes) in
  (0 < bytes <= 2 ^ 18 -> bytes <= a < bytes + 4096) /\
  (bytes = 0 -> a = 512) /\ (2 ^ 18 < bytes -> a = 2 ^ 18) /\
  view (set_approx_size e bytes) =
    with_size (with_big (view e) (big (set_approx_size e bytes))) (size (set_approx_size e bytes)).
Proof.
  intros He Hn. destruct (size_class_spec bytes) as (Hb & Hhi & Hlo).
  set (b := size_class 3 bytes 0) in *.
  set (B := 512 * 2 ^ b).
  assert (512 <= B <= 4096) as HB.
  { assert (2 ^ 0 <= 2 ^ b <= 2 ^ 3) by (split; apply Z.pow_le_mono_r; lia). lia. }
  set (q := (bytes + B - 1) / B).
  set (s := (if 64 <? (if q =? 0 then 1 else q) then 64 else (if q =? 0 then 1 else q)) - 1).
  assert (0 <= q) by (apply Z.div_pos; lia).
  assert (0 <= s <= 63) as Hs.
  { subst s. destruct (Z.eqb_spec q 0); destruct (Z.ltb_spec 64 1); try lia;
    destruct (Z.ltb_spec 64 q); lia. }
  assert (set_approx_size e bytes = set_size (set_big e b) s) as E.
  { unfold set_approx_size. fold b. unfold kBlockSize. rewrite Z.shiftl_mul_pow2 by lia. fold B.
    unfold u64. rewrite (wrap_small 64) by (unfold fits; lia). fold q. fold s.
    unfold u8. rewrite wrap_small; [done|unfold fits; lia]. }
  assert (view (set_size (set_big e b) s) = with_size (with_big (view e) b) s) as V.
  { rewrite view_set_size, view_set_big by auto with cyc.
    change 0x3F with (Z.ones 6). change 0x03 with (Z.ones 2). rewrite !Z.land_ones by lia.
    now rewrite !Z.mod_small by lia. }
  rewrite E. rewrite (approx_size_pow _ b s Hb Hs)
    by (exact (f_equal v_big V) || exact (f_equal v_size V)).
  change (big _) with (v_big (view (set_size (set_big e b) s))).
  change (size _) with (v_size (view (set_size (set_big e b) s))). rewrite V.
  replace ((s + 1) * 512 * 2 ^ b) with ((s + 1) * B) by (subst B; lia).
  assert (bytes + B - 1 = B * q + (bytes + B - 1) mod B) as Hq by (apply Z.div_mod; lia).
  pose proof (Z.mod_pos_bound (bytes + B - 1) B ltac:(lia)).
  cbv zeta. split; [|split; [|split; [|done]]].
  - intros Hp. assert (1 <= q <= 64).
    { split; [nia|]. destruct Hhi as [Hhi| Hhi]; [subst B; nia|]. subst B. rewrite Hhi in *. nia. }
    assert (s + 1 = q) as -> by (subst s; destruct (Z.eqb_spec q 0); destruct (Z.ltb_spec 64 q); lia).
    nia.
  - intros ->. assert (b = 0) as Hb0 by (destruct (Z.eq_dec b 0); [done|specialize (Hlo ltac:(lia)); assert (0 < 2 ^ (b - 1)) by lia; nia]).
    subst s q B. rewrite Hb0. reflexivity.
  - intros Hp. assert (b = 3) as Hb3.
    { destruct Hhi as [Hhi|]; [|done]. assert (2 ^ b <= 2 ^ 3) by (apply Z.pow_le_mono_r; lia). lia. }
    subst B. rewrite Hb3 in *. assert (64 < q) by nia.
    subst s. destruct (Z.eqb_spec q 0); [lia|]. destruct (Z.ltb_spec 64 q); lia.
Qed.

Lemma approx_size_covers_witness :
  100000 <= approx_size (set_approx_size empty_entry 100000) < 104096.
Proof.
  destruct (approx_size_covers empty_entry 100000) as (H & _).
  - exact empty_entry_ok.
  - lia.
  - apply H. lia.
Defined.
