(* ===== verification/Directory.v ===== *)
(** * The in-memory directory (src/src/core/directory.hpp, directory.cpp)

    Buckets of four packed entries with a seqlock version each, the victim
    choice of an insert ([choose_insert_slot]), the conditional publish
    ([publish_view_is_current]), and every mutator of [Directory].  How an
    insert tells admissible entries from dead ones is the interface
    [InsertAdmission], which the stripe implements (Stripe.v). *)

From S2P Require Import Prelude Key DirEntry.
Local Open Scope cyc_scope.

(** ** Admission *)

Inductive AdmitClass := kReject | kCurrent | kRetained.

#[export] Instance AdmitClass_eq_dec : EqDecision AdmitClass.
Proof. solve_decision. Defined.

(** [class InsertAdmission]: [refresh] reloads the stripe's generation and
    cursor (it changes the object), [classify] judges one entry. *)
Class InsertAdmission (A : Type) := {
  refresh : A -> A;
  classify : A -> Z -> bool -> AdmitClass;
}.

Definition kEntriesPerBucket : nat := 4.
Definition kMatchAnyTag : Z := 2 ^ 64 - 1.
Definition kNoVerifiedEntry : Z := 2 ^ 64 - 2.

(** [slot] is [None] for the source's -1. *)
Record InsertChoice := { slot : option nat; replaces : bool; verified : bool }.

#[export] Instance InsertChoice_eq_dec : EqDecision InsertChoice.
Proof. solve_decision. Defined.

(** The six indices the scan keeps (-1 is [None]). *)
Record Scan := {
  same_spot : option nat; first_empty : option nat; first_inadmissible : option nat;
  first_collider : option nat; oldest_retained : option nat; oldest_current : option nat }.

Definition scan0 : Scan := {|
  same_spot := None; first_empty := None; first_inadmissible := None;
  first_collider := None; oldest_retained := None; oldest_current := None |}.

(** [if (x < 0) x = i;] *)
Definition keep_first (x : option nat) (i : nat) : option nat :=
  match x with None => Some i | Some _ => x end.

Definition slot_offset (bucket : list DirEntry) (i : nat) : Z :=
  match bucket !! i with Some e => offset e | None => 0 end.

(** [if (oldest < 0 || e.offset() < bucket[oldest].offset()) oldest = i;] *)
Definition keep_oldest (bucket : list DirEntry) (x : option nat) (e : DirEntry) (i : nat) : option nat :=
  match x with
  | None => Some i
  | Some k => if offset e <? slot_offset bucket k then Some i else Some k
  end.

Section chooser.
Context {A : Type} `{AI : InsertAdmission A}.
Variables (adm : A) (bucket : list DirEntry).
Variables (key_tag verified_offset new_offset : Z).

(** One turn of the loop: the early return of the verified entry, or the
    updated indices. *)
Definition scan_step (st : Scan) (i : nat) (e : DirEntry) : InsertChoice + Scan :=
  if is_empty e then
    inr {| same_spot := same_spot st; first_empty := keep_first (first_empty st) i;
           first_inadmissible := first_inadmissible st; first_collider := first_collider st;
           oldest_retained := oldest_retained st; oldest_current := oldest_current st |}
  else
    let cls := classify adm (offset e) (phase e) in
    if (tag e =? key_tag) &&
       (if verified_offset =? kMatchAnyTag then negb (bool_decide (cls = kReject))
        else offset e =? verified_offset)
    then inl {| slot := Some i; replaces := true; verified := true |}
    else if negb (new_offset =? 0) && (tag e =? key_tag) && (offset e =? new_offset) then
      inr {| same_spot := keep_first (same_spot st) i; first_empty := first_empty st;
             first_inadmissible := first_inadmissible st; first_collider := first_collider st;
             oldest_retained := oldest_retained st; oldest_current := oldest_current st |}
    else if bool_decide (cls = kReject) then
      inr {| same_spot := same_spot st; first_empty := first_empty st;
             first_inadmissible := keep_first (first_inadmissible st) i;
             first_collider := first_collider st;
             oldest_retained := oldest_retained st; oldest_current := oldest_current st |}
    else if tag e =? key_tag then
      inr {| same_spot := same_spot st; first_empty := first_empty st;
             first_inadmissible := first_inadmissible st;
             first_collider := keep_first (first_collider st) i;
             oldest_retained := oldest_retained st; oldest_current := oldest_current st |}
    else if bool_decide (cls = kRetained) then
      inr {| same_spot := same_spot st; first_empty := first_empty st;
             first_inadmissible := first_inadmissible st; first_collider := first_collider st;
             oldest_retained := keep_oldest bucket (oldest_retained st) e i;
             oldest_current := oldest_current st |}
    else
      inr {| same_spot := same_spot st; first_empty := first_empty st;
             first_inadmissible := first_inadmissible st; first_collider := first_collider st;
             oldest_retained := oldest_retained st;
             oldest_current := keep_oldest bucket (oldest_current st) e i |}.

Fixpoint scan_from (rest : list DirEntry) (i : nat) (st : Scan) : InsertChoice + Scan :=
  match rest with
  | [] => inr st
  | e :: rest =>
      match scan_step st i e with
      | inl choice => inl choice
      | inr st => scan_from rest (S i) st
      end
  end.

(** The choice, and whether [*collision_evicted], [*bucket_full_evicted] were set. *)
Definition choose_insert_slot : InsertChoice * bool * bool :=
  match scan_from bucket 0 scan0 with
  | inl choice => (choice, false, false)
  | inr st =>
      match same_spot st with
      | Some i => ({| slot := Some i; replaces := true; verified := false |}, false, false)
      | None =>
      match first_empty st with
      | Some i => ({| slot := Some i; replaces := false; verified := false |}, false, false)
      | None =>
      match first_inadmissible st with
      | Some i => ({| slot := Some i; replaces := true; verified := false |}, false, false)
      | None =>
      match first_collider st with
      | Some i => ({| slot := Some i; replaces := true; verified := false |}, true, false)
      | None =>
      let oldest := match oldest_retained st with Some _ => oldest_retained st
                                                | None => oldest_current st end in
      ({| slot := oldest; replaces := bool_decide (is_Some oldest); verified := false |},
       false, bool_decide (is_Some oldest))
      end end end end
  end.

(** [publish_view_is_current]: [seen] are the offsets the writer's probe saw. *)
Fixpoint view_scan (rest : list DirEntry) (seen : list Z) (verified_found : bool) : bool :=
  match rest with
  | [] => verified_found
  | e :: rest =>
      if is_empty e || negb (tag e =? key_tag) then view_scan rest seen verified_found
      else if offset e =? verified_offset then view_scan rest seen true
      else if negb (new_offset =? 0) && (offset e =? new_offset) then view_scan rest seen verified_found
      else if bool_decide (classify adm (offset e) (phase e) = kReject)
      then view_scan rest seen verified_found
      else if existsb (fun off => off =? offset e) seen then view_scan rest seen verified_found
      else false
  end.

Definition publish_view_is_current (seen : list Z) : bool :=
  view_scan bucket seen
    ((verified_offset =? kMatchAnyTag) || (verified_offset =? kNoVerifiedEntry)).

(** ** The victim order, declaratively *)

Definition rank (e : DirEntry) : nat :=
  if is_empty e then 2
  else
    let cls := classify adm (offset e) (phase e) in
    if (tag e =? key_tag) &&
       (if verified_offset =? kMatchAnyTag then negb (bool_decide (cls = kReject))
        else offset e =? verified_offset) then 0
    else if negb (new_offset =? 0) && (tag e =? key_tag) && (offset e =? new_offset) then 1
    else match cls with
         | kReject => 3
         | kRetained => if tag e =? key_tag then 4 else 5
         | kCurrent => if tag e =? key_tag then 4 else 6
         end.

(** Within a rank: the lowest offset for the two "oldest" ranks, else the
    first slot. *)
Definition age (e : DirEntry) : Z := if (5 <=? rank e)%nat then offset e else 0.

Definition precedes (i : nat) (e : DirEntry) (j : nat) (e' : DirEntry) : Prop :=
  (rank e < rank e')%nat \/
  (rank e = rank e' /\ (age e < age e' \/ (age e = age e' /\ (i <= j)%nat))).

(** [i] is the slot the order puts first. *)
Definition first_choice (i : nat) (e : DirEntry) : Prop :=
  bucket !! i = Some e /\ forall j e', bucket !! j = Some e' -> precedes i e j e'.

Definition tracker (st : Scan) (r : nat) : option nat :=
  match r with
  | 1%nat => same_spot st | 2%nat => first_empty st | 3%nat => first_inadmissible st
  | 4%nat => first_collider st | 5%nat => oldest_retained st | 6%nat => oldest_current st
  | _ => None
  end.

(** After the slots below [n]: no verified entry, and each index is the first
    choice among the slots of its rank. *)
Definition scan_inv (st : Scan) (n : nat) : Prop :=
  (forall j e, (j < n)%nat -> bucket !! j = Some e -> rank e <> 0%nat) /\
  forall r, match tracker st r with
  | None => forall j e, (j < n)%nat -> bucket !! j = Some e -> rank e = r -> (r < 1 \/ 6 < r)%nat
  | Some i => (i < n)%nat /\ exists e, bucket !! i = Some e /\ rank e = r /\
      forall j e', (j < n)%nat -> bucket !! j = Some e' -> rank e' = r -> precedes i e j e'
  end.

Lemma rank_range e : (rank e <= 6)%nat.
Proof.
  unfold rank. destruct (is_empty e); [lia|].
  repeat (case_match; try lia).
Qed.

(** Ranks 4 and above are the admitted entries that are neither the verified
    one nor at the new offset. *)
Lemma rank_admitted e :
  (4 <= rank e)%nat -> is_empty e = false /\ classify adm (offset e) (phase e) <> kReject.
Proof.
  unfold rank. destruct (is_empty e); [lia|].
  repeat case_match; try lia; intros _; (split; [done|congruence]).
Qed.

Lemma admitted_rank e :
  is_empty e = false -> classify adm (offset e) (phase e) <> kReject -> verified_offset <> kMatchAnyTag ->
  ~ (tag e = key_tag /\ (offset e = verified_offset \/ offset e = new_offset)) -> (4 <= rank e)%nat.
Proof.
  intros He Hc Hv Hn. unfold rank. rewrite He. destruct (Z.eqb_spec verified_offset kMatchAnyTag); [done|].
  destruct (Z.eqb_spec (tag e) key_tag); cbn [andb].
  - destruct (Z.eqb_spec (offset e) verified_offset); [tauto|].
    destruct (Z.eqb_spec (offset e) new_offset); [tauto|]. rewrite andb_false_r.
    destruct (classify _ _ _); [done|lia|lia].
  - rewrite andb_false_r. cbn [andb]. destruct (classify _ _ _); [done|lia|lia].
Qed.

Lemma scan_step_rank st i e :
  match scan_step st i e with
  | inl c => rank e = 0%nat /\ c = {| slot := Some i; replaces := true; verified := true |}
  | inr st' => (1 <= rank e <= 6)%nat /\ forall r, tracker st' r =
      if (r =? rank e)%nat then
        (if (5 <=? r)%nat then keep_oldest bucket (tracker st r) e i else keep_first (tracker st r) i)
      else tracker st r
  end.
Proof.
  unfold scan_step, rank.
  repeat (case_match; try discriminate); simplify_eq; try naive_solver;
    (split; [lia|]; intros r; do 7 (destruct r as [|r]; [reflexivity|]); reflexivity).
Qed.

Lemma precedes_trans i e j e' k e'' :
  precedes i e j e' -> precedes j e' k e'' -> precedes i e k e''.
Proof. unfold precedes. lia. Qed.

(** Extending the scanned prefix by slot [n], of the given rank. *)
Lemma tracker_extend x n e r :
  bucket !! n = Some e -> rank e = r ->
  match x with
  | None => forall j e', (j < n)%nat -> bucket !! j = Some e' -> rank e' = r -> False
  | Some i => (i < n)%nat /\ exists e0, bucket !! i = Some e0 /\ rank e0 = r /\
      forall j e', (j < n)%nat -> bucket !! j = Some e' -> rank e' = r -> precedes i e0 j e'
  end ->
  exists i, (if (5 <=? r)%nat then keep_oldest bucket x e n else keep_first x n) = Some i /\
  (i < S n)%nat /\ exists e0, bucket !! i = Some e0 /\ rank e0 = r /\
      forall j e', (j < S n)%nat -> bucket !! j = Some e' -> rank e' = r -> precedes i e0 j e'.
Proof.
  intros Hn Hr Hx. destruct x as [i|].
  - destruct Hx as (Hi & e0 & E0 & R0 & Hmin).
    assert (age e0 = if (5 <=? r)%nat then offset e0 else 0) as A0 by (unfold age; now rewrite R0).
    assert (age e = if (5 <=? r)%nat then offset e else 0) as A1 by (unfold age; now rewrite Hr).
    cbn [keep_oldest keep_first]. unfold slot_offset. rewrite E0.
    destruct (Nat.leb_spec 5 r); [destruct (Z.ltb_spec (offset e) (offset e0))|].
    + exists n. split; [done|]. split; [lia|]. exists e. repeat split; try done.
      intros j e' Hj Hj' Re'. destruct (decide (j = n)) as [->|].
      { rewrite Hn in Hj'. injection Hj' as <-. unfold precedes. lia. }
      apply (precedes_trans n e i e0); [unfold precedes; lia|]. apply Hmin; [lia|done..].
    + exists i. split; [done|]. split; [lia|]. exists e0. repeat split; try done.
      intros j e' Hj Hj' Re'. destruct (decide (j = n)) as [->|]; [|apply Hmin; [lia|done..]].
      rewrite Hn in Hj'. injection Hj' as <-. unfold precedes. lia.
    + exists i. split; [done|]. split; [lia|]. exists e0. repeat split; try done.
      intros j e' Hj Hj' Re'. destruct (decide (j = n)) as [->|]; [|apply Hmin; [lia|done..]].
      rewrite Hn in Hj'. injection Hj' as <-. unfold precedes. lia.
  - exists n. split; [now destruct (5 <=? r)%nat|]. split; [lia|]. exists e. repeat split; try done.
    intros j e' Hj Hj' Re'. destruct (decide (j = n)) as [->|].
    + rewrite Hn in Hj'. injection Hj' as <-. unfold precedes. lia.
    + exfalso. apply (Hx j e'); [lia|done..].
Qed.

Lemma scan_step_inv st n e st' :
  bucket !! n = Some e -> scan_step st n e = inr st' -> scan_inv st n -> scan_inv st' (S n).
Proof.
  intros Hn Hs [H0 Hinv]. pose proof (scan_step_rank st n e) as HR. rewrite Hs in HR.
  destruct HR as [Hr Ht]. split.
  { intros j e' Hj Hj'. destruct (decide (j = n)) as [->|]; [|apply (H0 j); [lia|done]].
    rewrite Hn in Hj'. injection Hj' as <-. lia. }
  intros r. rewrite Ht. specialize (Hinv r). destruct (Nat.eqb_spec r (rank e)) as [->|Hne].
  - destruct (tracker_extend (tracker st (rank e)) n e (rank e) Hn eq_refl) as (i & -> & Hi).
    + destruct (tracker st (rank e)); [done|]. intros j e' Hj Hj' Re'.
      specialize (Hinv j e' Hj Hj' Re'). lia.
    + exact Hi.
  - destruct (tracker st r) as [i|].
    + destruct Hinv as (Hi & e0 & E0 & R0 & Hmin). split; [lia|]. exists e0. repeat split; try done.
      intros j e' Hj Hj' Re'. destruct (decide (j = n)) as [->|]; [|apply Hmin; [lia|done..]].
      rewrite Hn in Hj'. injection Hj' as <-. congruence.
    + intros j e' Hj Hj' Re'. destruct (decide (j = n)) as [->|]; [|apply (Hinv j e'); [lia|done..]].
      rewrite Hn in Hj'. injection Hj' as <-. congruence.
Qed.

Lemma scan_from_spec rest n st :
  drop n bucket = rest -> scan_inv st n ->
  match scan_from rest n st with
  | inl c => exists i e, c = {| slot := Some i; replaces := true; verified := true |} /\
      rank e = 0%nat /\ first_choice i e
  | inr st' => scan_inv st' (length bucket)
  end.
Proof.
  revert n st. induction rest as [|e rest IH]; intros n st Hd Hinv; cbn [scan_from].
  - assert (length bucket <= n)%nat as Hlen.
    { apply (f_equal length) in Hd. rewrite length_drop in Hd. cbn in Hd. lia. }
    destruct Hinv as [H0 Hinv]. split.
    + intros j e Hj Hj'. apply (H0 j e); [lia|done].
    + intros r. specialize (Hinv r). destruct (tracker st r) as [i|].
      * destruct Hinv as (Hi & e0 & E0 & R0 & Hmin). split; [now apply lookup_lt_Some in E0|].
        exists e0. repeat split; try done. intros j e' Hj. apply Hmin. lia.
      * intros j e Hj. apply Hinv. lia.
  - assert (bucket !! n = Some e) as Hn.
    { rewrite <- (Nat.add_0_r n), <- lookup_drop, Hd. done. }
    pose proof (scan_step_rank st n e) as HR. destruct (scan_step st n e) as [c|st'] eqn:Es.
    + destruct HR as [R0 ->]. exists n, e. repeat split; try done.
      intros j e' Hj. destruct Hinv as [H0 _]. unfold precedes.
      destruct (Nat.lt_ge_cases j n) as [Hlt|Hge].
      * pose proof (H0 j e' Hlt Hj). lia.
      * destruct (decide (rank e' = 0%nat)); [|lia]. right. split; [lia|].
        right. split; [unfold age; now rewrite R0, e0|lia].
    + apply IH; [|now apply (scan_step_inv st n e)].
      replace (S n) with (n + 1)%nat by lia. now rewrite <- drop_drop, Hd.
Qed.

Lemma scan0_inv : scan_inv scan0 0.
Proof. split; [lia|]. intros r. do 7 (destruct r as [|r]; [cbn; lia|]). cbn; lia. Qed.

(** The slot found in [tracker st r], when the lower ranks are absent. *)
Lemma tracker_first_choice st r i :
  scan_inv st (length bucket) -> tracker st r = Some i ->
  (forall r', (1 <= r' < r)%nat -> tracker st r' = None) ->
  exists e, rank e = r /\ first_choice i e.
Proof.
  intros [H0 Hinv] Hr Hlow. pose proof (Hinv r) as Hi. rewrite Hr in Hi.
  destruct Hi as (_ & e & E & R & Hmin). exists e. split; [done|]. split; [done|].
  intros j e' Hj. pose proof (lookup_lt_Some _ _ _ Hj) as Hlt.
  destruct (Nat.lt_trichotomy (rank e') r) as [Hl|[Heq|Hg]].
  - exfalso. pose proof (H0 j e' Hlt Hj). pose proof (Hinv (rank e')) as Hn.
    pose proof (rank_range e'). rewrite (Hlow (rank e')) in Hn by lia.
    pose proof (Hn j e' Hlt Hj eq_refl). lia.
  - now apply Hmin.
  - unfold precedes. lia.
Qed.

Lemma choose_insert_slot_spec :
  match choose_insert_slot with
  | ({| slot := Some i; replaces := rp; verified := vf |}, coll, full) =>
      exists e, first_choice i e /\ rp = negb (rank e =? 2)%nat /\ vf = (rank e =? 0)%nat /\
        coll = (rank e =? 4)%nat /\ full = (5 <=? rank e)%nat
  | ({| slot := None; replaces := rp; verified := vf |}, coll, full) =>
      bucket = [] /\ rp = false /\ vf = false /\ coll = false /\ full = false
  end.
Proof.
  unfold choose_insert_slot. pose proof (scan_from_spec bucket 0 scan0 (drop_0 _) scan0_inv) as Hs.
  destruct (scan_from bucket 0 scan0) as [c|st].
  { destruct Hs as (i & e & -> & R & Hf). exists e. now rewrite R. }
  assert (forall r i, tracker st r = Some i -> (forall r', (1 <= r' < r)%nat -> tracker st r' = None) ->
    exists e, rank e = r /\ first_choice i e) as Hpick.
  { intros r i. now apply tracker_first_choice. }
  destruct (same_spot st) as [i|] eqn:E1.
  { destruct (Hpick 1%nat i E1) as (e & R & Hf); [lia|]. exists e. now rewrite R. }
  destruct (first_empty st) as [i|] eqn:E2.
  { destruct (Hpick 2%nat i E2) as (e & R & Hf); [|exists e; now rewrite R].
    intros r Hr. assert (r = 1)%nat as -> by lia. done. }
  destruct (first_inadmissible st) as [i|] eqn:E3.
  { destruct (Hpick 3%nat i E3) as (e & R & Hf); [|exists e; now rewrite R].
    intros r Hr. assert (r = 1 \/ r = 2)%nat as [-> | ->] by lia; done. }
  destruct (first_collider st) as [i|] eqn:E4.
  { destruct (Hpick 4%nat i E4) as (e & R & Hf); [|exists e; now rewrite R].
    intros r Hr. assert (r = 1 \/ r = 2 \/ r = 3)%nat as [-> |[-> | ->]] by lia; done. }
  assert (forall r, (1 <= r < 5)%nat -> tracker st r = None) as Hlow.
  { intros r Hr. assert (r = 1 \/ r = 2 \/ r = 3 \/ r = 4)%nat as [-> |[-> |[-> | ->]]] by lia; done. }
  destruct (oldest_retained st) as [i|] eqn:E5.
  { destruct (Hpick 5%nat i E5 Hlow) as (e & R & Hf). exists e. now rewrite R. }
  destruct (oldest_current st) as [i|] eqn:E6.
  { destruct (Hpick 6%nat i E6) as (e & R & Hf); [|exists e; now rewrite R].
    intros r Hr. destruct (decide (r = 5%nat)) as [->|]; [done|]. apply Hlow. lia. }
  cbn. repeat split; try done. destruct bucket as [|e l] eqn:Eb; [done|]. exfalso.
  destruct Hs as [H0 Hinv]. specialize (H0 0%nat e ltac:(cbn; lia)). rewrite Eb in H0.
  specialize (H0 eq_refl). pose proof (rank_range e). specialize (Hinv (rank e)).
  assert (tracker st (rank e) = None) as E.
  { destruct (decide (rank e = 5)%nat) as [-> |]; [done|]. destruct (decide (rank e = 6)%nat) as [-> |]; [done|].
    apply Hlow. lia. }
  rewrite E, Eb in Hinv. specialize (Hinv 0%nat e ltac:(cbn; lia) eq_refl eq_refl). lia.
Qed.

(** The entry the writer verified; an entry published since its probe. *)
Definition is_verified (e : DirEntry) : bool :=
  negb (is_empty e) && (tag e =? key_tag) && (offset e =? verified_offset).
Definition is_unseen (seen : list Z) (e : DirEntry) : bool :=
  negb (is_empty e) && (tag e =? key_tag) && negb (offset e =? verified_offset) &&
  negb (negb (new_offset =? 0) && (offset e =? new_offset)) &&
  negb (bool_decide (classify adm (offset e) (phase e) = kReject)) &&
  negb (existsb (fun off => off =? offset e) seen).

Lemma view_scan_ref l seen found :
  view_scan l seen found = (found || existsb is_verified l) && negb (existsb (is_unseen seen) l).
Proof.
  revert found. induction l as [|e l IH]; intros found; cbn [view_scan existsb].
  { now rewrite orb_false_r, andb_true_r. }
  rewrite !IH. unfold is_verified, is_unseen.
  destruct (is_empty e); [done|]. destruct (tag e =? key_tag); [|done].
  destruct (offset e =? verified_offset); [cbn; now rewrite orb_true_r|].
  destruct (negb (new_offset =? 0) && (offset e =? new_offset)); [done|].
  destruct (bool_decide _); [done|]. destruct (existsb _ seen); [done|].
  cbn. now rewrite andb_false_r.
Qed.
End chooser.

(** ** The directory *)

Record Directory := {
  num_buckets : nat;
  entries : list DirEntry;      (* num_buckets * kEntriesPerBucket *)
  versions : list Z;            (* uint32_t each; odd: a writer is active *)
  count : Z;                    (* size_t *)
  current_phase : bool;
}.

Definition new_directory (n : nat) : Directory := {|
  num_buckets := n; entries := replicate (n * kEntriesPerBucket) empty_entry;
  versions := replicate n 0; count := 0; current_phase := false |}.

Definition clear_all (d : Directory) : Directory := {|
  num_buckets := num_buckets d; entries := map clear (entries d); versions := versions d;
  count := 0; current_phase := current_phase d |}.

Definition set_entries (d : Directory) (l : list DirEntry) : Directory := {|
  num_buckets := num_buckets d; entries := l; versions := versions d;
  count := count d; current_phase := current_phase d |}.
Definition set_count (d : Directory) (c : Z) : Directory := {|
  num_buckets := num_buckets d; entries := entries d; versions := versions d;
  count := c; current_phase := current_phase d |}.
Definition set_current_phase (d : Directory) (p : bool) : Directory := {|
  num_buckets := num_buckets d; entries := entries d; versions := versions d;
  count := count d; current_phase := p |}.
Definition toggle_phase (d : Directory) : Directory := set_current_phase d (negb (current_phase d)).

(** [fetch_add(1)] on a bucket's 32-bit version. *)
Definition bump_version (d : Directory) (b : nat) : Directory := {|
  num_buckets := num_buckets d; entries := entries d;
  versions := alter (fun v => u32 (v + 1)) b (versions d);
  count := count d; current_phase := current_phase d |}.
Definition begin_bucket_write := bump_version.
Definition end_bucket_write := bump_version.

Definition count_add (d : Directory) (n : Z) : Directory := set_count d (u64 (count d + n)).
Definition count_sub (d : Directory) (n : Z) : Directory := set_count d (u64 (count d - n)).

Definition bucket_index (d : Directory) (k : CacheKey) : nat :=
  Z.to_nat (bucket_hash k mod Z.of_nat (num_buckets d)).

Definition bucket_of (d : Directory) (b : nat) : list DirEntry :=
  subspan (entries d) (b * kEntriesPerBucket) kEntriesPerBucket.

(** The stores into the slots of one bucket. *)
Definition store_bucket (d : Directory) (b : nat) (l : list DirEntry) : Directory :=
  set_entries d (write_at (entries d) (b * kEntriesPerBucket) l).

Definition capacity (d : Directory) : nat := length (entries d).
Definition bucket_version (d : Directory) (k : CacheKey) : Z :=
  if (num_buckets d =? 0)%nat then 0 else nth (bucket_index d k) (versions d) 0.

(** In-place update of an entry that keeps its tag and flags. *)
Definition update_entry (e : DirEntry) (off sz : Z) (serial : Z) (cur_phase : bool) : DirEntry :=
  set_phase (set_fill_serial (set_approx_size (set_offset e off) sz) serial) cur_phase.

(** The six stores that fill a slot; on a fresh [DirEntry] they build a
    complete entry. *)
Definition fill_entry (e : DirEntry) (off sz : Z) (serial key_tag : Z) (cur_phase : bool) : DirEntry :=
  set_head (set_phase (set_tag (set_fill_serial (set_approx_size (set_offset e off) sz) serial)
    key_tag) cur_phase) true.

(** The uniqueness cleanup: the other same-tag entries at the offset just
    written or at a listed offset are cleared; returns how many. *)
Fixpoint cleanup (bucket : list DirEntry) (i slot : nat) (key_tag off : Z) (clear_offsets : list Z)
  : list DirEntry * Z :=
  match bucket with
  | [] => ([], 0)
  | e :: rest =>
      let (rest', n) := cleanup rest (S i) slot key_tag off clear_offsets in
      if (i =? slot)%nat || is_empty e || negb (tag e =? key_tag) then (e :: rest', n)
      else if offset e =? off then (clear e :: rest', 1 + n)
      else if existsb (fun o => offset e =? o) clear_offsets then (clear e :: rest', 1 + n)
      else (e :: rest', n)
  end.

(** What [insert] returns and reports through its pointers. *)
Record InsertResult (A : Type) := {
  ir_ok : bool; ir_stale : bool; ir_collision_evicted : bool; ir_bucket_full_evicted : bool;
  ir_adm : A; ir_dir : Directory }.
Arguments Build_InsertResult {A} _ _ _ _ _ _.
Arguments ir_ok {A} _. Arguments ir_stale {A} _. Arguments ir_collision_evicted {A} _.
Arguments ir_bucket_full_evicted {A} _. Arguments ir_adm {A} _. Arguments ir_dir {A} _.

Section insert_admitted.
Context {A : Type} `{AI : InsertAdmission A}.

(** [insert] with an admission; [view] is the optional [PublishView]. *)
Definition insert_admitted (d : Directory) (key : CacheKey) (off sz verified_offset : Z) (adm : A)
    (clear_offsets : list Z) (view : option (list Z)) (serial : Z) : InsertResult A :=
  let b := bucket_index d key in
  let key_tag := Key.tag key in
  let cur_phase := current_phase d in
  let bucket := bucket_of d b in
  let adm := refresh adm in
  let current := match view with
    | None => true
    | Some seen => publish_view_is_current adm bucket key_tag verified_offset off seen
    end in
  if negb current then Build_InsertResult false true false false adm d
  else
    let '(choice, coll, full) := choose_insert_slot adm bucket key_tag verified_offset off in
    match slot choice with
    | None => Build_InsertResult false false coll full adm d
    | Some i =>
        let d := begin_bucket_write d b in
        let e := if verified choice
                 then update_entry (nth i bucket empty_entry) off sz serial cur_phase
                 else fill_entry empty_entry off sz serial key_tag cur_phase in
        let bucket := <[i := e]> bucket in
        let (bucket, cleared) := cleanup bucket 0 i key_tag off clear_offsets in
        let d := store_bucket d b bucket in
        let d := end_bucket_write d b in
        let d := if negb (replaces choice) then count_add d 1 else d in
        let d := if negb (cleared =? 0) then count_sub d cleared else d in
        Build_InsertResult true false coll full adm d
    end.
End insert_admitted.

(** *** The insert without an admission *)

Record LegacyScan := {
  ls_empty : option nat; ls_stale : option nat; ls_collider : option nat;
  ls_nearest : option (nat * Z); ls_target : option nat }.

Fixpoint legacy_scan (bucket : list DirEntry) (i : nat) (key_tag verified_offset : Z)
    (cur_phase : bool) (st : LegacyScan) : LegacyScan :=
  match bucket with
  | [] => st
  | e :: rest =>
      let continue := legacy_scan rest (S i) key_tag verified_offset cur_phase in
      if is_empty e then
        continue {| ls_empty := keep_first (ls_empty st) i; ls_stale := ls_stale st;
          ls_collider := ls_collider st; ls_nearest := ls_nearest st; ls_target := ls_target st |}
      else
        let nearest := match ls_nearest st with
          | None => Some (i, offset e)
          | Some (k, o) => if offset e <? o then Some (i, offset e) else Some (k, o)
          end in
        if (tag e =? key_tag) && Bool.eqb (phase e) cur_phase then
          if (verified_offset =? kMatchAnyTag) || (offset e =? verified_offset) then
            {| ls_empty := ls_empty st; ls_stale := ls_stale st; ls_collider := ls_collider st;
               ls_nearest := nearest; ls_target := Some i |}
          else
            continue {| ls_empty := ls_empty st; ls_stale := ls_stale st;
              ls_collider := keep_first (ls_collider st) i; ls_nearest := nearest;
              ls_target := ls_target st |}
        else
          continue {| ls_empty := ls_empty st;
            ls_stale := if negb (Bool.eqb (phase e) cur_phase) then keep_first (ls_stale st) i
                        else ls_stale st;
            ls_collider := ls_collider st; ls_nearest := nearest; ls_target := ls_target st |}
  end.

(** Rewrite slot [i] of bucket [b] inside one odd-to-even bracket. *)
Definition rewrite_slot (d : Directory) (b i : nat) (f : DirEntry -> DirEntry) : Directory :=
  end_bucket_write (store_bucket (begin_bucket_write d b) b (alter f i (bucket_of d b))) b.

Definition insert_legacy (d : Directory) (key : CacheKey) (off sz verified_offset serial : Z)
  : InsertResult unit :=
  let b := bucket_index d key in
  let key_tag := Key.tag key in
  let cur_phase := current_phase d in
  let st := legacy_scan (bucket_of d b) 0 key_tag verified_offset cur_phase
    {| ls_empty := None; ls_stale := None; ls_collider := None; ls_nearest := None;
       ls_target := None |} in
  let fill := fun e => fill_entry e off sz serial key_tag cur_phase in
  match ls_target st with
  | Some i => Build_InsertResult true false false false tt
      (rewrite_slot d b i (fun e => update_entry e off sz serial cur_phase))
  | None =>
  match ls_empty st with
  | Some i => Build_InsertResult true false false false tt (count_add (rewrite_slot d b i fill) 1)
  | None =>
  match ls_stale st with
  | Some i => Build_InsertResult true false false false tt (rewrite_slot d b i fill)
  | None =>
  match ls_collider st with
  | Some i => Build_InsertResult true false true false tt (rewrite_slot d b i fill)
  | None =>
  match ls_nearest st with
  | Some (i, _) => Build_InsertResult true false false true tt
      (rewrite_slot d b i (fun _ => fill empty_entry))
  | None => Build_InsertResult false false false false tt d
  end end end end end.

(** ** Removal *)

(** [remove]: the first entry with the tag. *)
Definition remove (d : Directory) (key : CacheKey) : bool * Directory :=
  let b := bucket_index d key in
  match list_find (fun e => negb (is_empty e) && (tag e =? Key.tag key) = true) (bucket_of d b) with
  | Some (i, _) => (true, count_sub (rewrite_slot d b i clear) 1)
  | None => (false, d)
  end.

Fixpoint clear_at (bucket : list DirEntry) (key_tag target_offset : Z) : list DirEntry * Z :=
  match bucket with
  | [] => ([], 0)
  | e :: rest =>
      let (rest', n) := clear_at rest key_tag target_offset in
      if negb (is_empty e) && (tag e =? key_tag) && (offset e =? target_offset)
      then (clear e :: rest', 1 + n) else (e :: rest', n)
  end.

(** [remove_at]: every entry with the tag at the offset. *)
Definition remove_at (d : Directory) (key : CacheKey) (target_offset : Z) : bool * Directory :=
  let b := bucket_index d key in
  let (bucket, removed) := clear_at (bucket_of d b) (Key.tag key) target_offset in
  if negb (removed =? 0) then
    (true, count_sub (end_bucket_write (store_bucket (begin_bucket_write d b) b bucket) b) removed)
  else (false, d).

(** ** Probes of a quiescent directory (Seqlock.v has the concurrent one) *)

Definition probe_matches (filter_phase : bool) (d : Directory) (key : CacheKey) : list DirEntry :=
  filter (fun e => negb (is_empty e) && (negb filter_phase || Bool.eqb (phase e) (current_phase d))
                   && (tag e =? Key.tag key) = true)
    (bucket_of d (bucket_index d key)).

(** ** Images *)

Definition entry_bytes (e : DirEntry) : list Z :=
  le_bytes 2 (w0 e) ++ le_bytes 2 (w1 e) ++ le_bytes 2 (w2 e) ++ le_bytes 2 (w3 e) ++ le_bytes 2 (w4 e).
Definition entry_of_bytes (l : list Z) : DirEntry := {|
  w0 := le_val (subspan l 0 2); w1 := le_val (subspan l 2 2); w2 := le_val (subspan l 4 2);
  w3 := le_val (subspan l 6 2); w4 := le_val (subspan l 8 2) |}.

(** The entries' bytes, as the little-endian host lays them out. *)
Definition serialize (d : Directory) : list Z := concat (map entry_bytes (entries d)).

Fixpoint entries_of_bytes (n : nat) (data : list Z) : list DirEntry :=
  match n with
  | O => []
  | S n => entry_of_bytes (take kSize data) :: entries_of_bytes n (drop kSize data)
  end.

Definition occupied (l : list DirEntry) : nat := length (filter (fun e => is_empty e = false) l).

Definition deserialize (d : Directory) (data : list Z) : Directory :=
  let entry_count := (length data / kSize)%nat in
  let entry_count := if (length (entries d) <? entry_count)%nat then length (entries d) else entry_count in
  let l := write_at (entries d) 0 (entries_of_bytes entry_count data) in
  set_count (set_entries d l) (Z.of_nat (occupied l)).

(** ** Entries written by the directory *)

Lemma update_entry_ok e off sz s p :
  entry_ok e -> fits 16 s -> entry_ok (update_entry e off sz s p).
Proof. unfold update_entry. auto 10 with cyc. Qed.

Lemma fill_entry_ok e off sz s t p :
  entry_ok e -> fits 16 s -> entry_ok (fill_entry e off sz s t p).
Proof. unfold fill_entry. auto 10 with cyc. Qed.

Lemma update_entry_view e off sz s p :
  entry_ok e -> fits 16 s -> fits 40 off ->
  let e' := update_entry e off sz s p in
  offset e' = off /\ tag e' = tag e /\ phase e' = p /\ DirEntry.fill_serial e' = s /\ head e' = head e /\
  pinned e' = pinned e.
Proof.
  intros He Hs Ho. unfold update_entry. cbv zeta.
  destruct (view_set_approx_size (set_offset e off) sz) as (b & z & V); [auto with cyc|].
  assert (view (set_phase (set_fill_serial (set_approx_size (set_offset e off) sz) s) p)
    = with_phase (with_fill_serial (with_size (with_big (with_offset (view e) off) b) z) s) p) as E.
  { rewrite view_set_phase by auto 10 with cyc. rewrite view_set_fill_serial, V, view_set_offset
      by (done || unfold fits in Ho; lia). rewrite Z.mod_small by exact Ho. done. }
  exact (conj (f_equal v_offset E) (conj (f_equal v_tag E) (conj (f_equal v_phase E)
    (conj (f_equal v_fill_serial E) (conj (f_equal v_head E) (f_equal v_pinned E)))))).
Qed.

Lemma fill_entry_view e off sz s t p :
  entry_ok e -> fits 16 s -> fits 40 off -> 0 <= t < 4096 ->
  let e' := fill_entry e off sz s t p in
  offset e' = off /\ tag e' = t /\ phase e' = p /\ DirEntry.fill_serial e' = s /\ head e' = true.
Proof.
  intros He Hs Ho Ht. unfold fill_entry. cbv zeta.
  destruct (view_set_approx_size (set_offset e off) sz) as (b & z & V); [auto with cyc|].
  assert (view (set_head (set_phase (set_tag (set_fill_serial (set_approx_size (set_offset e off) sz) s) t) p) true)
    = with_head (with_phase (with_tag (with_fill_serial (with_size (with_big (with_offset (view e) off) b) z) s)
        t) p) true) as E.
  { rewrite view_set_head, view_set_phase, view_set_tag by auto 10 with cyc.
    rewrite view_set_fill_serial, V, view_set_offset by (done || unfold fits in Ho; lia).
    rewrite Z.mod_small by exact Ho. change 0x0FFF with (Z.ones 12). rewrite Z.land_ones by lia.
    now rewrite (Z.mod_small t) by lia. }
  exact (conj (f_equal v_offset E) (conj (f_equal v_tag E) (conj (f_equal v_phase E)
    (conj (f_equal v_fill_serial E) (f_equal v_head E))))).
Qed.

(** ** The invariant *)

Record dir_ok (d : Directory) : Prop := {
  do_pos : (0 < num_buckets d)%nat;
  do_cap : Z.of_nat (num_buckets d * kEntriesPerBucket) < 2 ^ 64;
  do_len : length (entries d) = (num_buckets d * kEntriesPerBucket)%nat;
  do_entries : Forall entry_ok (entries d);
  do_vlen : length (versions d) = num_buckets d;
  do_even : Forall (fun v => fits 32 v /\ Z.Even v) (versions d);
  do_count : count d = Z.of_nat (occupied (entries d));
}.

Lemma occupied_app a b : occupied (a ++ b) = (occupied a + occupied b)%nat.
Proof. unfold occupied. now rewrite filter_app, length_app. Qed.

Lemma occupied_cons e l : occupied (e :: l) = ((if is_empty e then 0 else 1) + occupied l)%nat.
Proof. unfold occupied. rewrite filter_cons. now destruct (is_empty e). Qed.

Lemma occupied_le l : (occupied l <= length l)%nat.
Proof. unfold occupied. apply length_filter. Qed.

Lemma occupied_insert l i e e' :
  l !! i = Some e ->
  Z.of_nat (occupied (<[i := e']> l)) =
  Z.of_nat (occupied l) + (if is_empty e' then 0 else 1) - (if is_empty e then 0 else 1).
Proof.
  intros Hi. rewrite <- (take_drop_middle l i e Hi) at 2.
  rewrite insert_take_drop by now apply lookup_lt_Some in Hi.
  rewrite !occupied_app, !occupied_cons. destruct (is_empty e), (is_empty e'); lia.
Qed.

Lemma bump_twice_even v : 
  fits 32 v /\ Z.Even v ->
  fits 32 (u32 (u32 (v + 1) + 1)) /\ Z.Even (u32 (u32 (v + 1) + 1)).
Proof.
  intros [Hf [k ->]]. split; [apply wrap_fits; lia|]. unfold u32, wrap. rewrite Zplus_mod_idemp_l.
  exists ((k + 1) mod 2 ^ 31). rewrite <- Z.mul_mod_distr_l by lia. f_equal. lia.
Qed.

Section stored_bucket.
Context (d : Directory) (Hd : dir_ok d) (b : nat) (Hb : (b < num_buckets d)%nat).

Lemma bucket_bound : (b * kEntriesPerBucket + kEntriesPerBucket <= length (entries d))%nat.
Proof using Hd Hb. rewrite do_len by done. unfold kEntriesPerBucket. lia. Qed.

Lemma length_bucket_of : length (bucket_of d b) = kEntriesPerBucket.
Proof using Hd Hb.
  pose proof bucket_bound. unfold bucket_of, subspan. rewrite length_take, length_drop. lia.
Qed.

Lemma bucket_of_ok : Forall entry_ok (bucket_of d b).
Proof using Hd. unfold bucket_of, subspan. apply Forall_take, Forall_drop, Hd. Qed.

Lemma entries_split :
  entries d = take (b * kEntriesPerBucket) (entries d) ++ bucket_of d b
              ++ drop (b * kEntriesPerBucket + kEntriesPerBucket) (entries d).
Proof.
  unfold bucket_of, subspan. rewrite <- (take_drop (b * kEntriesPerBucket) (entries d)) at 1. f_equal.
  rewrite <- (take_drop kEntriesPerBucket (drop (b * kEntriesPerBucket) (entries d))) at 1.
  f_equal. now rewrite drop_drop.
Qed.

(** A write to bucket [b] inside one bracket, with a new count. *)
Definition commit_bucket (l : list DirEntry) (c : Z) : Directory := {|
  num_buckets := num_buckets d;
  entries := write_at (entries d) (b * kEntriesPerBucket) l;
  versions := alter (fun v => u32 (v + 1)) b (alter (fun v => u32 (v + 1)) b (versions d));
  count := c; current_phase := current_phase d |}.

Lemma commit_bucket_occupied l :
  length l = kEntriesPerBucket ->
  Z.of_nat (occupied (write_at (entries d) (b * kEntriesPerBucket) l)) =
  count d + Z.of_nat (occupied l) - Z.of_nat (occupied (bucket_of d b)).
Proof using Hd Hb.
  intros Hl. rewrite do_count by done. rewrite entries_split at 2. unfold write_at. rewrite Hl.
  rewrite !occupied_app. lia.
Qed.

Lemma commit_bucket_ok l c :
  length l = kEntriesPerBucket -> Forall entry_ok l ->
  c = u64 (count d + Z.of_nat (occupied l) - Z.of_nat (occupied (bucket_of d b))) ->
  dir_ok (commit_bucket l c).
Proof using Hd Hb.
  intros Hl He ->. pose proof bucket_bound as HB. pose proof (commit_bucket_occupied l Hl) as Ho.
  assert (length (write_at (entries d) (b * kEntriesPerBucket) l) = length (entries d)) as Hlen
    by (apply length_write_at; lia).
  pose proof (occupied_le (write_at (entries d) (b * kEntriesPerBucket) l)) as Hle.
  split; unfold commit_bucket; cbn [num_buckets entries versions count]; try apply Hd.
  - rewrite Hlen. apply Hd.
  - unfold write_at. rewrite !Forall_app. split; [apply Forall_take, Hd|].
    split; [done|apply Forall_drop, Hd].
  - rewrite !length_alter. apply Hd.
  - apply Forall_lookup. intros j v.
    pose proof (do_even d Hd) as Hev. rewrite Forall_lookup in Hev.
    destruct (decide (b = j)) as [<-|Hne]; [|rewrite !list_lookup_alter_ne by done; apply Hev].
    rewrite !list_lookup_alter_eq. destruct (versions d !! b) as [v0|] eqn:E; cbn; intros [= <-].
    apply bump_twice_even, (Hev b), E.
  - rewrite Ho in *. apply wrap_small. pose proof (do_cap d Hd). pose proof (do_len d Hd).
    unfold fits. lia.
Qed.

(** Bucket [b] after the write, and every other one. *)
Lemma commit_bucket_same l c : length l = kEntriesPerBucket -> bucket_of (commit_bucket l c) b = l.
Proof using Hd Hb.
  intros Hl. pose proof bucket_bound. unfold bucket_of, subspan, commit_bucket.
  cbn [entries]. unfold write_at. rewrite drop_app_length' by (rewrite length_take; lia).
  now apply take_app_length'.
Qed.

Lemma commit_bucket_other l c b' :
  length l = kEntriesPerBucket -> b' <> b -> bucket_of (commit_bucket l c) b' = bucket_of d b'.
Proof using Hd Hb.
  intros Hl Hne. pose proof bucket_bound as HB. apply list_eq. intros i.
  unfold bucket_of, subspan, commit_bucket. cbn [entries]. destruct (Nat.lt_ge_cases i kEntriesPerBucket) as [Hi|Hi].
  2: { rewrite !lookup_take_ge by lia. done. }
  rewrite !lookup_take_lt, !lookup_drop by lia. unfold write_at, kEntriesPerBucket in *.
  destruct (Nat.lt_ge_cases b' b).
  - rewrite lookup_app_l by (rewrite length_take; lia). apply lookup_take_lt. lia.
  - rewrite lookup_app_r, length_take by (rewrite length_take; lia).
    rewrite lookup_app_r by lia. rewrite lookup_drop. f_equal. lia.
Qed.
End stored_bucket.

(** ** The loops that clear entries *)

Definition dead (slot : nat) (key_tag off : Z) (clear_offsets : list Z) (j : nat) (e : DirEntry) : bool :=
  negb ((j =? slot)%nat || is_empty e || negb (tag e =? key_tag)) &&
  ((offset e =? off) || existsb (fun o => offset e =? o) clear_offsets).

Lemma dead_true slot t off cl j e :
  dead slot t off cl j e = true <->
  j <> slot /\ is_empty e = false /\ tag e = t /\ (offset e = off \/ offset e ∈ cl).
Proof.
  unfold dead. rewrite andb_true_iff, negb_true_iff, orb_true_iff, !orb_false_iff, negb_false_iff,
    existsb_exists, Nat.eqb_neq, !Z.eqb_eq, list_elem_of_In.
  assert ((exists x, In x cl /\ (offset e =? x) = true) <-> In (offset e) cl) as ->; [|tauto].
  split; [intros (x & Hx & Hq); now apply Z.eqb_eq in Hq as ->|].
  intros Hx. exists (offset e). now rewrite Z.eqb_refl.
Qed.

Lemma is_empty_empty : is_empty empty_entry = true.
Proof. reflexivity. Qed.

Lemma cleanup_spec l i slot t off cl :
  let '(l', n) := cleanup l i slot t off cl in
  l' = imap (fun j e => if dead slot t off cl (i + j) e then empty_entry else e) l /\
  Z.of_nat (occupied l') = Z.of_nat (occupied l) - n /\ 0 <= n.
Proof.
  revert i. induction l as [|e l IH]; intros i; cbn [cleanup imap].
  { split; [done|]. cbn. lia. }
  specialize (IH (S i)). destruct (cleanup l (S i) slot t off cl) as [l' n].
  destruct IH as (-> & Ho & Hn). rewrite Nat.add_0_r.
  set (rest := imap _ l) in *.
  assert (imap ((fun j e => if dead slot t off cl (i + j) e then empty_entry else e) ∘ S) l
    = rest) as ->.
  { apply imap_ext. intros j x _. cbn. now rewrite Nat.add_succ_r. }
  unfold dead.
  destruct ((i =? slot)%nat || is_empty e || negb (tag e =? t)) eqn:E1; cbn [negb andb].
  { split; [done|]. rewrite !occupied_cons. lia. }
  apply orb_false_iff in E1 as [E1 _]. apply orb_false_iff in E1 as [_ E1].
  destruct (offset e =? off); cbn [orb]; [|destruct (existsb _ cl)];
    (split; [done|]); rewrite !occupied_cons, ?E1; unfold clear; rewrite ?is_empty_empty;
    cbv iota; lia.
Qed.

Lemma clear_at_spec l t off :
  let '(l', n) := clear_at l t off in
  l' = map (fun e => if negb (is_empty e) && (tag e =? t) && (offset e =? off)
                     then empty_entry else e) l /\
  Z.of_nat (occupied l') = Z.of_nat (occupied l) - n /\ 0 <= n /\ (n = 0 -> l' = l).
Proof.
  induction l as [|e l IH]; cbn [clear_at map]; [done|].
  destruct (clear_at l t off) as [l' n]. destruct IH as (-> & Ho & Hn & Hz).
  destruct (is_empty e) eqn:E; cbn [negb andb]; [|destruct ((tag e =? t) && (offset e =? off))];
    (split; [done|]); rewrite !occupied_cons, ?E; unfold clear; rewrite ?is_empty_empty; cbv iota;
    (split; [lia|]; split; [lia|]; intros H0; try lia; now rewrite Hz).
Qed.

(** ** Mutators as bucket writes *)

Lemma bucket_index_lt d k : dir_ok d -> (bucket_index d k < num_buckets d)%nat.
Proof.
  intros Hd. unfold bucket_index. pose proof (do_pos d Hd).
  pose proof (Z.mod_pos_bound (bucket_hash k) (Z.of_nat (num_buckets d)) ltac:(lia)). lia.
Qed.

Lemma rewrite_slot_commit d b i f :
  rewrite_slot d b i f = commit_bucket d b (alter f i (bucket_of d b)) (count d).
Proof. done. Qed.

Lemma bracket_commit d b l :
  end_bucket_write (store_bucket (begin_bucket_write d b) b l) b = commit_bucket d b l (count d).
Proof. done. Qed.

Lemma count_add_commit d b l c n : count_add (commit_bucket d b l c) n = commit_bucket d b l (u64 (c + n)).
Proof. done. Qed.
Lemma count_sub_commit d b l c n : count_sub (commit_bucket d b l c) n = commit_bucket d b l (u64 (c - n)).
Proof. done. Qed.

Lemma count_fits d : dir_ok d -> fits 64 (count d).
Proof.
  intros Hd. rewrite do_count by done. pose proof (occupied_le (entries d)) as H.
  rewrite do_len in H by done. pose proof (do_cap d Hd). unfold fits. lia.
Qed.

Lemma alter_insert_lookup (l : list DirEntry) i e f : l !! i = Some e -> alter f i l = <[i := f e]> l.
Proof.
  intros Hi. apply list_eq. intros j. destruct (decide (i = j)) as [<-|Hne].
  - rewrite list_lookup_alter_eq, Hi, list_lookup_insert_eq; [done|now apply lookup_lt_Some in Hi].
  - now rewrite list_lookup_alter_ne, list_lookup_insert_ne by done.
Qed.

(** Rewriting one slot keeps the invariant, with the count moved by the
    change in its occupancy. *)
Lemma commit_slot_ok d b i e e' c :
  dir_ok d -> (b < num_buckets d)%nat -> bucket_of d b !! i = Some e -> entry_ok e' ->
  c = u64 (count d + (if is_empty e' then 0 else 1) - (if is_empty e then 0 else 1)) ->
  dir_ok (commit_bucket d b (<[i := e']> (bucket_of d b)) c).
Proof.
  intros Hd Hb Hi He' ->. apply commit_bucket_ok; try done.
  - rewrite length_insert. now apply length_bucket_of.
  - apply Forall_insert; [now apply bucket_of_ok|done].
  - f_equal. rewrite (occupied_insert _ _ _ _ Hi). lia.
Qed.

Lemma not_empty_iff e : is_empty e = false <-> offset e <> 0.
Proof. unfold is_empty. apply Z.eqb_neq. Qed.

Section insert_theorems.
Context {A : Type} `{AI : InsertAdmission A}.

(** Whether the conditional publish goes through. *)
Definition view_current (d : Directory) (key : CacheKey) (off verified_offset : Z) (adm : A)
    (view : option (list Z)) : bool :=
  match view with
  | None => true
  | Some seen => publish_view_is_current (refresh adm) (bucket_of d (bucket_index d key))
                   (Key.tag key) verified_offset off seen
  end.

(** The entry an insert publishes in a slot that held [e]. *)
Definition published (d : Directory) (key : CacheKey) (off sz verified_offset : Z) (adm : A)
    (serial : Z) (e : DirEntry) : DirEntry :=
  if (rank (refresh adm) (Key.tag key) verified_offset off e =? 0)%nat
  then update_entry e off sz serial (current_phase d)
  else fill_entry empty_entry off sz serial (Key.tag key) (current_phase d).

Lemma published_view d key off sz v adm serial e :
  entry_ok e -> fits 16 serial -> fits 40 off ->
  let e' := published d key off sz v adm serial e in
  entry_ok e' /\ offset e' = off /\ tag e' = Key.tag key /\ phase e' = current_phase d /\
  DirEntry.fill_serial e' = serial.
Proof.
  intros He Hs Ho. unfold published. cbv zeta.
  pose proof (key_tag_fits key) as Ht.
  destruct (rank _ _ _ _ e =? 0)%nat eqn:R.
  - split; [now apply update_entry_ok|].
    destruct (update_entry_view e off sz serial (current_phase d) He Hs Ho) as (-> & -> & -> & -> & _).
    repeat split; try done. apply Nat.eqb_eq in R. unfold rank in R.
    destruct (is_empty e); [done|].
    destruct (Z.eqb_spec (tag e) (Key.tag key)) as [|Hne]; [done|]. cbn [andb] in R.
    rewrite andb_false_r in R. now destruct (classify _ _ _).
  - split; [apply fill_entry_ok; auto with cyc|].
    destruct (fill_entry_view empty_entry off sz serial (Key.tag key) (current_phase d)
      empty_entry_ok Hs Ho Ht) as (-> & -> & -> & -> & _). done.
Qed.

Lemma rank_2_empty adm t v off e : (rank adm t v off e =? 2)%nat = is_empty e.
Proof.
  unfold rank. destruct (is_empty e); [done|]. repeat (case_match; try done).
Qed.

(** The directory after a successful insert into slot [i], which held [e]. *)
Definition inserted (d : Directory) (key : CacheKey) (off sz verified_offset : Z) (adm : A)
    (clear_offsets : list Z) (serial : Z) (i : nat) (e : DirEntry) : list DirEntry :=
  imap (fun j x => if dead i (Key.tag key) off clear_offsets j x then empty_entry else x)
    (<[i := published d key off sz verified_offset adm serial e]> (bucket_of d (bucket_index d key))).

Lemma inserted_ok d key off sz v adm cl serial i e b :
  b = bucket_index d key -> dir_ok d -> fits 40 off -> fits 16 serial -> bucket_of d b !! i = Some e ->
  length (inserted d key off sz v adm cl serial i e) = kEntriesPerBucket /\
  Forall entry_ok (inserted d key off sz v adm cl serial i e).
Proof.
  intros -> Hd Ho Hs Hi. pose proof (bucket_index_lt d key Hd) as Hb.
  pose proof (Forall_lookup_1 _ _ _ _ (bucket_of_ok d Hd _) Hi) as He.
  destruct (published_view d key off sz v adm serial e He Hs Ho) as (Hp & _). unfold inserted. split.
  - rewrite length_imap, length_insert. now apply length_bucket_of.
  - apply Forall_lookup. intros j x. rewrite list_lookup_imap.
    destruct (_ !! j) as [y|] eqn:Ey; cbn; [|done]. intros [= <-].
    destruct (dead _ _ _ _ _ y); [auto with cyc|].
    refine (Forall_lookup_1 _ _ _ _ _ Ey). apply Forall_insert; [now apply bucket_of_ok|done].
Qed.

(** The two counter updates of an insert, as one. *)
Lemma count_updates d b l (was_empty : bool) n :
  fits 64 (count d) -> 0 <= n ->
  let d1 := commit_bucket d b l (count d) in
  let d2 := if was_empty then count_add d1 1 else d1 in
  (if negb (n =? 0) then count_sub d2 n else d2)
  = commit_bucket d b l (u64 (count d + 1 - (if was_empty then 0 else 1) - n)).
Proof.
  intros Hc Hn. cbv zeta.
  assert (forall x y, u64 (u64 x - y) = u64 (x - y)) as Hu by (intros; apply Zminus_mod_idemp_l).
  destruct was_empty, (Z.eqb_spec n 0) as [->|]; cbn [negb];
    rewrite ?count_add_commit, ?count_sub_commit, ?Hu; f_equal; try (f_equal; lia).
  symmetry. rewrite <- (wrap_small 64 (count d)) at 2 by done. unfold u64. f_equal. lia.
Qed.

Lemma insert_admitted_commits d key off sz v adm cl view serial :
  dir_ok d -> 0 < off < 2 ^ 40 -> fits 16 serial ->
  view_current d key off v adm view = true ->
  let r := insert_admitted d key off sz v adm cl view serial in
  let b := bucket_index d key in
  let rk := rank (refresh adm) (Key.tag key) v off in
  exists i e c, first_choice (refresh adm) (bucket_of d b) (Key.tag key) v off i e /\
    r = Build_InsertResult true false (rk e =? 4)%nat (5 <=? rk e)%nat (refresh adm)
          (commit_bucket d b (inserted d key off sz v adm cl serial i e) c) /\
    dir_ok (ir_dir r).
Proof.
  intros Hd Hoff Hs Hv. pose proof (bucket_index_lt d key Hd) as Hb.
  assert (fits 40 off) as Ho by (unfold fits; lia).
  pose proof (choose_insert_slot_spec (refresh adm) (bucket_of d (bucket_index d key)) (Key.tag key) v off) as Hc.
  unfold insert_admitted, view_current in *. cbv zeta. rewrite Hv. cbn [negb].
  destruct (choose_insert_slot _ _ _ _ _) as [[[[i|] rp vf] coll] full].
  2: { destruct Hc as [Hnil _]. pose proof (length_bucket_of d Hd _ Hb) as Hl. now rewrite Hnil in Hl. }
  destruct Hc as (e & Hf & -> & -> & -> & ->). cbn [slot verified replaces].
  pose proof (proj1 Hf) as Hi. rewrite (nth_lookup_Some _ _ _ _ Hi).
  pose proof (Forall_lookup_1 _ _ _ _ (bucket_of_ok d Hd _) Hi) as He.
  destruct (published_view d key off sz v adm serial e He Hs Ho) as (_ & Po & _).
  destruct (inserted_ok d key off sz v adm cl serial i e _ eq_refl Hd Ho Hs Hi) as [Hlen Hok].
  change (if _ =? 0 then _ else fill_entry _ _ _ _ _ _)%nat with (published d key off sz v adm serial e).
  pose proof (cleanup_spec (<[i := published d key off sz v adm serial e]> (bucket_of d (bucket_index d key)))
    0 i (Key.tag key) off cl) as Hcl.
  destruct (cleanup _ 0 i (Key.tag key) off cl) as [l' n]. destruct Hcl as (Hl' & Hocc & Hn).
  change l' with (fst (l', n)) in Hl'. cbn [fst] in Hl'.
  change (imap _ _) with (inserted d key off sz v adm cl serial i e) in Hl'. subst l'.
  assert (is_empty (published d key off sz v adm serial e) = false) as Hne by (apply not_empty_iff; lia).
  rewrite (occupied_insert _ _ _ _ Hi), Hne in Hocc.
  pose proof (commit_bucket_ok d Hd _ Hb _ _ Hlen Hok eq_refl) as Hfin. rewrite Hocc in Hfin.
  rewrite rank_2_empty, negb_involutive.
  rewrite bracket_commit, (count_updates d _ _ (is_empty e) n) by (done || now apply count_fits).
  eexists i, e, _. split; [done|]. split; [done|]. cbn [ir_dir].
  match type of Hfin with dir_ok (commit_bucket _ _ _ (u64 ?x)) =>
    match goal with |- dir_ok (commit_bucket _ _ _ (u64 ?y)) => replace y with x by lia end end.
  exact Hfin.
Qed.
End insert_theorems.

(** ** The insert without admission *)

Definition holds (l : list DirEntry) (empty : bool) (k : nat) : Prop :=
  exists e, l !! k = Some e /\ is_empty e = empty.

(** What the legacy scan's indices point at, after some slots were scanned. *)
Record legacy_inv (l : list DirEntry) (n : nat) (st : LegacyScan) : Prop := {
  li_target k : ls_target st = Some k -> holds l false k;
  li_empty k : ls_empty st = Some k -> holds l true k;
  li_stale k : ls_stale st = Some k -> holds l false k;
  li_collider k : ls_collider st = Some k -> holds l false k;
  li_nearest k o : ls_nearest st = Some (k, o) -> holds l false k;
  li_some : (0 < n)%nat -> ls_empty st <> None \/ ls_nearest st <> None;
}.

Lemma legacy_scan_inv l rest i t v p st :
  drop i l = rest -> legacy_inv l i st ->
  exists n, (length l <= n \/ ls_target (legacy_scan rest i t v p st) <> None)%nat /\
    legacy_inv l n (legacy_scan rest i t v p st).
Proof.
  revert i st. induction rest as [|e rest IH]; intros i st Hd Hinv; cbn [legacy_scan].
  { exists i. split; [left|done]. apply (f_equal length) in Hd. rewrite length_drop in Hd. cbn in Hd. lia. }
  assert (l !! i = Some e) as Hi by (rewrite <- (Nat.add_0_r i), <- lookup_drop, Hd; done).
  assert (drop (S i) l = rest) as Hd'.
  { replace (S i) with (i + 1)%nat by lia. now rewrite <- drop_drop, Hd. }
  assert (forall k x, keep_first x i = Some k -> x = Some k \/ k = i) as Hkf.
  { intros k [y|]; cbn; intros [= <-]; auto. }
  assert (forall k o, match ls_nearest st with
      | None => Some (i, offset e)
      | Some (k, o) => if offset e <? o then Some (i, offset e) else Some (k, o)
      end = Some (k, o) -> ls_nearest st = Some (k, o) \/ k = i) as Hnear.
  { intros k o. destruct (ls_nearest st) as [[? ?]|]; [destruct (offset e <? _)|]; intros [= <- <-]; auto. }
  destruct Hinv as [I1 I2 I3 I4 I5 I6].
  destruct (is_empty e) eqn:Ee.
  { assert (holds l true i) by now exists e. apply IH; [done|].
    split; cbn; eauto; intros; [|left; now destruct (ls_empty st)].
    match goal with H : keep_first _ _ = _ |- _ => destruct (Hkf _ _ H) as [| ->] end; eauto. }
  assert (holds l false i) as Hh by now exists e.
  assert (match ls_nearest st with
      | None => Some (i, offset e)
      | Some (k, o) => if offset e <? o then Some (i, offset e) else Some (k, o)
      end <> None) as Hn0.
  { destruct (ls_nearest st) as [[? ?]|]; [destruct (offset e <? _)|]; done. }
  destruct ((tag e =? t) && Bool.eqb (phase e) p);
    [destruct ((v =? kMatchAnyTag) || (offset e =? v))|].
  - exists (S i). split; [right; done|]. split; cbn; eauto.
    + intros k [= <-]. done.
    + intros k o Hk. destruct (Hnear _ _ Hk) as [| ->]; eauto.
  - apply IH; [done|]. split; cbn; eauto.
    + intros k Hk. destruct (Hkf _ _ Hk) as [| ->]; eauto.
    + intros k o Hk. destruct (Hnear _ _ Hk) as [| ->]; eauto.
  - apply IH; [done|]. split; cbn; eauto.
    + intros k. destruct (negb _); [|eauto]. intros Hk. destruct (Hkf _ _ Hk) as [| ->]; eauto.
    + intros k o Hk. destruct (Hnear _ _ Hk) as [| ->]; eauto.
Qed.

Lemma replace_slot_ok d b i e f off :
  dir_ok d -> (b < num_buckets d)%nat -> bucket_of d b !! i = Some e -> is_empty e = false ->
  entry_ok (f e) -> offset (f e) = off -> 0 < off -> dir_ok (rewrite_slot d b i f).
Proof.
  intros Hd Hb Hi He Hok Hof H0. rewrite rewrite_slot_commit, (alter_insert_lookup _ _ _ _ Hi).
  apply (commit_slot_ok d b i e _ _ Hd Hb Hi Hok).
  assert (is_empty (f e) = false) as -> by (apply not_empty_iff; lia). rewrite He.
  symmetry. rewrite <- (wrap_small 64 (count d)) at 2 by now apply count_fits. unfold u64. f_equal. lia.
Qed.

(** A write through the legacy path always lands, and keeps the invariant. *)
Lemma insert_legacy_ok d key off sz v serial :
  dir_ok d -> 0 < off < 2 ^ 40 -> fits 16 serial ->
  let r := insert_legacy d key off sz v serial in
  ir_ok r = true /\ dir_ok (ir_dir r).
Proof.
  intros Hd Hoff Hs. cbv zeta. unfold insert_legacy.
  pose proof (bucket_index_lt d key Hd) as Hb. set (b := bucket_index d key) in *.
  assert (fits 40 off) as Ho by (unfold fits; lia). pose proof (key_tag_fits key) as Ht.
  assert (forall i e, bucket_of d b !! i = Some e -> entry_ok e) as Hall
    by (intros i e Hi; apply (Forall_lookup_1 _ _ _ _ (bucket_of_ok d Hd b) Hi)).
  pose proof (fun e He => fill_entry_view e off sz serial (Key.tag key) (current_phase d) He Hs Ho Ht) as Hfv.
  pose proof (fun e He => update_entry_view e off sz serial (current_phase d) He Hs Ho) as Huv.
  destruct (legacy_scan_inv (bucket_of d b) _ 0 (Key.tag key) v (current_phase d)
    {| ls_empty := None; ls_stale := None; ls_collider := None; ls_nearest := None; ls_target := None |}
    (drop_0 _)) as (n & Hn & [I1 I2 I3 I4 I5 I6]); [split; cbn; try done; lia|].
  pose proof (length_bucket_of d Hd b Hb) as Hlen. rewrite Hlen in Hn. unfold kEntriesPerBucket in Hn.
  set (st := legacy_scan _ _ _ _ _ _) in *.
  destruct (ls_target st) as [i|].
  { destruct (I1 i eq_refl) as (e & Hi & He). split; [done|].
    apply (replace_slot_ok d b i e _ off); try done; [apply update_entry_ok; eauto| |lia].
    apply (Huv e). eauto. }
  destruct (ls_empty st) as [i|].
  { destruct (I2 i eq_refl) as (e & Hi & He). split; [done|].
    cbn [ir_dir]. rewrite rewrite_slot_commit, (alter_insert_lookup _ _ _ _ Hi), count_add_commit.
    apply (commit_slot_ok d b i e); eauto using fill_entry_ok. rewrite He.
    assert (is_empty (fill_entry e off sz serial (Key.tag key) (current_phase d)) = false) as ->.
    { apply not_empty_iff. destruct (Hfv e) as [-> _]; eauto. lia. }
    f_equal. lia. }
  assert (forall i, holds (bucket_of d b) false i -> dir_ok (rewrite_slot d b i
    (fun e => fill_entry e off sz serial (Key.tag key) (current_phase d)))) as Hfill.
  { intros i (e & Hi & He). apply (replace_slot_ok d b i e _ off); try done; [apply fill_entry_ok; eauto| |lia].
    apply (Hfv e). eauto. }
  destruct (ls_stale st) as [i|]; [split; [done|]; apply Hfill, I3, eq_refl|].
  destruct (ls_collider st) as [i|]; [split; [done|]; apply Hfill, I4, eq_refl|].
  destruct (ls_nearest st) as [[i o]|].
  { destruct (I5 i o eq_refl) as (e & Hi & He). split; [done|].
    apply (replace_slot_ok d b i e _ off); try done; [apply fill_entry_ok; auto with cyc| |lia].
    apply (Hfv empty_entry). auto with cyc. }
  exfalso. destruct Hn as [Hn|Hn]; [|done]. destruct I6; [lia|done..].
Qed.

(** ** Removal, phase and images keep the invariant *)

Lemma remove_ok d key : dir_ok d -> dir_ok (snd (remove d key)).
Proof.
  intros Hd. unfold remove. pose proof (bucket_index_lt d key Hd) as Hb.
  destruct (list_find _ _) as [[i e]|] eqn:E; [|done].
  apply list_find_Some in E as (Hi & He & _). apply andb_true_iff in He as [He _].
  cbn [snd]. rewrite rewrite_slot_commit, (alter_insert_lookup _ _ _ _ Hi), count_sub_commit.
  apply (commit_slot_ok d _ i e); auto with cyc. unfold clear. rewrite is_empty_empty.
  destruct (is_empty e); [done|]. f_equal. lia.
Qed.

Lemma clear_at_commits d key off :
  dir_ok d ->
  let b := bucket_index d key in
  let hit := fun e => negb (is_empty e) && (tag e =? Key.tag key) && (offset e =? off) in
  let l := map (fun e => if hit e then empty_entry else e) (bucket_of d b) in
  dir_ok (snd (remove_at d key off)) /\
  fst (remove_at d key off) = existsb hit (bucket_of d b) /\
  bucket_of (snd (remove_at d key off)) b = l /\
  (forall b', b' <> b -> bucket_of (snd (remove_at d key off)) b' = bucket_of d b').
Proof.
  intros Hd b hit l. pose proof (bucket_index_lt d key Hd) as Hb. fold b in Hb.
  pose proof (length_bucket_of d Hd b Hb) as Hlen.
  assert (forall (bk : list DirEntry) n l0, clear_at bk (Key.tag key) off = (l0, n) -> (n =? 0) = negb (existsb hit bk)) as Hn0.
  { induction bk as [|e bk IH]; intros n l0; cbn [clear_at existsb]; [now intros [= <- <-]|].
    pose proof (clear_at_spec bk (Key.tag key) off) as Hs. fold (hit e).
    destruct (clear_at bk _ off) as [l1 m]. destruct Hs as (_ & _ & Hm & _).
    destruct (hit e); intros [= <- <-]; cbn [orb]; [apply Z.eqb_neq; lia|now apply (IH m l1)]. }
  pose proof (clear_at_spec (bucket_of d b) (Key.tag key) off) as Hs.
  unfold remove_at. fold b. destruct (clear_at (bucket_of d b) (Key.tag key) off) as [l' n] eqn:E.
  rewrite (Hn0 _ _ _ E). clear Hn0. destruct Hs as (Hl' & Hocc & Hn & Hz). fold hit in Hl'. fold l in Hl'. subst l'.
  assert (length l = kEntriesPerBucket) as Hll by (unfold l; rewrite length_map; done).
  destruct (existsb hit (bucket_of d b)) eqn:Ex; cbn [negb fst snd].
  - rewrite bracket_commit, count_sub_commit. split; [|split; [done|]].
    + apply commit_bucket_ok; try done; [|f_equal; lia].
      unfold l. apply Forall_map, (Forall_impl _ _ _ (bucket_of_ok d Hd b)).
      intros e He. cbn beta. case_match; [apply empty_entry_ok|exact He].
    + split; [now apply commit_bucket_same|]. intros b' Hne. now apply commit_bucket_other.
  - split; [done|]. split; [done|]. split; [|done]. unfold l.
    rewrite <- (map_id (bucket_of d b)) at 1. apply map_ext_in. intros e He.
    destruct (hit e) eqn:Eh; [|done]. exfalso.
    assert (existsb hit (bucket_of d b) = true) by (apply existsb_exists; eauto). congruence.
Qed.

Lemma entry_of_bytes_ok l : bytes_ok l -> entry_ok (entry_of_bytes l).
Proof.
  intros Hl. pose proof (fun off => le_val_subspan_fits l off 2 Hl) as H.
  exact (conj (H _) (conj (H _) (conj (H _) (conj (H _) (H _))))).
Qed.

Lemma entries_of_bytes_ok n data :
  bytes_ok data -> Forall entry_ok (entries_of_bytes n data) /\ length (entries_of_bytes n data) = n.
Proof.
  revert data. induction n as [|n IH]; intros data Hd; [split; [constructor|done]|].
  destruct (IH (drop kSize data)) as [H1 H2]; [auto with cyc|]. split; [|cbn [entries_of_bytes length]; now rewrite H2].
  constructor; [apply entry_of_bytes_ok; auto with cyc|done].
Qed.

Lemma deserialize_dir_ok d data : dir_ok d -> bytes_ok data -> dir_ok (deserialize d data).
Proof.
  intros Hd Hb. unfold deserialize.
  set (n := if (length (entries d) <? length data / kSize)%nat then _ else _).
  assert (n <= length (entries d))%nat as Hn.
  { subst n. destruct (Nat.ltb_spec (length (entries d)) (length data / kSize)); lia. }
  destruct (entries_of_bytes_ok n data Hb) as [He Hl].
  assert (length (write_at (entries d) 0 (entries_of_bytes n data)) = length (entries d)) as Hlen
    by (apply length_write_at; lia).
  split; unfold set_count, set_entries; cbn [num_buckets entries versions count]; try apply Hd; try done.
  - rewrite Hlen. apply Hd.
  - unfold write_at. rewrite !Forall_app. split; [apply Forall_take, Hd|]. split; [done|apply Forall_drop, Hd].
Qed.

Lemma occupied_replicate n : occupied (replicate n empty_entry) = 0%nat.
Proof. induction n; cbn [replicate]; [done|]. now rewrite occupied_cons, is_empty_empty. Qed.

Lemma new_directory_ok n :
  (0 < n)%nat -> Z.of_nat (n * kEntriesPerBucket) < 2 ^ 64 -> dir_ok (new_directory n).
Proof.
  intros Hn Hc. split; unfold new_directory; cbn [num_buckets entries versions count]; try done.
  - apply length_replicate.
  - apply Forall_replicate, empty_entry_ok.
  - apply length_replicate.
  - apply Forall_replicate. split; [unfold fits; lia|now exists 0].
  - now rewrite occupied_replicate.
Qed.

Lemma occupied_clear l : occupied (map clear l) = 0%nat.
Proof. induction l; cbn [map]; [done|]. now rewrite occupied_cons. Qed.

Lemma clear_all_ok d : dir_ok d -> dir_ok (clear_all d).
Proof.
  intros Hd. split; unfold clear_all; cbn [num_buckets entries versions count]; try apply Hd.
  - rewrite length_map. apply Hd.
  - apply Forall_map, Forall_forall. intros. apply empty_entry_ok.
  - now rewrite occupied_clear.
Qed.

Lemma set_current_phase_ok d p : dir_ok d -> dir_ok (set_current_phase d p).
Proof. intros []. now split. Qed.

(** ** Properties *)

(** The mutators of a directory, as a client calls them. *)
Inductive dir_op (A : Type) :=
  | OpInsert (key : CacheKey) (off sz verified_offset : Z) (adm : A) (clear_offsets : list Z)
      (view : option (list Z)) (serial : Z)
  | OpInsertLegacy (key : CacheKey) (off sz verified_offset serial : Z)
  | OpRemove (key : CacheKey)
  | OpRemoveAt (key : CacheKey) (off : Z)
  | OpTogglePhase
  | OpSetPhase (p : bool)
  | OpClear
  | OpDeserialize (data : list Z).

Section runs.
Context {A : Type} `{AI : InsertAdmission A}.

Definition apply_op (d : Directory) (op : dir_op A) : Directory :=
  match op with
  | OpInsert _ key off sz v adm cl view s => ir_dir (insert_admitted d key off sz v adm cl view s)
  | OpInsertLegacy _ key off sz v s => ir_dir (insert_legacy d key off sz v s)
  | OpRemove _ key => snd (remove d key)
  | OpRemoveAt _ key off => snd (remove_at d key off)
  | OpTogglePhase _ => toggle_phase d
  | OpSetPhase _ p => set_current_phase d p
  | OpClear _ => clear_all d
  | OpDeserialize _ data => deserialize d data
  end.

(** The preconditions on an operation's arguments: a 40-bit, nonzero stripe
    offset, a 16-bit serial, an image made of bytes. *)
Definition op_ok (op : dir_op A) : Prop :=
  match op with
  | OpInsert _ _ off _ _ _ _ _ s => 0 < off < 2 ^ 40 /\ fits 16 s
  | OpInsertLegacy _ _ off _ _ s => 0 < off < 2 ^ 40 /\ fits 16 s
  | OpDeserialize _ data => bytes_ok data
  | _ => True
  end.

Lemma insert_stale_unchanged d key off sz v adm cl view s :
  view_current d key off v adm view = false ->
  insert_admitted d key off sz v adm cl view s = Build_InsertResult false true false false (refresh adm) d.
Proof. intros Hv. unfold insert_admitted, view_current in *. cbv zeta. now rewrite Hv. Qed.

Lemma apply_op_ok d op : dir_ok d -> op_ok op -> dir_ok (apply_op d op).
Proof.
  intros Hd. destruct op as [key off sz v adm cl view s|key off sz v s| | | | | |]; cbn [apply_op op_ok].
  - intros [Ho Hs]. destruct (view_current d key off v adm view) eqn:Hv.
    + destruct (insert_admitted_commits d key off sz v adm cl view s Hd Ho Hs Hv) as (?&?&?&_&_&H). exact H.
    + now rewrite insert_stale_unchanged.
  - intros [Ho Hs]. now apply insert_legacy_ok.
  - intros _. now apply remove_ok.
  - intros _. now apply clear_at_commits.
  - intros _. now apply set_current_phase_ok.
  - intros _. now apply set_current_phase_ok.
  - intros _. now apply clear_all_ok.
  - now apply deserialize_dir_ok.
Qed.

(** C18. Every sequence of directory operations on a new directory keeps it
    well formed: four 10-byte entries of 16-bit words per bucket, every
    bucket's version even (no bracket left open), and the entry count exactly
    the number of non-empty entries (it never underflows or drifts). *)
Theorem directory_invariant n (ops : list (dir_op A)) :
  (0 < n)%nat -> Z.of_nat (n * kEntriesPerBucket) < 2 ^ 64 -> Forall op_ok ops ->
  dir_ok (fold_left apply_op ops (new_directory n)).
Proof.
  intros Hn Hc Hops. pose proof (new_directory_ok n Hn Hc) as Hd. revert Hd.
  generalize (new_directory n). induction Hops as [|op ops Hop _ IH]; intros d Hd; [done|].
  cbn [fold_left]. now apply IH, apply_op_ok.
Qed.

(** The victim of an insert is the first slot in the documented order:
    the verified same-key entry; an entry of this tag already at the new
    offset; an empty slot; an inadmissible slot; a tag collider; the retained
    entry with the lowest offset; the current entry with the lowest offset.
    The flags report exactly what was displaced, and a slot is found in every
    bucket that has one. *)
Theorem choose_insert_slot_order (adm : A) bucket key_tag verified_offset new_offset :
  let rk := rank adm key_tag verified_offset new_offset in
  match choose_insert_slot adm bucket key_tag verified_offset new_offset with
  | ({| slot := Some i; replaces := rp; verified := vf |}, coll, full) =>
      exists e, first_choice adm bucket key_tag verified_offset new_offset i e /\
        rp = negb (is_empty e) /\ vf = (rk e =? 0)%nat /\
        coll = (rk e =? 4)%nat /\ full = (5 <=? rk e)%nat
  | ({| slot := None; replaces := rp; verified := vf |}, coll, full) =>
      bucket = [] /\ rp = false /\ vf = false /\ coll = false /\ full = false
  end.
Proof.
  pose proof (choose_insert_slot_spec adm bucket key_tag verified_offset new_offset) as H.
  cbv zeta. destruct (choose_insert_slot _ _ _ _ _) as [[[[i|] rp vf] coll] full]; [|done].
  destruct H as (e & Hf & Hr & Hrest). exists e. rewrite rank_2_empty in Hr. done.
Qed.

(** The conditional publish goes ahead exactly when the bucket still
    holds what the writer saw: the entry it verified is there (unless it
    passed a sentinel), and every admitted entry of the tag, other than the
    verified one and one at the offset just written, is among the offsets its
    probe handed it. *)
Theorem publish_view_is_current_iff (adm : A) bucket key_tag verified_offset new_offset seen :
  publish_view_is_current adm bucket key_tag verified_offset new_offset seen = true <->
  (verified_offset = kMatchAnyTag \/ verified_offset = kNoVerifiedEntry \/
   exists e, e ∈ bucket /\ is_empty e = false /\ tag e = key_tag /\ offset e = verified_offset) /\
  (forall e, e ∈ bucket -> is_empty e = false -> tag e = key_tag -> offset e <> verified_offset ->
     new_offset = 0 \/ offset e <> new_offset ->
     classify adm (offset e) (phase e) <> kReject -> offset e ∈ seen).
Proof.
  unfold publish_view_is_current. rewrite view_scan_ref, andb_true_iff, negb_true_iff, !orb_true_iff, !Z.eqb_eq.
  rewrite <- (not_true_iff_false (existsb _ _)), !existsb_exists.
  assert (forall e, is_verified key_tag verified_offset e = true <->
    is_empty e = false /\ tag e = key_tag /\ offset e = verified_offset) as Hver.
  { intros e. unfold is_verified. rewrite !andb_true_iff, negb_true_iff, !Z.eqb_eq. tauto. }
  assert (forall e, is_unseen adm key_tag verified_offset new_offset seen e = true <->
    is_empty e = false /\ tag e = key_tag /\ offset e <> verified_offset /\
    (new_offset = 0 \/ offset e <> new_offset) /\ classify adm (offset e) (phase e) <> kReject /\
    offset e ∉ seen) as Hun.
  { intros e. unfold is_unseen. rewrite !andb_true_iff, !negb_true_iff, andb_false_iff, negb_false_iff, !Z.eqb_eq,
      !Z.eqb_neq, bool_decide_eq_false, <- (not_true_iff_false (existsb _ _)), existsb_exists.
    assert ((exists x, In x seen /\ (x =? offset e) = true) <-> offset e ∈ seen) as ->; [|tauto].
    rewrite list_elem_of_In. split; [intros (x & Hx & Hq); now apply Z.eqb_eq in Hq as <-|].
    intros Hx. exists (offset e). now rewrite Z.eqb_refl. }
  setoid_rewrite Hver. setoid_rewrite Hun. setoid_rewrite <- list_elem_of_In. split.
  - intros [Hf Hn]. split; [tauto|]. intros e H1 H2 H3 H4 H5 H6.
    destruct (decide (offset e ∈ seen)) as [|Hs]; [done|]. exfalso. apply Hn. eauto 10.
  - intros [Hf Hn]. split; [tauto|]. intros (e & H1 & H2 & H3 & H4 & H5 & H6 & H7). eauto.
Qed.

(** C19. An insert under an admission either is refused as stale, exactly when
    the publish view is out of date, leaving the directory untouched; or it
    lands, in the first slot of the victim order: that slot then holds an
    entry with the offset, the key's tag, the directory's phase and the fill
    serial; no other same-tag entry is left at that offset or at an offset in
    [clear_offsets]; every other slot of the bucket is unchanged, or was one
    of those and is now empty; and no other bucket changes. *)
Theorem insert_publishes d key off sz v (adm : A) cl view serial :
  dir_ok d -> 0 < off < 2 ^ 40 -> fits 16 serial ->
  let r := insert_admitted d key off sz v adm cl view serial in
  let b := bucket_index d key in
  (view_current d key off v adm view = false /\ ir_ok r = false /\ ir_stale r = true /\ ir_dir r = d) \/
  (view_current d key off v adm view = true /\ ir_ok r = true /\ ir_stale r = false /\
   exists i old new, first_choice (refresh adm) (bucket_of d b) (Key.tag key) v off i old /\
     bucket_of (ir_dir r) b !! i = Some new /\
     offset new = off /\ tag new = Key.tag key /\ phase new = current_phase d /\
     DirEntry.fill_serial new = serial /\
     (forall j e, j <> i -> bucket_of (ir_dir r) b !! j = Some e ->
        (bucket_of d b !! j = Some e \/ e = empty_entry) /\
        (is_empty e = false -> tag e = Key.tag key -> offset e <> off /\ offset e ∉ cl)) /\
     (forall j e, j <> i -> bucket_of d b !! j = Some e -> bucket_of (ir_dir r) b !! j <> Some e ->
        tag e = Key.tag key /\ (offset e = off \/ offset e ∈ cl)) /\
     (forall b', b' <> b -> bucket_of (ir_dir r) b' = bucket_of d b')).
Proof.
  intros Hd Hoff Hs. cbv zeta. destruct (view_current d key off v adm view) eqn:Hv.
  2: { left. now rewrite insert_stale_unchanged. }
  right. destruct (insert_admitted_commits d key off sz v adm cl view serial Hd Hoff Hs Hv)
    as (i & old & c & Hf & Er & _). rewrite Er. cbn [ir_ok ir_stale ir_dir].
  assert (fits 40 off) as Ho by (unfold fits; lia). pose proof (proj1 Hf) as Hi.
  pose proof (bucket_index_lt d key Hd) as Hb.
  pose proof (Forall_lookup_1 _ _ _ _ (bucket_of_ok d Hd _) Hi) as He.
  destruct (inserted_ok d key off sz v adm cl serial i old _ eq_refl Hd Ho Hs Hi) as [Hlen _].
  destruct (published_view d key off sz v adm serial old He Hs Ho) as (_ & P1 & P2 & P3 & P4).
  set (new := published d key off sz v adm serial old) in *.
  assert (forall j, inserted d key off sz v adm cl serial i old !! j =
    (fun x => if dead i (Key.tag key) off cl j x then empty_entry else x) <$>
    (<[i := new]> (bucket_of d (bucket_index d key)) !! j)) as Hlook
    by (intros j; unfold inserted; now rewrite list_lookup_imap).
  rewrite commit_bucket_same by done. do 3 (split; [done|]).
  exists i, old, new. split; [done|]. split.
  { rewrite Hlook, list_lookup_insert_eq by now apply lookup_lt_Some in Hi. cbn.
    unfold dead. now rewrite Nat.eqb_refl. }
  do 4 (split; [done|]).
  split; [|split].
  - intros j e Hj. rewrite Hlook, list_lookup_insert_ne by done.
    destruct (_ !! j) as [x|] eqn:Ex; cbn; [|done]. intros [= <-].
    destruct (dead i (Key.tag key) off cl j x) eqn:Edead; [split; [now right|]; now rewrite is_empty_empty|].
    split; [now left|]. intros E1 E2. apply not_true_iff_false in Edead. rewrite dead_true in Edead.
    split; intros Hbad; apply Edead; auto.
  - intros j e Hj Hje. rewrite Hlook, list_lookup_insert_ne, Hje by done. cbn.
    destruct (dead i (Key.tag key) off cl j e) eqn:Edead; [|done]. intros _.
    now apply dead_true in Edead as (_ & _ & ? & ?).
  - intros b' Hne. now apply commit_bucket_other.
Qed.
End runs.

(** [remove_at] is precise: it reports whether the key's bucket held an
    entry with the key's tag at the offset, clears exactly those entries (all
    of them), leaves the other slots and buckets alone, and keeps the
    directory well formed; so an entry of another tag or offset survives. *)
Theorem remove_at_exact d key off :
  dir_ok d ->
  let (removed, d') := remove_at d key off in
  let b := bucket_index d key in
  let hit := fun e => is_empty e = false /\ tag e = Key.tag key /\ offset e = off in
  dir_ok d' /\
  (removed = true <-> exists e, e ∈ bucket_of d b /\ hit e) /\
  (forall i e, bucket_of d b !! i = Some e ->
     (hit e /\ bucket_of d' b !! i = Some empty_entry) \/
     (~ hit e /\ bucket_of d' b !! i = Some e)) /\
  (forall b', b' <> b -> bucket_of d' b' = bucket_of d b').
Proof.
  intros Hd. pose proof (clear_at_commits d key off Hd) as H. cbv zeta in H.
  destruct (remove_at d key off) as [removed d']. cbn [fst snd] in H.
  destruct H as (Hok & -> & Hl & Hoth). cbv zeta.
  assert (forall e, negb (is_empty e) && (tag e =? Key.tag key) && (offset e =? off) = true <->
    is_empty e = false /\ tag e = Key.tag key /\ offset e = off) as Hhit.
  { intros e. rewrite !andb_true_iff, negb_true_iff, !Z.eqb_eq. tauto. }
  split; [done|]. split; [|split; [|done]].
  - rewrite existsb_exists. setoid_rewrite Hhit. now setoid_rewrite <- list_elem_of_In.
  - intros i e Hi. rewrite Hl, lookup_map, Hi. cbn.
    destruct (negb (is_empty e) && _ && _) eqn:E; [left; now rewrite <- Hhit|right].
    split; [|done]. rewrite <- Hhit. now rewrite E.
Qed.

(** *** Images *)

Lemma entry_bytes_roundtrip e rest :
  entry_ok e -> entry_of_bytes (take kSize (entry_bytes e ++ rest)) = e /\
  drop kSize (entry_bytes e ++ rest) = rest.
Proof.
  intros (H0 & H1 & H2 & H3 & H4). destruct e as [a b c d f]. cbn in *.
  unfold entry_of_bytes, entry_bytes. cbn. split; [|done].
  assert (forall x, fits 16 x -> x mod 256 + 256 * ((x / 256) mod 256 + 256 * 0) = x) as Hw.
  { intros x Hx. unfold fits in Hx. rewrite (Z.mod_small (x / 256)).
    - rewrite Z.mul_0_r, Z.add_0_r. pose proof (Z.div_mod x 256 ltac:(lia)). lia.
    - split; [apply Z.div_pos; lia|]. apply Z.div_lt_upper_bound; lia. }
  unfold subspan; cbn. now rewrite !Hw.
Qed.

Lemma length_entry_bytes e : length (entry_bytes e) = kSize.
Proof. reflexivity. Qed.

Lemma entries_of_serialized l rest :
  Forall entry_ok l -> entries_of_bytes (length l) (concat (map entry_bytes l) ++ rest) = l.
Proof.
  induction 1 as [|e l He Hl IH]; [done|]. cbn [length map concat entries_of_bytes].
  rewrite <- app_assoc. destruct (entry_bytes_roundtrip e (concat (map entry_bytes l) ++ rest) He) as [-> ->].
  now rewrite IH.
Qed.

Lemma length_serialize d : length (serialize d) = (length (entries d) * kSize)%nat.
Proof.
  unfold serialize. induction (entries d) as [|e l IH]; [done|].
  cbn [map concat length]. rewrite length_app, IH, length_entry_bytes. lia.
Qed.

Lemma serialize_bytes d : bytes_ok (serialize d).
Proof.
  unfold serialize. induction (entries d) as [|e l IH]; [constructor|].
  cbn [map concat]. apply bytes_ok_app. split; [|exact IH].
  unfold entry_bytes. rewrite !bytes_ok_app. auto 10 with cyc.
Qed.

(** A directory image restores the entries: loading the serialized bytes
    of a directory into one of the same size, whatever it held, gives the
    same entries and a count that matches them. *)
Theorem directory_image_roundtrip d d0 :
  dir_ok d -> dir_ok d0 -> num_buckets d0 = num_buckets d ->
  let d' := deserialize d0 (serialize d) in
  entries d' = entries d /\ count d' = count d /\ dir_ok d'.
Proof.
  intros Hd Hd0 Hn. cbv zeta.
  assert (length (entries d0) = length (entries d)) as Hlen by (rewrite !do_len, Hn; done).
  assert (entries (deserialize d0 (serialize d)) = entries d) as He.
  { unfold deserialize. cbn [entries set_count set_entries].
    rewrite length_serialize, Nat.div_mul, Hlen, Nat.ltb_irrefl by done.
    unfold serialize. rewrite <- (app_nil_r (concat _)), entries_of_serialized by apply Hd.
    rewrite write_at_full; [done|]. cbn. lia. }
  split; [done|]. split; [unfold deserialize in *; cbn [count set_count entries set_entries] in *; rewrite He; symmetry; apply Hd|].
  apply deserialize_dir_ok; [done|apply serialize_bytes].
Qed.

(** ** Witnesses *)

(** An admission that takes every entry for a current one. *)
Definition open_admission : InsertAdmission unit :=
  {| refresh := fun a => a; classify := fun _ _ _ => kCurrent |}.

Definition sample_key : CacheKey := {| _hash := seqZ 200 32 |}.

Lemma sample_dir_ok : dir_ok (new_directory 3).
Proof. apply new_directory_ok; [lia|]. unfold kEntriesPerBucket. lia. Qed.

Lemma directory_invariant_witness :
  dir_ok (fold_left (@apply_op unit open_admission)
    [OpInsert unit sample_key 4096 700 kNoVerifiedEntry tt [] (Some []) 5; OpTogglePhase unit;
     OpInsertLegacy unit sample_key 8192 700 kNoVerifiedEntry 6; OpRemoveAt unit sample_key 4096]
    (new_directory 3)).
Proof.
  apply (@directory_invariant unit open_admission 3
    [OpInsert unit sample_key 4096 700 kNoVerifiedEntry tt [] (Some []) 5; OpTogglePhase unit;
     OpInsertLegacy unit sample_key 8192 700 kNoVerifiedEntry 6; OpRemoveAt unit sample_key 4096]).
  - lia.
  - unfold kEntriesPerBucket. lia.
  - repeat (constructor; [cbn; unfold fits; lia|]). constructor.
Defined.

Lemma insert_publishes_witness :
  exists i new, bucket_of (ir_dir (@insert_admitted unit open_admission (new_directory 3) sample_key
      4096 700 kNoVerifiedEntry tt [] (Some []) 5)) (bucket_index (new_directory 3) sample_key) !! i
    = Some new /\ offset new = 4096 /\ DirEntry.fill_serial new = 5.
Proof.
  destruct (@insert_publishes unit open_admission (new_directory 3) sample_key 4096 700
    kNoVerifiedEntry tt [] (Some []) 5) as [(H & _)|(_ & _ & _ & i & old & new & _ & Hn & H1 & _ & _ & H2 & _)].
  - exact sample_dir_ok.
  - lia.
  - unfold fits. lia.
  - discriminate H.
  - exists i, new. split; [exact Hn|]. split; [exact H1|exact H2].
Defined.

Definition sample_dir : Directory :=
  ir_dir (insert_legacy (new_directory 3) sample_key 4096 700 kNoVerifiedEntry 5).

Lemma sample_dir_ok2 : dir_ok sample_dir.
Proof. apply insert_legacy_ok; [exact sample_dir_ok|lia|unfold fits; lia]. Qed.

Lemma remove_at_exact_witness :
  count sample_dir = 1 /\ fst (remove_at sample_dir sample_key 4096) = true /\
  dir_ok (snd (remove_at sample_dir sample_key 4096)).
Proof.
  split; [reflexivity|]. split; [reflexivity|].
  pose proof (remove_at_exact sample_dir sample_key 4096 sample_dir_ok2) as H.
  destruct (remove_at sample_dir sample_key 4096) as [removed d']. exact (proj1 H).
Defined.

Lemma directory_image_roundtrip_witness :
  entries (deserialize (new_directory 3) (serialize sample_dir)) = entries sample_dir.
Proof.
  apply (directory_image_roundtrip sample_dir (new_directory 3)).
  - exact sample_dir_ok2.
  - exact sample_dir_ok.
  - reflexivity.
Defined.
