(* ===== verification/Geometry.v ===== *)
(** * Volume geometry (src/src/core/volume.hpp, volume.cpp, mmap_directory.hpp)

    The division-free quotient of the read path ([FastDivU64]), the frontier
    chunks of a stripe ([retention_geometry]), the stripe layout of a volume
    ([compute_stripe_geometry] and the loop of [init_stripes]), and the space
    a stripe's directory takes. *)

From S2P Require Import Prelude Document DirEntry Directory.
Local Open Scope cyc_scope.

(** ** FastDivU64 *)

Record FastDivU64 := { _d : Z; _m : Z }.

Definition new_FastDivU64 (divisor : Z) : FastDivU64 :=
  let d := if divisor =? 0 then 1 else divisor in
  {| _d := d; _m := if d <=? 1 then 0 else (2 ^ 64 - 1) / d |}.

Definition mulhi_portable (a b : Z) : Z :=
  let kLo := 0xFFFFFFFF in
  let a_lo := a .& kLo in
  let a_hi := a >> 32 in
  let b_lo := b .& kLo in
  let b_hi := b >> 32 in
  let lo_lo := u64 (a_lo * b_lo) in
  let hi_lo := u64 (a_hi * b_lo) in
  let lo_hi := u64 (a_lo * b_hi) in
  let hi_hi := u64 (a_hi * b_hi) in
  let cross := u64 (u64 ((lo_lo >> 32) + (hi_lo .& kLo)) + lo_hi) in
  u64 (u64 (hi_hi + (hi_lo >> 32)) + (cross >> 32)).

(** The three builds of [mulhi]: [__umulh] and the 128-bit product give the
    high word of the product, else the portable one. *)
Inductive mulhi_build := mulhi_umulh | mulhi_int128 | mulhi_soft.

Definition mulhi (b : mulhi_build) (x y : Z) : Z :=
  match b with
  | mulhi_umulh | mulhi_int128 => u64 ((x * y) >> 64)
  | mulhi_soft => mulhi_portable x y
  end.

Definition quot (bld : mulhi_build) (f : FastDivU64) (n : Z) : Z :=
  if _d f =? 1 then n
  else
    let q := mulhi bld n (_m f) in
    if _d f <=? u64 (n - u64 (q * _d f)) then u64 (q + 1) else q.

Lemma mulhi_portable_spec a b :
  fits 64 a -> fits 64 b -> mulhi_portable a b = (a * b) / 2 ^ 64.
Proof.
  intros Ha Hb. unfold mulhi_portable. change 0xFFFFFFFF with (Z.ones 32).
  rewrite !Z.land_ones, !Z.shiftr_div_pow2 by lia.
  set (al := a mod 2 ^ 32). set (ah := a / 2 ^ 32). set (bl := b mod 2 ^ 32). set (bh := b / 2 ^ 32).
  unfold fits in *. set (B := 2 ^ 32) in *.
  assert (0 <= al < B) by (apply Z.mod_pos_bound; lia). assert (0 <= bl < B) by (apply Z.mod_pos_bound; lia).
  assert (0 <= ah < B) by (split; [apply Z.div_pos; lia|apply Z.div_lt_upper_bound; lia]).
  assert (0 <= bh < B) by (split; [apply Z.div_pos; lia|apply Z.div_lt_upper_bound; lia]).
  assert (a = ah * B + al) as Ea by (subst ah al; pose proof (Z.div_mod a B); lia).
  assert (b = bh * B + bl) as Eb by (subst bh bl; pose proof (Z.div_mod b B); lia).
  assert (forall x y, 0 <= x < B -> 0 <= y < B -> 0 <= x * y <= (B - 1) * (B - 1)) as Hp by (intros; nia).
  pose proof (Hp al bl ltac:(lia) ltac:(lia)). pose proof (Hp ah bl ltac:(lia) ltac:(lia)).
  pose proof (Hp al bh ltac:(lia) ltac:(lia)). pose proof (Hp ah bh ltac:(lia) ltac:(lia)).
  clear Hp.
  set (ll := al * bl) in *. set (hl := ah * bl) in *. set (lh := al * bh) in *. set (hh := ah * bh) in *.
  assert (a * b = hh * 2 ^ 64 + (hl + lh) * B + ll) as Eab.
  { rewrite Ea, Eb. subst hh hl lh ll B. lia. }
  unfold u64. rewrite (wrap_small 64 ll), (wrap_small 64 hl), (wrap_small 64 lh), (wrap_small 64 hh)
    by (unfold fits; subst B; lia).
  assert (0 <= ll / B < B) by (split; [apply Z.div_pos; lia|apply Z.div_lt_upper_bound; subst B; lia]).
  assert (0 <= hl mod B < B) by (apply Z.mod_pos_bound; lia).
  assert (0 <= hl / B < B) by (split; [apply Z.div_pos; lia|apply Z.div_lt_upper_bound; subst B; lia]).
  rewrite (wrap_small 64 (ll / B + hl mod B)) by (unfold fits; subst B; lia).
  set (cross := ll / B + hl mod B + lh).
  rewrite (wrap_small 64 cross) by (unfold fits, cross; subst B; lia).
  assert (a * b = (hh + hl / B + cross / B) * 2 ^ 64 + (cross mod B) * B + ll mod B) as Efin.
  { rewrite Eab. pose proof (Z.div_mod ll B ltac:(lia)). pose proof (Z.div_mod hl B ltac:(lia)).
    pose proof (Z.div_mod cross B ltac:(lia)). subst cross B. lia. }
  assert (0 <= cross mod B < B) by (apply Z.mod_pos_bound; lia).
  assert (0 <= ll mod B < B) by (apply Z.mod_pos_bound; lia).
  assert (0 <= cross / B) by (apply Z.div_pos; subst cross; lia).
  assert (hh + hl / B + cross / B < 2 ^ 64).
  { assert (a * b < 2 ^ 64 * 2 ^ 64) by nia. subst B. nia. }
  rewrite (wrap_small 64 (hh + hl / B)), wrap_small by (unfold fits; lia).
  rewrite Efin. apply Z.div_unique with (cross mod B * B + ll mod B); [|lia].
  left. subst B. lia.
Qed.

Lemma mulhi_spec bld a b : fits 64 a -> fits 64 b -> mulhi bld a b = (a * b) / 2 ^ 64.
Proof.
  intros Ha Hb. destruct bld; cbn [mulhi]; try now apply mulhi_portable_spec.
  all: rewrite Z.shiftr_div_pow2 by lia; apply wrap_small; unfold fits in *;
    (split; [apply Z.div_pos; nia|apply Z.div_lt_upper_bound; nia]).
Qed.

Lemma quot_div bld divisor n :
  fits 64 divisor -> fits 64 n ->
  quot bld (new_FastDivU64 divisor) n = n / (if divisor =? 0 then 1 else divisor).
Proof.
  intros Hd Hn. unfold quot, new_FastDivU64. cbn [_d _m]. set (d := if divisor =? 0 then 1 else divisor).
  assert (1 <= d < 2 ^ 64) as Hd1.
  { unfold fits in Hd. subst d. destruct (Z.eqb_spec divisor 0); lia. }
  destruct (Z.eqb_spec d 1) as [->|Hne]; [now rewrite Z.div_1_r|].
  destruct (Z.leb_spec d 1) as [|_]; [lia|]. unfold fits in *.
  set (m := (2 ^ 64 - 1) / d).
  assert (0 <= m < 2 ^ 64) as Hm.
  { split; [apply Z.div_pos; lia|apply Z.div_lt_upper_bound; lia]. }
  rewrite mulhi_spec by (unfold fits; lia). set (q := n * m / 2 ^ 64).
  pose proof (Z.div_mod (2 ^ 64 - 1) d ltac:(lia)) as E1. fold m in E1.
  pose proof (Z.mod_pos_bound (2 ^ 64 - 1) d ltac:(lia)) as B1.
  pose proof (Z.div_mod (n * m) (2 ^ 64) ltac:(lia)) as E2. fold q in E2.
  pose proof (Z.mod_pos_bound (n * m) (2 ^ 64) ltac:(lia)) as B2.
  set (r1 := (2 ^ 64 - 1) mod d) in *. set (r2 := (n * m) mod 2 ^ 64) in *.
  assert (0 <= q) by (apply Z.div_pos; nia).
  (* n * (2^64 - 1 - r1) = (q * 2^64 + r2) * d *)
  assert (n * (2 ^ 64 - 1 - r1) = (q * 2 ^ 64 + r2) * d) as E3 by nia.
  assert (q * d <= n) as Hlo by nia.
  assert (n < q * d + 2 * d) as Hhi by nia.
  assert (q <= n) by nia.
  unfold u64. rewrite (wrap_small 64 (q * d)), (wrap_small 64 (n - q * d)) by (unfold fits; lia).
  destruct (Z.leb_spec d (n - q * d)).
  - rewrite wrap_small by (unfold fits; nia). apply Z.div_unique with (n - (q + 1) * d); [left; lia|lia].
  - apply Z.div_unique with (n - q * d); [left; lia|lia].
Qed.

(** The multiply-high quotient is division: for every 64-bit divisor
    (zero reads as one) and every 64-bit dividend, on each build of [mulhi],
    [FastDivU64::quot] equals the exact quotient. *)
Theorem fastdiv_exact bld divisor n :
  fits 64 divisor -> fits 64 n ->
  quot bld (new_FastDivU64 divisor) n = n / (if divisor =? 0 then 1 else divisor).
Proof. apply quot_div. Qed.

Lemma fastdiv_exact_witness :
  quot mulhi_soft (new_FastDivU64 65) (2 ^ 64 - 1) = (2 ^ 64 - 1) / 65.
Proof. apply (fastdiv_exact mulhi_soft 65 (2 ^ 64 - 1)); unfold fits; lia. Defined.

(** ** Frontier chunks *)

(** [x & ~(2^k - 1)] on an unsigned value. *)
Definition align_down (x k : Z) : Z := x .& Z.lnot (Z.ones k).

Lemma align_down_spec x k : 0 <= k -> align_down x k = x / 2 ^ k * 2 ^ k.
Proof.
  intros Hk. unfold align_down. rewrite <- Z.ldiff_land, Z.ldiff_ones_r by done.
  now rewrite Z.shiftl_mul_pow2, Z.shiftr_div_pow2.
Qed.

Record FrontierGeometry := { g_chunks : Z; g_chunk_size : Z }.

Definition kMinFrontierChunk : Z := 2 ^ 20.

Definition retention_geometry (data_area : Z) : FrontierGeometry :=
  if data_area =? 0 then {| g_chunks := 1; g_chunk_size := 0 |}
  else
    let kMaxChunks := 64 in
    let q := u64 (data_area + kMaxChunks - 1) / kMaxChunks in
    let q := align_down (u64 (q + 7)) 3 in
    let q := if q <? kMinFrontierChunk then kMinFrontierChunk else q in
    let n := u64 (data_area + q - 1) / q in
    let n := if n <? 1 then 1 else n in
    let n := if kMaxChunks <? n then kMaxChunks else n in
    {| g_chunks := u32 n; g_chunk_size := q |}.

Lemma ceil_div_bounds a q : 0 < q -> 0 < a -> let n := (a + q - 1) / q in (n - 1) * q < a <= n * q /\ 1 <= n.
Proof.
  intros Hq Ha n. pose proof (Z.div_mod (a + q - 1) q ltac:(lia)) as E. fold n in E.
  pose proof (Z.mod_pos_bound (a + q - 1) q Hq). nia.
Qed.

Lemma retention_geometry_spec A :
  0 < A < 2 ^ 63 ->
  let g := retention_geometry A in
  1 <= g_chunks g <= 64 /\ kMinFrontierChunk <= g_chunk_size g /\ (8 | g_chunk_size g) /\
  (g_chunks g - 1) * g_chunk_size g < A <= g_chunks g * g_chunk_size g /\
  g_chunk_size g < 2 ^ 62.
Proof.
  intros HA. unfold retention_geometry. destruct (Z.eqb_spec A 0) as [|_]; [lia|]. cbv zeta.
  unfold u64. rewrite (wrap_small 64 (A + 64 - 1)) by (unfold fits; lia).
  destruct (ceil_div_bounds A 64 ltac:(lia) ltac:(lia)) as [B0 B0'].
  set (q0 := (A + 64 - 1) / 64) in *.
  rewrite (wrap_small 64 (q0 + 7)) by (unfold fits; lia). rewrite align_down_spec by lia.
  set (q1 := (q0 + 7) / 2 ^ 3 * 2 ^ 3).
  assert (q0 <= q1 < q0 + 8) as B1 by (subst q1; Z.div_mod_to_equations; lia).
  set (q := if q1 <? kMinFrontierChunk then kMinFrontierChunk else q1). unfold kMinFrontierChunk in *.
  assert (2 ^ 20 <= q < 2 ^ 62 /\ q0 <= q /\ (8 | q)) as (Bq & Hq0 & H8).
  { subst q. destruct (Z.ltb_spec q1 (2 ^ 20)).
    - split; [lia|]. split; [lia|]. now exists (2 ^ 17).
    - split; [lia|]. split; [lia|]. subst q1. now exists ((q0 + 7) / 2 ^ 3). }
  rewrite (wrap_small 64 (A + q - 1)) by (unfold fits; lia).
  destruct (ceil_div_bounds A q ltac:(lia) ltac:(lia)) as [B2 B2'].
  set (n := (A + q - 1) / q) in *.
  assert (n <= 64) by nia.
  destruct (Z.ltb_spec n 1); [lia|]. destruct (Z.ltb_spec 64 n); [lia|].
  cbn [g_chunks g_chunk_size]. unfold u32. rewrite wrap_small by (unfold fits; lia).
  repeat split; try lia. done.
Qed.

(** The frontier geometry of a stripe is a pure function of its data
    area that always works out: between 1 and 64 chunks, each a multiple of 8
    bytes and at least 1 MiB, that cover the area with no chunk left empty. *)
Theorem retention_geometry_covers A :
  0 < A < 2 ^ 63 ->
  let g := retention_geometry A in
  1 <= g_chunks g <= 64 /\ kMinFrontierChunk <= g_chunk_size g /\ (8 | g_chunk_size g) /\
  (g_chunks g - 1) * g_chunk_size g < A <= g_chunks g * g_chunk_size g.
Proof. intros HA. destruct (retention_geometry_spec A HA) as (? & ? & ? & ? & _). done. Qed.

Lemma retention_geometry_covers_witness :
  retention_geometry (2 ^ 30) = {| g_chunks := 64; g_chunk_size := 2 ^ 24 |} /\
  1 <= g_chunks (retention_geometry (2 ^ 30)) <= 64.
Proof. split; [reflexivity|]. apply (retention_geometry_covers (2 ^ 30)). lia. Defined.

(** The source's static assertions. *)
Example retention_geometry_asserts :
  retention_geometry (2 ^ 25) = {| g_chunks := 32; g_chunk_size := kMinFrontierChunk |} /\
  g_chunks (retention_geometry (2 ^ 20)) = 1.
Proof. split; reflexivity. Qed.

(** ** Stripes of a volume *)

Definition VolumeHeader_kSize : Z := 64.
Definition kMinStripeSize : Z := 128 * 1024 * 1024.
Definition kAutoStripeGranularity : Z := 32 * 1024 * 1024.
Definition kAutoStripeTarget : Z := 16.
Definition kDirectoryEntriesPerSegment : Z := 16 * 1024.

Record StripeGeometry := { num_stripes : Z; base_stripe_size : Z; stripe_remainder : Z }.

Definition clamp (x lo hi : Z) : Z := if x <? lo then lo else if hi <? x then hi else x.

Definition compute_stripe_geometry (volume_size explicit_stripe_size : Z) : StripeGeometry :=
  let usable_size := u64 (volume_size - VolumeHeader_kSize) in
  if explicit_stripe_size =? 0 then
    let n := u64 (usable_size + kAutoStripeGranularity / 2) / kAutoStripeGranularity in
    let n := clamp n 1 kAutoStripeTarget in
    let base := align_down (usable_size / n) 12 in
    if base =? 0 then {| num_stripes := 1; base_stripe_size := usable_size; stripe_remainder := 0 |}
    else {| num_stripes := n; base_stripe_size := base;
            stripe_remainder := u64 (usable_size - u64 (base * n)) |}
  else
    let base := align_down (Z.max explicit_stripe_size kMinStripeSize) 12 in
    let n := usable_size / base in
    if n =? 0 then {| num_stripes := 1; base_stripe_size := usable_size; stripe_remainder := 0 |}
    else {| num_stripes := n; base_stripe_size := base; stripe_remainder := 0 |}.

(** [MmapDirectory::required_size] and its parts ([sizeof(Header)] is 64,
    [sizeof(RetentionRegion)] 264). *)
Definition entries_offset (num_buckets : Z) : Z := align_down (64 + num_buckets * 4 + 7) 3.
Definition retention_offset (num_buckets : Z) : Z :=
  align_down (entries_offset num_buckets + num_buckets * Z.of_nat kEntriesPerBucket * Z.of_nat kSize + 7) 3.
Definition required_size (num_buckets : Z) : Z :=
  if (2 ^ 64 - 1) / (Z.of_nat kEntriesPerBucket * Z.of_nat kSize + 4 + 1) <? num_buckets then 2 ^ 64 - 1
  else retention_offset num_buckets + 264.

Definition stripe_directory_span (mmap_directory : bool) : Z :=
  if mmap_directory then
    let kPageSize := 4096 in
    let dir_size := required_size kDirectoryEntriesPerSegment in
    ((dir_size + kPageSize - 1) / kPageSize) * kPageSize
  else
    let dir_area := kDirectoryEntriesPerSegment * Z.of_nat kEntriesPerBucket * Z.of_nat kSize in
    align_down (dir_area + 7) 3.

Definition stripe_geometry_fits (volume_size explicit_stripe_size : Z) (mmap_directory : bool) : bool :=
  if volume_size <=? VolumeHeader_kSize then false
  else
    let geom := compute_stripe_geometry volume_size explicit_stripe_size in
    stripe_directory_span mmap_directory + Z.of_nat kHeaderSize <=? base_stripe_size geom.

(** Where [init_stripes] seats the stripes: [(offset, size)] of each. *)
Fixpoint layout_from (k : nat) (i offset : Z) (g : StripeGeometry) : list (Z * Z) :=
  match k with
  | O => []
  | S k =>
      let size := base_stripe_size g + (if i + 1 =? num_stripes g then stripe_remainder g else 0) in
      (offset, size) :: layout_from k (i + 1) (offset + size) g
  end.

Definition stripe_layout (volume_size explicit_stripe_size : Z) : list (Z * Z) :=
  let g := compute_stripe_geometry volume_size explicit_stripe_size in
  layout_from (Z.to_nat (num_stripes g)) 0 VolumeHeader_kSize g.

(** The static assertions on the directory's size. *)
Example required_size_asserts :
  required_size kDirectoryEntriesPerSegment = 721224 /\ stripe_directory_span true = 177 * 4096 /\
  stripe_directory_span false = 655360.
Proof. repeat split; reflexivity. Qed.

Lemma compute_stripe_geometry_spec vs es :
  VolumeHeader_kSize < vs < 2 ^ 62 -> 0 <= es < 2 ^ 62 ->
  let g := compute_stripe_geometry vs es in
  let usable := vs - VolumeHeader_kSize in
  1 <= num_stripes g /\ 0 < base_stripe_size g /\ 0 <= stripe_remainder g /\
  num_stripes g * base_stripe_size g + stripe_remainder g <= usable /\
  (es = 0 -> num_stripes g <= kAutoStripeTarget /\
     num_stripes g * base_stripe_size g + stripe_remainder g = usable) /\
  (1 < num_stripes g -> (4096 | base_stripe_size g)) /\
  (stripe_remainder g <> 0 -> (4096 | base_stripe_size g)).
Proof.
  intros Hvs Hes. unfold compute_stripe_geometry, VolumeHeader_kSize in *. cbv zeta.
  unfold u64. rewrite (wrap_small 64 (vs - 64)) by (unfold fits; lia).
  set (u := vs - 64) in *. assert (0 < u < 2 ^ 62) as Hu by lia.
  unfold kAutoStripeGranularity, kAutoStripeTarget, kMinStripeSize.
  destruct (Z.eqb_spec es 0) as [->|Hes0].
  - rewrite (wrap_small 64 (u + _)) by (unfold fits; Z.div_mod_to_equations; lia).
    set (n := clamp _ 1 16). assert (1 <= n <= 16) as Hn.
    { subst n. unfold clamp. destruct (Z.ltb_spec ((u + 32 * 1024 * 1024 / 2) / (32 * 1024 * 1024)) 1); [lia|].
      destruct (Z.ltb_spec 16 ((u + 32 * 1024 * 1024 / 2) / (32 * 1024 * 1024))); lia. }
    rewrite align_down_spec by lia. set (b := u / n / 2 ^ 12 * 2 ^ 12).
    assert (0 <= u / n) by (apply Z.div_pos; lia).
    assert (0 <= b <= u / n) as Hb by (subst b; Z.div_mod_to_equations; lia).
    assert (n * (u / n) <= u) by (apply Z.mul_div_le; lia).
    destruct (Z.eqb_spec b 0) as [Hb0|Hb0]; cbn [num_stripes base_stripe_size stripe_remainder].
    { repeat split; try lia. }
    rewrite (wrap_small 64 (b * n)), (wrap_small 64 (u - b * n)) by (unfold fits; nia).
    repeat split; try nia; intros _; now exists (u / n / 2 ^ 12).
  - rewrite align_down_spec by lia. set (b := Z.max es (128 * 1024 * 1024) / 2 ^ 12 * 2 ^ 12).
    assert (0 < b) as Hb by (subst b; Z.div_mod_to_equations; lia).
    assert (0 <= u / b) by (apply Z.div_pos; lia).
    assert (b * (u / b) <= u) by (apply Z.mul_div_le; lia).
    destruct (Z.eqb_spec (u / b) 0); cbn [num_stripes base_stripe_size stripe_remainder];
      repeat split; try lia; intros _; now exists (Z.max es (128 * 1024 * 1024) / 2 ^ 12).
Qed.

Lemma layout_from_lookup k i off g j o s :
  i + Z.of_nat k = num_stripes g -> layout_from k i off g !! j = Some (o, s) ->
  (j < k)%nat /\ o = off + Z.of_nat j * base_stripe_size g /\
  s = base_stripe_size g + (if i + Z.of_nat j + 1 =? num_stripes g then stripe_remainder g else 0).
Proof.
  revert i off j. induction k as [|k IH]; intros i off j Hk; cbn [layout_from]; [done|].
  destruct j as [|j].
  - intros [= <- <-]. rewrite !Z.add_0_r. repeat split; lia.
  - intros Hj. apply IH in Hj as (Hlt & -> & ->); [|lia].
    destruct (Z.eqb_spec (i + 1) (num_stripes g)); [lia|]. split; [lia|].
    rewrite Nat2Z.inj_succ. split; [lia|]. now rewrite <- Z.add_1_l, Z.add_assoc.
Qed.

Lemma length_layout_from k i off g : length (layout_from k i off g) = k.
Proof. revert i off. induction k; intros; cbn; auto. Qed.

(** The stripes of a volume tile it: the layout has the computed number
    of stripes, each seated at the 8-byte aligned end of the previous one,
    starting after the volume header and ending inside the volume, none
    smaller than the base size (so each holds its directory and a document
    header when [stripe_geometry_fits] accepted the size); an automatic
    layout has at most 16 stripes and leaves no byte unused. *)
Theorem stripe_layout_tiles vs es mmap :
  VolumeHeader_kSize < vs < 2 ^ 62 -> 0 <= es < 2 ^ 62 ->
  let g := compute_stripe_geometry vs es in
  let l := stripe_layout vs es in
  Z.of_nat (length l) = num_stripes g /\
  (forall i o s, l !! i = Some (o, s) ->
     VolumeHeader_kSize <= o /\ (8 | o) /\ o + s <= vs /\ base_stripe_size g <= s /\
     (stripe_geometry_fits vs es mmap = true ->
        stripe_directory_span mmap + Z.of_nat kHeaderSize <= s) /\
     (forall o' s', l !! S i = Some (o', s') -> o' = o + s) /\
     (es = 0 -> S i = length l -> o + s = vs)) /\
  (es = 0 -> num_stripes g <= kAutoStripeTarget).
Proof.
  intros Hvs Hes. cbv zeta. destruct (compute_stripe_geometry_spec vs es Hvs Hes) as (G1 & G2 & G3 & G4 & G5 & G6 & G7).
  unfold stripe_layout. set (g := compute_stripe_geometry vs es) in *.
  rewrite length_layout_from, Z2Nat.id by lia. split; [done|]. split; [|intros H0; now apply G5].
  assert (0 + Z.of_nat (Z.to_nat (num_stripes g)) = num_stripes g) as Hk by lia.
  intros i o s Hi. apply (layout_from_lookup _ _ _ _ _ _ _ Hk) in Hi as (Hlt & -> & ->).
  unfold VolumeHeader_kSize in *. rewrite Z.add_0_l.
  split; [nia|]. split.
  { apply Z.divide_add_r; [now exists 8|]. destruct (decide (i = 0%nat)) as [->|]; [now exists 0|].
    apply Z.divide_mul_r. destruct G6 as [k ->]; [lia|]. exists (k * 512). lia. }
  assert (Z.of_nat i * base_stripe_size g + base_stripe_size g <= num_stripes g * base_stripe_size g) as Hib by nia.
  split; [destruct (Z.eqb_spec (Z.of_nat i + 1) (num_stripes g)); lia|].
  split; [destruct (Z.eqb_spec (Z.of_nat i + 1) (num_stripes g)); lia|].
  split; [|split].
  - unfold stripe_geometry_fits. fold g. destruct (vs <=? VolumeHeader_kSize); [done|].
    intros Hf. apply Z.leb_le in Hf. destruct (Z.of_nat i + 1 =? num_stripes g); lia.
  - intros o' s' Hn. apply (layout_from_lookup _ _ _ _ _ _ _ Hk) in Hn as (Hlt' & -> & _).
    destruct (Z.eqb_spec (Z.of_nat i + 1) (num_stripes g)); lia.
  - intros H0 Hl. destruct (G5 H0) as [_ G5']. destruct (Z.eqb_spec (Z.of_nat i + 1) (num_stripes g)); [|lia].
    replace (Z.of_nat i) with (num_stripes g - 1) by lia. lia.
Qed.

Lemma stripe_layout_tiles_witness :
  Z.of_nat (length (stripe_layout (2 ^ 28 + 64) 0)) = 8.
Proof.
  destruct (stripe_layout_tiles (2 ^ 28 + 64) 0 true) as (H & _).
  - unfold VolumeHeader_kSize. lia.
  - lia.
  - rewrite H. reflexivity.
Defined.
