(* ===== verification/Stripe.v ===== *)
(** * Stripes and admission (src/src/core/volume.hpp [Stripe], volume.cpp)

    A stripe's frontier geometry ([configure_frontier]), the snapshot every
    read decides admission against ([Volume::snapshot]), the position leg
    ([admit_position], [admit_hop]), the stamp and exposure legs
    ([stamp_admits], [admit_document]) and the recheck of a raced probe.  The
    stripe discharges the directory's [InsertAdmission] interface.

    The exposure generation is G = pass * (N + 1) + frontier. *)

From S2P Require Import Prelude Document DirEntry Directory Geometry.
Local Open Scope cyc_scope.

(** ** Data *)

(** The fields of [Stripe] that are fixed once the stripe is configured. *)
Record Stripe := {
  st_offset : Z;
  st_size : Z;
  st_data_offset : Z;
  st_chunks : Z;              (* N, uint32_t *)
  st_chunk_size : Z;          (* Q *)
  st_gen_div : FastDivU64;
  st_chunk_div : FastDivU64;
  st_retain : bool;
  st_use_mmap : bool;
}.

Definition data_start_rel (s : Stripe) : Z := st_data_offset s - st_offset s.

(** [configure_frontier] over a stripe seated at [off] with its data area at
    [data_off]. *)
Definition configure_frontier (off size data_off : Z) (wrap_retention use_mmap : bool) : Stripe :=
  let data_area := size - (data_off - off) in
  let g := if wrap_retention then retention_geometry data_area
           else {| g_chunks := 1; g_chunk_size := data_area |} in
  {| st_offset := off; st_size := size; st_data_offset := data_off;
     st_chunks := g_chunks g; st_chunk_size := g_chunk_size g;
     st_gen_div := new_FastDivU64 (g_chunks g + 1);
     st_chunk_div := new_FastDivU64 (g_chunk_size g);
     st_retain := wrap_retention; st_use_mmap := use_mmap |}.

Record StripeSnapshot := {
  snap_gen : Z; snap_pass : Z; snap_frontier : Z; snap_phase : bool;
  snap_cursor_rel : Z; snap_frontier_rel : Z }.

Record BorrowEpoch := { be_threshold : Z }.

(** ** Operations *)

Definition in_data_area (s : Stripe) (rel : Z) : bool :=
  (data_start_rel s <=? rel) && (rel <? st_size s) && (u64 (rel + Z.of_nat kHeaderSize) <=? st_size s).

Definition frontier_rel_of (s : Stripe) (f : Z) : Z :=
  if st_chunks s <=? f then st_size s
  else
    let rel := u64 (data_start_rel s + u64 (f * st_chunk_size s)) in
    if rel <? st_size s then rel else st_size s.

(** The low bit of a pass is the phase its entries carry. *)
Definition phase_of_pass (pass : Z) : bool := negb (pass .& 1 =? 0).

Section stripe_ops.
Variable bld : mulhi_build.

Definition chunk_of (s : Stripe) (rel : Z) : Z :=
  let start := data_start_rel s in
  if (st_chunks s <=? 1) || (rel <=? start) || (st_chunk_size s =? 0) then 0
  else
    let c := quot bld (st_chunk_div s) (rel - start) in
    if st_chunks s <=? c then st_chunks s - 1 else u32 c.

Definition pass_of (s : Stripe) (gen : Z) : Z := quot bld (st_gen_div s) gen.

Definition exposure_threshold (s : Stripe) (pass rel : Z) : Z :=
  u64 (u64 (u64 (pass + 1) * (st_chunks s + 1)) + chunk_of s rel).

Definition snapshot (s : Stripe) (gen cursor : Z) : StripeSnapshot :=
  let n := st_chunks s in
  let pass := pass_of s gen in
  let frontier := Z.min (u64 (gen - u64 (pass * (n + 1)))) n in
  {| snap_gen := gen; snap_pass := pass; snap_frontier := frontier;
     snap_phase := phase_of_pass pass;
     snap_cursor_rel := if st_offset s <? cursor then Z.min (cursor - st_offset s) (st_size s) else 0;
     snap_frontier_rel := frontier_rel_of s frontier |}.

Definition admit_position (s : Stripe) (rel : Z) (entry_phase : bool) (snap : StripeSnapshot) : AdmitClass :=
  if negb (in_data_area s rel) then kReject
  else if Bool.eqb entry_phase (snap_phase snap) then
    if rel <? snap_cursor_rel snap then kCurrent else kReject
  else if st_retain s && (0 <? snap_pass snap) && (snap_frontier_rel snap <=? rel) then kRetained
  else kReject.

Definition expected_pass (cls : AdmitClass) (snap : StripeSnapshot) : Z :=
  match cls with kRetained => snap_pass snap - 1 | _ => snap_pass snap end.

Definition admit_hop (s : Stripe) (target_rel source_rel : Z) (source_cls : AdmitClass)
    (snap : StripeSnapshot) : AdmitClass :=
  if (target_rel =? 0) || negb (in_data_area s target_rel) || (source_rel <=? target_rel) then kReject
  else match source_cls with
  | kCurrent => if target_rel <? snap_cursor_rel snap then kCurrent else kReject
  | kRetained => if st_retain s && (snap_frontier_rel snap <=? target_rel) then kRetained else kReject
  | kReject => kReject
  end.

Definition borrow_epoch (s : Stripe) (pass rel : Z) : BorrowEpoch :=
  {| be_threshold := exposure_threshold s pass rel |}.

(** The stamp leg; the flag says whether a stamp rejection was counted. *)
Definition stamp_admits (s : Stripe) (snap : StripeSnapshot) (cls : AdmitClass) (doc : Document) : bool :=
  if negb (st_retain s) then true
  else write_serial doc =? u32 (expected_pass cls snap).

Definition admit_document (s : Stripe) (snap : StripeSnapshot) (cls : AdmitClass) (rel : Z)
    (doc : Document) : option BorrowEpoch :=
  if bool_decide (cls = kReject) || negb (stamp_admits s snap cls doc) then None
  else
    let epoch := borrow_epoch s (expected_pass cls snap) rel in
    if be_threshold epoch <? snap_gen snap then None else Some epoch.

(** [node_admissible_now], against a fresh snapshot [now]. *)
Definition node_admissible_now (s : Stripe) (now : StripeSnapshot) (rel : Z) (doc : Document) : bool :=
  if negb (in_data_area s rel) then false
  else if negb (st_retain s) then rel <? snap_cursor_rel now
  else if write_serial doc =? u32 (snap_pass now) then rel <? snap_cursor_rel now
  else if (0 <? snap_pass now) && (write_serial doc =? u32 (snap_pass now - 1))
  then snap_frontier_rel now <=? rel
  else false.

Definition wrapped_since (s : Stripe) (gen : Z) (snap_start : StripeSnapshot) : bool :=
  negb (pass_of s gen =? snap_pass snap_start).

(** *** Probing through the snapshot *)

(** [ProbeRejects]: at most [kEntriesPerBucket] distinct rejected entries. *)
Definition note (rejects : list (Z * bool)) (rel : Z) (entry_phase : bool) : list (Z * bool) :=
  if existsb (fun r => (fst r =? rel) && Bool.eqb (snd r) entry_phase) rejects then rejects
  else if (length rejects <? kEntriesPerBucket)%nat then rejects ++ [(rel, entry_phase)]
  else rejects.

(** What [Stripe::probe_each] hands its callback over the entries a bucket
    probe yields, and the rejects it notes. *)
Fixpoint probe_admitted (s : Stripe) (snap : StripeSnapshot) (l : list DirEntry) (rejects : list (Z * bool))
  : list (DirEntry * AdmitClass) * list (Z * bool) :=
  match l with
  | [] => ([], rejects)
  | e :: l =>
      match admit_position s (DirEntry.offset e) (phase e) snap with
      | kReject => probe_admitted s snap l (note rejects (DirEntry.offset e) (phase e))
      | cls => let (r, rejects) := probe_admitted s snap l rejects in ((e, cls) :: r, rejects)
      end
  end.

Definition probe_raced_publish (s : Stripe) (now : StripeSnapshot) (rejects : list (Z * bool)) : bool :=
  existsb (fun r => negb (bool_decide (admit_position s (fst r) (snd r) now = kReject))) rejects.

(** *** [StripeAdmission]: the directory's interface, discharged *)

(** The object holds the volume and the stripe, whose generation and cursor
    [refresh] loads, and the snapshot it took. *)
Record StripeAdmission := { sa_stripe : Stripe; sa_gen : Z; sa_cursor : Z; sa_snap : StripeSnapshot }.

#[export] Instance stripe_admission : InsertAdmission StripeAdmission := {
  refresh a := {| sa_stripe := sa_stripe a; sa_gen := sa_gen a; sa_cursor := sa_cursor a;
                  sa_snap := snapshot (sa_stripe a) (sa_gen a) (sa_cursor a) |};
  classify a rel p := admit_position (sa_stripe a) rel p (sa_snap a);
}.

(** ** Configured stripes *)

(** A stripe as [init_stripes] configures it: inside the 40-bit offset range
    of an entry, with a data area that holds a document header. *)
Record stripe_ok (s : Stripe) : Prop := {
  so_offset : 0 <= st_offset s < 2 ^ 62;
  so_start : 0 < data_start_rel s;
  so_area : data_start_rel s + Z.of_nat kHeaderSize <= st_size s;
  so_size : st_size s <= 2 ^ 40;
  so_align : (8 | st_data_offset s) /\ (8 | st_offset s);
  so_chunks : 1 <= st_chunks s <= 64;
  so_cover : (st_chunks s - 1) * st_chunk_size s < st_size s - data_start_rel s
             <= st_chunks s * st_chunk_size s;
  so_chunk_size : st_chunk_size s < 2 ^ 62;
  so_gen_div : st_gen_div s = new_FastDivU64 (st_chunks s + 1);
  so_chunk_div : st_chunk_div s = new_FastDivU64 (st_chunk_size s);
}.

Lemma configure_frontier_ok off size data_off retain mmap :
  0 <= off < 2 ^ 62 -> off < data_off -> data_off - off + Z.of_nat kHeaderSize <= size ->
  size <= 2 ^ 40 -> (8 | data_off) -> (8 | off) ->
  stripe_ok (configure_frontier off size data_off retain mmap).
Proof.
  intros H1 H2 H3 H4 H5 H6. assert (0 < size - (data_off - off)) by (unfold kHeaderSize in *; lia).
  split; unfold configure_frontier, data_start_rel; cbn; try done; try lia.
  - destruct retain; [|cbn; lia].
    destruct (retention_geometry_spec (size - (data_off - off)) ltac:(lia)) as (Hn & _). exact Hn.
  - destruct retain; [|cbn; lia].
    destruct (retention_geometry_spec (size - (data_off - off)) ltac:(lia)) as (_ & _ & _ & Hc & _). exact Hc.
  - destruct retain; [|cbn; lia].
    destruct (retention_geometry_spec (size - (data_off - off)) ltac:(lia)) as (_ & _ & _ & _ & Hc). exact Hc.
Qed.

Section configured.
Context (s : Stripe) (Hs : stripe_ok s).

Local Abbreviation N := (st_chunks s).
Local Abbreviation Q := (st_chunk_size s).

Lemma chunk_size_pos : 0 < Q.
Proof using Hs. destruct Hs. unfold kHeaderSize in *. nia. Qed.

Lemma chunk_size_fits : fits 64 Q.
Proof using Hs. pose proof chunk_size_pos. destruct Hs. unfold fits. lia. Qed.

Lemma pass_of_spec gen : fits 64 gen -> pass_of s gen = gen / (N + 1).
Proof using Hs.
  intros Hg. unfold pass_of. destruct Hs. rewrite so_gen_div0, quot_div by (unfold fits in *; lia).
  destruct (Z.eqb_spec (N + 1) 0); [lia|done].
Qed.

Lemma frontier_rel_of_spec f :
  0 <= f -> frontier_rel_of s f = if N <=? f then st_size s
                                               else Z.min (data_start_rel s + f * Q) (st_size s).
Proof using Hs.
  intros Hf. pose proof chunk_size_pos as HQ. unfold frontier_rel_of. destruct (Z.leb_spec N f); [done|]. destruct Hs.
  assert (0 <= f * Q < 2 ^ 41) by nia.
  unfold u64. rewrite (wrap_small 64 (f * Q)), wrap_small by (unfold fits; lia).
  destruct (Z.ltb_spec (data_start_rel s + f * Q) (st_size s)); lia.
Qed.

Lemma chunk_of_spec rel :
  data_start_rel s <= rel < st_size s ->
  chunk_of s rel = (rel - data_start_rel s) / Q /\ 0 <= chunk_of s rel < N.
Proof using Hs.
  intros Hrel. pose proof chunk_size_fits as HQ. pose proof chunk_size_pos as HQ0. unfold chunk_of. destruct Hs.
  assert (0 <= (rel - data_start_rel s) / Q < N) as Hc.
  { split; [apply Z.div_pos; lia|]. apply Z.div_lt_upper_bound; lia. }
  destruct (Z.leb_spec N 1); cbn [orb].
  { assert (N = 1) as E by lia. rewrite E in *. split; [|lia]. lia. }
  destruct (Z.leb_spec rel (data_start_rel s)); cbn [orb].
  { replace (rel - data_start_rel s) with 0 by lia. rewrite Z.div_0_l by lia. lia. }
  destruct (Z.eqb_spec Q 0); [lia|].
  rewrite so_chunk_div0, quot_div by (unfold fits in *; lia).
  destruct (Z.eqb_spec Q 0); [lia|].
  destruct (Z.leb_spec N ((rel - data_start_rel s) / Q)); [lia|].
  unfold u32. rewrite wrap_small by (unfold fits; lia). split; [done|lia].
Qed.

(** G = pass * (N + 1) + frontier: the two parts of a generation. *)
Definition gen_at (pass f : Z) : Z := pass * (N + 1) + f.

Lemma gen_at_div pass f : 0 <= f <= N -> gen_at pass f / (N + 1) = pass.
Proof using Hs.
  intros Hf. destruct Hs. unfold gen_at. rewrite Z.add_comm, Z.div_add, Z.div_small by lia. lia.
Qed.

Lemma gen_at_mod pass f : 0 <= f <= N -> gen_at pass f mod (N + 1) = f.
Proof using Hs.
  intros Hf. destruct Hs. unfold gen_at. rewrite Z.add_comm, Z.mod_add, Z.mod_small by lia. lia.
Qed.

Lemma gen_split gen : 0 <= gen -> exists pass f, gen = gen_at pass f /\ 0 <= f <= N /\ 0 <= pass.
Proof using Hs.
  intros Hg. destruct Hs. exists (gen / (N + 1)), (gen mod (N + 1)).
  pose proof (Z.div_mod gen (N + 1) ltac:(lia)). pose proof (Z.mod_pos_bound gen (N + 1) ltac:(lia)).
  unfold gen_at. split; [lia|]. split; [lia|]. apply Z.div_pos; lia.
Qed.

Lemma snapshot_spec pass f cursor :
  0 <= f <= N -> 0 <= pass -> gen_at pass f < 2 ^ 64 ->
  snapshot s (gen_at pass f) cursor = {|
    snap_gen := gen_at pass f; snap_pass := pass; snap_frontier := f;
    snap_phase := phase_of_pass pass;
    snap_cursor_rel := if st_offset s <? cursor then Z.min (cursor - st_offset s) (st_size s) else 0;
    snap_frontier_rel := frontier_rel_of s f |}.
Proof using Hs.
  intros Hf Hp Hg. unfold snapshot. assert (0 <= gen_at pass f) by (unfold gen_at; nia).
  rewrite pass_of_spec, gen_at_div by (done || unfold fits; lia).
  assert (Z.min (u64 (gen_at pass f - u64 (pass * (N + 1)))) N = f) as ->; [|done].
  assert (0 <= pass * (N + 1)) by (destruct Hs; nia).
  unfold gen_at in *. unfold u64. rewrite (wrap_small 64 (pass * (N + 1))) by (unfold fits; lia).
  rewrite wrap_small by (unfold fits; lia). lia.
Qed.

(** When a generation passes the exposure threshold of a document of [pass]
    in chunk [c]: the next pass's frontier has crossed the chunk, or a later
    pass has begun. *)
Lemma exposed_iff pass c pass' f' :
  0 <= c < N -> 0 <= f' <= N ->
  (gen_at (pass + 1) c < gen_at pass' f' <-> pass + 1 < pass' \/ (pass' = pass + 1 /\ c < f')).
Proof using Hs. intros Hc Hf. destruct Hs. unfold gen_at. nia. Qed.

Lemma exposure_threshold_spec pass rel :
  data_start_rel s <= rel < st_size s -> 0 <= pass -> gen_at (pass + 2) 0 < 2 ^ 64 ->
  exposure_threshold s pass rel = gen_at (pass + 1) (chunk_of s rel).
Proof using Hs.
  intros Hrel Hp Hg. destruct (chunk_of_spec rel Hrel) as [_ Hc]. unfold exposure_threshold, gen_at in *.
  destruct Hs. assert ((pass + 2) * 2 <= (pass + 2) * (N + 1)) by nia.
  unfold u64. rewrite (wrap_small 64 (pass + 1)) by (unfold fits; lia).
  rewrite (wrap_small 64 ((pass + 1) * _)) by (unfold fits; nia).
  apply wrap_small. unfold fits. nia.
Qed.

Lemma in_data_area_spec rel :
  0 <= rel < 2 ^ 41 ->
  in_data_area s rel = true <-> data_start_rel s <= rel /\ rel + Z.of_nat kHeaderSize <= st_size s.
Proof using Hs.
  intros Hrel. unfold in_data_area. unfold u64. unfold kHeaderSize.
  rewrite wrap_small by (unfold fits; lia). rewrite !andb_true_iff, !Z.leb_le, Z.ltb_lt. lia.
Qed.

Lemma in_data_area_range rel : in_data_area s rel = true -> data_start_rel s <= rel < st_size s.
Proof using. unfold in_data_area. rewrite !andb_true_iff, !Z.leb_le, Z.ltb_lt. lia. Qed.

(** Beyond the frontier means in a chunk the frontier has not crossed. *)
Lemma frontier_chunk f rel :
  0 <= f <= N -> data_start_rel s <= rel < st_size s -> frontier_rel_of s f <= rel -> f <= chunk_of s rel.
Proof using Hs.
  intros Hf Hrel. pose proof chunk_size_pos. rewrite frontier_rel_of_spec by lia.
  destruct (chunk_of_spec rel Hrel) as [-> Hc].
  destruct (Z.leb_spec N f); [lia|]. intros Hge. apply Z.div_le_lower_bound; [done|]. lia.
Qed.

(** And before it, in one the frontier has crossed. *)
Lemma chunk_frontier f rel :
  0 <= f <= N -> data_start_rel s <= rel < st_size s -> rel < frontier_rel_of s f -> chunk_of s rel < f.
Proof using Hs.
  intros Hf Hrel. pose proof chunk_size_pos. rewrite frontier_rel_of_spec by lia.
  destruct (chunk_of_spec rel Hrel) as [E Hc]. destruct (Z.leb_spec N f); [lia|].
  intros Hlt. rewrite E. apply Z.div_lt_upper_bound; [done|]. lia.
Qed.
End configured.
End stripe_ops.

(** ** Properties *)

(** C20. The position leg implies the exposure leg: a document the snapshot
    admits lies in the data area, and is either behind the cursor in the
    current pass or, in the previous pass, beyond the clean frontier; and in
    both cases the snapshot's generation has not passed the exposure
    threshold of its borrow epoch. So [admit_document] refuses an admitted
    position only for its stamp. *)
Theorem admitted_not_exposed bld s rel entry_phase pass f cursor doc :
  stripe_ok s -> 0 <= f <= st_chunks s -> 0 <= pass -> gen_at s (pass + 2) 0 < 2 ^ 64 ->
  let snap := snapshot bld s (gen_at s pass f) cursor in
  let cls := admit_position s rel entry_phase snap in
  cls <> kReject ->
  data_start_rel s <= rel < st_size s /\
  (cls = kCurrent -> entry_phase = phase_of_pass pass /\ st_offset s + rel < cursor) /\
  (cls = kRetained -> entry_phase <> phase_of_pass pass /\ st_retain s = true /\ 0 < pass /\
     f <= chunk_of bld s rel /\ frontier_rel_of s f <= rel) /\
  snap_gen snap <= exposure_threshold bld s (expected_pass cls snap) rel /\
  (admit_document bld s snap cls rel doc = None <-> stamp_admits s snap cls doc = false).
Proof.
  intros Hs Hf Hp Hg. cbv zeta.
  assert (gen_at s pass f < 2 ^ 64) by (unfold gen_at in *; destruct Hs; nia).
  rewrite snapshot_spec by done.
  unfold admit_position. cbn [snap_phase snap_pass snap_cursor_rel snap_frontier_rel snap_gen].
  destruct (in_data_area s rel) eqn:Ea; cbn [negb]; [|done].
  pose proof (in_data_area_range s rel Ea) as Hr. destruct (chunk_of_spec bld s Hs rel Hr) as [_ Hc].
  destruct (Bool.eqb_spec entry_phase (phase_of_pass pass)) as [Eph|Eph].
  - destruct (Z.ltb_spec rel (if st_offset s <? cursor then Z.min (cursor - st_offset s) (st_size s) else 0));
      [|done].
    intros _. assert (gen_at s pass f <= exposure_threshold bld s pass rel) as Hexp.
    { rewrite exposure_threshold_spec by done. unfold gen_at. destruct Hs. nia. }
    split; [done|]. split; [intros _; split; [done|]|split; [done|]].
    { destruct (Z.ltb_spec (st_offset s) cursor); destruct Hs; lia. }
    cbn [expected_pass snap_pass]. split; [done|].
    unfold admit_document, borrow_epoch. cbn [be_threshold expected_pass snap_pass snap_gen].
    destruct (Z.ltb_spec (exposure_threshold bld s pass rel) (gen_at s pass f)); [lia|].
    destruct (stamp_admits _ _ _ _); cbn; split; done.
  - destruct (st_retain s) eqn:Ert; cbn [andb]; [|done].
    destruct (Z.ltb_spec 0 pass); cbn [andb]; [|done].
    destruct (Z.leb_spec (frontier_rel_of s f) rel) as [Hfr|]; [|done]. intros _.
    pose proof (frontier_chunk bld s Hs f rel Hf Hr Hfr) as Hfc.
    assert (gen_at s pass f <= exposure_threshold bld s (pass - 1) rel) as Hexp.
    { rewrite exposure_threshold_spec by (done || lia || (unfold gen_at in *; destruct Hs; nia)).
      unfold gen_at. lia. }
    split; [done|]. split; [done|]. split; [done|]. cbn [expected_pass snap_pass]. split; [done|].
    unfold admit_document, borrow_epoch. cbn [be_threshold expected_pass snap_pass snap_gen].
    destruct (Z.ltb_spec (exposure_threshold bld s (pass - 1) rel) (gen_at s pass f)); [lia|].
    destruct (stamp_admits _ _ _ _); cbn; split; done.
Qed.

(** Chain hops stay inside what the snapshot admits: a hop is taken only
    to a strictly lower offset of the data area (so a chain walk visits
    finitely many nodes), keeps the class of the node it starts from, and its
    target passes the same position and exposure legs as a directory entry of
    that class. *)
Theorem hop_admissible bld s target source cls pass f cursor :
  stripe_ok s -> 0 <= f <= st_chunks s -> 0 < pass -> gen_at s (pass + 2) 0 < 2 ^ 64 ->
  let snap := snapshot bld s (gen_at s pass f) cursor in
  admit_hop s target source cls snap <> kReject ->
  admit_hop s target source cls snap = cls /\
  data_start_rel s <= target < source /\ target < st_size s /\
  (cls = kCurrent -> st_offset s + target < cursor) /\
  (cls = kRetained -> frontier_rel_of s f <= target) /\
  snap_gen snap <= exposure_threshold bld s (expected_pass cls snap) target /\
  (Z.to_nat target < Z.to_nat source)%nat.
Proof.
  intros Hs Hf Hp Hg. cbv zeta.
  assert (gen_at s pass f < 2 ^ 64) by (unfold gen_at in *; destruct Hs; nia).
  rewrite snapshot_spec by (done || lia). unfold admit_hop.
  cbn [snap_phase snap_pass snap_cursor_rel snap_frontier_rel snap_gen].
  destruct (Z.eqb_spec target 0); cbn [orb]; [done|].
  destruct (in_data_area s target) eqn:Ea; cbn [negb orb]; [|done].
  pose proof (in_data_area_range s target Ea) as Hr. pose proof (so_start s Hs).
  destruct (Z.leb_spec source target); cbn [orb]; [done|]. destruct cls; [done| |].
  - destruct (Z.ltb_spec target (if st_offset s <? cursor then Z.min (cursor - st_offset s) (st_size s) else 0));
      [|done].
    intros _. split; [done|]. do 2 (split; [lia|]). split; [|split; [done|split; [|lia]]].
    + intros _. destruct (Z.ltb_spec (st_offset s) cursor); destruct Hs; lia.
    + cbn [expected_pass snap_pass]. rewrite exposure_threshold_spec by (done || lia).
      destruct (chunk_of_spec bld s Hs target Hr) as [_ Hc]. unfold gen_at. destruct Hs. nia.
  - destruct (st_retain s); cbn [andb]; [|done].
    destruct (Z.leb_spec (frontier_rel_of s f) target) as [Hfr|]; [|done].
    intros _. split; [done|]. do 2 (split; [lia|]). split; [done|]. split; [done|]. split; [|lia].
    cbn [expected_pass snap_pass].
    rewrite exposure_threshold_spec by (done || lia || (unfold gen_at in *; destruct Hs; nia)).
    pose proof (frontier_chunk bld s Hs f target Hf Hr Hfr). unfold gen_at. lia.
Qed.

(** Inserts spare what readers can still resolve: under the stripe's
    admission, an insert displaces an entry its snapshot admits, other than
    the verified entry of its own key and an entry at the offset it writes,
    only when every slot of the bucket holds an admitted entry. *)
Theorem insert_spares_admitted bld d key off sz v (a : StripeAdmission) cl serial i old :
  let AI := stripe_admission bld in
  let b := bucket_of d (bucket_index d key) in
  let snap := snapshot bld (sa_stripe a) (sa_gen a) (sa_cursor a) in
  let admitted e := is_empty e = false /\
    admit_position (sa_stripe a) (DirEntry.offset e) (phase e) snap <> kReject in
  dir_ok d -> 0 < off < 2 ^ 40 -> fits 16 serial -> v <> kMatchAnyTag ->
  b !! i = Some old -> admitted old ->
  bucket_of (ir_dir (insert_admitted d key off sz v a cl None serial)) (bucket_index d key) !! i <> Some old ->
  (DirEntry.tag old = Key.tag key /\ (DirEntry.offset old = v \/ DirEntry.offset old = off \/ DirEntry.offset old ∈ cl)) \/
  (forall j e, b !! j = Some e -> admitted e).
Proof.
  intros AI b snap admitted Hd Hoff Hser Hv Hi [Hne Hadm] Hchg.
  destruct (insert_admitted_commits d key off sz v a cl None serial Hd Hoff Hser eq_refl)
    as (k & e & c & [Hk Hmin] & Er & _). fold b in Hk, Hmin, Er.
  rewrite Er in Hchg. cbn [ir_dir] in Hchg.
  pose proof (bucket_index_lt d key Hd) as Hb.
  destruct (inserted_ok d key off sz v a cl serial k e _ eq_refl Hd ltac:(unfold fits; lia) Hser Hk) as [Hlen _].
  rewrite commit_bucket_same in Hchg by done. unfold inserted in Hchg. fold b in Hchg.
  rewrite list_lookup_imap in Hchg. destruct (decide (k = i)) as [->|Hki].
  2: { left. rewrite list_lookup_insert_ne, Hi in Hchg by done. cbn in Hchg.
       destruct (dead k (Key.tag key) off cl i old) eqn:Ed; [|done].
       apply dead_true in Ed as (_ & _ & ? & [?|?]); auto. }
  rewrite Hi in Hk. injection Hk as <-.
  destruct (decide (DirEntry.tag old = Key.tag key /\ (DirEntry.offset old = v \/ DirEntry.offset old = off)))
    as [[? [?|?]]|Hn]; [left; auto..|right].
  pose proof (admitted_rank (refresh a) (Key.tag key) v off old Hne Hadm Hv Hn) as Hr.
  intros j e' Hj. specialize (Hmin j e' Hj).
  assert (4 <= rank (refresh a) (Key.tag key) v off e')%nat as Hr' by (unfold precedes in Hmin; lia).
  exact (rank_admitted (refresh a) (Key.tag key) v off e' Hr').
Qed.

(** A raced probe is retried exactly when a fresh snapshot admits one of the
    entries the probe turned away. *)
Lemma probe_raced_publish_iff s now rejects :
  probe_raced_publish s now rejects = true <->
  exists r, r ∈ rejects /\ admit_position s (fst r) (snd r) now <> kReject.
Proof.
  unfold probe_raced_publish. rewrite existsb_exists. split; intros (r & Hr & Ha); exists r.
  - apply list_elem_of_In in Hr. rewrite negb_true_iff, bool_decide_eq_false in Ha. done.
  - apply list_elem_of_In in Hr. rewrite negb_true_iff, bool_decide_eq_false. done.
Qed.

(** ** Witnesses *)

(** A 64 MiB stripe with wrap retention, seated after the volume header. *)
Definition sample_stripe : Stripe :=
  configure_frontier 64 (2 ^ 26) (64 + stripe_directory_span false) true false.

Lemma sample_stripe_ok : stripe_ok sample_stripe.
Proof.
  assert (stripe_directory_span false = 655360) as E by reflexivity. unfold sample_stripe. rewrite E.
  apply configure_frontier_ok; unfold kHeaderSize; try lia; [exists 81928|exists 8]; reflexivity.
Qed.

Lemma admitted_not_exposed_witness :
  snap_gen (snapshot mulhi_int128 sample_stripe (gen_at sample_stripe 3 5) (2 ^ 20)) <=
  exposure_threshold mulhi_int128 sample_stripe 2 (2 ^ 25).
Proof.
  destruct (admitted_not_exposed mulhi_int128 sample_stripe (2 ^ 25) false 3 5 (2 ^ 20) default_document)
    as (_ & _ & _ & H & _).
  - exact sample_stripe_ok.
  - vm_compute. split; discriminate.
  - lia.
  - vm_compute. reflexivity.
  - vm_compute. discriminate.
  - revert H. vm_compute. intros H; exact H.
Defined.

Lemma hop_admissible_witness :
  admit_hop sample_stripe (2 ^ 25) (2 ^ 25 + 4096) kRetained
    (snapshot mulhi_int128 sample_stripe (gen_at sample_stripe 3 5) (2 ^ 20)) = kRetained.
Proof.
  apply (hop_admissible mulhi_int128 sample_stripe (2 ^ 25) (2 ^ 25 + 4096) kRetained 3 5 (2 ^ 20)).
  - exact sample_stripe_ok.
  - vm_compute. split; discriminate.
  - lia.
  - vm_compute. reflexivity.
  - vm_compute. discriminate.
Defined.

(** The bucket of [sample_key] full of four admitted entries of other tags. *)
Definition full_dir : Directory :=
  store_bucket (new_directory 3) (bucket_index (new_directory 3) sample_key)
    (map (fun k => fill_entry empty_entry (2 ^ 20 + k * 4096) 100 1 k false) [1; 2; 3; 4]).

Lemma insert_spares_admitted_witness :
  let a := {| sa_stripe := sample_stripe; sa_gen := 0; sa_cursor := 2 ^ 25;
              sa_snap := snapshot mulhi_int128 sample_stripe 0 0 |} in
  let d := set_count full_dir 4 in
  (DirEntry.tag (fill_entry empty_entry (2 ^ 20 + 4096) 100 1 1 false) = Key.tag sample_key /\
     (2 ^ 20 + 4096 = kNoVerifiedEntry \/ 2 ^ 20 + 4096 = 2 ^ 25 \/ 2 ^ 20 + 4096 ∈ @nil Z)) \/
  (forall j e, bucket_of d (bucket_index d sample_key) !! j = Some e ->
     is_empty e = false /\ admit_position sample_stripe (DirEntry.offset e) (phase e)
       (snapshot mulhi_int128 sample_stripe 0 (2 ^ 25)) <> kReject).
Proof.
  apply (insert_spares_admitted mulhi_int128 (set_count full_dir 4) sample_key (2 ^ 25) 700 kNoVerifiedEntry
    {| sa_stripe := sample_stripe; sa_gen := 0; sa_cursor := 2 ^ 25;
       sa_snap := snapshot mulhi_int128 sample_stripe 0 0 |} [] 5 0
    (fill_entry empty_entry (2 ^ 20 + 4096) 100 1 1 false)).
  - split; [cbn; lia|unfold kEntriesPerBucket; cbn; lia|reflexivity| |reflexivity| |reflexivity].
    + unfold full_dir. cbn [set_count entries store_bucket set_entries]. apply Forall_app.
      split; [apply Forall_take, Forall_replicate, empty_entry_ok|].
      apply Forall_app. split; [|apply Forall_drop, Forall_replicate, empty_entry_ok].
      cbn [map]. repeat (constructor; [apply fill_entry_ok; [exact empty_entry_ok|unfold fits; lia]|]). constructor.
    + change (versions (set_count full_dir 4)) with (replicate 3 0). apply Forall_replicate. split; [unfold fits; lia|now exists 0].
  - lia.
  - unfold fits. lia.
  - discriminate.
  - reflexivity.
  - split; [reflexivity|]. vm_compute. discriminate.
  - vm_compute. discriminate.
Defined.
