(* ===== verification/WriteLog.v ===== *)
(** * The cyclic write log of a stripe (src/src/core/volume.cpp)

    The borrow slots of mmap_directory.hpp, the lease and the gate that
    defers a wrap or a frontier advance, the wrap itself (flush and
    retention), the frontier advance, the reservation of a write slot
    ([allocate_write_slot]), its commit, and crash repair.  One call of each
    operation runs under the stripe's locks; what the environment decides (the
    outcome of the cross-process write lock, the clock) is an argument.

    The telemetry counters of the source are the log [ws_events]. *)

From S2P Require Import Prelude Document DirEntry Directory Geometry Stripe.
Local Open Scope cyc_scope.

(** ** Borrow slots: {generation:8, count:24} in 32 bits *)

Definition kCountBits : Z := 24.
Definition kCountMask : Z := (1 << kCountBits) - 1.
Definition generation_of (slot : Z) : Z := u8 (slot >> kCountBits).
Definition count_of (slot : Z) : Z := slot .& kCountMask.
Definition pack_of (gen cnt : Z) : Z := u32 ((gen << kCountBits) .| (cnt .& kCountMask)).

(** The atomic updates: each is one successful compare-exchange of its loop,
    or the read that ended it. *)
Definition slot_acquire (slot : Z) : (Z * bool) * Z :=
  if count_of slot =? kCountMask then ((generation_of slot, false), slot)
  else ((generation_of slot, true), pack_of (generation_of slot) (count_of slot + 1)).

Definition slot_release (slot gen : Z) : Z :=
  if negb (generation_of slot =? gen) || (count_of slot =? 0) then slot
  else pack_of gen (count_of slot - 1).

Definition slot_force_reset (slot : Z) : Z :=
  if count_of slot =? 0 then slot else pack_of (u8 (generation_of slot + 1)) 0.

(** ** State *)

Inductive CacheError := Busy | NoSpace.

Inductive telemetry :=
  | TWrapDeferred | TWriteDropped | TForcedPastLease | TAdvance | TAdvanceDeferred
  | TEarlySkipped | TWrap | TEviction | TForceRelease | TEscalation | TLiveWaits (n : Z)
  | TUsurpAbort.

(** [wrap_intent] values. *)
Definition kIntentClear : Z := 0.
Definition kIntentStep : Z := 1.
Definition kIntentWrapEven : Z := 2.
Definition kIntentWrapOdd : Z := 3.

(** The mutable state of a stripe.  For an in-memory directory the fields are
    the stripe's own atomics; for an mmap directory all but [ws_write_pos] and
    [ws_deferred_since] live in the shared header and retention region, whose
    borrow slots are a single shard. *)
Record State := {
  ws_write_pos : Z;           (* Stripe::write_pos *)
  ws_shared_pos : Z;          (* shared_write_pos *)
  ws_gen : Z;                 (* exposure generation G *)
  ws_intent : Z;
  ws_phase : bool;            (* the directory's current phase *)
  ws_slots : list (list Z);   (* borrow shards, one slot per chunk *)
  ws_lease_expiry : Z;
  ws_deferred_since : Z;
  ws_deadline_ms : Z;
  ws_locked : bool;           (* we hold the cross-process write lock *)
  ws_events : list telemetry;
}.

Record Config := {
  c_lease_t_ns : Z;
  c_lease_ceiling_ns : Z;
  c_fill_large_document_tail : bool;
  c_advance_cursor_at_reservation : bool;   (* the demonstrator seam of the tests *)
}.

Definition set_write_pos (st : State) (p : Z) : State := {|
  ws_write_pos := p; ws_shared_pos := ws_shared_pos st; ws_gen := ws_gen st; ws_intent := ws_intent st;
  ws_phase := ws_phase st; ws_slots := ws_slots st; ws_lease_expiry := ws_lease_expiry st;
  ws_deferred_since := ws_deferred_since st; ws_deadline_ms := ws_deadline_ms st;
  ws_locked := ws_locked st; ws_events := ws_events st |}.
Definition set_shared_pos (st : State) (p : Z) : State := {|
  ws_write_pos := ws_write_pos st; ws_shared_pos := p; ws_gen := ws_gen st; ws_intent := ws_intent st;
  ws_phase := ws_phase st; ws_slots := ws_slots st; ws_lease_expiry := ws_lease_expiry st;
  ws_deferred_since := ws_deferred_since st; ws_deadline_ms := ws_deadline_ms st;
  ws_locked := ws_locked st; ws_events := ws_events st |}.
Definition store_exposure_gen (st : State) (g : Z) : State := {|
  ws_write_pos := ws_write_pos st; ws_shared_pos := ws_shared_pos st; ws_gen := g; ws_intent := ws_intent st;
  ws_phase := ws_phase st; ws_slots := ws_slots st; ws_lease_expiry := ws_lease_expiry st;
  ws_deferred_since := ws_deferred_since st; ws_deadline_ms := ws_deadline_ms st;
  ws_locked := ws_locked st; ws_events := ws_events st |}.
Definition set_intent_value (st : State) (v : Z) : State := {|
  ws_write_pos := ws_write_pos st; ws_shared_pos := ws_shared_pos st; ws_gen := ws_gen st; ws_intent := v;
  ws_phase := ws_phase st; ws_slots := ws_slots st; ws_lease_expiry := ws_lease_expiry st;
  ws_deferred_since := ws_deferred_since st; ws_deadline_ms := ws_deadline_ms st;
  ws_locked := ws_locked st; ws_events := ws_events st |}.
Definition set_dir_phase (st : State) (p : bool) : State := {|
  ws_write_pos := ws_write_pos st; ws_shared_pos := ws_shared_pos st; ws_gen := ws_gen st;
  ws_intent := ws_intent st; ws_phase := p; ws_slots := ws_slots st; ws_lease_expiry := ws_lease_expiry st;
  ws_deferred_since := ws_deferred_since st; ws_deadline_ms := ws_deadline_ms st;
  ws_locked := ws_locked st; ws_events := ws_events st |}.
Definition set_slots (st : State) (l : list (list Z)) : State := {|
  ws_write_pos := ws_write_pos st; ws_shared_pos := ws_shared_pos st; ws_gen := ws_gen st;
  ws_intent := ws_intent st; ws_phase := ws_phase st; ws_slots := l; ws_lease_expiry := ws_lease_expiry st;
  ws_deferred_since := ws_deferred_since st; ws_deadline_ms := ws_deadline_ms st;
  ws_locked := ws_locked st; ws_events := ws_events st |}.
Definition set_lease_expiry (st : State) (t : Z) : State := {|
  ws_write_pos := ws_write_pos st; ws_shared_pos := ws_shared_pos st; ws_gen := ws_gen st;
  ws_intent := ws_intent st; ws_phase := ws_phase st; ws_slots := ws_slots st; ws_lease_expiry := t;
  ws_deferred_since := ws_deferred_since st; ws_deadline_ms := ws_deadline_ms st;
  ws_locked := ws_locked st; ws_events := ws_events st |}.
Definition set_deferral (st : State) (since deadline_ms : Z) : State := {|
  ws_write_pos := ws_write_pos st; ws_shared_pos := ws_shared_pos st; ws_gen := ws_gen st;
  ws_intent := ws_intent st; ws_phase := ws_phase st; ws_slots := ws_slots st;
  ws_lease_expiry := ws_lease_expiry st; ws_deferred_since := since; ws_deadline_ms := deadline_ms;
  ws_locked := ws_locked st; ws_events := ws_events st |}.
Definition set_locked (st : State) (b : bool) : State := {|
  ws_write_pos := ws_write_pos st; ws_shared_pos := ws_shared_pos st; ws_gen := ws_gen st;
  ws_intent := ws_intent st; ws_phase := ws_phase st; ws_slots := ws_slots st;
  ws_lease_expiry := ws_lease_expiry st; ws_deferred_since := ws_deferred_since st;
  ws_deadline_ms := ws_deadline_ms st; ws_locked := b; ws_events := ws_events st |}.
Definition emit (st : State) (t : telemetry) : State := {|
  ws_write_pos := ws_write_pos st; ws_shared_pos := ws_shared_pos st; ws_gen := ws_gen st;
  ws_intent := ws_intent st; ws_phase := ws_phase st; ws_slots := ws_slots st;
  ws_lease_expiry := ws_lease_expiry st; ws_deferred_since := ws_deferred_since st;
  ws_deadline_ms := ws_deadline_ms st; ws_locked := ws_locked st; ws_events := ws_events st ++ [t] |}.

Definition set_wrap_intent (st : State) (active : bool) : State :=
  set_intent_value st (if active then kIntentStep else kIntentClear).
Definition wrap_intent_set (st : State) : bool := negb (ws_intent st =? 0).
Definition mark_wrap_committed (st : State) (new_pass : Z) : State :=
  set_intent_value st (if phase_of_pass new_pass then kIntentWrapOdd else kIntentWrapEven).

Definition current_write_cursor (s : Stripe) (st : State) : Z :=
  if st_use_mmap s then ws_shared_pos st else ws_write_pos st.

(** ** Borrows and leases *)

(** [BorrowToken]. *)
Record BorrowToken := { bt_generation : Z; bt_counted : bool; bt_active : bool; bt_shard : nat; bt_chunk : Z }.

Definition kMaxChunks : Z := 64.
Definition slot_at (st : State) (shard : nat) (chunk : Z) : Z :=
  nth (Z.to_nat chunk) (nth shard (ws_slots st) []) 0.
Definition set_slot (st : State) (shard : nat) (chunk v : Z) : State :=
  set_slots st (alter (fun sh => <[Z.to_nat chunk := v]> sh) shard (ws_slots st)).

(** [shard] is the thread's shard ([0] for an mmap directory). *)
Definition acquire_borrow (cfg : Config) (st : State) (shard : nat) (chunk : Z) : BorrowToken * State :=
  if c_lease_t_ns cfg =? 0 then
    ({| bt_generation := 0; bt_counted := false; bt_active := false; bt_shard := 0; bt_chunk := 0 |}, st)
  else
    let chunk := if kMaxChunks <=? chunk then kMaxChunks - 1 else chunk in
    let '((gen, counted), v) := slot_acquire (slot_at st shard chunk) in
    ({| bt_generation := gen; bt_counted := counted; bt_active := true; bt_shard := shard; bt_chunk := chunk |},
     set_slot st shard chunk v).

(** [admitted] is [HandleCall::admitted]: the volume has not been closed. *)
Definition release_borrow (admitted : bool) (st : State) (t : BorrowToken) : State :=
  if negb (bt_active t) || negb (bt_counted t) then st
  else if negb admitted then st
  else set_slot st (bt_shard t) (bt_chunk t)
         (slot_release (slot_at st (bt_shard t) (bt_chunk t)) (bt_generation t)).

Definition cas_max_lease (cur new_expiry skip_if_at_least : Z) : Z :=
  if cur <? skip_if_at_least then new_expiry else cur.

Definition stamp_read_lease (cfg : Config) (now : Z) (st : State) : State :=
  if c_lease_t_ns cfg =? 0 then st
  else set_lease_expiry st (cas_max_lease (ws_lease_expiry st) (u64 (now + c_lease_t_ns cfg))
         (u64 (now + c_lease_t_ns cfg - c_lease_t_ns cfg / 4))).

Definition borrow_still_counted (st : State) (t : BorrowToken) : bool :=
  if negb (bt_active t) then true
  else generation_of (slot_at st (bt_shard t) (bt_chunk t)) =? bt_generation t.

Definition borrow_still_valid (st : State) (epoch : BorrowEpoch) : bool :=
  if wrap_intent_set st then false else ws_gen st <=? be_threshold epoch.

Definition borrow_still_valid_counted (st : State) (epoch : BorrowEpoch) (t : BorrowToken) : bool :=
  borrow_still_valid st epoch && borrow_still_counted st t.

Inductive LeaseRenewal := kOk | kCopyNow | kTorn | kLeasesOff.

Definition renew_read_lease_strict (cfg : Config) (admitted : bool) (now : Z) (st : State)
    (epoch : BorrowEpoch) (t : BorrowToken) : LeaseRenewal * State :=
  if c_lease_t_ns cfg =? 0 then (kLeasesOff, st)
  else if negb admitted then (kTorn, st)
  else
    let st := stamp_read_lease cfg now st in
    let intent := wrap_intent_set st in
    let epoch_moved := be_threshold epoch <? ws_gen st in
    if epoch_moved then (kTorn, st)
    else if negb (borrow_still_counted st t) then (kTorn, st)
    else if intent then (kCopyNow, st)
    else (kOk, st).

(** ** The gate *)

Definition publish_wrap_deferred_deadline (st : State) (deadline_ns : Z) : State :=
  let ms := if deadline_ns =? 0 then 0
            else let m := u32 (deadline_ns / 1000000) in if m =? 0 then 1 else m in
  set_deferral st (ws_deferred_since st) ms.

Definition set_deferred_since (st : State) (t : Z) : State := set_deferral st t (ws_deadline_ms st).

Definition end_deferral_episode (st : State) : State :=
  if ws_deferred_since st =? 0 then st
  else publish_wrap_deferred_deadline (set_deferred_since st 0) 0.

(** The counts of chunks [lo, hi) over every shard. *)
Definition sum_counts (l : list Z) : Z := fold_right (fun slot acc => count_of slot + acc) 0 l.
Definition borrow_count (st : State) (lo hi : Z) : Z :=
  fold_right (fun shard acc => sum_counts (take (Z.to_nat (hi - lo)) (drop (Z.to_nat lo) shard)) + acc) 0
    (ws_slots st).

Definition lease_live (cfg : Config) (now expiry : Z) : bool :=
  negb (expiry =? 0) && (now <? expiry) && (expiry <=? u64 (now + c_lease_t_ns cfg + c_lease_ceiling_ns cfg)).

Definition lease_active (cfg : Config) (now : Z) (st : State) : bool := lease_live cfg now (ws_lease_expiry st).

Definition lease_gate (cfg : Config) (now : Z) (lo hi : Z) (episode : bool) (st : State) : bool * State :=
  if c_lease_t_ns cfg =? 0 then (true, st)
  else
    let hi := Z.min hi kMaxChunks in
    if negb (lease_active cfg now st) || (borrow_count st lo hi =? 0) then (true, end_deferral_episode st)
    else if negb episode then (false, st)
    else
      let since := ws_deferred_since st in
      if negb (since =? 0) && (c_lease_ceiling_ns cfg <? u64 (now - since)) then
        let st := emit st TForcedPastLease in
        let st := publish_wrap_deferred_deadline (set_deferred_since st 0) 0 in
        (true, set_slots st (map (map slot_force_reset) (ws_slots st)))
      else if since =? 0 then
        (false, publish_wrap_deferred_deadline (set_deferred_since st now) (u64 (now + c_lease_ceiling_ns cfg)))
      else (false, st).

Definition ns_until_forced_wrap (cfg : Config) (admitted : bool) (now : Z) (st : State) : Z :=
  if c_lease_t_ns cfg =? 0 then 2 ^ 64 - 1
  else if negb admitted then 2 ^ 64 - 1
  else if ws_deadline_ms st =? 0 then 2 ^ 64 - 1
  else
    let now_ms := u32 (now / 1000000) in
    let remaining_ms := u32 (ws_deadline_ms st - now_ms) in
    if c_lease_ceiling_ns cfg / 1000000 <? remaining_ms then 0 else remaining_ms * 1000000.

(** ** Wraps and advances *)

Definition publish_wrap_phase (st : State) (new_pass : Z) : State :=
  emit (set_dir_phase st (phase_of_pass new_pass)) TEviction.

Definition record_wrap (st : State) : State := emit st TWrap.

Definition chunk_index_ceil (s : Stripe) (abs : Z) : Z :=
  if (abs <=? st_data_offset s) || (st_chunk_size s =? 0) then 0
  else
    let rel := abs - st_data_offset s in
    Z.min (u64 (rel + st_chunk_size s - 1) / st_chunk_size s) (st_chunks s).

Definition advance_frontier (cfg : Config) (s : Stripe) (now : Z) (pass from to : Z) (episode : bool)
    (st : State) : bool * State :=
  if to <=? from then (true, st)
  else
    let st := set_wrap_intent st true in
    let (passed, st) := lease_gate cfg now from to episode st in
    if negb passed then (false, set_wrap_intent st false)
    else
      let st := store_exposure_gen st (u64 (u64 (pass * (st_chunks s + 1)) + to)) in
      (true, emit (set_wrap_intent st false) TAdvance).

(** What the cross-process write lock did, for one reservation: the token,
    and the answers of [revalidate_write_lock] at the hoisted gate, before the
    wrap lowers the shared cursor, and in the demonstrator seam. *)
Record WriteLockToken := {
  wt_acquired : bool; wt_forced_release : bool; wt_escalated_takeover : bool;
  wt_live_waits : Z; wt_generation : Z }.
Record LockEnv := {
  le_token : WriteLockToken; le_valid : bool; le_valid_at_wrap : bool; le_valid_at_seam : bool }.

Definition lower_shared_cursor (s : Stripe) (env : LockEnv) (st : State) : State :=
  if st_use_mmap s && le_valid_at_wrap env then set_shared_pos st (st_data_offset s) else st.

(** [retention_prepare], in its three steps.  WRAP, when the document does not
    fit the tail: ungated, it overwrites nothing. *)
Definition retention_wrap (s : Stripe) (env : LockEnv) (doc_size : Z) (st : State) : Z * Z * State :=
  let n := st_chunks s in
  let data_area_end := st_offset s + st_size s in
  let pass := ws_gen st / (n + 1) in
  let f := Z.min (ws_gen st mod (n + 1)) n in
  if u64 (data_area_end - ws_write_pos st) <? doc_size then
    let st := mark_wrap_committed st (pass + 1) in
    let st := set_write_pos st (st_data_offset s) in
    let st := lower_shared_cursor s env st in
    let st := publish_wrap_phase st (pass + 1) in
    let st := store_exposure_gen st (u64 ((pass + 1) * (n + 1))) in
    let st := record_wrap st in
    (pass + 1, 0, set_wrap_intent st false)
  else (pass, f, st).

Definition frontier_abs (s : Stripe) (f : Z) : Z := st_offset s + frontier_rel_of s f.

(** MANDATORY advance: exactly the chunks the document needs. *)
Definition mandatory_advance (cfg : Config) (s : Stripe) (now need pass f : Z) (st : State) : bool * Z * State :=
  if frontier_abs s f <? need then
    let t := chunk_index_ceil s need in
    let (ok, st) := advance_frontier cfg s now pass f t true st in
    if ok then (true, t, st) else (false, f, emit (emit st TAdvanceDeferred) TWriteDropped)
  else (true, f, st).

(** EARLY advance: at least half a chunk of clean runway, a pure gate check. *)
Definition early_advance (cfg : Config) (s : Stripe) (now need pass f : Z) (st : State) : State :=
  if f <? st_chunks s then
    let half := st_chunk_size s / 2 in
    if u64 (frontier_abs s f - need) <? half then
      let t := chunk_index_ceil s (need + half) in
      let (ok, st) := advance_frontier cfg s now pass f t false st in
      if ok then st else emit st TEarlySkipped
    else st
  else st.

(** [now1], [now2]: the clock at the mandatory and the early gate. *)
Definition retention_prepare (cfg : Config) (s : Stripe) (env : LockEnv) (now1 now2 : Z) (doc_size : Z)
    (st : State) : option Z * State :=
  let '(pass, f, st) := retention_wrap s env doc_size st in
  let need := ws_write_pos st + doc_size in
  let '(ok, f, st) := mandatory_advance cfg s now1 need pass f st in
  if negb ok then (None, st) else (Some pass, early_advance cfg s now2 need pass f st).

Section log.
Variable bld : mulhi_build.

(** Crash repair of an mmap stripe. *)
Definition repair_wrap_state (s : Stripe) (st : State) : State :=
  if negb (st_use_mmap s) then st
  else
    let intent := ws_intent st in
    let pass := pass_of bld s (ws_gen st) in
    let '(pass, st) :=
      if (intent =? kIntentWrapEven) || (intent =? kIntentWrapOdd) then
        let target_parity := if intent =? kIntentWrapOdd then 1 else 0 in
        let st := set_shared_pos (set_write_pos st (st_data_offset s)) (st_data_offset s) in
        if negb (pass .& 1 =? target_parity) then
          let pass := pass + 1 in
          let st := publish_wrap_phase st pass in
          let n := st_chunks s in
          let st := store_exposure_gen st (u64 (pass * (n + 1) + (if st_retain s then 0 else n))) in
          (pass, record_wrap st)
        else (pass, st)
      else (pass, st) in
    set_wrap_intent (set_dir_phase st (phase_of_pass pass)) false.

Definition repair_after_forced_release (s : Stripe) (t : WriteLockToken) (st : State) : State :=
  if wt_acquired t && wt_forced_release t && negb (wt_escalated_takeover t)
  then repair_wrap_state s st else st.

(** ** Reservations *)

Record WriteSlot := {
  slot_write_offset : Z; slot_new_write_pos : Z; slot_write_token : WriteLockToken;
  slot_holds_write_lock : bool; slot_deferred_publish : bool; slot_pass : Z;
  slot_fill_serial : Z; slot_fill_end : Z }.

Definition kTailFillPage : Z := 4096.
Definition kTailFillAboveBytes : Z := 64 * 1024.

Definition round_up8 (x : Z) : Z := align_down (u64 (x + 7)) 3.

Definition release_lock (s : Stripe) (st : State) : State :=
  if st_use_mmap s then set_locked st false else st.

(** The prologue of an mmap stripe: the write lock, the usurpation gate, the
    repair after a proven-dead holder, and the adoption of the shared cursor. *)
Definition lock_prologue (s : Stripe) (env : LockEnv) (st : State) : (CacheError * State) + State :=
  if negb (st_use_mmap s) then inr st
  else
    let t := le_token env in
    if negb (wt_acquired t) then inl (Busy, st)
    else
      let st := set_locked st true in
      let st := if wt_forced_release t then emit st TForceRelease else st in
      let st := if wt_escalated_takeover t then emit st TEscalation else st in
      let st := if wt_live_waits t =? 0 then st else emit st (TLiveWaits (wt_live_waits t)) in
      if negb (le_valid env) then inl (Busy, emit st TUsurpAbort)
      else
        let st := repair_after_forced_release s t st in
        let shared_pos := ws_shared_pos st in
        inr (if (st_data_offset s <=? shared_pos) && (shared_pos <=? st_offset s + st_size s)
             then set_write_pos st shared_pos else st).

(** The gated flush-everything wrap. *)
Definition flush_wrap (s : Stripe) (env : LockEnv) (st : State) : State :=
  let pass := pass_of bld s (ws_gen st) in
  let st := mark_wrap_committed st (pass + 1) in
  let st := set_write_pos st (st_data_offset s) in
  let st := lower_shared_cursor s env st in
  let st := publish_wrap_phase st (pass + 1) in
  let st := store_exposure_gen st (u64 (u64 ((pass + 1) * (st_chunks s + 1)) + st_chunks s)) in
  let st := record_wrap st in
  set_wrap_intent st false.

(** The zeros a large document's fill may run over, up to a page boundary. *)
Definition tail_fill_end (cfg : Config) (s : Stripe) (gen doc_size new_write_pos : Z) : Z :=
  if c_fill_large_document_tail cfg && (kTailFillAboveBytes <? doc_size) then
    let fill_end := align_down (new_write_pos + kTailFillPage - 1) 12 in
    let fill_end := Z.min fill_end (st_offset s + st_size s) in
    let fill_end := if st_retain s
                    then let n := st_chunks s in
                         Z.min fill_end (st_offset s + frontier_rel_of s (Z.min (gen mod (n + 1)) n))
                    else fill_end in
    if new_write_pos <=? fill_end then fill_end else 0
  else 0.

(** The decision part of a reservation, under the lock: retention, or the
    gated wrap when the document does not fit the tail. *)
Definition make_room (cfg : Config) (s : Stripe) (env : LockEnv) (now1 now2 doc_size : Z) (st : State)
  : (CacheError * State) + (option Z * State) :=
  if st_size s - data_start_rel s <? doc_size then inl (NoSpace, release_lock s st)
  else if st_retain s then
    match retention_prepare cfg s env now1 now2 doc_size st with
    | (Some pass, st) => inr (Some pass, st)
    | (None, st) => inl (NoSpace, release_lock s st)
    end
  else if u64 (st_offset s + st_size s - ws_write_pos st) <? doc_size then
    let st := set_wrap_intent st true in
    let (passed, st) := lease_gate cfg now1 0 (st_chunks s) true st in
    if negb passed then
      inl (NoSpace, release_lock s (emit (emit (set_wrap_intent st false) TWrapDeferred) TWriteDropped))
    else inr (None, flush_wrap s env st)
  else inr (None, st).

(** The seam that publishes the cursor and releases the lock before the fill. *)
Definition demonstrator_seam (s : Stripe) (env : LockEnv) (slot : WriteSlot) (st : State)
  : (CacheError + WriteSlot) * State :=
  let st := set_write_pos st (slot_new_write_pos slot) in
  if st_use_mmap s && negb (le_valid_at_seam env) then (inl Busy, emit st TUsurpAbort)
  else
    let st := if st_use_mmap s then set_locked (set_shared_pos st (slot_new_write_pos slot)) false else st in
    (inr {| slot_write_offset := slot_write_offset slot; slot_new_write_pos := slot_new_write_pos slot;
            slot_write_token := slot_write_token slot; slot_holds_write_lock := false;
            slot_deferred_publish := false; slot_pass := slot_pass slot;
            slot_fill_serial := slot_fill_serial slot; slot_fill_end := slot_fill_end slot |}, st).

(** The slot a granted reservation hands out. *)
Definition granted_slot (cfg : Config) (s : Stripe) (env : LockEnv) (doc_size : Z) (retained_pass : option Z)
    (st : State) : WriteSlot :=
  let write_offset := ws_write_pos st in
  let new_pos := write_offset + doc_size in
  {| slot_write_offset := write_offset; slot_new_write_pos := new_pos;
     slot_write_token := le_token env; slot_holds_write_lock := st_use_mmap s;
     slot_deferred_publish := true;
     slot_pass := match retained_pass with Some p => p | None => pass_of bld s (ws_gen st) end;
     slot_fill_serial := if st_use_mmap s then wt_generation (le_token env) else 0;
     slot_fill_end := tail_fill_end cfg s (ws_gen st) doc_size new_pos |}.

Definition allocate_write_slot (cfg : Config) (s : Stripe) (env : LockEnv) (now1 now2 doc_size : Z) (st : State)
  : (CacheError + WriteSlot) * State :=
  let doc_size := round_up8 doc_size in
  match lock_prologue s env st with
  | inl (err, st) => (inl err, st)
  | inr st =>
      match make_room cfg s env now1 now2 doc_size st with
      | inl (err, st) => (inl err, st)
      | inr (retained_pass, st) =>
          let st := end_deferral_episode st in
          let slot := granted_slot cfg s env doc_size retained_pass st in
          if c_advance_cursor_at_reservation cfg then demonstrator_seam s env slot st
          else (inr slot, st)
      end
  end.

(** [valid]: the answer of [revalidate_write_lock] at commit. *)
Definition commit_write_slot (s : Stripe) (slot : WriteSlot) (fill_ok valid : bool) (st : State)
  : option CacheError * State :=
  if negb (slot_deferred_publish slot) then (None, st)
  else if negb (slot_holds_write_lock slot) then
    (None, if fill_ok then set_write_pos st (slot_new_write_pos slot) else st)
  else if negb valid then (Some Busy, emit st TUsurpAbort)
  else
    let st := if fill_ok
              then set_shared_pos (set_write_pos st (slot_new_write_pos slot)) (slot_new_write_pos slot)
              else st in
    (None, set_locked st false).
End log.

(** ** What the gate and the bookkeeping leave alone *)

(** The part of the state that admission depends on. *)
Definition core (st : State) : Z * Z * Z * Z * bool :=
  (ws_write_pos st, ws_shared_pos st, ws_gen st, ws_intent st, ws_phase st).

Lemma core_emit st t : core (emit st t) = core st. Proof. done. Qed.
Lemma core_set_slots st l : core (set_slots st l) = core st. Proof. done. Qed.
Lemma core_set_locked st b : core (set_locked st b) = core st. Proof. done. Qed.
Lemma core_release_lock s st : core (release_lock s st) = core st.
Proof. unfold release_lock. now destruct (st_use_mmap s). Qed.
Lemma core_end_deferral st : core (end_deferral_episode st) = core st.
Proof. unfold end_deferral_episode. now destruct (ws_deferred_since st =? 0). Qed.
Lemma core_lease_gate cfg now lo hi ep st : core (snd (lease_gate cfg now lo hi ep st)) = core st.
Proof.
  unfold lease_gate. destruct (c_lease_t_ns cfg =? 0); [done|].
  destruct (_ || _); [apply core_end_deferral|]. destruct ep; cbn [negb]; [|done].
  destruct (_ && _); [done|]. now destruct (ws_deferred_since st =? 0).
Qed.

(** Computes the fields of updated states. *)
Ltac st_simpl :=
  cbn [ws_write_pos ws_shared_pos ws_gen ws_intent ws_phase ws_slots ws_lease_expiry ws_deferred_since
       ws_deadline_ms ws_locked ws_events set_write_pos set_shared_pos store_exposure_gen set_intent_value
       set_dir_phase set_slots set_lease_expiry set_deferral set_locked emit set_wrap_intent
       mark_wrap_committed publish_wrap_phase record_wrap] in *.

Ltac core_eq H :=
  let E := fresh "Ecore" in pose proof H as E; unfold core in E; injection E as ? ? ? ? ?.

(** ** What the gate protects *)

(** Chunk [c] holds a counted borrow and the lease is live. *)
Record guarded (cfg : Config) (now : Z) (st : State) (c : Z) : Prop := {
  gd_on : c_lease_t_ns cfg <> 0;
  gd_lease : lease_active cfg now st = true;
  gd_count : Exists (fun shard => count_of (nth (Z.to_nat c) shard 0) <> 0) (ws_slots st);
}.

(** No deferral episode has outlived the ceiling. *)
Definition unforced (cfg : Config) (now : Z) (st : State) : Prop :=
  ws_deferred_since st = 0 \/ u64 (now - ws_deferred_since st) <= c_lease_ceiling_ns cfg.

(** What [guarded] looks at. *)
Definition guard_view (st : State) : list (list Z) * Z := (ws_slots st, ws_lease_expiry st).

Lemma guarded_view cfg now st st' c :
  guard_view st' = guard_view st -> guarded cfg now st c -> guarded cfg now st' c.
Proof.
  unfold guard_view. intros [= E1 E2] [H1 H2 H3]. split; [done| |now rewrite E1].
  unfold lease_active in *. now rewrite E2.
Qed.

Lemma count_of_nonneg slot : 0 <= count_of slot.
Proof. unfold count_of. apply Z.land_nonneg. right. discriminate. Qed.

Lemma sum_counts_nonneg l : 0 <= sum_counts l.
Proof.
  induction l as [|x l IH]; [done|]. cbn [sum_counts fold_right]. pose proof (count_of_nonneg x).
  unfold sum_counts in IH. lia.
Qed.

Lemma sum_counts_nth l i : count_of (nth i l 0) <= sum_counts l.
Proof.
  revert i. induction l as [|x l IH]; intros [|i]; cbn [nth sum_counts fold_right]; try done;
    fold (sum_counts l); pose proof (count_of_nonneg x); pose proof (sum_counts_nonneg l); [lia|].
  specialize (IH i). lia.
Qed.

Lemma borrow_count_pos st lo hi c :
  0 <= lo <= c -> c < hi -> Exists (fun shard => count_of (nth (Z.to_nat c) shard 0) <> 0) (ws_slots st) ->
  borrow_count st lo hi <> 0.
Proof.
  intros Hlo Hhi Hex. unfold borrow_count.
  set (part := fun shard : list Z => take (Z.to_nat (hi - lo)) (drop (Z.to_nat lo) shard)).
  assert (forall l, 0 <= fold_right (fun shard acc => sum_counts (part shard) + acc) 0 l) as Hnn.
  { induction l as [|x l IH]; cbn; [done|]. pose proof (sum_counts_nonneg (part x)). lia. }
  enough (0 < fold_right (fun shard acc => sum_counts (part shard) + acc) 0 (ws_slots st)) by (unfold part in *; lia).
  induction Hex as [x l Hx|x l _ IH]; cbn [fold_right]; pose proof (sum_counts_nonneg (part x)); [|lia].
  assert (nth (Z.to_nat c) x 0 = nth (Z.to_nat (c - lo)) (part x) 0) as E.
  { unfold part. rewrite !nth_lookup, lookup_take_lt, lookup_drop by lia. do 2 f_equal. lia. }
  rewrite E in Hx. pose proof (sum_counts_nth (part x) (Z.to_nat (c - lo))).
  pose proof (count_of_nonneg (nth (Z.to_nat (c - lo)) (part x) 0)). specialize (Hnn l). lia.
Qed.

(** The gate does not pass over a guarded chunk, *)
Lemma gate_blocks cfg now lo hi ep st c :
  guarded cfg now st c -> (ep = true -> unforced cfg now st) -> 0 <= lo <= c -> c < hi -> c < kMaxChunks ->
  fst (lease_gate cfg now lo hi ep st) = false.
Proof.
  intros [H1 H2 H3] Hu Hlo Hhi Hm. unfold lease_gate. destruct (Z.eqb_spec (c_lease_t_ns cfg) 0); [done|].
  rewrite H2. cbn [negb orb].
  destruct (Z.eqb_spec (borrow_count st lo (Z.min hi kMaxChunks)) 0) as [E|_].
  { exfalso. revert E. apply (borrow_count_pos st lo _ c); [lia|lia|done]. }
  destruct ep; cbn [negb]; [|done]. destruct (Hu eq_refl) as [E|E].
  - now rewrite E.
  - destruct (Z.ltb_spec (c_lease_ceiling_ns cfg) (u64 (now - ws_deferred_since st))); [lia|].
    rewrite andb_false_r. now destruct (ws_deferred_since st =? 0).
Qed.

(** and, unless the ceiling forces it, keeps every count and the lease. *)
Lemma gate_keeps cfg now lo hi ep st :
  (ep = true -> unforced cfg now st) -> guard_view (snd (lease_gate cfg now lo hi ep st)) = guard_view st.
Proof.
  intros Hu. unfold lease_gate. destruct (c_lease_t_ns cfg =? 0); [done|].
  destruct (_ || _); [unfold end_deferral_episode; now destruct (ws_deferred_since st =? 0)|].
  destruct ep; cbn [negb]; [|done]. destruct (Hu eq_refl) as [E|E].
  - rewrite E. done.
  - destruct (Z.ltb_spec (c_lease_ceiling_ns cfg) (u64 (now - ws_deferred_since st))); [lia|].
    rewrite andb_false_r. now destruct (ws_deferred_since st =? 0).
Qed.

Lemma advance_guarded cfg s now pass from to ep st c :
  guarded cfg now st c -> (ep = true -> unforced cfg now st) -> 0 <= from <= c -> c < kMaxChunks ->
  let (ok, st') := advance_frontier cfg s now pass from to ep st in
  guard_view st' = guard_view st /\ (ok = true -> to <= c).
Proof.
  intros Hg Hu Hf Hm. unfold advance_frontier. destruct (Z.leb_spec to from); [split; [done|lia]|].
  assert (guarded cfg now (set_wrap_intent st true) c) as Hg' by now apply (guarded_view _ _ st).
  pose proof (gate_keeps cfg now from to ep (set_wrap_intent st true) Hu) as Hk.
  pose proof (gate_blocks cfg now from to ep (set_wrap_intent st true) c Hg' Hu ltac:(lia)) as Hb.
  destruct (lease_gate _ _ _ _ _ _) as [ok st1]. cbn [fst snd] in *. destruct ok; cbn [negb]; [|done].
  split; [done|]. intros _. destruct (Z.le_gt_cases to c) as [|Hgt]; [done|]. discriminate (Hb ltac:(lia) Hm).
Qed.

(** An advance that goes through stores the new frontier; one that does not
    changes nothing admission depends on. *)
Lemma advance_frontier_core cfg s now pass from to ep st :
  ws_intent st = 0 ->
  let (ok, st') := advance_frontier cfg s now pass from to ep st in
  core st' = core (if ok && (from <? to)
                   then store_exposure_gen st (u64 (u64 (pass * (st_chunks s + 1)) + to)) else st).
Proof.
  intros Hi. unfold advance_frontier. destruct (Z.leb_spec to from).
  { destruct (Z.ltb_spec from to); [lia|]. done. }
  destruct (Z.ltb_spec from to); [|lia].
  pose proof (core_lease_gate cfg now from to ep (set_wrap_intent st true)) as Hg.
  destruct (lease_gate _ _ _ _ _ _) as [ok st1]. cbn [snd] in Hg. core_eq Hg.
  destruct ok; cbn [negb andb]; unfold core; st_simpl; rewrite Hi; unfold kIntentClear; congruence.
Qed.

(** ** The invariant *)

Record log_ok (s : Stripe) (st : State) : Prop := {
  lo_intent : ws_intent st = 0;
  lo_pos : st_data_offset s <= current_write_cursor s st <= st_offset s + st_size s;
  lo_align : (8 | current_write_cursor s st);
  lo_gen : exists pass f, ws_gen st = gen_at s pass f /\ 0 <= f <= st_chunks s /\ 0 <= pass /\
    ws_phase st = phase_of_pass pass /\
    (st_retain s = true -> current_write_cursor s st <= st_offset s + frontier_rel_of s f);
}.

(** [log_ok] only looks at the core. *)
Lemma log_ok_core s st st' : core st = core st' -> log_ok s st -> log_ok s st'.
Proof.
  intros Hc [H1 H2 H3 (pass & f & H4)]. core_eq Hc. unfold current_write_cursor in *.
  split; unfold current_write_cursor; repeat match goal with E : _ st = _ st' |- _ => rewrite <- E; clear E end;
    try done. now exists pass, f.
Qed.

(** ** Frontier arithmetic *)

Section frontier.
Context (s : Stripe) (Hs : stripe_ok s).

Lemma frontier_rel_range f : 0 <= f -> data_start_rel s <= frontier_rel_of s f <= st_size s.
Proof using Hs.
  intros Hf. pose proof (chunk_size_pos s Hs). rewrite (frontier_rel_of_spec s Hs) by done.
  pose proof (so_area s Hs) as Ha. unfold kHeaderSize in Ha. change (Z.of_nat 132) with 132 in Ha.
  assert (0 <= f * st_chunk_size s) by nia. destruct (Z.leb_spec (st_chunks s) f); lia.
Qed.

Lemma frontier_rel_mono f g : 0 <= f <= g -> frontier_rel_of s f <= frontier_rel_of s g.
Proof using Hs.
  intros Hf. pose proof (chunk_size_pos s Hs). rewrite !(frontier_rel_of_spec s Hs) by lia.
  destruct (Z.leb_spec (st_chunks s) f), (Z.leb_spec (st_chunks s) g); try lia. nia.
Qed.

Lemma chunk_index_ceil_range abs : abs < 2 ^ 63 -> 0 <= chunk_index_ceil s abs <= st_chunks s.
Proof using Hs.
  intros Ha. pose proof (chunk_size_pos s Hs). unfold chunk_index_ceil, data_start_rel in *. destruct Hs.
  destruct (Z.leb_spec abs (st_data_offset s)); cbn [orb]; [lia|].
  destruct (Z.eqb_spec (st_chunk_size s) 0); [lia|].
  assert (0 <= u64 (abs - st_data_offset s + st_chunk_size s - 1) / st_chunk_size s); [|lia].
  apply Z.div_pos; [|lia]. apply Z.mod_pos_bound. lia.
Qed.

(** The chunks up to the ceiling of an offset cover it. *)
Lemma frontier_covers_ceil abs :
  st_data_offset s <= abs <= st_offset s + st_size s ->
  abs <= st_offset s + frontier_rel_of s (chunk_index_ceil s abs).
Proof using Hs.
  intros Ha. pose proof (chunk_size_pos s Hs) as HQ. pose proof (so_offset s Hs). pose proof (so_size s Hs).
  pose proof (chunk_index_ceil_range abs ltac:(lia)) as Ht. revert Ht. unfold chunk_index_ceil.
  destruct (Z.leb_spec abs (st_data_offset s)); cbn [orb].
  { intros _. pose proof (frontier_rel_range 0 ltac:(lia)). unfold data_start_rel in *. lia. }
  destruct (Z.eqb_spec (st_chunk_size s) 0); [lia|]. pose proof (so_chunk_size s Hs).
  pose proof (so_start s Hs). unfold data_start_rel in *.
  unfold u64. rewrite wrap_small by (unfold fits; lia).
  destruct (ceil_div_bounds (abs - st_data_offset s) (st_chunk_size s) HQ ltac:(lia)) as [Hb _].
  set (t := (abs - st_data_offset s + st_chunk_size s - 1) / st_chunk_size s) in *. intros Ht.
  rewrite (frontier_rel_of_spec s Hs) by lia. unfold data_start_rel in *.
  destruct (Z.leb_spec (st_chunks s) (Z.min t (st_chunks s))); [lia|].
  rewrite (Z.min_l t) in * by lia. lia.
Qed.

Lemma ceil_beyond f need :
  0 <= f <= st_chunks s -> st_data_offset s <= need <= st_offset s + st_size s ->
  st_offset s + frontier_rel_of s f < need -> f < chunk_index_ceil s need.
Proof using Hs.
  intros Hf Hn Hlt. pose proof (frontier_covers_ceil need Hn). pose proof (so_offset s Hs).
  pose proof (so_size s Hs). pose proof (chunk_index_ceil_range need ltac:(lia)).
  destruct (Z.lt_ge_cases f (chunk_index_ceil s need)) as [|Hge]; [done|].
  pose proof (frontier_rel_mono (chunk_index_ceil s need) f ltac:(lia)). lia.
Qed.

Lemma gen_at_store pass f :
  0 <= pass -> 0 <= f <= st_chunks s -> gen_at s (pass + 1) 0 < 2 ^ 64 ->
  u64 (u64 (pass * (st_chunks s + 1)) + f) = gen_at s pass f.
Proof using Hs.
  intros Hp Hf Hg. unfold gen_at in *. pose proof (so_chunks s Hs).
  assert (0 <= pass * (st_chunks s + 1)) by nia.
  unfold u64. rewrite (wrap_small 64 (pass * _)), wrap_small by (unfold fits; lia). done.
Qed.
End frontier.

(** ** Reservations keep the invariant *)

(** The state of a reservation in progress: the process-local cursor is the
    guard cursor, and pass and frontier are known. *)
Record in_pass (s : Stripe) (st : State) (pass f : Z) : Prop := {
  ip_intent : ws_intent st = 0;
  ip_shared : st_use_mmap s = true -> ws_shared_pos st = ws_write_pos st;
  ip_pos : st_data_offset s <= ws_write_pos st <= st_offset s + st_size s;
  ip_align : (8 | ws_write_pos st);
  ip_gen : ws_gen st = gen_at s pass f;
  ip_f : 0 <= f <= st_chunks s;
  ip_pass : 0 <= pass;
  ip_phase : ws_phase st = phase_of_pass pass;
  ip_front : st_retain s = true -> ws_write_pos st <= st_offset s + frontier_rel_of s f;
}.

Lemma in_pass_log_ok s st pass f : in_pass s st pass f -> log_ok s st.
Proof.
  intros []. assert (current_write_cursor s st = ws_write_pos st) as E.
  { unfold current_write_cursor. destruct (st_use_mmap s); auto. }
  split; rewrite ?E; try done. now exists pass, f.
Qed.

Lemma in_pass_core s st st' pass f : core st' = core st -> in_pass s st pass f -> in_pass s st' pass f.
Proof.
  intros Hc []. core_eq Hc.
  split; repeat match goal with E : _ st' = _ st |- _ => rewrite E; clear E end; done.
Qed.

(** Moving the frontier up. *)
Lemma in_pass_advance s st pass f t :
  stripe_ok s -> gen_at s (pass + 1) 0 < 2 ^ 64 -> in_pass s st pass f -> f <= t <= st_chunks s ->
  in_pass s (store_exposure_gen st (u64 (u64 (pass * (st_chunks s + 1)) + t))) pass t.
Proof.
  intros Hs Hg [] Ht. split; st_simpl; try done; try lia.
  - rewrite gen_at_store by (done || lia). done.
  - intros Hr. specialize (ip_front0 Hr). pose proof (frontier_rel_mono s Hs f t ltac:(lia)). lia.
Qed.

Lemma advance_in_pass cfg s now pass f t ep st :
  stripe_ok s -> gen_at s (pass + 1) 0 < 2 ^ 64 -> in_pass s st pass f -> 0 <= t <= st_chunks s ->
  let (ok, st') := advance_frontier cfg s now pass f t ep st in
  in_pass s st' pass (if ok then Z.max f t else f) /\ ws_write_pos st' = ws_write_pos st.
Proof.
  intros Hs Hg Hin Ht. pose proof (advance_frontier_core cfg s now pass f t ep st (ip_intent _ _ _ _ Hin)) as H.
  destruct (advance_frontier _ _ _ _ _ _ _ _) as [ok st'].
  assert (ws_write_pos st' = ws_write_pos st) as Hw.
  { core_eq H. destruct (ok && (f <? t)); done. }
  split; [|done]. destruct ok; cbn [andb] in H.
  - destruct (Z.ltb_spec f t).
    + rewrite Z.max_r by lia. apply (in_pass_core _ _ _ _ _ H). apply (in_pass_advance s st pass f); [done..|lia].
    + rewrite Z.max_l by lia. now apply (in_pass_core _ _ _ _ _ H).
  - now apply (in_pass_core _ _ _ _ _ H).
Qed.

(** The wrap's stores, as both modes perform them. *)
Definition wrapped (s : Stripe) (st : State) (pass f : Z) : Prop :=
  ws_write_pos st = st_data_offset s /\ in_pass s st pass f.

Lemma wrap_stores_in_pass s env st pass f' g :
  stripe_ok s -> (st_use_mmap s = true -> le_valid_at_wrap env = true) ->
  0 <= pass -> 0 <= f' <= st_chunks s -> g = gen_at s (pass + 1) f' ->
  let st1 := lower_shared_cursor s env (set_write_pos (mark_wrap_committed st (pass + 1)) (st_data_offset s)) in
  let st2 := record_wrap (store_exposure_gen (publish_wrap_phase st1 (pass + 1)) g) in
  wrapped s (set_wrap_intent st2 false) (pass + 1) f'.
Proof.
  intros Hs Henv Hp Hf ->. cbv zeta. unfold lower_shared_cursor.
  pose proof (so_area s Hs) as Ha. pose proof (so_start s Hs). unfold data_start_rel, kHeaderSize in *.
  split; [now destruct (st_use_mmap s && le_valid_at_wrap env)|].
  split; destruct (st_use_mmap s) eqn:Em; try rewrite (Henv eq_refl); cbn [andb]; st_simpl;
    try done; try lia; try apply (so_align s Hs).
  all: intros _; pose proof (frontier_rel_range s Hs f' ltac:(lia)); unfold data_start_rel in *; lia.
Qed.

Section retention.
Context (cfg : Config) (s : Stripe) (Hs : stripe_ok s) (env : LockEnv).
Context (Henv : st_use_mmap s = true -> le_valid_at_wrap env = true).

Lemma retention_wrap_spec n st pass f :
  gen_at s (pass + 2) 0 < 2 ^ 64 -> in_pass s st pass f ->
  0 < n <= st_size s - data_start_rel s ->
  let '(pass1, f1, st1) := retention_wrap s env n st in
  in_pass s st1 pass1 f1 /\ (pass1 = pass /\ f1 = f \/ pass1 = pass + 1 /\ f1 = 0) /\
  ws_write_pos st1 + n <= st_offset s + st_size s /\ guard_view st1 = guard_view st /\
  ws_deferred_since st1 = ws_deferred_since st.
Proof using Hs Henv.
  intros Hg Hin Hn. unfold retention_wrap. pose proof Hin as []. pose proof (so_chunks s Hs).
  rewrite ip_gen0, gen_at_div, gen_at_mod by done. rewrite (Z.min_l f) by lia.
  pose proof (so_offset s Hs). pose proof (so_size s Hs). pose proof (so_start s Hs). unfold data_start_rel in *.
  destruct (Z.ltb_spec (u64 (st_offset s + st_size s - ws_write_pos st)) n) as [Hw|Hw].
  - assert (u64 ((pass + 1) * (st_chunks s + 1)) = gen_at s (pass + 1) 0) as Eg.
    { unfold gen_at in *. rewrite Z.add_0_r in *. apply wrap_small. unfold fits. nia. }
    destruct (wrap_stores_in_pass s env st pass 0 _ Hs Henv ip_pass0 ltac:(lia) Eg) as [Hp Hin1].
    split; [exact Hin1|]. split; [now right|]. rewrite Hp. split; [lia|].
    unfold lower_shared_cursor. now destruct (st_use_mmap s && le_valid_at_wrap env).
  - split; [done|]. split; [now left|]. split; [|done].
    unfold u64 in Hw. rewrite wrap_small in Hw by (unfold fits; lia). lia.
Qed.

Lemma mandatory_advance_spec now n st pass f :
  gen_at s (pass + 1) 0 < 2 ^ 64 -> in_pass s st pass f -> 0 < n ->
  ws_write_pos st + n <= st_offset s + st_size s ->
  let '(ok, f2, st2) := mandatory_advance cfg s now (ws_write_pos st + n) pass f st in
  in_pass s st2 pass f2 /\ f <= f2 /\ ws_write_pos st2 = ws_write_pos st /\
  (ok = true -> ws_write_pos st + n <= frontier_abs s f2) /\
  (forall c, c < kMaxChunks -> guarded cfg now st c -> unforced cfg now st -> f <= c ->
     f2 <= c /\ guard_view st2 = guard_view st).
Proof using Hs.
  intros Hg Hin Hn Hfit. unfold mandatory_advance. pose proof Hin as [].
  pose proof (so_offset s Hs). pose proof (so_size s Hs).
  set (need := ws_write_pos st + n) in *.
  destruct (Z.ltb_spec (frontier_abs s f) need) as [Hlt|Hge]; [|repeat split; try done; lia].
  assert (st_data_offset s <= need <= st_offset s + st_size s) as Hneed by (subst need; lia).
  pose proof (chunk_index_ceil_range s Hs need ltac:(lia)) as Ht.
  pose proof (ceil_beyond s Hs f need ip_f0 Hneed Hlt) as Hbey.
  pose proof (advance_in_pass cfg s now pass f (chunk_index_ceil s need) true st Hs Hg Hin Ht) as Ha.
  pose proof (fun c Hc Hgd Hu Hf => advance_guarded cfg s now pass f (chunk_index_ceil s need) true st c Hgd (fun _ => Hu) Hf Hc) as Hgc.
  destruct (advance_frontier _ _ _ _ _ _ _ _) as [[|] st2]; destruct Ha as [Ha Hw].
  - rewrite Z.max_r in Ha by lia. split; [done|]. split; [lia|]. split; [done|].
    split; [intros _; now apply frontier_covers_ceil|].
    intros c Hc Hgd Hu Hfc. destruct (Hgc c Hc Hgd Hu ltac:(lia)) as [Hv Hto]. split; [now apply Hto|done].
  - split; [now apply (in_pass_core _ st2)|]. split; [lia|]. split; [done|]. split; [done|].
    intros c Hc Hgd Hu Hfc. destruct (Hgc c Hc Hgd Hu ltac:(lia)) as [Hv _]. split; [done|exact Hv].
Qed.

Lemma early_advance_spec now need st pass f :
  gen_at s (pass + 1) 0 < 2 ^ 64 -> in_pass s st pass f -> need <= st_offset s + st_size s ->
  exists f3, in_pass s (early_advance cfg s now need pass f st) pass f3 /\ f <= f3 /\
  ws_write_pos (early_advance cfg s now need pass f st) = ws_write_pos st /\
  (forall c, c < kMaxChunks -> guarded cfg now st c -> f <= c -> f3 <= c).
Proof using Hs.
  intros Hg Hin Hneed. unfold early_advance. pose proof Hin as [].
  destruct (f <? st_chunks s); [|exists f; repeat split; try done; lia].
  destruct (u64 _ <? _); [|exists f; repeat split; try done; lia].
  pose proof (so_offset s Hs). pose proof (so_size s Hs).
  assert (0 <= chunk_index_ceil s (need + st_chunk_size s / 2) <= st_chunks s) as Ht.
  { apply chunk_index_ceil_range; [done|]. pose proof (so_chunk_size s Hs).
    assert (st_chunk_size s / 2 < 2 ^ 61) by (apply Z.div_lt_upper_bound; lia). lia. }
  set (t := chunk_index_ceil s _) in *.
  pose proof (advance_in_pass cfg s now pass f t false st Hs Hg Hin Ht) as Ha.
  assert (false = true -> unforced cfg now st) as Hun by done.
  pose proof (fun c Hc Hgd Hf => advance_guarded cfg s now pass f t false st c Hgd Hun Hf Hc) as Hgc.
  destruct (advance_frontier _ _ _ _ _ _ _ _) as [[|] st3]; destruct Ha as [Ha Hw].
  - exists (Z.max f t). split; [done|]. split; [lia|]. split; [done|].
    intros c Hc Hgd Hfc. destruct (Hgc c Hc Hgd ltac:(lia)) as [_ Hto]. specialize (Hto eq_refl). lia.
  - exists f. split; [now apply (in_pass_core _ st3)|]. split; [lia|]. split; [done|]. done.
Qed.

(** [retention_prepare]: on success the frontier covers the document, in the
    current pass or, after a wrap, the next one; and the frontier does not
    cross a guarded chunk. *)
Lemma retention_prepare_spec now1 now2 n st pass f :
  gen_at s (pass + 2) 0 < 2 ^ 64 -> in_pass s st pass f -> 0 < n <= st_size s - data_start_rel s ->
  let (r, st') := retention_prepare cfg s env now1 now2 n st in
  exists pass' f', in_pass s st' pass' f' /\ (pass' = pass /\ f <= f' \/ pass' = pass + 1) /\
  match r with
  | Some p => p = pass' /\ ws_write_pos st' + n <= st_offset s + frontier_rel_of s f'
  | None => True
  end /\
  (forall c, 0 <= c < kMaxChunks -> guarded cfg now1 st c -> guarded cfg now2 st c -> unforced cfg now1 st ->
     (pass' = pass -> f <= c) -> f' <= c).
Proof using Hs Henv.
  intros Hg Hin Hn. unfold retention_prepare. pose proof (so_chunks s Hs).
  pose proof (retention_wrap_spec n st pass f Hg Hin Hn) as Hw.
  destruct (retention_wrap s env n st) as [[pass1 f1] st1]. destruct Hw as (Hin1 & Hp1 & Hfit & Hv1 & Hd1).
  assert (gen_at s (pass1 + 1) 0 < 2 ^ 64).
  { pose proof (ip_pass _ _ _ _ Hin). unfold gen_at in *. destruct Hp1 as [[-> _]|[-> _]]; nia. }
  pose proof (mandatory_advance_spec now1 n st1 pass1 f1 ltac:(done) Hin1 ltac:(lia) Hfit) as Hm.
  destruct (mandatory_advance _ _ _ _ _ _ _) as [[ok f2] st2]. destruct Hm as (Hin2 & Hf2 & Hw2 & Hok2 & Hc2).
  assert (forall c, c < kMaxChunks -> guarded cfg now1 st c -> unforced cfg now1 st -> f1 <= c ->
     f2 <= c /\ guard_view st2 = guard_view st) as Hc2'.
  { intros c Hc Hgd Hu Hfc. rewrite <- Hv1. apply Hc2; try done; [now apply (guarded_view _ _ st)|].
    unfold unforced in *. now rewrite Hd1. }
  assert (forall f3, f1 <= f3 -> pass1 = pass /\ f <= f3 \/ pass1 = pass + 1) as Hpos
    by (intros f3 Hf3; destruct Hp1 as [[-> ->]|[-> _]]; [left; lia|now right]).
  assert (forall c, 0 <= c -> (pass1 = pass -> f <= c) -> f1 <= c) as Hstart
    by (intros c ? Hc; destruct Hp1 as [[-> ->]|[-> ->]]; [auto|lia]).
  destruct ok; cbn [negb].
  2: { exists pass1, f2. split; [done|]. split; [now apply Hpos|]. split; [done|].
       intros c [Hc0 Hc] G1 _ Hu Hfc. apply (Hc2' c); auto. }
  destruct (early_advance_spec now2 (ws_write_pos st1 + n) st2 pass1 f2 ltac:(done) Hin2 Hfit)
    as (f3 & Hin3 & Hf3 & Hw3 & Hc3).
  exists pass1, f3. split; [done|]. split; [apply Hpos; lia|]. split.
  - split; [done|]. rewrite Hw3, Hw2. pose proof (frontier_rel_mono s Hs f2 f3 ltac:(destruct Hin2; lia)).
    specialize (Hok2 eq_refl). unfold frontier_abs in Hok2. lia.
  - intros c [Hc0 Hc] G1 G2 Hu Hfc. destruct (Hc2' c Hc G1 Hu ltac:(auto)) as [? Hv2].
    apply Hc3; [done|now apply (guarded_view _ _ st)|done].
Qed.

(** The cursor moves back only with a new pass. *)
Lemma retention_prepare_cursor now1 now2 n st pass f :
  gen_at s (pass + 2) 0 < 2 ^ 64 -> in_pass s st pass f -> 0 < n <= st_size s - data_start_rel s ->
  let (r, st') := retention_prepare cfg s env now1 now2 n st in
  ws_write_pos st' = ws_write_pos st \/ exists f', in_pass s st' (pass + 1) f'.
Proof using Hs Henv.
  intros Hg Hin Hn. unfold retention_prepare. pose proof (so_chunks s Hs).
  pose proof (retention_wrap_spec n st pass f Hg Hin Hn) as Hw.
  assert (forall st1 f1, retention_wrap s env n st = (pass, f1, st1) -> st1 = st) as Hstay.
  { intros st1 f1. unfold retention_wrap. rewrite (ip_gen _ _ _ _ Hin), gen_at_div by (done || apply Hin). cbv zeta.
    destruct (_ <? n); intros E; [apply (f_equal (fun x => fst (fst x))) in E; cbn [fst] in E; lia | by apply (f_equal snd) in E]. }
  destruct (retention_wrap s env n st) as [[pass1 f1] st1]. destruct Hw as (Hin1 & Hp1 & Hfit & _).
  assert (gen_at s (pass1 + 1) 0 < 2 ^ 64).
  { pose proof (ip_pass _ _ _ _ Hin). unfold gen_at in *. destruct Hp1 as [[-> _]|[-> _]]; nia. }
  pose proof (mandatory_advance_spec now1 n st1 pass1 f1 ltac:(done) Hin1 ltac:(lia) Hfit) as Hm.
  destruct (mandatory_advance _ _ _ _ _ _ _) as [[ok f2] st2]. destruct Hm as (Hin2 & Hf2 & Hw2 & _).
  destruct (early_advance_spec now2 (ws_write_pos st1 + n) st2 pass1 f2 ltac:(done) Hin2 Hfit) as (f3 & Hin3 & _ & Hw3 & _).
  destruct ok; cbn [negb]; destruct Hp1 as [[-> _]|[-> _]]; try (right; by eexists); left; rewrite <- (Hstay st1 f1 eq_refl); congruence.
Qed.
End retention.

Section reservations.
Variable bld : mulhi_build.
Context (s : Stripe) (Hs : stripe_ok s).

Lemma repair_clean st pass f :
  log_ok s st -> ws_gen st = gen_at s pass f -> 0 <= f <= st_chunks s -> 0 <= pass ->
  gen_at s pass f < 2 ^ 64 -> ws_phase st = phase_of_pass pass ->
  core (repair_wrap_state bld s st) = core st.
Proof using Hs.
  intros Hok Hg Hf Hp Hlt Hph. unfold repair_wrap_state. destruct (st_use_mmap s); [|done]. cbn [negb].
  rewrite (lo_intent _ _ Hok). cbn [Z.eqb orb kIntentWrapEven kIntentWrapOdd]. unfold core. st_simpl.
  assert (fits 64 (ws_gen st)) by (rewrite Hg; unfold fits, gen_at in *; pose proof (so_chunks s Hs); nia).
  rewrite (pass_of_spec bld s Hs), Hg, gen_at_div by done. rewrite Hph, (lo_intent _ _ Hok). done.
Qed.

(** Taking the lock leaves a clean log where it was, with the local cursor
    brought to the shared one. *)
Lemma lock_prologue_spec env st pass f :
  log_ok s st -> ws_gen st = gen_at s pass f -> 0 <= f <= st_chunks s -> 0 <= pass ->
  gen_at s pass f < 2 ^ 64 -> ws_phase st = phase_of_pass pass ->
  (st_retain s = true -> current_write_cursor s st <= st_offset s + frontier_rel_of s f) ->
  match lock_prologue bld s env st with
  | inl (err, st') => core st' = core st
  | inr st' => in_pass s st' pass f /\ ws_write_pos st' = current_write_cursor s st
  end.
Proof using Hs.
  intros Hok Hg Hf Hp Hlt Hph Hfr. unfold lock_prologue. pose proof Hok as [L1 L2 L3 _].
  unfold current_write_cursor in *. destruct (st_use_mmap s) eqn:Em; cbn [negb].
  2: { split; [|done]. split; try done. now rewrite Em. }
  destruct (wt_acquired (le_token env)) eqn:Ea; cbn [negb]; [|done].
  set (st0 := if wt_live_waits (le_token env) =? 0 then _ else _).
  assert (core st0 = core st) as H0.
  { unfold st0. destruct (wt_live_waits (le_token env) =? 0), (wt_escalated_takeover (le_token env)),
      (wt_forced_release (le_token env)); reflexivity. }
  destruct (le_valid env); cbn [negb]; [|done].
  assert (core (repair_after_forced_release bld s (le_token env) st0) = core st) as H1.
  { unfold repair_after_forced_release. destruct (_ && _ && _); [|done].
    rewrite <- H0. core_eq H0. apply (repair_clean st0 pass f); try done; try congruence.
    now apply (log_ok_core s st). }
  set (st1 := repair_after_forced_release _ _ _ _) in *. core_eq H1.
  destruct (Z.leb_spec (st_data_offset s) (ws_shared_pos st1)); [|lia].
  destruct (Z.leb_spec (ws_shared_pos st1) (st_offset s + st_size s)); [|lia]. cbn [andb].
  split; [|st_simpl; congruence]. split; st_simpl; try done; try congruence; try (intros; lia).
  now rewrite H2.
Qed.

Lemma flush_wrap_spec env st pass f :
  (st_use_mmap s = true -> le_valid_at_wrap env = true) ->
  gen_at s (pass + 2) 0 < 2 ^ 64 -> 0 <= pass -> 0 <= f <= st_chunks s -> ws_gen st = gen_at s pass f ->
  wrapped s (flush_wrap bld s env st) (pass + 1) (st_chunks s).
Proof using Hs.
  intros Henv Hg Hp Hf Eg. unfold flush_wrap. pose proof (so_chunks s Hs).
  assert (gen_at s pass f < 2 ^ 64 /\ 0 <= gen_at s pass f) by (unfold gen_at in *; nia).
  rewrite (pass_of_spec bld s Hs), Eg, gen_at_div by (done || (rewrite ?Eg; unfold fits; lia)).
  apply (wrap_stores_in_pass s env st pass (st_chunks s)); try done; [lia|].
  apply gen_at_store; try done; try lia. now replace (pass + 1 + 1) with (pass + 2) by lia.
Qed.

(** The protection a guarded chunk gets from one reservation. *)
Definition spares (cfg : Config) (now1 now2 : Z) (st : State) (pass f pass' f' : Z) : Prop :=
  forall c, 0 <= c < st_chunks s -> guarded cfg now1 st c -> guarded cfg now2 st c -> unforced cfg now1 st ->
    (pass' = pass -> f <= c) ->
    (st_retain s = true -> f' <= c) /\ (st_retain s = false -> pass' = pass /\ f' = f).

Lemma make_room_spec cfg env now1 now2 n st pass f :
  (st_use_mmap s = true -> le_valid_at_wrap env = true) ->
  gen_at s (pass + 2) 0 < 2 ^ 64 -> in_pass s st pass f -> 0 < n ->
  match make_room bld cfg s env now1 now2 n st with
  | inl (err, st') => exists pass' f', in_pass s st' pass' f' /\ (pass' = pass /\ f <= f' \/ pass' = pass + 1) /\
      spares cfg now1 now2 st pass f pass' f'
  | inr (rp, st') => exists pass' f', in_pass s st' pass' f' /\ (pass' = pass /\ f <= f' \/ pass' = pass + 1) /\
      spares cfg now1 now2 st pass f pass' f' /\
      ws_write_pos st' + n <= st_offset s + st_size s /\
      (st_retain s = true -> ws_write_pos st' + n <= st_offset s + frontier_rel_of s f') /\
      match rp with Some p => p = pass' | None => st_retain s = false end
  end.
Proof using Hs.
  intros Henv Hg Hin Hn. unfold make_room. pose proof (so_chunks s Hs).
  assert (spares cfg now1 now2 st pass f pass f) as Hstay by (intros c Hc _ _ _ Hfc; split; [intros _; auto|done]).
  destruct (Z.ltb_spec (st_size s - data_start_rel s) n) as [|Hfit].
  { exists pass, f. split; [now apply (in_pass_core _ st); [apply core_release_lock|]|]. split; [left; lia|done]. }
  destruct (st_retain s) eqn:Er.
  - pose proof (retention_prepare_spec cfg s Hs env Henv now1 now2 n st pass f Hg Hin ltac:(lia)) as Hrp.
    destruct (retention_prepare _ _ _ _ _ _ _) as [[p|] st']; destruct Hrp as (pass' & f' & Hin' & Hp & Hr & Hc);
      (assert (spares cfg now1 now2 st pass f pass' f') as Hsp by
        (intros c Hc' G1 G2 Hu Hfc; rewrite Er; split; [|done]; intros _; apply (Hc c); auto; unfold kMaxChunks; lia)).
    + destruct Hr as [-> Hr]. exists pass', f'. do 3 (split; [done|]).
      split; [|split; [done|done]]. pose proof (frontier_rel_range s Hs f' ltac:(destruct Hin'; lia)). lia.
    + exists pass', f'. split; [|done]. now apply (in_pass_core _ st'); [apply core_release_lock|].
  - pose proof Hin as []. pose proof (so_offset s Hs). pose proof (so_size s Hs).
    pose proof (so_start s Hs). unfold data_start_rel in *.
    destruct (Z.ltb_spec (u64 (st_offset s + st_size s - ws_write_pos st)) n) as [Hw|Hw].
    2: { exists pass, f. split; [done|]. split; [left; lia|]. split; [done|]. split; [|done].
         unfold u64 in Hw. rewrite wrap_small in Hw by (unfold fits; lia). lia. }
    pose proof (core_lease_gate cfg now1 0 (st_chunks s) true (set_wrap_intent st true)) as Hc.
    pose proof (fun c Hgd Hu => gate_blocks cfg now1 0 (st_chunks s) true (set_wrap_intent st true) c Hgd (fun _ => Hu)) as Hb.
    destruct (lease_gate _ _ _ _ _ _) as [[|] st1]; cbn [fst snd negb] in *; core_eq Hc; st_simpl.
    + destruct (flush_wrap_spec env st1 pass f Henv Hg ip_pass0 ip_f0) as [Hp' Hin']; [congruence|].
      exists (pass + 1), (st_chunks s). split; [done|]. split; [now right|]. rewrite Hp'. split; [|split; [lia|done]].
      intros c Hc' G1 _ Hu _. exfalso. assert (true = false); [|done].
      apply (Hb c); [now apply (guarded_view _ _ st)|done|lia|lia|unfold kMaxChunks; lia].
    + exists pass, f. split; [|split; [left; lia|done]]. apply (in_pass_core _ st); [|done].
      rewrite core_release_lock. unfold core. st_simpl. unfold kIntentClear. rewrite ip_intent0. congruence.
Qed.

Lemma round_up8_spec x : 0 < x < 2 ^ 63 -> (8 | round_up8 x) /\ x <= round_up8 x < x + 8.
Proof using.
  intros Hx. unfold round_up8, u64. rewrite wrap_small, align_down_spec by (unfold fits; lia). change (2 ^ 3) with 8.
  split; [now exists ((x + 7) / 8)|]. Z.div_mod_to_equations. lia.
Qed.

Lemma tail_fill_end_spec cfg g n new_pos pass f :
  g = gen_at s pass f -> 0 <= f <= st_chunks s -> 0 <= new_pos -> new_pos <= st_offset s + st_size s ->
  (st_retain s = true -> new_pos <= st_offset s + frontier_rel_of s f) ->
  tail_fill_end cfg s g n new_pos = 0 \/
  (new_pos <= tail_fill_end cfg s g n new_pos < new_pos + kTailFillPage /\
   tail_fill_end cfg s g n new_pos <= st_offset s + st_size s /\
   (st_retain s = true -> tail_fill_end cfg s g n new_pos <= st_offset s + frontier_rel_of s f)).
Proof using Hs.
  intros -> Hf Hnew Hend Hfr. unfold tail_fill_end. rewrite gen_at_mod, (Z.min_l f) by (done || lia).
  destruct (_ && _); [|now left]. right. rewrite align_down_spec by lia. unfold kTailFillPage in *.
  set (a := (new_pos + 4096 - 1) / 2 ^ 12 * 2 ^ 12).
  assert (new_pos <= a < new_pos + 4096) as Ha by (subst a; change (2 ^ 12) with 4096; Z.div_mod_to_equations; lia).
  destruct (st_retain s); [specialize (Hfr eq_refl)|];
    (match goal with |- context [new_pos <=? ?x] => destruct (Z.leb_spec new_pos x); [|lia] end;
     split; [lia|]; split; [lia|]; intros; try done; lia).
Qed.

Lemma lock_prologue_guard env st st' :
  lock_prologue bld s env st = inr st' ->
  guard_view st' = guard_view st /\ ws_deferred_since st' = ws_deferred_since st.
Proof using.
  unfold lock_prologue. destruct (st_use_mmap s) eqn:Em; cbn [negb]; [|now intros [= <-]].
  destruct (wt_acquired _); cbn [negb]; [|done]. destruct (le_valid env); cbn [negb]; [|done].
  intros [= <-]. unfold repair_after_forced_release, repair_wrap_state. rewrite Em.
  repeat match goal with |- context [if ?b then _ else _] => destruct b end; done.
Qed.

(** The unique pass and frontier of a clean log. *)
Lemma log_ok_pass st :
  log_ok s st -> ws_gen st + 2 * (st_chunks s + 1) < 2 ^ 64 ->
  exists pass f, ws_gen st = gen_at s pass f /\ 0 <= f <= st_chunks s /\ 0 <= pass /\
    ws_phase st = phase_of_pass pass /\ gen_at s (pass + 2) 0 < 2 ^ 64 /\ gen_at s pass f < 2 ^ 64 /\
    (st_retain s = true -> current_write_cursor s st <= st_offset s + frontier_rel_of s f).
Proof using Hs.
  intros [_ _ _ (pass & f & Hg & Hf & Hp & Hph & Hfr)] Hlt. exists pass, f. pose proof (so_chunks s Hs).
  rewrite Hg in Hlt. unfold gen_at in *. repeat split; try done; lia.
Qed.
End reservations.

(** ** Properties *)

Section properties.
Variable bld : mulhi_build.
Context (s : Stripe) (Hs : stripe_ok s).

(** What a granted reservation promises: the slot starts at the guard cursor,
    8-byte aligned, holds the document, ends inside the data area, and no
    entry that the stripe's own snapshot admits points into it or into the
    tail the fill may zero. *)
Record reserved (st' : State) (n : Z) (slot : WriteSlot) : Prop := {
  rs_cursor : slot_write_offset slot = current_write_cursor s st';
  rs_align : (8 | slot_write_offset slot) /\ (8 | slot_new_write_pos slot);
  rs_room : slot_write_offset slot + n <= slot_new_write_pos slot < slot_write_offset slot + n + 8;
  rs_area : st_data_offset s <= slot_write_offset slot /\ slot_new_write_pos slot <= st_offset s + st_size s;
  rs_front : st_retain s = true ->
    Z.max (slot_new_write_pos slot) (slot_fill_end slot) <= st_offset s + snap_frontier_rel (snapshot bld s (ws_gen st') 0);
  rs_pass : slot_pass slot = pass_of bld s (ws_gen st');
  rs_tail : slot_fill_end slot = 0 \/
    slot_new_write_pos slot <= slot_fill_end slot < slot_new_write_pos slot + kTailFillPage;
  rs_disjoint rel p :
    let snap := snapshot bld s (ws_gen st') (current_write_cursor s st') in
    match admit_position s rel p snap with
    | kReject => True
    | kCurrent => st_offset s + rel < slot_write_offset slot
    | kRetained => Z.max (slot_new_write_pos slot) (slot_fill_end slot) <= st_offset s + rel
    end;
}.

Lemma granted_reserved cfg env n st pass f rp :
  in_pass s st pass f -> gen_at s (pass + 1) 0 < 2 ^ 64 -> 0 < n < 2 ^ 63 ->
  ws_write_pos st + round_up8 n <= st_offset s + st_size s ->
  (st_retain s = true -> ws_write_pos st + round_up8 n <= st_offset s + frontier_rel_of s f) ->
  match rp with Some p => p = pass | None => st_retain s = false end ->
  reserved st n (granted_slot bld cfg s env (round_up8 n) rp st).
Proof using Hs.
  intros Hin Hg Hn Hend Hfr Hrp. pose proof Hin as []. pose proof (so_chunks s Hs).
  pose proof (so_offset s Hs). pose proof (so_start s Hs). unfold data_start_rel in *.
  destruct (round_up8_spec n Hn) as [H8 Hr].
  assert (current_write_cursor s st = ws_write_pos st) as Hcur.
  { unfold current_write_cursor. destruct (st_use_mmap s); auto. }
  assert (gen_at s pass f < 2 ^ 64 /\ 0 <= gen_at s pass f) as [? ?] by (unfold gen_at in *; nia).
  assert (pass_of bld s (ws_gen st) = pass) as Hpass.
  { rewrite (pass_of_spec bld s Hs), ip_gen0, gen_at_div by (done || (rewrite ?ip_gen0; unfold fits; lia)). done. }
  pose proof (tail_fill_end_spec s Hs cfg (ws_gen st) (round_up8 n) (ws_write_pos st + round_up8 n) pass f
    ip_gen0 ip_f0 ltac:(lia) Hend Hfr) as Htail.
  unfold granted_slot. split; cbn [slot_write_offset slot_new_write_pos slot_pass slot_fill_end]; try done.
  - split; [done|]. now apply Z.divide_add_r.
  - lia.
  - lia.
  - intros Hr'. rewrite ip_gen0, (snapshot_spec bld s Hs) by done. cbn [snap_frontier_rel]. specialize (Hfr Hr'). rewrite <- ip_gen0.
    destruct Htail as [->|(_ & _ & Ht)]; [|specialize (Ht Hr')]; lia.
  - destruct rp; [congruence|done].
  - destruct Htail as [->|(? & _)]; [now left|right; lia].
  - intros rel p. rewrite Hcur, ip_gen0, (snapshot_spec bld s Hs) by done. cbv zeta.
    unfold admit_position. cbn [snap_phase snap_pass snap_cursor_rel snap_frontier_rel].
    destruct (in_data_area s rel); cbn [negb]; [|done].
    destruct (Bool.eqb p (phase_of_pass pass)).
    + destruct (Z.ltb_spec (st_offset s) (ws_write_pos st)); [|lia].
      match goal with |- context [?a <? ?b] => destruct (Z.ltb_spec a b); [lia|done] end.
    + destruct (st_retain s); cbn [andb]; [|done]. destruct (0 <? pass); cbn [andb]; [|done].
      destruct (Z.leb_spec (frontier_rel_of s f) rel); [|done]. specialize (Hfr eq_refl).
      destruct Htail as [Ht|(_ & _ & Ht)]; [rewrite <- ip_gen0, Ht; lia|].
      specialize (Ht eq_refl). rewrite <- ip_gen0. lia.
Qed.

(** A reservation, and what its slot carries for the commit. *)
Lemma allocate_spec cfg env now1 now2 n st :
  log_ok s st -> ws_gen st + 2 * (st_chunks s + 1) < 2 ^ 64 -> 0 < n < 2 ^ 63 ->
  (st_use_mmap s = true -> le_valid_at_wrap env = true) -> c_advance_cursor_at_reservation cfg = false ->
  let (r, st') := allocate_write_slot bld cfg s env now1 now2 n st in
  log_ok s st' /\ ws_gen st <= ws_gen st' <= ws_gen st + 2 * (st_chunks s + 1) /\
  match r with
  | inl err => True
  | inr slot => reserved st' n slot /\ slot_deferred_publish slot = true /\ slot_holds_write_lock slot = st_use_mmap s /\
      slot_fill_serial slot = (if st_use_mmap s then wt_generation (le_token env) else 0)
  end.
Proof using Hs.
  intros Hok Hlt Hn Henv Hseam. pose proof (so_chunks s Hs).
  destruct (log_ok_pass s Hs st Hok Hlt) as (pass & f & Hg & Hf & Hp & Hph & Hg2 & Hg0 & Hfr).
  unfold allocate_write_slot. rewrite Hseam.
  pose proof (lock_prologue_spec bld s Hs env st pass f Hok Hg Hf Hp Hg0 Hph Hfr) as Hpro.
  destruct (lock_prologue bld s env st) as [[err st1]|st1].
  { split; [now apply (log_ok_core s st)|]. core_eq Hpro. split; [lia|done]. }
  destruct Hpro as [Hin1 _]. destruct (round_up8_spec n Hn) as [H8 Hr].
  assert (forall st' pass' f', in_pass s st' pass' f' -> (pass' = pass /\ f <= f' \/ pass' = pass + 1) ->
    ws_gen st <= ws_gen st' <= ws_gen st + 2 * (st_chunks s + 1)) as Hmono.
  { intros st' pass' f' [] Hcase. rewrite Hg, ip_gen0. unfold gen_at. destruct Hcase as [[-> ?]| ->]; nia. }
  pose proof (make_room_spec bld s Hs cfg env now1 now2 (round_up8 n) st1 pass f Henv Hg2 Hin1 ltac:(lia)) as Hm.
  destruct (make_room _ _ _ _ _ _ _ _) as [[err st2]|[rp st2]].
  { destruct Hm as (pass' & f' & Hin & Hcase & _). split; [now apply (in_pass_log_ok s st2 pass' f')|].
    split; [now apply (Hmono st2 pass' f')|done]. }
  destruct Hm as (pass' & f' & Hin & Hcase & _ & Hend & Hfr' & Hrp).
  pose proof (in_pass_core s st2 (end_deferral_episode st2) pass' f' (core_end_deferral st2) Hin) as Hin'.
  assert (ws_write_pos (end_deferral_episode st2) = ws_write_pos st2) as Hwp
    by (core_eq (core_end_deferral st2); done).
  split; [now apply (in_pass_log_ok s _ pass' f')|]. split; [now apply (Hmono _ pass' f')|].
  split; [|done].
  apply (granted_reserved cfg env n _ pass' f' rp); try done; try congruence.
  - unfold gen_at in *. destruct Hcase as [[-> _]| ->]; nia.
  - now rewrite Hwp.
Qed.

(** A reservation that stays in its pass leaves the cursor of a process-local
    stripe where it is. *)
Lemma allocate_keeps_cursor cfg env now1 now2 n st :
  st_use_mmap s = false -> log_ok s st -> ws_gen st + 2 * (st_chunks s + 1) < 2 ^ 64 -> 0 < n < 2 ^ 63 ->
  c_advance_cursor_at_reservation cfg = false ->
  let (r, st') := allocate_write_slot bld cfg s env now1 now2 n st in
  pass_of bld s (ws_gen st') = pass_of bld s (ws_gen st) -> ws_write_pos st' = ws_write_pos st.
Proof using Hs.
  intros Hloc Hok Hlt Hn Hseam. pose proof (so_chunks s Hs).
  assert (Henv : st_use_mmap s = true -> le_valid_at_wrap env = true) by congruence.
  destruct (log_ok_pass s Hs st Hok Hlt) as (pass & f & Hg & Hf & Hp & Hph & Hg2 & Hg0 & Hfr).
  pose proof (lock_prologue_spec bld s Hs env st pass f Hok Hg Hf Hp Hg0 Hph Hfr) as Hpro.
  unfold allocate_write_slot. rewrite Hseam. unfold lock_prologue in *. rewrite Hloc in Hpro |- *. cbn [negb] in *.
  destruct Hpro as [Hin _]. destruct (round_up8_spec n Hn) as [H8 Hr].
  assert (Hpass : forall st' pass' f', in_pass s st' pass' f' -> pass' <= pass + 1 -> pass_of bld s (ws_gen st') = pass').
  { intros st' pass' f' [] Hle. assert (0 <= gen_at s pass' f' < 2 ^ 64) by (unfold gen_at in *; nia).
    by rewrite (pass_of_spec bld s Hs), ip_gen0, gen_at_div by (done || (rewrite ?ip_gen0; unfold fits; lia)). }
  rewrite (Hpass st pass f Hin) by lia. unfold make_room.
  destruct (Z.ltb_spec (st_size s - data_start_rel s) (round_up8 n)) as [|Hfit]; [unfold release_lock; by rewrite Hloc|].
  destruct (st_retain s) eqn:Er.
  - pose proof (retention_prepare_cursor cfg s Hs env Henv now1 now2 (round_up8 n) st pass f Hg2 Hin ltac:(lia)) as Hrp.
    destruct (retention_prepare _ _ _ _ _ _ _) as [[p|] st'].
    + core_eq (core_end_deferral st'). intros E. destruct Hrp as [|[f' Hin']]; [congruence|].
      replace (ws_gen (end_deferral_episode st')) with (ws_gen st') in E by congruence. rewrite (Hpass st' (pass + 1) f' Hin') in E; lia.
    + unfold release_lock. rewrite Hloc. intros E. destruct Hrp as [|[f' Hin']]; [done|]. rewrite (Hpass st' (pass + 1) f' Hin') in E; lia.
  - destruct (u64 _ <? _); [|core_eq (core_end_deferral st); congruence].
    pose proof (core_lease_gate cfg now1 0 (st_chunks s) true (set_wrap_intent st true)) as Hgate.
    destruct (lease_gate _ _ _ _ _ _) as [ok st1]. cbn [snd] in Hgate. core_eq Hgate.
    assert (Eg1 : ws_gen st1 = gen_at s pass f) by (rewrite <- Hg; match goal with E : ws_gen st1 = _ |- _ => exact E end). destruct ok; cbn [negb].
    + pose proof (flush_wrap_spec bld s Hs env st1 pass f Henv Hg2 Hp Hf Eg1) as [_ Hin1].
      intros E'. assert (Egen : ws_gen (end_deferral_episode (flush_wrap bld s env st1)) = ws_gen (flush_wrap bld s env st1))
        by (unfold end_deferral_episode; by case_match).
      rewrite Egen, (Hpass _ (pass + 1) (st_chunks s) Hin1) in E'; lia.
    + unfold release_lock. rewrite Hloc. done.
Qed.

(** C13. Reserving space in the log is safe and keeps it well formed.  From a
    clean log, [allocate_write_slot] either fails, leaving a clean log whose
    generation only moved forward, or hands out a slot at the write cursor
    that holds the document, lies in the data area, and is disjoint from every
    document the stripe still admits: current ones start before the slot,
    retained ones at or after its end (the zeroed tail included).  The cursor
    is not moved past the slot: nothing in it becomes readable before the
    fill is committed. *)
Theorem allocate_reserves cfg env now1 now2 n st :
  log_ok s st -> ws_gen st + 2 * (st_chunks s + 1) < 2 ^ 64 -> 0 < n < 2 ^ 63 ->
  (st_use_mmap s = true -> le_valid_at_wrap env = true) -> c_advance_cursor_at_reservation cfg = false ->
  let (r, st') := allocate_write_slot bld cfg s env now1 now2 n st in
  log_ok s st' /\ ws_gen st <= ws_gen st' <= ws_gen st + 2 * (st_chunks s + 1) /\
  match r with
  | inl err => True
  | inr slot => reserved st' n slot
  end.
Proof using Hs.
  intros Hok Hlt Hn Henv Hseam. pose proof (allocate_spec cfg env now1 now2 n st Hok Hlt Hn Henv Hseam) as H.
  destruct (allocate_write_slot _ _ _ _ _ _ _ _) as [[err|slot] st']; [done|].
  destruct H as (H1 & H2 & H3 & _). done.
Qed.

(** A commit publishes exactly the slot: after the fill of a granted
    slot, committing it (with the write lock still ours) moves the guard
    cursor to the end of the slot and keeps the log well formed; a failed
    fill, or a lock lost meanwhile, moves nothing. *)
Theorem commit_publishes n st slot fill_ok valid :
  log_ok s st -> reserved st n slot -> slot_deferred_publish slot = true ->
  slot_holds_write_lock slot = st_use_mmap s -> 0 < n -> ws_gen st + 2 * (st_chunks s + 1) < 2 ^ 64 ->
  let (err, st') := commit_write_slot s slot fill_ok valid st in
  log_ok s st' /\ ws_gen st' = ws_gen st /\
  (err = Some Busy <-> st_use_mmap s = true /\ valid = false) /\
  current_write_cursor s st' =
    (if fill_ok && (valid || negb (st_use_mmap s)) then slot_new_write_pos slot
     else current_write_cursor s st).
Proof using Hs.
  intros Hok [R1 [_ R2] R3 R4 Hfr R5 R6 R7] Hd Hl Hn Hlt. unfold commit_write_slot. rewrite Hd, Hl. cbn [negb].
  assert (forall st', ws_intent st' = ws_intent st -> ws_gen st' = ws_gen st -> ws_phase st' = ws_phase st ->
    current_write_cursor s st' = slot_new_write_pos slot -> log_ok s st') as Hpub.
  { intros st' E1 E2 E3 E4. pose proof Hok as [L1 L2 L3 (pass & f & G1 & G2 & G3 & G4 & G5)].
    split; rewrite ?E1, ?E2, ?E3, ?E4; try done; [lia|]. exists pass, f. do 4 (split; [done|]).
    intros Hr. specialize (Hfr Hr). rewrite G1, (snapshot_spec bld s Hs) in Hfr; [cbn [snap_frontier_rel] in Hfr; lia|done|done|].
    rewrite G1 in Hlt. pose proof (so_chunks s Hs). lia. }
  destruct (st_use_mmap s) eqn:Em; cbn [negb].
  - destruct valid; cbn [negb orb].
    + destruct fill_ok; cbn [andb].
      * split; [apply Hpub; try done; unfold current_write_cursor; now rewrite Em|]. split; [done|].
        split; [split; [done|now intros [_ ?]]|]. unfold current_write_cursor. now rewrite Em.
      * split; [now apply (log_ok_core s st)|]. split; [done|]. split; [split; [done|now intros [_ ?]]|].
        unfold current_write_cursor. now rewrite Em.
    + split; [now apply (log_ok_core s st)|]. split; [done|]. split; [done|].
      rewrite andb_false_r. unfold current_write_cursor. now rewrite Em.
  - rewrite orb_true_r, andb_true_r. destruct fill_ok.
    + split; [apply Hpub; try done; unfold current_write_cursor; now rewrite Em|]. split; [done|].
      split; [split; [done|now intros [? _]]|]. unfold current_write_cursor. now rewrite Em.
    + split; [done|]. split; [done|]. split; [split; [done|now intros [? _]]|]. done.
Qed.

Section verdict.
Context (st : State) (rel pass f : Z) (Hg : ws_gen st = gen_at s pass f) (Hf : 0 <= f <= st_chunks s).
Context (Hp : 0 <= pass) (Hg3 : gen_at s (pass + 3) 0 < 2 ^ 64) (Hrel : data_start_rel s <= rel < st_size s).
Local Abbreviation c := (chunk_of bld s rel).

(** What a state that spared the chunk of [rel] means for its borrows. *)
Definition verdict (st' : State) : Prop :=
  ws_gen st' <= exposure_threshold bld s pass rel /\
  (0 < pass -> ws_gen st <= exposure_threshold bld s (pass - 1) rel ->
     pass_of bld s (ws_gen st') = pass -> ws_gen st' <= exposure_threshold bld s (pass - 1) rel) /\
  (st_retain s = true -> rel < snap_frontier_rel (snapshot bld s (ws_gen st') 0) ->
     pass_of bld s (ws_gen st') = pass /\ rel < snap_frontier_rel (snapshot bld s (ws_gen st) 0)).

Lemma spared_verdict st' pass' f' :
  in_pass s st' pass' f' -> (pass' = pass /\ f <= f' \/ pass' = pass + 1) ->
  ((pass' = pass -> f <= c) -> (st_retain s = true -> f' <= c) /\ (st_retain s = false -> pass' = pass /\ f' = f)) ->
  verdict st'.
Proof using Hs Hg Hf Hp Hg3 Hrel.
  intros [] Hcase Hsp. pose proof (so_chunks s Hs). destruct (chunk_of_spec bld s Hs rel Hrel) as [_ Hc].
  assert (gen_at s pass f < 2 ^ 64) by (unfold gen_at in *; nia).
  assert (gen_at s pass' f' < 2 ^ 64 /\ 0 <= gen_at s pass' f') as [? ?]
    by (unfold gen_at in *; destruct Hcase as [[-> _]| ->]; nia).
  assert (pass_of bld s (ws_gen st') = pass') as Epass'.
  { rewrite (pass_of_spec bld s Hs), ip_gen0, gen_at_div by (done || (rewrite ?ip_gen0; unfold fits; lia)). done. }
  assert (gen_at s (pass + 2) 0 < 2 ^ 64) by (unfold gen_at in *; nia).
  unfold verdict. rewrite Epass', exposure_threshold_spec by (done || lia). rewrite ip_gen0.
  split; [|split].
  - destruct Hcase as [[-> _]| ->]; [unfold gen_at; nia|].
    destruct Hsp as [Hs1 Hs2]; [lia|]. destruct (st_retain s); [specialize (Hs1 eq_refl); unfold gen_at; lia|].
    destruct (Hs2 eq_refl). lia.
  - intros Hp0 Hle ->. rewrite exposure_threshold_spec in * by (done || lia || (unfold gen_at in *; nia)).
    replace (pass - 1 + 1) with pass in * by lia. rewrite Hg in Hle.
    assert (f <= c) as Hfc by (unfold gen_at in Hle; lia).
    destruct Hsp as [Hs1 Hs2]; [done|]. destruct (st_retain s); [specialize (Hs1 eq_refl); unfold gen_at; lia|].
    destruct (Hs2 eq_refl) as [_ ->]. unfold gen_at. lia.
  - intros Hr Hlt'. rewrite Hg, (snapshot_spec bld s Hs) by done.
    rewrite (snapshot_spec bld s Hs) in Hlt' by done. cbn [snap_frontier_rel] in *.
    pose proof (chunk_frontier bld s Hs f' rel ip_f0 Hrel Hlt') as Hcf.
    destruct (decide (pass' = pass)) as [->|Hne].
    + split; [done|]. destruct (Z.le_gt_cases f c) as [Hle|Hgt].
      * destruct Hsp as [Hs1 _]; [done|]. specialize (Hs1 Hr). lia.
      * destruct (Z.le_gt_cases (frontier_rel_of s f) rel) as [Hge|]; [|done].
        pose proof (frontier_chunk bld s Hs f rel Hf Hrel Hge). lia.
    + destruct Hsp as [Hs1 _]; [done|]. specialize (Hs1 Hr). lia.
Qed.
End verdict.

(** What a reservation leaves of a guarded chunk. *)
Lemma guarded_chunk_spared cfg env now1 now2 n st rel :
  log_ok s st -> ws_gen st + 3 * (st_chunks s + 1) < 2 ^ 64 -> 0 < n < 2 ^ 63 ->
  (st_use_mmap s = true -> le_valid_at_wrap env = true) -> c_advance_cursor_at_reservation cfg = false ->
  data_start_rel s <= rel < st_size s ->
  guarded cfg now1 st (chunk_of bld s rel) -> guarded cfg now2 st (chunk_of bld s rel) -> unforced cfg now1 st ->
  let (_, st') := allocate_write_slot bld cfg s env now1 now2 n st in
  let pass := pass_of bld s (ws_gen st) in
  ws_gen st' <= exposure_threshold bld s pass rel /\
  (0 < pass -> ws_gen st <= exposure_threshold bld s (pass - 1) rel ->
     pass_of bld s (ws_gen st') = pass -> ws_gen st' <= exposure_threshold bld s (pass - 1) rel) /\
  (st_retain s = true -> rel < snap_frontier_rel (snapshot bld s (ws_gen st') 0) ->
     pass_of bld s (ws_gen st') = pass /\ rel < snap_frontier_rel (snapshot bld s (ws_gen st) 0)).
Proof using Hs.
  intros Hok Hlt Hn Henv Hseam Hrel G1 G2 Hu. cbv zeta. pose proof (so_chunks s Hs).
  destruct (log_ok_pass s Hs st Hok ltac:(lia)) as (pass & f & Hg & Hf & Hp & Hph & Hg2 & Hg0 & Hfr).
  destruct (chunk_of_spec bld s Hs rel Hrel) as [_ Hc].
  assert (gen_at s (pass + 3) 0 < 2 ^ 64) as Hg3 by (rewrite Hg in Hlt; unfold gen_at in *; lia).
  assert (pass_of bld s (ws_gen st) = pass) as Epass.
  { rewrite (pass_of_spec bld s Hs), Hg, gen_at_div by (done || (rewrite ?Hg; unfold fits, gen_at in *; nia)). done. }
  pose proof (spared_verdict st rel pass f Hg Hf Hp Hg3 Hrel) as Hverdict. unfold verdict in Hverdict.
  unfold allocate_write_slot. rewrite Hseam. rewrite Epass.
  pose proof (lock_prologue_spec bld s Hs env st pass f Hok Hg Hf Hp Hg0 Hph Hfr) as Hpro.
  destruct (lock_prologue bld s env st) as [[err st1]|st1] eqn:El.
  { core_eq Hpro. assert (in_pass s (set_write_pos st1 (current_write_cursor s st)) pass f) as Hin.
    { pose proof Hok as [L1 L2 L3 _]. split; st_simpl; try congruence; try done; try lia.
      intros Hm. unfold current_write_cursor. rewrite Hm. congruence. }
    apply (Hverdict _ pass f Hin); [left; lia|]. intros Hfc; split; [auto|done]. }
  destruct Hpro as [Hin1 _]. destruct (round_up8_spec n Hn) as [H8 Hr].
  destruct (lock_prologue_guard bld s env st st1 El) as [Hgv Hds].
  pose proof (make_room_spec bld s Hs cfg env now1 now2 (round_up8 n) st1 pass f Henv Hg2 Hin1 ltac:(lia)) as Hm.
  assert (forall pass' f', spares s cfg now1 now2 st1 pass f pass' f' -> (pass' = pass -> f <= chunk_of bld s rel) ->
    (st_retain s = true -> f' <= chunk_of bld s rel) /\ (st_retain s = false -> pass' = pass /\ f' = f)) as Huse.
  { intros pass' f' Hsp. apply (Hsp (chunk_of bld s rel) Hc).
    - now apply (guarded_view _ _ st).
    - now apply (guarded_view _ _ st).
    - unfold unforced in *. now rewrite Hds. }
  destruct (make_room _ _ _ _ _ _ _ _) as [[err st2]|[rp st2]].
  { destruct Hm as (pass' & f' & Hin & Hcase & Hsp). apply (Hverdict st2 pass' f'); auto. }
  destruct Hm as (pass' & f' & Hin & Hcase & Hsp & _).
  apply (Hverdict (end_deferral_episode st2) pass' f'); auto.
  now apply (in_pass_core s st2); [apply core_end_deferral|].
Qed.
(** C14. A counted borrow is protected: while a chunk holds an outstanding
    borrow under a live lease, and no deferral episode has outlived the
    ceiling, a reservation never exposes that chunk.  A borrow of a document
    of the current pass stays below its exposure threshold (its renewals do
    not see kTorn), and so does one of the previous pass unless the log
    wrapped.  With wrap retention on, a position of the chunk that the frontier
    had not passed is not passed by the reservation either, and a slot that is granted ends
    before it, the zeroed tail included.  (The log is in order, its 64-bit
    generation has room for three passes, the write lock is still held at a
    wrap, and the test seam that publishes the cursor early is off.) *)
Theorem counted_borrow_protected cfg env now1 now2 n st rel :
  log_ok s st -> ws_gen st + 3 * (st_chunks s + 1) < 2 ^ 64 -> 0 < n < 2 ^ 63 ->
  (st_use_mmap s = true -> le_valid_at_wrap env = true) -> c_advance_cursor_at_reservation cfg = false ->
  data_start_rel s <= rel < st_size s ->
  guarded cfg now1 st (chunk_of bld s rel) -> guarded cfg now2 st (chunk_of bld s rel) -> unforced cfg now1 st ->
  let (r, st') := allocate_write_slot bld cfg s env now1 now2 n st in
  let pass := pass_of bld s (ws_gen st) in
  ws_gen st' <= exposure_threshold bld s pass rel /\
  (0 < pass -> ws_gen st <= exposure_threshold bld s (pass - 1) rel ->
     pass_of bld s (ws_gen st') = pass -> ws_gen st' <= exposure_threshold bld s (pass - 1) rel) /\
  (st_retain s = true -> snap_frontier_rel (snapshot bld s (ws_gen st) 0) <= rel ->
     snap_frontier_rel (snapshot bld s (ws_gen st') 0) <= rel /\
     match r with inl _ => True | inr slot => Z.max (slot_new_write_pos slot) (slot_fill_end slot) <= st_offset s + rel end).
Proof using Hs.
  intros Hok Hlt Hn Henv Hseam Hrel G1 G2 Hu.
  pose proof (guarded_chunk_spared cfg env now1 now2 n st rel Hok Hlt Hn Henv Hseam Hrel G1 G2 Hu) as Hsp.
  pose proof (allocate_spec cfg env now1 now2 n st Hok ltac:(pose proof (so_chunks s Hs); lia) Hn Henv Hseam) as Hal.
  destruct (allocate_write_slot _ _ _ _ _ _ _ _) as [r st']. cbv zeta in *. destruct Hsp as (H1 & H2 & H3), Hal as (_ & _ & Hal).
  split; [done|]. split; [done|]. intros Hret Hbefore.
  assert (Hafter : snap_frontier_rel (snapshot bld s (ws_gen st') 0) <= rel) by (apply Z.le_ngt; intros Hlt'; apply H3 in Hlt' as [_ ?]; [lia|done]).
  split; [done|]. destruct r as [|slot]; [done|]. destruct Hal as (Hres & _). pose proof (rs_front _ _ _ Hres Hret). lia.
Qed.
End properties.

(** ** Crash repair *)

(** The shared stores of a wrap to [pass + 1], in program order (the local
    cursor of the writer dies with it). *)
Definition wrap_stores (s : Stripe) (pass f' : Z) : list (State -> State) :=
  [ (fun st => mark_wrap_committed st (pass + 1));
    (fun st => set_shared_pos st (st_data_offset s));
    (fun st => publish_wrap_phase st (pass + 1));
    (fun st => store_exposure_gen st (gen_at s (pass + 1) f')) ].

(** A writer that raised the intent and died after the first [k] of them. *)
Definition crashed (s : Stripe) (pass f' : Z) (k : nat) (st : State) : State :=
  fold_left (fun st store => store st) (take k (wrap_stores s pass f')) (set_wrap_intent st true).

Lemma repair_unflags bld s st :
  st_use_mmap s = true -> ws_intent st = 0 ->
  repair_wrap_state bld s (set_wrap_intent st true) = repair_wrap_state bld s st.
Proof. intros Hm Hi. unfold repair_wrap_state. rewrite Hm, Hi. done. Qed.

Lemma phase_of_pass_succ p : 0 <= p -> phase_of_pass (p + 1) = negb (phase_of_pass p).
Proof.
  intros Hp. unfold phase_of_pass. change 1 with (Z.ones 1) at 2 3. rewrite !Z.land_ones by lia.
  change (2 ^ 1) with 2. pose proof (Z.mod_pos_bound p 2 ltac:(lia)).
  assert ((p + 1) mod 2 = 1 - p mod 2) as -> by (Z.div_mod_to_equations; lia).
  destruct (Z.eqb_spec (p mod 2) 0), (Z.eqb_spec (1 - p mod 2) 0); cbn; try done; lia.
Qed.

Lemma parity_of_pass p : 0 <= p -> p .& 1 = if phase_of_pass p then 1 else 0.
Proof.
  intros Hp. unfold phase_of_pass. change 1 with (Z.ones 1) at 1 2. rewrite !Z.land_ones by lia.
  change (2 ^ 1) with 2. pose proof (Z.mod_pos_bound p 2 ltac:(lia)).
  destruct (Z.eqb_spec (p mod 2) 0); cbn; lia.
Qed.

(** The repair of a committed wrap, wherever the dead writer's generation
    store stood. *)
Lemma repair_committed bld s st pass f f' :
  stripe_ok s -> st_use_mmap s = true -> 0 <= pass -> f' = (if st_retain s then 0 else st_chunks s) ->
  0 <= f <= st_chunks s -> gen_at s (pass + 2) 0 < 2 ^ 64 ->
  ws_intent st = (if phase_of_pass (pass + 1) then kIntentWrapOdd else kIntentWrapEven) ->
  ws_gen st = gen_at s pass f \/ ws_gen st = gen_at s (pass + 1) f' ->
  let st' := repair_wrap_state bld s st in
  ws_intent st' = 0 /\ ws_shared_pos st' = st_data_offset s /\ ws_gen st' = gen_at s (pass + 1) f' /\
  ws_phase st' = phase_of_pass (pass + 1).
Proof.
  intros Hs Hm Hp Ef Hf Hlt Hi Hgen. cbv zeta. pose proof (so_chunks s Hs).
  assert (0 <= f' <= st_chunks s) as Hf' by (rewrite Ef; destruct (st_retain s); lia).
  assert (fits 64 (gen_at s pass f) /\ fits 64 (gen_at s (pass + 1) f')) as [F1 F2]
    by (unfold fits, gen_at in *; nia).
  unfold repair_wrap_state. rewrite Hm, Hi. cbn [negb].
  assert (((if phase_of_pass (pass + 1) then kIntentWrapOdd else kIntentWrapEven) =? kIntentWrapEven)
    || ((if phase_of_pass (pass + 1) then kIntentWrapOdd else kIntentWrapEven) =? kIntentWrapOdd) = true) as ->
    by now destruct (phase_of_pass (pass + 1)).
  assert ((if (if phase_of_pass (pass + 1) then kIntentWrapOdd else kIntentWrapEven) =? kIntentWrapOdd then 1 else 0)
    = (pass + 1) .& 1) as -> by (rewrite parity_of_pass by lia; now destruct (phase_of_pass (pass + 1))).
  destruct Hgen as [E|E]; rewrite E, pass_of_spec, gen_at_div by done.
  - assert ((pass .& 1 =? (pass + 1) .& 1) = false) as ->.
    { rewrite !parity_of_pass, phase_of_pass_succ by lia. now destruct (phase_of_pass pass). }
    cbn [negb]. rewrite <- Ef. repeat split. unfold record_wrap. st_simpl. now apply wrap_small.
  - rewrite Z.eqb_refl. cbn [negb]. repeat split. done.
Qed.

(** What a writer that committed its wrap leaves behind. *)
Lemma crashed_committed s pass f' k st :
  let st' := crashed s pass f' (S k) st in
  ws_intent st' = (if phase_of_pass (pass + 1) then kIntentWrapOdd else kIntentWrapEven) /\
  (ws_gen st' = ws_gen st \/ ws_gen st' = gen_at s (pass + 1) f').
Proof. do 4 (destruct k as [|k]; [split; auto|]). split; auto. Qed.

(** The stores are those of the flush wrap of an mmap stripe that still holds
    its lock, which then clears the intent. *)
Lemma flush_wrap_stores bld s env st pass :
  st_use_mmap s = true -> le_valid_at_wrap env = true -> pass_of bld s (ws_gen st) = pass ->
  gen_at s (pass + 1) (st_chunks s) = u64 (u64 ((pass + 1) * (st_chunks s + 1)) + st_chunks s) ->
  core (flush_wrap bld s env (set_wrap_intent st true)) =
  core (set_write_pos (set_wrap_intent (crashed s pass (st_chunks s) 4 st) false) (st_data_offset s)).
Proof.
  intros Hm Hv Hp Hg. unfold flush_wrap, lower_shared_cursor.
  change (ws_gen (set_wrap_intent st true)) with (ws_gen st). rewrite Hm, Hv, Hp. cbn [andb]. now rewrite <- Hg.
Qed.

(** And those of the wrap of a retaining stripe, which raises the intent with
    the first of them. *)
Lemma retention_wrap_stores s env st pass n :
  st_use_mmap s = true -> le_valid_at_wrap env = true -> ws_gen st / (st_chunks s + 1) = pass ->
  u64 (st_offset s + st_size s - ws_write_pos st) < n -> gen_at s (pass + 1) 0 = u64 ((pass + 1) * (st_chunks s + 1)) ->
  core (retention_wrap s env n st).2 = core (set_write_pos (set_wrap_intent (crashed s pass 0 4 st) false) (st_data_offset s)).
Proof.
  intros Hm Hv Hp Hn%Z.ltb_lt Hg. unfold retention_wrap, lower_shared_cursor. rewrite Hn, Hm, Hv, Hp. cbn [andb]. now rewrite <- Hg.
Qed.

(** C39. Crash repair completes a committed wrap.  A writer of a stripe with a
    shared directory, whose log was in order and whose 64-bit generation has
    room for two more passes, raised the intent to wrap and died after the
    first [k] of the wrap's four shared stores (the commit mark, the cursor, the
    phase, the generation).  Once the mark was made the repair leaves a log in
    order, in the next pass (all its chunks exposed, or with retention none),
    with the cursor at the start of the data area; before it, the repair leaves
    generation and cursor as they were. *)
Theorem crash_repair_completes bld s st pass f k :
  stripe_ok s -> st_use_mmap s = true -> log_ok s st -> ws_gen st = gen_at s pass f ->
  0 <= f <= st_chunks s -> 0 <= pass -> gen_at s (pass + 2) 0 < 2 ^ 64 ->
  let f' := if st_retain s then 0 else st_chunks s in
  let st' := repair_wrap_state bld s (crashed s pass f' k st) in
  log_ok s st' /\
  ((0 < k)%nat -> ws_gen st' = gen_at s (pass + 1) f' /\ current_write_cursor s st' = st_data_offset s) /\
  (k = 0%nat -> ws_gen st' = ws_gen st /\ current_write_cursor s st' = current_write_cursor s st).
Proof.
  intros Hs Hm Hok Hg Hf Hp Hlt f' st'. pose proof (so_chunks s Hs).
  assert (0 <= f' <= st_chunks s) as Hf' by (unfold f'; destruct (st_retain s); lia).
  assert (fits 64 (gen_at s pass f) /\ fits 64 (gen_at s (pass + 1) f')) as [F1 F2]
    by (unfold fits, gen_at in *; nia).
  pose proof (so_align s Hs) as [Ha _]. pose proof (so_area s Hs) as Har. pose proof (so_start s Hs).
  assert (forall st0, ws_intent st0 = 0 -> ws_shared_pos st0 = st_data_offset s -> ws_gen st0 = gen_at s (pass + 1) f' ->
    ws_phase st0 = phase_of_pass (pass + 1) -> log_ok s st0 /\
    ((0 < k)%nat -> ws_gen st0 = gen_at s (pass + 1) f' /\ current_write_cursor s st0 = st_data_offset s)) as Hdone.
  { intros st0 E1 E2 E3 E4. assert (current_write_cursor s st0 = st_data_offset s) as Hcur
      by (unfold current_write_cursor; now rewrite Hm).
    split; [|done]. split; rewrite ?Hcur; try done.
    - unfold data_start_rel, kHeaderSize in *. lia.
    - exists (pass + 1), f'. do 2 (split; [done|]). split; [lia|]. split; [done|]. intros _.
      pose proof (frontier_rel_range s Hs f' ltac:(lia)). unfold data_start_rel in *. lia. }
  destruct k as [|k].
  { change st' with (repair_wrap_state bld s (set_wrap_intent st true)).
    rewrite (repair_unflags bld s st Hm (lo_intent s st Hok)).
    assert (core (repair_wrap_state bld s st) = core st) as Hc.
    { pose proof Hok as [L1 L2 L3 (p0 & f0 & G1 & G2 & G3 & G4 & G5)].
      assert (p0 = pass) as -> by (rewrite <- (gen_at_div s Hs p0 f0 G2), <- G1, Hg; now apply gen_at_div).
      apply (repair_clean bld s Hs st pass f Hok Hg Hf Hp ltac:(unfold fits in F1; lia) G4). }
    split; [now apply (log_ok_core s st)|]. split; [lia|]. intros _. core_eq Hc.
    unfold current_write_cursor. rewrite Hm. split; congruence. }
  enough (ws_intent st' = 0 /\ ws_shared_pos st' = st_data_offset s /\ ws_gen st' = gen_at s (pass + 1) f' /\
    ws_phase st' = phase_of_pass (pass + 1)) as (E1 & E2 & E3 & E4).
  { destruct (Hdone st' E1 E2 E3 E4) as [? ?]. done. }
  destruct (crashed_committed s pass f' k st) as [Ei Eg']. rewrite Hg in Eg'.
  now apply (repair_committed bld s _ pass f f').
Qed.

(** ** The headroom a borrower is told *)

(** The headroom is right to the millisecond.  When a wrap attempt at
    [t0] opens a deferral episode, [ns_until_forced_wrap] reports at any later
    instant up to the deadline [t0 + ceiling] a value within one millisecond
    of the real remaining time (both instants are truncated to the
    millisecond, so it may also overstate it by that much), and zero from the
    millisecond after the deadline on (for 49 days less the ceiling). *)
Theorem headroom_within_a_millisecond cfg t0 lo hi st now admitted :
  c_lease_t_ns cfg <> 0 -> ws_deferred_since st = 0 -> 0 < t0 <= now -> 0 <= c_lease_ceiling_ns cfg ->
  (1000000 | c_lease_ceiling_ns cfg) -> c_lease_ceiling_ns cfg / 1000000 < 2 ^ 31 ->
  t0 + c_lease_ceiling_ns cfg < 2 ^ 64 -> (t0 + c_lease_ceiling_ns cfg) / 1000000 mod 2 ^ 32 <> 0 ->
  let deadline := t0 + c_lease_ceiling_ns cfg in
  let (passed, st') := lease_gate cfg t0 lo hi true st in
  passed = false -> admitted = true ->
  let r := ns_until_forced_wrap cfg admitted now st' in
  (now <= deadline -> deadline - now - 1000000 < r < deadline - now + 1000000) /\
  (deadline / 1000000 < now / 1000000 < deadline / 1000000 + 2 ^ 31 -> r = 0).
Proof.
  intros Hl Hsince Ht0 Hc [ms Hms] Hcb Hd64 Hdms D. subst D.
  destruct (lease_gate cfg t0 lo hi true st) as [passed st'] eqn:Eg. intros -> ->.
  assert (ws_deadline_ms st' = (t0 + c_lease_ceiling_ns cfg) / 1000000 mod 2 ^ 32) as Edl.
  { revert Eg. unfold lease_gate. destruct (Z.eqb_spec (c_lease_t_ns cfg) 0); [done|].
    destruct (_ || _); [done|]. cbn [negb]. rewrite Hsince. cbn [negb andb Z.eqb].
    intros [= <-]. unfold publish_wrap_deferred_deadline, set_deferred_since. st_simpl.
    unfold u64. rewrite wrap_small by (unfold fits; lia).
    destruct (Z.eqb_spec (t0 + c_lease_ceiling_ns cfg) 0); [lia|]. unfold u32, wrap.
    now destruct (Z.eqb_spec ((t0 + c_lease_ceiling_ns cfg) / 1000000 mod 2 ^ 32) 0). }
  unfold ns_until_forced_wrap. rewrite Edl. cbn [negb].
  destruct (Z.eqb_spec (c_lease_t_ns cfg) 0); [done|].
  destruct (Z.eqb_spec ((t0 + c_lease_ceiling_ns cfg) / 1000000 mod 2 ^ 32) 0); [done|].
  assert (u32 ((t0 + c_lease_ceiling_ns cfg) / 1000000 mod 2 ^ 32 - u32 (now / 1000000)) =
    ((t0 + c_lease_ceiling_ns cfg) / 1000000 - now / 1000000) mod 2 ^ 32) as ->
    by (unfold u32, wrap; now rewrite <- Zminus_mod).
  rewrite Hms, Z.div_mul, Z.div_add in * by lia.
  assert (t0 / 1000000 <= now / 1000000) by (apply Z.div_le_mono; lia).
  pose proof (Z.div_mod t0 1000000 ltac:(lia)) as Et. pose proof (Z.mod_pos_bound t0 1000000 ltac:(lia)).
  pose proof (Z.div_mod now 1000000 ltac:(lia)) as En. pose proof (Z.mod_pos_bound now 1000000 ltac:(lia)).
  set (a := t0 / 1000000) in *. set (b := now / 1000000) in *. split.
  - intros Hn. assert (b <= a + ms) by lia. rewrite Z.mod_small by lia.
    destruct (Z.ltb_spec ms (a + ms - b)); lia.
  - intros Hn. rewrite <- (Z.mod_add _ 1) by lia. rewrite Z.mod_small by lia.
    destruct (Z.ltb_spec ms (a + ms - b + 1 * 2 ^ 32)); lia.
Qed.

(** ** No starvation *)

(** What readers and writers do to a stripe between two wraps: readers borrow,
    release and renew, writers attempt the gate. *)
Inductive gate_event :=
  | EAcquire (shard : nat) (chunk : Z)
  | ERelease (admitted : bool) (t : BorrowToken)
  | ERenew (admitted : bool) (now : Z) (epoch : BorrowEpoch) (t : BorrowToken)
  | EAttempt (now lo hi : Z).

(** Runs the events until an attempt passes; [inl t] is the time it passed. *)
Fixpoint run_gate (cfg : Config) (st : State) (l : list gate_event) : Z + State :=
  match l with
  | [] => inr st
  | EAcquire shard chunk :: l => run_gate cfg (snd (acquire_borrow cfg st shard chunk)) l
  | ERelease admitted t :: l => run_gate cfg (release_borrow admitted st t) l
  | ERenew admitted now epoch t :: l =>
      run_gate cfg (snd (renew_read_lease_strict cfg admitted now st epoch t)) l
  | EAttempt now lo hi :: l =>
      let (passed, st) := lease_gate cfg now lo hi true st in
      if passed then inl now else run_gate cfg st l
  end.

Definition attempt_times (l : list gate_event) : list Z :=
  omap (fun e => match e with EAttempt now _ _ => Some now | _ => None end) l.

Lemma acquire_since cfg st shard chunk :
  ws_deferred_since (snd (acquire_borrow cfg st shard chunk)) = ws_deferred_since st.
Proof.
  unfold acquire_borrow. destruct (c_lease_t_ns cfg =? 0); [done|].
  now destruct (slot_acquire _) as [[gen counted] v].
Qed.

Lemma release_since admitted st t : ws_deferred_since (release_borrow admitted st t) = ws_deferred_since st.
Proof. unfold release_borrow. destruct (_ || _); [done|]. now destruct (negb admitted). Qed.

Lemma renew_since cfg admitted now st epoch t :
  ws_deferred_since (snd (renew_read_lease_strict cfg admitted now st epoch t)) = ws_deferred_since st.
Proof.
  unfold renew_read_lease_strict, stamp_read_lease. destruct (c_lease_t_ns cfg =? 0); [done|].
  destruct (negb admitted); [done|]. destruct (_ <? _); [done|]. destruct (negb _); [done|].
  now destruct (wrap_intent_set _).
Qed.

Ltac same_since := rewrite ?acquire_since, ?release_since, ?renew_since in *.

(** An attempt that fails leaves the episode open since its first failure. *)
Lemma gate_fails cfg now lo hi st st' :
  lease_gate cfg now lo hi true st = (false, st') ->
  if ws_deferred_since st =? 0 then ws_deferred_since st' = now
  else ws_deferred_since st' = ws_deferred_since st /\
       u64 (now - ws_deferred_since st) <= c_lease_ceiling_ns cfg.
Proof.
  unfold lease_gate. destruct (c_lease_t_ns cfg =? 0); [done|]. destruct (_ || _); [done|]. cbn [negb].
  destruct (Z.eqb_spec (ws_deferred_since st) 0) as [E|E]; cbn [negb andb].
  - intros [= <-]. done.
  - destruct (Z.ltb_spec (c_lease_ceiling_ns cfg) (u64 (now - ws_deferred_since st))); [done|].
    intros [= <-]. done.
Qed.

(** While an episode is open, failing attempts stay within its ceiling. *)
Lemma open_episode_bound cfg st l st' t :
  run_gate cfg st l = inr st' -> ws_deferred_since st <> 0 -> t ∈ attempt_times l ->
  u64 (t - ws_deferred_since st) <= c_lease_ceiling_ns cfg.
Proof.
  revert st. induction l as [|e l IH]; intros st Hrun Hs Ht; [now apply elem_of_nil in Ht|].
  destruct e as [shard chunk|ad tok|ad now ep tok|now lo hi]; cbn [run_gate attempt_times omap list_omap] in *;
    try (apply IH in Hrun; same_since; done).
  destruct (lease_gate cfg now lo hi true st) as [[] st1] eqn:Eg; [done|].
  apply gate_fails in Eg. destruct (Z.eqb_spec (ws_deferred_since st) 0); [done|]. destruct Eg as [E Hb].
  apply elem_of_cons in Ht as [->|Ht]; [done|]. rewrite <- E. apply (IH st1 Hrun); [now rewrite E|done].
Qed.

(** C33. Wraps are not starved: whatever readers do (borrow, release, renew
    their leases for ever), a writer that keeps attempting the gate gets
    through.  If every attempt of a run fails, all of them lie within one
    ceiling of the first. *)
Theorem wrap_not_starved cfg st l st' first t rest :
  run_gate cfg st l = inr st' -> ws_deferred_since st = 0 ->
  attempt_times l = first :: rest -> t ∈ rest -> 0 < first <= t -> t < 2 ^ 64 ->
  t - first <= c_lease_ceiling_ns cfg.
Proof.
  revert st. induction l as [|e l IH]; intros st Hrun Hs Htimes Ht Hle Hlt; [done|].
  destruct e as [shard chunk|ad tok|ad now ep tok|now lo hi]; cbn [run_gate attempt_times omap list_omap] in *;
    try (apply (IH _ Hrun); same_since; done).
  injection Htimes as -> Erest.
  destruct (lease_gate cfg first lo hi true st) as [[] st1] eqn:Eg; [done|].
  apply gate_fails in Eg. rewrite Hs in Eg. cbn [Z.eqb] in Eg. subst rest.
  assert (ws_deferred_since st1 <> 0) as Hs1 by (rewrite Eg; lia).
  pose proof (open_episode_bound cfg st1 l st' t Hrun Hs1 Ht) as Hb. rewrite Eg in Hb.
  unfold u64 in Hb. rewrite wrap_small in Hb by (unfold fits; lia). lia.
Qed.

(** ** The borrow-slot protocol *)

Section slots.

Lemma pack_of_val g n : fits 8 g -> fits 24 n -> pack_of g n = n + g * 2 ^ 24.
Proof.
  intros Hg Hn. unfold pack_of. change kCountMask with (2 ^ 24 - 1). rewrite land_ones_wrap by lia.
  rewrite (wrap_small 24 n) by done. rewrite Z.lor_comm. unfold kCountBits. rewrite lor_shift_add by done.
  apply wrap_small. unfold fits in *. lia.
Qed.

Lemma count_of_pack g n : fits 8 g -> fits 24 n -> count_of (pack_of g n) = n.
Proof.
  intros Hg Hn. rewrite pack_of_val by done. unfold count_of. change kCountMask with (2 ^ 24 - 1).
  rewrite land_ones_wrap by lia. unfold wrap. rewrite Z.mod_add by lia. now apply Z.mod_small.
Qed.

Lemma generation_of_pack g n : fits 8 g -> fits 24 n -> generation_of (pack_of g n) = g.
Proof.
  intros Hg Hn. rewrite pack_of_val by done. unfold generation_of, kCountBits.
  rewrite Z.shiftr_div_pow2, Z.div_add by lia. rewrite Z.div_small by done. now apply wrap_small.
Qed.

Lemma count_of_fits slot : fits 24 (count_of slot).
Proof. unfold count_of. change kCountMask with (2 ^ 24 - 1). rewrite land_ones_wrap by lia. now apply wrap_fits. Qed.

Lemma generation_of_fits slot : fits 8 (generation_of slot).
Proof. now apply wrap_fits. Qed.

(** One slot and the generations of the counted tokens that readers hold on
    it.  A forced reset moves to a generation no token holds: the reuse of an
    8-bit generation while a token of 256 resets ago is outstanding is the
    residual risk the source names. *)
Inductive slot_step : Z * list Z -> Z * list Z -> Prop :=
  | step_acquire slot toks gen counted slot' :
      slot_acquire slot = ((gen, counted), slot') ->
      slot_step (slot, toks) (slot', if counted then gen :: toks else toks)
  | step_release slot toks1 gen toks2 :
      slot_step (slot, toks1 ++ gen :: toks2) (slot_release slot gen, toks1 ++ toks2)
  | step_reset slot toks :
      (forall g, g ∈ toks -> g <> u8 (generation_of slot + 1)) ->
      slot_step (slot, toks) (slot_force_reset slot, toks).

(** Tokens of generation [g]. *)
Definition held (g : Z) (toks : list Z) : Z := Z.of_nat (length (List.filter (Z.eqb g) toks)).

Lemma held_app g a b : held g (a ++ b) = held g a + held g b.
Proof. unfold held. rewrite List.filter_app, length_app. lia. Qed.
Lemma held_cons g x l : held g (x :: l) = (if g =? x then 1 else 0) + held g l.
Proof. unfold held. cbn [List.filter]. destruct (g =? x); cbn [length]; lia. Qed.
Lemma held_none g l : (forall x, x ∈ l -> x <> g) -> held g l = 0.
Proof.
  induction l as [|x l IH]; intros H; [done|]. rewrite held_cons, IH by (intros y Hy; apply H; now right).
  destruct (Z.eqb_spec g x) as [->|]; [|done]. now destruct (H x (list_elem_of_here _ _)).
Qed.
Lemma held_nonneg g l : 0 <= held g l.
Proof. unfold held. lia. Qed.

Definition slot_exact (c : Z * list Z) : Prop :=
  count_of (fst c) = held (generation_of (fst c)) (snd c) /\ Forall (fits 8) (snd c).

Lemma slot_step_exact c c' : slot_step c c' -> slot_exact c -> slot_exact c'.
Proof.
  intros Hstep [Hc Ht]. unfold slot_exact. destruct Hstep as [slot toks gen counted slot' Ha|slot t1 gen t2|slot toks Hfresh];
    cbn [fst snd] in *; pose proof (count_of_fits slot) as Fc; pose proof (generation_of_fits slot) as Fg.
  - unfold slot_acquire in Ha. destruct (Z.eqb_spec (count_of slot) kCountMask) as [|Hne]; injection Ha as <- <- <-; [done|].
    assert (fits 24 (count_of slot + 1)) by (change kCountMask with 16777215 in Hne; unfold fits in *; lia).
    rewrite count_of_pack, generation_of_pack, held_cons, Z.eqb_refl by done. split; [lia|]. now constructor.
  - rewrite held_app, held_cons in Hc. apply Forall_app in Ht as [? [Hgen ?]%Forall_cons].
    split; [|apply Forall_app; split; assumption]. unfold slot_release.
    pose proof (held_nonneg (generation_of slot) t1). pose proof (held_nonneg (generation_of slot) t2).
    revert Hc. destruct (Z.eqb_spec (generation_of slot) gen) as [<-|Hne]; cbn [negb orb]; intros Hc.
    + destruct (Z.eqb_spec (count_of slot) 0); [lia|]. assert (fits 24 (count_of slot - 1)) by (unfold fits in *; lia).
      rewrite count_of_pack, generation_of_pack, held_app by done. lia.
    + rewrite held_app. lia.
  - split; [|done]. unfold slot_force_reset. destruct (Z.eqb_spec (count_of slot) 0); [done|].
    assert (fits 8 (u8 (generation_of slot + 1))) by now apply wrap_fits.
    rewrite count_of_pack, generation_of_pack by done. now rewrite held_none.
Qed.
End slots.

(** The borrow count is exact under any interleaving: starting from an
    empty slot, after any sequence of acquires, releases (in any order, of any
    held token, stale ones included) and forced resets, the slot's count is
    the number of outstanding tokens of its current generation; in particular
    a release of a token from before a reset never takes away a live
    borrow's count, and the count never wraps. *)
Theorem borrow_count_exact slot toks :
  rtc slot_step (0, []) (slot, toks) ->
  count_of slot = Z.of_nat (length (List.filter (Z.eqb (generation_of slot)) toks)).
Proof.
  intros Hr. enough (slot_exact (slot, toks)) as [H _] by done.
  assert (slot_exact (0, [])) as H0 by (split; [done|constructor]).
  revert H0. induction Hr as [|c c' c'' Hstep Hr IH]; [done|]. intros H0. apply IH. now apply (slot_step_exact c).
Qed.

(** ** Witnesses *)

(** The third pass over [sample_stripe], five chunks exposed, one borrow in
    chunk ten. *)
Definition sample_config : Config := {|
  c_lease_t_ns := 5000000000; c_lease_ceiling_ns := 60000000000;
  c_fill_large_document_tail := true; c_advance_cursor_at_reservation := false |}.

Definition log_at (s : Stripe) (pos : Z) : State := {|
  ws_write_pos := pos; ws_shared_pos := pos; ws_gen := gen_at s 3 5; ws_intent := 0;
  ws_phase := phase_of_pass 3; ws_slots := [<[10%nat := pack_of 7 1]> (replicate 64 0)];
  ws_lease_expiry := 5000000100; ws_deferred_since := 0; ws_deadline_ms := 0; ws_locked := false;
  ws_events := [] |}.

Definition sample_log : State := log_at sample_stripe (st_data_offset sample_stripe + 2 ^ 22).

Definition sample_env : LockEnv := {|
  le_token := {| wt_acquired := true; wt_forced_release := false; wt_escalated_takeover := false;
                 wt_live_waits := 0; wt_generation := 9 |};
  le_valid := true; le_valid_at_wrap := true; le_valid_at_seam := true |}.

Lemma log_at_ok s pos :
  stripe_ok s -> st_data_offset s <= pos <= st_offset s + frontier_rel_of s 5 -> (8 | pos) -> 5 <= st_chunks s ->
  log_ok s (log_at s pos).
Proof.
  intros Hs Hpos H8 Hc. pose proof (frontier_rel_range s Hs 5 ltac:(lia)).
  assert (current_write_cursor s (log_at s pos) = pos) as E by (unfold current_write_cursor; now destruct (st_use_mmap s)).
  split; rewrite ?E; try done; [lia|]. exists 3, 5. do 2 (split; [done || lia|]). split; [lia|]. split; [done|]. lia.
Qed.

Lemma sample_log_ok : log_ok sample_stripe sample_log.
Proof.
  apply log_at_ok; [exact sample_stripe_ok|vm_compute; split; discriminate|exists 606216; reflexivity|vm_compute; discriminate].
Qed.

Lemma allocate_reserves_witness :
  exists slot st', allocate_write_slot mulhi_int128 sample_config sample_stripe sample_env 100 100 1000 sample_log
    = (inr slot, st') /\ reserved mulhi_int128 sample_stripe st' 1000 slot.
Proof.
  pose proof (allocate_reserves mulhi_int128 sample_stripe sample_stripe_ok sample_config sample_env 100 100 1000
    sample_log sample_log_ok ltac:(vm_compute; reflexivity) ltac:(lia) ltac:(discriminate) eq_refl) as H.
  assert (match fst (allocate_write_slot mulhi_int128 sample_config sample_stripe sample_env 100 100 1000 sample_log)
          with inr _ => true | inl _ => false end = true) as E by (vm_compute; reflexivity).
  destruct (allocate_write_slot _ _ _ _ _ _ _ _) as [[err|slot] st']; [discriminate E|].
  exists slot, st'. split; [reflexivity|apply H].
Defined.

Lemma counted_borrow_protected_witness :
  let (_, st') := allocate_write_slot mulhi_int128 sample_config sample_stripe sample_env 100 100 (2 ^ 25) sample_log in
  ws_gen st' <= exposure_threshold mulhi_int128 sample_stripe 3 (2 ^ 20 * 11).
Proof.
  assert (guarded sample_config 100 sample_log (chunk_of mulhi_int128 sample_stripe (2 ^ 20 * 11))) as Hg.
  { split; [discriminate|reflexivity|]. apply Exists_cons_hd. vm_compute. discriminate. }
  pose proof (counted_borrow_protected mulhi_int128 sample_stripe sample_stripe_ok sample_config sample_env 100 100
    (2 ^ 25) sample_log (2 ^ 20 * 11) sample_log_ok ltac:(vm_compute; reflexivity) ltac:(lia) ltac:(discriminate)
    eq_refl ltac:(vm_compute; split; [discriminate|reflexivity]) Hg Hg ltac:(now left)) as H.
  destruct (allocate_write_slot _ _ _ _ _ _ _ _) as [r st']. apply H.
Defined.

(** A slot for 1000 bytes at the cursor of [sample_log]. *)
Definition sample_slot : WriteSlot :=
  granted_slot mulhi_int128 sample_config sample_stripe sample_env (round_up8 1000) (Some 3) sample_log.

Lemma sample_slot_reserved : reserved mulhi_int128 sample_stripe sample_log 1000 sample_slot.
Proof.
  apply (granted_reserved mulhi_int128 sample_stripe sample_stripe_ok) with (pass := 3) (f := 5).
  - pose proof sample_log_ok as []. split; try done; vm_compute; intuition discriminate.
  - vm_compute. reflexivity.
  - lia.
  - vm_compute. discriminate.
  - intros _. vm_compute. discriminate.
  - reflexivity.
Qed.

Lemma commit_publishes_witness :
  current_write_cursor sample_stripe (snd (commit_write_slot sample_stripe sample_slot true true sample_log)) =
  slot_new_write_pos sample_slot.
Proof.
  pose proof (commit_publishes mulhi_int128 sample_stripe sample_stripe_ok 1000 sample_log sample_slot true true
    sample_log_ok sample_slot_reserved eq_refl eq_refl ltac:(lia) ltac:(vm_compute; reflexivity)) as H.
  destruct (commit_write_slot _ _ _ _ _) as [err st']. apply H.
Defined.

(** The same stripe behind an mmap directory. *)
Definition shared_stripe : Stripe :=
  configure_frontier 64 (2 ^ 26) (64 + stripe_directory_span false) true true.

Lemma shared_stripe_ok : stripe_ok shared_stripe.
Proof.
  assert (stripe_directory_span false = 655360) as E by reflexivity. unfold shared_stripe. rewrite E.
  apply configure_frontier_ok; unfold kHeaderSize; try lia; [exists 81928|exists 8]; reflexivity.
Qed.

(** A writer dies between lowering the cursor and publishing the phase. *)
Lemma crash_repair_completes_witness :
  ws_gen (repair_wrap_state mulhi_int128 shared_stripe
    (crashed shared_stripe 3 0 2 (log_at shared_stripe (st_data_offset shared_stripe + 2 ^ 22))))
  = gen_at shared_stripe 4 0.
Proof.
  apply (crash_repair_completes mulhi_int128 shared_stripe (log_at shared_stripe (st_data_offset shared_stripe + 2 ^ 22))
    3 5 2 shared_stripe_ok eq_refl).
  - apply log_at_ok; [exact shared_stripe_ok|vm_compute; split; discriminate|exists 606216; reflexivity|vm_compute; discriminate].
  - reflexivity.
  - vm_compute. split; discriminate.
  - lia.
  - vm_compute. reflexivity.
  - lia.
Defined.

Definition leased_log : State := set_lease_expiry sample_log 8000000000.

Lemma headroom_within_a_millisecond_witness :
  let st' := snd (lease_gate sample_config 4000000000 0 64 true leased_log) in
  let r := ns_until_forced_wrap sample_config true 4999999999 st' in
  64000000000 - 4999999999 - 1000000 < r < 64000000000 - 4999999999 + 1000000.
Proof.
  pose proof (headroom_within_a_millisecond sample_config 4000000000 0 64 leased_log 4999999999 true
    ltac:(discriminate) eq_refl ltac:(lia) ltac:(vm_compute; discriminate) ltac:(now exists 60000)
    ltac:(vm_compute; reflexivity) ltac:(vm_compute; reflexivity) ltac:(vm_compute; discriminate)) as H.
  cbv zeta in H |- *. destruct (lease_gate sample_config 4000000000 0 64 true leased_log) as [passed st'] eqn:E.
  assert (passed = false) as -> by (change passed with (fst (passed, st')); rewrite <- E; vm_compute; reflexivity).
  destruct (H eq_refl eq_refl) as [H1 _]. apply H1. vm_compute. discriminate.
Defined.

(** The headroom can be overstated: one nanosecond before its deadline's
    millisecond ends, a whole millisecond is reported. *)
Example headroom_overstated :
  ns_until_forced_wrap sample_config true 4999999 (publish_wrap_deferred_deadline sample_log 5000000) = 1000000.
Proof. reflexivity. Qed.

(** Two attempts half a second apart, a renewal between them. *)
Lemma wrap_not_starved_witness : 4500000000 - 4000000000 <= c_lease_ceiling_ns sample_config.
Proof.
  pose (l := [EAttempt 4000000000 0 64; EAcquire 0 10; ERenew true 4200000000 {| be_threshold := 10 ^ 6 |}
    {| bt_generation := 7; bt_counted := true; bt_active := true; bt_shard := 0; bt_chunk := 10 |};
    EAttempt 4500000000 0 64]).
  destruct (run_gate sample_config leased_log l) as [t|st'] eqn:E.
  - exfalso. assert (match run_gate sample_config leased_log l with inl _ => true | inr _ => false end = false) as E'
      by (vm_compute; reflexivity). rewrite E in E'. discriminate.
  - apply (wrap_not_starved sample_config leased_log l st' 4000000000 4500000000 [4500000000] E).
    + reflexivity.
    + reflexivity.
    + apply list_elem_of_here.
    + lia.
    + lia.
Defined.

(** Two borrows, a forced reset, a third borrow, and the release of a stale
    token: one live borrow is left counted. *)
Lemma borrow_count_exact_witness : count_of (pack_of 1 1) = 1.
Proof.
  apply (borrow_count_exact (pack_of 1 1) [1; 0]).
  apply rtc_l with (y := (pack_of 0 1, [0])); [now apply (step_acquire 0 [] 0 true)|].
  apply rtc_l with (y := (pack_of 0 2, [0; 0])); [now apply (step_acquire (pack_of 0 1) [0] 0 true)|].
  apply rtc_l with (y := (pack_of 1 0, [0; 0])).
  { apply (step_reset (pack_of 0 2) [0; 0]). intros g Hg. assert (g = 0) as ->; [|discriminate].
    repeat (apply elem_of_cons in Hg as [->|Hg]; [done|]). now apply elem_of_nil in Hg. }
  apply rtc_l with (y := (pack_of 1 1, [1; 0; 0])); [now apply (step_acquire (pack_of 1 0) [0; 0] 1 true)|].
  apply rtc_once, (step_release (pack_of 1 1) [1] 0 [0]).
Defined.
