(* ===== verification/RamCache.v ===== *)
(** * The RAM cache interface (src/src/ram_cache/ram_cache.hpp)

    Composite keys, the [std::list] of cache nodes with the iterators the
    implementations keep into it, the [RamCache] interface and the contract
    its clients rely on: a lossy map.  LruCache.v and Clfus.v are the two
    implementations and discharge the contract. *)

From S2P Require Import Prelude Key.

(** ** Keys *)

(** [alternate_id] is the byte of the [AlternateId] enumeration. *)
Record RamCacheKey := { cache_key : CacheKey; alternate_id : Z }.

#[export] Instance RamCacheKey_eq_dec : EqDecision RamCacheKey.
Proof. solve_decision. Defined.

#[export] Instance RamCacheKey_countable : Countable RamCacheKey :=
  inj_countable' (fun k => (cache_key k, alternate_id k)) (fun p => Build_RamCacheKey p.1 p.2)
    (fun k => match k with Build_RamCacheKey _ _ => eq_refl end).

(** [saturating_increment]: the compare-exchange that succeeds. *)
Definition saturating_increment (counter : Z) : Z :=
  if counter =? 2 ^ 32 - 1 then counter else counter + 1.

(** ** [std::list] with stable iterators

    A list of nodes, each with its identity (its address); an iterator is such
    an identity, and stays valid until its node is destroyed.  Dereferencing
    or splicing an iterator whose node is gone is undefined behaviour:
    [None]. *)

Section stdlist.
Context {A : Type}.
Implicit Types (l : list (nat * A)) (it : nat).

Fixpoint deref l it : option A :=
  match l with
  | [] => None
  | (j, a) :: l => if decide (j = it) then Some a else deref l it
  end.

Definition erase l it : list (nat * A) := filter (fun n => n.1 <> it) l.

(** [*it = a]. *)
Definition assign l it (a : A) : list (nat * A) :=
  map (fun n => if decide (n.1 = it) then (it, a) else n) l.

(** [splice(begin(), list, it)]. *)
Definition splice_front l it : option (list (nat * A)) :=
  a ← deref l it; Some ((it, a) :: erase l it).

Definition is_begin l it : bool := match l with (j, _) :: _ => bool_decide (j = it) | [] => false end.

Lemma deref_elem l it a : deref l it = Some a -> (it, a) ∈ l.
Proof.
  induction l as [|[j b] l IH]; cbn; [done|]. destruct (decide (j = it)) as [->|].
  - intros [= ->]. apply list_elem_of_here.
  - intros H. apply list_elem_of_further. auto.
Qed.

Lemma elem_deref l it a : NoDup l.*1 -> (it, a) ∈ l -> deref l it = Some a.
Proof.
  induction l as [|[j b] l IH]; cbn; [now intros _ ?%elem_of_nil|].
  intros [Hj Hn]%NoDup_cons Hin. apply elem_of_cons in Hin as [[= -> ->]|Hin].
  - now rewrite decide_True.
  - rewrite decide_False; [auto|]. intros ->. apply Hj. apply list_elem_of_fmap. now exists (it, a).
Qed.

Lemma erase_cons j b l it : erase ((j, b) :: l) it = if decide (j = it) then erase l it else (j, b) :: erase l it.
Proof. unfold erase. rewrite filter_cons. cbn. now repeat case_decide. Qed.

Lemma erase_absent l it : it ∉ l.*1 -> erase l it = l.
Proof.
  induction l as [|[j b] l IH]; [done|]. rewrite fmap_cons, erase_cons. intros [Hj Hl]%not_elem_of_cons.
  rewrite decide_False by (cbn in Hj; congruence). f_equal. auto.
Qed.

Lemma erase_perm l it a : NoDup l.*1 -> deref l it = Some a -> l ≡ₚ (it, a) :: erase l it.
Proof.
  induction l as [|[j b] l IH]; [done|]. rewrite fmap_cons, erase_cons. intros [Hj Hn]%NoDup_cons. cbn [deref].
  destruct (decide (j = it)) as [->|Hne].
  - intros [= ->]. now rewrite erase_absent.
  - intros Hd. rewrite (IH Hn Hd) at 1. constructor.
Qed.

Lemma elem_erase l it n : n ∈ erase l it <-> n.1 <> it /\ n ∈ l.
Proof. unfold erase. now rewrite list_elem_of_filter. Qed.

Lemma nodup_erase l it : NoDup l.*1 -> NoDup (erase l it).*1.
Proof.
  induction l as [|[j b] l IH]; [done|]. rewrite fmap_cons, erase_cons. intros [Hj Hn]%NoDup_cons.
  destruct (decide (j = it)); [auto|]. rewrite fmap_cons. apply NoDup_cons. split; [|auto].
  intros ([i a] & E & [_ Hin]%elem_erase)%list_elem_of_fmap. apply Hj. apply list_elem_of_fmap. now exists (i, a).
Qed.

(** The back of a list. *)
Lemma last_erase l it a :
  NoDup l.*1 -> last l = Some (it, a) -> l = erase l it ++ [(it, a)] /\ deref l it = Some a.
Proof.
  intros Hn [l0 El]%last_Some. subst l. split.
  - unfold erase. rewrite filter_app, filter_cons_False by (cbn; tauto). fold (erase l0 it).
    rewrite fmap_app in Hn. apply NoDup_app in Hn as (_ & Hd & _). rewrite erase_absent; [now rewrite app_nil_r|].
    intros Hin. apply (Hd it Hin). apply list_elem_of_here.
  - apply elem_deref; [done|]. apply elem_of_app. right. apply list_elem_of_here.
Qed.

Lemma splice_front_perm l it l' : NoDup l.*1 -> splice_front l it = Some l' -> l' ≡ₚ l.
Proof.
  unfold splice_front. intros Hn. destruct (deref l it) as [a|] eqn:E; cbn; [|done].
  intros [= <-]. symmetry. now apply erase_perm.
Qed.

Lemma assign_perm l it a b :
  NoDup l.*1 -> deref l it = Some a -> assign l it b ≡ₚ (it, b) :: erase l it.
Proof.
  induction l as [|[j c] l IH]; [done|]. rewrite fmap_cons, erase_cons. intros [Hj Hn]%NoDup_cons.
  cbn [deref assign map fst]. fold (assign l it b). destruct (decide (j = it)) as [->|Hne].
  - intros _. rewrite erase_absent by done. f_equiv. assert (assign l it b = l) as ->; [|done].
    clear IH Hn. induction l as [|[j d] l IH]; [done|]. rewrite fmap_cons in Hj.
    apply not_elem_of_cons in Hj as [? ?]. cbn [assign map fst]. fold (assign l it b).
    rewrite decide_False by (cbn in *; congruence). f_equal. auto.
  - intros Hd. rewrite (IH Hn Hd). constructor.
Qed.

Lemma deref_perm l l' it : NoDup l.*1 -> l ≡ₚ l' -> deref l it = deref l' it.
Proof.
  intros Hn Hp. assert (NoDup l'.*1) as Hn' by now rewrite <- Hp.
  destruct (deref l it) as [a|] eqn:E.
  - symmetry. apply elem_deref; [done|]. rewrite <- Hp. now apply deref_elem.
  - destruct (deref l' it) as [a|] eqn:E'; [|done]. apply deref_elem in E'. rewrite <- Hp in E'.
    apply elem_deref in E'; [congruence|done].
Qed.
End stdlist.

(** ** The interface *)

(** One operation of a cache in state [C].  [None] is undefined behaviour;
    [put_if]'s boolean argument is what its predicate answered under the
    lock. *)
Class RamCacheOps (C : Type) := {
  rc_get : RamCacheKey -> C -> option (option (list Z * Z) * C);
  rc_put_if : RamCacheKey -> list Z -> bool -> Z -> C -> option (bool * C);
  rc_remove : RamCacheKey -> C -> option (bool * C);
  rc_remove_all : CacheKey -> C -> option C;
  rc_clear : C -> C;
  rc_bytes_used : C -> Z;
  rc_max_bytes : C -> Z;
}.

Abbreviation contents_map := (gmap RamCacheKey (list Z * Z)).

(** The entries of other keys. *)
Definition other_keys (key : CacheKey) (m : contents_map) : contents_map :=
  filter (fun kv => cache_key kv.1 <> key) m.

(** The contract: in a well-formed state every operation is defined and keeps
    the state well formed, reads return what the cache holds, a successful
    put holds the new bytes under the new stamp and may drop others, a refused
    one changes nothing, removals remove, and the bytes stay in budget. *)
Class RamCacheLaws (C : Type) `{!RamCacheOps C} := {
  rc_ok : C -> Prop;
  rc_contents : C -> contents_map;
  rc_get_spec k c : rc_ok c ->
    exists c', rc_get k c = Some (rc_contents c !! k, c') /\ rc_ok c' /\ rc_contents c' = rc_contents c;
  rc_put_spec k data verdict stamp c : rc_ok c ->
    exists b c', rc_put_if k data verdict stamp c = Some (b, c') /\ rc_ok c' /\
      (b = true -> verdict = true /\ rc_contents c' ⊆ <[k := (data, stamp)]> (rc_contents c) /\
                   rc_contents c' !! k = Some (data, stamp)) /\
      (b = false -> rc_contents c' = rc_contents c);
  rc_remove_spec k c : rc_ok c ->
    exists b c', rc_remove k c = Some (b, c') /\ rc_ok c' /\ rc_contents c' = delete k (rc_contents c) /\
      (is_Some (rc_contents c !! k) -> b = true);
  rc_remove_all_spec key c : rc_ok c ->
    exists c', rc_remove_all key c = Some c' /\ rc_ok c' /\ rc_contents c' = other_keys key (rc_contents c);
  rc_clear_spec c : rc_ok c -> rc_ok (rc_clear c) /\ rc_contents (rc_clear c) = ∅;
  rc_budget c : rc_ok c -> 0 <= rc_bytes_used c <= rc_max_bytes c;
}.

(** ** What a client sees *)

Inductive ram_op :=
  | OpGet (k : RamCacheKey)
  | OpPut (k : RamCacheKey) (data : list Z) (verdict : bool) (stamp : Z)
  | OpRemove (k : RamCacheKey)
  | OpRemoveAll (key : CacheKey)
  | OpClear.

Section client.
Context {C : Type} `{!RamCacheOps C}.

(** Runs the operations beside the map they promise: [Some (c, m, bad)] with
    the cache, the map of every put that reported success and was not removed
    since, and the reads that disagreed with that map. *)
Fixpoint run_ops (l : list ram_op) (c : C) (m : contents_map) : option (C * contents_map * list RamCacheKey) :=
  match l with
  | [] => Some (c, m, [])
  | OpGet k :: l =>
      '(r, c) ← rc_get k c;
      '(c, m', bad) ← run_ops l c m;
      Some (c, m', match r with
                   | Some v => if decide (m !! k = Some v) then bad else k :: bad
                   | None => bad
                   end)
  | OpPut k data verdict stamp :: l =>
      '(b, c) ← rc_put_if k data verdict stamp c;
      run_ops l c (if b : bool then <[k := (data, stamp)]> m else m)
  | OpRemove k :: l => '(_, c) ← rc_remove k c; run_ops l c (delete k m)
  | OpRemoveAll key :: l => c ← rc_remove_all key c; run_ops l c (other_keys key m)
  | OpClear :: l => run_ops l (rc_clear c) ∅
  end.

Lemma run_ops_coherent `{!RamCacheLaws C} l c m :
  rc_ok c -> rc_contents c ⊆ m ->
  exists c' m', run_ops l c m = Some (c', m', []) /\ rc_ok c' /\ rc_contents c' ⊆ m'.
Proof.
  revert c m. induction l as [|[k|k data v stamp|k|key|] l IH]; intros c m Hok Hsub; cbn [run_ops].
  - now exists c, m.
  - destruct (rc_get_spec k c Hok) as (c1 & -> & Hok1 & Ec). cbn. rewrite <- Ec in Hsub.
    destruct (IH c1 m Hok1 Hsub) as (c' & m' & -> & H). cbn. exists c', m'. split; [|done].
    destruct (rc_contents c !! k) as [w|] eqn:E; [|done]. rewrite decide_True; [done|].
    rewrite <- Ec in E. now apply (lookup_weaken _ _ _ _ E).
  - destruct (rc_put_spec k data v stamp c Hok) as (b & c1 & -> & Hok1 & Ht & Hf). cbn. apply IH; [done|].
    destruct b; [|now rewrite Hf]. destruct Ht as (_ & Hs & _); [done|]. etransitivity; [exact Hs|].
    now apply insert_mono.
  - destruct (rc_remove_spec k c Hok) as (b & c1 & -> & Hok1 & Ec & _). cbn. apply IH; [done|].
    rewrite Ec. now apply delete_mono.
  - destruct (rc_remove_all_spec key c Hok) as (c1 & -> & Hok1 & Ec). cbn. apply IH; [done|].
    rewrite Ec. unfold other_keys. apply map_filter_subseteq_mono. done.
  - destruct (rc_clear_spec c Hok) as [Hok1 Ec]. apply IH; [done|]. now rewrite Ec.
Qed.
End client.
