(* ===== verification/LruCache.v ===== *)
(** * The LRU RAM cache (src/src/ram_cache/lru.cpp)

    The list of entries in recency order, the map from keys to iterators into
    it, and the generation counter that lets a hit reuse the iterator it
    saved in its shared-lock window. *)

From S2P Require Import Prelude Key RamCache.
Local Open Scope cyc_scope.

Record Entry := { e_key : RamCacheKey; e_data : list Z; e_stamp : Z }.

(** [_next] is not a member: it is the allocator, which never hands out the
    address of a live node. *)
Record RamCacheLRU := {
  _max_bytes : Z;
  _bytes_used : Z;
  _lru : list (nat * Entry);
  _entries : gmap RamCacheKey nat;
  _hits : Z;
  _misses : Z;
  _evictions : Z;
  _generation : Z;
  _next : nat;
}.

Definition size_of (data : list Z) : Z := Z.of_nat (length data).

Definition new_lru (max_bytes : Z) : RamCacheLRU := {|
  _max_bytes := max_bytes; _bytes_used := 0; _lru := []; _entries := ∅;
  _hits := 0; _misses := 0; _evictions := 0; _generation := 0; _next := 0 |}.

Definition set_list (c : RamCacheLRU) (l : list (nat * Entry)) : RamCacheLRU := {|
  _max_bytes := _max_bytes c; _bytes_used := _bytes_used c; _lru := l; _entries := _entries c;
  _hits := _hits c; _misses := _misses c; _evictions := _evictions c;
  _generation := _generation c; _next := _next c |}.
Definition set_bytes (c : RamCacheLRU) (n : Z) : RamCacheLRU := {|
  _max_bytes := _max_bytes c; _bytes_used := n; _lru := _lru c; _entries := _entries c;
  _hits := _hits c; _misses := _misses c; _evictions := _evictions c;
  _generation := _generation c; _next := _next c |}.
Definition count_get (c : RamCacheLRU) (hit : bool) : RamCacheLRU := {|
  _max_bytes := _max_bytes c; _bytes_used := _bytes_used c; _lru := _lru c; _entries := _entries c;
  _hits := if hit then u64 (_hits c + 1) else _hits c;
  _misses := if hit then _misses c else u64 (_misses c + 1); _evictions := _evictions c;
  _generation := _generation c; _next := _next c |}.

(** Destroys the node at [it], whose entry is [e]: the accounting, the list
    erase, the generation bump and the map erase of [rk]. *)
Definition destroy (evicted : bool) (c : RamCacheLRU) (rk : RamCacheKey) (it : nat) (e : Entry) : RamCacheLRU := {|
  _max_bytes := _max_bytes c; _bytes_used := u64 (_bytes_used c - size_of (e_data e));
  _lru := erase (_lru c) it; _entries := delete rk (_entries c);
  _hits := _hits c; _misses := _misses c;
  _evictions := if evicted then u64 (_evictions c + 1) else _evictions c;
  _generation := u64 (_generation c + 1); _next := _next c |}.

(** [push_front] of a new node, and its map entry. *)
Definition insert_front (c : RamCacheLRU) (e : Entry) : RamCacheLRU := {|
  _max_bytes := _max_bytes c; _bytes_used := u64 (_bytes_used c + size_of (e_data e));
  _lru := (_next c, e) :: _lru c; _entries := <[e_key e := _next c]> (_entries c);
  _hits := _hits c; _misses := _misses c; _evictions := _evictions c;
  _generation := _generation c; _next := S (_next c) |}.

(** ** Operations *)

(** One iteration destroys the node at the back; [length (_lru c)] of them
    empty the list. *)
Fixpoint evict_loop (fuel : nat) (required_space : Z) (c : RamCacheLRU) : RamCacheLRU :=
  match fuel with
  | O => c
  | S fuel =>
      if _max_bytes c <? u64 (_bytes_used c + required_space) then
        match last (_lru c) with
        | Some (it, victim) => evict_loop fuel required_space (destroy true c (e_key victim) it victim)
        | None => c
        end
      else c
  end.

Definition evict_if_needed (required_space : Z) (c : RamCacheLRU) : RamCacheLRU :=
  evict_loop (length (_lru c)) required_space c.

(** [get] in its two lock windows.  The first, shared: the result, and the
    iterator and generation to refresh with, unless it is a miss or already
    the front. *)
Definition get_shared (rk : RamCacheKey) (c : RamCacheLRU)
  : option (option (list Z * Z) * option (nat * Z) * RamCacheLRU) :=
  match _entries c !! rk with
  | None => Some (None, None, count_get c false)
  | Some it =>
      e ← deref (_lru c) it;
      let c := count_get c true in
      let r := Some (e_data e, e_stamp e) in
      Some (r, if is_begin (_lru c) it then None else Some (it, _generation c), c)
  end.

(** The second, exclusive, when [try_lock] succeeded. *)
Definition get_refresh (rk : RamCacheKey) (refresh : nat) (generation : Z) (c : RamCacheLRU)
  : option RamCacheLRU :=
  if _generation c =? generation then l ← splice_front (_lru c) refresh; Some (set_list c l)
  else
    match _entries c !! rk with
    | Some it => if is_begin (_lru c) it then Some c
                 else l ← splice_front (_lru c) it; Some (set_list c l)
    | None => Some c
    end.

(** Both windows with nothing in between. *)
Definition get (try_lock : bool) (rk : RamCacheKey) (c : RamCacheLRU)
  : option (option (list Z * Z) * RamCacheLRU) :=
  '(r, refresh, c) ← get_shared rk c;
  match refresh with
  | Some (it, generation) =>
      if try_lock then c ← get_refresh rk it generation c; Some (r, c) else Some (r, c)
  | None => Some (r, c)
  end.

(** [predicate]: what it answers under the lock. *)
Definition put_if (rk : RamCacheKey) (data : list Z) (predicate : bool) (stamp : Z) (c : RamCacheLRU)
  : option (bool * RamCacheLRU) :=
  if _max_bytes c <? size_of data then Some (false, c)
  else if negb predicate then Some (false, c)
  else
    match _entries c !! rk with
    | Some it =>
        e ← deref (_lru c) it;
        let c := set_bytes c (u64 (_bytes_used c - size_of (e_data e))) in
        let c := set_list c (assign (_lru c) it {| e_key := e_key e; e_data := data; e_stamp := stamp |}) in
        let c := set_bytes c (u64 (_bytes_used c + size_of data)) in
        c ← (if is_begin (_lru c) it then Some c else l ← splice_front (_lru c) it; Some (set_list c l));
        Some (true, evict_if_needed 0 c)
    | None =>
        let c := evict_if_needed (size_of data) c in
        Some (true, insert_front c {| e_key := rk; e_data := data; e_stamp := stamp |})
    end.

Definition remove (rk : RamCacheKey) (c : RamCacheLRU) : option (bool * RamCacheLRU) :=
  match _entries c !! rk with
  | None => Some (false, c)
  | Some it => e ← deref (_lru c) it; Some (true, destroy false c rk it e)
  end.

(** The scan of the map, in any order. *)
Fixpoint remove_scan (key : CacheKey) (l : list (RamCacheKey * nat)) (c : RamCacheLRU) : option RamCacheLRU :=
  match l with
  | [] => Some c
  | (rk, it) :: l =>
      if decide (cache_key rk = key) then
        e ← deref (_lru c) it; remove_scan key l (destroy false c rk it e)
      else remove_scan key l c
  end.

Definition remove_all (key : CacheKey) (c : RamCacheLRU) : option RamCacheLRU :=
  remove_scan key (map_to_list (_entries c)) c.

Definition clear (c : RamCacheLRU) : RamCacheLRU := {|
  _max_bytes := _max_bytes c; _bytes_used := 0; _lru := []; _entries := ∅;
  _hits := _hits c; _misses := _misses c; _evictions := _evictions c;
  _generation := u64 (_generation c + 1); _next := _next c |}.

Definition entry_count (c : RamCacheLRU) : Z := Z.of_nat (size (_entries c)).

(** ** The invariant *)

Definition total (l : list (nat * Entry)) : Z := foldr (fun n acc => size_of (e_data n.2) + acc) 0 l.

(** The map is the index of the list, and the byte count its total. *)
Record indexed (c : RamCacheLRU) : Prop := {
  ix_nodup : NoDup (_lru c).*1;
  ix_map k it : _entries c !! k = Some it <-> exists e, (it, e) ∈ _lru c /\ e_key e = k;
  ix_bytes : _bytes_used c = total (_lru c);
  ix_small : total (_lru c) < 2 ^ 63;
  ix_max : 0 <= _max_bytes c < 2 ^ 62;
  ix_next : Forall (fun n => (n.1 < _next c)%nat) (_lru c);
}.

Record lru_ok (c : RamCacheLRU) : Prop := {
  lk_indexed : indexed c;
  lk_budget : _bytes_used c <= _max_bytes c;
}.

Definition contents (c : RamCacheLRU) : contents_map :=
  omap (fun it => e ← deref (_lru c) it; Some (e_data e, e_stamp e)) (_entries c).

Lemma lru_size_of_nonneg d : 0 <= size_of d.
Proof. unfold size_of. lia. Qed.

Lemma lru_total_cons n l : total (n :: l) = size_of (e_data n.2) + total l.
Proof. done. Qed.

Lemma lru_total_nonneg l : 0 <= total l.
Proof. induction l as [|n l IH]; [done|]. rewrite lru_total_cons. pose proof (lru_size_of_nonneg (e_data n.2)). lia. Qed.

Lemma lru_total_perm l l' : l ≡ₚ l' -> total l = total l'.
Proof. induction 1; rewrite ?lru_total_cons; [done|lia|lia|congruence]. Qed.

Lemma total_app l l' : total (l ++ l') = total l + total l'.
Proof. induction l as [|n l IH]; [done|]. rewrite <- app_comm_cons, !lru_total_cons, IH. lia. Qed.

Section indexed.
Context (c : RamCacheLRU) (Hc : indexed c).

(** A key has at most one node. *)
Lemma node_unique it it' e e' :
  (it, e) ∈ _lru c -> (it', e') ∈ _lru c -> e_key e = e_key e' -> it = it' /\ e = e'.
Proof using Hc.
  intros H H' Hk. assert (_entries c !! e_key e = Some it) as E by (apply (ix_map c Hc); now exists e).
  assert (_entries c !! e_key e = Some it') as E' by (apply (ix_map c Hc); rewrite Hk; now exists e').
  rewrite E in E'. injection E' as <-. split; [done|].
  apply (elem_deref _ _ _ (ix_nodup c Hc)) in H, H'. congruence.
Qed.

Lemma lru_contents_spec k v :
  contents c !! k = Some v <-> exists it e, (it, e) ∈ _lru c /\ e_key e = k /\ v = (e_data e, e_stamp e).
Proof using Hc.
  unfold contents. rewrite lookup_omap. split.
  - destruct (_entries c !! k) as [it|] eqn:E; cbn; [|done].
    apply (ix_map c Hc) in E as (e & Hin & Hk). rewrite (elem_deref _ _ _ (ix_nodup c Hc) Hin). cbn.
    intros [= <-]. eauto 10.
  - intros (it & e & Hin & Hk & ->). assert (_entries c !! k = Some it) as -> by (apply (ix_map c Hc); eauto).
    cbn. now rewrite (elem_deref _ _ _ (ix_nodup c Hc) Hin).
Qed.

(** Every iterator the map holds is live. *)
Lemma lookup_deref k it : _entries c !! k = Some it -> exists e, deref (_lru c) it = Some e /\ e_key e = k.
Proof using Hc.
  intros (e & Hin & Hk)%(ix_map c Hc). exists e. split; [|done]. now apply elem_deref; [apply Hc|].
Qed.

Lemma total_erase it e : deref (_lru c) it = Some e -> total (_lru c) = size_of (e_data e) + total (erase (_lru c) it).
Proof using Hc. intros H. now rewrite (lru_total_perm _ _ (erase_perm _ _ _ (ix_nodup c Hc) H)). Qed.
End indexed.

(** Reordering the list. *)
Lemma indexed_reorder c l : indexed c -> l ≡ₚ _lru c -> indexed (set_list c l) /\ contents (set_list c l) = contents c.
Proof.
  intros Hc Hp. assert (indexed (set_list c l)) as H.
  { destruct Hc. split; cbn; try done.
    - now rewrite Hp.
    - intros k it. rewrite ix_map0. split; intros (e & Hin & He); exists e; (split; [|done]);
        [now rewrite Hp|now rewrite <- Hp].
    - rewrite ix_bytes0. symmetry. now apply lru_total_perm.
    - change (total l < 2 ^ 63). now rewrite (lru_total_perm _ _ Hp).
    - now rewrite Hp. }
  split; [done|]. apply map_eq. intros k. apply option_eq. intros v. rewrite !lru_contents_spec by done. cbn.
  split; intros (it & e & Hin & H'); exists it, e; (split; [|done]); [now rewrite <- Hp|now rewrite Hp].
Qed.

Ltac lru_simpl :=
  cbn [_max_bytes _bytes_used _lru _entries _hits _misses _evictions _generation _next
       destroy insert_front set_list set_bytes count_get clear].

(** Destroying a live node removes its key and nothing else. *)
Lemma destroy_spec b c it e :
  indexed c -> deref (_lru c) it = Some e ->
  let c' := destroy b c (e_key e) it e in
  indexed c' /\ contents c' = delete (e_key e) (contents c).
Proof.
  intros Hc Hd. cbv zeta. pose proof (deref_elem _ _ _ Hd) as Hin. pose proof (total_erase c Hc it e Hd) as Ht.
  pose proof (lru_total_nonneg (erase (_lru c) it)). pose proof (ix_bytes c Hc) as Hb. pose proof (lru_size_of_nonneg (e_data e)).
  pose proof (ix_small c Hc).
  assert (forall n, n ∈ erase (_lru c) it <-> n ∈ _lru c /\ e_key n.2 <> e_key e) as Hers.
  { intros [i e']. rewrite elem_erase. cbn. split; intros [Ha Hz].
    - split; [done|]. intros Hk. now destruct (node_unique c Hc _ _ _ _ Hz Hin Hk).
    - split; [|done]. intros ->. pose proof (elem_deref _ _ _ (ix_nodup c Hc) Ha). congruence. }
  assert (indexed (destroy b c (e_key e) it e)) as H'.
  { split; lru_simpl; try apply Hc.
    - apply nodup_erase, Hc.
    - intros k i. rewrite lookup_delete_Some, (ix_map c Hc). split.
      + intros (Hne & e' & Hin' & Hk). exists e'. split; [|done]. apply Hers. cbn. split; congruence.
      + intros (e' & [Hin' Hne]%Hers & Hk). cbn in Hne. split; [congruence|]. now exists e'.
    - rewrite Hb, Ht. unfold u64. rewrite wrap_small; [lia|]. unfold fits. lia.
    - lia.
    - apply Forall_forall. intros n [Hn _]%Hers. now apply (proj1 (Forall_forall _ _) (ix_next c Hc)). }
  split; [done|]. apply map_eq. intros k. apply option_eq. intros v.
  rewrite lookup_delete_Some, !lru_contents_spec by done. cbn. split.
  - intros (i & e' & [Hi Hne]%Hers & Hk & ->). cbn in Hne. split; [congruence|]. eauto.
  - intros (Hne & i & e' & Hi & Hk & ->). exists i, e'. split; [|done]. apply Hers. cbn. split; congruence.
Qed.

(** Pushing a node under a fresh key. *)
Lemma insert_front_spec c e :
  indexed c -> _entries c !! e_key e = None -> total (_lru c) + size_of (e_data e) < 2 ^ 63 ->
  let c' := insert_front c e in
  indexed c' /\ contents c' = <[e_key e := (e_data e, e_stamp e)]> (contents c).
Proof.
  intros Hc Hnew Hsm. cbv zeta. pose proof (ix_bytes c Hc) as Hb. pose proof (lru_total_nonneg (_lru c)).
  pose proof (lru_size_of_nonneg (e_data e)).
  assert (forall i e', (i, e') ∈ _lru c -> e_key e' <> e_key e /\ i <> _next c) as Hfresh.
  { intros i e' Hin. split.
    - intros Hk. assert (_entries c !! e_key e = Some i) by (apply (ix_map c Hc); now exists e'). congruence.
    - apply (proj1 (Forall_forall _ _) (ix_next c Hc)) in Hin. cbn in Hin. lia. }
  assert (indexed (insert_front c e)) as H'.
  { split; lru_simpl; try apply Hc.
    - apply NoDup_cons. split; [|apply Hc]. intros ([i e'] & E & Hin)%list_elem_of_fmap. cbn in E.
      destruct (Hfresh i e' Hin). congruence.
    - intros k i. rewrite lookup_insert_Some, (ix_map c Hc). split.
      + intros [[<- <-]|(Hne & e' & Hin & Hk)]; [exists e|exists e']; (split; [|done]);
          [apply list_elem_of_here|now apply list_elem_of_further].
      + intros (e' & [[= -> ->]|Hin]%elem_of_cons & Hk); [left; done|right].
        destruct (Hfresh i e' Hin). split; [congruence|]. now exists e'.
    - rewrite Hb. unfold u64. rewrite wrap_small; [|unfold fits; lia]. rewrite lru_total_cons. cbn [snd]. lia.
    - rewrite lru_total_cons. cbn [snd]. lia.
    - constructor; [cbn; lia|]. eapply Forall_impl; [apply Hc|]. cbn. lia. }
  split; [done|]. apply map_eq. intros k. apply option_eq. intros v.
  rewrite lookup_insert_Some, !lru_contents_spec by done. cbn. split.
  - intros (i & e' & [[= -> ->]|Hin]%elem_of_cons & Hk & ->); [now left|right].
    destruct (Hfresh i e' Hin). split; [congruence|]. eauto.
  - intros [[<- <-]|(Hne & i & e' & Hin & Hk & ->)].
    + exists (_next c), e. split; [apply list_elem_of_here|done].
    + exists i, e'. split; [now apply list_elem_of_further|done].
Qed.

(** A cache whose nodes are among another's holds a part of its contents. *)
Lemma contents_subset c c' :
  indexed c -> indexed c' -> (forall n, n ∈ _lru c' -> n ∈ _lru c) -> contents c' ⊆ contents c.
Proof.
  intros Hc Hc' Hsub. apply map_subseteq_spec. intros k v. rewrite !lru_contents_spec by done.
  intros (it & e & Hin & H). exists it, e. split; [auto|done].
Qed.

(** ** Eviction *)

(** Eviction keeps the longest prefix (the most recent entries) that leaves
    [required] bytes free. *)
Record evicted (c c' : RamCacheLRU) (required : Z) (n : nat) : Prop := {
  ev_indexed : indexed c';
  ev_max : _max_bytes c' = _max_bytes c;
  ev_next : _next c' = _next c;
  ev_len : (n <= length (_lru c))%nat;
  ev_prefix : _lru c' = take n (_lru c);
  ev_room : total (_lru c') + required <= _max_bytes c \/ _lru c' = [];
  ev_least : (n < length (_lru c))%nat -> _max_bytes c < total (take (S n) (_lru c)) + required;
}.

Lemma lru_evict_loop_spec fuel required c :
  indexed c -> (length (_lru c) <= fuel)%nat -> 0 <= required < 2 ^ 63 ->
  exists n, evicted c (evict_loop fuel required c) required n.
Proof.
  revert c. induction fuel as [|fuel IH]; intros c Hc Hlen Hr; cbn [evict_loop].
  { exists 0%nat. destruct (_lru c) as [|x l] eqn:E; [|cbn in Hlen; lia]. split; rewrite ?E; try done; cbn; [now right|lia]. }
  pose proof (ix_bytes c Hc) as Hb. pose proof (lru_total_nonneg (_lru c)). pose proof (ix_small c Hc).
  unfold u64. rewrite wrap_small by (unfold fits; lia).
  assert (_lru c = take (length (_lru c)) (_lru c)) as Hall by (now rewrite take_ge).
  destruct (Z.ltb_spec (_max_bytes c) (_bytes_used c + required)) as [Hgt|Hle].
  2: { exists (length (_lru c)). split; try done; [left; lia|lia]. }
  destruct (last (_lru c)) as [[it v]|] eqn:El.
  2: { apply last_None in El. exists 0%nat. split; rewrite ?El; try done; [now right|cbn; lia]. }
  destruct (last_erase _ _ _ (ix_nodup c Hc) El) as [El' Hd]. remember (erase (_lru c) it) as l0 eqn:Her.
  symmetry in Her. clear El. rename El' into El.
  destruct (destroy_spec true c it v Hc Hd) as [Hc' _].
  destruct (IH (destroy true c (e_key v) it v) Hc') as [n Hev]; [lru_simpl; rewrite Her|done|].
  { rewrite El, length_app in Hlen. cbn in Hlen. lia. }
  exists n. destruct Hev as [H1 H2 H3 H4 H5 H6 H7]. revert H2 H3 H4 H5 H6 H7. lru_simpl. rewrite Her. intros H2 H3 H4 H5 H6 H7.
  split; try done.
  - rewrite El, length_app. lia.
  - rewrite H5, El, take_app_le by done. done.
  - intros Hlt. rewrite El in *. rewrite length_app in Hlt. cbn in Hlt.
    destruct (Nat.eq_dec n (length l0)) as [->|].
    + rewrite take_ge by (rewrite length_app; cbn; lia). lia.
    + rewrite take_app_le by lia. apply H7. lia.
Qed.

Lemma lru_evict_spec required c :
  indexed c -> 0 <= required < 2 ^ 63 -> exists n, evicted c (evict_if_needed required c) required n.
Proof. intros Hc Hr. now apply lru_evict_loop_spec. Qed.

Lemma evicted_sub c c' required n : evicted c c' required n -> forall x, x ∈ _lru c' -> x ∈ _lru c.
Proof.
  intros H x. rewrite (ev_prefix _ _ _ _ H). intros (i & Hi & _)%elem_of_take.
  now apply (list_elem_of_lookup_2 _ i).
Qed.

(** ** The operations *)

(** The node at [it] rewritten and moved to the front. *)
Definition replaced (c : RamCacheLRU) (it : nat) (e' : Entry) (bytes : Z) : RamCacheLRU :=
  set_bytes (set_list c ((it, e') :: erase (_lru c) it)) bytes.

Lemma replaced_spec c it e e' :
  indexed c -> deref (_lru c) it = Some e -> e_key e' = e_key e ->
  total (erase (_lru c) it) + size_of (e_data e') < 2 ^ 63 ->
  let c' := replaced c it e' (total (erase (_lru c) it) + size_of (e_data e')) in
  indexed c' /\ contents c' = <[e_key e := (e_data e', e_stamp e')]> (contents c).
Proof.
  intros Hc Hd Hk Hsm. cbv zeta. set (b := total _ + _) in *. pose proof (deref_elem _ _ _ Hd) as Hin.
  assert (forall i x, (i, x) ∈ (it, e') :: erase (_lru c) it <->
    (i = it /\ x = e') \/ (i <> it /\ (i, x) ∈ _lru c)) as Hel.
  { intros i x. rewrite elem_of_cons, elem_erase. cbn. intuition congruence. }
  assert (forall i x, (i, x) ∈ _lru c -> i = it <-> e_key x = e_key e) as Hone.
  { intros i x Hx. split; [intros ->|intros E].
    - pose proof (elem_deref _ _ _ (ix_nodup c Hc) Hx). congruence.
    - now destruct (node_unique c Hc _ _ _ _ Hx Hin E). }
  assert (indexed (replaced c it e' b)) as H'.
  { unfold replaced. split; lru_simpl; try apply Hc.
    - rewrite fmap_cons. apply NoDup_cons. split; [|apply nodup_erase, Hc].
      intros ([i x] & E & [Hne _]%elem_erase)%list_elem_of_fmap. cbn in *. congruence.
    - intros k i. rewrite (ix_map c Hc). split.
      + intros (x & Hx & Hkx). destruct (decide (i = it)) as [->|Hne].
        * exists e'. split; [apply Hel; now left|]. rewrite Hk, <- Hkx. symmetry. now apply (Hone it x Hx).
        * exists x. split; [apply Hel; now right|done].
      + intros (x & Hx & Hkx). apply Hel in Hx as [[-> ->]|[Hne Hx]]; [exists e|now exists x].
        split; [done|congruence].
    - rewrite lru_total_cons. cbn [snd]. unfold b. lia.
    - rewrite lru_total_cons. cbn [snd]. unfold b in *. lia.
    - apply Forall_forall. intros [i x] [[-> ->]|[_ Hx]]%Hel;
        [apply (proj1 (Forall_forall _ _) (ix_next c Hc) _ Hin)|apply (proj1 (Forall_forall _ _) (ix_next c Hc) _ Hx)]. }
  split; [done|]. apply map_eq. intros k. apply option_eq. intros v.
  rewrite lookup_insert_Some, !lru_contents_spec by done. unfold replaced. lru_simpl. split.
  - intros (i & x & [[-> ->]|[Hne Hx]]%Hel & Hkx & ->); [left; split; [congruence|done]|right].
    split; [|eauto]. intros E. apply Hne. apply (Hone i x Hx). congruence.
  - intros [[<- <-]|(Hne & i & x & Hx & Hkx & ->)].
    + exists it, e'. split; [apply Hel; now left|done].
    + exists i, x. split; [|done]. apply Hel. right. split; [|done]. intros ->.
      apply Hne. rewrite <- Hkx. symmetry. now apply (Hone it x Hx).
Qed.

(** The in-place overwrite of [put_if], as code, is [replaced]. *)
Lemma overwrite_front (l : list (nat * Entry)) it e e' :
  NoDup l.*1 -> deref l it = Some e ->
  (if is_begin (assign l it e') it then Some (assign l it e') else splice_front (assign l it e') it)
  = Some ((it, e') :: erase l it).
Proof.
  intros Hn Hd. pose proof (assign_perm l it e e' Hn Hd) as Hp.
  assert (NoDup (assign l it e').*1) as Hn'.
  { rewrite Hp, fmap_cons. apply NoDup_cons. split; [|now apply nodup_erase].
    intros ([i x] & E & [Hne _]%elem_erase)%list_elem_of_fmap. cbn in *. congruence. }
  assert (erase (assign l it e') it = erase l it) as He.
  { clear. induction l as [|[j x] l IH]; [done|]. cbn [assign map fst]. fold (assign l it e'). rewrite erase_cons.
    destruct (decide (j = it)) as [->|]; rewrite erase_cons; [now rewrite decide_True|].
    rewrite decide_False by done. now f_equal. }
  assert (deref (assign l it e') it = Some e') as Hd'.
  { apply elem_deref; [done|]. rewrite Hp. apply list_elem_of_here. }
  destruct (is_begin (assign l it e') it) eqn:Eb.
  - f_equal. rewrite <- He. destruct (assign l it e') as [|[j x] t]; [done|].
    cbn [is_begin] in Eb. apply bool_decide_eq_true in Eb as ->. cbn [deref] in Hd'.
    rewrite decide_True in Hd' by done. injection Hd' as ->. rewrite fmap_cons in Hn'. apply NoDup_cons in Hn' as [Hnotin _].
    rewrite erase_cons, decide_True by done. now rewrite erase_absent.
  - unfold splice_front. rewrite Hd'. cbn. now rewrite He.
Qed.

Lemma put_existing c rk data stamp it :
  lru_ok c -> _entries c !! rk = Some it -> size_of data <= _max_bytes c ->
  exists e c1, deref (_lru c) it = Some e /\ e_key e = rk /\
    c1 = replaced c it {| e_key := rk; e_data := data; e_stamp := stamp |} (total (erase (_lru c) it) + size_of data) /\
    put_if rk data true stamp c = Some (true, evict_if_needed 0 c1) /\
    indexed c1 /\ contents c1 = <[rk := (data, stamp)]> (contents c).
Proof.
  intros [Hc Hbud] Hit Hsz. destruct (lookup_deref c Hc rk it Hit) as (e & Hd & Hk).
  pose proof (total_erase c Hc it e Hd) as Ht. pose proof (ix_bytes c Hc) as Hb. pose proof (ix_max c Hc).
  pose proof (lru_total_nonneg (erase (_lru c) it)). pose proof (lru_size_of_nonneg data). pose proof (lru_size_of_nonneg (e_data e)).
  set (e' := {| e_key := rk; e_data := data; e_stamp := stamp |}).
  destruct (replaced_spec c it e e' Hc Hd ltac:(done) ltac:(cbn [e' e_data]; lia)) as [Hix Hcon].
  rewrite Hk in Hcon. eexists e, _. split; [done|]. split; [done|]. split; [reflexivity|].
  split; [|split; [exact Hix|exact Hcon]].
  unfold put_if. destruct (Z.ltb_spec (_max_bytes c) (size_of data)); [lia|]. cbn [negb]. rewrite Hit. cbn [mbind option_bind].
  rewrite Hd. cbn [mbind option_bind]. lru_simpl. rewrite Hk. fold e'.
  assert (u64 (u64 (_bytes_used c - size_of (e_data e)) + size_of data) = total (erase (_lru c) it) + size_of data) as ->.
  { unfold u64. rewrite (wrap_small 64 (_bytes_used c - _)), wrap_small by (unfold fits; lia). lia. }
  pose proof (overwrite_front (_lru c) it e e' (ix_nodup c Hc) Hd) as Ho.
  destruct (is_begin (assign (_lru c) it e') it).
  - injection Ho as Ho. cbn. unfold replaced. now rewrite Ho.
  - rewrite Ho. cbn. unfold replaced. done.
Qed.

Lemma put_new c rk data stamp :
  lru_ok c -> _entries c !! rk = None -> size_of data <= _max_bytes c ->
  exists c1 n, c1 = evict_if_needed (size_of data) c /\ evicted c c1 (size_of data) n /\ _entries c1 !! rk = None /\
    put_if rk data true stamp c = Some (true, insert_front c1 {| e_key := rk; e_data := data; e_stamp := stamp |}).
Proof.
  intros [Hc Hbud] Hnew Hsz. pose proof (ix_max c Hc). pose proof (lru_size_of_nonneg data).
  destruct (lru_evict_spec (size_of data) c Hc ltac:(lia)) as [n Hev]. eexists _, n. split; [done|].
  split; [exact Hev|]. split.
  - destruct (_entries (evict_if_needed (size_of data) c) !! rk) as [it|] eqn:E; [|done].
    apply (ix_map _ (ev_indexed _ _ _ _ Hev)) in E as (e & Hin & Hk). apply (evicted_sub _ _ _ _ Hev) in Hin.
    assert (_entries c !! rk = Some it) by (apply (ix_map c Hc); now exists e). congruence.
  - unfold put_if. destruct (Z.ltb_spec (_max_bytes c) (size_of data)); [lia|]. cbn [negb]. now rewrite Hnew.
Qed.

(** The eviction of a put never takes the entry it put. *)
Lemma put_kept c c' n x l :
  _lru c = x :: l -> evicted c c' 0 n -> size_of (e_data x.2) <= _max_bytes c -> x ∈ _lru c'.
Proof.
  intros El [_ _ _ Hlen Hpre _ Hleast] Hsz. rewrite Hpre, El. destruct n as [|n].
  - rewrite El in Hleast. change (take 1 (x :: l)) with [x] in Hleast. rewrite lru_total_cons in Hleast.
    change (total []) with 0 in Hleast. cbn [length] in Hleast. lia.
  - rewrite firstn_cons. apply list_elem_of_here.
Qed.

Lemma lru_put_spec rk data verdict stamp c :
  lru_ok c ->
  exists b c', put_if rk data verdict stamp c = Some (b, c') /\ lru_ok c' /\
    (b = true -> verdict = true /\ contents c' ⊆ <[rk := (data, stamp)]> (contents c) /\
                 contents c' !! rk = Some (data, stamp)) /\
    (b = false -> contents c' = contents c).
Proof.
  intros Hok. destruct (Z.ltb_spec (_max_bytes c) (size_of data)) as [Hbig|Hsz].
  { exists false, c. unfold put_if. rewrite (proj2 (Z.ltb_lt _ _)) by done. done. }
  destruct verdict.
  2: { exists false, c. unfold put_if. destruct (_ <? _); done. }
  exists true. pose proof (lru_size_of_nonneg data). pose proof (ix_max c (lk_indexed c Hok)).
  destruct (_entries c !! rk) as [it|] eqn:Ee.
  - destruct (put_existing c rk data stamp it Hok Ee Hsz) as (e & c1 & Hd & Hk & -> & -> & Hix & Hcon).
    set (c1 := replaced _ _ _ _) in *. destruct (lru_evict_spec 0 c1 Hix ltac:(lia)) as [n Hev].
    eexists. split; [reflexivity|]. pose proof (ev_indexed _ _ _ _ Hev) as Hix'.
    pose proof (contents_subset _ _ Hix Hix' (evicted_sub _ _ _ _ Hev)) as Hsub. rewrite Hcon in Hsub.
    split; [|split; [intros _|done]].
    + split; [done|]. rewrite (ix_bytes _ Hix'), (ev_max _ _ _ _ Hev).
      destruct (ev_room _ _ _ _ Hev) as [Hr| ->]; [lia|]. cbn. apply Hok.
    + split; [done|]. split; [exact Hsub|]. apply lru_contents_spec; [done|].
      exists it, {| e_key := rk; e_data := data; e_stamp := stamp |}. split; [|done].
      apply (put_kept c1 _ n (it, {| e_key := rk; e_data := data; e_stamp := stamp |}) (erase (_lru c) it)); done.
  - destruct (put_new c rk data stamp Hok Ee Hsz) as (c1 & n & _ & Hev & Hnone & ->). eexists. split; [reflexivity|].
    set (e' := {| e_key := rk; e_data := data; e_stamp := stamp |}).
    pose proof (ev_indexed _ _ _ _ Hev) as Hix1. pose proof (lru_total_nonneg (_lru c1)).
    assert (total (_lru c1) + size_of data <= _max_bytes c) as Hroom.
    { destruct (ev_room _ _ _ _ Hev) as [Hr|E]; [done|]. rewrite E. cbn. lia. }
    destruct (insert_front_spec c1 e' Hix1 Hnone ltac:(cbn [e' e_data]; lia)) as [Hix' Hcon].
    split; [|split; [intros _|done]].
    + split; [done|]. rewrite (ix_bytes _ Hix'). lru_simpl. rewrite lru_total_cons, (ev_max _ _ _ _ Hev). cbn [snd e' e_data]. lia.
    + split; [done|]. rewrite Hcon. split; [|apply lookup_insert_eq]. apply insert_mono.
      apply contents_subset; [apply Hok|done|]. apply (evicted_sub _ _ _ _ Hev).
Qed.

Lemma lru_count_get_ok c hit : lru_ok c -> lru_ok (count_get c hit) /\ contents (count_get c hit) = contents c.
Proof. intros [[] ?]. done. Qed.

Lemma refresh_ok c it l : lru_ok c -> splice_front (_lru c) it = Some l -> lru_ok (set_list c l) /\ contents (set_list c l) = contents c.
Proof.
  intros [Hc Hb] Hs. destruct (indexed_reorder c l Hc) as [H1 H2]; [|done].
  now apply (splice_front_perm _ it); [apply Hc|].
Qed.

Lemma splice_live c it e : deref (_lru c) it = Some e -> exists l, splice_front (_lru c) it = Some l.
Proof. intros H. unfold splice_front. rewrite H. cbn. eauto. Qed.

(** The shared window never fails, and what it saved is live. *)
Lemma get_shared_spec rk c :
  lru_ok c ->
  exists refresh c', get_shared rk c = Some (contents c !! rk, refresh, c') /\ lru_ok c' /\ contents c' = contents c /\
    _lru c' = _lru c /\ _generation c' = _generation c /\
    (forall it g, refresh = Some (it, g) -> g = _generation c /\ is_Some (deref (_lru c) it)).
Proof.
  intros Hok. unfold get_shared. pose proof (lk_indexed c Hok) as Hc.
  assert (contents c !! rk = (it ← _entries c !! rk; e ← deref (_lru c) it; Some (e_data e, e_stamp e))) as Hcon
    by (unfold contents; now rewrite lookup_omap).
  destruct (_entries c !! rk) as [it|] eqn:E.
  - destruct (lookup_deref c Hc rk it E) as (e & Hd & Hk). cbn in Hcon. rewrite Hd in *. cbn in *. rewrite Hcon.
    destruct (lru_count_get_ok c true Hok). eexists _, _. split; [reflexivity|]. do 4 (split; [done|]).
    intros it' g. destruct (is_begin _ _); [done|]. intros [= <- <-]. split; [done|]. rewrite Hd. eauto.
  - cbn in Hcon. rewrite Hcon. destruct (lru_count_get_ok c false Hok). eexists _, _. split; [reflexivity|].
    do 4 (split; [done|]). done.
Qed.

(** The exclusive window is defined when the saved iterator is live or the
    generation moved. *)
Lemma get_refresh_spec rk it g c :
  lru_ok c -> (_generation c = g -> is_Some (deref (_lru c) it)) ->
  exists c', get_refresh rk it g c = Some c' /\ lru_ok c' /\ contents c' = contents c.
Proof.
  intros Hok Hlive. unfold get_refresh. destruct (Z.eqb_spec (_generation c) g) as [E|_].
  - destruct (Hlive E) as [e He]. destruct (splice_live c it e He) as [l Hl]. rewrite Hl. cbn.
    exists (set_list c l). split; [done|]. now apply (refresh_ok c it).
  - destruct (_entries c !! rk) as [it'|] eqn:Ee; [|now exists c].
    destruct (is_begin (_lru c) it'); [now exists c|].
    destruct (lookup_deref c (lk_indexed c Hok) rk it' Ee) as (e & He & _).
    destruct (splice_live c it' e He) as [l Hl]. rewrite Hl. cbn. exists (set_list c l). split; [done|].
    now apply (refresh_ok c it').
Qed.

Lemma lru_get_spec try_lock rk c :
  lru_ok c -> exists c', get try_lock rk c = Some (contents c !! rk, c') /\ lru_ok c' /\ contents c' = contents c.
Proof.
  intros Hok. unfold get. destruct (get_shared_spec rk c Hok) as (refresh & c1 & -> & Hok1 & Hcon & Hl & Hg & Hr).
  cbn. destruct refresh as [[it g]|]; [|now exists c1]. destruct try_lock; [|now exists c1].
  destruct (Hr it g eq_refl) as [-> Hlive].
  destruct (get_refresh_spec rk it (_generation c) c1 Hok1) as (c2 & -> & Hok2 & Hcon2); [now rewrite Hl|].
  cbn. exists c2. split; [done|]. split; [done|]. congruence.
Qed.

Lemma destroy_ok b c it e :
  lru_ok c -> deref (_lru c) it = Some e ->
  lru_ok (destroy b c (e_key e) it e) /\ contents (destroy b c (e_key e) it e) = delete (e_key e) (contents c).
Proof.
  intros [Hc Hb] Hd. destruct (destroy_spec b c it e Hc Hd) as [H1 H2]. split; [|done]. split; [done|].
  rewrite (ix_bytes _ H1). lru_simpl. pose proof (total_erase c Hc it e Hd). pose proof (ix_bytes c Hc).
  pose proof (lru_size_of_nonneg (e_data e)). lia.
Qed.

Lemma lru_remove_spec rk c :
  lru_ok c ->
  exists b c', remove rk c = Some (b, c') /\ lru_ok c' /\ contents c' = delete rk (contents c) /\
    (is_Some (contents c !! rk) -> b = true).
Proof.
  intros Hok. unfold remove. destruct (_entries c !! rk) as [it|] eqn:E.
  - destruct (lookup_deref c (lk_indexed c Hok) rk it E) as (e & Hd & <-). rewrite Hd. cbn.
    destruct (destroy_ok false c it e Hok Hd) as [H1 H2]. eexists true, _. done.
  - exists false, c. assert (contents c !! rk = None) as Hn by (unfold contents; now rewrite lookup_omap, E).
    split; [done|]. split; [done|]. split; [now rewrite delete_id|]. rewrite Hn. now intros [? ?].
Qed.

Lemma remove_scan_spec key l c :
  lru_ok c -> NoDup l.*1 -> (forall rk it, (rk, it) ∈ l -> cache_key rk = key -> _entries c !! rk = Some it) ->
  exists c', remove_scan key l c = Some c' /\ lru_ok c' /\
    forall k, contents c' !! k = if decide (cache_key k = key /\ k ∈ l.*1) then None else contents c !! k.
Proof.
  revert c. induction l as [|[rk it] l IH]; intros c Hok Hn Hl; cbn [remove_scan].
  { exists c. split; [done|]. split; [done|]. intros k. rewrite decide_False; [done|]. now intros [_ ?%elem_of_nil]. }
  rewrite fmap_cons in *. apply NoDup_cons in Hn as [Hrk Hn]. cbn [fst] in *.
  destruct (decide (cache_key rk = key)) as [Hk|Hk].
  - pose proof (Hl rk it (list_elem_of_here _ _) Hk) as He.
    destruct (lookup_deref c (lk_indexed c Hok) rk it He) as (e & Hd & Ek). rewrite Hd. cbn.
    destruct (destroy_ok false c it e Hok Hd) as [Hok1 Hc1]. rewrite Ek in Hok1, Hc1.
    destruct (IH (destroy false c rk it e) Hok1 Hn) as (c' & Hr & Hok' & Hcon).
    { intros rk' it' Hin Hk'. lru_simpl. rewrite lookup_delete_ne; [apply Hl; [now apply list_elem_of_further|done]|].
      intros <-. apply Hrk. apply list_elem_of_fmap. now exists (rk, it'). }
    exists c'. split; [done|]. split; [done|]. intros k. rewrite Hcon, Hc1.
    destruct (decide (k = rk)) as [->|Hne].
    + rewrite lookup_delete_eq. rewrite (decide_True (P := cache_key rk = key /\ rk ∈ rk :: l.*1)); [now case_decide|].
      split; [done|apply list_elem_of_here].
    + rewrite lookup_delete_ne by done. apply decide_ext. rewrite elem_of_cons. intuition congruence.
  - destruct (IH c Hok Hn) as (c' & Hr & Hok' & Hcon).
    { intros rk' it' Hin. apply Hl. now apply list_elem_of_further. }
    exists c'. split; [done|]. split; [done|]. intros k. rewrite Hcon. apply decide_ext.
    rewrite elem_of_cons. intuition congruence.
Qed.

Lemma lru_remove_all_spec key c :
  lru_ok c -> exists c', remove_all key c = Some c' /\ lru_ok c' /\ contents c' = other_keys key (contents c).
Proof.
  intros Hok. unfold remove_all. destruct (remove_scan_spec key (map_to_list (_entries c)) c Hok) as (c' & -> & Hok' & Hcon).
  { apply NoDup_fst_map_to_list. }
  { intros rk it Hin _. now apply elem_of_map_to_list. }
  exists c'. split; [done|]. split; [done|]. apply map_eq. intros k. rewrite Hcon. unfold other_keys.
  destruct (contents c !! k) as [v|] eqn:E.
  - case_decide as Hd.
    + symmetry. apply map_lookup_filter_None. right. intros v' _. cbn. tauto.
    + symmetry. apply map_lookup_filter_Some. split; [done|]. cbn. intros Hk. apply Hd. split; [done|].
      apply (lru_contents_spec c (lk_indexed c Hok)) in E as (it & e & Hin & Hke & _).
      apply list_elem_of_fmap. exists (k, it). split; [done|]. apply elem_of_map_to_list.
      apply (ix_map c (lk_indexed c Hok)). now exists e.
  - rewrite (proj2 (map_lookup_filter_None _ _ _)) by now left. now case_decide.
Qed.

Lemma lru_clear_spec c : lru_ok c -> lru_ok (clear c) /\ contents (clear c) = ∅.
Proof.
  intros [[] ?]. split; [|now apply map_eq; intros k; unfold contents; rewrite lookup_omap, !lookup_empty].
  split; [|cbn; lia]. split; cbn; try done; try apply NoDup_nil_2; try apply Forall_nil_2.
  intros k it. rewrite lookup_empty. split; [done|]. intros (e & ?%elem_of_nil & _). done.
Qed.

(** ** The contract *)

#[export] Instance lru_ops (try_lock : bool) : RamCacheOps RamCacheLRU := {
  rc_get := get try_lock;
  rc_put_if := put_if;
  rc_remove := remove;
  rc_remove_all := remove_all;
  rc_clear := clear;
  rc_bytes_used := _bytes_used;
  rc_max_bytes := _max_bytes;
}.

#[export] Instance lru_laws try_lock : @RamCacheLaws RamCacheLRU (lru_ops try_lock).
Proof.
  refine (@Build_RamCacheLaws _ (lru_ops try_lock) lru_ok contents _ _ _ _ _ _).
  - intros k c. apply lru_get_spec.
  - intros k data v stamp c. apply lru_put_spec.
  - intros k c. apply lru_remove_spec.
  - intros key c. apply lru_remove_all_spec.
  - intros c. apply lru_clear_spec.
  - intros c [Hc Hb]. cbn. rewrite (ix_bytes c Hc) in *. pose proof (lru_total_nonneg (_lru c)). lia.
Defined.

Lemma new_lru_ok max_bytes : 0 <= max_bytes < 2 ^ 62 -> lru_ok (new_lru max_bytes).
Proof.
  intros Hm. split; [|cbn; lia]. split; cbn; try done; try apply NoDup_nil_2; try apply Forall_nil_2.
  intros k it. rewrite lookup_empty. split; [done|]. intros (e & ?%elem_of_nil & _). done.
Qed.

(** ** Interleaved lookups

    A hit runs in two lock windows; other operations, and other hits' windows,
    run in between. *)

Inductive lru_event :=
  | EvShared (rk : RamCacheKey)                  (* the shared window of a new lookup *)
  | EvRefresh (i : nat) (try_lock : bool)        (* the second window of the [i]-th pending lookup *)
  | EvPut (rk : RamCacheKey) (data : list Z) (predicate : bool) (stamp : Z)
  | EvRemove (rk : RamCacheKey)
  | EvRemoveAll (key : CacheKey)
  | EvClear.

(** The pending lookups: key, saved iterator and generation. *)
Definition pending : Type := list (RamCacheKey * nat * Z).

Definition run_event (ev : lru_event) (s : RamCacheLRU * pending) : option (RamCacheLRU * pending) :=
  let (c, p) := s in
  match ev with
  | EvShared rk =>
      '(_, refresh, c) ← get_shared rk c;
      Some (c, match refresh with Some (it, g) => p ++ [(rk, it, g)] | None => p end)
  | EvRefresh i try_lock =>
      match p !! i with
      | Some (rk, it, g) =>
          if try_lock then c ← get_refresh rk it g c; Some (c, delete i p) else Some (c, delete i p)
      | None => Some (c, p)
      end
  | EvPut rk data predicate stamp => '(_, c) ← put_if rk data predicate stamp c; Some (c, p)
  | EvRemove rk => '(_, c) ← remove rk c; Some (c, p)
  | EvRemoveAll key => c ← remove_all key c; Some (c, p)
  | EvClear => Some (clear c, p)
  end.

Fixpoint run_events (l : list lru_event) (s : RamCacheLRU * pending) : option (RamCacheLRU * pending) :=
  match l with
  | [] => Some s
  | ev :: l => s ← run_event ev s; run_events l s
  end.

Definition nodes (c : RamCacheLRU) : Z := Z.of_nat (length (_lru c)).

(** From [c] to [c'] the generation moved by the number of destructions [d],
    which the nodes lost (and [k] more) bound, and with none every live
    iterator still is. *)
Definition survives (k : Z) (c c' : RamCacheLRU) : Prop :=
  exists d, 0 <= d <= nodes c - nodes c' + k /\ _generation c' = u64 (_generation c + d) /\
    (d = 0 -> forall it, is_Some (deref (_lru c) it) -> is_Some (deref (_lru c') it)).

Lemma u64_add a b : u64 (u64 a + b) = u64 (a + b).
Proof. unfold u64, wrap. now rewrite Zplus_mod_idemp_l. Qed.

Lemma survives_trans k k' c c' c'' : survives k c c' -> survives k' c' c'' -> survives (k + k') c c''.
Proof.
  intros (d & Hd & Hg & Hl) (d' & Hd' & Hg' & Hl'). exists (d + d'). split; [lia|]. split.
  - rewrite Hg', Hg, u64_add. f_equal. lia.
  - intros E it Hit. apply Hl'; [lia|]. apply Hl; [lia|done].
Qed.

Lemma survives_same k c c' :
  0 <= k -> fits 64 (_generation c) -> nodes c' = nodes c -> _generation c' = _generation c ->
  (forall it, is_Some (deref (_lru c) it) -> is_Some (deref (_lru c') it)) -> survives k c c'.
Proof. intros Hk Hg Hn E Hl. exists 0. split; [lia|]. split; [|auto]. rewrite E, Z.add_0_r. symmetry. now apply wrap_small. Qed.

Lemma survives_destroy b c rk it e : indexed c -> deref (_lru c) it = Some e -> survives 0 c (destroy b c rk it e).
Proof.
  intros Hc Hd. exists 1. unfold nodes. lru_simpl. split; [|now split].
  rewrite (Permutation_length (erase_perm _ _ _ (ix_nodup c Hc) Hd)). cbn [length]. lia.
Qed.

Lemma survives_evict fuel required c : indexed c -> fits 64 (_generation c) -> survives 0 c (evict_loop fuel required c).
Proof.
  revert c. induction fuel as [|fuel IH]; intros c Hc Hg; cbn [evict_loop]; [now apply survives_same|].
  destruct (_ <? _); [|now apply survives_same]. destruct (last (_lru c)) as [[it v]|] eqn:El; [|now apply survives_same].
  destruct (last_erase _ _ _ (ix_nodup c Hc) El) as [_ Hd].
  apply (survives_trans 0 0 _ (destroy true c (e_key v) it v)); [now apply survives_destroy|].
  apply IH; [now apply destroy_spec|]. now apply wrap_fits.
Qed.

Lemma gen_fits k c c' : survives k c c' -> fits 64 (_generation c').
Proof. intros (d & _ & -> & _). now apply wrap_fits. Qed.

Lemma survives_weaken k k' c c' : k <= k' -> survives k c c' -> survives k' c c'.
Proof. intros Hk (d & Hd & H). exists d. split; [lia|done]. Qed.

Lemma live_perm (l l' : list (nat * Entry)) it : NoDup l.*1 -> l ≡ₚ l' -> is_Some (deref l it) -> is_Some (deref l' it).
Proof. intros Hn Hp. now rewrite (deref_perm l l' it Hn Hp). Qed.

Lemma survives_put rk data verdict stamp c b c' :
  lru_ok c -> fits 64 (_generation c) -> put_if rk data verdict stamp c = Some (b, c') -> survives 1 c c'.
Proof.
  intros Hok Hg Hput. destruct (Z.ltb_spec (_max_bytes c) (size_of data)) as [Hbig|Hsz].
  { unfold put_if in Hput. rewrite (proj2 (Z.ltb_lt _ _)) in Hput by done. injection Hput as <- <-. now apply survives_same. }
  destruct verdict; [|unfold put_if in Hput; destruct (_ <? _); injection Hput as <- <-; now apply survives_same].
  destruct (_entries c !! rk) as [it|] eqn:Ee.
  - destruct (put_existing c rk data stamp it Hok Ee Hsz) as (e & c1 & Hd & Hk & Ec1 & Hp & Hix & _).
    rewrite Hp in Hput. injection Hput as <- <-. pose proof (ix_nodup c (lk_indexed c Hok)) as Hn.
    apply (survives_trans 1 0 _ c1); [|apply survives_evict; [done|now subst c1]].
    apply survives_same; [done|done| |now subst c1|]; subst c1; unfold nodes, replaced; lru_simpl.
    + rewrite (Permutation_length (erase_perm _ _ _ Hn Hd)). done.
    + intros it' Hl. cbn [deref]. destruct (decide (it = it')) as [|Hne]; [eauto|].
      apply (live_perm _ _ it' Hn (erase_perm _ _ _ Hn Hd)) in Hl. cbn [deref] in Hl.
      now rewrite decide_False in Hl by done.
  - destruct (put_new c rk data stamp Hok Ee Hsz) as (c1 & n & Ec1 & Hev & Hnone & Hp).
    rewrite Hp in Hput. injection Hput as <- <-.
    assert (survives 0 c c1) as Hs by (subst c1; apply survives_evict; [apply Hok|done]).
    apply (survives_trans 0 1 _ c1 _ Hs). exists 0. unfold nodes. lru_simpl. cbn [length]. split; [lia|]. split.
    + rewrite Z.add_0_r. symmetry. apply wrap_small, (gen_fits _ _ _ Hs).
    + intros _ it Hl. cbn [deref]. case_decide; eauto.
Qed.

Lemma survives_scan key l c c' :
  lru_ok c -> fits 64 (_generation c) -> NoDup l.*1 ->
  (forall rk it, (rk, it) ∈ l -> cache_key rk = key -> _entries c !! rk = Some it) ->
  remove_scan key l c = Some c' -> survives 0 c c'.
Proof.
  revert c. induction l as [|[rk it] l IH]; intros c Hok Hg Hn Hl; cbn [remove_scan].
  { intros [= <-]. now apply survives_same. }
  rewrite fmap_cons in Hn. apply NoDup_cons in Hn as [Hrk Hn]. cbn [fst] in *. destruct (decide (cache_key rk = key)) as [Hk|Hk].
  - pose proof (Hl rk it (list_elem_of_here _ _) Hk) as He.
    destruct (lookup_deref c (lk_indexed c Hok) rk it He) as (e & Hd & Ek). rewrite Hd. cbn. intros Hr.
    apply (survives_trans 0 0 _ (destroy false c rk it e)); [apply survives_destroy; [apply Hok|done]|].
    apply IH; [rewrite <- Ek; now apply destroy_ok|now apply wrap_fits|done| |done].
    intros rk' it' Hin Hk'. lru_simpl. rewrite lookup_delete_ne; [apply Hl; [now apply list_elem_of_further|done]|].
    intros <-. apply Hrk. apply list_elem_of_fmap. now exists (rk, it').
  - apply IH; [done..|]. intros rk' it' Hin. apply Hl. now apply list_elem_of_further.
Qed.

Lemma survives_refresh rk it g c c' :
  lru_ok c -> fits 64 (_generation c) -> get_refresh rk it g c = Some c' -> survives 0 c c'.
Proof.
  intros Hok Hg. pose proof (ix_nodup c (lk_indexed c Hok)) as Hn.
  assert (forall i l, splice_front (_lru c) i = Some l -> survives 0 c (set_list c l)) as Hsp.
  { intros i l Hs. apply (splice_front_perm _ _ _ Hn) in Hs. apply survives_same; [done|done| |done|]; unfold nodes; lru_simpl.
    - now rewrite Hs.
    - intros it'. now apply live_perm. }
  unfold get_refresh. destruct (_generation c =? g).
  - destruct (splice_front (_lru c) it) as [l|] eqn:E; cbn; [|done]. intros [= <-]. now apply (Hsp it).
  - destruct (_entries c !! rk) as [it'|]; [|intros [= <-]; now apply survives_same].
    destruct (is_begin (_lru c) it'); [intros [= <-]; now apply survives_same|].
    destruct (splice_front (_lru c) it') as [l|] eqn:E; cbn; [|done]. intros [= <-]. now apply (Hsp it').
Qed.

(** What [n] events leave: a well-formed cache of at most [n] nodes, and of
    each pending lookup either its iterator is live or the generation moved. *)
Definition saved_ok (n : Z) (c : RamCacheLRU) (x : RamCacheKey * nat * Z) : Prop :=
  let '(_, it, g) := x in
  exists d, 0 <= d /\ d + nodes c <= n /\ fits 64 g /\ _generation c = u64 (g + d) /\
    (d = 0 -> is_Some (deref (_lru c) it)).

Record events_ok (n : Z) (s : RamCacheLRU * pending) : Prop := {
  ek_ok : lru_ok s.1;
  ek_gen : fits 64 (_generation s.1);
  ek_nodes : nodes s.1 <= n;
  ek_saved : Forall (saved_ok n s.1) s.2;
}.

Lemma saved_survives n c c' x : survives 1 c c' -> saved_ok n c x -> saved_ok (n + 1) c' x.
Proof.
  destruct x as [[rk it] g]. intros (d & Hd & Hg & Hl) (d0 & Hd0 & Hn & Hf & Hg0 & Hl0). exists (d0 + d).
  split; [lia|]. split; [lia|]. split; [done|]. split; [|intros E; apply Hl, Hl0; lia].
  rewrite Hg, Hg0, u64_add. f_equal. lia.
Qed.

Lemma events_survive n c p c' p' :
  events_ok n (c, p) -> survives 1 c c' -> lru_ok c' -> (forall x, x ∈ p' -> x ∈ p) -> events_ok (n + 1) (c', p').
Proof.
  intros [Hok Hg Hn Hs] Hsv Hok' Hp. split; cbn in *; [done|now apply (gen_fits 1 c)| |].
  - destruct Hsv as (d & ? & _). lia.
  - apply Forall_forall. intros x Hx. apply (saved_survives n c); [done|].
    apply (proj1 (Forall_forall _ _) Hs). auto.
Qed.

Lemma elem_of_delete {A} (l : list A) i x : x ∈ delete i l -> x ∈ l.
Proof.
  revert i. induction l as [|y l IH]; intros [|i]; cbn; [done|done|intros; now apply list_elem_of_further|].
  rewrite !elem_of_cons. intros [->|H]; [now left|right; eauto].
Qed.

Lemma run_event_safe n ev s :
  events_ok n s -> n < 2 ^ 63 -> exists s', run_event ev s = Some s' /\ events_ok (n + 1) s'.
Proof.
  destruct s as [c p]. intros Hs Hn. pose proof Hs as [Hok Hg Hnd Hsv]. cbn [fst snd] in *.
  destruct ev as [rk|i tl|rk data pr stamp|rk|key|]; cbn [run_event].
  - destruct (get_shared_spec rk c Hok) as (refresh & c' & -> & Hok' & _ & Hl & Hgen & Hr). cbn.
    assert (survives 1 c c') as Hsu.
    { apply survives_same; [done|done|unfold nodes; now rewrite Hl|done|intros it; now rewrite Hl]. }
    eexists. split; [reflexivity|]. pose proof (events_survive n c p c' p Hs Hsu Hok' ltac:(done)) as H1.
    destruct refresh as [[it g]|]; [|done]. destruct (Hr it g eq_refl) as [-> Hlive].
    destruct H1 as [? ? ? Hf]. split; try done. apply Forall_app. split; [done|]. constructor; [|constructor].
    exists 0. cbn [fst snd] in *. rewrite Hl, Hgen. do 3 (split; [done || lia|]).
    split; [now rewrite Z.add_0_r; symmetry; apply wrap_small|done].
  - destruct (p !! i) as [[[rk it] g]|] eqn:Ei.
    2: { eexists. split; [done|]. apply (events_survive n c p); try done. now apply survives_same. }
    pose proof (elem_of_delete p i) as Hdel. destruct tl.
    2: { eexists. split; [done|]. apply (events_survive n c p); try done. now apply survives_same. }
    destruct (get_refresh_spec rk it g c Hok) as (c' & Hc' & Hok' & _).
    { apply list_elem_of_lookup_2 in Ei. apply (proj1 (Forall_forall _ _) Hsv) in Ei as (d & Hd & Hdn & Hfg & Hgd & Hlv).
      intros E. apply Hlv. rewrite E in Hgd. unfold u64, wrap, fits in *. unfold nodes in *.
      destruct (Z.lt_ge_cases (g + d) (2 ^ 64)) as [Hlt|Hge].
      - rewrite Z.mod_small in Hgd by lia. lia.
      - rewrite <- (Z.mod_add _ (-1)), Z.mod_small in Hgd by lia. lia. }
    rewrite Hc'. cbn. eexists. split; [done|]. apply (events_survive n c p); try done.
    apply (survives_weaken 0); [done|]. now apply (survives_refresh rk it g).
  - destruct (lru_put_spec rk data pr stamp c Hok) as (b & c' & Hp & Hok' & _). rewrite Hp. cbn.
    eexists. split; [done|]. apply (events_survive n c p); try done. now apply (survives_put rk data pr stamp _ b).
  - destruct (lru_remove_spec rk c Hok) as (b & c' & Hr & Hok' & _). rewrite Hr. cbn. eexists. split; [done|].
    apply (events_survive n c p); try done. apply (survives_weaken 0); [done|]. unfold remove in Hr.
    destruct (_entries c !! rk) as [it|]; [|injection Hr as <- <-; now apply survives_same].
    destruct (deref (_lru c) it) as [e|] eqn:Ed; [|done]. injection Hr as <- <-. apply survives_destroy; [apply Hok|done].
  - destruct (lru_remove_all_spec key c Hok) as (c' & Hr & Hok' & _). rewrite Hr. cbn. eexists. split; [done|].
    apply (events_survive n c p); try done. apply (survives_weaken 0); [done|].
    apply (survives_scan key (map_to_list (_entries c))); try done; [apply NoDup_fst_map_to_list|].
    intros rk it Hin _. now apply elem_of_map_to_list.
  - eexists. split; [done|]. apply (events_survive n c p); try done; [|now apply lru_clear_spec].
    exists 1. unfold nodes. cbn. split; [lia|]. now split.
Qed.

(** No interleaving of lookups with other operations touches a destroyed
    node: from an empty cache, after any sequence of (the windows of) lookups,
    puts, removals and clears, every iterator the code splices or dereferences
    is live, the index matches the list and the bytes stay within budget.  A
    lookup that saved an iterator before the node was destroyed sees the
    generation moved. *)
Theorem lru_interleaving_safe max_bytes l :
  0 <= max_bytes < 2 ^ 62 -> Z.of_nat (length l) < 2 ^ 63 ->
  exists c p, run_events l (new_lru max_bytes, []) = Some (c, p) /\ lru_ok c.
Proof.
  intros Hm Hlen.
  assert (forall n s, events_ok n s -> 0 <= n -> n + Z.of_nat (length l) < 2 ^ 63 ->
    exists s', run_events l s = Some s' /\ lru_ok s'.1) as H.
  { clear Hlen. induction l as [|ev l IH]; intros n s Hs Hn Hb; cbn [run_events].
    - exists s. split; [done|apply Hs].
    - cbn [length] in Hb. destruct (run_event_safe n ev s Hs ltac:(lia)) as (s1 & -> & Hs1). cbn.
      apply (IH (n + 1)); [done|lia|lia]. }
  destruct (H 0 (new_lru max_bytes, [])) as ([c p] & Hr & Hok); [|lia|lia|now exists c, p].
  split; cbn; [now apply new_lru_ok|unfold fits; lia|done|constructor].
Qed.

(** Eviction is least-recently-used and minimal: putting a new key of a
    size the budget allows leaves the list with the new entry in front of the
    longest prefix (the most recently used entries, in their order) of the old
    list that fits beside it. *)
Theorem lru_evicts_oldest rk data stamp c :
  lru_ok c -> _entries c !! rk = None -> size_of data <= _max_bytes c ->
  exists c' it n, put_if rk data true stamp c = Some (true, c') /\
    _lru c' = (it, {| e_key := rk; e_data := data; e_stamp := stamp |}) :: take n (_lru c) /\
    total (take n (_lru c)) + size_of data <= _max_bytes c /\
    ((n < length (_lru c))%nat -> _max_bytes c < total (take (S n) (_lru c)) + size_of data).
Proof.
  intros Hok Hnew Hsz. destruct (put_new c rk data stamp Hok Hnew Hsz) as (c1 & n & _ & Hev & _ & ->).
  eexists _, (_next c1), n. split; [reflexivity|]. destruct Hev as [_ _ _ _ Hpre Hroom Hleast].
  split; [lru_simpl; now rewrite Hpre|]. split; [|done]. rewrite <- Hpre.
  destruct Hroom as [|E]; [done|]. rewrite E. cbn. lia.
Qed.

(** ** Witnesses *)

Definition rk_of (b : Z) : RamCacheKey := {| cache_key := {| _hash := replicate 32 b |}; alternate_id := 0 |}.

(** A lookup saves an iterator, the entry is removed and put again, and the
    second window runs. *)
Lemma lru_interleaving_safe_witness :
  exists c p, run_events [EvPut (rk_of 1) [1; 2] true 0; EvPut (rk_of 2) [3] true 0; EvShared (rk_of 1);
    EvRemove (rk_of 1); EvPut (rk_of 1) [4] true 9; EvPut (rk_of 3) [5] true 0; EvRefresh 0 true]
    (new_lru 4, []) = Some (c, p) /\ lru_ok c.
Proof. apply (lru_interleaving_safe 4); [lia|]. cbn. lia. Defined.

Definition two_entries : RamCacheLRU :=
  insert_front (insert_front (new_lru 4) {| e_key := rk_of 1; e_data := [1; 2]; e_stamp := 0 |})
    {| e_key := rk_of 2; e_data := [3]; e_stamp := 0 |}.

Lemma two_entries_ok : lru_ok two_entries.
Proof.
  destruct (insert_front_spec (new_lru 4) {| e_key := rk_of 1; e_data := [1; 2]; e_stamp := 0 |}) as [H1 _];
    [apply (new_lru_ok 4); lia|done|vm_compute; reflexivity|].
  destruct (insert_front_spec _ {| e_key := rk_of 2; e_data := [3]; e_stamp := 0 |} H1) as [H2 _]; [done|vm_compute; reflexivity|].
  split; [exact H2|]. cbn. vm_compute. discriminate.
Qed.

Lemma lru_evicts_oldest_witness :
  exists c' it n, put_if (rk_of 3) [6; 7] true 5 two_entries = Some (true, c') /\
    _lru c' = (it, {| e_key := rk_of 3; e_data := [6; 7]; e_stamp := 5 |}) :: take n (_lru two_entries) /\
    total (take n (_lru two_entries)) + size_of [6; 7] <= 4 /\
    ((n < length (_lru two_entries))%nat -> 4 < total (take (S n) (_lru two_entries)) + size_of [6; 7]).
Proof. apply (lru_evicts_oldest (rk_of 3) [6; 7] 5 two_entries two_entries_ok); [reflexivity|]. vm_compute. discriminate. Defined.
