(* ===== verification/Clfus.v ===== *)
(** * The CLFUS RAM cache (src/src/ram_cache/clfus.cpp)

    A segment keeps the cached entries ([_active_lru]) and the metadata of
    evicted ones ([_history_lru]) in two lists, one map of iterators into
    either, a filter of tags seen once, and a running average of evicted
    values.  The cache routes each key to a segment.  The values are C++
    doubles ([Floats]). *)

From S2P Require Import Prelude Floats Key RamCache.
Local Open Scope cyc_scope.

(** The literal 0.1, correctly rounded. *)
Definition tenth : double := ddiv (double_of 1) (double_of 10).

(** ** Entries and segments *)

Definition ENTRY_OVERHEAD : Z := 256.
Definition REQUEUE_LIMIT : Z := 100.
Definition SEEN_FILTER_SIZE : Z := 65536.
Definition MIN_SEEN_FILTER_PER_SEGMENT : Z := 1024.
Definition MIN_SEGMENT_BYTES : Z := 4 * 1024 * 1024.
Definition MAX_HISTORY : nat := Z.to_nat 1024.

Record Entry := { ce_key : RamCacheKey; ce_data : list Z; ce_hits : Z; ce_in_cache : bool; ce_stamp : Z }.

Definition size_of (data : list Z) : Z := Z.of_nat (length data).

(** [(hits + 1) / (size + ENTRY_OVERHEAD)]; the sum of two 32-bit unsigned
    operands wraps. *)
Definition value (e : Entry) : double :=
  ddiv (double_of (u32 (ce_hits e + 1))) (double_of (size_of (ce_data e) + ENTRY_OVERHEAD)).

Definition set_hits (e : Entry) (h : Z) : Entry :=
  {| ce_key := ce_key e; ce_data := ce_data e; ce_hits := h; ce_in_cache := ce_in_cache e; ce_stamp := ce_stamp e |}.

(** [sg_next] is the allocator. *)
Record Segment := {
  sg_max_bytes : Z;
  sg_bytes_used : Z;
  sg_active : list (nat * Entry);
  sg_history : list (nat * Entry);
  sg_entry_map : gmap RamCacheKey nat;
  sg_seen_filter : list Z;
  sg_average : double;
  sg_hits : Z;
  sg_misses : Z;
  sg_evictions : Z;
  sg_next : nat;
}.

Definition new_segment (max_bytes seen_filter_size : Z) : Segment := {|
  sg_max_bytes := max_bytes; sg_bytes_used := 0; sg_active := []; sg_history := []; sg_entry_map := ∅;
  sg_seen_filter := replicate (Z.to_nat seen_filter_size) 0; sg_average := S754_zero false;
  sg_hits := 0; sg_misses := 0; sg_evictions := 0; sg_next := 0 |}.

Definition set_lists (s : Segment) (active history : list (nat * Entry)) : Segment := {|
  sg_max_bytes := sg_max_bytes s; sg_bytes_used := sg_bytes_used s; sg_active := active; sg_history := history;
  sg_entry_map := sg_entry_map s; sg_seen_filter := sg_seen_filter s; sg_average := sg_average s;
  sg_hits := sg_hits s; sg_misses := sg_misses s; sg_evictions := sg_evictions s; sg_next := sg_next s |}.
Definition set_map (s : Segment) (m : gmap RamCacheKey nat) : Segment := {|
  sg_max_bytes := sg_max_bytes s; sg_bytes_used := sg_bytes_used s; sg_active := sg_active s;
  sg_history := sg_history s; sg_entry_map := m; sg_seen_filter := sg_seen_filter s; sg_average := sg_average s;
  sg_hits := sg_hits s; sg_misses := sg_misses s; sg_evictions := sg_evictions s; sg_next := sg_next s |}.
Definition set_bytes (s : Segment) (n : Z) : Segment := {|
  sg_max_bytes := sg_max_bytes s; sg_bytes_used := u64 n; sg_active := sg_active s;
  sg_history := sg_history s; sg_entry_map := sg_entry_map s; sg_seen_filter := sg_seen_filter s;
  sg_average := sg_average s; sg_hits := sg_hits s; sg_misses := sg_misses s; sg_evictions := sg_evictions s;
  sg_next := sg_next s |}.
Definition count_get (s : Segment) (hit : bool) : Segment := {|
  sg_max_bytes := sg_max_bytes s; sg_bytes_used := sg_bytes_used s; sg_active := sg_active s;
  sg_history := sg_history s; sg_entry_map := sg_entry_map s; sg_seen_filter := sg_seen_filter s;
  sg_average := sg_average s; sg_hits := if hit then u64 (sg_hits s + 1) else sg_hits s;
  sg_misses := if hit then sg_misses s else u64 (sg_misses s + 1); sg_evictions := sg_evictions s;
  sg_next := sg_next s |}.
Definition set_seen (s : Segment) (l : list Z) : Segment := {|
  sg_max_bytes := sg_max_bytes s; sg_bytes_used := sg_bytes_used s; sg_active := sg_active s;
  sg_history := sg_history s; sg_entry_map := sg_entry_map s; sg_seen_filter := l;
  sg_average := sg_average s; sg_hits := sg_hits s; sg_misses := sg_misses s; sg_evictions := sg_evictions s;
  sg_next := sg_next s |}.
Definition update_average (s : Segment) (new_value : double) : Segment := {|
  sg_max_bytes := sg_max_bytes s; sg_bytes_used := sg_bytes_used s; sg_active := sg_active s;
  sg_history := sg_history s; sg_entry_map := sg_entry_map s; sg_seen_filter := sg_seen_filter s;
  sg_average := dadd (dmul tenth new_value) (dmul (dsub (double_of 1) tenth) (sg_average s));
  sg_hits := sg_hits s; sg_misses := sg_misses s; sg_evictions := sg_evictions s; sg_next := sg_next s |}.
Definition count_eviction (s : Segment) : Segment := {|
  sg_max_bytes := sg_max_bytes s; sg_bytes_used := sg_bytes_used s; sg_active := sg_active s;
  sg_history := sg_history s; sg_entry_map := sg_entry_map s; sg_seen_filter := sg_seen_filter s;
  sg_average := sg_average s; sg_hits := sg_hits s; sg_misses := sg_misses s;
  sg_evictions := u64 (sg_evictions s + 1); sg_next := sg_next s |}.

(** ** The seen filter *)

Definition compute_seen_tag (rk : RamCacheKey) : Z :=
  le_val (subspan (_hash (cache_key rk)) 16 2) .^ u16 (u8 (alternate_id rk)).

Definition seen_index (s : Segment) (rk : RamCacheKey) : nat :=
  Z.to_nat (bucket_hash (cache_key rk) mod Z.of_nat (length (sg_seen_filter s))).

Definition check_seen (s : Segment) (rk : RamCacheKey) : bool :=
  nth (seen_index s rk) (sg_seen_filter s) 0 =? compute_seen_tag rk.

Definition mark_seen (s : Segment) (rk : RamCacheKey) : Segment :=
  set_seen s (<[seen_index s rk := compute_seen_tag rk]> (sg_seen_filter s)).

(** ** Eviction *)

(** [while (_history_lru.size() > MAX_HISTORY)] drop the back. *)
Fixpoint trim_history (fuel : nat) (s : Segment) : Segment :=
  match fuel with
  | O => s
  | S fuel =>
      if (MAX_HISTORY <? length (sg_history s))%nat then
        match last (sg_history s) with
        | Some (it, old) =>
            trim_history fuel (set_map (set_lists s (sg_active s) (erase (sg_history s) it))
                                 (delete (ce_key old) (sg_entry_map s)))
        | None => s
        end
      else s
  end.

(** The victim leaves memory and becomes history. *)
Definition evict_one (s : Segment) (it : nat) (victim : Entry) : Segment :=
  let s := update_average s (value victim) in
  let s := set_bytes s (sg_bytes_used s - size_of (ce_data victim)) in
  let gone := {| ce_key := ce_key victim; ce_data := []; ce_hits := ce_hits victim;
                 ce_in_cache := false; ce_stamp := ce_stamp victim |} in
  let s := set_lists s (erase (sg_active s) it) ((it, gone) :: sg_history s) in
  let s := set_map s (<[ce_key victim := it]> (sg_entry_map s)) in
  let s := count_eviction s in
  trim_history (length (sg_history s)) s.

(** Each iteration requeues (at most [REQUEUE_LIMIT] times in all) or evicts;
    [REQUEUE_LIMIT + length (sg_active s)] of them suffice. *)
Fixpoint evict_loop (fuel : nat) (requeues required_space : Z) (s : Segment) : Segment :=
  match fuel with
  | O => s
  | S fuel =>
      if sg_max_bytes s <? u64 (sg_bytes_used s + required_space) then
        match last (sg_active s) with
        | Some (it, victim) =>
            if (0 <? ce_hits victim) && (requeues <? REQUEUE_LIMIT) then
              evict_loop fuel (requeues + 1) required_space
                (set_lists s ((it, set_hits victim (ce_hits victim / 2)) :: erase (sg_active s) it) (sg_history s))
            else evict_loop fuel requeues required_space (evict_one s it victim)
        | None => s
        end
      else s
  end.

Definition evict_if_needed (required_space : Z) (s : Segment) : Segment :=
  evict_loop (Z.to_nat REQUEUE_LIMIT + length (sg_active s)) 0 required_space s.

(** ** Operations of a segment *)

(** The node an iterator of the map names, in whichever list. *)
Definition node_at (s : Segment) (it : nat) : option Entry := deref (sg_active s ++ sg_history s) it.

(** Writes to a node in place. *)
Definition write_node (s : Segment) (it : nat) (e : Entry) : Segment :=
  set_lists s (assign (sg_active s) it e) (assign (sg_history s) it e).

(** [splice] of a node of the list into a local list. *)
Definition take_node (l : list (nat * Entry)) (it : nat) : option (list (nat * Entry)) :=
  _ ← deref l it; Some (erase l it).

Definition seg_get (rk : RamCacheKey) (s : Segment) : option (option (list Z * Z) * Segment) :=
  match sg_entry_map s !! rk with
  | None => Some (None, count_get s false)
  | Some it =>
      e ← node_at s it;
      if negb (ce_in_cache e) then Some (None, count_get s false)
      else Some (Some (ce_data e, ce_stamp e),
                 count_get (write_node s it (set_hits e (saturating_increment (ce_hits e)))) true)
  end.

(** The entry, off both lists, comes back at the front with its new body. *)
Definition put_front (s : Segment) (it : nat) (e : Entry) (data : list Z) (stamp : Z) : Segment :=
  let e := {| ce_key := ce_key e; ce_data := data; ce_hits := saturating_increment (ce_hits e);
              ce_in_cache := true; ce_stamp := stamp |} in
  let s := set_lists s ((it, e) :: sg_active s) (sg_history s) in
  let s := set_map s (<[ce_key e := it]> (sg_entry_map s)) in
  set_bytes s (sg_bytes_used s + size_of data).

Definition promote_from_history (s : Segment) (it : nat) (e : Entry) (data : list Z) (stamp : Z) : option Segment :=
  h ← take_node (sg_history s) it;
  let s := set_lists s (sg_active s) h in
  let s := evict_if_needed (size_of data) s in
  Some (put_front s it e data stamp).

Definition seg_put (rk : RamCacheKey) (data : list Z) (predicate : bool) (stamp : Z) (s : Segment)
  : option (bool * Segment) :=
  if sg_max_bytes s <? size_of data then Some (false, s)
  else if negb predicate then Some (false, s)
  else
    match sg_entry_map s !! rk with
    | Some it =>
        e ← node_at s it;
        if ce_in_cache e then
          let s := set_bytes s (sg_bytes_used s - size_of (ce_data e)) in
          a ← take_node (sg_active s) it;
          let s := set_lists s a (sg_history s) in
          let s := evict_if_needed (size_of data) s in
          Some (true, put_front s it e data stamp)
        else if fgt (value e) (sg_average s) || (0 <? ce_hits e) then
          s ← promote_from_history s it e data stamp; Some (true, s)
        else Some (false, write_node s it (set_hits e (saturating_increment (ce_hits e))))
    | None =>
        if negb (check_seen s rk) then Some (false, mark_seen s rk)
        else
          let s := evict_if_needed (size_of data) s in
          let e := {| ce_key := rk; ce_data := data; ce_hits := 0; ce_in_cache := true; ce_stamp := stamp |} in
          let it := sg_next s in
          Some (true, {| sg_max_bytes := sg_max_bytes s; sg_bytes_used := u64 (sg_bytes_used s + size_of data);
                         sg_active := (it, e) :: sg_active s; sg_history := sg_history s;
                         sg_entry_map := <[rk := it]> (sg_entry_map s); sg_seen_filter := sg_seen_filter s;
                         sg_average := sg_average s; sg_hits := sg_hits s; sg_misses := sg_misses s;
                         sg_evictions := sg_evictions s; sg_next := S it |})
    end.

(** Destroys the node at [it] (from the list its [in_cache] names) and its
    map entry. *)
Definition drop_node (s : Segment) (rk : RamCacheKey) (it : nat) : option Segment :=
  e ← node_at s it;
  s ← (if ce_in_cache e then
         let s := set_bytes s (sg_bytes_used s - size_of (ce_data e)) in
         a ← take_node (sg_active s) it; Some (set_lists s a (sg_history s))
       else h ← take_node (sg_history s) it; Some (set_lists s (sg_active s) h));
  Some (set_map s (delete rk (sg_entry_map s))).

Definition seg_remove (rk : RamCacheKey) (s : Segment) : option (bool * Segment) :=
  match sg_entry_map s !! rk with
  | None => Some (false, s)
  | Some it => s ← drop_node s rk it; Some (true, s)
  end.

Fixpoint seg_remove_scan (key : CacheKey) (l : list (RamCacheKey * nat)) (s : Segment) : option Segment :=
  match l with
  | [] => Some s
  | (rk, it) :: l =>
      if decide (cache_key rk = key) then s ← drop_node s rk it; seg_remove_scan key l s
      else seg_remove_scan key l s
  end.

Definition seg_remove_all (key : CacheKey) (s : Segment) : option Segment :=
  seg_remove_scan key (map_to_list (sg_entry_map s)) s.

Definition seg_clear (s : Segment) : Segment := {|
  sg_max_bytes := sg_max_bytes s; sg_bytes_used := 0; sg_active := []; sg_history := []; sg_entry_map := ∅;
  sg_seen_filter := replicate (length (sg_seen_filter s)) 0; sg_average := S754_zero false;
  sg_hits := sg_hits s; sg_misses := sg_misses s; sg_evictions := sg_evictions s; sg_next := sg_next s |}.

(** ** The invariant *)

(** What the map indexes: the address and key of every node. *)
Definition pairs (l : list (nat * Entry)) : list (nat * RamCacheKey) := (fun n => (n.1, ce_key n.2)) <$> l.

Record index_ok (l : list (nat * RamCacheKey)) (m : gmap RamCacheKey nat) : Prop := {
  io_nodup : NoDup l.*1;
  io_map k it : m !! k = Some it <-> (it, k) ∈ l;
}.

Lemma index_ok_perm l l' m : l ≡ₚ l' -> index_ok l m -> index_ok l' m.
Proof.
  intros Hp [Hn Hm]. split; [now rewrite <- Hp|]. intros k it. rewrite Hm. split; now rewrite Hp.
Qed.

(** In an index, an address and a key determine each other. *)
Lemma index_ok_delete it k l m : index_ok ((it, k) :: l) m -> index_ok l (delete k m).
Proof.
  intros [Hn Hm]. rewrite fmap_cons in Hn. apply NoDup_cons in Hn as [Hit Hn]. cbn in Hit. split; [done|].
  intros k' it'. rewrite lookup_delete_Some, Hm, elem_of_cons. split.
  - intros [Hne [[= -> ->]|H]]; [done|done].
  - intros H. split; [|now right]. intros <-.
    assert (m !! k = Some it') as E1 by (apply Hm; now right).
    assert (m !! k = Some it) as E2 by (apply Hm; now left). rewrite E1 in E2. injection E2 as ->.
    apply Hit. apply list_elem_of_fmap. now exists (it, k).
Qed.

Lemma index_ok_insert it k l m :
  index_ok l m -> m !! k = None -> it ∉ l.*1 -> index_ok ((it, k) :: l) (<[k := it]> m).
Proof.
  intros [Hn Hm] Hk Hit. split; [rewrite fmap_cons; now apply NoDup_cons|].
  intros k' it'. rewrite lookup_insert_Some, Hm, elem_of_cons. split.
  - intros [[-> ->]|[Hne H]]; [now left|now right].
  - intros [[= -> ->]|H]; [now left|right]. split; [|done]. intros <-. apply Hm in H. congruence.
Qed.

Lemma index_ok_id it k l m : index_ok l m -> (it, k) ∈ l -> <[k := it]> m = m.
Proof. intros [_ Hm] Hin. apply insert_id. now apply Hm. Qed.

Definition total (l : list (nat * Entry)) : Z := foldr (fun n acc => size_of (ce_data n.2) + acc) 0 l.

Lemma size_of_nonneg d : 0 <= size_of d.
Proof. unfold size_of. lia. Qed.
Lemma total_cons n l : total (n :: l) = size_of (ce_data n.2) + total l.
Proof. done. Qed.
Lemma total_nonneg l : 0 <= total l.
Proof. induction l as [|n l IH]; [done|]. rewrite total_cons. pose proof (size_of_nonneg (ce_data n.2)). lia. Qed.
Lemma total_perm l l' : l ≡ₚ l' -> total l = total l'.
Proof. induction 1; rewrite ?total_cons; [done|lia|lia|congruence]. Qed.

Definition in_memory (n : nat * Entry) : Prop := ce_in_cache n.2 = true.
Definition in_history (n : nat * Entry) : Prop := ce_in_cache n.2 = false.

(** The invariant, with the nodes [limbo] that an operation holds off both
    lists while it makes room. *)
Record seg_inv (limbo : list (nat * Entry)) (s : Segment) : Prop := {
  si_index : index_ok (pairs (limbo ++ sg_active s ++ sg_history s)) (sg_entry_map s);
  si_active : Forall in_memory (sg_active s);
  si_history : Forall in_history (sg_history s);
  si_bytes : sg_bytes_used s = total (sg_active s);
  si_small : total (sg_active s) < 2 ^ 63;
  si_max : 0 <= sg_max_bytes s < 2 ^ 62;
  si_next : Forall (fun n => (n.1 < sg_next s)%nat) (limbo ++ sg_active s ++ sg_history s);
  si_seen : (0 < length (sg_seen_filter s))%nat;
}.

Record seg_ok (s : Segment) : Prop := {
  sk_inv : seg_inv [] s;
  sk_budget : sg_bytes_used s <= sg_max_bytes s;
}.

Definition contents (s : Segment) : contents_map :=
  omap (fun it => e ← deref (sg_active s) it; Some (ce_data e, ce_stamp e)) (sg_entry_map s).

Ltac seg_simpl :=
  cbn [sg_max_bytes sg_bytes_used sg_active sg_history sg_entry_map sg_seen_filter sg_average sg_hits sg_misses
       sg_evictions sg_next set_lists set_map set_bytes count_get set_seen update_average count_eviction
       mark_seen write_node put_front seg_clear].

Lemma pairs_ids l : (pairs l).*1 = l.*1.
Proof. unfold pairs. rewrite <- list_fmap_compose. reflexivity. Qed.

Lemma pairs_app l l' : pairs (l ++ l') = pairs l ++ pairs l'.
Proof. apply fmap_app. Qed.

Lemma pairs_perm l l' : l ≡ₚ l' -> pairs l ≡ₚ pairs l'.
Proof. unfold pairs. intros ->. done. Qed.

Section inv.
Context (limbo : list (nat * Entry)) (s : Segment) (Hs : seg_inv limbo s).

Lemma ids_nodup : NoDup (limbo ++ sg_active s ++ sg_history s).*1.
Proof using Hs. rewrite <- pairs_ids. apply Hs. Qed.

Lemma lists_nodup : NoDup (sg_active s).*1 /\ NoDup (sg_history s).*1 /\
  NoDup (sg_active s ++ sg_history s).*1.
Proof using Hs.
  pose proof ids_nodup as H. rewrite fmap_app in H. apply NoDup_app in H as (_ & _ & H). split; [|split; [|done]];
    rewrite fmap_app in H; apply NoDup_app in H as (? & _ & ?); done.
Qed.

Lemma elem_pairs it k (l : list (nat * Entry)) : (it, k) ∈ pairs l <-> exists e, (it, e) ∈ l /\ ce_key e = k.
Proof using.
  unfold pairs. rewrite list_elem_of_fmap. split.
  - intros ([i e] & [= -> ->] & H). now exists e.
  - intros (e & H & <-). now exists (it, e).
Qed.

Lemma map_lookup k it :
  sg_entry_map s !! k = Some it <-> exists e, (it, e) ∈ limbo ++ sg_active s ++ sg_history s /\ ce_key e = k.
Proof using Hs. rewrite (io_map _ _ (si_index _ _ Hs)). apply elem_pairs. Qed.

Lemma contents_spec k v :
  contents s !! k = Some v <->
  exists it e, (it, e) ∈ sg_active s /\ ce_key e = k /\ v = (ce_data e, ce_stamp e).
Proof using Hs.
  unfold contents. rewrite lookup_omap. destruct lists_nodup as (Ha & _). split.
  - destruct (sg_entry_map s !! k) as [it|] eqn:E; cbn; [|done].
    destruct (deref (sg_active s) it) as [e|] eqn:Ed; cbn; [|done]. intros [= <-]. apply deref_elem in Ed.
    apply map_lookup in E as (e' & Hin & <-). exists it, e. split; [done|]. split; [|done].
    assert ((it, e) ∈ limbo ++ sg_active s ++ sg_history s) as Hin' by (apply elem_of_app; right; apply elem_of_app; now left).
    apply (elem_deref _ _ _ ids_nodup) in Hin, Hin'. congruence.
  - intros (it & e & Hin & Hk & ->). assert (sg_entry_map s !! k = Some it) as ->.
    { apply map_lookup. exists e. split; [|done]. apply elem_of_app; right; apply elem_of_app; now left. }
    cbn. now rewrite (elem_deref _ _ _ Ha Hin).
Qed.
End inv.

(** The cached entries of [s'] are entries of [s], with the same bytes. *)
Definition kept (s s' : Segment) : Prop :=
  forall it e', (it, e') ∈ sg_active s' -> exists e, (it, e) ∈ sg_active s /\
    ce_key e = ce_key e' /\ ce_data e = ce_data e' /\ ce_stamp e = ce_stamp e'.

Lemma kept_refl s : kept s s.
Proof. intros it e H. now exists e. Qed.

Lemma kept_trans s s' s'' : kept s s' -> kept s' s'' -> kept s s''.
Proof.
  intros H1 H2 it e'' Hin. destruct (H2 _ _ Hin) as (e' & Hin' & E1 & E2 & E3).
  destruct (H1 _ _ Hin') as (e & Hin0 & F1 & F2 & F3). exists e. split; [done|]. repeat split; congruence.
Qed.

Lemma kept_contents limbo limbo' s s' : seg_inv limbo s -> seg_inv limbo' s' -> kept s s' -> contents s' ⊆ contents s.
Proof.
  intros Hs Hs' Hk. apply map_subseteq_spec. intros k v.
  rewrite (contents_spec limbo' s' Hs'), (contents_spec limbo s Hs).
  intros (it & e' & Hin & <- & ->). destruct (Hk _ _ Hin) as (e & He & E1 & E2 & E3). exists it, e. now rewrite E1, E2, E3.
Qed.

(** ** Making room *)

Lemma trim_history_spec fuel limbo s :
  seg_inv limbo s -> let s' := trim_history fuel s in
  seg_inv limbo s' /\ sg_active s' = sg_active s /\ sg_max_bytes s' = sg_max_bytes s /\ sg_next s' = sg_next s.
Proof.
  revert s. induction fuel as [|fuel IH]; intros s Hs; cbn [trim_history]; [done|].
  destruct (_ <? _)%nat; [|done]. destruct (last (sg_history s)) as [[it old]|] eqn:El; [|done].
  destruct (lists_nodup _ _ Hs) as (_ & Hh & _). destruct (last_erase _ _ _ Hh El) as [Eh Hd].
  set (h := erase (sg_history s) it) in *.
  assert (limbo ++ sg_active s ++ sg_history s ≡ₚ (it, old) :: limbo ++ sg_active s ++ h) as Hp.
  { rewrite Eh, !app_assoc. rewrite <- Permutation_cons_append. done. }
  cbv zeta. match goal with |- context [trim_history fuel ?x] => enough (seg_inv limbo x) by exact (IH x ltac:(done)) end.
  destruct Hs. split; seg_simpl; try done.
  - apply (index_ok_delete it). apply (index_ok_perm _ _ _ (pairs_perm _ _ Hp)) in si_index0. exact si_index0.
  - rewrite Eh in si_history0. now apply Forall_app in si_history0 as [? _].
  - rewrite Hp in si_next0. now apply Forall_cons in si_next0 as [_ ?].
Qed.

Lemma evict_one_spec limbo s it v :
  seg_inv limbo s -> last (sg_active s) = Some (it, v) ->
  let s' := evict_one s it v in
  seg_inv limbo s' /\ sg_active s = sg_active s' ++ [(it, v)] /\ sg_max_bytes s' = sg_max_bytes s /\
  sg_next s' = sg_next s.
Proof.
  intros Hs El. cbv zeta. unfold evict_one. destruct (lists_nodup _ _ Hs) as (Ha & _).
  destruct (last_erase _ _ _ Ha El) as [Ea Hd]. set (a := erase (sg_active s) it) in *.
  set (gone := {| ce_key := ce_key v |}). set (s1 := count_eviction _).
  assert (limbo ++ sg_active s ++ sg_history s ≡ₚ (it, v) :: limbo ++ a ++ sg_history s) as Hp.
  { rewrite Ea, !app_assoc. rewrite <- (app_assoc _ [_]), (Permutation_app_comm [_]), app_assoc.
    now rewrite <- Permutation_cons_append. }
  assert (limbo ++ a ++ (it, gone) :: sg_history s ≡ₚ (it, gone) :: limbo ++ a ++ sg_history s) as Hp'.
  { now rewrite !(app_assoc _ a), <- Permutation_middle. }
  assert (pairs (limbo ++ sg_active s ++ sg_history s) ≡ₚ pairs (limbo ++ a ++ (it, gone) :: sg_history s)) as Hpp.
  { rewrite (pairs_perm _ _ Hp), (pairs_perm _ _ Hp'). done. }
  assert (total (sg_active s) = size_of (ce_data v) + total a) as Ht.
  { rewrite <- (total_cons (it, v)). apply total_perm. rewrite Ea. now rewrite <- Permutation_cons_append. }
  pose proof (total_nonneg a). pose proof (size_of_nonneg (ce_data v)).
  assert (seg_inv limbo s1) as Hs1.
  { pose proof Hs as []. unfold s1. split; seg_simpl; try done.
    - rewrite (index_ok_id it (ce_key v) _ _ si_index0).
      + now apply (index_ok_perm _ _ _ Hpp).
      + rewrite (pairs_perm _ _ Hp). apply list_elem_of_here.
    - rewrite Ea in si_active0. now apply Forall_app in si_active0 as [? _].
    - constructor; done.
    - fold a. rewrite si_bytes0, Ht. unfold u64. rewrite wrap_small by (unfold fits; lia). lia.
    - fold a. lia.
    - fold a gone. rewrite Hp'. rewrite Hp in si_next0. apply Forall_cons in si_next0 as [? ?]. now constructor. }
  destruct (trim_history_spec (length (sg_history s1)) limbo s1 Hs1) as (H1 & H2 & H3 & H4).
  split; [exact H1|]. rewrite H2, H3, H4. split; [exact Ea|done].
Qed.

Lemma requeue_spec limbo s it v h :
  seg_inv limbo s -> last (sg_active s) = Some (it, v) ->
  let s' := set_lists s ((it, set_hits v h) :: erase (sg_active s) it) (sg_history s) in
  seg_inv limbo s' /\ kept s s' /\ length (sg_active s') = length (sg_active s).
Proof.
  intros Hs El. cbv zeta. destruct (lists_nodup _ _ Hs) as (Ha & _).
  destruct (last_erase _ _ _ Ha El) as [Ea Hd]. set (a := erase (sg_active s) it) in *.
  assert (sg_active s ≡ₚ (it, v) :: a) as Hp by (rewrite Ea; now rewrite <- Permutation_cons_append).
  split; [|split].
  - pose proof Hs as []. split; seg_simpl; try done.
    + refine (index_ok_perm _ _ _ _ si_index0). rewrite !pairs_app. f_equiv. f_equiv.
      rewrite (pairs_perm _ _ Hp). done.
    + rewrite Hp in si_active0. apply Forall_cons in si_active0 as [? ?]. now constructor.
    + rewrite si_bytes0, (total_perm _ _ Hp). done.
    + rewrite (total_perm _ _ Hp) in si_small0. done.
    + rewrite Hp in si_next0. apply Forall_app in si_next0 as [? [[? ?]%Forall_cons ?]%Forall_app].
      apply Forall_app. split; [done|]. apply Forall_app. split; [|done]. now constructor.
  - intros i e'. seg_simpl. intros [[= -> ->]|Hin]%elem_of_cons.
    + exists v. split; [rewrite Hp; apply list_elem_of_here|done].
    + exists e'. split; [rewrite Hp; now apply list_elem_of_further|done].
  - seg_simpl. now rewrite Hp.
Qed.

(** The loop ends with the room made or nothing left to evict: each turn
    uses a requeue or a node. *)
Lemma evict_loop_spec fuel q required limbo s :
  seg_inv limbo s -> 0 <= q <= REQUEUE_LIMIT ->
  (Z.to_nat (REQUEUE_LIMIT - q) + length (sg_active s) <= fuel)%nat -> 0 <= required < 2 ^ 63 ->
  let s' := evict_loop fuel q required s in
  seg_inv limbo s' /\ kept s s' /\ sg_max_bytes s' = sg_max_bytes s /\
  (total (sg_active s') + required <= sg_max_bytes s \/ sg_active s' = []).
Proof.
  revert q s. induction fuel as [|fuel IH]; intros q s Hs Hq Hf Hr; cbn [evict_loop].
  { split; [done|]. split; [apply kept_refl|]. split; [done|]. right. apply length_zero_iff_nil. lia. }
  pose proof (si_bytes _ _ Hs). pose proof (total_nonneg (sg_active s)). pose proof (si_small _ _ Hs).
  unfold u64. rewrite wrap_small by (unfold fits; lia).
  destruct (Z.ltb_spec (sg_max_bytes s) (sg_bytes_used s + required)) as [Hgt|Hle].
  2: { split; [done|]. split; [apply kept_refl|]. split; [done|]. left. lia. }
  destruct (last (sg_active s)) as [[it v]|] eqn:El.
  2: { apply last_None in El. split; [done|]. split; [apply kept_refl|]. split; [done|]. now right. }
  destruct ((0 <? ce_hits v) && (q <? REQUEUE_LIMIT)) eqn:Eq.
  - apply andb_true_iff in Eq as [_ Eq]. apply Z.ltb_lt in Eq.
    destruct (requeue_spec limbo s it v (ce_hits v / 2) Hs El) as (Hs1 & Hk & Hlen).
    set (s1 := set_lists _ _ _) in *. destruct (IH (q + 1) s1 Hs1) as (G1 & G2 & G3 & G4); [lia|rewrite Hlen; lia|done|].
    split; [done|]. split; [now apply (kept_trans s s1)|]. split; [now rewrite G3|]. exact G4.
  - destruct (evict_one_spec limbo s it v Hs El) as (Hs1 & Ha & Hm & _). set (s1 := evict_one s it v) in *.
    assert (kept s s1) as Hk.
    { intros i e Hin. exists e. split; [|done]. rewrite Ha. apply elem_of_app. now left. }
    destruct (IH q s1 Hs1) as (G1 & G2 & G3 & G4); [done|rewrite Ha, length_app in Hf; cbn [length] in Hf; lia|done|].
    split; [done|]. split; [now apply (kept_trans s s1)|]. rewrite Hm in *. split; done.
Qed.

Lemma evict_spec required limbo s :
  seg_inv limbo s -> 0 <= required <= sg_max_bytes s ->
  let s' := evict_if_needed required s in
  seg_inv limbo s' /\ kept s s' /\ sg_max_bytes s' = sg_max_bytes s /\
  total (sg_active s') + required <= sg_max_bytes s.
Proof.
  intros Hs Hr. pose proof (si_max _ _ Hs).
  destruct (evict_loop_spec (Z.to_nat REQUEUE_LIMIT + length (sg_active s)) 0 required limbo s Hs) as (H1 & H2 & H3 & H4);
    [unfold REQUEUE_LIMIT; lia|unfold REQUEUE_LIMIT; lia|lia|].
  split; [done|]. split; [done|]. split; [done|]. destruct H4 as [|E]; [done|].
  unfold evict_if_needed. rewrite E. change (total []) with 0. lia.
Qed.

(** ** Nodes off and back on the lists *)

Lemma take_active s it e :
  seg_inv [] s -> deref (sg_active s) it = Some e ->
  let s1 := set_lists (set_bytes s (sg_bytes_used s - size_of (ce_data e))) (erase (sg_active s) it) (sg_history s) in
  seg_inv [(it, e)] s1 /\ kept s s1.
Proof.
  intros Hs Hd. cbv zeta. destruct (lists_nodup _ _ Hs) as (Ha & _). pose proof (erase_perm _ _ _ Ha Hd) as Hp.
  set (a := erase (sg_active s) it) in *. pose proof (total_nonneg a). pose proof (size_of_nonneg (ce_data e)).
  assert (total (sg_active s) = size_of (ce_data e) + total a) as Ht by (rewrite (total_perm _ _ Hp); done).
  split.
  - pose proof Hs as []. split; seg_simpl; try done.
    + refine (index_ok_perm _ _ _ (pairs_perm _ _ _) si_index0). cbn [app]. now rewrite Hp.
    + rewrite Hp in si_active0. now apply Forall_cons in si_active0 as [_ ?].
    + rewrite si_bytes0, Ht. unfold u64. rewrite wrap_small by (unfold fits; lia). lia.
    + lia.
    + cbn [app] in *. now rewrite Hp in si_next0.
  - intros i e'. seg_simpl. intros Hin. exists e'. split; [rewrite Hp; now apply list_elem_of_further|done].
Qed.

Lemma take_history s it e :
  seg_inv [] s -> deref (sg_history s) it = Some e ->
  seg_inv [(it, e)] (set_lists s (sg_active s) (erase (sg_history s) it)).
Proof.
  intros Hs Hd. destruct (lists_nodup _ _ Hs) as (_ & Hh & _). pose proof (erase_perm _ _ _ Hh Hd) as Hp.
  set (h := erase (sg_history s) it) in *.
  assert (sg_active s ++ sg_history s ≡ₚ (it, e) :: sg_active s ++ h) as Hp2 by (rewrite Hp; now rewrite <- Permutation_middle).
  pose proof Hs as []. split; seg_simpl; try done.
  - refine (index_ok_perm _ _ _ (pairs_perm _ _ _) si_index0). cbn [app]. now rewrite Hp2.
  - rewrite Hp in si_history0. now apply Forall_cons in si_history0 as [_ ?].
  - cbn [app] in *. now rewrite Hp2 in si_next0.
Qed.

Lemma put_front_spec s it e data stamp :
  seg_inv [(it, e)] s -> total (sg_active s) + size_of data <= sg_max_bytes s ->
  let s' := put_front s it e data stamp in
  seg_ok s' /\ contents s' = <[ce_key e := (data, stamp)]> (contents s).
Proof.
  intros Hs Hroom. cbv zeta. pose proof (total_nonneg (sg_active s)). pose proof (size_of_nonneg data).
  pose proof Hs as []. assert (u64 (sg_bytes_used s + size_of data) = size_of data + total (sg_active s)) as Hb.
  { unfold u64. rewrite wrap_small by (unfold fits; lia). lia. }
  assert (seg_inv [] (put_front s it e data stamp)) as Hs'.
  { split; seg_simpl; try done.
    - cbn [ce_key]. rewrite (index_ok_id it (ce_key e) _ _ si_index0) by apply list_elem_of_here. exact si_index0.
    - constructor; done.
    - rewrite total_cons. cbn [snd ce_data]. lia.
    - cbn [app] in *. apply Forall_cons in si_next0 as [? ?]. now constructor. }
  split; [split; [done|]; seg_simpl; lia|]. apply map_eq. intros k. apply option_eq. intros v.
  rewrite lookup_insert_Some, (contents_spec [] _ Hs'), (contents_spec _ _ Hs). seg_simpl. split.
  - intros (i & e' & [[= -> ->]|Hin]%elem_of_cons & Hk & ->); cbn in *; [now left|right]. split; [|eauto].
    intros E. rewrite <- E in Hk. pose proof (ids_nodup _ _ Hs) as Hn. cbn [app] in Hn. rewrite fmap_cons in Hn.
    assert (sg_entry_map s !! ce_key e = Some it) as E1.
    { apply (map_lookup _ _ Hs). exists e. split; [apply list_elem_of_here|done]. }
    assert (sg_entry_map s !! ce_key e = Some i) as E2.
    { apply (map_lookup _ _ Hs). exists e'. split; [|done]. apply elem_of_app. right. apply elem_of_app. now left. }
    rewrite E1 in E2. injection E2 as ->. apply NoDup_cons in Hn as [Hn _]. apply Hn. cbn.
    rewrite fmap_app. apply elem_of_app. left. apply list_elem_of_fmap. now exists (i, e').
  - intros [[<- <-]|(Hne & i & e' & Hin & Hk & ->)].
    + eexists it, _. split; [apply list_elem_of_here|]. done.
    + exists i, e'. split; [now apply list_elem_of_further|done].
Qed.

Lemma drop_limbo s it e :
  seg_inv [(it, e)] s -> let s' := set_map s (delete (ce_key e) (sg_entry_map s)) in
  seg_inv [] s' /\ contents s' = contents s.
Proof.
  intros Hs. cbv zeta. assert (seg_inv [] (set_map s (delete (ce_key e) (sg_entry_map s)))) as Hs'.
  { pose proof Hs as []. split; seg_simpl; try done.
    - now apply (index_ok_delete it).
    - cbn [app] in *. now apply Forall_cons in si_next0 as [_ ?]. }
  split; [done|]. apply map_eq. intros k. apply option_eq. intros v.
  now rewrite (contents_spec [] _ Hs'), (contents_spec _ _ Hs).
Qed.

(** What an iterator of the map names. *)
Lemma node_at_spec s k it :
  seg_inv [] s -> sg_entry_map s !! k = Some it ->
  exists e, node_at s it = Some e /\ ce_key e = k /\
    if ce_in_cache e then deref (sg_active s) it = Some e else deref (sg_history s) it = Some e.
Proof.
  intros Hs (e & Hin & Hk)%(map_lookup _ _ Hs). destruct (lists_nodup _ _ Hs) as (Ha & Hh & Hn).
  exists e. split; [now apply elem_deref|]. split; [done|]. cbn [app] in Hin. apply elem_of_app in Hin as [Hin|Hin].
  - pose proof (proj1 (Forall_forall _ _) (si_active _ _ Hs) _ Hin) as E. unfold in_memory in E. cbn in E. rewrite E.
    now apply elem_deref.
  - pose proof (proj1 (Forall_forall _ _) (si_history _ _ Hs) _ Hin) as E. unfold in_history in E. cbn in E. rewrite E.
    now apply elem_deref.
Qed.

Lemma contents_lookup s k it e :
  seg_inv [] s -> sg_entry_map s !! k = Some it -> node_at s it = Some e ->
  contents s !! k = if ce_in_cache e then Some (ce_data e, ce_stamp e) else None.
Proof.
  intros Hs Hm Hat. destruct (node_at_spec s k it Hs Hm) as (e' & Hat' & Hk & Hd).
  rewrite Hat in Hat'. injection Hat' as <-. unfold contents. rewrite lookup_omap, Hm. cbn.
  destruct (ce_in_cache e); [now rewrite Hd|]. destruct (deref (sg_active s) it) as [e2|] eqn:E2; [|done]. exfalso.
  destruct (lists_nodup _ _ Hs) as (_ & _ & Hn). rewrite fmap_app in Hn. apply NoDup_app in Hn as (_ & Hdj & _).
  apply (Hdj it); apply list_elem_of_fmap; [exists (it, e2)|exists (it, e)]; (split; [done|]); now apply deref_elem.
Qed.

(** Changing the hit count of a node. *)
Lemma assign_map (l : list (nat * Entry)) it e e' :
  deref l it = Some e -> NoDup l.*1 -> ce_key e' = ce_key e -> pairs (assign l it e') = pairs l.
Proof.
  intros Hd Hn Hk. unfold pairs, assign. rewrite <- (list_fmap_compose _ _ l). apply list_fmap_ext.
  intros i [j x] Hi. cbn. case_decide as Hj; [|done]. subst j. f_equal.
  apply list_elem_of_lookup_2, (elem_deref _ _ _ Hn) in Hi. cbn. congruence.
Qed.

Lemma assign_absent (l : list (nat * Entry)) it e : it ∉ l.*1 -> assign l it e = l.
Proof.
  induction l as [|[j x] l IH]; [done|]. rewrite fmap_cons. intros [Hj Hl]%not_elem_of_cons.
  cbn [assign map fst]. rewrite decide_False by (cbn in Hj; congruence). f_equal. now apply IH.
Qed.

Lemma deref_absent {A} (l : list (nat * A)) it a : deref l it = Some a -> it ∈ l.*1.
Proof. intros H%deref_elem. apply list_elem_of_fmap. now exists (it, a). Qed.

Lemma write_hits_spec s k it e h :
  seg_ok s -> sg_entry_map s !! k = Some it -> node_at s it = Some e ->
  let s' := write_node s it (set_hits e h) in seg_ok s' /\ contents s' = contents s.
Proof.
  intros [Hs Hb] Hm Hat. cbv zeta. destruct (node_at_spec s k it Hs Hm) as (e0 & Hat0 & Hk & Hd).
  rewrite Hat in Hat0. injection Hat0 as <-. destruct (lists_nodup _ _ Hs) as (Ha & Hh & Hn).
  pose proof Hn as Hn'. rewrite fmap_app in Hn'. apply NoDup_app in Hn' as (_ & Hdj & _). destruct (ce_in_cache e) eqn:Ec.
  - assert (assign (sg_history s) it (set_hits e h) = sg_history s) as Eh.
    { apply assign_absent. intros Hin. now apply (Hdj it (deref_absent _ _ _ Hd)). }
    pose proof (assign_perm _ _ _ (set_hits e h) Ha Hd) as Hp. pose proof (erase_perm _ _ _ Ha Hd) as Hp0.
    assert (total (assign (sg_active s) it (set_hits e h)) = total (sg_active s)) as Ht
      by (rewrite (total_perm _ _ Hp), (total_perm _ _ Hp0); done).
    assert (seg_inv [] (write_node s it (set_hits e h))) as Hs'.
    { pose proof Hs as []. split; seg_simpl; rewrite ?Eh, ?Ht; try done.
      - cbn [app] in *. rewrite pairs_app in *. now rewrite (assign_map _ _ e).
      - rewrite Hp0 in si_active0. rewrite Hp. apply Forall_cons in si_active0 as [? ?]. now constructor.
      - cbn [app] in *. rewrite Hp0 in si_next0. rewrite Hp. apply Forall_app in si_next0 as [[? ?]%Forall_cons ?].
        apply Forall_app. split; [now constructor|done]. }
    split; [split; [done|]; seg_simpl; done|]. apply map_eq. intros k'. apply option_eq. intros v.
    rewrite (contents_spec [] _ Hs'), (contents_spec [] _ Hs). seg_simpl. split; intros (i & x & Hin & Hx).
    + rewrite Hp in Hin. apply elem_of_cons in Hin as [[= -> ->]|Hin]; [exists it, e|exists i, x]; (split; [|done]);
        rewrite Hp0; [apply list_elem_of_here|now apply list_elem_of_further].
    + rewrite Hp0 in Hin. apply elem_of_cons in Hin as [[= -> ->]|Hin];
        [exists it, (set_hits e h)|exists i, x]; (split; [|done]);
        rewrite Hp; [apply list_elem_of_here|now apply list_elem_of_further].
  - assert (assign (sg_active s) it (set_hits e h) = sg_active s) as Ea.
    { apply assign_absent. intros Hin. now apply (Hdj it Hin (deref_absent _ _ _ Hd)). }
    pose proof (assign_perm _ _ _ (set_hits e h) Hh Hd) as Hp. pose proof (erase_perm _ _ _ Hh Hd) as Hp0.
    assert (seg_inv [] (write_node s it (set_hits e h))) as Hs'.
    { pose proof Hs as []. split; seg_simpl; rewrite ?Ea; try done.
      - cbn [app] in *. rewrite pairs_app in *. now rewrite (assign_map (sg_history s) _ e).
      - rewrite Hp0 in si_history0. rewrite Hp. apply Forall_cons in si_history0 as [? ?]. now constructor.
      - cbn [app] in *. rewrite Hp0 in si_next0. rewrite Hp. apply Forall_app in si_next0 as [? [? ?]%Forall_cons].
        apply Forall_app. split; [done|now constructor]. }
    split; [split; [done|]; seg_simpl; done|]. apply map_eq. intros k'. apply option_eq. intros v.
    rewrite (contents_spec [] _ Hs'), (contents_spec [] _ Hs). seg_simpl. now rewrite Ea.
Qed.

Lemma count_get_ok s hit : seg_ok s -> seg_ok (count_get s hit) /\ contents (count_get s hit) = contents s.
Proof. intros [[] ?]. done. Qed.

Lemma seg_get_spec rk s :
  seg_ok s -> exists s', seg_get rk s = Some (contents s !! rk, s') /\ seg_ok s' /\ contents s' = contents s.
Proof.
  intros Hok. unfold seg_get. destruct (sg_entry_map s !! rk) as [it|] eqn:E.
  - destruct (node_at_spec s rk it (sk_inv s Hok) E) as (e & Hat & Hk & Hd). rewrite Hat. cbn [mbind option_bind].
    pose proof (contents_lookup s rk it e (sk_inv s Hok) E Hat) as Hc. destruct (ce_in_cache e); cbn [negb].
    + rewrite Hc. eexists. split; [reflexivity|].
      destruct (write_hits_spec s rk it e (saturating_increment (ce_hits e)) Hok E Hat) as [H1 H2].
      destruct (count_get_ok _ true H1) as [H3 H4]. split; [exact H3|]. now rewrite H4.
    + rewrite Hc. eexists. split; [reflexivity|]. apply (count_get_ok s false Hok).
  - assert (contents s !! rk = None) as -> by (unfold contents; now rewrite lookup_omap, E).
    eexists. split; [reflexivity|]. apply (count_get_ok s false Hok).
Qed.

Lemma take_node_some (l : list (nat * Entry)) it e : deref l it = Some e -> take_node l it = Some (erase l it).
Proof. intros H. unfold take_node. now rewrite H. Qed.

(** Room made around a node in limbo, then the node in front. *)
Lemma limbo_put s s1 it e data stamp :
  seg_ok s -> seg_inv [(it, e)] s1 -> kept s s1 -> sg_max_bytes s1 = sg_max_bytes s -> size_of data <= sg_max_bytes s ->
  let s' := put_front (evict_if_needed (size_of data) s1) it e data stamp in
  seg_ok s' /\ contents s' ⊆ <[ce_key e := (data, stamp)]> (contents s) /\
  contents s' !! ce_key e = Some (data, stamp).
Proof.
  intros Hok H1 Hk Hm Hsz. cbv zeta. pose proof (size_of_nonneg data).
  destruct (evict_spec (size_of data) _ s1 H1 ltac:(lia)) as (H2 & Hk2 & Hm2 & Hroom).
  destruct (put_front_spec _ it e data stamp H2 ltac:(lia)) as [H3 Hc]. split; [done|]. rewrite Hc.
  split; [|apply lookup_insert_eq]. apply insert_mono.
  apply (kept_contents [] [(it, e)]); [apply Hok|done|now apply (kept_trans s s1)].
Qed.

Lemma set_seen_ok s l : seg_ok s -> (0 < length l)%nat -> seg_ok (set_seen s l) /\ contents (set_seen s l) = contents s.
Proof. intros [[] ?] Hl. done. Qed.

Lemma new_node_spec s rk data stamp :
  seg_inv [] s -> sg_entry_map s !! rk = None -> total (sg_active s) + size_of data <= sg_max_bytes s ->
  let it := sg_next s in
  let e := {| ce_key := rk; ce_data := data; ce_hits := 0; ce_in_cache := true; ce_stamp := stamp |} in
  let s' := {| sg_max_bytes := sg_max_bytes s; sg_bytes_used := u64 (sg_bytes_used s + size_of data);
               sg_active := (it, e) :: sg_active s; sg_history := sg_history s;
               sg_entry_map := <[rk := it]> (sg_entry_map s); sg_seen_filter := sg_seen_filter s;
               sg_average := sg_average s; sg_hits := sg_hits s; sg_misses := sg_misses s;
               sg_evictions := sg_evictions s; sg_next := S it |} in
  seg_ok s' /\ contents s' = <[rk := (data, stamp)]> (contents s).
Proof.
  intros Hs Hnew Hroom it e s'. pose proof (total_nonneg (sg_active s)). pose proof (size_of_nonneg data).
  pose proof Hs as []. assert (u64 (sg_bytes_used s + size_of data) = size_of data + total (sg_active s)) as Hb.
  { unfold u64. rewrite wrap_small by (unfold fits; lia). lia. }
  assert (seg_inv [] s') as Hs'.
  { unfold s'. split; seg_simpl; try done.
    - cbn [app]. change (pairs (((it, e) :: sg_active s) ++ sg_history s)) with ((it, rk) :: pairs (sg_active s ++ sg_history s)).
      apply index_ok_insert; [done|done|]. rewrite pairs_ids. intros ([i x] & E & Hin)%list_elem_of_fmap.
      apply (proj1 (Forall_forall _ _) si_next0) in Hin. cbn in *. unfold it in E. lia.
    - constructor; done.
    - rewrite total_cons. cbn [snd ce_data e]. lia.
    - cbn [app] in *. constructor; [cbn; lia|]. eapply Forall_impl; [exact si_next0|]. cbn. unfold it. lia. }
  split; [split; [done|]; unfold s'; seg_simpl; lia|]. apply map_eq. intros k. apply option_eq. intros v.
  rewrite lookup_insert_Some, (contents_spec [] _ Hs'), (contents_spec [] _ Hs). unfold s'. seg_simpl. split.
  - intros (i & x & [[= -> ->]|Hin]%elem_of_cons & Hk & ->); [now left|right]. split; [|eauto].
    intros <-. assert (sg_entry_map s !! rk = Some i); [|congruence].
    apply (map_lookup _ _ Hs). exists x. split; [|done]. cbn [app]. apply elem_of_app. now left.
  - intros [[<- <-]|(Hne & i & x & Hin & Hk & ->)].
    + exists it, e. split; [apply list_elem_of_here|done].
    + exists i, x. split; [now apply list_elem_of_further|done].
Qed.

(** Making room adds no key. *)
Lemma trim_map_none fuel s k : sg_entry_map s !! k = None -> sg_entry_map (trim_history fuel s) !! k = None.
Proof.
  revert s. induction fuel as [|fuel IH]; intros s Hk; cbn [trim_history]; [done|].
  destruct (_ <? _)%nat; [|done]. destruct (last (sg_history s)) as [[it old]|]; [|done]. apply IH. seg_simpl.
  apply lookup_delete_None. now right.
Qed.

Lemma evict_map_none fuel q required limbo s k :
  seg_inv limbo s -> sg_entry_map s !! k = None -> sg_entry_map (evict_loop fuel q required s) !! k = None.
Proof.
  revert q s. induction fuel as [|fuel IH]; intros q s Hs Hk; cbn [evict_loop]; [done|].
  destruct (_ <? _); [|done]. destruct (last (sg_active s)) as [[it v]|] eqn:El; [|done]. destruct (_ && _).
  - apply IH; [now apply (requeue_spec limbo s it v)|done].
  - apply IH; [now apply (evict_one_spec limbo s it v)|]. unfold evict_one. apply trim_map_none. seg_simpl.
    apply lookup_insert_None. split; [done|]. intros <-.
    destruct (lists_nodup _ _ Hs) as (Ha & _). destruct (last_erase _ _ _ Ha El) as [_ Hd].
    assert (sg_entry_map s !! ce_key v = Some it); [|congruence].
    apply (map_lookup _ _ Hs). exists v. split; [|done]. apply elem_of_app. right. apply elem_of_app. left. now apply deref_elem.
Qed.

Lemma seg_put_spec rk data verdict stamp s :
  seg_ok s ->
  exists b s', seg_put rk data verdict stamp s = Some (b, s') /\ seg_ok s' /\
    (b = true -> verdict = true /\ contents s' ⊆ <[rk := (data, stamp)]> (contents s) /\
                 contents s' !! rk = Some (data, stamp)) /\
    (b = false -> contents s' = contents s).
Proof.
  intros Hok. unfold seg_put. destruct (Z.ltb_spec (sg_max_bytes s) (size_of data)) as [|Hsz]; [now exists false, s|].
  destruct verdict; cbn [negb]; [|now exists false, s]. pose proof (sk_inv s Hok) as Hs.
  destruct (sg_entry_map s !! rk) as [it|] eqn:E.
  - destruct (node_at_spec s rk it Hs E) as (e & Hat & <- & Hd). rewrite Hat. cbn [mbind option_bind].
    destruct (ce_in_cache e) eqn:Ec.
    + seg_simpl. rewrite (take_node_some _ _ _ Hd). cbn [mbind option_bind].
      destruct (take_active s it e Hs Hd) as [H1 Hk]. set (s1 := set_lists _ _ _) in *.
      destruct (limbo_put s s1 it e data stamp Hok H1 Hk eq_refl Hsz) as (H2 & H3 & H4).
      eexists true, _. split; [reflexivity|]. split; [exact H2|]. split; [intros _; done|done].
    + destruct (_ || _).
      * unfold promote_from_history. rewrite (take_node_some _ _ _ Hd). cbn [mbind option_bind].
        pose proof (take_history s it e Hs Hd) as H1. set (s1 := set_lists _ _ _) in *.
        destruct (limbo_put s s1 it e data stamp Hok H1 (kept_refl s) eq_refl Hsz) as (H2 & H3 & H4).
        eexists true, _. split; [reflexivity|]. split; [exact H2|]. split; [intros _; done|done].
      * destruct (write_hits_spec s (ce_key e) it e (saturating_increment (ce_hits e)) Hok E Hat) as [H1 H2].
        eexists false, _. split; [reflexivity|]. done.
  - destruct (negb (check_seen s rk)).
    + unfold mark_seen. destruct (set_seen_ok s (<[seen_index s rk := compute_seen_tag rk]> (sg_seen_filter s)) Hok) as [H1 H2].
      { rewrite length_insert. apply Hs. }
      eexists false, _. split; [reflexivity|]. done.
    + pose proof (size_of_nonneg data).
      destruct (evict_spec (size_of data) [] s Hs ltac:(lia)) as (H1 & Hk & Hm & Hroom).
      assert (sg_entry_map (evict_if_needed (size_of data) s) !! rk = None) as Hnone by now apply (evict_map_none _ _ _ []).
      destruct (new_node_spec _ rk data stamp H1 Hnone ltac:(lia)) as [H2 H3].
      eexists true, _. split; [reflexivity|]. split; [exact H2|]. split; [intros _|done]. split; [done|].
      rewrite H3. split; [|apply lookup_insert_eq]. apply insert_mono. now apply (kept_contents [] [] s).
Qed.

Lemma drop_node_spec s rk it :
  seg_ok s -> sg_entry_map s !! rk = Some it ->
  exists s', drop_node s rk it = Some s' /\ seg_ok s' /\ contents s' = delete rk (contents s) /\
    sg_entry_map s' = delete rk (sg_entry_map s).
Proof.
  intros Hok E. pose proof (sk_inv s Hok) as Hs. destruct (node_at_spec s rk it Hs E) as (e & Hat & <- & Hd).
  assert (forall s1, seg_inv [(it, e)] s1 -> sg_entry_map s1 = sg_entry_map s -> sg_max_bytes s1 = sg_max_bytes s ->
    (forall n, n ∈ sg_active s1 <-> n ∈ sg_active s /\ n.1 <> it) -> total (sg_active s1) <= total (sg_active s) ->
    let s' := set_map s1 (delete (ce_key e) (sg_entry_map s1)) in
    seg_ok s' /\ contents s' = delete (ce_key e) (contents s)) as Hfin.
  { intros s1 H1 Em Eb Hel Htot. cbv zeta. destruct (drop_limbo s1 it e H1) as [H2 H3]. pose proof (sk_budget s Hok).
    pose proof (si_bytes _ _ Hs). pose proof (si_bytes _ _ H1). split; [split; [done|]; seg_simpl; lia|].
    rewrite H3. apply map_eq. intros k. apply option_eq. intros v.
    rewrite lookup_delete_Some, (contents_spec _ _ H1), (contents_spec _ _ Hs).
    assert (forall i x, (i, x) ∈ sg_active s -> ce_key x = ce_key e <-> i = it) as Huniq.
    { intros i x Hin. assert ((i, x) ∈ [] ++ sg_active s ++ sg_history s) as Hin' by (cbn [app]; apply elem_of_app; now left).
      split; [intros Hk|intros ->].
      - assert (sg_entry_map s !! ce_key e = Some i); [|congruence]. apply (map_lookup _ _ Hs). now exists x.
      - apply (elem_deref _ _ _ (ids_nodup _ _ Hs)) in Hin'. cbn [app] in Hin'. unfold node_at in Hat. congruence. }
    split.
    - intros (i & x & [Hin Hne]%Hel & <- & ->). split; [|eauto]. intros Hk. apply Hne. now apply (Huniq i x Hin).
    - intros (Hne & i & x & Hin & <- & ->). exists i, x. split; [|done]. apply Hel. split; [done|]. cbn. intros ->.
      apply Hne. symmetry. now apply (Huniq it x Hin). }
  unfold drop_node. rewrite Hat. cbn [mbind option_bind]. destruct (ce_in_cache e).
  - seg_simpl. rewrite (take_node_some _ _ _ Hd). cbn [mbind option_bind]. destruct (take_active s it e Hs Hd) as [H1 _].
    destruct (Hfin _ H1 eq_refl eq_refl) as [H2 H3].
    + intros n. seg_simpl. rewrite elem_erase. tauto.
    + seg_simpl. destruct (lists_nodup _ _ Hs) as (Ha & _). rewrite (total_perm _ _ (erase_perm _ _ _ Ha Hd)), total_cons.
      pose proof (size_of_nonneg (ce_data (it, e).2)). lia.
    + eexists. split; [reflexivity|]. done.
  - rewrite (take_node_some _ _ _ Hd). cbn [mbind option_bind]. pose proof (take_history s it e Hs Hd) as H1.
    destruct (Hfin _ H1 eq_refl eq_refl) as [H2 H3].
    + intros n. seg_simpl. split; [|tauto]. intros Hin. split; [done|]. destruct (lists_nodup _ _ Hs) as (_ & _ & Hn).
      rewrite fmap_app in Hn. apply NoDup_app in Hn as (_ & Hdj & _). intros <-.
      apply (Hdj n.1); [apply list_elem_of_fmap; now exists n|]. now apply (deref_absent _ _ e).
    + seg_simpl. lia.
    + eexists. split; [reflexivity|]. done.
Qed.

Lemma seg_remove_spec rk s :
  seg_ok s ->
  exists b s', seg_remove rk s = Some (b, s') /\ seg_ok s' /\ contents s' = delete rk (contents s) /\
    (is_Some (contents s !! rk) -> b = true).
Proof.
  intros Hok. unfold seg_remove. destruct (sg_entry_map s !! rk) as [it|] eqn:E.
  - destruct (drop_node_spec s rk it Hok E) as (s' & -> & H1 & H2 & _). cbn. now exists true, s'.
  - exists false, s. assert (contents s !! rk = None) as Hn by (unfold contents; now rewrite lookup_omap, E).
    split; [done|]. split; [done|]. split; [now rewrite delete_id|]. rewrite Hn. now intros [? ?].
Qed.

Lemma seg_remove_scan_spec key l s :
  seg_ok s -> NoDup l.*1 -> (forall rk it, (rk, it) ∈ l -> cache_key rk = key -> sg_entry_map s !! rk = Some it) ->
  exists s', seg_remove_scan key l s = Some s' /\ seg_ok s' /\
    forall k, contents s' !! k = if decide (cache_key k = key /\ k ∈ l.*1) then None else contents s !! k.
Proof.
  revert s. induction l as [|[rk it] l IH]; intros s Hok Hn Hl; cbn [seg_remove_scan].
  { exists s. split; [done|]. split; [done|]. intros k. rewrite decide_False; [done|]. now intros [_ ?%elem_of_nil]. }
  rewrite fmap_cons in *. apply NoDup_cons in Hn as [Hrk Hn]. cbn [fst] in *.
  destruct (decide (cache_key rk = key)) as [Hk|Hk].
  - destruct (drop_node_spec s rk it Hok (Hl rk it (list_elem_of_here _ _) Hk)) as (s1 & -> & Hok1 & Hc1 & Hm1). cbn.
    destruct (IH s1 Hok1 Hn) as (s' & Hr & Hok' & Hcon).
    { intros rk' it' Hin Hk'. rewrite Hm1, lookup_delete_ne; [apply Hl; [now apply list_elem_of_further|done]|].
      intros <-. apply Hrk. apply list_elem_of_fmap. now exists (rk, it'). }
    exists s'. split; [done|]. split; [done|]. intros k. rewrite Hcon, Hc1. destruct (decide (k = rk)) as [->|Hne].
    + rewrite lookup_delete_eq. rewrite (decide_True (P := cache_key rk = key /\ rk ∈ rk :: l.*1)); [now case_decide|].
      split; [done|apply list_elem_of_here].
    + rewrite lookup_delete_ne by done. apply decide_ext. rewrite elem_of_cons. intuition congruence.
  - destruct (IH s Hok Hn) as (s' & Hr & Hok' & Hcon).
    { intros rk' it' Hin. apply Hl. now apply list_elem_of_further. }
    exists s'. split; [done|]. split; [done|]. intros k. rewrite Hcon. apply decide_ext.
    rewrite elem_of_cons. intuition congruence.
Qed.

Lemma seg_remove_all_spec key s :
  seg_ok s -> exists s', seg_remove_all key s = Some s' /\ seg_ok s' /\ contents s' = other_keys key (contents s).
Proof.
  intros Hok. unfold seg_remove_all.
  destruct (seg_remove_scan_spec key (map_to_list (sg_entry_map s)) s Hok) as (s' & -> & Hok' & Hcon).
  { apply NoDup_fst_map_to_list. }
  { intros rk it Hin _. now apply elem_of_map_to_list. }
  exists s'. split; [done|]. split; [done|]. apply map_eq. intros k. rewrite Hcon. unfold other_keys.
  destruct (contents s !! k) as [v|] eqn:E.
  - case_decide as Hd.
    + symmetry. apply map_lookup_filter_None. right. intros v' _. cbn. tauto.
    + symmetry. apply map_lookup_filter_Some. split; [done|]. cbn. intros Hk. apply Hd. split; [done|].
      unfold contents in E. rewrite lookup_omap in E. destruct (sg_entry_map s !! k) as [it|] eqn:Em; [|done].
      apply list_elem_of_fmap. exists (k, it). split; [done|]. now apply elem_of_map_to_list.
  - rewrite (proj2 (map_lookup_filter_None _ _ _)) by now left. now case_decide.
Qed.

Lemma empty_index : index_ok [] ∅.
Proof. split; [apply NoDup_nil_2|]. intros k it. rewrite lookup_empty. split; [done|]. now intros ?%elem_of_nil. Qed.

Lemma contents_empty s : sg_entry_map s = ∅ -> contents s = ∅.
Proof. intros E. apply map_eq. intros k. unfold contents. now rewrite lookup_omap, E, !lookup_empty. Qed.

Lemma seg_clear_spec s : seg_ok s -> seg_ok (seg_clear s) /\ contents (seg_clear s) = ∅.
Proof.
  intros [[] ?]. split; [|now apply contents_empty]. split; [|cbn; lia]. split; seg_simpl; try done.
  - apply empty_index.
  - now rewrite length_replicate.
Qed.

Lemma new_segment_ok max_bytes n :
  0 <= max_bytes < 2 ^ 62 -> 0 < n -> seg_ok (new_segment max_bytes n) /\ contents (new_segment max_bytes n) = ∅.
Proof.
  intros Hm Hn. split; [|now apply contents_empty]. split; [|cbn; lia]. unfold new_segment. split; seg_simpl; try done.
  - apply empty_index.
  - rewrite length_replicate. lia.
Qed.

(** ** The segmented cache *)

Definition bit_ceil (x : Z) : Z := 2 ^ Z.log2_up x.
Definition bit_floor (x : Z) : Z := 2 ^ Z.log2 x.
Definition clamp (x lo hi : Z) : Z := if x <? lo then lo else if hi <? x then hi else x.

(** [hw]: what [std::thread::hardware_concurrency] answers. *)
Definition pick_segment_count (hw max_bytes : Z) : Z :=
  let hw := if hw =? 0 then 8 else hw in
  let by_cores := bit_ceil (clamp (2 * hw) 8 64) in
  let by_budget := bit_floor (Z.max (max_bytes / MIN_SEGMENT_BYTES) 1) in
  Z.min by_cores by_budget.

Record RamCacheCLFUS := { cl_max_bytes : Z; cl_segments : list Segment; cl_shard_mask : Z }.

Definition new_clfus (hw max_bytes : Z) : RamCacheCLFUS :=
  let num_segments := pick_segment_count hw max_bytes in
  let per_segment_bytes := Z.max (max_bytes / num_segments) 1 in
  let per_segment_filter := Z.max (SEEN_FILTER_SIZE / num_segments) MIN_SEEN_FILTER_PER_SEGMENT in
  {| cl_max_bytes := max_bytes;
     cl_segments := replicate (Z.to_nat num_segments) (new_segment per_segment_bytes per_segment_filter);
     cl_shard_mask := num_segments - 1 |}.

(** The index of [segment_for]. *)
Definition segment_for (c : RamCacheCLFUS) (key : CacheKey) : nat :=
  let h := u64 (key_hash key * 0x9E3779B97F4A7C15) in
  Z.to_nat ((h >> 33) .& cl_shard_mask c).

Definition set_segment (c : RamCacheCLFUS) (i : nat) (s : Segment) : RamCacheCLFUS :=
  {| cl_max_bytes := cl_max_bytes c; cl_segments := <[i := s]> (cl_segments c); cl_shard_mask := cl_shard_mask c |}.

(** A routed operation; an index past the vector is undefined behaviour. *)
Definition on_segment {R} (c : RamCacheCLFUS) (key : CacheKey) (f : Segment -> option (R * Segment))
  : option (R * RamCacheCLFUS) :=
  s ← cl_segments c !! segment_for c key;
  '(r, s) ← f s;
  Some (r, set_segment c (segment_for c key) s).

Definition get (rk : RamCacheKey) (c : RamCacheCLFUS) : option (option (list Z * Z) * RamCacheCLFUS) :=
  on_segment c (cache_key rk) (seg_get rk).
Definition put_if (rk : RamCacheKey) (data : list Z) (predicate : bool) (stamp : Z) (c : RamCacheCLFUS)
  : option (bool * RamCacheCLFUS) :=
  on_segment c (cache_key rk) (seg_put rk data predicate stamp).
Definition remove (rk : RamCacheKey) (c : RamCacheCLFUS) : option (bool * RamCacheCLFUS) :=
  on_segment c (cache_key rk) (seg_remove rk).
Definition remove_all (key : CacheKey) (c : RamCacheCLFUS) : option RamCacheCLFUS :=
  '(_, c) ← on_segment c key (fun s => s ← seg_remove_all key s; Some (tt, s)); Some c.
Definition clear (c : RamCacheCLFUS) : RamCacheCLFUS :=
  {| cl_max_bytes := cl_max_bytes c; cl_segments := map seg_clear (cl_segments c);
     cl_shard_mask := cl_shard_mask c |}.

Definition bytes_used (c : RamCacheCLFUS) : Z := foldr (fun s acc => sg_bytes_used s + acc) 0 (cl_segments c).
Definition entry_count (c : RamCacheCLFUS) : Z :=
  foldr (fun s acc => Z.of_nat (size (sg_entry_map s)) + acc) 0 (cl_segments c).

Record clfus_ok (c : RamCacheCLFUS) : Prop := {
  co_mask : exists k, 0 <= k /\ cl_shard_mask c = 2 ^ k - 1 /\ Z.of_nat (length (cl_segments c)) = 2 ^ k;
  co_segs : Forall seg_ok (cl_segments c);
  co_route i s rk : cl_segments c !! i = Some s -> is_Some (contents s !! rk) -> segment_for c (cache_key rk) = i;
  co_budget : exists per, Forall (fun s => sg_max_bytes s = per) (cl_segments c) /\
    Z.of_nat (length (cl_segments c)) * per <= cl_max_bytes c;
}.

Definition all_contents (c : RamCacheCLFUS) : contents_map := foldr (fun s m => contents s ∪ m) ∅ (cl_segments c).

Section routed.
Context (c : RamCacheCLFUS) (Hc : clfus_ok c).

Lemma segment_for_bound key : exists s, cl_segments c !! segment_for c key = Some s /\ seg_ok s.
Proof using Hc.
  destruct (co_mask c Hc) as (k & Hk & Em & El).
  assert (segment_for c key < length (cl_segments c))%nat as Hlt.
  { unfold segment_for. rewrite Em, land_ones_wrap by done. unfold wrap.
    pose proof (Z.mod_pos_bound (Z.shiftr (u64 (key_hash key * 0x9E3779B97F4A7C15)) 33) (2 ^ k) ltac:(lia)). lia. }
  apply lookup_lt_is_Some in Hlt as [s Hs]. exists s. split; [done|].
  apply (proj1 (Forall_lookup _ _) (co_segs c Hc) _ _ Hs).
Qed.

Lemma union_lookup (l : list Segment) rk v :
  foldr (fun s m => contents s ∪ m) ∅ l !! rk = Some v -> exists i s, l !! i = Some s /\ contents s !! rk = Some v.
Proof using.
  induction l as [|s l IH]; cbn [foldr]; [now rewrite lookup_empty|].
  intros [H|[_ H]]%lookup_union_Some_raw; [now exists 0%nat, s|]. destruct (IH H) as (i & s' & ? & ?). now exists (S i), s'.
Qed.

Lemma lookup_union_first (l : list Segment) i s rk v :
  l !! i = Some s -> contents s !! rk = Some v ->
  (forall j s', l !! j = Some s' -> is_Some (contents s' !! rk) -> j = i) ->
  foldr (fun s m => contents s ∪ m) ∅ l !! rk = Some v.
Proof using.
  revert i. induction l as [|s0 l IH]; intros i Hi Hv Hu; [done|]. cbn [foldr]. apply lookup_union_Some_raw.
  destruct i as [|i]; [left; now injection Hi as ->|right]. split.
  - destruct (contents s0 !! rk) as [w|] eqn:E; [|done]. discriminate (Hu 0%nat s0 eq_refl ltac:(eauto)).
  - apply (IH i Hi Hv). intros j s' Hj Hs'. specialize (Hu (S j) s' Hj Hs'). lia.
Qed.

Lemma all_contents_lookup rk s :
  cl_segments c !! segment_for c (cache_key rk) = Some s -> all_contents c !! rk = contents s !! rk.
Proof using Hc.
  intros Hs. apply option_eq. intros v. split.
  - intros (i & s' & Hi & Hv)%union_lookup. pose proof (co_route c Hc i s' rk Hi ltac:(eauto)) as E.
    rewrite E in Hs. congruence.
  - intros Hv. apply (lookup_union_first _ _ s _ _ Hs Hv). intros j s' Hj Hsome.
    symmetry. now apply (co_route c Hc j s' rk).
Qed.

End routed.

(** Replacing the segment a key routes to. *)
Lemma set_segment_spec c key s s' :
  clfus_ok c -> cl_segments c !! segment_for c key = Some s -> seg_ok s' -> sg_max_bytes s' = sg_max_bytes s ->
  (forall rk, is_Some (contents s' !! rk) -> is_Some (contents s !! rk) \/ cache_key rk = key) ->
  let c' := set_segment c (segment_for c key) s' in
  clfus_ok c' /\ forall rk, all_contents c' !! rk =
    if decide (segment_for c (cache_key rk) = segment_for c key) then contents s' !! rk else all_contents c !! rk.
Proof.
  intros Hc Hs Hok' Hm Hsub. cbv zeta. pose proof (lookup_lt_Some _ _ _ Hs) as Hi.
  assert (clfus_ok (set_segment c (segment_for c key) s')) as Hc'.
  { destruct (co_mask c Hc) as (k & Hk). destruct (co_budget c Hc) as (per & Hper & Hb).
    split; cbn [set_segment cl_max_bytes cl_segments cl_shard_mask].
    - exists k. now rewrite length_insert.
    - apply Forall_insert; [apply Hc|done].
    - intros j s0 rk Hj Hsome. unfold segment_for at 1. cbn [set_segment cl_shard_mask]. fold (segment_for c (cache_key rk)).
      apply list_lookup_insert_Some in Hj as [(<- & <- & _)|[Hne Hj]]; [|now apply (co_route c Hc j s0)].
      destruct (Hsub rk Hsome) as [H|<-]; [now apply (co_route c Hc _ s)|done].
    - exists per. rewrite length_insert. split; [|done]. apply Forall_insert; [done|]. rewrite Hm.
      apply (proj1 (Forall_lookup _ _) Hper _ _ Hs). }
  split; [done|]. intros rk. destruct (segment_for_bound c Hc (cache_key rk)) as (s0 & Hs0 & _).
  case_decide as Hd.
  - apply (all_contents_lookup _ Hc'). cbn [set_segment cl_segments]. 
    change (segment_for (set_segment c (segment_for c key) s') (cache_key rk)) with (segment_for c (cache_key rk)).
    rewrite Hd. now apply list_lookup_insert_eq.
  - rewrite (all_contents_lookup c Hc rk s0 Hs0). apply (all_contents_lookup _ Hc'). cbn [set_segment cl_segments].
    change (segment_for (set_segment c (segment_for c key) s') (cache_key rk)) with (segment_for c (cache_key rk)).
    rewrite list_lookup_insert_ne by congruence. done.
Qed.

(** A routed operation that changes at most the entries of [key] and drops
    others acts on the whole contents as on the segment's. *)
Lemma on_segment_spec {R} c key (f : Segment -> option (R * Segment)) s r s' :
  clfus_ok c -> cl_segments c !! segment_for c key = Some s -> f s = Some (r, s') -> seg_ok s' ->
  sg_max_bytes s' = sg_max_bytes s ->
  (forall rk, is_Some (contents s' !! rk) -> is_Some (contents s !! rk) \/ cache_key rk = key) ->
  exists c', on_segment c key f = Some (r, c') /\ clfus_ok c' /\ cl_max_bytes c' = cl_max_bytes c /\
    forall rk, all_contents c' !! rk =
      if decide (segment_for c (cache_key rk) = segment_for c key) then contents s' !! rk else all_contents c !! rk.
Proof.
  intros Hc Hs Hf Hok' Hm Hsub. unfold on_segment. rewrite Hs. cbn. rewrite Hf. cbn.
  destruct (set_segment_spec c key s s' Hc Hs Hok' Hm Hsub) as [H1 H2]. eexists. split; [reflexivity|]. done.
Qed.

(** Budgets are fixed at construction. *)
Lemma trim_max fuel s : sg_max_bytes (trim_history fuel s) = sg_max_bytes s.
Proof.
  revert s. induction fuel as [|fuel IH]; intros s; cbn [trim_history]; [done|]. destruct (_ <? _)%nat; [|done].
  destruct (last (sg_history s)) as [[it old]|]; [|done]. now rewrite IH.
Qed.

Lemma evict_max fuel q required s : sg_max_bytes (evict_loop fuel q required s) = sg_max_bytes s.
Proof.
  revert q s. induction fuel as [|fuel IH]; intros q s; cbn [evict_loop]; [done|]. destruct (_ <? _); [|done].
  destruct (last (sg_active s)) as [[it v]|]; [|done]. destruct (_ && _); rewrite IH; [done|].
  unfold evict_one. now rewrite trim_max.
Qed.

Lemma seg_get_max rk s r s' : seg_get rk s = Some (r, s') -> sg_max_bytes s' = sg_max_bytes s.
Proof.
  unfold seg_get. destruct (sg_entry_map s !! rk) as [it|]; [|now intros [= <- <-]].
  destruct (node_at s it) as [e|]; cbn; [|done]. destruct (negb _); now intros [= <- <-].
Qed.

Lemma take_node_inv (l : list (nat * Entry)) it a : take_node l it = Some a -> a = erase l it.
Proof. unfold take_node. destruct (deref l it); cbn; congruence. Qed.

Lemma seg_put_max rk data verdict stamp s b s' :
  seg_put rk data verdict stamp s = Some (b, s') -> sg_max_bytes s' = sg_max_bytes s.
Proof.
  unfold seg_put. destruct (_ <? _); [now intros [= <- <-]|]. destruct (negb verdict); [now intros [= <- <-]|].
  destruct (sg_entry_map s !! rk) as [it|].
  - destruct (node_at s it) as [e|]; cbn [mbind option_bind]; [|done]. destruct (ce_in_cache e).
    + destruct (take_node _ _) as [a|]; cbn [mbind option_bind]; [|done]. intros [= <- <-]. unfold put_front, evict_if_needed.
      seg_simpl. now rewrite evict_max.
    + destruct (_ || _); [|now intros [= <- <-]]. unfold promote_from_history.
      destruct (take_node _ _) as [a|]; cbn [mbind option_bind]; [|done]. intros [= <- <-]. unfold put_front, evict_if_needed.
      seg_simpl. now rewrite evict_max.
  - destruct (negb _); intros [= <- <-]; [done|]. seg_simpl. unfold evict_if_needed. now rewrite evict_max.
Qed.

Lemma drop_node_max s rk it s' : drop_node s rk it = Some s' -> sg_max_bytes s' = sg_max_bytes s.
Proof.
  unfold drop_node. destruct (node_at s it) as [e|]; cbn [mbind option_bind]; [|done].
  destruct (ce_in_cache e); destruct (take_node _ _) as [a|]; cbn; congruence || (intros [= <-]; done).
Qed.

Lemma seg_remove_max rk s b s' : seg_remove rk s = Some (b, s') -> sg_max_bytes s' = sg_max_bytes s.
Proof.
  unfold seg_remove. destruct (sg_entry_map s !! rk) as [it|]; [|now intros [= <- <-]].
  destruct (drop_node s rk it) as [s1|] eqn:E; cbn; [|done]. intros [= <- <-]. now apply (drop_node_max s rk it).
Qed.

Lemma seg_remove_all_max key s s' : seg_remove_all key s = Some s' -> sg_max_bytes s' = sg_max_bytes s.
Proof.
  unfold seg_remove_all. generalize (map_to_list (sg_entry_map s)) as l. intros l. revert s.
  induction l as [|[rk it] l IH]; intros s; cbn [seg_remove_scan]; [now intros [= <-]|].
  case_decide; [|apply IH]. destruct (drop_node s rk it) as [s1|] eqn:E; cbn; [|done]. intros Hr.
  rewrite (IH _ Hr). now apply (drop_node_max s rk it).
Qed.

(** ** The contract *)

#[export] Instance clfus_ops : RamCacheOps RamCacheCLFUS := {
  rc_get := get;
  rc_put_if := put_if;
  rc_remove := remove;
  rc_remove_all := remove_all;
  rc_clear := clear;
  rc_bytes_used := bytes_used;
  rc_max_bytes := cl_max_bytes;
}.

Section laws.
Context (c : RamCacheCLFUS) (Hc : clfus_ok c).

(** Both sides of a routed operation agree with the old contents elsewhere. *)
Lemma routed_eq key s c' (m' : contents_map) :
  cl_segments c !! segment_for c key = Some s ->
  (forall rk, all_contents c' !! rk =
    if decide (segment_for c (cache_key rk) = segment_for c key) then m' !! rk else all_contents c !! rk) ->
  m' = contents s -> all_contents c' = all_contents c.
Proof using Hc.
  intros Hs H ->. apply map_eq. intros rk. rewrite H. case_decide as Hd; [|done].
  symmetry. apply (all_contents_lookup c Hc). now rewrite Hd.
Qed.

Lemma get_spec rk :
  exists c', get rk c = Some (all_contents c !! rk, c') /\ clfus_ok c' /\ all_contents c' = all_contents c.
Proof using Hc.
  unfold get. destruct (segment_for_bound c Hc (cache_key rk)) as (s & Hs & Hok).
  destruct (seg_get_spec rk s Hok) as (s' & Hg & Hok' & Hcon).
  destruct (on_segment_spec c (cache_key rk) (seg_get rk) s _ s' Hc Hs Hg Hok' (seg_get_max _ _ _ _ Hg)) as (c' & H1 & H2 & _ & H4).
  { intros rk' H. left. now rewrite Hcon in H. }
  exists c'. rewrite (all_contents_lookup c Hc rk s Hs). split; [done|]. split; [done|].
  now apply (routed_eq (cache_key rk) s c' (contents s')).
Qed.

Lemma put_spec rk data verdict stamp :
  exists b c', put_if rk data verdict stamp c = Some (b, c') /\ clfus_ok c' /\
    (b = true -> verdict = true /\ all_contents c' ⊆ <[rk := (data, stamp)]> (all_contents c) /\
                 all_contents c' !! rk = Some (data, stamp)) /\
    (b = false -> all_contents c' = all_contents c).
Proof using Hc.
  unfold put_if. destruct (segment_for_bound c Hc (cache_key rk)) as (s & Hs & Hok).
  destruct (seg_put_spec rk data verdict stamp s Hok) as (b & s' & Hp & Hok' & Ht & Hf).
  destruct (on_segment_spec c (cache_key rk) _ s _ s' Hc Hs Hp Hok' (seg_put_max _ _ _ _ _ _ _ Hp)) as (c' & H1 & H2 & _ & H4).
  { intros rk' [v Hv]. destruct b; [|rewrite Hf in Hv by done; left; eauto].
    destruct (Ht eq_refl) as (_ & Hsub & _). apply (lookup_weaken _ _ _ _ Hv) in Hsub.
    apply lookup_insert_Some in Hsub as [[<- _]|[_ Hsub]]; [now right|left; eauto]. }
  exists b, c'. split; [done|]. split; [done|]. split; intros ->.
  - destruct (Ht eq_refl) as (-> & Hsub & Hrk). split; [done|]. split.
    + apply map_subseteq_spec. intros k v. rewrite H4. case_decide as Hd; intros Hv.
      * apply (lookup_weaken _ _ _ _ Hv) in Hsub. apply lookup_insert_Some. apply lookup_insert_Some in Hsub as [?|[Hne Hk]]; [now left|].
        right. split; [done|]. rewrite (all_contents_lookup c Hc k s); [done|]. now rewrite Hd.
      * apply lookup_insert_Some. right. split; [|done]. now intros <-.
    + rewrite H4, decide_True by done. done.
  - apply (routed_eq (cache_key rk) s c' (contents s')); auto.
Qed.

Lemma remove_spec rk :
  exists b c', remove rk c = Some (b, c') /\ clfus_ok c' /\ all_contents c' = delete rk (all_contents c) /\
    (is_Some (all_contents c !! rk) -> b = true).
Proof using Hc.
  unfold remove. destruct (segment_for_bound c Hc (cache_key rk)) as (s & Hs & Hok).
  destruct (seg_remove_spec rk s Hok) as (b & s' & Hr & Hok' & Hcon & Hb).
  destruct (on_segment_spec c (cache_key rk) _ s _ s' Hc Hs Hr Hok' (seg_remove_max _ _ _ _ Hr)) as (c' & H1 & H2 & _ & H4).
  { intros rk' [v Hv]. rewrite Hcon in Hv. apply lookup_delete_Some in Hv as [_ Hv]. left. eauto. }
  exists b, c'. split; [done|]. split; [done|]. split; [|now rewrite (all_contents_lookup c Hc rk s Hs)].
  apply map_eq. intros k. rewrite H4, Hcon. destruct (decide (k = rk)) as [->|Hne].
  - rewrite !lookup_delete_eq. now rewrite decide_True.
  - rewrite !lookup_delete_ne by done. case_decide as Hd; [|done]. symmetry. apply (all_contents_lookup c Hc). now rewrite Hd.
Qed.

Lemma remove_all_spec key :
  exists c', remove_all key c = Some c' /\ clfus_ok c' /\ all_contents c' = other_keys key (all_contents c).
Proof using Hc.
  unfold remove_all. destruct (segment_for_bound c Hc key) as (s & Hs & Hok).
  destruct (seg_remove_all_spec key s Hok) as (s' & Hr & Hok' & Hcon).
  destruct (on_segment_spec c key (fun s => s ← seg_remove_all key s; Some (tt, s)) s tt s' Hc Hs) as (c' & H1 & H2 & _ & H4);
    [now rewrite Hr|done|now apply (seg_remove_all_max key)| |].
  { intros rk' [v Hv]. rewrite Hcon in Hv. apply map_lookup_filter_Some in Hv as [Hv _]. left. eauto. }
  rewrite H1. cbn. exists c'. split; [done|]. split; [done|]. apply map_eq. intros k. apply option_eq. intros v.
  rewrite H4. unfold other_keys. rewrite map_lookup_filter_Some. cbn [fst]. case_decide as Hd.
  - rewrite Hcon. unfold other_keys. rewrite map_lookup_filter_Some. cbn [fst].
    rewrite (all_contents_lookup c Hc k s); [done|]. now rewrite Hd.
  - split; [|tauto]. intros Hv. split; [done|]. intros <-. done.
Qed.

Lemma clear_spec : clfus_ok (clear c) /\ all_contents (clear c) = ∅.
Proof using Hc.
  assert (forall i s, cl_segments (clear c) !! i = Some s -> seg_ok s /\ contents s = ∅) as Hseg.
  { intros i s. cbn [clear cl_segments]. rewrite lookup_map. intros (s0 & Hs0 & ->)%fmap_Some.
    apply seg_clear_spec. apply (proj1 (Forall_lookup _ _) (co_segs c Hc) _ _ Hs0). }
  split.
  - destruct (co_mask c Hc) as (k & Hk). destruct (co_budget c Hc) as (per & Hper & Hb). split.
    + exists k. cbn [clear cl_shard_mask cl_segments]. now rewrite length_map.
    + apply Forall_lookup. intros i s Hs. now apply (Hseg i).
    + intros i s rk Hs. destruct (Hseg i s Hs) as [_ ->]. rewrite lookup_empty. now intros [? ?].
    + exists per. cbn [clear cl_segments cl_max_bytes]. rewrite length_map. split; [|done].
      apply Forall_map. eapply Forall_impl; [exact Hper|]. done.
  - apply map_eq. intros rk. rewrite lookup_empty. destruct (all_contents (clear c) !! rk) as [v|] eqn:E; [|done].
    apply union_lookup in E as (i & s & Hs & Hv). destruct (Hseg i s Hs) as [_ Hempty]. rewrite Hempty, lookup_empty in Hv. done.
Qed.

Lemma budget_spec : 0 <= bytes_used c <= cl_max_bytes c.
Proof using Hc.
  destruct (co_budget c Hc) as (per & Hper & Hb). pose proof (co_segs c Hc) as Hok. unfold bytes_used in *.
  revert Hper Hok Hb. generalize (cl_segments c) as l. intros l. generalize (cl_max_bytes c) as mx. revert l.
  assert (forall l, Forall (fun s => sg_max_bytes s = per) l -> Forall seg_ok l ->
    0 <= foldr (fun s acc => sg_bytes_used s + acc) 0 l <= Z.of_nat (length l) * per) as H.
  { induction l as [|s l IH]; intros H1 H2; [cbn; lia|]. apply Forall_cons in H1 as [Hs H1], H2 as [Hk H2].
    specialize (IH H1 H2). cbn [foldr length]. destruct Hk as [Hi Hbud]. pose proof (total_nonneg (sg_active s)).
    pose proof (si_bytes _ _ Hi). lia. }
  intros l mx H1 H2 Hb. specialize (H l H1 H2). lia.
Qed.
End laws.

#[export] Instance clfus_laws : RamCacheLaws RamCacheCLFUS.
Proof.
  refine (@Build_RamCacheLaws _ clfus_ops clfus_ok all_contents _ _ _ _ _ _).
  - intros k c Hc. now apply get_spec.
  - intros k data v stamp c Hc. now apply put_spec.
  - intros k c Hc. now apply remove_spec.
  - intros key c Hc. now apply remove_all_spec.
  - intros c Hc. now apply clear_spec.
  - intros c Hc. now apply budget_spec.
Defined.

(** ** Construction *)

Lemma bit_floor_le x : 1 <= x -> bit_floor x <= x.
Proof. intros Hx. unfold bit_floor. apply Z.log2_spec. lia. Qed.

(** The number of segments is a power of two and leaves each a budget. *)
Lemma pick_segment_count_spec hw max_bytes :
  0 <= hw -> 1 <= max_bytes ->
  exists k, 0 <= k /\ pick_segment_count hw max_bytes = 2 ^ k /\ 2 ^ k <= max_bytes.
Proof.
  intros Hhw Hm. unfold pick_segment_count. set (x := clamp _ _ _). set (y := Z.max (max_bytes / MIN_SEGMENT_BYTES) 1).
  assert (max_bytes / MIN_SEGMENT_BYTES <= max_bytes).
  { unfold MIN_SEGMENT_BYTES. apply Z.div_le_upper_bound; lia. }
  pose proof (bit_floor_le y ltac:(unfold y; lia)) as Hy. unfold bit_ceil, bit_floor in *.
  exists (Z.min (Z.log2_up x) (Z.log2 y)). pose proof (Z.log2_up_nonneg x). pose proof (Z.log2_nonneg y). split; [lia|].
  assert (Z.min (2 ^ Z.log2_up x) (2 ^ Z.log2 y) = 2 ^ Z.min (Z.log2_up x) (Z.log2 y)) as E.
  { destruct (Z.le_ge_cases (Z.log2_up x) (Z.log2 y)) as [Hle|Hle].
    - rewrite !Z.min_l; [done|done|]. apply Z.pow_le_mono_r; lia.
    - rewrite !Z.min_r; [done|done|]. apply Z.pow_le_mono_r; lia. }
  split; [done|]. rewrite <- E. unfold y in *. lia.
Qed.

Lemma new_clfus_ok hw max_bytes :
  0 <= hw -> 1 <= max_bytes < 2 ^ 62 -> clfus_ok (new_clfus hw max_bytes) /\ all_contents (new_clfus hw max_bytes) = ∅.
Proof.
  intros Hhw Hm. destruct (pick_segment_count_spec hw max_bytes Hhw ltac:(lia)) as (k & Hk & En & Hn).
  unfold new_clfus. rewrite En. set (per := Z.max (max_bytes / 2 ^ k) 1). set (fl := Z.max _ MIN_SEEN_FILTER_PER_SEGMENT).
  assert (0 < 2 ^ k) as Hpos by lia.
  assert (1 <= max_bytes / 2 ^ k) as Hone by (apply Z.div_le_lower_bound; lia).
  assert (max_bytes / 2 ^ k <= max_bytes) by (apply Z.div_le_upper_bound; nia).
  pose proof (Z.mul_div_le max_bytes (2 ^ k) ltac:(lia)) as Hmul.
  destruct (new_segment_ok per fl) as [Hs He]; [unfold per; lia|unfold fl, MIN_SEEN_FILTER_PER_SEGMENT; lia|].
  assert (forall i s, replicate (Z.to_nat (2 ^ k)) (new_segment per fl) !! i = Some s -> s = new_segment per fl) as Hrep.
  { intros i s. rewrite lookup_replicate. tauto. }
  split.
  - split; cbn [cl_max_bytes cl_segments cl_shard_mask].
    + exists k. rewrite length_replicate. split; [done|]. split; [done|lia].
    + now apply Forall_replicate.
    + intros i s rk Hi. apply Hrep in Hi as ->. rewrite He, lookup_empty. now intros [? ?].
    + exists per. rewrite length_replicate. split; [now apply Forall_replicate|]. unfold per. rewrite Z2Nat.id by lia. lia.
  - apply map_eq. intros rk. rewrite lookup_empty. unfold all_contents. cbn [cl_segments].
    destruct (foldr _ _ _ !! rk) as [v|] eqn:E; [|done]. apply union_lookup in E as (i & s & Hi & Hv).
    apply Hrep in Hi as ->. now rewrite He, lookup_empty in Hv.
Qed.

(** A CLFUS put makes room in bounded work and never at its own expense:
    whatever hit counts the cached entries carry, putting a document that fits
    a segment ends (within [REQUEUE_LIMIT] requeues and one eviction per
    entry) with the document cached whole at the front under its stamp when
    the put is accepted, the segment within its budget, and the history no
    node of which the map lost. *)
Theorem clfus_put_keeps_own_entry rk data stamp s :
  seg_ok s -> size_of data <= sg_max_bytes s ->
  exists b s', seg_put rk data true stamp s = Some (b, s') /\ seg_ok s' /\
    (b = true -> exists it e rest, sg_active s' = (it, e) :: rest /\ sg_entry_map s' !! rk = Some it /\
       ce_key e = rk /\ ce_data e = data /\ ce_stamp e = stamp /\ total (sg_active s') <= sg_max_bytes s') /\
    (b = false -> contents s' = contents s).
Proof.
  intros Hok Hsz. destruct (seg_put_spec rk data true stamp s Hok) as (b & s' & Hp & Hok' & Ht & Hf).
  exists b, s'. split; [done|]. split; [done|]. split; [|done]. intros ->.
  assert (exists it e rest, sg_active s' = (it, e) :: rest /\ ce_key e = rk /\ ce_data e = data /\ ce_stamp e = stamp)
    as (it & e & rest & Ea & Ek & Ed & Est).
  { revert Hp. unfold seg_put. destruct (_ <? _); [done|]. cbn [negb]. pose proof (sk_inv s Hok) as Hs.
    destruct (sg_entry_map s !! rk) as [it|] eqn:E.
    - destruct (node_at_spec s rk it Hs E) as (e & Hat & <- & _). rewrite Hat. cbn [mbind option_bind]. destruct (ce_in_cache e).
      + destruct (take_node _ _) as [a|]; cbn [mbind option_bind]; [|done]. intros [= <-]. unfold put_front. seg_simpl. eauto 10.
      + destruct (_ || _); [|done]. unfold promote_from_history. destruct (take_node _ _) as [a|]; cbn [mbind option_bind]; [|done].
        intros [= <-]. unfold put_front. seg_simpl. eauto 10.
    - destruct (negb _); [done|]. intros [= <-]. seg_simpl. eauto 10. }
  exists it, e, rest. split; [done|]. pose proof (sk_inv s' Hok') as Hs'. split.
  - apply (map_lookup _ _ Hs'). exists e. split; [|done]. cbn [app]. rewrite Ea. apply list_elem_of_here.
  - repeat (split; [done|]). rewrite <- (si_bytes _ _ Hs'). apply Hok'.
Qed.

(** A document of a segment's whole budget put twice: the first put only marks
    the filter. *)
Definition big_key : RamCacheKey := {| cache_key := {| _hash := seqZ 3 32 |}; alternate_id := 1 |}.

Lemma clfus_put_keeps_own_entry_witness :
  exists b s', seg_put big_key [1; 2; 3] true 7 (mark_seen (new_segment 3 4) big_key) = Some (b, s') /\ seg_ok s' /\
    (b = true -> exists it e rest, sg_active s' = (it, e) :: rest /\ sg_entry_map s' !! big_key = Some it /\
       ce_key e = big_key /\ ce_data e = [1; 2; 3] /\ ce_stamp e = 7 /\ total (sg_active s') <= sg_max_bytes s') /\
    (b = false -> contents s' = contents (mark_seen (new_segment 3 4) big_key)).
Proof.
  apply (clfus_put_keeps_own_entry big_key [1; 2; 3] 7 (mark_seen (new_segment 3 4) big_key)).
  - unfold mark_seen. apply set_seen_ok; [apply new_segment_ok; lia|]. rewrite length_insert. vm_compute. lia.
  - vm_compute. discriminate.
Defined.

(** A saturated hit counter has value zero: [hits + 1] wraps in 32 bits, so
    the hottest entry ranks below one never hit. *)
Example saturated_value :
  let e := {| ce_key := big_key; ce_data := []; ce_hits := 2 ^ 32 - 1; ce_in_cache := true; ce_stamp := 0 |} in
  value e = S754_zero false /\ fgt (value (set_hits e 0)) (value e) = true.
Proof. split; vm_compute; reflexivity. Qed.
