(* ===== verification/RamCaches.v ===== *)
(** * The RAM cache factory (src/src/ram_cache/lru.cpp, [RamCache::create])

    The two implementations behind the interface of RamCache.v, and what every
    client of either sees. *)

From S2P Require Import Prelude Key RamCache LruCache Clfus.

Inductive RamCacheType := LRU | CLFUS.

(** [hw]: the hardware concurrency, which only CLFUS consults. *)
Definition create (type : RamCacheType) (hw max_bytes : Z) : RamCacheLRU + RamCacheCLFUS :=
  match type with
  | LRU => inl (new_lru max_bytes)
  | CLFUS => inr (new_clfus hw max_bytes)
  end.

(** The verdict of a run of operations against the map of successful puts. *)
Definition coherent_run {C} `{!RamCacheOps C} (l : list ram_op) (c : C) : Prop :=
  exists c' m, run_ops l c ∅ = Some (c', m, []) /\ 0 <= rc_bytes_used c' <= rc_max_bytes c'.

Lemma laws_coherent {C} `{!RamCacheOps C} `{!RamCacheLaws C} l (c : C) :
  rc_ok c -> rc_contents c = ∅ -> coherent_run l c.
Proof.
  intros Hok Hc. destruct (run_ops_coherent l c ∅ Hok ltac:(now rewrite Hc)) as (c' & m & Hr & Hok' & _).
  exists c', m. split; [done|]. now apply rc_budget.
Qed.

(** C15. The RAM cache is a bounded map that may forget but never lies:
    whichever implementation is configured, after any sequence of operations
    on a new cache no operation was undefined, every read that hit returned
    the bytes and stamp of the last put of that key that reported success and
    was not removed or cleared since, and the bytes held are within the
    configured budget. *)
Theorem ram_cache_coherent type hw max_bytes try_lock l :
  0 <= hw -> 1 <= max_bytes < 2 ^ 62 ->
  match create type hw max_bytes with
  | inl c => @coherent_run _ (lru_ops try_lock) l c
  | inr c => @coherent_run _ clfus_ops l c
  end.
Proof.
  intros Hhw Hm. destruct type; cbn [create].
  - apply (@laws_coherent _ _ (lru_laws try_lock)); [apply new_lru_ok; lia|].
    apply map_eq. intros k. cbn. unfold LruCache.contents. now rewrite lookup_omap, !lookup_empty.
  - destruct (new_clfus_ok hw max_bytes Hhw Hm) as [H1 H2]. now apply (@laws_coherent _ _ clfus_laws).
Qed.

Lemma ram_cache_coherent_witness :
  coherent_run [OpPut (rk_of 1) [1] true 0; OpPut (rk_of 1) [2] true 0; OpGet (rk_of 1); OpRemove (rk_of 1);
                OpGet (rk_of 1)] (new_clfus 4 1024).
Proof. apply (ram_cache_coherent CLFUS 4 1024 true); lia. Defined.
