(* ===== verification/Volume.v ===== *)
(** * A volume: reads, writes and removals (src/src/core/volume.cpp, volume.hpp)

    The operations that put the parts together: a read probes the directory
    through the stripe's snapshot, maps and verifies documents and takes a
    borrow; a write builds a document, reserves space in the log, fills it,
    commits it, elects this key's old entry and publishes; a removal clears
    every entry whose document carries the key.  The RAM cache in front is
    the interface of RamCache.v, the checksum the one of Document.v.

    The volume is one process's (in-memory directories), and an operation runs
    alone: the loads of one call see one state.  BorrowProtocol.v, Seqlock.v
    and TokenLock.v are about what interleaves.  The mapped file is its bytes;
    readahead hints, flushes to disk and statistics snapshots change nothing
    here.  The statistics counters are the log [v_events]. *)

From S2P Require Import Prelude Key Document DirEntry Directory Geometry Stripe WriteLog RamCache.
Local Open Scope cyc_scope.

(** ** State *)

Inductive VolumeError :=
  | ENotInitialized | ENotOwned | ENotFound | EBusy | ENoSpace | EIoError | EInvalidArgument
  | EObjectTooLarge | ECorrupted | EInternalError | EClosed | EAlternateNotFound | EChainCorrupted | ETooManyAlternates
  | EAlreadyOpen | EIncompatibleVersion | EResetRefusedLivePeer | EInvalidConfiguration.

Definition of_log_error (e : CacheError) : VolumeError := match e with Busy => EBusy | NoSpace => ENoSpace end.

Inductive volume_event :=
  | VRead | VWrite | VHit (key : CacheKey) | VRetainedHit | VCoherenceRejection
  | VTagCollisionEviction | VBucketFullEviction | VAlternateHit (key : CacheKey) (alternate_id : Z)
  | VPublishRetry | VPublishRewrite | VChainDepth (n : nat) | VShadowsUnlinked (n : nat) | VSpliceDeferred (n : nat)
  | VChainReset | VWrapRefusal | VCarriedForward (nodes bytes : nat) | VCarryDropped (n : nat).

Record StripeState := {
  ss_stripe : Stripe; ss_owned : bool; ss_log : State; ss_dir : Directory; ss_remove_epoch : Z }.

Definition set_log (s : StripeState) (l : State) : StripeState := {|
  ss_stripe := ss_stripe s; ss_owned := ss_owned s; ss_log := l; ss_dir := ss_dir s; ss_remove_epoch := ss_remove_epoch s |}.
Definition set_dir (s : StripeState) (d : Directory) : StripeState := {|
  ss_stripe := ss_stripe s; ss_owned := ss_owned s; ss_log := ss_log s; ss_dir := d; ss_remove_epoch := ss_remove_epoch s |}.
Definition bump_remove_epoch (s : StripeState) : StripeState := {|
  ss_stripe := ss_stripe s; ss_owned := ss_owned s; ss_log := ss_log s; ss_dir := ss_dir s;
  ss_remove_epoch := u64 (ss_remove_epoch s + 1) |}.

Record VolumeConfig := {
  vc_log : Config; vc_verify_checksum_on_read : bool; vc_max_read_retries : Z; vc_max_object_size : Z;
  vc_cross_process_ram_coherence : bool; vc_hit_tracking : bool; vc_checksum_salt : Z * Z * Z * Z;
  vc_persistent_map : bool }.

(** One attempt of a read: done with a result, or to be tried again. *)
Inductive attempt (R : Type) :=
  | Done (r : VolumeError + R)
  | RacedPublish
  | Raced (checksum_failed : bool).
Arguments Done {R}.
Arguments RacedPublish {R}.
Arguments Raced {R}.

Section volume.
Context (bld : mulhi_build) `{Checksum} {C : Type} `{!RamCacheOps C} (cfg : VolumeConfig).

(** [v_checksums] is [_checksum_cache] (absent slots are 0), [v_draw] the
    thread's [t_checksum_revalidate_state], [v_generation] the stripe
    generation handles are checked against. *)
Record Volume := {
  v_stripes : list StripeState; v_file : list Z; v_ram : option C; v_checksums : gmap Z Z; v_draw : Z;
  v_generation : Z; v_events : list volume_event }.

Definition set_stripe (v : Volume) (i : nat) (s : StripeState) : Volume := {|
  v_stripes := <[i := s]> (v_stripes v); v_file := v_file v; v_ram := v_ram v; v_checksums := v_checksums v;
  v_draw := v_draw v; v_generation := v_generation v; v_events := v_events v |}.
Definition set_file (v : Volume) (f : list Z) : Volume := {|
  v_stripes := v_stripes v; v_file := f; v_ram := v_ram v; v_checksums := v_checksums v; v_draw := v_draw v;
  v_generation := v_generation v; v_events := v_events v |}.
Definition set_ram (v : Volume) (c : C) : Volume := {|
  v_stripes := v_stripes v; v_file := v_file v; v_ram := Some c; v_checksums := v_checksums v; v_draw := v_draw v;
  v_generation := v_generation v; v_events := v_events v |}.
Definition set_checksums (v : Volume) (m : gmap Z Z) (draw : Z) : Volume := {|
  v_stripes := v_stripes v; v_file := v_file v; v_ram := v_ram v; v_checksums := m; v_draw := draw;
  v_generation := v_generation v; v_events := v_events v |}.
Definition event (v : Volume) (e : volume_event) : Volume := {|
  v_stripes := v_stripes v; v_file := v_file v; v_ram := v_ram v; v_checksums := v_checksums v; v_draw := v_draw v;
  v_generation := v_generation v; v_events := v_events v ++ [e] |}.

Definition select_stripe (v : Volume) (key : CacheKey) : option (nat * StripeState) :=
  match v_stripes v with
  | [] => None
  | l =>
      let i := Z.to_nat (segment_hash key mod Z.of_nat (length l)) in
      (fun s => (i, s)) <$> l !! i
  end.

Definition stripe_snapshot (s : StripeState) : StripeSnapshot :=
  snapshot bld (ss_stripe s) (ws_gen (ss_log s)) (current_write_cursor (ss_stripe s) (ss_log s)).

(** ** Documents in the file *)

Definition map_region (file : list Z) (off n : Z) : option (list Z) :=
  let size := Z.of_nat (length file) in
  if (size <? off) || (size - off <? n) then None else Some (subspan file (Z.to_nat off) (Z.to_nat n)).

(** A reader over a mapping of [map_size] bytes, remapped when the document is
    longer.  The mapping's base is page aligned, so an address is aligned as
    its offset is. *)
Definition map_document (file : list Z) (abs map_size stripe_size : Z) : option DocumentReader :=
  data ← map_region file abs map_size;
  let reader := new_shared_reader abs data in
  if negb (r_valid reader) then None
  else if map_size <? len (r_doc reader) then
    if stripe_size <? len (r_doc reader) then None
    else
      data ← map_region file abs (len (r_doc reader));
      let reader := new_shared_reader abs data in
      if negb (r_valid reader) then None else Some reader
  else Some reader.

Definition entry_binds (e : DirEntry) (doc : Document) : bool := Document.fill_serial doc =? DirEntry.fill_serial e.

(** ** The checksum cache *)

Definition kChecksumRevalidateInterval : Z := 256.
Definition checksum_cache_index (offset : Z) : Z := u64 (offset * 0x9E3779B97F4A7C15) >> 48.

Definition fold_mum (x y : Z) : Z := u64 (x * y) .^ mulhi bld x y.

Definition checksum_token (offset : Z) (doc : Document) : Z :=
  let '(s0, s1, s2, s3) := vc_checksum_salt cfg in
  let key_prefix := le_val (take 8 (first_key doc)) in
  let crc_stamp := u64 (checksum doc << 32) .| write_serial doc in
  let lengths := u64 (len doc << 32) .| header_len doc in
  let covered := u64 (checksum_header_seed doc << 32) in
  let a := fold_mum (offset .^ s0) (key_prefix .^ s1) in
  let b := fold_mum (crc_stamp .^ s2) (lengths .^ s3) in
  fold_mum (a .^ covered .^ 0xa0761d6478bd642f) (b .^ 0xe7037ed1a0b428db).

Definition is_checksum_validated (v : Volume) (offset token : Z) : bool :=
  negb (token =? 0) && (default 0 (v_checksums v !! checksum_cache_index offset) =? token).
Definition mark_checksum_validated (v : Volume) (offset token : Z) : Volume :=
  set_checksums v (<[checksum_cache_index offset := token]> (v_checksums v)) (v_draw v).
Definition forget_checksum_validated (v : Volume) (offset token : Z) : Volume :=
  if default 0 (v_checksums v !! checksum_cache_index offset) =? token
  then set_checksums v (<[checksum_cache_index offset := 0]> (v_checksums v)) (v_draw v) else v.

Definition checksum_revalidation_due (v : Volume) : bool * Volume :=
  let x := v_draw v in
  let x := x .^ u64 (x << 13) in
  let x := x .^ (x >> 7) in
  let x := x .^ u64 (x << 17) in
  ((x >> 32) mod kChecksumRevalidateInterval =? 0, set_checksums v (v_checksums v) x).

(** The checksum leg of a read: whether the document may be served. *)
Definition check_document (v : Volume) (abs : Z) (reader : DocumentReader) : bool * Volume :=
  if negb (vc_verify_checksum_on_read cfg) then (true, v)
  else
    let token := checksum_token abs (r_doc reader) in
    let cached := is_checksum_validated v abs token in
    let '(pending, v) := if cached then checksum_revalidation_due v else (true, v) in
    if negb pending then (true, v)
    else if verify_checksum (r_doc reader) (r_payload reader) then (true, mark_checksum_validated v abs token)
    else (false, forget_checksum_validated v abs token).

(** ** Probing *)

(** [Stripe::probe_each] over the entries a bucket scan yields: the callback
    gets the admitted ones and says whether to go on. *)
Fixpoint probe_each {A} (s : Stripe) (snap : StripeSnapshot) (cb : DirEntry -> AdmitClass -> A -> bool * A)
    (l : list DirEntry) (acc : A) (rejects : list (Z * bool)) : A * list (Z * bool) :=
  match l with
  | [] => (acc, rejects)
  | e :: l =>
      match admit_position s (DirEntry.offset e) (phase e) snap with
      | kReject => probe_each s snap cb l acc (note rejects (DirEntry.offset e) (phase e))
      | cls => let '(continue, acc) := cb e cls acc in
               if continue : bool then probe_each s snap cb l acc rejects else (acc, rejects)
      end
  end.

Definition candidates (s : StripeState) (key : CacheKey) : list DirEntry := probe_matches false (ss_dir s) key.

(** ** Reading *)

Record ReadHandle := {
  rh_doc : Document; rh_header : list Z; rh_content : list Z; rh_ram : bool;
  rh_stripe : nat; rh_epoch : BorrowEpoch; rh_borrow : option BorrowToken }.

(** What the thread brings: its borrow shard and the clock. *)
Record ReadEnv := { re_shard : nat; re_now : Z }.

Record ReadAcc := { ra_volume : Volume; ra_found : option ReadHandle; ra_checksum_failed : bool; ra_epoch_changed : bool }.

(** The callback of [read_sync]. *)
Definition read_candidate (env : ReadEnv) (i : nat) (snap : StripeSnapshot) (key : CacheKey)
    (e : DirEntry) (cls : AdmitClass) (acc : ReadAcc) : bool * ReadAcc :=
  let v := ra_volume acc in
  match ra_found acc, v_stripes v !! i with
  | None, Some s =>
      let abs := st_offset (ss_stripe s) + DirEntry.offset e in
      match map_document (v_file v) abs (approx_size e) (st_size (ss_stripe s)) with
      | None => (true, acc)
      | Some reader =>
          if negb (bool_decide (r_first_key reader = key)) || negb (is_servable reader)
             || negb (entry_binds e (r_doc reader)) then (true, acc)
          else
            match admit_document bld (ss_stripe s) snap cls (DirEntry.offset e) (r_doc reader) with
            | None => (true, acc)
            | Some epoch =>
                let '(ok, v) := check_document v abs reader in
                if negb ok then
                  (true, {| ra_volume := v; ra_found := None; ra_checksum_failed := true;
                            ra_epoch_changed := ra_epoch_changed acc |})
                else
                  let '(borrow, log) := acquire_borrow (vc_log cfg) (ss_log s) (re_shard env)
                                          (chunk_of bld (ss_stripe s) (DirEntry.offset e)) in
                  let log := stamp_read_lease (vc_log cfg) (re_now env) log in
                  if negb (borrow_still_valid_counted log epoch borrow) then
                    (false, {| ra_volume := set_stripe v i (set_log s (release_borrow true log borrow));
                               ra_found := None; ra_checksum_failed := ra_checksum_failed acc;
                               ra_epoch_changed := true |})
                  else
                    let v := set_stripe v i (set_log s log) in
                    let v := match cls with kRetained => event v VRetainedHit | _ => v end in
                    (false, {| ra_volume := event v VRead;
                               ra_found := Some {| rh_doc := r_doc reader; rh_header := r_header reader;
                                                   rh_content := r_content reader; rh_ram := false; rh_stripe := i;
                                                   rh_epoch := epoch; rh_borrow := Some borrow |};
                               ra_checksum_failed := ra_checksum_failed acc;
                               ra_epoch_changed := ra_epoch_changed acc |})
            end
      end
  | _, _ => (false, acc)
  end.

Definition record_hit (v : Volume) (s : StripeState) (key : CacheKey) : Volume :=
  if vc_hit_tracking cfg && ss_owned s then event v (VHit key) else v.

Definition kOriginal : Z := 0.
Definition original (key : CacheKey) : RamCacheKey := {| cache_key := key; RamCache.alternate_id := kOriginal |}.

Definition ram_coherence_active (s : StripeState) : bool :=
  vc_cross_process_ram_coherence cfg && st_use_mmap (ss_stripe s).

(** The RAM leg: a servable copy of (key, Original), dropped first when it is
    stale.  The outer option is the RAM cache's undefined behaviour. *)
Definition read_ram (s : StripeState) (i : nat) (key : CacheKey) (v : Volume) : option (option ReadHandle * Volume) :=
  match v_ram v with
  | None => Some (None, v)
  | Some c =>
      '(hit, c) ← rc_get (original key) c;
      let v := set_ram v c in
      match hit with
      | None => Some (None, v)
      | Some (data, stamp) =>
          if ram_coherence_active s && negb (stamp =? bucket_version (ss_dir s) key) then
            '(_, c) ← rc_remove (original key) c;
            Some (None, event (set_ram v c) VCoherenceRejection)
          else
            let reader := new_reader data in
            if is_servable reader then
              Some (Some {| rh_doc := r_doc reader; rh_header := r_header reader; rh_content := r_content reader;
                            rh_ram := true; rh_stripe := i; rh_epoch := {| be_threshold := 0 |};
                            rh_borrow := None |}, record_hit (event v VRead) s key)
            else Some (None, v)
      end
  end.

Definition read_attempt (env : ReadEnv) (i : nat) (key : CacheKey) (v : Volume) : option (attempt ReadHandle * Volume) :=
  match v_stripes v !! i with
  | None => Some (Done (inl ENotInitialized), v)
  | Some s =>
      '(ram, v) ← read_ram s i key v;
      match ram with
      | Some h => Some (Done (inr h), v)
      | None =>
          let snap := stripe_snapshot s in
          let '(acc, rejects) := probe_each (ss_stripe s) snap (read_candidate env i snap key) (candidates s key)
            {| ra_volume := v; ra_found := None; ra_checksum_failed := false; ra_epoch_changed := false |} [] in
          let v := ra_volume acc in
          match ra_found acc with
          | Some h => Some (Done (inr h), record_hit v s key)
          | None =>
              let now := match v_stripes v !! i with Some s => stripe_snapshot s | None => snap end in
              if probe_raced_publish (ss_stripe s) now rejects then Some (RacedPublish, v)
              else if negb (ra_checksum_failed acc) && negb (ra_epoch_changed acc) then Some (Done (inl ENotFound), v)
              else Some (Raced (ra_checksum_failed acc), v)
          end
      end
  end.

Definition kMaxPublishRaceRetries : Z := 8.

(** The retry loop of the reads.  An attempt is spent each time, and a raced
    publish buys one back at most [kMaxPublishRaceRetries] times: the fuel is
    enough. *)
Fixpoint retry_loop {R} (fuel : nat) (try : Volume -> option (attempt R * Volume)) (exhausted : bool -> VolumeError)
    (left races : Z) (saw_checksum : bool) (v : Volume) : option ((VolumeError + R) * Volume) :=
  match fuel with
  | O => None
  | S fuel =>
      if left <=? 0 then Some (inl (exhausted saw_checksum), v)
      else
        '(a, v) ← try v;
        match a with
        | Done r => Some (r, v)
        | RacedPublish =>
            if races <? kMaxPublishRaceRetries then retry_loop fuel try exhausted left (races + 1) saw_checksum v
            else retry_loop fuel try exhausted (left - 1) races saw_checksum v
        | Raced failed => retry_loop fuel try exhausted (left - 1) races (saw_checksum || failed) v
        end
  end.

Definition read_fuel : nat := Z.to_nat (u32 (vc_max_read_retries cfg + 1) + kMaxPublishRaceRetries + 1).

Definition read_sync (env : ReadEnv) (key : CacheKey) (v : Volume) : option ((VolumeError + ReadHandle) * Volume) :=
  match select_stripe v key with
  | None => Some (inl ENotInitialized, v)
  | Some (i, _) =>
      retry_loop read_fuel (read_attempt env i key) (fun saw => if saw then ECorrupted else ENotFound)
        (u32 (vc_max_read_retries cfg + 1)) 0 false v
  end.

Fixpoint exists_loop (fuel : nat) (s : StripeState) (key : CacheKey) (left races : Z) : option bool :=
  match fuel with
  | O => None
  | S fuel =>
      if left <=? 0 then Some false
      else
        let '(found, rejects) :=
          probe_each (ss_stripe s) (stripe_snapshot s) (fun _ _ _ => (false, true)) (candidates s key) false [] in
        if found || negb (probe_raced_publish (ss_stripe s) (stripe_snapshot s) rejects) then Some found
        else if races <? kMaxPublishRaceRetries then exists_loop fuel s key left (races + 1)
        else exists_loop fuel s key (left - 1) races
  end.

Definition exists_sync (key : CacheKey) (v : Volume) : option (VolumeError + bool) :=
  match select_stripe v key with
  | None => Some (inl ENotInitialized)
  | Some (_, s) => inr <$> exists_loop read_fuel s key (u32 (vc_max_read_retries cfg + 1)) 0
  end.

(** The handle's borrow ends with it. *)
Definition close_read (h : ReadHandle) (v : Volume) : Volume :=
  match rh_borrow h, v_stripes v !! rh_stripe h with
  | Some borrow, Some s => set_stripe v (rh_stripe h) (set_log s (release_borrow true (ss_log s) borrow))
  | _, _ => v
  end.

(** [renew_read_lease]: the checked renew, exposure before stamp. *)
Definition renew_read_lease (env : ReadEnv) (h : ReadHandle) (v : Volume) : bool * Volume :=
  match rh_borrow h, v_stripes v !! rh_stripe h with
  | Some borrow, Some s =>
      if c_lease_t_ns (vc_log cfg) =? 0 then (false, v)
      else if be_threshold (rh_epoch h) <? ws_gen (ss_log s) then (false, v)
      else if negb (borrow_still_counted (ss_log s) borrow) then (false, v)
      else (true, set_stripe v (rh_stripe h) (set_log s (stamp_read_lease (vc_log cfg) (re_now env) (ss_log s))))
  | _, _ => (false, v)
  end.

(** ** Removing *)

Definition collect (e : DirEntry) (cls : AdmitClass) (acc : list (DirEntry * AdmitClass))
  : bool * list (DirEntry * AdmitClass) :=
  (true, if (length acc <? kEntriesPerBucket)%nat then acc ++ [(e, cls)] else acc).

(** A candidate whose document carries the key: its offset, and whether it is
    live. *)
Definition verify_candidate (s : StripeState) (file : list Z) (snap : StripeSnapshot) (key : CacheKey)
    (c : DirEntry * AdmitClass) : option (Z * bool) :=
  let '(e, cls) := c in
  reader ← map_document file (st_offset (ss_stripe s) + DirEntry.offset e) (approx_size e) (st_size (ss_stripe s));
  if bool_decide (r_first_key reader = key)
  then Some (DirEntry.offset e, stamp_admits (ss_stripe s) snap cls (r_doc reader) && entry_binds e (r_doc reader))
  else None.

Fixpoint remove_entries (d : Directory) (key : CacheKey) (l : list (Z * bool)) : bool * Directory :=
  match l with
  | [] => (false, d)
  | (off, live) :: l =>
      let '(removed, d) := remove_at d key off in
      let '(rest, d) := remove_entries d key l in
      ((removed && live) || rest, d)
  end.

(** After the directory entry is gone: the generation that refuses raced puts,
    then the RAM copies. *)
Definition invalidate_ram (drop : C -> option C) (i : nat) (s : StripeState) (v : Volume) : option Volume :=
  match v_ram v with
  | None => Some (set_stripe v i s)
  | Some c => c ← drop c; Some (set_ram (set_stripe v i (bump_remove_epoch s)) c)
  end.

Definition remove_sync (key : CacheKey) (v : Volume) : option ((VolumeError + unit) * Volume) :=
  match select_stripe v key with
  | None => Some (inl ENotInitialized, v)
  | Some (i, s) =>
      if negb (ss_owned s) then Some (inl ENotOwned, v)
      else
        let snap := stripe_snapshot s in
        let found := fst (probe_each (ss_stripe s) snap collect (candidates s key) [] []) in
        let verified := omap (verify_candidate s (v_file v) snap key) found in
        let '(removed_live, d) := remove_entries (ss_dir s) key verified in
        let s := set_dir s d in
        if removed_live then v ← invalidate_ram (rc_remove_all key) i s v; Some (inr tt, v)
        else Some (inl ENotFound, set_stripe v i s)
  end.

(** ** Writing *)

(** What the lock, the clock and the file system answer: [we_written] is how
    many bytes of the fill reached the file. *)
Record WriteEnv := { we_lock : LockEnv; we_now1 : Z; we_now2 : Z; we_written : nat; we_lock_valid : bool }.

Definition patch_pass_stamp (doc : list Z) (pass : Z) : list Z :=
  if (length doc <? kHeaderSize)%nat then doc else write_at doc kWriteSerialOffset (le_bytes 4 (u32 pass)).
Definition patch_fill_serial (doc : list Z) (serial : Z) : list Z :=
  if (length doc <? kHeaderSize)%nat then doc else write_at doc kFillSerialOffset (le_bytes 4 (u16 serial)).

(** The election of this key's entry: the one to update in place, the ones to
    clear, and every offset it was shown. *)
Record Election := { el_offset : Z; el_cls : AdmitClass; el_clear : list Z; el_seen : list Z }.

Definition no_election : Election :=
  {| el_offset := kNoVerifiedEntry; el_cls := kReject; el_clear := []; el_seen := [] |}.

Definition add_offset (l : list Z) (off : Z) : list Z :=
  if existsb (Z.eqb off) l then l else if (length l <? kEntriesPerBucket)%nat then l ++ [off] else l.
Definition add_clear (el : Election) (off : Z) : Election := {|
  el_offset := el_offset el; el_cls := el_cls el; el_clear := add_offset (el_clear el) off; el_seen := el_seen el |}.
Definition add_seen (el : Election) (off : Z) : Election := {|
  el_offset := el_offset el; el_cls := el_cls el; el_clear := el_clear el; el_seen := add_offset (el_seen el) off |}.
Definition elect (el : Election) (off : Z) (cls : AdmitClass) : Election := {|
  el_offset := off; el_cls := cls; el_clear := el_clear el; el_seen := el_seen el |}.

Definition elect_candidate (s : Stripe) (file : list Z) (snap : StripeSnapshot) (key : CacheKey)
    (e : DirEntry) (cls : AdmitClass) (el : Election) : bool * Election :=
  let off := DirEntry.offset e in
  let abs := st_offset s + off in
  let el := add_seen el off in
  (true,
   if off =? el_offset el then el
   else
     match map_region file abs (Z.of_nat kHeaderSize) with
     | None => el
     | Some data =>
         let reader := new_shared_reader abs data in
         if negb (r_valid reader) then if in_data_area s off then add_clear el off else el
         else if negb (stamp_admits s snap cls (r_doc reader) && entry_binds e (r_doc reader)) then add_clear el off
         else if negb (bool_decide (r_first_key reader = key)) then el
         else if (el_offset el =? kNoVerifiedEntry)
                 || bool_decide (cls = kCurrent) && negb (bool_decide (el_cls el = kCurrent)) then
           let el := if el_offset el =? kNoVerifiedEntry then el else add_clear el (el_offset el) in
           elect el off cls
         else add_clear el off
     end).

Definition run_election (s : StripeState) (file : list Z) (snap : StripeSnapshot) (key : CacheKey) : Election :=
  fst (probe_each (ss_stripe s) snap (elect_candidate (ss_stripe s) file snap key) (candidates s key) no_election []).

Definition kMaxStalePublishRetries : nat := 32.

(** The conditional publish: elect, insert, and elect again while the bucket
    changed under the election. *)
Fixpoint publish_rounds (retries : nat) (s : StripeState) (file : list Z) (snap_at_commit : StripeSnapshot)
    (key : CacheKey) (rel doc_size serial : Z) : VolumeError + InsertResult StripeAdmission :=
  if wrapped_since bld (ss_stripe s) (ws_gen (ss_log s)) snap_at_commit then inl EBusy
  else
    let snap := stripe_snapshot s in
    let el := run_election s file snap key in
    let adm := {| sa_stripe := ss_stripe s; sa_gen := ws_gen (ss_log s);
                  sa_cursor := current_write_cursor (ss_stripe s) (ss_log s); sa_snap := snap |} in
    let r := @insert_admitted _ (stripe_admission bld) (ss_dir s) key rel doc_size (el_offset el) adm (el_clear el)
               (Some (el_seen el)) serial in
    if ir_ok r then inr r
    else if ir_stale r then
      match retries with
      | O => inl EBusy
      | S retries => publish_rounds retries s file snap_at_commit key rel doc_size serial
      end
    else inl EInternalError.

Definition write_builder (key : CacheKey) (header content : list Z) : DocumentBuilder := {|
  b_key := key; b_header := header; b_content := content; b_type := Type_SingleFrag; b_flags := 0; b_total_len := 0;
  b_frag_offset := 0; b_enable_checksum := true; b_alternate_id := kOriginal; b_next_alternate_offset := 0;
  b_hit_count := 0; b_last_access := 0 |}.

(** The bytes of the fill: the patched head, the content, and the zeros of a
    large document's tail. *)
Definition fill_bytes (slot : WriteSlot) (head content : list Z) : list Z :=
  let head := patch_fill_serial (patch_pass_stamp head (slot_pass slot)) (slot_fill_serial slot) in
  let doc_size := Z.of_nat (length head + length content) in
  let tail_fill := if slot_fill_end slot =? 0 then 0 else slot_fill_end slot - (slot_write_offset slot + doc_size) in
  head ++ content ++ replicate (Z.to_nat tail_fill) 0.

Definition evictions (r : InsertResult StripeAdmission) (v : Volume) : Volume :=
  let v := if ir_collision_evicted r then event v VTagCollisionEviction else v in
  if ir_bucket_full_evicted r then event v VBucketFullEviction else v.

Definition commit_write (env : WriteEnv) (i : nat) (generation : Z) (key : CacheKey) (header content : list Z) (v : Volume)
  : option ((VolumeError + unit) * Volume) :=
  if negb (v_generation v =? generation) then Some (inl EClosed, v)
  else
  match v_stripes v !! i with
  | None => Some (inl ENotInitialized, v)
  | Some s =>
      if negb (ss_owned s) then Some (inl ENotOwned, v)
      else
        let head := build_head (write_builder key header content) content in
        if bool_decide (head = []) then Some (inl EInvalidArgument, v)
        else
          let doc_size := Z.of_nat (length head + length content) in
          let '(r, log) := allocate_write_slot bld (vc_log cfg) (ss_stripe s) (we_lock env) (we_now1 env) (we_now2 env)
                             doc_size (ss_log s) in
          let s := set_dir (set_log s log) (set_current_phase (ss_dir s) (ws_phase log)) in
          match r with
          | inl err => Some (inl (of_log_error err), set_stripe v i s)
          | inr slot =>
              let bytes := fill_bytes slot head content in
              let fill_ok := (length bytes <=? we_written env)%nat in
              let file := write_at (v_file v) (Z.to_nat (slot_write_offset slot)) (take (we_written env) bytes) in
              let v := set_file v file in
              let snap_at_commit := stripe_snapshot s in
              let '(err, log) := commit_write_slot (ss_stripe s) slot fill_ok (we_lock_valid env) log in
              let s := set_log s log in
              let rel := slot_write_offset slot - st_offset (ss_stripe s) in
              match err with
              | Some err => Some (inl (of_log_error err), set_stripe v i s)
              | None =>
                  if negb fill_ok then Some (inl EIoError, set_stripe v i s)
                  else if (rel <? 0) || (st_size (ss_stripe s) <? rel + doc_size) then Some (inl EInternalError, set_stripe v i s)
                  else
                    match publish_rounds kMaxStalePublishRetries s file snap_at_commit key rel doc_size
                            (u16 (slot_fill_serial slot)) with
                    | inl err => Some (inl err, set_stripe v i s)
                    | inr r =>
                        let v := event (evictions r v) VWrite in
                        v ← invalidate_ram (fun c => snd <$> rc_remove (original key) c) i (set_dir s (ir_dir r)) v;
                        Some (inr tt, v)
                    end
              end
          end
  end.

(** ** Write handles *)

Record WriteHandle := {
  wh_stripe : nat; wh_generation : Z; wh_key : CacheKey; wh_header : list Z; wh_content : list Z;
  wh_expected_length : Z; wh_written : Z; wh_closed : bool; wh_aborted : bool }.

Definition write_sync (key : CacheKey) (content_length : Z) (v : Volume) : VolumeError + WriteHandle :=
  match select_stripe v key with
  | None => inl ENotInitialized
  | Some (i, s) =>
      if negb (ss_owned s) then inl ENotOwned
      else if (0 <? vc_max_object_size cfg) && (vc_max_object_size cfg <? content_length) then inl EObjectTooLarge
      else inr {| wh_stripe := i; wh_generation := v_generation v; wh_key := key; wh_header := []; wh_content := [];
                  wh_expected_length := content_length; wh_written := 0; wh_closed := false; wh_aborted := false |}
  end.

Definition set_header (h : WriteHandle) (header : list Z) : WriteHandle := {|
  wh_stripe := wh_stripe h; wh_generation := wh_generation h; wh_key := wh_key h; wh_header := header;
  wh_content := wh_content h; wh_expected_length := wh_expected_length h; wh_written := wh_written h;
  wh_closed := wh_closed h; wh_aborted := wh_aborted h |}.
Definition append (h : WriteHandle) (data : list Z) : WriteHandle := {|
  wh_stripe := wh_stripe h; wh_generation := wh_generation h; wh_key := wh_key h; wh_header := wh_header h;
  wh_content := wh_content h ++ data; wh_expected_length := wh_expected_length h;
  wh_written := u64 (wh_written h + Z.of_nat (length data)); wh_closed := wh_closed h; wh_aborted := wh_aborted h |}.
Definition set_flags (h : WriteHandle) (closed aborted : bool) : WriteHandle := {|
  wh_stripe := wh_stripe h; wh_generation := wh_generation h; wh_key := wh_key h; wh_header := wh_header h;
  wh_content := wh_content h; wh_expected_length := wh_expected_length h; wh_written := wh_written h;
  wh_closed := closed; wh_aborted := aborted |}.

Definition kMaxContentSize : Z := 2 ^ 32 - 1 - Z.of_nat kHeaderSize.

Definition admit_append (v : Volume) (h : WriteHandle) (n : Z) : option VolumeError :=
  if wh_aborted h || wh_closed h then Some EClosed
  else if negb (v_generation v =? wh_generation h) then Some EClosed
  else if (0 <? vc_max_object_size cfg) && (vc_max_object_size cfg <? u64 (wh_written h + n)) then Some EObjectTooLarge
  else if (kMaxContentSize <? wh_written h) || (kMaxContentSize - wh_written h <? n) then Some ENoSpace
  else None.

Definition handle_write (v : Volume) (h : WriteHandle) (data : list Z) : (VolumeError + Z) * WriteHandle :=
  match admit_append v h (Z.of_nat (length data)) with
  | Some err => (inl err, h)
  | None => (inr (Z.of_nat (length data)), append h data)
  end.

Definition handle_abort (h : WriteHandle) : WriteHandle := set_flags h (wh_closed h) true.

Definition handle_close (env : WriteEnv) (h : WriteHandle) (v : Volume)
  : option ((VolumeError + unit) * WriteHandle * Volume) :=
  if wh_aborted h then Some (inl EClosed, h, v)
  else if wh_closed h then Some (inr tt, h, v)
  else
    '(r, v) ← commit_write env (wh_stripe h) (wh_generation h) (wh_key h) (wh_header h) (wh_content h) v;
    Some (r, set_flags h true false, v).
End volume.
