(* ===== verification/VolumeSpec.v ===== *)
(** * Reads, writes and removals of a volume, proved (Volume.v)

    A successful write is what the next read returns; a removed key reads as
    not found; and the one way a written document is not found again (its
    approximate size runs over the end of the file). *)

From S2P Require Import Prelude Key Document DirEntry Directory Geometry Stripe WriteLog RamCache Volume.
Local Open Scope cyc_scope.

(** ** Probes *)

(** The entries a probe hands its callback. *)
Definition admitted (s : Stripe) (snap : StripeSnapshot) (l : list DirEntry) : list (DirEntry * AdmitClass) :=
  omap (fun e => match admit_position s (DirEntry.offset e) (phase e) snap with
                 | kReject => None | cls => Some (e, cls) end) l.

Lemma elem_of_admitted s snap l e cls : (e, cls) ∈ admitted s snap l <->
  e ∈ l /\ cls = admit_position s (DirEntry.offset e) (phase e) snap /\ cls <> kReject.
Proof.
  unfold admitted. rewrite list_elem_of_omap. split.
  - intros (x & Hx & E). destruct (admit_position _ _ _ _) eqn:Ec; simplify_eq; split_and!; done.
  - intros (He & -> & Hn). exists e. split; [done|]. by destruct (admit_position _ _ _ _).
Qed.

Lemma probe_each_fold {A} s snap (cb : DirEntry -> AdmitClass -> A -> bool * A) l acc rj :
  (forall e cls a, fst (cb e cls a) = true) ->
  fst (probe_each s snap cb l acc rj) = fold_left (fun a c => snd (cb c.1 c.2 a)) (admitted s snap l) acc.
Proof.
  intros Hcb. revert acc rj. induction l as [|e l IH]; intros acc rj; simpl; [done|].
  destruct (admit_position _ _ _ _) eqn:E; simpl; [apply IH| |].
  - pose proof (Hcb e kCurrent acc) as Hc. destruct (cb e kCurrent acc) as [c a]. simpl in *. subst. apply IH.
  - pose proof (Hcb e kRetained acc) as Hc. destruct (cb e kRetained acc) as [c a]. simpl in *. subst. apply IH.
Qed.

(** A scan whose callback passes over every entry up to one it stops at. *)
Lemma probe_each_stop {A} s snap (cb : DirEntry -> AdmitClass -> A -> bool * A) l1 e l2 acc acc' rj :
  (forall x cls, (x, cls) ∈ admitted s snap l1 -> cb x cls acc = (true, acc)) ->
  admit_position s (DirEntry.offset e) (phase e) snap <> kReject ->
  cb e (admit_position s (DirEntry.offset e) (phase e) snap) acc = (false, acc') ->
  exists rj', probe_each s snap cb (l1 ++ e :: l2) acc rj = (acc', rj').
Proof.
  intros Hskip Ha He. revert rj. induction l1 as [|x l1 IH]; intros rj; simpl.
  - destruct (admit_position _ _ _ _); [done|..]; rewrite He; eauto.
  - assert (Hskip' : forall y cls, (y, cls) ∈ admitted s snap l1 -> cb y cls acc = (true, acc)).
    { intros y cls Hy. apply Hskip. apply elem_of_admitted in Hy as (Hy & Hc). apply elem_of_admitted. split; [by right|done]. }
    destruct (admit_position s (DirEntry.offset x) _ _) eqn:E; [by apply IH|..].
    + rewrite Hskip by (apply elem_of_admitted; split; [left|rewrite E; done]). by apply IH.
    + rewrite Hskip by (apply elem_of_admitted; split; [left|rewrite E; done]). by apply IH.
Qed.

(** One that passes over every entry, and what it notes. *)
Lemma probe_each_none {A} s snap (cb : DirEntry -> AdmitClass -> A -> bool * A) l acc rj :
  (forall x cls, (x, cls) ∈ admitted s snap l -> cb x cls acc = (true, acc)) ->
  Forall (fun r => admit_position s r.1 r.2 snap = kReject) rj ->
  exists rj', probe_each s snap cb l acc rj = (acc, rj') /\ Forall (fun r => admit_position s r.1 r.2 snap = kReject) rj'.
Proof.
  intros Hskip. revert rj. induction l as [|x l IH]; intros rj Hrj; simpl; [eauto|].
  assert (Hskip' : forall y cls, (y, cls) ∈ admitted s snap l -> cb y cls acc = (true, acc)).
  { intros y cls Hy. apply Hskip. apply elem_of_admitted in Hy as (Hy & Hc). apply elem_of_admitted. split; [by right|done]. }
  destruct (admit_position s (DirEntry.offset x) _ _) eqn:E.
  - apply IH; [done|]. unfold note. repeat case_match; try done. apply Forall_app. split; [done|]. by apply Forall_singleton.
  - rewrite Hskip by (apply elem_of_admitted; split; [left|rewrite E; done]). by apply IH.
  - rewrite Hskip by (apply elem_of_admitted; split; [left|rewrite E; done]). by apply IH.
Qed.

Lemma no_raced_publish s snap rj :
  Forall (fun r => admit_position s r.1 r.2 snap = kReject) rj -> probe_raced_publish s snap rj = false.
Proof.
  intros Hr. apply not_true_iff_false. rewrite probe_raced_publish_iff. intros (r & Hin & Hn).
  rewrite Forall_forall in Hr. by apply Hn, Hr.
Qed.

(** ** Mapped documents *)

Lemma map_region_Some file off n data : 0 <= off -> 0 <= n -> map_region file off n = Some data ->
  off + n <= Z.of_nat (length file) /\ data = subspan file (Z.to_nat off) (Z.to_nat n).
Proof. unfold map_region. intros Ho Hn. case_match eqn:E; [done|]. intros [= <-]. apply orb_false_iff in E as [E1 E2]. split; [lia|done]. Qed.

Lemma map_region_eq file off n : 0 <= off -> 0 <= n -> off + n <= Z.of_nat (length file) ->
  map_region file off n = Some (subspan file (Z.to_nat off) (Z.to_nat n)).
Proof. intros. unfold map_region. case_match eqn:E; [apply orb_true_iff in E as [E|E]; lia | done]. Qed.

Lemma map_region_None file off n : 0 <= off -> 0 <= n -> Z.of_nat (length file) < off + n -> map_region file off n = None.
Proof. intros. unfold map_region. case_match eqn:E; [done|]. apply orb_false_iff in E. lia. Qed.

Lemma deserialize_prefix data data' : take kHeaderSize data = take kHeaderSize data' ->
  Document.deserialize data = Document.deserialize data'.
Proof.
  intros E.
  assert (Hl : (length data <? kHeaderSize)%nat = (length data' <? kHeaderSize)%nat).
  { apply (f_equal length) in E. rewrite !length_take in E.
    destruct (Nat.ltb_spec (length data) kHeaderSize), (Nat.ltb_spec (length data') kHeaderSize); lia. }
  assert (Hf : forall i, (i < 20)%nat -> field data i = field data' i).
  { intros i Hi. unfold field, subspan.
    assert (Hb : (wire_offset_of i + nth i kDocumentFields 0 <= kHeaderSize)%nat).
    { do 20 (destruct i as [|i]; [by vm_compute; repeat constructor|]). lia. }
    assert (Ht : forall d : list Z, take (nth i kDocumentFields 0%nat) (drop (wire_offset_of i) d) =
              take (nth i kDocumentFields 0%nat) (drop (wire_offset_of i) (take kHeaderSize d))).
    { intros d. rewrite !take_drop_commute, take_take. do 2 f_equal. lia. }
    by rewrite (Ht data), (Ht data'), E. }
  unfold Document.deserialize. rewrite Hl, !Hf by lia. done.
Qed.

(** Whether a reader is valid, and its document, only depend on the header. *)
Lemma new_shared_reader_prefix addr data data' : take kHeaderSize data = take kHeaderSize data' ->
  r_valid (new_shared_reader addr data) = r_valid (new_shared_reader addr data') /\
  r_doc (new_shared_reader addr data) = r_doc (new_shared_reader addr data').
Proof.
  intros E. unfold new_shared_reader, new_reader. case_match; [done|].
  assert ((kHeaderSize <=? length data)%nat = (kHeaderSize <=? length data')%nat) as ->.
  { apply (f_equal length) in E. rewrite !length_take in E.
    destruct (Nat.leb_spec kHeaderSize (length data)), (Nat.leb_spec kHeaderSize (length data')); lia. }
  case_match; [|done]. simpl. by rewrite (deserialize_prefix data data').
Qed.

Lemma take_subspan {A} (file : list A) off n m : (m <= n)%nat -> take m (subspan file off n) = subspan file off m.
Proof. intros. unfold subspan. rewrite take_take. f_equal. lia. Qed.

(** A mapped document's header is the one a header-sized mapping shows. *)
Lemma map_document_header file abs map_size stripe_size r : 0 <= abs -> Z.of_nat kHeaderSize <= map_size ->
  map_document file abs map_size stripe_size = Some r ->
  exists data, map_region file abs (Z.of_nat kHeaderSize) = Some data /\
    r_valid (new_shared_reader abs data) = true /\ r_doc r = r_doc (new_shared_reader abs data).
Proof.
  intros Ha Hm. unfold map_document. intros (data & Hd & Hr)%bind_Some. cbv zeta in Hr.
  apply map_region_Some in Hd as [Hlen ->]; [|lia..].
  assert (Hpre : forall n, Z.of_nat kHeaderSize <= n ->
    r_valid (new_shared_reader abs (subspan file (Z.to_nat abs) (Z.to_nat n))) =
      r_valid (new_shared_reader abs (subspan file (Z.to_nat abs) kHeaderSize)) /\
    r_doc (new_shared_reader abs (subspan file (Z.to_nat abs) (Z.to_nat n))) =
      r_doc (new_shared_reader abs (subspan file (Z.to_nat abs) kHeaderSize))).
  { intros n Hn. apply new_shared_reader_prefix. rewrite !take_subspan by lia. done. }
  exists (subspan file (Z.to_nat abs) kHeaderSize). rewrite map_region_eq, Nat2Z.id by lia. split; [done|].
  destruct (Hpre map_size Hm) as [Ev Ed]. rewrite Ev, Ed in Hr. clear Ev Ed. destruct (r_valid _) eqn:Ev; [|done]. split; [done|].
  simpl in Hr. case_match eqn:E1; [|by simplify_eq; apply Hpre].
  case_match; [done|]. apply bind_Some in Hr as (data & Hd & Hr).
  apply Z.ltb_lt in E1. apply map_region_Some in Hd as [_ ->]; [|lia..]. case_match; [done|]. simplify_eq. apply Hpre. lia.
Qed.

(** ** The election *)

(** An entry whose document, if there is one, carries another key. *)
Definition foreign (s : Stripe) (file : list Z) (key : CacheKey) (e : DirEntry) : Prop :=
  forall data, map_region file (st_offset s + DirEntry.offset e) (Z.of_nat kHeaderSize) = Some data ->
    r_first_key (new_shared_reader (st_offset s + DirEntry.offset e) data) <> key.

Lemma elem_of_add_offset l off x : (length l < kEntriesPerBucket)%nat -> x ∈ add_offset l off <-> x ∈ l \/ x = off.
Proof.
  intros Hl. unfold add_offset. case_match eqn:E.
  - apply existsb_exists in E as (y & Hy & Ey). apply Z.eqb_eq in Ey. subst y. apply list_elem_of_In in Hy.
    split; [by left | intros [| ->]; done].
  - rewrite (proj2 (Nat.ltb_lt _ _) Hl), elem_of_app, list_elem_of_singleton. done.
Qed.

Lemma length_add_offset l off : (length (add_offset l off) <= S (length l))%nat.
Proof. unfold add_offset. repeat case_match; rewrite ?length_app; simpl; lia. Qed.

(** What the election knows about the candidates it has seen. *)
Record elected (s : Stripe) (file : list Z) (key : CacheKey) (l : list (DirEntry * AdmitClass)) (el : Election) : Prop := {
  ed_seen : forall e cls, (e, cls) ∈ l -> DirEntry.offset e ∈ el_seen el;
  ed_each : forall e cls, (e, cls) ∈ l -> DirEntry.offset e ∈ el_clear el \/ DirEntry.offset e = el_offset el \/ foreign s file key e;
  ed_offset : el_offset el = kNoVerifiedEntry \/ exists e cls, (e, cls) ∈ l /\ DirEntry.offset e = el_offset el;
  ed_clear_len : (length (el_clear el) <= length l)%nat;
  ed_seen_len : (length (el_seen el) <= length l)%nat }.

(** Every way a candidate changes the election: it is cleared, elected (and
    the one before it cleared), passed over as foreign, or already elected. *)
Lemma elect_candidate_cases s file snap key e cls el :
  in_data_area s (DirEntry.offset e) = true ->
  let el1 := add_seen el (DirEntry.offset e) in
  let el' := snd (elect_candidate s file snap key e cls el) in
  (el' = el1 /\ (DirEntry.offset e = el_offset el \/ foreign s file key e)) \/
  el' = add_clear el1 (DirEntry.offset e) \/
  (el' = elect el1 (DirEntry.offset e) cls /\ el_offset el = kNoVerifiedEntry) \/
  el' = elect (add_clear el1 (el_offset el)) (DirEntry.offset e) cls.
Proof.
  intros Hin. unfold elect_candidate. cbn [snd]. change (el_offset (add_seen el _)) with (el_offset el).
  case_match eqn:E1; [left; split; [done | left; by apply Z.eqb_eq]|].
  destruct (map_region _ _ _) as [data|] eqn:Em; [|left; split; [done|]; right; intros d Hd; congruence].
  destruct (r_valid _) eqn:Ev; cbn [negb]; [|rewrite Hin; by right; left].
  destruct (_ && entry_binds e _); cbn [negb]; [|by right; left].
  case_bool_decide as Ek; cbn [negb]; [|left; split; [done|]; right; intros d Hd; congruence].
  case_match; [|by right; left]. destruct (Z.eqb_spec (el_offset el) kNoVerifiedEntry); auto.
Qed.

Lemma elected_step s file snap key l el e cls :
  (length l < kEntriesPerBucket)%nat -> in_data_area s (DirEntry.offset e) = true ->
  (forall x c, (x, c) ∈ l -> DirEntry.offset x <> kNoVerifiedEntry) -> elected s file key l el ->
  elected s file key (l ++ [(e, cls)]) (snd (elect_candidate s file snap key e cls el)).
Proof.
  intros Hl Hin Hne [Hs He Ho Hlc Hls].
  assert (Hseen : forall x, x ∈ el_seen (add_seen el (DirEntry.offset e)) <-> x ∈ el_seen el \/ x = DirEntry.offset e)
    by (intros x; apply elem_of_add_offset; lia).
  assert (Hclear : forall off x, x ∈ el_clear (add_clear (add_seen el (DirEntry.offset e)) off) <-> x ∈ el_clear el \/ x = off)
    by (intros off x; apply elem_of_add_offset; simpl; lia).
  assert (Hlen : forall off, (length (el_clear (add_clear (add_seen el (DirEntry.offset e)) off)) <= S (length l))%nat)
    by (intros off; simpl; pose proof (length_add_offset (el_clear el) off); lia).
  assert (Hlen' : (length (el_seen (add_seen el (DirEntry.offset e))) <= S (length l))%nat)
    by (simpl; pose proof (length_add_offset (el_seen el) (DirEntry.offset e)); lia).
  assert (Hmem : forall x c, (x, c) ∈ l ++ [(e, cls)] -> (x, c) ∈ l \/ x = e).
  { intros x c. rewrite elem_of_app, list_elem_of_singleton. intros [|[= -> ->]]; auto. }
  assert (Hoff : el_offset el = kNoVerifiedEntry \/ exists x c, (x, c) ∈ l ++ [(e, cls)] /\ DirEntry.offset x = el_offset el).
  { destruct Ho as [|(x & c & Hx & Hxo)]; [by left|]. right. exists x, c. rewrite elem_of_app. auto. }
  assert (Hnew : exists x c, (x, c) ∈ l ++ [(e, cls)] /\ DirEntry.offset x = DirEntry.offset e).
  { exists e, cls. rewrite elem_of_app, list_elem_of_singleton. auto. }
  pose proof (elect_candidate_cases s file snap key e cls el Hin) as Hcase. cbv zeta in Hcase.
  rewrite <- (Nat.add_1_r (length l)) in Hlen, Hlen'.
  destruct Hcase as [[-> Hcase]|[->|[[-> Hno]| ->]]]; split; rewrite ?length_app; cbn [length] in *; auto.
  all: try (intros x c Hx; apply Hseen; destruct (Hmem x c Hx) as [Hx'| ->]; [left; by eapply Hs | by right]).
  all: try (simpl; lia).
  - intros x c Hx. destruct (Hmem x c Hx) as [Hx'| ->]; [by eapply He|]. right. exact Hcase.
  - intros x c Hx. rewrite Hclear. destruct (Hmem x c Hx) as [Hx'| ->]; [destruct (He x c Hx') as [?|?]; auto | auto].
  - intros x c Hx. destruct (Hmem x c Hx) as [Hx'| ->]; [|auto]. destruct (He x c Hx') as [?|[Hbad|?]]; auto.
    exfalso. apply (Hne x c Hx'). congruence.
  - intros x c Hx. change (el_clear (elect ?a _ _)) with (el_clear a). rewrite Hclear.
    destruct (Hmem x c Hx) as [Hx'| ->]; [|auto]. destruct (He x c Hx') as [?|[?|?]]; auto.
  - apply Hlen.
Qed.

Lemma election_spec s file snap key l :
  (length l <= kEntriesPerBucket)%nat ->
  (forall e cls, (e, cls) ∈ l -> in_data_area s (DirEntry.offset e) = true /\ DirEntry.offset e <> kNoVerifiedEntry) ->
  elected s file key l (fold_left (fun a c => snd (elect_candidate s file snap key c.1 c.2 a)) l no_election).
Proof.
  induction l as [|[e cls] l IH] using rev_ind; intros Hl Hin.
  - split; simpl; try (by intros ? ? ?%not_elem_of_nil); auto.
  - rewrite fold_left_app. simpl. rewrite length_app in Hl. simpl in Hl.
    apply elected_step; [lia | apply (Hin e cls), elem_of_app; right; by left | |].
    + intros x c Hx. apply (Hin x c), elem_of_app. by left.
    + apply IH; [lia|]. intros x c Hx. apply (Hin x c), elem_of_app. by left.
Qed.

(** ** Stripes in good order *)

(** No two entries of a bucket share tag and offset. *)
Definition distinct_offsets (l : list DirEntry) : Prop := forall i j e e',
  l !! i = Some e -> l !! j = Some e' -> is_empty e = false -> is_empty e' = false ->
  DirEntry.tag e = DirEntry.tag e' -> DirEntry.offset e = DirEntry.offset e' -> i = j.

Record stripe_state_ok (file : list Z) (s : StripeState) : Prop := {
  sk_stripe : stripe_ok (ss_stripe s);
  sk_local : st_use_mmap (ss_stripe s) = false;
  sk_log : log_ok (ss_stripe s) (ss_log s);
  sk_dir : dir_ok (ss_dir s);
  sk_phase : current_phase (ss_dir s) = ws_phase (ss_log s);
  sk_file : st_offset (ss_stripe s) + st_size (ss_stripe s) <= Z.of_nat (length file);
  sk_distinct : forall b, distinct_offsets (bucket_of (ss_dir s) b) }.

(** The generation has room for the wraps one write can take. *)
Definition gen_room (s : StripeState) : Prop := ws_gen (ss_log s) + 4 * (st_chunks (ss_stripe s) + 1) < 2 ^ 64.

Lemma elem_of_candidates s key e : e ∈ candidates s key <->
  e ∈ bucket_of (ss_dir s) (bucket_index (ss_dir s) key) /\ is_empty e = false /\ DirEntry.tag e = Key.tag key.
Proof.
  unfold candidates, probe_matches. rewrite list_elem_of_filter. simpl. rewrite !andb_true_iff, negb_true_iff, Z.eqb_eq. tauto.
Qed.

Lemma length_candidates s key : dir_ok (ss_dir s) -> (length (candidates s key) <= kEntriesPerBucket)%nat.
Proof.
  intros Hd. rewrite <- (length_bucket_of (ss_dir s) Hd (bucket_index (ss_dir s) key)) by by apply bucket_index_lt.
  apply length_filter.
Qed.

Lemma length_admitted s snap l : (length (admitted s snap l) <= length l)%nat.
Proof. induction l as [|e l IH]; simpl; [done|]. case_match; simpl; lia. Qed.

Lemma in_data_area_admitted s rel p snap : admit_position s rel p snap <> kReject -> in_data_area s rel = true.
Proof. unfold admit_position. by destruct (in_data_area s rel). Qed.

Definition admission (bld : mulhi_build) (s : StripeState) : StripeAdmission := {|
  sa_stripe := ss_stripe s; sa_gen := ws_gen (ss_log s);
  sa_cursor := current_write_cursor (ss_stripe s) (ss_log s); sa_snap := stripe_snapshot bld s |}.

Lemma election_elected bld s file key : stripe_state_ok file s ->
  elected (ss_stripe s) file key (admitted (ss_stripe s) (stripe_snapshot bld s) (candidates s key)) (run_election s file (stripe_snapshot bld s) key).
Proof.
  intros Hs. unfold run_election. rewrite probe_each_fold by done. apply election_spec.
  - etransitivity; [apply length_admitted | apply length_candidates, Hs].
  - intros e cls (_ & -> & Hn)%elem_of_admitted. pose proof (in_data_area_admitted _ _ _ _ Hn) as Ha. split; [done|].
    apply in_data_area_range in Ha. pose proof (so_size _ (sk_stripe _ _ Hs)). unfold kNoVerifiedEntry. lia.
Qed.

(** A publish by a writer that verified the entry at [vo], saw the entries at
    [seen] and clears those at [clear]; every other admitted candidate
    satisfies [P]. *)
Section publish.
Context (bld : mulhi_build) (s : StripeState) (file : list Z) (key : CacheKey) (vo : Z) (seen clear : list Z) (P : DirEntry -> Prop).
Local Abbreviation d := (ss_dir s).
Local Abbreviation snap := (stripe_snapshot bld s).
Local Abbreviation b := (bucket_index (ss_dir s) key).
Local Abbreviation adm := (admission bld s).

Hypothesis Hs : stripe_state_ok file s.
Hypothesis Hvo : vo = kNoVerifiedEntry \/ exists e, e ∈ candidates s key /\ DirEntry.offset e = vo.
Hypothesis Hseen : forall e cls, (e, cls) ∈ admitted (ss_stripe s) snap (candidates s key) -> DirEntry.offset e ∈ seen.
Hypothesis Heach : forall e cls, (e, cls) ∈ admitted (ss_stripe s) snap (candidates s key) ->
  DirEntry.offset e ∈ clear \/ DirEntry.offset e = vo \/ P e.

(** The bucket cannot have changed since the probe: the publish goes
    through. *)
Lemma publish_view_current rel : @view_current _ (stripe_admission bld) d key rel vo adm (Some seen) = true.
Proof using Hs Hvo Hseen.
  clear Heach. unfold view_current. apply (@publish_view_is_current_iff _ (stripe_admission bld)). split.
  - destruct Hvo as [->|(e & He & <-)]; [auto|]. right; right. apply elem_of_candidates in He. destruct He as (He1 & He2 & He3). eauto.
  - intros e He Hne Ht _ _ Hc. simpl in Hc. apply (Hseen e (admit_position (ss_stripe s) (DirEntry.offset e) (phase e) snap)).
    apply elem_of_admitted. rewrite elem_of_candidates. done.
Qed.

Section after.
Context (rel doc_size serial : Z) (i : nat) (old : DirEntry) (c : Z).
Hypothesis (Hrel : 0 < rel < 2 ^ 40) (Hser : fits 16 serial).
Hypothesis Hf : @first_choice _ (stripe_admission bld) (@refresh _ (stripe_admission bld) adm) (bucket_of d b)
  (Key.tag key) vo rel i old.
Local Abbreviation new := (@published _ (stripe_admission bld) d key rel doc_size vo adm serial old).
Local Abbreviation l' := (@inserted _ (stripe_admission bld) d key rel doc_size vo adm clear serial i old).

Lemma published_new : entry_ok new /\ DirEntry.offset new = rel /\ DirEntry.tag new = Key.tag key /\
  phase new = current_phase d /\ DirEntry.fill_serial new = serial.
Proof using Hs Hrel Hser Hf.
  apply (@published_view _ (stripe_admission bld)); [|done|unfold fits; lia].
  exact (Forall_lookup_1 _ _ _ _ (bucket_of_ok d (sk_dir _ _ Hs) b) (proj1 Hf)).
Qed.

Lemma published_bucket : bucket_of (commit_bucket d b l' c) b = l'.
Proof using Hs Hrel Hser Hf.
  apply commit_bucket_same; [apply Hs | by apply bucket_index_lt, Hs|].
  refine (proj1 (@inserted_ok _ (stripe_admission bld) d key rel doc_size _ _ _ serial i old _ eq_refl (sk_dir _ _ Hs) _ Hser (proj1 Hf))).
  unfold fits. lia.
Qed.

Lemma published_lookup j :
  l' !! j = (fun x => if dead i (Key.tag key) rel clear j x then empty_entry else x) <$> (<[i := new]> (bucket_of d b) !! j).
Proof using. unfold inserted. by rewrite list_lookup_imap. Qed.

Lemma published_slot : l' !! i = Some new.
Proof using Hf.
  rewrite published_lookup, list_lookup_insert_eq by by eapply lookup_lt_Some, (proj1 Hf). simpl. unfold dead. by rewrite Nat.eqb_refl.
Qed.

(** An entry in another slot was there before, at another offset, and was not
    to be cleared. *)
Lemma published_other j e : j <> i -> l' !! j = Some e -> is_empty e = false ->
  bucket_of d b !! j = Some e /\ (DirEntry.tag e = Key.tag key -> DirEntry.offset e <> rel /\ DirEntry.offset e ∉ clear).
Proof using.
  intros Hj He Hne. rewrite published_lookup, list_lookup_insert_ne in He by done.
  destruct (bucket_of d b !! j) as [x|] eqn:Ex; [|done]. simpl in He. case_match eqn:Ed; simplify_eq. split; [done|].
  intros Ht. apply not_true_iff_false in Ed. rewrite dead_true in Ed. split; intros Hbad; apply Ed; auto.
Qed.

(** Nothing else the snapshot admits resolves the key any more. *)
Lemma published_others j e : j <> i -> l' !! j = Some e -> is_empty e = false -> DirEntry.tag e = Key.tag key ->
  admit_position (ss_stripe s) (DirEntry.offset e) (phase e) snap <> kReject -> P e.
Proof using Hs Heach Hrel Hf.
  intros Hj He Hne Ht Ha. destruct (published_other j e Hj He Hne) as [Hold Hcl]. destruct (Hcl Ht) as [_ Hncl].
  assert (Hin : (e, admit_position (ss_stripe s) (DirEntry.offset e) (phase e) snap) ∈
    admitted (ss_stripe s) snap (candidates s key)).
  { apply elem_of_admitted. rewrite elem_of_candidates. split; [|done]. split; [|done].
    by eapply list_elem_of_lookup_2. }
  destruct (Heach _ _ Hin) as [?|[Hv|?]]; [done | | done]. exfalso. apply Hj.
  destruct Hf as [Hi Hmin]. pose proof (Hmin j e Hold) as Hp.
  assert (Hvm : vo <> kMatchAnyTag).
  { rewrite <- Hv. apply in_data_area_admitted, in_data_area_range in Ha. pose proof (so_size _ (sk_stripe _ _ Hs)). unfold kMatchAnyTag. lia. }
  assert (Hre : @rank _ (stripe_admission bld) (@refresh _ (stripe_admission bld) adm) (Key.tag key) vo rel e = 0%nat).
  { unfold rank. rewrite Hne, Ht, Hv, !Z.eqb_refl, (proj2 (Z.eqb_neq _ _) Hvm). done. }
  assert (Hro : @rank _ (stripe_admission bld) (@refresh _ (stripe_admission bld) adm) (Key.tag key) vo rel old = 0%nat).
  { unfold precedes in Hp. rewrite Hre in Hp. lia. }
  unfold rank in Hro. destruct (is_empty old) eqn:Eo; [done|]. rewrite (proj2 (Z.eqb_neq _ _) Hvm) in Hro.
  destruct ((DirEntry.tag old =? Key.tag key) && (DirEntry.offset old =? vo)) eqn:E.
  - apply andb_true_iff in E as [E1%Z.eqb_eq E2%Z.eqb_eq]. symmetry. apply (sk_distinct _ _ Hs b i j old e); congruence.
  - repeat case_match; lia.
Qed.

Lemma published_distinct b' : distinct_offsets (bucket_of (commit_bucket d b l' c) b').
Proof using Hs Hrel Hser Hf.
  destruct (decide (b' = b)) as [->|Hb].
  - rewrite published_bucket. destruct published_new as (_ & Ho & Ht & _). intros j k e e' Hj Hk He He' Htag Hoff.
    destruct (decide (j = i)) as [->|Hji], (decide (k = i)) as [->|Hki]; [done | | |].
    + rewrite published_slot in Hj. simplify_eq. destruct (published_other k e' Hki Hk He') as [_ Hn].
      exfalso. apply (proj1 (Hn ltac:(congruence))). congruence.
    + rewrite published_slot in Hk. simplify_eq. destruct (published_other j e Hji Hj He) as [_ Hn].
      exfalso. apply (proj1 (Hn ltac:(congruence))). congruence.
    + apply (sk_distinct _ _ Hs b j k e e'); try done; by eapply published_other.
  - rewrite commit_bucket_other; [apply Hs | apply Hs | by apply bucket_index_lt, Hs | | done].
    refine (proj1 (@inserted_ok _ (stripe_admission bld) d key rel doc_size _ _ _ serial i old _ eq_refl (sk_dir _ _ Hs) _ Hser (proj1 Hf))).
    unfold fits. lia.
Qed.
End after.
End publish.

(** ** Written documents *)

(** The document as it is filled: its pass stamp and fill serial. *)
Definition stamped (d : Document) (pass serial : Z) : Document :=
  restamp d (u16 serial) (u32 pass) (hit_count d) (next_alternate_offset d) (last_access d).

Lemma stamped_ok d pass serial : doc_ok d -> doc_ok (stamped d pass serial).
Proof.
  intros Hd. pose proof Hd as (_ & _ & (_ & _ & _ & _ & _ & Hhc) & (Hna & Hla & _)). apply restamp_ok; try done.
  - apply (fits_le 16); [lia..|]. apply wrap_fits. lia.
  - apply wrap_fits. lia.
Qed.

Lemma patched_head d pass serial rest : doc_ok d ->
  patch_fill_serial (patch_pass_stamp (serialize_to d ++ rest) pass) serial = serialize_to (stamped d pass serial) ++ rest.
Proof.
  intros Hd. unfold patch_pass_stamp, patch_fill_serial.
  assert (Hw : forall d' i v, doc_ok d' -> (i < 20)%nat -> kDocumentFields !! i = Some 4%nat ->
    write_at (serialize_to d' ++ rest) (sum_sizes (take i kDocumentFields)) (le_bytes 4 v) =
    concat (<[i := le_bytes 4 v]> (wire_chunks d')) ++ rest).
  { intros d' i v Hd' Hi Hn. unfold serialize_to. apply write_at_chunk; [by apply wire_sizes | done |].
    by rewrite length_le_bytes. }
  assert (Hlen : forall d', doc_ok d' -> (length (serialize_to d' ++ rest) <? kHeaderSize)%nat = false).
  { intros d' Hd'. apply Nat.ltb_ge. rewrite length_app, length_serialize_to by done. lia. }
  rewrite Hlen by done. change kWriteSerialOffset with (sum_sizes (take 11 kDocumentFields)).
  rewrite (Hw d 11%nat) by (done || lia).
  change (concat _) with (serialize_to (restamp d (Document.fill_serial d) (u32 pass) (hit_count d) (next_alternate_offset d) (last_access d))).
  assert (Hd1 : doc_ok (restamp d (Document.fill_serial d) (u32 pass) (hit_count d) (next_alternate_offset d) (last_access d))).
  { pose proof Hd as (_ & _ & (Hfs & _ & _ & _ & _ & Hhc) & (Hna & Hla & _)). apply restamp_ok; try done. apply wrap_fits. lia. }
  rewrite Hlen by done. change kFillSerialOffset with (sum_sizes (take 10 kDocumentFields)).
  rewrite Hw by (done || lia). done.
Qed.

Lemma verify_stamped `{C0 : Checksum} d pass serial payload :
  doc_ok d -> verify_checksum (stamped d pass serial) payload = verify_checksum d payload.
Proof.
  intros Hd. unfold verify_checksum. rewrite !checksum_header_seed_canon by (done || by apply stamped_ok). done.
Qed.

(** A document found where its bytes are. *)
Lemma map_document_written file abs doc h c map_size stripe_size :
  doc_ok doc -> magic doc = kMagic -> version_major doc = kVersionMajor ->
  len doc = 132 + Z.of_nat (length h) + Z.of_nat (length c) -> 0 <= abs -> abs mod 8 = 0 ->
  subspan file (Z.to_nat abs) (132 + length h + length c) = serialize_to doc ++ h ++ c ->
  132 <= map_size -> abs + Z.max map_size (len doc) <= Z.of_nat (length file) -> len doc <= stripe_size ->
  exists rest, map_document file abs map_size stripe_size =
    Some {| r_doc := doc; r_data := serialize_to doc ++ h ++ c ++ rest; r_valid := true |}.
Proof.
  intros Hd Hm Hv Hl Ha Ha8 Hsub Hms Hlen Hss. pose proof (length_serialize_to doc Hd) as Hsl. unfold kHeaderSize in Hsl.
  assert (Hlong : forall n, (132 + length h + length c <= n)%nat -> exists rest,
    subspan file (Z.to_nat abs) n = serialize_to doc ++ h ++ c ++ rest).
  { intros n Hn. exists (drop (132 + length h + length c) (subspan file (Z.to_nat abs) n)).
    rewrite <- (take_drop (132 + length h + length c) (subspan file (Z.to_nat abs) n)) at 1.
    rewrite take_subspan, Hsub, <- !app_assoc by done. done. }
  assert (Hread : forall tl, new_shared_reader abs (serialize_to doc ++ tl) =
    {| r_doc := doc; r_data := serialize_to doc ++ tl; r_valid := true |}).
  { intros tl. unfold new_shared_reader. rewrite Ha8. simpl. by apply new_reader_serialized. }
  unfold map_document. rewrite map_region_eq by lia. cbn [mbind option_bind].
  destruct (Z.le_gt_cases (len doc) map_size) as [Hle|Hgt].
  - destruct (Hlong (Z.to_nat map_size)) as [rest Er]; [lia|]. rewrite Er, Hread. cbn [r_valid r_doc negb].
    rewrite (proj2 (Z.ltb_ge _ _)) by lia. by exists rest.
  - assert (exists tl, subspan file (Z.to_nat abs) (Z.to_nat map_size) = serialize_to doc ++ tl) as [tl Et].
    { exists (drop 132 (subspan file (Z.to_nat abs) (Z.to_nat map_size))).
      rewrite <- (take_drop 132 (subspan file (Z.to_nat abs) (Z.to_nat map_size))) at 1. f_equal.
      rewrite take_subspan by lia. rewrite <- (take_subspan file _ (132 + length h + length c)) by lia.
      rewrite Hsub. by apply take_app_length'. }
    rewrite Et, Hread. cbn [r_valid r_doc negb]. rewrite (proj2 (Z.ltb_lt _ _)), (proj2 (Z.ltb_ge _ _)) by lia.
    rewrite map_region_eq by lia. cbn [mbind option_bind]. destruct (Hlong (Z.to_nat (len doc))) as [rest Er]; [lia|].
    rewrite Er, Hread. by exists rest.
Qed.

Lemma subspan_write_at {A} (file : list A) off (src tl : list A) : (off <= length file)%nat ->
  subspan (write_at file off (src ++ tl)) off (length src) = src.
Proof.
  intros Ho. unfold subspan, write_at. rewrite drop_app_length' by (rewrite length_take; lia).
  rewrite <- !app_assoc. by rewrite take_app_length.
Qed.

(** ** Borrows *)

Lemma slot_acquire_generation slot : generation_of (snd (slot_acquire slot)) = generation_of slot /\
  fst (fst (slot_acquire slot)) = generation_of slot.
Proof.
  unfold slot_acquire. destruct (Z.eqb_spec (count_of slot) kCountMask) as [|Hne]; simpl; [done|]. split; [|done].
  pose proof (count_of_fits slot) as Hc. apply generation_of_pack; [apply generation_of_fits|].
  unfold fits in *. change kCountMask with (2 ^ 24 - 1) in Hne. lia.
Qed.

Lemma slot_at_set_slot st shard chunk v :
  slot_at (set_slot st shard chunk v) shard chunk = v \/ slot_at (set_slot st shard chunk v) shard chunk = slot_at st shard chunk.
Proof.
  unfold slot_at, set_slot. simpl. destruct (ws_slots st !! shard) as [sh|] eqn:E.
  - rewrite (nth_lookup_Some (alter _ _ _) _ _ (<[Z.to_nat chunk := v]> sh)), (nth_lookup_Some (ws_slots st) _ _ sh);
      [|done|rewrite list_lookup_alter_eq, E; done].
    destruct (Nat.lt_ge_cases (Z.to_nat chunk) (length sh)).
    + left. by apply nth_lookup_Some, list_lookup_insert_eq.
    + right. by rewrite list_insert_ge.
  - right. f_equal. f_equal. apply list_eq. intros j. destruct (decide (shard = j)) as [<-|].
    + by rewrite list_lookup_alter_eq, E.
    + by rewrite list_lookup_alter_ne.
Qed.

Lemma acquire_borrow_log cfg st shard chunk now :
  core (stamp_read_lease cfg now (snd (acquire_borrow cfg st shard chunk))) = core st.
Proof.
  unfold acquire_borrow, stamp_read_lease. destruct (c_lease_t_ns cfg =? 0); [done|].
  destruct (slot_acquire _) as [[g n] v]. done.
Qed.

Lemma acquire_borrow_counted cfg st shard chunk now :
  borrow_still_counted (stamp_read_lease cfg now (snd (acquire_borrow cfg st shard chunk)))
    (fst (acquire_borrow cfg st shard chunk)) = true.
Proof.
  unfold acquire_borrow, stamp_read_lease, borrow_still_counted. destruct (c_lease_t_ns cfg =? 0); [done|].
  set (ch := if kMaxChunks <=? chunk then kMaxChunks - 1 else chunk).
  pose proof (slot_acquire_generation (slot_at st shard ch)) as [Hgen Hfst].
  destruct (slot_acquire (slot_at st shard ch)) as [[gen counted] v]. cbn [fst snd] in *. cbn [bt_active bt_shard bt_chunk bt_generation negb].
  apply Z.eqb_eq. change (slot_at (set_lease_expiry ?x _)) with (slot_at x).
  destruct (slot_at_set_slot st shard ch v) as [->| ->]; congruence.
Qed.

(** A borrow taken with no wrap in progress and its chunk not exposed is valid. *)
Lemma fresh_borrow_valid cfg st shard chunk now epoch :
  ws_intent st = 0 -> ws_gen st <= be_threshold epoch ->
  borrow_still_valid_counted (stamp_read_lease cfg now (snd (acquire_borrow cfg st shard chunk))) epoch
    (fst (acquire_borrow cfg st shard chunk)) = true.
Proof.
  intros Hi Hg. unfold borrow_still_valid_counted. rewrite acquire_borrow_counted, andb_true_r.
  pose proof (acquire_borrow_log cfg st shard chunk now) as Hc. unfold core in Hc. injection Hc as _ _ E1 E2 _.
  unfold borrow_still_valid, wrap_intent_set. rewrite E1, E2, Hi. cbn [Z.eqb negb]. lia.
Qed.

Section read.
Context (bld : mulhi_build) `{Checksum} {C : Type} `{!RamCacheOps C} (cfg : VolumeConfig).

Lemma check_document_verified (v : Volume (C := C)) abs reader :
  verify_checksum (r_doc reader) (r_payload reader) = true ->
  exists m x, check_document bld cfg v abs reader = (true, set_checksums v m x).
Proof.
  intros Hv. unfold check_document. destruct (vc_verify_checksum_on_read cfg); cbn [negb].
  2: { exists (v_checksums v), (v_draw v). by destruct v. }
  rewrite Hv. set (token := checksum_token bld cfg abs (r_doc reader)). clearbody token.
  destruct (is_checksum_validated v abs token); [|by eexists _, _].
  unfold checksum_revalidation_due. set (x := Z.lxor _ _). clearbody x. destruct (_ =? 0); cbn [negb]; by eexists _, _.
Qed.

(** A candidate that maps to no document of the key is passed over. *)
Definition passed_over (s : Stripe) (file : list Z) (key : CacheKey) (e : DirEntry) : Prop :=
  forall r, map_document file (st_offset s + DirEntry.offset e) (approx_size e) (st_size s) = Some r -> r_first_key r <> key.

Lemma foreign_passed_over s file key e : 0 <= st_offset s -> 0 <= DirEntry.offset e -> Z.of_nat kHeaderSize <= approx_size e ->
  foreign s file key e -> passed_over s file key e.
Proof.
  intros Ho He Ha Hf r Em. apply map_document_header in Em as (data & Hd & _ & Er); [|lia..]. specialize (Hf data Hd).
  unfold r_first_key in *. by rewrite <- Er in Hf.
Qed.

Lemma read_candidate_passes env i snap key (v : Volume (C := C)) s e cls cf ec :
  v_stripes v !! i = Some s -> passed_over (ss_stripe s) (v_file v) key e ->
  let acc := {| ra_volume := v; ra_found := None; ra_checksum_failed := cf; ra_epoch_changed := ec |} in
  read_candidate bld cfg env i snap key e cls acc = (true, acc).
Proof.
  intros Hi Hf acc. unfold read_candidate. simpl. rewrite Hi.
  destruct (map_document _ _ _ _) as [r|] eqn:Em; [|done]. by rewrite bool_decide_false by by apply Hf.
Qed.

(** One whose document is this key's, admitted, bound and verified, is served. *)
Lemma read_candidate_hit env i snap key (v : Volume (C := C)) s e cls cf ec reader epoch :
  v_stripes v !! i = Some s ->
  map_document (v_file v) (st_offset (ss_stripe s) + DirEntry.offset e) (approx_size e) (st_size (ss_stripe s)) = Some reader ->
  r_first_key reader = key -> is_servable reader = true -> entry_binds e (r_doc reader) = true ->
  admit_document bld (ss_stripe s) snap cls (DirEntry.offset e) (r_doc reader) = Some epoch ->
  verify_checksum (r_doc reader) (r_payload reader) = true ->
  ws_intent (ss_log s) = 0 -> ws_gen (ss_log s) <= be_threshold epoch ->
  exists acc' h, read_candidate bld cfg env i snap key e cls
      {| ra_volume := v; ra_found := None; ra_checksum_failed := cf; ra_epoch_changed := ec |} = (false, acc') /\
    ra_found acc' = Some h /\ rh_header h = r_header reader /\ rh_content h = r_content reader /\
    rh_doc h = r_doc reader /\ rh_ram h = false.
Proof.
  intros Hi Hm Hk Hsv Hb Ha Hv Hint Hg. unfold read_candidate. cbn [ra_volume ra_found]. rewrite Hi, Hm.
  rewrite bool_decide_true, Hsv, Hb, Ha by done. cbn [negb orb].
  destruct (check_document_verified v (st_offset (ss_stripe s) + DirEntry.offset e) reader Hv) as (m & x & ->). cbn [negb].
  pose proof (fresh_borrow_valid (vc_log cfg) (ss_log s) (re_shard env) (chunk_of bld (ss_stripe s) (DirEntry.offset e))
    (re_now env) epoch Hint Hg) as Hval.
  destruct (acquire_borrow _ _ _ _) as [t log]. cbn [fst snd] in Hval. rewrite Hval. cbn [negb].
  eexists _, _. split; [reflexivity|]. done.
Qed.

(** *** Whole reads, with no copy in RAM *)

Context `{!RamCacheLaws C}.

Definition ram_absent (v : Volume (C := C)) (key : CacheKey) : Prop :=
  match v_ram v with Some c => rc_ok c /\ rc_contents c !! original key = None | None => True end.

Lemma read_ram_absent s i key (v : Volume (C := C)) : ram_absent v key ->
  exists v', read_ram cfg s i key v = Some (None, v') /\ v_stripes v' = v_stripes v /\ v_file v' = v_file v /\ ram_absent v' key.
Proof.
  unfold ram_absent, read_ram. intros Hr. destruct (v_ram v) as [c|] eqn:E; [|exists v; by rewrite E]. destruct Hr as [Hok Hn].
  destruct (rc_get_spec (original key) c Hok) as (c' & -> & Hok' & Hc'). rewrite Hn. simpl.
  eexists. split; [done|]. simpl. rewrite Hc'. done.
Qed.

Lemma select_stripe_lookup (v : Volume (C := C)) key i s : select_stripe v key = Some (i, s) -> v_stripes v !! i = Some s.
Proof.
  unfold select_stripe. destruct (v_stripes v) as [|x l] eqn:E; [done|].
  intros (s' & Hs & [= -> ->])%fmap_Some. done.
Qed.

Lemma read_fuel_pos : 0 <= vc_max_read_retries cfg < 2 ^ 32 - 1 ->
  exists n, read_fuel cfg = S n /\ (u32 (vc_max_read_retries cfg + 1) <=? 0) = false.
Proof.
  intros Hr. unfold read_fuel, u32. rewrite wrap_small by (unfold fits; lia). unfold kMaxPublishRaceRetries.
  exists (Z.to_nat (vc_max_read_retries cfg + 1 + 8)). split; [|lia]. rewrite <- Z2Nat.inj_succ by lia. reflexivity.
Qed.

(** The first attempt decides. *)
Lemma read_sync_attempt env key (v : Volume (C := C)) i s r v' :
  0 <= vc_max_read_retries cfg < 2 ^ 32 - 1 -> select_stripe v key = Some (i, s) ->
  read_attempt bld cfg env i key v = Some (Done r, v') -> read_sync bld cfg env key v = Some (r, v').
Proof.
  intros Hr Hsel Ha. unfold read_sync. rewrite Hsel. destruct (read_fuel_pos Hr) as (n & -> & E).
  cbn [retry_loop]. rewrite E, Ha. done.
Qed.

Lemma read_finds env key (v : Volume (C := C)) i s l1 e l2 epoch :
  0 <= vc_max_read_retries cfg < 2 ^ 32 - 1 -> select_stripe v key = Some (i, s) -> ram_absent v key ->
  candidates s key = l1 ++ e :: l2 ->
  (forall x cls, (x, cls) ∈ admitted (ss_stripe s) (stripe_snapshot bld s) l1 ->
     passed_over (ss_stripe s) (v_file v) key x) ->
  let cls := admit_position (ss_stripe s) (DirEntry.offset e) (phase e) (stripe_snapshot bld s) in
  forall reader, cls <> kReject ->
  map_document (v_file v) (st_offset (ss_stripe s) + DirEntry.offset e) (approx_size e) (st_size (ss_stripe s)) = Some reader ->
  r_first_key reader = key -> is_servable reader = true -> entry_binds e (r_doc reader) = true ->
  admit_document bld (ss_stripe s) (stripe_snapshot bld s) cls (DirEntry.offset e) (r_doc reader) = Some epoch ->
  verify_checksum (r_doc reader) (r_payload reader) = true ->
  ws_intent (ss_log s) = 0 -> ws_gen (ss_log s) <= be_threshold epoch ->
  exists h v', read_sync bld cfg env key v = Some (inr h, v') /\ rh_header h = r_header reader /\
    rh_content h = r_content reader /\ rh_doc h = r_doc reader /\ rh_ram h = false.
Proof.
  intros Hr Hsel Hram Hl Hbefore cls reader Hcls Hm Hk Hsv Hb Ha Hv Hint Hg.
  pose proof (select_stripe_lookup v key i s Hsel) as Hi.
  destruct (read_ram_absent s i key v Hram) as (v1 & Hram1 & Hst & Hfile & _). rewrite <- Hst in Hi. rewrite <- Hfile in Hm.
  destruct (read_candidate_hit env i (stripe_snapshot bld s) key v1 s e cls false false reader epoch Hi Hm Hk Hsv Hb Ha Hv Hint Hg)
    as (acc' & h & Hcb & Hfound & Hh).
  destruct (probe_each_stop (ss_stripe s) (stripe_snapshot bld s) (read_candidate bld cfg env i (stripe_snapshot bld s) key) l1 e l2
    {| ra_volume := v1; ra_found := None; ra_checksum_failed := false; ra_epoch_changed := false |} acc' []) as [rj Hp]; [|done|done|].
  { intros x c Hx. apply (read_candidate_passes env i _ key v1 s); [done|]. rewrite Hfile. by eapply Hbefore. }
  exists h, (record_hit cfg (ra_volume acc') s key). split; [|done].
  apply (read_sync_attempt env key v i s); [done|done|]. unfold read_attempt. rewrite (select_stripe_lookup v key i s Hsel), Hram1.
  cbn [mbind option_bind]. rewrite Hl, Hp, Hfound. done.
Qed.

Lemma read_misses env key (v : Volume (C := C)) i s :
  0 <= vc_max_read_retries cfg < 2 ^ 32 - 1 -> select_stripe v key = Some (i, s) -> ram_absent v key ->
  (forall x cls, (x, cls) ∈ admitted (ss_stripe s) (stripe_snapshot bld s) (candidates s key) ->
     passed_over (ss_stripe s) (v_file v) key x) ->
  exists v', read_sync bld cfg env key v = Some (inl ENotFound, v').
Proof.
  intros Hr Hsel Hram Hall. pose proof (select_stripe_lookup v key i s Hsel) as Hi.
  destruct (read_ram_absent s i key v Hram) as (v1 & Hram1 & Hst & Hfile & _).
  destruct (probe_each_none (ss_stripe s) (stripe_snapshot bld s) (read_candidate bld cfg env i (stripe_snapshot bld s) key)
    (candidates s key) {| ra_volume := v1; ra_found := None; ra_checksum_failed := false; ra_epoch_changed := false |} []) as (rj & Hp & Hrj);
    [|constructor|].
  { intros x c Hx. apply (read_candidate_passes env i _ key v1 s); [by rewrite Hst|]. rewrite Hfile. by eapply Hall. }
  exists v1. apply (read_sync_attempt env key v i s); [done|done|]. unfold read_attempt. rewrite Hi, Hram1. cbn [mbind option_bind].
  rewrite Hp. cbn [ra_found ra_volume ra_checksum_failed ra_epoch_changed]. rewrite Hst, Hi, (no_raced_publish _ _ _ Hrj). done.
Qed.
End read.
