(* ===== verification/VolumeCommit.v ===== *)
(** * Writes and removals of a volume, proved (Volume.v)

    The invariant of a volume, that every operation keeps; that a write which
    reports success is what the next read returns, and a removal which reports
    success makes the key unreadable; and the one way a written document is
    not found again. *)

From S2P Require Import Prelude Crc32c Key Document DirEntry Directory Geometry Stripe WriteLog RamCache LruCache Volume VolumeSpec.
Local Open Scope cyc_scope.

(** ** The size hint of an entry *)

Lemma land_le_bound a n : 0 <= n -> 0 <= a .& Z.ones n < 2 ^ n.
Proof. intros. rewrite Z.land_ones by lia. apply Z.mod_pos_bound. lia. Qed.

Lemma approx_size_min e : Z.of_nat kHeaderSize <= approx_size e.
Proof.
  pose proof (land_le_bound (w1 e >> 8) 2 ltac:(lia)) as Hb. pose proof (land_le_bound (w1 e >> 10) 6 ltac:(lia)) as Hsz.
  change (Z.ones 2) with 0x03 in Hb. change (Z.ones 6) with 0x3F in Hsz. rewrite <- big_mask in Hb. rewrite <- size_mask in Hsz.
  rewrite (approx_size_pow e (big e) (size e)) by lia. unfold kHeaderSize.
  assert (2 ^ 0 <= 2 ^ big e) by (apply Z.pow_le_mono_r; lia). nia.
Qed.

(** The stores after it leave the size hint alone. *)
Lemma approx_size_view e e' : v_big (view e) = v_big (view e') -> v_size (view e) = v_size (view e') -> approx_size e = approx_size e'.
Proof. intros Eb Es. unfold approx_size. change (size e) with (v_size (view e)). change (big e) with (v_big (view e)). by rewrite Eb, Es. Qed.

Lemma approx_size_bound e n : entry_ok e -> 0 < n < 2 ^ 64 - 4096 -> approx_size (set_approx_size e n) < n + 4096.
Proof.
  intros He Hn. destruct (approx_size_covers e n He ltac:(lia)) as (H1 & _ & H2 & _).
  destruct (Z.le_gt_cases n (2 ^ 18)); [apply H1; lia | rewrite H2; lia].
Qed.

Lemma update_entry_approx e off n serial p : entry_ok e -> fits 16 serial -> 0 < n < 2 ^ 64 - 4096 ->
  approx_size (update_entry e off n serial p) < n + 4096.
Proof.
  intros He Hs Hn. unfold update_entry.
  rewrite (approx_size_view _ (set_approx_size (set_offset e off) n)); [apply approx_size_bound; auto with cyc|..];
    rewrite view_set_phase, view_set_fill_serial by auto 10 with cyc; done.
Qed.

Lemma fill_entry_approx e off n serial t p : entry_ok e -> fits 16 serial -> 0 < n < 2 ^ 64 - 4096 ->
  approx_size (fill_entry e off n serial t p) < n + 4096.
Proof.
  intros He Hs Hn. unfold fill_entry.
  rewrite (approx_size_view _ (set_approx_size (set_offset e off) n)); [apply approx_size_bound; auto with cyc|..];
    rewrite view_set_head, view_set_phase, view_set_tag, view_set_fill_serial by auto 10 with cyc; done.
Qed.

Lemma published_approx {A} `{!InsertAdmission A} d key off n v (adm : A) serial e : entry_ok e -> fits 16 serial -> 0 < n < 2 ^ 64 - 4096 ->
  approx_size (published d key off n v adm serial e) < n + 4096.
Proof. intros He Hs Hn. unfold published. case_match; [by apply update_entry_approx | by apply fill_entry_approx; auto with cyc]. Qed.

(** ** Stripes *)

Lemma log_phase s log : log_ok s log -> forall pass f, 0 <= f <= st_chunks s -> ws_gen log = gen_at s pass f -> ws_phase log = phase_of_pass pass.
Proof.
  intros [_ _ _ (pass' & f' & Hg & Hf' & _ & Hp & _)] pass f Hf Hg'. rewrite Hp. f_equal.
  rewrite Hg in Hg'. unfold gen_at in Hg'. nia.
Qed.

Lemma state_ok_log file s log d : stripe_state_ok file s -> log_ok (ss_stripe s) log -> dir_ok d ->
  current_phase d = ws_phase log -> (forall b, distinct_offsets (bucket_of d b)) -> stripe_state_ok file (set_dir (set_log s log) d).
Proof. intros [H1 H2 H3 H4 H5 H6 H7] Hl Hd Hp Hdis. by split. Qed.

Lemma state_ok_file file file' s : stripe_state_ok file s -> (length file <= length file')%nat -> stripe_state_ok file' s.
Proof. intros [] Hl. split; try done. lia. Qed.

Lemma state_ok_epoch file s : stripe_state_ok file s -> stripe_state_ok file (bump_remove_epoch s).
Proof. by intros []. Qed.

Lemma length_write_at_ge {A} (file src : list A) off : (off <= length file)%nat -> (length file <= length (write_at file off src))%nat.
Proof. intros. unfold write_at. rewrite !length_app, length_take, length_drop. lia. Qed.

(** ** What a successful write leaves *)

Section commit.
Context (bld : mulhi_build) `{CK : Checksum} `{!ChecksumLaws CK} {C : Type} `{!RamCacheOps C, !RamCacheLaws C} (cfg : VolumeConfig).

Definition ram_ok (v : Volume (C := C)) : Prop := match v_ram v with Some c => rc_ok c | None => True end.

(** Every stripe in good order, and the RAM cache in front. *)
Record volume_ok (v : Volume (C := C)) : Prop := {
  vo_stripes : forall i s, v_stripes v !! i = Some s -> stripe_state_ok (v_file v) s;
  vo_ram : ram_ok v }.

Definition written_document (key : CacheKey) (header content : list Z) (pass serial : Z) : Document :=
  stamped (built_document (write_builder key header content) content) pass serial.

Definition write_size (header content : list Z) : Z := 132 + Z.of_nat (length header) + Z.of_nat (length content).

(** Stripe [s] resolves [key] to a document with [header] and [content]
    through entry [e], before any other of the key's documents. *)
Record resolves (file : list Z) (s : StripeState) (key : CacheKey) (header content : list Z)
    (e : DirEntry) (before after : list DirEntry) (serial : Z) : Prop := {
  rv_split : candidates s key = before ++ e :: after;
  rv_position : admit_position (ss_stripe s) (DirEntry.offset e) (phase e) (stripe_snapshot bld s) = kCurrent;
  rv_only : forall x cls, (x, cls) ∈ admitted (ss_stripe s) (stripe_snapshot bld s) before -> foreign (ss_stripe s) file key x;
  rv_bytes : subspan file (Z.to_nat (st_offset (ss_stripe s) + DirEntry.offset e)) (132 + length header + length content) =
    serialize_to (written_document key header content (snap_pass (stripe_snapshot bld s)) serial) ++ header ++ content;
  rv_bind : DirEntry.fill_serial e = u16 serial;
  rv_align : (8 | st_offset (ss_stripe s) + DirEntry.offset e);
  rv_end : DirEntry.offset e + write_size header content <= st_size (ss_stripe s);
  rv_cursor : st_offset (ss_stripe s) + DirEntry.offset e + write_size header content <= current_write_cursor (ss_stripe s) (ss_log s);
  rv_hint : approx_size e < write_size header content + 4096;
}.

(** A page of file follows what the log of stripe [i] has written. *)
Definition page_behind (i : nat) (v : Volume (C := C)) : Prop := forall s, v_stripes v !! i = Some s ->
  current_write_cursor (ss_stripe s) (ss_log s) + 4096 <= Z.of_nat (length (v_file v)).

Section resolved.
Context (key : CacheKey) (header content : list Z).
Hypothesis Hb : builder_ok (write_builder key header content) content.

Lemma written_document_spec pass serial rest :
  let d := written_document key header content pass serial in
  let r := {| r_doc := d; r_data := serialize_to d ++ header ++ content ++ rest; r_valid := true |} in
  doc_ok d /\ magic d = kMagic /\ version_major d = kVersionMajor /\ len d = write_size header content /\
  write_serial d = u32 pass /\ Document.fill_serial d = u16 serial /\
  r_first_key r = key /\ is_servable r = true /\ r_header r = header /\ r_content r = content /\
  verify_checksum (r_doc r) (r_payload r) = true.
Proof using Hb ChecksumLaws0.
  pose proof (built_document_ok _ _ Hb) as Hd. destruct (built_document_fields _ Hb) as (Em & Ev & Ek & Ef & El & Eh & Et & Eo & Etl).
  pose proof (built_document_verifies _ Hb eq_refl) as Hv. cbv zeta.
  unfold written_document. cbn [b_content b_header write_builder] in *. set (d := built_document _ _) in *. clearbody d.
  pose proof (stamped_ok d pass serial Hd) as Hsd.
  destruct (reader_spans (stamped d pass serial) header content rest) as (-> & -> & Ep); [by apply length_serialize_to | done | done |].
  rewrite Ep. unfold is_servable, has_volume_shape, r_first_key, from_digest, write_size. cbn [r_doc r_valid andb].
  rewrite verify_stamped by done. split; [done|]. do 3 (split; [done|]). do 2 (split; [done|]).
  split; [change (first_key (stamped d pass serial)) with (first_key d); rewrite Ek; by destruct key|].
  split; [|done]. unfold stamped, restamp. cbn [doc_type frag_offset len header_len total_len].
  rewrite Et, Eo, El, Eh, Etl. cbn [b_type write_builder b_frag_offset b_total_len]. unfold kHeaderSize.
  change (Type_SingleFrag =? Type_SingleFrag) with true. change (0 <? 0) with false.
  rewrite !andb_true_iff, !Z.eqb_eq, !Z.leb_le. lia.
Qed.

Lemma stripe_snapshot_at s pass f : stripe_ok (ss_stripe s) -> 0 <= f <= st_chunks (ss_stripe s) -> 0 <= pass ->
  ws_gen (ss_log s) = gen_at (ss_stripe s) pass f -> gen_at (ss_stripe s) pass f < 2 ^ 64 ->
  stripe_snapshot bld s = {|
    snap_gen := gen_at (ss_stripe s) pass f; snap_pass := pass; snap_frontier := f; snap_phase := phase_of_pass pass;
    snap_cursor_rel := if st_offset (ss_stripe s) <? current_write_cursor (ss_stripe s) (ss_log s)
      then Z.min (current_write_cursor (ss_stripe s) (ss_log s) - st_offset (ss_stripe s)) (st_size (ss_stripe s)) else 0;
    snap_frontier_rel := frontier_rel_of (ss_stripe s) f |}.
Proof. intros Hs Hf Hp Hg Hlt. unfold stripe_snapshot. by rewrite Hg, snapshot_spec. Qed.

(** A current document stamped with the pass of the snapshot is admitted, with
    a threshold the log has not reached. *)
Lemma current_admitted s rel doc : stripe_ok (ss_stripe s) -> log_ok (ss_stripe s) (ss_log s) ->
  ws_gen (ss_log s) + 2 * (st_chunks (ss_stripe s) + 1) < 2 ^ 64 ->
  data_start_rel (ss_stripe s) <= rel < st_size (ss_stripe s) -> write_serial doc = u32 (snap_pass (stripe_snapshot bld s)) ->
  exists epoch, admit_document bld (ss_stripe s) (stripe_snapshot bld s) kCurrent rel doc = Some epoch /\
    ws_gen (ss_log s) <= be_threshold epoch.
Proof.
  intros Hs [_ _ _ (pass & f & Hg & Hf & Hp & _)] Hlt Hrel Hw. pose proof (so_chunks _ Hs).
  assert (gen_at (ss_stripe s) pass f < 2 ^ 64 /\ gen_at (ss_stripe s) (pass + 2) 0 < 2 ^ 64) as [Hg1 Hg2].
  { rewrite Hg in Hlt. unfold gen_at in *. nia. }
  exists (borrow_epoch bld (ss_stripe s) pass rel). rewrite (stripe_snapshot_at s pass f) in * by done.
  unfold admit_document, stamp_admits, expected_pass. cbn [snap_pass snap_gen] in *. rewrite Hw, Z.eqb_refl.
  assert (gen_at (ss_stripe s) pass f <= be_threshold (borrow_epoch bld (ss_stripe s) pass rel)) as Hle.
  { unfold borrow_epoch. cbn [be_threshold]. rewrite exposure_threshold_spec by done.
    destruct (chunk_of_spec bld (ss_stripe s) Hs rel Hrel) as [_ Hc]. unfold gen_at. nia. }
  rewrite Hg. split; [|done]. case_match eqn:E; [by destruct (st_retain _)|]. by rewrite (proj2 (Z.ltb_ge _ _) Hle).
Qed.

Lemma resolves_read env (v : Volume (C := C)) i s e l1 l2 serial :
  0 <= vc_max_read_retries cfg < 2 ^ 32 - 1 -> volume_ok v -> select_stripe v key = Some (i, s) -> ram_absent v key ->
  ws_gen (ss_log s) + 2 * (st_chunks (ss_stripe s) + 1) < 2 ^ 64 ->
  page_behind i v ->
  resolves (v_file v) s key header content e l1 l2 serial ->
  exists h v', read_sync bld cfg env key v = Some (inr h, v') /\ rh_header h = header /\ rh_content h = content /\ rh_ram h = false.
Proof using Hb ChecksumLaws0.
  intros Hr Hv Hsel Hram Hgen Hpage [Hsplit Hpos Honly Hbytes Hbind Hal Hend Hcur Hhint].
  specialize (Hpage s (select_stripe_lookup v key i s Hsel)).
  pose proof (vo_stripes _ Hv _ _ (select_stripe_lookup v key i s Hsel)) as [Hs Hloc Hlog Hdir _ Hfile _].
  pose proof (so_offset _ Hs). assert (Harea : data_start_rel (ss_stripe s) <= DirEntry.offset e < st_size (ss_stripe s)).
  { apply in_data_area_range, (in_data_area_admitted _ _ (phase e) (stripe_snapshot bld s)). by rewrite Hpos. }
  pose proof (so_start _ Hs). set (pass := snap_pass (stripe_snapshot bld s)) in *.
  destruct (written_document_spec pass serial []) as (Hd & Em & Ev & El & Ew & Ef & _).
  destruct (current_admitted s (DirEntry.offset e) (written_document key header content pass serial) Hs Hlog Hgen Harea Ew)
    as (epoch & Hadm & Hep).
  destruct (map_document_written (v_file v) (st_offset (ss_stripe s) + DirEntry.offset e) (written_document key header content pass serial)
    header content (approx_size e) (st_size (ss_stripe s))) as [rest Hmap]; try done; try lia.
  - by apply Z.mod_divide.
  - pose proof (approx_size_min e). unfold kHeaderSize in *. lia.
  - destruct (written_document_spec pass serial rest) as (_ & _ & _ & _ & _ & _ & Ek & Esv & Eh & Ec & Evf).
    edestruct (read_finds bld cfg env key v i s l1 e l2 epoch) as (h & v' & Hread & Hh & Hc & _ & Hnr); try done; try lia.
    + intros x cls Hx. pose proof (Honly x cls Hx) as Hfx. apply elem_of_admitted in Hx as (Hx & _).
      assert (x ∈ candidates s key) as Hxc by (rewrite Hsplit; apply elem_of_app; by left).
      apply elem_of_candidates in Hxc as [Hxc _]. apply foreign_passed_over; [lia| |apply approx_size_min|done].
      apply offset_fits. pose proof (bucket_of_ok (ss_dir s) Hdir (bucket_index (ss_dir s) key)) as Hbk.
      rewrite Forall_forall in Hbk. by apply Hbk.
    + by rewrite Hpos.
    + unfold entry_binds. cbn [r_doc]. rewrite Ef, Hbind. apply Z.eqb_refl.
    + rewrite Hpos. exact Hadm.
    + apply Hlog.
    + exists h, v'. rewrite Hh, Hc. done.
Qed.
End resolved.

(** *** The fill *)

Lemma write_builder_ok key header content : key_ok key -> bytes_ok header -> bytes_ok content ->
  build_head (write_builder key header content) content <> [] -> builder_ok (write_builder key header content) content.
Proof.
  intros Hk Hh Hc Hne. split; try done.
  unfold build_head, serialize_head in Hne. cbn [b_header write_builder] in *.
  match goal with H : context [if ?c <? ?x then _ else _] |- _ => destruct (Z.ltb_spec c x); [done|] end. lia.
Qed.

Lemma fill_bytes_written key header content slot : builder_ok (write_builder key header content) content ->
  exists tail, fill_bytes slot (build_head (write_builder key header content) content) content =
    (serialize_to (written_document key header content (slot_pass slot) (slot_fill_serial slot)) ++ header ++ content) ++ tail.
Proof using ChecksumLaws0.
  intros Hb. unfold fill_bytes, build_head. rewrite serialize_head_bytes by done.
  rewrite patched_head by by apply built_document_ok. eexists. rewrite <- !app_assoc. reflexivity.
Qed.

Lemma length_build_head key header content : builder_ok (write_builder key header content) content ->
  Z.of_nat (length (build_head (write_builder key header content) content) + length content) = write_size header content.
Proof using ChecksumLaws0.
  intros Hb. unfold build_head. rewrite serialize_head_bytes, length_app, length_serialize_to by (done || by apply built_document_ok).
  unfold write_size, kHeaderSize. simpl. lia.
Qed.

(** *** The publish *)

(** A publish that goes through: the new entry stands for the key, and what
    else is admitted for it satisfies [P]. *)
Lemma insert_leads file s key vo seen clear (P : DirEntry -> Prop) rel doc_size serial :
  stripe_state_ok file s -> vo = kNoVerifiedEntry \/ (exists e, e ∈ candidates s key /\ DirEntry.offset e = vo) ->
  (forall e cls, (e, cls) ∈ admitted (ss_stripe s) (stripe_snapshot bld s) (candidates s key) -> DirEntry.offset e ∈ seen) ->
  (forall e cls, (e, cls) ∈ admitted (ss_stripe s) (stripe_snapshot bld s) (candidates s key) ->
    DirEntry.offset e ∈ clear \/ DirEntry.offset e = vo \/ P e) ->
  0 < rel < 2 ^ 40 -> fits 16 serial -> 0 < doc_size < 2 ^ 64 - 4096 ->
  let r := @insert_admitted _ (stripe_admission bld) (ss_dir s) key rel doc_size vo (admission bld s) clear (Some seen) serial in
  ir_ok r = true /\ ir_stale r = false /\ stripe_state_ok file (set_dir s (ir_dir r)) /\
  exists before e after, candidates (set_dir s (ir_dir r)) key = before ++ e :: after /\ DirEntry.offset e = rel /\
    DirEntry.fill_serial e = serial /\ phase e = current_phase (ss_dir s) /\ approx_size e < doc_size + 4096 /\
    (forall x, x ∈ before ++ after -> x ∈ candidates s key) /\
    forall x cls, (x, cls) ∈ admitted (ss_stripe s) (stripe_snapshot bld s) (before ++ after) -> P x.
Proof.
  intros Hok Hvo Hseen Heach Hrel Hser Hsz. pose proof Hok as [_ _ Hlog Hdir Hph _ _].
  destruct (@insert_admitted_commits _ (stripe_admission bld) (ss_dir s) key rel doc_size vo (admission bld s) clear (Some seen) serial
    Hdir Hrel Hser (publish_view_current bld s file key vo seen Hok Hvo Hseen rel)) as (i & old & c & Hf & Er & Hdok).
  cbv zeta in *. rewrite Er in *. cbn [ir_ok ir_stale ir_dir] in *. clear Er.
  set (b := bucket_index (ss_dir s) key) in *. set (l' := inserted _ _ _ _ _ _ _ _ _ _) in *.
  destruct (published_new bld s file key vo Hok rel doc_size serial i old Hrel Hser Hf) as (Hnok & Hno & Hnt & Hnp & Hns).
  set (new := @published _ _ _ _ _ _ _ _ _ _) in Hnok, Hno, Hnt, Hnp, Hns.
  pose proof (published_slot bld s key vo clear rel doc_size serial i old Hf) as Hslot. fold l' new in Hslot.
  pose proof (published_bucket bld s file key vo clear Hok rel doc_size serial i old c Hrel Hser Hf) as Hbk. fold l' b in Hbk.
  split; [done|]. split; [done|]. split.
  { change (stripe_state_ok file (set_dir (set_log s (ss_log s)) (commit_bucket (ss_dir s) b l' c))). apply state_ok_log; try done. intros b'.
    exact (published_distinct bld s file key vo clear Hok rel doc_size serial i old c Hrel Hser Hf b'). }
  assert (Hne : is_empty new = false) by (unfold is_empty; rewrite Hno; lia).
  eexists _, new, _. split.
  { unfold candidates, probe_matches. cbn [ss_dir set_dir]. change (bucket_index (commit_bucket (ss_dir s) b l' c) key) with b.
    rewrite Hbk, <- (take_drop_middle l' i new Hslot) at 1.
    rewrite filter_app. f_equal. rewrite filter_cons_True; [reflexivity|]. simpl. by rewrite Hne, Hnt, Z.eqb_refl. }
  split; [done|]. split; [done|]. split; [done|]. split.
  { apply published_approx; [|done|lia]. exact (Forall_lookup_1 _ _ _ _ (bucket_of_ok (ss_dir s) Hdir b) (proj1 Hf)). }
  match goal with |- (forall x, x ∈ ?l -> _) /\ _ =>
    assert (Hslots : forall x, x ∈ l -> exists j, j <> i /\ l' !! j = Some x /\ is_empty x = false /\ DirEntry.tag x = Key.tag key) end.
  { intros x Hx. pose proof (lookup_lt_Some _ _ _ Hslot) as Hil. apply elem_of_app in Hx as [Hx|Hx]; apply list_elem_of_filter in Hx as [Hx Hin];
      simpl in Hx; rewrite !andb_true_iff, negb_true_iff, Z.eqb_eq in Hx; destruct Hx as [[Hxe _] Hxt];
      apply list_elem_of_lookup in Hin as (j & Hj); pose proof (lookup_lt_Some _ _ _ Hj) as Hjl.
    - rewrite length_take in Hjl. rewrite lookup_take_lt in Hj by lia. exists j. split; [lia|done].
    - rewrite lookup_drop in Hj. exists (S i + j)%nat. split; [lia|done]. }
  split.
  - intros x (j & Hj & Hjx & Hxe & Hxt)%Hslots. apply elem_of_candidates. split; [|done]. eapply list_elem_of_lookup_2.
    by apply (published_other bld s key vo clear rel doc_size serial i old j x).
  - intros x cls (Hx & -> & Hn)%elem_of_admitted. destruct (Hslots x Hx) as (j & Hj & Hjx & Hxe & Hxt).
    by apply (published_others bld s file key vo clear P Hok Heach rel doc_size serial i old Hrel Hf j x).
Qed.

(** A position below the cursor in the current phase is a current one. *)
Lemma position_current s rel : stripe_ok (ss_stripe s) -> log_ok (ss_stripe s) (ss_log s) -> ws_gen (ss_log s) < 2 ^ 64 ->
  data_start_rel (ss_stripe s) <= rel -> st_offset (ss_stripe s) + rel + 132 <= current_write_cursor (ss_stripe s) (ss_log s) ->
  admit_position (ss_stripe s) rel (ws_phase (ss_log s)) (stripe_snapshot bld s) = kCurrent.
Proof.
  intros Hs Hlog Hlt Hrel Hend. pose proof (so_start _ Hs). pose proof (so_size _ Hs). pose proof (so_offset _ Hs).
  assert (Hcur : current_write_cursor (ss_stripe s) (ss_log s) <= st_offset (ss_stripe s) + st_size (ss_stripe s)) by apply Hlog.
  destruct Hlog as [_ _ _ (pass & f & Hg & Hf' & Hp' & Hph' & _)].
  rewrite (stripe_snapshot_at s pass f) by (done || lia). unfold admit_position. cbn [snap_phase snap_cursor_rel].
  rewrite Hph', Bool.eqb_reflx. rewrite (proj2 (in_data_area_spec (ss_stripe s) Hs rel ltac:(lia))) by (unfold kHeaderSize; lia).
  rewrite (proj2 (Z.ltb_lt (st_offset _) _)) by lia. cbn [negb]. case_match eqn:E; [done|]. apply Z.ltb_ge in E. lia.
Qed.

(** Publishing over a stripe whose slot is filled and committed resolves the
    key to what was filled. *)
Lemma publish_resolves file s key header content off serial snap0 retries :
  stripe_state_ok file s -> builder_ok (write_builder key header content) content ->
  snap_pass snap0 = snap_pass (stripe_snapshot bld s) -> ws_gen (ss_log s) < 2 ^ 64 ->
  st_data_offset (ss_stripe s) <= off -> (8 | off) ->
  off + write_size header content <= current_write_cursor (ss_stripe s) (ss_log s) ->
  subspan file (Z.to_nat off) (132 + length header + length content) =
    serialize_to (written_document key header content (snap_pass (stripe_snapshot bld s)) serial) ++ header ++ content ->
  exists r e l1 l2, publish_rounds bld retries s file snap0 key (off - st_offset (ss_stripe s)) (write_size header content) (u16 serial) = inr r /\
    stripe_state_ok file (set_dir s (ir_dir r)) /\ resolves file (set_dir s (ir_dir r)) key header content e l1 l2 serial.
Proof.
  intros Hok Hb Hp Hlt Hoff Hal Hend Hbytes. pose proof Hok as [Hs Hloc Hlog Hdir Hph Hfile Hdis].
  pose proof (so_start _ Hs) as Hst. unfold data_start_rel in Hst. pose proof (so_size _ Hs). pose proof (so_offset _ Hs).
  set (rel := off - st_offset (ss_stripe s)).
  assert (Hcur : current_write_cursor (ss_stripe s) (ss_log s) <= st_offset (ss_stripe s) + st_size (ss_stripe s)) by apply Hlog.
  assert (Hsz : 132 <= write_size header content < 2 ^ 32 + 1) by (destruct Hb; unfold kHeaderSize, write_size in *; cbn in *; lia).
  assert (Hser : fits 16 (u16 serial)) by (apply wrap_fits; lia).
  destruct (election_elected bld s file key Hok) as [Hseen Heach Hvo _ _]. set (el := run_election s file (stripe_snapshot bld s) key) in *.
  destruct (insert_leads file s key (el_offset el) (el_seen el) (el_clear el) (foreign (ss_stripe s) file key) rel (write_size header content) (u16 serial))
    as (Hiok & Hst' & Hok' & before & e & after & Hcand & Ho & Hfs & Hph' & Hap & _ & Hothers); try done; try (unfold rel; lia).
  { destruct Hvo as [|(x & cls & (Hx & _)%elem_of_admitted & Ex)]; [by left|]. right. by exists x. }
  cbv zeta in *. eexists _, e, before, after. split.
  { assert (Hw : wrapped_since bld (ss_stripe s) (ws_gen (ss_log s)) snap0 = false).
    { unfold wrapped_since. rewrite Hp. unfold stripe_snapshot, snapshot. simpl. by rewrite Z.eqb_refl. }
    destruct retries; cbn [publish_rounds]; rewrite Hw; change (Build_StripeAdmission _ _ _ _) with (admission bld s); fold el;
      rewrite Hst', Hiok; reflexivity. }
  split; [done|].
  assert (Eoff : st_offset (ss_stripe s) + rel = off) by (unfold rel; lia).
  split; cbn [ss_stripe ss_log set_dir]; try done.
  - rewrite Ho, Hph', Hph. change (stripe_snapshot bld (set_dir s _)) with (stripe_snapshot bld s).
    apply position_current; try done; unfold data_start_rel; lia.
  - intros x cls Hx. apply (Hothers x cls). apply elem_of_admitted in Hx as (Hx & Hc). apply elem_of_admitted. split; [|done]. apply elem_of_app. by left.
  - by rewrite Ho, Eoff.
  - by rewrite Ho, Eoff.
  - rewrite Ho. unfold rel. lia.
  - rewrite Ho. unfold rel. lia.
Qed.

(** *** The whole write *)

Lemma volume_ok_stripe (v : Volume (C := C)) i s : volume_ok v -> stripe_state_ok (v_file v) s -> volume_ok (set_stripe v i s).
Proof.
  intros [Hst Hram] Hs. split; [|done]. intros j s'. simpl. destruct (decide (j = i)) as [->|Hj].
  - destruct (decide (i < length (v_stripes v))%nat).
    + rewrite list_lookup_insert_eq by done. by intros [= <-].
    + rewrite list_insert_ge by lia. apply Hst.
  - rewrite list_lookup_insert_ne by done. apply Hst.
Qed.

Lemma volume_ok_file (v : Volume (C := C)) file : volume_ok v -> (length (v_file v) <= length file)%nat -> volume_ok (set_file v file).
Proof. intros [Hst Hram] Hl. split; [|done]. intros i s Hi. eapply state_ok_file; [by eapply Hst | done]. Qed.

Lemma volume_ok_evictions (v : Volume (C := C)) (r : InsertResult StripeAdmission) : volume_ok v -> volume_ok (event (evictions r v) VWrite).
Proof. intros [Hst Hram]. unfold evictions. repeat case_match; by split. Qed.

(** The tail of a write or of a removal: the RAM copies go. *)
Lemma invalidate_ram_spec drop i s (v : Volume (C := C)) m :
  volume_ok v -> stripe_state_ok (v_file v) s ->
  (forall c, rc_ok c -> exists c', drop c = Some c' /\ rc_ok c' /\ rc_contents c' = m (rc_contents c)) ->
  exists v' s', invalidate_ram drop i s v = Some v' /\ volume_ok v' /\ v_stripes v' = <[i := s']> (v_stripes v) /\
    (s' = s \/ s' = bump_remove_epoch s) /\ v_file v' = v_file v /\
    match v_ram v, v_ram v' with
    | None, None => True
    | Some c, Some c' => rc_contents c' = m (rc_contents c)
    | _, _ => False
    end.
Proof.
  intros Hv Hs Hdrop. unfold invalidate_ram. pose proof (vo_ram _ Hv) as Hram. unfold ram_ok in Hram.
  destruct (v_ram v) as [c|] eqn:E.
  - destruct (Hdrop c Hram) as (c' & -> & Hc' & Hm). cbn [mbind option_bind]. eexists _, (bump_remove_epoch s). split; [reflexivity|].
    split; [|simpl; by auto]. split; [|done].
    apply (volume_ok_stripe v i _ Hv (state_ok_epoch _ _ Hs)).
  - eexists _, s. split; [reflexivity|]. split; [by apply volume_ok_stripe|]. cbn. rewrite E. auto.
Qed.

Lemma drop_original key c : rc_ok c -> exists c', (snd <$> rc_remove (original key) c) = Some c' /\ rc_ok c' /\
  rc_contents c' = delete (original key) (rc_contents c).
Proof. intros Hc. destruct (rc_remove_spec (original key) c Hc) as (b & c' & -> & Hok & Hm & _). exists c'. done. Qed.

Lemma state_ok_synced file s log : stripe_state_ok file s -> log_ok (ss_stripe s) log ->
  stripe_state_ok file (set_dir (set_log s log) (set_current_phase (ss_dir s) (ws_phase log))).
Proof. intros Hs Hl. pose proof Hs as []. apply state_ok_log; try done. by apply set_current_phase_ok. Qed.

(** The filled and committed slot of a stripe of this process. *)
Lemma committed_slot file s key header content log slot log' err :
  stripe_state_ok file s -> gen_room s -> builder_ok (write_builder key header content) content ->
  log_ok (ss_stripe s) log -> ws_gen log <= ws_gen (ss_log s) + 2 * (st_chunks (ss_stripe s) + 1) ->
  reserved bld (ss_stripe s) log (write_size header content) slot -> slot_deferred_publish slot = true ->
  slot_holds_write_lock slot = st_use_mmap (ss_stripe s) ->
  commit_write_slot (ss_stripe s) slot true true log = (err, log') ->
  let bytes := fill_bytes slot (build_head (write_builder key header content) content) content in
  let file' := write_at file (Z.to_nat (slot_write_offset slot)) bytes in
  let s1 := set_log (set_dir (set_log s log) (set_current_phase (ss_dir s) (ws_phase log))) log' in
  err = None /\ stripe_state_ok file' s1 /\ ws_gen log' = ws_gen log /\
  slot_write_offset slot + write_size header content <= current_write_cursor (ss_stripe s) log' /\
  subspan file' (Z.to_nat (slot_write_offset slot)) (132 + length header + length content) =
    serialize_to (written_document key header content (snap_pass (stripe_snapshot bld s1)) (slot_fill_serial slot)) ++ header ++ content.
Proof using ChecksumLaws0.
  intros Hs Hg Hb Hlog Hle Hres Hdef Hlock Hc bytes file' s1. pose proof Hs as [Hst Hloc _ _ _ Hfile _].
  assert (Hsz : 132 <= write_size header content) by (unfold write_size; lia). unfold gen_room in Hg.
  pose proof (commit_publishes bld (ss_stripe s) Hst (write_size header content) log slot true true Hlog Hres Hdef Hlock ltac:(lia) ltac:(lia)) as Hcp.
  rewrite Hc in Hcp. destruct Hcp as (Hlog' & Hgen' & Herr & Hcur). cbn [andb orb] in Hcur.
  assert (Hn : err = None /\ ws_phase log' = ws_phase log).
  { revert Hc. unfold commit_write_slot. rewrite Hdef, Hlock, Hloc. cbn [negb]. by intros [= <- <-]. }
  destruct Hn as [-> Hph]. split; [done|]. pose proof (so_start _ Hst) as Hstart. unfold data_start_rel in Hstart. pose proof (so_offset _ Hst).
  pose proof (rs_area _ _ _ _ _ Hres) as [Ha1 Ha2]. pose proof (rs_room _ _ _ _ _ Hres) as Hroom.
  assert (Hin : (Z.to_nat (slot_write_offset slot) <= length file)%nat) by lia.
  assert (Hlen : (length file <= length file')%nat) by by apply length_write_at_ge.
  split; [|split; [done|split; [rewrite Hcur; lia|]]].
  { apply (state_ok_file file); [|done]. pose proof (state_ok_synced file s log Hs Hlog) as [].
    split; try done. }
  assert (Hpass : snap_pass (stripe_snapshot bld s1) = slot_pass slot).
  { rewrite (rs_pass _ _ _ _ _ Hres). unfold stripe_snapshot, snapshot. cbn. by rewrite Hgen'. }
  rewrite Hpass. unfold file', bytes. destruct (fill_bytes_written key header content slot Hb) as [tail ->].
  assert (Hl : length (serialize_to (written_document key header content (slot_pass slot) (slot_fill_serial slot)) ++ header ++ content) =
    (132 + length header + length content)%nat).
  { rewrite !length_app, length_serialize_to; [unfold kHeaderSize; lia|]. by apply stamped_ok, built_document_ok. }
  rewrite <- Hl. by apply subspan_write_at.
Qed.

Definition write_lands (v : Volume (C := C)) (i : nat) (s : StripeState) (key : CacheKey) (header content : list Z) (v' : Volume (C := C)) : Prop :=
  exists s' e l1 l2 serial, v_stripes v' = <[i := s']> (v_stripes v) /\ ss_stripe s' = ss_stripe s /\
    ws_gen (ss_log s') + 2 * (st_chunks (ss_stripe s') + 1) < 2 ^ 64 /\ ram_absent v' key /\
    (length (v_file v) <= length (v_file v'))%nat /\ builder_ok (write_builder key header content) content /\
    resolves (v_file v') s' key header content e l1 l2 serial.

Lemma resolves_epoch file s key header content e l1 l2 serial s' : s' = s \/ s' = bump_remove_epoch s ->
  resolves file s key header content e l1 l2 serial -> resolves file s' key header content e l1 l2 serial.
Proof. by intros [->| ->] []. Qed.

Lemma commit_write_spec env i generation key header content (v : Volume (C := C)) s :
  volume_ok v -> v_stripes v !! i = Some s -> gen_room s -> key_ok key -> bytes_ok header -> bytes_ok content ->
  c_advance_cursor_at_reservation (vc_log cfg) = false ->
  exists r v', commit_write bld cfg env i generation key header content v = Some (r, v') /\ volume_ok v' /\
    (r = inr tt -> write_lands v i s key header content v').
Proof using ChecksumLaws0 RamCacheLaws0.
  intros Hv Hi Hg Hk Hh Hc Hseam. pose proof (vo_stripes _ Hv _ _ Hi) as Hs. pose proof Hs as [Hst Hloc Hlog Hdir _ Hfile _].
  unfold commit_write. destruct (v_generation v =? generation); cbn [negb]; [|by eexists _, _].
  rewrite Hi. destruct (ss_owned s); cbn [negb]; [|by eexists _, _].
  case_bool_decide as Hne; [by eexists _, _|]. pose proof (write_builder_ok key header content Hk Hh Hc Hne) as Hb. clear Hne.
  rewrite (length_build_head key header content Hb).
  assert (Hsz : 0 < write_size header content < 2 ^ 63) by (destruct Hb; unfold kHeaderSize, write_size in *; cbn in *; lia).
  unfold gen_room in Hg.
  pose proof (allocate_spec bld (ss_stripe s) Hst (vc_log cfg) (we_lock env) (we_now1 env) (we_now2 env) (write_size header content) (ss_log s)
    Hlog ltac:(pose proof (so_chunks _ Hst); lia) Hsz ltac:(congruence) Hseam) as Hal.
  destruct (allocate_write_slot _ _ _ _ _ _ _ _) as [res log]. destruct Hal as (Hlog1 & Hgen1 & Hal).
  pose proof (state_ok_synced _ _ _ Hs Hlog1) as Hs1. set (s1 := set_dir (set_log s log) _) in *.
  destruct res as [err|slot]; [eexists _, _; split; [done|]; split; [by apply volume_ok_stripe|done]|].
  destruct Hal as (Hres & Hdef & Hlock & _). set (bytes := fill_bytes _ _ _).
  pose proof (so_start _ Hst) as Hstart. unfold data_start_rel in Hstart. pose proof (so_offset _ Hst).
  pose proof (rs_area _ _ _ _ _ Hres) as [Ha1 Ha2]. pose proof (rs_room _ _ _ _ _ Hres) as Hroom.
  assert (Hin : (Z.to_nat (slot_write_offset slot) <= length (v_file v))%nat) by lia.
  cbn [ss_stripe set_dir set_log]. change (ss_stripe s1) with (ss_stripe s).
  destruct (Nat.leb_spec (length bytes) (we_written env)) as [Hwr|Hwr].
  2: { unfold commit_write_slot. rewrite Hdef, Hlock, Hloc. cbn [negb]. eexists _, _. split; [done|]. split; [|done].
       apply volume_ok_stripe.
       - apply volume_ok_file; [done|]. by apply length_write_at_ge.
       - cbn [v_file set_file]. apply (state_ok_file (v_file v)); [|by apply length_write_at_ge].
         change (set_log s1 log) with s1. done. }
  assert (Hvalid : commit_write_slot (ss_stripe s) slot true (we_lock_valid env) log = commit_write_slot (ss_stripe s) slot true true log).
  { unfold commit_write_slot. rewrite Hdef, Hlock, Hloc. done. }
  rewrite Hvalid, take_ge by done.
  destruct (commit_write_slot (ss_stripe s) slot true true log) as [err log'] eqn:Ec.
  destruct (committed_slot (v_file v) s key header content log slot log' err Hs Hg Hb Hlog1 ltac:(lia) Hres Hdef Hlock Ec)
    as (-> & Hs2 & Hgen2 & Hcur & Hbytes). cbv zeta in Hs2, Hbytes. fold bytes s1 in Hs2, Hbytes.
  set (file' := write_at _ _ _) in *. assert (Hlen : (length (v_file v) <= length file')%nat) by by apply length_write_at_ge.
  cbn [negb]. rewrite (proj2 (Z.ltb_ge _ _)), (proj2 (Z.ltb_ge (st_size _) _)) by lia. cbn [orb].
  destruct (publish_resolves file' (set_log s1 log') key header content (slot_write_offset slot) (slot_fill_serial slot)
    (stripe_snapshot bld s1) kMaxStalePublishRetries) as (r & e & l1 & l2 & Hpub & Hs3 & Hr3); try done.
  - unfold stripe_snapshot, snapshot. cbn. by rewrite Hgen2.
  - cbn. lia.
  - apply (rs_align _ _ _ _ _ Hres).
  - change (ss_stripe (set_log s1 log')) with (ss_stripe s) in Hpub. rewrite Hpub.
    pose proof (volume_ok_evictions (set_file v file') r (volume_ok_file v file' Hv Hlen)) as Hv3.
    set (v3 := event _ _) in *. assert (Ev3 : v_stripes v3 = v_stripes v /\ v_file v3 = file').
    { unfold v3, evictions. by repeat case_match. }
    destruct Ev3 as [Est Efl].
    destruct (invalidate_ram_spec (fun c => snd <$> rc_remove (original key) c) i (set_dir (set_log s1 log') (ir_dir r)) v3
      (delete (original key)) Hv3 ltac:(by rewrite Efl) (drop_original key)) as (v' & s' & -> & Hv' & Est' & Hs' & Efl' & Hram').
    cbn [mbind option_bind]. eexists _, _. split; [done|]. split; [done|]. intros _.
    exists s', e, l1, l2, (slot_fill_serial slot). rewrite Est', Est, Efl', Efl.
    split; [done|]. split; [by destruct Hs' as [->| ->]|]. split; [destruct Hs' as [->| ->]; cbn; lia|].
    split; [|split; [done|split; [done|by eapply resolves_epoch]]].
    unfold ram_absent. pose proof (vo_ram _ Hv') as Hro. unfold ram_ok in Hro. destruct (v_ram v'), (v_ram v3); try done.
    split; [done|]. rewrite Hram'. apply lookup_delete_eq.
Qed.

(** *** Removals *)

Lemma remove_at_frame d key off : bucket_index (snd (remove_at d key off)) = bucket_index d /\
  current_phase (snd (remove_at d key off)) = current_phase d.
Proof. unfold remove_at. destruct (clear_at _ _ _) as [l n]. by destruct (n =? 0). Qed.

(** Clearing the listed offsets only removes entries, and every one of the
    key's tag at one of them. *)
Lemma remove_entries_spec key l d : dir_ok d ->
  let d' := snd (remove_entries d key l) in
  dir_ok d' /\ bucket_index d' = bucket_index d /\ current_phase d' = current_phase d /\
  (forall b j e, bucket_of d' b !! j = Some e -> is_empty e = false -> bucket_of d b !! j = Some e) /\
  (forall e, e ∈ bucket_of d' (bucket_index d key) -> is_empty e = false -> DirEntry.tag e = Key.tag key -> DirEntry.offset e ∉ l.*1) /\
  (forall b j e, bucket_of d b !! j = Some e ->
     DirEntry.offset e ∈ l.*1 /\ DirEntry.tag e = Key.tag key /\ b = bucket_index d key \/ bucket_of d' b !! j = Some e).
Proof.
  revert d. induction l as [|[off live] l IH]; intros d Hd; cbn [remove_entries].
  { cbn [snd]. split_and!; auto. intros e _ _ _ ?%not_elem_of_nil. done. }
  pose proof (remove_at_exact d key off Hd) as Hr. pose proof (remove_at_frame d key off) as [Hb Hp].
  destruct (remove_at d key off) as [removed d1]. cbn [snd] in Hb, Hp. destruct Hr as (Hd1 & _ & Hsame & Hoth). cbv zeta in Hsame, Hoth.
  specialize (IH d1 Hd1). destruct (remove_entries d1 key l) as [rest d2]. cbn [snd] in *. rewrite Hb, Hp in IH.
  destruct IH as (Hd2 & Hb2 & Hp2 & Hsub & Hgone & Hkept).
  assert (Hone : forall b j e, bucket_of d1 b !! j = Some e -> is_empty e = false -> bucket_of d b !! j = Some e /\
    (b = bucket_index d key -> DirEntry.tag e = Key.tag key -> DirEntry.offset e <> off)).
  { intros b j e Hj Hne. destruct (decide (b = bucket_index d key)) as [->|Hbk]; [|by rewrite <- Hoth].
    assert (exists x, bucket_of d (bucket_index d key) !! j = Some x) as [x Hx].
    { apply lookup_lt_is_Some. rewrite length_bucket_of, <- (length_bucket_of d1 Hd1 (bucket_index d key))
        by (done || by apply bucket_index_lt || (rewrite <- Hb; by apply bucket_index_lt)). by eapply lookup_lt_Some. }
    destruct (Hsame j x Hx) as [[_ Hy]|[Hn Hy]]; rewrite Hj in Hy; injection Hy as ->; [done|]. split; [done|]. intros _ Ht Ho. by apply Hn. }
  split; [done|]. split; [done|]. split; [done|]. split; [|split].
  - intros b j e Hj Hne. by eapply Hone, Hne; apply Hsub.
  - intros e He Hne Ht. cbn. rewrite elem_of_cons. intros [Ho|Ho]; [|by eapply Hgone].
    apply list_elem_of_lookup in He as (j & Hj). destruct (Hone _ j e (Hsub _ _ _ Hj Hne) Hne) as [_ Hno]. by apply Hno.
  - intros b j e Hj. cbn. rewrite elem_of_cons. destruct (decide (b = bucket_index d key)) as [->|Hbk].
    + destruct (Hsame j e Hj) as [[(Hne & Ht & Ho) _]|[_ Hy]]; [by auto|]. destruct (Hkept _ _ _ Hy) as [(? & ? & ?)|?]; auto.
    + rewrite <- Hoth in Hj by done. destruct (Hkept _ _ _ Hj) as [(? & ? & ?)|?]; auto.
Qed.

Lemma collect_all l acc : (length acc + length l <= kEntriesPerBucket)%nat ->
  fold_left (fun a c => snd (collect c.1 c.2 a)) l acc = acc ++ l.
Proof.
  revert acc. induction l as [|[e cls] l IH]; intros acc Hl; simpl in *; [by rewrite app_nil_r|].
  rewrite (proj2 (Nat.ltb_lt _ _)) by lia. rewrite IH by (rewrite length_app; simpl; lia). by rewrite <- app_assoc.
Qed.

Lemma select_stripe_insert (v v' : Volume (C := C)) key i s s' : select_stripe v key = Some (i, s) ->
  v_stripes v' = <[i := s']> (v_stripes v) -> select_stripe v' key = Some (i, s').
Proof.
  intros Hsel E. pose proof (select_stripe_lookup v key i s Hsel) as Hi. revert Hsel. unfold select_stripe. rewrite E.
  destruct (v_stripes v) as [|x l] eqn:Ev; [done|]. rewrite <- Ev in *.
  intros (s0 & Hs0 & [= -> ->])%fmap_Some. destruct (<[_ := s']> (v_stripes v)) as [|y l'] eqn:El.
  { apply (f_equal length) in El. rewrite length_insert, Ev in El. done. }
  rewrite <- El, length_insert, list_lookup_insert_eq by by eapply lookup_lt_Some. done.
Qed.

Lemma drop_all key c : rc_ok c -> exists c', rc_remove_all key c = Some c' /\ rc_ok c' /\ rc_contents c' = other_keys key (rc_contents c).
Proof. apply rc_remove_all_spec. Qed.

(** What a removal leaves: nothing of the key that a read would serve from
    the file. *)
Definition key_cleared (file : list Z) (s : StripeState) (key : CacheKey) : Prop :=
  forall x cls, (x, cls) ∈ admitted (ss_stripe s) (stripe_snapshot bld s) (candidates s key) -> passed_over (ss_stripe s) file key x.

Lemma removal_clears file s key : stripe_state_ok file s ->
  let snap := stripe_snapshot bld s in
  let found := fst (probe_each (ss_stripe s) snap collect (candidates s key) [] []) in
  let d' := snd (remove_entries (ss_dir s) key (omap (verify_candidate s file snap key) found)) in
  stripe_state_ok file (set_dir s d') /\ key_cleared file (set_dir s d') key.
Proof.
  intros Hs snap found d'. pose proof Hs as [Hst Hloc Hlog Hdir Hph Hfile Hdis].
  assert (Hfound : found = admitted (ss_stripe s) snap (candidates s key)).
  { unfold found. rewrite probe_each_fold, collect_all by done || (simpl; etransitivity; [apply length_admitted | by apply length_candidates]).
    done. }
  destruct (remove_entries_spec key (omap (verify_candidate s file snap key) found) (ss_dir s) Hdir) as (Hd' & Hb & Hp & Hsub & Hgone & _).
  fold d' in Hd', Hb, Hp, Hsub, Hgone. split.
  - change (stripe_state_ok file (set_dir (set_log s (ss_log s)) d')). apply state_ok_log; try done; [congruence|].
    intros b j k e e' Hj Hk He He'. apply (Hdis b); try done; by apply Hsub.
  - intros x cls (Hx & -> & Hn)%elem_of_admitted r Hmap Hkey. cbn [ss_stripe set_dir ss_dir] in *.
    change (stripe_snapshot bld (set_dir s d')) with snap in *. apply elem_of_candidates in Hx as (Hx & Hne & Ht).
    cbn [ss_dir set_dir] in Hx. rewrite Hb in Hx. apply (Hgone x Hx Hne Ht). apply list_elem_of_fmap.
    exists (DirEntry.offset x, stamp_admits (ss_stripe s) snap (admit_position (ss_stripe s) (DirEntry.offset x) (phase x) snap) (r_doc r) &&
      entry_binds x (r_doc r)). split; [done|]. apply list_elem_of_omap.
    exists (x, admit_position (ss_stripe s) (DirEntry.offset x) (phase x) snap). split.
    + rewrite Hfound. apply elem_of_admitted. split; [|done]. apply elem_of_candidates. split; [|done].
      apply list_elem_of_lookup in Hx as (j & Hj). eapply list_elem_of_lookup_2. by apply Hsub.
    + unfold verify_candidate. rewrite Hmap. cbn [mbind option_bind]. by rewrite bool_decide_true.
Qed.

Lemma remove_sync_spec key (v : Volume (C := C)) i s : volume_ok v -> select_stripe v key = Some (i, s) ->
  exists r v', remove_sync bld key v = Some (r, v') /\ volume_ok v' /\
    (ss_owned s = true -> exists s', v_stripes v' = <[i := s']> (v_stripes v) /\ v_file v' = v_file v /\
       key_cleared (v_file v') s' key) /\
    (r = inr tt -> ss_owned s = true /\ ram_absent v' key).
Proof using RamCacheLaws0.
  intros Hv Hsel. pose proof (vo_stripes _ Hv _ _ (select_stripe_lookup v key i s Hsel)) as Hs.
  unfold remove_sync. rewrite Hsel. destruct (ss_owned s); cbn [negb]; [|by eexists _, _].
  destruct (removal_clears (v_file v) s key Hs) as [Hs' Hclear]. cbv zeta in Hs', Hclear.
  destruct (remove_entries _ _ _) as [live d']. cbn [snd] in *. destruct live.
  - destruct (invalidate_ram_spec (rc_remove_all key) i (set_dir s d') v (other_keys key) Hv Hs' (drop_all key))
      as (v' & s' & -> & Hv' & Est & Hcase & Efl & Hram). cbn [mbind option_bind]. eexists _, _. split; [done|]. split; [done|]. split.
    + intros _. exists s'. rewrite Efl. split; [done|]. split; [done|]. by destruct Hcase as [->| ->].
    + intros _. split; [done|]. unfold ram_absent. pose proof (vo_ram _ Hv') as Hro. unfold ram_ok in Hro.
      destruct (v_ram v'), (v_ram v); try done. split; [done|]. rewrite Hram. unfold other_keys.
      apply map_lookup_filter_None. right. intros x _. simpl. naive_solver.
  - eexists _, _. split; [done|]. split; [by apply volume_ok_stripe|]. split; [|done]. intros _. by eexists.
Qed.

(** *** Reads *)

Lemma core_release_borrow adm st t : core (release_borrow adm st t) = core st.
Proof. unfold release_borrow. by repeat case_match. Qed.

Lemma state_ok_core file s log : stripe_state_ok file s -> core log = core (ss_log s) -> stripe_state_ok file (set_log s log).
Proof.
  intros [] Hc. split; try done; [by apply (log_ok_core _ (ss_log s))|]. unfold core in Hc. injection Hc as _ _ _ _ E. cbn. congruence.
Qed.

Lemma check_document_ok (v v' : Volume (C := C)) abs reader ok : check_document bld cfg v abs reader = (ok, v') ->
  exists m x, v' = set_checksums v m x.
Proof.
  unfold check_document. assert (Hv : v = set_checksums v (v_checksums v) (v_draw v)) by by destruct v.
  destruct (vc_verify_checksum_on_read cfg); cbn [negb]; [|intros [= _ <-]; by eexists _, _].
  set (token := checksum_token _ _ _ _). clearbody token. set (ok0 := verify_checksum _ _). clearbody ok0.
  assert (Hmark : forall w m x, w = set_checksums v m x -> exists m' x', (if ok0 then (true, mark_checksum_validated w abs token)
    else (false, forget_checksum_validated w abs token)) = (ok0, set_checksums v m' x')).
  { intros w m x ->. unfold mark_checksum_validated, forget_checksum_validated. destruct ok0; [by eexists _, _|].
    destruct (_ =? token); by eexists _, _. }
  destruct (is_checksum_validated v abs token).
  - unfold checksum_revalidation_due. set (x := Z.lxor (Z.lxor _ _) _). clearbody x. destruct (_ =? 0); cbn [negb].
    + destruct (Hmark (set_checksums v (v_checksums v) x) _ _ eq_refl) as (m' & x' & ->). intros [= _ <-]. by eexists _, _.
    + intros [= _ <-]. by eexists _, _.
  - cbn [negb]. destruct (Hmark _ _ _ Hv) as (m' & x' & ->). intros [= _ <-]. by eexists _, _.
Qed.

Definition acc_ok (acc : ReadAcc (C := C)) : Prop := volume_ok (ra_volume acc).

Lemma read_candidate_ok env i snap key e cls acc : acc_ok acc -> acc_ok (snd (read_candidate bld cfg env i snap key e cls acc)).
Proof.
  unfold acc_ok, read_candidate. intros Hv. destruct (ra_found acc); [done|]. destruct (v_stripes (ra_volume acc) !! i) as [s|] eqn:Hi; [|done].
  pose proof (vo_stripes _ Hv _ _ Hi) as Hs. destruct (map_document _ _ _ _) as [r|]; [|done]. case_match; [done|].
  destruct (admit_document _ _ _ _ _ _) as [epoch|]; [|done]. destruct (check_document _ _ _ _ _) as [ok v'] eqn:Ec.
  apply check_document_ok in Ec as (m & x & ->). assert (Hv' : volume_ok (set_checksums (ra_volume acc) m x)) by (by destruct Hv).
  set (v' := set_checksums _ m x) in *. assert (Hs' : stripe_state_ok (v_file v') s) by done. clearbody v'.
  destruct ok; cbn [negb]; [|done].
  pose proof (acquire_borrow_log (vc_log cfg) (ss_log s) (re_shard env) (chunk_of bld (ss_stripe s) (DirEntry.offset e)) (re_now env)) as Hc.
  destruct (acquire_borrow _ _ _ _) as [t log]. cbn [snd] in Hc. case_match; cbn [snd ra_volume].
  - apply volume_ok_stripe; [done|]. apply state_ok_core; [done|]. by rewrite core_release_borrow.
  - assert (Hset : volume_ok (set_stripe v' i (set_log s (stamp_read_lease (vc_log cfg) (re_now env) log)))).
    { apply volume_ok_stripe; [done|]. by apply state_ok_core. }
    destruct Hset. destruct cls; by split.
Qed.

Lemma probe_each_invariant {A} (P : A -> Prop) s snap (cb : DirEntry -> AdmitClass -> A -> bool * A) l acc rj :
  (forall e cls a, P a -> P (snd (cb e cls a))) -> P acc -> P (fst (probe_each s snap cb l acc rj)).
Proof.
  intros Hcb. revert acc rj. induction l as [|e l IH]; intros acc rj Ha; simpl; [done|].
  destruct (admit_position _ _ _ _); [by apply IH|..].
  - pose proof (Hcb e kCurrent acc Ha). destruct (cb e kCurrent acc) as [[] a]; [by apply IH | done].
  - pose proof (Hcb e kRetained acc Ha). destruct (cb e kRetained acc) as [[] a]; [by apply IH | done].
Qed.

Lemma volume_ok_ram (v : Volume (C := C)) c : volume_ok v -> rc_ok c -> volume_ok (set_ram v c).
Proof. by intros [] Hc. Qed.

Lemma read_ram_ok s i key (v : Volume (C := C)) : volume_ok v ->
  exists r v', read_ram cfg s i key v = Some (r, v') /\ volume_ok v'.
Proof using RamCacheLaws0.
  intros Hv. pose proof (vo_ram _ Hv) as Hram. unfold ram_ok in Hram. unfold read_ram. destruct (v_ram v) as [c|]; [|by eexists _, _].
  destruct (rc_get_spec (original key) c Hram) as (c' & -> & Hok & _). cbn [mbind option_bind].
  pose proof (volume_ok_ram v c' Hv Hok) as Hv'. destruct (rc_contents c !! original key) as [[data stamp]|]; [|by eexists _, _].
  case_match.
  - destruct (rc_remove_spec (original key) c' Hok) as (b & c2 & -> & Hok2 & _). cbn [mbind option_bind].
    eexists _, _. split; [done|]. destruct (volume_ok_ram _ c2 Hv' Hok2). by split.
  - case_match; [|by eexists _, _]. eexists _, _. split; [done|]. destruct Hv'. unfold record_hit. case_match; by split.
Qed.

Lemma read_attempt_ok env i key (v : Volume (C := C)) : volume_ok v ->
  exists a v', read_attempt bld cfg env i key v = Some (a, v') /\ volume_ok v'.
Proof using RamCacheLaws0.
  intros Hv. unfold read_attempt. destruct (v_stripes v !! i) as [s|]; [|by eexists _, _].
  destruct (read_ram_ok s i key v Hv) as ([h|] & v1 & -> & Hv1); cbn [mbind option_bind]; [by eexists _, _|].
  pose proof (probe_each_invariant acc_ok (ss_stripe s) (stripe_snapshot bld s) (read_candidate bld cfg env i (stripe_snapshot bld s) key)
    (candidates s key) {| ra_volume := v1; ra_found := None; ra_checksum_failed := false; ra_epoch_changed := false |} []
    (fun e cls a => read_candidate_ok env i _ key e cls a) Hv1) as Hacc.
  destruct (probe_each _ _ _ _ _ _) as [acc rj]. cbn [fst] in Hacc. unfold acc_ok in Hacc.
  repeat case_match; eexists _, _; (split; [done|]); try done. unfold record_hit. destruct Hacc. case_match; by split.
Qed.

(** An attempt is spent, or one of the bought-back ones is: the loop ends. *)
Lemma retry_total {R} fuel (try : Volume (C := C) -> option (attempt R * Volume (C := C))) exhausted left races saw v :
  (forall w, volume_ok w -> exists a w', try w = Some (a, w') /\ volume_ok w') ->
  0 <= races <= kMaxPublishRaceRetries -> Z.max 0 left + (kMaxPublishRaceRetries - races) < Z.of_nat fuel -> volume_ok v ->
  exists r v', retry_loop fuel try exhausted left races saw v = Some (r, v') /\ volume_ok v'.
Proof.
  intros Htry. revert left races saw v. induction fuel as [|fuel IH]; intros left races saw v Hra Hfuel Hv;
    [unfold kMaxPublishRaceRetries in *; lia|].
  cbn [retry_loop]. destruct (Z.leb_spec left 0); [by eexists _, _|].
  destruct (Htry v Hv) as (a & v1 & -> & Hv1). cbn [mbind option_bind].
  destruct a as [r| |failed]; [by eexists _, _| |].
  - case_match eqn:E; [apply Z.ltb_lt in E|]; apply IH; try done; lia.
  - apply IH; try done; lia.
Qed.

Lemma retry_read_fuel {R} (try : Volume (C := C) -> option (attempt R * Volume (C := C))) exhausted v :
  (forall w, volume_ok w -> exists a w', try w = Some (a, w') /\ volume_ok w') -> volume_ok v ->
  exists r v', retry_loop (read_fuel cfg) try exhausted (u32 (vc_max_read_retries cfg + 1)) 0 false v = Some (r, v') /\ volume_ok v'.
Proof.
  intros Htry Hv. pose proof (wrap_fits 32 (vc_max_read_retries cfg + 1) ltac:(lia)) as Hf. unfold fits in Hf.
  apply retry_total; [done|unfold kMaxPublishRaceRetries; lia| |done]. unfold read_fuel, u32 in *. unfold kMaxPublishRaceRetries. lia.
Qed.

(** What the loop returns, an attempt returned. *)
Lemma retry_done_inv {R} fuel (try : Volume (C := C) -> option (attempt R * Volume (C := C))) exhausted left races saw v r v' :
  retry_loop fuel try exhausted left races saw v = Some (inr r, v') -> exists w, try w = Some (Done (inr r), v').
Proof.
  revert left races saw v. induction fuel as [|fuel IH]; intros left races saw v; [done|]. cbn [retry_loop]. case_match; [done|].
  intros ([a w] & Ha & Hrest)%bind_Some. destruct a as [x| |]; [|destruct (races <? kMaxPublishRaceRetries); by eapply IH|by eapply IH].
  injection Hrest as -> ->. by exists v.
Qed.

Lemma read_sync_ok env key (v : Volume (C := C)) : volume_ok v ->
  exists r v', read_sync bld cfg env key v = Some (r, v') /\ volume_ok v'.
Proof using RamCacheLaws0.
  intros Hv. unfold read_sync. destruct (select_stripe v key) as [[i s]|]; [|by eexists _, _].
  apply retry_read_fuel; [|done]. intros w Hw. by apply read_attempt_ok.
Qed.

(** ** Existence *)

Lemma probe_first s snap l rj : (exists e, e ∈ l /\ admit_position s (DirEntry.offset e) (phase e) snap <> kReject) ->
  exists rj', probe_each s snap (fun _ _ _ => (false, true)) l false rj = (true, rj').
Proof.
  intros (e & He & Ha). revert rj. induction l as [|x l IH]; intros rj; [by apply not_elem_of_nil in He|]. simpl.
  destruct (admit_position s (DirEntry.offset x) _ _) eqn:E; [|by eexists..].
  apply IH. apply elem_of_cons in He as [->|He]; done.
Qed.

Lemma resolves_exists (v : Volume (C := C)) i s key header content e l1 l2 serial : 0 <= vc_max_read_retries cfg < 2 ^ 32 - 1 ->
  select_stripe v key = Some (i, s) -> resolves (v_file v) s key header content e l1 l2 serial ->
  exists_sync bld cfg key v = Some (inr true).
Proof.
  intros Hr Hsel [Hsplit Hpos _ _ _ _ _ _]. unfold exists_sync. rewrite Hsel. destruct (read_fuel_pos cfg Hr) as (n & -> & E).
  cbn [exists_loop]. rewrite E. destruct (probe_first (ss_stripe s) (stripe_snapshot bld s) (candidates s key) []) as [rj ->]; [|done].
  exists e. rewrite Hsplit, Hpos. split; [apply elem_of_app; right; left | done].
Qed.

(** ** Write handles *)

(** The chunks of a body, each admitted. *)
Fixpoint write_all (v : Volume (C := C)) (h : WriteHandle) (chunks : list (list Z)) : option WriteHandle :=
  match chunks with
  | [] => Some h
  | data :: chunks => match handle_write cfg v h data with (inr _, h) => write_all v h chunks | (inl _, _) => None end
  end.

Lemma write_all_spec v h chunks h' : write_all v h chunks = Some h' ->
  wh_content h' = wh_content h ++ concat chunks /\ wh_stripe h' = wh_stripe h /\ wh_generation h' = wh_generation h /\
  wh_key h' = wh_key h /\ wh_header h' = wh_header h /\ wh_closed h' = wh_closed h /\ wh_aborted h' = wh_aborted h.
Proof.
  revert h. induction chunks as [|data chunks IH]; intros h; simpl.
  - intros [= ->]. by rewrite app_nil_r.
  - unfold handle_write. destruct (admit_append _ _ _ _); [done|]. intros Hw%IH. cbn in Hw. by rewrite <- app_assoc in Hw.
Qed.

(** What the handle buffers stays below what a document can hold. *)
Lemma admit_append_room (v : Volume (C := C)) h n : admit_append cfg v h n = None -> n <= kMaxContentSize - wh_written h.
Proof.
  unfold admit_append. do 3 (case_match; [done|]). case_match eqn:E; [done|]. apply orb_false_iff in E as [_ E]. intros _. lia.
Qed.

Lemma write_all_bounded v h chunks h' : wh_written h = Z.of_nat (length (wh_content h)) -> wh_written h <= kMaxContentSize ->
  write_all v h chunks = Some h' -> wh_written h' = Z.of_nat (length (wh_content h')) /\ wh_written h' <= kMaxContentSize.
Proof.
  revert h. induction chunks as [|data chunks IH]; intros h Hw Hm; simpl; [by intros [= <-]|].
  unfold handle_write. destruct (admit_append cfg v h (Z.of_nat (length data))) eqn:Ha; [done|]. apply admit_append_room in Ha.
  assert (E : u64 (wh_written h + Z.of_nat (length data)) = wh_written h + Z.of_nat (length data)).
  { apply wrap_small. unfold fits, kMaxContentSize in *. lia. }
  apply IH; cbn; rewrite E, ?length_app; lia.
Qed.

(** ** What a volume promises *)

Definition readable_retries : Prop := 0 <= vc_max_read_retries cfg < 2 ^ 32 - 1.

Lemma committed_reads env i generation key header content (v v' : Volume (C := C)) s renv :
  volume_ok v -> select_stripe v key = Some (i, s) -> gen_room s -> key_ok key -> bytes_ok header -> bytes_ok content ->
  c_advance_cursor_at_reservation (vc_log cfg) = false -> readable_retries ->
  commit_write bld cfg env i generation key header content v = Some (inr tt, v') -> page_behind i v' ->
  volume_ok v' /\ exists_sync bld cfg key v' = Some (inr true) /\
  exists h v'', read_sync bld cfg renv key v' = Some (inr h, v'') /\ rh_header h = header /\ rh_content h = content /\ rh_ram h = false.
Proof using ChecksumLaws0 RamCacheLaws0.
  intros Hv Hsel Hg Hk Hh Hc Hseam Hr Hcw Hpage.
  destruct (commit_write_spec env i generation key header content v s Hv (select_stripe_lookup _ _ _ _ Hsel) Hg Hk Hh Hc Hseam)
    as (r & v1 & Hcw' & Hv' & Hlands). rewrite Hcw in Hcw'. injection Hcw' as <- <-.
  destruct (Hlands eq_refl) as (s' & e & l1 & l2 & serial & Est & Ess & Hgen & Hram & Hlen & Hb & Hres).
  pose proof (select_stripe_insert v v' key i s s' Hsel Est) as Hsel'.
  split; [done|]. split; [by eapply resolves_exists|].
  by eapply resolves_read.
Qed.

(** The page behind the stripe is behind whatever the log writes. *)
Lemma page_behind_stripe env i generation key header content (v v' : Volume (C := C)) s :
  volume_ok v -> v_stripes v !! i = Some s -> gen_room s -> key_ok key -> bytes_ok header -> bytes_ok content ->
  c_advance_cursor_at_reservation (vc_log cfg) = false ->
  st_offset (ss_stripe s) + st_size (ss_stripe s) + 4096 <= Z.of_nat (length (v_file v)) ->
  commit_write bld cfg env i generation key header content v = Some (inr tt, v') -> page_behind i v'.
Proof using ChecksumLaws0 RamCacheLaws0.
  intros Hv Hi Hg Hk Hh Hc Hseam Hpage Hcw s1 Hs1.
  destruct (commit_write_spec env i generation key header content v s Hv Hi Hg Hk Hh Hc Hseam) as (r & v1 & Hcw' & Hv' & Hlands).
  rewrite Hcw in Hcw'. injection Hcw' as <- <-. destruct (Hlands eq_refl) as (s' & e & l1 & l2 & serial & Est & Ess & _ & _ & Hlen & _).
  rewrite Est, list_lookup_insert_eq in Hs1 by (by eapply lookup_lt_Some). injection Hs1 as <-. pose proof (vo_stripes _ Hv' i s') as Hok.
  rewrite Est, list_lookup_insert_eq in Hok by (by eapply lookup_lt_Some). specialize (Hok eq_refl).
  assert (current_write_cursor (ss_stripe s') (ss_log s') <= st_offset (ss_stripe s') + st_size (ss_stripe s')) by apply (sk_log _ _ Hok).
  rewrite Ess in *. lia.
Qed.

(** C1. A write that reports success is what the next read returns: opening a
    write, setting its header, appending the body in chunks and closing the
    handle, the key exists and a read of it serves that header and the
    concatenation of the chunks from the file, whatever the stripe, the
    directory bucket and the RAM cache held before (an older document of the
    key, other keys with its tag, a full bucket) and wherever the log was
    (wrapping, or moving its retention frontier, for this write).  The file
    has a page behind the stripe, and the stripe's generation has room. *)
Theorem write_then_read env renv key n header chunks (v v' : Volume (C := C)) i s h0 h h' :
  volume_ok v -> select_stripe v key = Some (i, s) -> gen_room s -> key_ok key -> bytes_ok header -> Forall bytes_ok chunks ->
  c_advance_cursor_at_reservation (vc_log cfg) = false -> readable_retries ->
  st_offset (ss_stripe s) + st_size (ss_stripe s) + 4096 <= Z.of_nat (length (v_file v)) ->
  write_sync cfg key n v = inr h0 -> write_all v (set_header h0 header) chunks = Some h ->
  handle_close bld cfg env h v = Some (inr tt, h', v') ->
  exists_sync bld cfg key v' = Some (inr true) /\
  exists rh v'', read_sync bld cfg renv key v' = Some (inr rh, v'') /\ rh_header rh = header /\ rh_content rh = concat chunks.
Proof using ChecksumLaws0 RamCacheLaws0.
  intros Hv Hsel Hg Hk Hh Hc Hseam Hr Hpage Hopen Hall Hclose.
  unfold write_sync in Hopen. rewrite Hsel in Hopen. do 2 (case_match; [done|]). injection Hopen as <-.
  apply write_all_spec in Hall as (Ec & Est & Eg & Ek & Eh & Ecl & Eab). cbn in *.
  unfold handle_close in Hclose. rewrite Ecl, Eab, Est, Eg, Ek, Eh, Ec in Hclose. apply bind_Some in Hclose as ([r v1] & Hcw & [= -> _ <-]).
  assert (Hcc : bytes_ok (concat chunks)) by (clear -Hc; induction Hc; simpl; [constructor|]; by apply bytes_ok_app).
  destruct (committed_reads env i (v_generation v) key header (concat chunks) v v1 s renv Hv Hsel Hg Hk Hh) as (_ & Hex & rh & v'' & Hrd & H1 & H2 & _);
    try done; [|by eauto 10].
  exact (page_behind_stripe env i _ key header _ v v1 s Hv (select_stripe_lookup v key i s Hsel) Hg Hk Hh Hcc Hseam Hpage Hcw).
Qed.

(** C16. After a removal that reports success the key reads as not found: every
    admitted entry whose document carries the key is gone, live, retained or
    stale, and so are the RAM copies, so neither leg of the read finds it. *)
Theorem remove_then_read env key (v v' : Volume (C := C)) :
  volume_ok v -> readable_retries -> remove_sync bld key v = Some (inr tt, v') ->
  exists v'', read_sync bld cfg env key v' = Some (inl ENotFound, v'').
Proof using RamCacheLaws0.
  intros Hv Hr Hrm. destruct (select_stripe v key) as [[i s]|] eqn:Hsel.
  2: { unfold remove_sync in Hrm. by rewrite Hsel in Hrm. }
  destruct (remove_sync_spec key v i s Hv Hsel) as (r & v1 & Hrm' & Hv' & Hcl & Hok). rewrite Hrm in Hrm'. injection Hrm' as <- <-.
  destruct (Hok eq_refl) as [Hown Hram]. destruct (Hcl Hown) as (s' & Est & Efl & Hclear).
  eapply read_misses; [done | by eapply select_stripe_insert | done | done].
Qed.

(** *** Keys do not mix *)

Lemma verified_origin file s snap key (l : list (DirEntry * AdmitClass)) off live : (off, live) ∈ omap (verify_candidate s file snap key) l ->
  exists e cls r, (e, cls) ∈ l /\ DirEntry.offset e = off /\ r_first_key r = key /\
    map_document file (st_offset (ss_stripe s) + DirEntry.offset e) (approx_size e) (st_size (ss_stripe s)) = Some r.
Proof.
  rewrite list_elem_of_omap. intros ([e cls] & Hin & Hv). unfold verify_candidate in Hv. apply bind_Some in Hv as (r & Hm & Hv).
  case_bool_decide; [|done]. injection Hv as <- _. by exists e, cls, r.
Qed.

Lemma removal_spares file s key b j e : stripe_state_ok file s -> is_empty e = false ->
  let snap := stripe_snapshot bld s in
  let found := fst (probe_each (ss_stripe s) snap collect (candidates s key) [] []) in
  let d' := snd (remove_entries (ss_dir s) key (omap (verify_candidate s file snap key) found)) in
  bucket_of (ss_dir s) b !! j = Some e -> passed_over (ss_stripe s) file key e -> bucket_of d' b !! j = Some e.
Proof.
  intros Hs Hne snap found d' Hj Hpass. pose proof Hs as [Hst Hloc Hlog Hdir Hph Hfile Hdis].
  destruct (remove_entries_spec key (omap (verify_candidate s file snap key) found) (ss_dir s) Hdir) as (_ & _ & _ & _ & _ & Hkept).
  destruct (Hkept b j e Hj) as [(Hoff & Ht & ->)|?]; [|done]. exfalso.
  apply list_elem_of_fmap in Hoff as ([off live] & E & Hoff). cbn in E. subst off.
  apply verified_origin in Hoff as (x & cls & r & Hx & Exo & Erk & Em).
  unfold found in Hx. rewrite probe_each_fold, collect_all in Hx
    by done || (simpl; etransitivity; [apply length_admitted | by apply length_candidates]).
  apply elem_of_admitted in Hx as [Hx _]. apply elem_of_candidates in Hx as (Hx & Hxne & Hxt).
  apply list_elem_of_lookup in Hx as (k & Hk).
  assert (k = j) as -> by (apply (Hdis (bucket_index (ss_dir s) key) k j x e); congruence).
  assert (x = e) as -> by congruence. by apply (Hpass r).
Qed.

(** [w] is [v] but for entries that map to documents of [key]. *)
Definition spares_others (key : CacheKey) (v w : Volume (C := C)) : Prop :=
  v_file w = v_file v /\ length (v_stripes w) = length (v_stripes v) /\
  forall i s, v_stripes v !! i = Some s -> exists s', v_stripes w !! i = Some s' /\ ss_stripe s' = ss_stripe s /\ ss_log s' = ss_log s /\
    forall b j e, bucket_of (ss_dir s) b !! j = Some e -> is_empty e = false -> passed_over (ss_stripe s) (v_file v) key e ->
      bucket_of (ss_dir s') b !! j = Some e.

Lemma spares_others_stripe key v w i s s' : v_stripes v !! i = Some s -> v_stripes w = <[i := s']> (v_stripes v) -> v_file w = v_file v ->
  ss_stripe s' = ss_stripe s -> ss_log s' = ss_log s ->
  (forall b j e, bucket_of (ss_dir s) b !! j = Some e -> is_empty e = false -> passed_over (ss_stripe s) (v_file v) key e ->
     bucket_of (ss_dir s') b !! j = Some e) -> spares_others key v w.
Proof.
  intros Hi E1 E2 Hst Hlog Hsp. unfold spares_others. rewrite E1, length_insert. split; [done|]. split; [done|].
  intros i0 s0 Hi0. destruct (decide (i0 = i)) as [->|Hne].
  - rewrite list_lookup_insert_eq by by eapply lookup_lt_Some. exists s'. by assert (s0 = s) as -> by congruence.
  - rewrite list_lookup_insert_ne by done. by exists s0.
Qed.

(** A removal only takes what is the key's: whatever it answers, the other
    stripes and the file stay as they are, and in the key's stripe every entry
    that does not map to a document of the key stays in its slot. *)
Theorem remove_spares_others key (v v' : Volume (C := C)) r :
  volume_ok v -> remove_sync bld key v = Some (r, v') -> spares_others key v v'.
Proof.
  intros Hv. unfold remove_sync.
  assert (Hid : spares_others key v v) by (split; [done|]; split; [done|]; by eauto 10).
  destruct (select_stripe v key) as [[i s]|] eqn:Hsel; [|by intros [= _ <-]].
  pose proof (select_stripe_lookup v key i s Hsel) as Hi. pose proof (vo_stripes _ Hv _ _ Hi) as Hs.
  destruct (ss_owned s); cbn [negb]; [|by intros [= _ <-]].
  pose proof (fun b j e Hj Hne => removal_spares (v_file v) s key b j e Hs Hne Hj) as Hspare. cbv zeta in Hspare.
  destruct (remove_entries _ _ _) as [live d']. cbn [snd] in Hspare.
  destruct live; [|intros [= _ <-]; by eapply spares_others_stripe].
  intros (w & Hw & [= _ <-])%bind_Some. unfold invalidate_ram in Hw. destruct (v_ram v).
  - apply bind_Some in Hw as (? & _ & [= <-]). by eapply spares_others_stripe.
  - injection Hw as <-. by eapply spares_others_stripe.
Qed.

Definition handle_of_key (key : CacheKey) (h : ReadHandle) : Prop :=
  from_digest (first_key (rh_doc h)) = key /\ has_volume_shape (rh_doc h) = true.

Definition acc_of_key (key : CacheKey) (acc : ReadAcc (C := C)) : Prop :=
  match ra_found acc with Some h => rh_ram h = false /\ handle_of_key key h | None => True end.

Lemma read_candidate_key env i snap key e cls acc : acc_of_key key acc -> acc_of_key key (snd (read_candidate bld cfg env i snap key e cls acc)).
Proof.
  unfold acc_of_key, read_candidate. intros Ha. destruct (ra_found acc) eqn:Ef; [cbn; by rewrite ?Ef|].
  destruct (v_stripes (ra_volume acc) !! i) as [s|]; [|cbn; by rewrite ?Ef]. destruct (map_document _ _ _ _) as [r|]; [|cbn; by rewrite ?Ef].
  case_bool_decide as Hk; cbn [negb orb]; [|cbn; by rewrite ?Ef]. destruct (is_servable r) eqn:Hsv; cbn [negb orb]; [|cbn; by rewrite ?Ef].
  destruct (entry_binds _ _); cbn [negb]; [|cbn; by rewrite ?Ef]. destruct (admit_document _ _ _ _ _ _); [|cbn; by rewrite ?Ef].
  destruct (check_document _ _ _ _ _) as [[] v']; cbn [negb]; [|done]. destruct (acquire_borrow _ _ _ _) as [t log].
  destruct (negb (borrow_still_valid_counted _ _ _)); [exact I|]. cbn. split; [done|]. split; [done|]. unfold is_servable in Hsv. apply andb_true_iff in Hsv. apply Hsv.
Qed.

Lemma read_attempt_key env i key h (v v' : Volume (C := C)) :
  read_attempt bld cfg env i key v = Some (Done (inr h), v') -> rh_ram h = false -> handle_of_key key h.
Proof.
  intros Ha Hnr. unfold read_attempt in Ha. destruct (v_stripes v !! i) as [s|]; [|done].
  apply bind_Some in Ha as ([ram w1] & Hram & Ha). destruct ram as [h1|].
  - injection Ha as -> ->. revert Hram. unfold read_ram. destruct (v_ram v); [|done].
    intros ([hit c'] & _ & Hh)%bind_Some. destruct hit as [[data stamp]|]; [|done]. case_match.
    + by apply bind_Some in Hh as ([? ?] & _ & ?).
    + case_match; [|done]. injection Hh as <- _. done.
  - pose proof (probe_each_invariant (acc_of_key key) (ss_stripe s) (stripe_snapshot bld s) (read_candidate bld cfg env i (stripe_snapshot bld s) key)
      (candidates s key) {| ra_volume := w1; ra_found := None; ra_checksum_failed := false; ra_epoch_changed := false |} []
      (fun e cls a => read_candidate_key env i _ key e cls a) I) as Hacc.
    destruct (probe_each _ _ _ _ _ _) as [acc rj]. cbn [fst] in Hacc. unfold acc_of_key in Hacc. destruct (ra_found acc).
    + injection Ha as -> _. apply Hacc.
    + repeat case_match; done.
Qed.

(** A read never serves another key's document: what it returns from the
    file is a whole document whose stored key is the one asked for. *)
Theorem read_serves_own_key env key (v v' : Volume (C := C)) h :
  read_sync bld cfg env key v = Some (inr h, v') -> rh_ram h = false -> handle_of_key key h.
Proof.
  unfold read_sync. destruct (select_stripe v key) as [[i s0]|]; [|done]. intros [w Hw]%retry_done_inv. by eapply read_attempt_key.
Qed.
End commit.

(** ** A small volume *)

Definition tiny_stripe : Stripe := configure_frontier 16 1008 24 true false.

Definition tiny_log : State := {|
  ws_write_pos := 24; ws_shared_pos := 24; ws_gen := gen_at tiny_stripe 2 1; ws_intent := 0; ws_phase := phase_of_pass 2;
  ws_slots := [replicate 64 0]; ws_lease_expiry := 0; ws_deferred_since := 0; ws_deadline_ms := 0; ws_locked := false;
  ws_events := [] |}.

Definition tiny_state : StripeState := {|
  ss_stripe := tiny_stripe; ss_owned := true; ss_log := tiny_log; ss_dir := new_directory 3; ss_remove_epoch := 0 |}.

Definition tiny_config : VolumeConfig := {|
  vc_log := sample_config; vc_verify_checksum_on_read := true; vc_max_read_retries := 2; vc_max_object_size := 0;
  vc_cross_process_ram_coherence := false; vc_hit_tracking := true; vc_checksum_salt := (1, 2, 3, 4);
  vc_persistent_map := false |}.

(** One stripe of 1008 bytes at offset 16 of a file of [n] bytes. *)
Definition tiny_volume (n : Z) : Volume (C := RamCacheLRU) := {|
  v_stripes := [tiny_state]; v_file := replicate (Z.to_nat n) 0; v_ram := Some (new_lru 1000); v_checksums := ∅; v_draw := 7;
  v_generation := 1; v_events := [] |}.

Definition tiny_wenv : WriteEnv := {|
  we_lock := sample_env; we_now1 := 5; we_now2 := 6; we_written := 5000; we_lock_valid := true |}.
Definition tiny_renv : ReadEnv := {| re_shard := 0; re_now := 9 |}.

Definition tiny_commit (header content : list Z) (v : Volume (C := RamCacheLRU)) :=
  @commit_write mulhi_int128 host_checksum _ (lru_ops true) tiny_config tiny_wenv 0 1 sample_key header content v.
Definition tiny_read (v : Volume (C := RamCacheLRU)) :=
  @read_sync mulhi_int128 host_checksum _ (lru_ops true) tiny_config tiny_renv sample_key v.

Lemma tiny_stripe_ok : stripe_ok tiny_stripe.
Proof. apply configure_frontier_ok; unfold kHeaderSize; try lia; [exists 3|exists 2]; reflexivity. Qed.

Lemma tiny_state_ok n : 1024 <= n -> stripe_state_ok (replicate (Z.to_nat n) 0) tiny_state.
Proof.
  intros Hn. split; [exact tiny_stripe_ok | done | | exact sample_dir_ok | done | rewrite length_replicate; cbn; lia |].
  - split; [done | vm_compute; intuition discriminate | by exists 3 |]. exists 2, 1. split_and!; try (vm_compute; intuition discriminate || done).
  - intros b i j e e' Hi _ He. apply list_elem_of_lookup_2, elem_of_take in Hi as (k & Hk & _). rewrite lookup_drop in Hk.
    apply lookup_replicate_1 in Hk as [-> _]. done.
Qed.

Lemma tiny_volume_ok n : 1024 <= n -> @volume_ok _ _ (lru_laws true) (tiny_volume n).
Proof.
  intros Hn. split; [|apply new_lru_ok; lia]. intros [|i] s; [intros [= <-]; by apply tiny_state_ok | done].
Qed.

Lemma sample_key_ok : key_ok sample_key.
Proof. split; [done|]. apply bytes_okb_ok. reflexivity. Qed.

Definition tiny_open : VolumeError + WriteHandle := write_sync tiny_config sample_key 4 (tiny_volume 5120).
Definition tiny_handle : WriteHandle := {|
  wh_stripe := 0; wh_generation := 1; wh_key := sample_key; wh_header := []; wh_content := []; wh_expected_length := 4;
  wh_written := 0; wh_closed := false; wh_aborted := false |}.
Definition tiny_filled : WriteHandle := {|
  wh_stripe := 0; wh_generation := 1; wh_key := sample_key; wh_header := [1; 2; 3]; wh_content := [4; 5; 6; 7]; wh_expected_length := 4;
  wh_written := 4; wh_closed := false; wh_aborted := false |}.
Definition tiny_close := @handle_close mulhi_int128 host_checksum _ (lru_ops true) tiny_config tiny_wenv tiny_filled (tiny_volume 5120).

Lemma write_then_read_witness : exists h' v' rh v'', tiny_close = Some (inr tt, h', v') /\
  tiny_read v' = Some (inr rh, v'') /\ rh_header rh = [1; 2; 3] /\ rh_content rh = [4; 5; 6; 7].
Proof.
  destruct tiny_close as [[[[err|[]] h'] v']|] eqn:E;
    [exfalso; assert (match tiny_close with Some (inl _, _, _) => false | _ => true end = true) as Hc by (vm_compute; reflexivity);
       rewrite E in Hc; discriminate | |
     exfalso; assert (match tiny_close with None => false | _ => true end = true) as Hc by (vm_compute; reflexivity);
       rewrite E in Hc; discriminate].
  exists h', v'.
  destruct (@write_then_read mulhi_int128 host_checksum _ _ (lru_ops true) (lru_laws true) tiny_config tiny_wenv tiny_renv sample_key 4
    [1; 2; 3] [[4; 5]; [6; 7]] (tiny_volume 5120) v' 0 tiny_state tiny_handle tiny_filled h') as (_ & rh & v'' & H1 & H2 & H3).
  - apply tiny_volume_ok. lia.
  - vm_compute. reflexivity.
  - vm_compute. reflexivity.
  - exact sample_key_ok.
  - apply bytes_okb_ok. reflexivity.
  - repeat constructor; lia.
  - reflexivity.
  - vm_compute. split; [discriminate|reflexivity].
  - cbn [v_file tiny_volume]. rewrite length_replicate. cbn. lia.
  - reflexivity.
  - vm_compute. reflexivity.
  - exact E.
  - exists rh, v''. split; [reflexivity|]. split; [exact H1|]. split; [exact H2|exact H3].
Defined.

(** The volume after a write of the sample key. *)
Definition tiny_after : Volume (C := RamCacheLRU) :=
  match tiny_commit [1; 2; 3] [4; 5; 6; 7] (tiny_volume 5120) with Some (_, v) => v | None => tiny_volume 5120 end.

Lemma tiny_after_ok : @volume_ok _ _ (lru_laws true) tiny_after.
Proof.
  unfold tiny_after.
  destruct (@commit_write_spec mulhi_int128 host_checksum _ _ (lru_ops true) (lru_laws true) tiny_config tiny_wenv 0 1 sample_key [1; 2; 3]
    [4; 5; 6; 7] (tiny_volume 5120) tiny_state) as (r & v' & E & Hv' & _);
    [apply tiny_volume_ok; lia | reflexivity | vm_compute; reflexivity | exact sample_key_ok | by apply bytes_okb_ok | by apply bytes_okb_ok
    | reflexivity |]. unfold tiny_commit. by rewrite E.
Qed.

Definition tiny_removed := @remove_sync mulhi_int128 _ (lru_ops true) sample_key tiny_after.

Lemma tiny_removed_some : exists v', tiny_removed = Some (inr tt, v').
Proof.
  assert (match tiny_removed with Some (inr _, _) => true | _ => false end = true) as Hc by (vm_compute; reflexivity).
  destruct tiny_removed as [[[err|[]] v']|]; try discriminate Hc. by exists v'.
Qed.

Lemma remove_then_read_witness : exists v' v'', tiny_removed = Some (inr tt, v') /\ tiny_read v' = Some (inl ENotFound, v'').
Proof.
  destruct tiny_removed_some as [v' E]. exists v'.
  destruct (@remove_then_read mulhi_int128 host_checksum _ (lru_ops true) (lru_laws true) tiny_config tiny_renv sample_key tiny_after v')
    as [v'' H].
  - exact tiny_after_ok.
  - vm_compute. split; [discriminate|reflexivity].
  - exact E.
  - exists v''. split; [exact E|exact H].
Defined.

Lemma remove_spares_others_witness : exists v', tiny_removed = Some (inr tt, v') /\ spares_others sample_key tiny_after v'.
Proof.
  destruct tiny_removed_some as [v' E]. exists v'. split; [exact E|].
  apply (@remove_spares_others mulhi_int128 _ (lru_ops true) (lru_laws true) sample_key tiny_after v' (inr tt)); [exact tiny_after_ok|exact E].
Defined.

Lemma read_serves_own_key_witness : exists h v', tiny_read tiny_after = Some (inr h, v') /\ handle_of_key sample_key h.
Proof.
  assert (match tiny_read tiny_after with Some (inr h, _) => negb (rh_ram h) | _ => false end = true) as Hc by (vm_compute; reflexivity).
  destruct (tiny_read tiny_after) as [[[err|h] v']|] eqn:E; try discriminate Hc. exists h, v'. split; [reflexivity|].
  apply (@read_serves_own_key mulhi_int128 host_checksum _ (lru_ops true) tiny_config tiny_renv sample_key tiny_after v' h E).
  destruct (rh_ram h); [discriminate Hc|reflexivity].
Defined.

(** Two writes of the key, then a read: what the second write answered, and
    what the read served. *)
Definition write_twice_then_read (n : Z) : option ((VolumeError + unit) * (VolumeError + list Z)) :=
  '(_, v) ← tiny_commit [1; 2; 3] (replicate 500 4) (tiny_volume n);
  '(r, v) ← tiny_commit [1; 2; 3] [4; 5; 6; 7; 8] v;
  '(h, _) ← tiny_read v;
  Some (r, match h with inl e => inl e | inr h => inr (rh_content h) end).

(** A document at the very end of the file is lost: the read maps the
    entry's approximate size, which is rounded up to whole blocks, and a
    mapping past the end of the file is refused.  In a file that ends with the
    (here very small) stripe the second write reports success and the read
    finds nothing; with a page behind the stripe the same read serves it.  This
    is why [write_then_read] asks for that page. *)
Example tail_document_unreadable :
  write_twice_then_read 1024 = Some (inr tt, inl ENotFound) /\
  write_twice_then_read 5120 = Some (inr tt, inr [4; 5; 6; 7; 8]).
Proof. split; vm_compute; reflexivity. Qed.
