(* ===== verification/VolumeFile.v ===== *)
(** * Volume files: header and name (src/src/core/volume.hpp and volume.cpp)

    The 64-byte volume header (a little-endian host's memory image), the
    structural fingerprint in a cache file's name, the classifier that
    recognises it, the choice of a sibling for a volume without a size, and
    which superseded files the startup collection unlinks.

    A path is its parent and its last component; [stem] and [extension] are
    those of std::filesystem.  What a directory lists and the operating system
    answers are arguments; each answer about a candidate is of its own, so
    that a name exchanged between two of the calls is not represented. *)

From S2P Require Import Prelude Geometry Text.
Local Open Scope cyc_scope.

(** ** The header *)

Module VolumeHeader.
Record t := {
  magic : Z; format_version_major : Z; format_version_minor : Z; creation_time : Z; volume_size : Z;
  directory_buckets : Z; mmap_directory : Z; reserved0 : list Z; stripe_count : Z; retain_chunks : Z; reserved : list Z }.

Definition kMagic : Z := 0x43594C4E.
Definition kSize : nat := 64.
Definition kFormatVersionMajor : Z := 9.
Definition kFormatVersionMinor : Z := 0.

Definition sizes : list nat := [4; 2; 2; 8; 8; 4; 1; 3; 8; 2; 22]%nat.

Definition chunks (h : t) : list (list Z) :=
  [le_bytes 4 (magic h); le_bytes 2 (format_version_major h); le_bytes 2 (format_version_minor h);
   le_bytes 8 (creation_time h); le_bytes 8 (volume_size h); le_bytes 4 (directory_buckets h);
   le_bytes 1 (mmap_directory h); reserved0 h; le_bytes 8 (stripe_count h); le_bytes 2 (retain_chunks h); reserved h].

Definition serialize (h : t) : list Z := concat (chunks h).

Definition part (buffer : list Z) (i : nat) : list Z :=
  subspan buffer (sum_sizes (take i sizes)) (nth i sizes 0%nat).

Definition deserialize (buffer : list Z) : t := {|
  magic := le_val (part buffer 0); format_version_major := le_val (part buffer 1);
  format_version_minor := le_val (part buffer 2); creation_time := le_val (part buffer 3);
  volume_size := le_val (part buffer 4); directory_buckets := le_val (part buffer 5);
  mmap_directory := le_val (part buffer 6); reserved0 := part buffer 7; stripe_count := le_val (part buffer 8);
  retain_chunks := le_val (part buffer 9); reserved := part buffer 10 |}.

Definition is_valid (h : t) : bool := magic h =? kMagic.
Definition is_compatible (h : t) : bool := (magic h =? kMagic) && (format_version_major h =? kFormatVersionMajor).

(** The fields fit their widths. *)
Definition ok (h : t) : Prop :=
  fits 32 (magic h) /\ fits 16 (format_version_major h) /\ fits 16 (format_version_minor h) /\
  fits 64 (creation_time h) /\ fits 64 (volume_size h) /\ fits 32 (directory_buckets h) /\ fits 8 (mmap_directory h) /\
  length (reserved0 h) = 3%nat /\ fits 64 (stripe_count h) /\ fits 16 (retain_chunks h) /\ length (reserved h) = 22%nat.

Lemma chunk_sizes h : ok h -> Forall2 (fun c n => length c = n) (chunks h) sizes.
Proof. unfold ok. intros H. unfold chunks, sizes. repeat (constructor; [tauto || apply length_le_bytes|]). constructor. Qed.

Lemma length_header h : ok h -> length (serialize h) = kSize.
Proof.
  intros (_&_&_&_&_&_&_&H0&_&_&H1). unfold serialize, chunks. cbn [concat]. rewrite !length_app, !length_le_bytes, H0, H1. done.
Qed.

Lemma part_chunk h rest i c : ok h -> chunks h !! i = Some c -> part (serialize h ++ rest) i = c.
Proof.
  intros H Hi. unfold part, serialize. pose proof (chunk_sizes h H) as HF.
  destruct (Forall2_lookup_l _ _ _ _ _ HF Hi) as (n & Hn & Hl). rewrite (nth_lookup_Some _ _ _ _ Hn), <- Hl.
  now apply subspan_chunk.
Qed.

Lemma deserialize_header h rest : ok h -> deserialize (serialize h ++ rest) = h.
Proof.
  intros H. unfold deserialize.
  rewrite (part_chunk h rest 0 _ H eq_refl), (part_chunk h rest 1 _ H eq_refl), (part_chunk h rest 2 _ H eq_refl),
    (part_chunk h rest 3 _ H eq_refl), (part_chunk h rest 4 _ H eq_refl), (part_chunk h rest 5 _ H eq_refl),
    (part_chunk h rest 6 _ H eq_refl), (part_chunk h rest 7 _ H eq_refl), (part_chunk h rest 8 _ H eq_refl),
    (part_chunk h rest 9 _ H eq_refl), (part_chunk h rest 10 _ H eq_refl).
  unfold ok in H. destruct H as (?&?&?&?&?&?&?&?&?&?&?). rewrite !le_val_le_bytes_fits by done. now destruct h.
Qed.
End VolumeHeader.

(** ** Names *)

Record Path := { parent_path : text; filename : text }.

(** [rfind]: the last position of a character. *)
Fixpoint rfind (c : Z) (s : text) : option nat :=
  match s with
  | [] => None
  | x :: s' => match rfind c s' with Some i => Some (S i) | None => if x =? c then Some 0%nat else None end
  end.

Definition dot : Z := 46.
Definition dash : Z := 45.

(** [path::stem] and [path::extension]. *)
Definition split_name (name : text) : text * text :=
  match rfind dot name with
  | None | Some O => (name, [])
  | Some i => if bool_decide (name = [dot; dot]) then (name, []) else (take i name, drop i name)
  end.
Definition stem (p : Path) : text := fst (split_name (filename p)).
Definition extension (p : Path) : text := snd (split_name (filename p)).

Definition is_digit (c : Z) : bool := (48 <=? c) && (c <=? 57).
Definition is_hex (c : Z) : bool := is_digit c || ((97 <=? c) && (c <=? 102)).

(** The length of the run of digits before position [d], as the backward scan
    finds it: [while (d > 0 && digit(stem[d - 1])) --d]. *)
Fixpoint digits_from (s : text) (d : nat) : nat :=
  match d with
  | O => O
  | S d' => match s !! d' with Some c => if is_digit c then digits_from s d' else d | None => d end
  end.

Definition stem_is_fingerprinted (s : text) : bool :=
  let n := length s in
  if (n <? 19)%nat then false
  else
    let hex_begin := (n - 16)%nat in
    if negb (forallb is_hex (drop hex_begin s)) then false
    else if negb (bool_decide (s !! (hex_begin - 1)%nat = Some dash)) then false
    else
      let d := digits_from s (hex_begin - 1) in
      if (d =? hex_begin - 1)%nat then false
      else (1 <=? d)%nat && bool_decide (s !! (d - 1)%nat = Some dash).

Definition fingerprint_base_stem (s : text) : text :=
  if negb (stem_is_fingerprinted s) then s
  else
    let hex_begin := (length s - 16)%nat in
    let d := digits_from s (hex_begin - 1) in take (d - 1) s.

(** FNV-1a over the canonical serialization of format and geometry. *)
Definition kFnv1a64OffsetBasis : Z := 0xcbf29ce484222325.
Definition kFnv1a64Prime : Z := 0x100000001b3.
Definition fnv1a64_step (h byte : Z) : Z := u64 (Z.lxor h byte * kFnv1a64Prime).

(** [MmapDirectory::kVersion]. *)
Definition MmapDirectory_kVersion : Z := 2.
Definition MmapDirectory_kMagic : Z := 0x4D444952.

Definition geometry_bytes (g : StripeGeometry) (mmap_directory : bool) : list Z :=
  le_bytes 2 VolumeHeader.kFormatVersionMajor ++ le_bytes 1 (Z.b2z mmap_directory) ++ le_bytes 8 (num_stripes g) ++
  le_bytes 8 (base_stripe_size g) ++ le_bytes 8 (stripe_remainder g) ++
  (if mmap_directory then le_bytes 2 MmapDirectory_kVersion else []).

Definition geohash (g : StripeGeometry) (mmap_directory : bool) : Z :=
  fold_left fnv1a64_step (geometry_bytes g mmap_directory) kFnv1a64OffsetBasis.

Definition hex_digit (n : Z) : Z := if n <? 10 then 48 + n else 87 + n.

(** Most significant nibble first. *)
Definition hex16 (h : Z) : text := map (fun i => hex_digit (Z.land (Z.shiftr h (4 * (15 - Z.of_nat i))) 15)) (seq 0 16).

#[global] Arguments hex16 : simpl never.

(** [std::to_string] of the format's major version. *)
Definition major_text : text := [57].

Definition fingerprint_tail (h : Z) : text := dash :: major_text ++ dash :: hex16 h.

(** What a directory lists: name, and modification time unless that fails. *)
Definition sibling (stem ext : text) (name : text) : bool :=
  let prefix := stem ++ dash :: major_text ++ [dash] in
  (length name =? length prefix + 16 + length ext)%nat && bool_decide (take (length prefix) name = prefix) &&
  ((length ext =? 0)%nat || bool_decide (drop (length name - length ext) name = ext)) &&
  forallb is_hex (take 16 (drop (length prefix) name)).

Definition newer (best : option (text * Z)) (name : text) (mtime : Z) : bool :=
  match best with None => true | Some (b, t) => (t <? mtime) || ((mtime =? t) && text_ltb b name) end.

Fixpoint choose_sibling (stem ext : text) (listing : list (text * option Z)) (best : option (text * Z)) : option (text * Z) :=
  match listing with
  | [] => best
  | (name, mtime) :: listing =>
      choose_sibling stem ext listing
        (match mtime with
         | Some t => if sibling stem ext name && newer best name t then Some (name, t) else best
         | None => best
         end)
  end.

Definition resolve_unsized_cache_path (listing : list (text * option Z)) (p : Path) : Path :=
  match choose_sibling (stem p) (extension p) listing None with
  | Some (name, _) => {| parent_path := if (length (parent_path p) =? 0)%nat then [dot] else parent_path p; filename := name |}
  | None => p
  end.

Definition fingerprint_cache_path (listing : list (text * option Z)) (p : Path) (size stripe_size : Z) (mmap_directory : bool) : Path :=
  if size <? VolumeHeader_kSize then resolve_unsized_cache_path listing p
  else if stem_is_fingerprinted (stem p) then p
  else
    {| parent_path := parent_path p;
       filename := stem p ++ fingerprint_tail (geohash (compute_stripe_geometry size stripe_size) mmap_directory) ++ extension p |}.

(** The values the repository's tests pin. *)
Section golden.
Import String.
Local Definition path (name : string) : Path := {| parent_path := []; filename := str name |}.
Local Open Scope string_scope.

Example golden_auto :
  fingerprint_cache_path [] (path "cyclone.dat") (256 * 2 ^ 20) 0 true = path "cyclone-9-c4b2a399312f69c8.dat".
Proof. vm_compute. reflexivity. Qed.

Example golden_explicit :
  fingerprint_cache_path [] (path "cyclone.dat") (512 * 2 ^ 20 + 64) (128 * 2 ^ 20) false = path "cyclone-9-8fc0260e3edbf078.dat" /\
  fingerprint_cache_path [] (path "cyclone.dat.small") (512 * 2 ^ 20 + 64) (128 * 2 ^ 20) false =
    path "cyclone.dat-9-8fc0260e3edbf078.small" /\
  fingerprint_cache_path [] (path "cyclone.dat") 0 0 true = path "cyclone.dat".
Proof. vm_compute. repeat split. Qed.
End golden.

(** ** The fingerprint is recognised, and stripped, where it was put *)

Lemma hex_digit_ok n : 0 <= n < 16 -> is_hex (hex_digit n) = true /\ hex_digit n <> dot.
Proof. intros Hn. unfold is_hex, is_digit, hex_digit, dot. destruct (Z.ltb_spec n 10); split; lia. Qed.

Lemma hex16_ok h : length (hex16 h) = 16%nat /\ Forall (fun c => is_hex c = true /\ c <> dot) (hex16 h).
Proof.
  split; [unfold hex16; now rewrite length_map, length_seq|]. apply Forall_map, Forall_forall. intros i _.
  apply hex_digit_ok. change 15 with (Z.ones 4). rewrite Z.land_ones by lia. apply Z.mod_pos_bound. lia.
Qed.

Lemma length_tail h : length (fingerprint_tail h) = 19%nat.
Proof. cbn. now rewrite (proj1 (hex16_ok h)). Qed.

Section tail.
Context (s : text) (h : Z).
Local Abbreviation full := (s ++ fingerprint_tail h).

Lemma length_full : length full = (length s + 19)%nat.
Proof. now rewrite length_app, length_tail. Qed.

Lemma full_lookup i : full !! (length s + i)%nat = fingerprint_tail h !! i.
Proof. rewrite lookup_app_r by lia. f_equal. lia. Qed.

Lemma full_hex : drop (length full - 16) full = hex16 h.
Proof.
  rewrite length_full. replace (length s + 19 - 16)%nat with (length s + 3)%nat by lia. now rewrite drop_app_add.
Qed.

Lemma full_digits : digits_from full (length full - 16 - 1) = (length s + 1)%nat.
Proof.
  rewrite length_full. replace (length s + 19 - 16 - 1)%nat with (S (length s + 1)) by lia. cbn [digits_from].
  rewrite full_lookup. cbn [fingerprint_tail lookup list_lookup major_text app].
  replace (length s + 1)%nat with (S (length s + 0)) by lia. cbn [digits_from]. rewrite full_lookup. cbn. lia.
Qed.

Lemma tail_recognised : stem_is_fingerprinted full = true.
Proof.
  unfold stem_is_fingerprinted. rewrite full_digits, full_hex, length_full.
  destruct (Nat.ltb_spec (length s + 19) 19); [lia|].
  assert (forallb is_hex (hex16 h) = true) as ->.
  { apply forallb_forall. intros c Hc%list_elem_of_In. pose proof (proj2 (hex16_ok h)) as F. rewrite Forall_forall in F. now apply F. }
  replace (length s + 19 - 16 - 1)%nat with (length s + 2)%nat by lia. rewrite full_lookup. cbn [negb].
  rewrite bool_decide_true by done. cbn [negb]. destruct (Nat.eqb_spec (length s + 1) (length s + 2)); [lia|].
  replace (length s + 1 - 1)%nat with (length s + 0)%nat by lia. rewrite full_lookup.
  rewrite bool_decide_true by done. destruct (Nat.leb_spec 1 (length s + 1)); [done | lia].
Qed.

(** Stripping the fingerprint gives the stem back. *)
Lemma tail_stripped : fingerprint_base_stem full = s.
Proof.
  unfold fingerprint_base_stem. rewrite tail_recognised, full_digits. cbn [negb].
  replace (length s + 1 - 1)%nat with (length s) by lia. now rewrite take_app_length.
Qed.
End tail.

Lemma rfind_app_r c a b i : rfind c b = Some i -> rfind c (a ++ b) = Some (length a + i)%nat.
Proof. intros H. induction a as [|x a IH]; cbn; [done|]. now rewrite IH. Qed.

Lemma rfind_app_l c a b : rfind c b = None -> rfind c (a ++ b) = rfind c a.
Proof. intros H. induction a as [|x a IH]; cbn; [done|]. now rewrite IH. Qed.

Lemma rfind_none c s : rfind c s = None <-> c ∉ s.
Proof.
  induction s as [|x s IH]; cbn; [split; [intros _; apply not_elem_of_nil | done]|]. rewrite not_elem_of_cons.
  destruct (rfind c s) eqn:E; [split; [done | intros [_ H]; now apply IH in H]|].
  destruct (Z.eqb_spec x c); split; [done | intros [? _]; congruence | intros _; split; [congruence | now apply IH] | done].
Qed.

Lemma rfind_spec c s i : rfind c s = Some i -> (i < length s)%nat /\ exists t, drop i s = c :: t /\ c ∉ t.
Proof.
  revert i. induction s as [|x s IH]; intros i; cbn; [done|]. destruct (rfind c s) as [j|] eqn:E.
  - intros [= <-]. destruct (IH j eq_refl) as (? & t & ? & ?). split; [lia|]. now exists t.
  - destruct (Z.eqb_spec x c) as [->|]; [|done]. intros [= <-]. split; [lia|]. exists s. split; [done | now apply rfind_none].
Qed.

Lemma dot_not_in_tail h : dot ∉ fingerprint_tail h.
Proof.
  unfold fingerprint_tail, major_text. cbn [app]. rewrite !not_elem_of_cons. split_and!; [done..|].
  intros H. pose proof (proj2 (hex16_ok h)) as F. rewrite Forall_forall in F. now apply (F dot) in H as [_ ?].
Qed.

(** A name made of a stem, the fingerprint and the extension splits there
    again. *)
Lemma split_fingerprinted name h : name <> [dot; dot] ->
  split_name (fst (split_name name) ++ fingerprint_tail h ++ snd (split_name name)) =
  (fst (split_name name) ++ fingerprint_tail h, snd (split_name name)).
Proof.
  intros Hn. unfold split_name at 2 3 4 5. pose proof (dot_not_in_tail h) as Ht.
  destruct (rfind dot name) as [[|i]|] eqn:E; cbn [fst snd]; rewrite ?app_nil_r.
  - apply rfind_spec in E as (_ & t & E & Hd). rewrite drop_0 in E. subst name. unfold split_name. rewrite rfind_app_l by (now apply rfind_none).
    cbn. rewrite (proj2 (rfind_none _ _) Hd). done.
  - rewrite bool_decide_false by done. cbn [fst snd]. apply rfind_spec in E as (Hi & t & E & Hd).
    unfold split_name. rewrite E. rewrite app_assoc. rewrite (rfind_app_r _ _ _ 0) by (cbn; now rewrite (proj2 (rfind_none _ _) Hd)).
    rewrite Nat.add_0_r. destruct (length (take (S i) name ++ fingerprint_tail h)) as [|k] eqn:Hl.
    { rewrite length_app, length_tail in Hl. lia. }
    rewrite bool_decide_false. 2: { intros Hc. apply (f_equal length) in Hc. rewrite !length_app, length_tail in Hc. cbn in Hc. lia. }
    rewrite <- Hl, take_app_length, drop_app_length. done.
  - unfold split_name. rewrite rfind_app_l by (now apply rfind_none). now rewrite E.
Qed.

(** The structural fingerprint of a cache file's name is idempotent: adding
    a volume under a name that was fingerprinted before resolves to that same
    file, and the classifier the startup collection uses recognises the name and
    recovers the stem it was made from.  ([..] is not a file name.) *)
Theorem fingerprint_idempotent listing p size stripe_size mmap :
  VolumeHeader_kSize <= size -> filename p <> [dot; dot] ->
  let p' := fingerprint_cache_path listing p size stripe_size mmap in
  fingerprint_cache_path listing p' size stripe_size mmap = p' /\
  stem_is_fingerprinted (stem p') = true /\ extension p' = extension p /\ parent_path p' = parent_path p /\
  (stem_is_fingerprinted (stem p) = false -> fingerprint_base_stem (stem p') = stem p).
Proof.
  intros Hs Hn p'. assert (Hsize : (size <? VolumeHeader_kSize) = false) by lia.
  destruct (stem_is_fingerprinted (stem p)) eqn:E.
  { subst p'. unfold fingerprint_cache_path. rewrite Hsize, E, E. repeat split; done. }
  set (h := geohash (compute_stripe_geometry size stripe_size) mmap).
  assert (Hp' : p' = {| parent_path := parent_path p; filename := stem p ++ fingerprint_tail h ++ extension p |}).
  { subst p'. unfold fingerprint_cache_path. now rewrite Hsize, E. }
  assert (Hsplit : split_name (filename p') = (stem p ++ fingerprint_tail h, extension p)).
  { rewrite Hp'. cbn [filename]. unfold stem, extension. now apply split_fingerprinted. }
  assert (Hstem : stem p' = stem p ++ fingerprint_tail h) by (unfold stem at 1; now rewrite Hsplit).
  assert (Hrec : stem_is_fingerprinted (stem p') = true) by (rewrite Hstem; apply tail_recognised).
  split; [unfold fingerprint_cache_path; now rewrite Hsize, Hrec|]. split; [done|].
  split; [unfold extension at 1; now rewrite Hsplit|]. split; [now rewrite Hp'|]. intros _. rewrite Hstem. apply tail_stripped.
Qed.

Lemma fingerprint_idempotent_witness :
  let p := {| parent_path := []; filename := [99; 46; 100] |} in
  let p' := fingerprint_cache_path [] p (2 ^ 28) 0 false in
  fingerprint_cache_path [] p' (2 ^ 28) 0 false = p' /\ fingerprint_base_stem (stem p') = [99].
Proof.
  assert (H1 : VolumeHeader_kSize <= 2 ^ 28) by (vm_compute; discriminate).
  assert (H2 : filename {| parent_path := []; filename := [99; 46; 100] |} <> [dot; dot]) by (cbv; discriminate).
  pose proof (fingerprint_idempotent [] {| parent_path := []; filename := [99; 46; 100] |} (2 ^ 28) 0 false H1 H2) as H.
  cbv zeta in H. destruct H as (HA & _ & _ & _ & HB). split; [exact HA | apply HB; reflexivity].
Defined.

(** ** Collecting superseded files *)

Inductive LockResult := Acquired | Conflict | Unsupported.

(** An open volume: [backing_identity] (device and inode of its descriptor) and
    its path. *)
Record LiveVolume := { lv_identity : option (Z * Z); lv_path : Path }.

(** A directory entry: what stat, open, the exclusive lifetime probe,
    [inodes_match] and the read of its first 64 bytes answer. *)
Record GcFile := {
  gf_name : text; gf_stat : option (Z * Z * Z); gf_open : bool; gf_probe : LockResult; gf_inodes_match : bool; gf_head : list Z }.

Definition rooted (v : LiveVolume) : text :=
  let parent := parent_path (lv_path v) in if (length parent =? 0)%nat then [dot] else parent.

Definition keep_set (live : list LiveVolume) : list (Z * Z) := omap lv_identity live.

(** The base stems of the live volumes rooted in a directory. *)
Definition base_stems (live : list LiveVolume) (dir : text) : list text :=
  map (fun v => fingerprint_base_stem (stem (lv_path v))) (List.filter (fun v => bool_decide (rooted v = dir)) live).

Definition gc_unlinks (live : list LiveVolume) (now age_floor : Z) (dir : text) (f : GcFile) : bool :=
  let s := fst (split_name (gf_name f)) in
  if negb (stem_is_fingerprinted s) then false
  else if negb (bool_decide (fingerprint_base_stem s ∈ base_stems live dir)) then false
  else
    match gf_stat f with
    | None => false
    | Some (dev, ino, mtime) =>
        if bool_decide ((dev, ino) ∈ keep_set live) then false
        else if (0 <? age_floor) && (now - mtime <? age_floor) then false
        else if negb (gf_open f) then false
        else
          match gf_probe f with
          | Acquired =>
              gf_inodes_match f && (length (gf_head f) =? VolumeHeader.kSize)%nat &&
              VolumeHeader.is_valid (VolumeHeader.deserialize (gf_head f))
          | _ => false
          end
    end.

(** The names unlinked; [listing] is what iterating a directory gives before it
    ends or fails. *)
Definition gc_superseded_volumes (live : list LiveVolume) (listing : text -> list GcFile) (now age_floor : Z) : list (text * text) :=
  match keep_set live, live with
  | [], _ | _, [] => []
  | _, _ =>
      flat_map (fun dir => map (fun f => (dir, gf_name f)) (List.filter (gc_unlinks live now age_floor dir) (listing dir)))
        (remove_dups (map rooted live))
  end.

(** C32. The startup collection unlinks a file only if its name carries a
    fingerprint over the base stem of an open volume of the same directory, it
    is not an open volume's file under any name, no other process holds its
    lifetime lock, the name still leads to the file that was probed, and it
    starts with a volume header. *)
Theorem gc_unlinks_only_superseded live listing now age_floor dir name :
  (dir, name) ∈ gc_superseded_volumes live listing now age_floor ->
  exists f dev ino mtime, f ∈ listing dir /\ gf_name f = name /\ gf_stat f = Some (dev, ino, mtime) /\
    stem_is_fingerprinted (fst (split_name name)) = true /\
    (exists v, v ∈ live /\ rooted v = dir /\ fingerprint_base_stem (stem (lv_path v)) = fingerprint_base_stem (fst (split_name name))) /\
    (forall v, v ∈ live -> lv_identity v <> Some (dev, ino)) /\
    gf_probe f = Acquired /\ gf_inodes_match f = true /\
    VolumeHeader.is_valid (VolumeHeader.deserialize (gf_head f)) = true.
Proof.
  intros H. unfold gc_superseded_volumes in H. assert (Hm : (dir, name) ∈ flat_map (fun dir => map (fun f => (dir, gf_name f))
    (List.filter (gc_unlinks live now age_floor dir) (listing dir))) (remove_dups (map rooted live))).
  { destruct (keep_set live), live; try (by apply not_elem_of_nil in H); exact H. }
  clear H. apply list_elem_of_In, in_flat_map in Hm as (d & _ & Hm). apply in_map_iff in Hm as (f & [= -> Hn] & Hf).
  apply filter_In in Hf as [Hin Hu]. unfold gc_unlinks in Hu. rewrite Hn in Hu.
  destruct (stem_is_fingerprinted _) eqn:E1; [|done]. case_bool_decide as E2; [|done].
  destruct (gf_stat f) as [[[dev ino] mtime]|] eqn:E3; [|done]. cbn in Hu. case_bool_decide as E4; [done|].
  case_match; [done|]. destruct (gf_open f); [|done]. cbn in Hu. destruct (gf_probe f) eqn:E5; try done.
  rewrite !andb_true_iff in Hu. destruct Hu as [[Hi _] Hv].
  exists f, dev, ino, mtime. split; [now apply list_elem_of_In|]. do 3 (split; [done|]). split.
  { unfold base_stems in E2. apply list_elem_of_fmap in E2 as (v & E & Hv'%list_elem_of_In). apply filter_In in Hv' as [Hv' Hr].
    apply bool_decide_eq_true in Hr. exists v. split; [now apply list_elem_of_In | done]. }
  split; [|done]. intros v Hv' Ei. apply E4. unfold keep_set. apply list_elem_of_omap. eauto.
Qed.

Definition gc_name (h : Z) : text := [99] ++ fingerprint_tail h.
Definition gc_live : LiveVolume := {| lv_identity := Some (1, 7); lv_path := {| parent_path := []; filename := gc_name 5 |} |}.
Definition gc_header : list Z := VolumeHeader.serialize {|
  VolumeHeader.magic := VolumeHeader.kMagic; VolumeHeader.format_version_major := 8; VolumeHeader.format_version_minor := 0;
  VolumeHeader.creation_time := 0; VolumeHeader.volume_size := 0; VolumeHeader.directory_buckets := 0; VolumeHeader.mmap_directory := 0;
  VolumeHeader.reserved0 := [0; 0; 0]; VolumeHeader.stripe_count := 0; VolumeHeader.retain_chunks := 0; VolumeHeader.reserved := replicate 22 0 |}.
Definition gc_file (h ino : Z) (probe : LockResult) : GcFile := {|
  gf_name := gc_name h; gf_stat := Some (1, ino, 0); gf_open := true; gf_probe := probe; gf_inodes_match := true; gf_head := gc_header |}.
Definition gc_listing (dir : text) : list GcFile := [gc_file 5 7 Acquired; gc_file 6 8 Acquired; gc_file 9 9 Conflict].

Example gc_example : gc_superseded_volumes [gc_live] gc_listing 1000 60 = [([dot], gc_name 6)].
Proof. vm_compute. reflexivity. Qed.

Lemma gc_unlinks_only_superseded_witness :
  ([dot], gc_name 6) ∈ gc_superseded_volumes [gc_live] gc_listing 1000 60 /\
  stem_is_fingerprinted (fst (split_name (gc_name 6))) = true.
Proof.
  assert (H : ([dot], gc_name 6) ∈ gc_superseded_volumes [gc_live] gc_listing 1000 60) by (rewrite gc_example; left).
  split; [exact H|]. destruct (gc_unlinks_only_superseded _ _ _ _ _ _ H) as (f & dev & ino & mtime & _ & _ & _ & HS & _). exact HS.
Defined.
