(* ===== verification/VolumeOpen.v ===== *)
(** * Opening, resetting and closing a volume (src/src/core/volume.cpp)

    [Volume::open], [open_locked] with its header decision and reset gate,
    [reset], [init_stripes] and [close].  The operating system's answers are an
    [OpenEnv]; a file is its bytes.  The stripes of a volume shared between
    processes live in a mapped directory this file does not decode, so
    [init_stripes] of such a volume is [None]; everything before it is modelled
    for both kinds. *)

From S2P Require Import Prelude Key Document DirEntry Directory Geometry Stripe WriteLog RamCache LruCache Volume VolumeSpec VolumeCommit VolumeFile.
Local Open Scope cyc_scope.

Record MultiProcessConfig := { mp_enabled : bool; mp_process_index : Z; mp_total_processes : Z; mp_max_read_retries : Z }.

Definition mp_is_valid (m : MultiProcessConfig) : bool :=
  if negb (mp_enabled m) then true else (0 <? mp_total_processes m) && (mp_process_index m <? mp_total_processes m).

(** The part of a volume's configuration that opening looks at. *)
Record FileConfig := {
  fc_stripe_size : Z; fc_wrap_retention : bool; fc_auto_reset_on_incompatible : bool; fc_mp : MultiProcessConfig }.

(** What the operating system answers.  [oe_budget] is how many bytes the writes
    of a reset put into the file before one of them fails. *)
Record OpenEnv := {
  oe_exists : bool; oe_fd : bool; oe_init_lock : bool; oe_fstat : bool; oe_pread : bool; oe_exclusive : LockResult;
  oe_truncate : bool; oe_time : Z; oe_budget : option nat; oe_create_map : bool; oe_open_map : bool; oe_whole_map : bool;
  oe_shared : LockResult; oe_inodes_match : bool }.

Inductive ResetProvenance := NotNeeded | FreshInode | GateVerified | GateDegraded.

Section open.
Context (cfg : FileConfig).
Local Abbreviation mmap := (mp_enabled (fc_mp cfg)).

(** ** The header *)

Definition expected_retain_chunks (size : Z) : Z :=
  if negb (fc_wrap_retention cfg) then 0
  else
    let base := base_stripe_size (compute_stripe_geometry size (fc_stripe_size cfg)) in
    let dir_bytes := stripe_directory_span mmap in
    u16 (g_chunks (retention_geometry (if dir_bytes <? base then base - dir_bytes else 0))).

Definition read_header (pread : bool) (file : list Z) : VolumeError + VolumeHeader.t :=
  if negb pread then inl EIoError
  else if (length file <? VolumeHeader.kSize)%nat then inl ECorrupted
  else
    let h := VolumeHeader.deserialize (take VolumeHeader.kSize file) in
    if VolumeHeader.is_valid h then inr h else inl ECorrupted.

Definition is_foreign_version (region : list Z) : bool :=
  if (length region <? 64)%nat then false
  else (le_val (subspan region 0 4) =? MmapDirectory_kMagic) && negb (le_val (subspan region 4 2) =? MmapDirectory_kVersion).

(** The first 64 bytes of each stripe, as far as the file has them. *)
Definition has_foreign_directory_version (pread : bool) (size : Z) (file : list Z) : bool :=
  existsb (fun st => pread && is_foreign_version (subspan file (Z.to_nat st.1) 64)) (stripe_layout size (fc_stripe_size cfg)).

(** Is the file's content to be thrown away?  [inl] refuses the open. *)
Definition header_decision (env : OpenEnv) (created_new : bool) (size : Z) (file : list Z) : VolumeError + bool :=
  if created_new then inr true
  else
    match read_header (oe_pread env) file with
    | inl _ => inr true
    | inr h =>
        let derived_count := num_stripes (compute_stripe_geometry size (fc_stripe_size cfg)) in
        let geometry_mismatch :=
          mmap && negb (VolumeHeader.stripe_count h =? 0) && negb (VolumeHeader.stripe_count h =? derived_count) in
        let directory_version_mismatch := mmap && has_foreign_directory_version (oe_pread env) size file in
        let mode_mismatch := negb (VolumeHeader.retain_chunks h =? expected_retain_chunks size) in
        if negb (VolumeHeader.is_compatible h) || geometry_mismatch || directory_version_mismatch || mode_mismatch then
          if negb (fc_auto_reset_on_incompatible cfg) then inl EIncompatibleVersion else inr true
        else inr false
    end.

Record Gate := { ga_needs_reset : bool; ga_provenance : ResetProvenance; ga_exclusive_open : bool; ga_degraded : bool }.

(** The reset gate and the probe of an exclusive open. *)
Definition open_gate (env : OpenEnv) (created_new : bool) (size : Z) (file : list Z) : VolumeError + Gate :=
  match header_decision env created_new size file with
  | inl err => inl err
  | inr true =>
      if created_new then
        inr {| ga_needs_reset := true; ga_provenance := FreshInode; ga_exclusive_open := true; ga_degraded := false |}
      else
        match oe_exclusive env with
        | Unsupported =>
            inr {| ga_needs_reset := true; ga_provenance := GateDegraded; ga_exclusive_open := false; ga_degraded := true |}
        | Acquired =>
            inr {| ga_needs_reset := true; ga_provenance := GateVerified; ga_exclusive_open := false; ga_degraded := false |}
        | Conflict => inl EResetRefusedLivePeer
        end
  | inr false =>
      let exclusive := mmap && match oe_exclusive env with Acquired => true | _ => false end in
      inr {| ga_needs_reset := false; ga_provenance := NotNeeded; ga_exclusive_open := created_new || exclusive; ga_degraded := false |}
  end.

(** ** Resetting *)

(** Writes in order, until the budget is spent. *)
Fixpoint apply_writes (budget : option nat) (ws : list (nat * list Z)) (file : list Z) : bool * list Z :=
  match ws with
  | [] => (true, file)
  | (off, data) :: ws =>
      match budget with
      | None => apply_writes None ws (write_at file off data)
      | Some b =>
          if (length data <=? b)%nat then apply_writes (Some (b - length data)%nat) ws (write_at file off data)
          else (false, write_at file off (take b data))
      end
  end.

(** The bytes of each stripe's directory that a reset zeroes. *)
Definition directory_bytes : Z :=
  if mmap then required_size kDirectoryEntriesPerSegment else kDirectoryEntriesPerSegment * Z.of_nat kSize.

Fixpoint zero_writes (size : Z) (layout : list (Z * Z)) : list (nat * list Z) :=
  match layout with
  | [] => []
  | (off, stripe_size) :: layout =>
      if size <=? off then []
      else (Z.to_nat off, replicate (Z.to_nat (Z.min (Z.min directory_bytes stripe_size) (size - off))) 0) :: zero_writes size layout
  end.

Definition new_header (now size : Z) : VolumeHeader.t := {|
  VolumeHeader.magic := VolumeHeader.kMagic; VolumeHeader.format_version_major := VolumeHeader.kFormatVersionMajor;
  VolumeHeader.format_version_minor := VolumeHeader.kFormatVersionMinor; VolumeHeader.creation_time := u64 now;
  VolumeHeader.volume_size := size; VolumeHeader.directory_buckets := kDirectoryEntriesPerSegment;
  VolumeHeader.mmap_directory := Z.b2z mmap; VolumeHeader.reserved0 := replicate 3 0;
  VolumeHeader.stripe_count := num_stripes (compute_stripe_geometry size (fc_stripe_size cfg));
  VolumeHeader.retain_chunks := expected_retain_chunks size; VolumeHeader.reserved := replicate 22 0 |}.

Definition reset_writes (now size : Z) : list (nat * list Z) :=
  zero_writes size (stripe_layout size (fc_stripe_size cfg)) ++ [(0%nat, VolumeHeader.serialize (new_header now size))].

Definition reset (env : OpenEnv) (size : Z) (file : list Z) : (VolumeError + unit) * list Z :=
  if size <=? VolumeHeader_kSize then (inl EInvalidArgument, file)
  else
    let '(ok, file) := apply_writes (oe_budget env) (reset_writes (oe_time env) size) file in
    (if ok then inr tt else inl EIoError, file).

(** ** The stripes of a process-local volume *)

Definition kBorrowShards : nat := 64.

Definition new_log (data_offset : Z) : State := {|
  ws_write_pos := data_offset; ws_shared_pos := 0; ws_gen := 0; ws_intent := 0; ws_phase := false;
  ws_slots := replicate kBorrowShards (replicate (Z.to_nat kMaxChunks) 0); ws_lease_expiry := 0; ws_deferred_since := 0;
  ws_deadline_ms := 0; ws_locked := false; ws_events := [] |}.

Definition is_stripe_owned (i : nat) : bool :=
  if negb mmap then true
  else (Z.of_nat i mod mp_total_processes (fc_mp cfg) =? mp_process_index (fc_mp cfg)).

Definition new_stripe (i : nat) (st : Z * Z) : StripeState :=
  let data_offset := st.1 + stripe_directory_span false in
  {| ss_stripe := configure_frontier st.1 st.2 data_offset (fc_wrap_retention cfg) false; ss_owned := is_stripe_owned i;
     ss_log := new_log data_offset; ss_dir := new_directory (Z.to_nat kDirectoryEntriesPerSegment); ss_remove_epoch := 0 |}.

Definition init_stripes (size : Z) : option (list StripeState) :=
  if mmap then None else Some (imap new_stripe (stripe_layout size (fc_stripe_size cfg))).
End open.

(** ** Volumes, open and closed *)

Section volume.
Context {C : Type} (cfg : FileConfig).

(** [ov_size] is _config.size (0: take the file's); the file's bytes are
    [v_file] whether the volume is open or not. *)
Record OpenVolume := {
  ov_volume : Volume (C := C); ov_size : Z; ov_open : bool; ov_gate_degraded : bool; ov_whole_map_failed : bool;
  ov_resets_degraded : Z; ov_resets_verified : Z }.

Definition set_volume (v : OpenVolume) (w : Volume (C := C)) : OpenVolume := {|
  ov_volume := w; ov_size := ov_size v; ov_open := ov_open v; ov_gate_degraded := ov_gate_degraded v;
  ov_whole_map_failed := ov_whole_map_failed v; ov_resets_degraded := ov_resets_degraded v; ov_resets_verified := ov_resets_verified v |}.
Definition set_open (v : OpenVolume) (b : bool) (size : Z) : OpenVolume := {|
  ov_volume := ov_volume v; ov_size := size; ov_open := b; ov_gate_degraded := ov_gate_degraded v;
  ov_whole_map_failed := ov_whole_map_failed v; ov_resets_degraded := ov_resets_degraded v; ov_resets_verified := ov_resets_verified v |}.
Definition set_gauges (v : OpenVolume) (degraded map_failed : bool) : OpenVolume := {|
  ov_volume := ov_volume v; ov_size := ov_size v; ov_open := ov_open v; ov_gate_degraded := degraded;
  ov_whole_map_failed := map_failed; ov_resets_degraded := ov_resets_degraded v; ov_resets_verified := ov_resets_verified v |}.
Definition count_reset (v : OpenVolume) (p : ResetProvenance) : OpenVolume := {|
  ov_volume := ov_volume v; ov_size := ov_size v; ov_open := ov_open v; ov_gate_degraded := ov_gate_degraded v;
  ov_whole_map_failed := ov_whole_map_failed v;
  ov_resets_degraded := match p with GateDegraded => u64 (ov_resets_degraded v + 1) | _ => ov_resets_degraded v end;
  ov_resets_verified := match p with GateVerified => u64 (ov_resets_verified v + 1) | _ => ov_resets_verified v end |}.

Definition set_contents (w : Volume (C := C)) (stripes : list StripeState) (file : list Z) : Volume (C := C) := {|
  v_stripes := stripes; v_file := file; v_ram := v_ram w; v_checksums := ∅; v_draw := v_draw w; v_generation := v_generation w;
  v_events := v_events w |}.
Definition bump_generation (w : Volume (C := C)) : Volume (C := C) := {|
  v_stripes := v_stripes w; v_file := v_file w; v_ram := v_ram w; v_checksums := v_checksums w; v_draw := v_draw w;
  v_generation := u64 (v_generation w + 1); v_events := v_events w |}.

(** The RAM cache and its content stay. *)
Definition close (v : OpenVolume) : OpenVolume :=
  let w := bump_generation (ov_volume v) in
  set_open (set_volume v (set_contents w [] (v_file w))) false (ov_size v).

Definition set_file_of (v : OpenVolume) (file : list Z) : OpenVolume := set_volume v (set_file (ov_volume v) file).

Definition extend (file : list Z) (size : Z) : list Z := file ++ replicate (Z.to_nat size - length file) 0.

(** The mapping, the shared lifetime lock and the check of the name. *)
Definition lock_lifetime (env : OpenEnv) (v : OpenVolume) : (VolumeError + unit) * OpenVolume :=
  if negb (oe_create_map env) then (inl EInternalError, v)
  else if negb (oe_open_map env) then (inl EIoError, v)
  else
    let v := set_gauges v (ov_gate_degraded v) (negb (oe_whole_map env)) in
    let shared := if ov_gate_degraded v then Acquired else oe_shared env in
    match shared with
    | Conflict => (inl EIoError, v)
    | _ =>
        let v := match shared with Unsupported => set_gauges v true (ov_whole_map_failed v) | _ => v end in
        if negb (oe_inodes_match env) then (inl EIoError, v) else (inr tt, v)
    end.

(** [open_locked] up to the stripes. *)
Definition prepare_locked (env : OpenEnv) (created_new : bool) (v : OpenVolume) : (VolumeError + unit) * OpenVolume :=
  if negb (oe_fstat env) then (inl EIoError, v)
  else
    let file := v_file (ov_volume v) in
    let size := if ov_size v =? 0 then Z.of_nat (length file) else ov_size v in
    let v := set_open v (ov_open v) size in
    if (size =? 0) || negb (stripe_geometry_fits size (fc_stripe_size cfg) (mp_enabled (fc_mp cfg))) then (inl EInvalidArgument, v)
    else
      match open_gate cfg env created_new size file with
      | inl err => (inl err, v)
      | inr gate =>
          let v := if ga_degraded gate then set_gauges v true (ov_whole_map_failed v) else v in
          if (Z.of_nat (length file) <? size) && negb (oe_truncate env) then (inl EIoError, v)
          else
            let v := set_file_of v (extend file size) in
            if ga_needs_reset gate then
              let '(r, file) := reset cfg env size (v_file (ov_volume v)) in
              let v := set_volume v (set_contents (ov_volume v) [] file) in
              match r with
              | inl err => (inl err, v)
              | inr _ => lock_lifetime env (count_reset v (ga_provenance gate))
              end
            else lock_lifetime env v
      end.

Definition open_locked (env : OpenEnv) (created_new : bool) (v : OpenVolume) : option ((VolumeError + unit) * OpenVolume) :=
  let '(r, v) := prepare_locked env created_new v in
  match r with
  | inl err => Some (inl err, v)
  | inr _ =>
      stripes ← init_stripes cfg (ov_size v);
      Some (inr tt, set_volume v (set_contents (ov_volume v) stripes (v_file (ov_volume v))))
  end.

Definition open (env : OpenEnv) (v : OpenVolume) : option ((VolumeError + unit) * OpenVolume) :=
  if ov_open v then Some (inl EAlreadyOpen, v)
  else if negb (ov_size v =? 0) && negb (stripe_geometry_fits (ov_size v) (fc_stripe_size cfg) (mp_enabled (fc_mp cfg))) then
    Some (inl EInvalidArgument, v)
  else
    let v := set_volume v (set_checksums (ov_volume v) ∅ (v_draw (ov_volume v))) in
    if negb (oe_fd env) then Some (inl EIoError, v)
    else
      let created_new := negb (oe_exists env) in
      let v := if created_new then set_file_of v [] else v in
      let v := set_gauges (set_open v true (ov_size v)) false false in
      if negb (oe_init_lock env) then Some (inl EIoError, close v)
      else
        '(r, v) ← open_locked env created_new v;
        Some (r, match r with inl _ => close v | inr _ => v end).
End volume.

(** ** Writes in order *)

Definition total (ws : list (nat * list Z)) : nat := sum_sizes (map (fun w => length w.2) ws).

(** Inside the first [n] bytes, above [lo], in ascending order and disjoint. *)
Fixpoint ascending (lo n : nat) (ws : list (nat * list Z)) : Prop :=
  match ws with
  | [] => True
  | (off, data) :: ws => (lo <= off)%nat /\ (off + length data <= n)%nat /\ ascending (off + length data) n ws
  end.

Lemma ascending_weaken lo lo' n n' ws : (lo' <= lo)%nat -> (n <= n')%nat -> ascending lo n ws -> ascending lo' n' ws.
Proof.
  revert lo lo'. induction ws as [|[off data] ws IH]; intros lo lo' Hl Hn; cbn; [done|]. intros (? & ? & H).
  split; [lia|]. split; [lia|]. now apply (IH (off + length data)%nat).
Qed.

Lemma apply_writes_app b ws1 ws2 file :
  apply_writes b (ws1 ++ ws2) file =
  let '(ok, file) := apply_writes b ws1 file in
  if ok then apply_writes ((fun b => b - total ws1)%nat <$> b) ws2 file else (false, file).
Proof.
  revert b file. induction ws1 as [|[off data] ws1 IH]; intros b file; cbn [app apply_writes].
  - destruct b as [b|]; [|done]. cbn. now rewrite Nat.sub_0_r.
  - destruct b as [b|]; [|apply IH]. destruct (Nat.leb_spec (length data) b); [|done]. rewrite IH.
    destruct (apply_writes _ ws1 _) as [[] file']; [|done]. change (total ((off, data) :: ws1)) with (length data + total ws1)%nat.
    cbn [fmap option_fmap option_map]. do 2 f_equal. lia.
Qed.

(** Whatever the budget, what lies below the writes stays as it was, and a run
    that ends has made every write. *)
Lemma apply_writes_spec b ws file : forall lo, ascending lo (length file) ws ->
  let '(ok, file') := apply_writes b ws file in
  length file' = length file /\ (forall off n, (off + n <= lo)%nat -> subspan file' off n = subspan file off n) /\
  (ok = true -> forall off data, (off, data) ∈ ws -> subspan file' off (length data) = data).
Proof.
  revert b file. induction ws as [|[off data] ws IH]; intros b file lo; cbn [apply_writes ascending].
  { intros _. split; [done|]. split; [done|]. intros _ off data H. inversion H. }
  intros (H1 & H2 & H3). set (f1 := write_at file off data).
  assert (Hf1 : length f1 = length file) by (apply length_write_at; lia).
  assert (Hkeep : forall o n, (o + n <= off)%nat -> subspan f1 o n = subspan file o n)
    by (intros o n Ho; apply subspan_write_at_other; [lia | now left]).
  assert (Hgo : forall b', let '(ok, file') := apply_writes b' ws f1 in
    length file' = length file /\ (forall o n, (o + n <= lo)%nat -> subspan file' o n = subspan file o n) /\
    (ok = true -> forall o d, (o, d) ∈ (off, data) :: ws -> subspan file' o (length d) = d)).
  { intros b'. specialize (IH b' f1 (off + length data)%nat). rewrite Hf1 in IH. specialize (IH H3).
    destruct (apply_writes b' ws f1) as [ok file']. destruct IH as (I1 & I2 & I3). split; [done|]. split.
    - intros o n Ho. rewrite I2 by lia. apply Hkeep. lia.
    - intros Hok o d [[= -> ->]|H]%elem_of_cons; [|now apply I3]. rewrite I2 by lia. unfold f1.
      rewrite <- (app_nil_r data) at 1. apply subspan_write_at. lia. }
  destruct b as [b|]; [|apply Hgo]. destruct (Nat.leb_spec (length data) b); [apply Hgo|].
  assert (Ht : length (take b data) = b) by (rewrite length_take; lia).
  split; [apply length_write_at; lia|]. split; [|done]. intros o n Ho. apply subspan_write_at_other; [lia|]. left; lia.
Qed.

(** ** A reset writes the header last *)

Section reset.
Context (cfg : FileConfig) (size : Z).
Hypothesis Hsize : VolumeHeader_kSize < size < 2 ^ 62.
Hypothesis Hstripe : 0 <= fc_stripe_size cfg < 2 ^ 62.
Local Abbreviation layout := (stripe_layout size (fc_stripe_size cfg)).

Lemma zero_writes_ascending g k i off :
  0 <= base_stripe_size g -> 0 <= stripe_remainder g -> 0 <= off ->
  ascending (Z.to_nat off) (Z.to_nat size) (zero_writes cfg size (layout_from k i off g)).
Proof.
  intros Hb Hr. assert (Hd : 0 <= directory_bytes cfg) by (unfold directory_bytes; case_match; vm_compute; discriminate).
  revert i off. induction k as [|k IH]; intros i off Ho; cbn [layout_from zero_writes]; [done|].
  set (s := base_stripe_size g + _). assert (0 <= s) by (unfold s; case_match; lia).
  destruct (Z.leb_spec size off); [done|]. cbn [ascending]. rewrite length_replicate. split; [lia|]. split; [lia|].
  apply (ascending_weaken (Z.to_nat (off + s)) _ (Z.to_nat size)); [lia | lia|]. apply IH. lia.
Qed.

Lemma reset_ascending : ascending 64 (Z.to_nat size) (zero_writes cfg size layout).
Proof using Hsize Hstripe.
  destruct (compute_stripe_geometry_spec size (fc_stripe_size cfg) Hsize Hstripe) as (_ & B & R & _).
  apply (zero_writes_ascending _ _ 0 VolumeHeader_kSize); unfold VolumeHeader_kSize; lia.
Qed.

Lemma new_header_ok now : VolumeHeader.ok (new_header cfg now size).
Proof using Hsize Hstripe.
  destruct (compute_stripe_geometry_spec size (fc_stripe_size cfg) Hsize Hstripe) as (N & B & R & U & _).
  pose proof (Z.mul_le_mono_nonneg_l 1 (base_stripe_size (compute_stripe_geometry size (fc_stripe_size cfg)))
    (num_stripes (compute_stripe_geometry size (fc_stripe_size cfg))) ltac:(lia) ltac:(lia)).
  assert (Hr : fits 16 (expected_retain_chunks cfg size)).
  { unfold expected_retain_chunks. case_match; [unfold fits; lia | apply wrap_fits; lia]. }
  assert (Hm : fits 8 (Z.b2z (mp_enabled (fc_mp cfg)))) by (destruct (mp_enabled (fc_mp cfg)); unfold fits; cbn; lia).
  unfold VolumeHeader_kSize in *. unfold VolumeHeader.ok, new_header. cbn [VolumeHeader.magic VolumeHeader.format_version_major
    VolumeHeader.format_version_minor VolumeHeader.creation_time VolumeHeader.volume_size VolumeHeader.directory_buckets
    VolumeHeader.mmap_directory VolumeHeader.reserved0 VolumeHeader.stripe_count VolumeHeader.retain_chunks VolumeHeader.reserved].
  split_and!; [unfold fits, VolumeHeader.kMagic; lia | unfold fits, VolumeHeader.kFormatVersionMajor; lia
    | unfold fits, VolumeHeader.kFormatVersionMinor; lia | apply wrap_fits; lia | unfold fits; lia
    | unfold fits, kDirectoryEntriesPerSegment; lia | exact Hm | reflexivity | unfold fits; lia | exact Hr | reflexivity].
Qed.

(** Every stripe's directory is zero. *)
Definition directories_clear (file : list Z) : Prop :=
  forall o s, (o, s) ∈ layout ->
    let n := Z.to_nat (Z.min (directory_bytes cfg) s) in subspan file (Z.to_nat o) n = replicate n 0.

Lemma layout_inside o s : (o, s) ∈ layout -> 64 <= o /\ (8 | o) /\ o + s <= size /\ 0 < s /\
  (forall mmap, stripe_geometry_fits size (fc_stripe_size cfg) mmap = true -> stripe_directory_span mmap + Z.of_nat kHeaderSize <= s).
Proof using Hsize Hstripe.
  intros [i Hi]%list_elem_of_lookup. destruct (compute_stripe_geometry_spec size (fc_stripe_size cfg) Hsize Hstripe) as (_ & B & _).
  destruct (stripe_layout_tiles size (fc_stripe_size cfg) false Hsize Hstripe) as (_ & HL & _).
  destruct (HL i o s Hi) as (O1 & O2 & O3 & O4 & _). unfold VolumeHeader_kSize in *. split_and!; try lia; [done|]. intros mmap Hf.
  destruct (stripe_layout_tiles size (fc_stripe_size cfg) mmap Hsize Hstripe) as (_ & HL' & _). now apply (HL' i o s Hi).
Qed.

Lemma elem_of_zero_writes l o s : (forall o s, (o, s) ∈ l -> o < size) -> (o, s) ∈ l ->
  (Z.to_nat o, replicate (Z.to_nat (Z.min (Z.min (directory_bytes cfg) s) (size - o))) 0) ∈ zero_writes cfg size l.
Proof.
  intros Hin. induction l as [|[o' s'] l IH]; intros H; [inversion H|]. cbn [zero_writes].
  rewrite (proj2 (Z.leb_gt _ _)) by (apply (Hin o' s'); left). apply elem_of_cons in H as [[= -> ->]|H]; [left|].
  right. apply IH; [|done]. intros a b Hab. apply (Hin a b). now right.
Qed.

Lemma zeroes_clear file :
  (forall off data, (off, data) ∈ zero_writes cfg size layout -> subspan file off (length data) = data) -> directories_clear file.
Proof using Hsize Hstripe.
  intros H o s Ho. cbv zeta. destruct (layout_inside o s Ho) as (O1 & _ & O3 & _).
  assert (Hlt : forall o s, (o, s) ∈ layout -> o < size) by (intros a b Hab; pose proof (layout_inside a b Hab); lia).
  specialize (H _ _ (elem_of_zero_writes layout o s Hlt Ho)). rewrite length_replicate in H.
  replace (Z.min (Z.min (directory_bytes cfg) s) (size - o)) with (Z.min (directory_bytes cfg) s) in H by lia. exact H.
Qed.

Lemma reset_spec env file : (Z.to_nat size <= length file)%nat ->
  let '(r, file') := reset cfg env size file in
  length file' = length file /\
  (take 64 file' = take 64 file \/ directories_clear file') /\
  (r = inr tt -> read_header true file' = inr (new_header cfg (oe_time env) size) /\ directories_clear file').
Proof using Hsize Hstripe.
  intros Hf. unfold reset. rewrite (proj2 (Z.leb_gt _ _)) by lia. unfold reset_writes. rewrite apply_writes_app.
  pose proof (apply_writes_spec (oe_budget env) (zero_writes cfg size layout) file 64
    (ascending_weaken 64 64 (Z.to_nat size) (length file) _ ltac:(lia) Hf reset_ascending)) as S1.
  destruct (apply_writes (oe_budget env) (zero_writes cfg size layout) file) as [[] f1]; destruct S1 as (L1 & K1 & Z1).
  2: { split; [done|]. split; [|done]. left. specialize (K1 0%nat 64%nat ltac:(lia)). exact K1. }
  specialize (zeroes_clear f1 (Z1 eq_refl)) as Hc. unfold VolumeHeader_kSize in Hsize.
  assert (Hl64 : (64 <= length f1)%nat) by lia. set (h := new_header cfg (oe_time env) size).
  pose proof (VolumeHeader.length_header h (new_header_ok (oe_time env))) as Eh. unfold VolumeHeader.kSize in Eh.
  assert (Hclear : forall d, (length d <= 64)%nat -> directories_clear (write_at f1 0 d)).
  { intros d Hd o s Ho. cbv zeta. destruct (layout_inside o s Ho) as (O1 & _). rewrite subspan_write_at_other by lia. now apply Hc. }
  assert (Hread : read_header true (write_at f1 0 (VolumeHeader.serialize h)) = inr h).
  { unfold read_header. rewrite length_write_at by lia. cbn [negb]. rewrite (proj2 (Nat.ltb_ge _ _)) by (unfold VolumeHeader.kSize; lia).
    rewrite write_at_take by (unfold VolumeHeader.kSize; lia). rewrite take_0, app_nil_l.
    pose proof (VolumeHeader.deserialize_header h [] (new_header_ok (oe_time env))) as E. rewrite app_nil_r in E. rewrite E. reflexivity. }
  destruct (oe_budget env) as [b|]; cbn [apply_writes fmap option_fmap option_map].
  - rewrite Eh. destruct (Nat.leb_spec 64 (b - total (zero_writes cfg size layout))).
    + rewrite length_write_at by lia. split; [done|]. split; [right; apply Hclear; lia|]. split; [done | apply Hclear; lia].
    + rewrite length_write_at by (rewrite length_take; lia). split; [done|]. split; [|done]. right. apply Hclear. rewrite length_take; lia.
  - rewrite length_write_at by lia. split; [done|]. split; [right; apply Hclear; lia|]. split; [done | apply Hclear; lia].
Qed.

(** A volume that was reset is taken as it is by the next open. *)
Lemma reset_then_accepted env env' file file' :
  (Z.to_nat size <= length file)%nat -> stripe_geometry_fits size (fc_stripe_size cfg) (mp_enabled (fc_mp cfg)) = true ->
  oe_pread env' = true -> reset cfg env size file = (inr tt, file') -> header_decision cfg env' false size file' = inr false.
Proof using Hsize Hstripe.
  intros Hf Hfit Hp Hr. pose proof (reset_spec env file Hf) as HS. rewrite Hr in HS. destruct HS as (_ & _ & HS).
  destruct (HS eq_refl) as [Hh Hc]. unfold header_decision. rewrite Hp, Hh. set (h := new_header cfg (oe_time env) size).
  change (VolumeHeader.is_compatible h) with true. change (VolumeHeader.retain_chunks h) with (expected_retain_chunks cfg size).
  change (VolumeHeader.stripe_count h) with (num_stripes (compute_stripe_geometry size (fc_stripe_size cfg))).
  rewrite !Z.eqb_refl. cbn [negb orb]. rewrite !andb_false_r. cbn [orb].
  replace (has_foreign_directory_version cfg true size file') with false; [now rewrite andb_false_r|].
  symmetry. apply not_true_iff_false. unfold has_foreign_directory_version. rewrite existsb_exists. intros ([o s] & Ho%list_elem_of_In & Hb).
  specialize (Hc o s Ho). cbv zeta in Hc. destruct (layout_inside o s Ho) as (_ & _ & _ & _ & Hs). specialize (Hs _ Hfit).
  assert (Hn : (64 <= Z.to_nat (Z.min (directory_bytes cfg) s))%nat).
  { assert (64 <= directory_bytes cfg) by (unfold directory_bytes; case_match; vm_compute; discriminate).
    assert (0 <= stripe_directory_span (mp_enabled (fc_mp cfg))) by (destruct (mp_enabled (fc_mp cfg)); vm_compute; discriminate).
    unfold kHeaderSize in Hs. lia. }
  assert (E : subspan file' (Z.to_nat o) 64 = replicate 64 0).
  { rewrite <- (take_subspan file' (Z.to_nat o) _ 64 Hn), Hc, take_replicate. f_equal. lia. }
  cbn [fst] in Hb. rewrite E in Hb. discriminate Hb.
Qed.
End reset.

(** ** A fresh process-local stripe is in good order *)

Lemma new_directory_empty n b e : e ∈ bucket_of (new_directory n) b -> is_empty e = true.
Proof.
  intros [k Hk]%list_elem_of_lookup. unfold bucket_of in Hk. apply list_elem_of_lookup_2, elem_of_take in Hk as (j & Hj & _).
  rewrite lookup_drop in Hj. apply lookup_replicate_1 in Hj as [-> _]. apply is_empty_empty.
Qed.

Lemma new_stripe_ok cfg i off size file :
  64 <= off < 2 ^ 40 -> (8 | off) -> stripe_directory_span false + Z.of_nat kHeaderSize <= size <= 2 ^ 40 ->
  off + size <= Z.of_nat (length file) -> stripe_state_ok file (new_stripe cfg i (off, size)).
Proof.
  intros Ho Ha Hs Hf. pose proof (eq_refl : stripe_directory_span false = 655360) as Hspan. rewrite Hspan in Hs.
  assert (Hst : stripe_ok (configure_frontier off size (off + 655360) (fc_wrap_retention cfg) false)).
  { apply configure_frontier_ok; try lia; [|done]. apply Z.divide_add_r; [done | exists 81920; lia]. }
  split; unfold new_stripe; rewrite Hspan; cbn [fst snd ss_stripe ss_log ss_dir].
  - exact Hst.
  - reflexivity.
  - set (st := configure_frontier off size (off + 655360) (fc_wrap_retention cfg) false) in *.
    assert (E : current_write_cursor st (new_log (off + 655360)) = off + 655360 /\ st_data_offset st = off + 655360 /\
      st_offset st = off /\ st_size st = size) by (split_and!; reflexivity). destruct E as (E1 & E2 & E3 & E4).
    unfold kHeaderSize in Hs. split; rewrite ?E1, ?E2, ?E3, ?E4.
    + reflexivity.
    + lia.
    + apply Z.divide_add_r; [done | exists 81920; lia].
    + exists 0, 0. split; [reflexivity|]. pose proof (so_chunks _ Hst). split; [lia|]. split; [lia|]. split; [reflexivity|].
      intros _. rewrite (frontier_rel_of_spec _ Hst) by lia. rewrite (proj2 (Z.leb_gt _ _)) by lia.
      unfold data_start_rel. rewrite E2, E3, E4. lia.
  - apply new_directory_ok; unfold kDirectoryEntriesPerSegment; [lia|]. rewrite Nat2Z.inj_mul, Z2Nat.id by lia. unfold kEntriesPerBucket. lia.
  - reflexivity.
  - exact Hf.
  - intros b j k e e' He _ Hn. apply list_elem_of_lookup_2, new_directory_empty in He. congruence.
Qed.

Section opened.
Context {C : Type} `{RO : RamCacheOps C} `{RL : !RamCacheLaws C} (cfg : FileConfig).
Implicit Types (v : OpenVolume (C := C)).

(** What the steps after the gate leave alone. *)
Definition same_but_stripes v v' (file : list Z) : Prop :=
  v_file (ov_volume v') = file /\ v_ram (ov_volume v') = v_ram (ov_volume v) /\
  v_generation (ov_volume v') = v_generation (ov_volume v) /\ ov_open v' = ov_open v.

Lemma lock_lifetime_keeps env v : let '(_, v') := lock_lifetime env v in ov_volume v' = ov_volume v /\ ov_size v' = ov_size v /\ ov_open v' = ov_open v.
Proof.
  unfold lock_lifetime. destruct (oe_create_map env), (oe_open_map env); try done. cbn [negb].
  destruct (if ov_gate_degraded _ then _ else _); destruct (oe_inodes_match env); done.
Qed.

Lemma length_extend file size : (Z.to_nat size <= length (extend file size))%nat /\ (length file <= length (extend file size))%nat.
Proof. unfold extend. rewrite length_app, length_replicate. lia. Qed.

(** The states [prepare_locked] can end in. *)
Lemma prepare_locked_cases env created v :
  let size := if ov_size v =? 0 then Z.of_nat (length (v_file (ov_volume v))) else ov_size v in
  let '(r, v') := prepare_locked cfg env created v in
  exists file, same_but_stripes v v' file /\
    ((r <> inr tt /\ file = v_file (ov_volume v)) \/
     (ov_size v' = size /\ stripe_geometry_fits size (fc_stripe_size cfg) (mp_enabled (fc_mp cfg)) = true /\
      ((header_decision cfg env created size (v_file (ov_volume v)) = inr false /\ file = extend (v_file (ov_volume v)) size) \/
       (header_decision cfg env created size (v_file (ov_volume v)) = inr true /\
        (created = true \/ oe_exclusive env <> Conflict) /\
        exists r', reset cfg env size (extend (v_file (ov_volume v)) size) = (r', file) /\ (r = inr tt -> r' = inr tt))))).
Proof.
  cbv zeta. unfold prepare_locked. set (size := if ov_size v =? 0 then _ else _).
  destruct (oe_fstat env); cbn [negb]; [|exists (v_file (ov_volume v)); split; [done | now left]].
  destruct (stripe_geometry_fits size _ _) eqn:Hfit; cbn [negb].
  2: { rewrite orb_true_r. exists (v_file (ov_volume v)). split; [done | now left]. }
  destruct (size =? 0); cbn [orb]; [exists (v_file (ov_volume v)); split; [done | now left]|].
  unfold open_gate. destruct (header_decision _ _ _ _ _) as [err|reset_it] eqn:Hd; [exists (v_file (ov_volume v)); split; [done | now left]|].
  set (decided := if reset_it then _ else _).
  assert (Hg : decided = inl EResetRefusedLivePeer \/
    exists gate, decided = inr gate /\ ga_needs_reset gate = reset_it /\ (reset_it = true -> created = true \/ oe_exclusive env <> Conflict)).
  { subst decided. destruct reset_it, created, (oe_exclusive env); try (left; reflexivity); right; eexists; (split; [reflexivity|]); (split; [reflexivity|]); auto. }
  destruct Hg as [->|(gate & -> & Hn & Hc)]; [exists (v_file (ov_volume v)); split; [done | now left]|].
  set (v1 := if ga_degraded gate then _ else _).
  assert (E1 : same_but_stripes v v1 (v_file (ov_volume v)) /\ ov_size v1 = size) by (subst v1; destruct (ga_degraded gate); done).
  clearbody v1. destruct E1 as [E1 Es1]. destruct (_ && negb (oe_truncate env)); [exists (v_file (ov_volume v)); split; [done | now left]|].
  destruct E1 as (F1 & F2 & F3 & F4). rewrite Hn. destruct reset_it.
  - cbn [ov_volume set_file_of set_volume v_file set_file]. destruct (reset _ _ _ _) as [r' file] eqn:Hr.
    destruct r' as [err|[]].
    + exists file. split; [unfold same_but_stripes; cbn; done|]. right. split; [done|]. split; [done|]. right. split; [done|]. split; [now apply Hc|]. eauto.
    + set (v2 := count_reset _ _). pose proof (lock_lifetime_keeps env v2) as HK. destruct (lock_lifetime env v2) as [r v'].
      destruct HK as (K1 & K2 & K3). exists file. split; [unfold same_but_stripes; rewrite K1, K3; cbn; done|]. right. split; [now rewrite K2|].
      split; [done|]. right. split; [done|]. split; [now apply Hc|]. eauto.
  - set (v2 := set_file_of _ _). pose proof (lock_lifetime_keeps env v2) as HK.
    destruct (lock_lifetime env v2) as [r v']. destruct HK as (K1 & K2 & K3). exists (extend (v_file (ov_volume v)) size).
    split; [unfold same_but_stripes; rewrite K1, K3; cbn; done|]. right. split; [now rewrite K2|]. split; [done|]. now left.
Qed.

Lemma open_locked_inv env created v v' :
  VolumeHeader_kSize < (if ov_size v =? 0 then Z.of_nat (length (v_file (ov_volume v))) else ov_size v) < 2 ^ 62 -> 0 <= fc_stripe_size cfg < 2 ^ 62 ->
  open_locked cfg env created v = Some (inr tt, v') ->
  exists size file, (size = if ov_size v =? 0 then Z.of_nat (length (v_file (ov_volume v))) else ov_size v) /\
    stripe_geometry_fits size (fc_stripe_size cfg) (mp_enabled (fc_mp cfg)) = true /\
    length file = length (extend (v_file (ov_volume v)) size) /\ same_but_stripes v v' file /\ ov_size v' = size /\ init_stripes cfg size = Some (v_stripes (ov_volume v')).
Proof.
  intros Hsize Hst H. pose proof (prepare_locked_cases env created v) as HP. cbv zeta in HP. set (size := if ov_size v =? 0 then _ else _) in *.
  unfold open_locked in H. destruct (prepare_locked cfg env created v) as [r v1]. destruct r as [err|[]]; [done|].
  apply bind_Some in H as (st & Hi & [= <-]). destruct HP as (file & (F1 & F2 & F3 & F4) & HP).
  destruct HP as [[Hc _]|(S1 & S2 & HP)]; [done|]. rewrite S1 in Hi. exists size, file. pose proof (length_extend (v_file (ov_volume v)) size) as [Hext _].
  split; [done|]. split; [done|]. split.
  { destruct HP as [[_ ->]|(_ & _ & r' & Hr & _)]; [done|]. pose proof (reset_spec cfg size Hsize Hst env _ Hext) as HR. rewrite Hr in HR.
    apply HR. }
  split; [unfold same_but_stripes; cbn; done|]. split; [done | exact Hi].
Qed.

Lemma open_inv env v v' :
  0 <= ov_size v <= 2 ^ 40 -> Z.of_nat (length (v_file (ov_volume v))) <= 2 ^ 40 -> 0 <= fc_stripe_size cfg < 2 ^ 62 ->
  open cfg env v = Some (inr tt, v') ->
  VolumeHeader_kSize < ov_size v' <= 2 ^ 40 /\
  stripe_geometry_fits (ov_size v') (fc_stripe_size cfg) (mp_enabled (fc_mp cfg)) = true /\
  ov_size v' <= Z.of_nat (length (v_file (ov_volume v'))) <= 2 ^ 40 /\ v_ram (ov_volume v') = v_ram (ov_volume v) /\
  v_generation (ov_volume v') = v_generation (ov_volume v) /\ ov_open v' = true /\
  init_stripes cfg (ov_size v') = Some (v_stripes (ov_volume v')).
Proof.
  intros Hs Hl Hst. unfold open. destruct (ov_open v); [done|]. destruct (_ && _); [done|]. destruct (oe_fd env); [|done]. cbn [negb].
  set (v1 := set_gauges _ _ _). intros H. destruct (oe_init_lock env); [|done]. cbn [negb] in H.
  assert (E : ov_size v1 = ov_size v /\ v_ram (ov_volume v1) = v_ram (ov_volume v) /\
    v_generation (ov_volume v1) = v_generation (ov_volume v) /\ ov_open v1 = true /\
    Z.of_nat (length (v_file (ov_volume v1))) <= 2 ^ 40).
  { subst v1. destruct (oe_exists env); cbn; split_and!; try done; lia. }
  clearbody v1. destruct E as (E1 & E2 & E3 & E4 & E5). apply bind_Some in H as ([r v2] & H & Hr).
  destruct r as [err|[]]; [done|]. injection Hr as ->.
  set (size := if ov_size v1 =? 0 then Z.of_nat (length (v_file (ov_volume v1))) else ov_size v1).
  assert (Hsz : 0 <= size <= 2 ^ 40) by (unfold size; case_match; lia).
  destruct (Z.le_gt_cases size VolumeHeader_kSize) as [Hsmall|Hbig].
  { exfalso. unfold open_locked, prepare_locked in H. fold size in H. destruct (oe_fstat env); [|done]. cbn [negb] in H.
    assert (Hno : stripe_geometry_fits size (fc_stripe_size cfg) (mp_enabled (fc_mp cfg)) = false)
      by (unfold stripe_geometry_fits; now rewrite (proj2 (Z.leb_le _ _) Hsmall)).
    rewrite Hno in H. cbn [negb] in H. rewrite orb_true_r in H. done. }
  destruct (open_locked_inv env _ v1 v' ltac:(fold size; lia) Hst H) as (size' & file & Es & Hfit & Hlen & (F1 & F2 & F3 & F4) & F5 & F6).
  fold size in Es. subst size'. unfold extend in Hlen. rewrite length_app, length_replicate in Hlen.
  rewrite F1, F2, F3, F4, F5, E2, E3, E4. split_and!; try done; lia.
Qed.

Lemma opened_ok env v v' :
  0 <= ov_size v <= 2 ^ 40 -> Z.of_nat (length (v_file (ov_volume v))) <= 2 ^ 40 -> 0 <= fc_stripe_size cfg < 2 ^ 62 ->
  ram_ok (ov_volume v) -> open cfg env v = Some (inr tt, v') ->
  volume_ok (ov_volume v') /\ ov_open v' = true /\
  Z.of_nat (length (v_stripes (ov_volume v'))) = num_stripes (compute_stripe_geometry (ov_size v') (fc_stripe_size cfg)) /\
  (forall i s, v_stripes (ov_volume v') !! i = Some s ->
     ss_owned s = true /\ gen_room s /\ st_offset (ss_stripe s) + st_size (ss_stripe s) <= ov_size v' /\ (forall key, candidates s key = [])).
Proof using RO RL.
  intros Hs Hl Hst Hram H. destruct (open_inv env v v' Hs Hl Hst H) as (S1 & S2 & S3 & S4 & S5 & S6 & S7).
  unfold init_stripes in S7. destruct (mp_enabled (fc_mp cfg)) eqn:Hmp; [done|]. injection S7 as S7.
  assert (Hsz : VolumeHeader_kSize < ov_size v' < 2 ^ 62) by lia.
  assert (Hin : forall i s, v_stripes (ov_volume v') !! i = Some s -> exists o sz, s = new_stripe cfg i (o, sz) /\
    (o, sz) ∈ stripe_layout (ov_size v') (fc_stripe_size cfg)).
  { intros i s Hi. rewrite <- S7, list_lookup_imap in Hi. destruct (stripe_layout _ _ !! i) as [[o sz]|] eqn:E; [|done].
    injection Hi as <-. exists o, sz. split; [done | by eapply list_elem_of_lookup_2]. }
  split; [split|split; [done|split]].
  - intros i s Hi. destruct (Hin i s Hi) as (o & sz & -> & Ho). destruct (layout_inside cfg _ Hsz Hst o sz Ho) as (O1 & O2 & O3 & O4 & O5).
    specialize (O5 false S2). apply new_stripe_ok; [split; [lia|] | done | lia | lia]. lia.
  - unfold ram_ok in *. now rewrite S4.
  - rewrite <- S7, length_imap. unfold stripe_layout. rewrite length_layout_from.
    destruct (compute_stripe_geometry_spec (ov_size v') (fc_stripe_size cfg) Hsz Hst) as (N & _). lia.
  - intros i s Hi. destruct (Hin i s Hi) as (o & sz & -> & Ho). destruct (layout_inside cfg _ Hsz Hst o sz Ho) as (O1 & O2 & O3 & O4 & O5).
    specialize (O5 false S2). cbn [new_stripe ss_owned fst snd].
    split; [unfold is_stripe_owned; now rewrite Hmp|]. split; [|split; [exact O3|]].
    + assert (Hok : stripe_state_ok (v_file (ov_volume v')) (new_stripe cfg i (o, sz)))
        by (apply new_stripe_ok; [split; [lia|] | done | lia | lia]; lia).
      unfold gen_room. pose proof (so_chunks _ (sk_stripe _ _ Hok)). change (ws_gen (ss_log (new_stripe cfg i (o, sz)))) with 0. lia.
    + intros key. destruct (candidates _ key) as [|e l] eqn:E; [done|]. exfalso.
      assert (He : e ∈ candidates (new_stripe cfg i (o, sz)) key) by (rewrite E; left).
      apply elem_of_candidates in He as (He & Hn & _). apply new_directory_empty in He. congruence.
Qed.

(** C6. A process-local volume of at most 1 TiB that [open] accepts is
    well-formed: it has the stripes of its geometry, each seated inside the file
    behind its own directory, owned and in good order, and it holds nothing yet
    (the directory of a process-local volume does not outlive the process):
    every operation's precondition [volume_ok] holds.  The bound is on the
    configured size and on the file, 2^40 bytes each, which is what the offsets
    of the directory reach; above it the code accepts volumes this is false of
    ([oversized_stripe_accepted]).  The configured stripe size is below 2^62. *)
Theorem open_well_formed env v v' :
  0 <= ov_size v <= 2 ^ 40 -> Z.of_nat (length (v_file (ov_volume v))) <= 2 ^ 40 -> 0 <= fc_stripe_size cfg < 2 ^ 62 ->
  ram_ok (ov_volume v) -> open cfg env v = Some (inr tt, v') ->
  volume_ok (ov_volume v') /\ ov_open v' = true /\
  Z.of_nat (length (v_stripes (ov_volume v'))) = num_stripes (compute_stripe_geometry (ov_size v') (fc_stripe_size cfg)) /\
  (forall i s, v_stripes (ov_volume v') !! i = Some s ->
     ss_owned s = true /\ gen_room s /\ st_offset (ss_stripe s) + st_size (ss_stripe s) <= ov_size v' /\ (forall key, candidates s key = [])).
Proof using RO RL. exact (opened_ok env v v'). Qed.

Lemma prepare_spares_live_peer env v : oe_exclusive env = Conflict ->
  exists n, v_file (ov_volume (snd (prepare_locked cfg env false v))) = v_file (ov_volume v) ++ replicate n 0.
Proof using.
  intros Hc. pose proof (prepare_locked_cases env false v) as HP. cbv zeta in HP.
  destruct (prepare_locked cfg env false v) as [r v']. destruct HP as (file & (F1 & _) & HP). cbn [snd]. rewrite F1.
  destruct HP as [[_ ->]|(_ & _ & [[_ ->]|(_ & [?|?] & _)])]; [exists 0%nat; now rewrite app_nil_r | | done | done].
  unfold extend. eauto.
Qed.

(** C7. The reset gate: while another process holds the volume's lifetime lock,
    opening the existing file as a process-local volume, whatever its header
    says and whether or not the open succeeds, overwrites none of its bytes;
    the most it does is extend the file.  (A multi-process open is covered up
    to the setting-up of its stripes, where the model ends.) *)
Theorem open_spares_live_peer env v r v' :
  oe_exists env = true -> oe_exclusive env = Conflict -> open cfg env v = Some (r, v') ->
  exists n, v_file (ov_volume v') = v_file (ov_volume v) ++ replicate n 0.
Proof using.
  intros He Hc. assert (Hsame : exists n, v_file (ov_volume v) = v_file (ov_volume v) ++ replicate n 0) by (exists 0%nat; cbn; by rewrite app_nil_r).
  unfold open. rewrite He. cbn [negb]. destruct (ov_open v); [by intros [= _ <-]|]. destruct (_ && _); [by intros [= _ <-]|].
  destruct (oe_fd env); [|by intros [= _ <-]]. destruct (oe_init_lock env); [|by intros [= _ <-]]. cbn [negb].
  set (v1 := set_gauges _ _ _). change (v_file (ov_volume v)) with (v_file (ov_volume v1)). unfold open_locked.
  pose proof (prepare_spares_live_peer env v1 Hc) as HP. destruct (prepare_locked cfg env false v1) as [[err|] v2]; cbn [snd] in HP.
  - by intros [= _ <-].
  - intros ([r3 v3] & (stripes & _ & [= <- <-])%bind_Some & [= _ <-])%bind_Some. exact HP.
Qed.

(** Creating a process-local volume succeeds when the operating system does. *)
Lemma open_creates env v :
  mp_enabled (fc_mp cfg) = false -> VolumeHeader_kSize < ov_size v -> stripe_geometry_fits (ov_size v) (fc_stripe_size cfg) false = true ->
  ov_open v = false -> oe_exists env = false -> oe_fd env = true -> oe_init_lock env = true -> oe_fstat env = true ->
  oe_truncate env = true -> oe_budget env = None -> oe_create_map env = true -> oe_open_map env = true -> oe_shared env = Acquired ->
  oe_inodes_match env = true -> exists v', open cfg env v = Some (inr tt, v').
Proof using.
  intros Hmp Hs Hfit Hcl E1 E2 E3 E4 E5 E6 E7 E8 E9 E10. unfold open. rewrite Hcl, Hmp, Hfit, andb_false_r, E1, E2, E3.
  cbn [negb]. unfold open_locked, prepare_locked. rewrite E4. cbn [negb ov_size set_gauges set_open set_file_of set_volume].
  assert (Hz : (ov_size v =? 0) = false) by (unfold VolumeHeader_kSize in Hs; lia). rewrite Hz, Hz, Hmp, Hfit. cbn [negb orb].
  unfold open_gate, header_decision. cbn [ga_degraded ga_needs_reset ga_provenance]. rewrite E5, andb_false_r.
  unfold reset. rewrite (proj2 (Z.leb_gt _ _) Hs), E6.
  assert (Hw : forall ws file, exists file', apply_writes None ws file = (true, file')).
  { induction ws as [|[off data] ws IH]; intros file; cbn; eauto. }
  match goal with |- context [apply_writes None ?ws ?f] => destruct (Hw ws f) as [file' ->] end.
  unfold lock_lifetime. rewrite E7, E8. cbn -[init_stripes stripe_geometry_fits]. rewrite E9, E10. cbn -[init_stripes].
  unfold init_stripes. rewrite Hmp. cbn. eauto.
Qed.
End opened.

(** C40. A reset writes the header last.  For a size below 2^62 bytes that the
    file has and whose geometry fits: after whichever prefix of the bytes it
    writes, in the order it writes them, the 64 header bytes are still the old
    ones or every stripe's directory is already zero, and the file has its
    length; a reset that succeeds has zeroed the directories, and its header is
    one that the next open with the same configuration reads and accepts
    without a second reset. *)
Theorem reset_header_last cfg size env file :
  VolumeHeader_kSize < size < 2 ^ 62 -> 0 <= fc_stripe_size cfg < 2 ^ 62 -> (Z.to_nat size <= length file)%nat ->
  stripe_geometry_fits size (fc_stripe_size cfg) (mp_enabled (fc_mp cfg)) = true ->
  let '(r, file') := reset cfg env size file in
  length file' = length file /\
  (take 64 file' = take 64 file \/ directories_clear cfg size file') /\
  (r = inr tt -> directories_clear cfg size file' /\
     forall env', oe_pread env' = true -> header_decision cfg env' false size file' = inr false).
Proof.
  intros Hs Hst Hl Hf. pose proof (reset_spec cfg size Hs Hst env file Hl) as HR.
  pose proof (fun env' => reset_then_accepted cfg size Hs Hst env env' file) as HA.
  destruct (reset cfg env size file) as [r file']. destruct HR as (R1 & R2 & R3). split; [done|]. split; [done|].
  intros ->. split; [now apply R3|]. intros env' Hp. now apply HA.
Qed.

(** ** A small configuration *)

Definition local_config : FileConfig := {|
  fc_stripe_size := 0; fc_wrap_retention := true; fc_auto_reset_on_incompatible := true;
  fc_mp := {| mp_enabled := false; mp_process_index := 0; mp_total_processes := 1; mp_max_read_retries := 1 |} |}.
Definition good_env : OpenEnv := {|
  oe_exists := false; oe_fd := true; oe_init_lock := true; oe_fstat := true; oe_pread := true; oe_exclusive := Acquired;
  oe_truncate := true; oe_time := 5; oe_budget := None; oe_create_map := true; oe_open_map := true; oe_whole_map := true;
  oe_shared := Acquired; oe_inodes_match := true |}.
(** The same, with room for 1000 bytes of writes. *)
Definition cut_env : OpenEnv := {|
  oe_exists := false; oe_fd := true; oe_init_lock := true; oe_fstat := true; oe_pread := true; oe_exclusive := Acquired;
  oe_truncate := true; oe_time := 5; oe_budget := Some 1000%nat; oe_create_map := true; oe_open_map := true; oe_whole_map := true;
  oe_shared := Acquired; oe_inodes_match := true |}.
Definition closed_volume {C} (ram : option C) (size : Z) : OpenVolume (C := C) := {|
  ov_volume := {| v_stripes := []; v_file := []; v_ram := ram; v_checksums := ∅; v_draw := 7; v_generation := 0; v_events := [] |};
  ov_size := size; ov_open := false; ov_gate_degraded := false; ov_whole_map_failed := false; ov_resets_degraded := 0; ov_resets_verified := 0 |}.

Lemma closed_volume_opens {C} (ram : option C) : exists v', open local_config good_env (closed_volume ram (2 ^ 28)) = Some (inr tt, v').
Proof. apply open_creates; reflexivity. Qed.

Lemma open_well_formed_witness : exists v', open local_config good_env (closed_volume (Some (new_lru 1000)) (2 ^ 28)) = Some (inr tt, v') /\
  @volume_ok _ _ (lru_laws true) (ov_volume v') /\ ov_open v' = true.
Proof.
  destruct (closed_volume_opens (Some (new_lru 1000))) as [v' E]. exists v'. split; [exact E|].
  pose proof (@open_well_formed _ _ (lru_laws true) local_config good_env (closed_volume (Some (new_lru 1000)) (2 ^ 28)) v') as H.
  assert (H1 : 0 <= ov_size (closed_volume (Some (new_lru 1000)) (2 ^ 28)) <= 2 ^ 40) by (cbn; lia).
  assert (H2 : Z.of_nat (length (v_file (ov_volume (closed_volume (Some (new_lru 1000)) (2 ^ 28))))) <= 2 ^ 40) by (cbn; lia).
  assert (H3 : 0 <= fc_stripe_size local_config < 2 ^ 62) by (cbn; lia).
  assert (H4 : @ram_ok _ _ (lru_laws true) (ov_volume (closed_volume (Some (new_lru 1000)) (2 ^ 28)))) by (apply new_lru_ok; lia).
  destruct (H H1 H2 H3 H4 E) as (HV & HO & _). split; [exact HV | exact HO].
Defined.

(** A file of another format, which a live peer has open. *)
Definition old_file : list Z := replicate (Z.to_nat (2 ^ 20)) 1.

Lemma open_spares_live_peer_witness :
  let env := {| oe_exists := true; oe_fd := true; oe_init_lock := true; oe_fstat := true; oe_pread := true; oe_exclusive := Conflict;
    oe_truncate := true; oe_time := 5; oe_budget := None; oe_create_map := true; oe_open_map := true; oe_whole_map := true;
    oe_shared := Acquired; oe_inodes_match := true |} in
  exists v', open local_config env (set_file_of (closed_volume (C := unit) None (2 ^ 20)) old_file) = Some (inl EResetRefusedLivePeer, v') /\
  exists n, v_file (ov_volume v') = old_file ++ replicate n 0.
Proof.
  intros env. set (v := set_file_of (closed_volume (C := unit) None (2 ^ 20)) old_file).
  assert (Hr : match open local_config env v with Some (inl EResetRefusedLivePeer, _) => true | _ => false end = true) by (vm_compute; reflexivity).
  destruct (open local_config env v) as [[[[]|r] v']|] eqn:E; try discriminate Hr. exists v'. split; [reflexivity|].
  assert (Ev : v_file (ov_volume v) = old_file) by reflexivity.
  pose proof (open_spares_live_peer local_config env v _ v' eq_refl eq_refl E) as [n H]. exists n. rewrite Ev in H. exact H.
Defined.

(** A reset of that file that runs to its end, and one that is cut short. *)
Lemma reset_header_last_witness :
  let '(r, file') := reset local_config good_env (2 ^ 20) old_file in
  let '(r2, cut) := reset local_config cut_env (2 ^ 20) old_file in
  r = inr tt /\ directories_clear local_config (2 ^ 20) file' /\ header_decision local_config good_env false (2 ^ 20) file' = inr false /\
  r2 = inl EIoError /\ (take 64 cut = take 64 old_file \/ directories_clear local_config (2 ^ 20) cut).
Proof.
  assert (H1 : VolumeHeader_kSize < 2 ^ 20 < 2 ^ 62) by (unfold VolumeHeader_kSize; lia).
  assert (H2 : 0 <= fc_stripe_size local_config < 2 ^ 62) by (cbn; lia).
  assert (H3 : (Z.to_nat (2 ^ 20) <= length old_file)%nat) by (unfold old_file; rewrite length_replicate; apply Nat.le_refl).
  assert (H4 : stripe_geometry_fits (2 ^ 20) (fc_stripe_size local_config) (mp_enabled (fc_mp local_config)) = true) by reflexivity.
  pose proof (reset_header_last local_config (2 ^ 20) good_env old_file H1 H2 H3 H4) as H.
  pose proof (reset_header_last local_config (2 ^ 20) cut_env old_file H1 H2 H3 H4) as H'.
  assert (Er : (reset local_config good_env (2 ^ 20) old_file).1 = inr tt) by (vm_compute; reflexivity).
  assert (Er' : (reset local_config cut_env (2 ^ 20) old_file).1 = inl EIoError) by (vm_compute; reflexivity).
  destruct (reset local_config good_env (2 ^ 20) old_file) as [r file'], (reset local_config cut_env (2 ^ 20) old_file) as [r2 cut].
  cbn [fst] in Er, Er'. destruct H as (_ & _ & H), H' as (_ & HB & _). destruct (H Er) as [HC HD].
  exact (conj Er (conj HC (conj (HD good_env eq_refl) (conj Er' HB)))).
Defined.

(** A directory entry holds 40 bits of a document's offset in its stripe, but
    the geometry check has no upper bound: a volume of 32 TiB is accepted with
    16 stripes of 2 TiB, and an offset past the first TiB reads back as another
    one. *)
Lemma oversized_stripe_accepted :
  stripe_geometry_fits (2 ^ 45) 0 false = true /\ 2 ^ 40 < base_stripe_size (compute_stripe_geometry (2 ^ 45) 0) /\
  DirEntry.offset (set_offset empty_entry (2 ^ 40 + 4096)) = 4096.
Proof. vm_compute. repeat split. Qed.
