(* ===== verification/Alternates.v ===== *)
(** * Alternate chains of a volume (src/src/core/volume.cpp)

    The variants of one key (the original, compressed copies) are documents
    linked from the newest to the oldest: the directory entry names the head,
    each document the next one.  Reading collects the chain and lets a
    selector choose; removing relinks the predecessor in place or republishes
    the successor as the head; hit counts are stored in place.

    The volume is as in Volume.v: one process, an operation runs alone, the
    file is its bytes.  The selector is a function of what the chain offers.
    The in-place stores go through the fence of [commit_header_rmw], here on
    the path of a process-local stripe. *)

From S2P Require Import Prelude Key Document DirEntry Directory Geometry Stripe WriteLog RamCache Volume.
Local Open Scope cyc_scope.

(** ** What a chain offers *)

Record AlternateInfo := {
  ai_id : Z; ai_disk_offset : Z; ai_content_length : Z; ai_hit_count : Z; ai_last_access : Z; ai_header : list Z }.

Definition build_alternate_info (reader : DocumentReader) (disk_offset : Z) : AlternateInfo :=
  let doc := r_doc reader in {|
    ai_id := Document.alternate_id doc; ai_disk_offset := disk_offset; ai_content_length := total_len doc;
    ai_hit_count := hit_count doc; ai_last_access := if 0 <? last_access doc then last_access doc else 0;
    ai_header := r_header reader |}.

Definition kMaxAlternates : nat := 64.
Definition kMaxChainTraversalDepth : nat := kMaxAlternates * 2.
Definition kInitialMapSize : Z := Z.of_nat kHeaderSize + 64 * 1024.

(** A node of the chain as the walk saw it. *)
Record Node := { nd_offset : Z; nd_cls : AdmitClass; nd_reader : DocumentReader }.

Record Walk := { wk_nodes : list Node; wk_incomplete : bool; wk_deep : bool }.

Definition followed_ok (followed : option Z) (doc : Document) : bool :=
  match followed with Some link => bound_by_link doc link | None => true end.

(** The walk of the readers.  [depth] is what is left of
    [kMaxChainTraversalDepth]; [followed] the link that led here. *)
Fixpoint walk_chain (depth : nat) (s : Stripe) (file : list Z) (snap : StripeSnapshot) (key : CacheKey)
    (current : Z) (cls : AdmitClass) (followed : option Z) : Walk :=
  match depth with
  | O => {| wk_nodes := []; wk_incomplete := false; wk_deep := true |}
  | S depth =>
      if current =? 0 then {| wk_nodes := []; wk_incomplete := false; wk_deep := false |}
      else
        match map_document file current kInitialMapSize (st_size s) with
        | None => {| wk_nodes := []; wk_incomplete := true; wk_deep := false |}
        | Some reader =>
            let doc := r_doc reader in
            if negb (bool_decide (r_first_key reader = key)) || negb (is_servable reader)
               || negb (stamp_admits s snap cls doc) || negb (followed_ok followed doc)
            then {| wk_nodes := []; wk_incomplete := true; wk_deep := false |}
            else
              let node := {| nd_offset := current; nd_cls := cls; nd_reader := reader |} in
              let next_link := next_alternate_offset doc in
              let next := link_offset next_link in
              if next =? 0 then {| wk_nodes := [node]; wk_incomplete := false; wk_deep := false |}
              else
                match admit_hop s next (current - st_offset s) cls snap with
                | kReject => {| wk_nodes := [node]; wk_incomplete := false; wk_deep := false |}
                | cls =>
                    let w := walk_chain depth s file snap key (st_offset s + next) cls (Some next_link) in
                    {| wk_nodes := node :: wk_nodes w; wk_incomplete := wk_incomplete w; wk_deep := wk_deep w |}
                end
        end
  end.

Definition info_of (n : Node) : AlternateInfo := build_alternate_info (nd_reader n) (nd_offset n).

(** The head of the chain: the document of an admitted entry. *)
Definition chain_head (s : Stripe) (file : list Z) (snap : StripeSnapshot) (key : CacheKey) (e : DirEntry) (cls : AdmitClass)
  : option DocumentReader :=
  reader ← map_document file (st_offset s + DirEntry.offset e) (approx_size e) (st_size s);
  if negb (bool_decide (r_first_key reader = key)) || negb (stamp_admits s snap cls (r_doc reader))
     || negb (entry_binds e (r_doc reader))
  then None else Some reader.

(** ** Listing *)

Record ListAcc := { la_found : bool; la_result : option (list AlternateInfo); la_checksum_failed : bool }.

Definition list_candidate (s : Stripe) (file : list Z) (snap : StripeSnapshot) (key : CacheKey)
    (e : DirEntry) (cls : AdmitClass) (acc : ListAcc) : bool * ListAcc :=
  if la_found acc then (false, acc)
  else
    match chain_head s file snap key e cls with
    | None => (true, acc)
    | Some _ =>
        let w := walk_chain kMaxChainTraversalDepth s file snap key (st_offset s + DirEntry.offset e) cls None in
        (false, match wk_nodes w with
                | [] => {| la_found := true; la_result := None; la_checksum_failed := wk_incomplete w || wk_deep w |}
                | nodes => {| la_found := true; la_result := Some (info_of <$> nodes); la_checksum_failed := wk_deep w |}
                end)
    end.

Section alternates.
Context (bld : mulhi_build) `{Checksum} {C : Type} `{!RamCacheOps C} (cfg : VolumeConfig).

Definition list_attempt (i : nat) (key : CacheKey) (v : Volume (C := C))
  : option (attempt (list AlternateInfo) * Volume (C := C)) :=
  match v_stripes v !! i with
  | None => Some (Done (inl ENotInitialized), v)
  | Some s =>
      let snap := stripe_snapshot bld s in
      let '(acc, rejects) := probe_each (ss_stripe s) snap (list_candidate (ss_stripe s) (v_file v) snap key) (candidates s key)
        {| la_found := false; la_result := None; la_checksum_failed := false |} [] in
      if negb (la_found acc) && probe_raced_publish (ss_stripe s) (stripe_snapshot bld s) rejects then Some (RacedPublish, v)
      else
        match la_result acc with
        | Some l => if wrapped_since bld (ss_stripe s) (ws_gen (ss_log s)) snap then Some (Raced true, v) else Some (Done (inr l), v)
        | None => if la_checksum_failed acc then Some (Raced true, v) else Some (Done (inl ENotFound), v)
        end
  end.

Definition list_alternates_sync (key : CacheKey) (v : Volume (C := C)) : option ((VolumeError + list AlternateInfo) * Volume (C := C)) :=
  match select_stripe v key with
  | None => Some (inl ENotInitialized, v)
  | Some (i, _) => retry_loop (read_fuel cfg) (list_attempt i key) (fun _ => ECorrupted) (u32 (vc_max_read_retries cfg + 1)) 0 false v
  end.

(** ** Reading the selected alternate *)

Definition alternate_key (key : CacheKey) (id : Z) : RamCacheKey := {| cache_key := key; RamCache.alternate_id := id |}.

Definition kSendfileThreshold : Z := 32 * 1024.
Definition kMapOverhead : Z := Z.of_nat kHeaderSize + 64 * 1024.

(** What the callback of [read_alternate_sync] leaves behind; [aa_hit] is the
    alternate to record a hit for. *)
Record AltAcc := {
  aa_volume : Volume (C := C); aa_found_head : bool; aa_result : VolumeError + ReadHandle; aa_checksum_failed : bool;
  aa_epoch_changed : bool; aa_hit : option Z }.

Definition alt_fails (v : Volume (C := C)) (err : VolumeError) : AltAcc := {|
  aa_volume := v; aa_found_head := true; aa_result := inl err; aa_checksum_failed := false; aa_epoch_changed := false; aa_hit := None |}.
Definition alt_checksum_failed (v : Volume (C := C)) : AltAcc := {|
  aa_volume := v; aa_found_head := true; aa_result := inl ENotFound; aa_checksum_failed := true; aa_epoch_changed := false; aa_hit := None |}.
Definition alt_epoch_changed (v : Volume (C := C)) : AltAcc := {|
  aa_volume := v; aa_found_head := true; aa_result := inl ENotFound; aa_checksum_failed := false; aa_epoch_changed := true; aa_hit := None |}.
Definition alt_serves (v : Volume (C := C)) (h : ReadHandle) (id : Z) : AltAcc := {|
  aa_volume := v; aa_found_head := true; aa_result := inr h; aa_checksum_failed := false; aa_epoch_changed := false; aa_hit := Some id |}.

Definition use_ram_cache (v : Volume (C := C)) (content_length : Z) : bool :=
  match v_ram v with Some _ => negb (vc_persistent_map cfg) || (content_length <=? kSendfileThreshold) | None => false end.

(** The RAM leg for the selected alternate. *)
Definition read_ram_alternate (s : StripeState) (key : CacheKey) (id : Z) (v : Volume (C := C))
  : option (option DocumentReader * Volume (C := C)) :=
  match v_ram v with
  | None => Some (None, v)
  | Some c =>
      '(hit, c) ← rc_get (alternate_key key id) c;
      let v := set_ram v c in
      match hit with
      | None => Some (None, v)
      | Some (data, stamp) =>
          if ram_coherence_active cfg s && negb (stamp =? bucket_version (ss_dir s) key) then
            '(_, c) ← rc_remove (alternate_key key id) c;
            Some (None, event (set_ram v c) VCoherenceRejection)
          else let reader := new_reader data in Some (if is_servable reader then Some reader else None, v)
      end
  end.

(** Mapping the selected alternate; an error is final. *)
Definition map_selected (file : list Z) (offset content_length stripe_size : Z) : VolumeError + DocumentReader :=
  if 2 ^ 64 - 1 - kMapOverhead <? content_length then inl ECorrupted
  else
    let map_size := content_length + kMapOverhead in
    match map_region file offset map_size with
    | None => inl EIoError
    | Some data =>
        let reader := new_shared_reader offset data in
        if negb (r_valid reader) then inl ECorrupted
        else
          let remapped :=
            if map_size <? len (r_doc reader) then
              if stripe_size <? len (r_doc reader) then inl ECorrupted
              else
                match map_region file offset (len (r_doc reader)) with
                | None => inl EIoError
                | Some data => let reader := new_reader data in if r_valid reader then inr reader else inl ECorrupted
                end
            else inr reader in
          match remapped with
          | inl err => inl err
          | inr reader => if is_servable reader then inr reader else inl ENotFound
          end
    end.

(** The copy for the RAM cache, put if neither a removal nor a publish into
    the bucket has moved since the probe began. *)
Definition put_alternate (s : StripeState) (key : CacheKey) (id : Z) (reader : DocumentReader) (epoch : BorrowEpoch)
    (remove_epoch_start version_start : Z) (v : Volume (C := C)) : option (Volume (C := C)) :=
  match v_ram v with
  | None => Some v
  | Some c =>
      let doc_len := len (r_doc reader) in
      if (doc_len <=? Z.of_nat (length (r_data reader))) && borrow_still_valid (ss_log s) epoch
         && (ss_remove_epoch s =? remove_epoch_start) then
        let verdict := (ss_remove_epoch s =? remove_epoch_start) && (version_start .& 1 =? 0)
                       && (bucket_version (ss_dir s) key =? version_start) in
        '(inserted, c) ← rc_put_if (alternate_key key id) (take (Z.to_nat doc_len) (r_data reader)) verdict version_start c;
        if inserted && negb (ss_remove_epoch s =? remove_epoch_start) then
          '(_, c) ← rc_remove (alternate_key key id) c; Some (set_ram v c)
        else Some (set_ram v c)
      else Some v
  end.

(** From the selected node to the handle: the RAM copy, or the document
    itself, re-read as the one the walk bound. *)
Definition serve_selected (env : ReadEnv) (i : nat) (snap : StripeSnapshot) (key : CacheKey) (remove_epoch_start version_start : Z)
    (node : Node) (v : Volume (C := C)) (s : StripeState) : option AltAcc :=
  let info := info_of node in
  let id := ai_id info in
  let use_ram := use_ram_cache v (ai_content_length info) in
  '(hit, v) ← (if use_ram then read_ram_alternate s key id v else Some (None, v));
  match hit with
  | Some reader =>
      Some (alt_serves (event v VRead)
        {| rh_doc := r_doc reader; rh_header := r_header reader; rh_content := r_content reader; rh_ram := true;
           rh_stripe := i; rh_epoch := {| be_threshold := 0 |}; rh_borrow := None |} id)
  | None =>
      match map_selected (v_file v) (nd_offset node) (ai_content_length info) (st_size (ss_stripe s)) with
      | inl err => Some (alt_fails v err)
      | inr reader =>
          if negb (bool_decide (r_first_key reader = key))
             || negb (Document.fill_serial (r_doc reader) =? Document.fill_serial (r_doc (nd_reader node)))
          then Some (alt_checksum_failed v)
          else
            let '(ok, v) := check_document bld cfg v (nd_offset node) reader in
            if negb ok then Some (alt_checksum_failed v)
            else
              let rel := nd_offset node - st_offset (ss_stripe s) in
              match admit_document bld (ss_stripe s) snap (nd_cls node) rel (r_doc reader) with
              | None => Some (alt_epoch_changed v)
              | Some epoch =>
                  let '(borrow, log) := acquire_borrow (vc_log cfg) (ss_log s) (re_shard env) (chunk_of bld (ss_stripe s) rel) in
                  let log := stamp_read_lease (vc_log cfg) (re_now env) log in
                  if negb (borrow_still_valid_counted log epoch borrow) then
                    Some (alt_epoch_changed (set_stripe v i (set_log s (release_borrow true log borrow))))
                  else
                    let s := set_log s log in
                    let v := set_stripe v i s in
                    v ← (if use_ram then put_alternate s key id reader epoch remove_epoch_start version_start v else Some v);
                    let v := match nd_cls node with kRetained => event v VRetainedHit | _ => v end in
                    Some (alt_serves (event v VRead)
                      {| rh_doc := r_doc reader; rh_header := r_header reader; rh_content := r_content reader; rh_ram := false;
                         rh_stripe := i; rh_epoch := epoch; rh_borrow := Some borrow |} id)
              end
      end
  end.

(** The callback of [read_alternate_sync].  [None] is the RAM cache's
    undefined behaviour. *)
Definition alternate_candidate (env : ReadEnv) (select : list AlternateInfo -> option nat) (i : nat) (snap : StripeSnapshot)
    (key : CacheKey) (remove_epoch_start version_start : Z) (e : DirEntry) (cls : AdmitClass) (acc : option AltAcc)
  : bool * option AltAcc :=
  match acc with
  | None => (false, None)
  | Some acc =>
      if aa_found_head acc then (false, Some acc)
      else
        let v := aa_volume acc in
        match v_stripes v !! i with
        | None => (false, Some acc)
        | Some s =>
            match chain_head (ss_stripe s) (v_file v) snap key e cls with
            | None => (true, Some acc)
            | Some _ =>
                let w := walk_chain kMaxChainTraversalDepth (ss_stripe s) (v_file v) snap key
                           (st_offset (ss_stripe s) + DirEntry.offset e) cls None in
                (false,
                 match wk_nodes w with
                 | [] => if wk_incomplete w then Some (alt_checksum_failed v) else Some (alt_fails v ENotFound)
                 | nodes =>
                     match select (info_of <$> nodes) with
                     | None => Some (alt_fails v EAlternateNotFound)
                     | Some k =>
                         match nodes !! k with
                         | None => Some (alt_fails v ECorrupted)
                         | Some node => serve_selected env i snap key remove_epoch_start version_start node v s
                         end
                     end
                 end)
            end
        end
  end.

Definition record_alternate_hit (v : Volume (C := C)) (s : StripeState) (key : CacheKey) (hit : option Z) : Volume (C := C) :=
  match hit with
  | Some id => if vc_hit_tracking cfg && ss_owned s then event v (VAlternateHit key id) else v
  | None => v
  end.

Definition alternate_attempt (env : ReadEnv) (select : list AlternateInfo -> option nat) (i : nat) (key : CacheKey) (v : Volume (C := C))
  : option (attempt ReadHandle * Volume (C := C)) :=
  match v_stripes v !! i with
  | None => Some (Done (inl ENotInitialized), v)
  | Some s =>
      let snap := stripe_snapshot bld s in
      let '(acc, rejects) :=
        probe_each (ss_stripe s) snap
          (alternate_candidate env select i snap key (ss_remove_epoch s) (bucket_version (ss_dir s) key)) (candidates s key)
          (Some {| aa_volume := v; aa_found_head := false; aa_result := inl ENotFound; aa_checksum_failed := false;
                   aa_epoch_changed := false; aa_hit := None |}) [] in
      acc ← acc;
      let v := record_alternate_hit (aa_volume acc) s key (aa_hit acc) in
      let now := match v_stripes v !! i with Some s => stripe_snapshot bld s | None => snap end in
      if negb (aa_found_head acc) && probe_raced_publish (ss_stripe s) now rejects then Some (RacedPublish, v)
      else if negb (aa_checksum_failed acc) && negb (aa_epoch_changed acc) then Some (Done (aa_result acc), v)
      else Some (Raced (aa_checksum_failed acc), v)
  end.

Definition read_alternate_sync (env : ReadEnv) (select : list AlternateInfo -> option nat) (key : CacheKey) (v : Volume (C := C))
  : option ((VolumeError + ReadHandle) * Volume (C := C)) :=
  match select_stripe v key with
  | None => Some (inl ENotInitialized, v)
  | Some (i, _) =>
      retry_loop (read_fuel cfg) (alternate_attempt env select i key) (fun saw => if saw then ECorrupted else ENotFound)
        (u32 (vc_max_read_retries cfg + 1)) 0 false v
  end.

(** ** In-place updates of a published header *)

(** [commit_header_rmw] on a process-local stripe: the store happens only if
    no wrap ran since [snap_start] and the header still is the document's. *)
Definition commit_header_rmw (s : StripeState) (file : list Z) (abs : Z) (key : CacheKey) (id : Z) (snap_start : StripeSnapshot)
    (apply : list Z -> list Z) : VolumeError + list Z :=
  let reader := new_reader (subspan file (Z.to_nat abs) kHeaderSize) in
  let identity_ok :=
    r_valid reader && bool_decide (r_first_key reader = key) && (Document.alternate_id (r_doc reader) =? id)
    && node_admissible_now (ss_stripe s) (stripe_snapshot bld s) (abs - st_offset (ss_stripe s)) (r_doc reader) in
  if negb (abs mod 8 =? 0) then inl EBusy
  else if wrapped_since bld (ss_stripe s) (ws_gen (ss_log s)) snap_start || negb identity_ok then inl EBusy
  else inr (apply file).

Definition store_next (abs link : Z) (file : list Z) : list Z :=
  write_at file (Z.to_nat abs + kNextAlternateOffsetPos) (le_bytes 8 link).

Definition repoint_chain_link (s : StripeState) (file : list Z) (pred_abs pred_id : Z) (key : CacheKey) (new_next : Z)
    (snap_start : StripeSnapshot) : VolumeError + list Z :=
  match map_region file pred_abs (Z.of_nat kHeaderSize) with
  | None => inl EIoError
  | Some _ => commit_header_rmw s file pred_abs key pred_id snap_start (store_next pred_abs new_next)
  end.

Definition header_at (file : list Z) (abs : Z) : option DocumentReader :=
  data ← map_region file abs (Z.of_nat kHeaderSize);
  let reader := new_shared_reader abs data in
  if r_valid reader then Some reader else None.

(** The walk of the writers over headers, to the alternate [id]. *)
Inductive Found :=
  | FTarget (prev : option (Z * Z)) (target next_link : Z)
  | FMissing
  | FChainCorrupted.

Fixpoint find_alternate (depth : nat) (s : Stripe) (file : list Z) (snap : StripeSnapshot) (id : Z)
    (current : Z) (cls : AdmitClass) (followed : option Z) (prev : option (Z * Z)) : Found :=
  match depth with
  | O => FMissing
  | S depth =>
      if current =? 0 then FMissing
      else
        match header_at file current with
        | None => FMissing
        | Some reader =>
            let doc := r_doc reader in
            if negb (stamp_admits s snap cls doc) || negb (followed_ok followed doc) then FMissing
            else if Document.alternate_id doc =? id then FTarget prev current (next_alternate_offset doc)
            else
              let next_link := next_alternate_offset doc in
              let next := link_offset next_link in
              if next =? 0 then FMissing
              else
                match admit_hop s next (current - st_offset s) cls snap with
                | kReject => FChainCorrupted
                | cls => find_alternate depth s file snap id (st_offset s + next) cls (Some next_link)
                           (Some (current, Document.alternate_id doc))
                end
        end
  end.

(** ** Removing one alternate *)

Record HeadAcc := { ha_head : option (Z * AdmitClass); ha_seen : list Z }.

Definition head_candidate (s : Stripe) (file : list Z) (snap : StripeSnapshot) (key : CacheKey)
    (e : DirEntry) (cls : AdmitClass) (acc : HeadAcc) : bool * HeadAcc :=
  let seen := add_offset (ha_seen acc) (DirEntry.offset e) in
  (true,
   match ha_head acc, header_at file (st_offset s + DirEntry.offset e) with
   | None, Some reader =>
       if bool_decide (r_first_key reader = key) && stamp_admits s snap cls (r_doc reader) && entry_binds e (r_doc reader)
       then {| ha_head := Some (DirEntry.offset e, cls); ha_seen := seen |}
       else {| ha_head := ha_head acc; ha_seen := seen |}
   | _, _ => {| ha_head := ha_head acc; ha_seen := seen |}
   end).

(** The successor of a removed head, if its link still binds it: its size. *)
Definition successor (s : Stripe) (file : list Z) (snap : StripeSnapshot) (head_rel : Z) (cls : AdmitClass) (link : Z)
  : VolumeError + option Z :=
  let rel := link_offset link in
  if rel =? 0 then inr None
  else
    match admit_hop s rel head_rel cls snap with
    | kReject => inl EChainCorrupted
    | _ =>
        match map_region file (st_offset s + rel) (Z.of_nat kHeaderSize) with
        | None => inl EIoError
        | Some data =>
            let reader := new_shared_reader (st_offset s + rel) data in
            if negb (r_valid reader) then inl ECorrupted
            else inr (if bound_by_link (r_doc reader) link then Some (len (r_doc reader)) else None)
        end
    end.

Definition kMaxRepointRetries : nat := 8.

Fixpoint remove_alternate_rounds (rounds : nat) (i : nat) (key : CacheKey) (id : Z) (v : Volume (C := C)) (s : StripeState)
  : option ((VolumeError + unit) * Volume (C := C)) :=
  match rounds with
  | O => Some (inl EBusy, v)
  | S rounds =>
      let snap := stripe_snapshot bld s in
      let st := ss_stripe s in
      let acc := fst (probe_each st snap (head_candidate st (v_file v) snap key) (candidates s key) {| ha_head := None; ha_seen := [] |} []) in
      match ha_head acc with
      | None => Some (inl ENotFound, v)
      | Some (head_rel, head_cls) =>
          let drop_one := fun c => snd <$> rc_remove (alternate_key key id) c in
          match find_alternate kMaxChainTraversalDepth st (v_file v) snap id (st_offset st + head_rel) head_cls None None with
          | FChainCorrupted => Some (inl EChainCorrupted, v)
          | FMissing => Some (inl EAlternateNotFound, v)
          | FTarget prev target next_link =>
              match head_cls, prev with
              | kRetained, _ =>
                  v ← invalidate_ram (rc_remove_all key) i (set_dir s (snd (remove_at (ss_dir s) key head_rel))) v;
                  Some (inr tt, v)
              | _, None =>
                  match successor st (v_file v) snap head_rel head_cls next_link with
                  | inl err => Some (inl err, v)
                  | inr None =>
                      v ← invalidate_ram drop_one i (set_dir s (snd (remove_at (ss_dir s) key head_rel))) v; Some (inr tt, v)
                  | inr (Some size) =>
                      if wrapped_since bld st (ws_gen (ss_log s)) snap
                      then remove_alternate_rounds rounds i key id (event v VPublishRetry) s
                      else
                        let adm := {| sa_stripe := st; sa_gen := ws_gen (ss_log s);
                                      sa_cursor := current_write_cursor st (ss_log s); sa_snap := snap |} in
                        let r := @insert_admitted _ (stripe_admission bld) (ss_dir s) key (link_offset next_link) size head_rel adm []
                                   (Some (ha_seen acc)) (link_serial next_link) in
                        if ir_stale r then remove_alternate_rounds rounds i key id (event v VPublishRetry) s
                        else v ← invalidate_ram drop_one i (set_dir s (ir_dir r)) v; Some (inr tt, v)
                  end
              | _, Some (pred_abs, pred_id) =>
                  match repoint_chain_link s (v_file v) pred_abs pred_id key next_link snap with
                  | inl _ => remove_alternate_rounds rounds i key id v s
                  | inr file => v ← invalidate_ram drop_one i s (set_file v file); Some (inr tt, v)
                  end
              end
          end
      end
  end.

Definition remove_alternate_sync (key : CacheKey) (id : Z) (v : Volume (C := C)) : option ((VolumeError + unit) * Volume (C := C)) :=
  match select_stripe v key with
  | None => Some (inl ENotInitialized, v)
  | Some (i, s) => if negb (ss_owned s) then Some (inl ENotOwned, v) else remove_alternate_rounds kMaxRepointRetries i key id v s
  end.

(** ** Hit counts *)

Definition hit_candidate (s : Stripe) (file : list Z) (snap : StripeSnapshot) (key : CacheKey) (id : Z)
    (e : DirEntry) (cls : AdmitClass) (target : Z) : bool * Z :=
  match map_region file (st_offset s + DirEntry.offset e) (approx_size e) with
  | None => (true, target)
  | Some data =>
      let reader := new_shared_reader (st_offset s + DirEntry.offset e) data in
      if negb (r_valid reader) then (true, target)
      else if negb (bool_decide (r_first_key reader = key)) || negb (stamp_admits s snap cls (r_doc reader))
              || negb (entry_binds e (r_doc reader)) then (true, target)
      else
        (false,
         match find_alternate kMaxChainTraversalDepth s file snap id (st_offset s + DirEntry.offset e) cls None None with
         | FTarget _ abs _ => abs
         | _ => target
         end)
  end.

(** The two stores: a saturating count and the time of the last access. *)
Definition store_hits (abs delta last_access_ms : Z) (file : list Z) : list Z :=
  let current := le_val (subspan file (Z.to_nat abs + kHitCountOffset) 4) in
  let updated := if delta <=? 2 ^ 32 - 1 - current then current + delta else 2 ^ 32 - 1 in
  write_at (write_at file (Z.to_nat abs + kHitCountOffset) (le_bytes 4 updated)) (Z.to_nat abs + kLastAccessOffset)
    (le_bytes 8 (u64 last_access_ms)).

Definition update_hit_count_sync (key : CacheKey) (id delta last_access_ms : Z) (v : Volume (C := C))
  : (VolumeError + unit) * Volume (C := C) :=
  match select_stripe v key with
  | None => (inl ENotInitialized, v)
  | Some (i, s) =>
      if negb (ss_owned s) then (inl ENotOwned, v)
      else
        let snap := stripe_snapshot bld s in
        let target := fst (probe_each (ss_stripe s) snap (hit_candidate (ss_stripe s) (v_file v) snap key id) (candidates s key) 0 []) in
        if target =? 0 then (inl EAlternateNotFound, v)
        else
          match map_region (v_file v) target (Z.of_nat kHeaderSize) with
          | None => (inl EIoError, v)
          | Some _ =>
              match commit_header_rmw s (v_file v) target key id snap (store_hits target delta last_access_ms) with
              | inl err => (inl err, v)
              | inr file => (inr tt, set_file v file)
              end
          end
  end.
End alternates.
