(* ===== verification/AlternateSpec.v ===== *)
(** * Alternate chains, proved (Alternates.v)

    What a walk collects, what listing and reading therefore return, and what
    the in-place updates of a header leave unchanged. *)

From S2P Require Import Prelude Crc32c Key Document DirEntry Directory Geometry Stripe WriteLog RamCache LruCache Volume VolumeSpec VolumeCommit Alternates.
From Stdlib Require Import Sorting.Sorted.
Local Open Scope cyc_scope.

(** ** The walk *)

Definition node_ok (s : Stripe) (file : list Z) (snap : StripeSnapshot) (key : CacheKey) (n : Node) : Prop :=
  map_document file (nd_offset n) kInitialMapSize (st_size s) = Some (nd_reader n) /\ r_first_key (nd_reader n) = key /\
  is_servable (nd_reader n) = true /\ stamp_admits s snap (nd_cls n) (r_doc (nd_reader n)) = true.

Definition descends (a b : Node) : Prop := nd_offset b < nd_offset a.

Lemma admit_hop_lower s target source cls snap : admit_hop s target source cls snap <> kReject -> target < source.
Proof.
  unfold admit_hop. destruct (target =? 0); cbn [orb]; [done|]. destruct (negb _); cbn [orb]; [done|].
  destruct (Z.leb_spec source target); [done|lia].
Qed.

(** What a walk from [cur] with [depth] hops to go collects. *)
Record walked (depth : nat) (s : Stripe) (file : list Z) (snap : StripeSnapshot) (key : CacheKey) (cur : Z) (cls : AdmitClass)
    (l : list Node) : Prop := {
  wd_nodes : Forall (node_ok s file snap key) l;
  wd_sorted : StronglySorted descends l;
  wd_below : Forall (fun n => nd_offset n <= cur) l;
  wd_length : (length l <= depth)%nat;
  wd_head : forall n l', l = n :: l' -> nd_offset n = cur /\ nd_cls n = cls }.

Lemma walked_nil depth s file snap key cur cls : walked depth s file snap key cur cls [].
Proof. split; try constructor; cbn; try lia; done. Qed.

Lemma walked_cons depth s file snap key n l next cls' : node_ok s file snap key n -> next < nd_offset n ->
  walked depth s file snap key next cls' l -> walked (S depth) s file snap key (nd_offset n) (nd_cls n) (n :: l).
Proof.
  intros Hn Hlt [H1 H2 H3 H4 _]. split; [by constructor | | | cbn; lia | by intros ? ? [= <- <-]].
  - constructor; [done|]. eapply Forall_impl; [exact H3|]. unfold descends. cbn. lia.
  - constructor; [lia|]. eapply Forall_impl; [exact H3|]. cbn. lia.
Qed.

Lemma walk_chain_spec depth s file snap key cur cls followed :
  walked depth s file snap key cur cls (wk_nodes (walk_chain depth s file snap key cur cls followed)).
Proof.
  revert cur cls followed. induction depth as [|depth IH]; intros cur cls followed; cbn [walk_chain]; [apply walked_nil|].
  case_match; [apply walked_nil|]. destruct (map_document _ _ _ _) as [r|] eqn:Em; [|apply walked_nil].
  case_match eqn:Eg; [apply walked_nil|]. rewrite !orb_false_iff, !negb_false_iff, bool_decide_eq_true in Eg.
  destruct Eg as [[[Ek Es] Est] _]. set (node := {| nd_offset := cur; nd_cls := cls; nd_reader := r |}).
  assert (Hnode : node_ok s file snap key node) by done.
  assert (Hone : walked (S depth) s file snap key cur cls [node]).
  { apply (walked_cons depth s file snap key node [] (cur - 1) cls); [done|cbn; lia|apply walked_nil]. }
  case_match; [exact Hone|].
  pose proof (admit_hop_lower s (link_offset (next_alternate_offset (r_doc r))) (cur - st_offset s) cls snap) as Hlt.
  destruct (admit_hop _ _ _ _ _); [exact Hone|..]; cbn [wk_nodes]; specialize (Hlt ltac:(done));
    (eapply (walked_cons depth s file snap key node); [exact Hnode | | apply IH]; cbn; lia).
Qed.

(** ** Listing *)

Section listing.
Context (bld : mulhi_build) `{CK : Checksum} {C : Type} `{!RamCacheOps C} (cfg : VolumeConfig).

(** The chain of a stripe's entry [e] for [key]. *)
Definition chain_of (file : list Z) (s : StripeState) (key : CacheKey) (e : DirEntry) : Walk :=
  walk_chain kMaxChainTraversalDepth (ss_stripe s) file (stripe_snapshot bld s) key (st_offset (ss_stripe s) + DirEntry.offset e)
    (admit_position (ss_stripe s) (DirEntry.offset e) (phase e) (stripe_snapshot bld s)) None.

(** [e] is the first candidate of [key] that heads a chain. *)
Record heads (file : list Z) (s : StripeState) (key : CacheKey) (before : list DirEntry) (e : DirEntry) (after : list DirEntry) : Prop := {
  hd_split : candidates s key = before ++ e :: after;
  hd_before : forall x cls, (x, cls) ∈ admitted (ss_stripe s) (stripe_snapshot bld s) before ->
    chain_head (ss_stripe s) file (stripe_snapshot bld s) key x cls = None;
  hd_admitted : admit_position (ss_stripe s) (DirEntry.offset e) (phase e) (stripe_snapshot bld s) <> kReject;
  hd_head : is_Some (chain_head (ss_stripe s) file (stripe_snapshot bld s) key e
    (admit_position (ss_stripe s) (DirEntry.offset e) (phase e) (stripe_snapshot bld s))) }.

(** A probe either finds a head or passes over every candidate. *)
Lemma heads_or_none file s key : (exists before e after, heads file s key before e after) \/
  (forall x cls, (x, cls) ∈ admitted (ss_stripe s) (stripe_snapshot bld s) (candidates s key) ->
     chain_head (ss_stripe s) file (stripe_snapshot bld s) key x cls = None).
Proof.
  enough (Hgen : forall l, (exists before e after, l = before ++ e :: after /\
      (forall x cls, (x, cls) ∈ admitted (ss_stripe s) (stripe_snapshot bld s) before ->
         chain_head (ss_stripe s) file (stripe_snapshot bld s) key x cls = None) /\
      admit_position (ss_stripe s) (DirEntry.offset e) (phase e) (stripe_snapshot bld s) <> kReject /\
      is_Some (chain_head (ss_stripe s) file (stripe_snapshot bld s) key e
        (admit_position (ss_stripe s) (DirEntry.offset e) (phase e) (stripe_snapshot bld s)))) \/
    (forall x cls, (x, cls) ∈ admitted (ss_stripe s) (stripe_snapshot bld s) l ->
       chain_head (ss_stripe s) file (stripe_snapshot bld s) key x cls = None)).
  { destruct (Hgen (candidates s key)) as [(b & e & a & H1 & H2 & H3 & H4)|]; [left; exists b, e, a; by split | by right]. }
  induction l as [|x l IH]; [right; intros ? ? Hx; by apply elem_of_nil in Hx|].
  set (cls := admit_position (ss_stripe s) (DirEntry.offset x) (phase x) (stripe_snapshot bld s)).
  destruct (decide (cls <> kReject /\ is_Some (chain_head (ss_stripe s) file (stripe_snapshot bld s) key x cls))) as [[H1 H2]|Hn].
  { left. exists [], x, l. split; [done|]. split; [intros ? ? Hx; by apply elem_of_nil in Hx|]. done. }
  assert (Hx : forall c, (x, c) ∈ admitted (ss_stripe s) (stripe_snapshot bld s) [x] ->
    chain_head (ss_stripe s) file (stripe_snapshot bld s) key x c = None).
  { intros c (_ & -> & Hc)%elem_of_admitted. apply eq_None_not_Some. intros Hsome. by apply Hn. }
  assert (Hcons : forall l' y c, (y, c) ∈ admitted (ss_stripe s) (stripe_snapshot bld s) (x :: l') ->
    (y, c) ∈ admitted (ss_stripe s) (stripe_snapshot bld s) l' \/ chain_head (ss_stripe s) file (stripe_snapshot bld s) key y c = None).
  { intros l' y c (Hy & Hc)%elem_of_admitted. apply elem_of_cons in Hy as [->|Hy]; [|left; by apply elem_of_admitted].
    right. apply Hx. apply elem_of_admitted. split; [by left|done]. }
  destruct IH as [(b & e & a & -> & Hb & He)|Hnone].
  - left. exists (x :: b), e, a. split; [done|]. split; [|done]. intros y c Hy. destruct (Hcons b y c Hy); [by apply Hb | done].
  - right. intros y c Hy. destruct (Hcons l y c Hy); [by apply Hnone | done].
Qed.

Lemma probe_heads {A} file s key before e after (cb : DirEntry -> AdmitClass -> A -> bool * A) acc acc' :
  heads file s key before e after ->
  (forall x cls, chain_head (ss_stripe s) file (stripe_snapshot bld s) key x cls = None -> cb x cls acc = (true, acc)) ->
  cb e (admit_position (ss_stripe s) (DirEntry.offset e) (phase e) (stripe_snapshot bld s)) acc = (false, acc') ->
  exists rj, probe_each (ss_stripe s) (stripe_snapshot bld s) cb (candidates s key) acc [] = (acc', rj).
Proof.
  intros [Hsplit Hbefore Hadm _] Hskip Hcb. rewrite Hsplit. eapply probe_each_stop; [|done|exact Hcb].
  intros x cls Hx. by apply Hskip, Hbefore.
Qed.

Definition list_outcome (w : Walk) : attempt (list AlternateInfo) :=
  match wk_nodes w with
  | [] => if wk_incomplete w || wk_deep w then Raced true else Done (inl ENotFound)
  | nodes => Done (inr (info_of <$> nodes))
  end.

Lemma not_wrapped s : wrapped_since bld (ss_stripe s) (ws_gen (ss_log s)) (stripe_snapshot bld s) = false.
Proof. unfold wrapped_since, stripe_snapshot, snapshot. cbn. by rewrite Z.eqb_refl. Qed.

Lemma list_attempt_heads i key (v : Volume (C := C)) s before e after : v_stripes v !! i = Some s ->
  heads (v_file v) s key before e after -> list_attempt bld i key v = Some (list_outcome (chain_of (v_file v) s key e), v).
Proof.
  intros Hi Hh. unfold list_attempt. rewrite Hi. pose proof (hd_head _ _ _ _ _ _ Hh) as [r Hr].
  set (w := chain_of (v_file v) s key e).
  destruct (probe_heads (v_file v) s key before e after (list_candidate (ss_stripe s) (v_file v) (stripe_snapshot bld s) key)
    {| la_found := false; la_result := None; la_checksum_failed := false |}
    (match wk_nodes w with
     | [] => {| la_found := true; la_result := None; la_checksum_failed := wk_incomplete w || wk_deep w |}
     | nodes => {| la_found := true; la_result := Some (info_of <$> nodes); la_checksum_failed := wk_deep w |}
     end)) as [rj Hp]; [done| | |].
  - intros x cls Hn. unfold list_candidate. cbn [la_found]. by rewrite Hn.
  - unfold list_candidate. cbn [la_found]. rewrite Hr. reflexivity.
  - rewrite Hp. unfold list_outcome. rewrite not_wrapped. clearbody w. destruct (wk_nodes w); cbn; [by destruct (_ || _) | done].
Qed.

Lemma list_attempt_none i key (v : Volume (C := C)) s : v_stripes v !! i = Some s ->
  (forall x cls, (x, cls) ∈ admitted (ss_stripe s) (stripe_snapshot bld s) (candidates s key) ->
     chain_head (ss_stripe s) (v_file v) (stripe_snapshot bld s) key x cls = None) ->
  list_attempt bld i key v = Some (Done (inl ENotFound), v).
Proof.
  intros Hi Hn. unfold list_attempt. rewrite Hi.
  destruct (probe_each_none (ss_stripe s) (stripe_snapshot bld s) (list_candidate (ss_stripe s) (v_file v) (stripe_snapshot bld s) key)
    (candidates s key) {| la_found := false; la_result := None; la_checksum_failed := false |} []) as (rj & Hp & Hrj); [|constructor|].
  - intros x cls Hx. unfold list_candidate. cbn [la_found]. by rewrite (Hn x cls Hx).
  - rewrite Hp. cbn. by rewrite (no_raced_publish _ _ _ Hrj).
Qed.

Lemma list_attempt_pure i key (v v' : Volume (C := C)) a : list_attempt bld i key v = Some (a, v') -> v' = v.
Proof.
  unfold list_attempt. destruct (v_stripes v !! i); [|by intros [= _ <-]]. destruct (probe_each _ _ _ _ _ _).
  repeat case_match; by intros [= _ <-].
Qed.

Lemma retry_pure_inv {R} fuel (try : Volume (C := C) -> option (attempt R * Volume (C := C))) exhausted left races saw v r v' :
  (forall w a w', try w = Some (a, w') -> w' = w) -> retry_loop fuel try exhausted left races saw v = Some (inr r, v') ->
  try v = Some (Done (inr r), v) /\ v' = v.
Proof.
  intros Hpure. revert left races saw. induction fuel as [|fuel IH]; intros left races saw; [done|]. cbn [retry_loop]. case_match; [done|].
  intros ([a w] & Ha & Hrest)%bind_Some. pose proof (Hpure _ _ _ Ha) as ->.
  destruct a as [x| |]; [|destruct (races <? kMaxPublishRaceRetries); by eapply IH|by eapply IH]. by injection Hrest as -> ->.
Qed.

(** What a successful listing says: the head it started from, and its chain. *)
Lemma list_inv key (v v' : Volume (C := C)) l : list_alternates_sync bld cfg key v = Some (inr l, v') ->
  v' = v /\ exists i s before e after, select_stripe v key = Some (i, s) /\ heads (v_file v) s key before e after /\
    l = info_of <$> wk_nodes (chain_of (v_file v) s key e) /\ l <> [].
Proof.
  unfold list_alternates_sync. destruct (select_stripe v key) as [[i s]|] eqn:Hsel; [|done].
  intros [Ha ->]%retry_pure_inv; [|intros ? ? ?; apply list_attempt_pure]. split; [done|].
  pose proof (select_stripe_lookup v key i s Hsel) as Hi.
  destruct (heads_or_none (v_file v) s key) as [(b & e & a & Hh)|Hnone].
  - rewrite (list_attempt_heads i key v s b e a Hi Hh) in Ha. exists i, s, b, e, a. split; [done|]. split; [done|].
    revert Ha. unfold list_outcome. destruct (wk_nodes _); [by case_match|]. by intros [= <-].
  - by rewrite (list_attempt_none i key v s Hi Hnone) in Ha.
Qed.

Lemma list_heads key (v : Volume (C := C)) i s before e after : 0 <= vc_max_read_retries cfg < 2 ^ 32 - 1 ->
  select_stripe v key = Some (i, s) -> heads (v_file v) s key before e after -> wk_nodes (chain_of (v_file v) s key e) <> [] ->
  list_alternates_sync bld cfg key v = Some (inr (info_of <$> wk_nodes (chain_of (v_file v) s key e)), v).
Proof.
  intros Hr Hsel Hh Hne. unfold list_alternates_sync. rewrite Hsel. destruct (read_fuel_pos cfg Hr) as (n & -> & E).
  cbn [retry_loop]. rewrite E, (list_attempt_heads i key v s before e after) by (done || by eapply select_stripe_lookup).
  cbn [mbind option_bind]. unfold list_outcome. by destruct (wk_nodes _).
Qed.

(** An alternate as listed: a whole document of the key, in the file. *)
Definition listed_ok (file : list Z) (s : Stripe) (key : CacheKey) (a : AlternateInfo) : Prop :=
  exists r, map_document file (ai_disk_offset a) kInitialMapSize (st_size s) = Some r /\ r_first_key r = key /\ is_servable r = true /\
    a = build_alternate_info r (ai_disk_offset a).

(** What listing returns is the key's: a chain of at most 128 documents,
    each whole and stored under the key, at strictly decreasing offsets, so
    the walk visits no document twice and ends; the list is never empty and
    listing changes nothing. *)
Theorem listed_alternates_wf key (v v' : Volume (C := C)) l :
  list_alternates_sync bld cfg key v = Some (inr l, v') ->
  v' = v /\ l <> [] /\ (length l <= kMaxChainTraversalDepth)%nat /\
  StronglySorted (fun a b => ai_disk_offset b < ai_disk_offset a) l /\
  exists i s, select_stripe v key = Some (i, s) /\ Forall (listed_ok (v_file v) (ss_stripe s) key) l.
Proof.
  intros (-> & i & s & b & e & a & Hsel & Hh & El & Hne)%list_inv. split; [done|]. split; [done|].
  destruct (walk_chain_spec kMaxChainTraversalDepth (ss_stripe s) (v_file v) (stripe_snapshot bld s) key
    (st_offset (ss_stripe s) + DirEntry.offset e)
    (admit_position (ss_stripe s) (DirEntry.offset e) (phase e) (stripe_snapshot bld s)) None) as [Hn Hs _ Hlen _].
  fold (chain_of (v_file v) s key e) in Hn, Hs, Hlen. rewrite El, length_fmap. split; [done|]. split.
  - clear -Hs. induction Hs as [|n nodes Hs IH Hf]; simpl; [constructor|]. constructor; [done|].
    apply Forall_fmap. eapply Forall_impl; [exact Hf|]. done.
  - exists i, s. split; [done|]. apply Forall_fmap. eapply Forall_impl; [exact Hn|]. intros n (Hm & Hk & Hsv & _). by exists (nd_reader n).
Qed.
End listing.

(** ** Documents by their headers *)

Lemma header_at_Some file abs r : header_at file abs = Some r <->
  exists data, map_region file abs (Z.of_nat kHeaderSize) = Some data /\ r = new_shared_reader abs data /\ r_valid r = true.
Proof.
  unfold header_at. rewrite bind_Some. split.
  - intros (data & Hd & Hr). cbv zeta in Hr. destruct (r_valid _) eqn:E; [|done]. injection Hr as <-. by exists data.
  - intros (data & Hd & -> & Hv). exists data. cbv zeta. by rewrite Hv.
Qed.

(** However a document is mapped, its header is the one at its offset. *)
Lemma map_document_header_at file abs n size r : 0 <= abs -> Z.of_nat kHeaderSize <= n -> map_document file abs n size = Some r ->
  exists r', header_at file abs = Some r' /\ r_doc r' = r_doc r.
Proof.
  intros Ha Hn Hm. destruct (map_document_header file abs n size r Ha Hn Hm) as (data & Hd & Hv & Er).
  exists (new_shared_reader abs data). split; [|done]. apply header_at_Some. by exists data.
Qed.

Lemma shared_reader_valid addr data : r_valid (new_shared_reader addr data) = true -> new_shared_reader addr data = new_reader data.
Proof. unfold new_shared_reader. by case_match. Qed.

Lemma map_selected_header_at file abs n size r : 0 <= abs -> 0 <= n -> map_selected file abs n size = inr r ->
  exists r', header_at file abs = Some r' /\ r_doc r' = r_doc r.
Proof.
  intros Ha Hn. unfold map_selected. case_match; [done|]. destruct (map_region file abs _) as [data|] eqn:Ed; [|done].
  assert (Hk : kMapOverhead = Z.of_nat kHeaderSize + 65536) by reflexivity.
  apply map_region_Some in Ed as [Hlen ->]; [|lia..].
  destruct (r_valid _) eqn:Ev; cbn [negb]; [|done].
  set (sub := fun m => subspan file (Z.to_nat abs) m).
  change (subspan file (Z.to_nat abs) (Z.to_nat (n + kMapOverhead))) with (sub (Z.to_nat (n + kMapOverhead))) in *.
  assert (Hpre : forall m, (kHeaderSize <= m)%nat -> take kHeaderSize (sub m) = sub kHeaderSize).
  { intros m Hm. unfold sub. by apply take_subspan. }
  assert (Hsame : take kHeaderSize (sub (Z.to_nat (n + kMapOverhead))) = take kHeaderSize (sub kHeaderSize)) by (rewrite !Hpre by lia; done).
  destruct (new_shared_reader_prefix abs _ _ Hsame) as [Ev' Ed'].
  rewrite Ev in Ev'.
  assert (Hh : header_at file abs = Some (new_shared_reader abs (sub kHeaderSize))).
  { apply header_at_Some. exists (sub kHeaderSize). rewrite map_region_eq, Nat2Z.id by lia. done. }
  intros Hr. exists (new_shared_reader abs (sub kHeaderSize)). split; [done|]. rewrite <- Ed'.
  destruct (Z.ltb_spec (n + kMapOverhead) (len (r_doc (new_shared_reader abs (sub (Z.to_nat (n + kMapOverhead))))))) as [Hl|Hl].
  2: { destruct (is_servable _); [|done]. by injection Hr as <-. }
  destruct (size <? len _); [done|]. destruct (map_region file abs (len _)) as [data|] eqn:Ed; [|done].
  apply map_region_Some in Ed as [_ ->]; [|lia..]. cbv zeta in Hr. destruct (r_valid (new_reader (subspan _ _ _))) eqn:Ev2; [|done].
  destruct (is_servable _); [|done]. injection Hr as <-.
  rewrite (shared_reader_valid _ _ Ev) at 1. apply (new_shared_reader_prefix 0).
  change (subspan file (Z.to_nat abs) ?m) with (sub m). rewrite !Hpre by lia. done.
Qed.

(** ** Reading *)

Lemma link_offset_nonneg link : 0 <= link_offset link.
Proof. unfold link_offset. apply Z.land_nonneg. right. done. Qed.

Lemma walk_offsets_nonneg depth s file snap key cur cls followed : 0 <= st_offset s -> 0 <= cur ->
  Forall (fun n => 0 <= nd_offset n) (wk_nodes (walk_chain depth s file snap key cur cls followed)).
Proof.
  intros Hs. revert cur cls followed. induction depth as [|depth IH]; intros cur cls followed Hc; cbn [walk_chain]; [constructor|].
  case_match; [constructor|]. destruct (map_document _ _ _ _) as [r|]; [|constructor]. case_match; [constructor|].
  case_match; [by apply Forall_singleton|].
  pose proof (link_offset_nonneg (next_alternate_offset (r_doc r))).
  destruct (admit_hop _ _ _ _ _); cbn [wk_nodes]; [by apply Forall_singleton|..]; (constructor; [done|]; apply IH; lia).
Qed.

Lemma map_region_bytes file off n data : bytes_ok file -> map_region file off n = Some data -> bytes_ok data.
Proof. intros Hb. unfold map_region. case_match; [done|]. intros [= <-]. unfold subspan. auto with cyc. Qed.

Lemma header_at_ok file abs r : bytes_ok file -> 0 <= abs -> header_at file abs = Some r -> doc_ok (r_doc r).
Proof.
  intros Hb Ha (data & Hd & -> & Hv)%header_at_Some. pose proof (map_region_bytes _ _ _ _ Hb Hd) as Hbd.
  rewrite shared_reader_valid by done. unfold new_reader. apply map_region_Some in Hd as [Hlen ->]; [|lia..].
  assert (Hl : length (subspan file (Z.to_nat abs) (Z.to_nat (Z.of_nat kHeaderSize))) = kHeaderSize).
  { unfold subspan. rewrite length_take, length_drop. lia. }
  rewrite (proj2 (Nat.leb_le _ _)) by lia. cbn [r_doc]. apply deserialize_ok; [done|lia].
Qed.

(** What the read path leaves of a stripe: everything but its borrow slots and
    lease. *)
Definition same_view (s s' : StripeState) : Prop :=
  ss_stripe s' = ss_stripe s /\ ss_dir s' = ss_dir s /\ core (ss_log s') = core (ss_log s).

Section reading.
Context (bld : mulhi_build) `{CK : Checksum} {C : Type} `{!RamCacheOps C} (cfg : VolumeConfig).

Lemma same_view_snapshot s s' : same_view s s' -> stripe_snapshot bld s' = stripe_snapshot bld s.
Proof.
  intros (H1 & _ & H3). unfold core in H3. injection H3 as E1 E2 E3 _ _. unfold stripe_snapshot, current_write_cursor. by rewrite H1, E1, E2, E3.
Qed.

Lemma same_view_chain file s s' key e : same_view s s' -> chain_of bld file s' key e = chain_of bld file s key e.
Proof. intros H. pose proof (same_view_snapshot s s' H) as Es. destruct H as (H1 & _ & _). unfold chain_of. by rewrite Es, H1. Qed.

Lemma same_view_heads file s s' key before e after : same_view s s' -> heads bld file s key before e after -> heads bld file s' key before e after.
Proof.
  intros H [H1 H2 H3 H4]. pose proof (same_view_snapshot s s' H) as Es. destruct H as (E1 & E2 & _).
  split; rewrite ?Es, ?E1; try done. unfold candidates in *. by rewrite E2.
Qed.

(** A put only changes the RAM cache. *)
Lemma put_alternate_frame s key id reader epoch re vs (v v' : Volume (C := C)) :
  put_alternate s key id reader epoch re vs v = Some v' -> v_file v' = v_file v /\ v_stripes v' = v_stripes v.
Proof.
  unfold put_alternate. destruct (v_ram v); [|by intros [= <-]]. case_match; [|by intros [= <-]].
  intros ([ins c'] & _ & Hr)%bind_Some. case_match; [apply bind_Some in Hr as ([? ?] & _ & Hr)|]; by injection Hr as <-.
Qed.

Lemma read_ram_alternate_frame s key id (v : Volume (C := C)) r v' :
  read_ram_alternate cfg s key id v = Some (r, v') -> v_file v' = v_file v /\ v_stripes v' = v_stripes v.
Proof.
  unfold read_ram_alternate. destruct (v_ram v); [|by intros [= _ <-]]. intros ([hit c'] & _ & Hr)%bind_Some.
  destruct hit as [[data stamp]|]; [|by injection Hr as _ <-]. case_match; [apply bind_Some in Hr as ([? ?] & _ & Hr)|]; by injection Hr as _ <-.
Qed.

(** What a node served from the file is. *)
Record served (key : CacheKey) (i : nat) (v : Volume (C := C)) (s : StripeState) (node : Node) (h : ReadHandle) (v' : Volume (C := C)) : Prop := {
  sv_file : v_file v' = v_file v;
  sv_stripes : exists s', v_stripes v' = <[i := s']> (v_stripes v) /\ same_view s s';
  sv_reader : exists r, map_selected (v_file v) (nd_offset node) (ai_content_length (info_of node)) (st_size (ss_stripe s)) = inr r /\
    r_first_key r = key /\ is_servable r = true /\ rh_doc h = r_doc r /\ rh_header h = r_header r /\ rh_content h = r_content r }.

Lemma map_selected_servable file off n size r : map_selected file off n size = inr r -> is_servable r = true.
Proof.
  unfold map_selected. case_match; [done|]. destruct (map_region _ _ _); [|done]. cbv zeta. destruct (negb _); [done|].
  match goal with |- match ?x with _ => _ end = _ -> _ => destruct x; [done|] end. case_match; [|done]. by intros [= <-].
Qed.

Lemma serve_selected_inv env i snap key re vs node (v : Volume (C := C)) s acc h :
  v_stripes v !! i = Some s -> serve_selected bld cfg env i snap key re vs node v s = Some acc ->
  aa_result acc = inr h -> rh_ram h = false -> served key i v s node h (aa_volume acc).
Proof.
  intros Hi Hs Hr Hn. unfold serve_selected in Hs. apply bind_Some in Hs as ([hit v1] & Hram & Hs).
  assert (Hv1 : v_file v1 = v_file v /\ v_stripes v1 = v_stripes v).
  { destruct (use_ram_cache _ _ _); [by eapply read_ram_alternate_frame | by injection Hram as _ <-]. }
  destruct Hv1 as [Ef Es]. destruct hit as [rd|].
  { injection Hs as <-. cbn in Hr. injection Hr as <-. done. }
  destruct (map_selected _ _ _ _) as [err|r] eqn:Em; [by injection Hs as <-|]. rewrite Ef in Em.
  case_match eqn:Eg; [by injection Hs as <-|]. rewrite orb_false_iff, negb_false_iff, bool_decide_eq_true in Eg.
  destruct Eg as [Ek _]. destruct (check_document _ _ _ _ _) as [ok v2] eqn:Ec. apply check_document_ok in Ec as (m & x & ->).
  destruct ok; cbn [negb] in Hs; [|by injection Hs as <-].
  destruct (admit_document _ _ _ _ _ _) as [epoch|]; [|by injection Hs as <-].
  pose proof (acquire_borrow_log (vc_log cfg) (ss_log s) (re_shard env) (chunk_of bld (ss_stripe s) (nd_offset node - st_offset (ss_stripe s))) (re_now env)) as Hc.
  destruct (acquire_borrow _ _ _ _) as [t log]. cbn [snd] in Hc.
  case_match; [by injection Hs as <-|]. apply bind_Some in Hs as (v3 & Hput & Hs). injection Hs as <-.
  set (s' := set_log s (stamp_read_lease (vc_log cfg) (re_now env) log)) in *.
  assert (Hv3 : v_file v3 = v_file v /\ v_stripes v3 = <[i := s']> (v_stripes v)).
  { destruct (use_ram_cache _ _ _); [apply put_alternate_frame in Hput as [-> ->] | injection Hput as <-]; cbn; by rewrite Ef, Es. }
  destruct Hv3 as [Ef3 Es3]. cbn in Hr. injection Hr as <-. split.
  - by destruct (nd_cls node).
  - exists s'. split; [by destruct (nd_cls node)|]. done.
  - exists r. pose proof (map_selected_servable _ _ _ _ _ Em). done.
Qed.

(** *** Every read of an alternate returns, and keeps the volume *)

Context `{!RamCacheLaws C}.

Definition kept (v v' : Volume (C := C)) : Prop :=
  volume_ok v' /\ v_file v' = v_file v /\ length (v_stripes v') = length (v_stripes v).

Lemma read_ram_alternate_ok s key id (v : Volume (C := C)) : volume_ok v ->
  exists r v', read_ram_alternate cfg s key id v = Some (r, v') /\ kept v v' /\ v_stripes v' = v_stripes v.
Proof.
  intros Hv. pose proof (vo_ram _ Hv) as Hram. unfold ram_ok in Hram. unfold read_ram_alternate.
  destruct (v_ram v) as [c|]; [|by eexists _, _].
  destruct (rc_get_spec (alternate_key key id) c Hram) as (c' & -> & Hok & _). cbn [mbind option_bind].
  pose proof (volume_ok_ram v c' Hv Hok) as Hv'. destruct (rc_contents c !! _) as [[data stamp]|]; [|by eexists _, _].
  case_match; [|by eexists _, _].
  destruct (rc_remove_spec (alternate_key key id) c' Hok) as (b & c2 & -> & Hok2 & _). cbn [mbind option_bind].
  eexists _, _. split; [done|]. destruct (volume_ok_ram _ c2 Hv' Hok2). split; [|done]. split; [by split|done].
Qed.

Lemma put_alternate_ok s key id reader epoch re vs (v : Volume (C := C)) : volume_ok v ->
  exists v', put_alternate s key id reader epoch re vs v = Some v' /\ kept v v' /\ v_stripes v' = v_stripes v.
Proof.
  intros Hv. pose proof (vo_ram _ Hv) as Hram. unfold ram_ok in Hram. unfold put_alternate.
  destruct (v_ram v) as [c|]; [|by eexists]. case_match; [|by eexists].
  match goal with |- context [rc_put_if ?k ?d ?w ?st c] => destruct (rc_put_spec k d w st c Hram) as (b & c' & -> & Hok & _) end.
  cbn [mbind option_bind]. case_match.
  - destruct (rc_remove_spec (alternate_key key id) c' Hok) as (b2 & c2 & -> & Hok2 & _). cbn [mbind option_bind].
    eexists. split; [done|]. split; [split; [by apply volume_ok_ram|done]|done].
  - eexists. split; [done|]. split; [split; [by apply volume_ok_ram|done]|done].
Qed.

Lemma volume_ok_event (v : Volume (C := C)) ev : volume_ok v -> volume_ok (event v ev).
Proof. by intros []. Qed.

Lemma serve_selected_ok env i snap key re vs node (v : Volume (C := C)) s : volume_ok v -> v_stripes v !! i = Some s ->
  exists acc, serve_selected bld cfg env i snap key re vs node v s = Some acc /\ kept v (aa_volume acc).
Proof.
  intros Hv Hi. unfold serve_selected.
  assert (exists hit v1, (if use_ram_cache cfg v (ai_content_length (info_of node)) then read_ram_alternate cfg s key (ai_id (info_of node)) v
    else Some (None, v)) = Some (hit, v1) /\ kept v v1 /\ v_stripes v1 = v_stripes v) as (hit & v1 & -> & (Hv1 & Ef & El) & Es).
  { destruct (use_ram_cache _ _ _); [by apply read_ram_alternate_ok | by eexists _, _]. }
  rewrite <- Es in Hi. pose proof (vo_stripes _ Hv1 _ _ Hi) as Hs. cbn [mbind option_bind].
  destruct hit; [by eexists; split; [done|]; split; [apply volume_ok_event|]|].
  destruct (map_selected _ _ _ _) as [err|r]; [by eexists|]. case_match; [by eexists|].
  destruct (check_document _ _ _ _ _) as [ok v2] eqn:Ec. apply check_document_ok in Ec as (m & x & ->).
  assert (Hv2 : volume_ok (set_checksums v1 m x)) by (by destruct Hv1). set (v2 := set_checksums v1 m x) in *.
  assert (Hs2 : stripe_state_ok (v_file v2) s) by done. assert (Ef2 : v_file v2 = v_file v /\ length (v_stripes v2) = length (v_stripes v)) by done. clearbody v2.
  destruct ok; cbn [negb]; [|by eexists]. destruct (admit_document _ _ _ _ _ _) as [epoch|]; [|by eexists].
  pose proof (acquire_borrow_log (vc_log cfg) (ss_log s) (re_shard env) (chunk_of bld (ss_stripe s) (nd_offset node - st_offset (ss_stripe s))) (re_now env)) as Hc.
  destruct (acquire_borrow _ _ _ _) as [t log]. cbn [snd] in Hc. case_match.
  { eexists. split; [done|]. split; [|cbn; by rewrite length_insert].
    apply volume_ok_stripe; [done|]. apply state_ok_core; [done|]. by rewrite core_release_borrow. }
  set (s' := set_log s (stamp_read_lease (vc_log cfg) (re_now env) log)).
  assert (Hv3 : volume_ok (set_stripe v2 i s')) by (apply volume_ok_stripe; [done|]; by apply state_ok_core).
  assert (exists v4, (if use_ram_cache cfg v (ai_content_length (info_of node)) then
      put_alternate s' key (ai_id (info_of node)) r epoch re vs (set_stripe v2 i s') else Some (set_stripe v2 i s')) = Some v4 /\
      kept (set_stripe v2 i s') v4) as (v4 & -> & (Hv4 & Ef4 & El4)).
  { destruct (use_ram_cache _ _ _); [|by eexists]. destruct (put_alternate_ok s' key (ai_id (info_of node)) r epoch re vs _ Hv3) as (v4 & -> & Hk & _).
    by exists v4. }
  cbn [mbind option_bind]. eexists. split; [done|]. cbn in Ef4, El4. rewrite length_insert in El4. destruct Ef2 as [Ef2 El2].
  split; [|cbn [aa_volume alt_serves]; destruct (nd_cls node); cbn; split; congruence].
  apply volume_ok_event. destruct (nd_cls node); [done..|by apply volume_ok_event].
Qed.

Lemma alternate_attempt_ok env select i key (v : Volume (C := C)) : volume_ok v ->
  exists a v', alternate_attempt bld cfg env select i key v = Some (a, v') /\ kept v v'.
Proof.
  intros Hv. unfold alternate_attempt. destruct (v_stripes v !! i) as [s|] eqn:Hi; [|by eexists _, _].
  set (P := fun acc => match acc with Some acc => kept v (aa_volume acc) | None => False end).
  assert (Hp : P (fst (probe_each (ss_stripe s) (stripe_snapshot bld s)
    (alternate_candidate bld cfg env select i (stripe_snapshot bld s) key (ss_remove_epoch s) (bucket_version (ss_dir s) key)) (candidates s key)
    (Some {| aa_volume := v; aa_found_head := false; aa_result := inl ENotFound; aa_checksum_failed := false;
             aa_epoch_changed := false; aa_hit := None |}) []))).
  { apply probe_each_invariant; [|done]. intros e cls [acc|]; [|done]. cbn [P]. intros (Hk & Ek & El). unfold alternate_candidate.
    case_match; [done|]. destruct (v_stripes (aa_volume acc) !! i) as [s'|] eqn:Hi'; [|done].
    destruct (chain_head _ _ _ _ _ _); [|done]. cbn [snd]. destruct (wk_nodes _) as [|n l]; [by destruct (wk_incomplete _)|].
    destruct (select _) as [k|]; [|done]. destruct ((n :: l) !! k) as [node|]; [|done].
    destruct (serve_selected_ok env i (stripe_snapshot bld s) key (ss_remove_epoch s) (bucket_version (ss_dir s) key) node (aa_volume acc) s' Hk Hi')
      as (acc' & -> & Hk' & Ek' & El'). split; [done|]. split; congruence. }
  destruct (probe_each _ _ _ _ _ _) as [acc rj]. cbn [fst] in Hp. destruct acc as [acc|]; [|done]. cbn [mbind option_bind].
  destruct Hp as (Hk & Ek & El).
  assert (Hr : kept v (record_alternate_hit cfg (aa_volume acc) s key (aa_hit acc))).
  { unfold record_alternate_hit. destruct (aa_hit acc); [case_match|]; (split; [|done]); [by apply volume_ok_event|done..]. }
  destruct (negb (aa_found_head acc) && _); [by eexists _, _|]. destruct (_ && _); by eexists _, _.
Qed.

(** *** What is read is what was selected *)

Lemma alternate_attempt_inv env select i key (v v' : Volume (C := C)) s h : v_stripes v !! i = Some s ->
  alternate_attempt bld cfg env select i key v = Some (Done (inr h), v') -> rh_ram h = false ->
  exists before e after k node, heads bld (v_file v) s key before e after /\
    select (info_of <$> wk_nodes (chain_of bld (v_file v) s key e)) = Some k /\
    wk_nodes (chain_of bld (v_file v) s key e) !! k = Some node /\ served key i v s node h v'.
Proof.
  intros Hi Ha Hn. unfold alternate_attempt in Ha. rewrite Hi in Ha.
  set (init := {| aa_volume := v; aa_found_head := false; aa_result := inl ENotFound; aa_checksum_failed := false;
                  aa_epoch_changed := false; aa_hit := None |}) in *.
  assert (Hskip : forall x cls, chain_head (ss_stripe s) (v_file v) (stripe_snapshot bld s) key x cls = None ->
    alternate_candidate bld cfg env select i (stripe_snapshot bld s) key (ss_remove_epoch s) (bucket_version (ss_dir s) key) x cls (Some init)
      = (true, Some init)).
  { intros x cls Hx. unfold alternate_candidate. cbn [aa_found_head aa_volume init]. by rewrite Hi, Hx. }
  destruct (heads_or_none bld (v_file v) s key) as [(before & e & after & Hh)|Hnone].
  2: { destruct (probe_each_none (ss_stripe s) (stripe_snapshot bld s) (alternate_candidate bld cfg env select i (stripe_snapshot bld s) key
         (ss_remove_epoch s) (bucket_version (ss_dir s) key)) (candidates s key) (Some init) []) as (rj & Hp & _);
         [intros x cls Hx; by apply Hskip, Hnone | constructor |]. rewrite Hp in Ha. cbn in Ha. by repeat case_match; simplify_eq. }
  pose proof (hd_head _ _ _ _ _ _ _ Hh) as [r0 Hr0].
  assert (exists acc, alternate_candidate bld cfg env select i (stripe_snapshot bld s) key (ss_remove_epoch s) (bucket_version (ss_dir s) key)
    e (admit_position (ss_stripe s) (DirEntry.offset e) (phase e) (stripe_snapshot bld s)) (Some init) = (false, acc)) as [acc Hcb].
  { unfold alternate_candidate. cbn [aa_found_head aa_volume init]. rewrite Hi, Hr0. eexists. reflexivity. }
  destruct (probe_heads bld (v_file v) s key before e after _ (Some init) acc Hh Hskip Hcb) as [rj Hp]. rewrite Hp in Ha.
  destruct acc as [acc|]; [|done]. cbn [mbind option_bind] in Ha.
  destruct (negb (aa_found_head acc) && _); [done|]. destruct (negb (aa_checksum_failed acc) && _); [|done]. injection Ha as Eres <-.
  unfold alternate_candidate in Hcb. cbn [aa_found_head aa_volume init] in Hcb. rewrite Hi, Hr0 in Hcb. apply (f_equal snd) in Hcb. cbn [snd] in Hcb.
  fold (chain_of bld (v_file v) s key e) in Hcb. exists before, e, after. set (w := chain_of bld (v_file v) s key e) in *. clearbody w.
  destruct (wk_nodes w) as [|n l]; [case_match; injection Hcb as <-; done|].
  destruct (select _) as [k|]; [|injection Hcb as <-; done]. destruct ((n :: l) !! k) as [node|] eqn:Ek; [|injection Hcb as <-; done].
  exists k, node. do 3 (split; [done|]). pose proof (serve_selected_inv _ _ _ _ _ _ _ _ _ _ _ Hi Hcb Eres Hn) as [Hf Hst Hrd].
  unfold record_alternate_hit. split; [by destruct (aa_hit acc); [case_match|] | by destruct (aa_hit acc); [case_match|] | done].
Qed.

Lemma retry_kept {R} fuel (try : Volume (C := C) -> option (attempt R * Volume (C := C))) exhausted left races saw v r v' :
  (forall w a w', volume_ok w -> try w = Some (a, w') -> kept w w') -> volume_ok v ->
  retry_loop fuel try exhausted left races saw v = Some (inr r, v') ->
  exists w, kept v w /\ try w = Some (Done (inr r), v').
Proof.
  intros Htry. revert left races saw v. induction fuel as [|fuel IH]; intros left races saw v Hv; [done|]. cbn [retry_loop].
  case_match; [done|]. intros ([a w] & Ha & Hrest)%bind_Some. pose proof (Htry v a w Hv Ha) as (Hw & Ew & El).
  assert (Hgo : forall left races saw, retry_loop fuel try exhausted left races saw w = Some (inr r, v') ->
    exists w', kept v w' /\ try w' = Some (Done (inr r), v')).
  { intros l2 r2 s2 H2. destruct (IH l2 r2 s2 w Hw H2) as (w' & (Hk & Ek & El') & H3). exists w'. split; [|done]. split; [done|]. split; congruence. }
  destruct a as [x| |]; [|destruct (races <? kMaxPublishRaceRetries); by eapply Hgo|by eapply Hgo].
  injection Hrest as -> ->. by exists v.
Qed.

Lemma select_stripe_same (v w : Volume (C := C)) key i s0 s : select_stripe v key = Some (i, s0) ->
  length (v_stripes w) = length (v_stripes v) -> v_stripes w !! i = Some s -> select_stripe w key = Some (i, s).
Proof.
  unfold select_stripe. intros Hsel El Hi. destruct (v_stripes v) as [|x l]; [done|].
  apply fmap_Some in Hsel as (y & _ & Ei). apply (f_equal fst) in Ei. cbn [fst] in Ei. rewrite <- El in Ei.
  destruct (v_stripes w) as [|z l']; [done|]. by rewrite <- Ei, Hi.
Qed.

(** C37. Reading an alternate serves the one the selector picked: when a read
    returns a document from the file, listing the key then gives a list on
    which the selector picks an entry, and the document served is that one:
    stored under the key, with the alternate id, the length and the hit count
    the list shows. *)
Theorem read_alternate_serves_selected env select key (v v' : Volume (C := C)) h :
  volume_ok v -> bytes_ok (v_file v) -> readable_retries cfg ->
  read_alternate_sync bld cfg env select key v = Some (inr h, v') -> rh_ram h = false ->
  exists l k a, list_alternates_sync bld cfg key v' = Some (inr l, v') /\ select l = Some k /\ l !! k = Some a /\
    handle_of_key key h /\ Document.alternate_id (rh_doc h) = ai_id a /\ total_len (rh_doc h) = ai_content_length a /\
    hit_count (rh_doc h) = ai_hit_count a.
Proof.
  intros Hv Hb Hr Hread Hn. unfold read_alternate_sync in Hread. destruct (select_stripe v key) as [[i s0]|] eqn:Hsel; [|done].
  apply retry_kept in Hread as (w & (Hw & Ew & Elw) & Ha); [|intros x a x' Hx Hat; destruct (alternate_attempt_ok env select i key x Hx) as (? & ? & E & ?); congruence|done].
  destruct (v_stripes w !! i) as [s|] eqn:Hi; [|unfold alternate_attempt in Ha; by rewrite Hi in Ha].
  destruct (alternate_attempt_inv env select i key w v' s h Hi Ha Hn) as (before & e & after & k & node & Hh & Hsl & Hk & [Hf (s' & Es' & Hsame) (r & Hm & Hrk & Hsv & Hd & _)]).
  pose proof (vo_stripes _ Hw _ _ Hi) as Hs. pose proof (sk_stripe _ _ Hs) as Hst. pose proof (so_offset _ Hst).
  assert (Hoe : 0 <= DirEntry.offset e).
  { assert (e ∈ candidates s key) as Hin by (rewrite (hd_split _ _ _ _ _ _ _ Hh); apply elem_of_app; right; left).
    apply elem_of_candidates in Hin as [Hin _]. apply offset_fits.
    pose proof (bucket_of_ok (ss_dir s) (sk_dir _ _ Hs) (bucket_index (ss_dir s) key)) as Hbk. rewrite Forall_forall in Hbk. by apply Hbk. }
  set (nodes := wk_nodes (chain_of bld (v_file w) s key e)) in *.
  assert (Hnode : node_ok (ss_stripe s) (v_file w) (stripe_snapshot bld s) key node /\ 0 <= nd_offset node).
  { split; [eapply Forall_lookup_1, Hk; apply walk_chain_spec|].
    assert (Hall : Forall (fun n => 0 <= nd_offset n) nodes) by (apply walk_offsets_nonneg; lia). by eapply Forall_lookup_1 in Hall. }
  destruct Hnode as [(Hmap & _) Hpos].
  destruct (map_document_header_at (v_file w) (nd_offset node) kInitialMapSize (st_size (ss_stripe s)) (nd_reader node) Hpos ltac:(by vm_compute) Hmap)
    as (r1 & Hh1 & E1).
  assert (Hok1 : doc_ok (r_doc r1)) by (rewrite <- Ew in Hb; by eapply header_at_ok).
  assert (Hlen : 0 <= ai_content_length (info_of node)).
  { cbn. rewrite <- E1. apply Hok1. }
  destruct (map_selected_header_at (v_file w) (nd_offset node) _ _ r Hpos Hlen Hm) as (r2 & Hh2 & E2).
  assert (Edoc : rh_doc h = r_doc (nd_reader node)) by (rewrite Hd; congruence).
  exists (info_of <$> nodes), k, (info_of node). split.
  { pose proof (same_view_heads (v_file w) s s' key before e after Hsame Hh) as Hh'.
    assert (En : nodes = wk_nodes (chain_of bld (v_file v') s' key e)) by (unfold nodes; by rewrite Hf, (same_view_chain (v_file w) s s')).
    rewrite En. rewrite <- Hf in Hh'. apply (list_heads bld cfg key v' i s' before e after); [done| |done|].
    - eapply select_stripe_insert; [|done]. by eapply select_stripe_same.
    - rewrite <- En. intros Hnil. by rewrite Hnil in Hk. }
  split; [done|]. split; [by rewrite list_lookup_fmap, Hk|].
  unfold handle_of_key, is_servable in *. apply andb_true_iff in Hsv as [_ Hsv]. rewrite Hd.
  split; [done|]. rewrite <- Hd, Edoc. done.
Qed.
End reading.

(** ** A chain of one document *)

Definition tiny_written (n : Z) : Volume (C := RamCacheLRU) :=
  match tiny_commit [1; 2; 3] [4; 5; 6; 7] (tiny_volume n) with Some (_, v) => v | None => tiny_volume n end.

Lemma tiny_written_ok n : 1024 <= n -> @volume_ok _ _ (lru_laws true) (tiny_written n).
Proof.
  intros Hn. unfold tiny_written.
  destruct (@commit_write_spec mulhi_int128 host_checksum _ _ (lru_ops true) (lru_laws true) tiny_config tiny_wenv 0 1 sample_key [1; 2; 3]
    [4; 5; 6; 7] (tiny_volume n) tiny_state) as (r & v' & E & Hv' & _);
    [by apply tiny_volume_ok | reflexivity | vm_compute; reflexivity | exact sample_key_ok | by apply bytes_okb_ok | by apply bytes_okb_ok
    | reflexivity |]. unfold tiny_commit. by rewrite E.
Qed.

Definition tiny_list (v : Volume (C := RamCacheLRU)) := @list_alternates_sync mulhi_int128 _ tiny_config sample_key v.
Definition tiny_read_alternate (select : list AlternateInfo -> option nat) (v : Volume (C := RamCacheLRU)) :=
  @read_alternate_sync mulhi_int128 host_checksum _ (lru_ops true) tiny_config tiny_renv select sample_key v.

Lemma listed_alternates_wf_witness : exists l v', tiny_list (tiny_written 70000) = Some (inr l, v') /\
  v' = tiny_written 70000 /\ l <> [] /\ StronglySorted (fun a b => ai_disk_offset b < ai_disk_offset a) l.
Proof.
  assert (match tiny_list (tiny_written 70000) with Some (inr _, _) => true | _ => false end = true) as Hc by (vm_compute; reflexivity).
  destruct (tiny_list (tiny_written 70000)) as [[[err|l] v']|] eqn:E; try discriminate Hc. exists l, v'. split; [reflexivity|].
  destruct (@listed_alternates_wf mulhi_int128 _ tiny_config sample_key (tiny_written 70000) v' l E) as (H1 & H2 & _ & H3 & _).
  split; [exact H1|]. split; [exact H2|exact H3].
Defined.

Lemma read_alternate_serves_selected_witness : exists h v' l, tiny_read_alternate (fun _ => Some 0%nat) (tiny_written 70000) = Some (inr h, v') /\
  tiny_list v' = Some (inr l, v') /\ handle_of_key sample_key h.
Proof.
  set (sel := fun _ : list AlternateInfo => Some 0%nat).
  assert (match tiny_read_alternate sel (tiny_written 70000) with Some (inr h, _) => negb (rh_ram h) | _ => false end = true) as Hc
    by (vm_compute; reflexivity).
  destruct (tiny_read_alternate sel (tiny_written 70000)) as [[[err|h] v']|] eqn:E; try discriminate Hc.
  destruct (@read_alternate_serves_selected mulhi_int128 host_checksum _ (lru_ops true) tiny_config (lru_laws true) tiny_renv sel sample_key
    (tiny_written 70000) v' h) as (l & k & a & H1 & _ & _ & H2 & _).
  - apply tiny_written_ok. lia.
  - apply bytes_okb_ok. vm_compute. reflexivity.
  - vm_compute. split; [discriminate|reflexivity].
  - exact E.
  - destruct (rh_ram h); [discriminate Hc|reflexivity].
  - exists h, v', l. split; [reflexivity|]. split; [exact H1|exact H2].
Defined.
