(* ===== verification/AlternateChain.v ===== *)
(** * Chains as lists of alternates

    A chain of documents in the file represents a list of alternates: each
    with its header, its content and its statistics, each linked to the next
    one below it.  The walks of Alternates.v visit exactly that list. *)

From S2P Require Import Prelude Crc32c Key Document DirEntry Directory Geometry Stripe WriteLog RamCache Volume VolumeSpec VolumeCommit Alternates AlternateSpec.
Local Open Scope cyc_scope.

(** An alternate: where it is, its document and its two payloads. *)
Record Alternate := { al_offset : Z; al_doc : Document; al_header : list Z; al_content : list Z }.

Definition al_end (a : Alternate) : Z := al_offset a + len (al_doc a).
Definition al_next (a : Alternate) : Z := next_alternate_offset (al_doc a).
Definition al_id (a : Alternate) : Z := Document.alternate_id (al_doc a).
Definition al_bytes (a : Alternate) : list Z := serialize_to (al_doc a) ++ al_header a ++ al_content a.

(** What a listing shows of it. *)
Definition al_info (a : Alternate) : AlternateInfo := {|
  ai_id := al_id a; ai_disk_offset := al_offset a; ai_content_length := Z.of_nat (length (al_content a));
  ai_hit_count := hit_count (al_doc a); ai_last_access := Z.max 0 (last_access (al_doc a)); ai_header := al_header a |}.

(** A document of one complete fragment. *)
Record whole (d : Document) (header content : list Z) : Prop := {
  wh_doc : doc_ok d;
  wh_magic : magic d = kMagic;
  wh_version : version_major d = kVersionMajor;
  wh_type : doc_type d = Type_SingleFrag;
  wh_frag : frag_offset d = 0;
  wh_len : len d = 132 + Z.of_nat (length header) + Z.of_nat (length content);
  wh_header_len : header_len d = Z.of_nat (length header);
  wh_total_len : total_len d = Z.of_nat (length content);
  wh_serial : fits 16 (Document.fill_serial d) }.

Lemma whole_servable d h c rest : whole d h c ->
  is_servable {| r_doc := d; r_data := serialize_to d ++ h ++ c ++ rest; r_valid := true |} = true.
Proof.
  intros []. unfold is_servable, has_volume_shape, kHeaderSize. cbn [r_valid r_doc andb].
  rewrite wh_type0, wh_frag0, wh_len0, wh_header_len0, wh_total_len0, !andb_true_iff, !Z.eqb_eq, !Z.leb_le. lia.
Qed.

(** Restamping keeps a document whole. *)
Lemma whole_restamp d h c fs ws hc na la : whole d h c -> fits 16 fs -> fits 32 ws -> fits 32 hc -> fits 64 na ->
  - 2 ^ 63 <= la < 2 ^ 63 -> whole (restamp d fs ws hc na la) h c.
Proof.
  intros [] Hf Hw Hh Hn Hl. split; try done. apply restamp_ok; try done. unfold fits in *. lia.
Qed.

(** The alternate [a] is in the current pass of stripe [s], under [key]. *)
Record stored (file : list Z) (s : Stripe) (snap : StripeSnapshot) (key : CacheKey) (a : Alternate) : Prop := {
  sd_whole : whole (al_doc a) (al_header a) (al_content a);
  sd_key : from_digest (first_key (al_doc a)) = key;
  sd_stamp : stamp_admits s snap kCurrent (al_doc a) = true;
  sd_area : in_data_area s (al_offset a - st_offset s) = true;
  sd_cursor : al_end a <= st_offset s + snap_cursor_rel snap;
  sd_align : al_offset a mod 8 = 0;
  sd_bytes : subspan file (Z.to_nat (al_offset a)) (length (al_bytes a)) = al_bytes a }.

(** Room for the reader's first mapping behind the alternate. *)
Definition mappable (file : list Z) (a : Alternate) : Prop := al_offset a + kInitialMapSize <= Z.of_nat (length file).

(** Each alternate links to the next one, which lies below it; the last one
    ends the chain. *)
Fixpoint linked (s : Stripe) (l : list Alternate) : Prop :=
  match l with
  | [] => False
  | a :: l' =>
      match l' with
      | [] => link_offset (al_next a) = 0
      | b :: _ => al_next a = link_to (al_doc b) (al_offset b - st_offset s) /\ al_end b <= al_offset a /\ linked s l'
      end
  end.

Section chain.
Context (s : Stripe) (snap : StripeSnapshot) (key : CacheKey).
Hypothesis Hs : stripe_ok s.
Hypothesis Hcur : snap_cursor_rel snap <= st_size s.

Lemma length_al_bytes a : whole (al_doc a) (al_header a) (al_content a) -> Z.of_nat (length (al_bytes a)) = len (al_doc a).
Proof.
  intros Hw. unfold al_bytes. rewrite !length_app, length_serialize_to by apply Hw. rewrite (wh_len _ _ _ Hw). unfold kHeaderSize. lia.
Qed.

(** Where a stored alternate lies. *)
Lemma stored_range file a : stored file s snap key a ->
  0 < al_offset a - st_offset s /\ st_offset s + data_start_rel s <= al_offset a /\ al_end a <= st_offset s + st_size s /\
  al_offset a - st_offset s < snap_cursor_rel snap /\ fits 48 (al_offset a - st_offset s) /\ 132 <= len (al_doc a) <= st_size s.
Proof.
  intros [Hw _ _ Ha Hc _ _]. pose proof (so_start _ Hs) as Hst. pose proof (so_size _ Hs). pose proof (so_offset _ Hs).
  unfold in_data_area in Ha. rewrite !andb_true_iff, Z.leb_le, Z.ltb_lt in Ha. destruct Ha as [[? ?] _].
  pose proof (wh_len _ _ _ Hw). unfold al_end in *. unfold kHeaderSize in *. unfold fits. lia.
Qed.

(** A stored alternate, found by a mapping of any size that fits. *)
Lemma stored_mapped file a n : stored file s snap key a -> 132 <= n -> al_offset a + n <= Z.of_nat (length file) ->
  al_end a <= Z.of_nat (length file) ->
  exists r, map_document file (al_offset a) n (st_size s) = Some r /\ r_doc r = al_doc a /\
    r_header r = al_header a /\ r_content r = al_content a /\ r_first_key r = key /\ is_servable r = true.
Proof.
  intros Ha Hn Hm He. pose proof (stored_range file a Ha) as (Hr & _ & _ & _ & _ & Hl). pose proof (so_offset _ Hs).
  destruct Ha as [Hw Hk _ _ _ Hal Hb]. unfold al_end in *.
  destruct (map_document_written file (al_offset a) (al_doc a) (al_header a) (al_content a) n (st_size s)) as [rest Er];
    try apply Hw; try done; try lia.
  { rewrite <- Hb at 1. f_equal. unfold al_bytes. rewrite !length_app, length_serialize_to by apply Hw. unfold kHeaderSize. lia. }
  destruct (reader_spans (al_doc a) (al_header a) (al_content a) rest) as (E1 & E2 & _); try apply Hw; [apply length_serialize_to, Hw|].
  eexists. split; [exact Er|]. split; [done|]. split; [done|]. split; [done|]. split; [done|]. by apply whole_servable.
Qed.

Lemma stored_header_at file a : stored file s snap key a -> al_end a <= Z.of_nat (length file) ->
  exists r, header_at file (al_offset a) = Some r /\ r_doc r = al_doc a.
Proof.
  intros Ha He. pose proof (stored_range file a Ha). pose proof (so_offset _ Hs). unfold al_end in *.
  destruct (stored_mapped file a 132 Ha) as (r & Hr & Ed & _); [unfold al_end; lia..|].
  destruct (map_document_header_at file (al_offset a) 132 (st_size s) r) as (r' & Hh & E); [lia|done|done|].
  exists r'. split; [done|]. congruence.
Qed.

(** ** The hop from one alternate to the next *)

Lemma link_to_hop file a b : stored file s snap key a -> stored file s snap key b -> al_end b <= al_offset a ->
  let link := link_to (al_doc b) (al_offset b - st_offset s) in
  link_offset link = al_offset b - st_offset s /\ bound_by_link (al_doc b) link = true /\ fits 64 link /\
  admit_hop s (link_offset link) (al_offset a - st_offset s) kCurrent snap = kCurrent.
Proof.
  intros Ha Hb Hlt. cbv zeta. destruct (stored_range file a Ha) as (Hra & _). destruct (stored_range file b Hb) as (Hrb & _ & _ & Hc & Hf & Hl).
  pose proof (wh_serial _ _ _ (sd_whole _ _ _ _ _ Hb)) as Hser.
  destruct (link_roundtrip (al_offset b - st_offset s) (u16 (Document.fill_serial (al_doc b))) (al_doc b)) as (H1 & _ & H2 & _ & _ & H3 & _);
    [done|apply wrap_fits; lia|lia|].
  unfold link_to in *. rewrite H2. split; [done|]. split; [by apply H3|]. split; [done|].
  unfold admit_hop. rewrite (sd_area _ _ _ _ _ Hb), (proj2 (Z.eqb_neq _ _)), (proj2 (Z.leb_gt _ _)) by (unfold al_end in *; lia). cbn.
  by rewrite (proj2 (Z.ltb_lt _ _)) by lia.
Qed.

Section walk.
Context (file : list Z).
Hypothesis Hfile : st_offset s + st_size s <= Z.of_nat (length file).

Lemma stored_end a : stored file s snap key a -> al_end a <= Z.of_nat (length file).
Proof. intros Ha%stored_range. lia. Qed.

(** The node a walk makes of a stored alternate. *)
Definition node_of (a : Alternate) (n : Node) : Prop :=
  nd_offset n = al_offset a /\ nd_cls n = kCurrent /\ r_doc (nd_reader n) = al_doc a /\ r_header (nd_reader n) = al_header a.

Lemma info_of_node a n : stored file s snap key a -> node_of a n -> info_of n = al_info a.
Proof.
  intros Ha (E1 & _ & E2 & E3). unfold info_of, build_alternate_info, al_info, al_id. rewrite E1, E2, E3.
  rewrite (wh_total_len _ _ _ (sd_whole _ _ _ _ _ Ha)). f_equal. destruct (Z.ltb_spec 0 (last_access (al_doc a))); lia.
Qed.

(** The readers' walk visits the list. *)
Lemma walk_linked depth a l followed : (length (a :: l) <= depth)%nat -> Forall (stored file s snap key) (a :: l) ->
  Forall (mappable file) (a :: l) -> linked s (a :: l) -> followed_ok followed (al_doc a) = true ->
  exists nodes, walk_chain depth s file snap key (al_offset a) kCurrent followed =
      {| wk_nodes := nodes; wk_incomplete := false; wk_deep := false |} /\ Forall2 node_of (a :: l) nodes.
Proof.
  pose proof (so_offset _ Hs) as Hoff.
  revert depth a followed. induction l as [|b l IH]; intros [|depth] a followed Hd Hst Hmp Hlk Hf; [cbn in Hd; lia| |cbn in Hd; lia|];
    apply Forall_cons in Hst as [Ha Hst]; apply Forall_cons in Hmp as [Hm Hmp]; destruct (stored_range file a Ha) as (Hr & _);
    (destruct (stored_mapped file a kInitialMapSize Ha) as (r & Er & Ed & Eh & _ & Ek & Esv); [done|done|by apply stored_end|]);
    cbn [walk_chain]; rewrite (proj2 (Z.eqb_neq _ _)), Er by lia;
    rewrite (bool_decide_true _ Ek), Esv, Ed, (sd_stamp _ _ _ _ _ Ha), Hf; cbn [negb orb].
  - cbn [linked] in Hlk. unfold al_next in Hlk. rewrite Hlk. cbn [Z.eqb]. eexists. split; [done|]. by repeat constructor.
  - cbn [linked] in Hlk. destruct Hlk as (En & Hlt & Hlk). unfold al_next in En.
    pose proof Hst as [Hb _]%Forall_cons. destruct (stored_range file b Hb) as (Hrb & _).
    destruct (link_to_hop file a b Ha Hb Hlt) as (El & Hbd & _ & Hhop). rewrite <- En in El, Hbd, Hhop. rewrite Hhop, El.
    rewrite (proj2 (Z.eqb_neq _ _)) by lia. replace (st_offset s + (al_offset b - st_offset s)) with (al_offset b) by lia.
    destruct (IH depth b (Some (next_alternate_offset (al_doc a)))) as (nodes & -> & Hn); [cbn in *; lia|done..|].
    eexists. split; [done|]. constructor; [|done]. by repeat split.
Qed.

(** The writers' walk finds the first alternate with the id. *)
Lemma find_linked id pre t post depth followed prev a : hd_error (pre ++ t :: post) = Some a ->
  (length (pre ++ t :: post) <= depth)%nat -> Forall (stored file s snap key) (pre ++ t :: post) -> linked s (pre ++ t :: post) ->
  Forall (fun x => al_id x <> id) pre -> al_id t = id -> followed_ok followed (al_doc a) = true ->
  find_alternate depth s file snap id (al_offset a) kCurrent followed prev =
    FTarget (match last pre with Some p => Some (al_offset p, al_id p) | None => prev end) (al_offset t) (al_next t).
Proof.
  pose proof (so_offset _ Hs) as Hoff.
  revert depth a followed prev. induction pre as [|x pre IH]; intros [|depth] a followed prev Ea Hd Hst Hlk Hpre Hid Hf;
    [cbn in Hd; lia| |cbn in Hd; lia|]; cbn in Ea; injection Ea as <-; cbn [app] in *; apply Forall_cons in Hst as [Ha Hst].
  - destruct (stored_range file t Ha) as (Hr & _). destruct (stored_header_at file t Ha) as (r & Er & Ed); [by apply stored_end|].
    cbn [find_alternate]. rewrite (proj2 (Z.eqb_neq _ _)), Er by lia. rewrite Ed, (sd_stamp _ _ _ _ _ Ha), Hf. cbn [negb orb].
    unfold al_id in Hid. by rewrite Hid, Z.eqb_refl.
  - apply Forall_cons in Hpre as [Hx Hpre].
    destruct (stored_range file x Ha) as (Hr & _). destruct (stored_header_at file x Ha) as (r & Er & Ed); [by apply stored_end|].
    cbn [find_alternate]. rewrite (proj2 (Z.eqb_neq _ _)), Er by lia. rewrite Ed, (sd_stamp _ _ _ _ _ Ha), Hf. cbn [negb orb].
    unfold al_id in Hx. rewrite (proj2 (Z.eqb_neq _ _)) by done.
    destruct (pre ++ t :: post) as [|b l] eqn:El; [by destruct pre|]. cbn [linked] in Hlk. destruct Hlk as (En & Hlt & Hlk). unfold al_next in En.
    pose proof Hst as [Hb _]%Forall_cons. destruct (stored_range file b Hb) as (Hrb & _).
    destruct (link_to_hop file x b Ha Hb Hlt) as (E1 & Hbd & _ & Hhop). rewrite <- En in E1, Hbd, Hhop. rewrite Hhop, E1.
    rewrite (proj2 (Z.eqb_neq _ _)) by lia. replace (st_offset s + (al_offset b - st_offset s)) with (al_offset b) by lia.
    rewrite (IH depth b (Some (next_alternate_offset (al_doc x)))); [|by rewrite ?El|cbn in *; lia|done..].
    f_equal. rewrite last_cons. by destruct (last pre).
Qed.

(** It ends without one when the list has none. *)
Lemma find_linked_none id depth followed prev a l : Forall (stored file s snap key) (a :: l) -> linked s (a :: l) ->
  Forall (fun x => al_id x <> id) (a :: l) -> followed_ok followed (al_doc a) = true ->
  find_alternate depth s file snap id (al_offset a) kCurrent followed prev = FMissing.
Proof.
  pose proof (so_offset _ Hs) as Hoff.
  revert depth a followed prev. induction l as [|b l IH]; intros [|depth] a followed prev Hst Hlk Hid Hf; try done;
    apply Forall_cons in Hst as [Ha Hst]; apply Forall_cons in Hid as [Hx Hid];
    destruct (stored_range file a Ha) as (Hr & _); (destruct (stored_header_at file a Ha) as (r & Er & Ed); [by apply stored_end|]);
    cbn [find_alternate]; rewrite (proj2 (Z.eqb_neq _ _)), Er by lia; rewrite Ed, (sd_stamp _ _ _ _ _ Ha), Hf; cbn [negb orb];
    unfold al_id in Hx; rewrite (proj2 (Z.eqb_neq (Document.alternate_id _) _)) by done; cbn [linked] in Hlk; unfold al_next in Hlk.
  - by rewrite Hlk.
  - destruct Hlk as (En & Hlt & Hlk). pose proof Hst as [Hb _]%Forall_cons. destruct (stored_range file b Hb) as (Hrb & _).
    destruct (link_to_hop file a b Ha Hb Hlt) as (E1 & Hbd & _ & Hhop). rewrite <- En in E1, Hbd, Hhop. rewrite Hhop, E1.
    rewrite (proj2 (Z.eqb_neq _ _)) by lia. replace (st_offset s + (al_offset b - st_offset s)) with (al_offset b) by lia. by apply IH.
Qed.
End walk.
End chain.

(** ** The alternates a key holds *)

Section holds.
Context (bld : mulhi_build).

Lemma snapshot_cursor_le s : stripe_ok (ss_stripe s) -> snap_cursor_rel (stripe_snapshot bld s) <= st_size (ss_stripe s).
Proof. intros Hs. pose proof (so_area _ Hs). pose proof (so_start _ Hs). unfold stripe_snapshot, snapshot. cbn [snap_cursor_rel]. case_match; lia. Qed.

(** Entry [x] names a document of [key] in the pass its class says. *)
Definition claims (file : list Z) (s : StripeState) (key : CacheKey) (x : DirEntry) (cls : AdmitClass) : Prop :=
  exists r, header_at file (st_offset (ss_stripe s) + DirEntry.offset x) = Some r /\ r_first_key r = key /\
    stamp_admits (ss_stripe s) (stripe_snapshot bld s) cls (r_doc r) = true /\ entry_binds x (r_doc r) = true.

(** Entry [e], and no other, leads to a document of [key]: the alternate [a]. *)
Record leads (file : list Z) (s : StripeState) (key : CacheKey) (before : list DirEntry) (e : DirEntry) (after : list DirEntry) (a : Alternate)
  : Prop := {
  ld_split : candidates s key = before ++ e :: after;
  ld_others : forall x cls, (x, cls) ∈ admitted (ss_stripe s) (stripe_snapshot bld s) (before ++ after) -> ~ claims file s key x cls;
  ld_current : admit_position (ss_stripe s) (DirEntry.offset e) (phase e) (stripe_snapshot bld s) = kCurrent;
  ld_offset : al_offset a = st_offset (ss_stripe s) + DirEntry.offset e;
  ld_binds : entry_binds e (al_doc a) = true;
  ld_mapped : al_offset a + approx_size e <= Z.of_nat (length file) }.

(** The alternates of [key] in stripe [s], from the newest to the oldest. *)
Record holds (file : list Z) (s : StripeState) (key : CacheKey) (l : list Alternate) : Prop := {
  ho_head : exists before e after a, hd_error l = Some a /\ leads file s key before e after a;
  ho_stored : Forall (stored file (ss_stripe s) (stripe_snapshot bld s) key) l;
  ho_linked : linked (ss_stripe s) l;
  ho_length : (length l <= kMaxChainTraversalDepth)%nat }.

Lemma chain_head_claims file s key x cls : stripe_ok (ss_stripe s) -> 0 <= DirEntry.offset x ->
  is_Some (chain_head (ss_stripe s) file (stripe_snapshot bld s) key x cls) -> claims file s key x cls.
Proof.
  intros Hs Hx [r Hr]. pose proof (so_offset _ Hs). unfold chain_head in Hr. apply bind_Some in Hr as (r0 & Hm & Hr).
  case_match eqn:Eg; [done|]. rewrite !orb_false_iff, !negb_false_iff, bool_decide_eq_true in Eg. destruct Eg as [[Ek Est] Eb].
  destruct (map_document_header_at file (st_offset (ss_stripe s) + DirEntry.offset x) (approx_size x) (st_size (ss_stripe s)) r0)
    as (r' & Hh & Ed); [lia|apply approx_size_min|done|].
  exists r'. unfold r_first_key in *. by rewrite Ed.
Qed.

Lemma candidate_offset file s key x : stripe_state_ok file s -> x ∈ candidates s key -> 0 <= DirEntry.offset x.
Proof.
  intros Hok [Hin _]%elem_of_candidates. apply offset_fits.
  pose proof (bucket_of_ok (ss_dir s) (sk_dir _ _ Hok) (bucket_index (ss_dir s) key)) as Hb. rewrite Forall_forall in Hb. by apply Hb.
Qed.

Lemma ld_before file s key before e after a x cls : leads file s key before e after a ->
  (x, cls) ∈ admitted (ss_stripe s) (stripe_snapshot bld s) before -> ~ claims file s key x cls.
Proof.
  intros Hl (Hx & Hc)%elem_of_admitted. apply (ld_others _ _ _ _ _ _ _ Hl). apply elem_of_admitted. split; [|done]. apply elem_of_app. by left.
Qed.

(** The head as the readers find it. *)
Lemma leads_heads file s key before e after a : stripe_state_ok file s ->
  stored file (ss_stripe s) (stripe_snapshot bld s) key a -> leads file s key before e after a ->
  heads bld file s key before e after.
Proof.
  intros Hok Ha Hl. pose proof Hl as [H1 _ H3 H4 H5 H6]. pose proof (sk_stripe _ _ Hok) as Hs. pose proof (snapshot_cursor_le s Hs) as Hc.
  split; [done| |by rewrite H3|].
  - intros x cls Hx. apply eq_None_not_Some. intros Hsome. apply (ld_before _ _ _ _ _ _ _ _ _ Hl Hx). apply chain_head_claims; [done| |done].
    apply elem_of_admitted in Hx as [Hx _]. eapply candidate_offset; [exact Hok|]. rewrite H1. apply elem_of_app. by left.
  - rewrite H3. unfold chain_head. rewrite <- H4.
    destruct (stored_mapped (ss_stripe s) (stripe_snapshot bld s) key Hs Hc file a (approx_size e) Ha) as (r & Er & Ed & _ & _ & Ek & _).
    + pose proof (approx_size_min e) as Hm. unfold kHeaderSize in Hm. lia.
    + done.
    + eapply stored_end; [exact Hs|exact Hc| |exact Ha]. apply Hok.
    + rewrite Er. cbn [mbind option_bind]. rewrite (bool_decide_true _ Ek), Ed, (sd_stamp _ _ _ _ _ Ha), H5. by eexists.
Qed.
End holds.

Section listing.
Context (bld : mulhi_build) {C : Type} `{!RamCacheOps C} (cfg : VolumeConfig).

Lemma holds_listed file s key l : stripe_state_ok file s -> holds bld file s key l -> Forall (mappable file) l ->
  exists before e after, heads bld file s key before e after /\ info_of <$> wk_nodes (chain_of bld file s key e) = al_info <$> l.
Proof.
  intros Hok [(before & e & after & a & Ehd & Hl) Hst Hlk Hlen] Hmp. pose proof (sk_stripe _ _ Hok) as Hs.
  pose proof (snapshot_cursor_le bld s Hs) as Hc. destruct l as [|a' l]; [done|]. injection Ehd as ->.
  pose proof Hst as [Ha _]%Forall_cons. exists before, e, after. split; [by eapply leads_heads|].
  unfold chain_of. rewrite (ld_current _ _ _ _ _ _ _ _ Hl), <- (ld_offset _ _ _ _ _ _ _ _ Hl).
  destruct (walk_linked (ss_stripe s) (stripe_snapshot bld s) key Hs Hc file (sk_file _ _ Hok) kMaxChainTraversalDepth a l None) as (nodes & -> & Hn); try done.
  cbn [wk_nodes]. clear -Hst Hn. revert Hst. induction Hn as [|x n l' nodes' Hx Hn IH]; [done|]. intros [Hsx Hst]%Forall_cons.
  rewrite !fmap_cons, IH by done. f_equal. by eapply info_of_node.
Qed.

(** Listing shows the alternates a key holds. *)
Lemma holds_lists key (v : Volume (C := C)) i s l : 0 <= vc_max_read_retries cfg < 2 ^ 32 - 1 ->
  select_stripe v key = Some (i, s) -> stripe_state_ok (v_file v) s -> holds bld (v_file v) s key l -> Forall (mappable (v_file v)) l ->
  list_alternates_sync bld cfg key v = Some (inr (al_info <$> l), v).
Proof.
  intros Hr Hsel Hok Hh Hm. destruct (holds_listed (v_file v) s key l Hok Hh Hm) as (before & e & after & Hd & El).
  rewrite <- El. eapply list_heads; try done. intros Hnil. rewrite Hnil in El. destruct Hh as [_ _ Hlk _]. by destruct l.
Qed.
End listing.
