(* ===== verification/AlternateEdit.v ===== *)
(** * In-place updates of alternate chains, proved (Alternates.v)

    A chain as the list of documents it represents; what a hit-count update
    and the removal of an alternate that is not the head do to that list. *)

From S2P Require Import Prelude Crc32c Key Document DirEntry Directory Geometry Stripe WriteLog RamCache LruCache Volume VolumeSpec VolumeCommit Alternates AlternateSpec AlternateChain.
Local Open Scope cyc_scope.

(** ** Bytes of a patched file *)

(** The three stores, as fields of the document. *)
Lemma serialize_write d i v d' : doc_ok d -> (i < 20)%nat ->
  kDocumentFields !! i = Some (length v) -> <[i := v]> (wire_chunks d) = wire_chunks d' ->
  write_at (serialize_to d) (sum_sizes (take i kDocumentFields)) v = serialize_to d'.
Proof.
  intros Hd Hi Hn Hw. unfold serialize_to. rewrite <- Hw, <- (app_nil_r (concat (wire_chunks d))).
  rewrite (write_at_chunk (wire_chunks d) kDocumentFields [] i v); [by rewrite app_nil_r | by apply wire_sizes | done | done].
Qed.

Definition with_next (d : Document) (link : Z) : Document :=
  restamp d (Document.fill_serial d) (write_serial d) (hit_count d) link (last_access d).
Definition with_hits (d : Document) (hc la : Z) : Document :=
  restamp d (Document.fill_serial d) (write_serial d) hc (next_alternate_offset d) la.

Lemma write_next d link : doc_ok d ->
  write_at (serialize_to d) kNextAlternateOffsetPos (le_bytes 8 link) = serialize_to (with_next d link).
Proof. intros Hd. apply (serialize_write d 16); [done|lia| |done]. by rewrite length_le_bytes. Qed.

Lemma le_bytes_u64 z : le_bytes 8 (u64 z) = le_bytes 8 z.
Proof.
  rewrite <- (le_bytes_le_val (le_bytes 8 (u64 z))), <- (le_bytes_le_val (le_bytes 8 z)) by apply le_bytes_ok.
  rewrite !length_le_bytes, !le_val_le_bytes. f_equal. unfold u64, wrap. apply Z.mod_mod. lia.
Qed.

Lemma write_hits d hc la : doc_ok d -> fits 32 hc ->
  write_at (write_at (serialize_to d) kHitCountOffset (le_bytes 4 hc)) kLastAccessOffset (le_bytes 8 (u64 la)) = serialize_to (with_hits d hc la).
Proof.
  intros Hd Hh. pose proof Hd as (_ & _ & (Hfs & Hws & _ & _ & _ & _) & (Hna & Hla & _)).
  set (d1 := restamp d (Document.fill_serial d) (write_serial d) hc (next_alternate_offset d) (last_access d)).
  assert (write_at (serialize_to d) kHitCountOffset (le_bytes 4 hc) = serialize_to d1) as ->.
  { apply (serialize_write d 15); [done|lia| |done]. by rewrite length_le_bytes. }
  rewrite le_bytes_u64. apply (serialize_write d1 17); [by apply restamp_ok|lia| |done]. by rewrite length_le_bytes.
Qed.

(** ** Edits of a stored alternate *)

Definition with_doc (a : Alternate) (d : Document) : Alternate := {|
  al_offset := al_offset a; al_doc := d; al_header := al_header a; al_content := al_content a |}.

(** The documents an in-place store can turn [d] into. *)
Definition same_document (d d' : Document) : Prop := exists hc na la, fits 32 hc /\ fits 64 na /\ - 2 ^ 63 <= la < 2 ^ 63 /\
  d' = restamp d (Document.fill_serial d) (write_serial d) hc na la.

Section edit.
Context (s : Stripe) (snap : StripeSnapshot) (key : CacheKey).
Hypothesis Hs : stripe_ok s.
Hypothesis Hcur : snap_cursor_rel snap <= st_size s.

Lemma write_at_app_l {A} (l1 l2 src : list A) off : (off + length src <= length l1)%nat ->
  write_at (l1 ++ l2) off src = write_at l1 off src ++ l2.
Proof.
  intros H. unfold write_at. rewrite take_app_le, drop_app_le by lia. by rewrite <- !app_assoc.
Qed.

Lemma subspan_bytes (file : list Z) a off src : stored file s snap key a -> (off + length src <= 132)%nat ->
  al_end a <= Z.of_nat (length file) ->
  subspan (write_at file (Z.to_nat (al_offset a) + off) src) (Z.to_nat (al_offset a)) (length (al_bytes a)) =
    write_at (serialize_to (al_doc a)) off src ++ al_header a ++ al_content a.
Proof.
  intros Ha Ho He. pose proof (stored_range s snap key Hs Hcur file a Ha). pose proof (so_offset _ Hs).
  pose proof (length_al_bytes a (sd_whole _ _ _ _ _ Ha)) as Hl. unfold al_end in *.
  rewrite subspan_write_at_same, (sd_bytes _ _ _ _ _ Ha) by lia. unfold al_bytes. apply write_at_app_l.
  rewrite length_serialize_to by apply Ha. done.
Qed.

Lemma stored_edit file file' a d : stored file s snap key a -> same_document (al_doc a) d ->
  subspan file' (Z.to_nat (al_offset a)) (length (al_bytes a)) = serialize_to d ++ al_header a ++ al_content a ->
  stored file' s snap key (with_doc a d).
Proof.
  intros [Hw Hk Hst Ha Hc Hal Hb] (hc & na & la & H1 & H2 & H3 & ->) Hsub.
  pose proof Hw as [Hd _ _ _ _ _ _ _ Hf]. pose proof Hd as (_ & _ & (_ & Hws & _ & _ & _ & _) & _).
  assert (Hw' : whole (restamp (al_doc a) (Document.fill_serial (al_doc a)) (write_serial (al_doc a)) hc na la) (al_header a) (al_content a))
    by by apply whole_restamp.
  split; try done. rewrite <- Hsub at 2. f_equal. unfold al_bytes, with_doc; cbn [al_doc al_header al_content].
  rewrite !length_app, !length_serialize_to; [done|done|apply Hw'].
Qed.

(** A store outside an alternate leaves it. *)
Lemma stored_frame file a pos src : stored file s snap key a -> (pos + length src <= length file)%nat ->
  Z.of_nat pos + Z.of_nat (length src) <= al_offset a \/ al_end a <= Z.of_nat pos -> stored (write_at file pos src) s snap key a.
Proof.
  intros Ha Hp Hd. pose proof (stored_range s snap key Hs Hcur file a Ha). pose proof (so_offset _ Hs).
  pose proof (length_al_bytes a (sd_whole _ _ _ _ _ Ha)) as Hl. destruct Ha as [Hw Hk Hst Ha Hc Hal Hb]. split; try done.
  unfold al_end in *. rewrite subspan_write_at_other by lia. done.
Qed.

(** *** Relinking *)

Lemma linked_below a l : Forall (fun x => 0 <= len (al_doc x)) (a :: l) -> linked s (a :: l) -> Forall (fun b => al_end b <= al_offset a) l.
Proof.
  revert a. induction l as [|b l IH]; intros a Hl Hk; [constructor|]. cbn [linked] in Hk. destruct Hk as (_ & Hlt & Hk).
  apply Forall_cons in Hl as [_ Hl]. constructor; [done|]. pose proof Hl as [Hb _]%Forall_cons.
  eapply Forall_impl; [exact (IH b Hl Hk)|]. cbn. unfold al_end in *. lia.
Qed.

Lemma linked_app_r pre l : l <> [] -> linked s (pre ++ l) -> linked s l.
Proof.
  intros Hn. induction pre as [|a pre IH]; cbn [app]; [done|]. intros Hk. apply IH. cbn [linked] in Hk.
  destruct (pre ++ l) eqn:E; [by apply app_nil in E as [_ ?]|]. apply Hk.
Qed.

(** Replacing the tail of a list by one that starts at the same place. *)
Lemma linked_tail pre a l a' l' : al_offset a' = al_offset a -> len (al_doc a') = len (al_doc a) ->
  Document.fill_serial (al_doc a') = Document.fill_serial (al_doc a) ->
  linked s (pre ++ a :: l) -> linked s (a' :: l') -> linked s (pre ++ a' :: l').
Proof.
  intros E1 E2 E3. induction pre as [|x pre IH]; cbn [app]; [done|]. intros Hk Hk'.
  destruct pre as [|y pre]; cbn [app linked] in *.
  - destruct Hk as (En & Hlt & _). split; [|split; [|done]].
    + rewrite En. unfold link_to. by rewrite E1, E3.
    + unfold al_end in *. lia.
  - destruct Hk as (En & Hlt & Hk). split; [done|]. split; [done|]. by apply IH.
Qed.

Lemma linked_same a l d : same_document (al_doc a) d -> next_alternate_offset d = al_next a -> linked s (a :: l) -> linked s (with_doc a d :: l).
Proof.
  intros (hc & na & la & _ & _ & _ & ->) En Hk. destruct l as [|b l]; cbn [linked] in *; unfold al_next in *; cbn [al_doc with_doc] in *; rewrite En; done.
Qed.

(** Dropping the alternate after [p]. *)
Lemma linked_drop p t l d : Forall (fun x => 0 <= len (al_doc x)) (p :: t :: l) -> same_document (al_doc p) d ->
  next_alternate_offset d = al_next t -> linked s (p :: t :: l) -> linked s (with_doc p d :: l).
Proof.
  intros Hl (hc & na & la & _ & _ & _ & ->) En Hk. pose proof (linked_below p (t :: l) Hl Hk) as [Ht Hb]%Forall_cons.
  cbn [linked] in Hk. destruct Hk as (_ & _ & Hk). destruct l as [|b l]; cbn [linked] in *; unfold al_next in *; cbn [al_doc with_doc] in *; rewrite En.
  - done.
  - destruct Hk as (E & _ & Hk). apply Forall_cons in Hb as [Hb _]. split; [done|]. split; [done|]. done.
Qed.
End edit.

(** ** Edits of a file *)

(** [file'] is [file] with the header of [t] replaced by that of [d]. *)
Record edit (file file' : list Z) (t : Alternate) (d : Document) : Prop := {
  ed_length : length file' = length file;
  ed_same : same_document (al_doc t) d;
  ed_bytes : subspan file' (Z.to_nat (al_offset t)) (length (al_bytes t)) = serialize_to d ++ al_header t ++ al_content t;
  ed_others : forall abs n, 0 <= abs -> abs + Z.of_nat n <= al_offset t \/ al_offset t + 132 <= abs ->
    subspan file' (Z.to_nat abs) n = subspan file (Z.to_nat abs) n }.

Section edits.
Context (bld : mulhi_build) (file : list Z) (s : StripeState) (key : CacheKey).
Hypothesis Hok : stripe_state_ok file s.
Local Abbreviation st := (ss_stripe s).
Local Abbreviation snap := (stripe_snapshot bld s).
Let Hs : stripe_ok st := sk_stripe _ _ Hok.
Let Hc : snap_cursor_rel snap <= st_size st := snapshot_cursor_le bld s Hs.

Lemma write_at_edit t d (l : list (nat * list Z)) : stored file st snap key t -> same_document (al_doc t) d ->
  Forall (fun w => fst w + length (snd w) <= 132)%nat l ->
  fold_left (fun b w => write_at b (fst w) (snd w)) l (serialize_to (al_doc t)) = serialize_to d ->
  edit file (fold_left (fun f w => write_at f (Z.to_nat (al_offset t) + fst w) (snd w)) l file) t d.
Proof.
  intros Ht Hd Hl Hf. pose proof (stored_range st snap key Hs Hc file t Ht) as Hr. pose proof (so_offset _ Hs) as Ho.
  pose proof (sk_file _ _ Hok) as Hfile. pose proof (length_al_bytes t (sd_whole _ _ _ _ _ Ht)) as Hlb. unfold al_end in *.
  enough (Hgen : forall f b, length f = length file -> length b = 132%nat ->
    subspan f (Z.to_nat (al_offset t)) (length (al_bytes t)) = b ++ al_header t ++ al_content t ->
    (forall abs n, 0 <= abs -> abs + Z.of_nat n <= al_offset t \/ al_offset t + 132 <= abs ->
      subspan f (Z.to_nat abs) n = subspan file (Z.to_nat abs) n) ->
    let f' := fold_left (fun f w => write_at f (Z.to_nat (al_offset t) + fst w) (snd w)) l f in
    length f' = length file /\
    subspan f' (Z.to_nat (al_offset t)) (length (al_bytes t)) = fold_left (fun b w => write_at b (fst w) (snd w)) l b ++ al_header t ++ al_content t /\
    (forall abs n, 0 <= abs -> abs + Z.of_nat n <= al_offset t \/ al_offset t + 132 <= abs ->
      subspan f' (Z.to_nat abs) n = subspan file (Z.to_nat abs) n)).
  { destruct (Hgen file (serialize_to (al_doc t))) as (H1 & H2 & H3); [done| |apply Ht|done|].
    - rewrite length_serialize_to; [done|apply Ht].
    - rewrite Hf in H2. by split. }
  clear Hf Hd. induction Hl as [|[off src] l Hw Hl IH]; intros f b Hlf Hb Hsub Hoth; [done|]. cbn [fold_left fst snd] in *.
  assert (Hlen : length (write_at f (Z.to_nat (al_offset t) + off) src) = length file) by (rewrite length_write_at; lia).
  apply IH; [done|rewrite length_write_at; lia| |].
  - rewrite subspan_write_at_same, Hsub by lia. apply write_at_app_l. lia.
  - intros abs n Habs Hd. rewrite subspan_write_at_other by lia. by apply Hoth.
Qed.

Lemma edit_stored file' t d : stored file st snap key t -> edit file file' t d -> stored file' st snap key (with_doc t d).
Proof. intros Ht He. eapply stored_edit; [done|apply He|apply He]. Qed.

Lemma edit_frame file' t d a : stored file st snap key t -> stored file st snap key a -> edit file file' t d ->
  al_end a <= al_offset t \/ al_offset t + 132 <= al_offset a -> stored file' st snap key a.
Proof.
  intros Ht Ha He Hd. pose proof (stored_range st snap key Hs Hc file a Ha) as Hr. pose proof (so_offset _ Hs) as Ho.
  pose proof (length_al_bytes a (sd_whole _ _ _ _ _ Ha)) as Hl. unfold al_end in *. destruct Ha. split; try done.
  rewrite (ed_others _ _ _ _ He); [done|lia|lia].
Qed.

Lemma map_region_length f f' abs n : length f' = length f -> is_Some (map_region f' abs n) <-> is_Some (map_region f abs n).
Proof. intros E. unfold map_region. rewrite E. case_match; [done|]. split; by eexists. Qed.

(** Entries that do not point into the middle of the header of [t] claim the
    same documents after the edit. *)
Lemma edit_claims file' t d x cls : stored file st snap key t -> edit file file' t d -> 0 <= DirEntry.offset x ->
  (st_offset st + DirEntry.offset x = al_offset t \/ st_offset st + DirEntry.offset x + 132 <= al_offset t \/
   al_offset t + 132 <= st_offset st + DirEntry.offset x) ->
  claims bld file' s key x cls -> claims bld file s key x cls.
Proof.
  intros Ht He Hx Hd (r & Hh & Hk & Hst & Hb). pose proof (so_offset _ Hs) as Ho.
  destruct Hd as [E|Hd].
  - pose proof (edit_stored file' t d Ht He) as Ht'. pose proof (stored_range st snap key Hs Hc file t Ht) as Hr.
    pose proof (sk_file _ _ Hok) as Hfile.
    destruct (stored_header_at st snap key Hs Hc file' (with_doc t d) Ht') as (r1 & Hr1 & E1);
      [unfold al_end in *; cbn [al_offset al_doc with_doc]; rewrite (ed_length _ _ _ _ He); destruct (ed_same _ _ _ _ He) as (? & ? & ? & _ & _ & _ & ->); cbn [len restamp]; lia|].
    cbn [al_offset with_doc al_doc] in *. rewrite E in Hh. rewrite Hr1 in Hh. injection Hh as ->.
    destruct (stored_header_at st snap key Hs Hc file t Ht) as (r0 & Hr0 & E0); [unfold al_end in *; lia|].
    exists r0. rewrite E. split; [done|]. unfold r_first_key, entry_binds, stamp_admits in *. rewrite E0. rewrite E1 in Hk, Hst, Hb.
    destruct (ed_same _ _ _ _ He) as (? & ? & ? & _ & _ & _ & ->). done.
  - exists r. split; [|done]. rewrite <- Hh. unfold header_at, map_region. rewrite (ed_length _ _ _ _ He).
    rewrite (ed_others _ _ _ _ He); [done|lia|unfold kHeaderSize; lia].
Qed.

(** The admitted entries of the key point at alternates, or clear of their
    headers. *)
Definition apart (l : list Alternate) : Prop := forall x cls a, (x, cls) ∈ admitted st snap (candidates s key) -> a ∈ l ->
  st_offset st + DirEntry.offset x = al_offset a \/ st_offset st + DirEntry.offset x + 132 <= al_offset a \/
  al_offset a + 132 <= st_offset st + DirEntry.offset x.

Lemma leads_edit file' t d before e after a a' : stored file st snap key t -> edit file file' t d ->
  (forall x cls, (x, cls) ∈ admitted st snap (candidates s key) -> st_offset st + DirEntry.offset x = al_offset t \/
    st_offset st + DirEntry.offset x + 132 <= al_offset t \/ al_offset t + 132 <= st_offset st + DirEntry.offset x) ->
  al_offset a' = al_offset a -> Document.fill_serial (al_doc a') = Document.fill_serial (al_doc a) ->
  leads bld file s key before e after a -> leads bld file' s key before e after a'.
Proof.
  intros Ht He Hap Eo Es [H1 H2 H3 H4 H5 H6]. split; try done.
  - intros x cls Hx Hcl. apply (H2 x cls Hx). apply elem_of_admitted in Hx as [Hx Hc'].
    assert (Hin : x ∈ candidates s key) by (rewrite H1; apply elem_of_app in Hx; rewrite elem_of_app, elem_of_cons; tauto).
    eapply edit_claims; [exact Ht|exact He|by eapply candidate_offset| |exact Hcl]. apply (Hap x cls), elem_of_admitted. done.
  - by rewrite Eo.
  - unfold entry_binds in *. by rewrite Es.
  - by rewrite Eo, (ed_length _ _ _ _ He).
Qed.

Lemma stored_len_nonneg f l : Forall (stored f st snap key) l -> Forall (fun x => 0 <= len (al_doc x)) l.
Proof. intros Hl. eapply Forall_impl; [exact Hl|]. intros a Ha%stored_range; [lia|exact Hs|exact Hc]. Qed.

(** Around [t] in a chain: what is before lies above, what is after below. *)
Lemma chain_around f pre t post : Forall (stored f st snap key) (pre ++ t :: post) -> linked st (pre ++ t :: post) ->
  Forall (fun a => al_offset t + 132 <= al_offset a) pre /\ Forall (fun a => al_end a <= al_offset t) post.
Proof.
  intros Hst Hlk. pose proof (stored_len_nonneg f _ Hst) as Hl. split.
  - apply Forall_forall. intros a Ha. apply list_elem_of_split in Ha as (p1 & p2 & ->). rewrite <- app_assoc in *. cbn [app] in *.
    apply linked_app_r in Hlk; [|done]. apply Forall_app in Hl as [_ Hl]. pose proof (linked_below st a _ Hl Hlk) as Hb.
    apply Forall_app in Hb as [_ [Hb _]%Forall_cons]. apply Forall_app in Hst as [_ Hst].
    apply Forall_cons in Hst as [_ Hst]. apply Forall_app in Hst as [_ [Hst _]%Forall_cons].
    pose proof (stored_range st snap key Hs Hc f t Hst). unfold al_end in *. lia.
  - apply linked_app_r in Hlk; [|done]. apply Forall_app in Hl as [_ Hl]. by apply (linked_below st).
Qed.

(** An edit of [t] that leaves a chain of what is stored after it. *)
Lemma edit_holds file' pre t post d post' : holds bld file s key (pre ++ t :: post) -> apart (pre ++ t :: post) ->
  edit file file' t d -> post' `suffix_of` post -> linked st (with_doc t d :: post') ->
  holds bld file' s key (pre ++ with_doc t d :: post').
Proof.
  intros [(before & e & after & a & Ehd & Hl) Hst Hlk Hlen] Hap He [mid ->] Hlk'.
  destruct (chain_around file pre t (mid ++ post') Hst Hlk) as [Hpre Hpost].
  pose proof Hst as [Hst1 [Ht Hst2]%Forall_cons]%Forall_app.
  pose proof (ed_same _ _ _ _ He) as (hc & na & la & _ & _ & _ & Ed).
  split.
  - assert (Ha : exists a', hd_error (pre ++ with_doc t d :: post') = Some a' /\ al_offset a' = al_offset a /\
      Document.fill_serial (al_doc a') = Document.fill_serial (al_doc a)).
    { destruct pre as [|x pre]; cbn in *; injection Ehd as <-; eexists; (split; [done|]); [|done]. cbn. by rewrite Ed. }
    destruct Ha as (a' & E' & Eo & Es). exists before, e, after, a'. split; [done|].
    eapply leads_edit; [exact Ht|exact He| |exact Eo|exact Es|exact Hl].
    intros x cls Hx. eapply Hap; [exact Hx|]. apply elem_of_app. right. left.
  - apply Forall_app. split; [|constructor].
    + apply Forall_forall. intros x Hx. rewrite Forall_forall in Hst1, Hpre. eapply edit_frame; [exact Ht|by apply Hst1|exact He|]. right. by apply Hpre.
    + eapply edit_stored; [exact Ht|exact He].
    + apply Forall_app in Hst2 as [_ Hst2]. apply Forall_app in Hpost as [_ Hpost]. apply Forall_forall. intros x Hx.
      rewrite Forall_forall in Hst2, Hpost. eapply edit_frame; [exact Ht|by apply Hst2|exact He|]. left. by apply Hpost.
  - eapply linked_tail; [| | |exact Hlk|exact Hlk']; cbn; by rewrite ?Ed.
  - rewrite !length_app in *. cbn [length] in *. rewrite length_app in Hlen. lia.
Qed.

Lemma rmw_stored snap0 a apply : snap_pass snap0 = snap_pass snap -> stored file st snap key a ->
  commit_header_rmw bld s file (al_offset a) key (al_id a) snap0 apply = inr (apply file).
Proof.
  intros Hsame Ha. pose proof (stored_range st snap key Hs Hc file a Ha) as (Hr & _ & Hend & Hcur & _ & Hl). pose proof (sk_file _ _ Hok).
  pose proof (so_offset _ Hs).
  unfold commit_header_rmw. rewrite (sd_align _ _ _ _ _ Ha). cbn [Z.eqb negb].
  assert (wrapped_since bld st (ws_gen (ss_log s)) snap0 = false) as -> by (unfold wrapped_since; rewrite Hsame; exact (not_wrapped bld s)). cbn [orb].
  destruct (stored_header_at st snap key Hs Hc file a Ha) as (r & Hh & Ed); [unfold al_end in *; lia|].
  apply header_at_Some in Hh as (data & Hm & -> & Hv). apply map_region_Some in Hm as [_ ->]; [|lia|unfold kHeaderSize; lia].
  rewrite Nat2Z.id in *. pose proof (shared_reader_valid _ _ Hv) as E. rewrite E in Hv, Ed. rewrite Hv, Ed. unfold r_first_key. rewrite Ed.
  rewrite (bool_decide_true _ (sd_key _ _ _ _ _ Ha)). unfold al_id. rewrite Z.eqb_refl. cbn [andb].
  assert (node_admissible_now st snap (al_offset a - st_offset st) (al_doc a) = true) as ->; [|done].
  unfold node_admissible_now. rewrite (sd_area _ _ _ _ _ Ha). cbn [negb]. pose proof (sd_stamp _ _ _ _ _ Ha) as Hstamp.
  unfold stamp_admits in Hstamp. destruct (st_retain st); cbn [negb] in *; [|by apply Z.ltb_lt].
  cbn [expected_pass] in Hstamp. rewrite Hstamp. by apply Z.ltb_lt.
Qed.
End edits.

(** ** Hit counts *)

(** A longer mapping shows the same header. *)
Lemma region_header file abs n data : 0 <= abs -> Z.of_nat kHeaderSize <= n -> map_region file abs n = Some data ->
  let r := new_shared_reader abs data in
  if r_valid r then exists r', header_at file abs = Some r' /\ r_doc r' = r_doc r else header_at file abs = None.
Proof.
  intros Ha Hn [Hlen ->]%map_region_Some; [|lia..]. cbv zeta. set (sub := subspan file (Z.to_nat abs)).
  destruct (new_shared_reader_prefix abs (sub (Z.to_nat n)) (sub kHeaderSize)) as [Ev Ed]; [unfold sub; rewrite !take_subspan by lia; done|].
  assert (Hm : map_region file abs (Z.of_nat kHeaderSize) = Some (sub kHeaderSize)) by (rewrite map_region_eq, Nat2Z.id by lia; done).
  rewrite Ev. unfold header_at. rewrite Hm. cbn [mbind option_bind]. cbv zeta.
  destruct (r_valid (new_shared_reader abs (sub kHeaderSize))); [|done]. eexists. split; [done|]. by symmetry.
Qed.

Section hits.
Context (bld : mulhi_build) {C : Type} `{!RamCacheOps C}.

Lemma hit_candidate_skips file s key id x cls target : stripe_ok (ss_stripe s) -> 0 <= DirEntry.offset x -> ~ claims bld file s key x cls ->
  hit_candidate (ss_stripe s) file (stripe_snapshot bld s) key id x cls target = (true, target).
Proof.
  intros Hs Hx Hn. pose proof (so_offset _ Hs). unfold hit_candidate. destruct (map_region file _ (approx_size x)) as [data|] eqn:Em; [|done].
  apply region_header in Em; [|lia|apply approx_size_min]. cbv zeta in Em. destruct (r_valid _) eqn:Ev; cbn [negb]; [|done].
  destruct Em as (r' & Hh & Ed). case_bool_decide as Ek; [|done]. destruct (stamp_admits _ _ _ _) eqn:Est; [|done].
  destruct (entry_binds _ _) eqn:Eb; [|done]. destruct Hn. exists r'. unfold r_first_key in *. by rewrite Ed.
Qed.

Lemma hit_candidate_head file s key id e a after before target : stripe_state_ok file s ->
  stored file (ss_stripe s) (stripe_snapshot bld s) key a -> leads bld file s key before e after a ->
  hit_candidate (ss_stripe s) file (stripe_snapshot bld s) key id e kCurrent target =
    (false, match find_alternate kMaxChainTraversalDepth (ss_stripe s) file (stripe_snapshot bld s) id (al_offset a) kCurrent None None with
            | FTarget _ abs _ => abs | _ => target end).
Proof.
  intros Hok Ha Hl. pose proof (sk_stripe _ _ Hok) as Hs. pose proof (snapshot_cursor_le bld s Hs) as Hc.
  pose proof (stored_range _ _ _ Hs Hc file a Ha) as Hr. pose proof (so_offset _ Hs). pose proof (sk_file _ _ Hok).
  unfold hit_candidate. rewrite <- (ld_offset _ _ _ _ _ _ _ _ Hl).
  pose proof (approx_size_min e) as Hmin. pose proof (ld_mapped _ _ _ _ _ _ _ _ Hl) as Hm.
  rewrite map_region_eq by (unfold kHeaderSize in *; lia).
  pose proof (region_header file (al_offset a) (approx_size e) _ ltac:(lia) Hmin (map_region_eq file (al_offset a) (approx_size e) ltac:(lia) ltac:(unfold kHeaderSize in *; lia) Hm)) as Hreg.
  destruct (stored_header_at _ _ _ Hs Hc file a Ha) as (r & Hh & Ed); [unfold al_end in *; lia|]. cbv zeta in Hreg.
  destruct (r_valid _); [|congruence]. destruct Hreg as (r' & Hh' & Ed'). rewrite Hh in Hh'. injection Hh' as ->. cbn [negb].
  unfold r_first_key. rewrite <- Ed', Ed, (bool_decide_true _ (sd_key _ _ _ _ _ Ha)), (sd_stamp _ _ _ _ _ Ha), (ld_binds _ _ _ _ _ _ _ _ Hl). done.
Qed.

Lemma subspan_subspan {A} (l : list A) abs n off m : (off + m <= n)%nat -> subspan (subspan l abs n) off m = subspan l (abs + off) m.
Proof. intros H. unfold subspan. rewrite skipn_firstn_comm, take_take, drop_drop. f_equal. lia. Qed.

(** The count in the file is the alternate's. *)
Lemma stored_hit_count file s snap key a : stored file s snap key a ->
  le_val (subspan file (Z.to_nat (al_offset a) + kHitCountOffset) 4) = hit_count (al_doc a).
Proof.
  intros [Hw _ _ _ _ _ Hb]. pose proof (length_al_bytes a Hw) as Hl. pose proof (wh_len _ _ _ Hw) as Hl'.
  rewrite <- (subspan_subspan file _ (length (al_bytes a))) by (assert (kHitCountOffset + 4 <= 132)%nat by (vm_compute; lia); lia). rewrite Hb.
  pose proof (deserialize_serialize (al_doc a) (al_header a ++ al_content a) ltac:(apply Hw)) as Ed. apply (f_equal hit_count) in Ed.
  rewrite <- Ed. fold (al_bytes a). unfold Document.deserialize. destruct (Nat.ltb_spec (length (al_bytes a)) kHeaderSize) as [Hlt|]; [unfold kHeaderSize in Hlt; lia|done].
Qed.

(** The alternate with [delta] more hits, the last one at [la]. *)
Definition bumped (a : Alternate) (delta la : Z) : Alternate :=
  with_doc a (with_hits (al_doc a) (Z.min (2 ^ 32 - 1) (hit_count (al_doc a) + delta)) la).

Lemma store_hits_edit file s key a delta la : stripe_state_ok file s -> stored file (ss_stripe s) (stripe_snapshot bld s) key a ->
  0 <= delta < 2 ^ 32 -> - 2 ^ 63 <= la < 2 ^ 63 ->
  edit file (store_hits (al_offset a) delta la file) a (al_doc (bumped a delta la)).
Proof.
  intros Hok Ha Hd Hl. pose proof (sd_whole _ _ _ _ _ Ha) as Hw. pose proof (wh_doc _ _ _ Hw) as Hdoc.
  pose proof Hdoc as (_ & _ & (Hfs & Hws & _ & _ & _ & Hh) & (Hna & Hla & _)).
  unfold store_hits. rewrite (stored_hit_count file _ _ _ a Ha).
  set (hc := if delta <=? 2 ^ 32 - 1 - hit_count (al_doc a) then hit_count (al_doc a) + delta else 2 ^ 32 - 1).
  assert (hc = Z.min (2 ^ 32 - 1) (hit_count (al_doc a) + delta)) as E by (unfold hc; destruct (Z.leb_spec delta (2 ^ 32 - 1 - hit_count (al_doc a))); lia).
  assert (fits 32 hc) as Hhc by (rewrite E; unfold fits in *; lia).
  apply (write_at_edit bld file s key Hok a _ [(kHitCountOffset, le_bytes 4 hc); (kLastAccessOffset, le_bytes 8 (u64 la))]); [done| | |].
  - cbn [al_doc bumped with_doc]. rewrite <- E. exists hc, (next_alternate_offset (al_doc a)), la. done.
  - repeat constructor; cbn [fst snd]; rewrite length_le_bytes; unfold kHitCountOffset, kLastAccessOffset; lia.
  - cbn [fold_left fst snd al_doc bumped with_doc]. rewrite <- E. by apply write_hits.
Qed.

Lemma hit_probe file s key id l a : stripe_state_ok file s -> holds bld file s key l -> hd_error l = Some a ->
  fst (probe_each (ss_stripe s) (stripe_snapshot bld s) (hit_candidate (ss_stripe s) file (stripe_snapshot bld s) key id) (candidates s key) 0 []) =
    match find_alternate kMaxChainTraversalDepth (ss_stripe s) file (stripe_snapshot bld s) id (al_offset a) kCurrent None None with
    | FTarget _ abs _ => abs | _ => 0 end.
Proof.
  intros Hok [(before & e & after & a' & Ehd & Hl) Hst _ _] Ea. rewrite Ea in Ehd. injection Ehd as <-.
  assert (Ha : stored file (ss_stripe s) (stripe_snapshot bld s) key a) by (destruct l; [done|]; injection Ea as ->; by apply Forall_cons in Hst as [? _]).
  rewrite (ld_split _ _ _ _ _ _ _ _ Hl).
  edestruct (probe_each_stop (ss_stripe s) (stripe_snapshot bld s) (hit_candidate (ss_stripe s) file (stripe_snapshot bld s) key id) before e after 0)
    as [rj ->]; [| | |done].
  - intros x cls Hx. apply hit_candidate_skips; [apply Hok| |by eapply ld_before].
    apply elem_of_admitted in Hx as [Hx _]. eapply candidate_offset; [exact Hok|]. rewrite (ld_split _ _ _ _ _ _ _ _ Hl). apply elem_of_app. by left.
  - by rewrite (ld_current _ _ _ _ _ _ _ _ Hl).
  - rewrite (ld_current _ _ _ _ _ _ _ _ Hl). by eapply hit_candidate_head.
Qed.

(** An id the key does not hold is reported, and nothing is stored. *)
Lemma update_hits_missing key id delta la (v : Volume (C := C)) i s l : select_stripe v key = Some (i, s) -> ss_owned s = true ->
  stripe_state_ok (v_file v) s -> holds bld (v_file v) s key l -> Forall (fun x => al_id x <> id) l ->
  update_hit_count_sync bld key id delta la v = (inl EAlternateNotFound, v).
Proof.
  intros Hsel Hown Hok Hh Hid. pose proof Hh as [(before & e & after & a & Ehd & _) Hst Hlk Hlen].
  unfold update_hit_count_sync. rewrite Hsel, Hown. cbn [negb]. rewrite (hit_probe _ _ _ _ l a) by done.
  destruct l as [|a' l]; [done|]. injection Ehd as ->.
  rewrite (find_linked_none _ _ key (sk_stripe _ _ Hok) (snapshot_cursor_le bld s (sk_stripe _ _ Hok)) _ (sk_file _ _ Hok) id _ None None a l) by done. done.
Qed.

Lemma update_hits_holds key id delta la (v : Volume (C := C)) i s pre t post : select_stripe v key = Some (i, s) -> ss_owned s = true ->
  stripe_state_ok (v_file v) s -> holds bld (v_file v) s key (pre ++ t :: post) -> apart bld s key (pre ++ t :: post) ->
  Forall (fun x => al_id x <> id) pre -> al_id t = id -> 0 <= delta < 2 ^ 32 -> - 2 ^ 63 <= la < 2 ^ 63 ->
  exists file', update_hit_count_sync bld key id delta la v = (inr tt, set_file v file') /\ length file' = length (v_file v) /\
    holds bld file' s key (pre ++ bumped t delta la :: post).
Proof.
  intros Hsel Hown Hok Hh Hap Hpre Hid Hd Hla. pose proof Hh as [(before & e & after & a & Ehd & _) Hst Hlk Hlen].
  pose proof (sk_stripe _ _ Hok) as Hs. pose proof (snapshot_cursor_le bld s Hs) as Hc. pose proof (so_offset _ Hs).
  pose proof Hst as [_ [Ht _]%Forall_cons]%Forall_app. pose proof (stored_range _ _ _ Hs Hc _ t Ht) as Hr.
  pose proof (store_hits_edit _ s key t delta la Hok Ht Hd Hla) as He.
  exists (store_hits (al_offset t) delta la (v_file v)).
  unfold update_hit_count_sync. rewrite Hsel, Hown. cbn [negb]. rewrite (hit_probe _ _ _ _ (pre ++ t :: post) a) by done.
  rewrite (find_linked _ _ key Hs Hc _ (sk_file _ _ Hok) id pre t post _ None None a) by done.
  rewrite (proj2 (Z.eqb_neq _ _)) by lia. pose proof (sk_file _ _ Hok). unfold al_end in *.
  rewrite map_region_eq by (unfold kHeaderSize; lia). rewrite <- Hid, (rmw_stored bld _ s key Hok _ t) by done.
  split; [done|]. split; [apply He|]. apply (edit_holds bld _ s key Hok _ pre t post _ post); [done|done|exact He|done|].
  apply linked_same; [apply He|done|]. by eapply linked_app_r.
Qed.
End hits.

(** ** Removing an alternate *)

Section heads.
Context (bld : mulhi_build) (file : list Z) (s : StripeState) (key : CacheKey).
Local Abbreviation st := (ss_stripe s).
Local Abbreviation snap := (stripe_snapshot bld s).
Local Abbreviation step := (fun a c => snd (head_candidate st file snap key c.1 c.2 a)).

Lemma head_step_seen acc x cls : ha_seen (step acc (x, cls)) = add_offset (ha_seen acc) (DirEntry.offset x).
Proof. unfold head_candidate. cbn [fst snd]. repeat case_match; done. Qed.

Lemma head_step_some acc x cls h : ha_head acc = Some h -> ha_head (step acc (x, cls)) = Some h.
Proof. intros E. unfold head_candidate. cbn [fst snd]. by rewrite E. Qed.

Lemma head_step_skip acc x cls : ha_head acc = None -> ~ claims bld file s key x cls -> ha_head (step acc (x, cls)) = None.
Proof.
  intros E Hn. unfold head_candidate. cbn [fst snd]. rewrite E. destruct (header_at _ _) as [r|] eqn:Er; [|done].
  case_bool_decide as Ek; [|done]. destruct (stamp_admits _ _ _ _) eqn:Est; [|done]. destruct (entry_binds _ _) eqn:Eb; [|done].
  destruct Hn. by exists r.
Qed.

Lemma head_step_claims acc x cls : ha_head acc = None -> claims bld file s key x cls -> ha_head (step acc (x, cls)) = Some (DirEntry.offset x, cls).
Proof.
  intros E (r & Hh & Hk & Hst & Hb). unfold head_candidate. cbn [fst snd]. by rewrite E, Hh, (bool_decide_true _ Hk), Hst, Hb.
Qed.

Lemma head_fold_some l acc h : ha_head acc = Some h -> ha_head (fold_left step l acc) = Some h.
Proof. revert acc. induction l as [|[x c] l IH]; intros acc E; [done|]. cbn [fold_left]. apply IH. by apply head_step_some. Qed.

Lemma head_fold_skip l acc : ha_head acc = None -> (forall x cls, (x, cls) ∈ l -> ~ claims bld file s key x cls) -> ha_head (fold_left step l acc) = None.
Proof.
  revert acc. induction l as [|[x c] l IH]; intros acc E Hl; [done|]. cbn [fold_left]. apply IH.
  - apply head_step_skip; [done|]. apply Hl. by left.
  - intros y d Hy. apply Hl. by right.
Qed.

(** The probe records every admitted candidate. *)
Lemma head_fold_seen l acc : (length (ha_seen acc) + length l <= kEntriesPerBucket)%nat ->
  forall off, off ∈ ha_seen (fold_left step l acc) <-> off ∈ ha_seen acc \/ exists x cls, (x, cls) ∈ l /\ DirEntry.offset x = off.
Proof.
  revert acc. induction l as [|[x c] l IH]; intros acc Hl off; cbn [fold_left length] in *.
  - split; [by left|]. intros [|(? & ? & []%elem_of_nil & _)]; done.
  - pose proof (length_add_offset (ha_seen acc) (DirEntry.offset x)) as Hlen.
    rewrite IH by (rewrite head_step_seen; lia). rewrite head_step_seen, elem_of_add_offset by lia. split.
    + intros [[| ->]|(y & d & Hy & E)]; [by left|right; exists x, c; split; [by left|done]|right; exists y, d; split; [by right|done]].
    + intros [|(y & d & [[= -> ->]|Hy]%elem_of_cons & E)]; [by left; left|left; right; done|right; by exists y, d].
Qed.

Lemma admitted_app l1 l2 : admitted st snap (l1 ++ l2) = admitted st snap l1 ++ admitted st snap l2.
Proof. unfold admitted. by rewrite omap_app. Qed.

Lemma leads_claims before e after a : stripe_state_ok file s -> stored file st snap key a -> leads bld file s key before e after a ->
  claims bld file s key e kCurrent.
Proof.
  intros Hok Ha Hl. pose proof (sk_stripe _ _ Hok) as Hs. pose proof (snapshot_cursor_le bld s Hs) as Hc.
  destruct (stored_header_at st snap key Hs Hc file a Ha) as (r & Hh & Ed); [eapply stored_end; try done; apply Hok|].
  exists r. rewrite <- (ld_offset _ _ _ _ _ _ _ _ Hl). unfold r_first_key. rewrite Ed. split; [done|].
  split; [apply Ha|]. split; [apply Ha|apply Hl].
Qed.

Lemma head_probe before e after a : stripe_state_ok file s -> stored file st snap key a -> leads bld file s key before e after a ->
  let acc := fst (probe_each st snap (head_candidate st file snap key) (candidates s key) {| ha_head := None; ha_seen := [] |} []) in
  ha_head acc = Some (DirEntry.offset e, kCurrent) /\
  forall x cls, (x, cls) ∈ admitted st snap (candidates s key) -> DirEntry.offset x ∈ ha_seen acc.
Proof.
  intros Hok Ha Hl. cbv zeta. rewrite probe_each_fold by done. split.
  - rewrite (ld_split _ _ _ _ _ _ _ _ Hl), admitted_app. cbn [admitted omap list_omap]. rewrite (ld_current _ _ _ _ _ _ _ _ Hl).
    rewrite fold_left_app. cbn [fold_left]. apply head_fold_some. apply head_step_claims.
    + apply head_fold_skip; [done|]. intros x cls Hx. by eapply ld_before.
    + by eapply leads_claims.
  - intros x cls Hx. apply head_fold_seen; [|right; by exists x, cls]. cbn [length ha_seen].
    etransitivity; [apply length_admitted|]. apply length_candidates, Hok.
Qed.
End heads.

Section removal.
Context (bld : mulhi_build) {C : Type} `{!RamCacheOps C, !RamCacheLaws C}.

Lemma store_next_edit file s key p link : stripe_state_ok file s -> stored file (ss_stripe s) (stripe_snapshot bld s) key p -> fits 64 link ->
  edit file (store_next (al_offset p) link file) p (with_next (al_doc p) link).
Proof.
  intros Hok Hp Hl. pose proof (wh_doc _ _ _ (sd_whole _ _ _ _ _ Hp)) as Hdoc. pose proof Hdoc as (_ & _ & (_ & _ & _ & _ & _ & Hh) & (_ & Hla & _)).
  apply (write_at_edit bld file s key Hok p _ [(kNextAlternateOffsetPos, le_bytes 8 link)]); [done| | |].
  - exists (hit_count (al_doc p)), link, (last_access (al_doc p)). done.
  - repeat constructor; cbn [fst snd]; rewrite length_le_bytes; unfold kNextAlternateOffsetPos; lia.
  - cbn [fold_left fst snd]. by apply write_next.
Qed.

(** [p] as the removal of the alternate [t] after it leaves it. *)
Definition relinked (p t : Alternate) : Alternate := with_doc p (with_next (al_doc p) (al_next t)).

Lemma drop_alternate key id c : rc_ok c -> exists c', (snd <$> rc_remove (alternate_key key id) c) = Some c' /\ rc_ok c' /\
  rc_contents c' = delete (alternate_key key id) (rc_contents c).
Proof. intros Hc. destruct (rc_remove_spec (alternate_key key id) c Hc) as (b & c' & -> & Hok & Hm & _). exists c'. done. Qed.

Lemma holds_epoch file s key l : holds bld file s key l -> holds bld file (bump_remove_epoch s) key l.
Proof.
  intros [(b & e & a & x & E & [H1 H2 H3 H4 H5 H6]) Hst Hlk Hlen]. split; [|exact Hst|exact Hlk|exact Hlen].
  exists b, e, a, x. split; [exact E|]. split; [exact H1|exact H2|exact H3|exact H4|exact H5|exact H6].
Qed.

Lemma invalidate_holds key id i s1 file1 (v : Volume (C := C)) s l : volume_ok v -> select_stripe v key = Some (i, s) ->
  stripe_state_ok file1 s1 -> length file1 = length (v_file v) -> holds bld file1 s1 key l ->
  exists v' s', invalidate_ram (fun c => snd <$> rc_remove (alternate_key key id) c) i s1 (set_file v file1) = Some v' /\ volume_ok v' /\
    select_stripe v' key = Some (i, s') /\ holds bld (v_file v') s' key l /\ length (v_file v') = length (v_file v).
Proof.
  intros Hv Hsel Hok Hlen Hh. assert (Hv1 : volume_ok (set_file v file1)) by (apply volume_ok_file; [done|lia]).
  destruct (invalidate_ram_spec _ i s1 (set_file v file1) _ Hv1 Hok (drop_alternate key id)) as (v' & s' & E & Hv' & Est & Es' & Ef & _).
  exists v', s'. split; [done|]. split; [done|]. split; [|split].
  - eapply select_stripe_insert; [|exact Est]. done.
  - rewrite Ef. destruct Es' as [->| ->]; [exact Hh|by apply holds_epoch].
  - rewrite Ef. done.
Qed.

Lemma remove_middle_holds key id (v : Volume (C := C)) i s pre p t post : volume_ok v -> select_stripe v key = Some (i, s) -> ss_owned s = true ->
  holds bld (v_file v) s key (pre ++ p :: t :: post) -> apart bld s key (pre ++ p :: t :: post) ->
  Forall (fun x => al_id x <> id) (pre ++ [p]) -> al_id t = id ->
  exists v' s', remove_alternate_sync bld key id v = Some (inr tt, v') /\ volume_ok v' /\ select_stripe v' key = Some (i, s') /\
    holds bld (v_file v') s' key (pre ++ relinked p t :: post) /\ length (v_file v') = length (v_file v).
Proof.
  intros Hv Hsel Hown Hh Hap Hpre Hid. pose proof (vo_stripes _ Hv _ _ (select_stripe_lookup v key i s Hsel)) as Hok.
  pose proof (sk_stripe _ _ Hok) as Hs. pose proof (snapshot_cursor_le bld s Hs) as Hc. pose proof (so_offset _ Hs). pose proof (sk_file _ _ Hok).
  pose proof Hh as [(before & e & after & a & Ehd & Hl) Hst Hlk Hlen].
  assert (Ha : stored (v_file v) (ss_stripe s) (stripe_snapshot bld s) key a).
  { destruct pre; injection Ehd as <-; cbn [app] in Hst; by apply Forall_cons in Hst as [? _]. }
  pose proof Hst as [_ [Hp [Ht _]%Forall_cons]%Forall_cons]%Forall_app. pose proof (stored_range _ _ _ Hs Hc _ p Hp) as Hrp.
  pose proof (wh_doc _ _ _ (sd_whole _ _ _ _ _ Ht)) as Htd.
  pose proof (store_next_edit _ s key p (al_next t) Hok Hp ltac:(apply Htd)) as He.
  assert (Hh' : holds bld (store_next (al_offset p) (al_next t) (v_file v)) s key (pre ++ relinked p t :: post)).
  { apply (edit_holds bld _ s key Hok _ pre p (t :: post) _ post); [done|done|exact He|by exists [t]|].
    apply (linked_drop _ p t); [|apply He|done|by eapply linked_app_r].
    apply Forall_app in Hst as [_ Hst]. by eapply (stored_len_nonneg bld _ s key Hok). }
  destruct (invalidate_holds key id i s _ v s _ Hv Hsel (state_ok_file _ _ _ Hok ltac:(rewrite (ed_length _ _ _ _ He); lia)) (ed_length _ _ _ _ He) Hh')
    as (v' & s' & Ei & Hrest).
  exists v', s'. split; [|exact Hrest].
  unfold remove_alternate_sync. rewrite Hsel, Hown. cbn [negb]. change kMaxRepointRetries with (S 7). generalize 7%nat. intros n. cbn [remove_alternate_rounds].
  destruct (head_probe bld (v_file v) s key before e after a Hok Ha Hl) as [-> _]. rewrite <- (ld_offset _ _ _ _ _ _ _ _ Hl).
  replace (pre ++ p :: t :: post) with ((pre ++ [p]) ++ t :: post) in * by by rewrite <- app_assoc.
  rewrite (find_linked _ _ key Hs Hc _ (sk_file _ _ Hok) id (pre ++ [p]) t post _ None None a) by done. rewrite last_snoc.
  unfold repoint_chain_link. unfold al_end in *. rewrite map_region_eq by (unfold kHeaderSize; lia).
  rewrite (rmw_stored bld _ s key Hok _ p _ eq_refl Hp). rewrite Ei. done.
Qed.

Lemma stored_below_cursor file s key a : stripe_ok (ss_stripe s) -> stored file (ss_stripe s) (stripe_snapshot bld s) key a ->
  al_end a <= current_write_cursor (ss_stripe s) (ss_log s).
Proof.
  intros Hs Ha. pose proof (stored_range _ _ _ Hs (snapshot_cursor_le bld s Hs) file a Ha) as Hr. pose proof (sd_cursor _ _ _ _ _ Ha) as Hc.
  unfold stripe_snapshot, snapshot in Hc. cbn [snap_cursor_rel] in Hc. unfold al_end in *. case_match; lia.
Qed.

(** The successor takes over the entry of a removed head. *)
Lemma republish_holds file s key before e after a b post seen :
  let r := @insert_admitted _ (stripe_admission bld) (ss_dir s) key (al_offset b - st_offset (ss_stripe s)) (len (al_doc b)) (DirEntry.offset e)
             (admission bld s) [] (Some seen) (Document.fill_serial (al_doc b)) in
  stripe_state_ok file s -> ws_gen (ss_log s) < 2 ^ 64 -> leads bld file s key before e after a ->
  Forall (stored file (ss_stripe s) (stripe_snapshot bld s) key) (a :: b :: post) -> mappable file a ->
  linked (ss_stripe s) (a :: b :: post) -> (length (b :: post) <= kMaxChainTraversalDepth)%nat ->
  (forall x cls, (x, cls) ∈ admitted (ss_stripe s) (stripe_snapshot bld s) (candidates s key) -> DirEntry.offset x ∈ seen) ->
  ir_stale r = false /\ stripe_state_ok file (set_dir s (ir_dir r)) /\ holds bld file (set_dir s (ir_dir r)) key (b :: post).
Proof.
  intros r Hok Hgen Hl Hst Hmp Hlk Hlen Hseen. pose proof (sk_stripe _ _ Hok) as Hs. pose proof (snapshot_cursor_le bld s Hs) as Hc.
  pose proof (so_offset _ Hs). pose proof (so_size _ Hs). pose proof Hst as [Ha [Hb _]%Forall_cons]%Forall_cons.
  destruct (stored_range _ _ _ Hs Hc _ b Hb) as (Hrb & Hsb & Heb & _ & _ & Hlb).
  pose proof (stored_below_cursor _ _ _ _ Hs Hb) as Hcb. unfold al_end in *.
  pose proof (sd_whole _ _ _ _ _ Hb) as Hw. assert (Hdl : len (al_doc b) < 2 ^ 32) by apply (wh_doc _ _ _ Hw).
  set (P := fun x => ~ claims bld file s key x (admit_position (ss_stripe s) (DirEntry.offset x) (phase x) (stripe_snapshot bld s))).
  destruct (insert_leads bld file s key (DirEntry.offset e) seen [] P (al_offset b - st_offset (ss_stripe s)) (len (al_doc b)) (Document.fill_serial (al_doc b)))
    as (_ & Hstale & Hok' & before' & e' & after' & Hcand & Ho & Hfs & Hph & Hap & _ & Hothers); try done; try lia; [| |apply Hw|].
  { right. exists e. split; [|done]. rewrite (ld_split _ _ _ _ _ _ _ _ Hl). apply elem_of_app. right. by left. }
  { intros x cls (Hx & -> & Hn)%elem_of_admitted. rewrite (ld_split _ _ _ _ _ _ _ _ Hl) in Hx.
    apply elem_of_app in Hx. rewrite elem_of_cons in Hx. destruct Hx as [Hx|[->|Hx]]; [|by right; left|];
      (right; right; apply (ld_others _ _ _ _ _ _ _ _ Hl), elem_of_admitted; split; [|done]; apply elem_of_app; tauto). }
  split; [done|]. split; [done|]. cbn [linked] in Hlk. destruct Hlk as (_ & Hlt & Hlk). unfold al_end, mappable in *.
  assert (kInitialMapSize = 65668) as Ek by reflexivity.
  split; [|by apply Forall_cons in Hst as [_ Hst]|exact Hlk|exact Hlen].
  exists before', e', after', b. split; [done|]. split.
  - exact Hcand.
  - intros x cls Hx Hcl. pose proof Hx as (_ & Ecls & _)%elem_of_admitted. apply (Hothers x cls Hx). rewrite Ecls in Hcl. exact Hcl.
  - rewrite Ho, Hph, (sk_phase _ _ Hok). change (stripe_snapshot bld (set_dir s _)) with (stripe_snapshot bld s).
    cbn [ss_stripe set_dir]. apply position_current; [done|apply Hok|done|lia|lia].
  - cbn [ss_stripe set_dir]. lia.
  - unfold entry_binds. by rewrite Hfs, Z.eqb_refl.
  - lia.
Qed.

Lemma remove_head_holds key id (v : Volume (C := C)) i s t b post : volume_ok v -> select_stripe v key = Some (i, s) -> ss_owned s = true ->
  ws_gen (ss_log s) < 2 ^ 64 -> holds bld (v_file v) s key (t :: b :: post) -> mappable (v_file v) t -> al_id t = id ->
  exists v' s', remove_alternate_sync bld key id v = Some (inr tt, v') /\ volume_ok v' /\ select_stripe v' key = Some (i, s') /\
    holds bld (v_file v') s' key (b :: post) /\ length (v_file v') = length (v_file v).
Proof.
  intros Hv Hsel Hown Hgen Hh Hmp Hid. pose proof (vo_stripes _ Hv _ _ (select_stripe_lookup v key i s Hsel)) as Hok.
  pose proof (sk_stripe _ _ Hok) as Hs. pose proof (snapshot_cursor_le bld s Hs) as Hc. pose proof (so_offset _ Hs). pose proof (sk_file _ _ Hok).
  pose proof Hh as [(before & e & after & a & Ehd & Hl) Hst Hlk Hlen]. injection Ehd as <-.
  pose proof Hst as [Ht [Hb _]%Forall_cons]%Forall_cons. pose proof Hlk as (En & Hlt & _).
  destruct (link_to_hop _ _ key Hs Hc (v_file v) t b Ht Hb Hlt) as (El & Hbd & _ & Hhop). rewrite <- En in El, Hbd, Hhop.
  pose proof (stored_range _ _ _ Hs Hc _ b Hb) as Hrb. unfold al_end in *.
  destruct (head_probe bld (v_file v) s key before e after t Hok Ht Hl) as [Ehead Hseen].
  set (acc := fst (probe_each _ _ _ _ _ _)) in *.
  destruct (republish_holds (v_file v) s key before e after t b post (ha_seen acc) Hok Hgen Hl Hst Hmp Hlk ltac:(cbn in *; lia) Hseen) as (Hstale & Hok' & Hh').
  set (r := insert_admitted _ _ _ _ _ _ _ _ _) in *.
  destruct (invalidate_holds key id i (set_dir s (ir_dir r)) (v_file v) v s _ Hv Hsel Hok' eq_refl Hh') as (v' & s' & Ei & Hrest).
  exists v', s'. split; [|exact Hrest].
  unfold remove_alternate_sync. rewrite Hsel, Hown. cbn [negb]. change kMaxRepointRetries with (S 7). generalize 7%nat. intros n.
  cbn [remove_alternate_rounds]. fold acc. rewrite Ehead. rewrite <- (ld_offset _ _ _ _ _ _ _ _ Hl).
  rewrite (find_linked _ _ key Hs Hc _ (sk_file _ _ Hok) id [] t (b :: post) _ None None t) by done. cbn [last].
  assert (Hsucc : successor (ss_stripe s) (v_file v) (stripe_snapshot bld s) (DirEntry.offset e) kCurrent (al_next t) = inr (Some (len (al_doc b)))).
  { unfold successor. rewrite El in *. rewrite (proj2 (Z.eqb_neq _ _)) by lia.
    replace (al_offset t - st_offset (ss_stripe s)) with (DirEntry.offset e) in Hhop by (rewrite (ld_offset _ _ _ _ _ _ _ _ Hl); lia).
    rewrite Hhop. replace (st_offset (ss_stripe s) + (al_offset b - st_offset (ss_stripe s))) with (al_offset b) by lia.
    destruct (stored_header_at _ _ key Hs Hc (v_file v) b Hb) as (rb & Hrh & Ed); [unfold al_end; lia|].
    apply header_at_Some in Hrh as (data & -> & -> & Hvd). rewrite Hvd, Ed, Hbd. done. }
  rewrite Hsucc, not_wrapped. unfold bound_by_link in Hbd. apply Z.eqb_eq in Hbd.
  change (Build_StripeAdmission _ _ _ _) with (admission bld s). rewrite El, <- Hbd. fold r. rewrite Hstale.
  assert (Ev : set_file v (v_file v) = v) by by destruct v. rewrite Ev in Ei.
  rewrite Ei. done.
Qed.

(** The only alternate goes with its entry. *)
Lemma remove_last_clears key id (v : Volume (C := C)) i s t : volume_ok v -> select_stripe v key = Some (i, s) -> ss_owned s = true ->
  holds bld (v_file v) s key [t] -> al_id t = id ->
  exists v' s', remove_alternate_sync bld key id v = Some (inr tt, v') /\ volume_ok v' /\ select_stripe v' key = Some (i, s') /\
    forall x cls, (x, cls) ∈ admitted (ss_stripe s') (stripe_snapshot bld s') (candidates s' key) -> ~ claims bld (v_file v') s' key x cls.
Proof.
  intros Hv Hsel Hown Hh Hid. pose proof (vo_stripes _ Hv _ _ (select_stripe_lookup v key i s Hsel)) as Hok.
  pose proof (sk_stripe _ _ Hok) as Hs. pose proof (snapshot_cursor_le bld s Hs) as Hc.
  pose proof Hh as [(before & e & after & a & Ehd & Hl) Hst Hlk Hlen]. injection Ehd as <-. pose proof Hst as [Ht _]%Forall_cons.
  pose proof Hok as [_ _ _ Hdir Hph _ Hdis].
  set (d' := snd (remove_at (ss_dir s) key (DirEntry.offset e))).
  assert (Ed : d' = snd (remove_entries (ss_dir s) key [(DirEntry.offset e, true)])).
  { unfold d'. cbn [remove_entries]. by destruct (remove_at _ _ _). }
  destruct (remove_entries_spec key [(DirEntry.offset e, true)] (ss_dir s) Hdir) as (Hd' & Hb & Hp & Hsub & Hgone & _).
  rewrite <- Ed in Hd', Hb, Hp, Hsub, Hgone.
  assert (Hok' : stripe_state_ok (v_file v) (set_dir s d')).
  { change (stripe_state_ok (v_file v) (set_dir (set_log s (ss_log s)) d')). apply state_ok_log; try done; [apply Hok|congruence|].
    intros b j k x x' Hj Hk Hx Hx'. apply (Hdis b); try done; by apply Hsub. }
  destruct (invalidate_ram_spec _ i (set_dir s d') v _ Hv Hok' (drop_alternate key id)) as (v' & s' & E & Hv' & Est & Es' & Ef & _).
  exists v', s'. split; [|split; [done|split; [by eapply select_stripe_insert|]]].
  - unfold remove_alternate_sync. rewrite Hsel, Hown. cbn [negb]. change kMaxRepointRetries with (S 7). generalize 7%nat. intros n.
    cbn [remove_alternate_rounds]. destruct (head_probe bld (v_file v) s key before e after t Hok Ht Hl) as [-> _].
    rewrite <- (ld_offset _ _ _ _ _ _ _ _ Hl).
    rewrite (find_linked _ _ key Hs Hc _ (sk_file _ _ Hok) id [] t [] _ None None t) by done. cbn [last].
    unfold successor. cbn [linked] in Hlk. rewrite Hlk. cbn [Z.eqb]. fold d'. by rewrite E.
  - assert (Hno : forall x cls, (x, cls) ∈ admitted (ss_stripe s) (stripe_snapshot bld s) (candidates (set_dir s d') key) -> ~ claims bld (v_file v) s key x cls).
    { intros x cls (Hx & Hcl)%elem_of_admitted. apply elem_of_candidates in Hx as (Hx & Hne & Htg). cbn [ss_dir set_dir] in Hx. rewrite Hb in Hx.
      pose proof (Hgone x Hx Hne Htg) as Hne'. cbn in Hne'. rewrite list_elem_of_singleton in Hne'.
      apply (ld_others _ _ _ _ _ _ _ _ Hl), elem_of_admitted. split; [|done]. apply list_elem_of_lookup in Hx as (j & Hj).
      assert (Hin : x ∈ candidates s key) by (apply elem_of_candidates; split; [eapply list_elem_of_lookup_2; by apply Hsub|done]).
      rewrite (ld_split _ _ _ _ _ _ _ _ Hl), elem_of_app, elem_of_cons in Hin. apply elem_of_app. destruct Hin as [?|[->|?]]; [by left|done|by right]. }
    rewrite Ef. destruct Es' as [->| ->]; exact Hno.
Qed.

Lemma unclaimed_not_listed cfg key (v : Volume (C := C)) i s : 0 <= vc_max_read_retries cfg < 2 ^ 32 - 1 -> volume_ok v ->
  select_stripe v key = Some (i, s) ->
  (forall x cls, (x, cls) ∈ admitted (ss_stripe s) (stripe_snapshot bld s) (candidates s key) -> ~ claims bld (v_file v) s key x cls) ->
  list_alternates_sync bld cfg key v = Some (inl ENotFound, v).
Proof.
  intros Hr Hv Hsel Hno. pose proof (select_stripe_lookup v key i s Hsel) as Hi. pose proof (vo_stripes _ Hv _ _ Hi) as Hok.
  unfold list_alternates_sync. rewrite Hsel. destruct (read_fuel_pos cfg Hr) as (n & -> & E). cbn [retry_loop].
  rewrite E, (list_attempt_none bld i key v s); [done|done|]. intros x cls Hx. apply eq_None_not_Some. intros Hsome.
  apply (Hno x cls Hx). apply chain_head_claims; [apply Hok| |done]. apply elem_of_admitted in Hx as [Hx _]. by eapply candidate_offset.
Qed.

(** C17. Removing an alternate takes exactly it out of the key's list: of a key
    that holds [pre ++ t :: post], with [t] the first one of its id, the
    removal succeeds and listing then shows [pre ++ post], each with its
    header, length, hits and place unchanged; the key is not found when [t]
    was the only one.  The stripe is owned and max_read_retries below 2^32 - 1;
    [holds] is a chain of the current pass (of a chain
    retained from the previous one the code drops the whole entry), 64 KiB of
    file follow the start of each of its documents, and each entry admitted
    under the key's tag points at one of them or at a header clear of theirs
    ([apart]). *)
Theorem remove_alternate_removes cfg key id (v : Volume (C := C)) i s pre t post :
  readable_retries cfg -> volume_ok v -> select_stripe v key = Some (i, s) -> ss_owned s = true -> ws_gen (ss_log s) < 2 ^ 64 ->
  holds bld (v_file v) s key (pre ++ t :: post) -> apart bld s key (pre ++ t :: post) -> Forall (mappable (v_file v)) (pre ++ t :: post) ->
  Forall (fun x => al_id x <> id) pre -> al_id t = id ->
  exists v', remove_alternate_sync bld key id v = Some (inr tt, v') /\ volume_ok v' /\
    list_alternates_sync bld cfg key v' = Some (match pre ++ post with [] => inl ENotFound | l => inr (al_info <$> l) end, v').
Proof.
  intros Hr Hv Hsel Hown Hgen Hh Hap Hmp Hpre Hid.
  assert (Hlist : forall (v' : Volume (C := C)) s' l, volume_ok v' -> select_stripe v' key = Some (i, s') -> holds bld (v_file v') s' key l ->
    length (v_file v') = length (v_file v) -> Forall (mappable (v_file v)) l -> list_alternates_sync bld cfg key v' = Some (inr (al_info <$> l), v')).
  { intros v' s' l Hv' Hsel' Hh' Hlen Hm. eapply holds_lists; [exact Hr|exact Hsel'| |exact Hh'|].
    - eapply vo_stripes; [exact Hv'|by eapply select_stripe_lookup].
    - eapply Forall_impl; [exact Hm|]. intros a. unfold mappable. by rewrite Hlen. }
  destruct pre as [|p pre _] using rev_ind; [destruct post as [|b post]|].
  - destruct (remove_last_clears key id v i s t Hv Hsel Hown Hh Hid) as (v' & s' & E & Hv' & Hsel' & Hno).
    exists v'. split; [done|]. split; [done|]. by eapply unclaimed_not_listed.
  - apply Forall_cons in Hmp as [Hmt Hmp]. destruct (remove_head_holds key id v i s t b post Hv Hsel Hown Hgen Hh Hmt Hid) as (v' & s' & E & Hv' & Hsel' & Hh' & Hlen).
    exists v'. split; [done|]. split; [done|]. by eapply (Hlist v' s' (b :: post)).
  - rewrite <- app_assoc in *. cbn [app] in *. destruct (remove_middle_holds key id v i s pre p t post Hv Hsel Hown Hh Hap Hpre Hid) as (v' & s' & E & Hv' & Hsel' & Hh' & Hlen).
    exists v'. split; [done|]. split; [done|]. rewrite (Hlist v' s' _ Hv' Hsel' Hh' Hlen).
    + rewrite fmap_app. destruct (pre ++ p :: post) eqn:El; [by destruct pre|]. rewrite <- El, fmap_app. done.
    + apply Forall_app in Hmp as [H1 H2]. apply Forall_app. split; [done|]. apply Forall_cons in H2 as [H2 H3]. apply Forall_cons in H3 as [_ H3]. by constructor.
Qed.

(** A hit-count update shows in the listing and nowhere else: the first
    alternate with the id has [delta] more hits (at most 2^32 - 1) and the new
    time of access, every other one is as before, headers and contents
    included. *)
Theorem update_hits_listed cfg key id delta la (v : Volume (C := C)) i s pre t post :
  readable_retries cfg -> volume_ok v -> select_stripe v key = Some (i, s) -> ss_owned s = true ->
  holds bld (v_file v) s key (pre ++ t :: post) -> apart bld s key (pre ++ t :: post) -> Forall (mappable (v_file v)) (pre ++ t :: post) ->
  Forall (fun x => al_id x <> id) pre -> al_id t = id -> 0 <= delta < 2 ^ 32 -> - 2 ^ 63 <= la < 2 ^ 63 ->
  exists v', update_hit_count_sync bld key id delta la v = (inr tt, v') /\ v_stripes v' = v_stripes v /\
    holds bld (v_file v') s key (pre ++ bumped t delta la :: post) /\
    list_alternates_sync bld cfg key v' = Some (inr (al_info <$> pre ++ bumped t delta la :: post), v').
Proof.
  intros Hr Hv Hsel Hown Hh Hap Hmp Hpre Hid Hd Hla. pose proof (vo_stripes _ Hv _ _ (select_stripe_lookup v key i s Hsel)) as Hok.
  destruct (update_hits_holds bld key id delta la v i s pre t post Hsel Hown Hok Hh Hap Hpre Hid Hd Hla) as (file' & E & Hlen & Hh').
  eexists. split; [exact E|]. split; [done|]. split; [exact Hh'|]. eapply holds_lists; [exact Hr|exact Hsel| |exact Hh'|].
  - eapply state_ok_file; [exact Hok|]. cbn [v_file set_file]. lia.
  - assert (Hm : forall l, Forall (mappable (v_file v)) l -> Forall (mappable (v_file (set_file v file'))) l).
    { intros l Hl. eapply Forall_impl; [exact Hl|]. intros a. unfold mappable. cbn [v_file set_file]. by rewrite Hlen. }
    apply Hm in Hmp. apply Forall_app in Hmp as [H1 H2]. apply Forall_app. split; [done|]. apply Forall_cons in H2 as [H2 H3]. by constructor.
Qed.
End removal.
