(* ===== verification/AlternateWrite.v ===== *)
(** * Writing an alternate (src/src/core/volume.cpp)

    A new alternate becomes the head of the key's chain: its document links to
    what the chain held, past the copies of the same id it supersedes, and the
    directory entry is moved to it.  Superseded copies further down are spliced
    out after the publish.  A chain of the previous pass is not linked but
    copied into the same slot, below the new head.

    As in Volume.v, one process; the stale publishes of other processes are
    modelled as far as this process notices them. *)

From S2P Require Import Prelude Key Document DirEntry Directory Geometry Stripe WriteLog RamCache Volume Alternates.
Local Open Scope cyc_scope.

(** ** Resolving the chain *)

Record HeadCandidate := { hc_rel : Z; hc_cls : AdmitClass; hc_live : bool; hc_serial : Z }.

(** The probe's callback: every entry is recorded, the key's own as
    candidates. *)
Definition head_entry (s : Stripe) (file : list Z) (snap : StripeSnapshot) (key : CacheKey) (e : DirEntry) (cls : AdmitClass)
    (acc : list HeadCandidate * list Z) : bool * (list HeadCandidate * list Z) :=
  let '(heads, seen) := acc in
  let seen := add_offset seen (DirEntry.offset e) in
  if existsb (fun h => hc_rel h =? DirEntry.offset e) heads then (true, (heads, seen))
  else
    match header_at file (st_offset s + DirEntry.offset e) with
    | None => (true, (heads, seen))
    | Some reader =>
        if bool_decide (r_first_key reader = key) && (length heads <? kEntriesPerBucket)%nat
        then (true, (heads ++ [{| hc_rel := DirEntry.offset e; hc_cls := cls;
                                  hc_live := stamp_admits s snap cls (r_doc reader) && entry_binds e (r_doc reader);
                                  hc_serial := DirEntry.fill_serial e |}], seen))
        else (true, (heads, seen))
    end.

Definition is_current (cls : AdmitClass) : bool := match cls with kCurrent => true | _ => false end.

(** The elected head: the first live one, a current one before a retained. *)
Fixpoint elect_head (i : nat) (l : list HeadCandidate) (elected : option (nat * HeadCandidate)) : option (nat * HeadCandidate) :=
  match l with
  | [] => elected
  | h :: l =>
      elect_head (S i) l
        (if hc_live h && match elected with None => true | Some (_, o) => is_current (hc_cls h) && negb (is_current (hc_cls o)) end
         then Some (i, h) else elected)
  end.

Definition others (heads : list HeadCandidate) (elected : option (nat * HeadCandidate)) : list Z :=
  omap id (imap (fun i h => match elected with
                            | Some (j, _) => if (i =? j)%nat then None else Some (hc_rel h)
                            | None => Some (hc_rel h) end) heads).

(** A node of the chain as the writer keeps it. *)
Record ChainNode := { cn_rel : Z; cn_next_rel : Z; cn_link : Z; cn_len : Z; cn_id : Z; cn_cls : AdmitClass }.

(** [fully]: the walk saw the end of the visible chain; [cut]: it was stopped
    by the depth or by a cycle. *)
Record ChainWalk := { cw_nodes : list ChainNode; cw_fully : bool; cw_cycle : bool; cw_cut : bool }.

Definition chain_walk (nodes : list ChainNode) (fully cycle cut : bool) : ChainWalk :=
  {| cw_nodes := nodes; cw_fully := fully; cw_cycle := cycle; cw_cut := cut |}.

Fixpoint walk_nodes (depth : nat) (s : Stripe) (file : list Z) (snap : StripeSnapshot) (rel : Z) (cls : AdmitClass)
    (followed : option Z) (nodes : list ChainNode) : ChainWalk :=
  let current := st_offset s + rel in
  if current =? 0 then chain_walk nodes false false false
  else
    match depth with
    | O => chain_walk nodes false false true
    | S depth =>
        if existsb (fun n => cn_rel n =? rel) nodes then chain_walk nodes false true true
        else
          match header_at file current with
          | None => chain_walk nodes false false false
          | Some reader =>
              let doc := r_doc reader in
              if negb (stamp_admits s snap cls doc) || negb (followed_ok followed doc) then chain_walk nodes true false false
              else
                let next_link := next_alternate_offset doc in
                let next := link_offset next_link in
                let nodes := nodes ++ [{| cn_rel := rel; cn_next_rel := next; cn_link := link_to doc rel; cn_len := len doc;
                                          cn_id := Document.alternate_id doc; cn_cls := cls |}] in
                if next =? 0 then chain_walk nodes true false false
                else
                  match admit_hop s next rel cls snap with
                  | kReject => chain_walk nodes true false false
                  | cls => walk_nodes depth s file snap next cls (Some next_link) nodes
                  end
          end
    end.

(** ** The new head's link and the splices *)

Record PendingRepoint := { pr_pred_rel : Z; pr_new_next : Z; pr_pred_id : Z; pr_shadows : nat }.

Record LinkPlan := { lp_next : Z; lp_repoints : list PendingRepoint; lp_unlinked : nat; lp_deferred : nat }.

(** The leading nodes of the id, and the rest. *)
Fixpoint leading_shadows (write_id : Z) (l : list ChainNode) : nat * list ChainNode :=
  match l with
  | n :: l' => if cn_id n =? write_id then let '(k, r) := leading_shadows write_id l' in (S k, r) else (0%nat, l)
  | [] => (0%nat, [])
  end.

(** The runs of superseded nodes behind the keeper [prev], [run] of them seen. *)
Fixpoint plan_runs (write_id : Z) (fully : bool) (prev : ChainNode) (run : nat) (l : list ChainNode) : list PendingRepoint * nat :=
  match l with
  | [] =>
      if (run =? 0)%nat then ([], 0%nat)
      else if fully then ([{| pr_pred_rel := cn_rel prev; pr_new_next := 0; pr_pred_id := cn_id prev; pr_shadows := run |}], 0%nat)
      else ([], run)
  | n :: l =>
      if cn_id n =? write_id then plan_runs write_id fully prev (S run) l
      else
        let '(rs, deferred) := plan_runs write_id fully n 0 l in
        if (run =? 0)%nat then (rs, deferred)
        else ({| pr_pred_rel := cn_rel prev; pr_new_next := cn_link n; pr_pred_id := cn_id prev; pr_shadows := run |} :: rs, deferred)
  end.

Definition plan_links (unlink : bool) (write_id : Z) (head : option HeadCandidate) (w : ChainWalk) (fresh : bool) : LinkPlan :=
  let head_link := match head with Some h => make_link (hc_rel h) (hc_serial h) | None => 0 end in
  if fresh then {| lp_next := 0; lp_repoints := []; lp_unlinked := 0; lp_deferred := 0 |}
  else if negb unlink || bool_decide (head = None) || bool_decide (cw_nodes w = [])
  then {| lp_next := head_link; lp_repoints := []; lp_unlinked := 0; lp_deferred := 0 |}
  else
    match leading_shadows write_id (cw_nodes w) with
    | (n, []) =>
        if cw_fully w then {| lp_next := 0; lp_repoints := []; lp_unlinked := n; lp_deferred := 0 |}
        else {| lp_next := head_link; lp_repoints := []; lp_unlinked := 0; lp_deferred := n |}
    | (n, keeper :: l) =>
        let '(repoints, deferred) := plan_runs write_id (cw_fully w) keeper 0 l in
        let '(next, unlinked, deferred) :=
          if (n =? 0)%nat then (head_link, 0%nat, deferred)
          else if is_current (cn_cls keeper) then (cn_link keeper, n, deferred)
          else (head_link, 0%nat, (deferred + n)%nat) in
        if cw_cycle w
        then {| lp_next := next; lp_repoints := []; lp_unlinked := unlinked;
                lp_deferred := deferred + sum_list_with pr_shadows repoints |}
        else {| lp_next := next; lp_repoints := repoints; lp_unlinked := unlinked; lp_deferred := deferred |}
    end.

(** ** Carrying a retained chain forward *)

Record CarryPlan := { cp_bytes : list Z; cp_starts : list nat; cp_dropped : nat }.

Definition align8 (n : Z) : Z := align_down (u64 (n + 7)) 3.

Definition carry_byte_budget (max_object_size : Z) (s : Stripe) (new_doc_size : Z) : Z :=
  let area := st_size s - data_start_rel s in
  let new_aligned := align8 new_doc_size in
  if area <=? new_aligned then 0
  else
    let budget := area / 8 in
    let budget := if 0 <? max_object_size then Z.min budget max_object_size else budget in
    Z.min budget (area - new_aligned).

(** The first copy of every id but the one being written, in walk order. *)
Fixpoint carry_candidates (seen : list Z) (l : list ChainNode) : list ChainNode :=
  match l with
  | [] => []
  | n :: l => if bool_decide (cn_id n ∈ seen) then carry_candidates seen l else n :: carry_candidates (cn_id n :: seen) l
  end.

(** What the caps keep, the Original first: the kept indices. *)
Definition kOriginalId : Z := 0.

Definition consider (budget : Z) (cand : list ChainNode) (acc : list nat * Z) (c : nat) : list nat * Z :=
  let '(keep, planned) := acc in
  match cand !! c with
  | None => acc
  | Some n =>
      let sz := align8 (cn_len n) in
      if (length keep <? kMaxAlternates - 1)%nat && (sz <=? budget - planned) then (c :: keep, planned + sz) else acc
  end.

Definition keep_order (cand : list ChainNode) : list nat :=
  match list_find (fun n => cn_id n = kOriginalId) cand with
  | Some (o, _) => o :: filter (fun c => c <> o) (seq 0 (length cand))
  | None => seq 0 (length cand)
  end.

Section write.
Context (bld : mulhi_build) `{Checksum} {C : Type} `{!RamCacheOps C} (cfg : VolumeConfig).

(** One copied node: its bytes padded to 8, if it still is the document the
    walk saw. *)
Definition copy_node (s : Stripe) (file : list Z) (key : CacheKey) (snap : StripeSnapshot) (n : ChainNode) : option (list Z) :=
  if (cn_len n <? Z.of_nat kHeaderSize) || negb (in_data_area s (cn_rel n)) || (st_size s - cn_rel n <? cn_len n) then None
  else
    data ← map_region file (st_offset s + cn_rel n) (cn_len n);
    let reader := new_reader data in
    let doc := r_doc reader in
    if is_servable reader && (len doc =? cn_len n) && (Document.alternate_id doc =? cn_id n)
       && (write_serial doc =? u32 (snap_pass snap - 1)) && (Document.fill_serial doc =? link_serial (cn_link n))
       && bool_decide (r_first_key reader = key) && verify_checksum doc (r_payload reader)
    then Some (data ++ replicate (Z.to_nat (align8 (cn_len n) - cn_len n)) 0)
    else None.

(** The copies, deepest first, and where each starts. *)
Fixpoint lay_out (start : nat) (l : list (list Z)) : list nat :=
  match l with [] => [] | b :: l => start :: lay_out (start + length b) l end.

Definition carry_retained_chain (s : Stripe) (gen : Z) (file : list Z) (key : CacheKey) (snap : StripeSnapshot) (chain : list ChainNode)
    (write_id new_doc_size : Z) : CarryPlan :=
  if negb (st_retain s) || (snap_pass snap =? 0) || bool_decide (chain = []) then {| cp_bytes := []; cp_starts := []; cp_dropped := 0 |}
  else
    let cand := carry_candidates [write_id] chain in
    let budget := carry_byte_budget (vc_max_object_size cfg) s new_doc_size in
    let keep := fst (fold_left (consider budget cand) (keep_order cand) ([], 0)) in
    let kept := rev (omap id (imap (fun c n => if bool_decide (c ∈ keep) then Some n else None) cand)) in
    let copied := omap (fun n => (fun b => (n, b)) <$> copy_node s file key snap n) kept in
    let unexposed := filter (fun nb => gen <= exposure_threshold bld s (snap_pass snap - 1) (cn_rel (fst nb))) copied in
    let bytes := snd <$> unexposed in
    {| cp_bytes := concat bytes; cp_starts := lay_out 0 bytes; cp_dropped := length cand - length unexposed |}.

(** ** One attempt *)

Definition alternate_builder (key : CacheKey) (header content : list Z) (id next now_ms : Z) : DocumentBuilder := {|
  b_key := key; b_header := header; b_content := content; b_type := Type_SingleFrag; b_flags := 0; b_total_len := 0;
  b_frag_offset := 0; b_enable_checksum := true; b_alternate_id := id; b_next_alternate_offset := next;
  b_hit_count := 0; b_last_access := now_ms |}.

Inductive WriteOutcome := Finished (r : VolumeError + unit) | Restart | StalePublish.

(** What the probe and the walk resolve. *)
Record Resolution := {
  rs_head : option HeadCandidate; rs_clear : list Z; rs_seen : list Z; rs_walk : ChainWalk }.

Definition resolve_chain (s : StripeState) (file : list Z) (snap : StripeSnapshot) (key : CacheKey) : Resolution :=
  let st := ss_stripe s in
  let '(heads, seen) := fst (probe_each st snap (head_entry st file snap key) (candidates s key) ([], []) []) in
  let elected := elect_head 0 heads None in
  {| rs_head := snd <$> elected; rs_clear := others heads elected; rs_seen := seen;
     rs_walk := match elected with
                | Some (_, h) => walk_nodes kMaxChainTraversalDepth st file snap (hc_rel h) (hc_cls h) None []
                | None => chain_walk [] false false false
                end |}.

(** The second look at the bucket, once the lock is held: is the head gone, or
    an entry there that the probe did not see? *)
Definition recheck_entry (verified : option Z) (seen : list Z) (e : DirEntry) (cls : AdmitClass) (acc : bool * bool) : bool * (bool * bool) :=
  let '(still_there, unseen) := acc in
  if match verified with Some off => DirEntry.offset e =? off | None => false end then (true, (true, unseen))
  else (true, (still_there, unseen || negb (existsb (Z.eqb (DirEntry.offset e)) seen))).

Definition stale_now (s : StripeState) (verified : option Z) (seen : list Z) (key : CacheKey) : bool :=
  let snap := stripe_snapshot bld s in
  let '(still_there, unseen) :=
    fst (probe_each (ss_stripe s) snap (recheck_entry verified seen) (candidates s key) (bool_decide (verified = None), false) []) in
  negb still_there || unseen.

(** The stamps a document takes from its slot. *)
Definition stamp_slot (slot : WriteSlot) (doc : list Z) : list Z :=
  patch_fill_serial (patch_pass_stamp doc (slot_pass slot)) (slot_fill_serial slot).

Definition store_link (link : Z) (doc : list Z) : list Z := write_at doc kNextAlternateOffsetPos (le_bytes 8 link).

(** The carried nodes stamped and linked, each to the one below it, and the
    link of the head to the topmost. *)
Fixpoint link_carried (base_rel : Z) (slot : WriteSlot) (below : Z) (start : nat) (l : list (list Z)) : list (list Z) * Z :=
  match l with
  | [] => ([], below)
  | node :: l =>
      let '(l', top) := link_carried base_rel slot (make_link (base_rel + Z.of_nat start) (slot_fill_serial slot)) (start + length node) l in
      (store_link below (stamp_slot slot node) :: l', top)
  end.

(** The carried bytes, split at their starts. *)
Fixpoint split_starts (bytes : list Z) (starts : list nat) : list (list Z) :=
  match starts with
  | [] => []
  | a :: rest =>
      match rest with
      | [] => [drop a bytes]
      | b :: _ => take (b - a) (drop a bytes) :: split_starts bytes rest
      end
  end.

Definition splice (s : StripeState) (key : CacheKey) (snap : StripeSnapshot) (acc : list Z * nat * nat) (r : PendingRepoint) : list Z * nat * nat :=
  let '(file, unlinked, deferred) := acc in
  match repoint_chain_link bld s file (st_offset (ss_stripe s) + pr_pred_rel r) (pr_pred_id r) key (pr_new_next r) snap with
  | inr file => (file, (unlinked + pr_shadows r)%nat, deferred)
  | inl _ => (file, unlinked, (deferred + pr_shadows r)%nat)
  end.

Definition event_if (b : bool) (e : volume_event) (v : Volume (C := C)) : Volume (C := C) := if b then event v e else v.

(** What a published write counts. *)
Definition count_write (unlinked deferred : nat) (chain_reset link_refused carry_forward : bool) (carry : CarryPlan) (v : Volume (C := C))
  : Volume (C := C) :=
  let v := event_if (negb (unlinked =? 0)%nat) (VShadowsUnlinked unlinked) v in
  let v := event_if (negb (deferred =? 0)%nat) (VSpliceDeferred deferred) v in
  let v := event_if chain_reset VChainReset v in
  let v := event_if link_refused VWrapRefusal v in
  let v := event_if (carry_forward && negb (length (cp_starts carry) =? 0)%nat)
             (VCarriedForward (length (cp_starts carry)) (length (cp_bytes carry))) v in
  event_if (carry_forward && negb (cp_dropped carry =? 0)%nat) (VCarryDropped (cp_dropped carry)) v.

(** From the granted slot to the published head. *)
Definition fill_and_publish (env : WriteEnv) (allow_restart : bool) (i : nat) (key : CacheKey) (id : Z) (snap : StripeSnapshot)
    (rs : Resolution) (plan : LinkPlan) (chain_reset carry_forward : bool) (doc : list Z) (carry : CarryPlan) (slot : WriteSlot)
    (s : StripeState) (v : Volume (C := C)) : option (WriteOutcome * Volume (C := C)) :=
  let st := ss_stripe s in
  let doc_size := Z.of_nat (length doc) in
  let head_pos := length (cp_bytes carry) in
  let give_back := fun out => Some (out, set_stripe v i (set_log s (snd (commit_write_slot st slot false (we_lock_valid env) (ss_log s))))) in
  let wrapped := wrapped_since bld st (ws_gen (ss_log s)) snap in
  let current_head := match rs_head rs with Some h => is_current (hc_cls h) | None => true end in
  if slot_deferred_publish slot && negb wrapped && current_head && stale_now s (hc_rel <$> rs_head rs) (rs_seen rs) key
  then give_back StalePublish
  else
    let base_rel := slot_write_offset slot - st_offset st in
    let '(carried, head_next) := link_carried base_rel slot 0 0 (split_starts (cp_bytes carry) (cp_starts carry)) in
    let doc := stamp_slot slot doc in
    let doc := if (length (cp_starts carry) =? 0)%nat then doc else store_link head_next doc in
    let wrap_raced := negb carry_forward && (wrapped || negb current_head) in
    let link_refused := wrap_raced && negb (lp_next plan =? 0) in
    if link_refused && allow_restart && st_retain st && slot_deferred_publish slot then give_back Restart
    else
      let doc := if wrap_raced then store_link 0 doc else doc in
      let repoints := if wrap_raced then [] else lp_repoints plan in
      let fill := concat carried ++ doc in
      let tail_fill := if slot_fill_end slot =? 0 then 0 else slot_fill_end slot - (slot_write_offset slot + Z.of_nat (length fill)) in
      let bytes := fill ++ replicate (Z.to_nat tail_fill) 0 in
      let fill_ok := (length bytes <=? we_written env)%nat in
      let file := write_at (v_file v) (Z.to_nat (slot_write_offset slot)) (take (we_written env) bytes) in
      let v := set_file v file in
      let snap_at_commit := stripe_snapshot bld s in
      let '(err, log) := commit_write_slot st slot fill_ok (we_lock_valid env) (ss_log s) in
      let s := set_log s log in
      let rel := base_rel + Z.of_nat head_pos in
      match err with
      | Some err => Some (Finished (inl (of_log_error err)), set_stripe v i s)
      | None =>
          if negb fill_ok then Some (Finished (inl EIoError), set_stripe v i s)
          else if (base_rel <? 0) || (st_size st <? rel + doc_size) then Some (Finished (inl EInternalError), set_stripe v i s)
          else if wrapped_since bld st (ws_gen log) snap_at_commit then Some (Finished (inl EBusy), set_stripe v i s)
          else
            let adm := {| sa_stripe := st; sa_gen := ws_gen log; sa_cursor := current_write_cursor st log; sa_snap := stripe_snapshot bld s |} in
            let verified := match rs_head rs with Some h => hc_rel h | None => kNoVerifiedEntry end in
            let r := @insert_admitted _ (stripe_admission bld) (ss_dir s) key rel doc_size verified adm (rs_clear rs) (Some (rs_seen rs))
                       (u16 (slot_fill_serial slot)) in
            if negb (ir_ok r) then
              if ir_stale r then Some (StalePublish, event (set_stripe v i s) VPublishRewrite)
              else Some (Finished (inl EInternalError), set_stripe v i s)
            else
              let v := event (evictions r v) VWrite in
              let s := set_dir s (ir_dir r) in
              let '(file, unlinked, deferred) :=
                fold_left (splice s key snap) repoints
                  (file, if wrap_raced then 0%nat else lp_unlinked plan, if wrap_raced then 0%nat else lp_deferred plan) in
              let v := count_write unlinked deferred chain_reset link_refused carry_forward carry (set_file v file) in
              v ← invalidate_ram (if (cp_dropped carry =? 0)%nat then fun c => snd <$> rc_remove (alternate_key key id) c
                                  else rc_remove_all key) i s v;
              Some (Finished (inr tt), v)
      end.

Definition commit_alternate_write_once (env : WriteEnv) (now_ms : Z) (unlink allow_restart : bool) (i : nat) (key : CacheKey) (id : Z)
    (header content : list Z) (v : Volume (C := C)) : option (WriteOutcome * Volume (C := C)) :=
  match v_stripes v !! i with
  | None => Some (Finished (inl ENotInitialized), v)
  | Some s =>
      if negb (ss_owned s) then Some (Finished (inl ENotOwned), v)
      else
        let snap := stripe_snapshot bld s in
        let rs := resolve_chain s (v_file v) snap key in
        let nodes := cw_nodes (rs_walk rs) in
        let v := event v (VChainDepth (length nodes)) in
        let ids := remove_dups (cn_id <$> nodes) in
        let chain_reset := cw_cut (rs_walk rs) && bool_decide (ids = [id]) in
        let truncated := cw_cut (rs_walk rs) && negb chain_reset in
        let carry_forward := st_retain (ss_stripe s) && match rs_head rs with Some h => negb (is_current (hc_cls h)) | None => false end in
        if negb carry_forward && (truncated || (kMaxAlternates <=? length ids)%nat) then Some (Finished (inl ETooManyAlternates), v)
        else
          let plan := plan_links unlink id (rs_head rs) (rs_walk rs) (chain_reset || carry_forward) in
          let doc := build (alternate_builder key header content id (lp_next plan) now_ms) in
          if bool_decide (doc = []) then Some (Finished (inl EInvalidArgument), v)
          else
            let carry := if carry_forward
                         then carry_retained_chain (ss_stripe s) (ws_gen (ss_log s)) (v_file v) key snap nodes id (Z.of_nat (length doc))
                         else {| cp_bytes := []; cp_starts := []; cp_dropped := 0 |} in
            let fill_size := Z.of_nat (length (cp_bytes carry) + length doc) in
            let '(r, log) := allocate_write_slot bld (vc_log cfg) (ss_stripe s) (we_lock env) (we_now1 env) (we_now2 env)
                               fill_size (ss_log s) in
            let s := set_dir (set_log s log) (set_current_phase (ss_dir s) (ws_phase log)) in
            match r with
            | inl err => Some (Finished (inl (of_log_error err)), set_stripe v i s)
            | inr slot => fill_and_publish env allow_restart i key id snap rs plan chain_reset carry_forward doc carry slot s v
            end
  end.

(** ** The retries *)

(** [env n] is what the [n]-th attempt meets; [fuel] bounds the attempts. *)
Fixpoint commit_attempts (fuel : nat) (env : nat -> WriteEnv) (now_ms : nat -> Z) (n : nat) (unlink allow_restart : bool) (stale_retries : nat)
    (i : nat) (key : CacheKey) (id : Z) (header content : list Z) (v : Volume (C := C)) : option ((VolumeError + unit) * Volume (C := C)) :=
  match fuel with
  | O => None
  | S fuel =>
      '(out, v) ← commit_alternate_write_once (env n) (now_ms n) unlink allow_restart i key id header content v;
      match out with
      | Finished r => Some (r, v)
      | Restart => commit_attempts fuel env now_ms (S n) unlink false stale_retries i key id header content v
      | StalePublish =>
          if (stale_retries =? kMaxStalePublishRetries)%nat then Some (inl EBusy, v)
          else commit_attempts fuel env now_ms (S n) unlink allow_restart (S stale_retries) i key id header content (event v VPublishRetry)
      end
  end.

Definition commit_fuel : nat := kMaxStalePublishRetries + 2.

Definition commit_alternate_write (env : nat -> WriteEnv) (now_ms : nat -> Z) (unlink : bool) (i : nat) (key : CacheKey) (id : Z)
    (header content : list Z) (generation : Z) (v : Volume (C := C)) : option ((VolumeError + unit) * Volume (C := C)) :=
  if negb (v_generation v =? generation) then Some (inl EClosed, v)
  else commit_attempts commit_fuel env now_ms 0 unlink true 0 i key id header content v.

(** [write_alternate_sync] opens the handle a plain write opens; closing it
    commits the alternate. *)
Definition write_alternate_sync (key : CacheKey) (content_length : Z) (v : Volume (C := C)) : VolumeError + WriteHandle :=
  write_sync cfg key content_length v.

Definition close_alternate (env : nat -> WriteEnv) (now_ms : nat -> Z) (unlink : bool) (id : Z) (h : WriteHandle) (v : Volume (C := C))
  : option ((VolumeError + unit) * WriteHandle * Volume (C := C)) :=
  if wh_aborted h then Some (inl EClosed, h, v)
  else if wh_closed h then Some (inr tt, h, v)
  else
    '(r, v) ← commit_alternate_write env now_ms unlink (wh_stripe h) (wh_key h) id (wh_header h) (wh_content h) (wh_generation h) v;
    Some (r, set_flags h true false, v).
End write.
