(* ===== verification/AlternateCommit.v ===== *)
(** * Writing an alternate, proved (AlternateWrite.v)

    The alternates a key holds, as an abstract list with one alternate per id:
    a write replaces the alternate of its id, or adds one, in front of the
    others. *)

From S2P Require Import Prelude Crc32c Key Document DirEntry Directory Geometry Stripe WriteLog RamCache Volume VolumeSpec VolumeCommit Alternates AlternateSpec AlternateChain AlternateEdit AlternateWrite.
Local Open Scope cyc_scope.

(** ** Resolving the head *)

Lemma distinct_candidates file s key : stripe_state_ok file s -> NoDup (DirEntry.offset <$> candidates s key).
Proof.
  intros Hok. pose proof (sk_distinct _ _ Hok (bucket_index (ss_dir s) key)) as Hd. unfold candidates, probe_matches.
  induction (bucket_of (ss_dir s) (bucket_index (ss_dir s) key)) as [|x l IH]; [constructor|].
  assert (Hd' : distinct_offsets l).
  { intros i j e e' Hi Hj He He' Ht Ho. specialize (Hd (S i) (S j) e e' Hi Hj He He' Ht Ho). lia. }
  rewrite filter_cons. case_decide as Hx; [|by apply IH]. rewrite fmap_cons. constructor; [|by apply IH].
  intros (y & Ey & Hy)%list_elem_of_fmap. apply list_elem_of_filter in Hy as [Hy Hin]. apply list_elem_of_lookup in Hin as (j & Hj).
  simpl in Hx, Hy. rewrite !andb_true_iff, negb_true_iff, Z.eqb_eq in Hx, Hy. destruct Hx as [[Hx1 _] Hx2], Hy as [[Hy1 _] Hy2].
  specialize (Hd 0%nat (S j) x y eq_refl Hj Hx1 Hy1 ltac:(congruence) Ey). done.
Qed.

Section resolve.
Context (bld : mulhi_build) (file : list Z) (s : StripeState) (key : CacheKey).
Local Abbreviation st := (ss_stripe s).
Local Abbreviation snap := (stripe_snapshot bld s).
Local Abbreviation step := (fun a c => snd (head_entry st file snap key c.1 c.2 a)).

(** The entry [x] names a document with the key, whatever its stamps. *)
Definition keyed (x : DirEntry) : Prop := exists r, header_at file (st_offset st + DirEntry.offset x) = Some r /\ r_first_key r = key.

Lemma claims_keyed x cls : claims bld file s key x cls -> keyed x.
Proof. intros (r & Hh & Hk & _). by exists r. Qed.

(** What the probe has recorded of the candidates [m]. *)
Record recorded (m : list (DirEntry * AdmitClass)) (acc : list HeadCandidate * list Z) : Prop := {
  rc_seen : forall x cls, (x, cls) ∈ m -> DirEntry.offset x ∈ snd acc;
  rc_heads : forall x cls, (x, cls) ∈ m -> keyed x -> exists h, h ∈ fst acc /\ hc_rel h = DirEntry.offset x;
  rc_from : forall h, h ∈ fst acc -> exists x, (x, hc_cls h) ∈ m /\ hc_rel h = DirEntry.offset x /\ hc_serial h = DirEntry.fill_serial x /\
    (hc_live h = true <-> claims bld file s key x (hc_cls h));
  rc_nodup : NoDup (hc_rel <$> fst acc);
  rc_lengths : (length (fst acc) <= length m /\ length (snd acc) <= length m)%nat }.

Lemma recorded_step m acc x cls : (length m < kEntriesPerBucket)%nat -> DirEntry.offset x ∉ (DirEntry.offset <$> m.*1) ->
  recorded m acc -> recorded (m ++ [(x, cls)]) (step acc (x, cls)).
Proof.
  intros Hm Hnew [H1 H2 H3 Hnd [H4 H5]]. destruct acc as [heads seen]. cbn [fst snd] in *.
  assert (Hseen : forall off, off ∈ add_offset seen (DirEntry.offset x) <-> off ∈ seen \/ off = DirEntry.offset x) by (intros; apply elem_of_add_offset; lia).
  assert (Hmem : forall y c, (y, c) ∈ m ++ [(x, cls)] <-> (y, c) ∈ m \/ (y = x /\ c = cls)).
  { intros y c. rewrite elem_of_app, list_elem_of_singleton. split; intros [|E]; auto; [right; by injection E|right; by destruct E as [-> ->]]. }
  pose proof (length_add_offset seen (DirEntry.offset x)) as Hls.
  assert (Hno : existsb (fun h => hc_rel h =? DirEntry.offset x) heads = false).
  { apply not_true_iff_false. intros (h & Hh & E)%existsb_exists. apply list_elem_of_In in Hh. apply Z.eqb_eq in E.
    destruct (H3 h Hh) as (y & Hy & Ey & _). apply Hnew. apply list_elem_of_fmap. exists y. split; [congruence|].
    apply list_elem_of_fmap. by exists (y, hc_cls h). }
  assert (Hskip : (keyed x -> False) -> recorded (m ++ [(x, cls)]) (heads, add_offset seen (DirEntry.offset x))).
  { intros Hk. split; cbn [fst snd].
    - intros y c [Hy|[-> ->]]%Hmem; apply Hseen; [left; by eapply H1|by right].
    - intros y c [Hy|[-> ->]]%Hmem Hky; [by eapply H2|done].
    - intros h Hh. destruct (H3 h Hh) as (y & Hy & Hrest). exists y. split; [|done]. apply Hmem. by left.
    - done.
    - rewrite length_app. cbn. lia. }
  unfold head_entry. cbn [fst snd]. rewrite Hno. destruct (header_at _ _) as [r|] eqn:Er; cbn [snd].
  2: { apply Hskip. intros (r & Hr & _). congruence. }
  case_bool_decide as Ek; cbn [andb].
  2: { cbn [snd]. apply Hskip. intros (r' & Hr & Hk). congruence. }
  rewrite (proj2 (Nat.ltb_lt _ _)) by lia. cbn [snd]. set (h0 := Build_HeadCandidate _ _ _ _). split; cbn [fst snd].
  - intros y c [Hy|[-> ->]]%Hmem; apply Hseen; [left; by eapply H1|by right].
  - intros y c [Hy|[-> ->]]%Hmem Hky.
    + destruct (H2 y c Hy Hky) as (h & Hh & E). exists h. split; [|done]. apply elem_of_app. by left.
    + exists h0. split; [|done]. apply elem_of_app. right. by left.
  - intros h [Hh|E]%elem_of_app.
    + destruct (H3 h Hh) as (y & Hy & Hrest). exists y. split; [|done]. apply Hmem. by left.
    + apply list_elem_of_singleton in E as ->. exists x. split; [apply Hmem; by right|]. split; [done|]. split; [done|].
      cbn [hc_live hc_cls h0]. rewrite andb_true_iff. split; [intros [E1 E2]; by exists r|]. intros (r' & Hr & _ & E1 & E2).
      rewrite Er in Hr. injection Hr as ->. done.
  - rewrite fmap_app. apply NoDup_app. split; [done|]. split; [|apply NoDup_singleton].
    intros r0 (h & -> & Hh)%list_elem_of_fmap Hin. cbn in Hin. apply list_elem_of_singleton in Hin.
    apply not_true_iff_false in Hno. apply Hno, existsb_exists. exists h. split; [by apply list_elem_of_In|]. by apply Z.eqb_eq.
  - rewrite !length_app. cbn. lia.
Qed.

Lemma recorded_probe : stripe_state_ok file s ->
  recorded (admitted st snap (candidates s key)) (fst (probe_each st snap (head_entry st file snap key) (candidates s key) ([], []) [])).
Proof.
  intros Hok. assert (Hfst : forall e cls a, fst (head_entry st file snap key e cls a) = true).
  { intros e cls [heads seen]. unfold head_entry. repeat case_match; done. }
  rewrite (probe_each_fold _ _ _ _ _ _ Hfst).
  assert (Hlen : (length (admitted st snap (candidates s key)) <= kEntriesPerBucket)%nat).
  { etransitivity; [apply length_admitted|]. apply length_candidates, Hok. }
  assert (Hnd : NoDup (DirEntry.offset <$> (admitted st snap (candidates s key)).*1)).
  { clear Hlen. pose proof (distinct_candidates file s key Hok) as Hnd. induction (candidates s key) as [|x l IH]; [constructor|].
    rewrite fmap_cons in Hnd. apply NoDup_cons in Hnd as [Hx Hnd]. cbn [admitted omap list_omap].
    assert (Hsub : DirEntry.offset x ∉ (DirEntry.offset <$> (admitted st snap l).*1)).
    { intros (y & Ey & ((y' & c) & -> & Hy)%list_elem_of_fmap)%list_elem_of_fmap. apply elem_of_admitted in Hy as [Hy _].
      apply Hx. apply list_elem_of_fmap. by exists y'. }
    destruct (admit_position _ _ _ _); [by apply IH|..]; cbn [fmap list_fmap]; (constructor; [exact Hsub|by apply IH]). }
  revert Hlen Hnd. generalize (admitted st snap (candidates s key)). intros m. induction m as [|[x c] m IH] using rev_ind; intros Hl Hnd.
  - split; cbn; [..|constructor|lia]; intros * Hx; by apply elem_of_nil in Hx.
  - rewrite fold_left_app. cbn [fold_left]. rewrite length_app in Hl. cbn in Hl. rewrite !fmap_app in Hnd. cbn in Hnd.
    apply NoDup_app in Hnd as (Hnd & Hx & _). apply recorded_step; [lia| |apply IH; [lia|done]].
    intros Hin. apply (Hx _ Hin). by left.
Qed.
End resolve.

Lemma elect_head_none i l acc : Forall (fun h => hc_live h = false) l -> elect_head i l acc = acc.
Proof. intros Hl. revert i. induction Hl as [|h l Hh Hl IH]; intros i; cbn [elect_head]; [done|]. by rewrite Hh, IH. Qed.

Lemma elect_head_one l1 h l2 : Forall (fun h => hc_live h = false) (l1 ++ l2) -> hc_live h = true ->
  elect_head 0 (l1 ++ h :: l2) None = Some (length l1, h).
Proof.
  intros [H1 H2]%Forall_app Hh. change (length l1) with (0 + length l1)%nat. generalize 0%nat. induction H1 as [|x l1 Hx H1 IH]; intros i; cbn [app elect_head].
  - rewrite Hh, elect_head_none by done. cbn. by rewrite Nat.add_0_r.
  - rewrite Hx. cbn [andb]. rewrite IH. cbn [length]. by rewrite Nat.add_succ_r.
Qed.

Lemma others_none heads : others heads None = hc_rel <$> heads.
Proof.
  unfold others. generalize 0%nat. induction heads as [|h l IH]; [done|]. intros n. cbn. f_equal. apply (IH n).
Qed.

Lemma others_some l1 h l2 x : x ∈ l1 ++ l2 -> hc_rel x ∈ others (l1 ++ h :: l2) (Some (length l1, h)).
Proof.
  intros Hx. unfold others. apply list_elem_of_omap. exists (Some (hc_rel x)). split; [|done]. apply elem_of_lookup_imap.
  assert (exists j, j <> length l1 /\ (l1 ++ h :: l2) !! j = Some x) as (j & Hj & Hl).
  { apply elem_of_app in Hx as [(j & Hj)%list_elem_of_lookup|(j & Hj)%list_elem_of_lookup].
    - exists j. pose proof (lookup_lt_Some _ _ _ Hj). split; [lia|]. by rewrite lookup_app_l.
    - exists (length l1 + S j)%nat. split; [lia|]. rewrite lookup_app_r by lia. by replace (length l1 + S j - length l1)%nat with (S j) by lia. }
  exists j, x. split; [|done]. by rewrite (proj2 (Nat.eqb_neq _ _)) by done.
Qed.

Section walk_nodes.
Context (s : Stripe) (snap : StripeSnapshot) (key : CacheKey) (file : list Z).
Hypothesis Hs : stripe_ok s.
Hypothesis Hcur : snap_cursor_rel snap <= st_size s.
Hypothesis Hfile : st_offset s + st_size s <= Z.of_nat (length file).

(** What the writer keeps of an alternate. *)
Definition al_link (a : Alternate) : Z := link_to (al_doc a) (al_offset a - st_offset s).
Definition chain_node (a : Alternate) : ChainNode := {|
  cn_rel := al_offset a - st_offset s; cn_next_rel := link_offset (al_next a); cn_link := al_link a; cn_len := len (al_doc a);
  cn_id := al_id a; cn_cls := kCurrent |}.

Lemma walk_nodes_linked depth a l followed nodes : (length (a :: l) <= depth)%nat -> Forall (stored file s snap key) (a :: l) -> linked s (a :: l) ->
  followed_ok followed (al_doc a) = true -> Forall (fun n => al_offset a - st_offset s < cn_rel n) nodes ->
  walk_nodes depth s file snap (al_offset a - st_offset s) kCurrent followed nodes = chain_walk (nodes ++ (chain_node <$> a :: l)) true false false.
Proof using Hs Hcur Hfile.
  pose proof (so_offset _ Hs) as Hoff.
  revert depth a followed nodes. induction l as [|b l IH]; intros [|depth] a followed nodes Hd Hst Hlk Hf Hn; [cbn in Hd; lia| |cbn in Hd; lia|];
    pose proof Hst as [Ha Hst']%Forall_cons; destruct (stored_range s snap key Hs Hcur file a Ha) as (Hr & _);
    (destruct (stored_header_at s snap key Hs Hcur file a Ha) as (r & Er & Ed); [by eapply stored_end|]);
    (assert (Hrep : existsb (fun n => cn_rel n =? al_offset a - st_offset s) nodes = false)
       by (apply not_true_iff_false; intros (n & Hin & E)%existsb_exists; apply list_elem_of_In in Hin; rewrite Forall_forall in Hn;
           specialize (Hn n Hin); apply Z.eqb_eq in E; lia));
    cbn [walk_nodes]; replace (st_offset s + (al_offset a - st_offset s)) with (al_offset a) by lia;
    rewrite (proj2 (Z.eqb_neq _ _)), Hrep, Er by lia; rewrite Ed, (sd_stamp _ _ _ _ _ Ha), Hf; cbn [negb orb].
  - cbn [linked] in Hlk. unfold al_next in Hlk. rewrite Hlk. cbn [Z.eqb]. rewrite fmap_cons. unfold chain_node at 1, al_next. by rewrite Hlk.
  - cbn [linked] in Hlk. destruct Hlk as (En & Hlt & Hlk). unfold al_next in En.
    pose proof Hst' as [Hb _]%Forall_cons. destruct (stored_range s snap key Hs Hcur file b Hb) as (Hrb & _ & _ & _ & _ & Hlb).
    destruct (link_to_hop s snap key Hs Hcur file a b Ha Hb Hlt) as (E1 & Hbd & _ & Hhop). rewrite <- En in E1, Hbd, Hhop. rewrite Hhop, E1.
    rewrite (proj2 (Z.eqb_neq _ _)) by lia. unfold al_end in *. rewrite IH; [|cbn in *; lia|done|done|done|].
    + rewrite <- app_assoc, (fmap_cons _ a). cbn [app]. unfold chain_node at 2. unfold al_next. by rewrite E1.
    + apply Forall_app. split; [eapply Forall_impl; [exact Hn|]; cbn; lia|]. repeat constructor. cbn. lia.
Qed.
End walk_nodes.

(** ** The list a key holds, possibly empty *)

Section holding.
Context (bld : mulhi_build) (file : list Z) (s : StripeState) (key : CacheKey).
Local Abbreviation st := (ss_stripe s).
Local Abbreviation snap := (stripe_snapshot bld s).

Definition holding (l : list Alternate) : Prop :=
  match l with
  | [] => forall x cls, (x, cls) ∈ admitted st snap (candidates s key) -> ~ claims bld file s key x cls
  | _ => holds bld file s key l
  end.

(** The head the writer elects. *)
Definition elected_head (l : list Alternate) : option HeadCandidate :=
  (fun a => {| hc_rel := al_offset a - st_offset st; hc_cls := kCurrent; hc_live := true; hc_serial := Document.fill_serial (al_doc a) |}) <$> hd_error l.

Record resolved (l : list Alternate) (rs : Resolution) : Prop := {
  rv_seen : forall x cls, (x, cls) ∈ admitted st snap (candidates s key) -> DirEntry.offset x ∈ rs_seen rs;
  rv_each : forall x cls, (x, cls) ∈ admitted st snap (candidates s key) ->
    DirEntry.offset x ∈ rs_clear rs \/ hc_rel <$> rs_head rs = Some (DirEntry.offset x) \/ ~ keyed file s key x;
  rv_head : rs_head rs = elected_head l;
  rv_entry : forall h, rs_head rs = Some h -> exists e, (e, kCurrent) ∈ admitted st snap (candidates s key) /\ DirEntry.offset e = hc_rel h;
  rv_nodes : cw_nodes (rs_walk rs) = chain_node st <$> l;
  rv_fully : l <> [] -> cw_fully (rs_walk rs) = true;
  rv_uncut : cw_cycle (rs_walk rs) = false /\ cw_cut (rs_walk rs) = false }.

Lemma resolve_vacant : stripe_state_ok file s -> holding [] -> resolved [] (resolve_chain s file snap key).
Proof.
  intros Hok Hh. pose proof (recorded_probe bld file s key Hok) as [H1 H2 H3 _ _]. unfold resolve_chain.
  destruct (fst (probe_each _ _ _ _ _ _)) as [heads seen]. cbn [fst snd] in *.
  rewrite elect_head_none, others_none.
  2: { apply Forall_forall. intros h Hin. destruct (H3 h Hin) as (x & Hx & _ & _ & Hl). destruct (hc_live h); [|done].
       exfalso. by apply (Hh x (hc_cls h) Hx), Hl. }
  split; cbn [rs_seen rs_clear rs_head rs_walk fmap option_fmap option_map]; try done.
  intros x cls Hx. destruct (decide (DirEntry.offset x ∈ hc_rel <$> heads)) as [|Hn]; [by left|]. right; right. intros Hk. apply Hn.
  destruct (H2 x cls Hx Hk) as (h & Hin & <-). apply list_elem_of_fmap. by exists h.
Qed.

Lemma resolve_holds a l : stripe_state_ok file s -> holds bld file s key (a :: l) -> resolved (a :: l) (resolve_chain s file snap key).
Proof.
  intros Hok [(before & e & after & a' & Ehd & Hl) Hst Hlk Hlen]. injection Ehd as <-. pose proof Hst as [Ha _]%Forall_cons.
  pose proof (sk_stripe _ _ Hok) as Hs. pose proof (snapshot_cursor_le bld s Hs) as Hc.
  pose proof (leads_claims bld file s key before e after a Hok Ha Hl) as Hcl.
  assert (He : (e, kCurrent) ∈ admitted st snap (candidates s key)).
  { apply elem_of_admitted. rewrite (ld_current _ _ _ _ _ _ _ _ Hl), (ld_split _ _ _ _ _ _ _ _ Hl). split; [|done]. apply elem_of_app. right. by left. }
  assert (Hone : forall x cls, (x, cls) ∈ admitted st snap (candidates s key) -> claims bld file s key x cls -> x = e).
  { intros x cls Hx Hcx. pose proof Hx as (Hin & Hcls)%elem_of_admitted. rewrite (ld_split _ _ _ _ _ _ _ _ Hl), elem_of_app, elem_of_cons in Hin.
    destruct Hin as [Hin|[->|Hin]]; [|done|]; exfalso; (apply (ld_others _ _ _ _ _ _ _ _ Hl x cls); [|done]; apply elem_of_admitted; split; [|done];
      apply elem_of_app; tauto). }
  pose proof (recorded_probe bld file s key Hok) as [H1 H2 H3 Hndh _]. unfold resolve_chain.
  pose proof (distinct_candidates file s key Hok) as Hnd.
  destruct (fst (probe_each _ _ _ _ _ _)) as [heads seen]. cbn [fst snd] in *.
  assert (Hsame : forall x cls, (x, cls) ∈ admitted st snap (candidates s key) -> DirEntry.offset x = DirEntry.offset e -> x = e /\ cls = kCurrent).
  { intros x cls (Hx & -> & _)%elem_of_admitted E. apply elem_of_admitted in He as (He & Ee & _).
    assert (x = e) as ->; [|done]. clear -Hnd Hx He E. apply list_elem_of_lookup in Hx as (i & Hi), He as (j & Hj).
    assert (i = j) as ->; [|congruence]. eapply NoDup_lookup; [exact Hnd| |]; rewrite list_lookup_fmap; [rewrite Hi; done|rewrite Hj; cbn; by rewrite E]. }
  destruct (H2 e kCurrent He (claims_keyed _ _ _ _ _ _ Hcl)) as (h & Hin & Eh).
  destruct (H3 h Hin) as (x & Hx & Ex & Esx & Hlive). destruct (Hsame x _ Hx ltac:(congruence)) as [-> Ecls]. rewrite Ecls in *.
  assert (Hhl : hc_live h = true) by by apply Hlive.
  pose proof (proj1 (Z.eqb_eq _ _) (ld_binds _ _ _ _ _ _ _ _ Hl)) as Ebind. pose proof (ld_offset _ _ _ _ _ _ _ _ Hl) as Eoff.
  assert (Eh' : h = {| hc_rel := al_offset a - st_offset st; hc_cls := kCurrent; hc_live := true; hc_serial := Document.fill_serial (al_doc a) |}).
  { destruct h as [? ? ? ?]. cbn in *. subst. f_equal; [lia|congruence]. }
  apply list_elem_of_split in Hin as (l1 & l2 & Eheads).
  assert (Hdead : forall h', h' ∈ heads -> hc_rel h' <> DirEntry.offset e -> hc_live h' = false).
  { intros h' Hin' Hne. destruct (hc_live h') eqn:El; [|done]. destruct (H3 h' Hin') as (y & Hy & Ey & _ & Hly). exfalso. apply Hne. rewrite Ey. f_equal. eapply Hone; [exact Hy|]. by apply Hly. }
  assert (Hl12 : Forall (fun h => hc_live h = false) (l1 ++ l2)).
  { apply Forall_forall. intros h' Hin'. apply Hdead; [rewrite Eheads; apply elem_of_app in Hin'; rewrite elem_of_app, elem_of_cons; tauto|].
    rewrite <- Eh. rewrite Eheads, fmap_app, fmap_cons in Hndh. apply NoDup_app in Hndh as (_ & Hd1 & [Hd2 _]%NoDup_cons). intros E.
    apply elem_of_app in Hin' as [Hin'|Hin'].
    - apply (Hd1 (hc_rel h')); [apply list_elem_of_fmap; by exists h'|]. rewrite E. by left.
    - apply Hd2. rewrite <- E. apply list_elem_of_fmap. by exists h'. }
  rewrite Eheads, elect_head_one by done. rewrite Eh'.
  pose proof (walk_nodes_linked st snap key file Hs Hc (sk_file _ _ Hok) kMaxChainTraversalDepth a l None [] Hlen Hst Hlk eq_refl (Forall_nil_2 _)) as Hw.
  cbn [rs_walk hc_rel hc_cls]. rewrite Hw. split; cbn [rs_seen rs_clear rs_head rs_walk fmap option_fmap option_map snd chain_walk cw_nodes cw_fully cw_cycle cw_cut]; try done.
  - intros y cls Hy. destruct (decide (DirEntry.offset y = DirEntry.offset e)) as [E|Hne].
    + right; left. cbn. f_equal. lia.
    + destruct (decide (DirEntry.offset y ∈ hc_rel <$> heads)) as [(h' & Er & Hin')%list_elem_of_fmap|Hn].
      * left. rewrite Er, <- Eh'. apply others_some. rewrite Eheads in Hin'. apply elem_of_app in Hin'. rewrite elem_of_cons in Hin'.
        apply elem_of_app. destruct Hin' as [?|[->|?]]; [by left| |by right]. congruence.
      * right; right. intros Hk. apply Hn. destruct (H2 y cls Hy Hk) as (h' & Hin' & <-). apply list_elem_of_fmap. by exists h'.
  - intros h' [= <-]. exists e. split; [done|]. cbn. lia.
Qed.
End holding.

(** ** The plan *)

Section plan.
Context (s : Stripe) (id : Z).
Local Abbreviation nodes := (fmap (M := list) (chain_node s)).

(** The link to the first of a list. *)
Definition link_first (l : list Alternate) : Z := match l with [] => 0 | a :: _ => al_link s a end.

Lemma plan_runs_none prev l : Forall (fun a => al_id a <> id) l -> plan_runs id true prev 0 (nodes l) = ([], 0%nat).
Proof.
  intros Hl. revert prev. induction Hl as [|a l Ha Hl IH]; intros prev; [done|]. rewrite fmap_cons. cbn [plan_runs chain_node cn_id].
  rewrite (proj2 (Z.eqb_neq _ _)) by done. by rewrite IH.
Qed.

Lemma last_cons_default {A} (x d : A) l : List.last (x :: l) d = List.last l x.
Proof. revert x d. induction l as [|y l IH]; intros x d; [done|]. change (List.last (x :: y :: l) d) with (List.last (y :: l) d). by rewrite !IH. Qed.

Lemma plan_runs_one prev pre t post : Forall (fun a => al_id a <> id) pre -> al_id t = id -> Forall (fun a => al_id a <> id) post ->
  let p := List.last (nodes pre) prev in
  plan_runs id true prev 0 (nodes (pre ++ t :: post)) =
    ([{| pr_pred_rel := cn_rel p; pr_new_next := link_first post; pr_pred_id := cn_id p; pr_shadows := 1 |}], 0%nat).
Proof.
  intros Hpre Ht Hpost. revert prev. induction Hpre as [|a pre Ha Hpre IH]; intros prev; cbv zeta; cbn [app]; rewrite fmap_cons; cbn [plan_runs chain_node cn_id].
  - rewrite Ht, Z.eqb_refl. destruct Hpost as [|b post Hb Hpost]; [done|]. rewrite fmap_cons. cbn [plan_runs chain_node cn_id].
    rewrite (proj2 (Z.eqb_neq _ _)) by done. by rewrite plan_runs_none.
  - rewrite (proj2 (Z.eqb_neq _ _)) by done. rewrite IH. cbv zeta. cbn [Nat.eqb]. rewrite fmap_cons. by rewrite last_cons_default.
Qed.

Lemma elected_link (st : StripeState) l : ss_stripe st = s -> Forall (fun a => fits 16 (Document.fill_serial (al_doc a))) l ->
  match elected_head st l with Some h => make_link (hc_rel h) (hc_serial h) | None => 0 end = link_first l.
Proof.
  intros E Hl. destruct Hl as [|a l Ha Hl]; [done|]. cbn. unfold al_link, link_to. rewrite E. f_equal. unfold u16. by rewrite wrap_small.
Qed.

Section cases.
Context (st : StripeState) (w : ChainWalk) (l : list Alternate).
Hypothesis Hst : ss_stripe st = s.
Hypothesis Hw : cw_nodes w = nodes l.
Hypothesis Hfully : l <> [] -> cw_fully w = true.
Hypothesis Hcycle : cw_cycle w = false.
Hypothesis Hser : Forall (fun a => fits 16 (Document.fill_serial (al_doc a))) l.

Lemma plan_absent : Forall (fun a => al_id a <> id) l ->
  plan_links true id (elected_head st l) w false = {| lp_next := link_first l; lp_repoints := []; lp_unlinked := 0; lp_deferred := 0 |}.
Proof using Hst Hw Hfully Hcycle Hser.
  intros Hl. unfold plan_links. rewrite (elected_link st l Hst Hser), Hw. destruct Hl as [|a l' Ha Hl]; [done|].
  rewrite !fmap_cons. cbn [leading_shadows chain_node cn_id]. rewrite (proj2 (Z.eqb_neq _ _)) by done. rewrite bool_decide_false by done.
  cbn [negb orb elected_head hd_error fmap option_fmap option_map]. rewrite bool_decide_false by done. rewrite Hfully, plan_runs_none by done.
  cbn [Nat.eqb]. by rewrite Hcycle.
Qed.

Lemma plan_front t l' : l = t :: l' -> al_id t = id -> Forall (fun a => al_id a <> id) l' ->
  plan_links true id (elected_head st l) w false = {| lp_next := link_first l'; lp_repoints := []; lp_unlinked := 1; lp_deferred := 0 |}.
Proof using Hst Hw Hfully Hcycle Hser.
  intros El Ht Hl'. unfold plan_links. rewrite (elected_link st l Hst Hser), Hw, El.
  rewrite !fmap_cons. cbn [leading_shadows chain_node cn_id]. rewrite Ht, Z.eqb_refl. rewrite !bool_decide_false by done. cbn [negb orb].
  destruct Hl' as [|b l' Hb Hl'].
  - by rewrite Hfully by by rewrite El.
  - rewrite fmap_cons. cbn [leading_shadows chain_node cn_id]. rewrite (proj2 (Z.eqb_neq _ _)) by done.
    rewrite Hfully, plan_runs_none by (done || by rewrite El). cbn [Nat.eqb is_current cn_cls]. by rewrite Hcycle.
Qed.

Lemma plan_middle pre p t post : l = pre ++ p :: t :: post -> Forall (fun a => al_id a <> id) (pre ++ [p]) -> al_id t = id ->
  Forall (fun a => al_id a <> id) post ->
  plan_links true id (elected_head st l) w false = {| lp_next := link_first l;
    lp_repoints := [{| pr_pred_rel := al_offset p - st_offset s; pr_new_next := link_first post; pr_pred_id := al_id p; pr_shadows := 1 |}];
    lp_unlinked := 0; lp_deferred := 0 |}.
Proof using Hst Hw Hfully Hcycle Hser.
  intros El Hpre Ht Hpost. assert (Hne : l <> []) by (rewrite El; by destruct pre).
  unfold plan_links. rewrite (elected_link st l Hst Hser), Hw. rewrite (bool_decide_false (nodes l = [])) by (by destruct l).
  rewrite (bool_decide_false (elected_head st l = None)) by (by destruct l). cbn [negb orb].
  replace l with (pre ++ [p] ++ t :: post) by done.
  assert (Hruns : exists a rest, pre ++ [p] ++ t :: post = a :: rest /\ al_id a <> id /\
    plan_runs id true (chain_node s a) 0 (nodes rest) =
      ([{| pr_pred_rel := al_offset p - st_offset s; pr_new_next := link_first post; pr_pred_id := al_id p; pr_shadows := 1 |}], 0%nat)).
  { destruct pre as [|a pre]; apply Forall_app in Hpre as [Hpre [Hp _]%Forall_cons].
    - exists p, (t :: post). split; [done|]. split; [done|]. apply (plan_runs_one (chain_node s p) []); done.
    - apply Forall_cons in Hpre as [Ha Hpre]. exists a, (pre ++ [p] ++ t :: post). split; [done|]. split; [done|].
      rewrite (app_assoc pre). rewrite plan_runs_one; [|by apply Forall_app; repeat constructor|done|done]. cbv zeta.
      rewrite fmap_app. cbn [fmap list_fmap]. by rewrite List.last_last. }
  destruct Hruns as (a & rest & El' & Ha & Hr). rewrite El', fmap_cons. cbn [leading_shadows chain_node cn_id].
  rewrite (proj2 (Z.eqb_neq _ _)) by done. rewrite Hfully by done. fold (chain_node s a). rewrite Hr. cbn [Nat.eqb]. rewrite Hcycle. done.
Qed.
End cases.
End plan.

(** ** The new document *)

Section document.
Context `{CK : Checksum} `{!ChecksumLaws CK}.
Context (key : CacheKey) (header content : list Z) (id now : Z).

Definition new_alternate (off next pass serial : Z) : Alternate := {|
  al_offset := off; al_doc := stamped (built_document (alternate_builder key header content id next now) content) pass serial;
  al_header := header; al_content := content |}.

Hypothesis Hk : key_ok key.
Hypothesis Hh : bytes_ok header.
Hypothesis Hc : bytes_ok content.
Hypothesis Hid : fits 8 id.
Hypothesis Hnow : - 2 ^ 63 <= now < 2 ^ 63.
Hypothesis Hsize : write_size header content < 2 ^ 32.

Lemma alternate_builder_ok next : fits 64 next -> builder_ok (alternate_builder key header content id next now) content.
Proof using Hk Hh Hc Hid Hnow Hsize.
  intros Hn. by split.
Qed.

(** The document in its slot. *)
Lemma new_alternate_whole off next pass serial : fits 64 next ->
  let a := new_alternate off next pass serial in
  whole (al_doc a) header content /\ from_digest (first_key (al_doc a)) = key /\ write_serial (al_doc a) = u32 pass /\
  Document.fill_serial (al_doc a) = u16 serial /\ al_id a = id /\ al_next a = next /\ len (al_doc a) = write_size header content.
Proof using Hk Hh Hc Hid Hnow Hsize ChecksumLaws0.
  intros Hn. pose proof (alternate_builder_ok next Hn) as Hb. pose proof (built_document_ok _ _ Hb) as Hd.
  destruct (built_document_fields _ Hb) as (Em & Ev & Ek & Ef & El & Eh & Et & Eo & Etl). cbv zeta in *.
  assert (Ei : Document.alternate_id (built_document (alternate_builder key header content id next now) content) = id) by done.
  assert (En : next_alternate_offset (built_document (alternate_builder key header content id next now) content) = next) by done.
  unfold new_alternate, al_id, al_next. cbn [al_doc]. cbn [b_content b_header alternate_builder] in *. set (d := built_document _ _) in *. clearbody d.
  pose proof (stamped_ok d pass serial Hd) as Hsd. split; [|split; [|done]].
  - split; try done. apply wrap_fits. lia.
  - change (first_key (stamped d pass serial)) with (first_key d). rewrite Ek. unfold from_digest. by destruct key.
Qed.

(** The bytes the slot is filled with. *)
Lemma stamped_build slot next : fits 64 next ->
  stamp_slot slot (build (alternate_builder key header content id next now)) =
    al_bytes (new_alternate (slot_write_offset slot) next (slot_pass slot) (slot_fill_serial slot)).
Proof using Hk Hh Hc Hid Hnow Hsize ChecksumLaws0.
  intros Hn. pose proof (alternate_builder_ok next Hn) as Hb. unfold stamp_slot. rewrite build_bytes by done.
  rewrite patched_head by by apply built_document_ok. done.
Qed.

Lemma length_build next : fits 64 next -> Z.of_nat (length (build (alternate_builder key header content id next now))) = write_size header content.
Proof using Hk Hh Hc Hid Hnow Hsize ChecksumLaws0.
  intros Hn. pose proof (alternate_builder_ok next Hn) as Hb. rewrite build_bytes, !length_app, length_serialize_to by (done || by apply built_document_ok).
  unfold kHeaderSize, write_size. cbn. lia.
Qed.
End document.

(** ** The reserved slot *)

(** Entries of the key in the current phase name headers below the cursor. *)
Definition settled (s : StripeState) (key : CacheKey) : Prop := forall x, x ∈ candidates s key -> phase x = ws_phase (ss_log s) ->
  st_offset (ss_stripe s) + DirEntry.offset x + 132 <= current_write_cursor (ss_stripe s) (ss_log s).

Section slot.
Context (bld : mulhi_build) (file : list Z) (s : StripeState) (key : CacheKey) (log : State) (slot : WriteSlot) (n : Z).
Local Abbreviation st := (ss_stripe s).
Local Abbreviation snap := (stripe_snapshot bld s).
Hypothesis Hok : stripe_state_ok file s.
Hypothesis Hroom : gen_room s.
Hypothesis Hlog : log_ok st log.
Hypothesis Hgen : ws_gen (ss_log s) <= ws_gen log <= ws_gen (ss_log s) + 2 * (st_chunks st + 1).
Hypothesis Hres : reserved bld st log n slot.
Hypothesis Hn : 132 <= n.
Hypothesis Hpass : pass_of bld st (ws_gen log) = pass_of bld st (ws_gen (ss_log s)).
Hypothesis Hpos : ws_write_pos log = ws_write_pos (ss_log s).
Hypothesis Hset : settled s key.

Definition granted : StripeState := set_dir (set_log s log) (set_current_phase (ss_dir s) (ws_phase log)).
Definition filled : StripeState := set_log granted (set_write_pos log (slot_new_write_pos slot)).
Local Abbreviation snap2 := (stripe_snapshot bld filled).

Lemma slot_at_cursor : slot_write_offset slot = current_write_cursor st (ss_log s).
Proof using Hok Hres Hpos. rewrite (rs_cursor _ _ _ _ _ Hres). unfold current_write_cursor. rewrite (sk_local _ _ Hok). done. Qed.

Lemma slot_bounds : st_offset st < slot_write_offset slot /\ st_data_offset st <= slot_write_offset slot /\
  slot_write_offset slot + n <= slot_new_write_pos slot <= st_offset st + st_size st.
Proof using Hok Hres.
  pose proof (so_start _ (sk_stripe _ _ Hok)) as Hst. unfold data_start_rel in Hst. pose proof (rs_area _ _ _ _ _ Hres). pose proof (rs_room _ _ _ _ _ Hres). lia.
Qed.

Lemma cursor_before : st_offset st + snap_cursor_rel snap = slot_write_offset slot.
Proof using Hok Hres Hpos Hn.
  pose proof slot_at_cursor as E. pose proof slot_bounds. pose proof (lo_pos _ _ (sk_log _ _ Hok)). unfold stripe_snapshot, snapshot. cbn [snap_cursor_rel].
  rewrite <- E in *. rewrite (proj2 (Z.ltb_lt _ _)) by lia. lia.
Qed.

Lemma cursor_after : st_offset st + snap_cursor_rel snap2 = slot_new_write_pos slot.
Proof using Hok Hres Hn.
  pose proof slot_bounds. unfold stripe_snapshot, snapshot. cbn [snap_cursor_rel ss_stripe ss_log filled set_log granted set_dir].
  unfold current_write_cursor. rewrite (sk_local _ _ Hok). cbn [ws_write_pos set_write_pos]. rewrite (proj2 (Z.ltb_lt _ _)) by lia. lia.
Qed.

Lemma pass_after : snap_pass snap2 = snap_pass snap.
Proof using Hpass. exact Hpass. Qed.

Lemma phase_after : snap_phase snap2 = snap_phase snap /\ snap_phase snap = ws_phase (ss_log s) /\ ws_phase log = ws_phase (ss_log s).
Proof using Hok Hroom Hlog Hgen Hpass.
  pose proof (sk_stripe _ _ Hok) as Hs. pose proof (so_chunks _ Hs). unfold gen_room in Hroom.
  assert (E : forall l, log_ok st l -> ws_gen l < 2 ^ 64 -> ws_phase l = phase_of_pass (pass_of bld st (ws_gen l))).
  { intros l [_ _ _ (pass & f & Hg & Hf & Hp & Hph & _)] Hlt. rewrite Hph, Hg in *. f_equal.
    rewrite (pass_of_spec bld st Hs), gen_at_div; try done. unfold fits, gen_at in *. nia. }
  pose proof (E _ (sk_log _ _ Hok) ltac:(lia)) as E1. pose proof (E _ Hlog ltac:(lia)) as E2.
  split; [|split].
  - unfold stripe_snapshot, snapshot. cbn [snap_phase ss_stripe ss_log filled granted set_log set_dir set_write_pos ws_gen]. by rewrite Hpass.
  - rewrite E1. done.
  - rewrite E1, E2. by rewrite Hpass.
Qed.

Lemma frontier_after : snap_frontier_rel snap <= snap_frontier_rel snap2.
Proof using Hok Hroom Hlog Hgen Hpass.
  pose proof (sk_stripe _ _ Hok) as Hs. pose proof (so_chunks _ Hs). unfold gen_room in Hroom.
  destruct (lo_gen _ _ (sk_log _ _ Hok)) as (p1 & f1 & Hg1 & Hf1 & Hp1 & _). destruct (lo_gen _ _ Hlog) as (p2 & f2 & Hg2 & Hf2 & Hp2 & _).
  assert (Hb : 0 <= gen_at st p1 f1 < 2 ^ 64 /\ 0 <= gen_at st p2 f2 < 2 ^ 64) by (unfold gen_at in *; nia).
  assert (p2 = p1) as ->.
  { revert Hpass. rewrite !(pass_of_spec bld st Hs), Hg1, Hg2, !gen_at_div; try done; rewrite ?Hg1, ?Hg2; unfold fits; lia. }
  rewrite (stripe_snapshot_at bld s p1 f1) by (done || lia).
  pose proof (stripe_snapshot_at bld filled p1 f2 Hs Hf2 Hp2 Hg2 (proj2 (proj2 Hb))) as ->. cbn [snap_frontier_rel].
  apply frontier_rel_mono; [done|]. unfold gen_at in *. lia.
Qed.

Lemma candidates_filled : candidates filled key = candidates s key.
Proof. done. Qed.

(** What the stripe admits after the reservation, it admitted before. *)
Lemma admit_before x snap' : x ∈ candidates s key -> snap_phase snap' = snap_phase snap2 -> snap_pass snap' = snap_pass snap2 ->
  snap_frontier_rel snap' = snap_frontier_rel snap2 -> admit_position st (DirEntry.offset x) (phase x) snap' <> kReject ->
  admit_position st (DirEntry.offset x) (phase x) snap = admit_position st (DirEntry.offset x) (phase x) snap'.
Proof using Hok Hroom Hlog Hgen Hpass Hres Hpos Hset Hn.
  intros Hx Eph Epa Efr. pose proof frontier_after as Hf. destruct phase_after as (Ep & Ep' & _). pose proof cursor_before as Ec. pose proof slot_at_cursor as Eo.
  unfold admit_position. rewrite Eph, Epa, Efr, Ep, pass_after. destruct (in_data_area _ _); [|done]. cbn [negb].
  destruct (Bool.eqb (phase x) (snap_phase snap)) eqn:E.
  - apply eqb_prop in E. pose proof (Hset x Hx ltac:(congruence)). destruct (_ <? snap_cursor_rel snap') eqn:E1; [|done].
    intros _. by rewrite (proj2 (Z.ltb_lt _ _)) by lia.
  - destruct (st_retain st && (0 <? snap_pass snap)); [|done]. cbn [andb]. destruct (Z.leb_spec (snap_frontier_rel snap2) (DirEntry.offset x)); [|done].
    intros _. by rewrite (proj2 (Z.leb_le _ _)) by lia.
Qed.

Lemma admitted_before x cls : (x, cls) ∈ admitted st snap2 (candidates s key) -> (x, cls) ∈ admitted st snap (candidates s key).
Proof using Hok Hroom Hlog Hgen Hpass Hres Hpos Hset Hn.
  intros (Hx & -> & Hn')%elem_of_admitted. apply elem_of_admitted. split; [done|]. by rewrite (admit_before x snap2).
Qed.

(** The headers of admitted entries lie outside the slot. *)
Lemma header_outside x cls : (x, cls) ∈ admitted st snap2 (candidates s key) ->
  st_offset st + DirEntry.offset x + 132 <= slot_write_offset slot \/
  Z.max (slot_new_write_pos slot) (slot_fill_end slot) <= st_offset st + DirEntry.offset x.
Proof using Hok Hroom Hlog Hgen Hpass Hres Hpos Hset Hn.
  intros (Hx & -> & Hn')%elem_of_admitted. pose proof slot_at_cursor as Eo. destruct phase_after as (Ep & Ep' & _).
  pose proof (rs_disjoint _ _ _ _ _ Hres (DirEntry.offset x) (phase x)) as Hd. cbv zeta in Hd.
  destruct (Bool.eqb (phase x) (snap_phase snap)) eqn:E.
  - left. apply eqb_prop in E. rewrite Eo. apply Hset; [done|congruence].
  - right. revert Hn' Hd. unfold admit_position. rewrite Ep.
    change (snap_phase (snapshot bld st (ws_gen log) (current_write_cursor st log))) with (snap_phase snap2). rewrite Ep, E.
    change (snap_pass (snapshot bld st (ws_gen log) (current_write_cursor st log))) with (snap_pass snap2).
    change (snap_frontier_rel (snapshot bld st (ws_gen log) (current_write_cursor st log))) with (snap_frontier_rel snap2).
    destruct (in_data_area _ _); [|done]. cbn [negb]. by destruct (_ && _ && _).
Qed.

(** ** The filled slot *)

Context (bytes : list Z).
Hypothesis Hfill : slot_write_offset slot + Z.of_nat (length bytes) <= Z.max (slot_new_write_pos slot) (slot_fill_end slot).
Hypothesis Hfits : slot_write_offset slot + Z.of_nat (length bytes) <= Z.of_nat (length file).
Definition file_filled : list Z := write_at file (Z.to_nat (slot_write_offset slot)) bytes.

Lemma length_filled : length file_filled = length file.
Proof using Hfits Hok Hres. pose proof slot_bounds. pose proof (so_offset _ (sk_stripe _ _ Hok)). apply length_write_at. lia. Qed.

Lemma header_kept x cls : (x, cls) ∈ admitted st snap2 (candidates s key) ->
  header_at file_filled (st_offset st + DirEntry.offset x) = header_at file (st_offset st + DirEntry.offset x).
Proof using Hok Hroom Hlog Hgen Hpass Hres Hpos Hset Hn Hfill Hfits.
  intros Hx. pose proof slot_bounds. pose proof (so_offset _ (sk_stripe _ _ Hok)). pose proof (header_outside x cls Hx) as Ho.
  apply elem_of_admitted in Hx as [Hx _]. pose proof (candidate_offset file s key x Hok Hx). unfold header_at, map_region. rewrite length_filled.
  unfold file_filled. rewrite subspan_write_at_other; [done|lia|]. unfold kHeaderSize. lia.
Qed.

Lemma stored_kept a : stored file st snap key a -> stored file_filled st snap2 key a.
Proof using Hok Hroom Hlog Hgen Hpass Hres Hpos Hn Hfits.
  intros Ha. pose proof slot_bounds. pose proof (sk_stripe _ _ Hok) as Hs. pose proof (so_offset _ Hs).
  pose proof (stored_range st snap key Hs (snapshot_cursor_le bld s Hs) file a Ha) as Hr. pose proof cursor_before. pose proof cursor_after.
  pose proof (length_al_bytes a (sd_whole _ _ _ _ _ Ha)) as Hl. destruct Ha as [Hw Hk Hst Ha Hc Hal Hb]. unfold al_end in *. split; try done.
  - rewrite <- Hst. unfold stamp_admits, expected_pass. by rewrite pass_after.
  - unfold al_end. lia.
  - unfold file_filled. rewrite subspan_write_at_other; [done|lia|]. lia.
Qed.
End slot.

(** ** The second look *)

Lemma recheck_fold verified seen m acc : snd acc = false -> (forall x (cls : AdmitClass), (x, cls) ∈ m -> DirEntry.offset x ∈ seen) ->
  fold_left (fun a c => snd (recheck_entry verified seen c.1 c.2 a)) m acc =
    (fst acc || existsb (fun c => match verified with Some off => DirEntry.offset c.1 =? off | None => false end) m, false).
Proof.
  revert acc. induction m as [|[x c] m IH]; intros [there unseen] E Hm; cbn [fst snd] in *; subst; [by rewrite orb_false_r|].
  cbn [fold_left existsb fst]. unfold recheck_entry at 2. cbn [fst snd].
  assert (existsb (Z.eqb (DirEntry.offset x)) seen = true) as ->.
  { apply existsb_exists. exists (DirEntry.offset x). split; [|apply Z.eqb_refl]. apply list_elem_of_In. apply (Hm x c). by left. }
  destruct (match verified with Some off => _ | None => _ end); cbn [snd]; rewrite IH; try done; try (intros y d Hy; apply (Hm y d); by right); cbn [fst].
  by rewrite !orb_true_l, orb_true_r.
Qed.

Lemma stale_now_false bld s verified seen key :
  (forall x cls, (x, cls) ∈ admitted (ss_stripe s) (stripe_snapshot bld s) (candidates s key) -> DirEntry.offset x ∈ seen) ->
  (forall off, verified = Some off -> exists x cls, (x, cls) ∈ admitted (ss_stripe s) (stripe_snapshot bld s) (candidates s key) /\ DirEntry.offset x = off) ->
  stale_now bld s verified seen key = false.
Proof.
  intros Hseen Hv. unfold stale_now. assert (Hfst : forall e cls a, fst (recheck_entry verified seen e cls a) = true).
  { intros e cls []. unfold recheck_entry. by case_match. }
  rewrite (probe_each_fold _ _ _ _ _ _ Hfst), recheck_fold by done. cbn [fst]. rewrite orb_false_r. apply negb_false_iff.
  destruct verified as [off|]; [|done]. destruct (Hv off eq_refl) as (x & cls & Hx & Ex). apply orb_true_iff. right.
  apply existsb_exists. exists (x, cls). split; [by apply list_elem_of_In|]. cbn. by apply Z.eqb_eq.
Qed.
