(* ===== verification/AlternateStore.v ===== *)
(** * A written alternate in the key's list

    The whole of [commit_alternate_write] on a key of the current pass: the new
    document is the head of the list and the alternate it replaces is gone. *)

From S2P Require Import Prelude Crc32c Key Document DirEntry Directory Geometry Stripe WriteLog RamCache LruCache Volume VolumeSpec VolumeCommit Alternates AlternateSpec AlternateChain AlternateEdit AlternateWrite AlternateCommit.
Local Open Scope cyc_scope.

(** What a key's list needs for a write: the alternates, their entries clear of
    one another, and nothing of the key above the cursor. *)
Record tidy (bld : mulhi_build) (file : list Z) (s : StripeState) (key : CacheKey) (l : list Alternate) : Prop := {
  td_holding : holding bld file s key l;
  td_apart : apart bld s key l;
  td_settled : settled s key }.

Section publish.
Context (bld : mulhi_build) (file : list Z) (s : StripeState) (key : CacheKey) (log : State) (slot : WriteSlot) (n : Z) (bytes : list Z).
Local Abbreviation st := (ss_stripe s).
Local Abbreviation snap := (stripe_snapshot bld s).
Hypothesis Hok : stripe_state_ok file s.
Hypothesis Hroom : gen_room s.
Hypothesis Hlog : log_ok st log.
Hypothesis Hgen : ws_gen (ss_log s) <= ws_gen log <= ws_gen (ss_log s) + 2 * (st_chunks st + 1).
Hypothesis Hres : reserved bld st log n slot.
Hypothesis Hn : 132 <= n < 2 ^ 33.
Hypothesis Hpass : pass_of bld st (ws_gen log) = pass_of bld st (ws_gen (ss_log s)).
Hypothesis Hpos : ws_write_pos log = ws_write_pos (ss_log s).
Hypothesis Hfill : slot_write_offset slot + Z.of_nat (length bytes) <= Z.max (slot_new_write_pos slot) (slot_fill_end slot).
Hypothesis Hfits : slot_write_offset slot + Z.of_nat (length bytes) <= Z.of_nat (length file).
Local Abbreviation s2 := (filled s log slot).
Local Abbreviation snap2 := (stripe_snapshot bld s2).
Local Abbreviation file2 := (file_filled file slot bytes).

Lemma filled_ok : slot_deferred_publish slot = true -> slot_holds_write_lock slot = st_use_mmap st ->
  commit_write_slot st slot true true log = (None, set_write_pos log (slot_new_write_pos slot)) /\ stripe_state_ok file2 s2.
Proof using Hok Hroom Hlog Hgen Hres Hn Hfits.
  intros Hdef Hlock. pose proof Hok as [Hst Hloc _ _ _ Hfile _]. unfold gen_room in Hroom.
  pose proof (commit_publishes bld st Hst n log slot true true Hlog Hres Hdef Hlock ltac:(lia) ltac:(lia)) as Hcp.
  assert (E : commit_write_slot st slot true true log = (None, set_write_pos log (slot_new_write_pos slot))).
  { unfold commit_write_slot. rewrite Hdef, Hlock, Hloc. done. }
  rewrite E in Hcp. destruct Hcp as (Hlog' & _). split; [done|]. apply (state_ok_file file); [|rewrite (length_filled bld file s log slot n Hok Hres bytes Hfits); lia].
  pose proof (state_ok_synced file s log Hok Hlog) as []. by split.
Qed.

Hypothesis Hok2 : stripe_state_ok file2 s2.
Hypothesis Hset : settled s key.

(** Publishing [a], whose bytes fill the slot, in front of a tail of the list. *)
Lemma publish_front l rs a l1 : resolved bld file s key l rs -> l1 `suffix_of` l ->
  Forall (stored file st snap key) l -> apart bld s key l -> linked st (a :: l1) -> (length l < kMaxChainTraversalDepth)%nat ->
  stored file2 st snap2 key a -> al_offset a = slot_write_offset slot -> len (al_doc a) = n -> al_end a <= slot_new_write_pos slot ->
  slot_write_offset slot + n + 4096 <= Z.of_nat (length file) ->
  let r := @insert_admitted _ (stripe_admission bld) (ss_dir s2) key (slot_write_offset slot - st_offset st) n
             (match rs_head rs with Some h => hc_rel h | None => kNoVerifiedEntry end) (admission bld s2) (rs_clear rs) (Some (rs_seen rs))
             (Document.fill_serial (al_doc a)) in
  ir_ok r = true /\ stripe_state_ok file2 (set_dir s2 (ir_dir r)) /\ tidy bld file2 (set_dir s2 (ir_dir r)) key (a :: l1).
Proof using All.
  intros [Hseen Heach Hhead Hentry _ _ _] Hsuf Hst Hap Hlk Hlen Ha Eo El He Hmap r.
  pose proof (sk_stripe _ _ Hok) as Hs. pose proof (slot_bounds bld file s log slot n Hok Hres) as Hb. pose proof (so_offset _ Hs). pose proof (so_size _ Hs).
  pose proof (sd_whole _ _ _ _ _ Ha) as Hw. pose proof (snapshot_cursor_le bld s2 Hs) as Hc2.
  destruct (stored_range st snap2 key Hs Hc2 file2 a Ha) as (Hra & Hsa & Hea & _ & _ & Hla).
  assert (Hbef : forall x cls, (x, cls) ∈ admitted st snap2 (candidates s key) -> (x, cls) ∈ admitted st snap (candidates s key))
    by (intros x cls; apply (admitted_before bld file s key log slot n); try done; lia).
  assert (Hout : forall x cls, (x, cls) ∈ admitted st snap2 (candidates s key) -> st_offset st + DirEntry.offset x + 132 <= slot_write_offset slot \/
      Z.max (slot_new_write_pos slot) (slot_fill_end slot) <= st_offset st + DirEntry.offset x)
    by (intros x cls; apply (header_outside bld file s key log slot n); try done; lia).
  destruct (insert_leads bld file2 s2 key (match rs_head rs with Some h => hc_rel h | None => kNoVerifiedEntry end) (rs_seen rs) (rs_clear rs)
      (fun x => ~ keyed file s key x) (slot_write_offset slot - st_offset st) n (Document.fill_serial (al_doc a)))
    as (Hiok & _ & Hok' & before & e & after & Hcand & Eoff & Efs & Eph & Hap' & Hsub & Hothers); try done.
  { destruct (rs_head rs) as [h|] eqn:Eh; [|by left]. right. destruct (Hentry h eq_refl) as (x & (Hx & _)%elem_of_admitted & Ex). by exists x. }
  { intros x cls Hx. by apply (Hseen x cls), Hbef. }
  { intros x cls Hx. destruct (Heach x cls (Hbef x cls Hx)) as [|[E|]]; [by left| |by right; right].
    right; left. destruct (rs_head rs); [|done]. by injection E as ->. }
  { lia. }
  { apply Hw. }
  { lia. }
  cbv zeta in *. fold r in Hiok, Hok', Hcand, Hothers. change (ss_stripe s2) with st in Hothers.
  assert (Hnew : forall x, x ∈ candidates (set_dir s2 (ir_dir r)) key -> x = e \/ x ∈ candidates s key).
  { intros x. rewrite Hcand, elem_of_app, elem_of_cons. intros [?|[->|?]]; [right|by left|right]; apply Hsub, elem_of_app; auto. }
  assert (Hstl : Forall (stored file st snap key) l1) by (destruct Hsuf as [l0 ->]; by apply Forall_app in Hst as [_ ?]).
  destruct (phase_after bld file s log slot Hok Hroom Hlog Hgen Hpass) as (_ & _ & Eph').
  split; [done|]. split; [done|]. split; [split| |].
  - exists before, e, after, a. split; [done|]. split; cbn [ss_stripe set_dir]; change (ss_stripe s2) with st.
    + done.
    + intros x cls Hx Hcl. apply (Hothers x cls Hx). destruct Hcl as (r0 & Hh & Hk & _). exists r0. split; [|done].
      assert (Hx2 : (x, cls) ∈ admitted st snap2 (candidates s key)).
      { apply elem_of_admitted in Hx as [Hx Hcls]. apply elem_of_admitted. split; [by apply Hsub|done]. }
      rewrite <- Hh. symmetry. apply (header_kept bld file s key log slot n) with (cls := cls); try done; lia.
    + rewrite Eoff, Eph, (sk_phase _ _ Hok2). apply (position_current bld s2); [done|apply Hok2|cbn; unfold gen_room in Hroom; lia| |].
      * change (ss_stripe s2) with st. lia.
      * change (ss_stripe s2) with st. unfold current_write_cursor. rewrite (sk_local _ _ Hok). cbn. lia.
    + rewrite Eoff. lia.
    + unfold entry_binds. by rewrite Efs, Z.eqb_refl.
    + rewrite (length_filled bld file s log slot n Hok Hres bytes Hfits). lia.
  - constructor; [done|]. eapply Forall_impl; [exact Hstl|]. intros b Hb'. apply (stored_kept bld file s key log slot n); try done; lia.
  - done.
  - destruct Hsuf as [l0 ->]. rewrite length_app in Hlen. cbn [length]. lia.
  - intros x cls b (Hx & Hcls)%elem_of_admitted Hin. cbn [ss_stripe set_dir]. change (ss_stripe s2) with st.
    assert (Hbl : forall b, b ∈ l1 -> al_end b <= slot_write_offset slot /\ 132 <= len (al_doc b)).
    { intros b' Hb'. rewrite Forall_forall in Hstl. specialize (Hstl b' Hb').
      pose proof (stored_below_cursor bld file s key b' Hs Hstl) as Hbc. rewrite (slot_at_cursor bld file s log slot n Hok Hres Hpos).
      pose proof (stored_range st snap key Hs (snapshot_cursor_le bld s Hs) file b' Hstl). split; [done|lia]. }
    destruct (Hnew x Hx) as [->|Hxo].
    + rewrite Eoff. apply elem_of_cons in Hin as [->|Hin]; [left; lia|]. destruct (Hbl b Hin). unfold al_end in *. right; right. lia.
    + assert (Hx2 : (x, cls) ∈ admitted st snap2 (candidates s key)) by by apply elem_of_admitted.
      apply elem_of_cons in Hin as [->|Hin].
      * rewrite Eo. specialize (Hout x cls Hx2). lia.
      * apply (Hap x cls); [by apply Hbef|]. destruct Hsuf as [l0 ->]. apply elem_of_app. by right.
  - intros x Hx Hph. cbn [ss_stripe ss_log set_dir] in *. change (ss_stripe s2) with st in *. unfold current_write_cursor.
    rewrite (sk_local _ _ Hok). cbn. destruct (Hnew x Hx) as [->|Hxo]; [rewrite Eoff; lia|].
    assert (Hph' : phase x = ws_phase (ss_log s)) by (rewrite Hph; exact Eph').
    pose proof (Hset x Hxo Hph') as Hle. pose proof (slot_at_cursor bld file s log slot n Hok Hres Hpos). lia.
Qed.
End publish.

Section links.
Context (s : Stripe) (snap : StripeSnapshot) (key : CacheKey) (file : list Z).
Hypothesis Hs : stripe_ok s.
Hypothesis Hcur : snap_cursor_rel snap <= st_size s.

Lemma link_first_fits l : Forall (stored file s snap key) l -> fits 64 (link_first s l).
Proof using Hs Hcur.
  intros Hl. destruct Hl as [|a l Ha _]; [done|]. cbn [link_first]. unfold al_link, link_to.
  destruct (stored_range s snap key Hs Hcur file a Ha) as (Hr & _ & _ & _ & Hf & _).
  destruct (link_roundtrip (al_offset a - st_offset s) (u16 (Document.fill_serial (al_doc a))) (al_doc a)) as (H1 & _);
    [done|apply wrap_fits; lia|lia|]. done.
Qed.

(** A new head above the list. *)
Lemma linked_cons a l : (l = [] \/ linked s l) -> al_next a = link_first s l -> Forall (fun b => al_end b <= al_offset a) l -> linked s (a :: l).
Proof using.
  intros Hl En Hb. destruct l as [|b l]; cbn [linked link_first] in *; [by rewrite En|]. destruct Hl as [|Hl]; [done|].
  apply Forall_cons in Hb as [Hb _]. done.
Qed.

Lemma linked_splice p t post d : Forall (fun x => 0 <= len (al_doc x)) (p :: t :: post) -> same_document (al_doc p) d ->
  next_alternate_offset d = link_first s post -> linked s (p :: t :: post) -> linked s (with_doc p d :: post).
Proof using.
  intros Hl Hd En Hk. pose proof (linked_below s p (t :: post) Hl Hk) as [_ Hb]%Forall_cons.
  apply linked_cons; [|done|done]. destruct post as [|b post]; [by left|right]. cbn [linked] in Hk. apply Hk.
Qed.
End links.

Section attempt.
Context (bld : mulhi_build) `{CK : Checksum} `{!ChecksumLaws CK} {C : Type} `{!RamCacheOps C, !RamCacheLaws C} (cfg : VolumeConfig).

Lemma new_stored file s key header content id now next log slot tail :
  stripe_state_ok file s -> log_ok (ss_stripe s) log -> reserved bld (ss_stripe s) log (write_size header content) slot ->
  key_ok key -> bytes_ok header -> bytes_ok content -> fits 8 id -> - 2 ^ 63 <= now < 2 ^ 63 -> write_size header content < 2 ^ 32 -> fits 64 next ->
  let a := new_alternate key header content id now (slot_write_offset slot) next (slot_pass slot) (slot_fill_serial slot) in
  stored (file_filled file slot (al_bytes a ++ tail)) (ss_stripe s) (stripe_snapshot bld (filled s log slot)) key a.
Proof using ChecksumLaws0.
  intros Hok Hlog Hres Hk Hh Hc Hid Hnow Hsz Hn a. pose proof (sk_stripe _ _ Hok) as Hs. pose proof (so_offset _ Hs). pose proof (so_size _ Hs). pose proof (so_start _ Hs) as Hstart.
  pose proof (slot_bounds bld file s log slot _ Hok Hres) as Hb. pose proof (rs_room _ _ _ _ _ Hres) as Hroom. pose proof (sk_file _ _ Hok).
  pose proof (cursor_after bld file s log slot _ Hok Hres ltac:(unfold write_size; lia)) as Hcur.
  destruct (new_alternate_whole key header content id now Hk Hh Hc Hid Hnow Hsz (slot_write_offset slot) next (slot_pass slot) (slot_fill_serial slot) Hn)
    as (Hw & Hkey & Hws & _ & _ & _ & Hlen). fold a in Hw, Hkey, Hws, Hlen. unfold data_start_rel in Hstart.
  assert (Hwsz : 132 <= write_size header content) by (unfold write_size; lia).
  split; [done|done| | | | |].
  - unfold stamp_admits. rewrite Hws, (rs_pass _ _ _ _ _ Hres). destruct (st_retain _); [|done]. cbn. apply Z.eqb_refl.
  - cbn [al_offset a new_alternate]. apply in_data_area_spec; [done|lia|]. unfold data_start_rel, kHeaderSize. lia.
  - unfold al_end. rewrite Hlen. cbn [al_offset a new_alternate]. cbn [ss_stripe filled granted set_log set_dir] in Hcur. lia.
  - cbn [al_offset a new_alternate]. apply Z.mod_divide; [lia|]. apply (rs_align _ _ _ _ _ Hres).
  - apply subspan_write_at. cbn [al_offset a new_alternate]. lia.
Qed.

(** A slot of the current pass, granted and filled to its end. *)
Record grants (env : WriteEnv) (s : StripeState) (n : Z) (slot : WriteSlot) (log : State) : Prop := {
  gr_slot : allocate_write_slot bld (vc_log cfg) (ss_stripe s) (we_lock env) (we_now1 env) (we_now2 env) n (ss_log s) = (inr slot, log);
  gr_pass : pass_of bld (ss_stripe s) (ws_gen log) = pass_of bld (ss_stripe s) (ws_gen (ss_log s));
  gr_fill : Z.max (slot_new_write_pos slot) (slot_fill_end slot) - slot_write_offset slot <= Z.of_nat (we_written env) }.

Definition no_carry : CarryPlan := {| cp_bytes := []; cp_starts := []; cp_dropped := 0 |}.

(** What a granted slot gives. *)
Record slotted (file : list Z) (s : StripeState) (n : Z) (slot : WriteSlot) (log : State) : Prop := {
  so_log : log_ok (ss_stripe s) log;
  so_gen : ws_gen (ss_log s) <= ws_gen log <= ws_gen (ss_log s) + 2 * (st_chunks (ss_stripe s) + 1);
  so_res : reserved bld (ss_stripe s) log n slot;
  so_same : pass_of bld (ss_stripe s) (ws_gen log) = pass_of bld (ss_stripe s) (ws_gen (ss_log s));
  so_pos : ws_write_pos log = ws_write_pos (ss_log s);
  so_deferred : slot_deferred_publish slot = true;
  so_lock : slot_holds_write_lock slot = st_use_mmap (ss_stripe s) }.

Lemma grants_slotted env file s n slot log : stripe_state_ok file s -> gen_room s -> 132 <= n < 2 ^ 33 ->
  c_advance_cursor_at_reservation (vc_log cfg) = false -> grants env s n slot log -> slotted file s n slot log.
Proof.
  intros Hok Hroom Hn Hseam [Ea Hp _]. pose proof (sk_stripe _ _ Hok) as Hs. unfold gen_room in Hroom. pose proof (so_chunks _ Hs).
  pose proof (sk_local _ _ Hok) as Hloc.
  pose proof (allocate_spec bld (ss_stripe s) Hs (vc_log cfg) (we_lock env) (we_now1 env) (we_now2 env) n (ss_log s)
    (sk_log _ _ Hok) ltac:(lia) ltac:(lia) ltac:(congruence) Hseam) as Hal.
  pose proof (allocate_keeps_cursor bld (ss_stripe s) Hs (vc_log cfg) (we_lock env) (we_now1 env) (we_now2 env) n (ss_log s)
    Hloc (sk_log _ _ Hok) ltac:(lia) ltac:(lia) Hseam) as Hpos.
  rewrite Ea in Hal, Hpos. destruct Hal as (H1 & H2 & H3 & H4 & H5 & _). split; try done. by apply Hpos.
Qed.

(** The bytes of the fill: the document, and the zeroed tail. *)
Definition fill_of (slot : WriteSlot) (n : Z) (doc : list Z) : list Z :=
  doc ++ replicate (Z.to_nat (if slot_fill_end slot =? 0 then 0 else slot_fill_end slot - (slot_write_offset slot + n))) 0.

Lemma length_fill_of slot n doc file s log : reserved bld (ss_stripe s) log n slot -> Z.of_nat (length doc) = n -> stripe_state_ok file s ->
  slot_write_offset slot + Z.of_nat (length (fill_of slot n doc)) <= Z.max (slot_new_write_pos slot) (slot_fill_end slot).
Proof.
  intros Hres Hn Hok. pose proof (slot_bounds bld file s log slot n Hok Hres). unfold fill_of. rewrite length_app, length_replicate.
  destruct (Z.eqb_spec (slot_fill_end slot) 0); lia.
Qed.

(** The bucket has not moved between the probe and the fill. *)
Lemma granted_not_stale file s key log slot n l rs : stripe_state_ok file s -> gen_room s -> slotted file s n slot log -> 132 <= n -> settled s key ->
  resolved bld file s key l rs -> stale_now bld (granted s log) (hc_rel <$> rs_head rs) (rs_seen rs) key = false.
Proof.
  intros Hok Hroom [Hlog Hgen Hres Hpass Hpos Hdef Hlock] Hn Hset [Hseen _ _ Hentry _ _ _].
  pose proof (admit_before bld file s key log slot n Hok Hroom Hlog Hgen Hres Hn Hpass Hpos Hset) as Hbef.
  apply stale_now_false.
  - intros x cls (Hx & -> & Hne)%elem_of_admitted. apply (Hseen x (admit_position (ss_stripe s) (DirEntry.offset x) (phase x) (stripe_snapshot bld s))).
    apply elem_of_admitted. split; [done|]. split; [done|]. by rewrite (Hbef x (stripe_snapshot bld (granted s log)) Hx).
  - intros off Ho. destruct (rs_head rs) as [h|]; [|done]. injection Ho as <-. destruct (Hentry h eq_refl) as (e & (He & Ec & _)%elem_of_admitted & Eo).
    exists e, kCurrent. split; [|done]. apply elem_of_admitted. split; [done|]. split; [|done].
    destruct (phase_after bld file s log slot Hok Hroom Hlog Hgen Hpass) as (Eph & _).
    rewrite Ec. unfold admit_position. change (ss_stripe (granted s log)) with (ss_stripe s).
    change (snap_phase (stripe_snapshot bld (granted s log))) with (snap_phase (stripe_snapshot bld (filled s log slot))). rewrite Eph.
    assert (snap_cursor_rel (stripe_snapshot bld (granted s log)) = snap_cursor_rel (stripe_snapshot bld s)) as ->.
    { unfold stripe_snapshot, snapshot. cbn [snap_cursor_rel]. unfold current_write_cursor. cbn [ss_stripe ss_log granted set_log set_dir]. by rewrite (sk_local _ _ Hok), Hpos. }
    revert Ec. unfold admit_position. destruct (in_data_area _ _); [|done]. cbn [negb]. destruct (Bool.eqb _ _); [done|]. by destruct (_ && _ && _).
Qed.

Lemma publish_attempt env allow i key id header content now (v : Volume (C := C)) s l rs l1 reps u slot log :
  stripe_state_ok (v_file v) s -> gen_room s -> grants env s (write_size header content) slot log -> slotted (v_file v) s (write_size header content) slot log ->
  key_ok key -> bytes_ok header -> bytes_ok content -> fits 8 id -> - 2 ^ 63 <= now < 2 ^ 63 -> write_size header content < 2 ^ 32 ->
  slot_write_offset slot + write_size header content + 8192 <= Z.of_nat (length (v_file v)) ->
  resolved bld (v_file v) s key l rs -> l1 `suffix_of` l -> (l1 = [] \/ linked (ss_stripe s) l1) ->
  Forall (stored (v_file v) (ss_stripe s) (stripe_snapshot bld s) key) l -> apart bld s key l -> settled s key -> (length l < kMaxChainTraversalDepth)%nat ->
  let a := new_alternate key header content id now (slot_write_offset slot) (link_first (ss_stripe s) l1) (slot_pass slot) (slot_fill_serial slot) in
  exists file2 s2 v2, stripe_state_ok file2 s2 /\ tidy bld file2 s2 key (a :: l1) /\ length file2 = length (v_file v) /\
    ss_stripe s2 = ss_stripe s /\ ss_owned s2 = ss_owned s /\ ss_log s2 = set_write_pos log (slot_new_write_pos slot) /\
    v_stripes v2 = v_stripes v /\ v_ram v2 = v_ram v /\ v_generation v2 = v_generation v /\
    fill_and_publish bld env allow i key id (stripe_snapshot bld s) rs
      {| lp_next := link_first (ss_stripe s) l1; lp_repoints := reps; lp_unlinked := u; lp_deferred := 0 |} false false
      (build (alternate_builder key header content id (link_first (ss_stripe s) l1) now)) no_carry slot (granted s log) v =
    (let '(file, unlinked, deferred) := fold_left (splice bld s2 key (stripe_snapshot bld s)) reps (file2, u, 0%nat) in
    v ← invalidate_ram (fun c => snd <$> rc_remove (alternate_key key id) c) i s2
      (count_write unlinked deferred false false false no_carry (set_file v2 file));
    Some (Finished (inr tt), v)).
Proof using ChecksumLaws0.
  intros Hok Hroom Hgr [Hlog Hgen Hres Hpass Hpos Hdef Hlock] Hk Hh Hc Hid Hnow Hsz Hmap Hrs Hsuf Hlk1 Hst Hap Hset Hlen a.
  pose proof (sk_stripe _ _ Hok) as Hs. pose proof (snapshot_cursor_le bld s Hs) as Hcur. pose proof (so_offset _ Hs).
  assert (Hn : 132 <= write_size header content < 2 ^ 33) by (unfold write_size in *; lia).
  pose proof (slot_bounds bld (v_file v) s log slot _ Hok Hres) as Hb. pose proof (rs_room _ _ _ _ _ Hres) as Hroom'. pose proof (rs_tail _ _ _ _ _ Hres) as Htail.
  assert (Hst1 : Forall (stored (v_file v) (ss_stripe s) (stripe_snapshot bld s) key) l1) by (destruct Hsuf as [l0 ->]; by apply Forall_app in Hst as [_ ?]).
  pose proof (link_first_fits (ss_stripe s) _ key (v_file v) Hs Hcur l1 Hst1) as Hnf.
  pose proof (stamped_build key header content id now Hk Hh Hc Hid Hnow Hsz slot _ Hnf) as Ebytes. fold a in Ebytes.
  pose proof (length_build key header content id now Hk Hh Hc Hid Hnow Hsz _ Hnf) as Elen.
  destruct (new_alternate_whole key header content id now Hk Hh Hc Hid Hnow Hsz (slot_write_offset slot) _ (slot_pass slot) (slot_fill_serial slot) Hnf)
    as (Hw & _ & _ & Efs & _ & Enx & Eln). fold a in Hw, Efs, Enx, Eln.
  assert (Elb : Z.of_nat (length (al_bytes a)) = write_size header content) by (rewrite (length_al_bytes a) by done; done).
  set (bytes := fill_of slot (write_size header content) (al_bytes a)).
  pose proof (length_fill_of slot _ (al_bytes a) (v_file v) s log Hres Elb Hok) as Hfill. fold bytes in Hfill.
  assert (Hfits : slot_write_offset slot + Z.of_nat (length bytes) <= Z.of_nat (length (v_file v))) by (unfold kTailFillPage in Htail; lia).
  destruct (filled_ok bld (v_file v) s log slot _ bytes Hok Hroom Hlog Hgen Hres Hn Hfits Hdef Hlock) as [Ecommit Hok2].
  pose proof (new_stored (v_file v) s key header content id now _ log slot
    (replicate (Z.to_nat (if slot_fill_end slot =? 0 then 0 else slot_fill_end slot - (slot_write_offset slot + write_size header content))) 0)
    Hok Hlog Hres Hk Hh Hc Hid Hnow Hsz Hnf) as Hsta. cbv zeta in Hsta. fold a bytes in Hsta.
  assert (Hlka : linked (ss_stripe s) (a :: l1)).
  { apply linked_cons; [done|done|]. apply Forall_forall. intros b Hin. rewrite Forall_forall in Hst1.
    pose proof (stored_below_cursor bld (v_file v) s key b Hs (Hst1 b Hin)) as Hbc. cbn [al_offset a new_alternate].
    rewrite (slot_at_cursor bld (v_file v) s log slot _ Hok Hres Hpos). done. }
  destruct (publish_front bld (v_file v) s key log slot _ bytes Hok Hroom Hlog Hgen Hres Hn Hpass Hpos Hfill Hfits Hok2 Hset l rs a l1 Hrs Hsuf Hst Hap Hlka Hlen Hsta eq_refl Eln)
    as (Hiok & Hok3 & Htd).
  { unfold al_end. rewrite Eln. cbn [al_offset a new_alternate]. lia. }
  { lia. }
  cbv zeta in *. set (r := insert_admitted _ _ _ _ _ _ _ _ _) in *.
  exists (file_filled (v_file v) slot bytes), (set_dir (filled s log slot) (ir_dir r)), (event (evictions r (set_file v (file_filled (v_file v) slot bytes))) VWrite).
  split; [done|]. split; [done|]. split; [by apply (length_filled bld (v_file v) s log slot (write_size header content))|]. split; [done|]. split; [done|].
  split; [done|]. split; [unfold evictions; by repeat case_match|]. split; [unfold evictions; by repeat case_match|]. split; [unfold evictions; by repeat case_match|].
  unfold fill_and_publish. cbn [cp_bytes cp_starts cp_dropped no_carry length split_starts link_carried lp_next lp_repoints lp_unlinked lp_deferred].
  change (ss_stripe (granted s log)) with (ss_stripe s). change (ss_log (granted s log)) with log.
  assert (wrapped_since bld (ss_stripe s) (ws_gen log) (stripe_snapshot bld s) = false) as ->.
  { unfold wrapped_since. rewrite Hpass. exact (not_wrapped bld s). }
  assert (match rs_head rs with Some h => is_current (hc_cls h) | None => true end = true) as ->.
  { rewrite (rv_head _ _ _ _ _ _ Hrs). by destruct l. }
  rewrite (granted_not_stale (v_file v) s key log slot _ l rs) by (done || lia).
  rewrite andb_false_r. cbn [negb andb orb concat app Nat.eqb]. rewrite Ebytes, Elb, Elen. fold bytes.
  change (al_bytes a ++ replicate (Z.to_nat (if slot_fill_end slot =? 0 then 0 else slot_fill_end slot - (slot_write_offset slot + write_size header content))) 0)
    with bytes.
  pose proof (gr_fill _ _ _ _ _ Hgr) as Hwritten. rewrite (proj2 (Nat.leb_le (length bytes) _)), take_ge by lia.
  assert (commit_write_slot (ss_stripe s) slot true (we_lock_valid env) log = (None, set_write_pos log (slot_new_write_pos slot))) as ->.
  { rewrite <- Ecommit. unfold commit_write_slot. by rewrite Hdef, Hlock, (sk_local _ _ Hok). }
  cbn [negb]. change (Z.of_nat 0) with 0. rewrite Z.add_0_r, (proj2 (Z.ltb_ge _ _)), (proj2 (Z.ltb_ge (st_size _) _)) by lia. cbn [orb].
  rewrite (not_wrapped bld (granted s log) : wrapped_since bld (ss_stripe s) (ws_gen (set_write_pos log (slot_new_write_pos slot))) _ = false).
  change (set_log (granted s log) (set_write_pos log (slot_new_write_pos slot))) with (filled s log slot).
  change (Build_StripeAdmission _ _ _ _) with (admission bld (filled s log slot)). rewrite <- Efs. fold r. rewrite Hiok. done.
Qed.

Lemma count_write_frame u d (v : Volume (C := C)) : let v' := count_write u d false false false no_carry v in
  v_stripes v' = v_stripes v /\ v_file v' = v_file v /\ v_ram v' = v_ram v /\ v_generation v' = v_generation v.
Proof. unfold count_write, event_if. cbn [andb]. by destruct (negb (u =? 0)%nat), (negb (d =? 0)%nat). Qed.

Lemma volume_ok_frame (v v' : Volume (C := C)) : v_stripes v' = v_stripes v -> v_ram v' = v_ram v -> (length (v_file v) <= length (v_file v'))%nat ->
  volume_ok v -> volume_ok v'.
Proof.
  intros E1 E2 Hl [Hst Hram]. split.
  - intros i s Hi. rewrite E1 in Hi. eapply state_ok_file; [by eapply Hst|done].
  - unfold ram_ok in *. by rewrite E2.
Qed.

Lemma tidy_epoch file s key l : tidy bld file s key l -> tidy bld file (bump_remove_epoch s) key l.
Proof.
  intros [H1 H2 H3]. split; [|exact H2|exact H3]. destruct l; [exact H1|]. by apply holds_epoch.
Qed.

(** The end of a write whose list is in place. *)
Lemma settle_write key id i u d (v v2 : Volume (C := C)) file3 s s3 l : volume_ok v -> select_stripe v key = Some (i, s) ->
  v_stripes v2 = v_stripes v -> v_ram v2 = v_ram v -> length file3 = length (v_file v) -> stripe_state_ok file3 s3 -> tidy bld file3 s3 key l ->
  exists v' s', invalidate_ram (fun c => snd <$> rc_remove (alternate_key key id) c) i s3 (count_write u d false false false no_carry (set_file v2 file3)) = Some v' /\
    volume_ok v' /\ select_stripe v' key = Some (i, s') /\ ss_owned s' = ss_owned s3 /\ ss_stripe s' = ss_stripe s3 /\ ss_log s' = ss_log s3 /\
    length (v_file v') = length (v_file v) /\ tidy bld (v_file v') s' key l.
Proof.
  intros Hv Hsel E1 E2 El Hok Htd. destruct (count_write_frame u d (set_file v2 file3)) as (F1 & F2 & F3 & _). cbv zeta in *. set (v3 := count_write _ _ _ _ _ _ _) in *.
  cbn [v_stripes v_file v_ram set_file] in F1, F2, F3.
  assert (Hv3 : volume_ok v3) by (apply (volume_ok_frame v); [congruence|congruence|rewrite F2; lia|done]).
  destruct (invalidate_ram_spec _ i s3 v3 _ Hv3 ltac:(by rewrite F2) (drop_alternate key id)) as (v' & s' & E & Hv' & Est & Es' & Ef & _).
  exists v', s'. split; [done|]. split; [done|]. split; [eapply select_stripe_insert; [exact Hsel|congruence]|]. rewrite Ef, F2.
  destruct Es' as [->| ->]; (split; [done|]; split; [done|]; split; [done|]; split; [done|]); [done|by apply tidy_epoch].
Qed.

(** The splice of a superseded alternate in the middle. *)
Lemma splice_holds file s key snap0 a pre p t post : stripe_state_ok file s -> snap_pass snap0 = snap_pass (stripe_snapshot bld s) ->
  tidy bld file s key (a :: pre ++ p :: t :: post) ->
  exists file' p', splice bld s key snap0 (file, 0%nat, 0%nat)
      {| pr_pred_rel := al_offset p - st_offset (ss_stripe s); pr_new_next := link_first (ss_stripe s) post; pr_pred_id := al_id p; pr_shadows := 1 |} =
      (file', 1%nat, 0%nat) /\
    length file' = length file /\ tidy bld file' s key (a :: pre ++ p' :: post) /\ al_info p' = al_info p /\ al_content p' = al_content p.
Proof.
  intros Hok Hsn [Hh Hap Hset]. pose proof (sk_stripe _ _ Hok) as Hs. pose proof (snapshot_cursor_le bld s Hs) as Hc. pose proof (so_offset _ Hs). pose proof (sk_file _ _ Hok).
  pose proof Hh as [_ Hst Hlk _]. change (a :: pre ++ p :: t :: post) with ((a :: pre) ++ p :: t :: post) in *.
  pose proof Hst as [_ Hst2]%Forall_app. pose proof Hst2 as [Hp [_ Hpost]%Forall_cons]%Forall_cons.
  pose proof (link_first_fits _ _ key file Hs Hc post Hpost) as Hf.
  pose proof (store_next_edit bld file s key p (link_first (ss_stripe s) post) Hok Hp Hf) as He.
  pose proof (stored_range _ _ _ Hs Hc _ p Hp) as Hr. unfold al_end in *.
  exists (store_next (al_offset p) (link_first (ss_stripe s) post) file), (with_doc p (with_next (al_doc p) (link_first (ss_stripe s) post))).
  split; [|split; [apply He|split; [split|done]]].
  - unfold splice, repoint_chain_link. cbn [pr_pred_rel pr_new_next pr_pred_id pr_shadows].
    replace (st_offset (ss_stripe s) + (al_offset p - st_offset (ss_stripe s))) with (al_offset p) by lia.
    rewrite map_region_eq by (unfold kHeaderSize; lia). by rewrite (rmw_stored bld file s key Hok snap0 p _ Hsn Hp).
  - apply (edit_holds bld file s key Hok _ (a :: pre) p (t :: post) _ post); [exact Hh|exact Hap|exact He|by exists [t]|].
    apply (linked_splice _ p t); [by eapply (stored_len_nonneg bld file s key Hok)|apply He|done|by eapply linked_app_r].
  - intros x cls b Hx Hb.
    assert (exists b0, b0 ∈ (a :: pre) ++ p :: t :: post /\ al_offset b0 = al_offset b) as (b0 & Hin & <-); [|by apply (Hap x cls)].
    apply elem_of_cons in Hb as [->|Hb]; [exists a; split; [by left|done]|].
    apply elem_of_app in Hb as [Hb|[->|Hb]%elem_of_cons]; [exists b|exists p|exists b]; (split; [|done]);
      rewrite elem_of_app, !elem_of_cons; tauto.
  - exact Hset.
Qed.

(** Where the id is in a list with one alternate per id. *)
Lemma placed_nodup id l : NoDup (al_id <$> l) ->
  Forall (fun x => al_id x <> id) l \/
  (exists t l', l = t :: l' /\ al_id t = id /\ Forall (fun x => al_id x <> id) l') \/
  (exists pre p t post, l = pre ++ p :: t :: post /\ Forall (fun x => al_id x <> id) (pre ++ [p]) /\ al_id t = id /\
     Forall (fun x => al_id x <> id) post).
Proof.
  intros Hnd. destruct (decide (Exists (fun x => al_id x = id) l)) as [He|He]; [|left; by apply Forall_Exists_neg]. right.
  apply Exists_exists in He as (t & Ht & Ei). apply list_elem_of_split in Ht as (pre & post & ->).
  rewrite fmap_app, fmap_cons in Hnd. apply NoDup_app in Hnd as (_ & H1 & [H2 _]%NoDup_cons). rewrite Ei in *.
  assert (Hpost : Forall (fun x => al_id x <> id) post).
  { apply Forall_forall. intros x Hx E. apply H2. apply list_elem_of_fmap. exists x. done. }
  assert (Hpre : Forall (fun x => al_id x <> id) pre).
  { apply Forall_forall. intros x Hx E. apply (H1 id); [|by left]. apply list_elem_of_fmap. exists x. done. }
  destruct pre as [|p pre _] using rev_ind; [left; by exists t, post|right]. rewrite <- app_assoc. by exists pre, p, t, post.
Qed.

(** The same alternates, links apart. *)
Definition same_alternates : list Alternate -> list Alternate -> Prop :=
  Forall2 (fun a b => al_info a = al_info b /\ al_content a = al_content b).

#[export] Instance same_alternates_refl : Reflexive same_alternates.
Proof. intros l. apply Forall_Forall2_diag, Forall_true. done. Qed.

Lemma same_infos l l' : same_alternates l l' -> al_info <$> l = al_info <$> l'.
Proof. induction 1 as [|a b l l' [E _] _ IH]; [done|]. by rewrite !fmap_cons, E, IH. Qed.

Lemma filter_absent id l : Forall (fun x => al_id x <> id) l -> filter (fun x => al_id x <> id) l = l.
Proof. intros Hl. induction Hl as [|a l Ha Hl IH]; [done|]. by rewrite filter_cons_True, IH. Qed.

(** What a write may ask for. *)
Record request (key : CacheKey) (id : Z) (header content : list Z) (now : Z) : Prop := {
  rq_key : key_ok key; rq_header : bytes_ok header; rq_content : bytes_ok content; rq_id : fits 8 id; rq_now : - 2 ^ 63 <= now < 2 ^ 63;
  rq_size : write_size header content < 2 ^ 32 }.

(** What the listing shows of it. *)
Definition written_info (id off : Z) (header content : list Z) (now : Z) : AlternateInfo := {|
  ai_id := id; ai_disk_offset := off; ai_content_length := Z.of_nat (length content); ai_hit_count := 0; ai_last_access := Z.max 0 now; ai_header := header |}.

Lemma resolve_holding file s key l : stripe_state_ok file s -> holding bld file s key l -> resolved bld file s key l (resolve_chain s file (stripe_snapshot bld s) key).
Proof. intros Hok Hh. destruct l; [by apply resolve_vacant|by apply resolve_holds]. Qed.

Lemma holding_stored file s key l : holding bld file s key l -> Forall (stored file (ss_stripe s) (stripe_snapshot bld s) key) l /\ (l = [] \/ linked (ss_stripe s) l).
Proof. destruct l; [split; [constructor|by left]|]. intros []. split; [done|by right]. Qed.

Lemma remove_dups_nodup `{EqDecision A} (l : list A) : NoDup l -> remove_dups l = l.
Proof. induction 1 as [|a l Ha Hl IH]; [done|]. cbn. destruct (decide_rel _ _ _); [done|]. by rewrite IH. Qed.

(** An attempt reaches the fill with the planned links. *)
Lemma once_reaches env allow i key id header content now (v : Volume (C := C)) s l slot log plan :
  stripe_state_ok (v_file v) s -> v_stripes v !! i = Some s -> ss_owned s = true -> request key id header content now ->
  grants env s (write_size header content) slot log -> holding bld (v_file v) s key l -> NoDup (al_id <$> l) -> (length l < kMaxAlternates)%nat ->
  let rs := resolve_chain s (v_file v) (stripe_snapshot bld s) key in
  plan_links true id (rs_head rs) (rs_walk rs) false = plan -> fits 64 (lp_next plan) ->
  commit_alternate_write_once bld cfg env now true allow i key id header content v =
    fill_and_publish bld env allow i key id (stripe_snapshot bld s) rs plan false false
      (build (alternate_builder key header content id (lp_next plan) now)) no_carry slot (granted s log) (event v (VChainDepth (length l))).
Proof using ChecksumLaws0.
  intros Hok Hi Hown [Hk Hh Hc Hid Hnow Hsz] Hgr Hho Hnd Hlen rs Hplan Hf. pose proof (resolve_holding (v_file v) s key l Hok Hho) as Hrs. fold rs in Hrs.
  destruct Hrs as [_ _ Hhead _ Hnodes _ [_ Hcut]].
  pose proof (length_build key header content id now Hk Hh Hc Hid Hnow Hsz _ Hf) as Elen.
  assert (Hids : remove_dups (cn_id <$> cw_nodes (rs_walk rs)) = al_id <$> l).
  { rewrite Hnodes, <- list_fmap_compose. by apply remove_dups_nodup. }
  unfold commit_alternate_write_once. rewrite Hi, Hown. cbn [negb]. fold rs. rewrite Hids, Hcut, Hnodes, !length_fmap. cbn [andb orb].
  assert (match rs_head rs with Some h => negb (is_current (hc_cls h)) | None => false end = false) as -> by (rewrite Hhead; by destruct l).
  rewrite andb_false_r. cbn [negb andb orb]. rewrite (proj2 (Nat.leb_gt _ _)) by done. rewrite Hplan.
  rewrite bool_decide_false by (intros E; rewrite E in Elen; unfold write_size in Elen; cbn in Elen; lia).
  cbn [cp_bytes length Nat.add]. rewrite Elen, (gr_slot _ _ _ _ _ Hgr). done.
Qed.

(** A key with 64 alternates refuses every write, of an id it holds too. *)
Lemma full_key_refused env allow i key id header content now (v : Volume (C := C)) s l :
  stripe_state_ok (v_file v) s -> v_stripes v !! i = Some s -> ss_owned s = true -> holding bld (v_file v) s key l -> NoDup (al_id <$> l) ->
  (kMaxAlternates <= length l)%nat ->
  commit_alternate_write_once bld cfg env now true allow i key id header content v =
    Some (Finished (inl ETooManyAlternates), event v (VChainDepth (length l))).
Proof.
  intros Hok Hi Hown Hho Hnd Hlen. pose proof (resolve_holding (v_file v) s key l Hok Hho) as [_ _ Hhead _ Hnodes _ [_ Hcut]].
  set (rs := resolve_chain _ _ _ _) in *.
  assert (Hids : remove_dups (cn_id <$> cw_nodes (rs_walk rs)) = al_id <$> l).
  { rewrite Hnodes, <- list_fmap_compose. by apply remove_dups_nodup. }
  unfold commit_alternate_write_once. rewrite Hi, Hown. cbn [negb]. fold rs. rewrite Hids, Hcut, Hnodes, !length_fmap. cbn [andb orb].
  assert (match rs_head rs with Some h => negb (is_current (hc_cls h)) | None => false end = false) as -> by (rewrite Hhead; by destruct l).
  rewrite andb_false_r. cbn [negb andb orb]. by rewrite (proj2 (Nat.leb_le _ _)).
Qed.

(** The result of a write on the list [l]. *)
Record rewritten (v : Volume (C := C)) (s : StripeState) (key : CacheKey) (i : nat) (id : Z) (header content : list Z) (now : Z) (slot : WriteSlot) (log : State)
    (l : list Alternate) (v' : Volume (C := C)) (s' : StripeState) (a : Alternate) (l' : list Alternate) : Prop := {
  rw_volume : volume_ok v';
  rw_select : select_stripe v' key = Some (i, s');
  rw_owned : ss_owned s' = ss_owned s;
  rw_stripe : ss_stripe s' = ss_stripe s;
  rw_log : ss_log s' = set_write_pos log (slot_new_write_pos slot);
  rw_length : length (v_file v') = length (v_file v);
  rw_tidy : tidy bld (v_file v') s' key (a :: l');
  rw_info : al_info a = written_info id (slot_write_offset slot) header content now;
  rw_content : al_content a = content;
  rw_others : same_alternates l' (filter (fun x => al_id x <> id) l) }.

Lemma suffix_linked s (l1 l : list Alternate) : l1 `suffix_of` l -> l = [] \/ linked s l -> l1 = [] \/ linked s l1.
Proof.
  intros [l0 ->] Hl. destruct (decide (l1 = [])) as [|Hn]; [by left|]. right. destruct Hl as [[_ ?]%app_nil|Hl]; [done|]. by eapply linked_app_r.
Qed.

Lemma written_alternate key id header content now off next pass serial : request key id header content now -> fits 64 next ->
  let a := new_alternate key header content id now off next pass serial in
  al_info a = written_info id off header content now /\ al_content a = content.
Proof using ChecksumLaws0. intros [Hk Hh Hc Hid Hnow Hsz] Hn. done. Qed.

Section once.
Context (env : WriteEnv) (allow : bool) (i : nat) (key : CacheKey) (id : Z) (header content : list Z) (now : Z) (v : Volume (C := C)) (s : StripeState)
  (l : list Alternate) (slot : WriteSlot) (log : State).
Local Abbreviation st := (ss_stripe s).
Hypothesis Hv : volume_ok v.
Hypothesis Hsel : select_stripe v key = Some (i, s).
Hypothesis Hown : ss_owned s = true.
Hypothesis Hroom : gen_room s.
Hypothesis Hrq : request key id header content now.
Hypothesis Hseam : c_advance_cursor_at_reservation (vc_log cfg) = false.
Hypothesis Hgr : grants env s (write_size header content) slot log.
Hypothesis Hmap : slot_write_offset slot + write_size header content + kInitialMapSize <= Z.of_nat (length (v_file v)).
Hypothesis Htd : tidy bld (v_file v) s key l.
Hypothesis Hnd : NoDup (al_id <$> l).
Hypothesis Hlen : (length l < kMaxAlternates)%nat.
Local Abbreviation rs := (resolve_chain s (v_file v) (stripe_snapshot bld s) key).

(** The volume after the publish, before the splices. *)
Record published_volume (a : Alternate) (l1 : list Alternate) (file2 : list Z) (s2 : StripeState) (v2 : Volume (C := C)) : Prop := {
  pv_state : stripe_state_ok file2 s2;
  pv_tidy : tidy bld file2 s2 key (a :: l1);
  pv_length : length file2 = length (v_file v);
  pv_stripe : ss_stripe s2 = st;
  pv_owned : ss_owned s2 = ss_owned s;
  pv_log : ss_log s2 = set_write_pos log (slot_new_write_pos slot);
  pv_stripes : v_stripes v2 = v_stripes v;
  pv_ram : v_ram v2 = v_ram v }.

Lemma once_publishes l1 reps u : l1 `suffix_of` l ->
  plan_links true id (rs_head rs) (rs_walk rs) false =
    {| lp_next := link_first st l1; lp_repoints := reps; lp_unlinked := u; lp_deferred := 0 |} ->
  let a := new_alternate key header content id now (slot_write_offset slot) (link_first st l1) (slot_pass slot) (slot_fill_serial slot) in
  exists file2 s2 v2, published_volume a l1 file2 s2 v2 /\
    commit_alternate_write_once bld cfg env now true allow i key id header content v =
    (let '(file, unlinked, deferred) := fold_left (splice bld s2 key (stripe_snapshot bld s)) reps (file2, u, 0%nat) in
     v ← invalidate_ram (fun c => snd <$> rc_remove (alternate_key key id) c) i s2
       (count_write unlinked deferred false false false no_carry (set_file v2 file));
     Some (Finished (inr tt), v)).
Proof using All.
  intros Hsuf Hplan. pose proof (select_stripe_lookup v key i s Hsel) as Hi.
  pose proof (vo_stripes _ Hv _ _ Hi) as Hok. pose proof (sk_stripe _ _ Hok) as Hs. pose proof (snapshot_cursor_le bld s Hs) as Hcur.
  pose proof Htd as [Hho Hap Hset]. destruct (holding_stored _ _ _ _ Hho) as [Hst Hlk]. pose proof Hrq as [Hk Hh Hc Hid Hnow Hsz].
  assert (Hn : 132 <= write_size header content < 2 ^ 33) by (unfold write_size in *; lia).
  pose proof (grants_slotted env (v_file v) s _ slot log Hok Hroom Hn Hseam Hgr) as Hsl.
  pose proof (slot_bounds bld (v_file v) s log slot _ Hok (so_res _ _ _ _ _ Hsl)) as Hb.
  assert (Hfit : fits 64 (link_first st l1)).
  { apply (link_first_fits _ (stripe_snapshot bld s) key (v_file v) Hs Hcur). destruct Hsuf as [l0 E]. rewrite E in Hst. by apply Forall_app in Hst as [_ ?]. }
  rewrite (once_reaches env allow i key id header content now v s l slot log _ Hok Hi Hown Hrq Hgr Hho Hnd Hlen Hplan Hfit).
  destruct (publish_attempt env allow i key id header content now (event v (VChainDepth (length l))) s l rs l1 reps u slot log)
    as (file2 & s2 & v2 & H1 & H2 & H3 & H4 & H5 & H6 & H7 & H8 & _ & E); try done.
  - cbn [v_file event]. assert (kInitialMapSize = 65668) by done. lia.
  - by apply resolve_holding.
  - by eapply suffix_linked.
  - unfold kMaxChainTraversalDepth. lia.
  - exists file2, s2, v2. split; [by split|exact E].
Qed.

Lemma published_settles a l1 file2 s2 v2 file3 l3 u d : published_volume a l1 file2 s2 v2 -> length file3 = length file2 ->
  tidy bld file3 s2 key (a :: l3) -> al_info a = written_info id (slot_write_offset slot) header content now -> al_content a = content ->
  same_alternates l3 (filter (fun x => al_id x <> id) l) ->
  exists v' s', invalidate_ram (fun c => snd <$> rc_remove (alternate_key key id) c) i s2 (count_write u d false false false no_carry (set_file v2 file3)) = Some v' /\
    rewritten v s key i id header content now slot log l v' s' a l3.
Proof using Hv Hsel RamCacheLaws0.
  intros [H1 _ H3 H4 H5 H6 H7 H8] El Ht Ei Ec Hsame.
  destruct (settle_write key id i u d v v2 file3 s s2 (a :: l3)) as (v' & s' & E & G1 & G2 & G3 & G4 & G5 & G6 & G7); try done; [congruence| |].
  - eapply state_ok_file; [exact H1|]. by rewrite El.
  - exists v', s'. split; [done|]. split; try done; congruence.
Qed.

Lemma once_rewrites : exists v' s' a l',
  commit_alternate_write_once bld cfg env now true allow i key id header content v = Some (Finished (inr tt), v') /\
  rewritten v s key i id header content now slot log l v' s' a l'.
Proof using All.
  pose proof (vo_stripes _ Hv _ _ (select_stripe_lookup v key i s Hsel)) as Hok.
  pose proof (td_holding _ _ _ _ _ Htd) as Hho. destruct (holding_stored _ _ _ _ Hho) as [Hst Hlk].
  pose proof (resolve_holding (v_file v) s key l Hok Hho) as [_ _ Hhead _ Hnodes Hfully [Hcyc _]].
  assert (Hser : Forall (fun a => fits 16 (Document.fill_serial (al_doc a))) l) by (eapply Forall_impl; [exact Hst|]; intros a Ha; apply Ha).
  assert (Hfit : forall l1, l1 `suffix_of` l -> fits 64 (link_first st l1)).
  { intros l1 [l0 E]. apply (link_first_fits _ (stripe_snapshot bld s) key (v_file v)); [apply Hok|apply snapshot_cursor_le, Hok|].
    rewrite E in Hst. by apply Forall_app in Hst as [_ ?]. }
  assert (Hdone : forall l1 u, l1 `suffix_of` l -> plan_links true id (rs_head rs) (rs_walk rs) false =
      {| lp_next := link_first st l1; lp_repoints := []; lp_unlinked := u; lp_deferred := 0 |} ->
    l1 = filter (fun x => al_id x <> id) l -> exists v' s' a l',
      commit_alternate_write_once bld cfg env now true allow i key id header content v = Some (Finished (inr tt), v') /\
      rewritten v s key i id header content now slot log l v' s' a l').
  { intros l1 u Hsuf Hplan El1. destruct (once_publishes l1 [] u Hsuf Hplan) as (file2 & s2 & v2 & Hpv & ->). cbn [fold_left]. cbv zeta in Hpv.
    destruct (published_settles _ l1 file2 s2 v2 file2 l1 u 0 Hpv eq_refl (pv_tidy _ _ _ _ _ Hpv)) as (v' & s' & -> & Hrw); [done|done|by rewrite <- El1|].
    cbn [mbind option_bind]. by eexists v', s', _, l1. }
  destruct (placed_nodup id l Hnd) as [Hl|[(t & l' & El & Ht & Hl)|(pre & p & t & post & El & Hpre & Ht & Hpost)]].
  - apply (Hdone l 0%nat); [done| |by rewrite filter_absent]. rewrite Hhead. by apply plan_absent.
  - apply (Hdone l' 1%nat); [by exists [t]| |rewrite El, filter_cons_False by (intros E; by apply E); by rewrite filter_absent].
    rewrite Hhead. by eapply plan_front.
  - assert (Hplan : plan_links true id (rs_head rs) (rs_walk rs) false = {| lp_next := link_first st l;
      lp_repoints := [{| pr_pred_rel := al_offset p - st_offset st; pr_new_next := link_first st post; pr_pred_id := al_id p; pr_shadows := 1 |}];
      lp_unlinked := 0; lp_deferred := 0 |}) by (rewrite Hhead; by eapply plan_middle).
    destruct (once_publishes _ _ _ (reflexivity _) Hplan) as (file2 & s2 & v2 & Hpv & ->). cbv zeta in Hpv. cbn [fold_left].
    match type of Hpv with published_volume ?x _ _ _ _ => set (a := x) in * end.
    destruct (splice_holds file2 s2 key (stripe_snapshot bld s) a pre p t post (pv_state _ _ _ _ _ Hpv)) as (file3 & p' & Es & E3 & Ht3 & Ei & Ec).
    { unfold stripe_snapshot, snapshot. cbn [snap_pass]. rewrite (pv_stripe _ _ _ _ _ Hpv), (pv_log _ _ _ _ _ Hpv). cbn. symmetry. apply Hgr. }
    { rewrite <- El. apply Hpv. }
    rewrite (pv_stripe _ _ _ _ _ Hpv) in Es. rewrite Es.
    destruct (published_settles _ _ file2 s2 v2 file3 (pre ++ p' :: post) 1 0 Hpv E3 Ht3) as (v' & s' & -> & Hrw); [done|done| |].
    + apply Forall_app in Hpre as [Hpre [Hp _]%Forall_cons]. rewrite El, filter_app, filter_cons_True, filter_cons_False, !filter_absent by (done || intros E; by apply E).
      apply Forall2_app; [reflexivity|]. constructor; [done|reflexivity].
    + cbn [mbind option_bind]. by eexists v', s', _, _.
Qed.
End once.

(** The head of a chain is its highest document. *)
Lemma tidy_mappable file s key a l : stripe_state_ok file s -> tidy bld file s key (a :: l) -> mappable file a -> Forall (mappable file) (a :: l).
Proof.
  intros Hok [Hho _ _] Ha. destruct (holding_stored _ _ _ _ Hho) as [Hst [?|Hlk]]; [done|]. constructor; [done|].
  pose proof (stored_len_nonneg bld file s key Hok file (a :: l) Hst) as Hn. pose proof (linked_below _ a l Hn Hlk) as Hb. apply Forall_cons in Hn as [_ Hn].
  apply Forall_forall. intros b Hin. rewrite Forall_forall in Hb, Hn. specialize (Hb b Hin). specialize (Hn b Hin). unfold mappable, al_end in *. lia.
Qed.

Lemma attempts_finished fuel env now unlink i key id header content (v v' : Volume (C := C)) : (0 < fuel)%nat ->
  commit_alternate_write_once bld cfg (env 0%nat) (now 0%nat) unlink true i key id header content v = Some (Finished (inr tt), v') ->
  commit_attempts bld cfg fuel env now 0 unlink true 0 i key id header content v = Some (inr tt, v').
Proof. intros Hf E. destruct fuel as [|fuel]; [lia|]. cbn [commit_attempts]. by rewrite E. Qed.

(** C3. Writing an alternate replaces the one of its id, or adds one.  The key's
    chain is [l], all of it in the current pass and laid out as writes lay it
    out ([tidy]), with one alternate per id and fewer than 64; superseded
    alternates are unlinked (the default configuration), and the first attempt
    is granted a slot of the current pass, behind whose document 64 KiB of
    file follow; the stripe is owned and its 64-bit generation has room for the
    write, the arguments have the widths of their types and the document is below
    4 GiB, max_read_retries is
    below 2^32 - 1 and the test seam that publishes the cursor early is off.  Then the write returns success, the key's chain is tidy again,
    and listing the key shows the new alternate first, with its header, length,
    no hits and its time, and behind it every alternate of [l] with another id,
    in its place and order, and no other: whether the id was absent, at the
    head or further down the chain. *)
Theorem write_alternate_replaces env i key id header content now generation (v : Volume (C := C)) s l slot log :
  readable_retries cfg -> volume_ok v -> v_generation v = generation -> select_stripe v key = Some (i, s) -> ss_owned s = true -> gen_room s ->
  request key id header content (now 0%nat) -> c_advance_cursor_at_reservation (vc_log cfg) = false ->
  grants (env 0%nat) s (write_size header content) slot log ->
  slot_write_offset slot + write_size header content + kInitialMapSize <= Z.of_nat (length (v_file v)) ->
  tidy bld (v_file v) s key l -> NoDup (al_id <$> l) -> (length l < kMaxAlternates)%nat ->
  exists v' s' l', commit_alternate_write bld cfg env now true i key id header content generation v = Some (inr tt, v') /\ volume_ok v' /\
    select_stripe v' key = Some (i, s') /\ tidy bld (v_file v') s' key l' /\
    al_info <$> l' = written_info id (slot_write_offset slot) header content (now 0%nat) :: (al_info <$> filter (fun x => al_id x <> id) l) /\
    list_alternates_sync bld cfg key v' = Some (inr (al_info <$> l'), v').
Proof using ChecksumLaws0 RamCacheLaws0.
  intros Hr Hv Hg Hsel Hown Hroom Hrq Hseam Hgr Hmap Htd Hnd Hlen.
  destruct (once_rewrites (env 0%nat) true i key id header content (now 0%nat) v s l slot log Hv Hsel Hown Hroom Hrq Hseam Hgr Hmap Htd Hnd Hlen)
    as (v' & s' & a & l' & E & [Hv' Hsel' _ Est _ Elen Ht Hinfo _ Hsame]).
  exists v', s', (a :: l'). split; [|split; [done|split; [done|split; [done|split]]]].
  - unfold commit_alternate_write. rewrite Hg, Z.eqb_refl. cbn [negb]. apply attempts_finished; [unfold commit_fuel; lia|exact E].
  - rewrite fmap_cons, Hinfo. f_equal. exact (same_infos _ _ Hsame).
  - pose proof (vo_stripes _ Hv' _ _ (select_stripe_lookup v' key i s' Hsel')) as Hok'.
    apply (holds_lists bld cfg key v' i s' (a :: l')); [exact Hr|exact Hsel'|exact Hok'|apply Ht|].
    eapply tidy_mappable; [exact Hok'|exact Ht|]. unfold mappable. rewrite Elen. change (al_offset a) with (ai_disk_offset (al_info a)). rewrite Hinfo.
    unfold write_size in Hmap. cbn. lia.
Qed.
End attempt.

(** ** A small chain *)

Definition tiny_alternate (id : Z) (header content : list Z) (v : Volume (C := RamCacheLRU)) :=
  @commit_alternate_write mulhi_int128 host_checksum _ (lru_ops true) tiny_config (fun _ => tiny_wenv) (fun _ => 100) true 0 sample_key id header content 1 v.

Lemma tiny_tidy file : tidy mulhi_int128 file tiny_state sample_key [].
Proof.
  assert (E : candidates tiny_state sample_key = []) by (vm_compute; reflexivity).
  split.
  - intros x cls (Hx & _)%elem_of_admitted. rewrite E in Hx. by apply elem_of_nil in Hx.
  - intros x cls a _ Ha. by apply elem_of_nil in Ha.
  - intros x Hx. rewrite E in Hx. by apply elem_of_nil in Hx.
Qed.

Lemma tiny_request id : fits 8 id -> request sample_key id [1; 2; 3] [4; 5; 6; 7] 100.
Proof.
  intros Hid. split; [exact sample_key_ok|by apply bytes_okb_ok|by apply bytes_okb_ok|done|lia|vm_compute; reflexivity].
Qed.

(** The volume after writing the alternate [id], and the log after it. *)
Definition tiny_write (id : Z) (v : Volume (C := RamCacheLRU)) : Volume (C := RamCacheLRU) :=
  match tiny_alternate id [1; 2; 3] [4; 5; 6; 7] v with Some (_, v) => v | None => v end.

Definition tiny_slot (log : State) : (CacheError + WriteSlot) * State :=
  allocate_write_slot mulhi_int128 (vc_log tiny_config) tiny_stripe (we_lock tiny_wenv) (we_now1 tiny_wenv) (we_now2 tiny_wenv)
    (write_size [1; 2; 3] [4; 5; 6; 7]) log.

Definition tiny_next (log : State) : State := match tiny_slot log with (inr slot, log) => set_write_pos log (slot_new_write_pos slot) | _ => log end.

(** The write is granted a slot of the current pass, with 64 KiB behind it. *)
Definition tiny_granted (log : State) : bool :=
  match tiny_slot log with
  | (inr slot, log') =>
      (pass_of mulhi_int128 tiny_stripe (ws_gen log') =? pass_of mulhi_int128 tiny_stripe (ws_gen log)) &&
      (Z.max (slot_new_write_pos slot) (slot_fill_end slot) - slot_write_offset slot <=? Z.of_nat (we_written tiny_wenv)) &&
      (slot_write_offset slot + write_size [1; 2; 3] [4; 5; 6; 7] + kInitialMapSize <=? 70000) &&
      (ws_gen log + 4 * (st_chunks tiny_stripe + 1) <? 2 ^ 64)
  | _ => false
  end.

Lemma tiny_grants (s : StripeState) (log : State) : ss_stripe s = tiny_stripe -> ss_log s = log -> tiny_granted log = true ->
  gen_room s /\ exists slot log', grants mulhi_int128 tiny_config tiny_wenv s (write_size [1; 2; 3] [4; 5; 6; 7]) slot log' /\
    slot_write_offset slot + write_size [1; 2; 3] [4; 5; 6; 7] + kInitialMapSize <= 70000 /\ tiny_next log = set_write_pos log' (slot_new_write_pos slot).
Proof.
  intros Est El. unfold tiny_granted, tiny_next. destruct (tiny_slot log) as [[err|slot] log'] eqn:E; [done|].
  rewrite !andb_true_iff, Z.eqb_eq, !Z.leb_le, Z.ltb_lt. intros [[[H1 H2] H3] H4]. split; [unfold gen_room; by rewrite Est, El|].
  exists slot, log'. split; [|split; [exact H3|reflexivity]]. split; [|by rewrite Est, El|exact H2]. rewrite Est, El. exact E.
Qed.

(** The key holds the alternates [ids]. *)
Record tiny_chain (v : Volume (C := RamCacheLRU)) (log : State) (s : StripeState) (l : list Alternate) (ids : list Z) : Prop := {
  tc_volume : @volume_ok _ _ (lru_laws true) v;
  tc_select : select_stripe v sample_key = Some (0%nat, s);
  tc_owned : ss_owned s = true;
  tc_stripe : ss_stripe s = tiny_stripe;
  tc_log : ss_log s = log;
  tc_length : length (v_file v) = Z.to_nat 70000;
  tc_tidy : tidy mulhi_int128 (v_file v) s sample_key l;
  tc_ids : al_id <$> l = ids }.

Lemma ids_without id (l : list Alternate) : al_id <$> filter (fun x => al_id x <> id) l = filter (fun x => x <> id) (al_id <$> l).
Proof. induction l as [|a l IH]; [done|]. rewrite fmap_cons, !filter_cons. destruct (decide (al_id a <> id)); [rewrite fmap_cons; by f_equal|done]. Qed.

Lemma same_ids (l l' : list Alternate) : same_alternates l l' -> al_id <$> l = al_id <$> l'.
Proof. intros Hs. pose proof (f_equal (fmap ai_id) (same_infos _ _ Hs)) as E. rewrite <- !list_fmap_compose in E. exact E. Qed.

Lemma tiny_adds v log s l ids id : tiny_chain v log s l ids -> v_generation v = 1 -> fits 8 id -> NoDup ids -> (length ids < kMaxAlternates)%nat ->
  tiny_granted log = true -> exists s' l', tiny_chain (tiny_write id v) (tiny_next log) s' l' (id :: filter (fun x => x <> id) ids).
Proof.
  intros [H1 H2 H3 H4 H5 H6 H7 H8] Hg Hid Hnd Hlen Hgr. destruct (tiny_grants s log H4 H5 Hgr) as (Hroom & slot & log' & Hgr' & Hmap & En).
  destruct (@once_rewrites mulhi_int128 host_checksum _ _ (lru_ops true) (lru_laws true) tiny_config tiny_wenv true 0 sample_key id [1; 2; 3] [4; 5; 6; 7] 100
    v s l slot log') as (v' & s' & a & l' & E & [G1 G2 G3 G4 G5 G6 G7 G8 _ G9]); try done.
  - by apply tiny_request.
  - rewrite H6. lia.
  - by rewrite H8.
  - rewrite <- (length_fmap al_id), H8. done.
  - exists s', (a :: l'). assert (Ew : tiny_write id v = v').
    { unfold tiny_write, tiny_alternate, commit_alternate_write. rewrite Hg. cbn [Z.eqb Pos.eqb negb].
      rewrite (@attempts_finished mulhi_int128 host_checksum _ (lru_ops true) tiny_config commit_fuel (fun _ => tiny_wenv) (fun _ => 100) true 0 sample_key id
        [1; 2; 3] [4; 5; 6; 7] v v'); [done|unfold commit_fuel; lia|exact E]. }
    rewrite Ew. split; try done; try congruence.
    rewrite fmap_cons, (same_ids _ _ G9), ids_without, H8. f_equal. exact (f_equal ai_id G8).
Qed.

Lemma tiny_starts : exists s l, tiny_chain (tiny_volume 70000) tiny_log s l [].
Proof.
  exists tiny_state, []. split; [apply tiny_volume_ok; lia|reflexivity|reflexivity|reflexivity|reflexivity|apply length_replicate|apply tiny_tidy|reflexivity].
Qed.

(** Three alternates, the youngest first. *)
Definition tiny_three : Volume (C := RamCacheLRU) := tiny_write 7 (tiny_write 6 (tiny_write 5 (tiny_volume 70000))).

Lemma tiny_three_chain : exists s l, tiny_chain tiny_three (tiny_next (tiny_next (tiny_next tiny_log))) s l [7; 6; 5].
Proof.
  assert (Hf : forall id, 0 <= id < 256 -> fits 8 id) by done.
  destruct tiny_starts as (s0 & l0 & H0).
  destruct (tiny_adds _ _ _ _ _ 5 H0) as (s1 & l1 & H1); [done|by apply Hf|constructor|vm_compute; lia|by vm_compute|].
  destruct (tiny_adds _ _ _ _ _ 6 H1) as (s2 & l2 & H2); [by vm_compute|by apply Hf|refine (bool_decide_unpack _ _); vm_compute; exact I|vm_compute; lia|by vm_compute|].
  destruct (tiny_adds _ _ _ _ _ 7 H2) as (s3 & l3 & H3); [by vm_compute|by apply Hf|refine (bool_decide_unpack _ _); vm_compute; exact I|vm_compute; lia|by vm_compute|].
  exists s3, l3. exact H3.
Qed.

(** The alternate in the middle is replaced. *)
Lemma write_alternate_replaces_witness : exists v' l', tiny_alternate 6 [1; 2; 3] [4; 5; 6; 7] tiny_three = Some (inr tt, v') /\
  tiny_list v' = Some (inr (al_info <$> l'), v') /\ ai_id <$> (al_info <$> l') = [6; 7; 5].
Proof.
  destruct tiny_three_chain as (s & l & [H1 H2 H3 H4 H5 H6 H7 H8]).
  destruct (tiny_grants s _ H4 H5 ltac:(vm_compute; reflexivity)) as (Hroom & slot & log & Hgr & Hmap & _).
  destruct (@write_alternate_replaces mulhi_int128 host_checksum _ _ (lru_ops true) (lru_laws true) tiny_config (fun _ => tiny_wenv) 0 sample_key 6 [1; 2; 3] [4; 5; 6; 7]
    (fun _ => 100) 1 tiny_three s l slot log) as (v' & s' & l' & E1 & _ & _ & _ & E2 & E3).
  - vm_compute. split; [discriminate|reflexivity].
  - exact H1.
  - vm_compute. reflexivity.
  - exact H2.
  - exact H3.
  - exact Hroom.
  - apply tiny_request. vm_compute. split; [discriminate|reflexivity].
  - reflexivity.
  - exact Hgr.
  - rewrite H6. exact Hmap.
  - exact H7.
  - rewrite H8. refine (bool_decide_unpack _ _). vm_compute. exact I.
  - rewrite <- (length_fmap al_id), H8. vm_compute. lia.
  - exists v', l'. split; [exact E1|]. split; [exact E3|]. rewrite E2, fmap_cons, <- list_fmap_compose. change (ai_id ∘ al_info) with al_id.
    rewrite ids_without, H8. reflexivity.
Defined.

Lemma tiny_mappable v log s l ids : tiny_chain v log s l ids -> Forall (mappable (v_file v)) l.
Proof.
  intros [H1 H2 _ H4 _ H6 H7 _]. pose proof (vo_stripes _ H1 _ _ (select_stripe_lookup v sample_key 0 s H2)) as Hok.
  destruct (holding_stored _ _ _ _ _ (td_holding _ _ _ _ _ H7)) as [Hst _]. eapply Forall_impl; [exact Hst|]. intros a Ha.
  pose proof (stored_range _ _ _ (sk_stripe _ _ Hok) (snapshot_cursor_le mulhi_int128 s (sk_stripe _ _ Hok)) (v_file v) a Ha) as (_ & _ & He & _ & _ & Hl).
  rewrite H4 in He, Hl. unfold mappable, al_end in *. rewrite H6. assert (st_offset tiny_stripe + st_size tiny_stripe <= 1024) by (vm_compute; discriminate).
  change kInitialMapSize with 65668. lia.
Qed.

Lemma tiny_three_list : exists s a b c, tiny_chain tiny_three (tiny_next (tiny_next (tiny_next tiny_log))) s [a; b; c] [7; 6; 5] /\
  al_id a = 7 /\ al_id b = 6 /\ al_id c = 5.
Proof.
  destruct tiny_three_chain as (s & l & H). pose proof (tc_ids _ _ _ _ _ H) as E.
  destruct l as [|a [|b [|c [|? ?]]]]; try discriminate E. injection E as Ea Eb Ec. by exists s, a, b, c.
Qed.

(** The alternate in the middle is removed. *)
Lemma remove_alternate_removes_witness : exists a c v', @remove_alternate_sync mulhi_int128 _ (lru_ops true) sample_key 6 tiny_three = Some (inr tt, v') /\
  tiny_list v' = Some (inr [al_info a; al_info c], v') /\ al_id a = 7 /\ al_id c = 5.
Proof.
  destruct tiny_three_list as (s & a & b & c & H & Ea & Eb & Ec). pose proof (tiny_mappable _ _ _ _ _ H) as Hm. destruct H as [H1 H2 H3 H4 H5 H6 [H7 H8 _] _].
  destruct (@remove_alternate_removes mulhi_int128 _ (lru_ops true) (lru_laws true) tiny_config sample_key 6 tiny_three 0 s [a] b [c]) as (v' & E1 & _ & E2).
  - vm_compute. split; [discriminate|reflexivity].
  - exact H1.
  - exact H2.
  - exact H3.
  - rewrite H5. vm_compute. reflexivity.
  - exact H7.
  - exact H8.
  - exact Hm.
  - constructor; [rewrite Ea; discriminate|constructor].
  - exact Eb.
  - exists a, c, v'. split; [exact E1|]. split; [exact E2|]. split; [exact Ea|exact Ec].
Defined.

Lemma update_hits_listed_witness : exists a b c v', @update_hit_count_sync mulhi_int128 _ sample_key 6 3 200 tiny_three = (inr tt, v') /\
  tiny_list v' = Some (inr [al_info a; al_info (bumped b 3 200); al_info c], v').
Proof.
  destruct tiny_three_list as (s & a & b & c & H & Ea & Eb & Ec). pose proof (tiny_mappable _ _ _ _ _ H) as Hm. destruct H as [H1 H2 H3 H4 H5 H6 [H7 H8 _] _].
  destruct (@update_hits_listed mulhi_int128 _ (lru_ops true) (lru_laws true) tiny_config sample_key 6 3 200 tiny_three 0 s [a] b [c]) as (v' & E1 & _ & _ & E2).
  - vm_compute. split; [discriminate|reflexivity].
  - exact H1.
  - exact H2.
  - exact H3.
  - exact H7.
  - exact H8.
  - exact Hm.
  - constructor; [rewrite Ea; discriminate|constructor].
  - exact Eb.
  - lia.
  - lia.
  - exists a, b, c, v'. split; [exact E1|exact E2].
Defined.
