(* ===== verification/VolumeOps.v ===== *)
(** * Every operation on an open volume

    Plain and alternate reads, writes, removals and hit updates on a
    process-local volume, as one set of operations: each returns, and each
    leaves every stripe and the RAM cache in order. *)

From S2P Require Import Prelude Crc32c Key Document DirEntry Directory Geometry Stripe WriteLog RamCache LruCache Volume VolumeSpec VolumeCommit Alternates AlternateSpec AlternateChain AlternateEdit AlternateWrite AlternateCommit AlternateStore.
Local Open Scope cyc_scope.

Lemma length_write_at_grows {A} (file src : list A) off : (length file <= length (write_at file off src))%nat.
Proof. unfold write_at. rewrite !length_app, length_take, length_drop. lia. Qed.

(** ** Directories of stripes *)

Section stripes.
Context (bld : mulhi_build).

(** A publish keeps the stripe in order, whether or not it goes through. *)
Lemma insert_state_ok file s key rel doc_size vo clear seen serial : stripe_state_ok file s -> 0 < rel < 2 ^ 40 -> fits 16 serial ->
  let r := @insert_admitted _ (stripe_admission bld) (ss_dir s) key rel doc_size vo (admission bld s) clear (Some seen) serial in
  stripe_state_ok file (set_dir s (ir_dir r)).
Proof.
  intros Hok Hrel Hser. pose proof Hok as [_ _ Hlog Hdir Hph _ _]. cbv zeta.
  destruct (@view_current _ (stripe_admission bld) (ss_dir s) key rel vo (admission bld s) (Some seen)) eqn:Hvc.
  - destruct (@insert_admitted_commits _ (stripe_admission bld) (ss_dir s) key rel doc_size vo (admission bld s) clear (Some seen) serial
      Hdir Hrel Hser Hvc) as (i & old & c & Hf & Er & Hdok). cbv zeta in *. rewrite Er in *. cbn [ir_dir] in *.
    change (stripe_state_ok file (set_dir (set_log s (ss_log s)) (commit_bucket (ss_dir s) (bucket_index (ss_dir s) key)
      (@inserted _ (stripe_admission bld) (ss_dir s) key rel doc_size vo (admission bld s) clear serial i old) c))).
    apply state_ok_log; try done. intros b'.
    exact (published_distinct bld s file key vo clear Hok rel doc_size serial i old c Hrel Hser Hf b').
  - rewrite (@insert_stale_unchanged _ (stripe_admission bld)) by done. by destruct Hok; split.
Qed.

Lemma remove_at_state_ok file s key off : stripe_state_ok file s -> stripe_state_ok file (set_dir s (snd (remove_at (ss_dir s) key off))).
Proof.
  intros Hok. pose proof Hok as [_ _ Hlog Hdir Hph _ Hdis]. pose proof (remove_entries_spec key [(off, true)] (ss_dir s) Hdir) as Hr.
  cbn [remove_entries] in Hr. destruct (remove_at (ss_dir s) key off) as [n d] eqn:E. cbn in Hr.
  destruct Hr as (Hd' & Hb & Hp & Hkept & _). change (stripe_state_ok file (set_dir (set_log s (ss_log s)) d)).
  apply state_ok_log; try done; [congruence|]. intros b j k e e' Hj Hk He He' Ht Ho. exact (Hdis b j k e e' (Hkept b j e Hj He) (Hkept b k e' Hk He') He He' Ht Ho).
Qed.

Lemma repoint_length s file abs id key next snap file' : repoint_chain_link bld s file abs id key next snap = inr file' -> (length file <= length file')%nat.
Proof.
  unfold repoint_chain_link, commit_header_rmw, store_next. repeat case_match; try done. intros [= <-]. apply length_write_at_grows.
Qed.
End stripes.

Section ops.
Context (bld : mulhi_build) `{CK : Checksum} `{!ChecksumLaws CK} {C : Type} `{!RamCacheOps C, !RamCacheLaws C} (cfg : VolumeConfig).

(** ** Lookups *)

Lemma exists_loop_total fuel (s : StripeState) key left races : 0 <= races <= kMaxPublishRaceRetries ->
  Z.max 0 left + (kMaxPublishRaceRetries - races) < Z.of_nat fuel -> exists b, exists_loop bld fuel s key left races = Some b.
Proof.
  revert left races. induction fuel as [|fuel IH]; intros left races Hr Hf; [unfold kMaxPublishRaceRetries in *; lia|].
  cbn [exists_loop]. destruct (Z.leb_spec left 0); [by eexists|]. destruct (probe_each _ _ _ _ _ _) as [found rejects].
  destruct (found || _); [by eexists|]. case_match eqn:E; [apply Z.ltb_lt in E|]; apply IH; lia.
Qed.

Lemma exists_sync_ok key (v : Volume (C := C)) : volume_ok v -> exists r v', ((fun r => (r, v)) <$> exists_sync bld cfg key v) = Some (r, v') /\ volume_ok v'.
Proof.
  intros Hv. unfold exists_sync. destruct (select_stripe v key) as [[i s]|]; [|by eexists _, _].
  pose proof (wrap_fits 32 (vc_max_read_retries cfg + 1) ltac:(lia)) as Hf. unfold fits in Hf.
  destruct (exists_loop_total (read_fuel cfg) s key (u32 (vc_max_read_retries cfg + 1)) 0) as [b ->];
    [unfold kMaxPublishRaceRetries; lia | unfold read_fuel, u32 in *; unfold kMaxPublishRaceRetries; lia | by eexists _, _].
Qed.

Lemma list_alternates_ok key (v : Volume (C := C)) : volume_ok v -> exists r v', list_alternates_sync bld cfg key v = Some (r, v') /\ volume_ok v'.
Proof.
  intros Hv. unfold list_alternates_sync. destruct (select_stripe v key) as [[i s]|]; [|by eexists _, _].
  apply retry_read_fuel; [|done]. intros w Hw. destruct (list_attempt bld i key w) as [[a w']|] eqn:E.
  - pose proof (list_attempt_pure bld i key w w' a E) as ->. by eexists _, _.
  - exfalso. unfold list_attempt in E. destruct (v_stripes w !! i); [|done]. destruct (probe_each _ _ _ _ _ _). by repeat case_match.
Qed.

Lemma read_alternate_ok env select key (v : Volume (C := C)) : volume_ok v ->
  exists r v', read_alternate_sync bld cfg env select key v = Some (r, v') /\ volume_ok v'.
Proof.
  intros Hv. unfold read_alternate_sync. destruct (select_stripe v key) as [[i s]|]; [|by eexists _, _].
  apply retry_read_fuel; [|done]. intros w Hw. destruct (alternate_attempt_ok bld cfg env select i key w Hw) as (a & w' & E & Hk & _). eauto.
Qed.

Lemma close_read_ok h (v : Volume (C := C)) : volume_ok v -> volume_ok (close_read h v).
Proof.
  intros Hv. unfold close_read. destruct (rh_borrow h); [|done]. destruct (v_stripes v !! rh_stripe h) eqn:E; [|done].
  apply volume_ok_stripe; [done|]. apply state_ok_core; [by eapply vo_stripes|apply core_release_borrow].
Qed.

Lemma renew_read_ok env h (v : Volume (C := C)) : volume_ok v -> volume_ok (snd (renew_read_lease cfg env h v)).
Proof.
  intros Hv. unfold renew_read_lease. destruct (rh_borrow h); [|done]. destruct (v_stripes v !! rh_stripe h) eqn:E; [|done].
  repeat case_match; try done. apply volume_ok_stripe; [done|]. apply state_ok_core; [by eapply vo_stripes|].
  unfold stamp_read_lease. by case_match.
Qed.

(** ** Removals and hit updates *)

Lemma remove_sync_ok key (v : Volume (C := C)) : volume_ok v -> exists r v', remove_sync bld key v = Some (r, v') /\ volume_ok v'.
Proof.
  intros Hv. destruct (select_stripe v key) as [[i s]|] eqn:Hsel; [|unfold remove_sync; rewrite Hsel; by eexists _, _].
  destruct (remove_sync_spec bld key v i s Hv Hsel) as (r & v' & E & Hv' & _). eauto.
Qed.

Lemma update_hits_ok key id delta last (v : Volume (C := C)) : volume_ok v -> volume_ok (snd (update_hit_count_sync bld key id delta last v)).
Proof.
  intros Hv. unfold update_hit_count_sync. destruct (select_stripe v key) as [[i s]|]; [|done].
  destruct (ss_owned s); [|done]. cbn [negb]. case_match; [done|]. destruct (map_region _ _ _) as [data|] eqn:Em; [|done].
  unfold commit_header_rmw. repeat (case_match; try done). cbn [snd]. apply volume_ok_file; [done|]. simplify_eq.
  unfold store_hits. cbv zeta. etransitivity; apply length_write_at_grows.
Qed.

Lemma invalidate_ram_ok drop m i s (v : Volume (C := C)) : volume_ok v -> stripe_state_ok (v_file v) s ->
  (forall c, rc_ok c -> exists c', drop c = Some c' /\ rc_ok c' /\ rc_contents c' = m (rc_contents c)) ->
  exists v', invalidate_ram drop i s v = Some v' /\ volume_ok v' /\ exists s', v_stripes v' = <[i := s']> (v_stripes v) /\ (s' = s \/ s' = bump_remove_epoch s).
Proof.
  intros Hv Hs Hd. destruct (invalidate_ram_spec drop i s v m Hv Hs Hd) as (v' & s' & E & Hv' & E2 & E3 & _). eauto 6.
Qed.

Lemma successor_inside s file snap rel cls link size : successor s file snap rel cls link = inr (Some size) -> in_data_area s (link_offset link) = true.
Proof.
  unfold successor. destruct (_ =? _); [done|]. unfold admit_hop. destruct (in_data_area _ _); [done|]. by rewrite orb_true_r.
Qed.

Lemma remove_alternate_rounds_ok rounds i key id (v : Volume (C := C)) s : volume_ok v -> stripe_state_ok (v_file v) s ->
  exists r v', remove_alternate_rounds bld rounds i key id v s = Some (r, v') /\ volume_ok v'.
Proof using RamCacheLaws0.
  revert v. induction rounds as [|rounds IH]; intros v Hv Hs; cbn [remove_alternate_rounds]; [by eauto|].
  assert (Hone : forall w s', volume_ok w -> stripe_state_ok (v_file w) s' -> exists r v',
    (w ← invalidate_ram (fun c => snd <$> rc_remove (alternate_key key id) c) i s' w; Some (inr tt : VolumeError + unit, w)) = Some (r, v') /\ volume_ok v').
  { intros w s' Hw Hs'. destruct (invalidate_ram_ok _ _ i s' w Hw Hs' (drop_alternate key id)) as (v' & -> & H & _). cbn. eauto. }
  destruct (ha_head _) as [[head_rel cls]|]; [|by eauto]. destruct (find_alternate _ _ _ _ _ _ _ _ _) as [prev target link| |]; [|by eauto..].
  destruct cls; cycle 2.
  { destruct (invalidate_ram_ok _ _ i (set_dir s (snd (remove_at (ss_dir s) key head_rel))) v Hv (remove_at_state_ok _ _ _ _ Hs) (drop_all key))
      as (v' & -> & H & _). cbn. eauto. }
  all: destruct prev as [[pred_abs pred_id]|].
  1, 3: destruct (repoint_chain_link _ _ _ _ _ _ _ _) as [|file] eqn:Er; [by apply IH|]; apply repoint_length in Er;
    apply Hone; [by apply volume_ok_file|by eapply state_ok_file].
  all: destruct (successor _ _ _ _ _ _) as [err|[size|]] eqn:Esu; [by eauto| |by apply Hone; [|apply remove_at_state_ok]].
  all: case_match; [by apply IH; [apply volume_ok_event|]|]; case_match; [by apply IH; [apply volume_ok_event|]|].
  all: apply Hone; [done|]; apply insert_state_ok; [done| |apply wrap_fits; lia].
  all: apply successor_inside in Esu; apply in_data_area_range in Esu;
    pose proof (so_start _ (sk_stripe _ _ Hs)); pose proof (so_size _ (sk_stripe _ _ Hs)); lia.
Qed.

Lemma remove_alternate_ok key id (v : Volume (C := C)) : volume_ok v -> exists r v', remove_alternate_sync bld key id v = Some (r, v') /\ volume_ok v'.
Proof using RamCacheLaws0.
  intros Hv. unfold remove_alternate_sync. destruct (select_stripe v key) as [[i s]|] eqn:Hsel; [|by eauto]. destruct (negb _); [by eauto|].
  apply remove_alternate_rounds_ok; [done|]. eapply vo_stripes; [done|]. by eapply select_stripe_lookup.
Qed.

(** ** Writes of alternates *)

Lemma build_size key header content id next now : key_ok key -> build (alternate_builder key header content id next now) <> [] ->
  0 < Z.of_nat (length (build (alternate_builder key header content id next now))) < 2 ^ 33.
Proof.
  intros [Hk _] Hne. split; [destruct (build _); [done|cbn; lia]|]. revert Hne. unfold build, serialize_head. cbn [alternate_builder b_header b_content b_enable_checksum].
  destruct (Z.ltb_spec (2 ^ 32 - 1) (Z.of_nat kHeaderSize + Z.of_nat (length header) + Z.of_nat (length content))); [done|].
  destruct (Z.ltb_spec (2 ^ 32 - 1) (Z.of_nat (length header))); [done|]. set (d := head_document _ _). set (crc := le_bytes 4 _).
  assert (Hd : length (serialize_to d) = 132%nat).
  { unfold serialize_to, wire_chunks. cbn [concat]. rewrite !length_app, !length_le_bytes. unfold d, head_document; cbn. rewrite Hk. reflexivity. }
  unfold serialize. cbn [app].
  assert (Hw : length (write_at (serialize_to d ++ header) kChecksumOffset crc) = (132 + length header)%nat).
  { assert (Hc : (kChecksumOffset + length crc <= length (serialize_to d ++ header))%nat)
      by (rewrite length_app, Hd; unfold crc; rewrite length_le_bytes; cbn; lia).
    rewrite length_write_at by exact Hc. by rewrite length_app, Hd. }
  unfold kHeaderSize in *. destruct (write_at _ _ _) as [|x l]; [done|]. intros _. change (Z.of_nat (length ((x :: l) ++ content)) < 2 ^ 33). rewrite length_app, Hw. lia.
Qed.

Lemma walk_nodes_length depth s file snap rel cls followed nodes :
  (length (cw_nodes (walk_nodes depth s file snap rel cls followed nodes)) <= length nodes + depth)%nat.
Proof.
  revert rel cls followed nodes. induction depth as [|depth IH]; intros rel cls followed nodes; cbn [walk_nodes]; (destruct (_ =? _); [cbn; lia|]); [cbn; lia|].
  destruct (existsb _ _); [cbn; lia|]. destruct (header_at _ _) as [r|]; [|cbn; lia]. destruct (_ || _); [cbn; lia|].
  destruct (_ =? _); [cbn; rewrite length_app; cbn; lia|].
  destruct (admit_hop _ _ _ _ _); [cbn; rewrite length_app; cbn; lia|..]; (etransitivity; [apply IH|]); rewrite length_app; cbn; lia.
Qed.

Lemma copy_node_size s file key snap n b : stripe_ok s -> copy_node s file key snap n = Some b -> Z.of_nat (length b) <= 2 ^ 41.
Proof.
  intros Hs. unfold copy_node. case_match eqn:E; [done|]. rewrite !orb_false_iff, negb_false_iff, !Z.ltb_ge in E. destruct E as [[E1 E2] E3].
  intros (data & Hm & Hd)%bind_Some. case_match; [|done]. injection Hd as <-. rewrite length_app, length_replicate.
  apply in_data_area_range in E2. pose proof (so_start _ Hs). pose proof (so_size _ Hs). unfold kHeaderSize in E1.
  unfold map_region in Hm. case_match; [done|]. injection Hm as <-. assert (length (subspan file (Z.to_nat (st_offset s + cn_rel n)) (Z.to_nat (cn_len n))) <= Z.to_nat (cn_len n))%nat
    by (unfold subspan; rewrite length_take; lia).
  unfold align8. rewrite align_down_spec by lia. pose proof (Z.mul_div_le (u64 (cn_len n + 7)) (2 ^ 3) ltac:(lia)).
  assert (u64 (cn_len n + 7) = cn_len n + 7) by (apply Z.mod_small; lia). lia.
Qed.

Lemma carry_candidates_length seen l : (length (carry_candidates seen l) <= length l)%nat.
Proof. revert seen. induction l as [|n l IH]; intros seen; cbn [carry_candidates]; [done|]. case_bool_decide; cbn; [specialize (IH seen)|specialize (IH (cn_id n :: seen))]; lia. Qed.

Lemma length_omap_le {A B} (f : A -> option B) (l : list A) : (length (omap f l) <= length l)%nat.
Proof. induction l as [|x l IH]; cbn; [done|]. case_match; cbn; lia. Qed.

Lemma concat_size (l : list (list Z)) n : Forall (fun b => Z.of_nat (length b) <= n) l -> Z.of_nat (length (concat l)) <= n * Z.of_nat (length l).
Proof. induction 1; cbn; [lia|]. rewrite length_app. lia. Qed.

(** What is carried forward fits a slot size by far. *)
Lemma carry_size s gen file key snap chain id n : stripe_ok s ->
  Z.of_nat (length (cp_bytes (carry_retained_chain bld cfg s gen file key snap chain id n))) <= 2 ^ 41 * Z.of_nat (length chain).
Proof.
  intros Hs. unfold carry_retained_chain. case_match; [cbn [cp_bytes length]; lia|]. cbn [cp_bytes]. set (cand := carry_candidates _ _). set (kept := rev _).
  set (copied := omap _ kept). set (left := filter _ copied). etransitivity; [apply (concat_size _ (2 ^ 41))|].
  - apply Forall_fmap, Forall_forall. intros [m b] [_ Hin]%list_elem_of_filter. apply list_elem_of_omap in Hin as (x & _ & E).
    apply fmap_Some in E as (b' & Hc & [= -> ->]). by eapply copy_node_size.
  - assert (Hl : (length left <= length copied)%nat) by apply length_filter. assert (Hc : (length copied <= length kept)%nat) by apply length_omap_le.
    assert (Hk : (length kept <= length cand)%nat) by (unfold kept; rewrite length_rev; etransitivity; [apply length_omap_le|]; by rewrite length_imap).
    pose proof (carry_candidates_length [id] chain) as Hcc. fold cand in Hcc. rewrite length_fmap. lia.
Qed.

Lemma count_write_ok u d cr lr cf carry (v : Volume (C := C)) : volume_ok v -> volume_ok (count_write u d cr lr cf carry v) /\
  v_stripes (count_write u d cr lr cf carry v) = v_stripes v /\ v_file (count_write u d cr lr cf carry v) = v_file v.
Proof. intros [Hs Hr]. unfold count_write, event_if. repeat case_match; by split. Qed.

Lemma splices_length s key snap l file u d : (length file <= length (fold_left (splice bld s key snap) l (file, u, d)).1.1)%nat.
Proof.
  revert file u d. induction l as [|r l IH]; intros file u d; cbn [fold_left]; [done|]. unfold splice at 2.
  destruct (repoint_chain_link _ _ _ _ _ _ _ _) as [|file'] eqn:E; [apply IH|]. apply repoint_length in E. etransitivity; [exact E|apply IH].
Qed.

(** The room of the generation for [n] attempts. *)
Definition attempts_room (n : nat) (s : StripeState) : Prop := ws_gen (ss_log s) + 2 * (Z.of_nat n + 1) * (st_chunks (ss_stripe s) + 1) < 2 ^ 64.

(** An attempt on stripe [i], laid out as [st], leaves the volume in order,
    touches that stripe only, and its generation is at most [g] then. *)
Definition attempted (v : Volume (C := C)) (i : nat) (st : Stripe) (g : Z) (v' : Volume (C := C)) : Prop :=
  volume_ok v' /\ (v_stripes v' = v_stripes v \/
    exists s', v_stripes v' = <[i := s']> (v_stripes v) /\ ss_stripe s' = st /\ ws_gen (ss_log s') <= g).

Section publish.
Context (i : nat) (s : StripeState) (slot : WriteSlot) (n : Z) (v : Volume (C := C)).
Hypothesis Hv : volume_ok v.
Hypothesis Hs : stripe_state_ok (v_file v) s.
Hypothesis Hres : reserved bld (ss_stripe s) (ss_log s) n slot.
Hypothesis Hdef : slot_deferred_publish slot = true.
Hypothesis Hlock : slot_holds_write_lock slot = st_use_mmap (ss_stripe s).
Hypothesis Hn : 0 < n.
Hypothesis Hgen : ws_gen (ss_log s) + 2 * (st_chunks (ss_stripe s) + 1) < 2 ^ 64.

Lemma log_commit_ok file ok valid : (length (v_file v) <= length file)%nat -> exists log', commit_write_slot (ss_stripe s) slot ok valid (ss_log s) = (None, log') /\
  ws_gen log' = ws_gen (ss_log s) /\ stripe_state_ok file (set_log s log').
Proof using Hs Hres Hdef Hlock Hn Hgen.
  intros Hf. pose proof Hs as [Hst Hloc Hlog Hdir Hph Hfile Hdis].
  pose proof (commit_publishes bld (ss_stripe s) Hst n (ss_log s) slot ok valid Hlog Hres Hdef Hlock Hn Hgen) as Hc.
  destruct (commit_write_slot _ _ _ _ _) as [err log'] eqn:E. destruct Hc as (Hlog' & Eg & _). revert E. unfold commit_write_slot.
  rewrite Hdef, Hlock, Hloc. cbn [negb]. intros E. exists log'. split; [|split; [done|]].
  - destruct ok; injection E as <- <-; done.
  - apply (state_ok_file (v_file v)); [|done]. split; try done. cbn. rewrite Hph. destruct ok; injection E as _ <-; done.
Qed.

Lemma attempted_stripe file s' : (length (v_file v) <= length file)%nat -> stripe_state_ok file s' -> ss_stripe s' = ss_stripe s ->
  ws_gen (ss_log s') = ws_gen (ss_log s) -> attempted v i (ss_stripe s) (ws_gen (ss_log s)) (set_stripe (set_file v file) i s').
Proof using Hv Hs.
  intros Hf Hs' E1 E2. split; [apply volume_ok_stripe; [by apply volume_ok_file|done]|]. right. exists s'. split; [done|]. split; [done|lia].
Qed.

Lemma given_back ok valid : attempted v i (ss_stripe s) (ws_gen (ss_log s)) (set_stripe v i (set_log s (snd (commit_write_slot (ss_stripe s) slot ok valid (ss_log s))))).
Proof using All.
  destruct (log_commit_ok (v_file v) ok valid ltac:(lia)) as (log' & -> & Eg & Hs'). cbn [snd]. assert (E : v = set_file v (v_file v)) by by destruct v.
  rewrite E at 2.  by apply attempted_stripe.
Qed.

(** After the publish: the splices, the counters and the RAM copies. *)
Lemma publish_settles file log' (r : InsertResult StripeAdmission) repoints u0 d0 key id snap reset refused carry_forward carry :
  (length (v_file v) <= length file)%nat -> ws_gen log' = ws_gen (ss_log s) -> stripe_state_ok file (set_dir (set_log s log') (ir_dir r)) ->
  exists v', (let '(file', unlinked, deferred) := fold_left (splice bld (set_dir (set_log s log') (ir_dir r)) key snap) repoints (file, u0, d0) in
     v ← invalidate_ram (if (cp_dropped carry =? 0)%nat then fun c => snd <$> rc_remove (alternate_key key id) c else rc_remove_all key) i
       (set_dir (set_log s log') (ir_dir r))
       (count_write unlinked deferred reset refused carry_forward carry (set_file (event (evictions r (set_file v file)) VWrite) file'));
     Some (Finished (inr tt), v)) = Some (Finished (inr tt), v') /\ attempted v i (ss_stripe s) (ws_gen (ss_log s)) v'.
Proof using All.
  intros Hf Eg Hins. pose proof (splices_length (set_dir (set_log s log') (ir_dir r)) key snap repoints file u0 d0) as Hsp.
  destruct (fold_left _ _ _) as [[file' unlinked] deferred]. cbn [fst] in Hsp.
  assert (Hv2 : volume_ok (event (evictions r (set_file v file)) VWrite)) by (by apply volume_ok_evictions, volume_ok_file).
  assert (Es2 : v_stripes (event (evictions r (set_file v file)) VWrite) = v_stripes v /\ v_file (event (evictions r (set_file v file)) VWrite) = file)
    by (unfold evictions; by repeat case_match).
  destruct Es2 as [Es2 Ef2]. set (v2 := event _ _) in *. set (v3 := count_write _ _ _ _ _ _ _).
  destruct (count_write_ok unlinked deferred reset refused carry_forward carry (set_file v2 file') ltac:(apply volume_ok_file; [done|by rewrite Ef2]))
    as (Hv3 & Es3 & Ef3). fold v3 in Hv3, Es3, Ef3. cbn [v_stripes v_file set_file] in Es3, Ef3.
  assert (Hdrop : exists m, forall c, rc_ok c -> exists c', (if (cp_dropped carry =? 0)%nat then fun c => snd <$> rc_remove (alternate_key key id) c
    else rc_remove_all key) c = Some c' /\ rc_ok c' /\ rc_contents c' = m (rc_contents c)).
  { destruct (cp_dropped carry =? 0)%nat; eexists; [apply drop_alternate|apply drop_all]. }
  destruct Hdrop as [m Hdrop].
  destruct (invalidate_ram_ok _ m i (set_dir (set_log s log') (ir_dir r)) v3 Hv3 ltac:(rewrite Ef3; by eapply state_ok_file) Hdrop)
    as (v' & Ei & Hv' & s' & Es' & Hs'').
  rewrite Ei. cbn. eexists. split; [reflexivity|]. split; [done|]. right. exists s'.
  split; [by rewrite Es', Es3, Es2|]. destruct Hs'' as [->| ->]; cbn; (split; [done|lia]).
Qed.

Lemma fill_and_publish_ok env allow key id snap rs plan reset carry_forward doc carry : doc <> [] ->
  exists out v', fill_and_publish bld env allow i key id snap rs plan reset carry_forward doc carry slot s v = Some (out, v') /\
    attempted v i (ss_stripe s) (ws_gen (ss_log s)) v' /\ (out = Restart -> allow = true).
Proof using All.
  intros Hdoc. unfold fill_and_publish. cbv zeta. set (stale := _ && stale_now _ _ _ _ _). destruct stale.
  { eexists _, _. split; [reflexivity|]. split; [|done]. apply given_back. }
  destruct (link_carried _ _ _ _ _) as [carried next]. set (wrap_raced := negb carry_forward && _).
  set (refused := wrap_raced && _). destruct (refused && allow && _ && _) eqn:Erf.
  { eexists _, _. split; [reflexivity|]. split; [apply given_back|]. intros _. rewrite !andb_true_iff in Erf. apply Erf. }
  clear Erf. clearbody refused wrap_raced. set (bytes := (concat carried ++ _) ++ _). set (file := write_at _ _ (take _ _)).
  assert (Hf : (length (v_file v) <= length file)%nat) by apply length_write_at_grows. clearbody file bytes.
  destruct (log_commit_ok file (length bytes <=? we_written env)%nat (we_lock_valid env) Hf) as (log' & -> & Eg & Hs'). cbv zeta.
  pose proof (fun s' H1 H2 H3 => attempted_stripe file s' Hf H1 H2 H3) as Hat.
  assert (Hend : forall out, out <> Restart -> exists out0 v', Some (out, set_stripe (set_file v file) i (set_log s log')) = Some (out0, v') /\
    attempted v i (ss_stripe s) (ws_gen (ss_log s)) v' /\ (out0 = Restart -> allow = true)) by (intros out Ho; eexists _, _; split; [reflexivity|]; split; [by apply Hat|done]).
  destruct (length bytes <=? we_written env)%nat; cbn [negb]; [|by apply Hend].
  match goal with |- context [if (?a <? 0) || (?b <? ?c) then _ else _] => destruct ((a <? 0) || (b <? c)) eqn:Eb end; [by apply Hend|].
  destruct (wrapped_since _ _ _ _); [by apply Hend|].
  apply orb_false_iff in Eb as [Eb1%Z.ltb_ge Eb2%Z.ltb_ge]. pose proof (rs_area _ _ _ _ _ Hres) as [Ha1 _].
  pose proof (so_start _ (sk_stripe _ _ Hs)) as Hst. unfold data_start_rel in Hst. pose proof (so_size _ (sk_stripe _ _ Hs)).
  assert (0 < length doc)%nat by (destruct doc; [done|cbn; lia]).
  set (rel := slot_write_offset slot - st_offset (ss_stripe s) + Z.of_nat (length (cp_bytes carry))) in *.
  pose proof (insert_state_ok bld file (set_log s log') key rel (Z.of_nat (length doc)) (match rs_head rs with Some h => hc_rel h | None => kNoVerifiedEntry end)
    (rs_clear rs) (rs_seen rs) (u16 (slot_fill_serial slot)) Hs' ltac:(unfold rel in *; lia) ltac:(apply wrap_fits; lia)) as Hins.
  cbv zeta in Hins. unfold admission in Hins. cbn [ss_stripe ss_log ss_dir set_log] in Hins |- *. set (r := @insert_admitted _ _ _ _ _ _ _ _ _ _ _) in *.
  destruct (ir_ok r); cbn [negb].
  2: { destruct (ir_stale r); [|by apply Hend]. eexists _, _. split; [reflexivity|]. split; [|done].
       destruct (Hat (set_log s log') Hs' eq_refl Eg) as [H1 H2]. split; [by apply volume_ok_event|exact H2]. }
  destruct (publish_settles file log' r (if wrap_raced then [] else lp_repoints plan) (if wrap_raced then 0%nat else lp_unlinked plan)
    (if wrap_raced then 0%nat else lp_deferred plan) key id snap reset refused carry_forward carry Hf Eg Hins) as (v' & E & Ha).
  eexists _, v'. split; [exact E|]. split; [exact Ha|done].
Qed.
End publish.

Lemma once_ok env now unlink allow i key id header content (v : Volume (C := C)) s : volume_ok v -> v_stripes v !! i = Some s -> gen_room s -> key_ok key ->
  c_advance_cursor_at_reservation (vc_log cfg) = false ->
  exists out v', commit_alternate_write_once bld cfg env now unlink allow i key id header content v = Some (out, v') /\
    attempted v i (ss_stripe s) (ws_gen (ss_log s) + 2 * (st_chunks (ss_stripe s) + 1)) v' /\ (out = Restart -> allow = true).
Proof using ChecksumLaws0 RamCacheLaws0.
  intros Hv Hi Hroom Hk Hseam. pose proof (vo_stripes _ Hv _ _ Hi) as Hs. pose proof Hs as [Hst Hloc Hlog _ _ _ _]. unfold gen_room in Hroom.
  assert (Hsame : forall w out, volume_ok w -> v_stripes w = v_stripes v -> out <> Restart ->
    exists out0 v', Some (out, w) = Some (out0, v') /\ attempted v i (ss_stripe s) (ws_gen (ss_log s) + 2 * (st_chunks (ss_stripe s) + 1)) v' /\
      (out0 = Restart -> allow = true)).
  { intros w out Hw E Ho. eexists _, _. split; [reflexivity|]. split; [|done]. split; [done|by left]. }
  unfold commit_alternate_write_once. rewrite Hi. destruct (negb _); [by apply Hsame|]. cbv zeta.
  set (rs := resolve_chain _ _ _ _). set (nodes := cw_nodes (rs_walk rs)).
  assert (Hnodes : (length nodes <= kMaxChainTraversalDepth)%nat).
  { unfold nodes, rs, resolve_chain. destruct (fst _) as [heads seen]. cbn [rs_walk]. destruct (elect_head _ _ _) as [[k h]|]; [|cbn; lia].
    apply (walk_nodes_length _ _ _ _ _ _ _ []). }
  set (v1 := event v _). assert (Hv1 : volume_ok v1) by by apply volume_ok_event.
  set (reset := cw_cut _ && bool_decide _). set (forward := st_retain _ && _). destruct (negb forward && _); [by apply Hsame|].
  set (plan := plan_links _ _ _ _ _). case_bool_decide as Hne; [by apply Hsame|].
  pose proof (build_size key header content id (lp_next plan) now Hk Hne) as Hb. set (doc := build _) in *. set (carry := if forward then _ else _).
  assert (Hc : Z.of_nat (length (cp_bytes carry)) <= 2 ^ 41 * 128).
  { unfold carry. destruct forward; [|cbn; lia]. etransitivity; [by apply carry_size|]. unfold kMaxChainTraversalDepth, kMaxAlternates in Hnodes. lia. }
  pose proof (allocate_spec bld (ss_stripe s) Hst (vc_log cfg) (we_lock env) (we_now1 env) (we_now2 env) (Z.of_nat (length (cp_bytes carry) + length doc)) (ss_log s)
    Hlog ltac:(pose proof (so_chunks _ Hst); lia) ltac:(lia) ltac:(congruence) Hseam) as Hal.
  destruct (allocate_write_slot _ _ _ _ _ _ _ _) as [res log]. destruct Hal as (Hlog1 & Hgen1 & Hal).
  pose proof (state_ok_synced _ _ _ Hs Hlog1) as Hs1. set (s1 := set_dir (set_log s log) _) in *. destruct res as [err|slot].
  { eexists _, _. split; [reflexivity|]. split; [|done]. split; [by apply volume_ok_stripe|]. right. exists s1. split; [done|]. split; [done|]. cbn. lia. }
  destruct Hal as (Hres & Hdef & Hlock & _).
  destruct (fill_and_publish_ok i s1 slot _ v1 Hv1 Hs1 Hres Hdef Hlock ltac:(lia) ltac:(cbn; lia) env allow key id (stripe_snapshot bld s) rs plan reset forward doc carry Hne)
    as (out & v' & E & [Hv' Hd] & Hr).
  eexists out, v'. split; [exact E|]. split; [|done]. split; [done|]. destruct Hd as [|(s' & E1 & E2 & E3)]; [by left|].
  right. exists s'. split; [done|]. split; [done|]. cbn in E3. lia.
Qed.

(** Enough rounds for every stale publish and for the one restart. *)
Lemma attempts_ok fuel env now n unlink (allow : bool) stale i key id header content (v : Volume (C := C)) : volume_ok v ->
  (forall s, v_stripes v !! i = Some s -> attempts_room fuel s) -> key_ok key -> c_advance_cursor_at_reservation (vc_log cfg) = false ->
  (stale <= kMaxStalePublishRetries)%nat -> (kMaxStalePublishRetries - stale + (if allow then 1 else 0) < fuel)%nat ->
  exists r v', commit_attempts bld cfg fuel env now n unlink allow stale i key id header content v = Some (r, v') /\ volume_ok v'.
Proof using ChecksumLaws0 RamCacheLaws0.
  intros Hv Hroom Hk Hseam. revert n allow stale v Hv Hroom. induction fuel as [|fuel IH]; intros n allow stale v Hv Hroom Hst Hf; [lia|].
  cbn [commit_attempts]. destruct (v_stripes v !! i) as [s|] eqn:Hi.
  2: { unfold commit_alternate_write_once. rewrite Hi. by eauto. }
  pose proof (Hroom s eq_refl) as Hr. unfold attempts_room in Hr. pose proof (so_chunks _ (sk_stripe _ _ (vo_stripes _ Hv _ _ Hi))) as Hch.
  destruct (once_ok (env n) (now n) unlink allow i key id header content v s Hv Hi ltac:(unfold gen_room; nia) Hk Hseam) as (out & v' & -> & [Hv' Hd] & Hra).
  assert (Hroom' : forall s', v_stripes v' !! i = Some s' -> attempts_room fuel s').
  { intros s' Hs'. unfold attempts_room. destruct Hd as [E|(s0 & E & E1 & E2)].
    - rewrite E, Hi in Hs'. injection Hs' as <-. nia.
    - rewrite E, list_lookup_insert_eq in Hs' by (by eapply lookup_lt_Some). injection Hs' as <-. rewrite E1. nia. }
  cbn [mbind option_bind]. destruct out as [r| |]; [by eauto|apply IH; try done; specialize (Hra eq_refl); subst allow; lia|].
  destruct (Nat.eqb_spec stale kMaxStalePublishRetries); [by eauto|]. apply IH; [by apply volume_ok_event|done|lia|lia].
Qed.

Lemma close_alternate_ok env now unlink id h (v : Volume (C := C)) : volume_ok v -> key_ok (wh_key h) ->
  (forall s, v_stripes v !! wh_stripe h = Some s -> attempts_room commit_fuel s) -> c_advance_cursor_at_reservation (vc_log cfg) = false ->
  exists r v', close_alternate bld cfg env now unlink id h v = Some (r, v') /\ volume_ok v'.
Proof using ChecksumLaws0 RamCacheLaws0.
  intros Hv Hk Hroom Hseam. unfold close_alternate. destruct (wh_aborted h); [by eauto|]. destruct (wh_closed h); [by eauto|].
  unfold commit_alternate_write. destruct (negb _); [cbn; by eauto|].
  destruct (attempts_ok commit_fuel env now 0 unlink true 0 (wh_stripe h) (wh_key h) id (wh_header h) (wh_content h) v Hv Hroom Hk Hseam)
    as (r & v' & -> & Hv'); [lia|unfold commit_fuel; lia|]. cbn. eauto.
Qed.

Lemma handle_close_ok env h (v : Volume (C := C)) : volume_ok v -> key_ok (wh_key h) -> bytes_ok (wh_header h) -> bytes_ok (wh_content h) ->
  (forall s, v_stripes v !! wh_stripe h = Some s -> gen_room s) -> c_advance_cursor_at_reservation (vc_log cfg) = false ->
  exists r v', handle_close bld cfg env h v = Some (r, v') /\ volume_ok v'.
Proof using ChecksumLaws0 RamCacheLaws0.
  intros Hv Hk Hh Hc Hg Hseam. unfold handle_close. destruct (wh_aborted h); [by eauto|]. destruct (wh_closed h); [by eauto|].
  destruct (v_stripes v !! wh_stripe h) as [s|] eqn:Hi.
  - destruct (commit_write_spec bld cfg env _ (wh_generation h) _ _ _ v s Hv Hi (Hg s eq_refl) Hk Hh Hc Hseam) as (r & v' & -> & Hv' & _). cbn. eauto.
  - unfold commit_write. rewrite Hi. case_match; cbn; eauto.
Qed.
(** ** All of them *)

(** The operations a process has on an open volume.  Opening a write handle
    and appending to it change the handle only; the write is its close. *)
Inductive volume_op :=
  | OpRead (env : ReadEnv) (key : CacheKey)
  | OpReadAlternate (env : ReadEnv) (select : list AlternateInfo -> option nat) (key : CacheKey)
  | OpListAlternates (key : CacheKey)
  | OpExists (key : CacheKey)
  | OpCloseRead (h : ReadHandle)
  | OpRenew (env : ReadEnv) (h : ReadHandle)
  | OpCloseWrite (env : WriteEnv) (h : WriteHandle)
  | OpCloseAlternate (env : nat -> WriteEnv) (now : nat -> Z) (unlink : bool) (id : Z) (h : WriteHandle)
  | OpRemoveKey (key : CacheKey)
  | OpRemoveAlternate (key : CacheKey) (id : Z)
  | OpUpdateHits (key : CacheKey) (id delta last : Z).

Definition apply_op (op : volume_op) (v : Volume (C := C)) : option (Volume (C := C)) :=
  match op with
  | OpRead env key => snd <$> read_sync bld cfg env key v
  | OpReadAlternate env select key => snd <$> read_alternate_sync bld cfg env select key v
  | OpListAlternates key => snd <$> list_alternates_sync bld cfg key v
  | OpExists key => (fun _ => v) <$> exists_sync bld cfg key v
  | OpCloseRead h => Some (close_read h v)
  | OpRenew env h => Some (snd (renew_read_lease cfg env h v))
  | OpCloseWrite env h => snd <$> handle_close bld cfg env h v
  | OpCloseAlternate env now unlink id h => snd <$> close_alternate bld cfg env now unlink id h v
  | OpRemoveKey key => snd <$> remove_sync bld key v
  | OpRemoveAlternate key id => snd <$> remove_alternate_sync bld key id v
  | OpUpdateHits key id delta last => Some (snd (update_hit_count_sync bld key id delta last v))
  end.

(** A write is of a 32-byte key, without the seam that publishes the cursor
    early, and its stripe's 64-bit generation has room for the wraps its
    attempts can take. *)
Definition op_ok (v : Volume (C := C)) (op : volume_op) : Prop :=
  match op with
  | OpCloseWrite _ h =>
      key_ok (wh_key h) /\ bytes_ok (wh_header h) /\ bytes_ok (wh_content h) /\ c_advance_cursor_at_reservation (vc_log cfg) = false /\
      forall s, v_stripes v !! wh_stripe h = Some s -> gen_room s
  | OpCloseAlternate _ _ _ _ h =>
      key_ok (wh_key h) /\ c_advance_cursor_at_reservation (vc_log cfg) = false /\
      forall s, v_stripes v !! wh_stripe h = Some s -> attempts_room commit_fuel s
  | _ => True
  end.

(** C2. The operations of an open process-local volume, each running alone,
    return and keep it well formed ([volume_ok]): plain and alternate reads,
    listings, existence checks, the closes and renewals of read handles, the
    closes of plain and of alternate writes, removals of keys and of alternates,
    hit updates; whether they succeed or fail.  Of a write it asks for a key of
    32 bytes, the test seam that publishes the cursor early off, and room in
    the stripe's 64-bit generation for the wraps the write can take; of a plain
    one besides that header and content are bytes. *)
Theorem volume_invariant op (v : Volume (C := C)) :
  volume_ok v -> op_ok v op -> exists v', apply_op op v = Some v' /\ volume_ok v'.
Proof using ChecksumLaws0 RamCacheLaws0.
  assert (Hsnd : forall R (r : option (R * Volume (C := C))), (exists x v', r = Some (x, v') /\ volume_ok v') ->
    exists v', snd <$> r = Some v' /\ volume_ok v') by (intros R r (x & v' & -> & H); by eexists).
  intros Hv Hop. destruct op; cbn [apply_op op_ok] in *; try apply Hsnd.
  - by apply read_sync_ok.
  - by apply read_alternate_ok.
  - by apply list_alternates_ok.
  - destruct (exists_sync_ok key v Hv) as (r & v' & E & Hv'). apply fmap_Some in E as (b & -> & [= _ ->]). by eexists.
  - eexists. split; [done|]. by apply close_read_ok.
  - eexists. split; [done|]. by apply renew_read_ok.
  - destruct Hop as (? & ? & ? & ? & ?). by apply handle_close_ok.
  - destruct Hop as (? & ? & ?). by apply close_alternate_ok.
  - by apply remove_sync_ok.
  - by apply remove_alternate_ok.
  - eexists. split; [done|]. by apply update_hits_ok.
Qed.
End ops.

(** A handle with an alternate to write. *)
Definition tiny_alternate_handle (header content : list Z) : WriteHandle := {|
  wh_stripe := 0; wh_key := sample_key; wh_generation := 1; wh_header := header; wh_content := content;
  wh_expected_length := Z.of_nat (length content); wh_written := Z.of_nat (length content);  wh_closed := false; wh_aborted := false |}.

Lemma volume_invariant_witness : exists v', @apply_op mulhi_int128 host_checksum _ (lru_ops true) tiny_config
  (OpCloseAlternate (fun _ => tiny_wenv) (fun _ => 100) true 5 (tiny_alternate_handle [1; 2; 3] [4; 5; 6; 7])) (tiny_volume 5120) = Some v' /\
  @volume_ok _ _ (lru_laws true) v'.
Proof.
  apply (@volume_invariant mulhi_int128 host_checksum _ _ (lru_ops true) (lru_laws true)); [apply tiny_volume_ok; lia|].
  split; [exact sample_key_ok|]. split; [reflexivity|]. intros s [= <-]. vm_compute. reflexivity.
Defined.
