(* ===== verification/Cache.v ===== *)
(** * The cache (src/src/core/cache.cpp)

    What the embedder calls: the carve-out of a small tier, adding volumes,
    starting and stopping, the gate every operation passes, the routing of a
    key to a volume, and the operations forwarded to it.  The volumes are those
    of VolumeOpen.v; the default-tier volumes share one RAM cache, which is kept
    once, in [im_ram], and lent to a volume for the length of a call.

    A call holds the gate shared and an exclusive holder excludes every call, so
    the operations are functions on the whole state; [stop] releases the gate
    between its phases and is two of them, and the closes of handles do not pass
    the gate at all.  The background threads' own states are those of
    HitTracker.v and AdaptivePool.v; what the tracker flushes is an argument. *)

From S2P Require Import Prelude Text Key Document DirEntry Directory Geometry Stripe WriteLog RamCache LruCache Volume VolumeSpec VolumeCommit VolumeFile VolumeOpen Alternates AlternateWrite.
Local Open Scope cyc_scope.

(** ** Configuration *)

Inductive Tier := kDefault | kSmall.
#[global] Instance Tier_eq_dec : EqDecision Tier.
Proof. solve_decision. Defined.

(** Durations are in milliseconds.  [cc_engine] is optimization_config.enabled
    and [cc_engine_valid] the answer of its is_valid. *)
Record CacheConfig := {
  cc_small_tier_percent : Z; cc_enable_checksum : bool; cc_verify_checksum_on_read : bool; cc_enable_hit_tracking : bool;
  cc_fill_large_document_tail : bool; cc_read_lease_duration : Z; cc_lease_wrap_ceiling : Z;
  cc_unlink_superseded_alternates : bool; cc_wrap_retention : bool; cc_max_object_size : Z;
  cc_cross_process_ram_coherence : bool; cc_gc_superseded_on_start : bool; cc_engine : bool; cc_engine_valid : bool;
  cc_mp : MultiProcessConfig }.

(** The embedder's description of a volume. *)
Record VolumeRequest := { vr_path : Path; vr_size : Z; vr_tier : Tier; vr_stripe_size : Z; vr_auto_reset_on_incompatible : bool }.

Definition lease_ms_to_ns (ms : Z) : Z := if ms <=? 0 then 0 else u64 (ms * 1000000).

(** *** The small tier *)

Record SmallTierSizes := { default_size : Z; small_size : Z }.

Definition compute_small_tier_sizes (total_size percent : Z) (mp : MultiProcessConfig) : option SmallTierSizes :=
  if (percent =? 0) || (total_size =? 0) then None
  else
    let pct := clamp percent 1 50 in
    let min_stripes := if mp_enabled mp then Z.max (mp_total_processes mp) 1 else 1 in
    let small_floor := u64 (min_stripes * kMinStripeSize + VolumeHeader_kSize) in
    let default_floor := kMinStripeSize + VolumeHeader_kSize in
    let small_size := Z.max (u64 (total_size / 100 * pct)) small_floor in
    if total_size <? u64 (small_size + default_floor) then None
    else Some {| default_size := total_size - small_size; small_size := small_size |}.

Definition kSmallTierPathSuffix : text := [46; 115; 109; 97; 108; 108].
Definition append_suffix (p : Path) (suffix : text) : Path := {| parent_path := parent_path p; filename := filename p ++ suffix |}.

(** ** State *)

Section cache.
Context (bld : mulhi_build) `{Checksum} {C : Type} `{!RamCacheOps C}.

(** [cv_path] is the fingerprinted path; [cv_volume] holds no RAM cache of its
    own. *)
Record CacheVolume := {
  cv_tier : Tier; cv_path : Path; cv_file : FileConfig; cv_salt : Z * Z * Z * Z; cv_volume : OpenVolume (C := C) }.

Record FlushStats := { fs_successes : Z; fs_failures : Z; fs_total_delta : Z; fs_lock_contended : Z }.

(** [im_default] and [im_small] are positions in [im_volumes] (the source's
    pointers); [im_anchors] counts the teardowns, each of which latches the
    anchors of the handles given out before; [im_engine] and [im_tracker] say
    whether the cache still has its engine and its hit tracker, and [im_loads]
    is what was reported to the load monitor: reads, bytes read, writes, bytes
    written. *)
Record Impl := {
  im_config : CacheConfig; im_volumes : list CacheVolume; im_default : list nat; im_small : option nat;
  im_files : list (Path * Path * Tier); im_ram : option C; im_running : bool; im_stopping : bool; im_abandoned : bool;
  im_owner_pid : Z; im_owner_epoch : Z; im_anchors : Z; im_engine : bool; im_tracker : bool; im_flush : FlushStats;
  im_loads : Z * Z * Z * Z }.

Definition set_volumes (im : Impl) (l : list CacheVolume) (ram : option C) : Impl := {|
  im_config := im_config im; im_volumes := l; im_default := im_default im; im_small := im_small im; im_files := im_files im;
  im_ram := ram; im_running := im_running im; im_stopping := im_stopping im; im_abandoned := im_abandoned im;
  im_owner_pid := im_owner_pid im; im_owner_epoch := im_owner_epoch im; im_anchors := im_anchors im; im_engine := im_engine im;
  im_tracker := im_tracker im; im_flush := im_flush im; im_loads := im_loads im |}.
Definition set_running (im : Impl) (running stopping : bool) (anchors : Z) : Impl := {|
  im_config := im_config im; im_volumes := im_volumes im; im_default := im_default im; im_small := im_small im; im_files := im_files im;
  im_ram := im_ram im; im_running := running; im_stopping := stopping; im_abandoned := im_abandoned im;
  im_owner_pid := im_owner_pid im; im_owner_epoch := im_owner_epoch im; im_anchors := anchors; im_engine := im_engine im;
  im_tracker := im_tracker im; im_flush := im_flush im; im_loads := im_loads im |}.
Definition set_owner (im : Impl) (pid epoch : Z) : Impl := {|
  im_config := im_config im; im_volumes := im_volumes im; im_default := im_default im; im_small := im_small im; im_files := im_files im;
  im_ram := im_ram im; im_running := im_running im; im_stopping := im_stopping im; im_abandoned := im_abandoned im;
  im_owner_pid := pid; im_owner_epoch := epoch; im_anchors := im_anchors im; im_engine := im_engine im;
  im_tracker := im_tracker im; im_flush := im_flush im; im_loads := im_loads im |}.
Definition abandon (im : Impl) : Impl := {|
  im_config := im_config im; im_volumes := im_volumes im; im_default := im_default im; im_small := im_small im; im_files := im_files im;
  im_ram := im_ram im; im_running := false; im_stopping := im_stopping im; im_abandoned := true;
  im_owner_pid := im_owner_pid im; im_owner_epoch := im_owner_epoch im; im_anchors := im_anchors im; im_engine := false;
  im_tracker := false; im_flush := im_flush im; im_loads := im_loads im |}.
Definition set_flush (im : Impl) (f : FlushStats) : Impl := {|
  im_config := im_config im; im_volumes := im_volumes im; im_default := im_default im; im_small := im_small im; im_files := im_files im;
  im_ram := im_ram im; im_running := im_running im; im_stopping := im_stopping im; im_abandoned := im_abandoned im;
  im_owner_pid := im_owner_pid im; im_owner_epoch := im_owner_epoch im; im_anchors := im_anchors im; im_engine := im_engine im;
  im_tracker := im_tracker im; im_flush := f; im_loads := im_loads im |}.
Definition set_loads (im : Impl) (l : Z * Z * Z * Z) : Impl := {|
  im_config := im_config im; im_volumes := im_volumes im; im_default := im_default im; im_small := im_small im; im_files := im_files im;
  im_ram := im_ram im; im_running := im_running im; im_stopping := im_stopping im; im_abandoned := im_abandoned im;
  im_owner_pid := im_owner_pid im; im_owner_epoch := im_owner_epoch im; im_anchors := im_anchors im; im_engine := im_engine im;
  im_tracker := im_tracker im; im_flush := im_flush im; im_loads := l |}.
Definition push_volume (im : Impl) (cv : CacheVolume) (configured : Path) : Impl := {|
  im_config := im_config im; im_volumes := im_volumes im ++ [cv];
  im_default := match cv_tier cv with kDefault => im_default im ++ [length (im_volumes im)] | kSmall => im_default im end;
  im_small := match cv_tier cv with kSmall => Some (length (im_volumes im)) | kDefault => im_small im end;
  im_files := im_files im ++ [(configured, cv_path cv, cv_tier cv)];
  im_ram := im_ram im; im_running := im_running im; im_stopping := im_stopping im; im_abandoned := im_abandoned im;
  im_owner_pid := im_owner_pid im; im_owner_epoch := im_owner_epoch im; im_anchors := im_anchors im; im_engine := im_engine im;
  im_tracker := im_tracker im; im_flush := im_flush im; im_loads := im_loads im |}.

Definition no_flushes : FlushStats := {| fs_successes := 0; fs_failures := 0; fs_total_delta := 0; fs_lock_contended := 0 |}.

(** [ram] is what RamCache::create gives for the configured size, [None] when
    that is 0. *)
Definition new_cache (config : CacheConfig) (ram : option C) : Impl := {|
  im_config := config; im_volumes := []; im_default := []; im_small := None; im_files := []; im_ram := ram; im_running := false;
  im_stopping := false; im_abandoned := false; im_owner_pid := 0; im_owner_epoch := 0; im_anchors := 0;
  im_engine := cc_engine config; im_tracker := cc_enable_hit_tracking config; im_flush := no_flushes; im_loads := (0, 0, 0, 0) |}.

(** ** Adding volumes *)

(** What a new volume finds: the listing its name is resolved in, its salt, the
    bytes of its file, and the state of the thread's draw. *)
Record NewVolume := { nv_listing : list (text * option Z); nv_salt : Z * Z * Z * Z; nv_bytes : list Z; nv_draw : Z }.

Definition file_config (c : CacheConfig) (r : VolumeRequest) : FileConfig := {|
  fc_stripe_size := vr_stripe_size r; fc_wrap_retention := cc_wrap_retention c;
  fc_auto_reset_on_incompatible := vr_auto_reset_on_incompatible r; fc_mp := cc_mp c |}.

Definition make_volume (c : CacheConfig) (nv : NewVolume) (r : VolumeRequest) : CacheVolume := {|
  cv_tier := vr_tier r;
  cv_path := fingerprint_cache_path (nv_listing nv) (vr_path r) (vr_size r) (vr_stripe_size r) (mp_enabled (cc_mp c));
  cv_file := file_config c r; cv_salt := nv_salt nv;
  cv_volume := {|
    ov_volume := {| v_stripes := []; v_file := nv_bytes nv; v_ram := None; v_checksums := ∅; v_draw := nv_draw nv;
                    v_generation := 0; v_events := [] |};
    ov_size := vr_size r; ov_open := false; ov_gate_degraded := false; ov_whole_map_failed := false;
    ov_resets_degraded := 0; ov_resets_verified := 0 |} |}.

Definition add_volume_locked (nv : NewVolume) (r : VolumeRequest) (im : Impl) : (VolumeError + unit) * Impl :=
  match vr_tier r, im_small im with
  | kSmall, Some _ => (inl EInvalidConfiguration, im)
  | _, _ => (inr tt, push_volume im (make_volume (im_config im) nv r) (vr_path r))
  end.

Definition default_request (r : VolumeRequest) (s : SmallTierSizes) : VolumeRequest := {|
  vr_path := vr_path r; vr_size := default_size s; vr_tier := vr_tier r; vr_stripe_size := vr_stripe_size r;
  vr_auto_reset_on_incompatible := vr_auto_reset_on_incompatible r |}.
Definition small_request (r : VolumeRequest) (s : SmallTierSizes) : VolumeRequest := {|
  vr_path := append_suffix (vr_path r) kSmallTierPathSuffix; vr_size := small_size s; vr_tier := kSmall;
  vr_stripe_size := kMinStripeSize; vr_auto_reset_on_incompatible := vr_auto_reset_on_incompatible r |}.

(** The second [NewVolume] is for the small volume of a carve-out. *)
Definition add_volume (nv nv_small : NewVolume) (r : VolumeRequest) (im : Impl) : (VolumeError + unit) * Impl :=
  if im_running im then (inl EBusy, im)
  else
    let sizes :=
      match im_volumes im, vr_tier r with
      | [], kDefault =>
          if 0 <? cc_small_tier_percent (im_config im)
          then compute_small_tier_sizes (vr_size r) (cc_small_tier_percent (im_config im)) (cc_mp (im_config im))
          else None
      | _, _ => None
      end in
    match sizes with
    | Some s =>
        let '(result, im) := add_volume_locked nv (default_request r s) im in
        match result with
        | inl err => (inl err, im)
        | inr _ => add_volume_locked nv_small (small_request r s) im
        end
    | None => add_volume_locked nv r im
    end.

(** ** A call on a volume *)

Definition volume_config (im : Impl) (cv : CacheVolume) : VolumeConfig :=
  let c := im_config im in {|
  vc_log := {| c_lease_t_ns := lease_ms_to_ns (cc_read_lease_duration c); c_lease_ceiling_ns := lease_ms_to_ns (cc_lease_wrap_ceiling c);
               c_fill_large_document_tail := cc_fill_large_document_tail c; c_advance_cursor_at_reservation := false |};
  vc_verify_checksum_on_read := cc_verify_checksum_on_read c || mp_enabled (cc_mp c);
  vc_max_read_retries := mp_max_read_retries (cc_mp c); vc_max_object_size := cc_max_object_size c;
  vc_cross_process_ram_coherence := cc_cross_process_ram_coherence c;
  vc_hit_tracking := im_tracker im && bool_decide (cv_tier cv = kDefault); vc_checksum_salt := cv_salt cv;
  vc_persistent_map := negb (ov_whole_map_failed (cv_volume cv)) |}.

Definition with_ram (v : Volume (C := C)) (ram : option C) : Volume (C := C) := {|
  v_stripes := v_stripes v; v_file := v_file v; v_ram := ram; v_checksums := v_checksums v; v_draw := v_draw v;
  v_generation := v_generation v; v_events := v_events v |}.

(** The volume as a call sees it: with the shared RAM cache, if its tier has
    one. *)
Definition attached (im : Impl) (cv : CacheVolume) : Volume (C := C) :=
  with_ram (ov_volume (cv_volume cv)) (match cv_tier cv with kDefault => im_ram im | kSmall => None end).

Definition put_volume (cv : CacheVolume) (v : Volume (C := C)) : CacheVolume := {|
  cv_tier := cv_tier cv; cv_path := cv_path cv; cv_file := cv_file cv; cv_salt := cv_salt cv;
  cv_volume := VolumeOpen.set_volume (cv_volume cv) (with_ram v None) |}.

Definition finish (im : Impl) (k : nat) (cv : CacheVolume) (v : Volume (C := C)) : Impl :=
  set_volumes im (<[k := put_volume cv v]> (im_volumes im)) (match cv_tier cv with kDefault => v_ram v | kSmall => im_ram im end).

(** Runs [op] on the volume at position [k]. *)
Definition call {R} (k : nat) (op : VolumeConfig -> Volume (C := C) -> option (R * Volume (C := C))) (im : Impl) : option (R * Impl) :=
  cv ← im_volumes im !! k;
  '(r, v) ← op (volume_config im cv) (attached im cv);
  Some (r, finish im k cv v).

(** ** The gate and the routing *)

Definition select_volume (im : Impl) (key : CacheKey) (tier : Tier) : option nat :=
  match tier, im_small im with
  | kSmall, Some k => Some k
  | _, _ =>
      match im_default im with
      | [] => None
      | l => l !! Z.to_nat (segment_hash key mod Z.of_nat (length l))
      end
  end.

Definition lock_and_select (im : Impl) (key : CacheKey) (tier : Tier) : VolumeError + nat :=
  if negb (im_running im) || im_stopping im then inl ENotInitialized
  else match select_volume im key tier with None => inl ENotInitialized | Some k => inr k end.

Definition guarded {R} (key : CacheKey) (tier : Tier)
    (op : VolumeConfig -> Volume (C := C) -> option ((VolumeError + R) * Volume (C := C))) (im : Impl)
  : option ((VolumeError + R) * Impl) :=
  match lock_and_select im key tier with
  | inl err => Some (inl err, im)
  | inr k => call k op im
  end.

(** ** Operations *)

(** What a caller holds: the handle, and the volume and the anchors it was
    given out under. *)
Record CacheReadHandle := { rd_volume : nat; rd_anchors : Z; rd_handle : ReadHandle }.

(** [wd_alternate]: the id a close commits, [None] for a plain write.
    [wd_observed]: the commit is reported to the load monitor. *)
Record CacheWriteHandle := { wd_volume : nat; wd_alternate : option Z; wd_observed : bool; wd_handle : WriteHandle }.

Definition record_read_complete (n : Z) (im : Impl) : Impl :=
  if im_engine im then
    let '(reads, bytes, writes, written) := im_loads im in set_loads im (u64 (reads + 1), u64 (bytes + n), writes, written)
  else im.
Definition on_write_committed (n : Z) (im : Impl) : Impl :=
  let '(reads, bytes, writes, written) := im_loads im in set_loads im (reads, bytes, u64 (writes + 1), u64 (written + n)).

Definition give_read (key : CacheKey) (tier : Tier) (im0 : Impl) (record : bool)
    (r : option ((VolumeError + ReadHandle) * Impl)) : option ((VolumeError + CacheReadHandle) * Impl) :=
  '(r, im) ← r;
  Some match r with
       | inl err => (inl err, im)
       | inr h =>
           (inr {| rd_volume := match select_volume im0 key tier with Some k => k | None => 0%nat end;
                   rd_anchors := im_anchors im0; rd_handle := h |},
            if record then record_read_complete (Z.of_nat (length (rh_content h))) im else im)
       end.

Definition read_sync_unrecorded (env : ReadEnv) (key : CacheKey) (tier : Tier) (im : Impl) : option ((VolumeError + CacheReadHandle) * Impl) :=
  give_read key tier im false (guarded key tier (fun cfg => Volume.read_sync bld cfg env key) im).
Definition read_sync (env : ReadEnv) (key : CacheKey) (tier : Tier) (im : Impl) : option ((VolumeError + CacheReadHandle) * Impl) :=
  give_read key tier im true (guarded key tier (fun cfg => Volume.read_sync bld cfg env key) im).
Definition read_alternate_sync (env : ReadEnv) (select : list AlternateInfo -> option nat) (key : CacheKey) (tier : Tier) (im : Impl)
  : option ((VolumeError + CacheReadHandle) * Impl) :=
  give_read key tier im true (guarded key tier (fun cfg => Alternates.read_alternate_sync bld cfg env select key) im).

(** A handle whose anchors were torn touches no stripe. *)
Definition close_read (h : CacheReadHandle) (im : Impl) : Impl :=
  if im_anchors im =? rd_anchors h then
    match call (rd_volume h) (fun _ v => Some (tt, Volume.close_read (rd_handle h) v)) im with Some (_, im) => im | None => im end
  else im.

Definition renew_read_lease (env : ReadEnv) (h : CacheReadHandle) (im : Impl) : bool * Impl :=
  if im_anchors im =? rd_anchors h then
    match call (rd_volume h) (fun cfg v => Some (Volume.renew_read_lease cfg env (rd_handle h) v)) im with
    | Some r => r
    | None => (false, im)
    end
  else (false, im).

Definition write_alternate_unobserved (alternate : option Z) (key : CacheKey) (content_length : Z) (tier : Tier) (observed : bool) (im : Impl)
  : VolumeError + CacheWriteHandle :=
  match lock_and_select im key tier with
  | inl err => inl err
  | inr k =>
      match im_volumes im !! k with
      | None => inl ENotInitialized
      | Some cv =>
          match Volume.write_sync (volume_config im cv) key content_length (attached im cv) with
          | inl err => inl err
          | inr h => inr {| wd_volume := k; wd_alternate := alternate; wd_observed := observed; wd_handle := h |}
          end
      end
  end.
Definition write_sync (key : CacheKey) (content_length : Z) (tier : Tier) (im : Impl) : VolumeError + CacheWriteHandle :=
  write_alternate_unobserved None key content_length tier (im_engine im) im.
Definition write_alternate_sync (key : CacheKey) (id content_length : Z) (tier : Tier) (im : Impl) : VolumeError + CacheWriteHandle :=
  write_alternate_unobserved (Some id) key content_length tier (im_engine im) im.
Definition write_alternate_sync_unrecorded (key : CacheKey) (id content_length : Z) (tier : Tier) (im : Impl) : VolumeError + CacheWriteHandle :=
  write_alternate_unobserved (Some id) key content_length tier false im.

Definition set_handle (h : CacheWriteHandle) (w : WriteHandle) : CacheWriteHandle := {|
  wd_volume := wd_volume h; wd_alternate := wd_alternate h; wd_observed := wd_observed h; wd_handle := w |}.

Definition handle_write (h : CacheWriteHandle) (data : list Z) (im : Impl) : (VolumeError + Z) * CacheWriteHandle :=
  match im_volumes im !! wd_volume h with
  | None => (inl EClosed, h)
  | Some cv =>
      let '(r, w) := Volume.handle_write (volume_config im cv) (attached im cv) (wd_handle h) data in (r, set_handle h w)
  end.

(** [env] and [now] are per attempt of an alternate's commit. *)
Definition handle_close (env : nat -> WriteEnv) (now : nat -> Z) (h : CacheWriteHandle) (im : Impl)
  : option ((VolumeError + unit) * CacheWriteHandle * Impl) :=
  let was_closed := wh_aborted (wd_handle h) || wh_closed (wd_handle h) in
  '(r, w, im) ← call (wd_volume h) (fun cfg v =>
      match wd_alternate h with
      | None => Volume.handle_close bld cfg (env 0%nat) (wd_handle h) v
      | Some id => AlternateWrite.close_alternate bld cfg env now (cc_unlink_superseded_alternates (im_config im)) id (wd_handle h) v
      end) im;
  Some (r, set_handle h w,
    match r with
    | inr _ => if wd_observed h && negb was_closed then on_write_committed (wh_written (wd_handle h)) im else im
    | inl _ => im
    end).

Definition remove_sync (key : CacheKey) (tier : Tier) : Impl -> option ((VolumeError + unit) * Impl) :=
  guarded key tier (fun _ => Volume.remove_sync bld key).
Definition exists_sync (key : CacheKey) (tier : Tier) : Impl -> option ((VolumeError + bool) * Impl) :=
  guarded key tier (fun cfg v => (fun r => (r, v)) <$> Volume.exists_sync bld cfg key v).
Definition list_alternates_sync (key : CacheKey) (tier : Tier) : Impl -> option ((VolumeError + list AlternateInfo) * Impl) :=
  guarded key tier (fun cfg => Alternates.list_alternates_sync bld cfg key).
Definition remove_alternate_sync (key : CacheKey) (id : Z) (tier : Tier) : Impl -> option ((VolumeError + unit) * Impl) :=
  guarded key tier (fun _ => Alternates.remove_alternate_sync bld key id).

Definition evict_ram (key : CacheKey) (id : Z) (v : Volume (C := C)) : option (unit * Volume (C := C)) :=
  match v_ram v with
  | None => Some (tt, v)
  | Some c => '(_, c) ← rc_remove {| cache_key := key; RamCache.alternate_id := id |} c; Some (tt, set_ram v c)
  end.

(** Not gated on [running]. *)
Definition evict_from_ram_cache (key : CacheKey) (id : Z) (tier : Tier) (im : Impl) : option Impl :=
  match tier, im_small im with
  | kSmall, Some _ => Some im
  | _, _ =>
      match select_volume im key tier with
      | None => Some im
      | Some k => '(_, im) ← call k (fun _ => evict_ram key id) im; Some im
      end
  end.

(** *** Hit counts *)

Definition count_flush (f : FlushStats) (successes failures delta contended : Z) : FlushStats := {|
  fs_successes := u64 (fs_successes f + successes); fs_failures := u64 (fs_failures f + failures);
  fs_total_delta := u64 (fs_total_delta f + delta); fs_lock_contended := u64 (fs_lock_contended f + contended) |}.

(** The flush callback over the default volumes at positions [l]. *)
Fixpoint flush_hit (l : list nat) (key : CacheKey) (id delta last_access_ms : Z) (im : Impl) : bool * Impl :=
  match l with
  | [] => (false, set_flush im (count_flush (im_flush im) 0 1 0 0))
  | k :: l =>
      match call k (fun _ v => Some (Alternates.update_hit_count_sync bld key id delta last_access_ms v)) im with
      | None => flush_hit l key id delta last_access_ms im
      | Some (inr _, im) => (true, set_flush im (count_flush (im_flush im) 1 0 delta 0))
      | Some (inl EBusy, im) => (true, set_flush im (count_flush (im_flush im) 0 0 0 1))
      | Some (inl _, im) => flush_hit l key id delta last_access_ms im
      end
  end.

Record HitDelta := { hd_key : CacheKey; hd_id : Z; hd_delta : Z; hd_last_access_ms : Z }.

Definition flush_hits (l : list HitDelta) (im : Impl) : Impl :=
  fold_left (fun im d => snd (flush_hit (im_default im) (hd_key d) (hd_id d) (hd_delta d) (hd_last_access_ms d) im)) l im.

(** ** Starting and stopping *)

Record StartEnv := {
  se_open : nat -> OpenEnv; se_identity : nat -> option (Z * Z); se_listing : text -> list GcFile; se_now : Z;
  se_pid : Z; se_epoch : Z }.

Definition set_open_volume (cv : CacheVolume) (v : OpenVolume (C := C)) : CacheVolume := {|
  cv_tier := cv_tier cv; cv_path := cv_path cv; cv_file := cv_file cv; cv_salt := cv_salt cv; cv_volume := v |}.

Definition close_volume (cv : CacheVolume) : CacheVolume := set_open_volume cv (VolumeOpen.close (cv_volume cv)).

(** Opens in order, up to the first volume that fails. *)
Fixpoint open_all (env : nat -> OpenEnv) (l : list CacheVolume) : option (option VolumeError * list CacheVolume) :=
  match l with
  | [] => Some (None, [])
  | cv :: l =>
      '(r, v) ← VolumeOpen.open (cv_file cv) (env 0%nat) (cv_volume cv);
      match r with
      | inl err => Some (Some err, set_open_volume cv v :: l)
      | inr _ => '(err, l) ← open_all (fun k => env (S k)) l; Some (err, set_open_volume cv v :: l)
      end
  end.

Definition kGcAgeFloor : Z := 60.

Definition live_volumes (env : StartEnv) (l : list CacheVolume) : list LiveVolume :=
  imap (fun k cv => {| lv_identity := se_identity env k; lv_path := cv_path cv |}) l.

(** The result, the state, and the files the collection unlinks. *)
Definition start (env : StartEnv) (im : Impl) : option ((VolumeError + unit) * Impl * list (text * text)) :=
  let c := im_config im in
  if im_abandoned im then Some (inl EClosed, im, [])
  else if im_running im then Some (inl EBusy, im, [])
  else if mp_enabled (cc_mp c) && (negb (mp_is_valid (cc_mp c)) || negb (cc_enable_checksum c)) then Some (inl EInvalidConfiguration, im, [])
  else if im_engine im && negb (cc_engine_valid c) then Some (inl EInvalidConfiguration, im, [])
  else
    '(err, l) ← open_all (se_open env) (im_volumes im);
    match err with
    | Some err => Some (inl err, set_volumes im (map close_volume l) (im_ram im), [])
    | None =>
        let unlinked :=
          if cc_gc_superseded_on_start c then gc_superseded_volumes (live_volumes env l) (se_listing env) (se_now env) kGcAgeFloor else [] in
        let im := set_owner (set_volumes im l (im_ram im)) (se_pid env) (se_epoch env) in
        Some (inr tt, set_running im true (im_stopping im) (im_anchors im), unlinked)
    end.

(** Phase 1: [true] when this call has claimed the teardown; [pending] is what
    the hit tracker still holds. *)
Definition stop_claim (pid epoch : Z) (pending : list HitDelta) (im : Impl) : bool * Impl :=
  if im_abandoned im then (false, im)
  else if im_running im && ((negb (im_owner_pid im =? 0) && negb (im_owner_pid im =? pid)) || negb (im_owner_epoch im =? epoch)) then
    (false, abandon im)
  else if negb (im_running im) || im_stopping im then (false, im)
  else
    let im := set_running im (im_running im) true (im_anchors im) in
    (true, if im_tracker im then flush_hits pending im else im).

(** Phase 3, after the joins. *)
Definition stop_finish (im : Impl) : Impl :=
  set_running (set_volumes im (map close_volume (im_volumes im)) (im_ram im)) false false (im_anchors im + 1).

Definition stop (pid epoch : Z) (pending : list HitDelta) (im : Impl) : Impl :=
  let '(claimed, im) := stop_claim pid epoch pending im in if claimed then stop_finish im else im.

(** ** Queries *)

Definition volume_count (im : Impl) : nat := length (im_volumes im).
Definition small_tier_active (im : Impl) : bool := match im_small im with Some _ => true | None => false end.
Definition cross_process_ram_coherence_active (im : Impl) : bool :=
  cc_cross_process_ram_coherence (im_config im) && mp_enabled (cc_mp (im_config im)) && match im_ram im with Some _ => true | None => false end.
Definition total_capacity (im : Impl) : Z := fold_left (fun n cv => u64 (n + ov_size (cv_volume cv))) (im_volumes im) 0.
Definition volume_bytes_used (v : Volume (C := C)) : Z :=
  fold_left (fun n s => u64 (n + u64 (ws_write_pos (ss_log s) - st_offset (ss_stripe s)))) (v_stripes v) 0.
Definition bytes_used (im : Impl) : Z := fold_left (fun n cv => u64 (n + volume_bytes_used (ov_volume (cv_volume cv)))) (im_volumes im) 0.
Definition reset_stats (im : Impl) : Impl := set_flush im no_flushes.

(** The engine of a started cache is hidden in a forked child. *)
Definition optimization_engine (epoch : Z) (im : Impl) : bool :=
  if im_running im && negb (im_owner_epoch im =? epoch) then false else im_engine im.
End cache.

(** ** Reading a handle as a stream *)

Definition stream_read (content : list Z) (offset n : nat) : list Z * nat :=
  if (length content <=? offset)%nat then ([], offset)
  else let k := Nat.min n (length content - offset) in (subspan content offset k, (offset + k)%nat).

Definition stream_read_all (content : list Z) (offset : nat) : list Z * nat :=
  (drop (Nat.min offset (length content)) content, length content).
