(* ===== verification/CacheSpec.v ===== *)
(** * What the cache promises (src/src/core/cache.cpp)

    The routing tables and the volumes behind them stay in order through every
    operation; a write through the cache is what the next read of its tier
    returns; the tiers do not touch each other; a stop revokes what was given
    out before; the carve-out gives every process a stripe of the small tier;
    and a removal that does not reach a RAM copy. *)

From S2P Require Import Prelude Text Crc32c Key Document DirEntry Directory Geometry Stripe WriteLog RamCache LruCache Volume VolumeSpec VolumeCommit VolumeFile VolumeOpen Alternates AlternateSpec AlternateWrite VolumeOps Cache.
Local Open Scope cyc_scope.

Section cache.
Context (bld : mulhi_build) `{CK : Checksum} `{!ChecksumLaws CK} {C : Type} `{RO : RamCacheOps C} `{RL : !RamCacheLaws C}.
Local Abbreviation Impl := (Impl (C := C)).
Local Abbreviation CacheVolume := (CacheVolume (C := C)).
Implicit Types (im : Impl) (cv : CacheVolume) (v : Volume (C := C)).

(** ** The shape of a call *)

Definition tier_at im (k : nat) : option Tier := cv_tier <$> im_volumes im !! k.

(** [im'] is [im] with, at most, the volume at [k] (its tier and paths kept) and
    the RAM cache exchanged. *)
Record touches im (k : nat) im' : Prop := {
  to_static : im' = set_volumes im (im_volumes im') (im_ram im');
  to_volume : exists cv cv', im_volumes im !! k = Some cv /\ im_volumes im' = <[k := cv']> (im_volumes im) /\
    cv_tier cv' = cv_tier cv /\ cv_path cv' = cv_path cv /\ cv_file cv' = cv_file cv /\ ov_open (cv_volume cv') = ov_open (cv_volume cv) /\
    (cv_tier cv = kSmall -> im_ram im' = im_ram im) }.

Lemma call_touches {R} k (op : VolumeConfig -> Volume (C := C) -> option (R * Volume (C := C))) im r im' :
  call k op im = Some (r, im') ->
  exists cv v, im_volumes im !! k = Some cv /\ op (volume_config im cv) (attached im cv) = Some (r, v) /\ im' = finish im k cv v /\ touches im k im'.
Proof.
  unfold call. intros H. apply bind_Some in H as (cv & Hk & H). apply bind_Some in H as ([r' v] & Hop & H). injection H as -> <-.
  exists cv, v. split_and!; try done. split; [done|]. exists cv, (put_volume cv v). split_and!; try done. unfold finish; cbn. by intros ->.
Qed.

Lemma guarded_cases {R} key tier (op : VolumeConfig -> Volume (C := C) -> option ((VolumeError + R) * Volume (C := C))) im r im' :
  guarded key tier op im = Some (r, im') ->
  (r = inl ENotInitialized /\ im' = im) \/
  (im_running im = true /\ im_stopping im = false /\ exists k, select_volume im key tier = Some k /\ call k op im = Some (r, im')).
Proof.
  unfold guarded, lock_and_select. destruct (im_running im), (im_stopping im); cbn; try (intros [= <- <-]; by left).
  destruct (select_volume im key tier) as [k|]; [|intros [= <- <-]; by left]. right. by eauto.
Qed.

(** ** The invariant *)

Definition stripes_ok cv : Prop :=
  let v := ov_volume (cv_volume cv) in v_ram v = None /\ forall i s, v_stripes v !! i = Some s -> stripe_state_ok (v_file v) s.

(** The routing tables name every volume, under its tier; the volumes are open
    exactly while the cache runs; stripes and RAM cache are in order. *)
Record cache_ok im : Prop := {
  co_local : mp_enabled (cc_mp (im_config im)) = false;
  co_mp : forall k cv, im_volumes im !! k = Some cv -> fc_mp (cv_file cv) = cc_mp (im_config im);
  co_default : forall k, k ∈ im_default im <-> tier_at im k = Some kDefault;
  co_nodup : NoDup (im_default im);
  co_small : forall k, im_small im = Some k <-> tier_at im k = Some kSmall;
  co_files : map (fun f => (f.1.2, f.2)) (im_files im) = map (fun cv => (cv_path cv, cv_tier cv)) (im_volumes im);
  co_open : im_abandoned im = false -> forall k cv, im_volumes im !! k = Some cv -> ov_open (cv_volume cv) = im_running im;
  co_stopping : im_stopping im = true -> im_running im = true \/ im_abandoned im = true;
  co_stripes : forall k cv, im_volumes im !! k = Some cv -> stripes_ok cv;
  co_ram : match im_ram im with Some c => rc_ok c | None => True end }.

Lemma attached_ok im k cv : cache_ok im -> im_volumes im !! k = Some cv -> volume_ok (attached im cv).
Proof. intros Hok Hk. split; [exact (proj2 (co_stripes _ Hok k cv Hk))|]. unfold ram_ok, attached, with_ram; cbn. destruct (cv_tier cv); [apply Hok|done]. Qed.

Lemma touched_tiers im k im' : touches im k im' -> forall j, tier_at im' j = tier_at im j.
Proof.
  intros [_ (cv & cv' & Hk & E & Et & _)] j. unfold tier_at. rewrite E. destruct (decide (j = k)) as [->|].
  - rewrite list_lookup_insert_eq by (by eapply lookup_lt_Some). cbn. by rewrite Hk, Et.
  - by rewrite list_lookup_insert_ne.
Qed.

Lemma map_insert_id {A B} (f : A -> B) (l : list A) k x y : l !! k = Some x -> f y = f x -> map f (<[k := y]> l) = map f l.
Proof. intros Hk Hf. change (f <$> <[k := y]> l = f <$> l). rewrite list_fmap_insert, Hf. apply list_insert_id. by rewrite list_lookup_fmap, Hk. Qed.

Lemma touched_ok im k im' : cache_ok im -> touches im k im' ->
  (forall cv', im_volumes im' !! k = Some cv' -> stripes_ok cv') -> match im_ram im' with Some c => rc_ok c | None => True end -> cache_ok im'.
Proof.
  intros Hok Ht Hs Hr. pose proof (touched_tiers _ _ _ Ht) as Htier. destruct Ht as [Est (cv & cv' & Hk & E & Et & Ep & Ef & Eo & _)].
  assert (Hj : forall j cj, im_volumes im' !! j = Some cj ->
    (j = k /\ cj = cv') \/ im_volumes im !! j = Some cj).
  { intros j cj Hj. rewrite E in Hj. destruct (decide (j = k)) as [->|]; [|rewrite list_lookup_insert_ne in Hj by done; by right].
    rewrite list_lookup_insert_eq in Hj by (by eapply lookup_lt_Some). left. split; [done|congruence]. }
  rewrite Est. split; cbn.
  - apply Hok.
  - intros j cj Hl. destruct (Hj _ _ Hl) as [[-> ->]|H]; [rewrite Ef|]; by eapply co_mp.
  - intros j. change (j ∈ im_default im <-> tier_at im' j = Some kDefault). rewrite Htier. apply Hok.
  - apply Hok.
  - intros j. change (im_small im = Some j <-> tier_at im' j = Some kSmall). rewrite Htier. apply Hok.
  - rewrite E, (map_insert_id _ _ k cv cv' Hk) by congruence. apply Hok.
  - intros Ha j cj Hl. destruct (Hj _ _ Hl) as [[-> ->]|H]; [rewrite Eo|]; by eapply co_open.
  - apply Hok.
  - intros j cj Hl. destruct (Hj _ _ Hl) as [[-> ->]|H]; [by apply Hs|by eapply co_stripes].
  - exact Hr.
Qed.

(** An operation that keeps volumes in order keeps the cache in order. *)
Lemma call_kept {R} k (op : VolumeConfig -> Volume (C := C) -> option (R * Volume (C := C))) im r im' : cache_ok im -> call k op im = Some (r, im') ->
  (forall cv v, im_volumes im !! k = Some cv -> op (volume_config im cv) (attached im cv) = Some (r, v) -> volume_ok v) -> cache_ok im'.
Proof.
  intros Hok Hc Hop. destruct (call_touches k op im r _ Hc) as (cv & v & Hk & Ho & -> & Ht). destruct (Hop cv v Hk Ho) as [Hs Hr].
  apply (touched_ok im k _ Hok Ht).
  - intros cv' Hk'. unfold finish in Hk'; cbn in Hk'. rewrite list_lookup_insert_eq in Hk' by (by eapply lookup_lt_Some). injection Hk' as <-.
    split; [done|exact Hs].
  - unfold finish; cbn. destruct (cv_tier cv); [exact Hr|apply Hok].
Qed.

Lemma call_ok {R} k cv (op : VolumeConfig -> Volume (C := C) -> option (R * Volume (C := C))) im : cache_ok im -> im_volumes im !! k = Some cv ->
  (exists r v, op (volume_config im cv) (attached im cv) = Some (r, v) /\ volume_ok v) ->
  exists r im', call k op im = Some (r, im') /\ cache_ok im'.
Proof.
  intros Hok Hk (r & v & Hop & Hv). assert (Hc : call k op im = Some (r, finish im k cv v)) by (unfold call; rewrite Hk; cbn; by rewrite Hop).
  exists r, (finish im k cv v). split; [done|]. apply (call_kept k op im r _ Hok Hc). intros cv' v' Hk' Hop'. congruence.
Qed.

Lemma select_volume_spec im key tier k : cache_ok im -> select_volume im key tier = Some k ->
  exists cv, im_volumes im !! k = Some cv /\ cv_tier cv = (if decide (tier = kSmall /\ is_Some (im_small im)) then kSmall else kDefault).
Proof.
  intros Hok. assert (Hd : match im_default im with [] => None | l => l !! Z.to_nat (segment_hash key mod Z.of_nat (length l)) end = Some k ->
    exists cv, im_volumes im !! k = Some cv /\ cv_tier cv = kDefault).
  { intros H. assert (Hin : k ∈ im_default im) by (destruct (im_default im); [done|by eapply list_elem_of_lookup_2]).
    apply (co_default _ Hok) in Hin. unfold tier_at in Hin. apply fmap_Some in Hin as (cv & Hk & ->). eauto. }
  unfold select_volume. destruct tier, (im_small im) as [ks|] eqn:Es.
  - rewrite decide_False by (by intros [? _]). exact Hd.
  - rewrite decide_False by (by intros [? _]). exact Hd.
  - intros [= <-]. rewrite decide_True by eauto. apply (co_small _ Hok) in Es. unfold tier_at in Es. apply fmap_Some in Es as (cv & Hk & ->). eauto.
  - rewrite decide_False by (intros [_ [? ?]]; done). exact Hd.
Qed.

Lemma guarded_ok {R} key tier (op : VolumeConfig -> Volume (C := C) -> option ((VolumeError + R) * Volume (C := C))) im : cache_ok im ->
  (forall cfg v, volume_ok v -> exists r v', op cfg v = Some (r, v') /\ volume_ok v') ->
  exists r im', guarded key tier op im = Some (r, im') /\ cache_ok im'.
Proof.
  intros Hok Hop. unfold guarded, lock_and_select. destruct (negb _ || _); [by eauto|].
  destruct (select_volume im key tier) as [k|] eqn:Hsel; [|by eauto].
  destruct (select_volume_spec _ _ _ _ Hok Hsel) as (cv & Hk & _).
  destruct (call_ok k cv op im Hok Hk (Hop _ _ (attached_ok _ _ _ Hok Hk))) as (r & im' & E & H). eauto.
Qed.

(** ** Operations of a volume keep it in order *)

Lemma evict_ram_ok key id v : volume_ok v -> exists r v', evict_ram key id v = Some (r, v') /\ volume_ok v'.
Proof.
  intros Hv. unfold evict_ram. destruct (v_ram v) as [c|] eqn:E; [|by eexists _, _].
  assert (Hc : rc_ok c) by (pose proof (vo_ram _ Hv) as H; unfold ram_ok in H; by rewrite E in H).
  destruct (rc_remove_spec {| cache_key := key; RamCache.alternate_id := id |} c Hc) as (b & c' & -> & Hc' & _).
  eexists _, _. split; [done|]. by apply volume_ok_ram.
Qed.

(** ** Hits, volumes, starting and stopping *)

Lemma set_flush_ok im f : cache_ok im -> cache_ok (set_flush im f).
Proof. intros []. by split. Qed.
Lemma set_loads_ok im l : cache_ok im -> cache_ok (set_loads im l).
Proof. intros []. by split. Qed.

Lemma call_update_ok k key id delta last im r im' : cache_ok im ->
  call k (fun _ v => Some (Alternates.update_hit_count_sync bld key id delta last v)) im = Some (r, im') -> cache_ok im'.
Proof.
  intros Hok Hc. apply (call_kept k _ im r im' Hok Hc). intros cv v Hk [= E].
  pose proof (update_hits_ok bld key id delta last _ (attached_ok _ _ _ Hok Hk)) as Hv. by rewrite E in Hv.
Qed.

Lemma flush_hit_ok l key id delta last im : cache_ok im -> cache_ok (snd (flush_hit bld l key id delta last im)).
Proof.
  revert im. induction l as [|k l IH]; intros im Hok; cbn [flush_hit]; [by apply set_flush_ok|].
  destruct (call k _ im) as [[r im']|] eqn:Hc; [|by apply IH]. apply (call_update_ok k) in Hc; [|done].
  destruct r as [[]|]; cbn [snd]; try (by apply IH); by apply set_flush_ok.
Qed.

Lemma flush_hits_ok l im : cache_ok im -> cache_ok (flush_hits bld l im).
Proof. unfold flush_hits. revert im. induction l as [|d l IH]; intros im Hok; cbn [fold_left]; [done|]. by apply IH, flush_hit_ok. Qed.

Lemma tier_at_push im cv p k : tier_at (push_volume im cv p) k =
  if decide (k = length (im_volumes im)) then Some (cv_tier cv) else tier_at im k.
Proof.
  unfold tier_at, push_volume; cbn. case_decide as E.
  - subst k. by rewrite lookup_app_r, Nat.sub_diag by lia.
  - destruct (decide (k < length (im_volumes im))%nat); [by rewrite lookup_app_l|].
    rewrite lookup_app_r by lia. destruct (k - length (im_volumes im))%nat eqn:Ek; [lia|]. cbn. by rewrite (lookup_ge_None_2 (im_volumes im)) by lia.
Qed.

Lemma tier_at_length im : tier_at im (length (im_volumes im)) = None.
Proof. unfold tier_at. by rewrite lookup_ge_None_2 by lia. Qed.

Lemma add_volume_locked_ok nv r im : cache_ok im -> im_running im = false -> cache_ok (snd (add_volume_locked nv r im)).
Proof.
  intros Hok Hrun. unfold add_volume_locked.
  assert (Hpush : vr_tier r = kDefault \/ im_small im = None -> cache_ok (push_volume im (make_volume (im_config im) nv r) (vr_path r))).
  { intros Hsmall. pose proof (tier_at_length im) as Hlen.
    assert (Hl : forall k cv, im_volumes (push_volume im (make_volume (im_config im) nv r) (vr_path r)) !! k = Some cv ->
      im_volumes im !! k = Some cv \/ cv = make_volume (im_config im) nv r).
    { intros k cv Hk. cbn in Hk. apply lookup_app_Some in Hk as [Hk|[_ Hk]]; [by left|]. apply list_lookup_singleton_Some in Hk as [_ ->]. by right. }
    split.
    - apply Hok.
    - intros k cv Hk. destruct (Hl _ _ Hk) as [H| ->]; [exact (co_mp _ Hok _ _ H)|done].
    - intros k. rewrite tier_at_push. unfold push_volume; cbn. destruct (vr_tier r); case_decide as E.
      + subst k. split; [done|]. intros _. apply elem_of_app. right. apply list_elem_of_singleton. done.
      + rewrite elem_of_app, list_elem_of_singleton, (co_default _ Hok). split; [by intros [?|?]|by left].
      + subst k. rewrite (co_default _ Hok), Hlen. done.
      + apply (co_default _ Hok).
    - unfold push_volume; cbn. destruct (vr_tier r); [|apply Hok]. apply NoDup_app. split; [apply Hok|]. split; [|apply NoDup_singleton].
      intros k Hk ->%list_elem_of_singleton. apply (co_default _ Hok) in Hk. congruence.
    - intros k. rewrite tier_at_push. unfold push_volume; cbn. destruct (vr_tier r); case_decide as E.
      + subst k. rewrite (co_small _ Hok), Hlen. done.
      + apply (co_small _ Hok).
      + subst k. done.
      + destruct Hsmall as [?|Hn]; [done|]. split; [intros [= <-]; done|]. intros Ht. apply (co_small _ Hok) in Ht. congruence.
    - unfold push_volume; cbn. rewrite !map_app, (co_files _ Hok). done.
    - intros Ha k cv Hk. destruct (Hl _ _ Hk) as [H| ->]; [exact (co_open _ Hok Ha _ _ H)|]. cbn. by rewrite Hrun.
    - apply Hok.
    - intros k cv Hk. destruct (Hl _ _ Hk) as [H| ->]; [exact (co_stripes _ Hok _ _ H)|by split].
    - apply Hok. }
  destruct (vr_tier r) eqn:Et, (im_small im) eqn:Es; cbn [snd]; try done; apply Hpush; auto.
Qed.

Lemma add_volume_ok nv nv' r im : cache_ok im -> cache_ok (snd (add_volume nv nv' r im)).
Proof.
  intros Hok. unfold add_volume. destruct (im_running im) eqn:Hrun; [done|]. case_match; [|by apply add_volume_locked_ok].
  destruct (add_volume_locked nv _ im) as [result im1] eqn:E1.
  pose proof (add_volume_locked_ok nv (default_request r s) im Hok Hrun) as H1. rewrite E1 in H1. cbn in H1.
  destruct result; [done|]. apply add_volume_locked_ok; [done|].
  unfold add_volume_locked in E1. repeat case_match; simplify_eq; done.
Qed.

(** *** Opening the volumes *)

Lemma open_total cfg env (ov : OpenVolume (C := C)) : mp_enabled (fc_mp cfg) = false -> exists r ov', VolumeOpen.open cfg env ov = Some (r, ov').
Proof.
  intros Hmp. unfold VolumeOpen.open. repeat (case_match; [by eauto|]). unfold open_locked.
  destruct (prepare_locked _ _ _ _) as [[err|] ov']; [cbn; by eauto|]. unfold init_stripes. rewrite Hmp. cbn. by eauto.
Qed.

(** What [start] asks of the files: none is over a TiB. *)
Definition startable cv : Prop :=
  0 <= ov_size (cv_volume cv) <= 2 ^ 40 /\ Z.of_nat (length (v_file (ov_volume (cv_volume cv)))) <= 2 ^ 40 /\
  0 <= fc_stripe_size (cv_file cv) < 2 ^ 62.

(** The same volume, its file opened anew: [opened] says what for. *)
Definition same_volume cv cv' : Prop := cv_tier cv' = cv_tier cv /\ cv_path cv' = cv_path cv /\ cv_file cv' = cv_file cv.

(** A fresh, empty, well-formed volume of the same generation. *)
Record freshly_open cv cv' : Prop := {
  fo_same : same_volume cv cv';
  fo_ok : stripes_ok cv';
  fo_open : ov_open (cv_volume cv') = true;
  fo_generation : v_generation (ov_volume (cv_volume cv')) = v_generation (ov_volume (cv_volume cv));
  fo_startable : startable cv';
  fo_fits : VolumeHeader_kSize < ov_size (cv_volume cv') /\
    stripe_geometry_fits (ov_size (cv_volume cv')) (fc_stripe_size (cv_file cv')) (mp_enabled (fc_mp (cv_file cv'))) = true;
  fo_count : v_stripes (ov_volume (cv_volume cv')) <> [];
  fo_empty : forall i s, v_stripes (ov_volume (cv_volume cv')) !! i = Some s ->
    ss_owned s = true /\ gen_room s /\ forall key, candidates s key = [] }.

Lemma open_freshly env cv ov' : startable cv -> v_ram (ov_volume (cv_volume cv)) = None ->
  VolumeOpen.open (cv_file cv) env (cv_volume cv) = Some (inr tt, ov') -> freshly_open cv (set_open_volume cv ov').
Proof using RL.
  intros (S1 & S2 & S3) Hram Ho. assert (Hr : ram_ok (ov_volume (cv_volume cv))) by (unfold ram_ok; by rewrite Hram).
  destruct (opened_ok (cv_file cv) env _ _ S1 S2 S3 Hr Ho) as (Hv & Hop & Hn & Hs).
  destruct (open_inv (cv_file cv) env _ _ S1 S2 S3 Ho) as (O1 & O2 & O3 & O4 & O5 & O6 & O7).
  split; cbn; try done.
  - split; [change (v_ram (ov_volume ov') = None); by rewrite O4|apply Hv].
  - split_and!; cbn; unfold VolumeHeader_kSize in *; lia.
  - split; [lia|done].
  - intros E. rewrite E in Hn. cbn in Hn.
    destruct (compute_stripe_geometry_spec (ov_size ov') (fc_stripe_size (cv_file cv))) as (N & _); lia.
  - intros i s Hi. destruct (Hs i s Hi) as (? & ? & _ & ?). done.
Qed.

Lemma open_all_spec env l : forall (Hmp : Forall (fun cv => mp_enabled (fc_mp (cv_file cv)) = false) l),
  Forall (fun cv => startable cv /\ v_ram (ov_volume (cv_volume cv)) = None) l ->
  exists err l', open_all env l = Some (err, l') /\ Forall2 same_volume l l' /\ (err = None -> Forall2 freshly_open l l').
Proof using RL.
  revert env. induction l as [|cv l IH]; intros env Hmp Hl; cbn [open_all].
  - eexists _, _. split; [done|]. split; [constructor|]. intros _. constructor.
  - apply Forall_cons in Hmp as [Hm Hmp]. apply Forall_cons in Hl as [[Hs Hr] Hl].
    destruct (open_total (cv_file cv) (env 0%nat) (cv_volume cv) Hm) as (r & ov' & Ho). rewrite Ho. cbn [mbind option_bind].
    assert (Hsame : same_volume cv (set_open_volume cv ov')) by done. destruct r as [err|[]].
    + eexists _, _. split; [done|]. split; [|done]. constructor; [done|]. clear. induction l; constructor; by auto.
    + destruct (IH (fun k => env (S k)) Hmp Hl) as (err & l' & -> & H1 & H2). cbn. eexists _, _. split; [done|].
      split; [by constructor|]. intros E. constructor; [|by apply H2]. by eapply open_freshly.
Qed.

Lemma revolume_ok im im' : cache_ok im -> im_config im' = im_config im -> im_default im' = im_default im -> im_small im' = im_small im ->
  im_files im' = im_files im -> im_ram im' = im_ram im -> (im_stopping im' = true -> im_running im' = true \/ im_abandoned im' = true) ->
  Forall2 same_volume (im_volumes im) (im_volumes im') ->
  Forall (fun cv => stripes_ok cv /\ (im_abandoned im' = false -> ov_open (cv_volume cv) = im_running im')) (im_volumes im') -> cache_ok im'.
Proof.
  intros Hok Ec Ed Es Ef Er Hst H2 Hall.
  assert (Htier : forall k, tier_at im' k = tier_at im k).
  { intros k. unfold tier_at. destruct (im_volumes im !! k) as [cv|] eqn:Hk.
    - destruct (Forall2_lookup_l _ _ _ _ _ H2 Hk) as (cv' & -> & (E & _)). cbn. by rewrite E.
    - destruct (im_volumes im' !! k) as [cv'|] eqn:Hk'; [|done]. destruct (Forall2_lookup_r _ _ _ _ _ H2 Hk') as (cv & Hk2 & _). congruence. }
  split.
  - rewrite Ec. apply Hok.
  - intros k cv' Hk. destruct (Forall2_lookup_r _ _ _ _ _ H2 Hk) as (cv & Hk2 & (_ & _ & ->)). rewrite Ec. by eapply co_mp.
  - intros k. rewrite Ed, Htier. apply Hok.
  - rewrite Ed. apply Hok.
  - intros k. rewrite Es, Htier. apply Hok.
  - rewrite Ef, (co_files _ Hok). clear -H2. induction H2 as [|? ? ? ? (E1 & E2 & _)]; cbn; congruence.
  - intros Ha k cv Hk. rewrite Forall_lookup in Hall. by apply (Hall k cv Hk).
  - exact Hst.
  - intros k cv Hk. rewrite Forall_lookup in Hall. by apply (Hall k cv Hk).
  - rewrite Er. apply Hok.
Qed.

Lemma close_volume_closed cv : v_ram (ov_volume (cv_volume cv)) = None -> stripes_ok (close_volume cv) /\ ov_open (cv_volume (close_volume cv)) = false.
Proof. intros H. split; [|done]. by split. Qed.

Lemma open_ram cfg env (ov : OpenVolume (C := C)) r ov' : VolumeOpen.open cfg env ov = Some (r, ov') -> v_ram (ov_volume ov') = v_ram (ov_volume ov).
Proof.
  unfold VolumeOpen.open. destruct (ov_open ov); [by intros [= _ <-]|]. destruct (_ && _); [by intros [= _ <-]|].
  destruct (oe_fd env); [|by intros [= _ <-]]. cbn [negb]. set (v1 := set_gauges _ _ _).
  assert (E1 : v_ram (ov_volume v1) = v_ram (ov_volume ov)) by (unfold v1; by destruct (negb (oe_exists _))). clearbody v1.
  destruct (oe_init_lock env); [|by intros [= _ <-]]. cbn [negb]. unfold open_locked.
  pose proof (prepare_locked_cases cfg env (negb (oe_exists env)) v1) as HP.
  cbv zeta in HP. destruct (prepare_locked _ _ _ _) as [[err1|] ov1]; destruct HP as (file & (F1 & F2 & F3 & F4) & _).
  - cbn. intros [= _ <-]. cbn. congruence.
  - destruct (init_stripes _ _); [|done]. cbn. intros [= _ <-]. cbn. congruence.
Qed.

Lemma close_same l l' : Forall2 same_volume l l' -> Forall2 same_volume l (map close_volume l').
Proof. induction 1; cbn; constructor; auto. Qed.

Lemma open_all_detached env l err l' : open_all env l = Some (err, l') -> Forall (fun cv => v_ram (ov_volume (cv_volume cv)) = None) l ->
  Forall (fun cv => v_ram (ov_volume (cv_volume cv)) = None) l'.
Proof.
  revert env err l'. induction l as [|cv l IH]; intros env err l'; cbn [open_all]; [by intros [= <- <-]|].
  intros H Hl. apply Forall_cons in Hl as [Hr Hl]. apply bind_Some in H as ([r ov] & Ho & H).
  assert (Hov : v_ram (ov_volume ov) = None) by (rewrite (open_ram _ _ _ _ _ Ho); exact Hr).
  destruct r as [err1|]; [injection H as <- <-; by constructor|].
  apply bind_Some in H as ([err1 l1] & Ho1 & [= <- <-]). constructor; [done|]. by eapply IH.
Qed.

Lemma start_ok env im : cache_ok im -> (forall k cv, im_volumes im !! k = Some cv -> startable cv) ->
  exists r im' u, start env im = Some (r, im', u) /\ cache_ok im' /\
    (r = inr tt -> im_running im' = true /\ im_stopping im' = im_stopping im /\ im_config im' = im_config im /\ im_tracker im' = im_tracker im /\
       im_default im' = im_default im /\ im_small im' = im_small im /\ im_ram im' = im_ram im /\ im_anchors im' = im_anchors im /\
       Forall2 freshly_open (im_volumes im) (im_volumes im')).
Proof using RL.
  intros Hok Hs. unfold start. repeat (case_match; [by (eexists _, _, _; split; [reflexivity|]; split; [exact Hok|])|]).
  assert (Hd : Forall (fun cv => v_ram (ov_volume (cv_volume cv)) = None) (im_volumes im))
    by (apply Forall_lookup; intros k cv Hk; exact (proj1 (co_stripes _ Hok k cv Hk))).
  destruct (open_all_spec (se_open env) (im_volumes im)) as (err & l & Eo & Hsame & Hfresh).
  - apply Forall_lookup. intros k cv Hk. rewrite (co_mp _ Hok k cv Hk). apply Hok.
  - apply Forall_lookup. intros k cv Hk. split; [by eapply Hs|exact (proj1 (co_stripes _ Hok k cv Hk))].
  - pose proof (open_all_detached _ _ _ _ Eo Hd) as Hd'. rewrite Eo. cbn [mbind option_bind]. destruct err as [err|]; eexists _, _, _; (split; [reflexivity|]).
    + split; [|done]. eapply (revolume_ok im); try done; [apply Hok| |].
      * by apply close_same.
      * cbn. apply Forall_fmap. eapply Forall_impl; [exact Hd'|]. intros cv Hcv. destruct (close_volume_closed cv Hcv) as [Hc _].
        split; [exact Hc|]. cbn. congruence.
    + specialize (Hfresh eq_refl). split; [|intros _; cbn; split_and!; done].
      eapply (revolume_ok im); try done; [by left|]. cbn. apply Forall_lookup. intros k cv' Hk.
      destruct (Forall2_lookup_r _ _ _ _ _ Hfresh Hk) as (cv & _ & F). split; [apply F|]. intros _. apply F.
Qed.

Lemma stop_finish_ok im : cache_ok im -> cache_ok (stop_finish im).
Proof.
  intros Hok. eapply (revolume_ok im); try done.
  - apply close_same, Forall_Forall2_diag, Forall_forall. done.
  - cbn. apply Forall_fmap, Forall_lookup. intros k cv Hk.
    destruct (close_volume_closed cv (proj1 (co_stripes _ Hok k cv Hk))) as [Hc _]. split; [exact Hc|done].
Qed.

Lemma stop_claim_ok pid epoch pending im : cache_ok im -> cache_ok (snd (stop_claim bld pid epoch pending im)).
Proof.
  intros Hok. unfold stop_claim. case_match; [done|]. case_match eqn:E1; cbn [snd].
  { destruct Hok. split; try done; cbn; auto. }
  case_match eqn:E2; [done|]. cbn [snd]. apply orb_false_iff in E2 as [E2 _]. apply negb_false_iff in E2.
  assert (Hs : cache_ok (set_running im (im_running im) true (im_anchors im))) by (destruct Hok; split; try done; cbn; auto).
  case_match; [by apply flush_hits_ok|done].
Qed.

(** ** Every operation *)

Inductive cache_op :=
  | CAddVolume (nv nv_small : NewVolume) (r : VolumeRequest)
  | CStart (env : StartEnv)
  | CStopClaim (pid epoch : Z) (pending : list HitDelta)
  | CStopFinish
  | CRead (env : ReadEnv) (key : CacheKey) (tier : Tier)
  | CReadAlternate (env : ReadEnv) (select : list AlternateInfo -> option nat) (key : CacheKey) (tier : Tier)
  | CListAlternates (key : CacheKey) (tier : Tier)
  | CExists (key : CacheKey) (tier : Tier)
  | CRemove (key : CacheKey) (tier : Tier)
  | CRemoveAlternate (key : CacheKey) (id : Z) (tier : Tier)
  | CEvict (key : CacheKey) (id : Z) (tier : Tier)
  | CCloseRead (h : CacheReadHandle)
  | CRenew (env : ReadEnv) (h : CacheReadHandle)
  | CCloseWrite (env : nat -> WriteEnv) (now : nat -> Z) (h : CacheWriteHandle)
  | CFlushHit (d : HitDelta)
  | CResetStats.

Definition apply_cache_op (op : cache_op) (im : Impl) : option Impl :=
  match op with
  | CAddVolume nv nv' r => Some (snd (add_volume nv nv' r im))
  | CStart env => (fun x => x.1.2) <$> start env im
  | CStopClaim pid epoch pending => Some (snd (stop_claim bld pid epoch pending im))
  | CStopFinish => Some (stop_finish im)
  | CRead env key tier => snd <$> read_sync bld env key tier im
  | CReadAlternate env select key tier => snd <$> read_alternate_sync bld env select key tier im
  | CListAlternates key tier => snd <$> list_alternates_sync bld key tier im
  | CExists key tier => snd <$> exists_sync bld key tier im
  | CRemove key tier => snd <$> remove_sync bld key tier im
  | CRemoveAlternate key id tier => snd <$> remove_alternate_sync bld key id tier im
  | CEvict key id tier => evict_from_ram_cache key id tier im
  | CCloseRead h => Some (close_read h im)
  | CRenew env h => Some (snd (renew_read_lease env h im))
  | CCloseWrite env now h => snd <$> handle_close bld env now h im
  | CFlushHit d => Some (snd (flush_hit bld (im_default im) (hd_key d) (hd_id d) (hd_delta d) (hd_last_access_ms d) im))
  | CResetStats => Some (reset_stats im)
  end.

(** A start is of volumes of up to a TiB; the close of a write handle is of
    bytes, to a stripe whose generation has room for the wraps it can take. *)
Definition cache_op_ok im (op : cache_op) : Prop :=
  match op with
  | CStart _ => forall k cv, im_volumes im !! k = Some cv -> startable cv
  | CCloseWrite _ _ h =>
      key_ok (wh_key (wd_handle h)) /\ bytes_ok (wh_header (wd_handle h)) /\ bytes_ok (wh_content (wd_handle h)) /\
      exists cv, im_volumes im !! wd_volume h = Some cv /\
        forall s, v_stripes (ov_volume (cv_volume cv)) !! wh_stripe (wd_handle h) = Some s ->
          match wd_alternate h with None => gen_room s | Some _ => attempts_room commit_fuel s end
  | _ => True
  end.

Lemma give_read_ok key tier im0 record (r : option ((VolumeError + ReadHandle) * Impl)) :
  (exists x im', r = Some (x, im') /\ cache_ok im') -> exists im', snd <$> give_read key tier im0 record r = Some im' /\ cache_ok im'.
Proof.
  intros (x & im' & -> & Hok). unfold give_read; cbn [mbind option_bind]. destruct x as [err|h]; eexists; (split; [reflexivity|]); [done|].
  cbn [snd]. destruct record; [|done]. unfold record_read_complete. repeat case_match; try done; by apply set_loads_ok.
Qed.

(** C5. The operations of a cache of process-local volumes return and keep it in
    order ([cache_ok]): adding a volume, starting, the two phases of a stop,
    plain and alternate reads, listings, existence checks, removals of keys and
    of alternates, evictions from the RAM cache, the closes and renewals of read
    handles, the closes of plain and of alternate writes, the flush of a hit and
    the reset of the statistics; whether they succeed or fail.  A start asks
    that each volume's size and file are at most 1 TiB; the close of a write
    asks that its key has 32 bytes, its header and content are bytes, its volume
    is one of the cache's, and the stripe's 64-bit generation has room for the
    wraps the write can take. *)
Theorem cache_invariant op im : cache_ok im -> cache_op_ok im op -> exists im', apply_cache_op op im = Some im' /\ cache_ok im'.
Proof using ChecksumLaws0 RL.
  intros Hok Hop. assert (Hsnd : forall R (r : option ((VolumeError + R) * Impl)), (exists x im', r = Some (x, im') /\ cache_ok im') ->
    exists im', snd <$> r = Some im' /\ cache_ok im') by (intros R r (x & im' & -> & H); eexists; split; [done|exact H]).
  destruct op; cbn [apply_cache_op cache_op_ok] in *.
  - eexists. split; [done|]. by apply add_volume_ok.
  - destruct (start_ok env im Hok Hop) as (r & im' & u & -> & H & _). by eexists.
  - eexists. split; [done|]. by apply stop_claim_ok.
  - eexists. split; [done|]. by apply stop_finish_ok.
  - apply give_read_ok, guarded_ok; [done|]. intros cfg v Hv. by apply read_sync_ok.
  - apply give_read_ok, guarded_ok; [done|]. intros cfg v Hv. by apply read_alternate_ok.
  - apply Hsnd, guarded_ok; [done|]. intros cfg v Hv. by apply list_alternates_ok.
  - apply Hsnd, guarded_ok; [done|]. intros cfg v Hv. by apply exists_sync_ok.
  - apply Hsnd, guarded_ok; [done|]. intros cfg v Hv. by apply remove_sync_ok.
  - apply Hsnd, guarded_ok; [done|]. intros cfg v Hv. by apply remove_alternate_ok.
  - unfold evict_from_ram_cache.
    assert (Hd : exists im', match select_volume im key tier with Some k => '(_, im) ← call k (fun _ => evict_ram key id) im; Some im | None => Some im end = Some im' /\ cache_ok im').
    { destruct (select_volume im key tier) as [k|] eqn:Hsel; [|by eauto]. destruct (select_volume_spec _ _ _ _ Hok Hsel) as (cv & Hk & _).
      destruct (call_ok k cv (fun _ => evict_ram key id) im Hok Hk (evict_ram_ok _ _ _ (attached_ok _ _ _ Hok Hk))) as (r & im' & -> & H).
      by eexists. }
    destruct tier, (im_small im); try exact Hd. by eexists.
  - eexists. split; [done|]. unfold close_read. case_match; [|done]. destruct (call _ _ im) as [[x im']|] eqn:Hc; [|done].
    apply (call_kept _ _ im x im' Hok Hc). intros cv v Hk [= _ <-].
    apply close_read_ok. by apply attached_ok with (k := rd_volume h).
  - eexists. split; [done|]. unfold renew_read_lease. case_match; [|done]. destruct (call _ _ im) as [[x im']|] eqn:Hc; [|done].
    apply (call_kept _ _ im x im' Hok Hc). intros cv v Hk [= E].
    pose proof (renew_read_ok (volume_config im cv) env (rd_handle h) _ (attached_ok _ _ _ Hok Hk)) as Hv. by rewrite E in Hv.
  - destruct Hop as (Hk & Hh & Hcn & cv & Hcv & Hg). unfold handle_close. pose proof (attached_ok _ _ _ Hok Hcv) as Hv.
    match goal with |- context [call (wd_volume h) ?f im] => destruct (call_ok (wd_volume h) cv f im Hok Hcv) as ([r w] & im' & -> & H) end.
    { destruct (wd_alternate h); [by apply close_alternate_ok|by apply handle_close_ok]. }
    cbn. eexists. split; [reflexivity|]. destruct r; [done|]. destruct (_ && _); [|done]. unfold on_write_committed. repeat case_match; by apply set_loads_ok.
  - eexists. split; [done|]. by apply flush_hit_ok.
  - eexists. split; [done|]. by apply set_flush_ok.
Qed.

(** ** Writing and reading through the cache *)

Lemma with_ram_self v : with_ram v (v_ram v) = v.
Proof. by destruct v. Qed.

(** After a call that left a small-tier volume without a RAM cache, the next one
    sees the volume as it left it. *)
Lemma attached_finish im k cv v : (cv_tier cv = kSmall -> v_ram v = None) -> attached (finish im k cv v) (put_volume cv v) = v.
Proof.
  intros Hr. unfold attached, put_volume, finish; cbn. unfold with_ram at 1; cbn. destruct (cv_tier cv) eqn:E; [by destruct v|].
  rewrite <- (Hr eq_refl). by destruct v.
Qed.

Lemma finish_lookup im k cv v : im_volumes im !! k = Some cv -> im_volumes (finish im k cv v) !! k = Some (put_volume cv v).
Proof. intros Hk. cbn. by rewrite list_lookup_insert_eq by (by eapply lookup_lt_Some). Qed.

Lemma commit_no_ram cfg env i g key header content v r v' : v_ram v = None ->
  commit_write bld cfg env i g key header content v = Some (r, v') -> v_ram v' = None.
Proof.
  intros Hr. unfold commit_write. repeat case_match; try (intros [= _ <-]; exact Hr). intros Hb. apply bind_Some in Hb as (u & Hu & [= _ <-]).
  revert Hu. unfold invalidate_ram, evictions. destruct (ir_collision_evicted _), (ir_bucket_full_evicted _); cbn; rewrite Hr; by intros [= <-].
Qed.

(** A call on the volume the last call used sees what that call left. *)
Lemma guarded_again {R} key tier im k cv v l (op : VolumeConfig -> Volume (C := C) -> option ((VolumeError + R) * Volume (C := C))) x v' :
  lock_and_select im key tier = inr k -> im_volumes im !! k = Some cv -> (cv_tier cv = kSmall -> v_ram v = None) ->
  op (volume_config im cv) v = Some (x, v') ->
  guarded key tier op (set_loads (finish im k cv v) l) = Some (x, finish (set_loads (finish im k cv v) l) k (put_volume cv v) v').
Proof.
  intros Hsel Hk Hram Hop. unfold guarded. change (lock_and_select (set_loads _ _) key tier) with (lock_and_select im key tier). rewrite Hsel.
  unfold call. change (im_volumes (set_loads ?i ?l)) with (im_volumes i). rewrite (finish_lookup _ _ _ _ Hk). cbn [mbind option_bind].
  change (attached (set_loads ?i ?l) ?c) with (attached i c). rewrite attached_finish by exact Hram.
  change (volume_config (set_loads (finish im k cv v) l) (put_volume cv v)) with (volume_config im cv). by rewrite Hop.
Qed.

(** The chunks, appended one by one. *)
Fixpoint write_chunks im (h : CacheWriteHandle) (chunks : list (list Z)) : option CacheWriteHandle :=
  match chunks with
  | [] => Some h
  | data :: chunks => match handle_write h data im with (inr _, h) => write_chunks im h chunks | (inl _, _) => None end
  end.

Lemma write_chunks_all im cv h chunks h' : im_volumes im !! wd_volume h = Some cv -> write_chunks im h chunks = Some h' ->
  exists w, write_all (volume_config im cv) (attached im cv) (wd_handle h) chunks = Some w /\ h' = set_handle h w.
Proof.
  intros Hk. revert h Hk. induction chunks as [|data chunks IH]; intros h Hk; cbn [write_chunks write_all].
  - intros [= <-]. exists (wd_handle h). split; [done|]. by destruct h.
  - unfold handle_write. rewrite Hk. destruct (Volume.handle_write _ _ _ _) as [[err|m] w]; [done|]. intros H.
    destruct (IH (set_handle h w)) as (w' & E & ->); [exact Hk|exact H|]. exists w'. split; [exact E|done].
Qed.

Definition set_write_header (h : CacheWriteHandle) (header : list Z) : CacheWriteHandle := set_handle h (set_header (wd_handle h) header).

(** C4. A write through the cache is what the next read of its tier returns:
    opening a write of a key in either tier (the small tier's, or its fallback
    to the default volumes), setting the header, appending the body in chunks
    and closing the handle with success, the cache then says that the key exists
    and a read with the same tier serves that header and the concatenation of
    the chunks, whatever the directory and the shared RAM cache held before.
    The conditions: key, header and chunks are bytes (32 of them the key),
    max_read_retries is below 2^32 - 1, the stripe's 64-bit generation has room
    for the wraps the write can take; and 4096 bytes of file follow what the stripe's log has
    written when the close is done, which a document in the last page of a file
    that ends with its stripe does not have
    ([VolumeCommit.tail_document_unreadable]). *)
Theorem cache_write_then_read env now renv key n tier header chunks im im' k cv i s h0 h h' :
  cache_ok im -> im_volumes im !! k = Some cv -> lock_and_select im key tier = inr k ->
  select_stripe (ov_volume (cv_volume cv)) key = Some (i, s) -> gen_room s -> key_ok key -> bytes_ok header -> Forall bytes_ok chunks ->
  0 <= mp_max_read_retries (cc_mp (im_config im)) < 2 ^ 32 - 1 ->
  write_sync key n tier im = inr h0 -> write_chunks im (set_write_header h0 header) chunks = Some h ->
  handle_close bld env now h im = Some (inr tt, h', im') ->
  (forall cv', im_volumes im' !! k = Some cv' -> page_behind i (ov_volume (cv_volume cv'))) ->
  (exists im'', exists_sync bld key tier im' = Some (inr true, im'')) /\
  exists rh im'', read_sync bld renv key tier im' = Some (inr rh, im'') /\
    rh_header (rd_handle rh) = header /\ rh_content (rd_handle rh) = concat chunks.
Proof using ChecksumLaws0 RL.
  intros Hok Hk Hsel Hstr Hg Hkey Hh Hc Hr Hopen Hall Hclose Hpage. pose proof (attached_ok _ _ _ Hok Hk) as Hv.
  unfold write_sync, write_alternate_unobserved in Hopen. rewrite Hsel, Hk in Hopen.
  destruct (Volume.write_sync _ _ _ _) as [err|w0] eqn:Hw0; [done|]. injection Hopen as <-.
  apply (write_chunks_all im cv) in Hall as (w & Hall & ->); [|exact Hk].
  unfold Volume.write_sync in Hw0. change (select_stripe (attached im cv) key) with (select_stripe (ov_volume (cv_volume cv)) key) in Hw0.
  rewrite Hstr in Hw0. do 2 (case_match; [done|]). injection Hw0 as <-.
  apply write_all_spec in Hall as (Ec & Est & Eg & Ek & Eh & Ecl & Eab). cbn in Ec, Est, Eg, Ek, Eh, Ecl, Eab.
  unfold handle_close in Hclose. apply bind_Some in Hclose as ([[r w1] im1] & Hcall & Hclose). cbn [wd_volume wd_alternate wd_handle set_handle set_write_header] in Hcall.
  destruct (call_touches _ _ _ _ _ Hcall) as (cv' & v1 & Hk' & Hop & -> & _). rewrite Hk in Hk'. injection Hk' as <-.
  unfold Volume.handle_close in Hop. rewrite Ecl, Eab, Est, Eg, Ek, Eh, Ec in Hop. apply bind_Some in Hop as ([r1 v2] & Hcw & [= <- _ <-]).
  injection Hclose as -> _ Him.
  assert (Hram : cv_tier cv = kSmall -> v_ram v2 = None).
  { intros E. eapply commit_no_ram; [|exact Hcw]. unfold attached. cbn. by rewrite E. }
  assert (Hsame : exists l, im' = set_loads (finish im k cv v2) l).
  { rewrite <- Him. destruct (im_engine im && negb (wh_aborted w || wh_closed w)); [|exists (im_loads im); reflexivity]. unfold on_write_committed. destruct (im_loads _) as [[[? ?] ?] ?]. by eexists. }
  destruct Hsame as [l ->].
  assert (Hp2 : page_behind i v2).
  { intros s2 Hs2. refine (Hpage (put_volume cv v2) _ s2 Hs2). cbn. apply list_lookup_insert_eq. by eapply lookup_lt_Some. }
  destruct (committed_reads bld (volume_config im cv) (env 0%nat) i (v_generation (ov_volume (cv_volume cv))) key header (concat chunks) (attached im cv) v2 s renv Hv Hstr Hg Hkey Hh)
    as (Hv2 & Hex & rh & v3 & Hrd & H1 & H2 & _); try done.
  { clear -Hc. induction Hc; simpl; [constructor|]. by apply bytes_ok_app. }
  split.
  - eexists. unfold exists_sync. apply guarded_again; [done..|]. by rewrite Hex.
  - eexists _, _. unfold read_sync. rewrite (guarded_again _ _ _ _ _ _ _ _ _ _ Hsel Hk Hram Hrd). cbn. split; [reflexivity|]. by cbn.
Qed.

(** ** The tiers are separate *)

(** The operations on a key; a write is opened, filled and closed. *)
Inductive keyed_op :=
  | KRead (env : ReadEnv)
  | KReadAlternate (env : ReadEnv) (select : list AlternateInfo -> option nat)
  | KListAlternates
  | KExists
  | KRemove
  | KRemoveAlternate (id : Z)
  | KEvict (id : Z)
  | KWrite (alternate : option Z) (n : Z) (header : list Z) (chunks : list (list Z)) (env : nat -> WriteEnv) (now : nat -> Z).

Definition open_write (alternate : option Z) (key : CacheKey) (n : Z) (tier : Tier) im : VolumeError + CacheWriteHandle :=
  match alternate with None => write_sync key n tier im | Some id => write_alternate_sync key id n tier im end.

Definition apply_keyed (op : keyed_op) (key : CacheKey) (tier : Tier) im : option Impl :=
  match op with
  | KRead env => snd <$> read_sync bld env key tier im
  | KReadAlternate env select => snd <$> read_alternate_sync bld env select key tier im
  | KListAlternates => snd <$> list_alternates_sync bld key tier im
  | KExists => snd <$> exists_sync bld key tier im
  | KRemove => snd <$> remove_sync bld key tier im
  | KRemoveAlternate id => snd <$> remove_alternate_sync bld key id tier im
  | KEvict id => evict_from_ram_cache key id tier im
  | KWrite alternate n header chunks env now =>
      match open_write alternate key n tier im with
      | inl _ => Some im
      | inr h =>
          match write_chunks im (set_write_header h header) chunks with
          | None => Some im
          | Some h => snd <$> handle_close bld env now h im
          end
      end
  end.

(** Only the volume at [k] has changed, and the RAM cache only if it is a
    default-tier volume. *)
Definition reaches im (k : nat) im' : Prop :=
  (forall j, j <> k -> im_volumes im' !! j = im_volumes im !! j) /\ (tier_at im k = Some kSmall -> im_ram im' = im_ram im).

Lemma touches_reaches im k im' : touches im k im' -> reaches im k im'.
Proof.
  intros [_ (cv & cv' & Hk & E & _ & _ & _ & _ & Hr)]. split.
  - intros j Hj. by rewrite E, list_lookup_insert_ne.
  - unfold tier_at. rewrite Hk. cbn. intros [= E']. by apply Hr.
Qed.

Lemma call_reaches {R} k (op : VolumeConfig -> Volume (C := C) -> option (R * Volume (C := C))) im r im' :
  call k op im = Some (r, im') -> reaches im k im'.
Proof. intros Hc. destruct (call_touches _ _ _ _ _ Hc) as (_ & _ & _ & _ & _ & Ht). by apply touches_reaches. Qed.

(** [im'] is what a call on the selected volume, if any, can leave. *)
Definition selected_reaches key tier im im' : Prop :=
  (im_volumes im' = im_volumes im /\ im_ram im' = im_ram im) \/ exists k, select_volume im key tier = Some k /\ reaches im k im'.

Lemma selected_loads key tier im im' l : selected_reaches key tier im im' -> selected_reaches key tier im (set_loads im' l).
Proof. done. Qed.

Lemma guarded_selected {R} key tier (op : VolumeConfig -> Volume (C := C) -> option ((VolumeError + R) * Volume (C := C))) im im' :
  snd <$> guarded key tier op im = Some im' -> selected_reaches key tier im im'.
Proof.
  intros Hg. apply fmap_Some in Hg as ([r im1] & Hg & ->). destruct (guarded_cases _ _ _ _ _ _ Hg) as [[_ ->]|(_ & _ & k & Hs & Hc)]; [by left|].
  right. exists k. split; [done|]. by eapply call_reaches.
Qed.

Lemma give_read_selected key tier im record (op : VolumeConfig -> Volume (C := C) -> option ((VolumeError + ReadHandle) * Volume (C := C))) im' :
  snd <$> give_read key tier im record (guarded key tier op im) = Some im' -> selected_reaches key tier im im'.
Proof.
  destruct (guarded key tier op im) as [[r im1]|] eqn:Hg; [|done].
  pose proof (guarded_selected key tier op im im1) as Hs. rewrite Hg in Hs. specialize (Hs eq_refl). cbn.
  destruct r; intros [= <-]; cbn [snd]; [done|]. destruct record; [|done]. unfold record_read_complete. destruct (im_engine im1); [|done].
  destruct (im_loads im1) as [[[? ?] ?] ?]. by apply selected_loads.
Qed.

Lemma open_write_volume alternate key n tier im h : open_write alternate key n tier im = inr h -> select_volume im key tier = Some (wd_volume h).
Proof.
  assert (Hw : forall a b, write_alternate_unobserved a key n tier b im = inr h -> select_volume im key tier = Some (wd_volume h)).
  { intros a b. unfold write_alternate_unobserved, lock_and_select. destruct (_ || _); [done|]. destruct (select_volume im key tier) as [k|]; [|done].
    destruct (im_volumes im !! k); [|done]. destruct (Volume.write_sync _ _ _ _); [done|]. by intros [= <-]. }
  destruct alternate; apply Hw.
Qed.

Lemma write_chunks_volume im h chunks h' : write_chunks im h chunks = Some h' -> wd_volume h' = wd_volume h.
Proof.
  revert h. induction chunks as [|data chunks IH]; intros h; cbn [write_chunks]; [by intros [= <-]|].
  unfold handle_write. destruct (im_volumes im !! wd_volume h); [|done]. destruct (Volume.handle_write _ _ _ _) as [[|] w]; [done|].
  intros H%IH. exact H.
Qed.

Lemma handle_close_selected key tier env now h im im' : select_volume im key tier = Some (wd_volume h) ->
  snd <$> handle_close bld env now h im = Some im' -> selected_reaches key tier im im'.
Proof.
  intros Hs Hc. apply fmap_Some in Hc as ([[r h'] im1] & Hc & ->). unfold handle_close in Hc.
  apply bind_Some in Hc as ([[r1 w] im2] & Hcall & Hc). apply call_reaches in Hcall.
  assert (H2 : selected_reaches key tier im im2) by (right; by eexists). injection Hc as _ _ <-. cbn [snd]. destruct r1; [done|].
  destruct (wd_observed h && _); [|done]. unfold on_write_committed. destruct (im_loads im2) as [[[? ?] ?] ?]. by apply selected_loads.
Qed.

Lemma keyed_reaches op key tier im im' : apply_keyed op key tier im = Some im' -> selected_reaches key tier im im'.
Proof.
  destruct op; cbn [apply_keyed]; [by apply give_read_selected|by apply give_read_selected|by apply guarded_selected..| |].
  - unfold evict_from_ram_cache. destruct tier, (im_small im) eqn:Es; try (by intros [= <-]; left);
      (destruct (select_volume im key _) as [k|] eqn:Hs; [|by intros [= <-]; left]); intros ([r im1] & Hc & [= <-])%bind_Some; right;
      exists k; (split; [done|]); by eapply call_reaches.
  - destruct (open_write alternate key n tier im) as [|h] eqn:Ho; [by intros [= <-]; left|]. apply open_write_volume in Ho.
    destruct (write_chunks im _ chunks) as [h'|] eqn:Hw; [|by intros [= <-]; left]. apply write_chunks_volume in Hw.
    apply handle_close_selected. by rewrite Ho, Hw.
Qed.

(** C11. The tiers are physically separate: once the cache has a small tier, an
    operation on a key of the small tier (a read, listing, removal, eviction, or
    a write of the key or one of its alternates) changes no default volume and
    not the RAM cache, and an operation of the default tier does not touch the
    small volume, so neither tier can evict, overwrite or shadow what the other
    stores under the same key. *)
Theorem tiers_isolated op key im im' ks : cache_ok im -> im_small im = Some ks ->
  (apply_keyed op key kSmall im = Some im' ->
     im_ram im' = im_ram im /\ forall k, k ∈ im_default im -> im_volumes im' !! k = im_volumes im !! k) /\
  (apply_keyed op key kDefault im = Some im' -> im_volumes im' !! ks = im_volumes im !! ks).
Proof.
  intros Hok Hs. pose proof (proj1 (co_small _ Hok ks) Hs) as Ht. split; intros H%keyed_reaches.
  - destruct H as [[-> ->]|(k & Hk & Hv & Hr)]; [done|]. unfold select_volume in Hk. rewrite Hs in Hk. injection Hk as <-.
    split; [by apply Hr|]. intros k Hk. apply Hv. intros ->. apply (co_default _ Hok) in Hk. congruence.
  - destruct H as [[-> _]|(k & Hk & Hv & _)]; [done|]. apply Hv. intros ->.
    destruct (select_volume_spec _ _ _ _ Hok Hk) as (cv & Hcv & E). rewrite decide_False in E by (by intros [? _]).
    unfold tier_at in Ht. rewrite Hcv in Ht. cbn in Ht. congruence.
Qed.

(** ** A stop revokes what was given out *)

Lemma finish_self im k cv : im_volumes im !! k = Some cv -> v_ram (ov_volume (cv_volume cv)) = None -> finish im k cv (attached im cv) = im.
Proof.
  intros Hk Hr. assert (E : put_volume cv (attached im cv) = cv).
  { unfold put_volume, attached. destruct cv as [t p f sa [v sz o g m d r]]; cbn in *. unfold VolumeOpen.set_volume; cbn. f_equal. f_equal.
    destruct v; cbn in *. by rewrite Hr. }
  unfold finish. rewrite E, list_insert_id by done. replace (match cv_tier cv with kDefault => _ | kSmall => _ end) with (im_ram im); [by destruct im|].
  unfold attached; cbn. by destruct (cv_tier cv).
Qed.

(** Position by position, the volumes have kept their generation. *)
Definition same_generations (l l' : list CacheVolume) : Prop :=
  forall k cv, l !! k = Some cv -> exists cv', l' !! k = Some cv' /\ v_generation (ov_volume (cv_volume cv')) = v_generation (ov_volume (cv_volume cv)).

Lemma call_update_generations k key id delta last im r im' :
  call k (fun _ v => Some (Alternates.update_hit_count_sync bld key id delta last v)) im = Some (r, im') -> same_generations (im_volumes im) (im_volumes im').
Proof.
  intros Hc. destruct (call_touches _ _ _ _ _ Hc) as (cv & v & Hk & [= E] & -> & _). intros j cj Hj. cbn. destruct (decide (j = k)) as [->|].
  - rewrite list_lookup_insert_eq by (by eapply lookup_lt_Some). eexists. split; [done|]. rewrite Hk in Hj. injection Hj as <-. cbn.
    change (v_generation v = v_generation (attached im cv)). revert E. unfold Alternates.update_hit_count_sync. repeat case_match; by intros [= _ <-].
  - rewrite list_lookup_insert_ne by done. eauto.
Qed.

Lemma flush_hit_generations l key id delta last im : same_generations (im_volumes im) (im_volumes (snd (flush_hit bld l key id delta last im))).
Proof.
  revert im. induction l as [|k l IH]; intros im; cbn [flush_hit]; [by intros j cj Hj; eauto|].
  destruct (call k _ im) as [[r im']|] eqn:Hc; [|by apply IH]. apply call_update_generations in Hc.
  assert (Hgo : same_generations (im_volumes im) (im_volumes (snd (flush_hit bld l key id delta last im')))).
  { intros j cj Hj. destruct (Hc j cj Hj) as (c1 & H1 & E1). destruct (IH im' j c1 H1) as (c2 & H2 & E2). exists c2. split; [done|congruence]. }
  destruct r as [[]|]; try exact Hgo; exact Hc.
Qed.

Lemma flush_hits_generations l im : same_generations (im_volumes im) (im_volumes (flush_hits bld l im)).
Proof.
  unfold flush_hits. revert im. induction l as [|d l IH]; intros im; cbn [fold_left]; [by intros j cj Hj; eauto|]. intros j cj Hj.
  destruct (flush_hit_generations (im_default im) (hd_key d) (hd_id d) (hd_delta d) (hd_last_access_ms d) im j cj Hj) as (c1 & H1 & E1).
  destruct (IH _ j c1 H1) as (c2 & H2 & E2). exists c2. split; [done|congruence].
Qed.

Record same_frame im im' : Prop := {
  sf_running : im_running im' = im_running im; sf_stopping : im_stopping im' = im_stopping im; sf_anchors : im_anchors im' = im_anchors im;
  sf_default : im_default im' = im_default im; sf_small : im_small im' = im_small im; sf_config : im_config im' = im_config im;
  sf_ram : im_ram im' = im_ram im }.

Lemma call_update_frame k key id delta last im r im' :
  call k (fun _ v => Some (Alternates.update_hit_count_sync bld key id delta last v)) im = Some (r, im') -> same_frame im im'.
Proof.
  intros Hc. destruct (call_touches _ _ _ _ _ Hc) as (cv & v & Hk & [= E] & -> & _). split; try done. cbn.
  assert (Ev : v_ram v = v_ram (attached im cv)) by (revert E; unfold Alternates.update_hit_count_sync; repeat case_match; by intros [= _ <-]).
  rewrite Ev. cbn. by destruct (cv_tier cv).
Qed.

Lemma same_frame_trans im1 im2 im3 : same_frame im1 im2 -> same_frame im2 im3 -> same_frame im1 im3.
Proof. intros [] []. split; congruence. Qed.

Lemma flush_hit_frame l key id delta last im : same_frame im (snd (flush_hit bld l key id delta last im)).
Proof.
  revert im. induction l as [|k l IH]; intros im; [by split|]. cbn [flush_hit]. destruct (call k _ im) as [[r im']|] eqn:Hc; [|by apply IH].
  apply call_update_frame in Hc. destruct r as [[]|]; try (by eapply same_frame_trans); (eapply same_frame_trans; [exact Hc|]; by split).
Qed.

Lemma flush_hits_frame l im : same_frame im (flush_hits bld l im).
Proof.
  unfold flush_hits. revert im. induction l as [|d l IH]; intros im; cbn [fold_left]; [by split|].
  eapply same_frame_trans; [apply flush_hit_frame|apply IH].
Qed.

(** What a claimed teardown has changed: the hits were flushed. *)
Lemma stop_claimed pid epoch pending im im1 : stop_claim bld pid epoch pending im = (true, im1) ->
  im_stopping im1 = true /\ im_running im1 = true /\ im_anchors im1 = im_anchors im /\ im_default im1 = im_default im /\ im_small im1 = im_small im /\
  im_config im1 = im_config im /\ im_ram im1 = im_ram im /\ same_generations (im_volumes im) (im_volumes im1).
Proof.
  unfold stop_claim. repeat (case_match; [done|]). apply orb_false_iff in H1 as [H1 _]. apply negb_false_iff in H1. intros [= <-].
  case_match; [|by split_and!; [..|intros ? ?; eauto]].
  destruct (flush_hits_frame pending (set_running im (im_running im) true (im_anchors im))) as [-> -> -> -> -> -> ->]. split_and!; try done.
  exact (flush_hits_generations pending (set_running im (im_running im) true (im_anchors im))).
Qed.

(** A handle of another generation does nothing any more. *)
Lemma stale_handle_refused env now h im k cv : cache_ok im -> im_volumes im !! k = Some cv -> wd_volume h = k ->
  v_generation (ov_volume (cv_volume cv)) <> wh_generation (wd_handle h) -> wh_closed (wd_handle h) = false -> wh_aborted (wd_handle h) = false ->
  (forall data, handle_write h data im = (inl EClosed, h)) /\ exists h', handle_close bld env now h im = Some (inl EClosed, h', im).
Proof.
  intros Hok Hk <- Hg Hcl Hab. pose proof (proj1 (co_stripes _ Hok _ _ Hk)) as Hr. split.
  - intros data. unfold handle_write. rewrite Hk. unfold Volume.handle_write, admit_append. rewrite Hcl, Hab. cbn [orb].
    change (v_generation (attached im cv)) with (v_generation (ov_volume (cv_volume cv))). rewrite (proj2 (Z.eqb_neq _ _) Hg). cbn. by destruct h.
  - eexists. unfold handle_close, call. rewrite Hk. cbn [mbind option_bind].
    assert (E : forall w, match wd_alternate h with
      | Some id => close_alternate bld (volume_config im cv) env now (cc_unlink_superseded_alternates (im_config im)) id (wd_handle h) (attached im cv)
      | None => Volume.handle_close bld (volume_config im cv) (env 0%nat) (wd_handle h) (attached im cv)
      end = w -> w = Some (inl EClosed, set_flags (wd_handle h) true false, attached im cv)).
    { intros w <-. destruct (wd_alternate h) as [id|]; unfold close_alternate, Volume.handle_close; rewrite Hcl, Hab;
        [unfold commit_alternate_write|unfold commit_write]; change (v_generation (attached im cv)) with (v_generation (ov_volume (cv_volume cv)));
        by rewrite (proj2 (Z.eqb_neq _ _) Hg). }
    rewrite (E _ eq_refl). cbn. by rewrite (finish_self im (wd_volume h) cv Hk Hr).
Qed.

Lemma u64_succ_ne g : u64 (g + 1) <> g.
Proof. unfold u64, wrap. intros E. pose proof (Z.div_mod (g + 1) (2 ^ 64) ltac:(lia)). lia. Qed.

(** Every gated operation on a key is refused, and changes nothing. *)
Definition keys_refused im : Prop := forall key tier,
  (forall env, read_sync bld env key tier im = Some (inl ENotInitialized, im)) /\
  (forall env select, read_alternate_sync bld env select key tier im = Some (inl ENotInitialized, im)) /\
  list_alternates_sync bld key tier im = Some (inl ENotInitialized, im) /\
  exists_sync bld key tier im = Some (inl ENotInitialized, im) /\
  remove_sync bld key tier im = Some (inl ENotInitialized, im) /\
  (forall id, remove_alternate_sync bld key id tier im = Some (inl ENotInitialized, im)) /\
  (forall alternate n, open_write alternate key n tier im = inl ENotInitialized).

(** The write handle [h] is refused and the read handle [rh] no longer reaches
    the volume. *)
Definition handles_refused env now h rh im : Prop :=
  (forall data, handle_write h data im = (inl EClosed, h)) /\ (exists h', handle_close bld env now h im = Some (inl EClosed, h', im)) /\
  close_read rh im = im.

Lemma gate_refuses im : (forall key tier, lock_and_select im key tier = inl ENotInitialized) -> keys_refused im.
Proof.
  intros Hl key tier. assert (Hg : forall R (op : VolumeConfig -> Volume (C := C) -> option ((VolumeError + R) * Volume (C := C))),
    guarded key tier op im = Some (inl ENotInitialized, im)) by (intros R op; unfold guarded; by rewrite Hl).
  unfold read_sync, read_alternate_sync, list_alternates_sync, exists_sync, remove_sync, remove_alternate_sync, open_write, write_sync,
    write_alternate_sync, write_alternate_unobserved. rewrite Hl. split_and!; intros; try (by rewrite Hg); try done. by destruct alternate.
Qed.

(** C12. A stop takes back what was given out.  From the moment the teardown is
    claimed, and after it, every read, write, listing, existence check and
    removal of a key answers NotInitialized and changes nothing.  Once the
    volumes are closed, a write handle from before the stop is refused for
    good: appending to it or closing it answers Closed and changes nothing,
    and the close of a read handle from before changes nothing either; and so
    it stays when the cache is started again. *)
Theorem stop_revokes pid epoch pending env now h rh cv im im1 :
  cache_ok im -> stop_claim bld pid epoch pending im = (true, im1) ->
  im_volumes im !! wd_volume h = Some cv -> wh_generation (wd_handle h) = v_generation (ov_volume (cv_volume cv)) ->
  wh_closed (wd_handle h) = false -> wh_aborted (wd_handle h) = false -> rd_anchors rh = im_anchors im ->
  keys_refused im1 /\ keys_refused (stop_finish im1) /\ handles_refused env now h rh (stop_finish im1) /\
  forall senv im3 u, (forall k cv, im_volumes (stop_finish im1) !! k = Some cv -> startable cv) -> start senv (stop_finish im1) = Some (inr tt, im3, u) ->
    handles_refused env now h rh im3.
Proof using RL.
  intros Hok Hcl Hk Hg Hc Ha Hrd. pose proof (stop_claim_ok pid epoch pending im Hok) as Hok1. rewrite Hcl in Hok1. cbn in Hok1.
  destruct (stop_claimed _ _ _ _ _ Hcl) as (S1 & _ & A1 & _ & _ & _ & _ & G1). pose proof (stop_finish_ok _ Hok1) as Hok2.
  destruct (G1 _ _ Hk) as (cv1 & Hk1 & E1).
  assert (Hk2 : im_volumes (stop_finish im1) !! wd_volume h = Some (close_volume cv1)) by (cbn; by rewrite lookup_map, Hk1).
  assert (G2 : v_generation (ov_volume (cv_volume (close_volume cv1))) <> wh_generation (wd_handle h)) by (cbn; rewrite Hg, <- E1; apply u64_succ_ne).
  assert (Hread : forall im2, im_anchors im2 = im_anchors im + 1 -> close_read rh im2 = im2).
  { intros im2 E. unfold close_read. by rewrite (proj2 (Z.eqb_neq _ _)) by lia. }
  split; [apply gate_refuses; intros key tier; unfold lock_and_select; by rewrite S1, orb_true_r|]. split; [by apply gate_refuses|]. split.
  { destruct (stale_handle_refused env now h _ _ _ Hok2 Hk2 eq_refl G2 Hc Ha) as [H1 H2]. split; [done|]. split; [done|]. apply Hread. cbn. lia. }
  intros senv im3 u Hst Hstart. destruct (start_ok senv _ Hok2 Hst) as (r3 & im3' & u' & Hs3 & Hok3 & Hfresh). rewrite Hstart in Hs3. injection Hs3 as <- <- <-.
  destruct (Hfresh eq_refl) as (_ & _ & _ & _ & _ & _ & _ & A3 & F3). cbn in A3. destruct (Forall2_lookup_l _ _ _ _ _ F3 Hk2) as (cv3 & Hk3 & F).
  destruct (stale_handle_refused env now h im3 _ cv3 Hok3 Hk3) as [H1 H2]; try done; [by rewrite (fo_generation _ _ F)|]. split; [done|]. split; [done|]. apply Hread. lia.
Qed.

Lemma fresh_stripe cv cv' key : freshly_open cv cv' ->
  exists i s, select_stripe (ov_volume (cv_volume cv')) key = Some (i, s) /\ ss_owned s = true /\ candidates s key = [].
Proof.
  intros F. pose proof (fo_count _ _ F) as Hn. unfold select_stripe. destruct (v_stripes (ov_volume (cv_volume cv'))) as [|x l] eqn:E; [done|]. rewrite <- E in *.
  destruct (lookup_lt_is_Some_2 (v_stripes (ov_volume (cv_volume cv'))) (Z.to_nat (segment_hash key mod Z.of_nat (length (v_stripes (ov_volume (cv_volume cv'))))))) as [s Hs].
  { pose proof (Z.mod_pos_bound (segment_hash key) (Z.of_nat (length (v_stripes (ov_volume (cv_volume cv'))))) ltac:(rewrite E; cbn [length]; lia)). lia. }
  rewrite Hs. eexists _, s. split; [reflexivity|]. destruct (fo_empty _ _ F _ _ Hs) as (? & _ & ?). done.
Qed.

(** ** A removal that misses the RAM copy *)

(** The volume holds nothing of the key, the RAM cache a servable copy. *)
Record ram_only v (key : CacheKey) (data : list Z) : Prop := {
  rm_stripe : exists i s, select_stripe v key = Some (i, s) /\ ss_owned s = true /\ st_use_mmap (ss_stripe s) = false /\ candidates s key = [];
  rm_ram : exists c stamp, v_ram v = Some c /\ rc_ok c /\ rc_contents c !! original key = Some (data, stamp);
  rm_servable : is_servable (new_reader data) = true }.

Lemma ram_only_remove v key data : ram_only v key data -> exists v', Volume.remove_sync bld key v = Some (inl ENotFound, v') /\ ram_only v' key data.
Proof.
  intros [(i & s & Hsel & Hown & Hmm & Hcand) (c & stamp & Hram & Hc & Hin) Hsv].
  unfold Volume.remove_sync. rewrite Hsel, Hown, Hcand. cbn. eexists. split; [reflexivity|].
  split; [|exists c, stamp; by cbn|done]. exists i, (set_dir s (ss_dir s)).
  split; [by apply (select_stripe_insert v _ key i s)|]. done.
Qed.

Lemma ram_only_exists cfg v key data : 0 <= vc_max_read_retries cfg < 2 ^ 32 - 1 -> ram_only v key data -> Volume.exists_sync bld cfg key v = Some (inr false).
Proof.
  intros Hr [(i & s & Hsel & _ & _ & Hcand) _ _]. unfold Volume.exists_sync. rewrite Hsel. destruct (read_fuel_pos cfg Hr) as (n & -> & E).
  cbn [exists_loop]. rewrite E, Hcand. done.
Qed.

Lemma ram_only_read cfg env v key data : 0 <= vc_max_read_retries cfg < 2 ^ 32 - 1 -> ram_only v key data ->
  exists h v', Volume.read_sync bld cfg env key v = Some (inr h, v') /\ rh_ram h = true /\ rh_content h = r_content (new_reader data).
Proof.
  intros Hr [(i & s & Hsel & _ & Hmm & Hcand) (c & stamp & Hram & Hc & Hin) Hsv].
  destruct (rc_get_spec (original key) c Hc) as (c' & Hget & _ & _).
  eexists _, _. split; [eapply read_sync_attempt; [done|exact Hsel|]|].
  - unfold read_attempt. rewrite (select_stripe_lookup _ _ _ _ Hsel). unfold read_ram. rewrite Hram, Hget, Hin. cbn [mbind option_bind].
    unfold ram_coherence_active. rewrite Hmm, andb_false_r, Hsv. cbn [andb]. reflexivity.
  - done.
Qed.

(** C38. A removal does not reach a RAM copy whose document is gone from the
    volume: when a cache is stopped and started again, its volumes come up empty
    but the RAM cache keeps its entries, so a key that had a RAM copy then does
    not exist and its removal answers NotFound and leaves the copy, and the next
    read still serves the old content from it. *)
Theorem remove_misses_ram_copy pid epoch pending senv env key data stamp c im im1 im2 u :
  cache_ok im -> stop_claim bld pid epoch pending im = (true, im1) -> (forall k cv, im_volumes (stop_finish im1) !! k = Some cv -> startable cv) ->
  start senv (stop_finish im1) = Some (inr tt, im2, u) -> im_default im <> [] -> 0 <= mp_max_read_retries (cc_mp (im_config im)) < 2 ^ 32 - 1 ->
  im_ram im = Some c -> rc_contents c !! original key = Some (data, stamp) -> is_servable (new_reader data) = true ->
  (exists im', exists_sync bld key kDefault im2 = Some (inr false, im')) /\
  exists im3 rh im4, remove_sync bld key kDefault im2 = Some (inl ENotFound, im3) /\ read_sync bld env key kDefault im3 = Some (inr rh, im4) /\
    rh_ram (rd_handle rh) = true /\ rh_content (rd_handle rh) = r_content (new_reader data).
Proof using ChecksumLaws0 RL.
  intros Hok Hcl Hst Hstart Hne Hr Hram Hin Hsv. pose proof (stop_claim_ok pid epoch pending im Hok) as Hok1. rewrite Hcl in Hok1. cbn in Hok1.
  destruct (stop_claimed _ _ _ _ _ Hcl) as (_ & _ & _ & D1 & _ & C1 & R1 & _).
  destruct (start_ok senv _ (stop_finish_ok _ Hok1) Hst) as (r & im2' & u' & Hs & Hok2 & Hf). rewrite Hstart in Hs. injection Hs as <- <- <-.
  destruct (Hf eq_refl) as (Run & Stp & C2 & _ & D2 & _ & R2 & _ & F2). cbn in Stp, C2, D2, R2. rewrite C1 in C2. rewrite D1 in D2. rewrite R1, Hram in R2.
  assert (Hsel : exists k, select_volume im2 key kDefault = Some k).
  { unfold select_volume. destruct (im_small im2); rewrite D2; (destruct (im_default im) as [|k l] eqn:El; [done|]);
      apply lookup_lt_is_Some_2; pose proof (Z.mod_pos_bound (segment_hash key) (Z.of_nat (length (k :: l))) ltac:(cbn [length]; lia)); lia. }
  destruct Hsel as [k Hsel]. destruct (select_volume_spec _ _ _ _ Hok2 Hsel) as (cv & Hk & Et). rewrite decide_False in Et by (by intros [? _]).
  assert (Hlock : lock_and_select im2 key kDefault = inr k) by (unfold lock_and_select; by rewrite Run, Stp, Hsel).
  assert (Hro : ram_only (attached im2 cv) key data).
  { destruct (Forall2_lookup_r _ _ _ _ _ F2 Hk) as (cv0 & _ & F). split; [|exists c, stamp|done].
    - destruct (fresh_stripe cv0 cv key F) as (i & s & E & Ho & Hc). exists i, s. split; [exact E|].
      split_and!; try done. apply (sk_local (v_file (ov_volume (cv_volume cv)))). eapply (fo_ok _ _ F). by eapply select_stripe_lookup.
    - cbn. rewrite Et, R2. split_and!; try done. pose proof (co_ram _ Hok) as H. by rewrite Hram in H. }
  destruct (ram_only_remove _ _ _ Hro) as (v3 & Hrm & Hro3). assert (Hcfg : 0 <= vc_max_read_retries (volume_config im2 cv) < 2 ^ 32 - 1) by (cbn; by rewrite C2).
  destruct (ram_only_read (volume_config im2 cv) env _ _ _ Hcfg Hro3) as (h & v4 & Hrd & H1 & H2). split.
  - eexists. unfold exists_sync, guarded. rewrite Hlock. unfold call. rewrite Hk. cbn [mbind option_bind].
    by rewrite (ram_only_exists _ _ _ _ Hcfg Hro).
  - exists (set_loads (finish im2 k cv v3) (im_loads im2)).
    eexists _, _. split; [unfold remove_sync, guarded, call; rewrite Hlock, Hk; cbn [mbind option_bind]; by rewrite Hrm|].
    unfold read_sync. rewrite (guarded_again key kDefault im2 k cv v3 _ _ _ _ Hlock Hk ltac:(congruence) Hrd). cbn. split; [reflexivity|]. done.
Qed.

(** ** Starting succeeds *)

Lemma new_cache_ok c (ram : option C) : mp_enabled (cc_mp c) = false -> match ram with Some r => rc_ok r | None => True end -> cache_ok (new_cache c ram).
Proof. intros Hm Hr. split; try done; [by intros k; split; [intros ?%not_elem_of_nil|]|by constructor]. Qed.

Definition creatable cv : Prop :=
  mp_enabled (fc_mp (cv_file cv)) = false /\ VolumeHeader_kSize < ov_size (cv_volume cv) /\
  stripe_geometry_fits (ov_size (cv_volume cv)) (fc_stripe_size (cv_file cv)) false = true /\ ov_open (cv_volume cv) = false.

Lemma open_all_creates l : Forall creatable l -> exists l', open_all (fun _ => good_env) l = Some (None, l').
Proof.
  induction 1 as [|cv l (H1 & H2 & H3 & H4) _ [l' IH]]; cbn [open_all]; [by eexists|].
  destruct (open_creates (cv_file cv) good_env (cv_volume cv)) as [ov' ->]; try done. cbn. rewrite IH. by eexists.
Qed.

(** With an operating system that creates the files, a start succeeds. *)
Lemma start_creates senv im : se_open senv = (fun _ => good_env) -> im_abandoned im = false -> im_running im = false -> mp_enabled (cc_mp (im_config im)) = false ->
  im_engine im = false -> Forall creatable (im_volumes im) ->
  exists im' u, start senv im = Some (inr tt, im', u) /\ im_abandoned im' = false /\ im_owner_pid im' = se_pid senv /\ im_owner_epoch im' = se_epoch senv /\
    im_engine im' = false.
Proof.
  intros Es Ha Hr Hm He Hl. destruct (open_all_creates _ Hl) as [l' Ho]. unfold start. rewrite Ha, Hr, Hm, He, Es, Ho. cbn. by eexists _, _.
Qed.

Lemma fresh_creatable cv cv' : freshly_open cv cv' -> mp_enabled (fc_mp (cv_file cv)) = false -> creatable (close_volume cv') /\ startable (close_volume cv').
Proof.
  intros F Hm. pose proof (fo_fits _ _ F) as [F1 F2]. destruct (fo_same _ _ F) as (_ & _ & Ef). rewrite Ef, Hm in F2.
  split; [split_and!; cbn; try done; by rewrite Ef|]. exact (fo_startable _ _ F).
Qed.
End cache.

(** ** The carve-out *)

Lemma align_page_bound x : x - 4096 < align_down x 12.
Proof. rewrite align_down_spec by lia. pose proof (Z.div_mod x (2 ^ 12) ltac:(lia)). pose proof (Z.mod_pos_bound x (2 ^ 12) ltac:(lia)). lia. Qed.

Lemma directory_span_small mmap : stripe_directory_span mmap + Z.of_nat kHeaderSize <= 2 ^ 20.
Proof. destruct mmap; vm_compute; discriminate. Qed.

(** A volume that can hold a minimum-size stripe has room for its directory
    under every stripe size. *)
Lemma min_volume_fits vs es mmap : kMinStripeSize + VolumeHeader_kSize <= vs < 2 ^ 62 -> 0 <= es < 2 ^ 62 -> stripe_geometry_fits vs es mmap = true.
Proof.
  intros Hvs Hes. pose proof (directory_span_small mmap) as Hd. unfold stripe_geometry_fits. unfold kMinStripeSize, VolumeHeader_kSize in *.
  rewrite (proj2 (Z.leb_gt _ _)) by lia. apply Z.leb_le. etransitivity; [exact Hd|]. clear Hd.
  unfold compute_stripe_geometry, VolumeHeader_kSize. cbv zeta. unfold u64. rewrite (wrap_small 64 (vs - 64)) by (unfold fits; lia).
  destruct (es =? 0) eqn:E0.
  - set (n := clamp _ _ _). assert (Hn : 1 <= n <= 16) by (unfold n, clamp, kAutoStripeTarget; repeat case_match; lia).
    assert (Hq : 2 ^ 23 <= (vs - 64) / n) by (apply Z.div_le_lower_bound; lia).
    pose proof (align_page_bound ((vs - 64) / n)).
    case_match; cbn [base_stripe_size]; lia.
  - pose proof (align_page_bound (Z.max es kMinStripeSize)). unfold kMinStripeSize in *.
    case_match; cbn [base_stripe_size]; lia.
Qed.

(** The carve-out of the small tier: when it is made, the two sizes add up
    to the configured one without overflow, the small volume takes the clamped
    percentage or its floor, whichever is more, both volumes have room for a
    stripe and its directory under any stripe size, and with several processes
    every process owns a stripe of the small volume, so that none of them is
    refused every small-tier write. *)
Theorem small_tier_split total percent mp s cfg :
  0 <= total < 2 ^ 62 -> 0 <= percent < 2 ^ 32 -> 0 <= mp_total_processes mp < 2 ^ 32 -> fc_mp cfg = mp ->
  compute_small_tier_sizes total percent mp = Some s ->
  default_size s + small_size s = total /\
  small_size s = Z.max (total / 100 * clamp percent 1 50)
    ((if mp_enabled mp then Z.max (mp_total_processes mp) 1 else 1) * kMinStripeSize + VolumeHeader_kSize) /\
  (forall es, 0 <= es < 2 ^ 62 -> stripe_geometry_fits (default_size s) es (mp_enabled mp) = true /\ stripe_geometry_fits (small_size s) es (mp_enabled mp) = true) /\
  (0 <= mp_process_index mp < mp_total_processes mp ->
     exists i, Z.of_nat i < num_stripes (compute_stripe_geometry (small_size s) kMinStripeSize) /\ is_stripe_owned cfg i = true).
Proof.
  intros Ht Hp Hn Hcfg. unfold compute_small_tier_sizes. destruct (_ || _); [done|].
  assert (Hpct : 1 <= clamp percent 1 50 <= 50) by (unfold clamp; repeat case_match; lia). set (pct := clamp percent 1 50) in *.
  set (ms := if mp_enabled mp then _ else _). assert (Hms : 1 <= ms < 2 ^ 32) by (unfold ms; case_match; lia).
  assert (Hq : 0 <= total / 100 * pct <= total) by (pose proof (Z.mul_div_le total 100 ltac:(lia)); pose proof (Z.div_pos total 100 ltac:(lia) ltac:(lia)); clearbody pct; nia).
  unfold VolumeHeader_kSize, kMinStripeSize, u64. rewrite (wrap_small 64 (ms * _ + 64)), (wrap_small 64 (total / 100 * pct)) by (unfold fits; lia).
  set (small := Z.max _ _). rewrite (wrap_small 64) by (unfold fits, small; lia). case_match eqn:Hlt; [done|]. apply Z.ltb_ge in Hlt.
  intros [= <-]. cbn [default_size small_size]. split; [lia|]. split; [done|]. split.
  { intros es Hes. split; apply min_volume_fits; unfold kMinStripeSize, VolumeHeader_kSize, small in *; lia. }
  intros Hpi. unfold is_stripe_owned. rewrite Hcfg. exists (if mp_enabled mp then Z.to_nat (mp_process_index mp) else 0%nat). split.
  - assert (Hi : Z.of_nat (if mp_enabled mp then Z.to_nat (mp_process_index mp) else 0%nat) < ms) by (unfold ms; destruct (mp_enabled mp); lia).
    eapply Z.lt_le_trans; [exact Hi|]. unfold compute_stripe_geometry, VolumeHeader_kSize. cbv zeta. unfold u64.
    rewrite (wrap_small 64 (small - 64)) by (unfold fits, small; lia).
    change (128 * 1024 * 1024 =? 0) with false. change (align_down (Z.max (128 * 1024 * 1024) kMinStripeSize) 12) with (128 * 1024 * 1024).
    assert (Hst : ms <= (small - 64) / (128 * 1024 * 1024)) by (apply Z.div_le_lower_bound; unfold small; lia).
    cbn iota. rewrite (proj2 (Z.eqb_neq _ _)) by lia. exact Hst.
  - destruct (mp_enabled mp); [|done]. cbn [negb]. rewrite Z2Nat.id by lia. apply Z.eqb_eq, Z.mod_small. lia.
Qed.

(** ** A small cache *)

Definition small_cache_config (percent : Z) : CacheConfig := {|
  cc_small_tier_percent := percent; cc_enable_checksum := true; cc_verify_checksum_on_read := true; cc_enable_hit_tracking := true;
  cc_fill_large_document_tail := true; cc_read_lease_duration := 5000; cc_lease_wrap_ceiling := 60000;
  cc_unlink_superseded_alternates := true; cc_wrap_retention := true; cc_max_object_size := 0;
  cc_cross_process_ram_coherence := false; cc_gc_superseded_on_start := false; cc_engine := false; cc_engine_valid := true;
  cc_mp := {| mp_enabled := false; mp_process_index := 0; mp_total_processes := 1; mp_max_read_retries := 1 |} |}.

Definition cache_path (name : text) : Path := {| parent_path := []; filename := name |}.

(** A running cache over the small volume of VolumeCommit.v. *)
Definition tiny_cache_volume (v : Volume (C := RamCacheLRU)) : CacheVolume := {|
  cv_tier := kDefault; cv_path := cache_path [99]; cv_file := local_config; cv_salt := (1, 2, 3, 4);
  cv_volume := {|
    ov_volume := with_ram v None; ov_size := Z.of_nat (length (v_file v)); ov_open := true; ov_gate_degraded := false;
    ov_whole_map_failed := false; ov_resets_degraded := 0; ov_resets_verified := 0 |} |}.

Definition tiny_cache : Impl (C := RamCacheLRU) := {|
  im_config := small_cache_config 0; im_volumes := [tiny_cache_volume (tiny_volume 5120)]; im_default := [0%nat]; im_small := None;
  im_files := [(cache_path [99], cache_path [99], kDefault)]; im_ram := Some (new_lru 1000); im_running := true; im_stopping := false;
  im_abandoned := false; im_owner_pid := 17; im_owner_epoch := 0; im_anchors := 0; im_engine := false; im_tracker := true;
  im_flush := no_flushes; im_loads := (0, 0, 0, 0) |}.

Lemma tiny_cache_ok : @cache_ok _ _ (lru_laws true) tiny_cache.
Proof.
  pose proof (tiny_volume_ok 5120 ltac:(lia)) as Hv. split; try done.
  - intros k cv Hk. apply list_lookup_singleton_Some in Hk as [-> <-]. done.
  - intros k. change (k ∈ [0%nat] <-> tier_at tiny_cache k = Some kDefault). rewrite list_elem_of_singleton. unfold tier_at. destruct k; cbn; done.
  - apply NoDup_singleton.
  - intros k. unfold tier_at. destruct k; cbn; done.
  - intros _ k cv Hk. apply list_lookup_singleton_Some in Hk as [-> <-]. done.
  - intros k cv Hk. apply list_lookup_singleton_Some in Hk as [-> <-]. split; [done|]. exact (vo_stripes _ Hv).
  - apply new_lru_ok. lia.
Qed.

Definition tiny_cache_handle : CacheWriteHandle := {| wd_volume := 0; wd_alternate := None; wd_observed := false; wd_handle := tiny_handle |}.
Definition tiny_cache_filled : CacheWriteHandle := {| wd_volume := 0; wd_alternate := None; wd_observed := false; wd_handle := tiny_filled |}.

Definition tiny_cache_close (im : Impl (C := RamCacheLRU)) :=
  @handle_close mulhi_int128 host_checksum _ (lru_ops true) (fun _ => tiny_wenv) (fun _ => 0) tiny_cache_filled im.
Definition tiny_cache_read (im : Impl (C := RamCacheLRU)) :=
  @read_sync mulhi_int128 host_checksum _ (lru_ops true) tiny_renv sample_key kDefault im.

(** [page_behind] decided, for stripe [i] of volume [k]. *)
Definition page_behindb (k i : nat) (im : Impl (C := RamCacheLRU)) : bool :=
  match cv ← im_volumes im !! k; s ← v_stripes (ov_volume (cv_volume cv)) !! i; Some (cv, s) with
  | Some (cv, s) => current_write_cursor (ss_stripe s) (ss_log s) + 4096 <=? Z.of_nat (length (v_file (ov_volume (cv_volume cv))))
  | None => true
  end.

Lemma page_behindb_ok k i im : page_behindb k i im = true -> forall cv, im_volumes im !! k = Some cv -> page_behind i (ov_volume (cv_volume cv)).
Proof. unfold page_behindb. intros H cv Hk s Hs. rewrite Hk in H. cbn in H. rewrite Hs in H. by apply Z.leb_le. Qed.

Lemma cache_write_then_read_witness : exists h' im' rh im'', tiny_cache_close tiny_cache = Some (inr tt, h', im') /\
  tiny_cache_read im' = Some (inr rh, im'') /\ rh_header (rd_handle rh) = [1; 2; 3] /\ rh_content (rd_handle rh) = [4; 5; 6; 7].
Proof.
  assert (match tiny_cache_close tiny_cache with Some (inr _, _, im) => page_behindb 0 0 im | _ => false end = true) as Hc by (vm_compute; reflexivity).
  destruct (tiny_cache_close tiny_cache) as [[[[err|[]] h'] im']|] eqn:E; try discriminate Hc. exists h', im'.
  destruct (@cache_write_then_read mulhi_int128 host_checksum _ _ (lru_ops true) (lru_laws true) (fun _ => tiny_wenv) (fun _ => 0) tiny_renv sample_key 4
    kDefault [1; 2; 3] [[4; 5]; [6; 7]] tiny_cache im' 0 (tiny_cache_volume (tiny_volume 5120)) 0 tiny_state tiny_cache_handle tiny_cache_filled h')
    as (_ & rh & im'' & H1 & H2 & H3).
  - exact tiny_cache_ok.
  - reflexivity.
  - vm_compute. reflexivity.
  - vm_compute. reflexivity.
  - vm_compute. reflexivity.
  - exact sample_key_ok.
  - apply bytes_okb_ok. reflexivity.
  - repeat constructor; lia.
  - cbn. lia.
  - vm_compute. reflexivity.
  - vm_compute. reflexivity.
  - exact E.
  - exact (page_behindb_ok 0 0 im' Hc).
  - exists rh, im''. split; [reflexivity|]. split; [exact H1|]. split; [exact H2|exact H3].
Defined.

Lemma cache_invariant_witness : exists im', @apply_cache_op mulhi_int128 host_checksum _ (lru_ops true)
  (CCloseWrite (fun _ => tiny_wenv) (fun _ => 0) tiny_cache_filled) tiny_cache = Some im' /\ @cache_ok _ _ (lru_laws true) im'.
Proof.
  apply (@cache_invariant mulhi_int128 host_checksum _ _ (lru_ops true) (lru_laws true)).
  - exact tiny_cache_ok.
  - cbn. split; [exact sample_key_ok|]. split; [apply bytes_okb_ok; reflexivity|]. split; [apply bytes_okb_ok; reflexivity|].
    exists (tiny_cache_volume (tiny_volume 5120)). split; [reflexivity|]. intros s Hs. vm_compute in Hs. injection Hs as <-. vm_compute. reflexivity.
Defined.

(** A cache with both tiers, and a RAM cache with a copy of a document. *)
Definition ram_document : list Z := @build_head host_checksum (write_builder sample_key [1; 2; 3] [4; 5; 6; 7]) [4; 5; 6; 7] ++ [4; 5; 6; 7].
Definition ram_with_copy : RamCacheLRU :=
  match @rc_put_if _ (lru_ops true) (original sample_key) ram_document true 0 (new_lru 1000) with Some (_, c) => c | None => new_lru 1000 end.

Lemma ram_with_copy_holds : @rc_ok _ _ (lru_laws true) ram_with_copy /\
  @rc_contents _ _ (lru_laws true) ram_with_copy !! original sample_key = Some (ram_document, 0).
Proof.
  destruct (@rc_put_spec _ _ (lru_laws true) (original sample_key) ram_document true 0 (new_lru 1000)) as (b & c & E & Hc & Hin & _);
    [apply new_lru_ok; lia|].
  assert (Hb : (fst <$> @rc_put_if _ (lru_ops true) (original sample_key) ram_document true 0 (new_lru 1000)) = Some true) by (vm_compute; reflexivity).
  rewrite E in Hb. cbn in Hb. injection Hb as ->. unfold ram_with_copy. rewrite E. destruct (Hin eq_refl) as (_ & _ & H). done.
Qed.

Definition fresh_file : NewVolume := {| nv_listing := []; nv_salt := (1, 2, 3, 4); nv_bytes := []; nv_draw := 7 |}.
Definition half_gib : VolumeRequest := {|
  vr_path := cache_path [99]; vr_size := 2 ^ 29; vr_tier := kDefault; vr_stripe_size := 0; vr_auto_reset_on_incompatible := true |}.
Definition two_tiers_over (ram : RamCacheLRU) : Impl (C := RamCacheLRU) :=
  snd (add_volume fresh_file fresh_file half_gib (new_cache (small_cache_config 25) (Some ram))).
Definition two_tiers : Impl (C := RamCacheLRU) := two_tiers_over ram_with_copy.
Definition create_senv : StartEnv := {|
  se_open := fun _ => good_env; se_identity := fun _ => None; se_listing := fun _ => []; se_now := 0; se_pid := 17; se_epoch := 0 |}.

Lemma two_tiers_volumes : Forall (fun cv => creatable cv /\ startable cv) (im_volumes two_tiers).
Proof. repeat constructor; vm_compute; done. Qed.

Lemma two_tiers_state : im_default two_tiers = [0%nat] /\ im_small two_tiers = Some 1%nat /\ im_ram two_tiers = Some ram_with_copy /\
  im_config two_tiers = small_cache_config 25 /\ im_abandoned two_tiers = false /\ im_running two_tiers = false /\ im_stopping two_tiers = false /\
  im_engine two_tiers = false.
Proof. unfold two_tiers. generalize ram_with_copy. intros ram. vm_compute. repeat split. Qed.

Lemma two_tiers_local : Forall (fun cv => mp_enabled (fc_mp (cv_file cv)) = false) (im_volumes two_tiers).
Proof. repeat constructor; vm_compute; reflexivity. Qed.

Lemma two_tiers_ok : @cache_ok _ _ (lru_laws true) two_tiers.
Proof. apply add_volume_ok, new_cache_ok; [done|]. exact (proj1 ram_with_copy_holds). Qed.

Local Abbreviation lru_cache_ok := (@cache_ok _ _ (lru_laws true)).

Lemma two_tiers_running : exists im, lru_cache_ok im /\ im_running im = true /\ im_stopping im = false /\ im_abandoned im = false /\
  im_owner_pid im = 17 /\ im_owner_epoch im = 0 /\ im_engine im = false /\ im_default im = [0%nat] /\ im_small im = Some 1%nat /\
  im_ram im = Some ram_with_copy /\ im_config im = small_cache_config 25 /\ Forall2 freshly_open (im_volumes two_tiers) (im_volumes im).
Proof.
  destruct two_tiers_state as (D & S & R & Cf & Ab & Ru & St & En). pose proof two_tiers_volumes as Hv. pose proof two_tiers_ok as Hok0.
  generalize dependent two_tiers. intros im0 D S R Cf Ab Ru St En Hv Hok0.
  assert (Hc : Forall creatable (im_volumes im0)) by (eapply Forall_impl; [exact Hv|]; by intros ? [? _]).
  destruct (start_creates create_senv im0 eq_refl Ab Ru ltac:(by rewrite Cf) En Hc) as (im & u & Hs & A & P & E & N).
  destruct (@start_ok _ _ (lru_laws true) create_senv im0 Hok0) as (r & im' & u' & Hs' & Hok & Hf).
  { intros k cv Hk. rewrite Forall_lookup in Hv. by apply (Hv k cv Hk). }
  rewrite Hs in Hs'. injection Hs' as <- <- <-. destruct (Hf eq_refl) as (F1 & F2 & F3 & F4 & F5 & F6 & F7 & F8 & F9).
  exists im. rewrite F1, F2, F3, F5, F6, F7, A, P, E, N, D, S, R, Cf, St. split_and!; try reflexivity; [exact Hok | exact F9].
Qed.

Definition no_pending : list HitDelta := [].
Definition claimed (im : Impl (C := RamCacheLRU)) : Impl := set_running im (im_running im) true (im_anchors im).

Lemma running_claims im : im_running im = true -> im_stopping im = false -> im_abandoned im = false -> im_owner_pid im = 17 -> im_owner_epoch im = 0 ->
  @stop_claim mulhi_int128 _ 17 0 no_pending im = (true, claimed im).
Proof. intros H1 H2 H3 H4 H5. unfold stop_claim. rewrite H1, H2, H3, H4, H5. cbn. unfold claimed. rewrite H1. by destruct (im_tracker im). Qed.

(** The two-tier cache, running, and what is left of it after a stop and a
    second start. *)
Lemma two_tiers_restart : exists im im2 u, lru_cache_ok im /\ @stop_claim mulhi_int128 _ 17 0 no_pending im = (true, claimed im) /\
  (forall k cv, im_volumes (stop_finish (claimed im)) !! k = Some cv -> startable cv) /\
  start create_senv (stop_finish (claimed im)) = Some (inr tt, im2, u) /\ im_default im = [0%nat] /\ im_ram im = Some ram_with_copy /\
  im_config im = small_cache_config 25 /\ exists cv, im_volumes im !! 0%nat = Some cv.
Proof.
  destruct two_tiers_running as (im & Hok & H1 & H2 & H3 & H4 & H5 & H6 & H7 & H8 & H9 & H10 & HF).
  pose proof two_tiers_local as Hmp. rewrite Forall_lookup in Hmp.
  assert (Hne : im_volumes two_tiers <> []) by (vm_compute; discriminate). generalize dependent two_tiers. intros im0 HF Hmp Hne.
  assert (Hc : Forall (fun cv => creatable cv /\ startable cv) (map close_volume (im_volumes im))).
  { apply Forall_fmap, Forall_lookup. intros k cv Hk. destruct (Forall2_lookup_r _ _ _ _ _ HF Hk) as (cv0 & Hk0 & F).
    apply (fresh_creatable cv0 cv F (Hmp k cv0 Hk0)). }
  destruct (start_creates create_senv (stop_finish (claimed im)) eq_refl H3 eq_refl ltac:(cbn; by rewrite H10) H6) as (im2 & u & Hs & _).
  { cbn. eapply Forall_impl; [exact Hc|]. by intros ? [? _]. }
  exists im, im2, u. split; [exact Hok|]. split; [by apply running_claims|]. split; [|split; [exact Hs|]].
  - intros k cv Hk. rewrite Forall_lookup in Hc. by apply (Hc k cv Hk).
  - split_and!; try assumption. destruct (im_volumes im) as [|cv l] eqn:E; [|by exists cv]. apply Forall2_length in HF.
    by destruct (im_volumes im0).
Qed.

Lemma remove_misses_ram_copy_witness : exists im2 im3 rh im4,
  @remove_sync mulhi_int128 _ (lru_ops true) sample_key kDefault im2 = Some (inl ENotFound, im3) /\ tiny_cache_read im3 = Some (inr rh, im4) /\
  rh_ram (rd_handle rh) = true /\ rh_content (rd_handle rh) = [4; 5; 6; 7].
Proof.
  destruct two_tiers_restart as (im & im2 & u & Hok & Hcl & Hst & Hs & D & R & Cf & _).
  destruct (@remove_misses_ram_copy mulhi_int128 host_checksum _ _ (lru_ops true) (lru_laws true) 17 0 no_pending create_senv tiny_renv sample_key
    ram_document 0 ram_with_copy im (claimed im) im2 u) as (_ & im3 & rh & im4 & H1 & H2 & H3 & H4).
  - exact Hok.
  - exact Hcl.
  - exact Hst.
  - exact Hs.
  - rewrite D. discriminate.
  - rewrite Cf. cbn. lia.
  - exact R.
  - exact (proj2 ram_with_copy_holds).
  - vm_compute. reflexivity.
  - exists im2, im3, rh, im4. split; [exact H1|]. split; [exact H2|]. split; [exact H3|]. rewrite H4. vm_compute. reflexivity.
Defined.

Lemma stop_revokes_witness : exists im im2 u cv (h : CacheWriteHandle) h', @stop_claim mulhi_int128 _ 17 0 no_pending im = (true, claimed im) /\
  start create_senv (stop_finish (claimed im)) = Some (inr tt, im2, u) /\ im_volumes im !! 0%nat = Some cv /\
  @handle_close mulhi_int128 host_checksum _ (lru_ops true) (fun _ => tiny_wenv) (fun _ => 0) h im2 = Some (inl EClosed, h', im2).
Proof.
  destruct two_tiers_restart as (im & im2 & u & Hok & Hcl & Hst & Hs & D & R & Cf & cv & Hk).
  set (h := {| wd_volume := 0; wd_alternate := None; wd_observed := false; wd_handle := {|
    wh_stripe := 0; wh_generation := v_generation (ov_volume (cv_volume cv)); wh_key := sample_key; wh_header := []; wh_content := [1];
    wh_expected_length := 0; wh_written := 1; wh_closed := false; wh_aborted := false |} |}).
  set (rh := {| rd_volume := 0; rd_anchors := im_anchors im; rd_handle := {|
    rh_doc := @written_document host_checksum sample_key [] [] 0 0; rh_header := []; rh_content := []; rh_ram := false; rh_stripe := 0;
    rh_epoch := {| be_threshold := 0 |}; rh_borrow := None |} |}).
  destruct (@stop_revokes mulhi_int128 host_checksum _ (lru_ops true) (lru_laws true) 17 0 no_pending (fun _ => tiny_wenv) (fun _ => 0) h rh cv im
    (claimed im)) as (_ & _ & _ & H).
  - exact Hok.
  - exact Hcl.
  - exact Hk.
  - reflexivity.
  - reflexivity.
  - reflexivity.
  - reflexivity.
  - destruct (H create_senv im2 u Hst Hs) as (_ & [h' Hh] & _). exists im, im2, u, cv, h, h'. split; [exact Hcl|]. split; [exact Hs|].
    split; [exact Hk|exact Hh].
Defined.

Lemma tiers_isolated_witness : exists im im', im_small im = Some 1%nat /\
  @apply_keyed mulhi_int128 host_checksum _ (lru_ops true) KRemove sample_key kSmall im = Some im' /\ im_ram im' = im_ram im /\
  im_volumes im' !! 0%nat = im_volumes im !! 0%nat.
Proof.
  destruct two_tiers_running as (im & Hok & _ & _ & _ & _ & _ & _ & D & S & _).
  destruct (guarded_ok sample_key kSmall (fun _ => @Volume.remove_sync mulhi_int128 _ (lru_ops true) sample_key) im Hok) as (r & im' & E & _);
    [intros cfg v Hv; by apply (remove_sync_ok mulhi_int128)|].
  assert (Ha : @apply_keyed mulhi_int128 host_checksum _ (lru_ops true) KRemove sample_key kSmall im = Some im')
    by (cbn [apply_keyed]; unfold remove_sync; rewrite E; reflexivity).
  destruct (@tiers_isolated mulhi_int128 host_checksum _ (lru_ops true) (lru_laws true) KRemove sample_key im im' 1%nat Hok S) as [H _].
  destruct (H Ha) as [Hr Hv]. exists im, im'. split; [exact S|]. split; [exact Ha|]. split; [exact Hr|]. apply Hv. rewrite D. left.
Defined.

Lemma small_tier_split_witness : exists s, compute_small_tier_sizes (2 ^ 29) 25 (cc_mp (small_cache_config 25)) = Some s /\
  default_size s + small_size s = 2 ^ 29.
Proof.
  exists {| default_size := 402653120; small_size := 134217792 |}. split; [vm_compute; reflexivity|].
  apply (small_tier_split (2 ^ 29) 25 (cc_mp (small_cache_config 25)) {| default_size := 402653120; small_size := 134217792 |} local_config);
    [lia | lia | cbn; lia | reflexivity | vm_compute; reflexivity].
Defined.

(** ** Streams *)

(** Reads with buffers of the given sizes, and then the rest. *)
Fixpoint stream_pieces (content : list Z) (offset : nat) (ns : list nat) : list Z :=
  match ns with
  | [] => fst (stream_read_all content offset)
  | n :: ns => let '(piece, offset) := stream_read content offset n in piece ++ stream_pieces content offset ns
  end.

(** Whatever the buffers, the pieces are the content from the offset on. *)
Lemma stream_pieces_all content offset ns : stream_pieces content offset ns = drop offset content.
Proof.
  revert offset. induction ns as [|n ns IH]; intros offset; cbn [stream_pieces].
  - unfold stream_read_all; cbn. destruct (Nat.le_gt_cases offset (length content)); [by rewrite Nat.min_l|]. rewrite Nat.min_r, !drop_ge by lia. done.
  - unfold stream_read. destruct (Nat.leb_spec (length content) offset); [by rewrite IH|]. rewrite IH. unfold subspan.
    rewrite <- drop_drop. apply take_drop.
Qed.
