(* ===== verification/BorrowProtocol.v ===== *)
(** * Readers against the gate, access by access (src/src/core/volume.cpp)

    The lock-free half of the lease protocol at the granularity of its seq_cst
    accesses, which have one total order: a reader registers its borrow
    ([acquire_borrow]), stamps the lease ([stamp_read_lease]) and revalidates
    ([borrow_still_valid]: intent, generation, its slot); a writer sets the
    intent, loads the lease and every slot of the chunks it is about to expose
    ([lease_gate]), and defers, forces or proceeds, stores the new generation
    and clears the intent ([allocate_write_slot], [advance_frontier]).  Any
    number of readers run interleaved with one writer (writers hold the
    stripe's locks).

    The generation can outrun the data: the retention wrap is not gated,
    because it opens no chunk for overwriting, yet it moves G past documents of
    the chunks the pass did not reach.  What the protocol protects is
    [y_opened], the pass that last opened each chunk. *)

From S2P Require Import Prelude Stripe WriteLog.

(** How far a reader has come. *)
Inductive stage := SAcquired | SClocked | SStamped | SIntentOk | SGenOk | SValid | SDiscard.

(** A reader between its acquire and its release: the shard and chunk of its
    slot, the pass of its document, its token, the clock its stamp was made
    from, and whether a forced reset took its slot after it had validated. *)
Record Reader := {
  rd_addr : nat * Z; rd_pass : Z; rd_gen : Z; rd_counted : bool; rd_time : Z; rd_stage : stage; rd_forced : bool }.

Definition set_stage (r : Reader) (t : Z) (g : stage) : Reader := {|
  rd_addr := rd_addr r; rd_pass := rd_pass r; rd_gen := rd_gen r; rd_counted := rd_counted r;
  rd_time := t; rd_stage := g; rd_forced := rd_forced r |}.

(** A step of the writer: the chunks [from, to) it opens, and the pass it
    opens them in; it stores generation [pass * (N + 1) + to]. *)
Record Round := { k_from : Z; k_to : Z; k_pass : Z; k_episode : bool }.

Inductive writer :=
  | WIdle
  | WIntent (k : Round)                                          (* intent stored *)
  | WLoad (k : Round) (expiry : Z) (todo : list (nat * Z)) (acc : Z)  (* lease loaded, slots being loaded *)
  | WReset (k : Round) (todo : list (nat * Z))                   (* forced: slots being reset *)
  | WStore (k : Round)                                           (* the gate passed *)
  | WClear.                                                      (* the intent is still to clear *)

Record Sys := {
  y_gen : Z; y_expiry : Z; y_now : Z; y_since : Z;
  y_slots : gmap (nat * Z) Z; y_readers : list Reader; y_writer : writer;
  y_opened : Z -> Z   (* the pass that last opened each chunk *) }.

Definition intent (w : writer) : bool := match w with WIdle => false | _ => true end.

Definition slot_of (m : gmap (nat * Z) Z) (a : nat * Z) : Z := default 0 (m !! a).

Section protocol.
Context (cfg : Config) (N : Z) (shards : nat).
Local Abbreviation T := (c_lease_t_ns cfg).
Local Abbreviation ceiling := (c_lease_ceiling_ns cfg).

(** The slots of chunks [lo, hi), shard by shard. *)
Definition gate_slots (lo hi : Z) : list (nat * Z) :=
  concat ((fun sh => (fun c => (sh, c)) <$> seqZ lo (hi - lo)) <$> seq 0 shards).

(** [Stripe::exposure_threshold] of the reader's document. *)
Definition threshold (r : Reader) : Z := (rd_pass r + 1) * (N + 1) + snd (rd_addr r).

(** The rounds of a generation: a frontier advance to chunk [t], the flush
    wrap, and the (ungated) retention wrap. *)
Definition advance_round (gen t : Z) (episode : bool) : Round :=
  {| k_from := gen mod (N + 1); k_to := t; k_pass := gen / (N + 1); k_episode := episode |}.
Definition flush_round (gen : Z) : Round :=
  {| k_from := 0; k_to := N; k_pass := gen / (N + 1) + 1; k_episode := true |}.
Definition wrap_round (gen : Z) : Round :=
  {| k_from := 0; k_to := 0; k_pass := gen / (N + 1) + 1; k_episode := true |}.

Definition round_of (gen : Z) (k : Round) : Prop :=
  (exists t e, k = advance_round gen t e /\ gen mod (N + 1) < t <= N) \/ k = flush_round gen.

Definition set_readers (s : Sys) (l : list Reader) : Sys := {|
  y_gen := y_gen s; y_expiry := y_expiry s; y_now := y_now s; y_since := y_since s;
  y_slots := y_slots s; y_readers := l; y_writer := y_writer s; y_opened := y_opened s |}.
Definition set_slot_at (s : Sys) (a : nat * Z) (v : Z) : Sys := {|
  y_gen := y_gen s; y_expiry := y_expiry s; y_now := y_now s; y_since := y_since s;
  y_slots := <[a := v]> (y_slots s); y_readers := y_readers s; y_writer := y_writer s; y_opened := y_opened s |}.
Definition set_writer (s : Sys) (w : writer) : Sys := {|
  y_gen := y_gen s; y_expiry := y_expiry s; y_now := y_now s; y_since := y_since s;
  y_slots := y_slots s; y_readers := y_readers s; y_writer := w; y_opened := y_opened s |}.
Definition set_time (s : Sys) (now expiry since : Z) : Sys := {|
  y_gen := y_gen s; y_expiry := expiry; y_now := now; y_since := since;
  y_slots := y_slots s; y_readers := y_readers s; y_writer := y_writer s; y_opened := y_opened s |}.

(** The generation store, and what it opens. *)
Definition store_round (s : Sys) (k : Round) : Sys := {|
  y_gen := k_pass k * (N + 1) + k_to k; y_expiry := y_expiry s; y_now := y_now s; y_since := y_since s;
  y_slots := y_slots s; y_readers := y_readers s; y_writer := WClear;
  y_opened c := if (k_from k <=? c) && (c <? k_to k) then k_pass k else y_opened s c |}.

(** A forced reset of slot [a] takes the counts of the readers on it. *)
Definition force_reader (a : nat * Z) (r : Reader) : Reader :=
  match rd_stage r with
  | SValid => {| rd_addr := rd_addr r; rd_pass := rd_pass r; rd_gen := rd_gen r; rd_counted := rd_counted r;
                 rd_time := rd_time r; rd_stage := SValid;
                 rd_forced := rd_forced r || bool_decide (rd_addr r = a) |}
  | _ => r
  end.

(** What the gate decides once every load is done. *)
Definition decide_gate (s : Sys) (k : Round) (expiry acc : Z) : Sys :=
  if negb (lease_live cfg (y_now s) expiry) || (acc =? 0) then
    set_writer (set_time s (y_now s) (y_expiry s) 0) (WStore k)
  else if negb (k_episode k) then set_writer s WClear
  else if negb (y_since s =? 0) && (ceiling <? u64 (y_now s - y_since s)) then
    set_writer (set_time s (y_now s) (y_expiry s) 0) (WReset k (gate_slots 0 N))
  else set_writer (set_time s (y_now s) (y_expiry s) (if y_since s =? 0 then y_now s else y_since s)) WClear.

Inductive step : Sys -> Sys -> Prop :=
  (* time passes; the clock stays in range *)
  | St_tick s t :
      y_now s <= t -> t + T + ceiling < 2 ^ 64 ->
      step s (set_time s t (y_expiry s) (y_since s))
  (* a reader *)
  | St_acquire s sh c pass gen counted v :
      (sh < shards)%nat -> 0 <= c < N ->
      slot_acquire (slot_of (y_slots s) (sh, c)) = ((gen, counted), v) ->
      step s (set_readers (set_slot_at s (sh, c) v)
        ({| rd_addr := (sh, c); rd_pass := pass; rd_gen := gen; rd_counted := counted; rd_time := 0;
            rd_stage := SAcquired; rd_forced := false |} :: y_readers s))
  | St_clock s l1 r l2 :
      y_readers s = l1 ++ r :: l2 -> rd_stage r = SAcquired ->
      step s (set_readers s (l1 ++ set_stage r (y_now s) SClocked :: l2))
  | St_stamp s l1 r l2 :
      y_readers s = l1 ++ r :: l2 -> rd_stage r = SClocked ->
      step s (set_time (set_readers s (l1 ++ set_stage r (rd_time r) SStamped :: l2)) (y_now s)
        (cas_max_lease (y_expiry s) (u64 (rd_time r + T)) (u64 (rd_time r + T - T / 4))) (y_since s))
  | St_intent s l1 r l2 :
      y_readers s = l1 ++ r :: l2 -> rd_stage r = SStamped ->
      step s (set_readers s (l1 ++ set_stage r (rd_time r) (if intent (y_writer s) then SDiscard else SIntentOk) :: l2))
  | St_gen s l1 r l2 :
      y_readers s = l1 ++ r :: l2 -> rd_stage r = SIntentOk ->
      step s (set_readers s (l1 ++ set_stage r (rd_time r) (if y_gen s <=? threshold r then SGenOk else SDiscard) :: l2))
  | St_counted s l1 r l2 :
      y_readers s = l1 ++ r :: l2 -> rd_stage r = SGenOk ->
      step s (set_readers s (l1 ++ set_stage r (rd_time r)
        (if generation_of (slot_of (y_slots s) (rd_addr r)) =? rd_gen r then SValid else SDiscard) :: l2))
  (* [renew_read_lease_strict] starts over from the stamp *)
  | St_renew s l1 r l2 :
      y_readers s = l1 ++ r :: l2 -> rd_stage r = SValid ->
      step s (set_readers s (l1 ++ set_stage r (rd_time r) SAcquired :: l2))
  | St_release s l1 r l2 :
      y_readers s = l1 ++ r :: l2 -> rd_stage r = SValid \/ rd_stage r = SDiscard ->
      step s (set_readers
        (if rd_counted r
         then set_slot_at s (rd_addr r) (slot_release (slot_of (y_slots s) (rd_addr r)) (rd_gen r)) else s)
        (l1 ++ l2))
  (* the writer *)
  | St_begin s k :
      y_writer s = WIdle ->
      round_of (y_gen s) k ->
      step s (set_writer s (WIntent k))
  | St_wrap s :
      y_writer s = WIdle -> step s (set_writer s (WStore (wrap_round (y_gen s))))
  | St_load_lease s k :
      y_writer s = WIntent k ->
      step s (set_writer s (WLoad k (y_expiry s) (gate_slots (k_from k) (k_to k)) 0))
  | St_load_slot s k e a todo acc :
      y_writer s = WLoad k e (a :: todo) acc ->
      step s (set_writer s (WLoad k e todo (acc + count_of (slot_of (y_slots s) a))))
  | St_decide s k e acc :
      y_writer s = WLoad k e [] acc -> step s (decide_gate s k e acc)
  | St_reset s k a todo :
      y_writer s = WReset k (a :: todo) ->
      (forall r, r ∈ y_readers s -> rd_addr r = a -> rd_gen r <> u8 (generation_of (slot_of (y_slots s) a) + 1)) ->
      step s (set_readers (set_slot_at (set_writer s (WReset k todo)) a (slot_force_reset (slot_of (y_slots s) a)))
        (map (force_reader a) (y_readers s)))
  | St_reset_done s k :
      y_writer s = WReset k [] -> step s (set_writer s (WStore k))
  | St_store s k :
      y_writer s = WStore k -> step s (store_round s k)
  | St_clear s :
      y_writer s = WClear -> step s (set_writer s WIdle).

(** Chunks below the frontier were last opened by the current pass at the
    latest, the others by an earlier one. *)
Definition opened_ok (s : Sys) : Prop :=
  forall c, y_opened s c <= if c <? y_gen s mod (N + 1) then y_gen s / (N + 1) else y_gen s / (N + 1) - 1.

(** An open stripe: no readers, no borrows, any pass and frontier. *)
Definition initial (s : Sys) : Prop :=
  y_slots s = ∅ /\ y_readers s = [] /\ y_writer s = WIdle /\ y_expiry s = 0 /\ opened_ok s /\
  0 <= y_now s /\ y_now s + T + ceiling < 2 ^ 64.

(** ** The invariant *)

Hypothesis (HT : 0 < T) (Hceil : 0 <= ceiling) (HN : 1 <= N).

(** The tokens that count in slot [a]. *)
Definition tokens (l : list Reader) (a : nat * Z) : list Z :=
  omap (fun r => if bool_decide (rd_addr r = a) && rd_counted r then Some (rd_gen r) else None) l.

(** Until when the reader's own stamp keeps the lease live. *)
Definition deadline (r : Reader) : Z := rd_time r + T - T / 4.

Definition stamped (r : Reader) : bool :=
  match rd_stage r with SStamped | SIntentOk | SGenOk | SValid => true | _ => false end.
Definition checked (r : Reader) : bool :=
  match rd_stage r with SIntentOk | SGenOk | SValid => true | _ => false end.
Definition past_gen (r : Reader) : bool := match rd_stage r with SGenOk | SValid => true | _ => false end.

(** A reader that found the intent clear, whose count still stands and whose
    lease has not lapsed. *)
Record protected (s : Sys) (r : Reader) : Prop := {
  pr_checked : checked r = true;
  pr_counted : rd_counted r = true;
  pr_unforced : rd_forced r = false;
  pr_time : y_now s < deadline r;
  pr_gen : generation_of (slot_of (y_slots s) (rd_addr r)) = rd_gen r;
}.

Definition crosses (k : Round) (r : Reader) : Prop := k_from k <= snd (rd_addr r) < k_to k.

(** What the writer's loads have seen, or will see, of a protected reader. *)
Definition sees (w : writer) (r : Reader) : Prop :=
  match w with
  | WIdle | WIntent _ | WClear => True
  | WLoad k e todo acc => crosses k r -> deadline r <= e /\ (rd_addr r ∈ todo \/ 0 < acc)
  | WReset _ todo => rd_addr r ∈ todo
  | WStore k => ~ crosses k r
  end.

Definition writer_ok (s : Sys) : Prop :=
  match y_writer s with
  | WIdle | WClear => True
  | WIntent k | WReset k _ => round_of (y_gen s) k
  | WStore k => round_of (y_gen s) k \/ k = wrap_round (y_gen s)
  | WLoad k e _ acc => round_of (y_gen s) k /\ 0 <= acc /\ 0 <= e <= y_now s + T
  end.

Definition reader_ok (s : Sys) (r : Reader) : Prop :=
  ((fst (rd_addr r) < shards)%nat /\ 0 <= snd (rd_addr r) < N /\ 0 <= rd_time r <= y_now s) /\
  (stamped r = true -> deadline r <= y_expiry s) /\
  (protected s r -> sees (y_writer s) r /\ (past_gen r = true -> y_opened s (snd (rd_addr r)) <= rd_pass r)) /\
  (rd_stage r = SValid -> rd_counted r = true -> rd_forced r = false ->
     generation_of (slot_of (y_slots s) (rd_addr r)) = rd_gen r).

Record inv (s : Sys) : Prop := {
  iv_slots a : slot_exact (slot_of (y_slots s) a, tokens (y_readers s) a);
  iv_readers : Forall (reader_ok s) (y_readers s);
  iv_expiry : 0 <= y_expiry s <= y_now s + T;
  iv_now : 0 <= y_now s /\ y_now s + T + ceiling < 2 ^ 64;
  iv_writer : writer_ok s;
  iv_opened : opened_ok s;
}.

Lemma tokens_app l l' a : tokens (l ++ l') a = tokens l a ++ tokens l' a.
Proof. unfold tokens. apply omap_app. Qed.

Lemma tokens_cons r l a :
  tokens (r :: l) a = (if bool_decide (rd_addr r = a) && rd_counted r then [rd_gen r] else []) ++ tokens l a.
Proof. unfold tokens. cbn [omap list_omap]. now destruct (_ && _). Qed.

(** A counted reader of the slot's generation is counted. *)
Lemma counted_positive s r :
  inv s -> r ∈ y_readers s -> rd_counted r = true ->
  generation_of (slot_of (y_slots s) (rd_addr r)) = rd_gen r -> 0 < count_of (slot_of (y_slots s) (rd_addr r)).
Proof.
  intros Hs Hr Hc Hg. destruct (iv_slots s Hs (rd_addr r)) as [Hcount _]. cbn [fst snd] in Hcount.
  rewrite Hcount, Hg. apply list_elem_of_split in Hr as (l1 & l2 & ->).
  rewrite tokens_app, tokens_cons, bool_decide_eq_true_2, Hc by done. cbn [andb].
  rewrite !held_app, held_cons, Z.eqb_refl. pose proof (held_nonneg (rd_gen r) (tokens l1 (rd_addr r))).
  pose proof (held_nonneg (rd_gen r) (tokens l2 (rd_addr r))). pose proof (held_nonneg (rd_gen r) []). lia.
Qed.

Lemma gate_slots_elem lo hi sh c : (sh < shards)%nat -> lo <= c < hi -> (sh, c) ∈ gate_slots lo hi.
Proof.
  intros Hsh Hc. unfold gate_slots. apply list_elem_of_In, in_concat.
  exists ((fun c => (sh, c)) <$> seqZ lo (hi - lo)). split; apply list_elem_of_In; apply list_elem_of_fmap.
  - exists sh. split; [done|]. apply elem_of_seq. lia.
  - exists c. split; [done|]. apply elem_of_seqZ. lia.
Qed.

(** A generation up to the threshold has not opened the document's chunk
    since. *)
Lemma threshold_unopened s r :
  opened_ok s -> 0 <= snd (rd_addr r) < N -> y_gen s <= threshold r -> y_opened s (snd (rd_addr r)) <= rd_pass r.
Proof.
  intros Ho Hc Hg. specialize (Ho (snd (rd_addr r))). unfold threshold in Hg.
  pose proof (Z.div_mod (y_gen s) (N + 1) ltac:(lia)). pose proof (Z.mod_pos_bound (y_gen s) (N + 1) ltac:(lia)).
  destruct (Z.ltb_spec (snd (rd_addr r)) (y_gen s mod (N + 1))); nia.
Qed.

Lemma store_opened s k :
  opened_ok s -> round_of (y_gen s) k \/ k = wrap_round (y_gen s) -> opened_ok (store_round s k).
Proof.
  intros Ho Hk c. specialize (Ho c). unfold store_round. cbn [y_gen y_opened].
  assert (0 <= k_to k <= N) as Ht.
  { pose proof (Z.mod_pos_bound (y_gen s) (N + 1) ltac:(lia)).
    destruct Hk as [[(t & e & -> & ?)| ->]| ->]; cbn; lia. }
  rewrite Z.add_comm, Z.div_add, Z.mod_add, Z.div_small, Z.mod_small by lia. cbn [Z.add].
  destruct Hk as [[(t & e & -> & Hb)| ->]| ->]; cbn [k_from k_to k_pass advance_round flush_round wrap_round] in *;
    revert Ho; repeat match goal with
    | |- context [?a <=? ?b] => destruct (Z.leb_spec a b)
    | |- context [?a <? ?b] => destruct (Z.ltb_spec a b)
    end; cbn [andb]; lia.
Qed.

(** ** The steps keep it *)

(** Slot updates that keep every generation. *)
Lemma reader_ok_slots s s' r :
  (forall a, generation_of (slot_of (y_slots s') a) = generation_of (slot_of (y_slots s) a)) ->
  y_expiry s' = y_expiry s -> y_now s' = y_now s -> y_writer s' = y_writer s -> y_opened s' = y_opened s ->
  reader_ok s r -> reader_ok s' r.
Proof.
  intros Hg He Hn Hw Ho (Ha & Hst & Hpr & Hv). unfold reader_ok. rewrite He, Hn, Hw, Ho, Hg.
  do 3 (split; [try done|]); [|done].
  all: intros []; apply Hpr; split; try done; [lia|now rewrite <- Hg].
Qed.

(** Changing the stage of one reader. *)
Lemma inv_stage s l1 r l2 t g :
  inv s -> y_readers s = l1 ++ r :: l2 -> reader_ok s (set_stage r t g) ->
  inv (set_readers s (l1 ++ set_stage r t g :: l2)).
Proof.
  intros [H1 H2 H3 H4 H5 H6] El Hr. rewrite El in *.
  split; cbn [set_readers y_slots y_readers y_gen y_expiry y_now y_writer]; try done.
  - intros a. specialize (H1 a). rewrite tokens_app, tokens_cons in *. exact H1.
  - apply Forall_app in H2 as [Ha [Hb Hc]%Forall_cons]. apply Forall_app. split; [|constructor];
    [eapply Forall_impl; [exact Ha|]| |eapply Forall_impl; [exact Hc|]]; try intros r'; now apply (reader_ok_slots s).
Qed.

(** Changes that leave readers and slots alone. *)
Lemma inv_frame s s' :
  inv s -> y_slots s' = y_slots s -> y_readers s' = y_readers s -> y_now s <= y_now s' -> y_expiry s <= y_expiry s' ->
  (forall r, r ∈ y_readers s -> protected s' r -> protected s r -> reader_ok s r ->
     sees (y_writer s') r /\ (past_gen r = true -> y_opened s' (snd (rd_addr r)) <= rd_pass r)) ->
  y_expiry s' <= y_now s' + T -> y_now s' + T + ceiling < 2 ^ 64 -> writer_ok s' -> opened_ok s' -> inv s'.
Proof.
  intros [H1 H2 H3 H4 H5 H6] Es Er Hn He Hp Hx Hb Hw Ho. split; try done; try lia.
  - intros a. rewrite Es, Er. apply H1.
  - rewrite Er. apply Forall_forall. intros r Hr. pose proof (proj1 (Forall_forall _ _) H2 r Hr) as Hok.
    pose proof Hok as (Ha & Hst & Hpr & Hv). split; [lia|]. split; [intros Hs; specialize (Hst Hs); lia|].
    split; [|now rewrite Es]. intros Hpr'. apply Hp; [done|done| |done]. destruct Hpr'. split; try done; [lia|congruence].
Qed.

Lemma slot_of_insert m a v b : slot_of (<[a := v]> m) b = if bool_decide (b = a) then v else slot_of m b.
Proof.
  unfold slot_of. case_bool_decide as E; [subst; now rewrite lookup_insert_eq|]. now rewrite lookup_insert_ne.
Qed.

Lemma acquire_generation slot gen counted v :
  slot_acquire slot = ((gen, counted), v) -> generation_of v = generation_of slot.
Proof.
  unfold slot_acquire. pose proof (count_of_fits slot). pose proof (generation_of_fits slot).
  destruct (Z.eqb_spec (count_of slot) kCountMask) as [|Hne]; intros [= <- <- <-]; [done|].
  apply generation_of_pack; [done|]. change kCountMask with 16777215 in Hne. unfold fits in *. lia.
Qed.

Lemma release_generation slot gen : generation_of (slot_release slot gen) = generation_of slot.
Proof.
  unfold slot_release. pose proof (count_of_fits slot). pose proof (generation_of_fits slot).
  destruct (Z.eqb_spec (generation_of slot) gen) as [<-|]; cbn [negb orb]; [|done].
  destruct (Z.eqb_spec (count_of slot) 0); [done|]. apply generation_of_pack; [done|]. unfold fits in *. lia.
Qed.

Lemma reset_generation slot gen :
  (0 < count_of slot \/ generation_of slot <> gen) -> gen <> u8 (generation_of slot + 1) ->
  generation_of (slot_force_reset slot) <> gen.
Proof.
  unfold slot_force_reset. intros Hg Hf. destruct (Z.eqb_spec (count_of slot) 0); [destruct Hg; [lia|done]|].
  rewrite generation_of_pack; [congruence|now apply wrap_fits|done].
Qed.

Lemma inv_acquire s sh c pass gen counted v :
  inv s -> (sh < shards)%nat -> 0 <= c < N -> slot_acquire (slot_of (y_slots s) (sh, c)) = ((gen, counted), v) ->
  inv (set_readers (set_slot_at s (sh, c) v)
        ({| rd_addr := (sh, c); rd_pass := pass; rd_gen := gen; rd_counted := counted; rd_time := 0;
            rd_stage := SAcquired; rd_forced := false |} :: y_readers s)).
Proof.
  intros [H1 H2 H3 H4 H5 H6] Hsh Hc Ha. split; cbn [set_readers set_slot_at y_slots y_readers y_expiry y_now]; try done.
  - intros a. specialize (H1 a). rewrite slot_of_insert, tokens_cons. cbn [rd_addr rd_counted rd_gen].
    destruct (decide (a = (sh, c))) as [->|Hne].
    + rewrite !bool_decide_eq_true_2 by done. pose proof (slot_step_exact _ _ (step_acquire _ _ _ _ _ Ha) H1).
      now destruct counted.
    + rewrite !bool_decide_eq_false_2 by congruence. exact H1.
  - constructor.
    + split; [cbn; lia|]. split; [done|]. split; [|done]. now intros [].
    + eapply Forall_impl; [exact H2|]. intros r. apply (reader_ok_slots s); try done.
      intros a. cbn [set_readers set_slot_at y_slots]. rewrite slot_of_insert. case_bool_decide; [|done]. subst.
      now apply acquire_generation in Ha.
Qed.

Lemma inv_release s l1 r l2 :
  inv s -> y_readers s = l1 ++ r :: l2 ->
  inv (set_readers
        (if rd_counted r
         then set_slot_at s (rd_addr r) (slot_release (slot_of (y_slots s) (rd_addr r)) (rd_gen r)) else s)
        (l1 ++ l2)).
Proof.
  intros [H1 H2 H3 H4 H5 H6] El. rewrite El in *.
  assert (Forall (reader_ok s) (l1 ++ l2)) as Hl by (rewrite Forall_app, Forall_cons in *; tauto).
  destruct (rd_counted r) eqn:Hcnt; split; cbn [set_readers set_slot_at y_slots y_readers y_expiry y_now]; try done.
  - intros a. specialize (H1 a). rewrite slot_of_insert. rewrite tokens_app, tokens_cons, Hcnt in *.
    destruct (decide (a = rd_addr r)) as [->|Hne].
    + rewrite !bool_decide_eq_true_2 in * by done.
      exact (slot_step_exact _ _ (step_release _ _ (rd_gen r) _) H1).
    + now rewrite !bool_decide_eq_false_2 in * by congruence.
  - eapply Forall_impl; [exact Hl|]. intros r'. apply (reader_ok_slots s); try done.
    intros a. cbn [set_readers set_slot_at y_slots]. rewrite slot_of_insert. case_bool_decide; [|done]. subst.
    apply release_generation.
  - intros a. specialize (H1 a). rewrite tokens_app, tokens_cons, Hcnt, andb_false_r in *. exact H1.
  - eapply Forall_impl; [exact Hl|]. intros r'. now apply (reader_ok_slots s).
Qed.

Lemma force_reader_fields a r :
  rd_addr (force_reader a r) = rd_addr r /\ rd_pass (force_reader a r) = rd_pass r /\
  rd_gen (force_reader a r) = rd_gen r /\ rd_counted (force_reader a r) = rd_counted r /\
  rd_time (force_reader a r) = rd_time r /\ rd_stage (force_reader a r) = rd_stage r /\
  (rd_forced (force_reader a r) = false ->
     rd_forced r = false /\ (rd_stage r = SValid -> rd_addr r <> a)).
Proof.
  unfold force_reader. destruct (rd_stage r) eqn:Es; cbn; rewrite ?Es; do 6 (split; [done|]).
  all: intros Hf; try (split; [exact Hf|discriminate]).
  apply orb_false_iff in Hf as [Hf Ha%bool_decide_eq_false]. done.
Qed.

Lemma tokens_force a l b : tokens (map (force_reader a) l) b = tokens l b.
Proof.
  induction l as [|r l IH]; [done|]. cbn [map]. rewrite !tokens_cons, IH.
  destruct (force_reader_fields a r) as (-> & _ & -> & -> & _). done.
Qed.

(** A reset takes the protection of every reader on its slot. *)
Lemma reset_unprotects s a r :
  inv s -> r ∈ y_readers s -> rd_addr r = a -> rd_counted r = true ->
  rd_gen r <> u8 (generation_of (slot_of (y_slots s) a) + 1) ->
  generation_of (slot_force_reset (slot_of (y_slots s) a)) <> rd_gen r.
Proof.
  intros Hs Hr <- Hc Hf. apply reset_generation; [|done].
  destruct (Z.eq_dec (generation_of (slot_of (y_slots s) (rd_addr r))) (rd_gen r)); [left|now right].
  now apply (counted_positive s r).
Qed.

Lemma inv_reset s k a todo :
  inv s -> y_writer s = WReset k (a :: todo) ->
  (forall r, r ∈ y_readers s -> rd_addr r = a -> rd_gen r <> u8 (generation_of (slot_of (y_slots s) a) + 1)) ->
  inv (set_readers (set_slot_at (set_writer s (WReset k todo)) a (slot_force_reset (slot_of (y_slots s) a)))
        (map (force_reader a) (y_readers s))).
Proof.
  intros Hs Hw Hfresh. pose proof Hs as [H1 H2 H3 H4 H5 H6].
  split; cbn [set_readers set_slot_at set_writer y_slots y_readers y_expiry y_now]; try done.
  - intros b. specialize (H1 b). rewrite slot_of_insert, tokens_force. case_bool_decide; [subst b|exact H1].
    refine (slot_step_exact _ _ (step_reset _ _ _) H1). intros g Hg. apply list_elem_of_omap in Hg as (r & Hr & Hg).
    case_bool_decide as Ea; [|discriminate]. destruct (rd_counted r); [|discriminate]. injection Hg as <-.
    now apply Hfresh.
  - apply Forall_map, Forall_forall. intros r Hr. pose proof (proj1 (Forall_forall _ _) H2 r Hr) as (Ha & Hst & Hpr & Hv).
    destruct (force_reader_fields a r) as (Ea & Ep & Eg & Ec & Et & Es & Ef).
    unfold reader_ok, stamped, past_gen, deadline. cbn [set_readers set_slot_at set_writer y_slots y_expiry y_now y_writer y_opened].
    rewrite Ea, Ep, Eg, Ec, Et, Es, slot_of_insert. split; [exact Ha|]. split; [exact Hst|].
    split; [intros [P1 P2 P3 P4 P5]|intros Hsv Hcn Hun; apply Ef in Hun as [? Hne]; rewrite bool_decide_eq_false_2 by auto; auto].
    unfold checked, deadline in *. cbn [set_readers set_slot_at set_writer y_slots y_now] in *.
    rewrite Ea, ?Eg, ?Ec, ?Et, ?Es, slot_of_insert in *. apply Ef in P3 as [P3 _]. case_bool_decide as E.
    + exfalso. exact (reset_unprotects s a r Hs Hr E P2 (Hfresh r Hr E) P5).
    + destruct Hpr as [Hsees Ho]; [now split|]. split; [|exact Ho]. rewrite Hw in Hsees. cbn [sees] in *. rewrite Ea.
      apply elem_of_cons in Hsees as [?|?]; [done|assumption].
  - unfold writer_ok in *. rewrite Hw in H5. exact H5.
Qed.

Lemma inv_stamp s l1 r l2 :
  inv s -> y_readers s = l1 ++ r :: l2 -> rd_stage r = SClocked ->
  inv (set_time (set_readers s (l1 ++ set_stage r (rd_time r) SStamped :: l2)) (y_now s)
        (cas_max_lease (y_expiry s) (u64 (rd_time r + T)) (u64 (rd_time r + T - T / 4))) (y_since s)).
Proof.
  intros Hs El Est. pose proof Hs as [H1 H2 H3 H4 H5 H6].
  assert (reader_ok s r) as (Ha & _ & _ & _) by (rewrite El in H2; apply Forall_app in H2 as [_ [? _]%Forall_cons]; done).
  pose proof (Z.div_lt_upper_bound T 4 T ltac:(lia) ltac:(lia)). pose proof (Z.div_pos T 4 ltac:(lia) ltac:(lia)).
  set (e := cas_max_lease _ _ _).
  assert (y_expiry s <= e /\ deadline r <= e <= y_now s + T) as He.
  { unfold e, cas_max_lease, deadline, u64. rewrite !wrap_small by (unfold fits; lia).
    destruct (Z.ltb_spec (y_expiry s) (rd_time r + T - T / 4)); lia. }
  set (s1 := set_time s (y_now s) e (y_since s)).
  assert (inv s1) as Hs1.
  { apply (inv_frame s); cbn [s1 set_time y_now y_expiry y_writer y_opened]; try done; try lia. intros r' _ _ Hp (_ & _ & Hok & _).
    now apply Hok. }
  change (inv (set_readers s1 (l1 ++ set_stage r (rd_time r) SStamped :: l2))). apply inv_stage; try done.
  split; [exact Ha|]. split; [cbn; intros _; unfold deadline in *; cbn; lia|]. split; [now intros []|done].
Qed.

(** A live lease over the borrows of a crossed reader fails the gate. *)
Lemma live_at s r e : inv s -> 0 <= e <= y_now s + T -> y_now s < deadline r -> deadline r <= e ->
  lease_live cfg (y_now s) e = true.
Proof.
  intros [_ _ _ H4 _ _] He Hd1 Hd2. unfold lease_live, u64. rewrite wrap_small by (unfold fits; lia).
  repeat match goal with
  | |- context [?a <=? ?b] => destruct (Z.leb_spec a b)
  | |- context [?a <? ?b] => destruct (Z.ltb_spec a b)
  | |- context [?a =? ?b] => destruct (Z.eqb_spec a b)
  end; cbn [negb andb]; try done; lia.
Qed.

(** Steps of the writer alone. *)
Lemma inv_writer s s' :
  inv s -> y_slots s' = y_slots s -> y_readers s' = y_readers s -> y_now s' = y_now s -> y_expiry s' = y_expiry s ->
  y_gen s' = y_gen s -> y_opened s' = y_opened s ->
  (forall r, r ∈ y_readers s -> protected s r -> reader_ok s r -> sees (y_writer s') r) ->
  writer_ok s' -> inv s'.
Proof.
  intros Hs Es Er En Ee Eg Eo Hp Hw. pose proof Hs as [H1 H2 H3 H4 H5 H6].
  apply (inv_frame s); try done; try lia.
  - intros r Hr _ Hpr Hok. split; [now apply Hp|]. rewrite Eo. destruct Hok as (_ & _ & Hok & _). now apply Hok.
  - unfold opened_ok. now rewrite Eg, Eo.
Qed.

Lemma inv_decide s k e acc : inv s -> y_writer s = WLoad k e [] acc -> inv (decide_gate s k e acc).
Proof.
  intros Hs Hw. pose proof (iv_writer s Hs) as Hwo. unfold writer_ok in Hwo. rewrite Hw in Hwo.
  destruct Hwo as (Hk & Hacc & He). unfold decide_gate.
  destruct (negb (lease_live cfg (y_now s) e) || (acc =? 0)) eqn:Hpass; [|destruct (negb (k_episode k)); [|destruct (_ && _)]].
  - apply (inv_writer s); try done; [|now left]. intros r _ Hp (_ & _ & Hok & _) Hx.
    destruct (Hok Hp) as [Hsees _]. rewrite Hw in Hsees. destruct (Hsees Hx) as [Hd [Hin|Hpos]]; [now apply not_elem_of_nil in Hin|].
    rewrite (live_at s r e Hs He (pr_time _ _ Hp) Hd) in Hpass. destruct (Z.eqb_spec acc 0); [lia|discriminate].
  - now apply (inv_writer s).
  - apply (inv_writer s); try done. intros r _ _ ((Hsh & Hc & _) & _). cbn [sees set_writer y_writer].
    destruct (rd_addr r) as [sh c]. now apply gate_slots_elem.
  - now apply (inv_writer s).
Qed.

Lemma inv_load_lease s k : inv s -> y_writer s = WIntent k ->
  inv (set_writer s (WLoad k (y_expiry s) (gate_slots (k_from k) (k_to k)) 0)).
Proof.
  intros Hs Hw. pose proof Hs as [H1 H2 H3 H4 H5 H6]. unfold writer_ok in H5. rewrite Hw in H5.
  apply (inv_writer s); try done. intros r _ [Hch _ _ _ _] ((Hsh & Hc & _) & Hst & _) Hx.
  split; [apply Hst; unfold stamped; unfold checked in Hch; now destruct (rd_stage r)|left].
  unfold crosses in Hx. destruct (rd_addr r) as [sh c]. now apply gate_slots_elem.
Qed.

Lemma inv_load_slot s k e a todo acc : inv s -> y_writer s = WLoad k e (a :: todo) acc ->
  inv (set_writer s (WLoad k e todo (acc + count_of (slot_of (y_slots s) a)))).
Proof.
  intros Hs Hw. pose proof (iv_writer s Hs) as Hwo. unfold writer_ok in Hwo. rewrite Hw in Hwo.
  pose proof (count_of_nonneg (slot_of (y_slots s) a)).
  apply (inv_writer s); try done; [|cbn; repeat split; tauto || lia]. intros r Hr Hp (_ & _ & Hok & _) Hx.
  destruct (Hok Hp) as [Hsees _]. rewrite Hw in Hsees. destruct (Hsees Hx) as [Hd Hor]. split; [exact Hd|].
  destruct Hor as [[Ea|Hin]%elem_of_cons|Hpos]; [|now left|right; lia]. right. subst a.
  pose proof (counted_positive s r Hs Hr (pr_counted _ _ Hp) (pr_gen _ _ Hp)). lia.
Qed.

Lemma inv_store s k : inv s -> y_writer s = WStore k -> inv (store_round s k).
Proof.
  intros Hs Hw. pose proof Hs as [H1 H2 H3 H4 H5 H6]. unfold writer_ok in H5. rewrite Hw in H5.
  apply (inv_frame s); try done; try (cbn [store_round y_now y_expiry]; lia); [|now apply store_opened].
  intros r _ _ Hp (_ & _ & Hok & _). destruct (Hok Hp) as [Hx Ho]. split; [exact I|]. rewrite Hw in Hx.
  cbn [sees store_round y_opened] in *. unfold crosses in Hx.
  destruct (Z.leb_spec (k_from k) (snd (rd_addr r))); cbn [andb]; [|exact Ho].
  destruct (Z.ltb_spec (snd (rd_addr r)) (k_to k)); [lia|exact Ho].
Qed.

(** Steps of one reader's revalidation. *)
Lemma inv_check s l1 r l2 g :
  inv s -> y_readers s = l1 ++ r :: l2 ->
  (reader_ok s r -> reader_ok s (set_stage r (rd_time r) g)) ->
  inv (set_readers s (l1 ++ set_stage r (rd_time r) g :: l2)).
Proof.
  intros Hs El Hr. apply inv_stage; [done|done|]. apply Hr. pose proof (iv_readers s Hs) as H2. rewrite El in H2.
  now apply Forall_app in H2 as [_ [? _]%Forall_cons].
Qed.

Lemma unchecked_ok s r t g :
  reader_ok s r -> 0 <= t <= y_now s -> g = SAcquired \/ g = SClocked \/ g = SDiscard -> reader_ok s (set_stage r t g).
Proof.
  intros ((? & ? & _) & _) Ht Hg. split; [cbn; lia|].
  destruct Hg as [->|[->| ->]]; (split; [done|]; split; [now intros []|done]).
Qed.

(** The reader was already checked, or is now with the intent clear; it loads
    a generation up to its threshold; it finds its slot's generation. *)
Lemma checked_ok s r g :
  reader_ok s r -> stamped r = true -> opened_ok s ->
  (g = SIntentOk /\ y_writer s = WIdle) \/
  (g = SGenOk /\ checked r = true /\ y_gen s <= threshold r) \/
  (g = SValid /\ past_gen r = true /\ generation_of (slot_of (y_slots s) (rd_addr r)) = rd_gen r) ->
  reader_ok s (set_stage r (rd_time r) g).
Proof.
  intros (Ha & Hst & Hpr & Hv) Hstamped Hop Hg. split; [exact Ha|]. split; [intros _; exact (Hst Hstamped)|].
  assert (forall s' g', protected s' (set_stage r (rd_time r) g') -> checked r = true -> protected s' r) as Hback.
  { intros s' g' [] Hc. now split. }
  destruct Hg as [[-> Hw]|[(-> & Hc & Ht)|(-> & Hp & Hgen)]].
  - split; [|done]. intros _. now rewrite Hw.
  - split; [|done]. intros Hp. destruct (Hpr (Hback _ _ Hp Hc)) as [Hsees _]. split; [exact Hsees|]. intros _.
    apply threshold_unopened; [done|apply Ha|done].
  - split; [|intros _ _ _; exact Hgen]. intros Hp'.
    assert (checked r = true) as Hc by (unfold checked; unfold past_gen in Hp; now destruct (rd_stage r)).
    destruct (Hpr (Hback _ _ Hp' Hc)) as [Hsees Ho]. split; [exact Hsees|]. intros _. exact (Ho Hp).
Qed.

Lemma inv_step s s' : inv s -> step s s' -> inv s'.
Proof.
  intros Hs Hstep. pose proof (iv_opened s Hs) as Hop. pose proof (iv_now s Hs) as Hnow.
  destruct Hstep as [s t Hle Hb|s sh c pass gen counted v Hsh Hc Ha|s l1 r l2 El Es|s l1 r l2 El Es|s l1 r l2 El Es
    |s l1 r l2 El Es|s l1 r l2 El Es|s l1 r l2 El Es|s l1 r l2 El Es|s k Hw Hk|s Hw|s k Hw|s k e a todo acc Hw|s k e acc Hw
    |s k a todo Hw Hf|s k Hw|s k Hw|s Hw].
  - destruct Hs as [H1 H2 H3 H4 H5 H6]. apply (inv_frame s); cbn [set_time y_now y_expiry]; try done; try lia.
    + intros r _ _ Hp (_ & _ & Hok & _). now apply Hok.
    + revert H5. unfold writer_ok. cbn [set_time y_writer y_gen y_now]. destruct (y_writer s); try done.
      intros (? & ? & ?). split; [done|lia].
  - now apply inv_acquire.
  - apply inv_stage; [done|done|]. pose proof (iv_readers s Hs) as H2. rewrite El in H2.
    apply Forall_app in H2 as [_ [? _]%Forall_cons]. apply unchecked_ok; [done|lia|tauto].
  - now apply inv_stamp.
  - apply inv_check; [done|done|]. intros Hok. destruct (y_writer s) eqn:Hw; cbn [intent];
      try (apply unchecked_ok; [done|apply Hok|tauto]).
    apply checked_ok; [done|unfold stamped; now rewrite Es|done|]. now left.
  - apply inv_check; [done|done|]. intros Hok. destruct (Z.leb_spec (y_gen s) (threshold r)).
    + apply checked_ok; [done|unfold stamped; now rewrite Es|done|]. right. left. unfold checked. now rewrite Es.
    + apply unchecked_ok; [done|apply Hok|tauto].
  - apply inv_check; [done|done|]. intros Hok. destruct (Z.eqb_spec (generation_of (slot_of (y_slots s) (rd_addr r))) (rd_gen r)).
    + apply checked_ok; [done|unfold stamped; now rewrite Es|done|]. right. right. unfold past_gen. now rewrite Es.
    + apply unchecked_ok; [done|apply Hok|tauto].
  - apply inv_check; [done|done|]. intros Hok. apply unchecked_ok; [done|apply Hok|tauto].
  - now apply inv_release.
  - now apply (inv_writer s).
  - apply (inv_writer s); try done; [|now right]. intros r _ _ _. cbn. unfold crosses. cbn. lia.
  - now apply inv_load_lease.
  - now apply inv_load_slot.
  - now apply inv_decide.
  - now apply inv_reset.
  - pose proof (iv_writer s Hs) as Hwo. unfold writer_ok in Hwo. rewrite Hw in Hwo.
    apply (inv_writer s); try done; [|now left]. intros r _ Hp (_ & _ & Hok & _). destruct (Hok Hp) as [Hin _].
    rewrite Hw in Hin. now apply not_elem_of_nil in Hin.
  - now apply inv_store.
  - now apply (inv_writer s).
Qed.

Lemma inv_initial s : initial s -> inv s.
Proof.
  intros (Es & Er & Ew & Ee & Ho & Hn & Hb). split; try done; try lia.
  - intros a. rewrite Es, Er. unfold slot_of. now rewrite lookup_empty.
  - now rewrite Er.
  - unfold writer_ok. now rewrite Ew.
Qed.

(** C8. A validated borrow is not overwritten: in every interleaving of any
    number of readers with the writer, access by access, a reader that has
    revalidated (intent clear, generation up to its threshold, slot still of
    its generation), whose borrow is counted and was not taken by a forced
    reset, holds a document whose chunk no later pass has opened for
    overwriting, for as long as its own stamp keeps the lease live (three
    quarters of T from the clock it was made from).  This is the Dekker
    argument of [allocate_write_slot]: the writer stores the intent before it
    loads the lease and the slots, the reader counts and stamps before it
    loads the intent. *)
Theorem validated_borrow_unopened s0 s r :
  initial s0 -> rtc step s0 s -> r ∈ y_readers s ->
  rd_stage r = SValid -> rd_counted r = true -> rd_forced r = false -> y_now s < deadline r ->
  y_opened s (snd (rd_addr r)) <= rd_pass r.
Proof.
  intros H0 Hrun Hr Hst Hc Hf Hd.
  assert (inv s) as Hs.
  { apply inv_initial in H0. clear -H0 Hrun HT Hceil HN. induction Hrun as [|s s' s'' Hstep _ IH]; [done|].
    apply IH. now apply (inv_step s). }
  pose proof (proj1 (Forall_forall _ _) (iv_readers s Hs) r Hr) as (_ & _ & Hpr & Hv).
  apply Hpr; [split; try done; [unfold checked; now rewrite Hst|now apply Hv]|unfold past_gen; now rewrite Hst].
Qed.
End protocol.

(** ** Witness *)

(** Two chunks, one shard: a reader of a document of pass 2 in chunk 1
    validates in pass 3; the advance over both chunks finds its borrow and
    defers. *)
Definition sample_reader (t : Z) (g : stage) : Reader := {|
  rd_addr := (0%nat, 1); rd_pass := 2; rd_gen := 0; rd_counted := true; rd_time := t; rd_stage := g; rd_forced := false |}.

Definition sample_sys (expiry since : Z) (slots : gmap (nat * Z) Z) (l : list Reader) (w : writer) : Sys := {|
  y_gen := 9; y_expiry := expiry; y_now := 1000; y_since := since; y_slots := slots; y_readers := l; y_writer := w;
  y_opened c := 2 |}.

Definition sample_run : list Sys :=
  let x := 5000001000 in
  let k := advance_round 2 9 2 true in
  let at_ w := sample_sys x 0 {[ (0%nat, 1) := pack_of 0 1 ]} [sample_reader 1000 SValid] w in
  let rd e t g := sample_sys e 0 {[ (0%nat, 1) := pack_of 0 1 ]} [sample_reader t g] WIdle in
  [rd 0 0 SAcquired; rd 0 1000 SClocked; rd x 1000 SStamped; rd x 1000 SIntentOk; rd x 1000 SGenOk; rd x 1000 SValid;
   at_ (WIntent k); at_ (WLoad k x [(0%nat, 0); (0%nat, 1)] 0); at_ (WLoad k x [(0%nat, 1)] 0); at_ (WLoad k x [] 1)].

Definition sample_start : Sys := sample_sys 0 0 ∅ [] WIdle.
Definition sample_end : Sys :=
  sample_sys 5000001000 1000 {[ (0%nat, 1) := pack_of 0 1 ]} [sample_reader 1000 SValid] WClear.

Lemma validated_borrow_unopened_witness :
  y_opened sample_end (snd (rd_addr (sample_reader 1000 SValid))) <= rd_pass (sample_reader 1000 SValid).
Proof.
  apply (validated_borrow_unopened sample_config 2 1 ltac:(cbn; lia) ltac:(cbn; lia) ltac:(lia) sample_start sample_end); try done.
  - repeat split; try done. intros c. change (2 <= if c <? 0 then 3 else 2). destruct (c <? 0); lia.
  - pose (z := sample_sys 0 0 ∅ [] WIdle). pose (l := sample_run).
    apply rtc_l with (y := nth 0 l z); [apply (St_acquire sample_config 2 1 sample_start 0 1 2 0 true (pack_of 0 1)); done || lia|].
    apply rtc_l with (y := nth 1 l z); [apply (St_clock sample_config 2 1 (nth 0 l z) [] (sample_reader 0 SAcquired) []); done|].
    apply rtc_l with (y := nth 2 l z); [apply (St_stamp sample_config 2 1 (nth 1 l z) [] (sample_reader 1000 SClocked) []); done|].
    apply rtc_l with (y := nth 3 l z); [apply (St_intent sample_config 2 1 (nth 2 l z) [] (sample_reader 1000 SStamped) []); done|].
    apply rtc_l with (y := nth 4 l z); [apply (St_gen sample_config 2 1 (nth 3 l z) [] (sample_reader 1000 SIntentOk) []); done|].
    apply rtc_l with (y := nth 5 l z); [apply (St_counted sample_config 2 1 (nth 4 l z) [] (sample_reader 1000 SGenOk) []); done|].
    apply rtc_l with (y := nth 6 l z).
    { apply (St_begin sample_config 2 1 (nth 5 l z)); [done|]. left. exists 2, true. done. }
    apply rtc_l with (y := nth 7 l z); [now apply (St_load_lease sample_config 2 1 (nth 6 l z))|].
    apply rtc_l with (y := nth 8 l z); [now apply (St_load_slot sample_config 2 1 (nth 7 l z) (advance_round 2 9 2 true) 5000001000 (0%nat, 0) [(0%nat, 1)] 0)|].
    apply rtc_l with (y := nth 9 l z); [now apply (St_load_slot sample_config 2 1 (nth 8 l z) (advance_round 2 9 2 true) 5000001000 (0%nat, 1) [] 0)|].
    apply rtc_once. now apply (St_decide sample_config 2 1 (nth 9 l z) (advance_round 2 9 2 true) 5000001000 1).
  - now left.
Defined.
