(* ===== verification/Waits.v ===== *)
(** * Waiting on a holder (src/src/core/directory.hpp)

    [SleepBackoff], [LockHolderWait] (how a writer waits on a cross-process
    lock) and [SeqlockReadWait] (how a reader waits out a writer), with the
    clock readings as arguments.  Times are nanoseconds of the steady clock;
    they stay far below 2^63 and are not wrapped. *)

From S2P Require Import Prelude.

Definition us (n : Z) : Z := n * 1000.

(** ** Sleeping *)

(** [SleepBackoff<FirstUs, MaxUs>]: the length of the sleep, and the next
    step. *)
Definition kBackoffFirst : Z := us 10.
Definition kBackoffMax : Z := us 1000.
Definition backoff_sleep (step now deadline : Z) : Z * Z :=
  let left := deadline - now in
  (if left <? step then left else step, if step <? kBackoffMax then step * 2 else step).

(** ** LockHolderWait *)

Inductive Step := kSpun | kSlept | kExpired | kGiveUp.

Definition kSpinFor : Z := us 20.
Definition kWakeSpinFor : Z := us 5.
Definition kConfirmFor : Z := us 2000.
Definition kPollsPerClockRead : Z := 64.

Record LockHolderWait := {
  lw_budget : Z; lw_cap : Z; lw_changed : Z; lw_started : bool; lw_confirming : bool; lw_holder : Z;
  lw_polls : Z; lw_sleeps : Z; lw_first_seen : Z; lw_deadline : Z; lw_spin_until : Z; lw_backoff : Z }.

Definition new_wait (budget cap : Z) : LockHolderWait := {|
  lw_budget := budget; lw_cap := cap; lw_changed := 0; lw_started := false; lw_confirming := false; lw_holder := 0;
  lw_polls := 0; lw_sleeps := 0; lw_first_seen := 0; lw_deadline := 0; lw_spin_until := 0;
  lw_backoff := kBackoffFirst |}.

Definition set_changed (w : LockHolderWait) (changed : Z) (started : bool) : LockHolderWait := {|
  lw_budget := lw_budget w; lw_cap := lw_cap w; lw_changed := changed; lw_started := started;
  lw_confirming := lw_confirming w; lw_holder := lw_holder w; lw_polls := lw_polls w; lw_sleeps := lw_sleeps w;
  lw_first_seen := lw_first_seen w; lw_deadline := lw_deadline w; lw_spin_until := lw_spin_until w;
  lw_backoff := lw_backoff w |}.
Definition set_pace (w : LockHolderWait) (confirming : bool) (polls sleeps spin_until backoff : Z) : LockHolderWait := {|
  lw_budget := lw_budget w; lw_cap := lw_cap w; lw_changed := lw_changed w; lw_started := lw_started w;
  lw_confirming := confirming; lw_holder := lw_holder w; lw_polls := polls; lw_sleeps := sleeps;
  lw_first_seen := lw_first_seen w; lw_deadline := lw_deadline w; lw_spin_until := spin_until;
  lw_backoff := backoff |}.

Definition restart (now : Z) (w : LockHolderWait) : LockHolderWait :=
  set_changed w (if lw_started w then lw_changed w + (now - lw_first_seen w) else lw_changed w) false.

Definition held (now : Z) (w : LockHolderWait) : Z := if lw_started w then now - lw_first_seen w else 0.

Definition new_holder (holder now : Z) (w : LockHolderWait) : Step * LockHolderWait :=
  let changed := if lw_started w then lw_changed w + (now - lw_first_seen w) else lw_changed w in
  if negb (lw_cap w =? 0) && (lw_cap w <=? changed) then (kGiveUp, set_changed w changed false)
  else (kSpun, {|
    lw_budget := lw_budget w; lw_cap := lw_cap w; lw_changed := changed; lw_started := true;
    lw_confirming := false; lw_holder := holder; lw_polls := 0; lw_sleeps := lw_sleeps w;
    lw_first_seen := now; lw_deadline := now + lw_budget w; lw_spin_until := now + kSpinFor;
    lw_backoff := kBackoffFirst |}).

(** [now] before, [woken] after the sleep. *)
Definition timed_wait (polls now woken : Z) (w : LockHolderWait) : Step * LockHolderWait :=
  if now <? lw_spin_until w then
    (kSpun, set_pace w (lw_confirming w) polls (lw_sleeps w) (lw_spin_until w) (lw_backoff w))
  else if lw_deadline w <=? now then
    if negb (lw_confirming w) then (kSpun, set_pace w true polls (lw_sleeps w) (now + kConfirmFor) (lw_backoff w))
    else (kExpired, set_pace w true polls (lw_sleeps w) (lw_spin_until w) (lw_backoff w))
  else
    let '(_, backoff) := backoff_sleep (lw_backoff w) now (lw_deadline w) in
    (kSlept, set_pace w (lw_confirming w) polls (u32 (lw_sleeps w + 1)) (woken + kWakeSpinFor) backoff).

Definition wait (holder now woken : Z) (w : LockHolderWait) : Step * LockHolderWait :=
  if lw_started w && (holder =? lw_holder w) then
    let polls := u32 (lw_polls w + 1) in
    if negb (polls mod kPollsPerClockRead =? 0)
    then (kSpun, set_pace w (lw_confirming w) polls (lw_sleeps w) (lw_spin_until w) (lw_backoff w))
    else timed_wait polls now woken w
  else new_holder holder now w.

(** What happens to a wait: the lock seen held by [h], or seen free.  The two
    readings of a call are the clock before and after its sleep. *)
Inductive event := Held (h now woken : Z) | Free (now : Z).

Definition observe (w : LockHolderWait) (e : event) : option Step * LockHolderWait :=
  match e with
  | Held h now woken => let '(s, w) := wait h now woken w in (Some s, w)
  | Free now => (None, restart now w)
  end.

Definition after (w : LockHolderWait) (l : list event) : LockHolderWait := fold_left (fun w e => (observe w e).2) l w.

Definition event_time (e : event) : Z := match e with Held _ now _ | Free now => now end.
Definition event_end (e : event) : Z := match e with Held _ _ woken => woken | Free now => now end.
(** The steady clock does not go back. *)
Fixpoint steady (t : Z) (l : list event) : Prop :=
  match l with [] => True | e :: l => t <= event_time e <= event_end e /\ steady (event_end e) l end.

Definition is_held (h : Z) (e : event) : Prop := match e with Held h' _ _ => h' = h | Free _ => False end.

(** ** SeqlockReadWait *)

Definition kFastAttempts : Z := 100.
Definition kSpinsPerAttempt : nat := Z.to_nat 1000.
Definition kBudget : Z := us 5000.
Definition kFastPhaseCap : Z := us 500.

Record SeqlockReadWait := {
  rw_attempts : Z; rw_fast_started : bool; rw_fast_start : Z; rw_deadline : Z; rw_backoff : Z }.

Definition new_read_wait : SeqlockReadWait := {|
  rw_attempts := 0; rw_fast_started := false; rw_fast_start := 0; rw_deadline := 0; rw_backoff := kBackoffFirst |}.

Definition fast_phase_past_cap (now : Z) (w : SeqlockReadWait) : bool * SeqlockReadWait :=
  if negb (rw_fast_started w) then
    (false, {| rw_attempts := rw_attempts w; rw_fast_started := true; rw_fast_start := now;
               rw_deadline := rw_deadline w; rw_backoff := rw_backoff w |})
  else (kFastPhaseCap <? now - rw_fast_start w, w).

Definition set_attempts (w : SeqlockReadWait) (n deadline backoff : Z) : SeqlockReadWait := {|
  rw_attempts := n; rw_fast_started := rw_fast_started w; rw_fast_start := rw_fast_start w;
  rw_deadline := deadline; rw_backoff := backoff |}.

(** The spin loop: the versions it would load, one per pause. *)
Fixpoint spin (version : Z) (loads : list Z) : Z :=
  match loads with
  | [] => version
  | v :: loads => if Z.even v then v else spin v loads
  end.

Definition even_version (loads : list Z) (now version : Z) (w : SeqlockReadWait) : Z * SeqlockReadWait :=
  if Z.even version then (version, w)
  else if kFastAttempts <? rw_attempts w then (version, w)
  else
    let v := spin version (take kSpinsPerAttempt loads) in
    if Z.even v then (v, w)
    else
      let '(past, w) := fast_phase_past_cap now w in
      (v, if past then set_attempts w kFastAttempts (rw_deadline w) (rw_backoff w) else w).

Definition timed_retry (now : Z) (w : SeqlockReadWait) : bool * SeqlockReadWait :=
  if rw_attempts w =? kFastAttempts then
    let deadline := now + kBudget in
    (true, set_attempts w (rw_attempts w + 1) deadline (backoff_sleep (rw_backoff w) now deadline).2)
  else if rw_deadline w <=? now then (false, w)
  else (true, set_attempts w (rw_attempts w) (rw_deadline w) (backoff_sleep (rw_backoff w) now (rw_deadline w)).2).

Definition retry (now : Z) (w : SeqlockReadWait) : bool * SeqlockReadWait :=
  if rw_attempts w <? kFastAttempts
  then (true, set_attempts w (rw_attempts w + 1) (rw_deadline w) (rw_backoff w))
  else timed_retry now w.

(** ** What the verdicts mean *)

(** A wait after the events [l], the last of which ended by [T]. *)
Record wait_ok (budget cap t0 : Z) (w : LockHolderWait) (l : list event) (T : Z) : Prop := {
  wo_budget : lw_budget w = budget /\ lw_cap w = cap;
  wo_gone : t0 <= T /\ lw_changed w <= (if lw_started w then lw_first_seen w else T) - t0;
  wo_holder : lw_started w = true -> lw_first_seen w <= T /\ lw_deadline w = lw_first_seen w + budget /\
    exists pre woken mid, l = pre ++ Held (lw_holder w) (lw_first_seen w) woken :: mid /\
      Forall (is_held (lw_holder w)) mid;
  wo_confirm : lw_started w = true -> lw_confirming w = true ->
    lw_deadline w <= T /\ lw_deadline w + kConfirmFor <= lw_spin_until w }.

Section verdicts.
Context (budget cap t0 : Z).
Abbreviation ok := (wait_ok budget cap t0).

Lemma wait_ok_new : ok (new_wait budget cap) [] t0.
Proof. split; simpl; [done | lia | done | done]. Qed.

(** Another poll of the same holder. *)
Lemma wait_ok_same w l T now woken polls sleeps spin backoff confirming :
  ok w l T -> lw_started w = true -> T <= now <= woken ->
  (confirming = true -> lw_deadline w <= woken /\ lw_deadline w + kConfirmFor <= spin) ->
  ok (set_pace w confirming polls sleeps spin backoff) (l ++ [Held (lw_holder w) now woken]) woken.
Proof.
  intros [Hb [Ht Hg] Hh Hc] Hst Hn Hcf. rewrite Hst in Hg. destruct (Hh Hst) as (Hf & Hd & pre & w' & mid & -> & Hm).
  split; simpl; rewrite ?Hst; [done | lia | | auto]. intros _. split_and!; [lia | done |].
  exists pre, w', (mid ++ [Held (lw_holder w) now woken]). rewrite <- app_assoc. split; [done|].
  apply Forall_app; split; [done|]. by constructor.
Qed.

Lemma wait_ok_observe w l T e : ok w l T -> T <= event_time e <= event_end e -> ok (observe w e).2 (l ++ [e]) (event_end e).
Proof.
  intros Hok. destruct e as [h now woken | now]; simpl; intros Hn.
  - unfold wait. destruct (lw_started w) eqn:Hst; simpl; [destruct (Z.eqb_spec h (lw_holder w)) as [->|Hne]|].
    + assert (Hkeep : lw_confirming w = true -> lw_deadline w <= woken /\ lw_deadline w + kConfirmFor <= lw_spin_until w)
        by (intros Hc; destruct (wo_confirm _ _ _ _ _ _ Hok Hst Hc); lia).
      destruct (negb (_ mod _ =? 0)); simpl; [by eapply wait_ok_same|]. unfold timed_wait.
      destruct (Z.ltb_spec now (lw_spin_until w)); simpl; [by eapply wait_ok_same|].
      destruct (Z.leb_spec (lw_deadline w) now); [destruct (lw_confirming w) eqn:Hc; simpl|];
        try (eapply wait_ok_same; [done.. |]; intros; try lia; auto).
      destruct (wo_confirm _ _ _ _ _ _ Hok Hst H1). lia.
    + unfold new_holder. rewrite Hst. destruct (negb (_ =? 0) && (_ <=? _)); simpl.
      * split; simpl; [apply Hok | | done | done]. destruct (wo_gone _ _ _ _ _ _ Hok) as [? Hg]. rewrite Hst in Hg. lia.
      * destruct (wo_gone _ _ _ _ _ _ Hok) as [? Hg], (wo_budget _ _ _ _ _ _ Hok). rewrite Hst in Hg.
        split; simpl; [done | lia | | done]. intros _. split_and!; [lia | congruence |]. by exists l, woken, [].
    + unfold new_holder. rewrite Hst. destruct (negb (_ =? 0) && (_ <=? _)); simpl.
      * split; simpl; [apply Hok | | done | done]. destruct (wo_gone _ _ _ _ _ _ Hok) as [? Hg]. rewrite Hst in Hg. lia.
      * destruct (wo_gone _ _ _ _ _ _ Hok) as [? Hg], (wo_budget _ _ _ _ _ _ Hok). rewrite Hst in Hg.
        split; simpl; [done | lia | | done]. intros _. split_and!; [lia | congruence |]. by exists l, woken, [].
  - split; simpl; [apply Hok | | done | done]. destruct (wo_gone _ _ _ _ _ _ Hok) as [? Hg].
    destruct (lw_started w); lia.
Qed.

Lemma wait_ok_after l : forall w l0 T, ok w l0 T -> steady T l -> exists T', ok (after w l) (l0 ++ l) T' /\ T <= T' /\
  forall e, steady T (l ++ [e]) -> T' <= event_time e <= event_end e.
Proof.
  induction l as [|e l IH]; intros w l0 T Hok Hs; simpl in *.
  - exists T. rewrite app_nil_r. split_and!; [done | lia |]. tauto.
  - destruct Hs as [He Hs]. destruct (IH _ _ _ (wait_ok_observe _ _ _ e Hok He) Hs) as (T' & Hok' & Hle & Hnext).
    exists T'. rewrite <- app_assoc in Hok'. split_and!; [done | lia |]. intros e' [_ H]. auto.
Qed.

(** A waiter gives a holder up for stuck only when that one holder was
    seen in every poll, without a free lock or another holder in between, for
    the whole budget and the confirmation after it; and it gives up waiting
    only when the wait is capped and has lasted at least the cap. *)
Theorem wait_verdicts l h now woken :
  0 <= cap -> steady t0 (l ++ [Held h now woken]) ->
  let verdict := (wait h now woken (after (new_wait budget cap) l)).1 in
  (verdict = kExpired -> exists pre first w mid,
     l = pre ++ Held h first w :: mid /\ Forall (is_held h) mid /\ budget + kConfirmFor <= now - first) /\
  (verdict = kGiveUp -> 0 < cap <= now - t0).
Proof.
  intros Hcap Hs verdict.
  assert (Hl : steady t0 l).
  { clear -Hs. revert t0 Hs. induction l as [|e l IH]; simpl; [done|]. intros t [He Hs]. split; [done|]. by apply IH. }
  destruct (wait_ok_after l _ _ _ wait_ok_new Hl) as (T & Hok & HT & Hnext).
  specialize (Hnext _ Hs). simpl in Hok, Hnext. unfold verdict. clear verdict.
  set (w := after (new_wait budget cap) l) in *. destruct (wo_budget _ _ _ _ _ _ Hok) as [Hb Hc].
  destruct (wo_gone _ _ _ _ _ _ Hok) as [_ Hg].
  unfold wait, new_holder, timed_wait. destruct (lw_started w) eqn:Hst; simpl.
  - destruct (wo_holder _ _ _ _ _ _ Hok Hst) as (Hf & Hd & pre & w' & mid & Hl' & Hm).
    destruct (Z.eqb_spec h (lw_holder w)) as [->|].
    + destruct (negb (_ mod _ =? 0)); simpl; [done|]. destruct (Z.ltb_spec now (lw_spin_until w)); simpl; [done|].
      destruct (Z.leb_spec (lw_deadline w) now); simpl; [|done].
      destruct (lw_confirming w) eqn:Hcf; simpl; [|done]. split; [|done]. intros _.
      destruct (wo_confirm _ _ _ _ _ _ Hok Hst Hcf). exists pre, (lw_first_seen w), w', mid. split_and!; [done.. | lia].
    + destruct (negb (_ =? 0) && (_ <=? _)) eqn:E; simpl; [|done]. split; [done|]. intros _. rewrite Hc in E. lia.
  - destruct (negb (_ =? 0) && (_ <=? _)) eqn:E; simpl; [|done]. split; [done|]. intros _. rewrite Hc in E. lia.
Qed.
End verdicts.

(** ** A stuck holder is found out *)

Fixpoint verdicts (w : LockHolderWait) (l : list event) : list (option Step) :=
  match l with [] => [] | e :: l => (observe w e).1 :: verdicts (observe w e).2 l end.

Lemma verdicts_app w l l' : verdicts w (l ++ l') = verdicts w l ++ verdicts (after w l) l'.
Proof. revert w. induction l as [|e l IH]; intros w; simpl; [done|]. by rewrite IH. Qed.

Lemma after_app w l l' : after w (l ++ l') = after (after w l) l'.
Proof. apply fold_left_app. Qed.

Definition polled (w : LockHolderWait) (polls : Z) : LockHolderWait :=
  set_pace w (lw_confirming w) polls (lw_sleeps w) (lw_spin_until w) (lw_backoff w).

(** Between two clock readings only the poll count moves. *)
Lemma after_polls h l : forall w, lw_started w = true -> lw_holder w = h -> fits 32 (lw_polls w) ->
  Forall (is_held h) l -> Z.of_nat (length l) <= 63 - lw_polls w mod 64 ->
  after w l = polled w (u32 (lw_polls w + Z.of_nat (length l))) .
Proof.
  induction l as [|e l IH]; intros w Hst Hh Hp Hl Hlen; simpl in *.
  - unfold polled, u32. rewrite Z.add_0_r, wrap_small by done. by destruct w.
  - apply Forall_cons_1 in Hl as [He Hl]. destruct e as [h' now woken|]; [|done]. simpl in He. subst h'.
    assert (E : (wait h now woken w).2 = polled w (u32 (lw_polls w + 1))).
    { unfold wait. rewrite Hst, Hh, Z.eqb_refl. simpl. destruct (Z.eqb_spec (u32 (lw_polls w + 1) mod kPollsPerClockRead) 0) as [E|]; [|done].
      exfalso. unfold u32, wrap, kPollsPerClockRead in E. change (2 ^ 32) with 4294967296 in E. Z.to_euclidean_division_equations; lia. }
    simpl. destruct (wait h now woken w) as [s w'] eqn:Ew. simpl in *. subst w'.
    rewrite IH; unfold polled, set_pace; simpl; [| done | done | apply wrap_fits; lia | done |].
    + f_equal. unfold u32, wrap. rewrite Zplus_mod_idemp_l. f_equal. lia.
    + unfold u32, wrap. change (2 ^ 32) with 4294967296. Z.to_euclidean_division_equations; lia.
Qed.

(** The poll that reads the clock. *)
Lemma clock_read h l now woken w : lw_started w = true -> lw_holder w = h -> fits 32 (lw_polls w) ->
  Forall (is_held h) l -> Z.of_nat (length l) = 63 - lw_polls w mod 64 ->
  exists p, fits 32 p /\ p mod 64 = 0 /\ wait h now woken (after w l) = timed_wait p now woken w.
Proof.
  intros Hst Hh Hp Hl Hlen. exists (u32 (u32 (lw_polls w + Z.of_nat (length l)) + 1)).
  assert (Hz : u32 (u32 (lw_polls w + Z.of_nat (length l)) + 1) mod 64 = 0).
  { unfold u32, wrap. change (2 ^ 32) with 4294967296. Z.to_euclidean_division_equations; lia. }
  split_and!; [apply wrap_fits; lia | done |]. rewrite (after_polls h) by (done || lia). unfold wait, polled. simpl.
  rewrite Hst, Hh, Z.eqb_refl. simpl. unfold kPollsPerClockRead. rewrite Hz. simpl.
  unfold timed_wait, set_pace. simpl. done.
Qed.

Lemma is_held_split h (l : list event) n : Forall (is_held h) l -> (n < length l)%nat ->
  exists a now woken b, l = a ++ Held h now woken :: b /\ length a = n /\ Forall (is_held h) a /\ Forall (is_held h) b.
Proof.
  intros Hl Hn. destruct (lookup_lt_is_Some_2 l n Hn) as [e He]. pose proof (Forall_lookup_1 _ _ _ _ Hl He) as Hh.
  destruct e as [h' now woken|]; [|done]. simpl in Hh. subst h'.
  exists (take n l), now, woken, (drop (S n) l). rewrite take_drop_middle by done.
  split_and!; [done | rewrite length_take; lia | by apply Forall_take | by apply Forall_drop].
Qed.

(** A holder that stays is found out: whatever the wait has seen before,
    128 further polls that find the same holder, the first 64 past its budget
    and the other 64 a confirmation period later, report it as expired. *)
Theorem stuck_holder_expires w h l1 l2 late :
  lw_started w = true -> lw_holder w = h -> fits 32 (lw_polls w) ->
  Forall (is_held h) l1 -> Forall (is_held h) l2 -> length l1 = 64%nat -> length l2 = 64%nat ->
  Forall (fun e => lw_deadline w <= event_time e /\ lw_spin_until w <= event_time e /\ event_time e <= late) l1 ->
  Forall (fun e => late + kConfirmFor <= event_time e) l2 ->
  Some kExpired ∈ verdicts w (l1 ++ l2).
Proof.
  intros Hst Hh Hp H1 H2 Hn1 Hn2 Ht1 Ht2.
  pose proof (Z.mod_pos_bound (lw_polls w) 64 ltac:(lia)) as Hm.
  destruct (is_held_split h l1 (Z.to_nat (63 - lw_polls w mod 64)) H1 ltac:(lia)) as (a & now & woken & b & -> & Ha & Hfa & Hfb).
  destruct (is_held_split h l2 (length a) H2) as (c & now2 & woken2 & d & -> & Hc & Hfc & Hfd);
    [rewrite length_app in Hn1; simpl in Hn1; lia|].
  apply Forall_app in Ht1 as [_ [Hnow _]%Forall_cons_1], Ht2 as [_ [Hnow2 _]%Forall_cons_1]. simpl in Hnow, Hnow2.
  destruct (clock_read h a now woken w) as (p & Hpf & Hp0 & Ew); [done.. | lia |].
  rewrite <- !app_assoc, <- app_comm_cons, verdicts_app. apply elem_of_app. right. simpl. rewrite Ew.
  unfold timed_wait. destruct (Z.ltb_spec now (lw_spin_until w)); [lia|].
  destruct (Z.leb_spec (lw_deadline w) now); [|lia]. destruct (lw_confirming w); simpl; [left|].
  rewrite app_assoc, verdicts_app. right. apply elem_of_app. right. simpl.
  set (w' := set_pace w true p (lw_sleeps w) (now + kConfirmFor) (lw_backoff w)).
  destruct (clock_read h (b ++ c) now2 woken2 w') as (p' & _ & _ & Ew'); simpl; [done.. | | |].
  - by apply Forall_app.
  - rewrite !length_app in *. simpl in *. lia.
  - rewrite Ew'. unfold timed_wait. simpl. destruct (Z.ltb_spec now2 (now + kConfirmFor)); [lia|].
    unfold kConfirmFor, us in *. destruct (Z.leb_spec (lw_deadline w) now2); [|lia]. left.
Qed.

(** ** A reader gives up late *)

Inductive read_op := Retry (now : Z) | Even (loads : list Z) (now version : Z).

Definition read_op_run (w : SeqlockReadWait) (o : read_op) : SeqlockReadWait :=
  match o with Retry now => (retry now w).2 | Even loads now version => (even_version loads now version w).2 end.

(** A probe reports Busy only when its budget has passed since a retry that
    ended the clock-free phase. *)
Definition armed (w : SeqlockReadWait) (l : list read_op) : Prop :=
  rw_attempts w <= kFastAttempts \/
  (rw_attempts w = kFastAttempts + 1 /\ exists t, Retry t ∈ l /\ rw_deadline w = t + kBudget).

Lemma armed_step w l o : armed w l -> armed (read_op_run w o) (l ++ [o]).
Proof.
  intros Hw. assert (Hkeep : armed w (l ++ [o])).
  { destruct Hw as [|(? & t & ? & ?)]; [by left|]. right. split; [done|]. exists t. set_solver. }
  destruct o as [now | loads now version]; simpl.
  - unfold retry, timed_retry. destruct (Z.ltb_spec (rw_attempts w) kFastAttempts); [left; simpl; lia|].
    destruct (Z.eqb_spec (rw_attempts w) kFastAttempts).
    + right. simpl. split; [lia|]. exists now. split; [set_solver | done].
    + destruct (_ <=? _); simpl; [done|]. destruct Hkeep as [|(? & t & ? & ?)]; [lia|]. right. simpl. eauto.
  - unfold even_version, fast_phase_past_cap. destruct (Z.even version); [done|].
    destruct (Z.ltb_spec kFastAttempts (rw_attempts w)); [done|]. destruct (Z.even _); [done|].
    destruct (rw_fast_started w); simpl; [destruct (_ <? _); simpl|]; left; simpl; lia.
Qed.

Lemma read_gives_up_late l now :
  (retry now (fold_left read_op_run l new_read_wait)).1 = false -> exists t, Retry t ∈ l /\ t + kBudget <= now.
Proof.
  assert (H : armed (fold_left read_op_run l new_read_wait) l).
  { induction l as [|o l IH] using rev_ind; [left; simpl; unfold kFastAttempts; lia|].
    rewrite fold_left_app. simpl. by apply armed_step. }
  unfold retry, timed_retry. destruct (Z.ltb_spec (rw_attempts (fold_left read_op_run l new_read_wait)) kFastAttempts); [done|].
  destruct (Z.eqb_spec (rw_attempts (fold_left read_op_run l new_read_wait)) kFastAttempts); [done|].
  destruct (Z.leb_spec (rw_deadline (fold_left read_op_run l new_read_wait)) now); [|done]. intros _.
  destruct H as [|(_ & t & Ht & Hd)]; [lia|]. exists t. split; [done|lia].
Qed.

(** ** Witnesses *)

Definition poll (h t : Z) : event := Held h t t.

Lemma wait_verdicts_witness :
  (wait 7 (us 260000) (us 260000) (after (new_wait (us 250000) (us 250000))
     (map (poll 7) (repeat 0 1 ++ repeat (us 251000) 64 ++ repeat (us 260000) 63)))).1 = kExpired /\
  exists pre first w mid,
    map (poll 7) (repeat 0 1 ++ repeat (us 251000) 64 ++ repeat (us 260000) 63) = pre ++ Held 7 first w :: mid /\
    Forall (is_held 7) mid /\ us 250000 + kConfirmFor <= us 260000 - first.
Proof.
  assert (E : (wait 7 (us 260000) (us 260000) (after (new_wait (us 250000) (us 250000))
     (map (poll 7) (repeat 0 1 ++ repeat (us 251000) 64 ++ repeat (us 260000) 63)))).1 = kExpired)
    by (vm_compute; reflexivity).
  split; [exact E|].
  apply (wait_verdicts (us 250000) (us 250000) 0 (map (poll 7) (repeat 0 1 ++ repeat (us 251000) 64 ++ repeat (us 260000) 63))
    7 (us 260000) (us 260000)); [by vm_compute | | exact E].
  vm_compute. repeat split; discriminate.
Defined.

Lemma stuck_holder_expires_witness :
  Some kExpired ∈ verdicts (wait 7 0 0 (new_wait (us 250000) 0)).2
    (replicate 64 (poll 7 (us 251000)) ++ replicate 64 (poll 7 (us 260000))).
Proof.
  apply (stuck_holder_expires _ 7 _ _ (us 251000)).
  - reflexivity.
  - reflexivity.
  - split; [discriminate | reflexivity].
  - by apply Forall_replicate.
  - by apply Forall_replicate.
  - reflexivity.
  - reflexivity.
  - apply Forall_replicate. repeat split; discriminate.
  - apply Forall_replicate. discriminate.
Defined.
