(* ===== verification/TokenLock.v ===== *)
(** * The cross-process token locks (src/src/core/mmap_directory.cpp)

    The write lock and the phase lock of a shared stripe: a lock byte and a
    16-bit acquisition generation, and for the write lock the holder's PID.
    The byte holds a token of the generation its holder claimed; with a
    liveness slot, the token also encodes the slot.

    First the encoding, then the protocol as its shared accesses in one total
    order (the byte and the generation are accessed seq_cst): any number of
    processes acquire ([try_take_token_lock]), watch a holder
    ([acquire_write_lock], [acquire_phase_lock_slow]), recover the lock from it
    ([recover_token_lock]), revalidate and release, and may die between any two
    accesses.  Time is left to the environment: a watcher that saw one holder
    twice may give up on it, find it dead or escalate at any moment. *)

From S2P Require Import Prelude.
Local Open Scope cyc_scope.

(** ** Tokens *)

Definition kLockRecoveringA : Z := 254.
Definition kLockRecoveringB : Z := 255.
Definition kSlots : Z := 251.
Definition kNoSlot : Z := -1.
Definition kTokenRing : Z := 252.

Definition lock_token (generation : Z) : Z := u8 (1 + generation mod 253).

Definition plain_ring_index (generation : Z) : Z := u32 (lock_token generation + kTokenRing - 2) mod kTokenRing.

Definition slot_lock_token (generation slot : Z) : Z :=
  u8 (2 + u32 (plain_ring_index generation + 1 + slot) mod kTokenRing).

Definition slot_of_token (value generation : Z) : Z :=
  if (value <? 2) || (253 <? value) then kNoSlot
  else
    let slot := u32 (value - 2 + 2 * kTokenRing - plain_ring_index generation - 1) mod kTokenRing in
    if slot <? kSlots then slot else kNoSlot.

Definition recovery_claim (observed : Z) : Z :=
  if observed =? kLockRecoveringA then kLockRecoveringB else kLockRecoveringA.

Definition token_lock_holder (value generation pid : Z) : Z :=
  (value << 48) .| (generation << 32) .| pid.

(** The token a process with this slot stores. *)
Definition token_of (slot generation : Z) : Z :=
  if slot <? 0 then lock_token generation else slot_lock_token generation slot.

(** ** The protocol *)

(** [t_bump] is which bump of the generation the holder claimed, counted
    without wrapping; the code sees [t_generation], its low 16 bits. *)
Record Token := { t_generation : Z; t_value : Z; t_bump : Z }.

Inductive purpose := ForWrite | ForRelease.
Inductive reason := ProvenDead | Escalated.

(** Where a process is; the comment is the access that comes next. *)
Inductive pc :=
  | Idle
  | Contend                                   (* load the generation *)
  | Sampled (expect : Z)                      (* CAS the byte from 0 *)
  | Taken (held : Z)                          (* re-read the generation *)
  | Reread (held after_cas : Z)               (* bump the generation *)
  | Fixing (held : Z) (t : Token)             (* CAS the byte to the claimed token *)
  | Lost                                      (* load the byte *)
  | Publishing (t : Token)                    (* store the PID *)
  | Holding (t : Token)
  | CheckGen (w : purpose) (t : Token)        (* load the generation *)
  | CheckByte (w : purpose) (t : Token) (ok : bool)   (* load the byte *)
  | CheckOwner (w : purpose) (t : Token) (ok : bool)  (* load the PID *)
  | Validated (t : Token)                     (* a shared side effect *)
  | Releasing (t : Token)                     (* CAS the PID to 0 *)
  | Freeing (t : Token)                       (* CAS the byte to 0 *)
  | Refused (observed : Z)                    (* load the generation *)
  | Saw (observed gen : Z)                    (* load the PID *)
  | Watched (observed gen pid : Z)            (* one holder, seen again *)
  | Recover (stuck gen : Z)                   (* load the generation *)
  | Claiming (stuck : Z)                      (* CAS the byte to a claim *)
  | Bumping                                   (* bump the generation *)
  | Clearing                                  (* store PID 0 *)
  | Unlocking.                                (* store byte 0 *)

(** A process: where it is, the holder its wait has been watching, and
    whether it lives. *)
Record Proc := { p_pc : pc; p_seen : option Z; p_live : bool }.

(** The shared words, the number of bumps so far, and the recoveries claimed,
    in all and after an escalation. *)
Record Sys := {
  s_byte : Z; s_gen : Z; s_owner : Z;
  s_bumps : Z; s_recoveries : Z; s_escalations : Z;
  s_procs : gmap nat Proc }.

(** What a process does next: its next access, or one of the choices its
    caller, its clock or the kernel makes. *)
Inductive action :=
  | Start       (* acquire_*_lock, try_acquire_*_lock *)
  | Go          (* the next access *)
  | GiveUp      (* refused: the wait gave up, or it was a single attempt *)
  | Check       (* revalidate_write_lock before a side effect *)
  | Release
  | Probe       (* the write lock's liveness probe *)
  | Escalate    (* the budget is spent *)
  | Die.

Inductive lock_kind := WriteLock | PhaseLock.

Section protocol.
Context (kind : lock_kind) (pid slot : nat -> Z).

Definition put (s : Sys) (p : nat) (c : pc) (seen : option Z) : Sys := {|
  s_byte := s_byte s; s_gen := s_gen s; s_owner := s_owner s; s_bumps := s_bumps s;
  s_recoveries := s_recoveries s; s_escalations := s_escalations s;
  s_procs := <[p := {| p_pc := c; p_seen := seen; p_live := true |}]> (s_procs s) |}.
Definition set_words (s : Sys) (b g o : Z) : Sys := {|
  s_byte := b; s_gen := g; s_owner := o; s_bumps := s_bumps s;
  s_recoveries := s_recoveries s; s_escalations := s_escalations s; s_procs := s_procs s |}.
Definition set_byte (s : Sys) (b : Z) : Sys := set_words s b (s_gen s) (s_owner s).
Definition set_owner (s : Sys) (o : Z) : Sys := set_words s (s_byte s) (s_gen s) o.

(** [gen.fetch_add(1)]. *)
Definition bump (s : Sys) : Sys := {|
  s_byte := s_byte s; s_gen := u16 (s_gen s + 1); s_owner := s_owner s; s_bumps := s_bumps s + 1;
  s_recoveries := s_recoveries s; s_escalations := s_escalations s; s_procs := s_procs s |}.
Definition claim (s : Sys) (stuck : Z) : Sys := {|
  s_byte := recovery_claim stuck; s_gen := s_gen s; s_owner := s_owner s; s_bumps := s_bumps s;
  s_recoveries := s_recoveries s + 1; s_escalations := s_escalations s; s_procs := s_procs s |}.
Definition escalate (s : Sys) : Sys := {|
  s_byte := s_byte s; s_gen := s_gen s; s_owner := s_owner s; s_bumps := s_bumps s;
  s_recoveries := s_recoveries s; s_escalations := s_escalations s + 1; s_procs := s_procs s |}.

Definition kill (s : Sys) (p : nat) (pr : Proc) : Sys := {|
  s_byte := s_byte s; s_gen := s_gen s; s_owner := s_owner s; s_bumps := s_bumps s;
  s_recoveries := s_recoveries s; s_escalations := s_escalations s;
  s_procs := <[p := {| p_pc := p_pc pr; p_seen := p_seen pr; p_live := false |}]> (s_procs s) |}.

Definition acquired (t : Token) : pc := match kind with WriteLock => Publishing t | PhaseLock => Holding t end.

(** The claim of a generation, after the winning CAS and the re-read. *)
Definition claim_generation (s : Sys) (p : nat) (held after_cas : Z) : Sys * pc :=
  let s := bump s in
  let claimed := s_gen s in
  let t := {| t_generation := claimed; t_value := token_of (slot p) claimed; t_bump := s_bumps s |} in
  (s, if negb (claimed =? u16 (after_cas + 1)) then Lost
      else if negb (t_value t =? held) then Fixing held t else acquired t).

(** What a revalidation that ended well or badly leads to: a holder found
    usurped drops its write, and its release touches nothing. *)
Definition revalidated (w : purpose) (t : Token) (ok : bool) : pc :=
  if negb ok then Idle else match w with ForWrite => Validated t | ForRelease => Releasing t end.

(** The kernel drops a liveness slot's lock when its process dies: no live
    process holds slot [k]. *)
Definition probe_dead (s : Sys) (k : Z) : bool :=
  forallb (fun '(q, pr) => negb (slot q =? k) || negb (p_live pr)) (map_to_list (s_procs s)).

Definition write_lock_holder_proven_dead (s : Sys) (p : nat) (value generation holder : Z) : bool :=
  let k := slot_of_token value generation in
  negb (holder =? 0) && (0 <=? k) && negb (k =? slot p) && probe_dead s k.

(** The next access of process [p] at [c]. *)
Definition next (s : Sys) (p : nat) (c : pc) (seen : option Z) : option Sys :=
  let go c := Some (put s p c seen) in
  let again := Some (put s p Contend None) in
  match c with
  | Idle | Holding _ => None
  | Contend => go (Sampled (u16 (s_gen s + 1)))
  | Sampled expect =>
      let held := token_of (slot p) expect in
      if s_byte s =? 0 then Some (put (set_byte s held) p (Taken held) seen) else go (Refused (s_byte s))
  | Taken held => go (Reread held (s_gen s))
  | Reread held after_cas =>
      let (s, c) := claim_generation s p held after_cas in Some (put s p c seen)
  | Fixing held t =>
      if s_byte s =? held then Some (put (set_byte s (t_value t)) p (acquired t) seen)
      else go (Refused (s_byte s))
  | Lost => go (Refused (s_byte s))
  | Publishing t => Some (put (set_owner s (pid p)) p (Holding t) seen)
  | CheckGen w t =>
      let ok := s_gen s =? t_generation t in
      match kind with
      | WriteLock => go (CheckByte w t ok)
      | PhaseLock => go (if ok then Freeing t else Idle)
      end
  | CheckByte w t ok => go (CheckOwner w t (ok && (s_byte s =? t_value t)))
  | CheckOwner w t ok => go (revalidated w t (ok && (s_owner s =? pid p)))
  | Validated t => go (Holding t)
  | Releasing t => Some (put (if s_owner s =? pid p then set_owner s 0 else s) p (Freeing t) seen)
  | Freeing t => Some (put (if s_byte s =? t_value t then set_byte s 0 else s) p Idle None)
  | Refused observed => if observed =? 0 then again else go (Saw observed (s_gen s))
  | Saw observed g =>
      let holder := match kind with WriteLock => s_owner s | PhaseLock => 0 end in
      let id := token_lock_holder observed g holder in
      if bool_decide (seen = Some id) then go (Watched observed g holder) else Some (put s p Contend (Some id))
  | Watched _ _ _ => go Contend
  | Recover stuck g => if s_gen s =? g then go (Claiming stuck) else again
  | Claiming stuck => if s_byte s =? stuck then Some (put (claim s stuck) p Bumping seen) else again
  | Bumping => Some (put (bump s) p (match kind with WriteLock => Clearing | PhaseLock => Unlocking end) seen)
  | Clearing => Some (put (set_owner s 0) p Unlocking seen)
  | Unlocking => Some (put (set_byte s 0) p Contend None)
  end.

Definition exec (p : nat) (a : action) (s : Sys) : option Sys :=
  pr ← s_procs s !! p;
  if negb (p_live pr) then None
  else
    let go c := Some (put s p c (p_seen pr)) in
    match a, p_pc pr with
    | Go, c => next s p c (p_seen pr)
    | Die, c => Some (kill s p pr)
    | Start, Idle => Some (put s p Contend None)
    | GiveUp, Refused _ | GiveUp, Saw _ _ => Some (put s p Idle None)
    | Check, Holding t => match kind with WriteLock => go (CheckGen ForWrite t) | PhaseLock => None end
    | Release, Holding t => go (CheckGen ForRelease t)
    | Probe, Watched observed g holder =>
        match kind with
        | WriteLock => if write_lock_holder_proven_dead s p observed g holder then go (Recover observed g) else None
        | PhaseLock => None
        end
    | Escalate, Watched observed g _ => Some (put (escalate s) p (Recover observed g) (p_seen pr))
    | _, _ => None
    end.

Definition step (s s' : Sys) : Prop := exists p a, exec p a s = Some s'.

Fixpoint run (l : list (nat * action)) (s : Sys) : option Sys :=
  match l with [] => Some s | (p, a) :: l => s ← exec p a s; run l s end.

Record initial (s : Sys) : Prop := {
  i_words : s_byte s = 0 /\ s_owner s = 0 /\ s_gen s = u16 (s_bumps s);
  i_counts : 0 <= s_bumps s /\ s_recoveries s = 0 /\ s_escalations s = 0;
  i_idle : map_Forall (fun _ pr => p_pc pr = Idle) (s_procs s) }.

(** The three words are [p]'s under token [t]: what the loads of
    [revalidate_write_lock] look for, one after the other, in [next]. *)
Definition revalidates (s : Sys) (p : nat) (t : Token) : bool :=
  (s_gen s =? t_generation t) && (s_byte s =? t_value t) && (s_owner s =? pid p).

(** The token of a process that has claimed a generation and not given the
    lock back. *)
Definition token_at (c : pc) : option Token :=
  match c with
  | Fixing _ t | Publishing t | Holding t | CheckGen _ t | CheckByte _ t _ | CheckOwner _ t _ | Validated t
  | Releasing t | Freeing t => Some t
  | _ => None
  end.
Definition holds (s : Sys) (p : nat) (t : Token) : Prop :=
  exists pr, s_procs s !! p = Some pr /\ token_at (p_pc pr) = Some t.

(** Past the first load of a revalidation, and not refused: the process is on
    its way to a side effect or to the release, or there. *)
Definition passing (c : pc) : bool :=
  match c with
  | CheckByte _ _ ok | CheckOwner _ _ ok => ok
  | Validated _ | Releasing _ | Freeing _ => true
  | _ => false
  end.

(** Between the winning CAS and the release. *)
Definition inside (c : pc) : bool :=
  match c with Taken _ | Reread _ _ => true | _ => match token_at c with Some _ => true | None => false end end.
End protocol.

(** ** The encoding *)

Ltac token_arith :=
  unfold slot_of_token, slot_lock_token, plain_ring_index, lock_token, token_of, kTokenRing, kSlots, kNoSlot,
    u8, u32, wrap;
  change (2 ^ 8) with 256; change (2 ^ 32) with 4294967296.

Lemma lock_token_range g : 1 <= lock_token g <= 253 /\ lock_token g = 1 + g mod 253.
Proof. token_arith. Z.to_euclidean_division_equations; lia. Qed.

Lemma ring_index_range g :
  0 <= plain_ring_index g < 252 /\
  plain_ring_index g = (if lock_token g =? 1 then 251 else lock_token g - 2).
Proof.
  destruct (lock_token_range g) as [H _]. unfold plain_ring_index, kTokenRing, u32, wrap.
  change (2 ^ 32) with 4294967296. destruct (Z.eqb_spec (lock_token g) 1); Z.to_euclidean_division_equations; lia.
Qed.

Lemma slot_token_range g k : 0 <= k < kSlots ->
  2 <= slot_lock_token g k <= 253 /\
  slot_lock_token g k = 2 + (plain_ring_index g + 1 + k) mod 252.
Proof.
  intros Hk. destruct (ring_index_range g) as [H _]. unfold slot_lock_token, kSlots, kTokenRing, u32, u8, wrap in *.
  change (2 ^ 32) with 4294967296. change (2 ^ 8) with 256. Z.to_euclidean_division_equations; lia.
Qed.

Lemma token_of_nonzero k g : token_of k g <> 0.
Proof.
  unfold token_of. destruct (k <? 0); [destruct (lock_token_range g); lia|].
  unfold slot_lock_token, u8, wrap, kTokenRing. change (2 ^ 8) with 256.
  generalize (u32 (plain_ring_index g + 1 + k)). intros x. Z.to_euclidean_division_equations; lia.
Qed.

(** A slot token decodes to its slot, for every generation and slot; it is
    never the plain token of its generation, nor 0, 1 or a recovery claim; and
    of those none decodes to a slot.  So a waiter never probes the slot of a
    process that stored none. *)
Theorem slot_tokens_decode g k :
  0 <= k < kSlots ->
  slot_of_token (slot_lock_token g k) g = k /\ 2 <= slot_lock_token g k <= 253 /\
  slot_lock_token g k <> lock_token g /\ slot_of_token (lock_token g) g = kNoSlot /\
  slot_of_token 0 g = kNoSlot /\ slot_of_token 1 g = kNoSlot /\
  slot_of_token kLockRecoveringA g = kNoSlot /\ slot_of_token kLockRecoveringB g = kNoSlot.
Proof.
  intros Hk. destruct (slot_token_range g k Hk) as [Hr Hv], (ring_index_range g) as [Hi Hp], (lock_token_range g) as [Hl _].
  unfold kSlots in Hk. split_and!; [| lia | lia | | | reflexivity..].
  - unfold slot_of_token, kTokenRing, kSlots, kNoSlot, u32, wrap. rewrite Hv. change (2 ^ 32) with 4294967296.
    destruct (Z.ltb_spec (2 + (plain_ring_index g + 1 + k) mod 252) 2), (Z.ltb_spec 253 (2 + (plain_ring_index g + 1 + k) mod 252));
      simpl; try (Z.to_euclidean_division_equations; lia).
    match goal with |- (if ?x <? _ then _ else _) = _ => assert (x = k) as -> end;
      [Z.to_euclidean_division_equations; lia|]. destruct (Z.ltb_spec k 251); lia.
  - rewrite Hv. destruct (Z.eqb_spec (lock_token g) 1); rewrite Hp; Z.to_euclidean_division_equations; lia.
  - unfold slot_of_token, kTokenRing, kSlots, kNoSlot, u32, wrap. change (2 ^ 32) with 4294967296.
    destruct (Z.ltb_spec (lock_token g) 2), (Z.ltb_spec 253 (lock_token g)); simpl; try done; try lia.
    rewrite Hp. destruct (Z.eqb_spec (lock_token g) 1); [lia|].
    match goal with |- (if ?x <? _ then _ else _) = _ => assert (x = 251) as -> end;
      [Z.to_euclidean_division_equations; lia|]. reflexivity.
Qed.

(** The identity a waiter watches tells any two holders apart. *)
Lemma holder_identity_injective v g o v' g' o' :
  fits 8 v -> fits 16 g -> fits 32 o -> fits 8 v' -> fits 16 g' -> fits 32 o' ->
  token_lock_holder v g o = token_lock_holder v' g' o' -> v = v' /\ g = g' /\ o = o'.
Proof.
  intros Hv Hg Ho Hv' Hg' Ho'. unfold token_lock_holder.
  assert (E : forall v g o, fits 8 v -> fits 16 g -> fits 32 o ->
    (v << 48) .| (g << 32) .| o = v * 2 ^ 48 + g * 2 ^ 32 + o).
  { clear. intros v g o Hv Hg Ho.
    rewrite <- Z.lor_assoc, (Z.lor_comm (g << 32)), lor_shift_add, Z.lor_comm, lor_shift_add by
      (lia || done || (unfold fits in *; lia)). lia. }
  rewrite !E by done. unfold fits in *. lia.
Qed.

(** ** Generations are claimed once *)

Section safety.
Context (kind : lock_kind) (pid slot : nat -> Z).
Abbreviation exec := (exec kind pid slot).
Abbreviation step := (step kind pid slot).

(** What one access does to the generation and to its process's token. *)
Definition claims (s s' : Sys) (pr pr' : Proc) : Prop :=
  (s_bumps s' = s_bumps s /\ s_gen s' = s_gen s /\
     (token_at (p_pc pr') = None \/ token_at (p_pc pr') = token_at (p_pc pr))) \/
  (s_bumps s' = s_bumps s + 1 /\ s_gen s' = u16 (s_gen s + 1) /\
     forall t, token_at (p_pc pr') = Some t -> t_bump t = s_bumps s' /\ t_generation t = s_gen s').

Ltac exec_cases :=
  repeat match goal with
  | H : context [if ?b then _ else _] |- _ => destruct b eqn:?
  | H : context [match ?x with WriteLock => _ | PhaseLock => _ end] |- _ => destruct x eqn:?
  end; simplify_eq/=.

Lemma exec_shape p a s s' : exec p a s = Some s' ->
  exists pr pr', s_procs s !! p = Some pr /\ p_live pr = true /\ s_procs s' = <[p := pr']> (s_procs s) /\
    claims s s' pr pr' /\ s_recoveries s <= s_recoveries s'.
Proof.
  unfold TokenLock.exec. destruct (s_procs s !! p) as [[c seen live]|] eqn:E; [|done]. simpl. intros H.
  destruct live; simpl in H; [|done]. exists {| p_pc := c; p_seen := seen; p_live := true |}.
  destruct a, c; simpl in H; try discriminate; unfold claim_generation, acquired, revalidated in H; simpl in H;
    exec_cases;
    eexists; (split; [reflexivity|]); (split; [reflexivity|]); (split; [reflexivity|]); (split; [|simpl; lia]);
    solve [ left; simpl; auto
          | left; simpl; destruct w; auto
          | right; simpl; split; [lia|]; split; [reflexivity|]; intros ? [= <-]; simpl; auto
          | right; simpl; split; [lia|]; split; [reflexivity|]; intros ? [=] ].
Qed.

Record claimed_once (s : Sys) : Prop := {
  co_gen : s_gen s = u16 (s_bumps s) /\ 0 <= s_bumps s;
  co_token : forall p t, holds s p t -> t_generation t = u16 (t_bump t) /\ 0 <= t_bump t <= s_bumps s;
  co_unique : forall p q t u, holds s p t -> holds s q u -> t_bump t = t_bump u -> p = q }.

(** A token held after a step was held before it, or is the one it claimed. *)
Lemma holds_step p a s s' q t : exec p a s = Some s' -> holds s' q t ->
  s_bumps s <= s_bumps s' /\ (s_bumps s' = s_bumps s -> s_gen s' = s_gen s) /\
  (s_bumps s' <> s_bumps s -> s_bumps s' = s_bumps s + 1 /\ s_gen s' = u16 (s_gen s + 1)) /\
  (holds s q t \/ (q = p /\ t_bump t = s_bumps s + 1 /\ s_bumps s' = s_bumps s + 1 /\ t_generation t = s_gen s')).
Proof.
  intros He (pr' & Hq & Ht). destruct (exec_shape _ _ _ _ He) as (pr & pr1 & Hp & _ & Hs' & Hc & _).
  rewrite Hs' in Hq. destruct Hc as [(Hb & Hg & Hk) | (Hb & Hg & Hk)]; (split; [lia|]); (split; [lia || auto|]);
    (split; [lia || auto|]); destruct (decide (q = p)) as [->|Hne].
  - rewrite lookup_insert_eq in Hq. injection Hq as <-. left. exists pr. destruct Hk; [congruence|]. split; congruence.
  - rewrite lookup_insert_ne in Hq by done. left. by exists pr'.
  - rewrite lookup_insert_eq in Hq. injection Hq as <-. destruct (Hk _ Ht). right. split_and!; lia || done.
  - rewrite lookup_insert_ne in Hq by done. left. by exists pr'.
Qed.

Lemma bumps_step p a s s' : exec p a s = Some s' ->
  s_bumps s <= s_bumps s' /\ (s_gen s = u16 (s_bumps s) -> s_gen s' = u16 (s_bumps s')).
Proof.
  intros He. destruct (exec_shape _ _ _ _ He) as (pr & pr1 & _ & _ & _ & [(-> & -> & _) | (-> & -> & _)] & _);
    (split; [lia|]); [done|]. intros ->. unfold u16, wrap. by rewrite Zplus_mod_idemp_l.
Qed.

Lemma claimed_once_step p a s s' : claimed_once s -> exec p a s = Some s' -> claimed_once s'.
Proof.
  intros [[Hg Hb] Ht Hu] He. destruct (bumps_step _ _ _ _ He) as [Hle Hg']. split.
  - split; [by apply Hg' | lia].
  - intros q t Hq. destruct (holds_step _ _ _ _ _ _ He Hq) as (_ & _ & _ & [Hold | (_ & Eb & Es & Eg)]).
    + destruct (Ht _ _ Hold) as [-> ?]. split; [done|lia].
    + rewrite Eg, Hg', Eb, Es by done. split; [done|lia].
  - intros q r t u Hq Hr Heq.
    destruct (holds_step _ _ _ _ _ _ He Hq) as (_ & _ & _ & [Hq' | (-> & Eb & _)]),
      (holds_step _ _ _ _ _ _ He Hr) as (_ & _ & _ & [Hr' | (-> & Eb' & _)]); eauto; exfalso.
    + destruct (Ht _ _ Hq'). lia.
    + destruct (Ht _ _ Hr'). lia.
Qed.

Lemma claimed_once_initial s : initial s -> claimed_once s.
Proof.
  intros [(_ & _ & Hg) (Hb & _) Hi].
  assert (Hn : forall p t, ~ holds s p t)
    by (intros p t (pr & Hp & Ht); specialize (Hi _ _ Hp); simpl in Hi; rewrite Hi in Ht; discriminate).
  split; [done | |]; intros *; intros H; by apply Hn in H.
Qed.

Lemma claimed_once_reach s s' : claimed_once s -> rtc step s s' -> claimed_once s' /\ s_bumps s <= s_bumps s'.
Proof.
  intros Hs. induction 1 as [|s s1 s2 (p & a & He) _ IH]; [split; [done|lia]|].
  destruct IH as [? ?]; [by eapply claimed_once_step|]. destruct (bumps_step _ _ _ _ He). split; [done|lia].
Qed.

Lemma u16_apart a b : 0 <= a <= b -> b - a < 2 ^ 16 -> u16 a = u16 b -> a = b.
Proof. unfold u16, wrap. intros. Z.to_euclidean_division_equations; lia. Qed.

(** A process gets past the first load only with the current generation. *)
Lemma passing_step p a s s' q u pr pr' : exec p a s = Some s' -> s_procs s !! q = Some pr -> s_procs s' !! q = Some pr' ->
  token_at (p_pc pr') = Some u -> passing (p_pc pr) = false -> s_gen s <> t_generation u -> passing (p_pc pr') = false.
Proof.
  intros He Hq Hq' Ht Hnp Hg. destruct (exec_shape _ _ _ _ He) as (pr0 & pr1 & Hp & Hl & Es & _).
  rewrite Es in Hq'. destruct (decide (q = p)) as [->|Hne]; [|rewrite lookup_insert_ne in Hq' by done; congruence].
  rewrite lookup_insert_eq in Hq'. injection Hq' as <-. rewrite Hq in Hp. injection Hp as <-.
  assert (Ep : s_procs s' !! p = Some pr1) by (rewrite Es; apply lookup_insert_eq). clear Es.
  unfold TokenLock.exec in He. rewrite Hq in He. destruct pr as [c seen live]. simpl in *. subst live. simpl in He.
  destruct a, c; simpl in *; try discriminate; unfold claim_generation, acquired, revalidated in He; simpl in He;
    exec_cases; rewrite lookup_insert_eq in Ep; simplify_eq/=; try done; try (apply Z.eqb_neq; congruence); try (by rewrite ?andb_false_l).
  by apply Z.eqb_eq in Heqb.
Qed.

(** An older claim that is still held was held all along. *)
Lemma holds_back s s' q u : claimed_once s -> rtc step s s' -> t_bump u < s_bumps s -> holds s' q u -> holds s q u.
Proof.
  intros Hs Hr. revert Hs. induction Hr as [|s s1 s2 (p & a & He) _ IH]; intros Hs Hlt Hu; [done|].
  destruct (bumps_step _ _ _ _ He) as [Hle _]. pose proof (IH (claimed_once_step _ _ _ _ Hs He) ltac:(lia) Hu) as H1.
  destruct (holds_step p a s s1 q u He H1) as (_ & _ & _ & [?|(_ & Eb & _)]); [done|lia].
Qed.

Lemma passing_reach s s' q u pr pr' : claimed_once s -> rtc step s s' -> t_bump u < s_bumps s -> s_bumps s' - t_bump u < 2 ^ 16 ->
  s_procs s !! q = Some pr -> token_at (p_pc pr) = Some u -> passing (p_pc pr) = false ->
  s_procs s' !! q = Some pr' -> token_at (p_pc pr') = Some u -> passing (p_pc pr') = false.
Proof.
  intros Hs Hr Hlt Hw Hq Hu Hnp. revert pr Hs Hlt Hq Hu Hnp. induction Hr as [|s s1 s2 (p & a & He) Hr IH]; intros pr Hs Hlt Hq Hu Hnp Hq' Hu'; [congruence|].
  pose proof (claimed_once_step _ _ _ _ Hs He) as Hs1. destruct (bumps_step _ _ _ _ He) as [Hle _].
  destruct (claimed_once_reach _ _ Hs1 Hr) as [Hs2 Hle2]. destruct Hs as [[Hg _] Ht _]. destruct (Ht q u) as [Eu Hb]; [by exists pr|].
  assert (Hne : s_gen s <> t_generation u) by (rewrite Hg, Eu; intros E; symmetry in E; apply u16_apart in E; lia).
  destruct (holds_back s1 s2 q u Hs1 Hr ltac:(lia)) as (pr1 & Hq1 & Hu1); [by exists pr'|].
  apply (IH Hw pr1); try done; [lia|]. exact (passing_step p a s s1 q u pr pr1 He Hq Hq1 Hu1 Hnp Hne).
Qed.


(** ** Without a recovery *)

(** What a process knows of the words, by where it is, as long as nothing was
    recovered. *)
Definition knows (b g o : Z) (p : nat) (c : pc) : Prop :=
  let mine t := b = t_value t /\ t_generation t = g in
  let published := kind = WriteLock -> o = pid p in
  match c with
  | Taken held => b = held
  | Reread held after_cas => b = held /\ after_cas = g
  | Fixing held t => b = held /\ t_generation t = g /\ t_value t <> 0
  | Publishing t | Freeing t => mine t
  | Holding t | CheckGen _ t | Validated t | Releasing t => mine t /\ published
  | CheckByte _ t ok | CheckOwner _ t ok => mine t /\ (kind = WriteLock /\ o = pid p) /\ ok = true
  | Lost | Bumping | Clearing | Unlocking => False
  | _ => True
  end.

Record exclusive (s : Sys) : Prop := {
  ex_knows : forall p pr, s_procs s !! p = Some pr -> knows (s_byte s) (s_gen s) (s_owner s) p (p_pc pr);
  ex_one : forall p q pr qr, s_procs s !! p = Some pr -> s_procs s !! q = Some qr ->
    inside (p_pc pr) = true -> inside (p_pc qr) = true -> p = q;
  ex_busy : forall p pr, s_procs s !! p = Some pr -> inside (p_pc pr) = true -> s_byte s <> 0;
  ex_free : s_byte s <> 0 -> exists p pr, s_procs s !! p = Some pr /\ inside (p_pc pr) = true }.

Definition words (s : Sys) : Z * Z * Z := (s_byte s, s_gen s, s_owner s).

(** A step that moves one process, and changes the words only when no other
    process is inside. *)
Lemma exclusive_put s s' p pr pr' :
  exclusive s -> s_procs s !! p = Some pr -> s_procs s' = <[p := pr']> (s_procs s) ->
  (inside (p_pc pr) = true \/ s_byte s = 0 \/ (words s' = words s /\ inside (p_pc pr') = false)) ->
  knows (s_byte s') (s_gen s') (s_owner s') p (p_pc pr') ->
  (inside (p_pc pr') = true -> s_byte s' <> 0) ->
  (s_byte s' <> 0 -> inside (p_pc pr') = true \/ (s_byte s' = s_byte s /\ inside (p_pc pr) = false)) ->
  exclusive s'.
Proof.
  intros [Hk Ho Hb Hf] Hp Hs' Hw Hk' Hb' Hf'.
  assert (Hout : forall q qr, q <> p -> s_procs s !! q = Some qr -> inside (p_pc qr) = true ->
            words s' = words s /\ inside (p_pc pr') = false).
  { intros q qr Hq Hl Hin. destruct Hw as [Hw | [Hw | Hw]]; [| |done].
    - by destruct Hq; eapply Ho.
    - by destruct (Hb _ _ Hl Hin). }
  split; rewrite Hs'.
  - intros q qr Hq. destruct (decide (q = p)) as [->|Hne].
    + rewrite lookup_insert_eq in Hq. by injection Hq as <-.
    + rewrite lookup_insert_ne in Hq by done. specialize (Hk _ _ Hq). destruct (inside (p_pc qr)) eqn:Hin.
      * destruct (Hout _ _ Hne Hq Hin) as [[= -> -> ->] _]. done.
      * destruct (p_pc qr); simpl in *; done.
  - intros q r qr rr Hq Hr Hin Hir. destruct (decide (q = p)) as [->|Hne], (decide (r = p)) as [->|Hne']; [done| | |].
    + rewrite lookup_insert_eq in Hq. injection Hq as <-. rewrite lookup_insert_ne in Hr by done.
      destruct (Hout _ _ Hne' Hr Hir). congruence.
    + rewrite lookup_insert_eq in Hr. injection Hr as <-. rewrite lookup_insert_ne in Hq by done.
      destruct (Hout _ _ Hne Hq Hin). congruence.
    + rewrite lookup_insert_ne in Hq, Hr by done. by eapply Ho.
  - intros q qr Hq Hin. destruct (decide (q = p)) as [->|Hne].
    + rewrite lookup_insert_eq in Hq. injection Hq as <-. auto.
    + rewrite lookup_insert_ne in Hq by done. destruct (Hout _ _ Hne Hq Hin) as [[= -> _ _] _]. by eapply Hb.
  - intros Hz. destruct (Hf' Hz) as [Hi | [Heq Hi]].
    + exists p, pr'. by rewrite lookup_insert_eq.
    + destruct Hf as (q & qr & Hq & Hqi); [congruence|]. exists q, qr. rewrite lookup_insert_ne; [done|congruence].
Qed.

Lemma exclusive_step p a s s' : exclusive s -> exec p a s = Some s' -> s_recoveries s' = 0 -> 0 <= s_recoveries s ->
  exclusive s'.
Proof.
  intros Hx. unfold TokenLock.exec. destruct (s_procs s !! p) as [[c seen live]|] eqn:E; [|done]. simpl. intros H.
  destruct live; simpl in H; [|done]. pose proof (ex_knows _ Hx _ _ E) as Hk. pose proof (ex_busy _ Hx _ _ E) as Hb.
  destruct a, c; simpl in H; try discriminate; unfold claim_generation, acquired, revalidated in H; simpl in H;
    exec_cases; simpl in *; intros Hrec Hrec0; try lia;
    repeat match goal with
    | H : (_ =? _) = true |- _ => apply Z.eqb_eq in H
    | H : negb _ = true |- _ => apply negb_true_iff in H
    | H : (_ =? _) = false |- _ => apply Z.eqb_neq in H
    | H : negb _ = false |- _ => apply negb_false_iff in H
    end;
    (eapply exclusive_put; [exact Hx | exact E | reflexivity | ..]); simpl;
    try (first [by left | by right; left | by right; right]); try done; try (by intros; right);
    try (by intros; apply token_of_nonzero); destruct_and?;
    try (subst; by rewrite ?Z.eqb_refl in *);
    subst; rewrite ?Z.eqb_refl in *; split_and?; first [done | lia | congruence | apply token_of_nonzero | auto].
Qed.

Lemma recoveries_reach s s' : rtc step s s' -> s_recoveries s <= s_recoveries s'.
Proof.
  induction 1 as [|s s1 s2 (p & a & He) _ IH]; [lia|].
  destruct (exec_shape _ _ _ _ He) as (? & ? & _ & _ & _ & _ & ?). lia.
Qed.

Lemma exclusive_reach s s' : exclusive s -> 0 <= s_recoveries s -> rtc step s s' -> s_recoveries s' = 0 -> exclusive s'.
Proof.
  intros Hs Hn. induction 1 as [|s s1 s2 (p & a & He) Hr IH]; [done|]. intros Hz.
  destruct (exec_shape _ _ _ _ He) as (? & ? & _ & _ & _ & _ & ?). pose proof (recoveries_reach _ _ Hr).
  apply IH; [eapply exclusive_step; [done.. | lia | lia] | lia | done].
Qed.

Lemma exclusive_initial s : initial s -> exclusive s.
Proof.
  intros [(Hb & _) _ Hi]. split.
  - intros p pr Hp. by rewrite (Hi _ _ Hp).
  - intros p q pr qr Hp _ H. by rewrite (Hi _ _ Hp) in H.
  - intros p pr Hp H. by rewrite (Hi _ _ Hp) in H.
  - congruence.
Qed.

(** Until a first recovery, the byte excludes: at most one process is
    between its winning CAS and its release, the byte is free exactly when none
    is, no process loses the lock it took, and a holder's revalidation
    succeeds. *)
Theorem unrecovered_lock_exclusive s0 s :
  initial s0 -> rtc step s0 s -> s_recoveries s = 0 ->
  (forall (p q : nat) pr qr, s_procs s !! p = Some pr -> s_procs s !! q = Some qr ->
     inside (p_pc pr) = true -> inside (p_pc qr) = true -> p = q) /\
  (s_byte s = 0 <-> forall p pr, s_procs s !! p = Some pr -> inside (p_pc pr) = false) /\
  (forall p pr, s_procs s !! p = Some pr -> p_pc pr <> Lost) /\
  (forall p pr t, s_procs s !! p = Some pr -> p_pc pr = Holding t -> kind = WriteLock ->
     revalidates pid s p t = true).
Proof.
  intros Hi Hr Hz.
  assert (Hx : exclusive s).
  { eapply exclusive_reach; [by apply exclusive_initial | | done | done]. destruct Hi as [_ (_ & -> & _) _]. lia. }
  destruct Hx as [Hk Ho Hb Hf]. split_and!; [done | split | |].
  - intros Hb0 p pr Hp. destruct (inside (p_pc pr)) eqn:E; [|done]. by destruct (Hb _ _ Hp E).
  - intros Hn. destruct (Z.eq_dec (s_byte s) 0) as [|Hb0]; [done|].
    destruct (Hf Hb0) as (p & pr & Hp & E). by rewrite (Hn _ _ Hp) in E.
  - intros p pr Hp E. specialize (Hk _ _ Hp). by rewrite E in Hk.
  - intros p pr t Hp E Hkind. specialize (Hk _ _ Hp). rewrite E in Hk. destruct Hk as [[Hv Hg] Hw].
    unfold revalidates. by rewrite Hv, Hg, (Hw Hkind), !Z.eqb_refl.
Qed.
End safety.

(** ** Witnesses and a counterexample *)

Definition sample_pid (p : nat) : Z := 100 + Z.of_nat p.
Definition sample_slot (p : nat) : Z := match p with 0%nat => 5 | 1%nat => 9 | _ => 3 end.
Definition sample_start : Sys := {|
  s_byte := 0; s_gen := 0; s_owner := 0; s_bumps := 0; s_recoveries := 0; s_escalations := 0;
  s_procs := list_to_map [(0%nat, Build_Proc Idle None true); (1%nat, Build_Proc Idle None true);
                          (2%nat, Build_Proc Idle None true)] |}.

Definition go (n p : nat) : list (nat * action) := repeat (p, Go) n.
Definition acquire (p : nat) : list (nat * action) := (p, Start) :: go 5 p.
(** Two sightings of the holder. *)
Definition watch (p : nat) : list (nat * action) := (p, Start) :: go 8 p.
Definition check (p : nat) : list (nat * action) := (p, Check) :: go 3 p.

Lemma run_reaches kind pid slot l s s' : run kind pid slot l s = Some s' -> rtc (step kind pid slot) s s'.
Proof.
  revert s. induction l as [|[p a] l IH]; simpl; intros s H; [injection H as ->; constructor|].
  apply bind_Some in H as (s1 & H1 & H2). econstructor; [by exists p, a | auto].
Qed.

(** Process 0 takes the write lock and dies in it.  Process 1 finds it dead,
    checks the generation and stalls before its CAS; process 2 finds it dead
    too, recovers the lock and takes it, two generations later, in the slot two
    below: the same token.  Process 1's CAS then takes the lock from a live
    holder. *)
Definition alias_schedule : list (nat * action) :=
  acquire 0 ++ [(0%nat, Die)] ++ watch 1 ++ [(1%nat, Probe)] ++ go 1 1
  ++ watch 2 ++ [(2%nat, Probe)] ++ go 10 2 ++ check 2 ++ go 9 1 ++ check 1.

(** Slot tokens repeat.  A token is a generation and a slot folded into
    one byte, so generation g + 2 in slot k - 2 shares the token of generation
    g in slot k, and a compare-and-swap on the byte can hit a holder it never
    watched.  In this run nobody escalates and every recovery was of a process
    found dead, yet two live processes have both passed their revalidation and
    are writing. *)
Theorem recovery_hits_new_holder :
  exists s t u, rtc (step WriteLock sample_pid sample_slot) sample_start s /\
    s_escalations s = 0 /\ t_value u = token_of (sample_slot 0) 1 /\
    s_procs s !! 1%nat = Some {| p_pc := Validated t; p_seen := None; p_live := true |} /\
    s_procs s !! 2%nat = Some {| p_pc := Validated u; p_seen := None; p_live := true |}.
Proof.
  destruct (run WriteLock sample_pid sample_slot alias_schedule sample_start) as [s|] eqn:E;
    [|by vm_compute in E].
  exists s, {| t_generation := 5; t_value := 16; t_bump := 5 |}, {| t_generation := 3; t_value := 8; t_bump := 3 |}.
  split; [exact (run_reaches _ _ _ _ _ _ E)|]. vm_compute in E. injection E as <-.
  split_and!; vm_compute; reflexivity.
Qed.

Lemma sample_initial : initial sample_start.
Proof.
  split; [by vm_compute.. |]. intros p pr H.
  apply (elem_of_list_to_map_2 (M := gmap nat)) in H. set_unfold in H. destruct_or? H; by simplify_eq.
Qed.

Lemma slot_tokens_decode_witness :
  0 <= 250 < kSlots /\ slot_of_token (slot_lock_token 65535 250) 65535 = 250.
Proof. split; [unfold kSlots; lia | apply (slot_tokens_decode 65535 250); unfold kSlots; lia]. Defined.

(** The state in which process 1 has taken the lock over from process 0. *)
Definition usurped_schedule : list (nat * action) :=
  acquire 0 ++ watch 1 ++ [(1%nat, Escalate)] ++ go 10 1.
Definition sample_run (l : list (nat * action)) : Sys :=
  default sample_start (run WriteLock sample_pid sample_slot l sample_start).

Lemma sample_reach l : run WriteLock sample_pid sample_slot l sample_start = Some (sample_run l) ->
  rtc (step WriteLock sample_pid sample_slot) sample_start (sample_run l).
Proof. apply run_reaches. Qed.


Lemma unrecovered_lock_exclusive_witness :
  let s := sample_run (acquire 0) in
  s_recoveries s = 0 /\ (s_byte s = 0 <-> forall p pr, s_procs s !! p = Some pr -> inside (p_pc pr) = false).
Proof.
  split; [vm_compute; reflexivity|].
  apply (unrecovered_lock_exclusive WriteLock sample_pid sample_slot sample_start);
    [exact sample_initial | apply sample_reach; vm_compute; reflexivity | vm_compute; reflexivity].
Defined.
