(* ===== verification/Seqlock.v ===== *)
(** * Bucket seqlocks (src/src/core/mmap_directory.cpp and .hpp, directory.hpp)

    A bucket of the shared directory is four entries of five 16-bit words and
    a 32-bit version.  Writers in any process take it by moving the version
    from even to odd ([acquire_writer]), store words one at a time, and give it
    back ([release_writer]); a writer or a reader that sees one odd version for
    too long forces it to the next even value ([acquire_writer_slow],
    [reader_recover_stuck_bucket]).  Readers ([probe_each_impl]) take no lock:
    they load the version, the words of the entries one by one, and the version
    again before they hand an entry to the callback and before they return.

    The accesses are interleaved in any order.  [y_ver] counts the moves of the
    version without wrapping; the code sees its low 32 bits. *)

From S2P Require Import Prelude DirEntry Directory.
Local Open Scope Z_scope.

Definition entry_words : nat := 5.

(** Entry [i] of a bucket's words. *)
Definition entry_of_words (l : list Z) : DirEntry := {|
  w0 := nth 0 l 0; w1 := nth 1 l 0; w2 := nth 2 l 0; w3 := nth 3 l 0; w4 := nth 4 l 0 |}.
Definition words_at (mem : list Z) (i : nat) : list Z := take entry_words (drop (i * entry_words) mem).
Definition entry_at (mem : list Z) (i : nat) : DirEntry := entry_of_words (words_at mem i).
Definition bucket_entries (mem : list Z) : list DirEntry := map (entry_at mem) (seq 0 kEntriesPerBucket).

(** ** Readers *)

Inductive rpc :=
  | RVersion                          (* load the version *)
  | RWord (i : nat) (acc : list Z)    (* load the next word of entry [i] *)
  | RMatch (i : nat) (e : DirEntry)   (* load the version: hand [e] over? *)
  | REnd                              (* load the version: a consistent read? *)
  | RRetry                            (* the attempt failed *)
  | RDone (stopped : bool)            (* true: the callback stopped the scan *)
  | RBusy.                            (* the budget is spent *)

(** A probe: which entries it looks for, the version its attempt started from,
    and what the callback got in this attempt and in all. *)
Record Reader := {
  rd_filter : bool; rd_phase : bool; rd_tag : Z;
  rd_pc : rpc; rd_before : Z; rd_attempt : list DirEntry; rd_calls : list DirEntry }.

Definition wanted (r : Reader) (e : DirEntry) : bool :=
  negb (is_empty e) && negb (rd_filter r && negb (Bool.eqb (phase e) (rd_phase r))) && (DirEntry.tag e =? rd_tag r).

Definition at_pc (r : Reader) (c : rpc) : Reader := {|
  rd_filter := rd_filter r; rd_phase := rd_phase r; rd_tag := rd_tag r;
  rd_pc := c; rd_before := rd_before r; rd_attempt := rd_attempt r; rd_calls := rd_calls r |}.
Definition hand_over (r : Reader) (e : DirEntry) (c : rpc) : Reader := {|
  rd_filter := rd_filter r; rd_phase := rd_phase r; rd_tag := rd_tag r;
  rd_pc := c; rd_before := rd_before r; rd_attempt := rd_attempt r ++ [e]; rd_calls := rd_calls r ++ [e] |}.
(** The phase is loaded anew for every attempt. *)
Definition attempt (r : Reader) (cur_phase : bool) (before : Z) (c : rpc) : Reader := {|
  rd_filter := rd_filter r; rd_phase := cur_phase; rd_tag := rd_tag r;
  rd_pc := c; rd_before := before; rd_attempt := []; rd_calls := rd_calls r |}.

Definition after_entry (i : nat) : rpc := if (S i <? kEntriesPerBucket)%nat then RWord (S i) [] else REnd.

(** The reader's next access: [ver] and [mem] are what it can load, [cb] what
    the callback answers. *)
Definition next_reader (cb : DirEntry -> bool) (cur_phase : bool) (ver : Z) (mem : list Z) (r : Reader) : Reader :=
  match rd_pc r with
  | RVersion =>
      if Z.odd (u32 ver) then attempt r cur_phase ver RRetry else attempt r cur_phase ver (RWord 0 [])
  | RWord i acc =>
      let acc := acc ++ [nth (i * entry_words + length acc) mem 0] in
      if (length acc <? entry_words)%nat then at_pc r (RWord i acc)
      else
        let e := entry_of_words acc in
        if wanted r e then at_pc r (RMatch i e) else at_pc r (after_entry i)
  | RMatch i e =>
      if negb (u32 ver =? u32 (rd_before r)) then at_pc r REnd
      else hand_over r e (if cb e then after_entry i else RDone true)
  | REnd => if u32 ver =? u32 (rd_before r) then at_pc r (RDone false) else at_pc r RRetry
  | RRetry | RDone _ | RBusy => r
  end.

(** ** Writers *)

Inductive wpc :=
  | WIdle
  | WSaw (v : Z)       (* the version as loaded; CAS or wait next *)
  | WIn (token : Z).   (* the bucket is taken from this even version *)

Record Sys := {
  y_ver : Z; y_mem : list Z; y_forced : Z;
  y_readers : gmap nat Reader; y_writers : gmap nat wpc }.

Definition set_version (s : Sys) (v forced : Z) : Sys := {|
  y_ver := v; y_mem := y_mem s; y_forced := forced; y_readers := y_readers s; y_writers := y_writers s |}.
Definition set_mem (s : Sys) (mem : list Z) : Sys := {|
  y_ver := y_ver s; y_mem := mem; y_forced := y_forced s; y_readers := y_readers s; y_writers := y_writers s |}.
Definition set_writer (s : Sys) (w : nat) (c : wpc) : Sys := {|
  y_ver := y_ver s; y_mem := y_mem s; y_forced := y_forced s; y_readers := y_readers s;
  y_writers := <[w := c]> (y_writers s) |}.
Definition set_reader (s : Sys) (k : nat) (r : Reader) : Sys := {|
  y_ver := y_ver s; y_mem := y_mem s; y_forced := y_forced s; y_readers := <[k := r]> (y_readers s);
  y_writers := y_writers s |}.

(** A compare-and-swap of the version from [expected] to the next value. *)
Definition cas_version (s : Sys) (expected : Z) : option Sys :=
  if u32 (y_ver s) =? u32 expected then Some (set_version s (y_ver s + 1) (y_forced s)) else None.

Section protocol.
Variable cb : DirEntry -> bool.

Inductive step : Sys -> Sys -> Prop :=
  (* acquire_writer *)
  | Y_load s w : y_writers s !! w = Some WIdle -> step s (set_writer s w (WSaw (y_ver s)))
  | Y_take s s' w v : y_writers s !! w = Some (WSaw v) -> Z.odd (u32 v) = false ->
      cas_version s v = Some s' -> step s (set_writer s' w (WIn v))
  | Y_retry s w v : y_writers s !! w = Some (WSaw v) -> step s (set_writer s w (WSaw (y_ver s)))
  | Y_give_up s w v : y_writers s !! w = Some (WSaw v) -> step s (set_writer s w WIdle)
  (* the bracket *)
  | Y_store s w v i x : y_writers s !! w = Some (WIn v) -> step s (set_mem s (<[i := x]> (y_mem s)))
  | Y_release s s' w v : y_writers s !! w = Some (WIn v) -> cas_version s (v + 1) = Some s' ->
      step s (set_writer s' w WIdle)
  | Y_release_late s w v : y_writers s !! w = Some (WIn v) -> cas_version s (v + 1) = None ->
      step s (set_writer s w WIdle)
  (* a stuck holder is forced out, by a writer or by a reader *)
  | Y_force s s' w v : y_writers s !! w = Some (WSaw v) -> Z.odd (u32 v) = true ->
      cas_version s v = Some s' -> step s (set_version s' (y_ver s') (y_forced s + 1))
  | Y_recover s s' k r : y_readers s !! k = Some r -> rd_pc r = RRetry -> Z.odd (u32 (rd_before r)) = true ->
      cas_version s (rd_before r) = Some s' -> step s (set_version s' (y_ver s') (y_forced s + 1))
  (* probe_each_impl *)
  | Y_probe s k r filter tag : y_readers s !! k = Some r -> rd_pc r = RBusy \/ (exists b, rd_pc r = RDone b) ->
      step s (set_reader s k {| rd_filter := filter; rd_phase := false; rd_tag := tag; rd_pc := RVersion;
                                rd_before := 0; rd_attempt := []; rd_calls := [] |})
  | Y_read s k r cur_phase : y_readers s !! k = Some r ->
      step s (set_reader s k (next_reader cb cur_phase (y_ver s) (y_mem s) r))
  | Y_again s k r : y_readers s !! k = Some r -> rd_pc r = RRetry -> step s (set_reader s k (at_pc r RVersion))
  | Y_busy s k r : y_readers s !! k = Some r -> rd_pc r = RRetry -> step s (set_reader s k (at_pc r RBusy)).

Record initial (s : Sys) : Prop := {
  i_version : Z.Even (y_ver s) /\ 0 <= y_ver s /\ y_forced s = 0;
  i_words : length (y_mem s) = (kEntriesPerBucket * entry_words)%nat;
  i_readers : map_Forall (fun _ r => rd_pc r = RBusy) (y_readers s);
  i_writers : map_Forall (fun _ w => w = WIdle) (y_writers s) }.

(** ** What a reader knows *)

Definition matches (r : Reader) (mem : list Z) (n : nat) : list DirEntry :=
  filter (fun e => wanted r e = true) (map (entry_at mem) (seq 0 n)).

(** While the version is the one the attempt started from, the words are
    those the attempt has been loading. *)
Definition knows (ver : Z) (mem : list Z) (r : Reader) : Prop :=
  let started := Z.Even (rd_before r) /\ 0 <= rd_before r <= ver in
  match rd_pc r with
  | RWord i acc => started /\ (i < kEntriesPerBucket)%nat /\ (length acc < entry_words)%nat /\
      (ver = rd_before r -> acc = take (length acc) (words_at mem i) /\ rd_attempt r = matches r mem i)
  | RMatch i e => started /\ (i < kEntriesPerBucket)%nat /\ wanted r e = true /\
      (ver = rd_before r -> e = entry_at mem i /\ rd_attempt r = matches r mem i)
  | REnd => started /\ (ver = rd_before r -> rd_attempt r = matches r mem kEntriesPerBucket)
  | RRetry => 0 <= rd_before r <= ver
  | _ => True
  end.

Lemma knows_moved ver ver' mem mem' r : ver < ver' -> knows ver mem r -> knows ver' mem' r.
Proof. unfold knows. intros Hv. destruct (rd_pc r); intuition (try lia; exfalso; lia). Qed.

Lemma knows_stored ver mem mem' r : Z.Odd ver -> knows ver mem r -> knows ver mem' r.
Proof.
  intros Ho. assert (He : Z.Even (rd_before r) -> ver = rd_before r -> False)
    by (intros He ->; by apply (Z.Even_Odd_False (rd_before r))).
  unfold knows. destruct (rd_pc r); intuition.
Qed.

Lemma matches_S r mem i :
  matches r mem (S i) = matches r mem i ++ (if wanted r (entry_at mem i) then [entry_at mem i] else []).
Proof.
  unfold matches. rewrite seq_S, map_app, filter_app. simpl. f_equal. rewrite filter_cons.
  destruct (wanted r (entry_at mem i)); by rewrite ?decide_True, ?decide_False by done.
Qed.

Lemma matches_at_pc r c mem n : matches (at_pc r c) mem n = matches r mem n.
Proof. reflexivity. Qed.

Lemma words_at_next mem i n : length mem = (kEntriesPerBucket * entry_words)%nat -> (i < kEntriesPerBucket)%nat ->
  (n < entry_words)%nat -> take n (words_at mem i) ++ [nth (i * entry_words + n) mem 0] = take (S n) (words_at mem i).
Proof.
  intros Hl Hi Hn. unfold kEntriesPerBucket, entry_words in *. symmetry. apply take_S_r.
  unfold words_at, entry_words. rewrite lookup_take_lt, lookup_drop by lia.
  destruct (nth_lookup_or_length mem (i * 5 + n) 0) as [E|E]; [done|lia].
Qed.

Lemma knows_after_entry ver mem r i : Z.Even (rd_before r) -> 0 <= rd_before r <= ver -> (i < kEntriesPerBucket)%nat ->
  rd_pc r = after_entry i -> (ver = rd_before r -> rd_attempt r = matches r mem (S i)) -> knows ver mem r.
Proof.
  intros He Hb Hi Hpc Ha. unfold knows. rewrite Hpc. unfold after_entry, kEntriesPerBucket, entry_words in *.
  destruct (Nat.ltb_spec (S i) 4).
  - split_and!; simpl; first [done | lia | auto].
  - replace 4%nat with (S i) by lia. done.
Qed.

Lemma knows_next cur_phase ver mem r :
  0 <= ver -> ver < 2 ^ 32 -> length mem = (kEntriesPerBucket * entry_words)%nat -> knows ver mem r ->
  knows ver mem (next_reader cb cur_phase ver mem r).
Proof.
  intros H0 Hb Hl. unfold next_reader. destruct (rd_pc r) as [|i acc|i e| | |b|] eqn:Hpc;
    try (intros; unfold knows in *; by rewrite Hpc in * ).
  - intros _. assert (Ev : u32 ver = ver) by (apply wrap_small; split; lia). rewrite Ev. unfold knows.
    destruct (Z.odd ver) eqn:Ho; simpl; [lia|].
    split_and!; unfold kEntriesPerBucket, entry_words; simpl; try (done || lia).
    apply Z.even_spec. by rewrite <- Z.negb_odd, Ho.
  - intros Hk. unfold knows in Hk. rewrite Hpc in Hk. destruct Hk as ((He & Hr) & Hi & Hn & Hk).
    assert (Hacc : ver = rd_before r -> acc ++ [nth (i * entry_words + length acc) mem 0] = take (S (length acc)) (words_at mem i)).
    { intros Hv. destruct (Hk Hv) as [Ha _]. rewrite Ha at 1. by apply words_at_next. }
    destruct (Nat.ltb_spec (length (acc ++ [nth (i * entry_words + length acc) mem 0])) entry_words) as [Hlt|Hge];
      rewrite length_app in *; simpl in *.
    + unfold knows. simpl. rewrite length_app. simpl. split_and!; try (done || lia).
      intros Hv. split; [rewrite Hacc by done; f_equal; lia | apply Hk; done].
    + assert (Hfull : ver = rd_before r -> entry_of_words (acc ++ [nth (i * entry_words + length acc) mem 0]) = entry_at mem i).
      { intros Hv. rewrite Hacc by done. unfold entry_at. f_equal. apply take_ge.
        unfold words_at. rewrite length_take. unfold entry_words in *. lia. }
      destruct (wanted r _) eqn:Hw.
      * unfold knows. simpl. split_and!; try (done || lia). intros Hv. split; [by rewrite Hfull | apply Hk; done].
      * apply (knows_after_entry _ _ _ i); simpl; [done | done | done | done |]. intros Hv.
        rewrite matches_at_pc, matches_S, <- Hfull, Hw, app_nil_r by done. by apply Hk.
  - intros Hk. unfold knows in Hk. rewrite Hpc in Hk. destruct Hk as ((He & Hr) & Hi & Hw & Hk).
    destruct (Z.eqb_spec (u32 ver) (u32 (rd_before r))) as [E|E]; simpl.
    + assert (Hv : ver = rd_before r) by (unfold u32, wrap in E; rewrite !Z.mod_small in E by lia; done).
      destruct (Hk Hv) as [Hent Hatt]. destruct (cb e); [|done].
      apply (knows_after_entry _ _ _ i); simpl; [done | done | done | done |]. intros _.
      change (matches (hand_over r e (after_entry i))) with (matches r). rewrite matches_S, <- Hent, Hw. by rewrite Hatt.
    + unfold knows. simpl. split_and!; try (done || lia). by intros ->.
  - intros Hk. unfold knows in Hk. rewrite Hpc in Hk. destruct Hk as ((He & Hr) & Hk).
    destruct (Z.eqb_spec (u32 ver) (u32 (rd_before r))); unfold knows; simpl; [done|lia].
Qed.

(** ** The bucket *)

Record sound (s : Sys) : Prop := {
  so_words : length (y_mem s) = (kEntriesPerBucket * entry_words)%nat;
  so_ver : 0 <= y_ver s;
  so_saw : forall w v, y_writers s !! w = Some (WSaw v) -> 0 <= v <= y_ver s;
  so_in : forall w v, y_writers s !! w = Some (WIn v) -> y_ver s = v + 1 /\ Z.Even v /\ 0 <= v;
  so_one : forall w w' v v', y_writers s !! w = Some (WIn v) -> y_writers s !! w' = Some (WIn v') -> w = w';
  so_reads : forall k r, y_readers s !! k = Some r -> knows (y_ver s) (y_mem s) r }.

Definition same_version (s : Sys) (v : Z) : Prop := 0 <= y_ver s -> 0 <= v <= y_ver s + 1 -> y_ver s < 2 ^ 32 - 1 -> y_ver s = v.

Lemma cas_version_Some s s' v : cas_version s v = Some s' ->
  s' = set_version s (y_ver s + 1) (y_forced s) /\ same_version s v.
Proof.
  unfold cas_version. destruct (Z.eqb_spec (u32 (y_ver s)) (u32 v)) as [E|]; [|done]. intros [= <-]. split; [done|].
  intros ? ? ?. unfold u32, wrap in E. rewrite !Z.mod_small in E by lia. done.
Qed.

(** A writer that is not inside moves nowhere near the readers. *)
Lemma sound_writer s w c : sound s -> (forall v, c <> WIn v) -> (forall v, c = WSaw v -> 0 <= v <= y_ver s) ->
  sound (set_writer s w c).
Proof.
  intros [Hw Hv Hs Hi Ho Hr] Hin Hsaw. split; simpl; [done | done | | | | done].
  - intros w' v. destruct (decide (w' = w)) as [->|Hne].
    + rewrite lookup_insert_eq. intros [= ->]. auto.
    + rewrite lookup_insert_ne by done. eauto.
  - intros w' v. destruct (decide (w' = w)) as [->|Hne].
    + rewrite lookup_insert_eq. intros [= ->]. by destruct (Hin v).
    + rewrite lookup_insert_ne by done. eauto.
  - intros w1 w2 v v'. destruct (decide (w1 = w)) as [->|], (decide (w2 = w)) as [->|];
      rewrite ?lookup_insert_eq, ?lookup_insert_ne by done; intros H1 H2; simplify_eq; try (by edestruct Hin); eauto.
Qed.

Lemma sound_reader s k r : sound s -> knows (y_ver s) (y_mem s) r -> sound (set_reader s k r).
Proof.
  intros [Hw Hv Hs Hi Ho Hr] Hk. split; simpl; try done. intros k' r'. destruct (decide (k' = k)) as [->|].
  - rewrite lookup_insert_eq. by intros [= <-].
  - rewrite lookup_insert_ne by done. eauto.
Qed.

Lemma not_inside s : sound s -> Z.Even (y_ver s) -> forall w v, y_writers s !! w <> Some (WIn v).
Proof.
  intros Hs He w v H. destruct (so_in _ Hs _ _ H) as (E & Hv & _). rewrite E in He.
  destruct He as [a He], Hv as [b Hv]. lia.
Qed.

(** Taking the bucket: the version was even, so nobody was inside. *)
Lemma sound_take s w v : sound s -> y_ver s < 2 ^ 32 - 1 -> y_writers s !! w = Some (WSaw v) ->
  Z.odd (u32 v) = false -> y_ver s = v -> sound (set_writer (set_version s (y_ver s + 1) (y_forced s)) w (WIn v)).
Proof.
  intros Hs Hb Hw Ho Hv. destruct (so_saw _ Hs _ _ Hw) as [H0 _].
  assert (He : Z.Even v).
  { apply Z.even_spec. rewrite <- Z.negb_odd. unfold u32, wrap in Ho. rewrite Z.mod_small in Ho by lia. by rewrite Ho. }
  pose proof (not_inside s Hs ltac:(by rewrite Hv)) as Hn. destruct Hs as [Hl Hv0 Hsaw Hi Hone Hr].
  split; simpl; [done | lia | | | | intros k r Hk; eapply knows_moved; [|by eapply Hr]; lia].
  - intros w' u. destruct (decide (w' = w)) as [->|]; rewrite ?lookup_insert_eq, ?lookup_insert_ne by done; [done|].
    intros Hu. destruct (Hsaw _ _ Hu). lia.
  - intros w' u. destruct (decide (w' = w)) as [->|]; rewrite ?lookup_insert_eq, ?lookup_insert_ne by done.
    + intros [= <-]. split_and!; [lia | done | lia].
    + intros Hu. by destruct (Hn w' u).
  - intros w1 w2 u u'. destruct (decide (w1 = w)) as [->|], (decide (w2 = w)) as [->|];
      rewrite ?lookup_insert_eq, ?lookup_insert_ne by done; intros H1 H2; try done;
      by (destruct (Hn _ _ H1) || destruct (Hn _ _ H2)).
Qed.

(** Giving it back. *)
Lemma sound_release s w v : sound s -> y_writers s !! w = Some (WIn v) -> y_ver s = v + 1 ->
  sound (set_writer (set_version s (y_ver s + 1) (y_forced s)) w WIdle).
Proof.
  intros [Hl Hv0 Hsaw Hi Hone Hr] Hw Hv. destruct (Hi _ _ Hw) as (_ & He & H0).
  split; simpl; [done | lia | | | | intros k r Hk; eapply knows_moved; [|by eapply Hr]; lia].
  - intros w' u. destruct (decide (w' = w)) as [->|]; rewrite ?lookup_insert_eq, ?lookup_insert_ne by done; [done|].
    intros Hu. destruct (Hsaw _ _ Hu). lia.
  - intros w' u. destruct (decide (w' = w)) as [->|]; rewrite ?lookup_insert_eq, ?lookup_insert_ne by done; [done|].
    intros Hu. by destruct (Hone w' w u v).
  - intros w1 w2 u u'. destruct (decide (w1 = w)) as [->|], (decide (w2 = w)) as [->|];
      rewrite ?lookup_insert_eq, ?lookup_insert_ne by done; intros H1 H2; try done; eauto.
Qed.

Lemma sound_store s w v i x : sound s -> y_writers s !! w = Some (WIn v) -> sound (set_mem s (<[i := x]> (y_mem s))).
Proof.
  intros [Hl Hv0 Hsaw Hi Hone Hr] Hw. destruct (Hi _ _ Hw) as (Hv & [a He] & _).
  split; simpl; try done; [by rewrite length_insert|].
  intros k r Hk. eapply knows_stored; [|by eapply Hr]. exists a. lia.
Qed.

Lemma step_moves s s' : step s s' -> y_ver s <= y_ver s' /\ y_forced s <= y_forced s'.
Proof.
  destruct 1; simpl; try lia;
    match goal with H : cas_version _ _ = Some _ |- _ => apply cas_version_Some in H as [-> _] end; simpl; lia.
Qed.

Lemma sound_step s s' : step s s' -> sound s -> y_ver s' < 2 ^ 32 - 1 -> y_forced s' = 0 -> 0 <= y_forced s -> sound s'.
Proof.
  intros Hst Hs Hb Hf Hf0. pose proof (step_moves _ _ Hst) as [Hm _]. destruct Hst; simpl in *.
  - apply sound_writer; [done | done |]. intros v [= <-]. pose proof (so_ver _ Hs). lia.
  - apply cas_version_Some in H1 as [-> Hv]. destruct (so_saw _ Hs _ _ H).
    apply sound_take; [done | lia | done | done | apply Hv; pose proof (so_ver _ Hs); lia].
  - apply sound_writer; [done | done |]. intros u [= <-]. pose proof (so_ver _ Hs). lia.
  - by apply sound_writer.
  - by eapply sound_store.
  - apply cas_version_Some in H0 as [-> Hv]. destruct (so_in _ Hs _ _ H) as (Hin & _). by eapply sound_release.
  - by apply sound_writer.
  - lia.
  - lia.
  - by apply sound_reader.
  - apply sound_reader; [done|]. apply knows_next; [apply (so_ver _ Hs) | lia | apply (so_words _ Hs) | by eapply so_reads].
  - apply sound_reader; [done|]. unfold knows. done.
  - apply sound_reader; [done|]. unfold knows. done.
Qed.

Lemma sound_initial s : initial s -> sound s.
Proof.
  intros [(_ & Hv & _) Hw Hr Hi]. split; [done | done | | | |].
  - intros w v H. by specialize (Hi _ _ H).
  - intros w v H. by specialize (Hi _ _ H).
  - intros w w' v v' H. by specialize (Hi _ _ H).
  - intros k r H. unfold knows. by rewrite (Hr _ _ H).
Qed.

Lemma sound_reach s s' : sound s -> rtc step s s' -> 0 <= y_forced s -> y_ver s' < 2 ^ 32 - 1 -> y_forced s' = 0 -> sound s'.
Proof.
  intros Hs Hr. revert Hs. induction Hr as [|s s1 s2 Hst Hr IH]; [done|]. intros Hs Hf Hb Hz.
  assert (Hm : y_ver s1 <= y_ver s2 /\ y_forced s1 <= y_forced s2).
  { clear -Hr. induction Hr as [|a b c Hab _ IH]; [lia|]. apply step_moves in Hab. lia. }
  pose proof (step_moves _ _ Hst). apply IH; [|lia | done | done]. apply (sound_step s); lia || done.
Qed.

(** C25. The lock-free reader sees whole entries of one bucket.  As long as no
    stuck holder was forced out and the version did not wrap, whatever the
    writers do in between: an entry it is about to hand to the callback is, at
    that moment, the entry of the bucket and no writer is inside; and a scan
    that ends well has handed over exactly the entries the bucket then holds
    for the key, in order. *)
Theorem probe_reads_whole_entries s0 s k r :
  initial s0 -> rtc step s0 s -> y_forced s = 0 -> y_ver s < 2 ^ 32 - 1 -> y_readers s !! k = Some r ->
  u32 (y_ver s) = u32 (rd_before r) ->
  (forall i e, rd_pc r = RMatch i e ->
     e = entry_at (y_mem s) i /\ wanted r e = true /\ forall w v, y_writers s !! w <> Some (WIn v)) /\
  (rd_pc r = REnd ->
     rd_attempt r = filter (fun e => wanted r e = true) (bucket_entries (y_mem s)) /\
     forall w v, y_writers s !! w <> Some (WIn v)).
Proof.
  intros Hi Hr Hf Hb Hk Heq.
  assert (Hs : sound s).
  { apply (sound_reach s0); [by apply sound_initial | done | destruct Hi as [(_ & _ & ->) _ _ _]; lia | done | done]. }
  pose proof (so_reads _ Hs _ _ Hk) as Hkn. pose proof (so_ver _ Hs) as H0.
  assert (Hsame : 0 <= rd_before r <= y_ver s -> y_ver s = rd_before r).
  { intros ?. unfold u32, wrap in Heq. rewrite !Z.mod_small in Heq by lia. done. }
  unfold knows in Hkn. split; [intros i e Hpc | intros Hpc]; rewrite Hpc in Hkn.
  - destruct Hkn as ((He & Hle) & _ & Hw & Hv). specialize (Hsame Hle).
    split_and!; [by apply Hv | done |]. apply not_inside; [done|]. by rewrite Hsame.
  - destruct Hkn as ((He & Hle) & Hv). specialize (Hsame Hle). split; [by apply Hv|].
    apply not_inside; [done|]. by rewrite Hsame.
Qed.
End protocol.

(** ** Witness: a probe that runs alone *)

Definition all_entries (e : DirEntry) : bool := true.

Lemma reads_alone cb n s k r cur_phase : y_readers s !! k = Some r ->
  rtc (step cb) s (set_reader s k (Nat.iter n (next_reader cb cur_phase (y_ver s) (y_mem s)) r)).
Proof.
  intros Hk. induction n as [|n IH]; simpl.
  - unfold set_reader. rewrite insert_id by done. by destruct s.
  - eapply rtc_r; [exact IH|].
    set (r' := Nat.iter n _ r). pose proof (Y_read cb (set_reader s k r') k r' cur_phase) as H. simpl in H.
    unfold set_reader in H. simpl in H. rewrite lookup_insert_eq, insert_insert_eq in H. by apply H.
Qed.

Definition sample_entry : DirEntry := set_tag (set_offset empty_entry 4096) 77.
Definition sample_words : list Z :=
  [0; 0; 0; 0; 0; w0 sample_entry; w1 sample_entry; w2 sample_entry; w3 sample_entry; w4 sample_entry] ++ replicate 10 0.
Definition sample_reader (c : rpc) : Reader := {|
  rd_filter := false; rd_phase := false; rd_tag := 77; rd_pc := c; rd_before := 0; rd_attempt := []; rd_calls := [] |}.
Definition sample_sys : Sys := {|
  y_ver := 6; y_mem := sample_words; y_forced := 0; y_readers := {[ 0%nat := sample_reader RBusy ]}; y_writers := ∅ |}.
Definition sample_probe : Sys := set_reader sample_sys 0 (sample_reader RVersion).
Definition sample_after (n : nat) : Reader :=
  Nat.iter n (next_reader all_entries false 6 sample_words) (sample_reader RVersion).

Lemma sample_sys_initial : initial sample_sys.
Proof.
  split; [split_and!; [by exists 3 | simpl; lia | done] | done | |]; intros k r; simpl.
  - rewrite lookup_singleton_Some. by intros [_ <-].
  - by rewrite lookup_empty.
Qed.

Lemma probe_reads_whole_entries_witness :
  rd_pc (sample_after 22) = REnd /\ rd_attempt (sample_after 22) = [sample_entry] /\
  rd_attempt (sample_after 22) =
    filter (fun e => wanted (sample_after 22) e = true) (bucket_entries (y_mem sample_sys)).
Proof.
  split; [vm_compute; reflexivity|]. split; [vm_compute; reflexivity|].
  apply (probe_reads_whole_entries all_entries sample_sys (set_reader sample_probe 0 (sample_after 22)) 0 (sample_after 22)).
  - exact sample_sys_initial.
  - eapply rtc_l; [|apply (reads_alone all_entries 22 sample_probe 0 (sample_reader RVersion) false); by vm_compute].
    apply (Y_probe all_entries sample_sys 0 (sample_reader RBusy) false 77); [by vm_compute | by left].
  - vm_compute; reflexivity.
  - vm_compute; reflexivity.
  - vm_compute; reflexivity.
  - vm_compute; reflexivity.
  - vm_compute; reflexivity.
Defined.
