(* ===== verification/HttpMetadata.v ===== *)
(** * HTTP metadata of a cached response (src/src/plugin/http/http_metadata.cpp)

    HTTP dates, the header maps and times of a cached response
    ([HttpCacheAlt]), its serialized form, its age and its freshness lifetime.
    Times are seconds since the Unix epoch; the system clock that two-digit
    years are resolved against is an argument ([clock]). *)

From Stdlib Require Import Ascii String.
From S2P Require Import Prelude Document Text.
Local Open Scope cyc_scope.

Definition kMaxLifetimeSeconds : Z := 31536000.

(** ** Dates *)

Definition to_epoch (year month day hour minute second : Z) : option Z :=
  if (month <? 1) || (12 <? month) || (day <? 1) || (31 <? day) || (year <? 1970) || (hour <? 0) || (23 <? hour)
     || (minute <? 0) || (59 <? minute) || (second <? 0) || (60 <? second) then None
  else
    let y := if month <=? 2 then year - 1 else year in
    let era := y ÷ 400 in
    let yoe := y - era * 400 in
    let doy := (153 * (month + (if 2 <? month then -3 else 9)) + 2) ÷ 5 + day - 1 in
    let doe := yoe * 365 + yoe ÷ 4 - yoe ÷ 100 + doy in
    let days := era * 146097 + doe - 719468 in
    Some (days * 86400 + hour * 3600 + minute * 60 + second).

Definition kMonths : list text :=
  map str ["Jan"; "Feb"; "Mar"; "Apr"; "May"; "Jun"; "Jul"; "Aug"; "Sep"; "Oct"; "Nov"; "Dec"]%string.

Fixpoint month_index (v : text) (m : Z) (l : list text) : Z :=
  match l with
  | [] => 0
  | k :: l' => if iequals v k then m + 1 else month_index v (m + 1) l'
  end.
Definition parse_month (v : text) : Z := month_index v 0 kMonths.

(** A run of exactly [len] digits, or -1. *)
Fixpoint digits_from (r : Z) (l : text) : Z :=
  match l with
  | [] => r
  | c :: l' => if (c <? 48) || (57 <? c) then -1 else digits_from (r * 10 + (c - 48)) l'
  end.
Definition parse_digits (v : text) (pos len : nat) : Z :=
  if (length v <? pos + len)%nat then -1 else digits_from 0 (subspan v pos len).

(** Inside its bounds. *)
Definition char_at (v : text) (i : nat) : Z := nth i v 0.

(** "hh:mm:ss" at [pos]. *)
Definition parse_clock (v : text) (pos : nat) : option (Z * Z * Z) :=
  if (length v <? pos + 8)%nat || negb (char_at v (pos + 2) =? chr ":") || negb (char_at v (pos + 5) =? chr ":")
  then None
  else
    let h := parse_digits v pos 2 in
    let m := parse_digits v (pos + 3) 2 in
    let s := parse_digits v (pos + 6) 2 in
    if (0 <=? h) && (0 <=? m) && (0 <=? s) then Some (h, m, s) else None.

Definition text_eqb (a b : text) : bool := bool_decide (a = b).

(** Day, month and year, and the clock, of the three forms. *)
Definition imf_fixdate (rest : text) : option (Z * Z * Z * (Z * Z * Z)) :=
  if negb (char_at rest 2 =? 32) || negb (char_at rest 6 =? 32) || negb (char_at rest 11 =? 32)
     || negb (char_at rest 20 =? 32) || negb (text_eqb (drop 21 rest) (str "GMT")) then None
  else c ← parse_clock rest 12;
       Some (parse_digits rest 0 2, parse_month (subspan rest 3 3), parse_digits rest 7 4, c).

Definition current_year (clock : Z) : Z := 1970 + clock ÷ 31556952.

Definition rfc850_year (clock yy : Z) : Z :=
  let year := (current_year clock ÷ 100) * 100 + yy in
  if current_year clock + 50 <? year then year - 100 else year.

Definition rfc850_date (clock : Z) (rest : text) : option (Z * Z * Z * (Z * Z * Z)) :=
  if negb (char_at rest 2 =? 45) || negb (char_at rest 6 =? 45) || negb (char_at rest 9 =? 32)
     || negb (char_at rest 18 =? 32) || negb (text_eqb (drop 19 rest) (str "GMT")) then None
  else
    let yy := parse_digits rest 7 2 in
    if yy <? 0 then None
    else c ← parse_clock rest 10;
         Some (parse_digits rest 0 2, parse_month (subspan rest 3 3), rfc850_year clock yy, c).

Definition asctime_date (v : text) : option (Z * Z * Z * (Z * Z * Z)) :=
  if negb (length v =? 24)%nat || negb (char_at v 3 =? 32) || negb (char_at v 7 =? 32) || negb (char_at v 10 =? 32)
     || negb (char_at v 19 =? 32) then None
  else
    let day := if char_at v 8 =? 32 then parse_digits v 9 1 else parse_digits v 8 2 in
    c ← parse_clock v 11;
    Some (day, parse_month (subspan v 4 3), parse_digits v 20 4, c).

Definition parse_http_date (clock : Z) (v : text) : option Z :=
  let v := trim v in
  '(day, month, year, (h, mi, sec)) ←
    match find (chr ",") v with
    | Some comma =>
        let rest := trim (drop (comma + 1) v) in
        if (length rest =? 24)%nat then imf_fixdate rest
        else if (length rest =? 22)%nat then rfc850_date clock rest
        else None
    | None => asctime_date v
    end;
  if (month =? 0) || (day <? 0) || (year <? 0) then None
  else to_epoch year month day h mi sec.

Definition cacheable_by_default (status : Z) : bool :=
  existsb (Z.eqb status) [200; 203; 204; 206; 300; 301; 308; 404; 405; 410; 414; 501].

(** ** A cached response *)

Definition headers : Type := list (text * text).

Record HttpCacheAlt := {
  _request_method : text;
  _request_url : text;
  _request_headers : headers;
  _status_code : Z;
  _response_headers : headers;
  _request_time : Z;
  _response_time : Z;
}.

Definition kMaxTime : Z := 253402300799.
Definition clamp_time (t : Z) : Z := if t <? 0 then 0 else if kMaxTime <? t then kMaxTime else t.

Definition new_alt : HttpCacheAlt := {|
  _request_method := []; _request_url := []; _request_headers := []; _status_code := 0;
  _response_headers := []; _request_time := 0; _response_time := 0 |}.

(** The setters. *)
Inductive setter :=
  | set_request_method (method : text) | set_request_url (url : text) | set_request_header (name value : text)
  | set_status_code (code : Z) | set_response_header (name value : text)
  | set_request_time (t : Z) | set_response_time (t : Z).

Definition apply_setter (a : HttpCacheAlt) (s : setter) : HttpCacheAlt :=
  match s with
  | set_request_method m => {|
      _request_method := m; _request_url := _request_url a; _request_headers := _request_headers a;
      _status_code := _status_code a; _response_headers := _response_headers a;
      _request_time := _request_time a; _response_time := _response_time a |}
  | set_request_url u => {|
      _request_method := _request_method a; _request_url := u; _request_headers := _request_headers a;
      _status_code := _status_code a; _response_headers := _response_headers a;
      _request_time := _request_time a; _response_time := _response_time a |}
  | set_request_header n v => {|
      _request_method := _request_method a; _request_url := _request_url a;
      _request_headers := map_set (lower_name n) v (_request_headers a);
      _status_code := _status_code a; _response_headers := _response_headers a;
      _request_time := _request_time a; _response_time := _response_time a |}
  | set_status_code c => {|
      _request_method := _request_method a; _request_url := _request_url a; _request_headers := _request_headers a;
      _status_code := c; _response_headers := _response_headers a;
      _request_time := _request_time a; _response_time := _response_time a |}
  | set_response_header n v => {|
      _request_method := _request_method a; _request_url := _request_url a; _request_headers := _request_headers a;
      _status_code := _status_code a; _response_headers := map_set (lower_name n) v (_response_headers a);
      _request_time := _request_time a; _response_time := _response_time a |}
  | set_request_time t => {|
      _request_method := _request_method a; _request_url := _request_url a; _request_headers := _request_headers a;
      _status_code := _status_code a; _response_headers := _response_headers a;
      _request_time := clamp_time t; _response_time := _response_time a |}
  | set_response_time t => {|
      _request_method := _request_method a; _request_url := _request_url a; _request_headers := _request_headers a;
      _status_code := _status_code a; _response_headers := _response_headers a;
      _request_time := _request_time a; _response_time := clamp_time t |}
  end.

Definition get_request_header (a : HttpCacheAlt) (name : text) : option text :=
  map_find (lower_name name) (_request_headers a).
Definition get_response_header (a : HttpCacheAlt) (name : text) : option text :=
  map_find (lower_name name) (_response_headers a).

(** ** The stored form *)

Definition kFormatVersion : Z := 165.

Definition put_le (v : Z) (bytes : nat) : list Z :=
  map (fun i => (v >> (8 * i)) .& 255) (seqZ 0 (Z.of_nat bytes)).

Definition write_string (s : text) : list Z := put_le (u32 (Z.of_nat (length s))) 4 ++ s.
Definition write_headers (l : headers) : list Z :=
  put_le (u32 (Z.of_nat (length l))) 4 ++ concat (map (fun p => write_string p.1 ++ write_string p.2) l).

Definition serialize_alt (a : HttpCacheAlt) : list Z :=
  [kFormatVersion] ++ write_string (_request_method a) ++ write_string (_request_url a)
  ++ write_headers (_request_headers a) ++ put_le (_status_code a) 2 ++ write_headers (_response_headers a)
  ++ put_le (u64 (_request_time a)) 8 ++ put_le (u64 (_response_time a)) 8.

(** A reader takes the bytes behind the offset and gives back a value and the
    bytes left; it fails on truncated input. *)
Definition reader (A : Type) : Type := list Z -> option (A * list Z).

Definition get_le (bytes : nat) (data : list Z) : Z * list Z :=
  (fold_right Z.lor 0 (imap (fun i b => b << (8 * Z.of_nat i)) (take bytes data)), drop bytes data).

Definition read_u32 : reader Z := fun data =>
  if (length data <? 4)%nat then None
  else let (v, data) := get_le 4 data in Some (u32 v, data).

Definition read_string : reader text := fun data =>
  '(len, data) ← read_u32 data;
  if Z.of_nat (length data) <? len then None
  else Some (take (Z.to_nat len) data, drop (Z.to_nat len) data).

Fixpoint read_header_list (n : nat) (m : headers) : reader headers := fun data =>
  match n with
  | O => Some (m, data)
  | S n' =>
      '(name, data) ← read_string data;
      '(value, data) ← read_string data;
      read_header_list n' (match name with [] => m | _ => map_set (lower_name name) value m end) data
  end.

Definition kMaxHeaders : Z := 1000.
Definition read_headers : reader headers := fun data =>
  '(count, data) ← read_u32 data;
  if kMaxHeaders <? count then None else read_header_list (Z.to_nat count) [] data.

Definition deserialize_alt (data : list Z) : option HttpCacheAlt :=
  match data with
  | [] => None
  | v :: data =>
      if negb (v =? kFormatVersion) then None
      else
        '(method, data) ← read_string data;
        '(url, data) ← read_string data;
        '(request_headers, data) ← read_headers data;
        if (length data <? 2)%nat then None
        else
          let (status, data) := get_le 2 data in
          '(response_headers, data) ← read_headers data;
          if negb (length data =? 16)%nat then None
          else
            let (request_time, data) := get_le 8 data in
            let (response_time, data) := get_le 8 data in
            Some {| _request_method := method; _request_url := url; _request_headers := request_headers;
                    _status_code := u16 status; _response_headers := response_headers;
                    _request_time := clamp_time (to_int64 request_time);
                    _response_time := clamp_time (to_int64 response_time) |}
  end.

(** ** Age and freshness *)

(** The decimal loop of the Age header: [None] when a character is no digit. *)
Fixpoint age_value (value : Z) (l : text) : option Z :=
  match l with
  | [] => Some value
  | c :: l' =>
      if (c <? 48) || (57 <? c) then None
      else let value := value * 10 + (c - 48) in
           age_value (if kMaxLifetimeSeconds * 100 <? value then kMaxLifetimeSeconds * 100 else value) l'
  end.

Section clock.
Variable clock : Z.

Definition apparent_age (a : HttpCacheAlt) : Z :=
  match get_response_header a (str "date") ≫= parse_http_date clock with
  | Some date => Z.max 0 (_response_time a - date)
  | None => 0
  end.

Definition corrected_age (a : HttpCacheAlt) : Z :=
  match get_response_header a (str "age") with
  | Some age_hdr =>
      match trim age_hdr with
      | [] => 0
      | v =>
          match age_value 0 v with
          | Some value =>
              value + (if (0 <? _request_time a) && (_request_time a <=? _response_time a)
                       then _response_time a - _request_time a else 0)
          | None => 0
          end
      end
  | None => 0
  end.

Definition age (a : HttpCacheAlt) (now : Z) : Z :=
  if now <? _response_time a then 0
  else now - _response_time a + Z.max (apparent_age a) (corrected_age a).

(** The seconds of one directive's value. *)
Fixpoint directive_seconds (seconds : Z) (l : text) : Z :=
  match l with
  | [] => seconds
  | c :: l' =>
      if (c <? 48) || (57 <? c) then seconds
      else let seconds := seconds * 10 + (c - 48) in
           if kMaxLifetimeSeconds <? seconds then kMaxLifetimeSeconds else directive_seconds seconds l'
  end.

Fixpoint directive_scan (name : text) (l : list text) : option Z :=
  match l with
  | [] => None
  | piece :: l' =>
      let directive := trim piece in
      match find (chr "=") directive with
      | None => directive_scan name l'
      | Some eq =>
          if negb (iequals (trim (take eq directive)) name) then directive_scan name l'
          else
            let value := trim (drop (eq + 1) directive) in
            let value := match value with c :: v => if c =? 34 then v else value | [] => [] end in
            Some (directive_seconds 0 value)
      end
  end.

Definition cache_control_seconds (cache_control name : text) : option Z :=
  directive_scan name (pieces (chr ",") cache_control).

Definition max_age (a : HttpCacheAlt) : option Z :=
  cc ← get_response_header a (str "cache-control"); cache_control_seconds cc (str "max-age").

Definition freshness_base (a : HttpCacheAlt) : Z :=
  match get_response_header a (str "date") ≫= parse_http_date clock with
  | Some date => date
  | None => _response_time a
  end.

Definition expires_lifetime (a : HttpCacheAlt) (expires : text) : Z :=
  let life := match parse_http_date clock expires with Some t => t - freshness_base a | None => 0 end in
  if life <? 0 then 0 else if kMaxLifetimeSeconds <? life then kMaxLifetimeSeconds else life.

Definition heuristic_lifetime (a : HttpCacheAlt) : option Z :=
  lm ← get_response_header a (str "last-modified");
  if cacheable_by_default (_status_code a) then
    t ← parse_http_date clock lm;
    if t <? freshness_base a then Some (Z.min ((freshness_base a - t) ÷ 10) kMaxLifetimeSeconds) else None
  else None.

Definition freshness_lifetime (a : HttpCacheAlt) : option Z :=
  match (cc ← get_response_header a (str "cache-control"); cache_control_seconds cc (str "s-maxage")) with
  | Some sma => Some sma
  | None =>
      match max_age a with
      | Some ma => Some ma
      | None =>
          match get_response_header a (str "expires") with
          | Some expires => Some (expires_lifetime a expires)
          | None => heuristic_lifetime a
          end
      end
  end.

Definition is_fresh (a : HttpCacheAlt) (now : Z) : bool :=
  if now <? _response_time a then false
  else match freshness_lifetime a with
       | None => false
       | Some life => age a now <? life
       end.
End clock.

(** ** The stored form round-trips *)

(** What the setters and the reader maintain: names folded and in order, times
    clamped. *)
Definition header_ok (p : text * text) : Prop := lower_name p.1 = p.1.
Record alt_ok (a : HttpCacheAlt) : Prop := {
  ao_request : sorted_map (_request_headers a) /\ Forall header_ok (_request_headers a);
  ao_response : sorted_map (_response_headers a) /\ Forall header_ok (_response_headers a);
  ao_status : fits 16 (_status_code a);
  ao_times : 0 <= _request_time a <= kMaxTime /\ 0 <= _response_time a <= kMaxTime;
}.

(** The limits of the format. *)
Definition text_fits (s : text) : Prop := Z.of_nat (length s) < 2 ^ 32.
Definition headers_fit (l : headers) : Prop :=
  Z.of_nat (length l) <= kMaxHeaders /\ Forall (fun p => p.1 <> [] /\ text_fits p.1 /\ text_fits p.2) l.
Record storable (a : HttpCacheAlt) : Prop := {
  sb_ok : alt_ok a;
  sb_texts : text_fits (_request_method a) /\ text_fits (_request_url a);
  sb_request : headers_fit (_request_headers a);
  sb_response : headers_fit (_response_headers a);
}.

Definition setter_ok (s : setter) : Prop := match s with set_status_code c => fits 16 c | _ => True end.

Lemma clamp_time_range t : 0 <= clamp_time t <= kMaxTime.
Proof. unfold clamp_time, kMaxTime. destruct (Z.ltb_spec t 0); [lia|]. destruct (Z.ltb_spec 253402300799 t); lia. Qed.

Lemma map_set_names (l : headers) n v : Forall header_ok l -> Forall header_ok (map_set (lower_name n) v l).
Proof.
  intros Hl. assert (header_ok (lower_name n, v)) by apply lower_name_idemp.
  induction Hl as [|[k' v'] l Hp Hl IH]; cbn [map_set]; [now repeat constructor|].
  destruct (text_ltb _ k'); [now repeat constructor|]. destruct (text_ltb k' _); now constructor.
Qed.

Lemma apply_setter_ok a s : alt_ok a -> setter_ok s -> alt_ok (apply_setter a s).
Proof.
  intros [[? ?] [? ?] ? [? ?]] Hs. destruct s; cbn in *; split; cbn; try done;
    split; auto using map_set_sorted, map_set_names, clamp_time_range.
Qed.

Lemma setters_ok l : Forall setter_ok l -> alt_ok (fold_left apply_setter l new_alt).
Proof.
  assert (alt_ok new_alt) as H0 by (split; repeat split; cbn; try constructor; unfold kMaxTime; lia).
  revert H0. generalize new_alt. induction l as [|s l IH]; intros a Ha Hl; [done|].
  apply Forall_cons in Hl as [? ?]. apply IH; [now apply apply_setter_ok|done].
Qed.

Lemma le_bytes_map n v : le_bytes n v = map (fun i => (v >> (8 * i)) .& 255) (seqZ 0 (Z.of_nat n)).
Proof.
  enough (forall k, 0 <= k -> le_bytes n (v >> (8 * k)) = map (fun i => (v >> (8 * i)) .& 255) (seqZ k (Z.of_nat n))) as H.
  { specialize (H 0). rewrite Z.mul_0_r, Z.shiftr_0_r in H. now apply H. }
  induction n as [|n IH]; intros k Hk; [done|]. cbn [le_bytes].
  rewrite seqZ_cons by lia. cbn [map]. rewrite land_255. f_equal.
  replace (Z.pred (Z.of_nat (S n))) with (Z.of_nat n) by lia. rewrite <- IH by lia. f_equal.
  rewrite Z.shiftr_div_pow2, Z.shiftr_div_pow2 by lia. change 256 with (2 ^ 8).
  rewrite Z.div_div by lia. rewrite <- Z.pow_add_r by lia. f_equal. f_equal. lia.
Qed.

Lemma put_le_bytes v n : put_le v n = le_bytes n v.
Proof. symmetry. apply le_bytes_map. Qed.

Lemma get_le_val n data : bytes_ok (take n data) -> get_le n data = (le_val (take n data), drop n data).
Proof.
  intros Hb. unfold get_le. f_equal.
  enough (forall l k, bytes_ok l -> 0 <= k ->
    fold_right Z.lor 0 (imap (fun i b => b << (8 * (k + Z.of_nat i))) l) = le_val l << (8 * k)) as H.
  { specialize (H (take n data) 0 Hb ltac:(lia)). rewrite Z.mul_0_r, Z.shiftl_0_r in H. exact H. }
  induction l as [|b l IH]; intros k Hl Hk; [now rewrite Z.shiftl_0_l|].
  apply Forall_cons in Hl as [Hb0 Hl]. rewrite imap_cons. cbn [fold_right le_val].
  assert (imap ((fun i b => b << (8 * (k + Z.of_nat i))) ∘ S) l = imap (fun i b => b << (8 * (k + 1 + Z.of_nat i))) l) as ->.
  { apply imap_ext. intros i x _. cbn -[Z.of_nat]. f_equal. lia. }
  rewrite (IH (k + 1) Hl ltac:(lia)). rewrite Z.add_0_r.
  replace (8 * (k + 1)) with (8 + 8 * k) by lia. rewrite <- Z.shiftl_shiftl, <- Z.shiftl_lor by lia.
  f_equal. rewrite lor_shift_add by (try lia; exact Hb0). lia.
Qed.

Lemma get_le_bytes n v rest : get_le n (le_bytes n v ++ rest) = (v mod 256 ^ Z.of_nat n, rest).
Proof.
  pose proof (length_le_bytes n v). rewrite get_le_val; rewrite take_app_length' by done; [|apply le_bytes_ok].
  now rewrite le_val_le_bytes, drop_app_length' by done.
Qed.

Lemma read_u32_put v rest : fits 32 v -> read_u32 (put_le v 4 ++ rest) = Some (v, rest).
Proof.
  intros Hv. rewrite put_le_bytes. unfold read_u32. rewrite length_app, length_le_bytes.
  destruct (Nat.ltb_spec (4 + length rest) 4); [lia|]. rewrite get_le_bytes. unfold u32.
  change (256 ^ Z.of_nat 4) with (2 ^ 32). fold (wrap 32 v). rewrite wrap_wrap by lia. now rewrite wrap_small.
Qed.

Lemma text_fits_u32 (s : text) : text_fits s -> fits 32 (Z.of_nat (length s)).
Proof. unfold text_fits, fits. lia. Qed.

Lemma read_write_string s rest : text_fits s -> read_string (write_string s ++ rest) = Some (s, rest).
Proof.
  intros Hs%text_fits_u32. unfold read_string, write_string. rewrite <- app_assoc.
  unfold u32. rewrite wrap_small by done. rewrite read_u32_put by done. cbn [mbind option_bind].
  rewrite length_app, Nat2Z.inj_add. destruct (Z.ltb_spec (Z.of_nat (length s) + Z.of_nat (length rest)) (Z.of_nat (length s))); [lia|].
  now rewrite Nat2Z.id, take_app_length, drop_app_length.
Qed.

Lemma read_write_list l m rest :
  Forall (fun p => p.1 <> [] /\ text_fits p.1 /\ text_fits p.2) l -> Forall header_ok l ->
  read_header_list (length l) m (concat (map (fun p => write_string p.1 ++ write_string p.2) l) ++ rest) =
  Some (fold_left (fun m p => map_set p.1 p.2 m) l m, rest).
Proof.
  revert m. induction l as [|[k v] l IH]; intros m Hl Hk; [done|].
  apply Forall_cons in Hl as [(Hne & Hfk & Hfv) Hl]. apply Forall_cons in Hk as [Hk Hkl].
  cbn [length map concat read_header_list fst snd fold_left] in *. rewrite <- !app_assoc.
  rewrite read_write_string by done. cbn [mbind option_bind]. rewrite read_write_string by done. cbn [mbind option_bind].
  cbv [header_ok fst] in Hk. destruct k as [|c k]; [done|]. rewrite Hk. now rewrite IH.
Qed.

Lemma read_write_headers l rest :
  sorted_map l -> Forall header_ok l -> headers_fit l -> read_headers (write_headers l ++ rest) = Some (l, rest).
Proof.
  intros Hs Hk [Hn Hl]. unfold read_headers, write_headers. rewrite <- app_assoc. unfold kMaxHeaders, u32 in *.
  rewrite wrap_small by (unfold fits; lia). rewrite read_u32_put by (unfold fits; lia). cbn [mbind option_bind].
  destruct (Z.ltb_spec 1000 (Z.of_nat (length l))); [lia|]. rewrite Nat2Z.id, read_write_list by done.
  now rewrite (map_set_fold [] l).
Qed.

Lemma clamp_time_stored t : 0 <= t <= kMaxTime -> clamp_time (to_int64 (u64 t mod 2 ^ 64)) = t.
Proof.
  unfold kMaxTime. intros Ht. unfold u64. rewrite wrap_small, Z.mod_small by (unfold fits; lia).
  unfold to_int64, clamp_time, kMaxTime. destruct (Z.ltb_spec t (2 ^ 63)); [|lia].
  destruct (Z.ltb_spec t 0); [lia|]. destruct (Z.ltb_spec 253402300799 t); lia.
Qed.

Lemma deserialize_serialize_alt a : storable a -> deserialize_alt (serialize_alt a) = Some a.
Proof.
  intros [[[Hs1 Hk1] [Hs2 Hk2] Hst [Ht1 Ht2]] [Hm Hu] Hf1 Hf2]. unfold serialize_alt, deserialize_alt.
  cbn [app]. rewrite Z.eqb_refl. cbn [negb].
  rewrite read_write_string by done. cbn [mbind option_bind]. rewrite read_write_string by done. cbn [mbind option_bind].
  rewrite read_write_headers by done. cbn [mbind option_bind]. rewrite !put_le_bytes.
  destruct (Nat.ltb_spec (length (le_bytes 2 (_status_code a) ++ write_headers (_response_headers a)
    ++ le_bytes 8 (u64 (_request_time a)) ++ le_bytes 8 (u64 (_response_time a)))) 2) as [Hlt|_];
    [rewrite !length_app, !length_le_bytes in Hlt; lia|].
  rewrite get_le_bytes, read_write_headers by done. cbn [mbind option_bind]. rewrite length_app, !length_le_bytes.
  cbn [Nat.eqb Nat.add negb]. rewrite get_le_bytes.
  rewrite <- (app_nil_r (le_bytes 8 (u64 (_response_time a)))), get_le_bytes.
  change (256 ^ Z.of_nat 8) with (2 ^ 64). rewrite !clamp_time_stored by done.
  change (256 ^ Z.of_nat 2) with (2 ^ 16). fold (wrap 16 (_status_code a)). unfold u16. rewrite wrap_wrap, wrap_small by (done || lia).
  now destruct a.
Qed.

Lemma read_u32_fits data v rest : read_u32 data = Some (v, rest) -> fits 32 v.
Proof.
  unfold read_u32. destruct (_ <? _)%nat; [done|]. destruct (get_le 4 data). intros [= <- <-]. now apply wrap_fits.
Qed.

Lemma read_string_fits data s rest : read_string data = Some (s, rest) -> text_fits s.
Proof.
  unfold read_string. destruct (read_u32 data) as [[v r]|] eqn:E; cbn [mbind option_bind]; [|done].
  apply read_u32_fits in E. destruct (Z.ltb_spec (Z.of_nat (length r)) v); [done|]. intros [= <- <-].
  unfold text_fits, fits in *. rewrite length_take. lia.
Qed.

Definition entries_fit (m : headers) : Prop :=
  Forall (fun p : text * text => p.1 <> [] /\ text_fits p.1 /\ text_fits p.2) m.

Lemma map_set_fit k v (m : headers) :
  k <> [] -> text_fits k -> text_fits v -> entries_fit m ->
  entries_fit (map_set k v m) /\ (length (map_set k v m) <= S (length m))%nat.
Proof.
  intros Hne Hk Hv Hm. induction Hm as [|[k' v'] m Hp Hm [IH IHl]]; cbn [map_set]; [split; [now repeat constructor|done]|].
  destruct (text_ltb k k'); [split; [constructor; [done|constructor; done]|cbn; lia]|].
  destruct (text_ltb k' k); (split; [now constructor|cbn; lia]).
Qed.

Lemma read_header_list_ok n m data m' rest :
  read_header_list n m data = Some (m', rest) ->
  sorted_map m -> Forall header_ok m -> entries_fit m ->
  sorted_map m' /\ Forall header_ok m' /\ entries_fit m' /\ (length m' <= length m + n)%nat.
Proof.
  revert m data. induction n as [|n IH]; intros m data; cbn [read_header_list].
  { intros [= <- <-] ? ? ?. repeat split; try done. lia. }
  destruct (read_string data) as [[name d1]|] eqn:E1; cbn [mbind option_bind]; [|done].
  destruct (read_string d1) as [[value d2]|] eqn:E2; cbn [mbind option_bind]; [|done].
  apply read_string_fits in E1, E2. intros Hr Hs Hk Hf. destruct name as [|c name].
  - destruct (IH _ _ Hr Hs Hk Hf) as (? & ? & ? & ?). repeat split; try done. lia.
  - destruct (map_set_fit (lower_name (c :: name)) value m) as [Hf' Hl']; try done; [unfold text_fits in *; unfold lower_name; now rewrite length_map|].
    destruct (IH _ _ Hr) as (? & ? & ? & ?); [now apply map_set_sorted|now apply map_set_names|done|].
    repeat split; try done. lia.
Qed.

Lemma read_headers_ok data m rest :
  read_headers data = Some (m, rest) -> (sorted_map m /\ Forall header_ok m) /\ headers_fit m.
Proof.
  unfold read_headers. destruct (read_u32 data) as [[count d]|] eqn:E; cbn [mbind option_bind]; [|done].
  apply read_u32_fits in E. destruct (Z.ltb_spec kMaxHeaders count); [done|]. intros Hr.
  apply read_header_list_ok in Hr as (? & ? & ? & Hl); [|done|constructor|constructor]. cbn [length Nat.add] in Hl.
  repeat split; try done. unfold fits in E. lia.
Qed.

Lemma deserialize_alt_storable data a : deserialize_alt data = Some a -> storable a.
Proof.
  unfold deserialize_alt. destruct data as [|v data]; [done|]. destruct (negb _); [done|].
  destruct (read_string data) as [[method d1]|] eqn:E1; cbn [mbind option_bind]; [|done].
  destruct (read_string d1) as [[url d2]|] eqn:E2; cbn [mbind option_bind]; [|done].
  destruct (read_headers d2) as [[rq d3]|] eqn:E3; cbn [mbind option_bind]; [|done].
  destruct (_ <? _)%nat; [done|]. destruct (get_le 2 d3) as [status d4].
  destruct (read_headers d4) as [[rs d5]|] eqn:E4; cbn [mbind option_bind]; [|done].
  destruct (negb _); [done|]. destruct (get_le 8 d5) as [t1 d6]. destruct (get_le 8 d6) as [t2 d7].
  intros [= <-]. apply read_string_fits in E1, E2. apply read_headers_ok in E3 as [[? ?] ?], E4 as [[? ?] ?].
  split; cbn; try done. split; cbn; try done; [now apply wrap_fits|]. split; apply clamp_time_range.
Qed.

(** C34. Stored HTTP metadata round-trips: a response within the format's
    limits (strings under 4 GiB, at most 1000 headers a side, no empty header
    name) is read back exactly as it was written, headers, status and times
    included; and whatever bytes are read, a result is within those limits,
    with its header names folded and in order and its times clamped, so that
    writing it again loses nothing. *)
Theorem http_alt_roundtrip a data b :
  storable a -> deserialize_alt data = Some b ->
  deserialize_alt (serialize_alt a) = Some a /\ storable b /\ deserialize_alt (serialize_alt b) = Some b.
Proof.
  intros Ha Hb. pose proof (deserialize_alt_storable _ _ Hb) as Hs. split; [|split; [exact Hs|]]; now apply deserialize_serialize_alt.
Qed.

(** ** Truncated and extended blobs *)

(** A reader that ignores what follows: it takes the same bytes, and leaves
    the same, whatever is appended. *)
Definition prefix_stable {A} (r : reader A) : Prop :=
  forall data a rest x, r data = Some (a, rest) -> r (data ++ x) = Some (a, rest ++ x).

Lemma get_le_app n data x : (n <= length data)%nat -> get_le n (data ++ x) = ((get_le n data).1, (get_le n data).2 ++ x).
Proof. intros H. unfold get_le. simpl. by rewrite take_app_le, drop_app_le. Qed.

Lemma read_u32_stable : prefix_stable read_u32.
Proof.
  intros data a rest x. unfold read_u32. rewrite length_app.
  destruct (Nat.ltb_spec (length data) 4); [done|]. destruct (Nat.ltb_spec (length data + length x) 4); [lia|].
  rewrite get_le_app by lia. destruct (get_le 4 data). by intros [= <- <-].
Qed.

Lemma read_string_stable : prefix_stable read_string.
Proof.
  intros data a rest x. unfold read_string. intros ([len d] & E & H)%bind_Some.
  rewrite (read_u32_stable _ _ _ x E). simpl. destruct (Z.ltb_spec (Z.of_nat (length d)) len); [done|].
  destruct (Z.ltb_spec (Z.of_nat (length (d ++ x))) len) as [Hlt|]; [rewrite length_app in Hlt; lia|].
  injection H as <- <-. by rewrite take_app_le, drop_app_le by lia.
Qed.

Lemma read_header_list_stable n : forall m, prefix_stable (read_header_list n m).
Proof.
  induction n as [|n IH]; intros m data a rest x; simpl; [by intros [= <- <-]|].
  intros ([name d] & E & ([v d'] & E' & H)%bind_Some)%bind_Some.
  rewrite (read_string_stable _ _ _ x E). simpl. rewrite (read_string_stable _ _ _ x E'). simpl. by apply IH.
Qed.

Lemma read_headers_stable : prefix_stable read_headers.
Proof.
  intros data a rest x. unfold read_headers. intros ([c d] & E & H)%bind_Some.
  rewrite (read_u32_stable _ _ _ x E). simpl. destruct (kMaxHeaders <? c); [done|]. by apply read_header_list_stable.
Qed.

(** [deserialize] accepts no input by accident of its length: when it
    accepts a blob, it rejects every proper extension of the blob, and so every
    truncation of one. *)
Theorem deserialize_whole_input data x :
  deserialize_alt data <> None -> x <> [] -> deserialize_alt (data ++ x) = None.
Proof.
  intros Ha Hx. unfold deserialize_alt in *. destruct data as [|v data]; [done|]. cbn [app].
  destruct (negb (v =? kFormatVersion)); [done|].
  destruct (read_string data) as [[method d1]|] eqn:E1; [|done]. rewrite (read_string_stable _ _ _ x E1). cbn [mbind option_bind fst snd] in *.
  destruct (read_string d1) as [[url d2]|] eqn:E2; [|done]. rewrite (read_string_stable _ _ _ x E2). cbn [mbind option_bind fst snd] in *.
  destruct (read_headers d2) as [[hs d3]|] eqn:E3; [|done]. rewrite (read_headers_stable _ _ _ x E3). cbn [mbind option_bind fst snd] in *.
  destruct (Nat.ltb_spec (length d3) 2); [done|]. rewrite length_app.
  destruct (Nat.ltb_spec (length d3 + length x) 2); [done|]. rewrite get_le_app by lia.
  destruct (get_le 2 d3) as [st d4] eqn:E4. cbn [mbind option_bind fst snd] in *.
  destruct (read_headers d4) as [[hs' d5]|] eqn:E5; [|done]. rewrite (read_headers_stable _ _ _ x E5). cbn [mbind option_bind fst snd] in *.
  rewrite length_app. destruct (Nat.eqb_spec (length d5) 16) as [El|]; [|done]. rewrite El.
  destruct x as [|b x]; [done|]. by destruct (Nat.eqb_spec (16 + length (b :: x)) 16).
Qed.

(** ** Dates against the calendar *)

(** The proleptic Gregorian calendar, by counting: leap years, the lengths of
    the months, and the days before a date. *)
Definition leap (y : Z) : bool := (y mod 4 =? 0) && (negb (y mod 100 =? 0) || (y mod 400 =? 0)).
Definition year_days (y : Z) : Z := if leap y then 366 else 365.
Definition month_days (y m : Z) : Z :=
  if m =? 2 then if leap y then 29 else 28
  else if (m =? 4) || (m =? 6) || (m =? 9) || (m =? 11) then 30 else 31.

Definition sum_days (f : Z -> Z) (from to : Z) : Z := fold_right (fun i acc => f i + acc) 0 (seqZ from (to - from)).

(** Days from 1 January 1970 to the date. *)
Definition calendar_days (y m d : Z) : Z :=
  sum_days year_days 1970 y + sum_days (month_days y) 1 m + (d - 1).

Lemma sum_days_step f from to : from <= to -> sum_days f from (to + 1) = sum_days f from to + f to.
Proof.
  intros H. unfold sum_days. replace (to + 1 - from) with (to - from + 1) by lia.
  assert (seqZ from (to - from + 1) = seqZ from (to - from) ++ [to]) as ->.
  { rewrite (seqZ_app from (to - from) 1) by lia. f_equal. replace (from + (to - from)) with to by lia. done. }
  rewrite fold_right_app. cbn [fold_right].
  generalize (seqZ from (to - from)). induction l as [|x l IH]; cbn [fold_right]; lia.
Qed.

(** Days before year [y], counted from the year zero. *)
Definition days_before (y : Z) : Z := 365 * y + (y - 1) / 4 - (y - 1) / 100 + (y - 1) / 400.

Lemma days_before_step y : days_before (y + 1) = days_before y + year_days y.
Proof.
  unfold days_before, year_days, leap. replace (y + 1 - 1) with y by lia.
  repeat match goal with |- context [?a =? ?b] => destruct (Z.eqb_spec a b) end; cbn [negb andb orb];
    Z.to_euclidean_division_equations; lia.
Qed.

Lemma sum_year_days y : 1970 <= y -> sum_days year_days 1970 y = days_before y - 719527.
Proof.
  intros Hy. replace y with (1970 + Z.of_nat (Z.to_nat (y - 1970))) by lia.
  induction (Z.to_nat (y - 1970)) as [|n IH]; [done|].
  replace (1970 + Z.of_nat (S n)) with (1970 + Z.of_nat n + 1) by lia.
  rewrite sum_days_step, IH, days_before_step by lia. lia.
Qed.

(** Days of the months before [m]. *)
Lemma sum_month_days y m : 1 <= m <= 12 ->
  sum_days (month_days y) 1 m =
  if m <=? 2 then 31 * (m - 1) else (153 * (m - 3) + 2) / 5 + 59 + (year_days y - 365).
Proof.
  intros Hm. unfold year_days.
  assert (m = 1 \/ m = 2 \/ m = 3 \/ m = 4 \/ m = 5 \/ m = 6 \/ m = 7 \/ m = 8 \/ m = 9 \/ m = 10 \/ m = 11 \/ m = 12)
    as Hc by lia.
  repeat destruct Hc as [->|Hc]; [..|subst m]; cbv [sum_days month_days seqZ]; cbn -[leap]; destruct (leap y); reflexivity.
Qed.

(** The civil-days formula, in the proleptic calendar. *)
Lemma era_days y : 0 <= y ->
  y ÷ 400 * 146097 + ((y - y ÷ 400 * 400) * 365 + (y - y ÷ 400 * 400) ÷ 4 - (y - y ÷ 400 * 400) ÷ 100) =
  days_before (y + 1) - 365.
Proof.
  intros Hy. unfold days_before. replace (y + 1 - 1) with y by lia. Z.to_euclidean_division_equations; lia.
Qed.

Lemma to_epoch_calendar year month day hour minute second t :
  to_epoch year month day hour minute second = Some t ->
  t = calendar_days year month day * 86400 + hour * 3600 + minute * 60 + second.
Proof.
  unfold to_epoch. destruct (_ || _) eqn:E; [done|]. rewrite !orb_false_iff, !Z.ltb_ge in E.
  destruct E as ((((((((((? & ?) & ?) & ?) & ?) & ?) & ?) & ?) & ?) & ?) & ?). intros [= <-]. unfold calendar_days.
  rewrite sum_year_days, sum_month_days by lia.
  set (y := if month <=? 2 then year - 1 else year).
  assert (0 <= y) as Hy by (unfold y; destruct (month <=? 2); lia). pose proof (era_days y Hy) as He.
  pose proof (days_before_step year) as Hstep. unfold y in *. clear y.
  destruct (Z.leb_spec month 2), (Z.ltb_spec 2 month); try lia.
  - replace (year - 1 + 1) with year in He by lia.
    assert ((153 * (month + 9) + 2) ÷ 5 = 306 + 31 * (month - 1)) by (Z.to_euclidean_division_equations; lia). lia.
  - assert ((153 * (month + -3) + 2) ÷ 5 = (153 * (month - 3) + 2) / 5) by (Z.to_euclidean_division_equations; lia). lia.
Qed.

(** *** The three written forms *)

Definition digits2 (n : Z) : text := [48 + n / 10; 48 + n mod 10].
Definition digits4 (n : Z) : text := digits2 (n / 100) ++ digits2 (n mod 100).
Definition month_name (m : Z) : text := nth (Z.to_nat (m - 1)) kMonths [].
Definition clock_text (h mi s : Z) : text := digits2 h ++ [58] ++ digits2 mi ++ [58] ++ digits2 s.

Definition imf_text (weekday : text) (d m y h mi s : Z) : text :=
  weekday ++ str ", " ++ digits2 d ++ [32] ++ month_name m ++ [32] ++ digits4 y ++ [32] ++ clock_text h mi s ++ str " GMT".
Definition rfc850_text (weekday : text) (d m y h mi s : Z) : text :=
  weekday ++ str ", " ++ digits2 d ++ [45] ++ month_name m ++ [45] ++ digits2 (y mod 100) ++ [32] ++ clock_text h mi s ++ str " GMT".
Definition asctime_text (weekday : text) (d m y h mi s : Z) : text :=
  weekday ++ [32] ++ month_name m ++ [32] ++ (if d <? 10 then [32; 48 + d] else digits2 d) ++ [32] ++ clock_text h mi s
  ++ [32] ++ digits4 y.

(** A name without commas or blanks. *)
Definition weekday_ok (w : text) : Prop := w <> [] /\ Forall (fun c => c <> 44 /\ is_ows c = false) w.

Record valid_date (d m y h mi s : Z) : Prop := {
  vd_day : 1 <= d <= 31; vd_month : 1 <= m <= 12; vd_year : 1970 <= y <= 9999;
  vd_hour : 0 <= h <= 23; vd_minute : 0 <= mi <= 59; vd_second : 0 <= s <= 60 }.

Lemma drop_front_id p c (s : text) : p c = false -> drop_front p (c :: s) = c :: s.
Proof. intros H. cbn. now rewrite H. Qed.

Lemma trim_id c s e : is_ows c = false -> is_ows e = false -> trim (c :: s ++ [e]) = c :: s ++ [e].
Proof.
  intros Hc He. unfold trim, drop_back. rewrite drop_front_id by done. cbn [rev]. rewrite rev_app_distr. cbn [rev app].
  rewrite drop_front_id by done. cbn [rev]. rewrite rev_app_distr, rev_involutive. done.
Qed.

Lemma find_at c w s : Forall (fun x => x <> c) w -> find c (w ++ c :: s) = Some (length w).
Proof.
  induction 1 as [|x w Hx Hw IH]; cbn [app find]; [now rewrite Z.eqb_refl|].
  destruct (Z.eqb_spec x c); [done|]. now rewrite IH.
Qed.

Lemma find_none c s : Forall (fun x => x <> c) s -> find c s = None.
Proof. induction 1 as [|x w Hx Hw IH]; cbn; [done|]. destruct (Z.eqb_spec x c); [done|]. now rewrite IH. Qed.

Lemma digits_from_2 r n : 0 <= n < 100 -> digits_from r (digits2 n) = r * 100 + n.
Proof.
  intros Hn. unfold digits2. cbn [digits_from].
  repeat match goal with |- context [?a <? ?b] => destruct (Z.ltb_spec a b) end; cbn [orb];
    Z.to_euclidean_division_equations; lia.
Qed.

Lemma digits_from_4 n : 0 <= n < 10000 -> digits_from 0 (digits4 n) = n.
Proof.
  intros Hn. unfold digits4, digits2. cbn [app digits_from].
  repeat match goal with |- context [?a <? ?b] => destruct (Z.ltb_spec a b) end; cbn [orb];
    Z.to_euclidean_division_equations; lia.
Qed.

Lemma month_cases m : 1 <= m <= 12 ->
  exists a b c, month_name m = [a; b; c] /\ parse_month [a; b; c] = m /\ a <> 44 /\ b <> 44 /\ c <> 44.
Proof.
  intros Hm.
  assert (m = 1 \/ m = 2 \/ m = 3 \/ m = 4 \/ m = 5 \/ m = 6 \/ m = 7 \/ m = 8 \/ m = 9 \/ m = 10 \/ m = 11 \/ m = 12)
    as Hc by lia.
  repeat destruct Hc as [->|Hc]; [..|subst m]; do 3 eexists; repeat split; discriminate.
Qed.

Lemma epoch_of_valid d m y h mi s :
  valid_date d m y h mi s ->
  to_epoch y m d h mi s = Some (calendar_days y m d * 86400 + h * 3600 + mi * 60 + s).
Proof.
  intros [? ? ? ? ? ?]. destruct (to_epoch y m d h mi s) as [t|] eqn:E; [f_equal; now apply to_epoch_calendar|].
  exfalso. revert E. unfold to_epoch. destruct (_ || _) eqn:Hb; [|done]. intros _. revert Hb. apply not_true_iff_false.
  rewrite !orb_false_iff, !Z.ltb_ge. lia.
Qed.

Lemma nonneg_true x : 0 <= x -> (0 <=? x) = true.
Proof. apply Z.leb_le. Qed.

Lemma clock_guard h mi s : valid_date 1 1 1970 h mi s ->
  (if (0 <=? digits_from 0 (digits2 h)) && (0 <=? digits_from 0 (digits2 mi)) && (0 <=? digits_from 0 (digits2 s))
   then Some (digits_from 0 (digits2 h), digits_from 0 (digits2 mi), digits_from 0 (digits2 s)) else None) =
  Some (h, mi, s).
Proof. intros [_ _ _ ? ? ?]. rewrite !digits_from_2 by lia. cbn [Z.mul Z.add]. now rewrite !nonneg_true by lia. Qed.

Lemma valid_clock d m y h mi s : valid_date d m y h mi s -> valid_date 1 1 1970 h mi s.
Proof. intros []. split; lia. Qed.

Lemma imf_fixdate_ok d m y h mi s :
  valid_date d m y h mi s ->
  imf_fixdate (digits2 d ++ [32] ++ month_name m ++ [32] ++ digits4 y ++ [32] ++ clock_text h mi s ++ str " GMT") =
  Some (d, m, y, (h, mi, s)).
Proof.
  intros Hv. destruct (month_cases m (vd_month _ _ _ _ _ _ Hv)) as (a & b & c & -> & Hm & _).
  set (rest := _ ++ _). 
  change (imf_fixdate rest) with
    (cl ← (if (0 <=? digits_from 0 (digits2 h)) && (0 <=? digits_from 0 (digits2 mi)) && (0 <=? digits_from 0 (digits2 s))
           then Some (digits_from 0 (digits2 h), digits_from 0 (digits2 mi), digits_from 0 (digits2 s)) else None);
     Some (digits_from 0 (digits2 d), parse_month [a; b; c], digits_from 0 (digits4 y), cl)).
  rewrite (clock_guard h mi s (valid_clock _ _ _ _ _ _ Hv)). cbn [mbind option_bind]. destruct Hv.
  now rewrite Hm, digits_from_2, digits_from_4 by lia.
Qed.

Lemma rfc850_date_ok clock d m y h mi s :
  valid_date d m y h mi s ->
  rfc850_date clock (digits2 d ++ [45] ++ month_name m ++ [45] ++ digits2 (y mod 100) ++ [32] ++ clock_text h mi s ++ str " GMT") =
  Some (d, m, rfc850_year clock (y mod 100), (h, mi, s)).
Proof.
  intros Hv. destruct (month_cases m (vd_month _ _ _ _ _ _ Hv)) as (a & b & c & -> & Hm & _).
  set (rest := _ ++ _).
  change (rfc850_date clock rest) with
    (if digits_from 0 (digits2 (y mod 100)) <? 0 then None else
     cl ← (if (0 <=? digits_from 0 (digits2 h)) && (0 <=? digits_from 0 (digits2 mi)) && (0 <=? digits_from 0 (digits2 s))
           then Some (digits_from 0 (digits2 h), digits_from 0 (digits2 mi), digits_from 0 (digits2 s)) else None);
     Some (digits_from 0 (digits2 d), parse_month [a; b; c], rfc850_year clock (digits_from 0 (digits2 (y mod 100))), cl)).
  rewrite (clock_guard h mi s (valid_clock _ _ _ _ _ _ Hv)). cbn [mbind option_bind]. destruct Hv.
  pose proof (Z.mod_pos_bound y 100 ltac:(lia)).
  rewrite Hm, !digits_from_2 by lia. rewrite Z.mul_0_l, !Z.add_0_l. destruct (Z.ltb_spec (y mod 100) 0); [lia|done].
Qed.

Lemma asctime_ok w1 w2 w3 d m y h mi s :
  valid_date d m y h mi s -> asctime_date (asctime_text [w1; w2; w3] d m y h mi s) = Some (d, m, y, (h, mi, s)).
Proof.
  intros Hv. unfold asctime_text. destruct (month_cases m (vd_month _ _ _ _ _ _ Hv)) as (a & b & c & -> & Hm & _).
  assert (exists x1 x2, (if d <? 10 then [32; 48 + d] else digits2 d) = [x1; x2] /\
    (if x1 =? 32 then digits_from 0 [x2] else digits_from 0 [x1; x2]) = d) as (x1 & x2 & -> & Hx).
  { destruct Hv. destruct (Z.ltb_spec d 10); do 2 eexists; (split; [reflexivity|]).
    - cbn [Z.eqb digits_from Pos.eqb]. destruct (Z.ltb_spec (48 + d) 48), (Z.ltb_spec 57 (48 + d)); cbn [orb]; lia.
    - destruct (Z.eqb_spec (48 + d / 10) 32); [Z.to_euclidean_division_equations; lia|].
      pose proof (digits_from_2 0 d ltac:(lia)) as Hd. exact Hd. }
  set (v := _ ++ _).
  change (asctime_date v) with
    (cl ← (if (0 <=? digits_from 0 (digits2 h)) && (0 <=? digits_from 0 (digits2 mi)) && (0 <=? digits_from 0 (digits2 s))
           then Some (digits_from 0 (digits2 h), digits_from 0 (digits2 mi), digits_from 0 (digits2 s)) else None);
     Some (if x1 =? 32 then digits_from 0 [x2] else digits_from 0 [x1; x2], parse_month [a; b; c], digits_from 0 (digits4 y), cl)).
  rewrite (clock_guard h mi s (valid_clock _ _ _ _ _ _ Hv)). cbn [mbind option_bind]. destruct Hv.
  now rewrite Hm, Hx, digits_from_4 by lia.
Qed.

Lemma trim_weekday w l e : weekday_ok w -> is_ows e = false -> trim (w ++ l ++ [e]) = w ++ l ++ [e].
Proof.
  intros [Hne Hw] He. destruct w as [|c w]; [done|]. apply Forall_cons in Hw as [[_ Hc] _].
  cbn [app]. rewrite app_assoc. now apply trim_id.
Qed.

Lemma is_ows_digit n : 0 <= n -> is_ows (48 + n) = false.
Proof. intros Hn. unfold is_ows. destruct (Z.eqb_spec (48 + n) 32), (Z.eqb_spec (48 + n) 9); try done; lia. Qed.

(** Behind the comma. *)
Lemma trim_body d l : 0 <= d -> trim ([32] ++ digits2 d ++ l ++ [84]) = digits2 d ++ l ++ [84].
Proof.
  intros Hd. unfold digits2. cbn [app]. set (x := 48 + d / 10).
  assert (is_ows x = false) as Hx by (apply is_ows_digit, Z.div_pos; lia).
  change (trim (x :: ((48 + d mod 10) :: l) ++ [84]) = x :: ((48 + d mod 10) :: l) ++ [84]). now apply trim_id.
Qed.

Lemma find_weekday w l : weekday_ok w -> find (chr ",") (w ++ 44 :: l) = Some (length w).
Proof. intros [_ Hw]. apply find_at. eapply Forall_impl; [exact Hw|]. now intros x [? _]. Qed.

(** Reading a date with a comma is reading what is behind it. *)
Lemma comma_date w d l : weekday_ok w -> 0 <= d ->
  let v := trim (w ++ str ", " ++ digits2 d ++ l ++ [84]) in
  find (chr ",") v = Some (length w) /\ trim (drop (length w + 1) v) = digits2 d ++ l ++ [84].
Proof.
  intros Hw Hd v.
  assert (v = w ++ 44 :: 32 :: digits2 d ++ l ++ [84]) as ->.
  { unfold v. pose proof (trim_weekday w (str ", " ++ digits2 d ++ l) 84 Hw eq_refl) as Ht.
    rewrite <- !app_assoc in Ht. exact Ht. }
  split; [now apply find_weekday|].
  replace (drop (length w + 1) (w ++ 44 :: 32 :: digits2 d ++ l ++ [84])) with (32 :: digits2 d ++ l ++ [84]).
  - now apply trim_body.
  - rewrite drop_app_add. done.
Qed.

Lemma rfc850_year_ok clock y :
  0 <= current_year clock -> 0 <= y -> y <= current_year clock + 50 < y + 100 -> y / 100 <= current_year clock / 100 ->
  rfc850_year clock (y mod 100) = y.
Proof.
  intros Hc Hy Hw Hcent. unfold rfc850_year. rewrite Z.quot_div_nonneg by lia.
  destruct (Z.ltb_spec (current_year clock + 50) (current_year clock / 100 * 100 + y mod 100));
    Z.to_euclidean_division_equations; lia.
Qed.

Lemma digits2_comma n : 0 <= n < 100 -> Forall (fun x => x <> 44) (digits2 n).
Proof. intros Hn. unfold digits2. repeat constructor; Z.to_euclidean_division_equations; lia. Qed.

Lemma asctime_comma w d m y h mi s :
  valid_date d m y h mi s -> weekday_ok w -> find (chr ",") (asctime_text w d m y h mi s) = None.
Proof.
  intros [? ? ? ? ? ?] [_ Hw]. apply find_none. unfold asctime_text, clock_text, digits4. change (chr ",") with 44.
  destruct (month_cases m ltac:(lia)) as (a & b & c & -> & _ & Ha & Hb & Hc).
  rewrite !Forall_app. repeat split; try (apply digits2_comma; Z.to_euclidean_division_equations; lia);
    try (repeat constructor; done).
  - eapply Forall_impl; [exact Hw|]. now intros x [? _].
  - destruct (Z.ltb_spec d 10); [repeat constructor; lia|apply digits2_comma; lia].
Qed.

Lemma asctime_trim w d m y h mi s :
  valid_date d m y h mi s -> weekday_ok w -> trim (asctime_text w d m y h mi s) = asctime_text w d m y h mi s.
Proof.
  intros [? ? ? ? ? ?] Hw.
  assert (asctime_text w d m y h mi s = w ++
    ([32] ++ month_name m ++ [32] ++ (if d <? 10 then [32; 48 + d] else digits2 d) ++ [32] ++ clock_text h mi s
     ++ [32] ++ digits2 (y / 100) ++ [48 + (y mod 100) / 10]) ++ [48 + (y mod 100) mod 10]) as ->.
  { unfold asctime_text, digits4. rewrite <- !app_assoc. done. }
  apply trim_weekday; [done|]. apply is_ows_digit. apply Z.mod_pos_bound. lia.
Qed.

(** HTTP dates are read right, in all three forms: for a valid date from
    1970 to 9999, the IMF-fixdate, the RFC 850 form (when its two-digit year
    is meant in the current century, or in the one before and otherwise more
    than 50 years ahead) and the asctime form all give the number of seconds
    from the epoch that counting the days of the Gregorian calendar, leap
    years included, gives. *)
Theorem http_dates_agree clock w w1 w2 w3 d m y h mi s :
  valid_date d m y h mi s -> weekday_ok w -> weekday_ok [w1; w2; w3] ->
  0 <= current_year clock -> y <= current_year clock + 50 < y + 100 -> y / 100 <= current_year clock / 100 ->
  let t := calendar_days y m d * 86400 + h * 3600 + mi * 60 + s in
  parse_http_date clock (imf_text w d m y h mi s) = Some t /\
  parse_http_date clock (rfc850_text w d m y h mi s) = Some t /\
  parse_http_date clock (asctime_text [w1; w2; w3] d m y h mi s) = Some t.
Proof.
  intros Hv Hw Hw3 Hcl Hwin Hcent t. pose proof (epoch_of_valid _ _ _ _ _ _ Hv) as He. pose proof Hv as [? ? ? ? ? ?].
  destruct (month_cases m ltac:(lia)) as (a & b & c & Em & _ & Ha & Hb & Hc).
  assert ((m =? 0) || (d <? 0) || (y <? 0) = false) as Hg.
  { destruct (Z.eqb_spec m 0), (Z.ltb_spec d 0), (Z.ltb_spec y 0); try done; lia. }
  split; [|split].
  - set (l := [32; a; b; c; 32] ++ digits4 y ++ [32] ++ clock_text h mi s ++ str " GM").
    assert (imf_text w d m y h mi s = w ++ str ", " ++ digits2 d ++ l ++ [84]) as -> by (unfold imf_text; now rewrite Em).
    destruct (comma_date w d l Hw ltac:(lia)) as [Hf Ht]. unfold parse_http_date. rewrite Hf, Ht.
    change (Nat.eqb (length (digits2 d ++ l ++ [84])) 24) with true. cbv iota.
    pose proof (imf_fixdate_ok _ _ _ _ _ _ Hv) as Hok. rewrite Em in Hok.
    change (imf_fixdate (digits2 d ++ l ++ [84]) = Some (d, m, y, (h, mi, s))) in Hok.
    rewrite Hok. cbn [mbind option_bind]. now rewrite Hg.
  - set (l := [45; a; b; c; 45] ++ digits2 (y mod 100) ++ [32] ++ clock_text h mi s ++ str " GM").
    assert (rfc850_text w d m y h mi s = w ++ str ", " ++ digits2 d ++ l ++ [84]) as -> by (unfold rfc850_text; now rewrite Em).
    destruct (comma_date w d l Hw ltac:(lia)) as [Hf Ht]. unfold parse_http_date. rewrite Hf, Ht.
    change (Nat.eqb (length (digits2 d ++ l ++ [84])) 24) with false. change (Nat.eqb (length (digits2 d ++ l ++ [84])) 22) with true. cbv iota.
    pose proof (rfc850_date_ok clock _ _ _ _ _ _ Hv) as Hok. rewrite Em, rfc850_year_ok in Hok by lia.
    change (rfc850_date clock (digits2 d ++ l ++ [84]) = Some (d, m, y, (h, mi, s))) in Hok.
    rewrite Hok. cbn [mbind option_bind]. now rewrite Hg.
  - pose proof (asctime_ok w1 w2 w3 _ _ _ _ _ _ Hv) as Hok. unfold parse_http_date.
    rewrite asctime_trim, asctime_comma, Hok by done. cbn [mbind option_bind]. now rewrite Hg.
Qed.

(** ** Age and freshness are bounded *)

Lemma directive_seconds_range s l : 0 <= s <= kMaxLifetimeSeconds -> 0 <= directive_seconds s l <= kMaxLifetimeSeconds.
Proof.
  revert s. induction l as [|c l IH]; intros s Hs; cbn [directive_seconds]; [done|].
  destruct (Z.ltb_spec c 48), (Z.ltb_spec 57 c); cbn [orb]; try done.
  destruct (Z.ltb_spec kMaxLifetimeSeconds (s * 10 + (c - 48))); [unfold kMaxLifetimeSeconds; lia|]. apply IH. lia.
Qed.

Lemma cache_control_range cc name s : cache_control_seconds cc name = Some s -> 0 <= s <= kMaxLifetimeSeconds.
Proof.
  unfold cache_control_seconds. induction (pieces (chr ",") cc) as [|p l IH]; cbn [directive_scan]; [done|].
  destruct (find _ _); [|done]. destruct (negb _); [done|]. intros [= <-]. apply directive_seconds_range.
  unfold kMaxLifetimeSeconds. lia.
Qed.

Lemma age_value_range v l n : 0 <= v <= kMaxLifetimeSeconds * 100 -> age_value v l = Some n ->
  0 <= n <= kMaxLifetimeSeconds * 100.
Proof.
  revert v. induction l as [|c l IH]; intros v Hv; cbn [age_value]; [congruence|].
  destruct (Z.ltb_spec c 48), (Z.ltb_spec 57 c); cbn [orb]; try done. apply IH.
  destruct (Z.ltb_spec (kMaxLifetimeSeconds * 100) (v * 10 + (c - 48))); lia.
Qed.

Lemma to_epoch_nonneg y m d h mi s t : to_epoch y m d h mi s = Some t -> 0 <= t.
Proof.
  intros E. pose proof (to_epoch_calendar _ _ _ _ _ _ _ E) as ->. revert E. unfold to_epoch.
  destruct (_ || _) eqn:Hb; [done|]. intros _. rewrite !orb_false_iff, !Z.ltb_ge in Hb. unfold calendar_days.
  assert (forall f from to, (forall x, 0 <= f x) -> 0 <= sum_days f from to) as Hsum.
  { intros f from to Hf. unfold sum_days. induction (seqZ from (to - from)) as [|x l IH]; cbn [fold_right]; [lia|].
    specialize (Hf x). lia. }
  pose proof (Hsum year_days 1970 y ltac:(intros x; unfold year_days; destruct (leap x); lia)).
  pose proof (Hsum (month_days y) 1 m ltac:(intros x; unfold month_days; repeat case_match; lia)). lia.
Qed.

Lemma parse_http_date_nonneg clock v t : parse_http_date clock v = Some t -> 0 <= t.
Proof.
  unfold parse_http_date. intros ([[[d m] y] [[h mi] s]] & _ & Ht)%bind_Some. destruct (_ || _); [done|].
  now apply to_epoch_nonneg in Ht.
Qed.

Lemma apparent_age_range clock a : alt_ok a -> 0 <= apparent_age clock a <= kMaxTime.
Proof.
  intros [_ _ _ [_ Ht]]. unfold apparent_age. destruct (get_response_header a (str "date")) as [v|]; cbn [mbind option_bind]; [|unfold kMaxTime; lia].
  destruct (parse_http_date clock v) as [t|] eqn:E; [apply parse_http_date_nonneg in E; lia|unfold kMaxTime; lia].
Qed.

Lemma corrected_age_range a : alt_ok a -> 0 <= corrected_age a <= kMaxLifetimeSeconds * 100 + kMaxTime.
Proof.
  intros [_ _ _ [Hq Ht]]. unfold corrected_age.
  assert (0 <= 0 <= kMaxLifetimeSeconds * 100 + kMaxTime) as H0 by (unfold kMaxLifetimeSeconds, kMaxTime; lia).
  destruct (get_response_header a (str "age")) as [v|]; [|done]. destruct (trim v) as [|c l]; [done|].
  destruct (age_value 0 (c :: l)) as [n|] eqn:E; [|done].
  apply age_value_range in E; [|unfold kMaxLifetimeSeconds; lia].
  destruct (Z.ltb_spec 0 (_request_time a)), (Z.leb_spec (_request_time a) (_response_time a)); cbn [andb]; lia.
Qed.

Lemma freshness_lifetime_range clock a life : freshness_lifetime clock a = Some life -> 0 <= life <= kMaxLifetimeSeconds.
Proof.
  unfold freshness_lifetime, max_age.
  destruct (get_response_header a (str "cache-control")) as [cc|]; cbn [mbind option_bind].
  1: destruct (cache_control_seconds cc (str "s-maxage")) as [s|] eqn:E1; [intros [= <-]; now apply cache_control_range in E1|].
  1: destruct (cache_control_seconds cc (str "max-age")) as [s|] eqn:E2; [intros [= <-]; now apply cache_control_range in E2|].
  all: destruct (get_response_header a (str "expires")) as [e|]; [intros [= <-]; unfold expires_lifetime;
    set (life0 := match parse_http_date clock e with Some _ => _ | None => _ end);
    destruct (Z.ltb_spec life0 0); [unfold kMaxLifetimeSeconds; lia|]; destruct (Z.ltb_spec kMaxLifetimeSeconds life0); unfold kMaxLifetimeSeconds in *; lia|].
  all: unfold heuristic_lifetime; destruct (get_response_header a (str "last-modified")) as [lm|]; cbn [mbind option_bind]; [|done];
    destruct (cacheable_by_default _); [|done]; destruct (parse_http_date clock lm) as [t|]; cbn [mbind option_bind]; [|done];
    destruct (Z.ltb_spec t (freshness_base clock a)); [|done]; intros [= <-];
    pose proof (Z.quot_pos (freshness_base clock a - t) 10 ltac:(lia) ltac:(lia)); unfold kMaxLifetimeSeconds; lia.
Qed.

(** Freshness is a bounded window from the response on: whatever headers
    a response carries, it is never fresh before its response time nor a year
    after it, and it is fresh at every instant between its response and one at
    which it is fresh (once stale, it stays stale); and the age the test uses
    lies between zero and the resident time plus the clamped times and Age
    header, far from the 64-bit limits. *)
Theorem freshness_window clock a now :
  alt_ok a ->
  (0 <= age clock a now <= Z.max 0 (now - _response_time a) + kMaxTime + 100 * kMaxLifetimeSeconds) /\
  (is_fresh clock a now = true ->
     _response_time a <= now < _response_time a + kMaxLifetimeSeconds /\
     (forall now', _response_time a <= now' <= now -> is_fresh clock a now' = true)).
Proof.
  intros Ha. pose proof (apparent_age_range clock a Ha). pose proof (corrected_age_range a Ha).
  split; [unfold age, kMaxTime, kMaxLifetimeSeconds in *; destruct (Z.ltb_spec now (_response_time a)); lia|].
  unfold is_fresh, age. destruct (Z.ltb_spec now (_response_time a)); [done|].
  destruct (freshness_lifetime clock a) as [life|] eqn:El; [|done]. apply freshness_lifetime_range in El.
  rewrite Z.ltb_lt. intros Hf. split; [lia|]. intros now' Hn.
  destruct (Z.ltb_spec now' (_response_time a)); [lia|]. apply Z.ltb_lt. lia.
Qed.

(** ** Witnesses *)

Definition sample_alt : HttpCacheAlt :=
  fold_left apply_setter
    [set_request_method (str "GET"); set_request_url (str "/"); set_request_header (str "Accept") (str "*/*");
     set_status_code 200; set_response_header (str "Cache-Control") (str "max-age=60, S-MAXAGE=90");
     set_response_header (str "Age") (str "30"); set_response_time 1000000] new_alt.

Lemma sample_alt_ok : alt_ok sample_alt.
Proof. apply setters_ok. repeat constructor; done. Qed.

Lemma http_alt_roundtrip_witness : deserialize_alt (serialize_alt sample_alt) = Some sample_alt.
Proof.
  eapply http_alt_roundtrip with (data := serialize_alt sample_alt) (b := sample_alt); [|vm_compute; reflexivity].
  split; [exact sample_alt_ok|split; vm_compute; reflexivity| |]; (split; [vm_compute; discriminate|]); repeat constructor; done.
Defined.

Lemma http_dates_agree_witness :
  parse_http_date 1700000000 (asctime_text (str "Sun") 6 11 1994 8 49 37) = Some 784111777.
Proof.
  refine (proj2 (proj2 (http_dates_agree 1700000000 (str "Sunday") 83 117 110 6 11 1994 8 49 37 _ _ _ _ _ _))).
  all: try (split; lia).
  all: try (vm_compute; split; congruence || lia).
  all: try (split; [done|]; repeat constructor; done).
  all: vm_compute; discriminate.
Defined.

Lemma freshness_window_witness :
  is_fresh 1700000000 sample_alt 1000059 = true /\ is_fresh 1700000000 sample_alt 1000030 = true /\
  is_fresh 1700000000 sample_alt 1000060 = false.
Proof.
  assert (is_fresh 1700000000 sample_alt 1000059 = true) as Hf by (vm_compute; reflexivity).
  split; [exact Hf|]. split; [|vm_compute; reflexivity].
  apply (freshness_window 1700000000 sample_alt 1000059 sample_alt_ok) in Hf as [_ Hf]. apply Hf. vm_compute. split; discriminate.
Defined.

Lemma deserialize_whole_input_witness :
  deserialize_alt (serialize_alt sample_alt) <> None /\ deserialize_alt (serialize_alt sample_alt ++ [0]) = None.
Proof.
  assert (deserialize_alt (serialize_alt sample_alt) <> None) as H by (vm_compute; discriminate).
  split; [exact H | apply (deserialize_whole_input (serialize_alt sample_alt) [0] H); discriminate].
Defined.
