(* ===== verification/HttpAlternate.v ===== *)
(** * Choosing among cached variants (src/src/plugin/http/http_alternate.cpp)

    The HTTP plugin's content negotiation: q-values, the Accept headers, Vary
    matching, the choice of a variant and its freshness verdict; and the
    storage-layer selectors of src/include/cyclone/alternate.hpp.  Qualities
    are C++ floats ([Floats]).  [eviction_priority] is left out: it goes
    through the C library's logarithm. *)

From Stdlib Require Import Ascii String.
From S2P Require Import Prelude Floats Key Document Text HttpMetadata.
Local Open Scope cyc_scope.

(** ** Quality values *)

Definition is_digit (c : Z) : bool := (48 <=? c) && (c <=? 57).

(** The integer part: [inl] is the early return at a value above one. *)
Fixpoint q_integer (result : float) (has_digits : bool) (l : text) : float + (float * bool * text) :=
  match l with
  | c :: l' =>
      if is_digit c then
        let result := fadd (fmul result (float_of 10)) (float_of (c - 48)) in
        if fgt result (float_of 1) then inl (float_of 1) else q_integer result true l'
      else inr (result, has_digits, l)
  | [] => inr (result, has_digits, [])
  end.

Fixpoint q_fraction (result divisor : float) (has_digits : bool) (l : text) : float * bool :=
  match l with
  | c :: l' =>
      if is_digit c then
        q_fraction (fadd result (fdiv (float_of (c - 48)) divisor)) (fmul divisor (float_of 10)) true l'
      else (result, has_digits)
  | [] => (result, has_digits)
  end.

Definition parse_q_value (qval : text) : float :=
  match drop_front (Z.eqb 32) qval with
  | [] => float_of 1
  | c :: rest as qval =>
      let '(negative, l) := if c =? 45 then (true, rest) else (false, qval) in
      match q_integer (float_of 0) false l with
      | inl q => q
      | inr (result, has_digits, l) =>
          let '(result, has_digits) :=
            match l with
            | c :: l' => if c =? 46 then q_fraction result (float_of 10) has_digits l' else (result, has_digits)
            | [] => (result, has_digits)
            end in
          if negb has_digits then float_of 1
          else if negative then float_of 0
          else if fgt result (float_of 1) then float_of 1 else result
      end
  end.

(** ** Header blocks and lists *)

Definition is_ows_cr (c : Z) : bool := is_ows c || (c =? 13).
Definition trim_vary_ows (s : text) : text := drop_back is_ows_cr (drop_front is_ows s).

(** The value of the first line that starts with the name and a colon; empty
    when there is none. *)
Fixpoint scan_lines (search_name : text) (l : list text) : text :=
  match l with
  | [] => []
  | line :: l' =>
      if (length search_name <=? length line)%nat
         && text_eqb (lower_name (take (length search_name) line)) (lower_name search_name)
      then trim_vary_ows (drop (length search_name) line)
      else scan_lines search_name l'
  end.
Definition parse_header_value (request_headers : text) (name : text) : text :=
  scan_lines (name ++ str ":") (pieces 10 request_headers).

(** One element of a list header: a token and its quality. *)
Record RangeItem := { ri_token : text; ri_q : float }.

Fixpoint range_params (q : float) (l : list text) : float :=
  match l with
  | [] => q
  | param :: l' =>
      range_params
        match find (chr "=") param with
        | Some eq => if iequals (trim (take eq param)) (str "q") then parse_q_value (trim (drop (eq + 1) param)) else q
        | None => q
        end l'
  end.

Definition parse_range_item (item : text) : RangeItem :=
  match split_on (chr ";") item with
  | token :: params => {| ri_token := trim token; ri_q := range_params (float_of 1) params |}
  | [] => {| ri_token := []; ri_q := float_of 1 |}
  end.

(** What [for_each_range] visits. *)
Definition ranges (l : text) : list RangeItem :=
  filter (fun item => ri_token item <> []) (map parse_range_item (pieces (chr ",") l)).

(** ** Negotiation *)

(** The running choice of the three headers: specificity and quality. *)
Definition better (best : Z * float) (specificity : Z) (q : float) : Z * float :=
  if specificity =? 0 then best
  else if (best.1 <? specificity) || ((specificity =? best.1) && fgt q best.2) then (specificity, q) else best.

Definition best_range (specificity : text -> Z) (l : list RangeItem) : Z * float :=
  fold_left (fun best item => better best (specificity (ri_token item)) (ri_q item)) l (0, float_of 0).

Definition media_specificity (type subtype : text) (range : text) : Z :=
  let n := length range in
  if text_eqb range (str "*/*") then 1
  else if (2 <? n)%nat && text_eqb (drop (n - 2) range) (str "/*") then
    if iequals (take (n - 2) range) type then 2 else 0
  else match find (chr "/") range with
       | Some rslash => if iequals (take rslash range) type && iequals (drop (rslash + 1) range) subtype then 3 else 0
       | None => 0
       end.

(** Type and subtype of a Content-Type, parameters left off. *)
Definition media_type (content_type : text) : option (text * text) :=
  slash ← find (chr "/") content_type;
  let type := trim (take slash content_type) in
  let subtype := drop (slash + 1) content_type in
  let subtype := match find (chr ";") subtype with Some semi => take semi subtype | None => subtype end in
  Some (type, trim subtype).

Definition calculate_accept_quality (accept content_type : text) : float :=
  match accept with
  | [] => float_of 1
  | _ =>
      match media_type content_type with
      | None => float_of 0
      | Some (type, subtype) => (best_range (media_specificity type subtype) (ranges accept)).2
      end
  end.

Definition coding_specificity (content_encoding token : text) : Z :=
  if iequals token content_encoding then 2 else if text_eqb token (str "*") then 1 else 0.

Definition calculate_accept_encoding_quality (accept_encoding content_encoding : text) : float :=
  match accept_encoding with
  | [] => float_of 1
  | _ =>
      let best := best_range (coding_specificity content_encoding) (ranges accept_encoding) in
      if 0 <? best.1 then best.2
      else if iequals content_encoding (str "identity") then float_of 1 else float_of 0
  end.

(** One more than the length of the matching range, zero for none: the pair
    of [matched] and [best_length] in one number. *)
Definition language_specificity (content_language lang : text) : Z :=
  if text_eqb lang (str "*") then 1
  else if iequals lang content_language then 1 + Z.of_nat (length lang)
  else if (length lang <? length content_language)%nat
          && iequals (take (length lang) content_language) lang
          && (nth (length lang) content_language 0 =? 45)
       then 1 + Z.of_nat (length lang)
  else 0.

Definition calculate_accept_language_quality (accept_language content_language : text) : float :=
  match accept_language with
  | [] => float_of 1
  | _ =>
      let best := best_range (language_specificity content_language) (ranges accept_language) in
      if 0 <? best.1 then best.2 else float_of 0
  end.

(** ** Vary *)

Definition kTokenListNames : list text :=
  map str ["accept"; "accept-encoding"; "accept-language"; "accept-charset"]%string.
Definition is_token_list_header (name : text) : bool :=
  existsb (fun candidate => text_eqb (lower_name name) candidate) kTokenListNames.

(** [std::sort], [std::unique]. *)
Fixpoint insert_text (t : text) (l : list text) : list text :=
  match l with
  | [] => [t]
  | x :: l' => if text_ltb x t then x :: insert_text t l' else t :: l
  end.
Definition sort_texts (l : list text) : list text := fold_right insert_text [] l.
Fixpoint unique (l : list text) : list text :=
  match l with
  | x :: (y :: _) as l' => if text_eqb x y then unique l' else x :: unique l'
  | l => l
  end.

Definition list_elements (value : text) : list text :=
  map (fun element => lower_name (filter (fun c => is_ows c = false) element))
    (filter (fun element => element <> []) (map trim_vary_ows (split_on (chr ",") value))).
Definition canonical_token_set (value : text) : list text := unique (sort_texts (list_elements value)).

Definition vary_values_match (name cached request : text) : bool :=
  if is_token_list_header name then bool_decide (canonical_token_set cached = canonical_token_set request)
  else text_eqb (trim_vary_ows cached) (trim_vary_ows request).

Definition check_vary_match (cached : HttpCacheAlt) (request_headers : text) : bool :=
  match get_response_header cached (str "Vary") with
  | None | Some [] => true
  | Some vary =>
      if text_eqb vary (str "*") then false
      else forallb (fun piece =>
        match drop_back (Z.eqb 32) (drop_front (Z.eqb 32) piece) with
        | [] => true
        | header_name =>
            vary_values_match header_name (default [] (get_request_header cached header_name))
              (parse_header_value request_headers header_name)
        end) (pieces (chr ",") vary)
  end.

(** ** The plugin *)

Record CacheVariant := {
  cv_key : CacheKey; cv_metadata : list Z; cv_content_length : Z;
  cv_created : Z; cv_last_accessed : Z; cv_hit_count : Z }.

(** The quality of one variant for a request; [None] when it is passed over. *)
Definition variant_quality (request_headers : text) (v : CacheVariant) : option float :=
  let accept := parse_header_value request_headers (str "Accept") in
  let accept_encoding := parse_header_value request_headers (str "Accept-Encoding") in
  let accept_language := parse_header_value request_headers (str "Accept-Language") in
  match cv_metadata v with
  | [] => None
  | _ =>
      alt ← deserialize_alt (cv_metadata v);
      if negb (check_vary_match alt request_headers) then None
      else
        let quality := float_of 1 in
        let quality :=
          match accept, get_response_header alt (str "Content-Type") with
          | _ :: _, Some content_type => fmul quality (calculate_accept_quality accept content_type)
          | _, _ => quality
          end in
        let quality :=
          match accept_encoding with
          | [] => quality
          | _ => fmul quality (calculate_accept_encoding_quality accept_encoding
                   (default (str "identity") (get_response_header alt (str "Content-Encoding"))))
          end in
        let quality :=
          match accept_language, get_response_header alt (str "Content-Language") with
          | _ :: _, Some content_language => fmul quality (calculate_accept_language_quality accept_language content_language)
          | _, _ => quality
          end in
        Some quality
  end.

Fixpoint select_from (request_headers : text) (i : nat) (best_index : nat) (best_quality : float)
    (l : list CacheVariant) : nat * float :=
  match l with
  | [] => (best_index, best_quality)
  | v :: l' =>
      match variant_quality request_headers v with
      | Some quality =>
          if fgt quality best_quality then select_from request_headers (S i) i quality l'
          else select_from request_headers (S i) best_index best_quality l'
      | None => select_from request_headers (S i) best_index best_quality l'
      end
  end.

Definition select_variant (variants : list CacheVariant) (request_headers : text) : option nat :=
  match variants with
  | [] => None
  | _ =>
      let '(best_index, best_quality) := select_from request_headers 0 0 (float_of 0) variants in
      if SFleb best_quality (float_of 0) then None else Some best_index
  end.

(** [haystack.find(needle) != npos]. *)
Fixpoint contains_text (needle haystack : text) : bool :=
  text_eqb (take (length needle) haystack) needle
  || match haystack with [] => false | _ :: l => contains_text needle l end.

Inductive FreshnessResult := Fresh | Stale | MustRevalidate | Error.

Definition check_freshness (clock : Z) (variant : CacheVariant) (now : Z) (force_revalidate : bool) : FreshnessResult :=
  if force_revalidate then MustRevalidate
  else match cv_metadata variant with
  | [] => Error
  | _ =>
      match deserialize_alt (cv_metadata variant) with
      | None => Error
      | Some alt =>
          let '(no_cache, must_revalidate) :=
            match get_response_header alt (str "Cache-Control") with
            | Some cc =>
                let lowered := lower_name cc in
                (contains_text (str "no-cache") lowered,
                 contains_text (str "must-revalidate") lowered || contains_text (str "proxy-revalidate") lowered
                 || contains_text (str "s-maxage") lowered)
            | None => (false, false)
            end in
          if no_cache then MustRevalidate
          else if is_fresh clock alt now then Fresh
          else if must_revalidate then MustRevalidate else Stale
      end
  end.

(** ** The storage-layer selectors (src/include/cyclone/alternate.hpp) *)

Definition Original : Z := 0.
Definition Brotli : Z := 1.
Definition Zstd : Z := 2.
Definition Gzip : Z := 3.

Definition is_acceptable (acceptable : list Z) (id : Z) : bool :=
  match acceptable with [] => true | _ => bool_decide (id ∈ acceptable) end.

(** The first alternate with a property, from index [i] on. *)
Fixpoint first_index (p : Z -> bool) (i : nat) (ids : list Z) : option nat :=
  match ids with
  | [] => None
  | id :: ids' => if p id then Some i else first_index p (S i) ids'
  end.

Definition default_select (ids acceptable : list Z) : option nat :=
  match ids with
  | [] => None
  | _ => match acceptable with
         | [] => Some 0%nat
         | _ => first_index (fun id => bool_decide (id ∈ acceptable)) 0 ids
         end
  end.

Record Slots := { brotli_idx : option nat; zstd_idx : option nat; gzip_idx : option nat; original_idx : option nat;
                  first_acceptable_idx : option nat }.

Definition keep (slot : option nat) (i : nat) : option nat := match slot with Some _ => slot | None => Some i end.

(** One round of the selector's loop. *)
Definition note_alternate (acceptable : list Z) (s : Slots) (i : nat) (id : Z) : Slots :=
  if negb (is_acceptable acceptable id) then s
  else {|
    brotli_idx := if id =? Brotli then keep (brotli_idx s) i else brotli_idx s;
    zstd_idx := if id =? Zstd then keep (zstd_idx s) i else zstd_idx s;
    gzip_idx := if id =? Gzip then keep (gzip_idx s) i else gzip_idx s;
    original_idx := if id =? Original then keep (original_idx s) i else original_idx s;
    first_acceptable_idx := keep (first_acceptable_idx s) i |}.

Fixpoint scan_alternates (acceptable : list Z) (s : Slots) (i : nat) (ids : list Z) : Slots :=
  match ids with
  | [] => s
  | id :: ids' => scan_alternates acceptable (note_alternate acceptable s i id) (S i) ids'
  end.

Definition no_slots : Slots := {|
  brotli_idx := None; zstd_idx := None; gzip_idx := None; original_idx := None; first_acceptable_idx := None |}.

Definition or_else (a b : option nat) : option nat := match a with Some _ => a | None => b end.

Definition compression_select (ids acceptable : list Z) (prefer_compressed : bool) : option nat :=
  match ids with
  | [] => None
  | _ =>
      if negb prefer_compressed then first_index (is_acceptable acceptable) 0 ids
      else
        let s := scan_alternates acceptable no_slots 0 ids in
        or_else (brotli_idx s) (or_else (zstd_idx s) (or_else (gzip_idx s) (or_else (original_idx s) (first_acceptable_idx s))))
  end.

(** ** The best variant *)

(** Entry [k] of [l] is chosen: its quality is [q], no other is above it and
    none before it reaches it. *)
Record chosen (qs : list (option float)) (k : nat) (q : float) : Prop := {
  ch_own : qs !! k = Some (Some q);
  ch_best j q' : qs !! j = Some (Some q') -> SFltb q q' = false;
  ch_first j q' : (j < k)%nat -> qs !! j = Some (Some q') -> SFleb q q' = false;
}.

Lemma select_from_spec req l i bi bq i' q' :
  select_from req i bi bq l = (i', q') ->
  let qs := map (variant_quality req) l in
  ((i', q') = (bi, bq) /\ forall j q, qs !! j = Some (Some q) -> SFltb bq q = false) \/
  (exists k, i' = (i + k)%nat /\ SFltb bq q' = true /\ chosen qs k q').
Proof.
  revert i bi bq. induction l as [|v l IH]; intros i bi bq; cbn [select_from map].
  { intros [= <- <-]. left. split; [done|]. now intros j q. }
  destruct (variant_quality req v) as [qv|] eqn:Ev; [destruct (fgt qv bq) eqn:Eg|]; intros Hs; apply IH in Hs.
  - right. unfold fgt in Eg. destruct Hs as [[[= -> ->] Hall]|(k & -> & Hlt & [Hown Hbest Hfirst])].
    + exists 0%nat. split; [lia|]. split; [done|]. split; [done| |lia].
      intros [|j] q; cbn; [intros [= <-]; apply SFltb_irrefl|apply Hall].
    + exists (S k). split; [lia|]. split; [now apply (SFltb_trans _ qv)|]. split; [done| |].
      * intros [|j] q; cbn; [intros [= <-]|apply Hbest]. apply not_true_iff_false. intros Hc.
        pose proof (SFltb_trans _ _ _ Hlt Hc) as H0. now rewrite SFltb_irrefl in H0.
      * intros [|j] q Hj; cbn; [intros [= <-]; now apply SFltb_leb|apply Hfirst; lia].
  - unfold fgt in Eg. destruct Hs as [[[= -> ->] Hall]|(k & -> & Hlt & [Hown Hbest Hfirst])].
    + left. split; [done|]. intros [|j] q; cbn; [intros [= <-]; done|apply Hall].
    + right. exists (S k). split; [lia|]. split; [done|]. split; [done| |].
      * intros [|j] q; cbn; [intros [= <-]|apply Hbest]. apply not_true_iff_false. intros Hc.
        pose proof (SFltb_trans _ _ _ Hlt Hc). congruence.
      * intros [|j] q Hj; cbn; [intros [= <-]|apply Hfirst; lia]. apply not_true_iff_false. intros Hc.
        pose proof (SFltb_leb_trans _ _ _ Hlt Hc). congruence.
  - destruct Hs as [[[= -> ->] Hall]|(k & -> & Hlt & [Hown Hbest Hfirst])].
    + left. split; [done|]. intros [|j] q; cbn; [done|apply Hall].
    + right. exists (S k). split; [lia|]. split; [done|]. split; [done| |].
      * intros [|j] q; cbn; [done|apply Hbest].
      * intros [|j] q Hj; cbn; [done|apply Hfirst; lia].
Qed.

(** C35. Negotiation picks the best variant: [select_variant] returns the
    first of the acceptable variants (metadata readable, Vary satisfied)
    whose quality no other exceeds, and that quality is above zero; it returns
    none exactly when no variant is acceptable with a quality above zero. *)
Theorem select_variant_best req variants :
  let qs := map (variant_quality req) variants in
  match select_variant variants req with
  | Some k => exists q, chosen qs k q /\ SFltb (float_of 0) q = true
  | None => forall j q, qs !! j = Some (Some q) -> SFltb (float_of 0) q = false
  end.
Proof.
  intros qs. unfold select_variant. destruct variants as [|v l]; [now intros j q|].
  destruct (select_from req 0 0 (float_of 0) (v :: l)) as [i q] eqn:Es. apply select_from_spec in Es.
  destruct Es as [[[= -> ->] Hall]|(k & -> & Hlt & Hch)].
  - change (SFleb (float_of 0) (float_of 0)) with true. exact Hall.
  - rewrite (SFltb_leb _ _ Hlt). now exists q.
Qed.

(** ** The most specific range decides *)

(** What the running choice amounts to over the specificities and qualities
    of a list. *)
Record decided (l : list (Z * float)) (s : Z) (q : float) : Prop := {
  de_some : 0 < s -> (s, q) ∈ l;
  de_most s' q' : (s', q') ∈ l -> s' <= s;
  de_best q' : 0 < s -> (s, q') ∈ l -> SFltb q q' = false;
}.

Lemma decided_step l s q s' q' :
  0 <= s -> 0 <= s' -> decided l s q -> let b := better (s, q) s' q' in
  0 <= b.1 /\ decided (l ++ [(s', q')]) b.1 b.2.
Proof.
  intros Hs Hs' [Hsome Hmost Hbest]. unfold better. cbn [fst snd].
  assert (forall x y, (x, y) ∈ l ++ [(s', q')] -> (x, y) ∈ l \/ (x = s' /\ y = q')) as Hin.
  { intros x y [?|Hl]%elem_of_app; [now left|]. apply list_elem_of_singleton in Hl as [= -> ->]. now right. }
  destruct (Z.eqb_spec s' 0) as [->|Hne]; [|destruct (Z.ltb_spec s s'); [|destruct (Z.eqb_spec s' s) as [->|]; [destruct (fgt q' q) eqn:Eg|]]];
    cbn [orb andb fst snd]; (split; [done|]); split.
  all: try (intros _; apply elem_of_app; right; apply list_elem_of_singleton; done).
  all: try (intros Hp; apply elem_of_app; left; now apply Hsome).
  all: try (intros x y [Hl|[-> ->]]%Hin; [apply Hmost in Hl|]; lia).
  all: intros y Hp [Hl|[E ->]]%Hin; try (now apply Hbest); try lia; try apply SFltb_irrefl.
  all: try (apply Hmost in Hl; lia).
  - apply not_true_iff_false. intros Hc. specialize (Hbest y Hp Hl).
    pose proof (SFltb_trans _ _ _ Eg Hc). congruence.
  - exact Eg.
Qed.

Lemma best_range_spec (spec : text -> Z) (l : list RangeItem) :
  (forall t, 0 <= spec t) ->
  decided ((fun item => (spec (ri_token item), ri_q item)) <$> l) (best_range spec l).1 (best_range spec l).2.
Proof.
  intros Hpos. unfold best_range.
  assert (forall l pre best, 0 <= best.1 -> decided pre best.1 best.2 ->
    let b := fold_left (fun best item => better best (spec (ri_token item)) (ri_q item)) l best in
    decided (pre ++ ((fun item => (spec (ri_token item), ri_q item)) <$> l)) b.1 b.2) as H.
  { clear l. induction l as [|item l IH]; intros pre [s q] Hs Hd; cbn [fold_left fmap list_fmap]; [now rewrite app_nil_r|].
    destruct (decided_step pre s q (spec (ri_token item)) (ri_q item) Hs (Hpos _) Hd) as [Hs' Hd'].
    specialize (IH _ _ Hs' Hd'). now rewrite <- app_assoc in IH. }
  apply (H l [] (0, float_of 0)); [done|]. split; [cbn; lia| |cbn; lia]. intros s q Hin. now apply not_elem_of_nil in Hin.
Qed.

Lemma best_range_none (spec : text -> Z) l :
  (forall t, 0 <= spec t) -> (best_range spec l).1 = 0 -> (best_range spec l).2 = float_of 0.
Proof.
  intros Hpos. unfold best_range.
  assert (forall l best, 0 <= best.1 -> (best.1 = 0 -> best.2 = float_of 0) ->
    let b := fold_left (fun best item => better best (spec (ri_token item)) (ri_q item)) l best in
    b.1 = 0 -> b.2 = float_of 0) as H; [|now apply H].
  clear l. induction l as [|item l IH]; intros [s q] Hs Hq; cbn [fold_left]; [done|]. specialize (Hpos (ri_token item)).
  apply IH; unfold better; cbn [fst snd] in *;
    destruct (Z.eqb_spec (spec (ri_token item)) 0); cbn [fst snd]; try done;
    destruct (Z.ltb_spec s (spec (ri_token item))); cbn [orb fst snd]; try lia;
    destruct (Z.eqb_spec (spec (ri_token item)) s), (fgt (ri_q item) q); cbn [andb fst snd]; try done; lia.
Qed.

Lemma best_range_nonneg (spec : text -> Z) l : (forall t, 0 <= spec t) -> 0 <= (best_range spec l).1.
Proof.
  intros Hpos. unfold best_range.
  assert (forall l best, 0 <= best.1 ->
    0 <= (fold_left (fun best item => better best (spec (ri_token item)) (ri_q item)) l best).1) as H; [|now apply H].
  clear l. induction l as [|item l IH]; intros [s q] Hs; cbn [fold_left]; [done|]. specialize (Hpos (ri_token item)).
  apply IH. unfold better. repeat case_match; cbn [fst] in *; lia.
Qed.

(** The quality of a list header for content: that of a most specific
    matching range, the highest among those; [otherwise] when none matches. *)
Definition most_specific (spec : text -> Z) (items : list RangeItem) (q otherwise : float) : Prop :=
  (exists item, item ∈ items /\ 0 < spec (ri_token item) /\ q = ri_q item /\
     forall item', item' ∈ items -> spec (ri_token item') <= spec (ri_token item) /\
       (spec (ri_token item') = spec (ri_token item) -> SFltb q (ri_q item') = false)) \/
  ((forall item, item ∈ items -> spec (ri_token item) = 0) /\ q = otherwise).

Lemma best_range_most_specific spec items otherwise :
  (forall t, 0 <= spec t) ->
  most_specific spec items (if 0 <? (best_range spec items).1 then (best_range spec items).2 else otherwise) otherwise.
Proof.
  intros Hpos. destruct (best_range_spec spec items Hpos) as [Hsome Hmost Hbest]. unfold most_specific.
  destruct (Z.ltb_spec 0 (best_range spec items).1) as [Hp|Hz].
  - left. apply Hsome in Hp as Hin. apply list_elem_of_fmap in Hin as (item & E & Hin). destruct (best_range spec items) as [s q].
    injection E as Es Eq. cbn [fst snd] in *. subst s q. exists item. do 3 (split; [done|]).
    intros item' Hin'. split; [apply (Hmost _ (ri_q item')), list_elem_of_fmap; eauto|].
    intros Heq. apply Hbest; [done|]. apply list_elem_of_fmap. exists item'. split; [congruence|done].
  - right. split; [|done]. intros item Hin. specialize (Hpos (ri_token item)).
    specialize (Hmost (spec (ri_token item)) (ri_q item)). rewrite list_elem_of_fmap in Hmost.
    assert (spec (ri_token item) <= (best_range spec items).1) by (apply Hmost; eauto). lia.
Qed.

Lemma media_specificity_nonneg type subtype t : 0 <= media_specificity type subtype t.
Proof. unfold media_specificity. repeat case_match; lia. Qed.
Lemma coding_specificity_nonneg c t : 0 <= coding_specificity c t.
Proof. unfold coding_specificity. repeat case_match; lia. Qed.
Lemma language_specificity_nonneg c t : 0 <= language_specificity c t.
Proof. unfold language_specificity. repeat case_match; lia. Qed.

(** The most specific range decides, whatever the order of the list: the
    quality an Accept, Accept-Encoding or Accept-Language header gives content
    is that of a matching range of the highest specificity (exact type over
    type/* over */*; an exact coding over the asterisk; the longest language
    range), the highest among equally specific ones; content no range matches
    gets zero, except that the identity coding is then acceptable. *)
Theorem negotiation_most_specific accept content_type type subtype encodings content_encoding languages content_language :
  accept <> [] -> media_type content_type = Some (type, subtype) -> encodings <> [] -> languages <> [] ->
  most_specific (media_specificity type subtype) (ranges accept)
    (calculate_accept_quality accept content_type) (float_of 0) /\
  most_specific (coding_specificity content_encoding) (ranges encodings)
    (calculate_accept_encoding_quality encodings content_encoding)
    (if iequals content_encoding (str "identity") then float_of 1 else float_of 0) /\
  most_specific (language_specificity content_language) (ranges languages)
    (calculate_accept_language_quality languages content_language) (float_of 0).
Proof.
  intros Ha Hm He Hl. unfold calculate_accept_quality, calculate_accept_encoding_quality, calculate_accept_language_quality.
  destruct accept as [|a accept]; [done|]. destruct encodings as [|e encodings]; [done|].
  destruct languages as [|l languages]; [done|]. rewrite Hm. split; [|split].
  - pose proof (best_range_most_specific (media_specificity type subtype) (ranges (a :: accept)) (float_of 0)
      (media_specificity_nonneg _ _)) as H.
    destruct (Z.ltb_spec 0 (best_range (media_specificity type subtype) (ranges (a :: accept))).1) as [|Hz]; [exact H|].
    rewrite best_range_none; [exact H|apply media_specificity_nonneg|].
    pose proof (best_range_nonneg (media_specificity type subtype) (ranges (a :: accept)) (media_specificity_nonneg _ _)). lia.
  - apply best_range_most_specific, coding_specificity_nonneg.
  - apply best_range_most_specific, language_specificity_nonneg.
Qed.

(** ** Vary lists as sets *)

Fixpoint strictly_sorted (l : list text) : Prop :=
  match l with
  | [] => True
  | x :: l' => Forall (fun y => text_ltb x y = true) l' /\ strictly_sorted l'
  end.

Fixpoint weakly_sorted (l : list text) : Prop :=
  match l with
  | [] => True
  | x :: l' => Forall (fun y => text_ltb y x = false) l' /\ weakly_sorted l'
  end.

Lemma insert_text_elem t l x : x ∈ insert_text t l <-> x = t \/ x ∈ l.
Proof.
  induction l as [|y l IH]; cbn [insert_text]; [now rewrite list_elem_of_singleton, elem_of_nil; tauto|].
  destruct (text_ltb y t); rewrite !elem_of_cons; [rewrite IH; tauto|tauto].
Qed.

Lemma sort_texts_elem l x : x ∈ sort_texts l <-> x ∈ l.
Proof.
  induction l as [|y l IH]; cbn [sort_texts fold_right]; [done|]. rewrite insert_text_elem, elem_of_cons. fold (sort_texts l). now rewrite IH.
Qed.

Lemma insert_text_sorted t l : weakly_sorted l -> weakly_sorted (insert_text t l).
Proof.
  induction l as [|y l IH]; cbn [insert_text weakly_sorted]; [repeat constructor|]. intros [Hy Hl].
  destruct (text_ltb y t) eqn:E; cbn [weakly_sorted].
  - split; [|now apply IH]. apply Forall_forall. intros x [->|Hx]%insert_text_elem.
    + apply not_true_iff_false. intros Hc. pose proof (text_ltb_trans _ _ _ E Hc) as H0. now rewrite text_ltb_irrefl in H0.
    + now apply (proj1 (Forall_forall _ _) Hy).
  - split; [|done]. constructor; [done|]. apply Forall_forall. intros x Hx. apply (proj1 (Forall_forall _ _) Hy) in Hx.
    apply not_true_iff_false. intros Hc. destruct (text_ltb t y) eqn:E2.
    + rewrite (text_ltb_trans _ _ _ Hc E2) in Hx. done.
    + rewrite (text_ltb_total t y E2 E) in Hc. congruence.
Qed.

Lemma sort_texts_sorted l : weakly_sorted (sort_texts l).
Proof. induction l as [|x l IH]; [done|]. now apply insert_text_sorted. Qed.

Lemma unique_elem l x : x ∈ unique l <-> x ∈ l.
Proof.
  induction l as [|y [|z l] IH]; [done|done|].
  change (unique (y :: z :: l)) with (if text_eqb y z then unique (z :: l) else y :: unique (z :: l)).
  unfold text_eqb. case_bool_decide as E; [subst z; rewrite IH, !elem_of_cons; tauto|].
  rewrite elem_of_cons, IH, (elem_of_cons (z :: l)). tauto.
Qed.

Lemma unique_sorted l : weakly_sorted l -> strictly_sorted (unique l).
Proof.
  induction l as [|y [|z l] IH]; [done|done|]. intros [Hy Hl]. specialize (IH Hl).
  change (unique (y :: z :: l)) with (if text_eqb y z then unique (z :: l) else y :: unique (z :: l)).
  unfold text_eqb. case_bool_decide as E; [done|]. split; [|done]. apply Forall_forall. intros x Hx. rewrite unique_elem in Hx.
  pose proof (proj1 (Forall_forall _ _) Hy x Hx) as Hxy. destruct (text_ltb y x) eqn:E2; [done|].
  pose proof (text_ltb_total y x E2 Hxy) as <-. exfalso. apply elem_of_cons in Hx as [->|Hx]; [done|].
  destruct Hl as [Hz _]. apply (proj1 (Forall_forall _ _) Hz) in Hx. apply Forall_cons in Hy as [Hzy _].
  now rewrite (text_ltb_total y z Hx Hzy) in E.
Qed.

Lemma strictly_sorted_eq a b :
  strictly_sorted a -> strictly_sorted b -> (forall x, x ∈ a <-> x ∈ b) -> a = b.
Proof.
  assert (forall x l, strictly_sorted (x :: l) -> forall y, y ∈ l -> text_ltb x y = true) as Hlt.
  { intros x l [Hx _] y Hy. now apply (proj1 (Forall_forall _ _) Hx). }
  assert (forall x l, strictly_sorted (x :: l) -> x ∉ l) as Hni.
  { intros x l Hs Hx. apply (Hlt x l Hs) in Hx. now rewrite text_ltb_irrefl in Hx. }
  revert b. induction a as [|x a IH]; intros [|y b] Ha Hb Hab.
  - done.
  - pose proof (proj2 (Hab y) (list_elem_of_here _ _)) as Hy. now apply not_elem_of_nil in Hy.
  - pose proof (proj1 (Hab x) (list_elem_of_here _ _)) as Hx. now apply not_elem_of_nil in Hx.
  - assert (x = y) as ->.
    { pose proof (proj1 (Hab x) (list_elem_of_here _ _)) as Hx. pose proof (proj2 (Hab y) (list_elem_of_here _ _)) as Hy.
      apply elem_of_cons in Hx as [->|Hx]; [done|]. apply elem_of_cons in Hy as [->|Hy]; [done|].
      pose proof (text_ltb_trans _ _ _ (Hlt _ _ Ha _ Hy) (Hlt _ _ Hb _ Hx)) as Hc. now rewrite text_ltb_irrefl in Hc. }
    f_equal. apply IH; [apply Ha|apply Hb|]. intros z. specialize (Hab z). rewrite !elem_of_cons in Hab.
    split; intros Hz; [destruct (proj1 Hab (or_intror Hz)) as [->|]|destruct (proj2 Hab (or_intror Hz)) as [->|]]; try done.
    + now apply Hni in Hz.
    + now apply Hni in Hz.
Qed.

(** Vary on a negotiation header compares sets: a cached value of
    Accept, Accept-Encoding, Accept-Language or Accept-Charset matches the
    request's exactly when both lists have the same elements up to case and
    blanks; order and repetition do not matter. *)
Theorem vary_compares_sets name cached request :
  is_token_list_header name = true ->
  vary_values_match name cached request = true <->
  (forall t, t ∈ list_elements cached <-> t ∈ list_elements request).
Proof.
  intros Hn. unfold vary_values_match. rewrite Hn, bool_decide_eq_true. unfold canonical_token_set. split.
  - intros E t. rewrite <- (sort_texts_elem (list_elements cached)), <- (sort_texts_elem (list_elements request)).
    now rewrite <- unique_elem, E, unique_elem.
  - intros H. apply strictly_sorted_eq; try apply unique_sorted, sort_texts_sorted.
    intros x. now rewrite !unique_elem, !sort_texts_elem.
Qed.

(** ** The storage selectors *)

Lemma keep_or_else a i b : or_else (keep a i) b = or_else a (Some i).
Proof. now destruct a. Qed.

Lemma or_else_assoc a b c : or_else (or_else a b) c = or_else a (or_else b c).
Proof. now destruct a. Qed.

Lemma scan_alternates_spec acc s i ids :
  let only id := first_index (fun x => is_acceptable acc x && (x =? id)) i ids in
  let s' := scan_alternates acc s i ids in
  brotli_idx s' = or_else (brotli_idx s) (only Brotli) /\ zstd_idx s' = or_else (zstd_idx s) (only Zstd) /\
  gzip_idx s' = or_else (gzip_idx s) (only Gzip) /\ original_idx s' = or_else (original_idx s) (only Original) /\
  first_acceptable_idx s' = or_else (first_acceptable_idx s) (first_index (is_acceptable acc) i ids).
Proof.
  revert s i. induction ids as [|id ids IH]; intros s i; cbn [scan_alternates first_index].
  { unfold or_else. repeat split; now case_match. }
  destruct (IH (note_alternate acc s i id) (S i)) as (-> & -> & -> & -> & ->). unfold note_alternate.
  destruct (is_acceptable acc id); cbn [negb andb brotli_idx zstd_idx gzip_idx original_idx first_acceptable_idx]; [|done].
  repeat split; try (destruct (id =? _); [apply keep_or_else|done]). apply keep_or_else.
Qed.

Lemma first_index_spec p i ids k : first_index p i ids = Some k ->
  exists j id, k = (i + j)%nat /\ ids !! j = Some id /\ p id = true /\ (forall j' id', (j' < j)%nat -> ids !! j' = Some id' -> p id' = false).
Proof.
  revert i. induction ids as [|x ids IH]; intros i; cbn [first_index]; [done|]. destruct (p x) eqn:Ex.
  - intros [= <-]. exists 0%nat, x. repeat split; [lia|done|]. intros j' id' Hj. lia.
  - intros (j & id & -> & Hj & Hp & Hf)%IH. exists (S j), id. repeat split; [lia|done|done|].
    intros [|j'] id' Hl; cbn; [congruence|apply Hf; lia].
Qed.

(** The compression-aware selector serves only what is acceptable, and
    the newest best of it: it is the first acceptable Brotli alternate of the
    chain, else the first Zstd, Gzip, Original, else the first acceptable one
    of any kind, and none when nothing is acceptable. *)
Theorem compression_select_best ids acc :
  let only id := first_index (fun x => is_acceptable acc x && (x =? id)) 0 ids in
  compression_select ids acc true =
    or_else (only Brotli) (or_else (only Zstd) (or_else (only Gzip) (or_else (only Original)
      (first_index (is_acceptable acc) 0 ids)))) /\
  (forall prefer k, compression_select ids acc prefer = Some k ->
     exists id, ids !! k = Some id /\ is_acceptable acc id = true).
Proof.
  intros only.
  assert (compression_select ids acc true =
    or_else (only Brotli) (or_else (only Zstd) (or_else (only Gzip) (or_else (only Original)
      (first_index (is_acceptable acc) 0 ids))))) as E.
  { unfold compression_select. destruct ids as [|id ids]; [done|]. cbn [negb].
    destruct (scan_alternates_spec acc no_slots 0 (id :: ids)) as (-> & -> & -> & -> & ->). done. }
  split; [exact E|].
  assert (forall p k, first_index p 0 ids = Some k -> (forall x, p x = true -> is_acceptable acc x = true) ->
    exists id, ids !! k = Some id /\ is_acceptable acc id = true) as Hfi.
  { intros p k (j & id & -> & Hj & Hp & _)%first_index_spec Himp. exists id. split; [exact Hj|now apply Himp]. }
  intros [|] k; [rewrite E|].
  - assert (forall id k, only id = Some k -> exists x, ids !! k = Some x /\ is_acceptable acc x = true) as Ho.
    { intros id k' Hk. apply (Hfi _ _ Hk). now intros x [? _]%andb_true_iff. }
    unfold or_else. clear E. repeat case_match; intros Hk; first [injection Hk as <-; eapply Ho; eassumption|now apply (Hfi _ _ Hk)].
  - unfold compression_select. destruct ids as [|id ids]; [done|]. cbn [negb]. intros Hk. now apply (Hfi _ _ Hk).
Qed.

(** ** Examples and witnesses *)

Definition sample_request : text :=
  str "GET / HTTP/1.1" ++ [13; 10] ++ str "accept-encoding: gzip;q=0.5, br" ++ [13; 10] ++ str "Accept: text/*;q=0.9, */*;q=0.1" ++ [13; 10].

Definition sample_variant (encoding type : text) : CacheVariant := {|
  cv_key := {| _hash := repeat 0 32 |};
  cv_metadata := serialize_alt (fold_left apply_setter
    [set_response_header (str "Content-Encoding") encoding; set_response_header (str "Content-Type") type;
     set_response_header (str "Vary") (str "accept-encoding"); set_request_header (str "Accept-Encoding") (str "BR,gzip; q=0.5")] new_alt);
  cv_content_length := 0; cv_created := 0; cv_last_accessed := 0; cv_hit_count := 0 |}.

Example select_sample :
  select_variant [sample_variant (str "gzip") (str "text/html"); sample_variant (str "br") (str "image/png");
                  sample_variant (str "br") (str "text/html; charset=utf-8")] sample_request = Some 2%nat.
Proof. vm_compute. reflexivity. Qed.

(** A list that names other headers beside the asterisk is not taken for
    [Vary: *]. *)
Example vary_star_in_list :
  check_vary_match (fold_left apply_setter [set_response_header (str "Vary") (str "accept, *")] new_alt) [] = true /\
  check_vary_match (fold_left apply_setter [set_response_header (str "Vary") (str "*")] new_alt) [] = false.
Proof. vm_compute. done. Qed.

Lemma negotiation_most_specific_witness :
  calculate_accept_quality (str "*/*;q=0.1, text/*;q=0.9") (str "text/html") = parse_q_value (str "0.9").
Proof.
  destruct (negotiation_most_specific (str "*/*;q=0.1, text/*;q=0.9") (str "text/html") (str "text") (str "html")
    (str "br") (str "br") (str "en") (str "en")) as [H _]; try discriminate; [vm_compute; reflexivity|].
  destruct H as [(item & Hin & Hpos & -> & Hall)|[Hnone _]].
  - change (ranges (str "*/*;q=0.1, text/*;q=0.9")) with (ranges (str "*/*;q=0.1, text/*;q=0.9")) in *.
    vm_compute in Hin. apply elem_of_cons in Hin as [->|Hin].
    + exfalso. specialize (Hall {| ri_token := str "text/*"; ri_q := parse_q_value (str "0.9") |}).
      destruct Hall as [Hle _]; [vm_compute; right; left|]. vm_compute in Hle. now apply Hle.
    + apply list_elem_of_singleton in Hin as ->. vm_compute. reflexivity.
  - specialize (Hnone {| ri_token := str "text/*"; ri_q := parse_q_value (str "0.9") |}).
    exfalso. assert (2 = 0) as Hc; [|discriminate]. refine (Hnone _). vm_compute. right. left.
Defined.

Lemma vary_compares_sets_witness :
  vary_values_match (str "Accept-Encoding") (str "gzip, br") (str "BR ,gzip,gzip") = true.
Proof.
  apply vary_compares_sets; [vm_compute; reflexivity|]. intros t.
  change (list_elements (str "gzip, br")) with [str "gzip"; str "br"].
  change (list_elements (str "BR ,gzip,gzip")) with [str "br"; str "gzip"; str "gzip"].
  rewrite !elem_of_cons. tauto.
Defined.
