(* ===== verification/HitTracker.v ===== *)
(** * Hit tracking (src/src/core/hit_tracker.cpp)

    Hits are counted in memory per key and alternate and flushed to the
    volume by a callback.  The 4096 stripes hold one pending map each and a key
    belongs to one stripe, so they are one map here, and stripe [i] is the part
    of it whose keys hash to [i].  Each critical section is one definition; the
    operations compose them, and [step] interleaves them between threads.

    The callback's verdicts and the clocks are arguments; the calls made are
    the log [ht_log].  A flush callback is set, as the cache sets one, and
    returns: without one a sweep drops what it drained (hit_tracker.cpp:192),
    and one that throws ends the sweep (the flush thread catches it), with the
    rest of the drained stripe lost. *)

From S2P Require Import Prelude Key.
Local Open Scope cyc_scope.

Record HitTrackingKey := { hk_key : CacheKey; hk_alternate_id : Z }.

#[export] Instance HitTrackingKey_eq_dec : EqDecision HitTrackingKey.
Proof. solve_decision. Defined.

#[export] Instance HitTrackingKey_countable : Countable HitTrackingKey :=
  inj_countable' (fun k => (_hash (hk_key k), hk_alternate_id k))
    (fun p => {| hk_key := {| _hash := p.1 |}; hk_alternate_id := p.2 |})
    ltac:(by intros [[]]).

Record HitRecord := { hr_delta : Z; hr_last_access_ms : Z }.

Record HitTrackerConfig := {
  flush_threshold : Z;
  enable_background_flush : bool;
  max_pending_entries : Z;
}.

(** One call of the flush callback. *)
Abbreviation flush_call := (HitTrackingKey * HitRecord)%type.

Record HitTracker := {
  ht_pending : gmap HitTrackingKey HitRecord;
  ht_pending_entries : Z;
  ht_overflow_drops : Z;
  ht_over_cap_since : Z;
  ht_flush_soon : bool;
  ht_flush_in_progress : bool;
  ht_running : bool;
  ht_flush_failures : Z;
  ht_log : list flush_call;
  ht_batches : Z;     (* calls of the batch-done callback *)
}.

Definition kNumStripes : Z := 4096.
Definition kOverCapGraceNs : Z := 250 * 1000 * 1000.
Definition stripe_index (key : CacheKey) : Z := key_hash key mod kNumStripes.

Definition new_tracker : HitTracker := {|
  ht_pending := ∅; ht_pending_entries := 0; ht_overflow_drops := 0; ht_over_cap_since := 0;
  ht_flush_soon := false; ht_flush_in_progress := false; ht_running := false; ht_flush_failures := 0;
  ht_log := []; ht_batches := 0 |}.

Definition set_pending (t : HitTracker) (m : gmap HitTrackingKey HitRecord) (entries : Z) : HitTracker := {|
  ht_pending := m; ht_pending_entries := entries; ht_overflow_drops := ht_overflow_drops t;
  ht_over_cap_since := ht_over_cap_since t; ht_flush_soon := ht_flush_soon t;
  ht_flush_in_progress := ht_flush_in_progress t; ht_running := ht_running t;
  ht_flush_failures := ht_flush_failures t; ht_log := ht_log t; ht_batches := ht_batches t |}.
Definition set_over_cap (t : HitTracker) (since drops : Z) : HitTracker := {|
  ht_pending := ht_pending t; ht_pending_entries := ht_pending_entries t; ht_overflow_drops := drops;
  ht_over_cap_since := since; ht_flush_soon := ht_flush_soon t;
  ht_flush_in_progress := ht_flush_in_progress t; ht_running := ht_running t;
  ht_flush_failures := ht_flush_failures t; ht_log := ht_log t; ht_batches := ht_batches t |}.
Definition set_flags (t : HitTracker) (soon in_progress running : bool) : HitTracker := {|
  ht_pending := ht_pending t; ht_pending_entries := ht_pending_entries t; ht_overflow_drops := ht_overflow_drops t;
  ht_over_cap_since := ht_over_cap_since t; ht_flush_soon := soon;
  ht_flush_in_progress := in_progress; ht_running := running;
  ht_flush_failures := ht_flush_failures t; ht_log := ht_log t; ht_batches := ht_batches t |}.
Definition set_calls (t : HitTracker) (failures : Z) (log : list flush_call) (batches : Z) : HitTracker := {|
  ht_pending := ht_pending t; ht_pending_entries := ht_pending_entries t; ht_overflow_drops := ht_overflow_drops t;
  ht_over_cap_since := ht_over_cap_since t; ht_flush_soon := ht_flush_soon t;
  ht_flush_in_progress := ht_flush_in_progress t; ht_running := ht_running t;
  ht_flush_failures := failures; ht_log := log; ht_batches := batches |}.

(** ** The critical sections *)

Section tracker.
Variable cfg : HitTrackerConfig.

Definition hard_pending_cap : Z := u64 (2 * max_pending_entries cfg).

Definition over_cap_past_grace (now_ns : Z) (t : HitTracker) : bool * HitTracker :=
  let since := ht_over_cap_since t in
  if since =? 0 then (false, set_over_cap t now_ns (ht_overflow_drops t))
  else ((since <? now_ns) && (kOverCapGraceNs <? u64 (now_ns - since)), t).

(** What the reader does once it left the stripe lock. *)
Inductive after_record := Dropped | Counted (over_limit should_flush_key : bool).

Definition count_hit (k : HitTrackingKey) (r : HitRecord) (now_ms : Z) (t : HitTracker) (entries : Z)
  : after_record * HitTracker :=
  let r := {| hr_delta := u32 (hr_delta r + 1); hr_last_access_ms := now_ms |} in
  (Counted (max_pending_entries cfg <? entries) (flush_threshold cfg <=? hr_delta r),
   set_pending t (<[k := r]> (ht_pending t)) entries).

Definition record_section (k : HitTrackingKey) (now_ms now_ns : Z) (t : HitTracker) : after_record * HitTracker :=
  match ht_pending t !! k with
  | Some r => count_hit k r now_ms t (ht_pending_entries t)
  | None =>
      let '(past_grace, t) :=
        if hard_pending_cap <? ht_pending_entries t then over_cap_past_grace now_ns t else (false, t) in
      if past_grace then (Dropped, set_over_cap t (ht_over_cap_since t) (u64 (ht_overflow_drops t + 1)))
      else count_hit k {| hr_delta := 0; hr_last_access_ms := 0 |} now_ms t (u64 (ht_pending_entries t + 1))
  end.

(** [flush_key] and [flush_all_alternates] take entries out and give their
    count back in the same section. *)
Definition take_section (k : HitTrackingKey) (t : HitTracker) : option HitRecord * HitTracker :=
  match ht_pending t !! k with
  | Some r => (Some r, set_pending t (delete k (ht_pending t)) (u64 (ht_pending_entries t - 1)))
  | None => (None, t)
  end.

Definition select (p : HitTrackingKey -> bool) (m : gmap HitTrackingKey HitRecord) : list flush_call :=
  map_to_list (filter (fun kr => p kr.1 = true) m).
Definition rest (p : HitTrackingKey -> bool) (m : gmap HitTrackingKey HitRecord) : gmap HitTrackingKey HitRecord :=
  filter (fun kr => p kr.1 = false) m.

Definition take_all_section (key : CacheKey) (t : HitTracker) : list flush_call * HitTracker :=
  let p k := bool_decide (hk_key k = key) in
  let out := select p (ht_pending t) in
  (out, set_pending t (rest p (ht_pending t)) (u64 (ht_pending_entries t - Z.of_nat (length out)))).

(** [flush_now] moves a stripe's map out in the lock, and takes its size off
    the count after it. *)
Definition in_stripe (i : Z) (k : HitTrackingKey) : bool := stripe_index (hk_key k) =? i.
Definition drain_section (i : Z) (t : HitTracker) : list flush_call * HitTracker :=
  (select (in_stripe i) (ht_pending t), set_pending t (rest (in_stripe i) (ht_pending t)) (ht_pending_entries t)).
Definition subtract (n : Z) (t : HitTracker) : HitTracker :=
  set_pending t (ht_pending t) (u64 (ht_pending_entries t - n)).

(** One call of the callback, which answered [ok]. *)
Definition deliver (c : flush_call) (ok : bool) (t : HitTracker) : HitTracker :=
  if 0 <? hr_delta (snd c) then
    set_calls t (if ok then ht_flush_failures t else u64 (ht_flush_failures t + 1)) (ht_log t ++ [c]) (ht_batches t)
  else t.

(** ** The operations *)

(** The callback, if one is set. *)
Variable flush_callback : option (flush_call -> bool).

Definition deliver_all (l : list flush_call) (t : HitTracker) : bool * HitTracker :=
  match flush_callback with
  | None => (false, t)
  | Some cb =>
      fold_left (fun '(any, t) c => (any || ((0 <? hr_delta (snd c)) && cb c), deliver c (cb c) t)) l (false, t)
  end.

Definition flush_key (k : HitTrackingKey) (t : HitTracker) : HitTracker :=
  match take_section k t with
  | (Some r, t) => snd (deliver_all [(k, r)] t)
  | (None, t) => t
  end.

Definition flush_all_alternates (key : CacheKey) (t : HitTracker) : HitTracker :=
  let '(out, t) := take_all_section key t in snd (deliver_all out t).

Definition sweep_stripe (acc : bool * HitTracker) (i : Z) : bool * HitTracker :=
  let '(any, t) := acc in
  let '(snapshot, t) := drain_section i t in
  let t := match snapshot with [] => t | _ => subtract (Z.of_nat (length snapshot)) t end in
  let '(any', t) := deliver_all snapshot t in (any || any', t).

(** [batch_done] is whether a batch-done callback is set. *)
Definition flush_now (batch_done : bool) (t : HitTracker) : HitTracker :=
  let '(any_flushed, t) := fold_left sweep_stripe (seqZ 0 kNumStripes) (false, t) in
  let t := if any_flushed && batch_done
           then set_calls t (ht_flush_failures t) (ht_log t) (ht_batches t + 1) else t in
  set_over_cap t 0 (ht_overflow_drops t).

Definition flush_soon (batch_done : bool) (t : HitTracker) : HitTracker :=
  if ht_running t && enable_background_flush cfg then
    set_flags t true (ht_flush_in_progress t) (ht_running t)
  else if ht_flush_in_progress t then t
  else
    let t := set_flags t (ht_flush_soon t) true (ht_running t) in
    let t := flush_now batch_done t in
    set_flags t (ht_flush_soon t) false (ht_running t).

Definition record_hit (batch_done : bool) (k : HitTrackingKey) (now_ms now_ns : Z) (t : HitTracker) : HitTracker :=
  match record_section k now_ms now_ns t with
  | (Dropped, t) => t
  | (Counted over_limit should_flush_key, t) =>
      if over_limit then flush_soon batch_done t
      else if should_flush_key then flush_key k t else t
  end.

Definition pending_hits (k : HitTrackingKey) (t : HitTracker) : Z :=
  match ht_pending t !! k with Some r => hr_delta r | None => 0 end.
Definition pending_count (t : HitTracker) : Z := Z.of_nat (size (ht_pending t)).
Definition total_pending_hits (t : HitTracker) : Z :=
  fold_left (fun total kr => u64 (total + hr_delta kr.2)) (map_to_list (ht_pending t)) 0.

(** [start] and [stop]; the background thread itself only calls
    [flush_now], with the hand-off flag cleared first. *)
Definition start (t : HitTracker) : HitTracker :=
  if ht_running t then t else set_flags t (ht_flush_soon t) (ht_flush_in_progress t) true.
Definition stop (batch_done : bool) (t : HitTracker) : HitTracker :=
  if ht_running t then flush_now batch_done (set_flags t (ht_flush_soon t) (ht_flush_in_progress t) false) else t.
Definition flush_thread_pass (batch_done : bool) (t : HitTracker) : HitTracker :=
  if ht_running t then flush_now batch_done (set_flags t false (ht_flush_in_progress t) (ht_running t)) else t.
End tracker.

(** ** Threads, interleaved section by section *)

(** The tracker; the subtractions that sweeps still owe the count; the
    records taken out and not yet passed to the callback; and, for the
    account, the hits recorded per key, their total and the dropped ones. *)
Record Sys := {
  y_tracker : HitTracker;
  y_owed : list Z;
  y_flying : list flush_call;
  y_recorded : HitTrackingKey -> Z;
  y_total : Z;
  y_dropped : Z;
}.

Definition with_tracker (s : Sys) (t : HitTracker) : Sys := {|
  y_tracker := t; y_owed := y_owed s; y_flying := y_flying s; y_recorded := y_recorded s;
  y_total := y_total s; y_dropped := y_dropped s |}.

Definition account (s : Sys) (k : HitTrackingKey) (o : after_record) : Sys :=
  match o with
  | Dropped => {|
      y_tracker := y_tracker s; y_owed := y_owed s; y_flying := y_flying s; y_recorded := y_recorded s;
      y_total := y_total s; y_dropped := y_dropped s + 1 |}
  | Counted _ _ => {|
      y_tracker := y_tracker s; y_owed := y_owed s; y_flying := y_flying s;
      y_recorded k' := y_recorded s k' + (if decide (k' = k) then 1 else 0);
      y_total := y_total s + 1; y_dropped := y_dropped s |}
  end.

Definition with_flying (s : Sys) (owed : list Z) (l : list flush_call) : Sys := {|
  y_tracker := y_tracker s; y_owed := owed; y_flying := l; y_recorded := y_recorded s;
  y_total := y_total s; y_dropped := y_dropped s |}.

Inductive step (cfg : HitTrackerConfig) : Sys -> Sys -> Prop :=
  | T_record s k now_ms now_ns o t :
      record_section cfg k now_ms now_ns (y_tracker s) = (o, t) -> step cfg s (account (with_tracker s t) k o)
  | T_take s k r t :
      take_section k (y_tracker s) = (Some r, t) ->
      step cfg s (with_flying (with_tracker s t) (y_owed s) ((k, r) :: y_flying s))
  | T_take_all s key out t :
      take_all_section key (y_tracker s) = (out, t) ->
      step cfg s (with_flying (with_tracker s t) (y_owed s) (out ++ y_flying s))
  | T_drain s i out t :
      drain_section i (y_tracker s) = (out, t) ->
      step cfg s (with_flying (with_tracker s t) (Z.of_nat (length out) :: y_owed s) (out ++ y_flying s))
  | T_subtract s l1 n l2 :
      y_owed s = l1 ++ n :: l2 ->
      step cfg s (with_flying (with_tracker s (subtract n (y_tracker s))) (l1 ++ l2) (y_flying s))
  | T_deliver s l1 c l2 ok :
      y_flying s = l1 ++ c :: l2 ->
      step cfg s (with_flying (with_tracker s (deliver c ok (y_tracker s))) (y_owed s) (l1 ++ l2))
  (* the flags, the batch-done callback, the end of a sweep *)
  | T_flags s soon in_progress running :
      step cfg s (with_tracker s (set_flags (y_tracker s) soon in_progress running))
  | T_batch s :
      step cfg s (with_tracker s (set_calls (y_tracker s) (ht_flush_failures (y_tracker s)) (ht_log (y_tracker s))
        (ht_batches (y_tracker s) + 1)))
  | T_sweep_end s :
      step cfg s (with_tracker s (set_over_cap (y_tracker s) 0 (ht_overflow_drops (y_tracker s)))).

Definition initial : Sys := {|
  y_tracker := new_tracker; y_owed := []; y_flying := []; y_recorded _ := 0; y_total := 0; y_dropped := 0 |}.

(** ** The account *)

(** The hits of key [k] in a list of records. *)
Definition hits_in (k : HitTrackingKey) (l : list flush_call) : Z :=
  foldr (fun c acc => (if decide (c.1 = k) then hr_delta c.2 else 0) + acc) 0 l.
Definition owed_sum (l : list Z) : Z := foldr Z.add 0 l.

Lemma hits_in_app k a b : hits_in k (a ++ b) = hits_in k a + hits_in k b.
Proof. induction a as [|c a IH]; cbn [app hits_in foldr]; [done|]. fold (hits_in k (a ++ b)) (hits_in k a). lia. Qed.

Lemma hits_in_cons k c l : hits_in k (c :: l) = (if decide (c.1 = k) then hr_delta c.2 else 0) + hits_in k l.
Proof. done. Qed.

Lemma owed_sum_app a b : owed_sum (a ++ b) = owed_sum a + owed_sum b.
Proof. induction a as [|c a IH]; cbn [app owed_sum foldr]; [done|]. fold (owed_sum (a ++ b)) (owed_sum a). lia. Qed.

Lemma hits_in_perm k a b : a ≡ₚ b -> hits_in k a = hits_in k b.
Proof. induction 1; rewrite ?hits_in_cons; [done|lia|lia|congruence]. Qed.

Definition hits_of (k : HitTrackingKey) (m : gmap HitTrackingKey HitRecord) : Z :=
  match m !! k with Some r => hr_delta r | None => 0 end.

Lemma hits_in_map k m : hits_in k (map_to_list m) = hits_of k m.
Proof.
  unfold hits_of. induction m as [|i r m Hi IH] using map_ind; [now rewrite map_to_list_empty, lookup_empty|].
  rewrite (hits_in_perm k _ _ (map_to_list_insert m i r Hi)), hits_in_cons, IH. cbn [fst snd].
  destruct (decide (i = k)) as [->|Hne]; [rewrite lookup_insert_eq, Hi; lia|]. now rewrite lookup_insert_ne.
Qed.

Lemma rest_lookup p m k : rest p m !! k = if p k then None else m !! k.
Proof.
  unfold rest. destruct (p k) eqn:E, (m !! k) as [r|] eqn:Em.
  - apply map_lookup_filter_None_2. right. intros r' _ Hc. cbn in Hc. congruence.
  - apply map_lookup_filter_None_2. now left.
  - now apply map_lookup_filter_Some_2.
  - apply map_lookup_filter_None_2. now left.
Qed.

Lemma chosen_lookup p (m : gmap HitTrackingKey HitRecord) k : filter (fun kr : flush_call => p kr.1 = true) m !! k = if p k then m !! k else None.
Proof.
  destruct (p k) eqn:E, (m !! k) as [r|] eqn:Em.
  - now apply map_lookup_filter_Some_2.
  - apply map_lookup_filter_None_2. now left.
  - apply map_lookup_filter_None_2. right. intros r' _ Hc. cbn in Hc. congruence.
  - apply map_lookup_filter_None_2. now left.
Qed.

Lemma split_hits k p m : hits_of k m = hits_of k (rest p m) + hits_in k (select p m).
Proof.
  unfold select. rewrite hits_in_map. unfold hits_of. rewrite rest_lookup, chosen_lookup. destruct (p k); lia.
Qed.

Lemma split_size p m : Z.of_nat (size m) = Z.of_nat (size (rest p m)) + Z.of_nat (length (select p m)).
Proof.
  unfold select, rest. rewrite length_map_to_list.
  rewrite <- (map_filter_union_complement (fun kr => p kr.1 = true) m) at 1.
  rewrite map_size_disj_union by apply map_disjoint_filter_complement.
  assert (filter (fun kr => ¬ p kr.1 = true) m = filter (fun kr => p kr.1 = false) m) as ->; [|lia].
  apply map_filter_ext. intros i r _. cbn. now rewrite not_true_iff_false.
Qed.

Definition nonneg (c : flush_call) : Prop := 0 <= hr_delta c.2.

Record inv (s : Sys) : Prop := {
  iv_hits k : y_recorded s k =
    hits_of k (ht_pending (y_tracker s)) + hits_in k (y_flying s) + hits_in k (ht_log (y_tracker s));
  iv_entries : ht_pending_entries (y_tracker s) = pending_count (y_tracker s) + owed_sum (y_owed s);
  iv_owed : Forall (Z.le 0) (y_owed s);
  iv_bound : pending_count (y_tracker s) + owed_sum (y_owed s) <= y_total s;
  iv_total k : y_recorded s k <= y_total s;
  iv_pending k r : ht_pending (y_tracker s) !! k = Some r -> 0 <= hr_delta r;
  iv_nonneg : Forall nonneg (y_flying s) /\ Forall nonneg (ht_log (y_tracker s));
  iv_drops : ht_overflow_drops (y_tracker s) = u64 (y_dropped s);
}.

Lemma hits_in_nonneg k l : Forall nonneg l -> 0 <= hits_in k l.
Proof.
  induction 1 as [|c l Hc Hl IH]; [done|]. rewrite hits_in_cons. unfold nonneg in Hc. destruct (decide (c.1 = k)); lia.
Qed.

Lemma owed_sum_nonneg l : Forall (Z.le 0) l -> 0 <= owed_sum l.
Proof. induction 1 as [|x l Hx Hl IH]; cbn [owed_sum foldr]; [done|]. fold (owed_sum l). lia. Qed.

Lemma select_nonneg p m : (forall k r, m !! k = Some r -> 0 <= hr_delta r) -> Forall nonneg (select p m).
Proof.
  intros Hm. apply Forall_forall. intros [k r] Hin. unfold select in Hin. apply elem_of_map_to_list in Hin.
  rewrite chosen_lookup in Hin. destruct (p k); [|done]. now apply (Hm k).
Qed.

Lemma rest_nonneg p m : (forall k r, m !! k = Some r -> 0 <= hr_delta r) -> forall k r, rest p m !! k = Some r -> 0 <= hr_delta r.
Proof. intros Hm k r. rewrite rest_lookup. destruct (p k); [done|]. apply Hm. Qed.

(** Records taken out of the pending map, with the count given back now or
    still owed. *)
Lemma inv_taken s p owed entries :
  inv s -> Forall (Z.le 0) owed ->
  let m := ht_pending (y_tracker s) in
  entries = Z.of_nat (size (rest p m)) + owed_sum owed ->
  Z.of_nat (size (rest p m)) + owed_sum owed <= y_total s ->
  inv (with_flying (with_tracker s (set_pending (y_tracker s) (rest p m) entries)) owed (select p m ++ y_flying s)).
Proof.
  intros [H1 H2 H3 H4 H5 H6 [H7 H8] H9] Ho m He Hb.
  split; unfold pending_count; cbn [with_flying with_tracker set_pending y_tracker y_owed y_flying y_recorded y_total y_dropped
    ht_pending ht_pending_entries ht_log ht_overflow_drops pending_count]; try done.
  - intros k. rewrite H1, (split_hits k p), hits_in_app. fold m. lia.
  - now apply rest_nonneg.
  - split; [|done]. apply Forall_app. split; [now apply select_nonneg|done].
Qed.

Lemma inv_record cfg s k now_ms now_ns o t :
  inv s -> record_section cfg k now_ms now_ns (y_tracker s) = (o, t) ->
  y_total (account (with_tracker s t) k o) < 2 ^ 32 -> inv (account (with_tracker s t) k o).
Proof.
  intros Hs Hr Ht. pose proof Hs as [H1 H2 H3 H4 H5 H6 [H7 H8] H9].
  pose proof (owed_sum_nonneg _ H3). pose proof (hits_in_nonneg k _ H7). pose proof (hits_in_nonneg k _ H8).
  pose proof (H1 k) as Hk. pose proof (H5 k). unfold pending_count in *.
  (* counting a hit on [t0], which differs from the tracker in the grace stamp only *)
  assert (forall t0 r entries, ht_pending t0 = ht_pending (y_tracker s) -> ht_log t0 = ht_log (y_tracker s) ->
    ht_overflow_drops t0 = ht_overflow_drops (y_tracker s) -> 0 <= hr_delta r -> hr_delta r = hits_of k (ht_pending (y_tracker s)) ->
    entries = Z.of_nat (size (<[k := {| hr_delta := u32 (hr_delta r + 1); hr_last_access_ms := now_ms |}]> (ht_pending t0))) + owed_sum (y_owed s) ->
    entries <= y_total s + 1 -> y_total s + 1 < 2 ^ 32 ->
    inv (account (with_tracker s (snd (count_hit cfg k r now_ms t0 entries))) k (Counted true true))) as Hcount.
  { intros t0 r entries Ep El Ed Hr0 Hh He Hle Hlt. unfold count_hit.
    assert (u32 (hr_delta r + 1) = hr_delta r + 1) as Eu by (apply wrap_small; unfold fits; lia).
    split; cbn [account with_tracker set_pending snd y_tracker y_owed y_flying y_recorded y_total y_dropped
      ht_pending ht_pending_entries ht_log ht_overflow_drops pending_count]; rewrite ?El, ?Ed, ?Eu in *; try done; try lia.
    - intros k'. rewrite Ep, (H1 k'). unfold hits_of. destruct (decide (k' = k)) as [->|Hne].
      + rewrite lookup_insert_eq. cbn [hr_delta]. unfold hits_of in Hh. rewrite Hh. lia.
      + rewrite lookup_insert_ne by congruence. lia.
    - unfold pending_count. cbn [set_pending ht_pending]. lia.
    - intros k'. specialize (H5 k'). destruct (decide (k' = k)); lia.
    - intros k' r'. rewrite Ep, lookup_insert_Some. intros [[_ <-]|[_ ?]]; cbn [hr_delta]; [lia|now apply (H6 k')]. }
  revert Hr. unfold record_section. destruct (ht_pending (y_tracker s) !! k) as [r|] eqn:Ek.
  - pose proof (H6 k r Ek). intros Hr. assert (o = fst (count_hit cfg k r now_ms (y_tracker s) (ht_pending_entries (y_tracker s)))) as -> by now rewrite Hr.
    specialize (Hcount (y_tracker s) r (ht_pending_entries (y_tracker s))).
    replace t with (snd (count_hit cfg k r now_ms (y_tracker s) (ht_pending_entries (y_tracker s)))) in * by now rewrite Hr.
    apply Hcount; try done.
    + unfold hits_of. now rewrite Ek.
    + rewrite map_size_insert_Some by (now exists r). lia.
    + lia.
  - set (p := if _ : bool then _ else _). destruct p as [past t0] eqn:Ep.
    assert (ht_pending t0 = ht_pending (y_tracker s) /\ ht_log t0 = ht_log (y_tracker s) /\
      ht_overflow_drops t0 = ht_overflow_drops (y_tracker s) /\ ht_pending_entries t0 = ht_pending_entries (y_tracker s)) as (E1 & E2 & E3 & E4).
    { unfold p, over_cap_past_grace in Ep. destruct (_ <? _); [destruct (_ =? 0)|]; injection Ep as <- <-; done. }
    clearbody p. destruct past.
    + intros [= <- <-]. cbn [account with_tracker y_total] in Ht. rewrite E3.
      split; unfold pending_count; cbn [account with_tracker set_over_cap y_tracker y_owed y_flying y_recorded y_total y_dropped
        ht_pending ht_pending_entries ht_log ht_overflow_drops pending_count]; rewrite ?E1, ?E2, ?E4; try done.
      rewrite H9. unfold u64, wrap. now rewrite Zplus_mod_idemp_l.
    + intros Hr. set (r0 := {| hr_delta := 0; hr_last_access_ms := 0 |}) in *.
      specialize (Hcount t0 r0 (u64 (ht_pending_entries t0 + 1))).
      destruct (count_hit cfg k r0 now_ms t0 (u64 (ht_pending_entries t0 + 1))) as [o' t'] eqn:Ec.
      injection Hr as <- <-. unfold count_hit in Ec. injection Ec as <- <-. cbn [account with_tracker y_total] in Ht.
      assert (u64 (ht_pending_entries t0 + 1) = ht_pending_entries t0 + 1) as Eu by (apply wrap_small; unfold fits; lia).
      apply Hcount; try done.
      * unfold hits_of. now rewrite Ek.
      * rewrite map_size_insert_None by (now rewrite E1). rewrite Eu, E1. lia.
      * lia.
Qed.

Lemma inv_take s k r t :
  inv s -> y_total s < 2 ^ 32 -> take_section k (y_tracker s) = (Some r, t) ->
  inv (with_flying (with_tracker s t) (y_owed s) ((k, r) :: y_flying s)).
Proof.
  intros [H1 H2 H3 H4 H5 H6 [H7 H8] H9] Ht. unfold take_section, pending_count in *.
  destruct (ht_pending (y_tracker s) !! k) as [r0|] eqn:Ek; [|done]. intros [= <- <-].
  pose proof (map_size_delete_Some _ _ (ex_intro _ _ Ek : is_Some (ht_pending (y_tracker s) !! k))) as Hsz.
  pose proof (map_size_ne_0_lookup_2 (ht_pending (y_tracker s)) k ltac:(rewrite Ek; eauto)).
  pose proof (owed_sum_nonneg _ H3).
  assert (u64 (ht_pending_entries (y_tracker s) - 1) = ht_pending_entries (y_tracker s) - 1) as Eu
    by (apply wrap_small; unfold fits; lia).
  split; unfold pending_count; cbn [with_flying with_tracker set_pending y_tracker y_owed y_flying y_recorded y_total y_dropped
    ht_pending ht_pending_entries ht_log ht_overflow_drops]; try done; try lia.
  - intros k'. rewrite (H1 k'), hits_in_cons. cbn [fst snd]. unfold hits_of.
    destruct (decide (k = k')) as [<-|Hne]; [rewrite Ek, lookup_delete_eq; lia|]. rewrite lookup_delete_ne by done. lia.
  - intros k' r'. rewrite lookup_delete_Some. intros [_ ?]. now apply (H6 k').
  - split; [|done]. constructor; [now apply (H6 k)|done].
Qed.

Lemma inv_deliver s l1 c l2 ok :
  inv s -> y_flying s = l1 ++ c :: l2 ->
  inv (with_flying (with_tracker s (deliver c ok (y_tracker s))) (y_owed s) (l1 ++ l2)).
Proof.
  intros [H1 H2 H3 H4 H5 H6 [H7 H8] H9] El. rewrite El in *. apply Forall_app in H7 as [Hl1 [Hc Hl2]%Forall_cons].
  unfold deliver, nonneg in *.
  destruct (Z.ltb_spec 0 (hr_delta c.2)); split; unfold pending_count in *;
    cbn [with_flying with_tracker set_calls y_tracker y_owed y_flying y_recorded y_total y_dropped
      ht_pending ht_pending_entries ht_log ht_overflow_drops]; try done.
  - intros k. rewrite (H1 k), !hits_in_app, !hits_in_cons. cbn [hits_in foldr]. lia.
  - split; [now apply Forall_app|]. apply Forall_app. split; [done|]. now constructor.
  - intros k. rewrite (H1 k), !hits_in_app, hits_in_cons. destruct (decide (c.1 = k)); lia.
  - split; [now apply Forall_app|done].
Qed.

Lemma hits_inv_step cfg s s' : inv s -> step cfg s s' -> y_total s' < 2 ^ 32 -> inv s'.
Proof.
  intros Hs Hstep Ht. pose proof (owed_sum_nonneg _ (iv_owed s Hs)) as Hon.
  destruct Hstep as [s k ms ns o t Hr|s k r t Hr|s key out t Hr|s i out t Hr|s l1 n l2 El|s l1 c l2 ok El|s a b c|s|s].
  - now apply (inv_record cfg s k ms ns).
  - now apply inv_take.
  - unfold take_all_section in Hr. injection Hr as <- <-. set (p := fun k => bool_decide (hk_key k = key)).
    pose proof (split_size p (ht_pending (y_tracker s))). pose proof (iv_entries s Hs). pose proof (iv_bound s Hs).
    unfold pending_count in *. cbn [with_flying y_total with_tracker] in Ht.
    apply inv_taken; [done|apply Hs| |lia]. unfold u64. rewrite wrap_small by (unfold fits; lia). lia.
  - unfold drain_section in Hr. injection Hr as <- <-.
    pose proof (split_size (in_stripe i) (ht_pending (y_tracker s))). pose proof (iv_entries s Hs). pose proof (iv_bound s Hs).
    unfold pending_count in *. apply inv_taken; [done|constructor; [lia|apply Hs]| |]; cbn [owed_sum foldr];
      fold (owed_sum (y_owed s)); lia.
  - destruct Hs as [H1 H2 H3 H4 H5 H6 H7 H9]. rewrite El in *. apply Forall_app in H3 as [Ha [Hn Hb]%Forall_cons].
    rewrite owed_sum_app in *. cbn [owed_sum foldr] in *. fold (owed_sum l2) in *. unfold pending_count in *.
    pose proof (owed_sum_nonneg _ Ha). pose proof (owed_sum_nonneg _ Hb). cbn [with_flying y_total with_tracker] in Ht.
    assert (u64 (ht_pending_entries (y_tracker s) - n) = ht_pending_entries (y_tracker s) - n) as Eu
      by (apply wrap_small; unfold fits; lia).
    split; unfold pending_count; cbn [with_flying with_tracker subtract set_pending y_tracker y_owed y_flying y_recorded
      y_total y_dropped ht_pending ht_pending_entries ht_log ht_overflow_drops]; rewrite ?owed_sum_app; try done; try lia.
    now apply Forall_app.
  - now apply inv_deliver.
  - destruct Hs. split; done.
  - destruct Hs. split; done.
  - destruct Hs. split; done.
Qed.

Lemma total_mono cfg s s' : step cfg s s' -> y_total s <= y_total s'.
Proof. destruct 1; try (cbn; lia). destruct o; cbn; lia. Qed.

Lemma inv_reachable cfg s : rtc (step cfg) initial s -> y_total s < 2 ^ 32 -> inv s.
Proof.
  intros Hr. apply (rtc_ind_r (R := step cfg) (fun s => y_total s < 2 ^ 32 -> inv s) initial); [|intros x y _ Hxy IH Hy|exact Hr].
  - intros _. split; cbn; done.
  - pose proof (total_mono _ _ _ Hxy). apply (hits_inv_step cfg x); [apply IH; lia|done|done].
Qed.

(** C22. No hit is lost or counted twice: in every interleaving of readers
    recording hits, keys being flushed and sweeps draining stripe after stripe,
    the hits recorded for a key are exactly those still pending, those taken
    out and on their way to the callback, and those the callback was given;
    the shared entry count is the number of pending entries plus what sweeps
    under way still have to take off it, so it never underflows; and every hit
    not recorded is counted as dropped (for fewer than 2^32 recorded hits, and
    a flush callback that is set and does not throw). *)
Theorem hits_conserved cfg s k :
  rtc (step cfg) initial s -> y_total s < 2 ^ 32 ->
  y_recorded s k = hits_of k (ht_pending (y_tracker s)) + hits_in k (y_flying s) + hits_in k (ht_log (y_tracker s)) /\
  ht_pending_entries (y_tracker s) = pending_count (y_tracker s) + owed_sum (y_owed s) /\
  Forall (Z.le 0) (y_owed s) /\
  ht_overflow_drops (y_tracker s) = u64 (y_dropped s).
Proof. intros Hr Ht. pose proof (inv_reachable _ _ Hr Ht) as []. done. Qed.

(** ** Bounded memory without a flush thread *)

Inductive op :=
  | OpRecord (k : HitTrackingKey) (now_ms now_ns : Z) | OpFlushKey (k : HitTrackingKey)
  | OpFlushAll (key : CacheKey) | OpFlushNow | OpStart | OpStop.

Definition apply_op (cfg : HitTrackerConfig) (cb : option (flush_call -> bool)) (batch_done : bool)
    (t : HitTracker) (o : op) : HitTracker :=
  match o with
  | OpRecord k ms ns => record_hit cfg cb batch_done k ms ns t
  | OpFlushKey k => flush_key cb k t
  | OpFlushAll key => flush_all_alternates cb key t
  | OpFlushNow => flush_now cb batch_done t
  | OpStart => start t
  | OpStop => stop cb batch_done t
  end.

(** What delivering leaves alone. *)
Definition same_pending (t t' : HitTracker) : Prop :=
  ht_pending t' = ht_pending t /\ ht_pending_entries t' = ht_pending_entries t /\
  ht_flush_in_progress t' = ht_flush_in_progress t.

Lemma deliver_all_same cb l t : same_pending t (snd (deliver_all cb l t)).
Proof.
  unfold deliver_all. destruct cb as [cb|]; [|done].
  enough (forall b, same_pending t (snd (fold_left (fun '(any, t) c => (any || ((0 <? hr_delta c.2) && cb c), deliver c (cb c) t)) l (b, t))))
    by auto.
  revert t. induction l as [|c l IH]; intros t b; [done|]. cbn [fold_left]. 
  destruct (IH (deliver c (cb c) t) (b || ((0 <? hr_delta c.2) && cb c))) as (E1 & E2 & E3).
  unfold same_pending. rewrite E1, E2, E3. unfold deliver. now destruct (0 <? _).
Qed.

(** The count is exact and within [n]; [b] is the sweep gate. *)
Definition bounded (b : bool) (n : Z) (t : HitTracker) : Prop :=
  ht_pending_entries t = pending_count t /\ pending_count t <= n /\ n < 2 ^ 63 /\ ht_flush_in_progress t = b.

Lemma taken_bounded b n p t entries t' :
  bounded b n t -> ht_pending t' = rest p (ht_pending t) -> ht_pending_entries t' = entries ->
  entries = u64 (ht_pending_entries t - Z.of_nat (length (select p (ht_pending t)))) ->
  ht_flush_in_progress t' = b -> bounded b n t'.
Proof.
  unfold bounded, pending_count. intros (H1 & H2 & H3 & H4) E1 E2 -> E3. pose proof (split_size p (ht_pending t)).
  rewrite E1, E2. unfold u64. rewrite wrap_small by (unfold fits; lia). repeat split; [lia|lia|done|done].
Qed.

Lemma bounded_same b n t t' : bounded b n t -> same_pending t t' -> bounded b n t'.
Proof. unfold bounded, pending_count. intros (H1 & H2 & H3 & H4) (E1 & E2 & E3). now rewrite E1, E2, E3. Qed.

Lemma flush_key_bounded b cb n k t : bounded b n t -> bounded b n (flush_key cb k t).
Proof.
  intros Ht. unfold flush_key, take_section. destruct (ht_pending t !! k) as [r|] eqn:Ek; [|done].
  apply (bounded_same b n (set_pending t (delete k (ht_pending t)) (u64 (ht_pending_entries t - 1)))); [|apply deliver_all_same].
  destruct Ht as (H1 & H2 & H3 & H4). unfold bounded, pending_count in *. cbn [set_pending ht_pending ht_pending_entries ht_flush_in_progress].
  pose proof (map_size_delete_Some _ _ (ex_intro _ _ Ek : is_Some (ht_pending t !! k))) as Hsz.
  pose proof (map_size_ne_0_lookup_2 (ht_pending t) k ltac:(rewrite Ek; eauto)).
  unfold u64. rewrite wrap_small by (unfold fits; lia). repeat split; try done; lia.
Qed.

Lemma sweep_spec b cb n l any t :
  bounded b n t ->
  let t' := snd (fold_left (sweep_stripe cb) l (any, t)) in
  bounded b n t' /\ forall k, ht_pending t' !! k = if decide (stripe_index (hk_key k) ∈ l) then None else ht_pending t !! k.
Proof.
  revert any t. induction l as [|i l IH]; intros any t Ht; [split; [done|]; intros k; now rewrite decide_False by apply not_elem_of_nil|].
  cbn [fold_left]. unfold sweep_stripe at 2 4. cbn [drain_section].
  set (t1 := match select (in_stripe i) (ht_pending t) with [] => _ | _ => _ end).
  assert (bounded b n t1 /\ ht_pending t1 = rest (in_stripe i) (ht_pending t)) as [Hb Hp].
  { assert (ht_pending t1 = rest (in_stripe i) (ht_pending t)) as Ep by (unfold t1; now destruct (select _ _)).
    split; [|exact Ep]. apply (taken_bounded b n (in_stripe i) t (ht_pending_entries t1)); [done|done|done| |].
    - unfold t1. destruct Ht as (H1 & H2 & H3 & _). unfold pending_count in *.
      destruct (select (in_stripe i) (ht_pending t)) as [|c l']; cbn [set_pending subtract ht_pending_entries length].
      + unfold u64. rewrite wrap_small; [lia|unfold fits; lia].
      + done.
    - unfold t1. destruct (select _ _); apply Ht. }
  destruct (deliver_all cb (select (in_stripe i) (ht_pending t)) t1) as [any' t2] eqn:Ed.
  pose proof (deliver_all_same cb (select (in_stripe i) (ht_pending t)) t1) as Hsame. rewrite Ed in Hsame. cbn [snd] in Hsame.
  destruct (IH (any || any') t2 (bounded_same b n t1 t2 Hb Hsame)) as [Hb' Hl]. split; [exact Hb'|]. intros k. rewrite Hl.
  destruct Hsame as (-> & _). rewrite Hp, rest_lookup. unfold in_stripe.
  destruct (Z.eqb_spec (stripe_index (hk_key k)) i) as [->|Hne].
  - rewrite (decide_True (P := i ∈ i :: l)) by left. now destruct (decide (i ∈ l)).
  - destruct (decide (stripe_index (hk_key k) ∈ l)); [now rewrite decide_True by now right|].
    rewrite decide_False; [done|]. intros [?|?]%elem_of_cons; done.
Qed.

Lemma flush_now_empties b cb bd n t : bounded b n t -> 0 <= n -> bounded b n (flush_now cb bd t) /\ ht_pending (flush_now cb bd t) = ∅.
Proof.
  intros Ht Hn. unfold flush_now. destruct (sweep_spec b cb n (seqZ 0 kNumStripes) false t Ht) as [Hb Hp].
  destruct (fold_left (sweep_stripe cb) (seqZ 0 kNumStripes) (false, t)) as [any t1]. cbn [snd] in *.
  assert (ht_pending t1 = ∅) as E.
  { apply map_empty. intros k. rewrite Hp, decide_True; [done|]. apply elem_of_seqZ. unfold stripe_index, kNumStripes.
    pose proof (Z.mod_pos_bound (key_hash (hk_key k)) 4096 ltac:(lia)). lia. }
  destruct (any && bd); (split; [exact Hb|exact E]).
Qed.

Lemma bounded_flags b n t soon b' run : bounded b n t -> bounded b' n (set_flags t soon b' run).
Proof. intros (H1 & H2 & H3 & H4). split; [exact H1|]. split; [exact H2|]. split; [exact H3|reflexivity]. Qed.

(** The state between operations. *)
Definition settled (cfg : HitTrackerConfig) (t : HitTracker) : Prop := bounded false (max_pending_entries cfg) t.

Lemma swept_bounded b cb bd n m t : bounded b m t -> 0 <= n <= m -> bounded b n (flush_now cb bd t).
Proof.
  intros Ht Hn. pose proof Ht as (_ & _ & Hm & _).
  destruct (flush_now_empties b cb bd m t Ht ltac:(lia)) as [(H1 & _ & _ & H4) E].
  unfold bounded, pending_count in *. rewrite E in *. rewrite map_size_empty in *.
  split; [done|]. split; [lia|]. split; [lia|done].
Qed.

Lemma record_hit_settled cfg cb bd k now_ms now_ns t :
  enable_background_flush cfg = false -> 0 <= max_pending_entries cfg < 2 ^ 62 ->
  settled cfg t -> settled cfg (record_hit cfg cb bd k now_ms now_ns t).
Proof.
  unfold settled. intros Hbg Hmax Ht. pose proof Ht as (H1 & H2 & H3 & H4). unfold record_hit, record_section.
  set (n := max_pending_entries cfg) in *. unfold pending_count in H1, H2.
  assert (forall b m p r, Z.of_nat (size (<[k := r]> (ht_pending t))) = p -> p <= m -> m < 2 ^ 63 -> b = false ->
    bounded b m (set_pending t (<[k := r]> (ht_pending t)) p)) as Hset.
  { intros b m p r Hp Hm Hm3 ->. split; [symmetry; exact Hp|]. split; [unfold pending_count; cbn [set_pending ht_pending]; lia|].
    split; [exact Hm3|exact H4]. }
  destruct (ht_pending t !! k) as [r|] eqn:Ek.
  - unfold count_hit. set (r' := {| hr_delta := _; hr_last_access_ms := _ |}).
    assert (size (<[k := r']> (ht_pending t)) = size (ht_pending t)) as Es by (apply map_size_insert_Some; now exists r).
    fold n. destruct (Z.ltb_spec n (ht_pending_entries t)); [lia|].
    destruct (_ <=? _); [apply flush_key_bounded|]; (apply Hset; [rewrite Es; lia|lia|lia|done]).
  - assert ((hard_pending_cap cfg <? ht_pending_entries t) = false) as ->.
    { apply Z.ltb_ge. unfold hard_pending_cap, u64. fold n. rewrite wrap_small by (unfold fits; lia). lia. }
    unfold count_hit. set (r' := {| hr_delta := _; hr_last_access_ms := _ |}).
    assert (Z.of_nat (size (<[k := r']> (ht_pending t))) = Z.of_nat (size (ht_pending t)) + 1) as Es
      by (rewrite map_size_insert_None by exact Ek; lia).
    assert (u64 (ht_pending_entries t + 1) = ht_pending_entries t + 1) as -> by (apply wrap_small; unfold fits; lia).
    fold n. destruct (Z.ltb_spec n (ht_pending_entries t + 1)) as [Hover|].
    + unfold flush_soon. rewrite Hbg, andb_false_r. cbn [set_pending ht_flush_in_progress]. rewrite H4.
      assert (bounded false (n + 1) (set_pending t (<[k := r']> (ht_pending t)) (ht_pending_entries t + 1))) as Hb.
      { apply Hset; [rewrite Es; lia|lia|lia|done]. }
      set (t1 := set_flags _ _ true _). pose proof (bounded_flags _ _ _ _ true _ Hb : bounded true (n + 1) t1) as Hb1.
      pose proof (swept_bounded true cb bd n (n + 1) t1 Hb1 ltac:(lia)) as Hs. exact (bounded_flags _ _ _ _ false _ Hs).
    + destruct (_ <=? _); [apply flush_key_bounded|]; (apply Hset; [rewrite Es; lia|lia|lia|done]).
Qed.

(** Memory is bounded without a flush thread: whatever hits arrive, in
    any order and at any rate, and whatever the callback answers, no more than
    [max_pending_entries] entries are pending after an operation, and the
    entry count is exact: the sweep that the over-limit reader runs empties
    the set. *)
Theorem hit_memory_bounded cfg cb bd ops :
  enable_background_flush cfg = false -> 0 <= max_pending_entries cfg < 2 ^ 62 ->
  let t := fold_left (apply_op cfg cb bd) ops new_tracker in
  pending_count t <= max_pending_entries cfg /\ ht_pending_entries t = pending_count t.
Proof.
  intros Hbg Hmax. enough (settled cfg (fold_left (apply_op cfg cb bd) ops new_tracker)) as (H1 & H2 & _) by done.
  assert (settled cfg new_tracker) as H0 by (split; [done|]; split; [apply Hmax|]; split; [lia|done]).
  revert H0. generalize new_tracker. induction ops as [|o ops IH]; intros t Ht; [exact Ht|]. cbn [fold_left]. apply IH.
  destruct o as [k ms ns|k|key| | |]; cbn [apply_op].
  - now apply record_hit_settled.
  - now apply flush_key_bounded.
  - unfold flush_all_alternates, take_all_section.
    set (p := fun k => bool_decide (hk_key k = key)). set (t1 := set_pending _ _ _).
    apply (bounded_same _ _ t1); [|apply deliver_all_same].
    apply (taken_bounded _ _ p t (ht_pending_entries t1)); [exact Ht|reflexivity|reflexivity|reflexivity|]. apply Ht.
  - apply (swept_bounded false cb bd _ (max_pending_entries cfg)); [exact Ht|lia].
  - unfold start. destruct (ht_running t); [exact Ht|]. pose proof Ht as (_ & _ & _ & Hp). rewrite Hp. exact (bounded_flags _ _ _ _ false _ Ht).
  - unfold stop. destruct (ht_running t); [|exact Ht]. pose proof Ht as (_ & _ & _ & Hp). rewrite Hp.
    apply (swept_bounded false cb bd _ (max_pending_entries cfg)); [exact (bounded_flags _ _ _ _ false _ Ht)|lia].
Qed.

(** ** Witnesses *)

Definition sample_cfg (background : bool) : HitTrackerConfig :=
  {| flush_threshold := 2; enable_background_flush := background; max_pending_entries := 1 |}.
Definition sample_key (b : Z) : HitTrackingKey := {| hk_key := {| _hash := repeat b 32 |}; hk_alternate_id := 0 |}.

(** Two hits on one key, one on another; the first key's stripe is drained
    and its record delivered while the sweep still owes its count. *)
Definition sample_s1 : Sys :=
  let '(o, t) := record_section (sample_cfg true) (sample_key 1) 5 100 new_tracker in account (with_tracker initial t) (sample_key 1) o.
Definition sample_s2 : Sys :=
  let '(o, t) := record_section (sample_cfg true) (sample_key 1) 6 100 (y_tracker sample_s1) in
  account (with_tracker sample_s1 t) (sample_key 1) o.
Definition sample_s3 : Sys :=
  let '(out, t) := drain_section (stripe_index (hk_key (sample_key 1))) (y_tracker sample_s2) in
  with_flying (with_tracker sample_s2 t) (Z.of_nat (length out) :: y_owed sample_s2) (out ++ y_flying sample_s2).
Definition sample_s4 : Sys :=
  let '(o, t) := record_section (sample_cfg true) (sample_key 2) 7 100 (y_tracker sample_s3) in
  account (with_tracker sample_s3 t) (sample_key 2) o.
Definition sample_call : flush_call := (sample_key 1, {| hr_delta := 2; hr_last_access_ms := 6 |}).
Definition sample_s5 : Sys :=
  with_flying (with_tracker sample_s4 (deliver sample_call true (y_tracker sample_s4))) (y_owed sample_s4) [].

Lemma hits_conserved_witness :
  y_recorded sample_s5 (sample_key 1) = 2 /\ ht_log (y_tracker sample_s5) = [sample_call] /\
  ht_pending_entries (y_tracker sample_s5) = 2 /\ owed_sum (y_owed sample_s5) = 1 /\
  y_recorded sample_s5 (sample_key 1) =
    hits_of (sample_key 1) (ht_pending (y_tracker sample_s5)) + hits_in (sample_key 1) (y_flying sample_s5)
    + hits_in (sample_key 1) (ht_log (y_tracker sample_s5)).
Proof.
  split; [vm_compute; reflexivity|]. split; [vm_compute; reflexivity|]. split; [vm_compute; reflexivity|].
  split; [vm_compute; reflexivity|].
  refine (proj1 (hits_conserved (sample_cfg true) sample_s5 (sample_key 1) _ _)); [|vm_compute; reflexivity].
  apply rtc_l with (y := sample_s1).
  { unfold sample_s1. destruct (record_section _ _ _ _ _) as [o t] eqn:E. exact (T_record (sample_cfg true) initial _ _ _ _ _ E). }
  apply rtc_l with (y := sample_s2).
  { unfold sample_s2. destruct (record_section _ _ _ _ _) as [o t] eqn:E. exact (T_record (sample_cfg true) sample_s1 _ _ _ _ _ E). }
  apply rtc_l with (y := sample_s3).
  { unfold sample_s3. destruct (drain_section _ _) as [o t] eqn:E. exact (T_drain (sample_cfg true) sample_s2 _ _ _ E). }
  apply rtc_l with (y := sample_s4).
  { unfold sample_s4. destruct (record_section _ _ _ _ _) as [o t] eqn:E. exact (T_record (sample_cfg true) sample_s3 _ _ _ _ _ E). }
  apply rtc_once. apply (T_deliver (sample_cfg true) sample_s4 [] sample_call [] true). vm_compute. reflexivity.
Defined.

Lemma hit_memory_bounded_witness :
  let ops := [OpRecord (sample_key 1) 1 1; OpRecord (sample_key 1) 2 2; OpRecord (sample_key 2) 3 3] in
  pending_count (fold_left (apply_op (sample_cfg false) (Some (fun _ => false)) true) ops new_tracker) <= 1.
Proof.
  intros ops. apply (hit_memory_bounded (sample_cfg false) (Some (fun _ => false)) true ops); [reflexivity|].
  cbn. lia.
Defined.
