(* ===== verification/WorkQueue.v ===== *)
(** * The optimization work queue (src/src/optimization/work_queue.cpp and .hpp)

    A bounded priority queue of optimization tasks, deduplicated by key and
    target alternate: [enqueue], [dequeue], [try_dequeue], the cancellations,
    [stop] and [start], each the whole critical section of the source.  The
    standard heap algorithms are an interface with the guarantees the C++
    standard gives for them; a sorted list implements it.

    The last part is the blocking side of [dequeue]: the accesses of waiting
    threads and of [stop], interleaved. *)

From Stdlib Require Import Sorted.
From stdpp Require Import sorting.
From S2P Require Import Prelude Floats Key.

(** ** Items *)

Record WorkItemId := { wi_key : CacheKey; wi_target_alternate : Z }.

#[export] Instance WorkItemId_eq_dec : EqDecision WorkItemId.
Proof. solve_decision. Defined.
#[export] Instance WorkItemId_countable : Countable WorkItemId.
Proof.
  apply (inj_countable' (fun i => (wi_key i, wi_target_alternate i))
    (fun p => {| wi_key := p.1; wi_target_alternate := p.2 |})).
  by intros [].
Defined.

Record WorkItem := {
  w_id : WorkItemId; w_plugin_id : Z; w_priority : Z; w_hit_count : Z; w_content_length : Z;
  w_estimated_memory : Z; w_deferrable : bool; w_enqueue_time : Z; w_order_key : double }.

Definition effective_priority (i : WorkItem) : Z := Z.lor (u64 (Z.shiftl (w_priority i) 32)) (w_hit_count i).

(** [heap_less]: larger keys first, ties by effective priority. *)
Definition heap_less (a b : WorkItem) : bool :=
  if negb (SFeqb (w_order_key a) (w_order_key b)) then SFltb (w_order_key a) (w_order_key b)
  else effective_priority a <? effective_priority b.

Record OptimizationConfig := {
  max_queue_size : Z; max_memory_bytes : Z; priority_aging_interval : Z (* milliseconds *) }.

(** ** The standard heap algorithms *)

(** [std::is_heap]: no element is less than its child. *)
Definition is_heap {A} (less : A -> A -> bool) (l : list A) : Prop :=
  forall i x y, (0 < i)%nat -> l !! ((i - 1) / 2)%nat = Some x -> l !! i = Some y -> less x y = false.

(** A strict weak order, on the elements of a list. *)
Record weak_order {A} (less : A -> A -> bool) (l : list A) : Prop := {
  wk_asym : forall x y, x ∈ l -> y ∈ l -> less x y = true -> less y x = false;
  wk_trans : forall x y z, x ∈ l -> y ∈ l -> z ∈ l -> less x y = false -> less y z = false -> less x z = false }.

Class StdHeap := {
  push_heap : forall {A}, (A -> A -> bool) -> list A -> list A;
  pop_heap : forall {A}, (A -> A -> bool) -> list A -> list A;
  make_heap : forall {A}, (A -> A -> bool) -> list A -> list A;
  (* the range without its last element is a heap *)
  push_heap_spec : forall {A} (less : A -> A -> bool) l x, weak_order less (l ++ [x]) -> is_heap less l ->
    push_heap less (l ++ [x]) ≡ₚ l ++ [x] /\ is_heap less (push_heap less (l ++ [x]));
  (* the first element goes to the end, the rest is a heap *)
  pop_heap_spec : forall {A} (less : A -> A -> bool) x l, weak_order less (x :: l) -> is_heap less (x :: l) ->
    exists l', pop_heap less (x :: l) = l' ++ [x] /\ l' ≡ₚ l /\ is_heap less l';
  make_heap_spec : forall {A} (less : A -> A -> bool) l, weak_order less l ->
    make_heap less l ≡ₚ l /\ is_heap less (make_heap less l) }.

(** ** The queue *)

Record WorkQueue := {
  q_heap : list WorkItem; q_queued_ids : gset WorkItemId; q_stopped : bool; q_memory_usage : Z;
  q_total_enqueued : Z; q_total_dequeued : Z; q_total_cancelled : Z;
  q_rejected_full : Z; q_rejected_memory : Z; q_duplicates : Z }.

Definition new_queue : WorkQueue := {|
  q_heap := []; q_queued_ids := ∅; q_stopped := false; q_memory_usage := 0; q_total_enqueued := 0;
  q_total_dequeued := 0; q_total_cancelled := 0; q_rejected_full := 0; q_rejected_memory := 0; q_duplicates := 0 |}.

Definition set_content (q : WorkQueue) (heap : list WorkItem) (ids : gset WorkItemId) (memory : Z) : WorkQueue := {|
  q_heap := heap; q_queued_ids := ids; q_stopped := q_stopped q; q_memory_usage := memory;
  q_total_enqueued := q_total_enqueued q; q_total_dequeued := q_total_dequeued q;
  q_total_cancelled := q_total_cancelled q; q_rejected_full := q_rejected_full q;
  q_rejected_memory := q_rejected_memory q; q_duplicates := q_duplicates q |}.
Definition set_counts (q : WorkQueue) (enqueued dequeued cancelled full memory duplicates : Z) : WorkQueue := {|
  q_heap := q_heap q; q_queued_ids := q_queued_ids q; q_stopped := q_stopped q; q_memory_usage := q_memory_usage q;
  q_total_enqueued := enqueued; q_total_dequeued := dequeued; q_total_cancelled := cancelled;
  q_rejected_full := full; q_rejected_memory := memory; q_duplicates := duplicates |}.
Definition set_stopped (q : WorkQueue) (b : bool) : WorkQueue := {|
  q_heap := q_heap q; q_queued_ids := q_queued_ids q; q_stopped := b; q_memory_usage := q_memory_usage q;
  q_total_enqueued := q_total_enqueued q; q_total_dequeued := q_total_dequeued q;
  q_total_cancelled := q_total_cancelled q; q_rejected_full := q_rejected_full q;
  q_rejected_memory := q_rejected_memory q; q_duplicates := q_duplicates q |}.

Definition count_enqueued (q : WorkQueue) : WorkQueue :=
  set_counts q (u64 (q_total_enqueued q + 1)) (q_total_dequeued q) (q_total_cancelled q) (q_rejected_full q)
    (q_rejected_memory q) (q_duplicates q).
Definition count_dequeued (q : WorkQueue) : WorkQueue :=
  set_counts q (q_total_enqueued q) (u64 (q_total_dequeued q + 1)) (q_total_cancelled q) (q_rejected_full q)
    (q_rejected_memory q) (q_duplicates q).
Definition count_cancelled (q : WorkQueue) (n : Z) : WorkQueue :=
  set_counts q (q_total_enqueued q) (q_total_dequeued q) (u64 (q_total_cancelled q + n)) (q_rejected_full q)
    (q_rejected_memory q) (q_duplicates q).
Definition count_full (q : WorkQueue) : WorkQueue :=
  set_counts q (q_total_enqueued q) (q_total_dequeued q) (q_total_cancelled q) (u64 (q_rejected_full q + 1))
    (q_rejected_memory q) (q_duplicates q).
Definition count_no_memory (q : WorkQueue) : WorkQueue :=
  set_counts q (q_total_enqueued q) (q_total_dequeued q) (q_total_cancelled q) (q_rejected_full q)
    (u64 (q_rejected_memory q + 1)) (q_duplicates q).
Definition count_duplicate (q : WorkQueue) : WorkQueue :=
  set_counts q (q_total_enqueued q) (q_total_dequeued q) (q_total_cancelled q) (q_rejected_full q)
    (q_rejected_memory q) (u64 (q_duplicates q + 1)).

Inductive QueueError := Closed | OptimizationQueueFull.

Section queue.
Context `{StdHeap} (cfg : OptimizationConfig).

(** The order key: with aging, priority * interval - enqueue time, the time
    truncated to a grain. *)
Definition order_key (priority now : Z) : double :=
  let aging_ns := priority_aging_interval cfg * 1000000 in
  if 0 <? aging_ns then
    let grain := Z.min (Z.max (aging_ns ÷ 16) 1) 1000000 in
    let enq_ns := now - Z.rem now grain in
    dsub (dmul (double_of priority) (double_of aging_ns)) (double_of enq_ns)
  else double_of priority.

Definition stamp (i : WorkItem) (now : Z) : WorkItem := {|
  w_id := w_id i; w_plugin_id := w_plugin_id i; w_priority := w_priority i; w_hit_count := w_hit_count i;
  w_content_length := w_content_length i; w_estimated_memory := w_estimated_memory i;
  w_deferrable := w_deferrable i; w_enqueue_time := now; w_order_key := order_key (w_priority i) now |}.

Definition enqueue (item : WorkItem) (now : Z) (q : WorkQueue) : (QueueError + unit) * WorkQueue :=
  if q_stopped q then (inl Closed, q)
  else
    let item := stamp item now in
    if decide (w_id item ∈ q_queued_ids q) then (inr tt, count_duplicate q)
    else if max_queue_size cfg <=? Z.of_nat (length (q_heap q)) then (inl OptimizationQueueFull, count_full q)
    else if u64 (max_memory_bytes cfg - q_memory_usage q) <? w_estimated_memory item
    then (inl OptimizationQueueFull, count_no_memory q)
    else
      (inr tt, count_enqueued (set_content q (push_heap heap_less (q_heap q ++ [item]))
        ({[ w_id item ]} ∪ q_queued_ids q) (u64 (q_memory_usage q + w_estimated_memory item)))).

(** [pop_heap], then the last element is moved out. *)
Definition try_dequeue (q : WorkQueue) : option WorkItem * WorkQueue :=
  match q_heap q with
  | [] => (None, q)
  | _ =>
      let heap := pop_heap heap_less (q_heap q) in
      match last heap with
      | None => (None, q)
      | Some item =>
          (Some item, count_dequeued (set_content q (removelast heap) (q_queued_ids q ∖ {[ w_id item ]})
            (u64 (q_memory_usage q - w_estimated_memory item))))
      end
  end.

(** [dequeue], once its wait is over: [None] while it would still wait. *)
Definition dequeue (q : WorkQueue) : option (option WorkItem * WorkQueue) :=
  match q_heap q with
  | [] => if q_stopped q then Some (None, q) else None
  | _ => Some (try_dequeue q)
  end.

Definition rebuild_heap (q : WorkQueue) : WorkQueue :=
  set_content q (make_heap heap_less (q_heap q)) (q_queued_ids q) (q_memory_usage q).

Definition cancel (id : WorkItemId) (q : WorkQueue) : bool * WorkQueue :=
  if decide (id ∈ q_queued_ids q) then
    match list_find (fun i => w_id i = id) (q_heap q) with
    | None => (false, set_content q (q_heap q) (q_queued_ids q ∖ {[ id ]}) (q_memory_usage q))
    | Some (n, i) =>
        (true, count_cancelled (rebuild_heap (set_content q (delete n (q_heap q)) (q_queued_ids q ∖ {[ id ]})
          (u64 (q_memory_usage q - w_estimated_memory i)))) 1)
    end
  else (false, q).

(** The scan of [cancel_by_key] and [cancel_deferrable]: what stays, the ids
    left, the memory freed and how many went. *)
Fixpoint cancel_scan (p : WorkItem -> bool) (l : list WorkItem) (ids : gset WorkItemId) (freed n : Z)
  : list WorkItem * gset WorkItemId * Z * Z :=
  match l with
  | [] => ([], ids, freed, n)
  | i :: l =>
      if p i then cancel_scan p l (ids ∖ {[ w_id i ]}) (u64 (freed + w_estimated_memory i)) (u64 (n + 1))
      else let '(kept, ids, freed, n) := cancel_scan p l ids freed n in (i :: kept, ids, freed, n)
  end.

Definition cancel_if (p : WorkItem -> bool) (q : WorkQueue) : Z * WorkQueue :=
  let '(heap, ids, freed, cancelled) := cancel_scan p (q_heap q) (q_queued_ids q) 0 0 in
  if 0 <? cancelled then
    (cancelled, count_cancelled (rebuild_heap (set_content q heap ids (u64 (q_memory_usage q - freed)))) cancelled)
  else (cancelled, set_content q heap ids (q_memory_usage q)).

Definition cancel_by_key (key : CacheKey) : WorkQueue -> Z * WorkQueue :=
  cancel_if (fun i => bool_decide (wi_key (w_id i) = key)).
Definition cancel_deferrable : WorkQueue -> Z * WorkQueue := cancel_if w_deferrable.

Definition stop (q : WorkQueue) : WorkQueue := set_stopped q true.
Definition start (q : WorkQueue) : WorkQueue := set_stopped q false.
Definition contains (id : WorkItemId) (q : WorkQueue) : bool := bool_decide (id ∈ q_queued_ids q).
Definition size (q : WorkQueue) : Z := Z.of_nat (length (q_heap q)).
End queue.

(** ** The order of the items *)

Lemma SFeqb_iff f g : SFeqb f g = true <-> exists a, order_of f = Some a /\ order_of g = Some a.
Proof.
  unfold SFeqb. destruct f as [s|s| |s m e], g as [s'|s'| |s' m' e']; try destruct s; try destruct s'; cbn [SFcompare order_of];
    try (split; [by intros | intros (? & ? & ?); congruence]);
    try (split; [intros _; eexists; split; reflexivity | done]).
  all: change (Pos.compare_cont Eq m m') with (Pos.compare m m');
    destruct (Z.compare_spec e e'); try destruct (Pos.compare_spec m m'); cbn [CompOpp];
    (split; [first [done | intros _; subst; eexists; split; reflexivity]
            | intros (? & E1 & E2); rewrite <- E2 in E1; injection E1; intros; try lia; done]).
Qed.

Definition ordered (i : WorkItem) : Prop := order_of (w_order_key i) <> None.

(** Lexicographically: sign, exponent and mantissa of the key, then the
    effective priority. *)
Lemma heap_less_iff x y a b c a' b' c' :
  order_of (w_order_key x) = Some (a, b, c) -> order_of (w_order_key y) = Some (a', b', c') ->
  heap_less x y = true <->
  a < a' \/ (a = a' /\ (b < b' \/ (b = b' /\ (c < c' \/ (c = c' /\ effective_priority x < effective_priority y))))).
Proof.
  intros Hx Hy. unfold heap_less. destruct (SFeqb (w_order_key x) (w_order_key y)) eqn:E; simpl.
  - apply SFeqb_iff in E as (k & E1 & E2). rewrite Hx in E1. rewrite Hy in E2. simplify_eq. rewrite Z.ltb_lt. lia.
  - assert (Hne : ~ (a = a' /\ b = b' /\ c = c')).
    { intros (-> & -> & ->). apply not_true_iff_false in E. apply E, SFeqb_iff. eauto. }
    rewrite SFltb_iff. split.
    + intros (k & k' & E1 & E2 & Hbl). rewrite Hx in E1. rewrite Hy in E2. simplify_eq. unfold below in Hbl. simpl in Hbl. lia.
    + intros Hl. exists (a, b, c), (a', b', c'). unfold below. simpl. split_and!; [done | done | lia].
Qed.

Lemma heap_less_weak_order l : Forall ordered l -> weak_order heap_less l.
Proof.
  intros Hl. rewrite Forall_forall in Hl.
  assert (Hk : forall x, x ∈ l -> exists a b c, order_of (w_order_key x) = Some (a, b, c)).
  { intros x Hx. specialize (Hl x Hx). unfold ordered in Hl. destruct (order_of _) as [[[a b] c]|]; [eauto | done]. }
  split.
  - intros x y Hx Hy. destruct (Hk x Hx) as (a & b & c & Ex), (Hk y Hy) as (a' & b' & c' & Ey).
    rewrite <- not_true_iff_false, (heap_less_iff x y _ _ _ _ _ _ Ex Ey), (heap_less_iff y x _ _ _ _ _ _ Ey Ex). lia.
  - intros x y z Hx Hy Hz. destruct (Hk x Hx) as (a & b & c & Ex), (Hk y Hy) as (a' & b' & c' & Ey), (Hk z Hz) as (a2 & b2 & c2 & Ez).
    rewrite <- !not_true_iff_false, (heap_less_iff x y _ _ _ _ _ _ Ex Ey), (heap_less_iff y z _ _ _ _ _ _ Ey Ez),
      (heap_less_iff x z _ _ _ _ _ _ Ex Ez). lia.
Qed.

(** The first element of a heap is a largest one. *)
Lemma heap_first {A} (less : A -> A -> bool) x l : weak_order less (x :: l) -> is_heap less (x :: l) ->
  forall y, y ∈ x :: l -> less x y = false.
Proof.
  intros Hw Hh y Hy. apply list_elem_of_lookup in Hy as [i Hi]. revert y Hi.
  induction i as [i IH] using lt_wf_ind. intros y Hi. destruct i as [|i].
  - simpl in Hi. simplify_eq. apply not_true_iff_false. intros Hl.
    pose proof (wk_asym _ _ Hw y y ltac:(left) ltac:(left) Hl). congruence.
  - assert (Hlt : ((S i - 1) / 2 < S i)%nat) by (pose proof (Nat.Div0.div_lt_upper_bound (S i - 1) 2 (S i)); lia).
    assert (is_Some ((x :: l) !! ((S i - 1) / 2)%nat)) as [z Hz].
    { apply lookup_lt_is_Some. apply lookup_lt_Some in Hi. lia. }
    eapply (wk_trans _ _ Hw x z y); [left | by eapply list_elem_of_lookup_2 | by eapply list_elem_of_lookup_2 | by eapply IH |].
    by apply (Hh (S i)); [lia|..].
Qed.

(** ** The invariant *)

Definition memory_of (l : list WorkItem) : Z := foldr (fun i m => w_estimated_memory i + m) 0 l.

Lemma memory_of_perm l l' : l ≡ₚ l' -> memory_of l = memory_of l'.
Proof. induction 1; simpl; lia. Qed.

Lemma memory_of_app l l' : memory_of (l ++ l') = memory_of l + memory_of l'.
Proof. induction l; simpl; lia. Qed.

Record config_ok (cfg : OptimizationConfig) : Prop := {
  co_size : fits 64 (max_queue_size cfg); co_memory : fits 64 (max_memory_bytes cfg);
  co_aging : Z.abs (priority_aging_interval cfg) * 1000000 < 2 ^ 63 }.

Definition item_ok (i : WorkItem) : Prop := fits 32 (w_priority i) /\ fits 64 (w_estimated_memory i).

(** What the queue holds: every id once, and in the set; the memory they are
    estimated at; keys that can be compared. *)
Record content_ok (l : list WorkItem) (ids : gset WorkItemId) (memory : Z) : Prop := {
  ct_ids : ids = list_to_set (w_id <$> l); ct_nodup : NoDup (w_id <$> l);
  ct_memory : memory = memory_of l; ct_items : Forall item_ok l; ct_keys : Forall ordered l }.

Record queue_ok (cfg : OptimizationConfig) (q : WorkQueue) : Prop := {
  qk_content : content_ok (q_heap q) (q_queued_ids q) (q_memory_usage q);
  qk_heap : is_heap heap_less (q_heap q);
  qk_size : Z.of_nat (length (q_heap q)) <= max_queue_size cfg;
  qk_memory : 0 <= q_memory_usage q <= max_memory_bytes cfg }.

Lemma content_ok_perm l l' ids m : l' ≡ₚ l -> content_ok l ids m -> content_ok l' ids m.
Proof.
  intros Hp [Hi Hn Hm Ho Hk]. split.
  - rewrite Hi. apply set_eq. intros x. rewrite !elem_of_list_to_set. by rewrite Hp.
  - by rewrite Hp.
  - rewrite Hm. by apply memory_of_perm.
  - by rewrite Hp.
  - by rewrite Hp.
Qed.

Lemma memory_of_nonneg l : Forall item_ok l -> 0 <= memory_of l.
Proof. induction 1 as [|i l [_ [? ?]] _ IH]; simpl; lia. Qed.

(** Taking one item out of the list. *)
Lemma content_ok_cons i l ids m : content_ok (i :: l) ids m ->
  content_ok l (ids ∖ {[ w_id i ]}) (m - w_estimated_memory i) /\ 0 <= w_estimated_memory i <= m /\ w_id i ∈ ids.
Proof.
  intros [Hi Hn Hm Ho Hk]. simpl in *. apply NoDup_cons in Hn as [Hni Hn]. apply Forall_cons in Ho as [[_ Hie] Ho], Hk as [_ Hk].
  pose proof (memory_of_nonneg l Ho). unfold fits in Hie. split_and!; [|lia|lia|set_solver].
  split; [| done | lia | done | done]. rewrite Hi. apply set_eq. intros x. set_unfold. naive_solver.
Qed.

(** Putting one in. *)
Lemma content_ok_add i l ids m : content_ok l ids m -> w_id i ∉ ids -> item_ok i -> ordered i ->
  content_ok (i :: l) ({[ w_id i ]} ∪ ids) (m + w_estimated_memory i).
Proof.
  intros [Hi Hn Hm Ho Hk] Hni Hio Hio'. split; simpl.
  - by rewrite Hi.
  - apply NoDup_cons. split; [|done]. rewrite Hi, elem_of_list_to_set in Hni. done.
  - lia.
  - by constructor.
  - by constructor.
Qed.

(** Taking several out. *)
Lemma content_ok_app l1 l2 ids m : content_ok (l1 ++ l2) ids m ->
  content_ok l2 (ids ∖ list_to_set (w_id <$> l1)) (m - memory_of l1) /\ 0 <= memory_of l1 <= m.
Proof.
  revert ids m. induction l1 as [|i l1 IH]; intros ids m Hc; simpl in *.
  - pose proof (memory_of_nonneg _ (ct_items _ _ _ Hc)). rewrite <- (ct_memory _ _ _ Hc) in H.
    rewrite Z.sub_0_r, difference_empty_L. split; [done | lia].
  - apply content_ok_cons in Hc as (Hc & Hm & _). apply IH in Hc as [Hc Hm'].
    rewrite difference_difference_l_L in Hc.
    replace (m - (w_estimated_memory i + memory_of l1)) with (m - w_estimated_memory i - memory_of l1) by lia.
    split; [exact Hc | lia].
Qed.

(** ** The operations keep it *)

Lemma order_key_ordered cfg priority now : config_ok cfg -> fits 32 priority -> 0 <= now < 2 ^ 63 ->
  order_of (order_key cfg priority now) <> None.
Proof.
  intros [_ _ Ha] Hp Hn. unfold order_key, fits in *. case_match; [|apply finite_ordered, double_of_finite; lia].
  pose proof (Z.rem_bound_pos now (Z.min (Z.max ((priority_aging_interval cfg * 1000000) ÷ 16) 1) 1000000) ltac:(lia) ltac:(lia)).
  pose proof (Z.rem_le now (Z.min (Z.max ((priority_aging_interval cfg * 1000000) ÷ 16) 1) 1000000) ltac:(lia) ltac:(lia)).
  apply dsub_ordered; [apply dmul_ordered|]; apply double_of_finite; lia.
Qed.

Lemma u64_small z : fits 64 z -> u64 z = z.
Proof. apply wrap_small. Qed.

Definition taken (p : WorkItem -> bool) (l : list WorkItem) : list WorkItem := List.filter p l.
Definition kept (p : WorkItem -> bool) (l : list WorkItem) : list WorkItem := List.filter (fun i => negb (p i)) l.

Lemma taken_kept p l : l ≡ₚ taken p l ++ kept p l.
Proof. induction l as [|i l IH]; simpl; [done|]. destruct (p i); simpl; [by constructor|]. by rewrite <- Permutation_middle, <- IH. Qed.

Lemma kept_all p l : taken p l = [] -> kept p l = l.
Proof. induction l as [|i l IH]; simpl; [done|]. destruct (p i); simpl; [done|]. intros E. by rewrite IH. Qed.

Lemma cancel_scan_spec p l ids freed n : fits 64 freed -> fits 64 n ->
  cancel_scan p l ids freed n =
    (kept p l, ids ∖ list_to_set (w_id <$> taken p l), u64 (freed + memory_of (taken p l)), u64 (n + Z.of_nat (length (taken p l)))).
Proof.
  revert ids freed n. induction l as [|i l IH]; intros ids freed n Hf Hn; simpl.
  - rewrite !Z.add_0_r, !u64_small by done. by rewrite difference_empty_L.
  - destruct (p i); simpl; rewrite IH by (done || apply Z.mod_pos_bound; lia); [|done].
    f_equal; [f_equal; [f_equal; set_solver|]|]; unfold u64, wrap; rewrite Zplus_mod_idemp_l; f_equal; lia.
Qed.

Section invariant.
Context `{StdHeap} (cfg : OptimizationConfig).

Lemma new_queue_ok : config_ok cfg -> queue_ok cfg new_queue.
Proof.
  intros [? ? _]. unfold fits in *. split; simpl; [|by intros i ? ? _; rewrite lookup_nil|lia|lia].
  split; simpl; [done | by apply NoDup_nil | done | by constructor | by constructor].
Qed.

Lemma enqueue_ok item now q : config_ok cfg -> item_ok item -> 0 <= now < 2 ^ 63 -> queue_ok cfg q ->
  queue_ok cfg (enqueue cfg item now q).2.
Proof.
  intros Hc Hi Hn Hq. pose proof Hq as [Hct Hh Hs Hm]. unfold enqueue. repeat case_match; try by (destruct Hq; split).
  simpl in *. apply Z.ltb_ge in H3. apply Z.leb_gt in H2. destruct Hc as [Hcs Hcm Hca] eqn:Ec. clear Ec.
  assert (Ho : ordered (stamp cfg item now)) by (apply order_key_ordered; [done | apply Hi | done]).
  destruct (push_heap_spec heap_less (q_heap q) (stamp cfg item now)) as [Hp Hh']; [|done|].
  { apply heap_less_weak_order, Forall_app. split; [apply Hct | by apply Forall_singleton]. }
  pose proof (content_ok_add (stamp cfg item now) _ _ _ Hct n Hi Ho) as Hct'.
  destruct Hi as [_ Hie]. unfold fits in *. rewrite u64_small in H3 by (unfold fits; lia).
  rewrite (u64_small (_ + _)) by (unfold fits; simpl; lia).
  split; simpl; [|done| |lia].
  - eapply content_ok_perm; [|exact Hct']. by rewrite Hp, <- Permutation_cons_append.
  - rewrite Hp, length_app. simpl. lia.
Qed.

(** What [try_dequeue] does on a non-empty queue. *)
Lemma try_dequeue_spec q : config_ok cfg -> queue_ok cfg q -> q_heap q <> [] ->
  exists i l, try_dequeue q = (Some i, count_dequeued (set_content q l (q_queued_ids q ∖ {[ w_id i ]})
                (q_memory_usage q - w_estimated_memory i))) /\
    q_heap q ≡ₚ i :: l /\ is_heap heap_less l /\
    content_ok l (q_queued_ids q ∖ {[ w_id i ]}) (q_memory_usage q - w_estimated_memory i) /\
    0 <= w_estimated_memory i <= q_memory_usage q /\
    (forall j, j ∈ q_heap q -> heap_less i j = false).
Proof.
  intros [_ Hcm _] [Hct Hh Hs Hm] Hne. unfold try_dequeue. destruct (q_heap q) as [|i l] eqn:E; [done|].
  pose proof (heap_less_weak_order _ (ct_keys _ _ _ Hct)) as Hw.
  destruct (pop_heap_spec heap_less i l Hw Hh) as (l' & -> & Hp & Hh'). rewrite last_snoc, removelast_last.
  pose proof (content_ok_cons _ _ _ _ Hct) as (Hct' & Hme & _). unfold fits in *. rewrite u64_small by (unfold fits; lia).
  exists i, l'. split_and!; [done | by rewrite Hp | done | by eapply content_ok_perm | lia | lia | by apply heap_first].
Qed.

Lemma try_dequeue_ok q : config_ok cfg -> queue_ok cfg q -> queue_ok cfg (try_dequeue q).2.
Proof.
  intros Hc Hq. destruct (decide (q_heap q = [])) as [E|E].
  - unfold try_dequeue. by rewrite E.
  - destruct (try_dequeue_spec q Hc Hq E) as (i & l & -> & Hp & Hh & Hct & Hm & _). destruct Hq as [_ _ Hs Hm'].
    split; simpl; [done | done | | lia]. apply Permutation_length in Hp. simpl in Hp. lia.
Qed.

(** Replacing the content by what is left of it, rebuilt. *)
Lemma rebuild_ok q l l1 ids m n : queue_ok cfg q -> q_heap q ≡ₚ l1 ++ l -> content_ok l ids m ->
  m <= q_memory_usage q -> queue_ok cfg (count_cancelled (rebuild_heap (set_content q l ids m)) n).
Proof.
  intros [_ _ Hs Hm] Hp Hct Hle. destruct (make_heap_spec heap_less l) as [Hp' Hh]; [by apply heap_less_weak_order, Hct|].
  pose proof (memory_of_nonneg _ (ct_items _ _ _ Hct)) as Hnn. rewrite <- (ct_memory _ _ _ Hct) in Hnn.
  split; simpl; [by eapply content_ok_perm | done | | lia].
  apply Permutation_length in Hp, Hp'. rewrite length_app in Hp. lia.
Qed.

Lemma cancel_ok id q : config_ok cfg -> queue_ok cfg q -> queue_ok cfg (cancel id q).2.
Proof.
  intros [_ Hcm _] Hq. pose proof Hq as [Hct Hh Hs Hm]. unfold cancel. case_decide as Hin; [|done].
  destruct (list_find _ _) as [[n i]|] eqn:E; simpl.
  - apply list_find_Some in E as (Hl & Hid & _). simpl in Hid. subst id. apply delete_Permutation in Hl as Hp.
    pose proof (content_ok_perm _ _ _ _ (Permutation_sym Hp) Hct) as Hct'.
    apply content_ok_cons in Hct' as (Hct' & Hme & _). unfold fits in *. rewrite u64_small by (unfold fits; lia).
    eapply (rebuild_ok _ _ [i]); [done | done | done | lia].
  - exfalso. apply list_find_None in E. rewrite (ct_ids _ _ _ Hct), elem_of_list_to_set in Hin.
    apply list_elem_of_fmap in Hin as (i & Hid & Hi). rewrite Forall_forall in E. by apply (E i).
Qed.

(** The scan, in a good state: exactly the chosen items go. *)
Lemma cancel_if_spec p q : config_ok cfg -> queue_ok cfg q ->
  cancel_if p q = (Z.of_nat (length (taken p (q_heap q))),
    if 0 <? Z.of_nat (length (taken p (q_heap q))) then
      count_cancelled (rebuild_heap (set_content q (kept p (q_heap q)) (q_queued_ids q ∖ list_to_set (w_id <$> taken p (q_heap q)))
        (q_memory_usage q - memory_of (taken p (q_heap q))))) (Z.of_nat (length (taken p (q_heap q))))
    else q).
Proof.
  intros [Hcs Hcm _] [Hct Hh Hs Hm]. unfold cancel_if. rewrite cancel_scan_spec by (unfold fits; lia). unfold fits in *.
  pose proof (taken_kept p (q_heap q)) as Hp. pose proof (Permutation_length Hp) as Hlen. rewrite length_app in Hlen.
  destruct (content_ok_app (taken p (q_heap q)) (kept p (q_heap q)) (q_queued_ids q) (q_memory_usage q)) as [Hct' Hme].
  { by eapply content_ok_perm. }
  rewrite !Z.add_0_l, (u64_small (Z.of_nat _)), (u64_small (memory_of _)), u64_small by (unfold fits; lia).
  case_match; [done|]. f_equal. destruct (taken p (q_heap q)) eqn:E; [|by rewrite Z.ltb_ge in H0; simpl in H0; lia].
  rewrite kept_all by done. simpl. rewrite difference_empty_L. by destruct q.
Qed.

Lemma cancel_if_ok p q : config_ok cfg -> queue_ok cfg q -> queue_ok cfg (cancel_if p q).2.
Proof.
  intros Hc Hq. rewrite cancel_if_spec by done. simpl. case_match; [|done].
  destruct (content_ok_app (taken p (q_heap q)) (kept p (q_heap q)) (q_queued_ids q) (q_memory_usage q)) as [Hct' Hme].
  { eapply content_ok_perm; [|apply Hq]. symmetry. apply taken_kept. }
  eapply rebuild_ok; [done | apply taken_kept | done | lia].
Qed.
End invariant.

(** ** A heap of one's own *)

(** Insertion sort, largest first: a sorted list is a heap. *)
Section sorted.
Context {A} (less : A -> A -> bool).

Fixpoint insert_sorted (x : A) (l : list A) : list A :=
  match l with [] => [x] | y :: l' => if less x y then y :: insert_sorted x l' else x :: l end.
Definition sort_all (l : list A) : list A := foldr insert_sorted [] l.
Definition descending (l : list A) : Prop := StronglySorted (fun x y => less x y = false) l.

Lemma insert_sorted_perm x l : insert_sorted x l ≡ₚ x :: l.
Proof. induction l as [|y l IH]; simpl; [done|]. case_match; [|done]. rewrite IH. apply Permutation_swap. Qed.

Lemma sort_all_perm l : sort_all l ≡ₚ l.
Proof. induction l as [|x l IH]; simpl; [done|]. by rewrite insert_sorted_perm, IH. Qed.

Lemma weak_order_incl l l' : (forall x, x ∈ l' -> x ∈ l) -> weak_order less l -> weak_order less l'.
Proof. intros Hs [Ha Ht]. split; intros; [by apply Ha; auto | by apply (Ht x y z); auto]. Qed.

Lemma insert_sorted_descending x l : weak_order less (x :: l) -> descending l -> descending (insert_sorted x l).
Proof.
  unfold descending. intros Hw Hl. induction Hl as [|y l Hl IH Hy]; simpl; [by repeat constructor|]. case_match eqn:E.
  - constructor; [apply IH; eapply weak_order_incl; [|exact Hw]; set_solver|]. rewrite insert_sorted_perm.
    constructor; [|done]. by apply (wk_asym _ _ Hw); [set_solver.. |].
  - constructor; [by constructor|]. constructor; [done|]. rewrite Forall_forall in Hy |- *. intros z Hz.
    by apply (wk_trans _ _ Hw x y z); [set_solver.. | | apply Hy].
Qed.

Lemma sort_all_descending l : weak_order less l -> descending (sort_all l).
Proof.
  induction l as [|x l IH]; simpl; intros Hw; [constructor|]. apply insert_sorted_descending.
  - eapply weak_order_incl; [|exact Hw]. intros y. by rewrite sort_all_perm.
  - apply IH. eapply weak_order_incl; [|exact Hw]. set_solver.
Qed.

Lemma descending_lookup l i j x y : descending l -> (i < j)%nat -> l !! i = Some x -> l !! j = Some y -> less x y = false.
Proof.
  unfold descending. intros Hl. revert i j. induction Hl as [|z l Hl IH Hz]; intros i j Hij Hx Hy; [by rewrite lookup_nil in Hx|].
  destruct i as [|i], j as [|j]; simpl in *; simplify_eq; try lia.
  - rewrite Forall_forall in Hz. apply Hz. by eapply list_elem_of_lookup_2.
  - apply (IH i j); [lia | done..].
Qed.

Lemma descending_heap l : descending l -> is_heap less l.
Proof.
  intros Hl i x y Hi Hx Hy. apply (descending_lookup l ((i - 1) / 2) i); [done | | done..].
  pose proof (Nat.Div0.div_lt_upper_bound (i - 1) 2 i). lia.
Qed.

Lemma sort_all_heap l : weak_order less l -> sort_all l ≡ₚ l /\ is_heap less (sort_all l).
Proof. intros Hw. split; [apply sort_all_perm | by apply descending_heap, sort_all_descending]. Qed.
End sorted.

#[export] Program Instance sorted_heap : StdHeap := {
  push_heap := fun A less l => sort_all less l;
  pop_heap := fun A less l => match l with [] => [] | x :: l => sort_all less l ++ [x] end;
  make_heap := fun A less l => sort_all less l }.
Next Obligation. intros A less l x Hw _. by apply sort_all_heap. Qed.
Next Obligation.
  intros A less x l Hw _. exists (sort_all less l). split; [done|]. apply sort_all_heap.
  eapply weak_order_incl; [|exact Hw]. set_solver.
Qed.
Next Obligation. intros A less l Hw. by apply sort_all_heap. Qed.

(** ** The queue as a whole *)

Inductive op := Enqueue (item : WorkItem) (now : Z) | TryDequeue | Cancel (id : WorkItemId) | CancelByKey (key : CacheKey)
  | CancelDeferrable | Stop | Start.

Definition run_op `{StdHeap} (cfg : OptimizationConfig) (q : WorkQueue) (o : op) : WorkQueue :=
  match o with
  | Enqueue item now => (enqueue cfg item now q).2
  | TryDequeue => (try_dequeue q).2
  | Cancel id => (cancel id q).2
  | CancelByKey key => (cancel_by_key key q).2
  | CancelDeferrable => (cancel_deferrable q).2
  | Stop => stop q
  | Start => start q
  end.

(** The caller's item has the widths of its fields and the clock fits. *)
Definition op_ok (o : op) : Prop := match o with Enqueue item now => item_ok item /\ 0 <= now < 2 ^ 63 | _ => True end.

Lemma run_ok `{StdHeap} cfg ops q : config_ok cfg -> Forall op_ok ops -> queue_ok cfg q ->
  queue_ok cfg (fold_left (run_op cfg) ops q).
Proof.
  intros Hc Ho. revert q. induction Ho as [|o ops Ho _ IH]; simpl; intros q Hq; [done|]. apply IH. destruct o; simpl in *.
  - destruct Ho. by apply enqueue_ok.
  - by apply try_dequeue_ok.
  - by apply cancel_ok.
  - by apply cancel_if_ok.
  - by apply cancel_if_ok.
  - by destruct Hq; split.
  - by destruct Hq; split.
Qed.

Definition ex_config : OptimizationConfig := {| max_queue_size := 2; max_memory_bytes := 100; priority_aging_interval := 1000 |}.
Definition ex_item (n priority hits memory : Z) (deferrable : bool) : WorkItem := {|
  w_id := {| wi_key := {| _hash := repeat n 32 |}; wi_target_alternate := 1 |}; w_plugin_id := 1;
  w_priority := priority; w_hit_count := hits; w_content_length := 10; w_estimated_memory := memory;
  w_deferrable := deferrable; w_enqueue_time := 0; w_order_key := S754_zero false |}.
Definition ex_ops : list op :=
  [Enqueue (ex_item 1 5 10 30 true) 1000000; Enqueue (ex_item 2 5 20 30 false) 1000001; Enqueue (ex_item 1 9 10 30 true) 1000002;
   Enqueue (ex_item 3 9 10 30 true) 1000003].

Lemma ex_config_ok : config_ok ex_config.
Proof. split; unfold fits; simpl; lia. Qed.

Lemma ex_ops_ok : Forall op_ok ex_ops.
Proof. repeat constructor; unfold fits; simpl; lia. Qed.

(** C26. Whatever is enqueued, dequeued and cancelled, in any order: the
    vector stays a heap, every id is queued once and the id set is exactly
    those ids, the memory gauge is the sum of the items' estimates without
    wrapping around, and neither the size limit nor the memory limit is ever
    exceeded. *)
Theorem work_queue_invariant `{StdHeap} cfg ops : config_ok cfg -> Forall op_ok ops ->
  queue_ok cfg (fold_left (run_op cfg) ops new_queue).
Proof. intros Hc Ho. apply run_ok; [done | done | by apply new_queue_ok]. Qed.

Lemma work_queue_invariant_witness : queue_ok ex_config (fold_left (run_op ex_config) (ex_ops ++ [CancelDeferrable; TryDequeue]) new_queue).
Proof.
  apply (work_queue_invariant ex_config (ex_ops ++ [CancelDeferrable; TryDequeue]) ex_config_ok).
  apply Forall_app. split; [exact ex_ops_ok | by repeat constructor].
Defined.

(** A dequeue on a non-empty queue returns an item that no queued item
    comes before (by order key, then priority and hits), takes exactly that
    item out, frees its id for a new enqueue and gives its memory back; on an
    empty queue it returns nothing and changes nothing. *)
Theorem dequeue_most_urgent `{StdHeap} cfg q : config_ok cfg -> queue_ok cfg q ->
  match try_dequeue q with
  | (None, q') => q_heap q = [] /\ q' = q
  | (Some i, q') =>
      (forall j, j ∈ q_heap q -> heap_less i j = false) /\ q_heap q ≡ₚ i :: q_heap q' /\
      contains (w_id i) q' = false /\ q_memory_usage q' = q_memory_usage q - w_estimated_memory i
  end.
Proof.
  intros Hc Hq. destruct (decide (q_heap q = [])) as [E|E].
  - unfold try_dequeue. by rewrite E.
  - destruct (try_dequeue_spec cfg q Hc Hq E) as (i & l & -> & Hp & _ & _ & _ & Hmax). simpl.
    split_and!; [done | done | | done]. apply bool_decide_eq_false. simpl. set_solver.
Qed.

Lemma dequeue_most_urgent_witness :
  let q := fold_left (run_op ex_config) ex_ops new_queue in
  w_id <$> (try_dequeue q).1 = Some (w_id (ex_item 2 5 20 30 false)) /\
  match try_dequeue q with
  | (None, q') => q_heap q = [] /\ q' = q
  | (Some i, q') =>
      (forall j, j ∈ q_heap q -> heap_less i j = false) /\ q_heap q ≡ₚ i :: q_heap q' /\
      contains (w_id i) q' = false /\ q_memory_usage q' = q_memory_usage q - w_estimated_memory i
  end.
Proof.
  split; [vm_compute; reflexivity|]. apply (dequeue_most_urgent ex_config _ ex_config_ok).
  apply run_ok; [exact ex_config_ok | exact ex_ops_ok | apply new_queue_ok, ex_config_ok].
Defined.

(** What may leave a queue unchanged but for its counters. *)
Definition same_content (q q' : WorkQueue) : Prop :=
  q_heap q' = q_heap q /\ q_queued_ids q' = q_queued_ids q /\ q_memory_usage q' = q_memory_usage q.

(** Enqueue: a stopped queue refuses; an id already queued is accepted
    and dropped; a full queue or an item the memory limit has no room for is
    refused; in these cases the content stays as it was.  Otherwise the
    stamped item, and nothing else, joins the queue. *)
Theorem enqueue_outcomes `{StdHeap} cfg item now q : config_ok cfg -> item_ok item -> 0 <= now < 2 ^ 63 -> queue_ok cfg q ->
  let '(r, q') := enqueue cfg item now q in
  if q_stopped q then r = inl Closed /\ q' = q
  else if contains (w_id item) q then r = inr tt /\ same_content q q' /\ q_duplicates q' = u64 (q_duplicates q + 1)
  else if size q =? max_queue_size cfg
  then r = inl OptimizationQueueFull /\ same_content q q' /\ q_rejected_full q' = u64 (q_rejected_full q + 1)
  else if max_memory_bytes cfg <? q_memory_usage q + w_estimated_memory item
  then r = inl OptimizationQueueFull /\ same_content q q' /\ q_rejected_memory q' = u64 (q_rejected_memory q + 1)
  else r = inr tt /\ q_heap q' ≡ₚ stamp cfg item now :: q_heap q /\ contains (w_id item) q' = true /\
       q_memory_usage q' = q_memory_usage q + w_estimated_memory item.
Proof.
  intros Hc Hi Hn Hq. pose proof Hq as [Hct Hh Hs Hm]. pose proof Hc as [Hcs Hcm Hca]. unfold enqueue, size, contains. destruct (q_stopped q); [done|].
  simpl. case_decide as Hd; [by rewrite bool_decide_true|]. rewrite bool_decide_false by done. unfold fits in *.
  destruct (Z.leb_spec (max_queue_size cfg) (Z.of_nat (length (q_heap q)))); [rewrite (proj2 (Z.eqb_eq _ _)) by lia; done|].
  rewrite (proj2 (Z.eqb_neq _ _)) by lia. rewrite (u64_small (_ - _)) by (unfold fits; lia).
  destruct (Z.ltb_spec (max_memory_bytes cfg - q_memory_usage q) (w_estimated_memory item)); [rewrite (proj2 (Z.ltb_lt _ _)) by lia; done|].
  rewrite (proj2 (Z.ltb_ge _ _)) by lia. destruct Hi as [Hip Hie]. unfold fits in Hie. simpl. rewrite (u64_small (_ + _)) by (unfold fits; lia).
  destruct (push_heap_spec heap_less (q_heap q) (stamp cfg item now)) as [Hp _]; [|done|].
  { apply heap_less_weak_order, Forall_app. split; [apply Hct | by apply Forall_singleton, order_key_ordered]. }
  split_and!; [done | by rewrite Hp, <- Permutation_cons_append | apply bool_decide_eq_true; simpl; set_solver | done].
Qed.

Lemma enqueue_outcomes_witness :
  let q := fold_left (run_op ex_config) ex_ops new_queue in
  size q = 2 /\ q_duplicates q = 1 /\
  let '(r, q') := enqueue ex_config (ex_item 4 9 0 30 true) 2000000 q in
  r = inl OptimizationQueueFull /\ same_content q q' /\ q_rejected_full q' = u64 (q_rejected_full q + 1).
Proof.
  split; [vm_compute; reflexivity|]. split; [vm_compute; reflexivity|].
  pose proof (enqueue_outcomes ex_config (ex_item 4 9 0 30 true) 2000000 (fold_left (run_op ex_config) ex_ops new_queue) ex_config_ok
    ltac:(unfold item_ok, fits; simpl; lia) ltac:(lia)
    (run_ok _ _ _ ex_config_ok ex_ops_ok (new_queue_ok _ ex_config_ok))) as E.
  vm_compute in E |- *. exact E.
Defined.

(** Cancelling by key, or all deferrable items, takes out exactly the
    items meant, keeps every other one, reports how many went and gives back
    exactly their memory. *)
Theorem cancellation_exact `{StdHeap} cfg p q : config_ok cfg -> queue_ok cfg q ->
  let '(n, q') := cancel_if p q in
  q_heap q ≡ₚ taken p (q_heap q) ++ q_heap q' /\ (forall i, i ∈ q_heap q' <-> i ∈ q_heap q /\ p i = false) /\
  n = size q - size q' /\ q_memory_usage q' = q_memory_usage q - memory_of (taken p (q_heap q)).
Proof.
  intros Hc Hq. rewrite (cancel_if_spec cfg) by done.
  assert (Hr : forall l, l ≡ₚ kept p (q_heap q) ->
    q_heap q ≡ₚ taken p (q_heap q) ++ l /\ (forall i, i ∈ l <-> i ∈ q_heap q /\ p i = false) /\
    Z.of_nat (length (taken p (q_heap q))) = size q - Z.of_nat (length l)).
  { intros l Hl. pose proof (taken_kept p (q_heap q)) as Hp. split_and!; [by rewrite Hl | |].
    - intros i. rewrite Hl. unfold kept. rewrite !list_elem_of_In, filter_In, negb_true_iff. done.
    - unfold size. rewrite Hl. apply Permutation_length in Hp. rewrite length_app in Hp. lia. }
  case_match eqn:E; simpl.
  - destruct Hq as [Hct _ _ _]. destruct (make_heap_spec heap_less (kept p (q_heap q))) as [Hp' _]; [|by apply Hr in Hp' as (? & ? & ?)].
    apply heap_less_weak_order. destruct Hct as [_ _ _ _ Hk]. rewrite (taken_kept p) in Hk. by apply Forall_app in Hk as [_ ?].
  - destruct (taken p (q_heap q)) eqn:Et; [|rewrite Z.ltb_ge in E; simpl in E; lia].
    destruct (Hr (q_heap q)) as (? & ? & ?); [by rewrite kept_all|]. simpl. rewrite Z.sub_0_r. done.
Qed.

Lemma cancellation_exact_witness :
  let q := fold_left (run_op ex_config) ex_ops new_queue in
  (cancel_deferrable q).1 = 1 /\
  let '(n, q') := cancel_if w_deferrable q in
  q_heap q ≡ₚ taken w_deferrable (q_heap q) ++ q_heap q' /\ (forall i, i ∈ q_heap q' <-> i ∈ q_heap q /\ w_deferrable i = false) /\
  n = size q - size q' /\ q_memory_usage q' = q_memory_usage q - memory_of (taken w_deferrable (q_heap q)).
Proof.
  split; [vm_compute; reflexivity|].
  exact (cancellation_exact ex_config w_deferrable (fold_left (run_op ex_config) ex_ops new_queue) ex_config_ok
    (run_ok _ _ _ ex_config_ok ex_ops_ok (new_queue_ok _ ex_config_ok))).
Defined.

(** ** Blocking and stopping *)

(** The accesses of one thread in [dequeue] and of a call of [stop], in any
    order.  [_cv.wait] tests the predicate with the mutex held and then, in one
    step, releases it and blocks; a notification wakes the threads that are
    blocked at that moment.  An enqueue tests the flag and takes the mutex in one
    step: the enqueues of a trace start after what precedes them.  Spurious
    wakeups, which the standard allows and never promises, are left out. *)
Inductive dpc := DLock | DTest | DBlock | DBlocked | DReturned (item : option WorkItem).
Inductive spc := SStore | SNotify | SReturned.

Record BlockSys := { b_queue : WorkQueue; b_mutex : option nat; b_dequeuers : list dpc; b_stop : spc }.

Inductive baction := Dequeuer (t : nat) | Stopper | Enqueuer (item : WorkItem) (now : Z) (woken : nat).

Definition wake (pc : dpc) : dpc := match pc with DBlocked => DLock | _ => pc end.

Definition set_dequeuer (s : BlockSys) (t : nat) (pc : dpc) (mutex : option nat) (q : WorkQueue) : BlockSys :=
  {| b_queue := q; b_mutex := mutex; b_dequeuers := <[t := pc]> (b_dequeuers s); b_stop := b_stop s |}.

Definition block_step `{StdHeap} (cfg : OptimizationConfig) (s : BlockSys) (a : baction) : BlockSys :=
  match a with
  | Dequeuer t =>
      match b_dequeuers s !! t with
      | Some DLock => match b_mutex s with Some _ => s | None => set_dequeuer s t DTest (Some t) (b_queue s) end
      | Some DTest =>
          match dequeue (b_queue s) with
          | None => set_dequeuer s t DBlock (b_mutex s) (b_queue s)
          | Some (item, q) => set_dequeuer s t (DReturned item) None q
          end
      | Some DBlock => set_dequeuer s t DBlocked None (b_queue s)
      | _ => s
      end
  | Stopper =>
      match b_stop s with
      | SStore => {| b_queue := stop (b_queue s); b_mutex := b_mutex s; b_dequeuers := b_dequeuers s; b_stop := SNotify |}
      | SNotify => {| b_queue := b_queue s; b_mutex := b_mutex s; b_dequeuers := wake <$> b_dequeuers s; b_stop := SReturned |}
      | SReturned => s
      end
  | Enqueuer item now woken =>
      match b_mutex s with
      | Some _ => s
      | None =>
        let '(r, q) := enqueue cfg item now (b_queue s) in
        let notify := bool_decide (length (q_heap q) <> length (q_heap (b_queue s))) in
        {| b_queue := q; b_mutex := None;
           b_dequeuers := if notify then alter wake woken (b_dequeuers s) else b_dequeuers s; b_stop := b_stop s |}
      end
  end.

Definition block_start (n : nat) : BlockSys :=
  {| b_queue := new_queue; b_mutex := None; b_dequeuers := repeat DLock n; b_stop := SStore |}.

(** A stop can miss a dequeue: with the flag stored and the waiters
    notified between a thread's test of the predicate and its blocking, the
    thread stays blocked after [stop] has returned, and nothing the remaining
    threads do, new enqueues included, wakes it. *)
Theorem stop_can_miss_a_waiter `{StdHeap} cfg :
  exists trace, forall more,
    let s := fold_left (block_step cfg) (trace ++ more) (block_start 1) in
    b_stop s = SReturned /\ q_stopped (b_queue s) = true /\ b_dequeuers s = [DBlocked].
Proof.
  exists [Dequeuer 0; Dequeuer 0; Stopper; Stopper; Dequeuer 0]. intros more. rewrite fold_left_app.
  set (P := fun s => b_stop s = SReturned /\ q_stopped (b_queue s) = true /\ b_dequeuers s = [DBlocked]).
  assert (Hs : forall s a, P s -> P (block_step cfg s a)).
  { intros [q m d st] a (Hst & Hq & Hd). simpl in *. subst st d. unfold P. destruct a as [[|[|t]]| |item now woken]; simpl; try done.
    destruct m; [done|]. unfold enqueue. rewrite Hq. simpl. rewrite bool_decide_false by congruence. done. }
  assert (Hp : P (fold_left (block_step cfg) [Dequeuer 0; Dequeuer 0; Stopper; Stopper; Dequeuer 0] (block_start 1))) by done.
  revert Hp. generalize (fold_left (block_step cfg) [Dequeuer 0; Dequeuer 0; Stopper; Stopper; Dequeuer 0] (block_start 1)).
  induction more as [|a more IH]; intros s Hp; simpl; [exact Hp|]. apply IH. by apply Hs.
Qed.
