(* ===== verification/AdaptivePool.v ===== *)
(** * The adaptive thread pool (src/src/optimization/adaptive_pool.cpp)

    Workers and controller as programs over the pool's atomics, one access per
    step.  One controller runs start, join_workers, check_scaling and scale_to
    one after the other, as the engine's start, monitor and stop do; pause,
    resume and request_stop come from any thread between any two steps.  What
    the queue and the tasks answer, whether a thread starts and whether a
    sleeper wakes by itself are arguments of the steps.  The accesses are
    sequentially consistent here.  [p_next] counts the spawns: the field
    _next_generation holds it modulo 2^64.  A forced unwind of a worker thread
    happens in its task or, as the exit without a task, in get_task; one
    inside a pause wait is not modelled here (Engine.v has it for an item). *)

From S2P Require Import Prelude.
Local Open Scope cyc_scope.

Record PoolConfig := {
  pc_min_threads : Z; pc_max_threads : Z; pc_scale_up_threshold : Z; pc_scale_down_threshold : Z; pc_hardware : Z }.

Definition effective_max_threads (c : PoolConfig) : Z :=
  if pc_max_threads c =? 0 then Z.max (if 2 <? pc_hardware c then pc_hardware c / 2 else 1) (pc_min_threads c)
  else pc_max_threads c.

(** ** Workers *)

(** Where a worker is in [worker_loop]. *)
Inductive wpc :=
  | WTop                     (* while (!_stopping) *)
  | WLive                    (* load live *)
  | WTarget (live : Z)       (* load target, compare *)
  | WCas (live : Z)          (* compare_exchange live, live - 1 *)
  | WPaused                  (* if (_paused) *)
  | WWait (task : bool)      (* the wait's predicate, first half; with a task? *)
  | WWaitStop (task : bool)  (* the wait's predicate, second half *)
  | WBlock (task : bool)     (* the predicate was false: about to sleep *)
  | WAsleep (task : bool)    (* until a notification *)
  | WStop                    (* if (_stopping) break; continue *)
  | WGet                     (* get_task *)
  | WPaused2                 (* if (_paused), with a task *)
  | WStop2                   (* if (_stopping) break, with a task *)
  | WActive                  (* active + 1 *)
  | WStarted                 (* tasks_started + 1 *)
  | WTask                    (* the task *)
  | WCompleted               (* tasks_completed + 1 *)
  | WFailed                  (* tasks_failed + 1 *)
  | WInactive                (* active - 1 *)
  | WExitActive              (* ~ExitGuard: active - 1 if a task was active *)
  | WExitLive                (* ~ExitGuard: live - 1 unless released *)
  | WExitRegister            (* ~ExitGuard: register the exit, under the mutex *)
  | WDone.

Record Worker := { w_generation : Z; w_pc : wpc; w_task_active : bool; w_live_released : bool }.

Definition at_pc (w : Worker) (pc : wpc) : Worker := {|
  w_generation := w_generation w; w_pc := pc; w_task_active := w_task_active w; w_live_released := w_live_released w |}.
Definition active_flag (w : Worker) (b : bool) : Worker := {|
  w_generation := w_generation w; w_pc := w_pc w; w_task_active := b; w_live_released := w_live_released w |}.
Definition released (w : Worker) : Worker := {|
  w_generation := w_generation w; w_pc := w_pc w; w_task_active := w_task_active w; w_live_released := true |}.

(** ** The controller *)

Inductive cpc :=
  | CIdle
  | CStartStopping | CStartPaused | CStartTarget | CStartLock | CSpawn (n : nat) | CSpawning (n : nat) | CUnlock
  | CJoinTake | CJoin (l : list Z) | CJoinClear | CJoinLive | CJoinActive | CJoinTarget | CJoined
  | CCheckRunning | CCheckStopping | CCheckPaused
  | CUpDepth | CUpLive (depth : Z) | CUpTarget | CUpStore (new_target : Z) | CUpLock (new_target : Z) | CUpReap (new_target : Z)
  | CUpGate (new_target : Z) | CUpSpawn | CUpSpawning | CUpCount
  | CDownDepth | CDownLive (depth : Z) | CDownTarget | CDownStore (new_target : Z) | CDownCount
  | CToStore (target : Z) | CToLock (target : Z) | CToReap (target : Z) | CToGate (target : Z) | CToSpawn (target : Z) | CToSpawning (target : Z).

(** What [request_stop] or [resume] has still to do. *)
Inductive apc := AStopping | APaused | ANotify.

Record Pool := {
  p_running : bool; p_paused : bool; p_stopping : bool; p_target : Z;
  p_live : Z; p_active : Z; p_started : Z; p_completed : Z; p_failed : Z; p_up : Z; p_down : Z;
  p_workers : list Z; p_finished : list Z; p_next : Z; p_locked : bool;
  p_threads : list Worker; p_ctl : cpc; p_async : list apc }.

Definition new_pool : Pool := {|
  p_running := false; p_paused := false; p_stopping := false; p_target := 0; p_live := 0; p_active := 0; p_started := 0;
  p_completed := 0; p_failed := 0; p_up := 0; p_down := 0; p_workers := []; p_finished := []; p_next := 0; p_locked := false;
  p_threads := []; p_ctl := CIdle; p_async := [] |}.

Definition set_flags (s : Pool) (running paused stopping : bool) : Pool := {|
  p_running := running; p_paused := paused; p_stopping := stopping; p_target := p_target s; p_live := p_live s; p_active := p_active s;
  p_started := p_started s; p_completed := p_completed s; p_failed := p_failed s; p_up := p_up s; p_down := p_down s;
  p_workers := p_workers s; p_finished := p_finished s; p_next := p_next s; p_locked := p_locked s; p_threads := p_threads s;
  p_ctl := p_ctl s; p_async := p_async s |}.
Definition set_target (s : Pool) (n : Z) : Pool := {|
  p_running := p_running s; p_paused := p_paused s; p_stopping := p_stopping s; p_target := n; p_live := p_live s; p_active := p_active s;
  p_started := p_started s; p_completed := p_completed s; p_failed := p_failed s; p_up := p_up s; p_down := p_down s;
  p_workers := p_workers s; p_finished := p_finished s; p_next := p_next s; p_locked := p_locked s; p_threads := p_threads s;
  p_ctl := p_ctl s; p_async := p_async s |}.
Definition set_counts (s : Pool) (live active : Z) : Pool := {|
  p_running := p_running s; p_paused := p_paused s; p_stopping := p_stopping s; p_target := p_target s; p_live := live; p_active := active;
  p_started := p_started s; p_completed := p_completed s; p_failed := p_failed s; p_up := p_up s; p_down := p_down s;
  p_workers := p_workers s; p_finished := p_finished s; p_next := p_next s; p_locked := p_locked s; p_threads := p_threads s;
  p_ctl := p_ctl s; p_async := p_async s |}.
Definition set_tasks (s : Pool) (started completed failed : Z) : Pool := {|
  p_running := p_running s; p_paused := p_paused s; p_stopping := p_stopping s; p_target := p_target s; p_live := p_live s; p_active := p_active s;
  p_started := started; p_completed := completed; p_failed := failed; p_up := p_up s; p_down := p_down s;
  p_workers := p_workers s; p_finished := p_finished s; p_next := p_next s; p_locked := p_locked s; p_threads := p_threads s;
  p_ctl := p_ctl s; p_async := p_async s |}.
Definition set_scales (s : Pool) (up down : Z) : Pool := {|
  p_running := p_running s; p_paused := p_paused s; p_stopping := p_stopping s; p_target := p_target s; p_live := p_live s; p_active := p_active s;
  p_started := p_started s; p_completed := p_completed s; p_failed := p_failed s; p_up := up; p_down := down;
  p_workers := p_workers s; p_finished := p_finished s; p_next := p_next s; p_locked := p_locked s; p_threads := p_threads s;
  p_ctl := p_ctl s; p_async := p_async s |}.
Definition set_slots (s : Pool) (workers finished : list Z) (locked : bool) : Pool := {|
  p_running := p_running s; p_paused := p_paused s; p_stopping := p_stopping s; p_target := p_target s; p_live := p_live s; p_active := p_active s;
  p_started := p_started s; p_completed := p_completed s; p_failed := p_failed s; p_up := p_up s; p_down := p_down s;
  p_workers := workers; p_finished := finished; p_next := p_next s; p_locked := locked; p_threads := p_threads s;
  p_ctl := p_ctl s; p_async := p_async s |}.
Definition set_threads (s : Pool) (next : Z) (threads : list Worker) : Pool := {|
  p_running := p_running s; p_paused := p_paused s; p_stopping := p_stopping s; p_target := p_target s; p_live := p_live s; p_active := p_active s;
  p_started := p_started s; p_completed := p_completed s; p_failed := p_failed s; p_up := p_up s; p_down := p_down s;
  p_workers := p_workers s; p_finished := p_finished s; p_next := next; p_locked := p_locked s; p_threads := threads;
  p_ctl := p_ctl s; p_async := p_async s |}.
Definition set_ctl (s : Pool) (c : cpc) : Pool := {|
  p_running := p_running s; p_paused := p_paused s; p_stopping := p_stopping s; p_target := p_target s; p_live := p_live s; p_active := p_active s;
  p_started := p_started s; p_completed := p_completed s; p_failed := p_failed s; p_up := p_up s; p_down := p_down s;
  p_workers := p_workers s; p_finished := p_finished s; p_next := p_next s; p_locked := p_locked s; p_threads := p_threads s;
  p_ctl := c; p_async := p_async s |}.
Definition set_async (s : Pool) (l : list apc) : Pool := {|
  p_running := p_running s; p_paused := p_paused s; p_stopping := p_stopping s; p_target := p_target s; p_live := p_live s; p_active := p_active s;
  p_started := p_started s; p_completed := p_completed s; p_failed := p_failed s; p_up := p_up s; p_down := p_down s;
  p_workers := p_workers s; p_finished := p_finished s; p_next := p_next s; p_locked := p_locked s; p_threads := p_threads s;
  p_ctl := p_ctl s; p_async := l |}.

(** ** The steps of a worker *)

Inductive Outcome := Completes | Throws | Unwinds.

(** What a step meets: does the queue give a task, how does a task end, and does
    a sleeper wake by itself? *)
Record Meets := { m_task : bool; m_outcome : Outcome; m_spurious : bool }.

(** Where a wait returns to. *)
Definition woken (task : bool) : wpc := if task then WStop2 else WStop.

Definition worker_step (m : Meets) (s : Pool) (w : Worker) : option (Pool * Worker) :=
  let go s pc := Some (s, at_pc w pc) in
  match w_pc w with
  | WTop => go s (if p_stopping s then WExitActive else WLive)
  | WLive => go s (WTarget (p_live s))
  | WTarget live => go s (if p_target s <? live then WCas live else WPaused)
  | WCas live =>
      if p_live s =? live then Some (set_counts s (u64 (live - 1)) (p_active s), at_pc (released w) WExitActive)
      else go s WPaused
  | WPaused => go s (if p_paused s then WWait false else WGet)
  | WWait task => go s (if p_paused s then WWaitStop task else woken task)
  | WWaitStop task => go s (if p_stopping s then woken task else WBlock task)
  | WBlock task => go s (WAsleep task)
  | WAsleep task => if m_spurious m then go s (WWait task) else None
  | WStop => go s (if p_stopping s then WExitActive else WTop)
  | WGet => go s (if m_task m then WPaused2 else WExitActive)
  | WPaused2 => go s (if p_paused s then WWait true else WStop2)
  | WStop2 => go s (if p_stopping s then WExitActive else WActive)
  | WActive => Some (set_counts s (p_live s) (u64 (p_active s + 1)), at_pc (active_flag w true) WStarted)
  | WStarted => go (set_tasks s (u64 (p_started s + 1)) (p_completed s) (p_failed s)) WTask
  | WTask => go s (match m_outcome m with Completes => WCompleted | Throws => WFailed | Unwinds => WExitActive end)
  | WCompleted => go (set_tasks s (p_started s) (u64 (p_completed s + 1)) (p_failed s)) WInactive
  | WFailed => go (set_tasks s (p_started s) (p_completed s) (u64 (p_failed s + 1))) WInactive
  | WInactive => Some (set_counts s (p_live s) (u64 (p_active s - 1)), at_pc (active_flag w false) WTop)
  | WExitActive =>
      if w_task_active w then Some (set_counts s (p_live s) (u64 (p_active s - 1)), at_pc (active_flag w false) WExitLive)
      else go s WExitLive
  | WExitLive =>
      if w_live_released w then go s WExitRegister
      else Some (set_counts s (u64 (p_live s - 1)) (p_active s), at_pc (released w) WExitRegister)
  | WExitRegister =>
      if p_locked s then None else go (set_slots s (p_workers s) (p_finished s ++ [w_generation w]) (p_locked s)) WDone
  | WDone => None
  end.

(** ** The steps of the controller *)

Section controller.
Context (cfg : PoolConfig).

(** [spawn_worker] in two steps: the count, then the thread, which may not
    start. *)
Definition spawn_count (s : Pool) : Pool :=
  set_threads (set_counts s (u64 (p_live s + 1)) (p_active s)) (p_next s + 1) (p_threads s).

Definition spawn_thread (s : Pool) : Pool :=
  let g := u64 (p_next s - 1) in
  let w := {| w_generation := g; w_pc := WTop; w_task_active := false; w_live_released := false |} in
  set_slots (set_threads s (p_next s) (p_threads s ++ [w])) (p_workers s ++ [g]) (p_finished s) (p_locked s).

Definition spawn_undo (s : Pool) : Pool := set_counts s (u64 (p_live s - 1)) (p_active s).

(** The exception of a thread that does not start leaves the operation. *)
Definition spawn_worker (ok : bool) (s : Pool) (next : cpc) : Pool :=
  if ok then set_ctl (spawn_thread s) next else set_ctl (spawn_undo s) CUnlock.

Definition is_done (w : Worker) : bool := match w_pc w with WDone => true | _ => false end.

(** Joining the thread of a generation waits until it is done. *)
Definition can_join (s : Pool) (generation : Z) : bool :=
  forallb (fun w => negb (w_generation w =? generation) || is_done w) (p_threads s).

Fixpoint erase_first (g : Z) (l : list Z) : list Z :=
  match l with [] => [] | x :: l => if x =? g then l else x :: erase_first g l end.

(** [None]: a join inside would wait. *)
Fixpoint reap (s : Pool) (finished workers : list Z) : option (list Z) :=
  match finished with
  | [] => Some workers
  | g :: finished =>
      if existsb (Z.eqb g) workers then if can_join s g then reap s finished (erase_first g workers) else None
      else reap s finished workers
  end.

Definition reap_finished_workers (s : Pool) : option Pool :=
  workers ← reap s (p_finished s) (p_workers s);
  Some (set_slots s workers [] (p_locked s)).

Definition should_scale_up (depth threads : Z) : bool :=
  if threads =? 0 then 0 <? depth else u64 (threads * pc_scale_up_threshold cfg) <? depth.

Definition should_scale_down (depth threads : Z) : bool :=
  if threads <=? pc_min_threads cfg then false else depth <? u64 (threads * pc_scale_down_threshold cfg).

Definition lock (s : Pool) : option Pool := if p_locked s then None else Some (set_slots s (p_workers s) (p_finished s) true).

(** One step; [depth] is what the queue answers, [ok] whether a thread starts. *)
Definition controller_step (depth : Z) (ok : bool) (s : Pool) : option Pool :=
  match p_ctl s with
  | CIdle => None
  | CStartStopping => Some (set_ctl (set_flags s (p_running s) (p_paused s) false) CStartPaused)
  | CStartPaused => Some (set_ctl (set_flags s (p_running s) false (p_stopping s)) CStartTarget)
  | CStartTarget => Some (set_ctl (set_target s (pc_min_threads cfg)) CStartLock)
  | CStartLock => s ← lock s; Some (set_ctl s (CSpawn (Z.to_nat (pc_min_threads cfg))))
  | CSpawn O => Some (set_ctl s CUnlock)
  | CSpawn (S n) => Some (set_ctl (spawn_count s) (CSpawning n))
  | CSpawning n => Some (spawn_worker ok s (CSpawn n))
  | CUnlock => Some (set_ctl (set_slots s (p_workers s) (p_finished s) false) CIdle)
  | CJoinTake => if p_locked s then None else Some (set_ctl (set_slots s [] (p_finished s) (p_locked s)) (CJoin (p_workers s)))
  | CJoin [] => Some (set_ctl s CJoinClear)
  | CJoin (g :: l) => if can_join s g then Some (set_ctl s (CJoin l)) else None
  | CJoinClear => if p_locked s then None else Some (set_ctl (set_slots s (p_workers s) [] (p_locked s)) CJoinLive)
  | CJoinLive => Some (set_ctl (set_counts s 0 (p_active s)) CJoinActive)
  | CJoinActive => Some (set_ctl (set_counts s (p_live s) 0) CJoinTarget)
  | CJoinTarget => Some (set_ctl (set_target s 0) CJoined)
  | CJoined => Some (set_ctl s CIdle)
  | CCheckRunning => Some (set_ctl s (if p_running s then CCheckStopping else CIdle))
  | CCheckStopping => Some (set_ctl s (if p_stopping s then CIdle else CCheckPaused))
  | CCheckPaused => Some (set_ctl s (if p_paused s then CIdle else CUpDepth))
  | CUpDepth => Some (set_ctl s (CUpLive depth))
  | CUpLive depth => Some (set_ctl s (if should_scale_up depth (p_live s) then CUpTarget else CDownDepth))
  | CUpTarget =>
      Some (set_ctl s (if p_target s <? effective_max_threads cfg
                       then CUpStore (Z.min (u64 (p_target s + 1)) (effective_max_threads cfg)) else CIdle))
  | CUpStore n => Some (set_ctl (set_target s n) (CUpLock n))
  | CUpLock n => s ← lock s; Some (set_ctl s (CUpReap n))
  | CUpReap n => s ← reap_finished_workers s; Some (set_ctl s (CUpGate n))
  | CUpGate n => Some (set_ctl s (if p_live s <? n then CUpSpawn else CUnlock))
  | CUpSpawn => Some (set_ctl (spawn_count s) CUpSpawning)
  | CUpSpawning => Some (spawn_worker ok s CUpCount)
  | CUpCount => Some (set_ctl (set_scales s (u64 (p_up s + 1)) (p_down s)) CUnlock)
  | CDownDepth => Some (set_ctl s (CDownLive depth))
  | CDownLive depth => Some (set_ctl s (if should_scale_down depth (p_live s) then CDownTarget else CIdle))
  | CDownTarget =>
      Some (set_ctl s (if pc_min_threads cfg <? p_target s then CDownStore (Z.max (p_target s - 1) (pc_min_threads cfg)) else CIdle))
  | CDownStore n => Some (set_ctl (set_target s n) CDownCount)
  | CDownCount => Some (set_ctl (set_scales s (p_up s) (u64 (p_down s + 1))) CIdle)
  | CToStore n => Some (set_ctl (set_target s n) (CToLock n))
  | CToLock n => s ← lock s; Some (set_ctl s (CToReap n))
  | CToReap n => s ← reap_finished_workers s; Some (set_ctl s (CToGate n))
  | CToGate n => Some (set_ctl s (if p_live s <? n then CToSpawn n else CUnlock))
  | CToSpawn n => Some (set_ctl (spawn_count s) (CToSpawning n))
  | CToSpawning n => Some (spawn_worker ok s (CToGate n))
  end.

(** ** The calls *)

(** [start] and the other operations of the controller, from their first
    access. *)
Definition start (s : Pool) : Pool :=
  if p_running s then s else set_ctl (set_flags s true (p_paused s) (p_stopping s)) CStartStopping.
Definition join_workers (s : Pool) : Pool := set_ctl s CJoinTake.
Definition check_scaling (s : Pool) : Pool := set_ctl s CCheckRunning.
Definition scale_to (target : Z) (s : Pool) : Pool :=
  set_ctl s (CToStore (Z.min (Z.max target (pc_min_threads cfg)) (effective_max_threads cfg))).

Definition notify_all (s : Pool) : Pool :=
  set_threads s (p_next s) (map (fun w => match w_pc w with WAsleep task => at_pc w (WWait task) | _ => w end) (p_threads s)).

Definition pause (s : Pool) : Pool := set_flags s (p_running s) true (p_stopping s).
Definition resume (s : Pool) : Pool := set_async (set_flags s (p_running s) false (p_stopping s)) (ANotify :: p_async s).
Definition request_stop (s : Pool) : Pool :=
  if p_running s then set_async (set_flags s false (p_paused s) (p_stopping s)) (AStopping :: p_async s) else s.
Definition async_step (a : apc) (s : Pool) : Pool * list apc :=
  match a with
  | AStopping => (set_flags s (p_running s) (p_paused s) true, [APaused])
  | APaused => (set_flags s (p_running s) false (p_stopping s), [ANotify])
  | ANotify => (notify_all s, [])
  end.

Inductive step : Pool -> Pool -> Prop :=
  | step_worker m s i w s' w' : p_threads s !! i = Some w -> worker_step m s w = Some (s', w') ->
      step s (set_threads s' (p_next s') (<[i := w']> (p_threads s')))
  | step_controller depth ok s s' : controller_step depth ok s = Some s' -> step s s'
  | step_start s : p_ctl s = CIdle -> step s (start s)
  | step_join s : p_ctl s = CIdle -> step s (join_workers s)
  | step_check s : p_ctl s = CIdle -> step s (check_scaling s)
  | step_scale target s : p_ctl s = CIdle -> step s (scale_to target s)
  | step_pause s : step s (pause s)
  | step_resume s : step s (resume s)
  | step_stop s : step s (request_stop s)
  | step_async s l1 a l2 s' next : p_async s = l1 ++ a :: l2 -> async_step a s = (s', next) ->
      step s (set_async s' (l1 ++ next ++ l2)).

Definition reach : Pool -> Prop := rtc step new_pool.
End controller.


(** ** What holds in every reachable state *)

Definition unreleased (w : Worker) : bool := negb (w_live_released w).

(** A worker counted but not started yet. *)
Definition spawning (c : cpc) : Z := match c with CSpawning _ | CUpSpawning | CToSpawning _ => 1 | _ => 0 end.
Definition holds_lock (c : cpc) : bool :=
  match c with
  | CSpawn _ | CSpawning _ | CUnlock | CUpReap _ | CUpGate _ | CUpSpawn | CUpSpawning | CUpCount
  | CToReap _ | CToGate _ | CToSpawn _ | CToSpawning _ => true
  | _ => false
  end.
Definition joining (c : cpc) : list Z := match c with CJoin l => l | _ => [] end.
Definition cleared (c : cpc) : bool := match c with CJoinLive | CJoinActive | CJoinTarget | CJoined => true | _ => false end.
Definition join_phase (c : cpc) : bool := match c with CJoin _ | CJoinClear => true | c => cleared c end.

(** The guard's two flags at each place of the loop. *)
Definition flags_ok (w : Worker) : bool :=
  match w_pc w with
  | WStarted | WTask | WCompleted | WFailed | WInactive => w_task_active w && negb (w_live_released w)
  | WExitActive => negb (w_task_active w && w_live_released w)
  | WExitLive => negb (w_task_active w)
  | WExitRegister | WDone => negb (w_task_active w) && w_live_released w
  | _ => negb (w_task_active w) && negb (w_live_released w)
  end.

Record Inv (s : Pool) : Prop := {
  inv_live : p_live s = u64 (tally unreleased (p_threads s) + spawning (p_ctl s));
  inv_active : p_active s = u64 (tally w_task_active (p_threads s));
  inv_flags : Forall flags_ok (p_threads s);
  inv_slots : Forall (fun w => is_done w = true \/ w_generation w ∈ p_workers s ++ joining (p_ctl s)) (p_threads s);
  inv_finished : Forall (fun g => Exists (fun w => is_done w = true /\ w_generation w = g) (p_threads s)) (p_finished s);
  inv_locked : p_locked s = holds_lock (p_ctl s);
  inv_taken : join_phase (p_ctl s) = true -> p_workers s = [];
  inv_cleared : cleared (p_ctl s) = true -> p_finished s = [];
  inv_target : p_ctl s = CJoined -> p_target s = 0;
  inv_next : spawning (p_ctl s) <= p_next s;
  inv_fresh : Forall (fun w => exists n, 0 <= n < p_next s - spawning (p_ctl s) /\ w_generation w = u64 n) (p_threads s);
  inv_distinct : p_next s <= 2 ^ 64 -> NoDup (map w_generation (p_threads s)) }.

Lemma u64_add_l x d : u64 (u64 x + d) = u64 (x + d).
Proof. apply Zplus_mod_idemp_l. Qed.

Lemma u64_shift x a b : u64 (u64 x - a + b) = u64 (x - a + b).
Proof. replace (u64 x - a + b) with (u64 x + (b - a)) by lia. rewrite u64_add_l. f_equal. lia. Qed.

(** What a worker's step changes. *)
Record worker_effect (s : Pool) (w : Worker) (s' : Pool) (w' : Worker) : Prop := {
  we_generation : w_generation w' = w_generation w;
  we_flags : flags_ok w' = true;
  we_running : is_done w = false;
  we_live : p_live s' = u64 (p_live s - Z.b2z (unreleased w) + Z.b2z (unreleased w'));
  we_active : p_active s' = u64 (p_active s - Z.b2z (w_task_active w) + Z.b2z (w_task_active w'));
  we_finished : p_finished s' = p_finished s ++ (if is_done w' then [w_generation w] else []);
  we_workers : p_workers s' = p_workers s; we_ctl : p_ctl s' = p_ctl s; we_locked : p_locked s' = p_locked s;
  we_next : p_next s' = p_next s; we_threads : p_threads s' = p_threads s; we_target : p_target s' = p_target s }.

Lemma worker_step_effect m s w s' w' :
  p_live s = u64 (p_live s) -> p_active s = u64 (p_active s) -> flags_ok w = true ->
  worker_step m s w = Some (s', w') -> worker_effect s w s' w'.
Proof.
  intros Hl Ha Hok H. destruct w as [g pc a r]. unfold worker_step, flags_ok, woken in *. cbn [w_pc] in *.
  destruct pc; cbn in *; rewrite ?andb_true_iff, ?negb_true_iff in Hok; destruct_and?; subst;
    repeat (case_match; cbn in *; simplify_eq); simplify_eq.
  all: try (constructor; unfold unreleased, is_done, flags_ok in *; cbn in *; rewrite ?app_nil_r; try done;
         rewrite ?Z.sub_diag, ?Z.add_0_r, ?Z.sub_0_r, ?Z.sub_add; try done; try (f_equal; lia)).
Qed.

Lemma inv_wrapped s : Inv s -> p_live s = u64 (p_live s) /\ p_active s = u64 (p_active s).
Proof. intros I. rewrite (inv_live s I), (inv_active s I). now rewrite !(wrap_wrap 64). Qed.

Lemma Forall_insert_2 {A} (P : A -> Prop) l i x : Forall P l -> P x -> Forall P (<[i := x]> l).
Proof.
  intros H Hx. apply Forall_lookup_2. intros j y Hj.
  destruct (decide (i = j)) as [->|]; [apply list_lookup_insert_Some in Hj as [(?&?&?)|[??]]; subst; try done|
    rewrite list_lookup_insert_ne in Hj by done]; by eapply Forall_lookup_1.
Qed.

Lemma map_insert_same {A B} (f : A -> B) l i x y :
  l !! i = Some x -> f y = f x -> map f (<[i := y]> l) = map f l.
Proof.
  intros H E. apply list_eq. intros j. rewrite !list_lookup_fmap.
  destruct (decide (i = j)) as [->|]; [|now rewrite list_lookup_insert_ne].
  rewrite list_lookup_insert_eq by (now apply lookup_lt_Some in H). rewrite H. cbn. now rewrite E.
Qed.

(** A worker that is done stays in its place. *)
Lemma Exists_done_insert g l i w w' :
  l !! i = Some w -> is_done w = false -> Exists (fun w => is_done w = true /\ w_generation w = g) l ->
  Exists (fun w => is_done w = true /\ w_generation w = g) (<[i := w']> l).
Proof.
  intros H Hd. rewrite !Exists_exists. intros (x & Hx & Ex & Eg). exists x. split; [|done].
  apply list_elem_of_lookup in Hx as [j Hj]. apply list_elem_of_lookup. exists j.
  rewrite list_lookup_insert_ne; [done|]. intros ->. simplify_eq. congruence.
Qed.

Lemma inv_all_done s : Inv s -> join_phase (p_ctl s) = true -> joining (p_ctl s) = [] -> Forall (fun w => is_done w = true) (p_threads s).
Proof.
  intros I J E. eapply Forall_impl; [apply (inv_slots s I)|]. intros w [|H]; [done|].
  cbn in H. rewrite E, (inv_taken s I J) in H. inversion H.
Qed.

Lemma worker_preserves m s i w s' w' :
  Inv s -> p_threads s !! i = Some w -> worker_step m s w = Some (s', w') ->
  Inv (set_threads s' (p_next s') (<[i := w']> (p_threads s'))).
Proof.
  intros I Hi H. pose proof (inv_wrapped s I) as [W1 W2].
  assert (Hok : flags_ok w = true). { pose proof (Forall_lookup_1 _ _ _ _ (inv_flags s I) Hi). now apply Is_true_true. }
  destruct (worker_step_effect m s w s' w' W1 W2 Hok H) as [Eg Ef Er El Ea Efin Ew Ec Elk En Et Etg].
  destruct I as [I1 I2 I3 I4 I5 I6 I7 I8 I9 I10 I11 I12].
  constructor; cbn; rewrite ?Et, ?Ec, ?Ew, ?En, ?Elk, ?Etg; try done.
  - rewrite (tally_insert unreleased _ i w) by done. rewrite El, I1, u64_shift. f_equal. lia.
  - rewrite (tally_insert _ _ i w) by done. now rewrite Ea, I2, u64_shift.
  - apply Forall_insert_2; [done|]. now apply Is_true_true.
  - apply Forall_insert_2; [done|]. right. rewrite Eg.
    destruct (Forall_lookup_1 _ _ _ _ I4 Hi) as [E|E]; [congruence | done].
  - rewrite Efin. apply Forall_app. split.
    + eapply Forall_impl; [apply I5|]. intros g. now apply Exists_done_insert with w.
    + destruct (is_done w') eqn:E; [|done]. apply Forall_singleton, Exists_exists. exists w'. split; [|done].
      apply list_elem_of_lookup. exists i. apply list_lookup_insert_eq. now apply lookup_lt_Some in Hi.
  - intros Hc. exfalso. assert (J : join_phase (p_ctl s) = true) by (now destruct (p_ctl s)).
    assert (Ej : joining (p_ctl s) = []) by (now destruct (p_ctl s)).
    destruct (Forall_lookup_1 _ _ _ _ I4 Hi) as [E|E]; [congruence|].
    rewrite (I7 J), Ej in E. inversion E.
  - apply Forall_insert_2; [done|]. rewrite Eg. exact (Forall_lookup_1 _ _ _ _ I11 Hi).
  - intros Hn. rewrite (map_insert_same _ _ i w); auto.
Qed.

Lemma notify_preserves s : Inv s -> Inv (notify_all s).
Proof.
  intros [I1 I2 I3 I4 I5 I6 I7 I8 I9 I10 I11 I12]. unfold notify_all.
  set (f := fun w : Worker => match w_pc w with WAsleep task => at_pc w (WWait task) | _ => w end).
  assert (Ff : forall w, is_done (f w) = is_done w /\ w_generation (f w) = w_generation w /\ unreleased (f w) = unreleased w /\
                 w_task_active (f w) = w_task_active w /\ flags_ok (f w) = flags_ok w).
  { intros w. unfold f, is_done, unreleased, flags_ok. destruct (w_pc w) eqn:E; rewrite ?E; cbn; rewrite ?E; repeat split; done. }
  constructor; cbn; try done.
  - rewrite tally_map by apply Ff. done.
  - rewrite tally_map by apply Ff. done.
  - apply Forall_map. eapply Forall_impl; [apply I3|]. intros w. cbn. destruct (Ff w) as (_&_&_&_&->). done.
  - apply Forall_map. eapply Forall_impl; [apply I4|]. intros w. cbn. destruct (Ff w) as (->&->&_). done.
  - eapply Forall_impl; [apply I5|]. intros g. rewrite !Exists_exists. intros (w & Hw & E1 & E2).
    exists (f w). destruct (Ff w) as (->&->&_). split; [|done]. now apply list_elem_of_fmap_2.
  - apply Forall_map. eapply Forall_impl; [apply I11|]. intros w. cbn. destruct (Ff w) as (_&->&_). done.
  - intros Hn. rewrite map_map. rewrite (map_ext _ w_generation) by apply Ff. auto.
Qed.

(** A step that moves only the controller, the flags and the target. *)
Lemma frame s s' :
  Inv s -> p_live s' = p_live s -> p_active s' = p_active s -> p_threads s' = p_threads s -> p_workers s' = p_workers s ->
  p_finished s' = p_finished s -> p_next s' = p_next s -> spawning (p_ctl s') = spawning (p_ctl s) ->
  joining (p_ctl s') = joining (p_ctl s) -> p_locked s' = holds_lock (p_ctl s') ->
  (join_phase (p_ctl s') = true -> join_phase (p_ctl s) = true) -> (cleared (p_ctl s') = true -> cleared (p_ctl s) = true) ->
  (p_ctl s' = CJoined -> p_target s' = 0) -> Inv s'.
Proof.
  intros [I1 I2 I3 I4 I5 I6 I7 I8 I9 I10 I11 I12] E1 E2 E3 E4 E5 E6 E7 E8 E9 E10 E11 E12.
  constructor; rewrite ?E1, ?E2, ?E3, ?E4, ?E5, ?E6, ?E7, ?E8; auto.
Qed.

Lemma elem_erase_first x g l : x ∈ l -> x <> g -> x ∈ erase_first g l.
Proof.
  induction l as [|y l IH]; intros H Hx; [done|]. cbn. destruct (Z.eqb_spec y g) as [->|].
  - now apply elem_of_cons in H as [?|?].
  - apply elem_of_cons in H as [->|?]; apply elem_of_cons; auto.
Qed.

Lemma can_join_done s g w : can_join s g = true -> w ∈ p_threads s -> w_generation w = g -> is_done w = true.
Proof.
  unfold can_join. rewrite forallb_forall. intros H Hw E. apply list_elem_of_In, H in Hw.
  rewrite E, Z.eqb_refl in Hw. exact Hw.
Qed.

(** Reaping keeps the slot of every worker that still runs. *)
Lemma reap_keeps_running s finished workers workers' w :
  reap s finished workers = Some workers' -> w ∈ p_threads s -> is_done w = false -> w_generation w ∈ workers ->
  w_generation w ∈ workers'.
Proof.
  revert workers. induction finished as [|g finished IH]; cbn; intros workers H Hw Hd Hin; [now simplify_eq|].
  repeat case_match; simplify_eq; eauto.
  eapply IH; [done..|]. apply elem_erase_first; [done|]. intros E. assert (is_done w = true) by (eapply can_join_done; eauto). congruence.
Qed.

Lemma reap_preserves s s' c c' :
  Inv s -> p_ctl s = c -> holds_lock c = true -> holds_lock c' = true -> spawning c = 0 -> spawning c' = 0 ->
  reap_finished_workers s = Some s' -> Inv (set_ctl s' c').
Proof.
  intros [I1 I2 I3 I4 I5 I6 I7 I8 I9 I10 I11 I12] Ec L L' S S'. unfold reap_finished_workers.
  destruct (reap s (p_finished s) (p_workers s)) as [ws|] eqn:R; [|done]. intros H. injection H as <-.
  assert (J : joining c = [] /\ joining c' = [] /\ join_phase c' = false /\ cleared c' = false /\ c' <> CJoined)
    by (destruct c, c'; done). destruct J as (J1 & J2 & J3 & J4 & J5). subst c.
  constructor; cbn; rewrite ?S', ?J2, ?J3, ?J4, ?L'; try done.
  - now rewrite S in I1.
  - rewrite app_nil_r. rewrite J1, app_nil_r in I4. apply Forall_forall. intros w Hw.
    rewrite Forall_forall in I4. destruct (I4 w Hw) as [|H]; [now left|]. destruct (is_done w) eqn:E; [now left|right].
    eapply reap_keeps_running; eauto.
  - now rewrite I6.
  - now rewrite S in I10.
  - now rewrite S in I11.
Qed.

Lemma spawn_count_preserves s c c' :
  Inv s -> p_ctl s = c -> holds_lock c = true -> spawning c = 0 -> holds_lock c' = true -> spawning c' = 1 ->
  Inv (set_ctl (spawn_count s) c').
Proof.
  intros [I1 I2 I3 I4 I5 I6 I7 I8 I9 I10 I11 I12] Ec L S L' S'. 
  assert (J : joining c = [] /\ joining c' = [] /\ join_phase c' = false /\ cleared c' = false /\ c' <> CJoined)
    by (destruct c, c'; done). destruct J as (J1 & J2 & J3 & J4 & J5). subst c.
  rewrite S in *. constructor; cbn; rewrite ?S', ?J2, ?J3, ?J4, ?L'; try done.
  - rewrite I1, Z.add_0_r. apply u64_add_l.
  - now rewrite J1 in I4.
  - now rewrite I6.
  - lia.
  - eapply Forall_impl; [apply I11|]. intros w (n & ? & ?). exists n. split; [lia | done].
  - intros ?. apply I12. lia.
Qed.

Lemma spawn_worker_preserves ok s c c' :
  Inv s -> p_ctl s = c -> spawning c = 1 -> holds_lock c' = true -> spawning c' = 0 -> Inv (spawn_worker ok s c').
Proof.
  intros [I1 I2 I3 I4 I5 I6 I7 I8 I9 I10 I11 I12] Ec S L' S'. 
  assert (J : holds_lock c = true /\ joining c = [] /\ joining c' = [] /\ join_phase c' = false /\ cleared c' = false /\ c' <> CJoined)
    by (destruct c, c'; done). destruct J as (L & J1 & J2 & J3 & J4 & J5). subst c.
  rewrite S, ?J1 in *. destruct ok; cbn [spawn_worker].
  - constructor; cbn; rewrite ?S', ?J2, ?J3, ?J4, ?L'; try done.
    + rewrite tally_app. rewrite I1. f_equal. unfold tally, total; cbn. lia.
    + rewrite tally_app. rewrite I2. f_equal. unfold tally, total; cbn. lia.
    + apply Forall_app; split; [done|]. now apply Forall_singleton.
    + rewrite app_nil_r in *. apply Forall_app; split.
      * eapply Forall_impl; [apply I4|]. intros w [|]; [now left | right]. apply elem_of_app. now left.
      * apply Forall_singleton. right. apply elem_of_app. right. now apply list_elem_of_singleton.
    + eapply Forall_impl; [apply I5|]. intros g H. now apply Exists_app; left.
    + now rewrite I6.
    + lia.
    + apply Forall_app; split.
      * eapply Forall_impl; [apply I11|]. intros w (n & ? & ?). exists n. split; [lia|done].
      * apply Forall_singleton. exists (p_next s - 1). split; [lia|done].
    + intros Hn. rewrite map_app. apply NoDup_app. split; [auto|]. split; [|apply NoDup_singleton].
      intros g Hg Hg'. apply list_elem_of_singleton in Hg'. cbn in Hg'. subst g.
      apply list_elem_of_fmap in Hg as (w & Eg & Hw). rewrite Forall_forall in I11.
      destruct (I11 w Hw) as (n & Hr & En). rewrite En in Eg. unfold u64 in Eg.
      rewrite !wrap_small in Eg by (unfold fits; lia). lia.
  - constructor; cbn; rewrite ?app_nil_r in *; try done.
    + rewrite I1, <- Z.add_opp_r, u64_add_l. f_equal. lia.
    + now rewrite I6.
    + lia.
    + eapply Forall_impl; [apply I11|]. intros w (n & ? & ?). exists n. split; [lia|done].
Qed.

(** *** The steps of join_workers *)

Lemma take_preserves s : Inv s -> p_ctl s = CJoinTake -> Inv (set_ctl (set_slots s [] (p_finished s) false) (CJoin (p_workers s))).
Proof.
  intros [I1 I2 I3 I4 I5 I6 I7 I8 I9 I10 I11 I12] Ec. rewrite Ec in *. cbn in *.
  constructor; cbn; try done. now rewrite app_nil_r in I4.
Qed.

Lemma joined_one_preserves s g l : Inv s -> p_ctl s = CJoin (g :: l) -> can_join s g = true -> Inv (set_ctl s (CJoin l)).
Proof.
  intros [I1 I2 I3 I4 I5 I6 I7 I8 I9 I10 I11 I12] Ec Hj. rewrite Ec in *. cbn in *.
  constructor; cbn; try done. apply Forall_forall. intros w Hw. rewrite Forall_forall in I4.
  destruct (I4 w Hw) as [|H]; [now left|]. rewrite (I7 eq_refl) in *. cbn in *.
  apply elem_of_cons in H as [E|]; [|now right]. left. eapply can_join_done; eauto.
Qed.

Lemma done_none f s :
  Inv s -> (forall w, flags_ok w = true -> is_done w = true -> f w = false) -> join_phase (p_ctl s) = true -> joining (p_ctl s) = [] ->
  tally f (p_threads s) = 0.
Proof.
  intros I Hf J E. apply tally_none. pose proof (inv_all_done s I J E) as D. pose proof (inv_flags s I) as F.
  rewrite Forall_forall in *. intros w Hw. apply Hf; [|now apply D]. now apply Is_true_true, F.
Qed.

Lemma done_unreleased w : flags_ok w = true -> is_done w = true -> unreleased w = false.
Proof. unfold flags_ok, is_done, unreleased. destruct (w_pc w); try done. now destruct (w_live_released w), (w_task_active w). Qed.

Lemma done_inactive w : flags_ok w = true -> is_done w = true -> w_task_active w = false.
Proof. unfold flags_ok, is_done. destruct (w_pc w); try done. now destruct (w_task_active w). Qed.

(** Once every worker is joined both counts are already zero. *)
Lemma joined_counts s :
  Inv s -> join_phase (p_ctl s) = true -> joining (p_ctl s) = [] -> p_live s = 0 /\ p_active s = 0.
Proof.
  intros I J E. rewrite (inv_live s I), (inv_active s I), (done_none _ s I done_unreleased J E), (done_none _ s I done_inactive J E).
  now replace (spawning (p_ctl s)) with 0 by (now destruct (p_ctl s)).
Qed.

Lemma clear_preserves s : Inv s -> p_ctl s = CJoinClear -> Inv (set_ctl (set_slots s (p_workers s) [] false) CJoinLive).
Proof. intros [I1 I2 I3 I4 I5 I6 I7 I8 I9 I10 I11 I12] Ec. rewrite Ec in *. cbn in *. now constructor. Qed.

Section invariant.
Context (cfg : PoolConfig).

Lemma controller_preserves depth ok s s' : Inv s -> controller_step cfg depth ok s = Some s' -> Inv s'.
Proof.
  intros I H. pose proof (inv_locked s I) as HL. unfold controller_step in H.
  destruct (p_ctl s) eqn:Ec; cbn [holds_lock] in HL; unfold lock in H; rewrite ?HL in H; cbn in H.
  all: try discriminate; try (injection H as <-).
  all: try (apply (frame s); [done|..]; try done; cbn; rewrite ?Ec; repeat case_match; done).
  all: try (eapply spawn_count_preserves; eauto; done).
  all: try (eapply spawn_worker_preserves; eauto; done).
  all: try (destruct (reap_finished_workers s) as [s2|] eqn:R; [|done]; injection H as <-; eapply reap_preserves; eauto; done).
  - destruct n; injection H as <-; [apply (frame s); rewrite ?Ec; done|]. eapply spawn_count_preserves; eauto; done.
  - now apply take_preserves.
  - destruct l as [|g l]; [injection H as <-; apply (frame s); rewrite ?Ec; done|].
    case_match; [|done]. injection H as <-. eapply joined_one_preserves; eauto.
  - now apply clear_preserves.
  - destruct (joined_counts s I) as [E _]; rewrite ?Ec; try done. apply (frame s); rewrite ?Ec; done.
  - destruct (joined_counts s I) as [_ E]; rewrite ?Ec; try done. apply (frame s); rewrite ?Ec; done.
Qed.

Lemma async_preserves a s s' next l : Inv s -> async_step a s = (s', next) -> Inv (set_async s' l).
Proof.
  intros I H. destruct a; injection H as <- <-; try (apply (frame s); try done; apply I).
  apply (frame (notify_all s)); try done; now apply notify_preserves.
Qed.

Lemma step_preserves s s' : Inv s -> step cfg s s' -> Inv s'.
Proof.
  intros I H. pose proof (inv_locked s I) as HL. destruct H as [m s i w s1 w1 Hi Hw|depth ok s s1 Hc|s E|s E|s E|target s E|s|s|s|s l1 a l2 s1 next Ha Hs].
  - eapply worker_preserves; eauto.
  - eapply controller_preserves; eauto.
  - unfold start. case_match; [done|]. apply (frame s); rewrite ?E; try done. cbn. now rewrite HL, E.
  - apply (frame s); rewrite ?E; try done. cbn. now rewrite HL, E.
  - apply (frame s); rewrite ?E; try done. cbn. now rewrite HL, E.
  - apply (frame s); rewrite ?E; try done. cbn. now rewrite HL, E.
  - apply (frame s); try done; apply I.
  - apply (frame s); try done; apply I.
  - unfold request_stop. case_match; [|done]. apply (frame s); try done; apply I.
  - eapply async_preserves; eauto.
Qed.

Lemma inv_new_pool : Inv new_pool.
Proof. constructor; try done. intros _. constructor. Qed.

Lemma reach_inv s : reach cfg s -> Inv s.
Proof.
  unfold reach. intros H. pose proof inv_new_pool as I. revert I. induction H as [s|s1 s2 s3 H12 _ IH]; [done|].
  intros I. apply IH. eapply step_preserves; eauto.
Qed.
End invariant.

(** ** Schedules: the steps as a function *)

Inductive act :=
  | Work (i : nat) (m : Meets) | Ctl (depth : Z) (ok : bool) | Start | Join | Check | ScaleTo (target : Z)
  | Pause | Resume | Stop | Async (k : nat).

Definition idle (s : Pool) : bool := match p_ctl s with CIdle => true | _ => false end.

Definition exec (cfg : PoolConfig) (a : act) (s : Pool) : option Pool :=
  match a with
  | Work i m =>
      w ← p_threads s !! i;
      r ← worker_step m s w;
      Some (set_threads r.1 (p_next r.1) (<[i := r.2]> (p_threads r.1)))
  | Ctl depth ok => controller_step cfg depth ok s
  | Start => if idle s then Some (start s) else None
  | Join => if idle s then Some (join_workers s) else None
  | Check => if idle s then Some (check_scaling s) else None
  | ScaleTo target => if idle s then Some (scale_to cfg target s) else None
  | Pause => Some (pause s)
  | Resume => Some (resume s)
  | Stop => Some (request_stop s)
  | Async k =>
      a ← p_async s !! k;
      let r := async_step a s in Some (set_async r.1 (take k (p_async s) ++ r.2 ++ drop (S k) (p_async s)))
  end.

Fixpoint run (cfg : PoolConfig) (l : list act) (s : Pool) : option Pool :=
  match l with [] => Some s | a :: l => s ← exec cfg a s; run cfg l s end.

Lemma exec_step cfg a s s' : exec cfg a s = Some s' -> step cfg s s'.
Proof.
  unfold exec. intros H. destruct a; unfold idle in H; try (destruct (p_ctl s) eqn:E; simplify_eq; constructor; done).
  - destruct (p_threads s !! i) as [w|] eqn:E; [|done]. cbn in H. destruct (worker_step m s w) as [[s1 w1]|] eqn:E2; [|done].
    cbn in H. simplify_eq. eapply step_worker; eauto.
  - econstructor; eauto.
  - destruct (p_async s !! k) as [b|] eqn:E; [|done]. cbn in H. destruct (async_step b s) as [s1 next] eqn:E2. cbn in H. simplify_eq.
    eapply step_async; [|eauto]. now rewrite take_drop_middle.
Qed.

Lemma run_rtc cfg l s s' : run cfg l s = Some s' -> rtc (step cfg) s s'.
Proof.
  revert s. induction l as [|a l IH]; cbn; intros s H; [simplify_eq; apply rtc_refl|].
  destruct (exec cfg a s) as [s1|] eqn:E; [|done]. eapply rtc_l; [eapply exec_step, E | now apply IH].
Qed.

Lemma run_reach cfg l s : run cfg l new_pool = Some s -> reach cfg s.
Proof. apply run_rtc. Qed.

(** The start of a pool of one worker. *)
Definition one : PoolConfig := {| pc_min_threads := 1; pc_max_threads := 1; pc_scale_up_threshold := 10; pc_scale_down_threshold := 2; pc_hardware := 8 |}.
Definition quiet : Meets := {| m_task := true; m_outcome := Completes; m_spurious := false |}.
Definition started : list act := Start :: repeat (Ctl 0 true) 8.
Definition work (n : nat) : list act := repeat (Work 0 quiet) n.

Example started_pool :
  match run one started new_pool with
  | Some s => p_ctl s = CIdle /\ p_live s = 1 /\ p_target s = 1 /\ p_workers s = [0] /\ length (p_threads s) = 1%nat
  | None => False
  end.
Proof. vm_compute. repeat split. Qed.

(** A task run to its end, then the two phases of a stop. *)
Example stopped_pool :
  match run one (started ++ work 12 ++ [Stop; Async 0; Async 0; Async 0] ++ work 4 ++ Join :: repeat (Ctl 0 true) 7) new_pool with
  | Some s => p_ctl s = CJoined /\ p_completed s = 1 /\ p_live s = 0 /\ map is_done (p_threads s) = [true]
  | None => False
  end.
Proof. vm_compute. repeat split. Qed.

(** ** The properties *)

(** C27. The live and active counts of [AdaptiveThreadPool] are exact in every
    reachable state, whatever the tasks, failed thread starts, pauses and
    scalings: live is the number of workers whose exit guard has not yet given
    its count back (and the one being started), active the number of workers in
    a task. *)
Theorem worker_counts_exact cfg s :
  reach cfg s ->
  p_live s = u64 (tally unreleased (p_threads s) + spawning (p_ctl s)) /\
  p_active s = u64 (tally w_task_active (p_threads s)).
Proof. intros I%reach_inv. split; apply I. Qed.

Lemma worker_counts_exact_witness :
  match run one (started ++ work 8) new_pool with
  | Some s => p_live s = u64 (tally unreleased (p_threads s) + spawning (p_ctl s)) /\
              p_active s = u64 (tally w_task_active (p_threads s))
  | None => False
  end.
Proof.
  destruct (run one (started ++ work 8) new_pool) as [s|] eqn:E; [|now vm_compute in E].
  exact (worker_counts_exact one s (run_reach _ _ _ E)).
Defined.

(** C28. [join_workers] is terminal: when it has returned, every thread the pool
    ever started has left worker_loop and registered its exit, both counts and
    the target are zero and no slot or registration is left for a later reap. *)
Theorem join_workers_terminal cfg s :
  reach cfg s -> p_ctl s = CJoined ->
  Forall (fun w => is_done w = true) (p_threads s) /\ p_live s = 0 /\ p_active s = 0 /\ p_target s = 0 /\
  p_workers s = [] /\ p_finished s = [].
Proof.
  intros I%reach_inv E. assert (J : join_phase (p_ctl s) = true /\ joining (p_ctl s) = [] /\ cleared (p_ctl s) = true) by (now rewrite E).
  destruct J as (J1 & J2 & J3). destruct (joined_counts s I J1 J2). repeat split; try done.
  - now apply inv_all_done.
  - now apply inv_target.
  - now apply inv_taken.
  - now apply inv_cleared.
Qed.

Lemma join_workers_terminal_witness :
  match run one (started ++ work 12 ++ [Stop; Async 0; Async 0; Async 0] ++ work 4 ++ Join :: repeat (Ctl 0 true) 7) new_pool with
  | Some s => Forall (fun w => is_done w = true) (p_threads s)
  | None => False
  end.
Proof.
  destruct (run one _ new_pool) as [s|] eqn:E; [|now vm_compute in E].
  refine (proj1 (join_workers_terminal one s (run_reach _ _ _ E) _)). vm_compute in E. now injection E as <-.
Defined.

(** How far a worker is from its end once the pool stops. *)
Definition rank (pc : wpc) : nat :=
  match pc with
  | WActive => 26 | WStarted => 25 | WTask => 24 | WCompleted | WFailed => 23 | WInactive => 22 | WTop => 21
  | WLive => 20 | WTarget _ => 19 | WCas _ => 18 | WPaused => 17 | WGet => 16 | WPaused2 => 15
  | WBlock _ => 10 | WAsleep _ => 9 | WWait _ => 8 | WWaitStop _ => 7 | WStop | WStop2 => 6
  | WExitActive => 4 | WExitLive => 3 | WExitRegister => 2 | WDone => 0
  end.

Definition asleep (w : Worker) : bool := match w_pc w with WAsleep _ => true | _ => false end.

(** Once _stopping is set a worker runs out: each of its steps brings it
    nearer to its end (so it takes at most 26), whatever the flags, the queue
    and its task do, and it can only wait for a notification, for the workers'
    mutex, or be done. *)
Theorem stopping_worker_drains m s w :
  p_stopping s = true ->
  match worker_step m s w with
  | Some (s', w') => (rank (w_pc w') < rank (w_pc w))%nat /\ p_stopping s' = true
  | None => is_done w = true \/ asleep w = true \/ w_pc w = WExitRegister /\ p_locked s = true
  end.
Proof.
  intros H. unfold worker_step, woken, is_done, asleep.
  destruct (w_pc w) eqn:E; rewrite ?H; repeat case_match; cbn; rewrite ?E; try (split; [lia | done]); simplify_eq; cbn; try (split; [lia | done]); auto.
Qed.

Lemma stopping_worker_drains_witness :
  let s := set_flags new_pool false true true in
  let w := {| w_generation := 0; w_pc := WWait true; w_task_active := false; w_live_released := false |} in
  p_stopping s = true /\
  match worker_step quiet s w with Some (s', w') => (rank (w_pc w') < rank (w_pc w))%nat /\ p_stopping s' = true | None => False end.
Proof.
  split; [reflexivity|].
  exact (stopping_worker_drains quiet (set_flags new_pool false true true)
    {| w_generation := 0; w_pc := WWait true; w_task_active := false; w_live_released := false |} eq_refl).
Defined.

(** [reap_finished_workers] never waits for a worker that still runs: as long as
    no generation was used twice, the join of each registered worker is of a
    thread that is done. *)
Lemma reap_never_waits cfg s :
  reach cfg s -> p_next s <= 2 ^ 64 -> exists s', reap_finished_workers s = Some s' /\ p_finished s' = [].
Proof.
  intros I%reach_inv Hn. assert (G : Forall (fun g => can_join s g = true) (p_finished s)).
  { eapply Forall_impl; [apply (inv_finished s I)|]. intros g (x & Hx & D & Eg)%Exists_exists. unfold can_join.
    apply forallb_forall. intros w Hw%list_elem_of_In. destruct (Z.eqb_spec (w_generation w) g) as [E|]; [|done]. cbn.
    apply list_elem_of_lookup in Hx as [i Hi], Hw as [j Hj]. assert (i = j); [|congruence].
    apply (NoDup_lookup (map w_generation (p_threads s)) i j g (inv_distinct s I Hn)); rewrite list_lookup_fmap, ?Hi, ?Hj; cbn; congruence. }
  unfold reap_finished_workers. enough (exists ws, reap s (p_finished s) (p_workers s) = Some ws) as [ws ->] by (eexists; split; reflexivity).
  revert G. generalize (p_workers s). induction (p_finished s) as [|g l IH]; intros ws G; [eexists; reflexivity|].
  apply Forall_cons in G as [Hg G]. cbn. rewrite Hg. case_match; now apply IH.
Qed.

(** ** Two schedules *)

(** [request_stop] sets its flags and notifies without _pause_mutex: a paused
    worker that has seen them unset and is about to sleep misses the
    notification, and [join_workers] then waits for it for good (unless it wakes
    by itself). *)
Lemma stop_can_strand_a_worker :
  exists s, reach one s /\ p_stopping s = true /\ p_paused s = false /\ p_async s = [] /\ p_ctl s = CJoin [0] /\
    (forall depth ok, controller_step one depth ok s = None) /\
    Forall (fun w => forall m, m_spurious m = false -> worker_step m s w = None) (p_threads s).
Proof.
  destruct (run one (started ++ [Pause] ++ work 6 ++ [Stop; Async 0; Async 0; Async 0] ++ work 1 ++ [Join; Ctl 0 true]) new_pool) as [s|] eqn:E;
    [|now vm_compute in E].
  exists s. split; [exact (run_reach _ _ _ E)|]. vm_compute in E. injection E as <-.
  repeat split; try done. apply Forall_singleton. intros m Hm. cbn. now rewrite Hm.
Qed.

Fixpoint controller_runs (cfg : PoolConfig) (depths : list Z) (s : Pool) : option Pool :=
  match depths with [] => Some s | d :: l => s ← controller_step cfg d true s; controller_runs cfg l s end.

(** [check_scaling] starts no worker when the target is at the maximum. *)
Lemma check_scaling_at_max cfg s depth :
  p_ctl s = CIdle -> p_running s = true -> p_stopping s = false -> p_paused s = false -> should_scale_up cfg depth (p_live s) = true ->
  effective_max_threads cfg <= p_target s -> controller_runs cfg (repeat depth 6) (check_scaling s) = Some s.
Proof.
  intros E1 E2 E3 E4 E5 E6. unfold check_scaling. cbn [repeat controller_runs].
  assert (S1 : controller_step cfg depth true (set_ctl s CCheckRunning) = Some (set_ctl s CCheckStopping)) by (cbn; now rewrite E2).
  assert (S2 : controller_step cfg depth true (set_ctl s CCheckStopping) = Some (set_ctl s CCheckPaused)) by (cbn; now rewrite E3).
  assert (S3 : controller_step cfg depth true (set_ctl s CCheckPaused) = Some (set_ctl s CUpDepth)) by (cbn; now rewrite E4).
  assert (S4 : controller_step cfg depth true (set_ctl s CUpDepth) = Some (set_ctl s (CUpLive depth))) by done.
  assert (S5 : controller_step cfg depth true (set_ctl s (CUpLive depth)) = Some (set_ctl s CUpTarget)).
  { unfold controller_step. cbn [p_ctl set_ctl p_live]. now rewrite E5. }
  assert (S6 : controller_step cfg depth true (set_ctl s CUpTarget) = Some (set_ctl s CIdle)).
  { unfold controller_step. cbn [p_ctl set_ctl p_target]. now rewrite (proj2 (Z.ltb_ge _ _) E6). }
  do 6 (first [rewrite S1 | rewrite S2 | rewrite S3 | rewrite S4 | rewrite S5 | rewrite S6]; cbn [mbind option_bind]).
  rewrite <- E1. now destruct s.
Qed.

(** A pool at its maximum that loses its last worker to a cancelled thread: the
    counts say so, but [check_scaling] asks for room below the maximum in the
    target, so no later call starts a worker, however long the queue. *)
Lemma lost_worker_not_replaced :
  exists s, reach one s /\ p_running s = true /\ p_stopping s = false /\ p_paused s = false /\ p_ctl s = CIdle /\
    p_live s = 0 /\ p_target s = 1 /\ map is_done (p_threads s) = [true] /\
    forall depth, 0 < depth -> controller_runs one (repeat depth 6) (check_scaling s) = Some s.
Proof.
  destruct (run one (started ++ work 8 ++ [Work 0 quiet; Work 0 {| m_task := true; m_outcome := Unwinds; m_spurious := false |}] ++ work 3) new_pool) as [s|] eqn:E;
    [|now vm_compute in E].
  exists s. split; [exact (run_reach _ _ _ E)|]. vm_compute in E. injection E as <-.
  repeat split; try done. intros depth Hd. apply check_scaling_at_max; try done. now apply Z.ltb_lt.
Qed.
