(* ===== verification/ForkGate.v ===== *)
(** * The fork gate (src/src/core/mmap_directory.cpp, fork_gate.hpp)

    The library's background threads do their cache work in passes
    (ForkGatedPass); fork() waits in its prepare handler for the passes in
    flight and holds off new ones.  Threads as programs over the gate's two
    counters and the liveness mutex, one access per step, in any interleaving;
    the processes a fork makes go on from the memory it copied. *)

From S2P Require Import Prelude.
Local Open Scope cyc_scope.

(** Where a thread is. *)
Inductive tpc :=
  | Run          (* none of the below *)
  | PAnnounce    (* ForkGatedPass: g_passes_active + 1 *)
  | PLook        (* g_forks_pending == 0? *)
  | PBackOut     (* g_passes_active - 1 *)
  | PWait        (* while (g_forks_pending != 0) *)
  | PKeep        (* if (!keep_running) return *)
  | PLeave       (* ~ForkGatedPass, outermost: g_passes_active - 1 *)
  | FAnnounce    (* prepare: g_forks_pending + 1 *)
  | FWait        (* prepare: while (g_passes_active != 0) *)
  | FMutex       (* prepare: liveness_mutex().lock() *)
  | FForked      (* fork() copies the memory and returns *)
  | FUnlock      (* parent: liveness_mutex().unlock() *)
  | FRetract     (* parent: g_forks_pending - 1 *)
  | LMutex       (* a claim or a probe: liveness_mutex().lock() *)
  | LHeld.       (* its critical section, then unlock *)

#[export] Instance tpc_eq_dec : EqDecision tpc.
Proof. solve_decision. Defined.

(** [t_depth] is the thread's t_pass_depth. *)
Record Thread := { t_depth : nat; t_pc : tpc }.

Record Gate := {
  g_fork_epoch : Z; g_forks_pending : Z; g_passes_active : Z; g_liveness_mutex : bool; g_threads : list Thread }.

Definition set_pending (g : Gate) (n : Z) : Gate := {|
  g_fork_epoch := g_fork_epoch g; g_forks_pending := u32 n; g_passes_active := g_passes_active g;
  g_liveness_mutex := g_liveness_mutex g; g_threads := g_threads g |}.
Definition set_active (g : Gate) (n : Z) : Gate := {|
  g_fork_epoch := g_fork_epoch g; g_forks_pending := g_forks_pending g; g_passes_active := u32 n;
  g_liveness_mutex := g_liveness_mutex g; g_threads := g_threads g |}.
Definition set_mutex (g : Gate) (b : bool) : Gate := {|
  g_fork_epoch := g_fork_epoch g; g_forks_pending := g_forks_pending g; g_passes_active := g_passes_active g;
  g_liveness_mutex := b; g_threads := g_threads g |}.
Definition set_threads (g : Gate) (l : list Thread) : Gate := {|
  g_fork_epoch := g_fork_epoch g; g_forks_pending := g_forks_pending g; g_passes_active := g_passes_active g;
  g_liveness_mutex := g_liveness_mutex g; g_threads := l |}.

Definition at_pc (th : Thread) (pc : tpc) : Thread := {| t_depth := t_depth th; t_pc := pc |}.
Definition outside (th : Thread) : bool := Nat.eqb (t_depth th) 0.

(** ** What a thread starts *)

Definition pass_begin (th : Thread) : Thread :=
  if outside th then at_pc th PAnnounce else {| t_depth := S (t_depth th); t_pc := Run |}.
Definition pass_end (th : Thread) : option Thread :=
  match t_depth th with
  | O => None
  | 1%nat => Some {| t_depth := 0; t_pc := PLeave |}
  | S d => Some {| t_depth := d; t_pc := Run |}
  end.
Definition on_fork_prepare (th : Thread) : Thread := at_pc th (if outside th then FAnnounce else FMutex).
Definition with_liveness (th : Thread) : Thread := at_pc th LMutex.

(** ** The accesses

    [keep] is what a load of keep_running returns.  [None]: blocked on the
    mutex, or nothing under way. *)
Definition thread_step (keep : bool) (g : Gate) (th : Thread) : option (Gate * Thread) :=
  match t_pc th with
  | Run => None
  | PAnnounce => Some (set_active g (g_passes_active g + 1), at_pc th PLook)
  | PLook => Some (g, if g_forks_pending g =? 0 then {| t_depth := 1; t_pc := Run |} else at_pc th PBackOut)
  | PBackOut => Some (set_active g (g_passes_active g - 1), at_pc th PWait)
  | PWait => Some (g, at_pc th (if negb (g_forks_pending g =? 0) then PKeep else PAnnounce))
  | PKeep => Some (g, at_pc th (if negb keep then Run else PWait))
  | PLeave => Some (set_active g (g_passes_active g - 1), at_pc th Run)
  | FAnnounce => Some (set_pending g (g_forks_pending g + 1), at_pc th FWait)
  | FWait => Some (g, at_pc th (if negb (g_passes_active g =? 0) then FWait else FMutex))
  | FMutex => if g_liveness_mutex g then None else Some (set_mutex g true, at_pc th FForked)
  | FForked => Some (g, at_pc th FUnlock)
  | FUnlock => Some (set_mutex g false, at_pc th (if outside th then FRetract else Run))
  | FRetract => Some (set_pending g (g_forks_pending g - 1), at_pc th Run)
  | LMutex => if g_liveness_mutex g then None else Some (set_mutex g true, at_pc th LHeld)
  | LHeld => Some (set_mutex g false, at_pc th Run)
  end.

(** The child of a fork: the memory as it was, the one thread, and the handler. *)
Definition on_fork_child (g : Gate) (th : Thread) : Gate := {|
  g_fork_epoch := u32 (g_fork_epoch g + 1); g_liveness_mutex := false;
  g_passes_active := if negb (outside th) then 1 else 0; g_forks_pending := 0;
  g_threads := [at_pc th Run] |}.

Definition update (g : Gate) (i : nat) (th : Thread) : Gate := set_threads g (<[i := th]> (g_threads g)).

Inductive step : Gate -> Gate -> Prop :=
  | step_access keep g i th g' th' : g_threads g !! i = Some th -> thread_step keep g th = Some (g', th') ->
      step g (update g' i th')
  | step_pass g i th : g_threads g !! i = Some th -> t_pc th = Run -> step g (update g i (pass_begin th))
  | step_end g i th th' : g_threads g !! i = Some th -> t_pc th = Run -> pass_end th = Some th' -> step g (update g i th')
  | step_fork g i th : g_threads g !! i = Some th -> t_pc th = Run -> step g (update g i (on_fork_prepare th))
  | step_liveness g i th : g_threads g !! i = Some th -> t_pc th = Run -> step g (update g i (with_liveness th))
  | step_thread g : Z.of_nat (length (g_threads g)) < 2 ^ 32 - 1 ->
      step g (set_threads g (g_threads g ++ [{| t_depth := 0; t_pc := Run |}]))
  | step_child g i th : g_threads g !! i = Some th -> t_pc th = FForked -> step g (on_fork_child g th).

Definition new_process : Gate := {|
  g_fork_epoch := 0; g_forks_pending := 0; g_passes_active := 0; g_liveness_mutex := false;
  g_threads := [{| t_depth := 0; t_pc := Run |}] |}.

(** A process, or one forked from it. *)
Definition reach : Gate -> Prop := rtc step new_process.

(** ** The invariant *)

Definition inside (th : Thread) : bool := negb (outside th) || match t_pc th with PLeave => true | _ => false end.
Definition counted (th : Thread) : bool := inside th || match t_pc th with PLook | PBackOut => true | _ => false end.
Definition past_wait (th : Thread) : bool :=
  outside th && match t_pc th with FMutex | FForked | FUnlock | FRetract => true | _ => false end.
Definition forking (th : Thread) : bool := past_wait th || match t_pc th with FWait => true | _ => false end.
Definition holding (th : Thread) : bool := match t_pc th with FForked | FUnlock | LHeld => true | _ => false end.
(** The pass constructor, the outermost destructor and the gated fork run at
    depth zero. *)
Definition at_depth_zero (th : Thread) : bool :=
  outside th || match t_pc th with Run | FMutex | FForked | FUnlock | LMutex | LHeld => true | _ => false end.

Record gate_ok (g : Gate) : Prop := {
  ok_few : Z.of_nat (length (g_threads g)) < 2 ^ 32;
  ok_active : g_passes_active g = tally counted (g_threads g);
  ok_pending : g_forks_pending g = tally forking (g_threads g);
  ok_mutex : Z.b2z (g_liveness_mutex g) = tally holding (g_threads g);
  ok_depth : Forall (fun th => at_depth_zero th = true) (g_threads g);
  ok_quiet : 0 < tally past_wait (g_threads g) -> tally inside (g_threads g) = 0 }.

Lemma tally_impl {A} (p q : A -> bool) l : (forall x, p x = true -> q x = true) -> tally p l <= tally q l.
Proof.
  intros H. apply total_le, Forall_forall. intros x _. specialize (H x). destruct (p x), (q x); cbn; try lia; now specialize (H eq_refl).
Qed.

Lemma past_wait_forks l : tally past_wait l <= tally forking l.
Proof. apply tally_impl. intros th H. unfold forking. now rewrite H. Qed.
Lemma inside_counted l : tally inside l <= tally counted l.
Proof. apply tally_impl. intros th H. unfold counted. now rewrite H. Qed.

(** A step replaces one thread and leaves the counters exact. *)
Lemma update_ok g g' i th th' : gate_ok g -> g_threads g !! i = Some th -> g_threads g' = g_threads g ->
  g_passes_active g' = u32 (g_passes_active g - Z.b2z (counted th) + Z.b2z (counted th')) ->
  g_forks_pending g' = u32 (g_forks_pending g - Z.b2z (forking th) + Z.b2z (forking th')) ->
  Z.b2z (g_liveness_mutex g') = Z.b2z (g_liveness_mutex g) - Z.b2z (holding th) + Z.b2z (holding th') ->
  at_depth_zero th' = true ->
  (past_wait th' = true -> past_wait th = false -> tally inside (g_threads g) = 0 /\ inside th = false) ->
  (inside th' = true -> inside th = false -> tally past_wait (g_threads g) = 0 /\ past_wait th' = false) ->
  (past_wait th' = true -> inside th' = false) ->
  gate_ok (update g' i th').
Proof.
  intros [K1 K2 K3 K4 K5 K6] Hi Et Ea Ep Em Hd Hw Hin Hx.
  assert (R : forall p, tally p (<[i := th']> (g_threads g)) = tally p (g_threads g) - Z.b2z (p th) + Z.b2z (p th'))
    by (intros p; now apply tally_insert).
  assert (B : forall p, 0 <= tally p (g_threads g) - Z.b2z (p th) + Z.b2z (p th') < 2 ^ 32).
  { intros p. rewrite <- R. pose proof (tally_range p (<[i := th']> (g_threads g))). rewrite length_insert in *. lia. }
  constructor; unfold update; cbn [g_threads g_passes_active g_forks_pending g_liveness_mutex set_threads]; rewrite ?Et, ?R.
  - now rewrite length_insert.
  - rewrite Ea, K2. apply wrap_small, B.
  - rewrite Ep, K3. apply wrap_small, B.
  - rewrite Em. lia.
  - now apply Forall_insert.
  - pose proof (B inside). pose proof (tally_range past_wait (g_threads g)). pose proof (tally_range inside (g_threads g)).
    destruct (past_wait th'), (past_wait th), (inside th'), (inside th); cbn [Z.b2z] in *; intuition (try discriminate); lia.
Qed.

(** What a load of a counter tells. *)
Lemma no_fork_pending g : gate_ok g -> g_forks_pending g = 0 -> tally past_wait (g_threads g) = 0.
Proof.
  intros K E. pose proof (past_wait_forks (g_threads g)). pose proof (tally_range past_wait (g_threads g)).
  rewrite (ok_pending g K) in E. lia.
Qed.
Lemma no_pass_active g : gate_ok g -> g_passes_active g = 0 -> tally inside (g_threads g) = 0.
Proof.
  intros K E. pose proof (inside_counted (g_threads g)). pose proof (tally_range inside (g_threads g)).
  rewrite (ok_active g K) in E. lia.
Qed.
Lemma counters_fit g : gate_ok g -> u32 (g_passes_active g) = g_passes_active g /\ u32 (g_forks_pending g) = g_forks_pending g.
Proof.
  intros K. pose proof (ok_few g K). rewrite (ok_active g K), (ok_pending g K).
  pose proof (tally_range counted (g_threads g)). pose proof (tally_range forking (g_threads g)).
  split; apply wrap_small; unfold fits; lia.
Qed.

Lemma holder_locked g i th : gate_ok g -> g_threads g !! i = Some th -> holding th = true -> g_liveness_mutex g = true.
Proof.
  intros K Hi H. destruct (g_liveness_mutex g) eqn:E; [done|]. pose proof (ok_mutex g K) as M. rewrite E in M.
  pose proof (tally_zero holding (g_threads g) i th (eq_sym M) Hi). congruence.
Qed.

Lemma thread_step_ok keep g i th g' th' : gate_ok g -> g_threads g !! i = Some th ->
  thread_step keep g th = Some (g', th') -> gate_ok (update g' i th').
Proof.
  intros K Hi E. pose proof (proj1 (Forall_lookup _ _) (ok_depth g K) i th Hi) as D.
  pose proof (no_fork_pending g K) as NF. pose proof (no_pass_active g K) as NP. destruct (counters_fit g K) as [U1 U2].
  pose proof (holder_locked g i th K Hi) as HL.
  destruct th as [[|d] pc], pc; unfold thread_step in E; cbn in E, D, HL; try discriminate D; try discriminate E;
    first [specialize (HL eq_refl) | clear HL];
    repeat match type of E with
    | context [if g_liveness_mutex g then _ else _] => destruct (g_liveness_mutex g) eqn:Em; [discriminate E|]
    | context [g_forks_pending g =? 0] => destruct (Z.eqb_spec (g_forks_pending g) 0) as [Eq|Eq]
    | context [g_passes_active g =? 0] => destruct (Z.eqb_spec (g_passes_active g) 0) as [Eq|Eq]
    | context [negb keep] => destruct keep
    end; cbn in E; injection E as <- <-;
    eapply (update_ok g _ i _ _ K Hi); cbn;
    rewrite ?HL, ?Em, ?Z.sub_0_r, ?Z.add_0_r, ?Z.sub_add, ?U1, ?U2; try done; try (f_equal; lia); auto.
Qed.

Lemma step_ok g g' : gate_ok g -> step g g' -> gate_ok g'.
Proof.
  intros K St. destruct (counters_fit g K) as [U1 U2]. destruct St as [keep g i th g' th' Hi E|g i th Hi Hr|g i th th' Hi Hr E
    |g i th Hi Hr|g i th Hi Hr|g Hn|g i th Hi Hf].
  - exact (thread_step_ok keep g i th g' th' K Hi E).
  - destruct th as [[|d] pc]; cbn in Hr; subst pc; eapply (update_ok g g i _ _ K Hi); cbn;
      rewrite ?Z.sub_0_r, ?Z.add_0_r, ?Z.sub_add, ?U1, ?U2; try done; try lia; auto.
  - destruct th as [[|[|d]] pc]; cbn in Hr, E; subst pc; [discriminate E|injection E as <-..]; eapply (update_ok g g i _ _ K Hi); cbn;
      rewrite ?Z.sub_0_r, ?Z.add_0_r, ?Z.sub_add, ?U1, ?U2; try done; try lia; auto.
  - destruct th as [[|d] pc]; cbn in Hr; subst pc; eapply (update_ok g g i _ _ K Hi); cbn;
      rewrite ?Z.sub_0_r, ?Z.add_0_r, ?Z.sub_add, ?U1, ?U2; try done; try lia; auto.
  - destruct th as [[|d] pc]; cbn in Hr; subst pc; eapply (update_ok g g i _ _ K Hi); cbn;
      rewrite ?Z.sub_0_r, ?Z.add_0_r, ?Z.sub_add, ?U1, ?U2; try done; try lia; auto.
  - destruct K as [K1 K2 K3 K4 K5 K6]. constructor; cbn [g_threads set_threads g_passes_active g_forks_pending g_liveness_mutex];
      rewrite ?tally_app; change (tally ?p [?x]) with (Z.b2z (p x) + 0); cbn; rewrite ?Z.add_0_r; try done.
    + rewrite length_app; cbn. lia.
    + apply Forall_app; split; [done|]. now apply Forall_singleton.
  - destruct th as [[|d] pc]; cbn in Hf; subst pc; constructor; cbn; try done; now apply Forall_singleton.
Qed.

Lemma steps_ok g g' : rtc step g g' -> gate_ok g -> gate_ok g'.
Proof. induction 1 as [g|g1 g2 g3 H12 _ IH]; [done|]. intros K. apply IH. eapply step_ok; eauto. Qed.

Lemma reach_ok g : reach g -> gate_ok g.
Proof. intros H. apply (steps_ok _ _ H). constructor; cbn; try done. now apply Forall_singleton. Qed.

(** ** Schedules, executed *)

Inductive act :=
  | Access (i : nat) (keep : bool) | PassBegin (i : nat) | PassEnd (i : nat) | Fork (i : nat) | Liveness (i : nat)
  | NewThread | Child (i : nat).

Definition exec (a : act) (g : Gate) : option Gate :=
  match a with
  | Access i keep => th ← g_threads g !! i; r ← thread_step keep g th; Some (update r.1 i r.2)
  | PassBegin i => th ← g_threads g !! i; if decide (t_pc th = Run) then Some (update g i (pass_begin th)) else None
  | PassEnd i => th ← g_threads g !! i; if decide (t_pc th = Run) then th' ← pass_end th; Some (update g i th') else None
  | Fork i => th ← g_threads g !! i; if decide (t_pc th = Run) then Some (update g i (on_fork_prepare th)) else None
  | Liveness i => th ← g_threads g !! i; if decide (t_pc th = Run) then Some (update g i (with_liveness th)) else None
  | NewThread =>
      if Z.of_nat (length (g_threads g)) <? 2 ^ 32 - 1
      then Some (set_threads g (g_threads g ++ [{| t_depth := 0; t_pc := Run |}])) else None
  | Child i => th ← g_threads g !! i; if decide (t_pc th = FForked) then Some (on_fork_child g th) else None
  end.

Fixpoint run (l : list act) (g : Gate) : option Gate :=
  match l with [] => Some g | a :: l => g ← exec a g; run l g end.

Lemma exec_sound a g g' : exec a g = Some g' -> step g g'.
Proof.
  destruct a as [i keep|i|i|i|i| |i]; cbn [exec]; intros H; try (destruct (g_threads g !! i) as [th|] eqn:Hi; [cbn in H|done]).
  - destruct (thread_step keep g th) as [[g1 th1]|] eqn:E; [|done]. cbn in H. simplify_eq. eapply step_access; eauto.
  - case_decide; simplify_eq. now apply step_pass.
  - case_decide; [|done]. destruct (pass_end th) as [th'|] eqn:E; cbn in H; simplify_eq. eapply step_end; eauto.
  - case_decide; simplify_eq. now apply step_fork.
  - case_decide; simplify_eq. now apply step_liveness.
  - destruct (Z.of_nat (length (g_threads g)) <? 2 ^ 32 - 1) eqn:E; simplify_eq. apply step_thread. lia.
  - case_decide; simplify_eq. eapply step_child; eauto.
Qed.

Lemma run_reachable l g : run l new_process = Some g -> reach g.
Proof.
  unfold reach. generalize new_process as g0. induction l as [|a l IH]; cbn; intros g0 H; [simplify_eq; apply rtc_refl|].
  destruct (exec a g0) as [g1|] eqn:E; [|done]. eapply rtc_l; [eapply exec_sound, E|now apply IH].
Qed.

(** A background thread runs a pass to its end while the main thread forks; a
    second one announces itself meanwhile and backs out. *)
Definition on (i n : nat) : list act := repeat (Access i true) n.
Definition fork_beside_passes : list act :=
  [NewThread; NewThread; PassBegin 1] ++ on 1 2 ++ [Fork 0; PassBegin 2] ++ on 0 2 ++ on 2 2 ++ [PassEnd 1] ++ on 1 1 ++ on 0 1
  ++ on 2 1 ++ on 0 2.

Example fork_waits :
  t_pc <$> (run (take 9 fork_beside_passes) new_process ≫= fun g => g_threads g !! 0%nat) = Some FWait.
Proof. reflexivity. Qed.

(** ** A fork copies no pass *)

Lemma others_not_holding g i th j th' : gate_ok g -> g_threads g !! i = Some th -> holding th = true ->
  g_threads g !! j = Some th' -> i <> j -> holding th' = false.
Proof.
  intros K Hi Ht Hj Hij. pose proof (ok_mutex g K) as M.
  assert (E : tally holding (<[i := at_pc th Run]> (g_threads g)) = 0).
  { rewrite (tally_insert holding _ i th) by done. rewrite Ht. cbn. destruct (g_liveness_mutex g); cbn in M; [lia|].
    pose proof (tally_zero holding _ i th (eq_sym M) Hi). congruence. }
  apply (tally_zero holding _ j th' E). now rewrite list_lookup_insert_ne.
Qed.

(** C9. When a thread outside any pass forks (its prepare handler has run, the
    memory is being copied), no thread of the process is inside a pass, not
    even in the last access of its destructor, and no other thread holds the
    liveness mutex: every lock a library thread takes in a pass, and the mutex,
    are free in the child once the child handler has run.  This in every
    process of the fork tree, under every interleaving of the accesses. *)
Theorem fork_copies_no_pass g i th :
  reach g -> g_threads g !! i = Some th -> t_pc th = FForked -> t_depth th = 0%nat ->
  Forall (fun other => t_depth other = 0%nat /\ t_pc other <> PLeave) (g_threads g) /\
  (forall j other, g_threads g !! j = Some other -> i <> j -> holding other = false) /\
  gate_ok (on_fork_child g th).
Proof.
  intros H Hi Hf Hd. pose proof (reach_ok g H) as K. destruct th as [d pc]; cbn in Hf, Hd; subst.
  split; [|split].
  - assert (Q : tally inside (g_threads g) = 0).
    { apply (ok_quiet g K). destruct (decide (tally past_wait (g_threads g) = 0)) as [Z|Z].
      - pose proof (tally_zero past_wait _ i _ Z Hi). discriminate.
      - pose proof (tally_range past_wait (g_threads g)). lia. }
    apply Forall_lookup. intros j other Hj. pose proof (tally_zero inside _ j other Q Hj) as I.
    destruct other as [[|d] pc]; [|discriminate I]. split; [done|]. intros E; cbn in E; subst. discriminate I.
  - intros j other Hj Hij. now apply (others_not_holding g i {| t_depth := 0; t_pc := FForked |} j).
  - apply (step_ok g); [done|]. exact (step_child g i {| t_depth := 0; t_pc := FForked |} Hi eq_refl).
Qed.

Lemma fork_copies_no_pass_witness :
  match run fork_beside_passes new_process with
  | Some g => exists th, g_threads g !! 0%nat = Some th /\ t_pc th = FForked /\
      Forall (fun other => t_depth other = 0%nat /\ t_pc other <> PLeave) (g_threads g)
  | None => False
  end.
Proof.
  destruct (run fork_beside_passes new_process) as [g|] eqn:E; [|now vm_compute in E].
  pose proof (run_reachable _ _ E) as R. vm_compute in E. injection E as <-.
  exists {| t_depth := 0; t_pc := FForked |}. split; [reflexivity|]. split; [reflexivity|].
  exact (proj1 (fork_copies_no_pass _ 0 {| t_depth := 0; t_pc := FForked |} R eq_refl eq_refl eq_refl)).
Defined.

(** A fork from inside a pass is not gated: the copy may hold another thread's
    pass, as fork_gate.hpp warns. *)
Example nested_fork_unprotected :
  match run ([NewThread; PassBegin 0] ++ on 0 2 ++ [PassBegin 1] ++ on 1 2 ++ [Fork 0] ++ on 0 1) new_process with
  | Some g => t_pc <$> g_threads g !! 0%nat = Some FForked /\ t_depth <$> g_threads g !! 1%nat = Some 1%nat
  | None => False
  end.
Proof. vm_compute. split; reflexivity. Qed.

(** ** The gate lets everybody through *)

(** A turn of a waiting loop that changes nothing. *)
Definition spins (g : Gate) (th : Thread) : bool :=
  match t_pc th with
  | FWait => negb (g_passes_active g =? 0)
  | PWait | PKeep => negb (g_forks_pending g =? 0)
  | _ => false
  end.

(** An access that is not such a turn, while no owner stops its threads. *)
Inductive advance : Gate -> Gate -> Prop :=
  | advance_access g i th g' th' : g_threads g !! i = Some th -> spins g th = false ->
      thread_step true g th = Some (g', th') -> advance g (update g' i th').

(** How far a thread is from [Run]; a fork that announces itself sends the
    passes being entered back to their wait. *)
Definition rank (n : Z) (pending : bool) (pc : tpc) : Z :=
  match pc with
  | Run => 0
  | PAnnounce => if pending then 11 else 6
  | PLook => if pending then 10 else 5
  | PBackOut => 9
  | PWait => if pending then 8 else 7
  | PKeep => 8
  | PLeave | LHeld => 1
  | LMutex => 2
  | FAnnounce => 6 + 5 * n
  | FWait => 5 | FMutex => 4 | FForked => 3 | FUnlock => 2 | FRetract => 1
  end.
Definition pending (g : Gate) : bool := negb (g_forks_pending g =? 0).
Definition measure (g : Gate) : Z :=
  total (fun th => rank (Z.of_nat (length (g_threads g))) (pending g) (t_pc th)) (g_threads g).

Lemma rank_nonneg n b pc : 0 <= n -> 0 <= rank n b pc.
Proof. intros H. destruct pc, b; cbn; lia. Qed.
Lemma rank_pending n pc b b' : rank n b' pc <= rank n b pc + 5.
Proof. destruct pc, b, b'; cbn; lia. Qed.
Lemma rank_retract n pc b : rank n b pc <= rank n true pc.
Proof. destruct pc, b; cbn; lia. Qed.

Lemma measure_nonneg g : 0 <= measure g.
Proof. apply total_at_least_0, Forall_forall. intros th _. apply rank_nonneg. lia. Qed.

(** The measure after a step, from the ranks under the old counter. *)
Lemma measure_update g g' i th th' (b : bool) : g_threads g !! i = Some th -> g_threads g' = g_threads g ->
  pending (update g' i th') = b ->
  measure (update g' i th') =
    total (fun th => rank (Z.of_nat (length (g_threads g))) b (t_pc th)) (g_threads g)
    - rank (Z.of_nat (length (g_threads g))) b (t_pc th) + rank (Z.of_nat (length (g_threads g))) b (t_pc th').
Proof.
  intros Hi Et Eb. unfold measure. rewrite Eb. cbn [update set_threads g_threads]. rewrite Et, length_insert.
  exact (total_insert (fun th => rank (Z.of_nat (length (g_threads g))) b (t_pc th)) _ i th th' Hi).
Qed.

Lemma advance_smaller g g' : gate_ok g -> advance g g' -> measure g' < measure g.
Proof.
  intros K St. destruct St as [g i th g' th' Hi Sp E].
  set (n := Z.of_nat (length (g_threads g))).
  assert (T : g_threads g' = g_threads g)
    by (unfold thread_step in E; destruct (t_pc th); try discriminate E; try (destruct (g_liveness_mutex g); [discriminate E|]);
        now injection E as <- _).
  assert (M : forall b, total (fun th => rank n b (t_pc th)) (g_threads g) <= measure g + 5 * n).
  { intros b. unfold measure. fold n. pose proof (total_const 5 (g_threads g)) as C. fold n in C. rewrite <- C, <- total_add.
    apply total_le, Forall_forall. intros x _. apply rank_pending. }
  assert (R : pending g = true -> forall b, total (fun th => rank n b (t_pc th)) (g_threads g) <= measure g).
  { intros Hp b. unfold measure. fold n. rewrite Hp. apply total_le, Forall_forall. intros x _. apply rank_retract. }
  rewrite (measure_update g g' i th th' (pending g') Hi T) by done. fold n.
  assert (S : pending g' = pending g -> rank n (pending g) (t_pc th') < rank n (pending g) (t_pc th) ->
    total (fun th => rank n (pending g') (t_pc th)) (g_threads g) - rank n (pending g') (t_pc th) + rank n (pending g') (t_pc th') < measure g).
  { intros -> ?. unfold measure. fold n. lia. }
  assert (F : t_pc th = FRetract -> pending g = true).
  { intros Ef. unfold pending. destruct (Z.eqb_spec (g_forks_pending g) 0) as [Z|Z]; [|done].
    pose proof (proj1 (Forall_lookup _ _) (ok_depth g K) i th Hi) as D. rewrite (ok_pending g K) in Z.
    pose proof (tally_zero forking _ i th Z Hi) as W. destruct th as [[|d] pc]; cbn in Ef; subst; discriminate. }
  unfold spins in Sp. unfold thread_step in E. destruct (t_pc th) eqn:Pc; try discriminate E.
  all: try (destruct (g_liveness_mutex g) eqn:Em; [discriminate E|]).
  all: injection E as Eg Et.
  all: try (apply S; [now subst g'|subst th'; unfold pending in *; cbn]).
  - destruct (g_forks_pending g =? 0); cbn; lia.
  - destruct (g_forks_pending g =? 0); cbn; lia.
  - destruct (g_forks_pending g =? 0); cbn; lia.
  - destruct (g_forks_pending g =? 0); [cbn; lia|discriminate Sp].
  - destruct (g_forks_pending g =? 0); [cbn; lia|discriminate Sp].
  - lia.
  - subst th'. cbn. specialize (M (pending g')). lia.
  - destruct (g_passes_active g =? 0); [cbn; lia|discriminate Sp].
  - lia.
  - lia.
  - destruct (outside th); cbn; lia.
  - subst th'. cbn. specialize (R (F eq_refl) (pending g')). lia.
  - lia.
  - lia.
Qed.

Lemma advance_step g g' : advance g g' -> step g g'.
Proof. intros [????? Hi _ E]. eapply step_access; eauto. Qed.

Lemma advance_sn g : gate_ok g -> sn advance g.
Proof.
  remember (Z.to_nat (measure g)) as n eqn:En. revert g En. induction n as [n IH] using lt_wf_ind. intros g En K.
  constructor. intros g' St. apply (IH (Z.to_nat (measure g'))); [|done|exact (step_ok g g' K (advance_step g g' St))].
  pose proof (advance_smaller g g' K St). pose proof (measure_nonneg g'). lia.
Qed.

(** ** Where nothing advances any more *)

Section stuck.
Context (g : Gate) (K : gate_ok g) (N : nf advance g).

Lemma stuck_step i th : g_threads g !! i = Some th -> thread_step true g th = None \/ spins g th = true.
Proof using N.
  intros Hi. destruct (thread_step true g th) as [[g' th']|] eqn:E; [|now left]. right.
  destruct (spins g th) eqn:Sp; [done|]. destruct N. exists (update g' i th'). eapply advance_access; eauto.
Qed.

Lemma stuck_free : g_liveness_mutex g = false.
Proof using K N.
  destruct (g_liveness_mutex g) eqn:E; [|done]. pose proof (ok_mutex g K) as M. rewrite E in M.
  destruct (decide (Exists (fun th => holding th = true) (g_threads g))) as [(th & Hin & Hh)%Exists_exists|Hno].
  - apply list_elem_of_lookup in Hin as (i & Hi). destruct (stuck_step i th Hi) as [Hs|Hs]; unfold holding, thread_step, spins in *;
      destruct (t_pc th); discriminate.
  - rewrite tally_none in M; [discriminate M|]. apply Forall_forall. intros th Hin. apply not_true_iff_false. intros Hh.
    apply Hno, Exists_exists. eauto.
Qed.

Lemma stuck_thread i th : g_threads g !! i = Some th -> t_pc th = Run \/ spins g th = true.
Proof using K N.
  intros Hi. destruct (stuck_step i th Hi) as [Hs|]; [|now right]. left. unfold thread_step in Hs. rewrite stuck_free in Hs.
  destruct (t_pc th); done.
Qed.

Lemma tally_some {A} (p : A -> bool) l : tally p l <> 0 -> exists i x, l !! i = Some x /\ p x = true.
Proof using.
  intros H. destruct (decide (Exists (fun x => p x = true) l)) as [(x & Hin & Hx)%Exists_exists|Hno].
  - apply list_elem_of_lookup in Hin as (i & Hi). eauto.
  - destruct H. apply tally_none, Forall_forall. intros x Hin. apply not_true_iff_false. intros Hx. apply Hno, Exists_exists. eauto.
Qed.

(** A pass in progress: its thread is in its body. *)
Definition pass_running (th : Thread) : Prop := t_pc th = Run /\ t_depth th <> 0%nat.

Lemma stuck_active : g_passes_active g <> 0 -> exists i th, g_threads g !! i = Some th /\ pass_running th.
Proof using K N.
  rewrite (ok_active g K). intros (i & th & Hi & Hc)%tally_some. exists i, th. split; [done|].
  pose proof (proj1 (Forall_lookup _ _) (ok_depth g K) i th Hi) as D. destruct (stuck_thread i th Hi) as [Hr|Hs];
    destruct th as [[|d] pc]; unfold pass_running; cbn in *; subst; try discriminate; try done; destruct pc; try discriminate.
Qed.

Lemma stuck_pending : g_forks_pending g <> 0 -> exists i th, g_threads g !! i = Some th /\ pass_running th.
Proof using K N.
  rewrite (ok_pending g K). intros (i & th & Hi & Hf)%tally_some. apply stuck_active.
  destruct (stuck_thread i th Hi) as [Hr|Hs]; destruct th as [[|d] pc]; cbn in *; subst; try discriminate; destruct pc; try discriminate;
    unfold spins in Hs; cbn in Hs; now destruct (Z.eqb_spec (g_passes_active g) 0).
Qed.
End stuck.

(** C10. Nobody is left behind at the gate.  From every reachable state the
    accesses that are not turns of a waiting loop come to an end, whoever moves
    first; and where none is left, every thread has left the gate's code, or a
    pass is in progress and only its end is awaited: no order of the counters
    and the mutex deadlocks, forks and passes do not wait for one another in a
    circle, and passes that keep announcing themselves cannot hold off a fork. *)
Theorem gate_settles g :
  reach g ->
  sn advance g /\
  forall g', rtc advance g g' -> nf advance g' ->
    Forall (fun th => t_pc th = Run) (g_threads g') \/
    exists i th, g_threads g' !! i = Some th /\ pass_running th.
Proof.
  intros H. pose proof (reach_ok g H) as K. split; [now apply advance_sn|]. intros g' R N.
  assert (K' : gate_ok g') by (apply (steps_ok g); [|done]; revert R; apply rtc_subrel; exact advance_step).
  destruct (decide (Forall (fun th => t_pc th = Run) (g_threads g'))) as [?|Hn]; [now left|]. right.
  apply not_Forall_Exists, Exists_exists in Hn as (th & Hin & Hr); [|tc_solve].
  apply list_elem_of_lookup in Hin as (i & Hi). destruct (stuck_thread g' K' N i th Hi) as [?|Hs]; [done|].
  unfold spins in Hs. destruct (t_pc th); try discriminate Hs.
  - apply stuck_pending; try done. now destruct (Z.eqb_spec (g_forks_pending g') 0).
  - apply stuck_pending; try done. now destruct (Z.eqb_spec (g_forks_pending g') 0).
  - apply stuck_active; try done. now destruct (Z.eqb_spec (g_passes_active g') 0).
Qed.

Lemma gate_settles_witness :
  match run (take 10 fork_beside_passes) new_process with
  | Some g => sn advance g
  | None => False
  end.
Proof.
  destruct (run (take 10 fork_beside_passes) new_process) as [g|] eqn:E; [|now vm_compute in E].
  exact (proj1 (gate_settles g (run_reachable _ _ E))).
Defined.
