(* ===== verification/Rounding.v ===== *)
(** * Bounds on rounded doubles

    What the load estimate needs of IEEE arithmetic: rounding to nearest keeps a
    value below any double it is below, so products with a weight and sums stay
    within exact bounds; and the operations keep the sign of their arguments. *)

From S2P Require Import Prelude Floats.
Local Open Scope cyc_scope.

(** ** Rounding respects a representable bound *)

(** [r] is [m] shifted right by [k]: the quotient, and rounding bits only when
    something was shifted out. *)
Record shifted (m k : Z) (r : shr_record) : Prop := {
  sh_quot : shr_m r = m / 2 ^ k;
  sh_bits : shr_r r || shr_s r = true -> m mod 2 ^ k <> 0 }.

Lemma shr_1_fields q r s : 0 <= q -> shr_1 {| shr_m := q; shr_r := r; shr_s := s |} =
  {| shr_m := q / 2; shr_r := Z.odd q; shr_s := r || s |}.
Proof. intros H. rewrite <- Z.div2_div. by destruct q as [|[p|p|]|p]; [..|lia]. Qed.

Lemma shifted_1 m k r : 0 <= m -> 0 <= k -> shifted m k r -> shifted m (k + 1) (shr_1 r).
Proof.
  intros Hm Hk [Hq Hb]. destruct r as [q r s]; cbn [shr_m shr_r shr_s] in *.
  pose proof (Z.div_pos m (2 ^ k) Hm ltac:(lia)) as Hp. rewrite shr_1_fields by lia.
  pose proof (Z.mod_pos_bound m (2 ^ k) ltac:(lia)). pose proof (Z.pow_pos_nonneg 2 k ltac:(lia) Hk).
  constructor; cbn [shr_m shr_r shr_s]; rewrite Z.pow_add_r by lia; change (2 ^ 1) with 2.
  - by rewrite <- Zdiv_Zdiv, Hq by lia.
  - rewrite Z.rem_mul_r, <- Hq by lia. intros [Ho|Hs]%orb_true_iff.
    + rewrite Zmod_odd, Ho. lia.
    + specialize (Hb Hs). pose proof (Z.mod_pos_bound q 2 ltac:(lia)). nia.
Qed.

Lemma shifted_iter m n : 0 <= m -> forall k r, 0 <= k -> shifted m k r -> shifted m (k + Zpos n) (SpecFloat.iter_pos shr_1 n r).
Proof.
  intros Hm. induction n as [n IH|n IH|]; intros k r Hk Hr; cbn [SpecFloat.iter_pos].
  - replace (k + Zpos n~1) with (k + 1 + Zpos n + Zpos n) by lia. apply IH; [lia|]. apply IH; [lia|]. by apply shifted_1.
  - replace (k + Zpos n~0) with (k + Zpos n + Zpos n) by lia. apply IH; [lia|]. by apply IH.
  - by apply shifted_1.
Qed.

(** The exponent [shr_fexp] aims at. *)
Definition target (m e : Z) : Z := Z.max (Zdigits2 m + e - 53) (-1074).

Lemma shr_fexp_shifted m e : 0 <= m -> let '(r, e') := shr_fexp 53 1024 m e loc_Exact in
  e' = Z.max e (target m e) /\ shifted m (e' - e) r.
Proof.
  intros Hm. unfold shr_fexp, shr, fexp, SpecFloat.emin. change (3 - 1024 - 53) with (-1074). fold (target m e).
  assert (S0 : shifted m 0 (shr_record_of_loc m loc_Exact)) by (constructor; cbn; [by rewrite Z.div_1_r|done]).
  destruct (target m e - e) as [|p|p] eqn:E.
  - rewrite Z.max_l, Z.sub_diag by lia. done.
  - replace (Z.max e (target m e)) with (e + Zpos p) by lia. replace (e + Zpos p - e) with (0 + Zpos p) by lia.
    split; [lia|]. by apply shifted_iter.
  - rewrite Z.max_l, Z.sub_diag by lia. done.
Qed.

Lemma digits_bound m : 0 < m -> 2 ^ (Zdigits2 m - 1) <= m < 2 ^ Zdigits2 m /\ 0 < Zdigits2 m.
Proof. intros H. destruct m as [|p|p]; try lia. split; [apply digits2_bound|]. done. Qed.

(** Rounded to nearest, a shifted mantissa is at most any integer the exact
    quotient is at most. *)
Lemma round_below m k r K : 0 <= m -> 0 <= k -> shifted m k r -> m <= K * 2 ^ k ->
  0 <= round_nearest_even (shr_m r) (loc_of_shr_record r) <= K.
Proof.
  intros Hm Hk [Hq Hb] Hle. pose proof (Z.pow_pos_nonneg 2 k ltac:(lia) Hk). pose proof (Z.div_pos m (2 ^ k) Hm ltac:(lia)).
  pose proof (Z.div_mod m (2 ^ k) ltac:(lia)). pose proof (Z.mod_pos_bound m (2 ^ k) ltac:(lia)).
  assert (Q : m / 2 ^ k <= K) by nia.
  assert (Q' : shr_r r || shr_s r = true -> m / 2 ^ k + 1 <= K) by (intros ?%Hb; nia).
  destruct r as [q [] []]; cbn [shr_m shr_r shr_s loc_of_shr_record round_nearest_even orb] in *; subst q;
    try (specialize (Q' eq_refl)); try destruct (Z.even _); lia.
Qed.

(** ** Values on a common scale

    [bias] moves every exponent in play above zero; it is kept abstract. *)

Section scale.
Context (bias : Z) (bias_large : 4000 <= bias).

(** Positive values on a common scale. *)
Definition scaled (m e : Z) : Z := m * 2 ^ (e + bias).
Definition value (f : spec_float) : option Z :=
  match f with S754_zero _ => Some 0 | S754_finite false m e => Some (scaled (Zpos m) e) | _ => None end.
(** The mantissas and exponents of doubles; and the normal form. *)
Definition in_format (f : spec_float) : Prop :=
  match f with S754_finite _ m e => Zpos m < 2 ^ 53 /\ -1074 <= e | _ => True end.
Definition canonical (f : spec_float) : Prop :=
  in_format f /\ match f with S754_finite _ m e => e = -1074 \/ 2 ^ 52 <= Zpos m | _ => True end.

Lemma scaled_shift m e k : 0 <= k -> -4000 <= e -> scaled m (e + k) = scaled (m * 2 ^ k) e.
Proof. intros Hk He. unfold scaled. replace (e + k + bias) with (k + (e + bias)) by lia. rewrite Z.pow_add_r by lia. lia. Qed.
Lemma scaled_mono m m' e : m <= m' -> -4000 <= e -> scaled m e <= scaled m' e.
Proof. intros Hm He. unfold scaled. pose proof (Z.pow_pos_nonneg 2 (e + bias)). nia. Qed.
Lemma scaled_cancel m m' e : -4000 <= e -> scaled m e <= scaled m' e -> m <= m'.
Proof. intros He. unfold scaled. pose proof (Z.pow_pos_nonneg 2 (e + bias)). nia. Qed.

(** A value no larger than a double rounds to one no larger. *)
Lemma round_exponent m e M E : 0 < m -> -4000 <= e -> e <= target m e -> 0 <= M < 2 ^ 53 -> -1074 <= E ->
  scaled m e <= scaled M E -> target m e <= E.
Proof.
  intros Hm He Ht HM HE Hle. unfold target. destruct (digits_bound m Hm) as [[Hd _] Hd0].
  destruct (Z.le_gt_cases (Zdigits2 m + e - 53) E) as [?|Hgt]; [lia|]. exfalso.
  assert (S1 : scaled (2 ^ (Zdigits2 m - 1)) e <= scaled m e) by (apply scaled_mono; lia).
  assert (S2 : scaled M E < scaled (2 ^ 53) E) by (unfold scaled; pose proof (Z.pow_pos_nonneg 2 (E + bias)); nia).
  unfold scaled in *. rewrite <- Z.pow_add_r in S1 by lia. rewrite <- Z.pow_add_r in S2 by lia.
  pose proof (Z.pow_le_mono_r 2 (53 + (E + bias)) (Zdigits2 m - 1 + (e + bias))). lia.
Qed.

Lemma digits_le m k : 0 <= m -> 0 <= k -> m <= 2 ^ k -> Zdigits2 m <= k + 1.
Proof.
  intros Hm Hk Hle. destruct (Z.eq_dec m 0) as [->|]; [cbn; lia|]. destruct (digits_bound m ltac:(lia)) as [[Hd _] _].
  destruct (Z.le_gt_cases (Zdigits2 m) (k + 1)); [done|]. pose proof (Z.pow_lt_mono_r 2 k (Zdigits2 m - 1)). lia.
Qed.

Lemma round_at_least q l : 0 <= q -> q <= round_nearest_even q l.
Proof. intros H. destruct l as [|[]]; cbn; try destruct (Z.even q); lia. Qed.

(** The second shift of a rounding: it puts the mantissa in range, and loses
    nothing that matters. *)
Lemma second_shift m1 e1 : 0 <= m1 -> let '(r2, e2) := shr_fexp 53 1024 m1 e1 loc_Exact in
  e2 = Z.max e1 (target m1 e1) /\ 0 <= shr_m r2 < 2 ^ 53 /\ shr_m r2 = m1 / 2 ^ (e2 - e1).
Proof.
  intros Hm. pose proof (shr_fexp_shifted m1 e1 Hm) as S2. destruct (shr_fexp 53 1024 m1 e1 loc_Exact) as [r2 e2].
  destruct S2 as [E2 [Q2 _]]. split; [done|]. rewrite Q2. split; [|done].
  pose proof (Z.pow_pos_nonneg 2 (e2 - e1)). split; [apply Z.div_pos; lia|].
  destruct (Z.eq_dec m1 0) as [->|]; [rewrite Z.div_0_l; lia|]. destruct (digits_bound m1 ltac:(lia)) as [[_ Hd] _].
  apply Z.div_lt_upper_bound; [lia|]. rewrite <- Z.pow_add_r by lia.
  pose proof (Z.pow_le_mono_r 2 (Zdigits2 m1) (e2 - e1 + 53)). unfold target in E2. lia.
Qed.

Lemma binary_round_aux_format sx m e l : 0 <= m -> in_format (binary_round_aux 53 1024 sx m e l).
Proof.
  intros Hm. unfold binary_round_aux. pose proof (shr_fexp_range 53 1024 m e l Hm) as H1.
  destruct (shr_fexp 53 1024 m e l) as [r1 e1]. cbn in H1.
  set (m1 := round_nearest_even _ _). pose proof (round_nearest_even_range (shr_m r1) (loc_of_shr_record r1) ltac:(lia)) as Hm1.
  pose proof (second_shift m1 e1 ltac:(lia)) as S2. destruct (shr_fexp 53 1024 m1 e1 loc_Exact) as [r2 e2].
  destruct S2 as (E2 & HM & _). destruct (shr_m r2) as [|p|p]; [done| |lia]. destruct (_ <=? _); [|done]. cbn. unfold target in E2. lia.
Qed.

(** The first shift, of an exact positive value that is at most a double. *)
Lemma first_shift m e M E : 0 < m -> -4000 <= e -> e <= target m e -> 0 <= M < 2 ^ 53 -> -1074 <= E ->
  scaled m e <= scaled M E ->
  let '(r1, e1) := shr_fexp 53 1024 m e loc_Exact in
  let m1 := round_nearest_even (shr_m r1) (loc_of_shr_record r1) in
  e1 = target m e /\ -1074 <= e1 <= E /\ 0 <= m1 <= 2 ^ 53 /\ scaled m1 e1 <= scaled M E /\ (e1 = -1074 \/ 2 ^ 52 <= m1).
Proof.
  intros Hm He Ht HM HE Hle. pose proof (round_exponent m e M E Hm He Ht HM HE Hle) as Hte.
  pose proof (shr_fexp_shifted m e ltac:(lia)) as S1. destruct (shr_fexp 53 1024 m e loc_Exact) as [r1 e1]. destruct S1 as [E1 S1].
  rewrite Z.max_r in E1 by done. assert (-1074 <= e1) by (unfold target in *; lia).
  destruct (digits_bound m Hm) as [[Hd1 Hd2] Hd0].
  assert (SK : scaled M E = scaled (M * 2 ^ (E - e1)) e1) by (rewrite <- scaled_shift by lia; f_equal; lia).
  pose proof (round_below m (e1 - e) r1 (M * 2 ^ (E - e1)) ltac:(lia) ltac:(lia) S1) as HR.
  pose proof (round_below m (e1 - e) r1 (2 ^ 53) ltac:(lia) ltac:(lia) S1) as HR2. rewrite <- Z.pow_add_r in HR2 by lia.
  pose proof (Z.pow_le_mono_r 2 (Zdigits2 m) (53 + (e1 - e)) ltac:(lia)) as P.
  split; [done|]. split; [lia|]. split; [|split].
  - unfold target in E1. lia.
  - rewrite SK. apply scaled_mono; [|lia]. apply HR. apply (scaled_cancel _ _ e He). rewrite <- scaled_shift by lia.
    replace (e + (e1 - e)) with e1 by lia. lia.
  - destruct (Z.eq_dec e1 (-1074)) as [|Hn]; [by left|]. right. destruct S1 as [Q _].
    pose proof (Z.div_pos m (2 ^ (e1 - e)) ltac:(lia) ltac:(pose proof (Z.pow_pos_nonneg 2 (e1 - e)); lia)).
    etransitivity; [|apply round_at_least; lia]. rewrite Q. apply Z.div_le_lower_bound; [pose proof (Z.pow_pos_nonneg 2 (e1 - e)); lia|].
    rewrite <- Z.pow_add_r by lia. replace (e1 - e + 52) with (Zdigits2 m - 1) by (unfold target in *; lia). lia.
Qed.

(** A positive value no larger than a double rounds to one no larger. *)
Lemma binary_round_aux_below m e M E : 0 < m -> -4000 <= e -> e <= target m e -> 0 <= M < 2 ^ 53 -> -1074 <= E <= 970 ->
  scaled m e <= scaled M E ->
  exists v, value (binary_round_aux 53 1024 false m e loc_Exact) = Some v /\ 0 <= v <= scaled M E /\
  canonical (binary_round_aux 53 1024 false m e loc_Exact).
Proof.
  intros Hm He Ht HM HE Hle. pose proof (Z.pow_pos_nonneg 2 (E + bias)) as HEp.
  pose proof (binary_round_aux_format false m e loc_Exact ltac:(lia)) as HF. unfold canonical, binary_round_aux in *.
  pose proof (first_shift m e M E Hm He Ht HM ltac:(lia) Hle) as S1. destruct (shr_fexp 53 1024 m e loc_Exact) as [r1 e1].
  set (m1 := round_nearest_even _ _) in *. destruct S1 as (_ & H1 & HR & HV & HC).
  pose proof (second_shift m1 e1 ltac:(lia)) as S2. destruct (shr_fexp 53 1024 m1 e1 loc_Exact) as [r2 e2].
  destruct S2 as (E2 & HM2 & Q2). pose proof (digits_le m1 53 ltac:(lia) ltac:(lia) ltac:(lia)) as Hd.
  assert (He2 : e1 <= e2 <= e1 + 1) by (unfold target in E2; lia).
  pose proof (Z.pow_pos_nonneg 2 (e2 - e1)). pose proof (Z.div_mod m1 (2 ^ (e2 - e1)) ltac:(lia)).
  pose proof (Z.mod_pos_bound m1 (2 ^ (e2 - e1)) ltac:(lia)).
  assert (V : scaled (shr_m r2) e2 <= scaled M E).
  { etransitivity; [|exact HV]. replace e2 with (e1 + (e2 - e1)) by lia. rewrite scaled_shift by lia. apply scaled_mono; nia. }
  destruct (shr_m r2) as [|p|p] eqn:Ep; [| |lia].
  - exists 0. split_and!; try done; unfold scaled; nia.
  - change (1024 - 53) with 971 in *. destruct (Z.leb_spec e2 971); [|lia]. exists (scaled (Zpos p) e2). split; [done|].
    split; [|split; [done|]].
    + unfold scaled in *. pose proof (Z.pow_pos_nonneg 2 (e2 + bias)). nia.
    + destruct (Z.eq_dec e2 e1) as [->|]; [destruct HC; [by left|right]; rewrite Z.sub_diag in *; lia|right].
      replace (e2 - e1) with 1 in * by lia. destruct (digits_bound m1 ltac:(lia)) as [[Hlo _] _].
      replace (Zdigits2 m1 - 1) with 53 in Hlo by (unfold target in E2; lia). lia.
Qed.

(** ** Products with a weight, sums *)

Lemma dmul_below mw ew c v : 2 ^ 52 <= Zpos mw < 2 ^ 53 -> -1074 <= ew <= 900 ->
  in_format c -> value c = Some v -> v <= scaled 1 0 ->
  exists u, value (dmul (S754_finite false mw ew) c) = Some u /\ 0 <= u <= scaled (Zpos mw) ew /\
  canonical (dmul (S754_finite false mw ew) c).
Proof.
  intros Hw He Hf Hv Hle. pose proof (Z.pow_pos_nonneg 2 (ew + bias)).
  destruct c as [s|s| |[] mc ec]; try discriminate Hv; cbn in Hv; injection Hv as <-.
  - exists 0. split_and!; try done. unfold scaled. nia.
  - unfold dmul. cbn [SFmul xorb]. cbn in Hf. apply binary_round_aux_below; try lia.
    + unfold target. pose proof (digits_bound (Zpos (mw * mc)) ltac:(lia)) as [[_ Hd] _].
      destruct (Z.le_gt_cases 53 (Zdigits2 (Zpos (mw * mc)))); [lia|].
      pose proof (Z.pow_le_mono_r 2 (Zdigits2 (Zpos (mw * mc))) 52 ltac:(lia) ltac:(lia)). nia.
    + unfold scaled in *. rewrite Z.mul_1_l in Hle. replace (ew + ec + bias) with (ec + (ew + bias)) by lia.
      rewrite Pos2Z.inj_mul.
      assert (L : Zpos mc * 2 ^ (ec + (ew + bias)) <= 2 ^ (ew + bias)); [|nia].
      pose proof (Z.pow_pos_nonneg 2 bias ltac:(lia) ltac:(lia)).
      apply (Z.mul_le_mono_pos_r _ _ (2 ^ (0 + bias))); [done|].
      rewrite <- Z.mul_assoc, <- Z.pow_add_r by lia. replace (ec + (ew + bias) + (0 + bias)) with (ec + bias + (ew + bias)) by lia.
      rewrite Z.pow_add_r by lia. nia.
Qed.

Lemma shl_align_scaled p e e' : let '(p', e'') := shl_align p e e' in e'' = Z.min e e' /\ Zpos p' = Zpos p * 2 ^ (e - e'').
Proof.
  unfold shl_align. destruct (e' - e) as [|d|d] eqn:E.
  - split; [lia|]. rewrite Z.sub_diag. lia.
  - split; [lia|]. rewrite Z.sub_diag. lia.
  - split; [lia|]. replace (e - e') with (Zpos d) by lia. apply shift_pos_value.
Qed.

(** Aligning leaves an exponent the first shift starts from. *)
Lemma binary_round_below p e M E : -4000 <= e -> 0 <= M < 2 ^ 53 -> -1074 <= E <= 970 -> scaled (Zpos p) e <= scaled M E ->
  exists v, value (binary_round 53 1024 false p e) = Some v /\ 0 <= v <= scaled M E /\ canonical (binary_round 53 1024 false p e).
Proof.
  intros He HM HE Hle. unfold binary_round, fexp, SpecFloat.emin. change (3 - 1024 - 53) with (-1074).
  change (Z.max (Zpos (digits2_pos p) + e - 53) (-1074)) with (target (Zpos p) e).
  assert (T : -1074 <= target (Zpos p) e) by (unfold target; lia).
  pose proof (shl_align_scaled p e (target (Zpos p) e)) as A. destruct (shl_align p e (target (Zpos p) e)) as [p' e'].
  destruct A as [Ee Ep]. apply binary_round_aux_below; try lia.
  - unfold target in *. destruct (Z.le_gt_cases e (Z.max (Zdigits2 (Zpos p) + e - 53) (-1074))) as [Hc|Hc].
    + assert (e' = e) as -> by lia. rewrite Z.sub_diag, Z.mul_1_r in Ep. by rewrite Ep.
    + assert (He' : e' = Z.max (Zdigits2 (Zpos p) + e - 53) (-1074)) by lia.
      assert (Zdigits2 (Zpos p) + (e - e') <= Zdigits2 (Zpos p')); [|lia].
      destruct (digits_bound (Zpos p) ltac:(lia)) as [[Hlo _] ?]. destruct (digits_bound (Zpos p') ltac:(lia)) as [[_ Hhi] ?].
      destruct (Z.le_gt_cases (Zdigits2 (Zpos p) + (e - e')) (Zdigits2 (Zpos p'))); [done|]. exfalso.
      pose proof (Z.pow_le_mono_r 2 (Zdigits2 (Zpos p')) (Zdigits2 (Zpos p) - 1 + (e - e')) ltac:(lia) ltac:(lia)) as P.
      rewrite Z.pow_add_r in P by lia. pose proof (Z.pow_pos_nonneg 2 (e - e') ltac:(lia) ltac:(lia)). nia.
  - rewrite Ep, <- scaled_shift by lia. replace (e' + (e - e')) with e by lia. done.
Qed.

Lemma dadd_below f g a b M E : in_format f -> in_format g -> canonical f -> canonical g ->
  value f = Some a -> value g = Some b -> 0 <= M < 2 ^ 53 -> -1074 <= E <= 970 -> a + b <= scaled M E ->
  exists v, value (dadd f g) = Some v /\ 0 <= v <= scaled M E /\ canonical (dadd f g).
Proof.
  intros Ff Fg Cf Cg Hf Hg HM HE Hle. pose proof (Z.pow_pos_nonneg 2 (E + bias)).
  assert (P : forall m e, 0 <= scaled (Zpos m) e).
  { intros m e. unfold scaled. pose proof (Z.pow_nonneg 2 (e + bias)). nia. }
  destruct f as [s|s| |[] m e]; try discriminate Hf; cbn in Hf; injection Hf as <-;
    destruct g as [s'|s'| |[] m' e']; try discriminate Hg; cbn in Hg; injection Hg as <-; unfold dadd.
  - exists 0. cbn. destruct s, s'; split_and!; try done; unfold scaled; nia.
  - exists (scaled (Zpos m') e'). cbn [SFadd value]. split_and!; try done; try apply P; lia.
  - exists (scaled (Zpos m) e). cbn [SFadd value]. split_and!; try done; try apply P; lia.
  - cbn [SFadd cond_Zopp]. cbn in Ff, Fg. set (ez := Z.min e e').
    pose proof (shl_align_scaled m e ez) as A. destruct (shl_align m e ez) as [p1 e1]. destruct A as [E1 A1].
    pose proof (shl_align_scaled m' e' ez) as A'. destruct (shl_align m' e' ez) as [p2 e2]. destruct A' as [E2 A2].
    cbn [fst]. unfold binary_normalize. destruct (Zpos p1 + Zpos p2) as [|p|p] eqn:Ep; [lia| |lia].
    apply binary_round_below; try lia. rewrite <- Ep.
    assert (e1 = ez /\ e2 = ez) as [-> ->] by lia.
    unfold scaled in *. rewrite A1, A2, Z.mul_add_distr_r, <- !Z.mul_assoc, <- !Z.pow_add_r by lia.
    replace (e - ez + (ez + bias)) with (e + bias) by lia. replace (e' - ez + (ez + bias)) with (e' + bias) by lia. lia.
Qed.

(** ** Comparison with 1 *)

Definition d_one : spec_float := S754_finite false 4503599627370496 (-52).

Lemma d_one_of : double_of 1 = d_one.
Proof. reflexivity. Qed.

Lemma below_one_value c : in_format c -> SFltb c d_one = true -> SFltb c (S754_zero false) = false ->
  exists v, value c = Some v /\ 0 <= v <= scaled 1 0.
Proof.
  intros Hf Hlt Hpos. destruct c as [s|s| |[] m e]; try discriminate.
  - exists 0. split; [done|]. unfold scaled. pose proof (Z.pow_pos_nonneg 2 (0 + bias)). lia.
  - by destruct s.
  - exists (scaled (Zpos m) e). split; [done|]. cbn in Hf. apply SFltb_iff in Hlt as (a & b & [= <-] & [= <-] & Hb). unfold below in Hb. cbn in Hb.
    assert (K : scaled (Zpos m) e <= scaled (2 ^ 53) (-53)).
    { destruct (Z.eq_dec e (-52)) as [->|].
      - replace (-52) with (-53 + 1) by done. rewrite scaled_shift by lia. apply scaled_mono; lia.
      - transitivity (scaled (2 ^ 53) e); [apply scaled_mono; lia|]. unfold scaled. pose proof (Z.pow_le_mono_r 2 (e + bias) (-53 + bias)). nia. }
    unfold scaled in *. pose proof (Z.pow_nonneg 2 (e + bias)). split; [nia|].
    etransitivity; [exact K|]. rewrite <- Z.pow_add_r by lia. replace (53 + (-53 + bias)) with (0 + bias) by lia. lia.
Qed.

Lemma value_below_one f v : canonical f -> value f = Some v -> v <= scaled 1 0 -> SFleb (S754_zero false) f = true /\ SFleb f d_one = true.
Proof.
  intros [Hf Hc] Hv Hle. destruct f as [s|s| |[] m e]; try discriminate Hv; cbn in Hv; injection Hv as <-.
  - by destruct s.
  - split; apply SFleb_iff; do 2 eexists; (split; [reflexivity|]); (split; [reflexivity|]); unfold below; cbn; [lia|].
    cbn in Hf, Hc. intros [H|[_ [H|[<- H]]]]; [lia| |].
    + assert (2 ^ 52 <= Zpos m) by lia. assert (scaled (2 ^ 52) (-51) <= scaled (Zpos m) e).
      { transitivity (scaled (2 ^ 52) e); [|apply scaled_mono; lia]. unfold scaled. pose proof (Z.pow_le_mono_r 2 (-51 + bias) (e + bias)). nia. }
      unfold scaled in *. rewrite <- Z.pow_add_r in * by lia. pose proof (Z.pow_lt_mono_r 2 (0 + bias) (52 + (-51 + bias))). lia.
    + assert (scaled (2 ^ 52 + 1) (-52) <= scaled (Zpos m) (-52)) by (apply scaled_mono; lia).
      unfold scaled in *. rewrite Z.mul_add_distr_r, <- Z.pow_add_r in * by lia.
      replace (52 + (-52 + bias)) with (0 + bias) in * by lia. pose proof (Z.pow_pos_nonneg 2 (-52 + bias)). lia.
Qed.

End scale.

(** ** Signs *)

(** The sign bit is clear (a NaN has none). *)
Definition plus (f : spec_float) : Prop :=
  match f with S754_zero s | S754_infinity s | S754_finite s _ _ => s = false | S754_nan => True end.

Lemma plus_not_below f : plus f -> SFltb f (S754_zero false) = false.
Proof. destruct f as [[]|[]| |[] m e]; cbn; done. Qed.

Lemma binary_round_aux_plus m e l : 0 <= m -> plus (binary_round_aux 53 1024 false m e l).
Proof.
  intros Hm. unfold binary_round_aux. pose proof (shr_fexp_range 53 1024 m e l Hm) as H1.
  destruct (shr_fexp 53 1024 m e l) as [r1 e1]. cbn in H1.
  set (m1 := round_nearest_even _ _). pose proof (round_nearest_even_range (shr_m r1) (loc_of_shr_record r1) ltac:(lia)) as Hm1.
  pose proof (second_shift m1 e1 ltac:(lia)) as S2. destruct (shr_fexp 53 1024 m1 e1 loc_Exact) as [r2 e2].
  destruct S2 as (_ & HM & _). destruct (shr_m r2) as [|p|p]; [done| |lia]. by destruct (_ <=? _).
Qed.

Lemma binary_round_plus p e : plus (binary_round 53 1024 false p e).
Proof. unfold binary_round. destruct (shl_align _ _ _). apply binary_round_aux_plus. lia. Qed.

Lemma double_of_plus z : 0 <= z -> plus (double_of z).
Proof. intros Hz. unfold double_of, binary_normalize. destruct z as [|p|p]; [done| |lia]. apply binary_round_plus. Qed.

Lemma dadd_plus f g : plus f -> plus g -> plus (dadd f g).
Proof.
  intros Hf Hg. unfold dadd. destruct f as [[]|[]| |[] m e], g as [[]|[]| |[] m' e']; cbn in Hf, Hg; try done.
  cbn [SFadd cond_Zopp]. unfold binary_normalize. destruct (Zpos _ + Zpos _) as [|p|p] eqn:E; [done| |lia]. apply binary_round_plus.
Qed.

Lemma SFdiv_core_nonneg m1 e1 m2 e2 : 0 <= m1 -> 0 < m2 -> 0 <= (SFdiv_core_binary 53 1024 m1 e1 m2 e2).1.1.
Proof.
  intros H1 H2. unfold SFdiv_core_binary. set (m := match _ with Z0 => _ | Zpos _ => _ | Zneg _ => _ end).
  assert (Hm : 0 <= m) by (unfold m; destruct (_ - _ - _); [done|by apply Z.shiftl_nonneg|done]).
  pose proof (Z.div_pos m m2 Hm H2). unfold Z.div in *. by destruct (Z.div_eucl m m2).
Qed.

Lemma ddiv_plus f g : plus f -> plus g -> plus (ddiv f g).
Proof.
  intros Hf Hg. unfold ddiv. destruct f as [[]|[]| |[] m e], g as [[]|[]| |[] m' e']; cbn in Hf, Hg; try done.
  cbn [SFdiv xorb]. pose proof (SFdiv_core_nonneg (Zpos m) e (Zpos m') e' ltac:(lia) ltac:(lia)) as N.
  destruct (SFdiv_core_binary _ _ _ _ _ _) as [[q x] l]. by apply binary_round_aux_plus.
Qed.

Lemma ddiv_format f g : in_format (ddiv f g).
Proof.
  unfold ddiv. destruct f as [s|s| |s m e], g as [s'|s'| |s' m' e']; try done.
  cbn [SFdiv]. pose proof (SFdiv_core_nonneg (Zpos m) e (Zpos m') e' ltac:(lia) ltac:(lia)) as N.
  destruct (SFdiv_core_binary _ _ _ _ _ _) as [[q x] l]. by apply binary_round_aux_format.
Qed.
