(* ===== verification/LoadMonitor.v ===== *)
(** * The load monitor (src/src/optimization/load_monitor.cpp and .hpp)

    Completed reads and writes are counted on the calling thread's counter
    shard; [update_metrics] sums the shards and turns the difference to its
    previous call into rates and a load between 0 and 1, which the engine
    compares with its watermarks.  Counters wrap at 64 bits, rates are IEEE
    doubles, times are nanoseconds of the steady clock. *)

From S2P Require Import Prelude Floats Rounding.
Local Open Scope cyc_scope.

(** The part of OptimizationConfig the monitor reads. *)
Record LoadConfig := {
  load_high_watermark : double; load_low_watermark : double;
  baseline_ops_per_sec : double; baseline_bytes_per_sec : double }.

Record CounterShard := { read_ops : Z; write_ops : Z; read_bytes : Z; write_bytes : Z }.
Definition zero_shard : CounterShard := {| read_ops := 0; write_ops := 0; read_bytes := 0; write_bytes := 0 |}.

Record LoadMetrics := {
  cpu_usage : double; io_usage : double; combined : double;
  lm_counts : CounterShard;  (* read_ops, write_ops, read_bytes, write_bytes *)
  read_ops_per_sec : double; write_ops_per_sec : double; read_bytes_per_sec : double; write_bytes_per_sec : double }.

Definition d0 : double := S754_zero false.
Definition zero_metrics : LoadMetrics := {|
  cpu_usage := d0; io_usage := d0; combined := d0; lm_counts := zero_shard;
  read_ops_per_sec := d0; write_ops_per_sec := d0; read_bytes_per_sec := d0; write_bytes_per_sec := d0 |}.

Definition kCounterShards : nat := 16.

Record LoadMonitor := { _shards : list CounterShard; _prev : CounterShard; _last_update : Z; _metrics : LoadMetrics }.
Definition new_monitor (now : Z) : LoadMonitor := {|
  _shards := repeat zero_shard kCounterShards; _prev := zero_shard; _last_update := now; _metrics := zero_metrics |}.

(** ** Recording *)

(** [index] is the thread's number: its first call took it from a counter. *)
Definition thread_shard_index (index modulus : Z) : Z := Z.land index (modulus - 1).

Definition add_read (bytes : Z) (s : CounterShard) : CounterShard := {|
  read_ops := u64 (read_ops s + 1); write_ops := write_ops s;
  read_bytes := u64 (read_bytes s + bytes); write_bytes := write_bytes s |}.
Definition add_write (bytes : Z) (s : CounterShard) : CounterShard := {|
  read_ops := read_ops s; write_ops := u64 (write_ops s + 1);
  read_bytes := read_bytes s; write_bytes := u64 (write_bytes s + bytes) |}.

Definition on_shard (f : CounterShard -> CounterShard) (index : Z) (m : LoadMonitor) : LoadMonitor := {|
  _shards := alter f (Z.to_nat (thread_shard_index index (Z.of_nat kCounterShards))) (_shards m);
  _prev := _prev m; _last_update := _last_update m; _metrics := _metrics m |}.
Definition record_read_complete (index bytes : Z) : LoadMonitor -> LoadMonitor := on_shard (add_read bytes) index.
Definition record_write_complete (index bytes : Z) : LoadMonitor -> LoadMonitor := on_shard (add_write bytes) index.

(** ** The metrics *)

Definition add_shard (a s : CounterShard) : CounterShard := {|
  read_ops := u64 (read_ops a + read_ops s); write_ops := u64 (write_ops a + write_ops s);
  read_bytes := u64 (read_bytes a + read_bytes s); write_bytes := u64 (write_bytes a + write_bytes s) |}.
Definition sub_shard (a s : CounterShard) : CounterShard := {|
  read_ops := u64 (read_ops a - read_ops s); write_ops := u64 (write_ops a - write_ops s);
  read_bytes := u64 (read_bytes a - read_bytes s); write_bytes := u64 (write_bytes a - write_bytes s) |}.
Definition sum_shards (l : list CounterShard) : CounterShard := fold_left add_shard l zero_shard.

(** The literals: the doubles nearest to them. *)
Definition kCpuWeight : double := ddiv (double_of 3) (double_of 10).
Definition kIoWeight : double := ddiv (double_of 7) (double_of 10).
Definition one_ms : double := ddiv (double_of 1) (double_of 1000).
Definition d1 : double := double_of 1.

Definition elapsed_sec (last now : Z) : double := ddiv (double_of (Z.quot (now - last) 1000000)) (double_of 1000).

(** std::min(1.0, x) *)
Definition min1 (x : double) : double := if SFltb x d1 then x else d1.
Definition usage (rate baseline : double) : double :=
  if SFltb d0 baseline then min1 (ddiv rate baseline) else d0.

(** The metrics for the counters, what was counted since the previous call,
    and the seconds between. *)
Definition compute_metrics (cfg : LoadConfig) (counts delta : CounterShard) (sec : double) : LoadMetrics :=
  let rate d := ddiv (double_of d) sec in
  let cpu := usage (dadd (rate (read_ops delta)) (rate (write_ops delta))) (baseline_ops_per_sec cfg) in
  let io := usage (dadd (rate (read_bytes delta)) (rate (write_bytes delta))) (baseline_bytes_per_sec cfg) in
  {| cpu_usage := cpu; io_usage := io; combined := dadd (dmul kCpuWeight cpu) (dmul kIoWeight io); lm_counts := counts;
     read_ops_per_sec := rate (read_ops delta); write_ops_per_sec := rate (write_ops delta);
     read_bytes_per_sec := rate (read_bytes delta); write_bytes_per_sec := rate (write_bytes delta) |}.

Definition update_metrics (cfg : LoadConfig) (now : Z) (m : LoadMonitor) : LoadMonitor :=
  let counts := sum_shards (_shards m) in
  let sec := elapsed_sec (_last_update m) now in
  if SFltb sec one_ms then m
  else {| _shards := _shards m; _prev := counts; _last_update := now;
          _metrics := compute_metrics cfg counts (sub_shard counts (_prev m)) sec |}.

Definition metrics (m : LoadMonitor) : LoadMetrics := _metrics m.
Definition current_load (m : LoadMonitor) : double := combined (_metrics m).
Definition is_above_high_watermark (cfg : LoadConfig) (m : LoadMonitor) : bool := SFltb (load_high_watermark cfg) (current_load m).
Definition is_below_low_watermark (cfg : LoadConfig) (m : LoadMonitor) : bool := SFltb (current_load m) (load_low_watermark cfg).

Definition reset (now : Z) (m : LoadMonitor) : LoadMonitor := {|
  _shards := map (fun _ => zero_shard) (_shards m); _prev := zero_shard; _last_update := now; _metrics := zero_metrics |}.

(** ** The abstract counter

    One set of unbounded counters: everything since the start or the last
    reset, and what came since the last update that measured. *)

Record Abstract := { a_all : CounterShard; a_since : CounterShard; a_last : Z; a_metrics : LoadMetrics }.

Inductive op := Read (index bytes : Z) | Write (index bytes : Z) | Update (now : Z) | Reset (now : Z).

Definition count_op (o : op) (s : CounterShard) : CounterShard :=
  match o with
  | Read _ bytes => {| read_ops := read_ops s + 1; write_ops := write_ops s; read_bytes := read_bytes s + bytes; write_bytes := write_bytes s |}
  | Write _ bytes => {| read_ops := read_ops s; write_ops := write_ops s + 1; read_bytes := read_bytes s; write_bytes := write_bytes s + bytes |}
  | _ => s
  end.
Definition wrapped (s : CounterShard) : CounterShard := {|
  read_ops := u64 (read_ops s); write_ops := u64 (write_ops s); read_bytes := u64 (read_bytes s); write_bytes := u64 (write_bytes s) |}.

Definition a_new (now : Z) : Abstract := {| a_all := zero_shard; a_since := zero_shard; a_last := now; a_metrics := zero_metrics |}.
Definition a_step (cfg : LoadConfig) (a : Abstract) (o : op) : Abstract :=
  match o with
  | Update now =>
      let sec := elapsed_sec (a_last a) now in
      if SFltb sec one_ms then a
      else {| a_all := a_all a; a_since := zero_shard; a_last := now;
              a_metrics := compute_metrics cfg (wrapped (a_all a)) (wrapped (a_since a)) sec |}
  | Reset now => a_new now
  | _ => {| a_all := count_op o (a_all a); a_since := count_op o (a_since a); a_last := a_last a; a_metrics := a_metrics a |}
  end.

Definition run_op (cfg : LoadConfig) (m : LoadMonitor) (o : op) : LoadMonitor :=
  match o with
  | Read index bytes => record_read_complete index bytes m
  | Write index bytes => record_write_complete index bytes m
  | Update now => update_metrics cfg now m
  | Reset now => reset now m
  end.
Definition op_ok (o : op) : Prop :=
  match o with Read index bytes | Write index bytes => 0 <= index | _ => True end.

(** ** The shards add up *)

(** The four counters, as an index. *)
Inductive counter := ReadOps | WriteOps | ReadBytes | WriteBytes.
Definition get (c : counter) (s : CounterShard) : Z :=
  match c with ReadOps => read_ops s | WriteOps => write_ops s | ReadBytes => read_bytes s | WriteBytes => write_bytes s end.
Definition amount (o : op) (c : counter) : Z :=
  match o, c with
  | Read _ _, ReadOps | Write _ _, WriteOps => 1
  | Read _ bytes, ReadBytes | Write _ bytes, WriteBytes => bytes
  | _, _ => 0
  end.

Lemma shard_eq s t : (forall c, get c s = get c t) -> s = t.
Proof.
  intros H. destruct s, t. pose proof (H ReadOps). pose proof (H WriteOps). pose proof (H ReadBytes). pose proof (H WriteBytes).
  cbn in *. by subst.
Qed.
Lemma get_wrapped c s : get c (wrapped s) = u64 (get c s).
Proof. by destruct c. Qed.
Lemma get_add_shard c s t : get c (add_shard s t) = u64 (get c s + get c t).
Proof. by destruct c. Qed.
Lemma get_sub_shard c s t : get c (sub_shard s t) = u64 (get c s - get c t).
Proof. by destruct c. Qed.
Lemma get_zero c : get c zero_shard = 0.
Proof. by destruct c. Qed.
Lemma get_count c o s : get c (count_op o s) = get c s + amount o c.
Proof. destruct c, o; cbn; lia. Qed.

Lemma u64_eq x y : u64 x = u64 y <-> exists k, x = y + k * 2 ^ 64.
Proof.
  unfold u64, wrap. split.
  - intros H. exists (x / 2 ^ 64 - y / 2 ^ 64). pose proof (Z.div_mod x (2 ^ 64)). pose proof (Z.div_mod y (2 ^ 64)). lia.
  - intros [k ->]. apply Z.mod_add. lia.
Qed.
Lemma u64_self x : exists k, u64 x = x + k * 2 ^ 64.
Proof. exists (- (x / 2 ^ 64)). unfold u64, wrap. pose proof (Z.div_mod x (2 ^ 64)). lia. Qed.


Lemma sum_shards_get c l : get c (sum_shards l) = u64 (total (get c) l).
Proof.
  unfold sum_shards. rewrite <- (Z.add_0_l (total (get c) l)), <- (get_zero c).
  assert (G : forall a, get c a = u64 (get c a) -> get c (fold_left add_shard l a) = u64 (get c a + total (get c) l)).
  { unfold total. induction l as [|s l IH]; intros a Ha; cbn [fold_left foldr]; [by rewrite Z.add_0_r|].
    rewrite IH by (rewrite get_add_shard; symmetry; apply wrap_wrap; lia). rewrite get_add_shard. unfold u64, wrap.
    rewrite Zplus_mod_idemp_l. f_equal. lia. }
  apply G. by destruct c.
Qed.

Lemma shard_index_range index : 0 <= index -> (Z.to_nat (thread_shard_index index (Z.of_nat kCounterShards)) < kCounterShards)%nat.
Proof.
  intros H. unfold thread_shard_index. change (Z.of_nat kCounterShards - 1) with (2 ^ 4 - 1). rewrite land_ones_wrap by lia.
  pose proof (wrap_fits 4 index ltac:(lia)) as [? ?]. unfold kCounterShards. lia.
Qed.

Lemma total_alter {A} (f : A -> Z) (h : A -> A) l i x : l !! i = Some x -> total f (alter h i l) = total f l - f x + f (h x).
Proof.
  revert i. unfold total. induction l as [|y l IH]; intros [|i] H; try done; cbn in H; simplify_eq.
  - cbn. lia.
  - change (alter h (S i) (y :: l)) with (y :: alter h i l). cbn [foldr]. rewrite (IH i) by done. lia.
Qed.

(** ** The refinement *)

Record refines (m : LoadMonitor) (a : Abstract) : Prop := {
  rf_shards : length (_shards m) = kCounterShards;
  rf_all : forall c, u64 (total (get c) (_shards m)) = u64 (get c (a_all a));
  rf_since : forall c, u64 (get c (a_all a) - get c (_prev m)) = u64 (get c (a_since a));
  rf_last : _last_update m = a_last a;
  rf_metrics : _metrics m = a_metrics a }.

Lemma record_refines (f : CounterShard -> CounterShard) (o : op) index m a : refines m a -> 0 <= index ->
  (forall c s, u64 (get c (f s)) = u64 (get c s + amount o c)) ->
  refines (on_shard f index m)
    {| a_all := count_op o (a_all a); a_since := count_op o (a_since a); a_last := a_last a; a_metrics := a_metrics a |}.
Proof.
  intros [R1 R2 R3 R4 R5] Hi Hf.
  destruct (lookup_lt_is_Some_2 (_shards m) (Z.to_nat (thread_shard_index index (Z.of_nat kCounterShards)))) as [x Hx];
    [rewrite R1; by apply shard_index_range|].
  constructor; cbn; try done.
  - by rewrite length_alter.
  - intros c. rewrite (total_alter _ _ _ _ x Hx), get_count. specialize (R2 c). specialize (Hf c x).
    apply u64_eq in R2 as [k R2], Hf as [j Hf]. apply u64_eq. exists (k + j). lia.
  - intros c. rewrite !get_count. specialize (R3 c). apply u64_eq in R3 as [k R3]. apply u64_eq. exists k. lia.
Qed.

Lemma update_refines cfg now m a : refines m a -> refines (update_metrics cfg now m) (a_step cfg a (Update now)).
Proof.
  intros R. pose proof R as [R1 R2 R3 R4 R5]. unfold update_metrics, a_step. rewrite R4. case_match; [done|].
  constructor; cbn [_shards _prev _last_update _metrics a_all a_since a_last a_metrics]; try done.
  - intros c. rewrite sum_shards_get, R2, get_zero. pose proof (u64_self (get c (a_all a))) as [k E]. rewrite E.
    apply u64_eq. exists (- k). lia.
  - f_equal; apply shard_eq; intros c.
    + by rewrite sum_shards_get, get_wrapped.
    + rewrite get_sub_shard, sum_shards_get, get_wrapped, R2, <- R3. unfold u64, wrap. by rewrite Zminus_mod_idemp_l.
Qed.

Lemma op_refines cfg o m a : refines m a -> op_ok o -> refines (run_op cfg m o) (a_step cfg a o).
Proof.
  intros R Ho. destruct o as [index bytes|index bytes|now|now].
  - apply (record_refines _ (Read index bytes)); [done..|]. intros [] s; cbn; rewrite ?Z.add_0_r; unfold u64; rewrite ?wrap_wrap by lia; done.
  - apply (record_refines _ (Write index bytes)); [done..|]. intros [] s; cbn; rewrite ?Z.add_0_r; unfold u64; rewrite ?wrap_wrap by lia; done.
  - by apply update_refines.
  - destruct R as [R1 _ _ _ _]. constructor; cbn; try done; [by rewrite length_map| |by intros []].
    intros c. rewrite get_zero. f_equal. clear R1. unfold total. induction (_shards m) as [|x l IH]; [done|]. cbn. by rewrite get_zero.
Qed.

(** Whatever threads complete reads and writes, in any order with the
    monitoring thread's updates and resets: the published metrics are those of
    one plain set of counters.  The totals are everything counted since the
    reset (modulo 2^64), and the rates and the load are computed from exactly
    the operations since the last update that measured and the time since
    then: the shards lose and repeat nothing, an update that came too early
    (under a millisecond) leaves its operations to the next, and counters that
    wrapped around in between do not show. *)
Theorem load_monitor_refines cfg now ops :
  Forall op_ok ops ->
  metrics (fold_left (run_op cfg) ops (new_monitor now)) = a_metrics (fold_left (a_step cfg) ops (a_new now)).
Proof.
  intros Ho. assert (R : refines (new_monitor now) (a_new now)) by (constructor; try done; by intros []).
  revert R. generalize (new_monitor now) (a_new now). induction Ho as [|o ops Ho _ IH]; intros m a R; [by destruct R|].
  cbn [fold_left]. apply IH. by apply op_refines.
Qed.

(** Two threads, an update that is too early, and one that measures. *)
Definition ex_load : LoadConfig := {|
  load_high_watermark := ddiv (double_of 8) (double_of 10); load_low_watermark := ddiv (double_of 5) (double_of 10);
  baseline_ops_per_sec := double_of 100000; baseline_bytes_per_sec := double_of (500 * 1024 * 1024) |}.
Definition ex_load_ops : list op :=
  [Read 0 4096; Write 17 100; Update 500000; Read 17 4096; Update 1000000000; Read 3 1].

Lemma load_monitor_refines_witness :
  metrics (fold_left (run_op ex_load) ex_load_ops (new_monitor 0)) = a_metrics (fold_left (a_step ex_load) ex_load_ops (a_new 0)) /\
  read_ops (lm_counts (metrics (fold_left (run_op ex_load) ex_load_ops (new_monitor 0)))) = 2.
Proof.
  split; [|vm_compute; reflexivity]. apply (load_monitor_refines ex_load 0 ex_load_ops). repeat constructor; cbn; lia.
Defined.

(** 100k reads a second of 4 KiB objects, at the default baselines: a load
    between 0.84 and 0.85 (config.hpp says 0.86). *)
Example documented_score :
  let m := compute_metrics ex_load zero_shard {| read_ops := 100000; write_ops := 0; read_bytes := 409600000; write_bytes := 0 |} (double_of 1) in
  SFltb (ddiv (double_of 84) (double_of 100)) (combined m) = true /\ SFltb (combined m) (ddiv (double_of 85) (double_of 100)) = true.
Proof. vm_compute. split; reflexivity. Qed.

(** ** The load is between 0 and 1 *)

(** A double that lies in the unit interval. *)
Definition unit_range (x : double) : Prop := SFleb d0 x = true /\ SFleb x d1 = true.

Lemma SFltb_SFleb f g : SFltb f g = true -> SFleb f g = true.
Proof.
  rewrite SFltb_iff, SFleb_iff. intros (a & b & Ha & Hb & H). exists a, b. split; [done|]. split; [done|].
  unfold below in *. lia.
Qed.

Section values.
Context (bias : Z) (bias_large : 4000 <= bias).
Local Abbreviation value := (Rounding.value bias).
Local Abbreviation scaled := (Rounding.scaled bias).

Lemma usage_value rate baseline : plus rate ->
  unit_range (usage rate baseline) /\ in_format (usage rate baseline) /\
  exists v, value (usage rate baseline) = Some v /\ 0 <= v <= scaled 1 0.
Proof.
  intros Hr. unfold usage. destruct (SFltb d0 baseline) eqn:Hb.
  2: { split; [by split|]. split; [done|]. exists 0. split; [done|]. split; [done|]. by apply (scaled_mono bias bias_large 0 1 0). }
  assert (Pb : plus baseline) by (destruct baseline as [[]|[]| |[]]; done).
  unfold min1. destruct (SFltb (ddiv rate baseline) d1) eqn:Hx.
  - pose proof (plus_not_below _ (ddiv_plus _ _ Hr Pb)) as Hn. pose proof (ddiv_format rate baseline) as Hf.
    pose proof (below_one_value bias bias_large _ Hf Hx Hn) as Hv. split; [|by split]. split; [|by apply SFltb_SFleb].
    destruct Hv as (v & Hv & _). destruct (ddiv rate baseline) as [[]|[]| |[]]; try discriminate Hv; done.
  - split; [by split|]. split; [done|]. exists (scaled (2 ^ 52) (-52)). split; [done|].
    change (-52) with (0 + -52). unfold Rounding.scaled. rewrite <- Z.pow_add_r by lia. replace (52 + (0 + -52 + bias)) with (0 + bias) by lia.
    pose proof (Z.pow_nonneg 2 (0 + bias) ltac:(lia)). lia.
Qed.

(** 0.3 and 0.7, and their exact sum, which is below 1. *)
Lemma weights : kCpuWeight = S754_finite false 5404319552844595 (-54) /\ kIoWeight = S754_finite false 6305039478318694 (-53).
Proof. split; reflexivity. Qed.

Lemma weights_sum : scaled 5404319552844595 (-54) + scaled 6305039478318694 (-53) <= scaled (2 ^ 52) (-52).
Proof.
  replace (-53) with (-54 + 1) by done. replace (-52) with (-54 + 2) by done. rewrite !scaled_shift by lia.
  unfold Rounding.scaled. rewrite <- Z.mul_add_distr_r. apply Z.mul_le_mono_nonneg_r; [apply Z.pow_nonneg; lia|]. done.
Qed.

Lemma combined_range cpu io v w : in_format cpu -> in_format io -> value cpu = Some v -> value io = Some w ->
  v <= scaled 1 0 -> w <= scaled 1 0 -> unit_range (dadd (dmul kCpuWeight cpu) (dmul kIoWeight io)).
Proof.
  intros Fc Fi Hv Hw Lv Lw. destruct weights as [-> ->].
  destruct (dmul_below bias bias_large 5404319552844595 (-54) cpu v ltac:(lia) ltac:(lia) Fc Hv Lv) as (a & Va & [_ La] & Ca).
  destruct (dmul_below bias bias_large 6305039478318694 (-53) io w ltac:(lia) ltac:(lia) Fi Hw Lw) as (b & Vb & [_ Lb] & Cb).
  pose proof weights_sum as S.
  destruct (dadd_below bias bias_large _ _ a b (2 ^ 52) (-52) (proj1 Ca) (proj1 Cb) Ca Cb Va Vb ltac:(lia) ltac:(lia) ltac:(lia)) as (u & Vu & [_ Lu] & Cu).
  apply (value_below_one bias bias_large _ u Cu Vu). etransitivity; [exact Lu|].
  unfold Rounding.scaled. rewrite <- Z.pow_add_r by lia. replace (52 + (-52 + bias)) with (0 + bias) by lia. lia.
Qed.
End values.

(** What was measured over at least a millisecond has the sign of time. *)
Lemma elapsed_plus x : SFltb x one_ms = false -> plus x.
Proof. intros H. destruct x as [[]|[]| |[] m e]; try done. Qed.

Definition metrics_ok (x : LoadMetrics) : Prop := unit_range (cpu_usage x) /\ unit_range (io_usage x) /\ unit_range (combined x).

Lemma compute_metrics_ok cfg counts delta sec : SFltb sec one_ms = false -> (forall c, 0 <= get c delta) ->
  metrics_ok (compute_metrics cfg counts delta sec).
Proof.
  intros Hs%elapsed_plus Hd. assert (P : forall c, plus (ddiv (double_of (get c delta)) sec)).
  { intros c. apply ddiv_plus; [|done]. by apply double_of_plus. }
  pose proof (usage_value 4000 (Z.le_refl 4000) (dadd (ddiv (double_of (read_ops delta)) sec) (ddiv (double_of (write_ops delta)) sec)) (baseline_ops_per_sec cfg)
    (dadd_plus _ _ (P ReadOps) (P WriteOps))) as (Uc & Fc & v & Vc & _ & Lc).
  pose proof (usage_value 4000 (Z.le_refl 4000) (dadd (ddiv (double_of (read_bytes delta)) sec) (ddiv (double_of (write_bytes delta)) sec)) (baseline_bytes_per_sec cfg)
    (dadd_plus _ _ (P ReadBytes) (P WriteBytes))) as (Ui & Fi & w & Vi & _ & Li).
  split; [exact Uc|]. split; [exact Ui|]. exact (combined_range 4000 (Z.le_refl 4000) _ _ v w Fc Fi Vc Vi Lc Li).
Qed.

(** C36. The published usages and the combined load are doubles between 0.0 and
    1.0, and never NaN, whatever is counted, at whatever times the monitor is
    updated and reset, and for every configuration: zero, negative, infinite
    or NaN baselines, counters that wrap, a clock that jumps.  In particular
    the weighted sum does not round above 1. *)
Theorem load_in_unit_range cfg now ops : metrics_ok (metrics (fold_left (run_op cfg) ops (new_monitor now))).
Proof.
  assert (M : metrics_ok (_metrics (new_monitor now))) by (split; [|split]; by split).
  revert M. unfold metrics. generalize (new_monitor now). induction ops as [|o ops IH]; intros m M; [done|]. cbn [fold_left]. apply IH.
  destruct o as [index bytes|index bytes|t|t]; try done; cbn [run_op].
  unfold update_metrics. case_match eqn:E; [done|]. cbn [_metrics]. apply compute_metrics_ok; [done|].
  intros c. rewrite get_sub_shard. apply (wrap_fits 64). lia.
Qed.
