(* ===== verification/Engine.v ===== *)
(** * The optimization engine (src/src/optimization/optimization_engine.cpp)

    The engine around the work queue, the thread pool and the load monitor:
    writes reported by the embedder are planned by its plugins and queued,
    workers process the items, the monitoring thread sheds load and scales the
    pool.  [on_write_complete], [process_work_item] and [request_stop] are
    programs whose shared accesses (a locked region or an atomic) are single
    steps, interleaved in any order; one turn of the monitoring loop, [pause],
    [resume] and [start] are one step each (in the code a pause or a stop can
    fall into the middle of a turn).  A worker holding a dequeued item looks at
    the pool's flags again before it runs it.  What embedder code and the cache
    answer (plans, transforms, reads and writes, exceptions, and the forced
    unwind of a thread cancellation) is an argument of the steps. *)

From S2P Require Import Prelude Floats Key WorkQueue AdaptivePool LoadMonitor.
Local Open Scope cyc_scope.

(** ** Configuration *)

Record EngineConfig := {
  ec_enabled : bool; ec_queue : OptimizationConfig; ec_pool : PoolConfig; ec_load : LoadConfig;
  ec_scale_check_interval : Z; ec_enable_load_shedding : bool; ec_load_shedding_cooldown : Z; (* milliseconds *)
  ec_min_hits_before_optimize : Z }.

(** OptimizationConfig::is_valid *)
Definition is_valid (c : EngineConfig) : bool :=
  if ec_scale_check_interval c <=? 0 then false
  else if negb (pc_max_threads (ec_pool c) =? 0) && (pc_max_threads (ec_pool c) <? pc_min_threads (ec_pool c)) then false
  else if ec_enable_load_shedding c &&
    (negb (SFltb d0 (baseline_ops_per_sec (ec_load c))) || negb (SFltb d0 (baseline_bytes_per_sec (ec_load c)))) then false
  else true.

(** ** Embedder code *)

(** How a call into code that may throw ends. *)
Inductive outcome (A : Type) := Returns (a : A) | Throws | Unwinds.
Arguments Returns {A} _.
Arguments Throws {A}.
Arguments Unwinds {A}.

Record OptimizationTarget := { tg_target_alternate : Z; tg_priority : Z; tg_deferrable : bool; tg_estimated_memory : Z }.

Record OptimizationPlugin := {
  pl_plugin_id : Z;
  pl_plan_optimization : CacheKey -> list Z -> Z -> Z -> Z -> outcome (list OptimizationTarget);
  pl_estimate_memory : Z -> Z -> outcome Z }.

(** ** The programs *)

(** The arguments of [on_write_complete]. *)
Record Reported := { rp_key : CacheKey; rp_header : list Z; rp_content_length : Z; rp_alternate : Z; rp_hit_count : Z }.

Inductive cpc :=
  | CRunning | CEpoch | CHits | CSkipped | CPlugins
  | CPlan (l : list OptimizationPlugin)
  | CTargets (p : OptimizationPlugin) (targets : list OptimizationTarget) (l : list OptimizationPlugin)
  | CQueued (p : OptimizationPlugin) (targets : list OptimizationTarget) (l : list OptimizationPlugin)
  | CFailed (l : list OptimizationPlugin)
  | CReturned | CUnwound.
(** [c_failures]: how often its catch block ran. *)
Record Caller := { c_reported : Reported; c_pc : cpc; c_failures : Z }.

(** How an item ends. *)
Inductive ending := EAbandoned | EDuplicate | EDropped | EFailed | ECancelled | ECompleted | EUnwound.
#[export] Instance ending_eq_dec : EqDecision ending.
Proof. solve_decision. Defined.

Inductive transformed := TOk | TCancelled | TError.

Inductive ipc :=
  | IHeld                      (* the worker that dequeued it looks at _paused, and waits *)
  | IHeldOn                    (* and at _stopping *)
  | IEmplace                   (* _active_work.try_emplace *)
  | IRefused                   (* duplicates + 1 *)
  | IFind                      (* the plugin that queued the item *)
  | IErase (e : ending)        (* _active_work.erase, then return *)
  | IReadPass                  (* ForkGatedPass pass(_running) *)
  | IRead                      (* read_sync_unrecorded *)
  | INoSource                  (* failed + 1 *)
  | ITransform                 (* plugin->transform *)
  | IErased (r : transformed)  (* _active_work.erase after the transform *)
  | IOnCancelled               (* plugin->on_cancelled *)
  | ICancelled                 (* cancelled + 1 *)
  | IFailed                    (* failed + 1 *)
  | IWritePass                 (* ForkGatedPass write_pass(_running) *)
  | IWrite                     (* write_alternate_sync_unrecorded, write_sync, close_sync *)
  | ICompleted                 (* completed + 1 *)
  | ICatch                     (* catch (...): failed + 1 *)
  | IGuard (e : ending)        (* ~TokenGuard *)
  | IDone (e : ending).

(** A dequeued item, from the worker's checks of worker_loop through its run of
    [process_work_item]; [i_cancelled] is its cancellation token,
    which other threads know by the run's number. *)
Record Instance_ := { i_item : WorkItem; i_pc : ipc; i_cancelled : bool }.

(** What [request_stop] has still to do. *)
Inductive spc := SNone | SQueue | SSweep | SPool.

Record Counters := { queued : Z; completed : Z; cancelled : Z; failed : Z; skipped : Z; duplicates : Z }.

Record OptimizationEngine := {
  _running : bool; _start_epoch : Z; _paused : bool; _load_shedding : bool; _load_drop_time : Z; _in_cooldown : bool;
  _stat : Counters; _work_queue : WorkQueue; _thread_pool : Pool; _load_monitor : LoadMonitor;
  _plugins : list OptimizationPlugin; _active_work : gmap WorkItemId nat;
  e_fork_epoch : Z; e_callers : list Caller; e_items : list Instance_; e_stop : spc }.

Definition new_engine (epoch now : Z) : OptimizationEngine := {|
  _running := false; _start_epoch := 0; _paused := false; _load_shedding := false; _load_drop_time := 0; _in_cooldown := false;
  _stat := {| queued := 0; completed := 0; cancelled := 0; failed := 0; skipped := 0; duplicates := 0 |};
  _work_queue := new_queue; _thread_pool := new_pool; _load_monitor := new_monitor now; _plugins := []; _active_work := ∅;
  e_fork_epoch := epoch; e_callers := []; e_items := []; e_stop := SNone |}.

(** Field updates. *)
Definition set_state (e : OptimizationEngine) (running : bool) (epoch : Z) (paused shedding : bool) : OptimizationEngine := {|
  _running := running; _start_epoch := epoch; _paused := paused; _load_shedding := shedding; _load_drop_time := _load_drop_time e;
  _in_cooldown := _in_cooldown e; _stat := _stat e; _work_queue := _work_queue e; _thread_pool := _thread_pool e;
  _load_monitor := _load_monitor e; _plugins := _plugins e; _active_work := _active_work e; e_fork_epoch := e_fork_epoch e;
  e_callers := e_callers e; e_items := e_items e; e_stop := e_stop e |}.
Definition set_cooldown (e : OptimizationEngine) (cooling : bool) (since : Z) : OptimizationEngine := {|
  _running := _running e; _start_epoch := _start_epoch e; _paused := _paused e; _load_shedding := _load_shedding e; _load_drop_time := since;
  _in_cooldown := cooling; _stat := _stat e; _work_queue := _work_queue e; _thread_pool := _thread_pool e;
  _load_monitor := _load_monitor e; _plugins := _plugins e; _active_work := _active_work e; e_fork_epoch := e_fork_epoch e;
  e_callers := e_callers e; e_items := e_items e; e_stop := e_stop e |}.
Definition set_parts (e : OptimizationEngine) (q : WorkQueue) (p : Pool) (m : LoadMonitor) : OptimizationEngine := {|
  _running := _running e; _start_epoch := _start_epoch e; _paused := _paused e; _load_shedding := _load_shedding e;
  _load_drop_time := _load_drop_time e; _in_cooldown := _in_cooldown e; _stat := _stat e; _work_queue := q; _thread_pool := p;
  _load_monitor := m; _plugins := _plugins e; _active_work := _active_work e; e_fork_epoch := e_fork_epoch e;
  e_callers := e_callers e; e_items := e_items e; e_stop := e_stop e |}.
Definition set_stat (e : OptimizationEngine) (s : Counters) : OptimizationEngine := {|
  _running := _running e; _start_epoch := _start_epoch e; _paused := _paused e; _load_shedding := _load_shedding e;
  _load_drop_time := _load_drop_time e; _in_cooldown := _in_cooldown e; _stat := s; _work_queue := _work_queue e;
  _thread_pool := _thread_pool e; _load_monitor := _load_monitor e; _plugins := _plugins e; _active_work := _active_work e;
  e_fork_epoch := e_fork_epoch e; e_callers := e_callers e; e_items := e_items e; e_stop := e_stop e |}.
Definition set_plugins (e : OptimizationEngine) (l : list OptimizationPlugin) : OptimizationEngine := {|
  _running := _running e; _start_epoch := _start_epoch e; _paused := _paused e; _load_shedding := _load_shedding e;
  _load_drop_time := _load_drop_time e; _in_cooldown := _in_cooldown e; _stat := _stat e; _work_queue := _work_queue e;
  _thread_pool := _thread_pool e; _load_monitor := _load_monitor e; _plugins := l; _active_work := _active_work e;
  e_fork_epoch := e_fork_epoch e; e_callers := e_callers e; e_items := e_items e; e_stop := e_stop e |}.
Definition set_active (e : OptimizationEngine) (m : gmap WorkItemId nat) : OptimizationEngine := {|
  _running := _running e; _start_epoch := _start_epoch e; _paused := _paused e; _load_shedding := _load_shedding e;
  _load_drop_time := _load_drop_time e; _in_cooldown := _in_cooldown e; _stat := _stat e; _work_queue := _work_queue e;
  _thread_pool := _thread_pool e; _load_monitor := _load_monitor e; _plugins := _plugins e; _active_work := m;
  e_fork_epoch := e_fork_epoch e; e_callers := e_callers e; e_items := e_items e; e_stop := e_stop e |}.
Definition set_programs (e : OptimizationEngine) (callers : list Caller) (items : list Instance_) (s : spc) : OptimizationEngine := {|
  _running := _running e; _start_epoch := _start_epoch e; _paused := _paused e; _load_shedding := _load_shedding e;
  _load_drop_time := _load_drop_time e; _in_cooldown := _in_cooldown e; _stat := _stat e; _work_queue := _work_queue e;
  _thread_pool := _thread_pool e; _load_monitor := _load_monitor e; _plugins := _plugins e; _active_work := _active_work e;
  e_fork_epoch := e_fork_epoch e; e_callers := callers; e_items := items; e_stop := s |}.

Definition with_queue (e : OptimizationEngine) (q : WorkQueue) : OptimizationEngine := set_parts e q (_thread_pool e) (_load_monitor e).
Definition with_pool (e : OptimizationEngine) (p : Pool) : OptimizationEngine := set_parts e (_work_queue e) p (_load_monitor e).
Definition with_monitor (e : OptimizationEngine) (m : LoadMonitor) : OptimizationEngine := set_parts e (_work_queue e) (_thread_pool e) m.

(** The counters' fetch_add. *)
Definition add_queued (s : Counters) : Counters := {|
  queued := u64 (queued s + 1); completed := completed s; cancelled := cancelled s; failed := failed s; skipped := skipped s; duplicates := duplicates s |}.
Definition add_completed (s : Counters) : Counters := {|
  queued := queued s; completed := u64 (completed s + 1); cancelled := cancelled s; failed := failed s; skipped := skipped s; duplicates := duplicates s |}.
Definition add_cancelled (n : Z) (s : Counters) : Counters := {|
  queued := queued s; completed := completed s; cancelled := u64 (cancelled s + n); failed := failed s; skipped := skipped s; duplicates := duplicates s |}.
Definition add_failed (s : Counters) : Counters := {|
  queued := queued s; completed := completed s; cancelled := cancelled s; failed := u64 (failed s + 1); skipped := skipped s; duplicates := duplicates s |}.
Definition add_skipped (s : Counters) : Counters := {|
  queued := queued s; completed := completed s; cancelled := cancelled s; failed := failed s; skipped := u64 (skipped s + 1); duplicates := duplicates s |}.
Definition add_duplicates (s : Counters) : Counters := {|
  queued := queued s; completed := completed s; cancelled := cancelled s; failed := failed s; skipped := skipped s; duplicates := u64 (duplicates s + 1) |}.
Definition count (e : OptimizationEngine) (f : Counters -> Counters) : OptimizationEngine := set_stat e (f (_stat e)).

Section engine.
Context `{StdHeap} (cfg : EngineConfig).

(** ** Lifecycle and control *)

Inductive StartError := InvalidConfiguration.

(** The monitoring thread it starts is the [step_round] below. *)
Definition start (e : OptimizationEngine) : (StartError + unit) * OptimizationEngine :=
  if negb (ec_enabled cfg) then (inr tt, e)
  else if negb (is_valid cfg) then (inl InvalidConfiguration, e)
  else if _running e then (inr tt, e)
  else
    let e := set_state e true (e_fork_epoch e) (_paused e) (_load_shedding e) in
    (inr tt, set_parts e (WorkQueue.start (_work_queue e)) (AdaptivePool.start (_thread_pool e)) (_load_monitor e)).

Definition request_stop (e : OptimizationEngine) : OptimizationEngine :=
  if negb (_running e) then e
  else set_programs (set_state e false (_start_epoch e) (_paused e) (_load_shedding e)) (e_callers e) (e_items e) SQueue.

(** The tokens of the active work, set. *)
Definition cancel_active (e : OptimizationEngine) : list Instance_ :=
  imap (fun n i => if bool_decide (n ∈ (map_to_list (_active_work e)).*2)
                   then {| i_item := i_item i; i_pc := i_pc i; i_cancelled := true |} else i) (e_items e).

Definition stop_step (e : OptimizationEngine) : option OptimizationEngine :=
  match e_stop e with
  | SNone => None
  | SQueue => Some (set_programs (with_queue e (WorkQueue.stop (_work_queue e))) (e_callers e) (e_items e) SSweep)
  | SSweep => Some (set_programs e (e_callers e) (cancel_active e) SPool)
  | SPool => Some (set_programs (with_pool e (AdaptivePool.request_stop (_thread_pool e))) (e_callers e) (e_items e) SNone)
  end.

(** [join_threads], once the monitoring thread has left its loop. *)
Definition join_threads (e : OptimizationEngine) : OptimizationEngine := with_pool e (AdaptivePool.join_workers (_thread_pool e)).

Definition register_plugin (p : OptimizationPlugin) (e : OptimizationEngine) : OptimizationEngine := set_plugins e (_plugins e ++ [p]).
Definition unregister_plugin (id : Z) (e : OptimizationEngine) : OptimizationEngine :=
  set_plugins e (List.filter (fun p => negb (pl_plugin_id p =? id)) (_plugins e)).

Definition pause (e : OptimizationEngine) : OptimizationEngine :=
  with_pool (set_state e (_running e) (_start_epoch e) true (_load_shedding e)) (AdaptivePool.pause (_thread_pool e)).
Definition resume (e : OptimizationEngine) : OptimizationEngine :=
  with_pool (set_state e (_running e) (_start_epoch e) false false) (AdaptivePool.resume (_thread_pool e)).
Definition is_paused (e : OptimizationEngine) : bool := _paused e.
Definition is_load_shedding (e : OptimizationEngine) : bool := _load_shedding e.

(** ** on_write_complete *)

Definition kMinMemoryEstimate : Z := 1024.
Definition kMaxMemoryEstimate : Z := 1024 * 1024 * 1024.
Definition clamp (x lo hi : Z) : Z := if x <? lo then lo else if hi <? x then hi else x.

Definition memory_estimate (p : OptimizationPlugin) (r : Reported) (t : OptimizationTarget) : outcome Z :=
  if 0 <? tg_estimated_memory t then Returns (tg_estimated_memory t)
  else pl_estimate_memory p (rp_content_length r) (tg_target_alternate t).

Definition make_item (p : OptimizationPlugin) (r : Reported) (t : OptimizationTarget) (memory : Z) : WorkItem := {|
  w_id := {| wi_key := rp_key r; wi_target_alternate := tg_target_alternate t |}; w_plugin_id := pl_plugin_id p;
  w_priority := tg_priority t; w_hit_count := rp_hit_count r; w_content_length := rp_content_length r;
  w_estimated_memory := clamp memory kMinMemoryEstimate kMaxMemoryEstimate; w_deferrable := tg_deferrable t;
  w_enqueue_time := 0; w_order_key := S754_zero false |}.

Definition c_at (c : Caller) (pc : cpc) : Caller := {| c_reported := c_reported c; c_pc := pc; c_failures := c_failures c |}.
Definition c_caught (c : Caller) (pc : cpc) : Caller := {| c_reported := c_reported c; c_pc := pc; c_failures := c_failures c + 1 |}.

Definition caller_step (now : Z) (e : OptimizationEngine) (c : Caller) : option (OptimizationEngine * Caller) :=
  let r := c_reported c in
  match c_pc c with
  | CRunning => Some (e, c_at c (if negb (_running e) || negb (ec_enabled cfg) then CReturned else CEpoch))
  | CEpoch => Some (e, c_at c (if negb (_start_epoch e =? e_fork_epoch e) then CReturned else CHits))
  | CHits => Some (e, c_at c (if rp_hit_count r <? ec_min_hits_before_optimize cfg then CSkipped else CPlugins))
  | CSkipped => Some (count e add_skipped, c_at c CReturned)
  | CPlugins => Some (e, c_at c (CPlan (_plugins e)))
  | CPlan [] => Some (e, c_at c CReturned)
  | CPlan (p :: l) =>
      Some (e, c_at c (match pl_plan_optimization p (rp_key r) (rp_header r) (rp_content_length r) (rp_alternate r) (rp_hit_count r) with
                       | Returns targets => CTargets p targets l
                       | Throws => CFailed l
                       | Unwinds => CUnwound
                       end))
  | CTargets p [] l => Some (e, c_at c (CPlan l))
  | CTargets p (t :: targets) l =>
      match memory_estimate p r t with
      | Returns memory =>
          let '(result, q) := enqueue (ec_queue cfg) (make_item p r t memory) now (_work_queue e) in
          Some (with_queue e q, c_at c (match result with inr _ => CQueued p targets l | inl _ => CTargets p targets l end))
      | Throws => Some (e, c_at c (CFailed l))
      | Unwinds => Some (e, c_at c CUnwound)
      end
  | CQueued p targets l => Some (count e add_queued, c_at c (CTargets p targets l))
  | CFailed l => Some (count e add_failed, c_caught c (CPlan l))
  | CReturned | CUnwound => None
  end.

(** ** process_work_item *)

(** [get_task] of a worker: nothing while the queue is empty and not stopped. *)
Definition get_task (e : OptimizationEngine) : option OptimizationEngine :=
  match WorkQueue.dequeue (_work_queue e) with
  | Some (Some item, q) =>
      Some (set_programs (with_queue e q) (e_callers e) (e_items e ++ [{| i_item := item; i_pc := IHeld; i_cancelled := false |}]) (e_stop e))
  | Some (None, q) => Some (with_queue e q)
  | None => None
  end.

(** What the calls of one run answer: is the worker cancelled as it waits out
    a pause, does the pass wait out a pending fork,
    the plugins' info, the read, the transform, on_cancelled, and the three
    calls of the write. *)
Record Answers := {
  an_wait : outcome unit; an_pass : bool; an_info : outcome unit; an_read : outcome bool; an_transform : outcome transformed; an_on_cancelled : outcome unit;
  an_open : outcome bool; an_write : outcome bool; an_close : outcome bool }.

(** A pass is refused only where the engine was stopped (ForkGate). *)
Definition pass_entered (a : Answers) (e : OptimizationEngine) : bool := an_pass a || _running e.

Definition write_alternate (a : Answers) : outcome bool :=
  match an_open a with
  | Returns true => match an_write a with Returns true => an_close a | o => o end
  | o => o
  end.

Definition caught {A} (o : outcome A) (k : A -> ipc) : ipc :=
  match o with Returns x => k x | Throws => ICatch | Unwinds => IGuard EUnwound end.

Definition i_at (i : Instance_) (pc : ipc) : Instance_ := {| i_item := i_item i; i_pc := pc; i_cancelled := i_cancelled i |}.
Definition i_id (i : Instance_) : WorkItemId := w_id (i_item i).

(** Before the run: the worker that holds the item waits while the pool is
    paused, and abandons the item if the pool is stopping. *)
Definition held_step (a : Answers) (pool : Pool) (i : Instance_) : option Instance_ :=
  match i_pc i with
  | IHeld =>
      if p_paused pool && negb (p_stopping pool)
      then match an_wait a with Unwinds => Some (i_at i (IDone EUnwound)) | _ => None end
      else Some (i_at i IHeldOn)
  | IHeldOn => Some (i_at i (if p_stopping pool then IDone EAbandoned else IEmplace))
  | _ => None
  end.

(** A step of the run with number [n]. *)
Definition item_step (a : Answers) (n : nat) (e : OptimizationEngine) (i : Instance_) : option (OptimizationEngine * Instance_) :=
  match i_pc i with
  | IHeld | IHeldOn => i ← held_step a (_thread_pool e) i; Some (e, i)
  | IEmplace =>
      match _active_work e !! i_id i with
      | Some _ => Some (e, i_at i IRefused)
      | None => Some (set_active e (<[i_id i := n]> (_active_work e)), i_at i IFind)
      end
  | IRefused => Some (count e add_duplicates, i_at i (IDone EDuplicate))
  | IFind =>
      Some (e, i_at i (caught (an_info a) (fun _ =>
        if existsb (fun p => pl_plugin_id p =? w_plugin_id (i_item i)) (_plugins e) then IReadPass else IErase EDropped)))
  | IErase end_ => Some (set_active e (delete (i_id i) (_active_work e)), i_at i (IGuard end_))
  | IReadPass => Some (e, i_at i (if pass_entered a e then IRead else IErase EDropped))
  | IRead => Some (e, i_at i (caught (an_read a) (fun ok => if ok : bool then ITransform else INoSource)))
  | INoSource => Some (count e add_failed, i_at i (IErase EFailed))
  | ITransform => Some (e, i_at i (caught (an_transform a) IErased))
  | IErased r =>
      Some (set_active e (delete (i_id i) (_active_work e)),
            i_at i (match r with TOk => IWritePass | TCancelled => IOnCancelled | TError => IFailed end))
  | IOnCancelled => Some (e, i_at i (caught (an_on_cancelled a) (fun _ => ICancelled)))
  | ICancelled => Some (count e (add_cancelled 1), i_at i (IGuard ECancelled))
  | IFailed => Some (count e add_failed, i_at i (IGuard EFailed))
  | IWritePass => Some (e, i_at i (if pass_entered a e then IWrite else IOnCancelled))
  | IWrite => Some (e, i_at i (caught (write_alternate a) (fun ok => if ok : bool then ICompleted else IFailed)))
  | ICompleted => Some (count e add_completed, i_at i (IGuard ECompleted))
  | ICatch => Some (count e add_failed, i_at i (IGuard EFailed))
  | IGuard end_ =>
      Some (if decide (_active_work e !! i_id i = Some n) then set_active e (delete (i_id i) (_active_work e)) else e, i_at i (IDone end_))
  | IDone _ => None
  end.

(** ** The monitoring loop

    One turn, after its sleep: [now] is the clock in [update_metrics], [now']
    the later reading of the cooldown. *)
Definition shed (e : OptimizationEngine) : OptimizationEngine :=
  let '(n, q) := cancel_deferrable (_work_queue e) in
  let e := set_parts e q (AdaptivePool.pause (_thread_pool e)) (_load_monitor e) in
  if 0 <? n then count e (add_cancelled n) else e.

Definition monitor_round (now now' : Z) (e : OptimizationEngine) : OptimizationEngine :=
  let e := with_monitor e (update_metrics (ec_load cfg) now (_load_monitor e)) in
  let e :=
    if ec_enable_load_shedding cfg && is_above_high_watermark (ec_load cfg) (_load_monitor e) then
      let e := set_cooldown e false (_load_drop_time e) in
      if negb (_load_shedding e) then shed (set_state e (_running e) (_start_epoch e) (_paused e) true) else e
    else if _load_shedding e && is_below_low_watermark (ec_load cfg) (_load_monitor e) then
      if negb (_in_cooldown e) then set_cooldown e true now'
      else if ec_load_shedding_cooldown cfg * 1000000 <=? now' - _load_drop_time e then
        with_pool (set_state (set_cooldown e false (_load_drop_time e)) (_running e) (_start_epoch e) (_paused e) false)
          (AdaptivePool.resume (_thread_pool e))
      else e
    else if _load_shedding e then set_cooldown e false (_load_drop_time e)
    else e in
  if negb (_paused e) && negb (_load_shedding e) then with_pool e (AdaptivePool.check_scaling (_thread_pool e)) else e.

(** ** The steps of the system *)

(** The pool between the engine's calls. *)
Inductive pool_moves : Pool -> Pool -> Prop :=
  | pool_worker m s i w s' w' : p_threads s !! i = Some w -> worker_step m s w = Some (s', w') ->
      pool_moves s (AdaptivePool.set_threads s' (p_next s') (<[i := w']> (p_threads s')))
  | pool_controller depth ok s s' : controller_step (ec_pool cfg) depth ok s = Some s' -> pool_moves s s'
  | pool_async s l1 a l2 s' next : p_async s = l1 ++ a :: l2 -> async_step a s = (s', next) ->
      pool_moves s (AdaptivePool.set_async s' (l1 ++ next ++ l2)).

(** The plugins' values have the widths of their types. *)
Definition plugin_ok (p : OptimizationPlugin) : Prop :=
  (forall k h n a c targets, pl_plan_optimization p k h n a c = Returns targets -> Forall (fun t => fits 32 (tg_priority t)) targets).

Inductive step : OptimizationEngine -> OptimizationEngine -> Prop :=
  | step_start e : e_stop e = SNone -> p_ctl (_thread_pool e) = CIdle -> step e (start e).2
  | step_request_stop e : e_stop e = SNone -> step e (request_stop e)
  | step_stopping e e' : stop_step e = Some e' -> step e e'
  | step_join e : _running e = false -> e_stop e = SNone -> p_ctl (_thread_pool e) = CIdle -> step e (join_threads e)
  | step_pause e : step e (pause e)
  | step_resume e : step e (resume e)
  | step_register p e : plugin_ok p -> step e (register_plugin p e)
  | step_unregister id e : step e (unregister_plugin id e)
  | step_report r e : step e (set_programs e (e_callers e ++ [{| c_reported := r; c_pc := CRunning; c_failures := 0 |}]) (e_items e) (e_stop e))
  | step_caller now e e' k c c' : 0 <= now < 2 ^ 63 -> e_callers e !! k = Some c -> caller_step now e c = Some (e', c') ->
      step e (set_programs e' (<[k := c']> (e_callers e')) (e_items e') (e_stop e'))
  | step_get_task e e' : get_task e = Some e' -> step e e'
  | step_item a e e' n i i' : e_items e !! n = Some i -> item_step a n e i = Some (e', i') ->
      step e (set_programs e' (e_callers e') (<[n := i']> (e_items e')) (e_stop e'))
  | step_round now now' e : _running e = true -> p_ctl (_thread_pool e) = CIdle -> step e (monitor_round now now' e)
  | step_load o e : step e (with_monitor e (LoadMonitor.run_op (ec_load cfg) (_load_monitor e) o))
  | step_pool p e : pool_moves (_thread_pool e) p -> step e (with_pool e p).

Definition reach (e : OptimizationEngine) : Prop := exists epoch now, rtc step (new_engine epoch now) e.
End engine.
