(* ===== verification/EngineSpec.v ===== *)
(** * What the optimization engine guarantees

    Invariants of the engine of Engine.v by rule induction on its steps: the
    cancellation tokens, the queue's contract, the counters; the course of load
    shedding; and executions that show what the interleavings allow. *)

From S2P Require Import Prelude Floats Key WorkQueue AdaptivePool LoadMonitor Engine.
Local Open Scope cyc_scope.

(** ** What a turn of the monitoring loop touches *)

Section monitor.
Context `{StdHeap} (cfg : EngineConfig).

Lemma shed_parts e :
  _active_work (shed e) = _active_work e /\ e_items (shed e) = e_items e /\ e_callers (shed e) = e_callers e /\
  _plugins (shed e) = _plugins e /\ _work_queue (shed e) = (cancel_deferrable (_work_queue e)).2 /\
  _stat (shed e) = if 0 <? (cancel_deferrable (_work_queue e)).1 then add_cancelled (cancel_deferrable (_work_queue e)).1 (_stat e) else _stat e.
Proof. unfold shed. destruct (cancel_deferrable (_work_queue e)) as [n q]. cbn. by destruct (0 <? n). Qed.

(** It sheds exactly when it takes the load over the mark first. *)
Definition sheds (now : Z) (e : OptimizationEngine) : bool :=
  ec_enable_load_shedding cfg && is_above_high_watermark (ec_load cfg) (update_metrics (ec_load cfg) now (_load_monitor e))
  && negb (_load_shedding e).

Lemma monitor_round_parts now now' e :
  let e' := monitor_round cfg now now' e in
  _active_work e' = _active_work e /\ e_items e' = e_items e /\ e_callers e' = e_callers e /\ _plugins e' = _plugins e /\
  _work_queue e' = (if sheds now e then (cancel_deferrable (_work_queue e)).2 else _work_queue e) /\
  _stat e' = (if sheds now e && (0 <? (cancel_deferrable (_work_queue e)).1)
              then add_cancelled (cancel_deferrable (_work_queue e)).1 (_stat e) else _stat e).
Proof.
  unfold sheds, monitor_round. cbn [_load_monitor with_monitor set_parts].
  set (m := update_metrics _ _ _). destruct (ec_enable_load_shedding cfg && is_above_high_watermark (ec_load cfg) m) eqn:Ha; cbn.
  - destruct (_load_shedding e); cbn.
    + destruct (negb _ && negb _); by split_and!.
    + set (e1 := set_state _ _ _ _ _). destruct (shed_parts e1) as (S1 & S2 & S3 & S4 & S5 & S6).
      destruct (negb (_paused (shed e1)) && _); cbn; rewrite S1, S2, S3, S4, S5, S6; by split_and!.
  - repeat case_match; by split_and!.
Qed.
End monitor.

(** ** The cancellation tokens *)

(** The run's token is in _active_work; it may be. *)
Definition must_own (pc : ipc) : bool :=
  match pc with IFind | IErase _ | IReadPass | IRead | INoSource | ITransform | IErased _ => true | _ => false end.
Definition may_own (pc : ipc) : bool := must_own pc || match pc with ICatch | IGuard _ => true | _ => false end.

Record tokens_ok (active : gmap WorkItemId nat) (items : list Instance_) : Prop := {
  tk_live : forall id n, active !! id = Some n -> exists i, items !! n = Some i /\ i_id i = id /\ may_own (i_pc i) = true;
  tk_owned : forall n i, items !! n = Some i -> must_own (i_pc i) = true -> active !! i_id i = Some n }.

(** Only run [n] moves; its item stays. *)
Lemma tokens_keep active items n i i' : tokens_ok active items -> items !! n = Some i -> i_id i' = i_id i ->
  (active !! i_id i = Some n -> may_own (i_pc i') = true) -> (must_own (i_pc i') = true -> must_own (i_pc i) = true) ->
  tokens_ok active (<[n := i']> items).
Proof.
  intros [T1 T2] Hn Hid Hl Ho. pose proof (lookup_lt_Some _ _ _ Hn). split.
  - intros id k Hk. destruct (T1 id k Hk) as (j & Hj & Hjd & Hjo). destruct (decide (n = k)) as [<-|Hnk].
    + rewrite Hn in Hj. injection Hj as <-. exists i'. rewrite list_lookup_insert_eq by done. subst id. auto.
    + exists j. by rewrite list_lookup_insert_ne.
  - intros k j Hj Hjo. destruct (decide (n = k)) as [<-|Hnk].
    + rewrite list_lookup_insert_eq in Hj by done. injection Hj as <-. rewrite Hid. by apply (T2 n i Hn), Ho.
    + rewrite list_lookup_insert_ne in Hj by done. by apply T2.
Qed.

Lemma tokens_enter active items n i i' : tokens_ok active items -> items !! n = Some i -> i_id i' = i_id i ->
  must_own (i_pc i) = false -> active !! i_id i = None -> may_own (i_pc i') = true ->
  tokens_ok (<[i_id i := n]> active) (<[n := i']> items).
Proof.
  intros [T1 T2] Hn Hid Hm Ha Ho. pose proof (lookup_lt_Some _ _ _ Hn). split.
  - intros id k Hk. destruct (decide (i_id i = id)) as [<-|Hne].
    + rewrite lookup_insert_eq in Hk. injection Hk as <-. exists i'. by rewrite list_lookup_insert_eq.
    + rewrite lookup_insert_ne in Hk by done. destruct (T1 id k Hk) as (j & Hj & Hjd & Hjo). exists j.
      rewrite list_lookup_insert_ne; [done|]. intros <-. rewrite Hn in Hj. injection Hj as <-. congruence.
  - intros k j Hj Hjo. destruct (decide (n = k)) as [<-|Hnk].
    + rewrite list_lookup_insert_eq in Hj by done. injection Hj as <-. rewrite Hid. apply lookup_insert_eq.
    + rewrite list_lookup_insert_ne in Hj by done. pose proof (T2 k j Hj Hjo). rewrite lookup_insert_ne; [done|]. congruence.
Qed.

Lemma tokens_leave active items n i i' : tokens_ok active items -> items !! n = Some i -> i_id i' = i_id i ->
  active !! i_id i = Some n -> must_own (i_pc i') = false -> tokens_ok (delete (i_id i) active) (<[n := i']> items).
Proof.
  intros [T1 T2] Hn Hid Ha Hm. pose proof (lookup_lt_Some _ _ _ Hn). split.
  - intros id k Hk. apply lookup_delete_Some in Hk as [Hne Hk]. destruct (T1 id k Hk) as (j & Hj & Hjd & Hjo). exists j.
    rewrite list_lookup_insert_ne; [done|]. intros <-. rewrite Hn in Hj. injection Hj as <-. congruence.
  - intros k j Hj Hjo. destruct (decide (n = k)) as [<-|Hnk].
    + rewrite list_lookup_insert_eq in Hj by done. injection Hj as <-. congruence.
    + rewrite list_lookup_insert_ne in Hj by done. pose proof (T2 k j Hj Hjo). rewrite lookup_delete_ne; [done|]. congruence.
Qed.

Lemma tokens_new active items i : tokens_ok active items -> must_own (i_pc i) = false -> tokens_ok active (items ++ [i]).
Proof.
  intros [T1 T2] Hm. split.
  - intros id k Hk. destruct (T1 id k Hk) as (j & Hj & ?). exists j. split; [|done]. by apply lookup_app_l_Some.
  - intros k j Hj Hjo. apply lookup_app_Some in Hj as [Hj|[_ Hj]]; [by apply T2|].
    apply list_lookup_singleton_Some in Hj as [_ <-]. congruence.
Qed.

(** Another view of the same runs. *)
Lemma tokens_imap active items f : tokens_ok active items -> (forall n i, i_id (f n i) = i_id i /\ i_pc (f n i) = i_pc i) ->
  tokens_ok active (imap f items).
Proof.
  intros [T1 T2] Hf. split.
  - intros id k Hk. destruct (T1 id k Hk) as (j & Hj & Hjd & Hjo). exists (f k j). rewrite list_lookup_imap, Hj.
    destruct (Hf k j) as [-> ->]. done.
  - intros k j Hj Hjo. rewrite list_lookup_imap in Hj. destruct (items !! k) as [i|] eqn:E; [|done]. cbn in Hj. injection Hj as <-.
    destruct (Hf k i) as [Hd Hp]. rewrite Hd. rewrite Hp in Hjo. by apply T2.
Qed.

Section tokens.
Context `{StdHeap} (cfg : EngineConfig).

Lemma item_step_tokens a n e i e' i' : tokens_ok (_active_work e) (e_items e) -> e_items e !! n = Some i ->
  item_step a n e i = Some (e', i') -> tokens_ok (_active_work e') (<[n := i']> (e_items e')).
Proof.
  intros T Hn E. pose proof T as [T1 T2].
  assert (L : _active_work e !! i_id i = Some n -> may_own (i_pc i) = true).
  { intros Ha. destruct (T1 _ _ Ha) as (j & Hj & _ & Ho). rewrite Hn in Hj. by injection Hj as <-. }
  pose proof (T2 n i Hn) as O. unfold item_step, held_step in E. destruct (i_pc i) eqn:Pc; cbn [mbind option_bind] in E; cbn in L, O.
  all: try (injection E as <- <-; cbn [_active_work e_items count set_stat set_active];
    first [ apply (tokens_leave _ _ n i); [done|done|done|by apply O|first [done | by repeat case_match]]
          | apply (tokens_keep _ _ n i); [done|done|done|intros Ha; first [done | by apply L in Ha | cbn; unfold caught; by repeat case_match]
                                         |rewrite Pc; first [done | cbn; unfold caught; by repeat case_match]] ]).
  - destruct (_ && _); [destruct (an_wait a); try discriminate E|]; injection E as <- <-;
      (apply (tokens_keep _ _ n i); [done|done|done|intros Ha; by apply L in Ha|done]).
  - destruct (_active_work e !! i_id i) as [k|] eqn:Ea; injection E as <- <-; cbn.
    + apply (tokens_keep _ _ n i); try done. rewrite Ea. intros [= ->]. by apply L.
    + apply (tokens_enter _ _ n i); try done. by rewrite Pc.
  - case_decide as Ha; injection E as <- <-; cbn; [by apply (tokens_leave _ _ n i)|]. by apply (tokens_keep _ _ n i).
  - discriminate E.
Qed.

Lemma step_tokens e e' : step cfg e e' -> tokens_ok (_active_work e) (e_items e) -> tokens_ok (_active_work e') (e_items e').
Proof.
  intros St T. destruct St as [e|e|e e' E|e|e|e|p e|id e|r e|now e e' k c c' Hw Hk E|e e' E|a e e' n i i' Hn E|now now' e Hr Hp|o e|p e Hm].
  all: try exact T.
  - unfold start. by repeat case_match.
  - unfold request_stop. by case_match.
  - unfold stop_step in E. destruct (e_stop e); [done|injection E as <-..]; cbn; try exact T.
    apply tokens_imap; [done|]. intros n i. by case_bool_decide.
  - unfold caller_step in E.
    assert (X : _active_work e' = _active_work e /\ e_items e' = e_items e); [|cbn; by destruct X as [-> ->]].
    destruct (c_pc c) as [| | | | |[|p l]|p [|t ts] l|p ts l|l| |]; try discriminate E; try (by injection E as <- <-).
    destruct (memory_estimate p (c_reported c) t) as [m| |]; try (by injection E as <- <-).
    destruct (enqueue _ _ _ _) as [r q]. by injection E as <- <-.
  - unfold get_task in E. destruct (dequeue (_work_queue e)) as [[[item|] q]|]; [| |done]; injection E as <-; cbn; [|exact T].
    by apply tokens_new.
  - cbn. by eapply item_step_tokens.
  - destruct (monitor_round_parts cfg now now' e) as (-> & -> & _). exact T.
Qed.

Lemma reach_tokens e : reach cfg e -> tokens_ok (_active_work e) (e_items e).
Proof.
  intros (epoch & now & R). assert (T : tokens_ok (_active_work (new_engine epoch now)) (e_items (new_engine epoch now))).
  { split; cbn; [intros id n Hn; by rewrite lookup_empty in Hn|by intros n i Hn; rewrite lookup_nil in Hn]. }
  revert T. induction R as [e|e1 e2 e3 St _ IH]; [done|]. intros T. by apply IH, (step_tokens e1).
Qed.
End tokens.

(** The pcs from the plugin lookup to the end of the transform. *)
Definition processing (i : Instance_) : bool := must_own (i_pc i).
Definition finished (i : Instance_) : bool := match i_pc i with IDone _ => true | _ => false end.

(** C29. However reports, workers, stops, restarts and exceptions interleave: at
    most one run of an item id is between its admission and the end of its
    transform, and its token is the one a stop would set; every token in
    _active_work belongs to a run that has not returned; so no exit path, the
    exceptions and the forced unwind included, leaves a token behind that
    would refuse later items of its id. *)
Theorem one_transform_per_item `{StdHeap} cfg e :
  reach cfg e ->
  (forall n m i j, e_items e !! n = Some i -> e_items e !! m = Some j -> processing i = true -> processing j = true ->
    i_id i = i_id j -> n = m) /\
  (forall n i, e_items e !! n = Some i -> processing i = true -> _active_work e !! i_id i = Some n) /\
  (forall id n, _active_work e !! id = Some n -> exists i, e_items e !! n = Some i /\ i_id i = id /\ finished i = false) /\
  (Forall (fun i => finished i = true) (e_items e) -> _active_work e = ∅).
Proof.
  intros R. destruct (reach_tokens cfg e R) as [T1 T2].
  assert (L : forall id n, _active_work e !! id = Some n -> exists i, e_items e !! n = Some i /\ i_id i = id /\ finished i = false).
  { intros id n Hn. destruct (T1 id n Hn) as (i & Hi & Hd & Ho). exists i. split_and!; [done..|]. unfold finished. by destruct (i_pc i). }
  split_and!; [|done|done|].
  - intros n m i j Hi Hj Pi Pj Hij. pose proof (T2 n i Hi Pi). pose proof (T2 m j Hj Pj). congruence.
  - intros F. apply map_empty. intros id. destruct (_active_work e !! id) as [n|] eqn:E; [|done].
    destruct (L id n E) as (i & Hi & _ & Hf). rewrite Forall_lookup in F. specialize (F n i Hi). cbn in F. congruence.
Qed.

(** ** The queue's contract *)

Section queue_facts.
Context `{StdHeap} (cfg : OptimizationConfig) (Hc : config_ok cfg) (P : WorkItem -> Prop).

Lemma enqueue_items item now q : item_ok item -> 0 <= now < 2 ^ 63 -> queue_ok cfg q ->
  Forall P (q_heap q) -> P (stamp cfg item now) -> Forall P (q_heap (enqueue cfg item now q).2).
Proof using Hc.
  intros Hi Hn Hq Hf Hs. unfold enqueue. repeat case_match; try done. cbn.
  assert (Ho : ordered (stamp cfg item now)) by (apply order_key_ordered; [done | apply Hi | done]).
  destruct (push_heap_spec heap_less (q_heap q) (stamp cfg item now)) as [Hp _]; [|apply Hq|].
  { apply heap_less_weak_order, Forall_app. split; [apply Hq | by apply Forall_singleton]. }
  rewrite Hp. apply Forall_app. split; [done|]. by apply Forall_singleton.
Qed.

Lemma dequeue_items q o q' : queue_ok cfg q -> WorkQueue.dequeue q = Some (o, q') -> Forall P (q_heap q) ->
  queue_ok cfg q' /\ Forall P (q_heap q') /\ (forall i, o = Some i -> P i) /\
  q_total_dequeued q' = match o with Some _ => u64 (q_total_dequeued q + 1) | None => q_total_dequeued q end /\
  q_total_cancelled q' = q_total_cancelled q /\ q_total_enqueued q' = q_total_enqueued q /\ q_duplicates q' = q_duplicates q.
Proof using Hc.
  intros Hq E Hf. unfold WorkQueue.dequeue in E. destruct (q_heap q) as [|x l] eqn:El.
  { destruct (q_stopped q); [|done]. injection E as <- <-. rewrite El. by split_and!. }
  pose proof (try_dequeue_ok cfg q Hc Hq) as Hq'.
  destruct (try_dequeue_spec cfg q Hc Hq) as (i & l' & E' & Hp & _); [by rewrite El|].
  rewrite E' in E, Hq'. injection E as <- <-. rewrite El in Hp. rewrite Hp in Hf. apply Forall_cons in Hf as [Hi Hf].
  split_and!; try done. intros ? [= <-]. done.
Qed.

Lemma cancel_items p q : queue_ok cfg q -> Forall P (q_heap q) ->
  Forall P (q_heap (cancel_if p q).2) /\
  q_total_cancelled (cancel_if p q).2 = (if 0 <? (cancel_if p q).1 then u64 (q_total_cancelled q + (cancel_if p q).1) else q_total_cancelled q) /\
  q_total_dequeued (cancel_if p q).2 = q_total_dequeued q /\ q_total_enqueued (cancel_if p q).2 = q_total_enqueued q /\
  q_duplicates (cancel_if p q).2 = q_duplicates q.
Proof using Hc.
  intros Hq Hf. rewrite (cancel_if_spec cfg) by done. cbn [fst snd].
  destruct (0 <? Z.of_nat (length (taken p (q_heap q)))); [|by split_and!]. cbn. split_and!; try done.
  destruct (content_ok_app (taken p (q_heap q)) (kept p (q_heap q)) (q_queued_ids q) (q_memory_usage q)) as [Hct _].
  { eapply content_ok_perm; [|apply Hq]. symmetry. apply taken_kept. }
  destruct (make_heap_spec heap_less (kept p (q_heap q))) as [Hp _]; [by apply heap_less_weak_order, Hct|]. rewrite Hp.
  rewrite (taken_kept p (q_heap q)) in Hf. by apply Forall_app in Hf as [_ ?].
Qed.

(** An enqueue that succeeds is counted, as queued or as a duplicate. *)
Lemma enqueue_counts item now q :
  let r := (enqueue cfg item now q).1 in let q' := (enqueue cfg item now q).2 in
  q_total_dequeued q' = q_total_dequeued q /\ q_total_cancelled q' = q_total_cancelled q /\
  u64 (q_total_enqueued q' + q_duplicates q') = u64 (q_total_enqueued q + q_duplicates q + match r with inr _ => 1 | inl _ => 0 end).
Proof using.
  unfold enqueue. repeat case_match; cbn; rewrite ?Z.add_0_r; split_and!; try done.
  - destruct (u64_self (q_duplicates q + 1)) as [k ->]. apply u64_eq. exists k. lia.
  - destruct (u64_self (q_total_enqueued q + 1)) as [k ->]. apply u64_eq. exists k. lia.
Qed.
End queue_facts.

Definition estimated (i : WorkItem) : Prop := kMinMemoryEstimate <= w_estimated_memory i <= kMaxMemoryEstimate.

Definition caller_ok (c : Caller) : Prop :=
  match c_pc c with
  | CPlan l | CFailed l => Forall plugin_ok l
  | CTargets p targets l | CQueued p targets l => Forall (fun t => fits 32 (tg_priority t)) targets /\ Forall plugin_ok l
  | _ => True
  end.

Section queue_part.
Context `{StdHeap} (cfg : EngineConfig) (Hc : config_ok (ec_queue cfg)).

Record queue_part (e : OptimizationEngine) : Prop := {
  qp_queue : queue_ok (ec_queue cfg) (_work_queue e);
  qp_queued : Forall estimated (q_heap (_work_queue e));
  qp_plugins : Forall plugin_ok (_plugins e);
  qp_callers : Forall caller_ok (e_callers e);
  qp_items : Forall (fun i => estimated (i_item i)) (e_items e) }.

Lemma clamp_estimated p r t m : estimated (make_item p r t m).
Proof using. unfold estimated, make_item, clamp, kMinMemoryEstimate, kMaxMemoryEstimate. cbn. repeat case_match; lia. Qed.

Lemma make_item_ok p r t m : fits 32 (tg_priority t) -> item_ok (make_item p r t m).
Proof using.
  intros Ht. split; [done|]. destruct (clamp_estimated p r t m) as [L U]. unfold kMinMemoryEstimate, kMaxMemoryEstimate in *. unfold fits. lia.
Qed.

(** [on_write_complete] hands the queue well-formed items. *)
Lemma caller_step_queue now e c e' c' : 0 <= now < 2 ^ 63 -> queue_part e -> caller_ok c -> caller_step cfg now e c = Some (e', c') ->
  queue_ok (ec_queue cfg) (_work_queue e') /\ Forall estimated (q_heap (_work_queue e')) /\ caller_ok c' /\
  _plugins e' = _plugins e /\ e_callers e' = e_callers e /\ e_items e' = e_items e.
Proof using Hc.
  intros Hn [Q1 Q2 Q3 Q4 Q5] Hk E. unfold caller_step in E. unfold caller_ok in Hk.
  destruct (c_pc c) as [| | | | |[|p l]|p [|t ts] l|p ts l|l| |] eqn:Pc; try discriminate E.
  all: try (injection E as <- <-; unfold caller_ok; cbn; split_and!; try done; by repeat case_match).
  - injection E as <- <-. apply Forall_cons in Hk as [Hp Hl]. unfold caller_ok; cbn. split_and!; try done.
    destruct (pl_plan_optimization p _ _ _ _ _) as [ts| |] eqn:Ep; [|done..]. split; [by eapply Hp|done].
  - injection E as <- <-. destruct Hk as [_ Hl]. by split_and!.
  - destruct Hk as [Hts Hl]. apply Forall_cons in Hts as [Ht Hts].
    destruct (memory_estimate p (c_reported c) t) as [m| |]; try (injection E as <- <-; by split_and!).
    pose proof (make_item_ok p (c_reported c) t m Ht) as Hi. pose proof (enqueue_ok (ec_queue cfg) _ now _ Hc Hi Hn Q1) as Hq.
    pose proof (enqueue_items (ec_queue cfg) Hc estimated _ now _ Hi Hn Q1 Q2 (clamp_estimated _ _ _ _)) as He.
    destruct (enqueue _ _ _ _) as [r q]. injection E as <- <-. cbn in *. split_and!; try done. by destruct r.
  - injection E as <- <-. destruct Hk as [Hts Hl]. by split_and!.
Qed.

Lemma item_step_frame a n e i e' i' : item_step a n e i = Some (e', i') ->
  _work_queue e' = _work_queue e /\ _plugins e' = _plugins e /\ e_callers e' = e_callers e /\ e_items e' = e_items e /\ i_item i' = i_item i.
Proof using. intros E. unfold item_step, held_step in E. destruct (i_pc _); cbn [mbind option_bind] in E; by repeat (case_match; cbn [mbind option_bind] in E); simplify_eq. Qed.

Lemma step_queue_part e e' : step cfg e e' -> queue_part e -> queue_part e'.
Proof using Hc.
  intros St Q. pose proof Q as [Q1 Q2 Q3 Q4 Q5].
  destruct St as [e|e|e e' E|e|e|e|p e Hp|id e|r e|now e e' k c c' Hw Hk E|e e' E|a e e' n i i' Hn E|now now' e Hr Hp|o e|p e Hm].
  all: try (by constructor).
  - unfold start. repeat case_match; try done. constructor; try done. by destruct Q1; split.
  - unfold request_stop. case_match; [done|]. by constructor.
  - unfold stop_step in E. destruct (e_stop e); [done|injection E as <-..]; constructor; try done; cbn.
    + by destruct Q1; split.
    + unfold cancel_active. apply Forall_lookup. intros j x Hx. rewrite list_lookup_imap in Hx.
      destruct (e_items e !! j) as [y|] eqn:Ey; [|done]. cbn in Hx. injection Hx as <-.
      rewrite Forall_lookup in Q5. specialize (Q5 j y Ey). by case_bool_decide.
  - constructor; try done. cbn. apply Forall_app. split; [done|]. by apply Forall_singleton.
  - constructor; try done. cbn. rewrite Forall_forall in Q3 |- *. intros x Hx. apply Q3. apply list_elem_of_In, filter_In in Hx as [Hx _].
    by apply list_elem_of_In.
  - constructor; try done. cbn. apply Forall_app. split; [done|]. by apply Forall_singleton.
  - rewrite Forall_lookup in Q4. destruct (caller_step_queue now e c e' c' Hw Q (Q4 k c Hk) E) as (A1 & A2 & A3 & A4 & A5 & A6).
    constructor; cbn; rewrite ?A4, ?A5, ?A6; try done. apply Forall_insert; [|done]. by apply Forall_lookup.
  - unfold get_task in E. destruct (WorkQueue.dequeue (_work_queue e)) as [[o q]|] eqn:Ed; [|done].
    destruct (dequeue_items (ec_queue cfg) Hc estimated _ _ _ Q1 Ed Q2) as (A1 & A2 & A3 & _).
    destruct o as [item|]; injection E as <-; constructor; cbn; try done. apply Forall_app. split; [done|].
    apply Forall_singleton. by apply A3.
  - destruct (item_step_frame a n e i e' i' E) as (A1 & A2 & A3 & A4 & A5). constructor; cbn; rewrite ?A1, ?A2, ?A3, ?A4; try done.
    apply Forall_insert; [done|]. rewrite A5. rewrite Forall_lookup in Q5. by apply (Q5 n i).
  - destruct (monitor_round_parts cfg now now' e) as (_ & A2 & A3 & A4 & A5 & _). constructor; rewrite ?A2, ?A3, ?A4, ?A5; try done.
    + destruct (sheds cfg now e); [|done]. by apply cancel_if_ok.
    + destruct (sheds cfg now e); [|done]. by apply (cancel_items (ec_queue cfg)).
Qed.

Lemma reach_queue_part e : reach cfg e -> queue_part e.
Proof using Hc.
  intros (epoch & now & R). assert (Q : queue_part (new_engine epoch now)).
  { constructor; cbn; try done. by apply new_queue_ok. }
  revert Q. induction R as [e|e1 e2 e3 St _ IH]; [done|]. intros Q. by apply IH, (step_queue_part e1).
Qed.
End queue_part.

(** ** The counters *)

Definition ended (x : ending) (i : Instance_) : bool :=
  match i_pc i with IErase y | IGuard y | IDone y => bool_decide (y = x) | _ => false end.
(** Its enqueue succeeded, [queued] is not counted yet. *)
Definition uncounted (c : Caller) : bool := match c_pc c with CQueued _ _ _ => true | _ => false end.

Definition bump (b : bool) (x : Z) : Z := if b then u64 (x + 1) else x.

Lemma bump_u64 b x t : x = u64 t -> bump b x = u64 (t + Z.b2z b).
Proof. intros ->. destruct b; cbn; [apply AdaptivePool.u64_add_l|by rewrite Z.add_0_r]. Qed.

Section counters.
Context `{StdHeap} (cfg : EngineConfig) (Hc : config_ok (ec_queue cfg)).

Record counts_ok (e : OptimizationEngine) : Prop := {
  ct_completed : completed (_stat e) = u64 (tally (ended ECompleted) (e_items e));
  ct_duplicates : duplicates (_stat e) = u64 (tally (ended EDuplicate) (e_items e));
  ct_cancelled : cancelled (_stat e) = u64 (tally (ended ECancelled) (e_items e) + q_total_cancelled (_work_queue e));
  ct_failed : failed (_stat e) = u64 (tally (ended EFailed) (e_items e) + total c_failures (e_callers e));
  ct_queued : queued (_stat e) = u64 (q_total_enqueued (_work_queue e) + q_duplicates (_work_queue e) - tally uncounted (e_callers e));
  ct_dequeued : q_total_dequeued (_work_queue e) = u64 (Z.of_nat (length (e_items e))) }.

(** A step of a run counts its ending, once. *)
Lemma item_step_counts a n e i e' i' : item_step a n e i = Some (e', i') ->
  queued (_stat e') = queued (_stat e) /\
  exists bc bd bx bf, completed (_stat e') = bump bc (completed (_stat e)) /\ duplicates (_stat e') = bump bd (duplicates (_stat e)) /\
    cancelled (_stat e') = bump bx (cancelled (_stat e)) /\ failed (_stat e') = bump bf (failed (_stat e)) /\
    Z.b2z (ended ECompleted i') = Z.b2z (ended ECompleted i) + Z.b2z bc /\ Z.b2z (ended EDuplicate i') = Z.b2z (ended EDuplicate i) + Z.b2z bd /\
    Z.b2z (ended ECancelled i') = Z.b2z (ended ECancelled i) + Z.b2z bx /\ Z.b2z (ended EFailed i') = Z.b2z (ended EFailed i) + Z.b2z bf.
Proof using.
  intros E. unfold item_step, held_step in E. unfold ended. destruct (i_pc i) eqn:Pc; cbn [mbind option_bind] in E; try discriminate E.
  all: try (injection E as <- <-; split; [done|]; exists false, false, false, false; cbn [i_at i_pc Z.b2z]; rewrite ?Z.add_0_r;
    unfold pass_entered;
    repeat match goal with
    | |- context [caught ?o _] => destruct o; cbn [caught]
    | |- context [if ?b then _ else _] => destruct b
    | |- context [match ?r with TOk => _ | TCancelled => _ | TError => _ end] => destruct r
    end; by split_and!).
  - destruct (_ && _); [destruct (an_wait a); try discriminate E|]; injection E as <- <-; (split; [done|]); by exists false, false, false, false.
  - destruct (_active_work e !! i_id i); injection E as <- <-; (split; [done|]); by exists false, false, false, false.
  - injection E as <- <-. split; [done|]. by exists false, true, false, false.
  - injection E as <- <-. split; [done|]. by exists false, false, false, true.
  - injection E as <- <-. split; [done|]. by exists false, false, true, false.
  - injection E as <- <-. split; [done|]. by exists false, false, false, true.
  - injection E as <- <-. split; [done|]. by exists true, false, false, false.
  - injection E as <- <-. split; [done|]. by exists false, false, false, true.
  - injection E as <- <-. split; [by case_decide|]. exists false, false, false, false. cbn [i_at i_pc Z.b2z]. rewrite !Z.add_0_r.
    case_decide; by split_and!.
Qed.

(** A report that is planned. *)
Lemma caller_step_counts now e c e' c' : caller_step cfg now e c = Some (e', c') ->
  completed (_stat e') = completed (_stat e) /\ duplicates (_stat e') = duplicates (_stat e) /\ cancelled (_stat e') = cancelled (_stat e) /\
  q_total_cancelled (_work_queue e') = q_total_cancelled (_work_queue e) /\ q_total_dequeued (_work_queue e') = q_total_dequeued (_work_queue e) /\
  e_items e' = e_items e /\ e_callers e' = e_callers e /\
  (exists b, failed (_stat e') = bump b (failed (_stat e)) /\ c_failures c' = c_failures c + Z.b2z b) /\
  (exists bq be, queued (_stat e') = bump bq (queued (_stat e)) /\
    u64 (q_total_enqueued (_work_queue e') + q_duplicates (_work_queue e')) =
      u64 (q_total_enqueued (_work_queue e) + q_duplicates (_work_queue e) + Z.b2z be) /\
    Z.b2z (uncounted c') = Z.b2z (uncounted c) + Z.b2z be - Z.b2z bq).
Proof using.
  intros E. unfold caller_step in E. unfold uncounted.
  destruct (c_pc c) as [| | | | |[|p l]|p [|t ts] l|p ts l|l| |] eqn:Pc; try discriminate E.
  all: try (injection E as <- <-; cbn [count set_stat _stat _work_queue c_at c_pc c_failures e_items e_callers];
    split_and!; try done; [exists false; cbn; by rewrite Z.add_0_r|exists false, false; cbn [bump Z.b2z]; rewrite ?Z.add_0_r, ?Z.sub_0_r;
      split_and!; try done; by repeat case_match]).
  - destruct (memory_estimate p (c_reported c) t) as [m| |].
    + pose proof (enqueue_counts (ec_queue cfg) (make_item p (c_reported c) t m) now (_work_queue e)) as (N1 & N2 & N3).
      destruct (enqueue _ _ _ _) as [r q]. injection E as <- <-. cbn in *. split_and!; try done; [exists false; cbn; by rewrite Z.add_0_r|].
      destruct r as [x|x]; [exists false, false|exists false, true]; by split_and!.
    + injection E as <- <-. cbn. split_and!; try done; [exists false; cbn; by rewrite Z.add_0_r|]. exists false, false. cbn. by rewrite Z.add_0_r.
    + injection E as <- <-. cbn. split_and!; try done; [exists false; cbn; by rewrite Z.add_0_r|]. exists false, false. cbn. by rewrite Z.add_0_r.
  - injection E as <- <-. cbn. split_and!; try done; [exists false; cbn; by rewrite Z.add_0_r|]. exists true, false. cbn. by rewrite Z.add_0_r.
  - injection E as <- <-. cbn. split_and!; try done; [by exists true|]. exists false, false. cbn. by rewrite Z.add_0_r.
Qed.

Lemma u64_shifted a b k : u64 a = u64 b -> u64 (a + k) = u64 (b + k).
Proof using. rewrite !u64_eq. intros [x ->]. exists x. lia. Qed.

Lemma caller_counts_ok now e k c e' c' : counts_ok e -> e_callers e !! k = Some c -> caller_step cfg now e c = Some (e', c') ->
  counts_ok (set_programs e' (<[k := c']> (e_callers e')) (e_items e') (e_stop e')).
Proof using.
  intros [N1 N2 N3 N4 N5 N6] Hk E.
  pose proof (caller_step_counts now e c e' c' E) as (B1 & B2 & B3 & A1 & A2 & A3 & A4 & (b & Ef & Hf) & bq & be & Eq & Hq & Hu).
  constructor; cbn [set_programs _stat _work_queue e_items e_callers]; rewrite ?A1, ?A2, ?A3, ?A4, ?B1, ?B2, ?B3; try done.
  - rewrite Ef, (bump_u64 _ _ _ N4), (total_insert c_failures _ k c c' Hk), Hf. f_equal. lia.
  - rewrite Eq, (bump_u64 _ _ _ N5), (tally_insert uncounted _ k c c' Hk), Hu.
    replace (q_total_enqueued (_work_queue e') + q_duplicates (_work_queue e') -
      (tally uncounted (e_callers e) - Z.b2z (uncounted c) + (Z.b2z (uncounted c) + Z.b2z be - Z.b2z bq)))
      with (q_total_enqueued (_work_queue e') + q_duplicates (_work_queue e') + (Z.b2z bq - Z.b2z be - tally uncounted (e_callers e))) by lia.
    rewrite (u64_shifted _ _ _ Hq). f_equal. lia.
Qed.

Lemma item_counts_ok a e n i e' i' : counts_ok e -> e_items e !! n = Some i -> item_step a n e i = Some (e', i') ->
  counts_ok (set_programs e' (e_callers e') (<[n := i']> (e_items e')) (e_stop e')).
Proof using.
  intros [N1 N2 N3 N4 N5 N6] Hn E. destruct (item_step_frame a n e i e' i' E) as (A1 & _ & A3 & A4 & _).
  destruct (item_step_counts a n e i e' i' E) as (Q & bc & bd & bx & bf & B1 & B2 & B3 & B4 & D1 & D2 & D3 & D4).
  constructor; cbn [set_programs _stat _work_queue e_items e_callers]; rewrite ?A1, ?A3, ?A4, ?Q, ?length_insert; try done.
  - rewrite B1, (bump_u64 _ _ _ N1), (tally_insert _ _ n i i' Hn), D1. f_equal. lia.
  - rewrite B2, (bump_u64 _ _ _ N2), (tally_insert _ _ n i i' Hn), D2. f_equal. lia.
  - rewrite B3, (bump_u64 _ _ _ N3), (tally_insert _ _ n i i' Hn), D3. f_equal. lia.
  - rewrite B4, (bump_u64 _ _ _ N4), (tally_insert _ _ n i i' Hn), D4. f_equal. lia.
Qed.

Lemma tally_imap (p : Instance_ -> bool) f items : (forall n i, p (f n i) = p i) -> tally p (imap f items) = tally p items.
Proof using.
  unfold tally, total. revert f. induction items as [|i items IH]; intros f Hf; [done|]. cbn. rewrite Hf. f_equal.
  apply IH. intros n j. apply Hf.
Qed.

Lemma step_counts e e' : step cfg e e' -> queue_part cfg e -> counts_ok e -> counts_ok e'.
Proof using Hc.
  intros St [Q1 Q2 _ _ _] N. pose proof N as [N1 N2 N3 N4 N5 N6].
  destruct St as [e|e|e e' E|e|e|e|p e Hp|id e|r e|now e e' k c c' Hw Hk E|e e' E|a e e' n i i' Hn E|now now' e Hr Hp|o e|p e Hm].
  all: try (by constructor).
  - unfold start. by repeat case_match.
  - unfold request_stop. by case_match.
  - unfold stop_step in E. destruct (e_stop e); [done|injection E as <-..]; try (by constructor).
    unfold cancel_active. constructor; cbn [set_programs _stat _work_queue e_items e_callers]; rewrite ?length_imap; try done.
    all: rewrite tally_imap; [done|]; intros n i; by case_bool_decide.
  - constructor; cbn [set_programs _stat _work_queue e_items e_callers]; rewrite ?total_concat, ?tally_app; try done.
    + rewrite N4. f_equal. unfold total; cbn. lia.
    + rewrite N5. f_equal. unfold tally, total; cbn. lia.
  - by eapply caller_counts_ok.
  - unfold get_task in E. destruct (WorkQueue.dequeue (_work_queue e)) as [[o q]|] eqn:Ed; [|done].
    destruct (dequeue_items (ec_queue cfg) Hc estimated _ _ _ Q1 Ed Q2) as (_ & _ & _ & A1 & A2 & A3 & A4).
    destruct o as [item|]; injection E as <-; constructor; cbn [with_queue set_parts set_programs _stat _work_queue e_items e_callers];
      rewrite ?A1, ?A2, ?A3, ?A4, ?tally_app; try done.
    + by rewrite N1, <- (Z.add_0_r (tally _ (e_items e))) at 1.
    + by rewrite N2, <- (Z.add_0_r (tally _ (e_items e))) at 1.
    + rewrite N3. f_equal. change (tally (ended ECancelled) [_]) with 0. lia.
    + rewrite N4. f_equal. change (tally (ended EFailed) [_]) with 0. lia.
    + rewrite N6, length_app, AdaptivePool.u64_add_l. f_equal. cbn. lia.
  - by eapply item_counts_ok.
  - destruct (monitor_round_parts cfg now now' e) as (_ & A2 & A3 & A4 & A5 & A6).
    destruct (cancel_items (ec_queue cfg) Hc estimated w_deferrable _ Q1 Q2) as (_ & B1 & B2 & B3 & B4).
    fold cancel_deferrable in B1, B2, B3, B4. destruct (sheds cfg now e); cbn [andb] in A6.
    + constructor; rewrite ?A2, ?A3, ?A5, ?A6, ?B1, ?B2, ?B3, ?B4; try done; destruct (0 <? (cancel_deferrable (_work_queue e)).1); try done.
      cbn. rewrite N3. unfold u64, wrap. rewrite Zplus_mod_idemp_l, Zplus_mod_idemp_r. f_equal. lia.
    + constructor; by rewrite ?A2, ?A3, ?A5, ?A6.
Qed.

Lemma reach_counts e : reach cfg e -> counts_ok e.
Proof using Hc.
  intros (epoch & now & R). assert (Q : queue_part cfg (new_engine epoch now)).
  { constructor; cbn; try done. by apply new_queue_ok. }
  assert (N : counts_ok (new_engine epoch now)) by (by constructor).
  revert Q N. induction R as [e|e1 e2 e3 St _ IH]; [done|]. intros Q N.
  apply IH; [by apply (step_queue_part cfg Hc e1)|by apply (step_counts e1)].
Qed.
End counters.

(** C30. The engine's counters account for every item.  In every reachable state
    and modulo 2^64: each dequeued item is one entry of [e_items], from the
    worker that took it on; the entries that have ended are counted once, by
    how they ended: completed, duplicate, cancelled or failed, while those a
    stopping pool abandoned before the run, those dropped before the read and
    those unwound are counted nowhere; the cancelled count has besides exactly
    the queued items that load shedding removed, the failed count exactly the
    plugin calls of [on_write_complete] that threw; and queued counts the
    accepted enqueues, duplicates in the queue included, as soon as their
    callers have counted them. *)
Theorem engine_counts_items `{StdHeap} cfg e :
  config_ok (ec_queue cfg) -> reach cfg e ->
  completed (_stat e) = u64 (tally (ended ECompleted) (e_items e)) /\
  duplicates (_stat e) = u64 (tally (ended EDuplicate) (e_items e)) /\
  cancelled (_stat e) = u64 (tally (ended ECancelled) (e_items e) + q_total_cancelled (_work_queue e)) /\
  failed (_stat e) = u64 (tally (ended EFailed) (e_items e) + total c_failures (e_callers e)) /\
  queued (_stat e) = u64 (q_total_enqueued (_work_queue e) + q_duplicates (_work_queue e) - tally uncounted (e_callers e)) /\
  q_total_dequeued (_work_queue e) = u64 (Z.of_nat (length (e_items e))).
Proof. intros Hc R. by destruct (reach_counts cfg Hc e R). Qed.

Lemma memory_of_least l : Forall estimated l -> 1024 * Z.of_nat (length l) <= memory_of l.
Proof. induction 1 as [|i l [Hi _] _ IH]; [done|]. unfold kMinMemoryEstimate in Hi. cbn [memory_of foldr length]. fold (memory_of l). lia. Qed.

(** The engine honours the queue's contract: whatever the plugins plan and
    estimate, every item it queues or processes is estimated between 1 KiB and
    1 GiB, the queue's invariant holds in every reachable state, and the queue
    never holds more items than its memory budget has kibibytes. *)
Theorem engine_queue_bounded `{StdHeap} cfg e :
  config_ok (ec_queue cfg) -> reach cfg e ->
  queue_ok (ec_queue cfg) (_work_queue e) /\
  Forall (fun i => 1024 <= w_estimated_memory i <= 2 ^ 30) (q_heap (_work_queue e) ++ map i_item (e_items e)) /\
  1024 * size (_work_queue e) <= max_memory_bytes (ec_queue cfg).
Proof.
  intros Hc R. destruct (reach_queue_part cfg Hc e R) as [Q1 Q2 _ _ Q5]. split_and!; [done| |].
  - apply Forall_app. split; [done|]. by apply Forall_map.
  - destruct Q1 as [[_ _ Hm _ _] _ _ Hb]. pose proof (memory_of_least _ Q2). unfold size. lia.
Qed.

(** ** Load shedding ends after a cooldown *)

Section hysteresis.
Context `{StdHeap} (cfg : EngineConfig).

(** What a turn sees: not above the high watermark, and below the low one. *)
Definition low_round (now : Z) (e : OptimizationEngine) : bool :=
  let m := update_metrics (ec_load cfg) now (_load_monitor e) in
  negb (ec_enable_load_shedding cfg && is_above_high_watermark (ec_load cfg) m) && is_below_low_watermark (ec_load cfg) m.

Definition same_shedding (e e' : OptimizationEngine) : Prop :=
  _load_shedding e' = _load_shedding e /\ _in_cooldown e' = _in_cooldown e /\ _load_drop_time e' = _load_drop_time e.

(** The turns of the monitoring loop in an execution without [resume]: for each
    its clock reading and whether it saw the load low. *)
Inductive turns : list (Z * bool) -> OptimizationEngine -> OptimizationEngine -> Prop :=
  | turns_nil e : turns [] e e
  | turns_other l e e' e'' : step cfg e e' -> same_shedding e e' -> turns l e' e'' -> turns l e e''
  | turns_round now now' l e e'' : turns l (monitor_round cfg now now' e) e'' -> turns ((now', low_round now e) :: l) e e''.

(** Every step is a turn, a [resume], or leaves the shedding state alone. *)
Lemma step_shedding e e' : step cfg e e' ->
  same_shedding e e' \/ e' = resume e \/ exists now now', e' = monitor_round cfg now now' e.
Proof.
  intros St. destruct St as [e|e|e e' E|e|e|e|p e Hp|id e|r e|now e e' k c c' Hw Hk E|e e' E|a e e' n i i' Hn E|now now' e Hr Hp|o e|p e Hm].
  all: try (by left). all: try (by right; left).
  - left. unfold start. by repeat case_match.
  - left. unfold request_stop. by case_match.
  - left. unfold stop_step in E. destruct (e_stop e); [done|by injection E as <-..].
  - left. unfold caller_step in E. destruct (c_pc c) as [| | | | |[|p l]|p [|t ts] l|p ts l|l| |]; try discriminate E; try (by injection E as <- <-).
    destruct (memory_estimate p (c_reported c) t) as [m| |]; try (by injection E as <- <-).
    destruct (enqueue _ _ _ _) as [r q]. by injection E as <- <-.
  - left. unfold get_task in E. destruct (WorkQueue.dequeue (_work_queue e)) as [[[item|] q]|]; [| |done]; by injection E as <-.
  - left. unfold item_step, held_step in E. destruct (i_pc _); cbn [mbind option_bind] in E; by repeat (case_match; cbn [mbind option_bind] in E); simplify_eq.
  - right. right. by exists now, now'.
Qed.

Lemma shed_shedding e : _load_shedding (shed e) = _load_shedding e /\ _in_cooldown (shed e) = _in_cooldown e /\ _load_drop_time (shed e) = _load_drop_time e.
Proof. unfold shed. destruct (cancel_deferrable (_work_queue e)) as [n q]. by destruct (0 <? n). Qed.

(** A turn while load is shed. *)
Lemma round_while_shedding now now' e : _load_shedding e = true ->
  let e' := monitor_round cfg now now' e in
  if low_round now e then
    if _in_cooldown e then
      if ec_load_shedding_cooldown cfg * 1000000 <=? now' - _load_drop_time e then _load_shedding e' = false
      else same_shedding e e'
    else _load_shedding e' = true /\ _in_cooldown e' = true /\ _load_drop_time e' = now'
  else _load_shedding e' = true /\ _in_cooldown e' = false.
Proof.
  intros Hs. unfold low_round, monitor_round, same_shedding. cbn [_load_monitor with_monitor set_parts].
  set (m := update_metrics _ _ _). destruct (ec_enable_load_shedding cfg && is_above_high_watermark (ec_load cfg) m); cbn.
  - rewrite Hs. cbn. rewrite Hs. by destruct (negb (_paused e)).
  - rewrite Hs. cbn. destruct (is_below_low_watermark (ec_load cfg) m); cbn.
    + destruct (_in_cooldown e) eqn:Ec; cbn; [|rewrite Hs; by destruct (negb (_paused e))].
      destruct (_ <=? _); cbn; [by destruct (negb (_paused e))|]. rewrite ?Hs. destruct (negb (_paused e)); cbn; by rewrite ?Ec, ?Hs.
    + rewrite Hs. by destruct (negb (_paused e)).
Qed.

(** A stretch of low turns that spans the cooldown. *)
Definition low_stretch (l : list (Z * bool)) : Prop :=
  exists l1 t0 mid t1 l2, l = l1 ++ (t0, true) :: mid ++ (t1, true) :: l2 /\ Forall (fun x => x.2 = true) mid /\
    ec_load_shedding_cooldown cfg * 1000000 <= t1 - t0.
(** The rest of one that began before. *)
Definition low_rest (t0 : Z) (l : list (Z * bool)) : Prop :=
  exists mid t1 l2, l = mid ++ (t1, true) :: l2 /\ Forall (fun x => x.2 = true) mid /\ ec_load_shedding_cooldown cfg * 1000000 <= t1 - t0.

Lemma turns_stretch l e e' : turns l e e' -> _load_shedding e = true -> _load_shedding e' = false ->
  low_stretch l \/ (_in_cooldown e = true /\ low_rest (_load_drop_time e) l).
Proof.
  induction 1 as [e|l e e1 e' _ (S1 & S2 & S3) _ IH|now now' l e e' _ IH]; intros Hs Hf; [congruence| |].
  - rewrite S1, S2, S3 in IH. by apply IH.
  - pose proof (round_while_shedding now now' e Hs) as R. cbv zeta in R. destruct (low_round now e).
    + destruct (_in_cooldown e) eqn:Ec.
      * destruct (Z.leb_spec (ec_load_shedding_cooldown cfg * 1000000) (now' - _load_drop_time e)) as [Hl|Hl].
        -- right. split; [done|]. exists [], now', l. by split_and!.
        -- destruct R as (R1 & R2 & R3). rewrite R1, R2, R3 in IH. destruct (IH Hs Hf) as [(l1 & t0 & mid & t1 & l2 & -> & F & C)|[_ (mid & t1 & l2 & -> & F & C)]].
           ++ left. exists ((now', true) :: l1), t0, mid, t1, l2. by split_and!.
           ++ right. split; [done|]. exists ((now', true) :: mid), t1, l2. split_and!; [done|by constructor|done].
      * destruct R as (R1 & R2 & R3). rewrite R1, R2, R3 in IH. left.
        destruct (IH eq_refl Hf) as [(l1 & t0 & mid & t1 & l2 & -> & F & C)|[_ (mid & t1 & l2 & -> & F & C)]].
        -- exists ((now', true) :: l1), t0, mid, t1, l2. by split_and!.
        -- exists [], now', mid, t1, l2. by split_and!.
    + destruct R as (R1 & R2). rewrite R1, R2 in IH. destruct (IH eq_refl Hf) as [(l1 & t0 & mid & t1 & l2 & -> & F & C)|[? _]]; [|done].
      left. exists ((now', false) :: l1), t0, mid, t1, l2. by split_and!.
Qed.
End hysteresis.

(** The turn that starts shedding. *)
Lemma shedding_starts `{StdHeap} cfg now now' e : sheds cfg now e = true ->
  let e' := monitor_round cfg now now' e in
  _load_shedding e' = true /\ _in_cooldown e' = false /\ p_paused (_thread_pool e') = true.
Proof.
  unfold sheds. intros [Ha Hs]%andb_true_iff. unfold monitor_round. cbn [_load_monitor with_monitor set_parts].
  rewrite Ha. apply negb_true_iff in Hs. cbn. rewrite Hs. cbn. unfold shed. cbn.
  destruct (cancel_deferrable (_work_queue e)) as [n q]. cbn. destruct (0 <? n); cbn; rewrite andb_false_r; done.
Qed.

(** A turn above the high watermark while load is already being shed. *)
Lemma shedding_goes_on `{StdHeap} cfg now now' e : _load_shedding e = true ->
  ec_enable_load_shedding cfg && is_above_high_watermark (ec_load cfg) (update_metrics (ec_load cfg) now (_load_monitor e)) = true ->
  let e' := monitor_round cfg now now' e in
  _load_shedding e' = true /\ _thread_pool e' = _thread_pool e /\ _work_queue e' = _work_queue e.
Proof.
  intros Hs Ha. unfold monitor_round. cbn [_load_monitor with_monitor set_parts]. rewrite Ha. cbn. rewrite Hs. cbn. rewrite Hs.
  by destruct (_paused e).
Qed.

(** C31. A load-shedding episode.  With load shedding enabled, the turn of the
    monitoring loop that finds the load above the high watermark while none is
    being shed pauses the pool and leaves no deferrable item in the queue.
    However the execution goes on (except for an embedder's [resume]), a later
    turn above the watermark while load is still being shed touches neither the
    pool nor the queue, and shedding ends only after a stretch of consecutive
    turns all of which found the load below the low watermark, and whose first
    and last are load_shedding_cooldown apart. *)
Theorem load_shedding_cycle `{StdHeap} cfg e0 now now' :
  config_ok (ec_queue cfg) -> reach cfg e0 -> sheds cfg now e0 = true ->
  let e := monitor_round cfg now now' e0 in
  _load_shedding e = true /\ p_paused (_thread_pool e) = true /\
  Forall (fun i => w_deferrable i = false) (q_heap (_work_queue e)) /\
  forall l e', turns cfg l e e' ->
    (_load_shedding e' = false -> low_stretch cfg l) /\
    forall t t', _load_shedding e' = true ->
      ec_enable_load_shedding cfg && is_above_high_watermark (ec_load cfg) (update_metrics (ec_load cfg) t (_load_monitor e')) = true ->
      _thread_pool (monitor_round cfg t t' e') = _thread_pool e' /\ _work_queue (monitor_round cfg t t' e') = _work_queue e'.
Proof.
  intros Hc R Hs. cbv zeta. destruct (shedding_starts cfg now now' e0 Hs) as (S1 & S2 & S3). split_and!; [done..| |].
  - destruct (monitor_round_parts cfg now now' e0) as (_ & _ & _ & _ & -> & _). rewrite Hs.
    destruct (reach_queue_part cfg Hc e0 R) as [Q1 _ _ _ _]. unfold cancel_deferrable. rewrite (cancel_if_spec (ec_queue cfg)) by done. cbn [snd].
    destruct (content_ok_app (taken w_deferrable (q_heap (_work_queue e0))) (kept w_deferrable (q_heap (_work_queue e0)))
      (q_queued_ids (_work_queue e0)) (q_memory_usage (_work_queue e0))) as [Hct _].
    { eapply content_ok_perm; [|apply Q1]. symmetry. apply taken_kept. }
    assert (K : forall l, Forall (fun i => w_deferrable i = false) (kept w_deferrable l)).
    { intros l. apply Forall_forall. intros i Hi. apply list_elem_of_In, filter_In in Hi as [_ Hi]. by apply negb_true_iff. }
    destruct (make_heap_spec heap_less (kept w_deferrable (q_heap (_work_queue e0)))) as [Hp _]; [by apply heap_less_weak_order, Hct|].
    destruct (0 <? _) eqn:El; cbn; [by rewrite Hp|]. rewrite <- (kept_all w_deferrable); [apply K|].
    destruct (taken w_deferrable (q_heap (_work_queue e0))); [done|]. by rewrite Z.ltb_ge in El.
  - intros l e' T. split; [|intros t t' Hs' Ha; by destruct (shedding_goes_on cfg t t' e' Hs' Ha) as (_ & ? & ?)].
    intros Hf. destruct (turns_stretch cfg l _ _ T S1 Hf) as [?|[Hi _]]; [done|congruence].
Qed.

(** ** Executions *)

Inductive act :=
  | Start | Stop | Stopping | Join | Pause | Resume | Register (p : OptimizationPlugin) | Report (r : Reported)
  | Call (now : Z) (k : nat) | GetTask | Item (a : Answers) (n : nat) | Round (now now' : Z) | Load (o : LoadMonitor.op)
  | PoolAct (a : AdaptivePool.act).

Section exec.
Context `{StdHeap} (cfg : EngineConfig).

Definition idle_pool (e : OptimizationEngine) : bool := AdaptivePool.idle (_thread_pool e).
Definition not_stopping (e : OptimizationEngine) : bool := match e_stop e with SNone => true | _ => false end.

Definition exec (a : act) (e : OptimizationEngine) : option OptimizationEngine :=
  match a with
  | Start => if not_stopping e && idle_pool e then Some (start cfg e).2 else None
  | Stop => if not_stopping e then Some (request_stop e) else None
  | Stopping => stop_step e
  | Join => if negb (_running e) && not_stopping e && idle_pool e then Some (join_threads e) else None
  | Pause => Some (pause e)
  | Resume => Some (resume e)
  | Register p => Some (register_plugin p e)
  | Report r => Some (set_programs e (e_callers e ++ [{| c_reported := r; c_pc := CRunning; c_failures := 0 |}]) (e_items e) (e_stop e))
  | Call now k =>
      if (0 <=? now) && (now <? 2 ^ 63) then
        c ← e_callers e !! k; x ← caller_step cfg now e c;
        Some (set_programs x.1 (<[k := x.2]> (e_callers x.1)) (e_items x.1) (e_stop x.1))
      else None
  | GetTask => get_task e
  | Item a n =>
      i ← e_items e !! n; x ← item_step a n e i;
      Some (set_programs x.1 (e_callers x.1) (<[n := x.2]> (e_items x.1)) (e_stop x.1))
  | Round now now' => if _running e && idle_pool e then Some (monitor_round cfg now now' e) else None
  | Load o => Some (with_monitor e (LoadMonitor.run_op (ec_load cfg) (_load_monitor e) o))
  | PoolAct a =>
      match a with
      | Work _ _ | Ctl _ _ | Async _ => p ← AdaptivePool.exec (ec_pool cfg) a (_thread_pool e); Some (with_pool e p)
      | _ => None
      end
  end.

Fixpoint run (l : list act) (e : OptimizationEngine) : option OptimizationEngine :=
  match l with [] => Some e | a :: l => e ← exec a e; run l e end.

Definition act_ok (a : act) : Prop := match a with Register p => plugin_ok p | _ => True end.

Lemma idle_pool_ctl e : idle_pool e = true -> p_ctl (_thread_pool e) = CIdle.
Proof. unfold idle_pool, AdaptivePool.idle. by destruct (p_ctl _). Qed.
Lemma not_stopping_stop e : not_stopping e = true -> e_stop e = SNone.
Proof. unfold not_stopping. by destruct (e_stop e). Qed.

Lemma pool_exec_moves a s s' : AdaptivePool.exec (ec_pool cfg) a s = Some s' ->
  match a with Work _ _ | Ctl _ _ | Async _ => pool_moves cfg s s' | _ => True end.
Proof.
  intros E. destruct a as [i m|depth ok| | | |target| | | |k]; try done; cbn in E.
  - destruct (p_threads s !! i) as [w|] eqn:Hi; [|done]. cbn in E. destruct (worker_step m s w) as [[s1 w1]|] eqn:Ew; [|done].
    cbn in E. injection E as <-. by eapply pool_worker.
  - by eapply pool_controller.
  - destruct (p_async s !! k) as [b|] eqn:Hk; [|done]. cbn in E. destruct (async_step b s) as [s1 next] eqn:Eb. cbn in E. injection E as <-.
    eapply pool_async; [|done]. by rewrite take_drop_middle.
Qed.

Lemma engine_exec_sound a e e' : act_ok a -> exec a e = Some e' -> step cfg e e'.
Proof.
  intros Ha E. destruct a as [| | | | | |p|r|now k| |a n|now now'|o|a]; cbn [exec] in E.
  - destruct (not_stopping e && idle_pool e) eqn:G; [|done]. apply andb_true_iff in G as [G1%not_stopping_stop G2%idle_pool_ctl].
    injection E as <-. by apply step_start.
  - destruct (not_stopping e) eqn:G; [|done]. injection E as <-. by apply step_request_stop, not_stopping_stop.
  - by apply step_stopping.
  - destruct (negb (_running e) && not_stopping e && idle_pool e) eqn:G; [|done].
    apply andb_true_iff in G as [[G0 G1%not_stopping_stop]%andb_true_iff G2%idle_pool_ctl]. injection E as <-. apply step_join; [|done..]. by apply negb_true_iff.
  - injection E as <-. apply step_pause.
  - injection E as <-. apply step_resume.
  - injection E as <-. by apply step_register.
  - injection E as <-. apply step_report.
  - destruct ((0 <=? now) && (now <? 2 ^ 63)) eqn:G; [|done]. destruct (e_callers e !! k) as [c|] eqn:Hk; [|done]. cbn in E.
    destruct (caller_step cfg now e c) as [[e1 c1]|] eqn:Ec; [|done]. cbn in E. injection E as <-.
    apply (step_caller cfg now e e1 k c c1); [lia|done|done].
  - by apply step_get_task.
  - destruct (e_items e !! n) as [i|] eqn:Hn; [|done]. cbn in E. destruct (item_step a n e i) as [[e1 i1]|] eqn:Ei; [|done]. cbn in E. injection E as <-.
    by apply (step_item cfg a e e1 n i i1).
  - destruct (_running e && idle_pool e) eqn:G; [|done]. apply andb_true_iff in G as [G1 G2%idle_pool_ctl]. injection E as <-. by apply step_round.
  - injection E as <-. apply step_load.
  - destruct a as [i m|depth ok| | | |target| | | |k]; try done;
      (destruct (AdaptivePool.exec _ _ _) as [p|] eqn:Ep; [|done]; apply pool_exec_moves in Ep; cbn in E; injection E as <-; by apply step_pool).
Qed.

Lemma run_sound l e epoch now : Forall act_ok l -> run l (new_engine epoch now) = Some e -> reach cfg e.
Proof.
  intros Hl Hr. exists epoch, now. revert Hr. generalize (new_engine epoch now) as e0. induction Hl as [|a l Ha _ IH]; cbn; intros e0 Hr.
  - injection Hr as <-. apply rtc_refl.
  - destruct (exec a e0) as [e1|] eqn:E; [|done]. eapply rtc_l; [by eapply engine_exec_sound|]. by apply IH.
Qed.
End exec.

(** ** A small engine *)

Definition ex_engine : EngineConfig := {|
  ec_enabled := true; ec_queue := {| max_queue_size := 100; max_memory_bytes := 2 ^ 28; priority_aging_interval := 10000 |};
  ec_pool := AdaptivePool.one;
  ec_load := {| load_high_watermark := ddiv (double_of 6) (double_of 10); load_low_watermark := ddiv (double_of 3) (double_of 10);
                baseline_ops_per_sec := double_of 100000; baseline_bytes_per_sec := double_of (500 * 1024 * 1024) |};
  ec_scale_check_interval := 1000; ec_enable_load_shedding := true; ec_load_shedding_cooldown := 5000;
  ec_min_hits_before_optimize := 2 |}.
Definition ex_plugin : OptimizationPlugin := {|
  pl_plugin_id := 7;
  pl_plan_optimization := fun _ _ _ _ _ => Returns [{| tg_target_alternate := 1; tg_priority := 5; tg_deferrable := true; tg_estimated_memory := 0 |}];
  pl_estimate_memory := fun n _ => Returns (2 * n) |}.
Definition ex_report : Reported := {| rp_key := {| _hash := repeat 1 32 |}; rp_header := []; rp_content_length := 5000; rp_alternate := 0; rp_hit_count := 3 |}.
(** Nothing throws and nothing fails. *)
Definition fine : Answers := {|
  an_wait := Returns tt; an_pass := true; an_info := Returns tt; an_read := Returns true; an_transform := Returns TOk; an_on_cancelled := Returns tt;
  an_open := Returns true; an_write := Returns true; an_close := Returns true |}.

Definition pool_ctl (n : nat) : list act := repeat (PoolAct (Ctl 0 true)) n.
Definition boot : list act := [Register ex_plugin; Start] ++ pool_ctl 8.
Definition call (k n : nat) : list act := repeat (Call 1000000 k) n.
Definition item (k n : nat) : list act := repeat (Item fine k) n.
(** The worker's checks before it runs the task. *)
Definition picked (k : nat) : list act := item k 2.

Lemma ex_engine_ok : config_ok (ec_queue ex_engine).
Proof. split; unfold fits; cbn; lia. Qed.

Lemma ex_plugin_ok : plugin_ok ex_plugin.
Proof. intros ? ? ? ? ? ts [= <-]. apply Forall_singleton. unfold fits. cbn. lia. Qed.

Lemma reach_by (l : list act) (P : OptimizationEngine -> Prop) : Forall act_ok l ->
  match run ex_engine l (new_engine 0 0) with Some e => P e | None => False end -> exists e, reach ex_engine e /\ P e.
Proof.
  intros Hl HP. destruct (run ex_engine l (new_engine 0 0)) as [e|] eqn:E; [|done]. exists e. split; [|done].
  by apply (run_sound ex_engine l e 0 0).
Qed.

Ltac acts_ok := repeat first [apply Forall_cons; split; [first [exact ex_plugin_ok | exact I]|] | apply Forall_nil; exact I].

(** Two reports of one key: the second item is picked up while the first is in
    its transform, and refused. *)
Definition twice : list act :=
  boot ++ [Report ex_report] ++ call 0 8 ++ [GetTask] ++ picked 0 ++ item 0 4 ++ [Report ex_report] ++ call 1 8 ++ [GetTask] ++ picked 1 ++ item 1 2 ++ item 0 6.

Lemma twice_ok : Forall act_ok twice.
Proof. unfold twice, boot. cbn. acts_ok. Qed.

Lemma one_transform_per_item_witness :
  match run ex_engine twice (new_engine 0 0) with
  | Some e => map i_pc (e_items e) = [IDone ECompleted; IDone EDuplicate] /\
      (Forall (fun i => finished i = true) (e_items e) -> _active_work e = ∅)
  | None => False
  end.
Proof.
  destruct (run ex_engine twice (new_engine 0 0)) as [e|] eqn:E; [|by vm_compute in E].
  pose proof (one_transform_per_item ex_engine e (run_sound ex_engine twice e 0 0 twice_ok E)) as (_ & _ & _ & X).
  split; [|exact X]. vm_compute in E. injection E as <-. reflexivity.
Defined.

Lemma engine_counts_items_witness :
  match run ex_engine twice (new_engine 0 0) with
  | Some e => queued (_stat e) = 2 /\ completed (_stat e) = u64 (tally (ended ECompleted) (e_items e)) /\
      duplicates (_stat e) = u64 (tally (ended EDuplicate) (e_items e)) /\ duplicates (_stat e) = 1
  | None => False
  end.
Proof.
  destruct (run ex_engine twice (new_engine 0 0)) as [e|] eqn:E; [|by vm_compute in E].
  pose proof (engine_counts_items ex_engine e ex_engine_ok (run_sound ex_engine twice e 0 0 twice_ok E)) as (X1 & X2 & _).
  split; [|split; [exact X1|split; [exact X2|]]]; vm_compute in E; injection E as <-; reflexivity.
Defined.

Lemma engine_queue_bounded_witness :
  match run ex_engine (take 19 twice) (new_engine 0 0) with
  | Some e => size (_work_queue e) = 1 /\ 1024 * size (_work_queue e) <= max_memory_bytes (ec_queue ex_engine)
  | None => False
  end.
Proof.
  destruct (run ex_engine (take 19 twice) (new_engine 0 0)) as [e|] eqn:E; [|by vm_compute in E].
  pose proof (engine_queue_bounded ex_engine e ex_engine_ok
    (run_sound ex_engine (take 19 twice) e 0 0 (Forall_take _ _ _ twice_ok) E)) as (_ & _ & X).
  split; [|exact X]. vm_compute in E. injection E as <-. reflexivity.
Defined.

(** A second of heavy reading, then silence. *)
Definition busy : list act := boot ++ [Report ex_report] ++ call 0 8 ++ [Load (Read 0 (2 ^ 32))].
Lemma busy_ok : Forall act_ok busy.
Proof. unfold busy, boot. cbn. acts_ok. Qed.

Lemma load_shedding_cycle_witness :
  match run ex_engine busy (new_engine 0 0) with
  | Some e0 =>
      let e := monitor_round ex_engine 1000000000 1000000000 e0 in
      size (_work_queue e0) = 1 /\ p_paused (_thread_pool e) = true /\ Forall (fun i => w_deferrable i = false) (q_heap (_work_queue e)) /\
      low_stretch ex_engine [(2000000000, true); (6000000000, true); (7000000000, true)]
  | None => False
  end.
Proof.
  destruct (run ex_engine busy (new_engine 0 0)) as [e0|] eqn:E; [|by vm_compute in E].
  pose proof (run_sound ex_engine busy e0 0 0 busy_ok E) as R. vm_compute in E. injection E as E.
  assert (S : sheds ex_engine 1000000000 e0 = true) by (rewrite <- E; vm_compute; reflexivity).
  destruct (load_shedding_cycle ex_engine e0 1000000000 1000000000 ex_engine_ok R S) as (_ & X2 & X3 & X4).
  cbv zeta. split; [rewrite <- E; vm_compute; reflexivity|]. split; [exact X2|]. split; [exact X3|].
  apply (X4 _ (monitor_round ex_engine 7000000000 7000000000 (monitor_round ex_engine 6000000000 6000000000
    (monitor_round ex_engine 2000000000 2000000000 (monitor_round ex_engine 1000000000 1000000000 e0))))).
  - clear -E.
    assert (L1 : low_round ex_engine 2000000000 (monitor_round ex_engine 1000000000 1000000000 e0) = true) by (rewrite <- E; vm_compute; reflexivity).
    assert (L2 : low_round ex_engine 6000000000 (monitor_round ex_engine 2000000000 2000000000 (monitor_round ex_engine 1000000000 1000000000 e0)) = true)
      by (rewrite <- E; vm_compute; reflexivity).
    assert (L3 : low_round ex_engine 7000000000 (monitor_round ex_engine 6000000000 6000000000
      (monitor_round ex_engine 2000000000 2000000000 (monitor_round ex_engine 1000000000 1000000000 e0))) = true)
      by (rewrite <- E; vm_compute; reflexivity).
    rewrite <- L1 at 1. apply turns_round. rewrite <- L2 at 1. apply turns_round. rewrite <- L3. apply turns_round. apply turns_nil.
  - rewrite <- E. vm_compute. reflexivity.
Defined.

(** ** What the interleavings allow *)

(** A stop can miss an item.  [request_stop] sets the tokens that are in
    _active_work when it gets there; a worker that took its item before the
    pool was stopping and registers it after goes on to its transform with a token nobody will
    set, and the joins of the stop wait for the whole transform. *)
Theorem stop_misses_starting_item :
  exists e, reach ex_engine e /\ _running e = false /\ e_stop e = SNone /\
    exists i, e_items e = [i] /\ i_pc i = ITransform /\ i_cancelled i = false.
Proof.
  apply (reach_by (boot ++ [Report ex_report] ++ call 0 8 ++ [GetTask] ++ picked 0 ++ [Stop; Stopping; Stopping; Stopping] ++ item 0 4)).
  - unfold boot. cbn. acts_ok.
  - vm_compute. split; [done|]. split; [done|]. eexists. by split_and!.
Qed.

(** Two runs of one item can write its alternate at the same time: the
    token is given back after the transform and before the write, so the next
    item of the id is admitted while the first is still writing, although
    the refusal of duplicates is there to keep the writes from racing. *)
Theorem alternate_writes_overlap :
  exists e, reach ex_engine e /\ exists i j, e_items e = [i; j] /\ i_id i = i_id j /\ i_pc i = IWrite /\ i_pc j = IWrite.
Proof.
  apply (reach_by (boot ++ [Report ex_report] ++ call 0 8 ++ [GetTask] ++ picked 0 ++ item 0 7 ++ [Report ex_report] ++ call 1 8 ++ [GetTask] ++ picked 1 ++ item 1 7)).
  - unfold boot. cbn. acts_ok.
  - vm_compute. eexists _, _. by split_and!.
Qed.

(** The end of load shedding overrides a pause: the turn that ends it resumes
    the pool and leaves _paused as it is, so that an engine paused meanwhile
    runs again and the loop, which looks at _paused, does not scale it. *)
Theorem pause_is_overridden `{StdHeap} cfg now now' e :
  _load_shedding e = true -> low_round cfg now e = true -> _in_cooldown e = true ->
  ec_load_shedding_cooldown cfg * 1000000 <= now' - _load_drop_time e ->
  let e' := monitor_round cfg now now' e in
  _load_shedding e' = false /\ is_paused e' = is_paused e /\ p_paused (_thread_pool e') = false /\
  (is_paused e = true -> _thread_pool e' = AdaptivePool.resume (_thread_pool e)).
Proof.
  unfold low_round, monitor_round, is_paused. cbn [_load_monitor with_monitor set_parts]. set (m := update_metrics _ _ _).
  intros Hs [Ha Hb]%andb_true_iff Hc Ht%Z.leb_le. apply negb_true_iff in Ha. rewrite Ha. cbn. rewrite Hs, Hb. cbn. rewrite Hc. cbn. rewrite Ht. cbn.
  by destruct (_paused e).
Qed.

(** An execution that gets there: load rises, the embedder pauses, load falls. *)
Example paused_engine_runs :
  exists e, reach ex_engine e /\ _running e = true /\ is_paused e = true /\ p_paused (_thread_pool e) = false /\ p_running (_thread_pool e) = true.
Proof.
  apply (reach_by (boot ++ [Load (Read 0 (2 ^ 32)); Round 1000000000 1000000000; Pause; Round 2000000000 2000000000; Round 8000000000 8000000000])).
  - unfold boot. cbn. acts_ok.
  - vm_compute. by split_and!.
Qed.

(** The restart: paused before the stop, and running after the start. *)
Example pause_lost_in_restart :
  exists e, reach ex_engine e /\ _running e = true /\ is_paused e = true /\ p_paused (_thread_pool e) = false /\ p_running (_thread_pool e) = true.
Proof.
  apply (reach_by (boot ++ [Pause; Stop; Stopping; Stopping; Stopping] ++ repeat (PoolAct (Async 0)) 3 ++ repeat (PoolAct (Work 0 quiet)) 4
    ++ [Join] ++ pool_ctl 8 ++ [Start] ++ pool_ctl 8)).
  - unfold boot. cbn. acts_ok.
  - vm_compute. by split_and!.
Qed.

(** An end can be counted before its start: [on_write_complete] counts an
    item as queued after it has enqueued it, and a worker may have completed
    it by then, so stats() can show more completed than queued items. *)
Theorem completed_before_queued :
  exists e, reach ex_engine e /\ completed (_stat e) = 1 /\ queued (_stat e) = 0.
Proof.
  apply (reach_by (boot ++ [Report ex_report] ++ call 0 6 ++ [GetTask] ++ picked 0 ++ item 0 9)).
  - unfold boot. cbn. acts_ok.
  - vm_compute. by split.
Qed.

(** Only a stop cancels a running transform.  No step but the sweep of
    [request_stop] sets a token, so what a plugin polls as is_cancelled() is
    true only while the engine is being stopped: not when load is shed and not
    for an item that is cancelled or removed. *)
Theorem only_a_stop_cancels `{StdHeap} cfg e e' n i' :
  step cfg e e' -> e_items e' !! n = Some i' -> i_cancelled i' = true ->
  e_stop e = SSweep \/ exists i, e_items e !! n = Some i /\ i_cancelled i = true.
Proof.
  intros St Hn' Hc'.
  destruct St as [e|e|e e' E|e|e|e|p e Hp|id e|r e|now e e' k c c' Hw Hk E|e e' E|a e e' m i j Hm E|now now' e Hr Hp|o e|p e Hm].
  all: try (right; by exists i').
  - right. unfold start in Hn'. exists i'. split; [|done]. by repeat case_match.
  - right. unfold request_stop in Hn'. exists i'. split; [|done]. by case_match.
  - unfold stop_step in E. destruct (e_stop e) eqn:Es; [done|injection E as <-..]; [right; by exists i'|by left|right; by exists i'].
  - right. exists i'. split; [|done]. unfold caller_step in E. cbn in Hn'.
    destruct (c_pc c) as [| | | | |[|p l]|p [|t ts] l|p ts l|l| |]; try discriminate E; try (by injection E as <- <-).
    destruct (memory_estimate p (c_reported c) t) as [x| |]; try (by injection E as <- <-).
    destruct (enqueue _ _ _ _) as [r q]. by injection E as <- <-.
  - right. exists i'. split; [|done]. unfold get_task in E.
    destruct (WorkQueue.dequeue (_work_queue e)) as [[[item|] q]|]; [| |done]; injection E as <-; [|done]. cbn in Hn'.
    apply lookup_app_Some in Hn' as [?|[_ Hn']]; [done|]. apply list_lookup_singleton_Some in Hn' as [_ <-]. done.
  - right. destruct (item_step_frame a m e i e' j E) as (_ & _ & _ & A4 & _). cbn in Hn'. rewrite A4 in Hn'.
    destruct (decide (m = n)) as [->|Hne]; [|rewrite list_lookup_insert_ne in Hn' by done; by exists i'].
    rewrite list_lookup_insert_eq in Hn' by (by eapply lookup_lt_Some). injection Hn' as <-. exists i. split; [done|].
    rewrite <- Hc'. unfold item_step, held_step in E. destruct (i_pc _); cbn [mbind option_bind] in E; by repeat (case_match; cbn [mbind option_bind] in E); simplify_eq.
  - right. destruct (monitor_round_parts cfg now now' e) as (_ & A2 & _). rewrite A2 in Hn'. by exists i'.
Qed.

Lemma only_a_stop_cancels_witness :
  match run ex_engine (boot ++ [Report ex_report] ++ call 0 8 ++ [GetTask] ++ picked 0 ++ item 0 4 ++ [Stop; Stopping]) (new_engine 0 0) with
  | Some e =>
      match stop_step e with
      | Some e' => i_cancelled <$> e_items e' !! 0%nat = Some true /\ (e_stop e = SSweep \/ exists i, e_items e !! 0%nat = Some i /\ i_cancelled i = true)
      | None => False
      end
  | None => False
  end.
Proof.
  destruct (run ex_engine _ (new_engine 0 0)) as [e|] eqn:E; [|by vm_compute in E].
  destruct (stop_step e) as [e'|] eqn:E'; [|vm_compute in E; injection E as <-; discriminate E'].
  assert (X : exists i, e_items e' !! 0%nat = Some i /\ i_cancelled i = true).
  { vm_compute in E. injection E as <-. vm_compute in E'. injection E' as <-. eexists. by split. }
  destruct X as (i & Hi & Hc). split; [by rewrite Hi; cbn; rewrite Hc|].
  exact (only_a_stop_cancels ex_engine e e' 0 i (step_stopping ex_engine e e' E') Hi Hc).
Defined.
