(* ===== verification/Support.v ===== *)
(** * Plugin metadata, write buffers, the plugin registry and the C error codes

    Four small parts, a module each: the metadata sections of plugins and their
    serialized form (include/cyclone/plugin/metadata.hpp), the growing write
    buffer (src/src/core/write_buffer.cpp), the plugin registry
    (src/src/plugin/plugin_manager.cpp) and the map from the library's errors
    to those of the C API (src/src/c_api/c_error_map.hpp). *)

From Stdlib Require Import Sorted.
From S2P Require Import Prelude.
Local Open Scope cyc_scope.

(** ** Metadata sections *)

Module Metadata.

(** The std::map, as its sections in the order of their keys. *)
Definition MetadataCollection : Type := list (Z * list Z).

Definition kCorePluginId : Z := 0.
Definition kMaxSectionCount : Z := 1024.
Definition kMaxSectionSize : Z := 16 * 1024 * 1024.

Definition empty_collection : MetadataCollection := [].

Fixpoint set (plugin_id : Z) (data : list Z) (c : MetadataCollection) : MetadataCollection :=
  match c with
  | [] => [(plugin_id, data)]
  | (k, d) :: c' =>
      if plugin_id <? k then (plugin_id, data) :: c
      else if plugin_id =? k then (plugin_id, data) :: c'
      else (k, d) :: set plugin_id data c'
  end.

Fixpoint get (plugin_id : Z) (c : MetadataCollection) : option (list Z) :=
  match c with
  | [] => None
  | (k, d) :: c' => if k =? plugin_id then Some d else get plugin_id c'
  end.

Definition has (plugin_id : Z) (c : MetadataCollection) : bool := match get plugin_id c with Some _ => true | None => false end.
Definition remove (plugin_id : Z) (c : MetadataCollection) : MetadataCollection := List.filter (fun s => negb (s.1 =? plugin_id)) c.
Definition clear (c : MetadataCollection) : MetadataCollection := [].
Definition count (c : MetadataCollection) : Z := Z.of_nat (length c).

Definition serialize_section (s : Z * list Z) : list Z :=
  le_bytes 4 s.1 ++ le_bytes 4 (u32 (Z.of_nat (length s.2))) ++ s.2.
Definition serialize (c : MetadataCollection) : list Z := le_bytes 4 (u32 (count c)) ++ flat_map serialize_section c.

(** The loop of [deserialize]: [n] turns left, from [offset]. *)
Fixpoint sections (n : nat) (data : list Z) (offset : nat) (result : MetadataCollection) : MetadataCollection :=
  match n with
  | O => result
  | S n =>
      if (length data <? offset)%nat || (length data - offset <? 8)%nat then result
      else
        let plugin_id := le_val (subspan data offset 4) in
        let len := le_val (subspan data (offset + 4) 4) in
        let offset := (offset + 8)%nat in
        if kMaxSectionSize <? len then result
        else if (length data <? offset)%nat || (Z.of_nat (length data - offset) <? len) then result
        else sections n data (offset + Z.to_nat len) (set plugin_id (subspan data offset (Z.to_nat len)) result)
  end.

Definition deserialize (data : list Z) : MetadataCollection :=
  if (length data <? 4)%nat then []
  else
    let n := le_val (subspan data 0 4) in
    if kMaxSectionCount <? n then [] else sections (Z.to_nat n) data 4 [].

(** *** The collection is a map *)

Definition sorted (c : MetadataCollection) : Prop := StronglySorted (fun a b => a.1 < b.1) c.

Lemma set_keys k d c x : x ∈ set k d c -> x = (k, d) \/ x ∈ c.
Proof.
  induction c as [|[k' d'] c IH]; cbn; [rewrite elem_of_cons; naive_solver|].
  destruct (k <? k'), (k =? k'); rewrite !elem_of_cons; tauto.
Qed.

Lemma set_sorted k d c : sorted c -> sorted (set k d c).
Proof.
  unfold sorted. induction 1 as [|[k' d'] c Hs IH Hf]; cbn; [repeat constructor|].
  destruct (Z.ltb_spec k k') as [Hlt|Hge].
  - constructor; [by constructor|]. constructor; [done|]. eapply Forall_impl; [exact Hf|]. intros x. cbn. lia.
  - destruct (Z.eqb_spec k k') as [->|Hne]; constructor; try done. apply Forall_forall. intros x [->|Hx]%set_keys; cbn; [lia|].
    rewrite Forall_forall in Hf. by apply Hf.
Qed.

Lemma get_none k c : Forall (fun x => k < x.1) c -> get k c = None.
Proof. induction 1 as [|[k' d'] c Hk _ IH]; cbn in *; [done|]. by destruct (Z.eqb_spec k' k); [lia|]. Qed.

Lemma get_set k d c j : sorted c -> get j (set k d c) = if decide (j = k) then Some d else get j c.
Proof.
  unfold sorted. induction 1 as [|[k' d'] c Hs IH Hf]; cbn.
  - destruct (Z.eqb_spec k j); case_decide; congruence.
  - destruct (Z.ltb_spec k k') as [Hlt|Hge]; cbn.
    + destruct (Z.eqb_spec k j); case_decide; congruence.
    + destruct (Z.eqb_spec k k') as [<-|Hne]; cbn; [destruct (Z.eqb_spec k j); case_decide; congruence|].
      rewrite IH. destruct (Z.eqb_spec k' j); case_decide; congruence.
Qed.

Lemma get_remove k c j : get j (remove k c) = if decide (j = k) then None else get j c.
Proof.
  unfold remove. induction c as [|[k' d'] c IH]; cbn; [by case_decide|]. destruct (Z.eqb_spec k' k) as [->|Hne]; cbn; rewrite IH;
    [destruct (Z.eqb_spec k j); case_decide; congruence|]. destruct (Z.eqb_spec k' j); case_decide; congruence.
Qed.

(** *** Reading back *)

Definition section_ok (s : Z * list Z) : Prop := fits 32 s.1 /\ bytes_ok s.2 /\ Z.of_nat (length s.2) <= kMaxSectionSize.

Lemma set_last k d c : Forall (fun x => x.1 < k) c -> set k d c = c ++ [(k, d)].
Proof.
  induction 1 as [|[k' d'] c Hk _ IH]; cbn in *; [done|]. destruct (Z.ltb_spec k k'); [lia|]. destruct (Z.eqb_spec k k'); [lia|]. by rewrite IH.
Qed.

Lemma subspan_app {A} (a b c : list A) off n : length a = off -> length b = n -> subspan (a ++ b ++ c) off n = b.
Proof. intros <- <-. unfold subspan. by rewrite drop_app_length, take_app_length. Qed.

Lemma length_section s : length (serialize_section s) = (8 + length s.2)%nat.
Proof. unfold serialize_section. rewrite !length_app, !length_le_bytes. lia. Qed.

(** One turn on a section that was written. *)
Lemma sections_step pre s rest n result : section_ok s ->
  sections (S n) (pre ++ serialize_section s ++ rest) (length pre) result =
  sections n (pre ++ serialize_section s ++ rest) (length pre + length (serialize_section s)) (set s.1 s.2 result).
Proof.
  intros (Hk & Hb & Hl). unfold kMaxSectionSize in *. destruct s as [k d]; cbn [fst snd] in *.
  set (data := pre ++ serialize_section (k, d) ++ rest).
  assert (D : length data = (length pre + (8 + length d) + length rest)%nat) by (unfold data; rewrite !length_app, length_section; cbn; lia).
  assert (F : fits 32 (Z.of_nat (length d))) by (unfold fits; lia).
  assert (S1 : subspan data (length pre) 4 = le_bytes 4 k).
  { unfold data, serialize_section. cbn [fst snd]. rewrite <- !app_assoc. apply subspan_app; [done|apply length_le_bytes]. }
  assert (S2 : subspan data (length pre + 4) 4 = le_bytes 4 (u32 (Z.of_nat (length d)))).
  { unfold data, serialize_section. cbn [fst snd]. rewrite <- !app_assoc, app_assoc.
    apply subspan_app; [rewrite length_app, length_le_bytes; lia|apply length_le_bytes]. }
  assert (S3 : subspan data (length pre + 8) (length d) = d).
  { unfold data, serialize_section. cbn [fst snd]. rewrite <- !app_assoc, !(app_assoc pre), !(app_assoc (pre ++ _)).
    apply subspan_app; [rewrite !length_app, !length_le_bytes; lia|done]. }
  cbn [sections]. rewrite S1, S2. unfold u32. rewrite (wrap_small 32 (Z.of_nat (length d)) F).
  rewrite !(le_val_le_bytes_fits 4) by done. rewrite Nat2Z.id, S3.
  destruct (Nat.ltb_spec (length data) (length pre)); [lia|]. destruct (Nat.ltb_spec (length data - length pre) 8); [lia|]. cbn [orb].
  unfold kMaxSectionSize. destruct (Z.ltb_spec (16 * 1024 * 1024) (Z.of_nat (length d))); [lia|].
  destruct (Nat.ltb_spec (length data) (length pre + 8)); [lia|].
  destruct (Z.ltb_spec (Z.of_nat (length data - (length pre + 8))) (Z.of_nat (length d))); [lia|]. cbn [orb].
  rewrite length_section. cbn [snd]. by rewrite Nat.add_assoc.
Qed.

Lemma sections_all c : forall pre result, Forall section_ok c -> sorted (result ++ c) ->
  sections (length c) (pre ++ flat_map serialize_section c) (length pre) result = result ++ c.
Proof.
  induction c as [|s c IH]; intros pre result Hc Hs; [cbn; by rewrite !app_nil_r|]. apply Forall_cons in Hc as [Hs' Hc].
  cbn [flat_map length]. rewrite sections_step by done. rewrite set_last.
  - specialize (IH (pre ++ serialize_section s) (result ++ [(s.1, s.2)]) Hc). destruct s as [k d]. cbn [fst snd] in *.
    rewrite length_app, <- !app_assoc in IH. cbn [app] in IH. by apply IH.
  - destruct s as [k d]. apply Forall_forall. intros x Hx. unfold sorted in Hs.
    induction result as [|y result IHr]; [by apply elem_of_nil in Hx|]. cbn in Hs. apply StronglySorted_inv in Hs as [Hs Hf].
    apply elem_of_cons in Hx as [->|Hx]; [|by apply IHr]. rewrite Forall_forall in Hf. apply (Hf (k, d)). apply elem_of_app. right. left.
Qed.

(** What a plugin's metadata is serialized to reads back as the same
    collection, section for section, as long as it is within the format's
    limits: at most 1024 sections of at most 16 MiB. *)
Theorem metadata_roundtrip (c : MetadataCollection) :
  sorted c -> Forall section_ok c -> count c <= kMaxSectionCount -> deserialize (serialize c) = c.
Proof.
  intros Hs Hc Hn. unfold count, kMaxSectionCount in *. unfold deserialize, serialize.
  rewrite length_app, length_le_bytes. destruct (Nat.ltb_spec (4 + length (flat_map serialize_section c)) 4); [lia|].
  replace (subspan (le_bytes 4 (u32 (count c)) ++ flat_map serialize_section c) 0 4) with (le_bytes 4 (u32 (count c)))
    by (symmetry; exact (subspan_app [] _ _ 0 4 eq_refl (length_le_bytes 4 _))).
  unfold count, u32. rewrite (wrap_small 32), (le_val_le_bytes_fits 4) by (unfold fits; lia). unfold kMaxSectionCount.
  destruct (Z.ltb_spec 1024 (Z.of_nat (length c))); [lia|]. rewrite Nat2Z.id.
  pose proof (sections_all c (le_bytes 4 (Z.of_nat (length c))) [] Hc Hs) as X. by rewrite length_le_bytes in X.
Qed.

Lemma metadata_roundtrip_witness :
  deserialize (serialize (set 7 [1; 2; 3] (set 0 [255] (set 9 [] empty_collection)))) = [(0, [255]); (7, [1; 2; 3]); (9, [])].
Proof.
  apply (metadata_roundtrip [(0, [255]); (7, [1; 2; 3]); (9, [])]).
  - unfold sorted. repeat constructor.
  - repeat constructor; unfold section_ok, is_byte, fits, kMaxSectionSize; cbn; lia.
  - unfold count, kMaxSectionCount. cbn. lia.
Defined.

(** Whatever the bytes, what is read is a map within the limits. *)
Lemma deserialize_sound data : bytes_ok data ->
  sorted (deserialize data) /\ Forall (fun s => fits 32 s.1 /\ bytes_ok s.2 /\ Z.of_nat (length s.2) <= kMaxSectionSize) (deserialize data) /\
  count (deserialize data) <= kMaxSectionCount.
Proof.
  intros Hb. unfold deserialize. destruct (length data <? 4)%nat; [split_and!; [constructor|done|done]|].
  destruct (Z.ltb_spec kMaxSectionCount (le_val (subspan data 0 4))) as [|Hn]; [split_and!; [constructor|done|done]|].
  assert (G : forall n off result, sorted result -> Forall section_ok result ->
    sorted (sections n data off result) /\ Forall section_ok (sections n data off result) /\
    (length (sections n data off result) <= length result + n)%nat).
  { assert (L : forall k d r, (length (set k d r) <= S (length r))%nat).
    { intros k d r. induction r as [|[k' d'] r IH]; cbn; [lia|]. repeat case_match; cbn; lia. }
    induction n as [|n IH]; intros off result Hs Hf; cbn [sections]; [split_and!; try done; lia|].
    destruct (_ || _); [split_and!; try done; lia|]. destruct (Z.ltb_spec kMaxSectionSize (le_val (subspan data (off + 4) 4))) as [|Hl]; [split_and!; try done; lia|].
    destruct (_ || _); [split_and!; try done; lia|].
    edestruct (IH (off + 8 + Z.to_nat (le_val (subspan data (off + 4) 4)))%nat) as (A1 & A2 & A3); [by apply set_sorted| |].
    2: { split_and!; [exact A1|exact A2|]. etransitivity; [exact A3|].
         pose proof (L (le_val (subspan data off 4)) (subspan data (off + 8) (Z.to_nat (le_val (subspan data (off + 4) 4)))) result). lia. }
    apply Forall_forall. intros x [->|Hx]%set_keys; [|rewrite Forall_forall in Hf; by apply Hf].
    assert (Hs4 : forall o, bytes_ok (subspan data o 4)) by (intros o; unfold subspan; auto with cyc).
    assert (Hsub : forall o m, bytes_ok (subspan data o m)) by (intros o m; unfold subspan; auto with cyc).
    pose proof (le_val_bound _ (Hs4 off)) as B. pose proof (le_val_bound _ (Hs4 (off + 4)%nat)) as B'.
    assert (X : forall o, (length (subspan data o 4) <= 4)%nat) by (intros o; unfold subspan; rewrite length_take; lia).
    split_and!; cbn [fst snd]; [|apply Hsub|].
    - unfold fits. pose proof (Z.pow_le_mono_r 256 (Z.of_nat (length (subspan data off 4))) 4 ltac:(lia) ltac:(specialize (X off); lia)). lia.
    - unfold subspan at 1. rewrite length_take. lia. }
  destruct (G (Z.to_nat (le_val (subspan data 0 4))) 4%nat []) as (A1 & A2 & A3); [constructor|done|]. split_and!; [done|done|].
  unfold count. cbn in A3. unfold kMaxSectionCount in *. lia.
Qed.

(** [serialize] does not know the limits: one section too many is all lost. *)
Example too_many_sections : deserialize (serialize (map (fun n => (Z.of_nat n, [])) (seq 0 1025))) = [].
Proof. vm_compute. reflexivity. Qed.

End Metadata.

(** ** Write buffers *)

Module WriteBuffer.

Inductive BufferError := InvalidArgument | NoSpace.

(** [wb_buffer] is the vector, its capacity its length; [wb_size] bytes are in
    use. *)
Record WriteBuffer := { wb_buffer : list Z; wb_size : Z; wb_max_size : Z }.

Definition kDefaultMaxSize : Z := 256 * 1024 * 1024.
Definition new_buffer (capacity max_size : Z) : WriteBuffer := {|
  wb_buffer := repeat 0 (Z.to_nat capacity); wb_size := 0; wb_max_size := max_size |}.

(** std::vector::resize: cut, or filled with zeros. *)
Definition resize (l : list Z) (n : Z) : list Z := take (Z.to_nat n) l ++ repeat 0 (Z.to_nat n - length l).

Definition capacity (b : WriteBuffer) : Z := Z.of_nat (length (wb_buffer b)).
Definition data (b : WriteBuffer) : list Z := subspan (wb_buffer b) 0 (Z.to_nat (wb_size b)).

Definition append (src : list Z) (b : WriteBuffer) : (BufferError + unit) * WriteBuffer :=
  let n := Z.of_nat (length src) in
  if 2 ^ 64 - 1 - wb_size b <? n then (inl InvalidArgument, b)
  else
    let new_size := wb_size b + n in
    if wb_max_size b <? new_size then (inl NoSpace, b)
    else
      let buffer :=
        if capacity b <? new_size then
          let new_capacity := Z.max (u64 (capacity b * 2)) new_size in
          let new_capacity := if wb_max_size b <? new_capacity then wb_max_size b else new_capacity in
          resize (wb_buffer b) new_capacity
        else wb_buffer b in
      let buffer := match src with [] => buffer | _ => write_at buffer (Z.to_nat (wb_size b)) src end in
      (inr tt, {| wb_buffer := buffer; wb_size := new_size; wb_max_size := wb_max_size b |}).

Definition clear (b : WriteBuffer) : WriteBuffer := {| wb_buffer := wb_buffer b; wb_size := 0; wb_max_size := wb_max_size b |}.
Definition reserve (n : Z) (b : WriteBuffer) : WriteBuffer :=
  if capacity b <? n then {| wb_buffer := resize (wb_buffer b) n; wb_size := wb_size b; wb_max_size := wb_max_size b |} else b.

(** The bytes in use are in the vector. *)
Record buffer_ok (b : WriteBuffer) : Prop := {
  bo_size : 0 <= wb_size b <= capacity b; bo_fits : fits 64 (capacity b); bo_max : wb_size b <= wb_max_size b < 2 ^ 64 }.

Lemma length_resize l n : 0 <= n -> Z.of_nat (length (resize l n)) = n.
Proof. intros Hn. unfold resize. rewrite length_app, length_take, repeat_length. lia. Qed.

Lemma take_resize l n k : (k <= length l)%nat -> Z.of_nat k <= n -> take k (resize l n) = take k l.
Proof.
  intros Hk Hn. unfold resize. rewrite take_app_le by (rewrite length_take; lia). rewrite take_take. f_equal. lia.
Qed.

(** The vector an append writes into: as long as needed, the used bytes kept. *)
Lemma grown_spec b n : buffer_ok b -> 0 <= n -> wb_size b + n <= wb_max_size b ->
  let buffer := if capacity b <? wb_size b + n then
    resize (wb_buffer b) (if wb_max_size b <? Z.max (u64 (capacity b * 2)) (wb_size b + n) then wb_max_size b
                          else Z.max (u64 (capacity b * 2)) (wb_size b + n)) else wb_buffer b in
  wb_size b + n <= Z.of_nat (length buffer) < 2 ^ 64 /\ take (Z.to_nat (wb_size b)) buffer = take (Z.to_nat (wb_size b)) (wb_buffer b).
Proof.
  intros [S1 S2 S3] Hn Hm. unfold capacity, fits in *. cbv zeta. destruct (Z.ltb_spec (Z.of_nat (length (wb_buffer b))) (wb_size b + n)); [|split; [lia|done]].
  pose proof (wrap_fits 64 (Z.of_nat (length (wb_buffer b)) * 2) ltac:(lia)) as [U1 U2]. fold (u64 (Z.of_nat (length (wb_buffer b)) * 2)) in *.
  set (cap := Z.max _ _). assert (wb_size b + n <= cap) by lia.
  destruct (Z.ltb_spec (wb_max_size b) cap); (split; [rewrite length_resize by lia; lia|]); apply take_resize; lia.
Qed.

(** A write buffer is the bytes appended since it was cleared: a successful
    append adds exactly its bytes at the end, a refused one (past the limit,
    or past 64 bits) changes nothing, [clear] empties it and [reserve] leaves
    the bytes alone; the bytes stay inside the vector and within the limit. *)
Theorem buffer_appends (b : WriteBuffer) src :
  buffer_ok b ->
  match append src b with
  | (inr _, b') => data b' = data b ++ src /\ buffer_ok b' /\ wb_max_size b' = wb_max_size b
  | (inl InvalidArgument, b') => b' = b /\ 2 ^ 64 <= wb_size b + Z.of_nat (length src)
  | (inl NoSpace, b') => b' = b /\ wb_max_size b < wb_size b + Z.of_nat (length src)
  end.
Proof.
  intros K. pose proof K as [S1 S2 S3]. unfold append. destruct (Z.ltb_spec (2 ^ 64 - 1 - wb_size b) (Z.of_nat (length src))); [split; [done|lia]|].
  destruct (Z.ltb_spec (wb_max_size b) (wb_size b + Z.of_nat (length src))); [done|].
  pose proof (grown_spec b (Z.of_nat (length src)) K ltac:(lia) ltac:(lia)) as G. cbv zeta in G.
  set (buffer := if capacity b <? _ then _ else _) in *. destruct G as [G1 G2].
  assert (W : match src with [] => buffer | _ => write_at buffer (Z.to_nat (wb_size b)) src end = write_at buffer (Z.to_nat (wb_size b)) src).
  { destruct src; [|done]. unfold write_at. cbn. by rewrite Nat.add_0_r, take_drop. }
  rewrite W. assert (L : length (write_at buffer (Z.to_nat (wb_size b)) src) = length buffer).
  { unfold write_at. rewrite !length_app, length_take, length_drop. lia. }
  split_and!; [| |done].
  - unfold data, subspan. rewrite !drop_0. cbn [wb_size wb_buffer]. unfold write_at. rewrite G2.
    unfold capacity in *.
    rewrite app_assoc, take_app_le by (rewrite length_app, length_take; lia).
    by rewrite (take_ge (_ ++ src)) by (rewrite length_app, length_take; lia).
  - constructor; unfold capacity, fits in *; cbn [wb_size wb_buffer wb_max_size]; rewrite ?L; lia.
Qed.

Lemma buffer_appends_witness :
  match append [3; 4; 5] (append [1; 2] (new_buffer 2 4)).2 with
  | (inr _, _) => False
  | (inl InvalidArgument, _) => False
  | (inl NoSpace, b') => b' = (append [1; 2] (new_buffer 2 4)).2 /\ 4 < 2 + 3
  end /\ data (append [3; 4] (append [1; 2] (new_buffer 2 4)).2).2 = [1; 2; 3; 4].
Proof.
  assert (K : buffer_ok (append [1; 2] (new_buffer 2 4)).2) by (constructor; by vm_compute).
  split; [exact (buffer_appends (append [1; 2] (new_buffer 2 4)).2 [3; 4; 5] K)|].
  exact (proj1 (buffer_appends (append [1; 2] (new_buffer 2 4)).2 [3; 4] K)).
Defined.

Lemma reserve_keeps b n : buffer_ok b -> fits 64 n -> data (reserve n b) = data b /\ buffer_ok (reserve n b).
Proof.
  intros K Hn. unfold reserve. destruct (Z.ltb_spec (capacity b) n); [|done]. destruct K as [S1 S2 S3]. unfold capacity, fits in *. split.
  - unfold data, subspan. cbn. rewrite !drop_0. apply take_resize; lia.
  - constructor; unfold capacity, fits; cbn; rewrite ?length_resize by lia; lia.
Qed.

End WriteBuffer.

(** ** The plugin registry *)

Module PluginManager.
Section plugins.
Context {CachePlugin : Type} (plugin_id : CachePlugin -> Z).

(** Under one mutex. *)
Record PluginManager := { pm_plugins : gmap Z CachePlugin; pm_alternate_selector : option CachePlugin }.
Definition new_manager : PluginManager := {| pm_plugins := ∅; pm_alternate_selector := None |}.

Definition register_plugin (p : option CachePlugin) (m : PluginManager) : PluginManager :=
  match p with
  | None => m
  | Some p => {| pm_plugins := <[plugin_id p := p]> (pm_plugins m); pm_alternate_selector := pm_alternate_selector m |}
  end.
Definition unregister_plugin (id : Z) (m : PluginManager) : PluginManager := {|
  pm_plugins := delete id (pm_plugins m); pm_alternate_selector := pm_alternate_selector m |}.
Definition get_plugin (id : Z) (m : PluginManager) : option CachePlugin := pm_plugins m !! id.
Definition set_alternate_selector (p : option CachePlugin) (m : PluginManager) : PluginManager := {|
  pm_plugins := pm_plugins m; pm_alternate_selector := p |}.
Definition get_alternate_selector (m : PluginManager) : option CachePlugin := pm_alternate_selector m.

Inductive op := Register (p : option CachePlugin) | Unregister (id : Z) | Select (p : option CachePlugin).
Definition run_op (m : PluginManager) (o : op) : PluginManager :=
  match o with
  | Register p => register_plugin p m
  | Unregister id => unregister_plugin id m
  | Select p => set_alternate_selector p m
  end.

(** Every plugin is found under the id it reports. *)
Lemma registry_keyed ops id p :
  get_plugin id (fold_left run_op ops new_manager) = Some p -> plugin_id p = id.
Proof.
  assert (G : forall m, (forall k q, pm_plugins m !! k = Some q -> plugin_id q = k) ->
    forall k q, pm_plugins (fold_left run_op ops m) !! k = Some q -> plugin_id q = k).
  { induction ops as [|o ops IH]; intros m Hm; [done|]. cbn. apply IH. intros k q Hk. destruct o as [[r|]|i|r]; cbn in Hk; try by apply Hm.
    - destruct (decide (plugin_id r = k)) as [<-|Hne]; [rewrite lookup_insert_eq in Hk; congruence|]. rewrite lookup_insert_ne in Hk by done. by apply Hm.
    - apply lookup_delete_Some in Hk as [_ Hk]. by apply Hm. }
  apply G. cbn. intros k q Hk. by rewrite lookup_empty in Hk.
Qed.
End plugins.
End PluginManager.

(** ** The errors of the C API *)

Module ErrorMap.

Inductive CacheError :=
  | Success | NotFound | Exists_ | NoSpace | IoError | Corrupted | InvalidKey | InvalidArgument | NotInitialized | AlreadyOpen | Closed
  | Busy | Timeout | PluginError | InternalError | TooManyAlternates | AlternateNotFound | ChainCorrupted | IncompatibleVersion
  | OptimizationQueueFull | OptimizationCancelled | TransformFailed | NotOwned | InvalidConfiguration | ResetRefusedLivePeer | ObjectTooLarge.

(** The numbers of the C header, in its order. *)
Inductive CycloneError :=
  | CYCLONE_OK | CYCLONE_NOT_FOUND | CYCLONE_EXISTS | CYCLONE_NO_SPACE | CYCLONE_IO_ERROR | CYCLONE_CORRUPTED | CYCLONE_INVALID_KEY
  | CYCLONE_INVALID_ARGUMENT | CYCLONE_NOT_INITIALIZED | CYCLONE_INTERNAL_ERROR | CYCLONE_RESET_REFUSED_LIVE_PEER
  | CYCLONE_OBJECT_TOO_LARGE | CYCLONE_BUSY | CYCLONE_TIMEOUT | CYCLONE_NOT_OWNED | CYCLONE_INCOMPATIBLE_VERSION.

Definition to_c_error (e : CacheError) : CycloneError :=
  match e with
  | Success => CYCLONE_OK
  | NotFound | AlternateNotFound => CYCLONE_NOT_FOUND
  | Exists_ => CYCLONE_EXISTS
  | NoSpace => CYCLONE_NO_SPACE
  | IoError => CYCLONE_IO_ERROR
  | Corrupted | ChainCorrupted => CYCLONE_CORRUPTED
  | InvalidKey => CYCLONE_INVALID_KEY
  | InvalidArgument | InvalidConfiguration => CYCLONE_INVALID_ARGUMENT
  | NotInitialized | Closed => CYCLONE_NOT_INITIALIZED
  | ResetRefusedLivePeer => CYCLONE_RESET_REFUSED_LIVE_PEER
  | ObjectTooLarge => CYCLONE_OBJECT_TOO_LARGE
  | Busy => CYCLONE_BUSY
  | Timeout => CYCLONE_TIMEOUT
  | NotOwned => CYCLONE_NOT_OWNED
  | IncompatibleVersion => CYCLONE_INCOMPATIBLE_VERSION
  | AlreadyOpen | PluginError | InternalError | TooManyAlternates | OptimizationQueueFull | OptimizationCancelled | TransformFailed =>
      CYCLONE_INTERNAL_ERROR
  end.

(** Only success is reported as success, and only a miss as a miss: a lookup
    that could not tell (Busy) never looks like NotFound. *)
Lemma c_error_faithful e :
  (to_c_error e = CYCLONE_OK <-> e = Success) /\
  (to_c_error e = CYCLONE_NOT_FOUND <-> e = NotFound \/ e = AlternateNotFound).
Proof. split; destruct e; cbn; split; try done; try (by left); try (by right); by intros []. Qed.

End ErrorMap.
